(* ===== verification/_CoqProject ===== *)
-Q . S2P
Prelude.v
GoLib.v
HashPkg.v
Chunks.v
SnappyPkg.v
NbsTable.v
NbsReader.v
NbsManifest.v
NbsMem.v
NbsStore.v
NbsRefine.v
NbsGetMany.v
NbsTheorems.v
EditDistance.v
OrderedParallel.v
TypesCodec.v
TypesType.v
TypesOids.v
TypesValue.v
TypesIntern.v
TypesRoundtrip.v
RollingHash.v
Sequences.v
Chunker.v
Lists.v
Blobs.v
Ordered.v
OrderedDiff.v
ChunkerFacts.v
CursorFacts.v
AppendFacts.v
BuildFacts.v
ResumeFacts.v
AlignFacts.v
SkipFacts.v
FinalizeFacts.v
DoneFacts.v
TreeFacts.v
ConcatFacts.v
EditFacts.v
CacheFacts.v
RecordFacts.v
CollectionFacts.v
OrderFacts.v
IndexedFacts.v
ListFacts.v
BlobFacts.v
OrderedFacts.v
MapFacts.v
SetFacts.v
DiffFacts.v
MapDiffFacts.v
