(* ===== verification/Prelude.v ===== *)
(** * Noms: a verification development

    Noms is a content-addressed database.  Values are encoded into chunks, a
    chunk is named by its hash, and a database is a chunk store with a root
    hash that is moved from one commit to the next by compare-and-set.  The
    development models the Go implementation under src/go.

    ** The parts of the program

    - package [hash]: 20 byte hashes, the first bytes of a SHA-512, and their
      text form in base 32;
    - package [chunks]: chunks, the stream format in which they are sent, the
      interface of chunk stores and the store in memory;
    - package [nbs]: [NomsBlockStore], a chunk store on a directory of immutable
      table files with a manifest that names the root and the tables; new chunks
      are collected in a memory table, which a background compaction writes as a
      table file; records are compressed with snappy (src/vendor);
    - package [types]: types and values, their binary encoding, collections as
      trees of chunks, and diffs;
    - packages [datas], [merge], [diff], [spec] and the programs under src/cmd
      and src/samples, which build on these.

    A value of [types] is written by [EncodeValue] into a chunk; a chunk store
    such as [NomsBlockStore] keeps it under its hash; [DecodeValue] turns it back
    into the value.  The theorems about the value codec and about the store
    are the two halves of that round trip.

    ** The files

    - Prelude.v: outcomes of Go code (a result or a panic), machine integers,
      slices, big-endian numbers, [sort.Sort] as the class [GoSort] (any sorting
      algorithm, stable or not) and the lemmas and tactics on them;
    - GoLib.v: SHA-512, CRC-32C, base 32, decimal numbers and string functions
      of Go's library;
    - HashPkg.v: package [hash];
    - Chunks.v: chunk.go, chunk_serializer.go, memory_store.go,
      memory_root_tracker.go and put_cache.go of package [chunks];
    - SnappyPkg.v: the snappy encoder and decoder; the decoder works on the buffer
      by index as the code does, and is proved against one that appends;
    - NbsTable.v: the table format and the table writer (table.go,
      table_writer.go, [parseTableIndex]);
    - NbsReader.v: the table reader (table_reader.go);
    - NbsManifest.v: the manifest file (manifest.go, file_manifest.go);
    - NbsMem.v: the memory table (mem_table.go);
    - NbsStore.v: sources, compactions, table sets and the store (table_set.go,
      compacting_chunk_source.go, file_table_persister.go,
      mmap_table_reader.go, store.go);
    - NbsRefine.v: the abstract chunk store, the steps of a run and the
      simulation;
    - NbsGetMany.v: [GetMany] followed through all tables;
    - NbsTheorems.v: the theorems about runs of the store;
    - EditDistance.v: edit_distance.go of package [types];
    - TypesCodec.v: number_util.go and the reader and writer of codec.go, with
      Go's [float64] as exact binary fractions and IEEE rounding;
    - TypesType.v: kinds, types, the type cache with its tries, cyclic struct
      types, order ids and unions, and the reading and writing of types
      (noms_kind.go, type.go, type_desc.go, type_cache.go, parts of
      value_encoder.go and value_decoder.go);
    - TypesOids.v: the computation of order ids and the checks of types change
      nothing but order ids;
    - TypesValue.v: values, [EncodeValue] and [DecodeValue];
    - TypesIntern.v: what a type on the heap stands for and that the cache keeps
      one object per type, for types without cycles;
    - TypesRoundtrip.v: encoding and decoding of values;
    - OrderedParallel.v: package [orderedparallel], the pool of goroutines that
      keeps the order of its inputs;
    - RollingHash.v: the rolling hash (buzhash under src/vendor,
      rolling_value_hasher.go);
    - Sequences.v: sequences, cursors and iteration (sequence.go,
      sequence_cursor.go, meta_sequence.go, sequence_iterator.go);
    - Chunker.v: the chunker that makes trees of sequences (sequence_chunker.go,
      sequence_concat.go);
    - Lists.v and Blobs.v: lists and blobs (list.go, blob.go,
      indexed_sequences.go);
    - Ordered.v: maps and sets, the order of values and the search by key (map.go,
      set.go, ordered_sequences.go, less.go and the leaf sequences);
    - OrderedDiff.v: diffs of maps and sets (ordered_sequences_diff.go);
    - ChunkerFacts.v, CursorFacts.v, AppendFacts.v, BuildFacts.v, ResumeFacts.v,
      AlignFacts.v, SkipFacts.v, FinalizeFacts.v, DoneFacts.v, TreeFacts.v,
      ConcatFacts.v and EditFacts.v: the tree of a sequence depends on its items
      only, for all kinds of collections, stated against the class [chunking]
      with its laws;
    - CacheFacts.v and RecordFacts.v: what was computed once with the type cache
      is computed again with the same result, and what the rolling hash is fed;
    - CollectionFacts.v: the laws of [chunking] from laws of the chunk functions of
      a kind of collection (class [collection]);
    - IndexedFacts.v, ListFacts.v and BlobFacts.v: lists and blobs satisfy the
      laws; the theorems about them;
    - OrderFacts.v: comparing, searching and sorting by [Less] is comparing,
      searching and sorting of ranks, which are lists of integers;
    - OrderedFacts.v, MapFacts.v and SetFacts.v: maps and sets satisfy the laws
      (class [ordered]), a search by key finds the position of the key; the
      theorems about them;
    - DiffFacts.v and MapDiffFacts.v: skipping the chunks two trees have in common
      skips no change; the theorems about diffs.

    ** State and effects

    A function that can panic returns an [outcome].  Loops that are not
    structural take fuel and end in the panic [OutOfFuel], which no Go code has;
    the theorems about results prove that the fuel given is enough: the length of
    the input for parsers, the number of records for index scans, the square of
    the number of types on the heap for walks over types, 33 rounds for the
    doubling of a buffer, four times the heights of the trees and the number of
    items for edits of collections, the product of the heights and the numbers of
    items for diffs.  Whether a tree has finite height depends on
    the hashes of its chunks, so these theorems take a tree that has been built.  Integers are in [Z] and wrapped to their width where
    the code computes with them ([u8], [u32], [u64], [s64]).  Go maps are [gmap]s,
    slices are lists, [nil] slices are [None] where the code can tell.  Shared
    mutable objects live on explicit heaps: the compacting sources of the store
    and the types of the type cache.

    Background compactions and other processes are steps: a run of the store is a
    sequence of operations, of compaction steps at any time, of writes of other
    processes to the directory and of restarts.  [PutMany] may refuse chunks, and
    [ToSpecs] may see a table before and after its compaction, which can leave a
    manifest that cannot be opened; both are events of the run that the abstract
    store follows.  An operation or compaction that panics ends the process: there
    is no step for it, and the theorem on progress says when it can happen.  A
    run of the type cache is a sequence of the functions that make types from
    types, of the hash and the serialization of types, of the checks of a
    validating decoder and of reading types; it makes no cycle type.  The reads of [GetMany] run
    concurrently in the code; the theorems quantify over their order.  The
    goroutines of [orderedparallel] are the threads of a step function, and the
    theorem quantifies over schedules; so does the one about the two goroutines of
    a diff, which send streams of changes.

    ** The theorems

    - hash: printing and parsing are inverse and preserve the order; parsing
      accepts exactly the printed hashes; sorted slices are canonical;
    - chunks: a stream parses exactly when it is the serialization of valid
      chunks; the order of insertion does not matter;
    - snappy: decoding inverts encoding, the length bound holds, and decoding
      arbitrary bytes into any buffer stays in range and ends;
    - tables: a written table answers [has], [get], [hasMany], [getMany],
      [extract] and [calcReads] as the list of its chunks does, for all orders of
      reads;
    - manifest: the file round trip, and [Update] as a compare-and-set;
    - store: every run of [NomsBlockStore] refines an abstract chunk store
      ([store_refines]); when operations, compactions and opening the store succeed
      ([store_progress]): compactions unless a chunk was refused, opening unless a
      chunk was put again and [ToSpecs] met the end of its compaction, here or
      in another process; and the batch operations agree with the single ones, [GetMany] for hashes that
      share their 8-byte prefix with no other address of the store;
    - edit distance: when the matrix is within its limit, the splices turn one
      list into the other and are minimal;
    - types: one object per type without cycles ([types_interned]; with cycles
      there can be two, [recursive_type_twice]), and the round trips of numbers
      with at most 1023 fractional bits, of types without cycles and of
      values with such numbers and types;
    - collections: building a list or blob and editing or concatenating it give
      the same tree ([splice_canonical], [concat_canonical],
      [blob_splice_canonical], [blob_readers_concat]), and the items or bytes come
      back ([list_contents], [blob_reader]); maps and sets are determined by what
      they hold, whatever order it was given in ([map_history_independent]), edits
      give the tree of the edited contents ([map_set_canonical],
      [map_remove_canonical], [set_insert_canonical], [set_remove_canonical]), and
      reading them agrees with finite maps and sets ([map_contents],
      [set_contents]); keys that are ordered by hash must not collide with the
      hashes of keys that are ordered by value ([apart]);
    - diffs: the left-right diff reports every difference once and in order
      ([map_diff_exact], [set_diff_exact]), where different chunks of the two trees
      have different hashes ([no_collision]); [Diff] sends on the same changes for
      all schedules ([diff_schedules]);
    - orderedparallel: the results come in order and none is lost, for all
      schedules ([ordered_parallel_correct]);
    - flaws: the statements of kind error describe inputs on which the code does
      not do what its comments say.

    Assumptions about code outside the development are classes or named
    hypotheses: [GoSort] for package sort, [GoHeap] for container/heap, [Snappy] with its laws for the
    compressor that the tables are proved against (discharged by SnappyPkg.v),
    and [universe_ok]: the tables of a run have names without collisions and none
    is named by the hash zero.

    ** Not modelled

    The services of AWS, leveldb and HTTP, reflection in package [marshal], the
    command line programs and samples, and the JavaScript implementation.
    Not modelled yet: diffs of lists, the value store, and the packages
    built on them ([datas], [merge], [diff], [spec], [walk]).  The stop channel of
    diffs is not modelled, and that the top-down diff finds what the left-right diff
    finds is not proved: it panics on some trees ([diff_top_down_panics]).
    Read-ahead of cursors only loads chunks earlier and is left out.  The limit on
    the number of compactions at a time, closing of files and the locks of a
    single process, whose operations are atomic steps, are left out; the receiver
    of [orderedparallel] is always ready. *)

From stdpp Require Export base numbers list gmap strings sorting.
From Stdlib Require Export ZArith Lia.
From Stdlib Require Import Init.Byte Strings.Byte.

#[global] Open Scope Z_scope.

(** ** Outcomes of Go code

    A Go function either returns or panics.  The checks of [d.Chk], [d.PanicIf*]
    and the run-time checks of the language all end in a panic. *)

Inductive gopanic : Type :=
| AssertFailed
| IndexOutOfRange
| ExplicitPanic
| NilDereference
| OutOfFuel.

Inductive outcome (A : Type) : Type :=
| Ok (a : A)
| Panic (why : gopanic).
Arguments Ok {A} a.
Arguments Panic {A} why.

Definition obind {A B} (o : outcome A) (f : A -> outcome B) : outcome B :=
  match o with Ok a => f a | Panic w => Panic w end.

Declare Scope go_scope.
Delimit Scope go_scope with go.
Notation "'let!' x := e 'in' k" := (obind e (fun x => k))
  (at level 10, x pattern, e at level 200, k at level 200,
   format "'[v' 'let!'  x  :=  e  'in' '//' k ']'") : go_scope.
#[global] Open Scope go_scope.

Definition is_ok {A} (o : outcome A) : bool :=
  match o with Ok _ => true | Panic _ => false end.

(** [d.Chk.True], [d.PanicIfFalse]. *)
Definition check (b : bool) : outcome unit :=
  if b then Ok tt else Panic AssertFailed.

(** ** Machine integers *)

Definition u8 (z : Z) : Z := z mod 2 ^ 8.
Definition u32 (z : Z) : Z := z mod 2 ^ 32.
Definition u64 (z : Z) : Z := z mod 2 ^ 64.

(** The signed 64-bit value of a bit pattern. *)
Definition s64 (z : Z) : Z := (z + 2 ^ 63) mod 2 ^ 64 - 2 ^ 63.

(** ** Bytes *)

Abbreviation byte := Init.Byte.byte.
Definition Zb (b : byte) : Z := Z.of_N (Strings.Byte.to_N b).
Definition bZ (z : Z) : byte :=
  match Strings.Byte.of_N (Z.to_N (z mod 256)) with Some b => b | None => "000"%byte end.

(** [bytes.Compare]. *)
Fixpoint lex_compare (l k : list Z) : comparison :=
  match l, k with
  | [], [] => Eq
  | [], _ :: _ => Lt
  | _ :: _, [] => Gt
  | x :: l, y :: k => match x ?= y with Eq => lex_compare l k | c => c end
  end.
Definition bytes_Compare (a b : list byte) : comparison := lex_compare (Zb <$> a) (Zb <$> b).

(** Big-endian digits of [z] in base [base], most significant first. *)
Fixpoint to_digits (base : Z) (n : nat) (z : Z) : list Z :=
  match n with
  | O => []
  | S n' => (z / base ^ Z.of_nat n') mod base :: to_digits base n' z
  end.
Definition of_digits (base : Z) (l : list Z) : Z := foldl (fun acc d => acc * base + d) 0 l.

(** [binary.BigEndian.PutUintN] writes [byte(v >> 8*(n-1))], ..., [byte(v)];
    [UintN] ors the shifted bytes back together. *)
Fixpoint be_put (n : nat) (z : Z) : list byte :=
  match n with
  | O => []
  | S n' => bZ (Z.shiftr z (8 * Z.of_nat n')) :: be_put n' z
  end.
Definition be_get (l : list byte) : Z :=
  foldl (fun acc b => Z.lor (Z.shiftl acc 8) (Zb b)) 0 l.

(** ** Slices

    A Go slice of length [len] panics outside [0 <= lo <= hi <= len]. *)

Definition Zlength {A} (l : list A) : Z := Z.of_nat (length l).

Definition slice_from {A} (l : list A) (lo : Z) : outcome (list A) :=
  if (0 <=? lo) && (lo <=? Zlength l) then Ok (drop (Z.to_nat lo) l) else Panic IndexOutOfRange.
Definition slice {A} (l : list A) (lo hi : Z) : outcome (list A) :=
  if (0 <=? lo) && (lo <=? hi) && (hi <=? Zlength l)
  then Ok (take (Z.to_nat (hi - lo)) (drop (Z.to_nat lo) l)) else Panic IndexOutOfRange.
Definition index {A} (l : list A) (i : Z) : outcome A :=
  if 0 <=? i then match l !! Z.to_nat i with Some a => Ok a | None => Panic IndexOutOfRange end
  else Panic IndexOutOfRange.
Definition set_index {A} (l : list A) (i : Z) (a : A) : outcome (list A) :=
  if (0 <=? i) && (i <? Zlength l) then Ok (<[Z.to_nat i := a]> l) else Panic IndexOutOfRange.

(** [copy(dst[pos:], src)]: overwrites as many bytes as fit; the count is
    returned with the new contents of [dst]. *)
Definition blit {A} (dst : list A) (pos : nat) (src : list A) : list A :=
  take pos dst ++ take (length dst - pos) src ++ drop (pos + length src) dst.
Definition copy_at {A} (dst : list A) (pos : Z) (src : list A) : outcome (Z * list A) :=
  if (0 <=? pos) && (pos <=? Zlength dst)
  then Ok (Z.min (Zlength src) (Zlength dst - pos), blit dst (Z.to_nat pos) src)
  else Panic IndexOutOfRange.
(** [binary.BigEndian.PutUintN(dst[pos:], v)] needs [n] bytes of room. *)
Definition put_at (n : nat) (dst : list byte) (pos v : Z) : outcome (list byte) :=
  if (0 <=? pos) && (pos + Z.of_nat n <=? Zlength dst)
  then Ok (blit dst (Z.to_nat pos) (be_put n v)) else Panic IndexOutOfRange.
(** [binary.BigEndian.UintN(b)]. *)
Definition uint_at (n : nat) (b : list byte) : outcome Z :=
  if Z.of_nat n <=? Zlength b then Ok (be_get (take n b)) else Panic IndexOutOfRange.

(** ** Sorting

    [sort.Sort] permutes its argument into an order its [Less] accepts and says
    nothing about ties: whatever transitive relation [Less] decides, the result
    follows it. *)

Class GoSort := {
  go_sort : forall {A : Type}, (A -> A -> bool) -> list A -> list A;
  go_sort_perm : forall A (less : A -> A -> bool) l, go_sort less l ≡ₚ l;
  go_sort_ordered : forall A (less : A -> A -> bool) (R : A -> A -> Prop) l, Transitive R ->
    (forall x y, less x y = true -> R x y) -> (forall x y, less x y = false -> R y x) -> StronglySorted R (go_sort less l)
}.
(** Most [Less] compare an integer key. *)
Lemma go_sort_sorted `{GoSort} A (less : A -> A -> bool) (key : A -> Z) l :
  (forall x y, less x y = (key x <? key y)) -> StronglySorted (fun x y => key x <= key y) (go_sort less l).
Proof.
  intros Hless. apply go_sort_ordered; [intros x y z; lia|intros x y; rewrite Hless, Z.ltb_lt; lia|intros x y; rewrite Hless, Z.ltb_ge; done].
Qed.

(** ** Automation *)

Create Rewrite HintDb len.
#[export] Hint Rewrite @length_app @length_take @length_drop @length_fmap @length_replicate
  @length_insert @length_cons @length_nil : len.
Ltac len := autorewrite with len in *; simpl length in *; try lia.

(** Splits a goal or hypothesis about [bool] comparisons into linear facts. *)
Ltac bool_lia :=
  repeat match goal with
  | H : (_ && _) = true |- _ => apply andb_true_iff in H as [? ?]
  | H : (_ || _) = false |- _ => apply orb_false_iff in H as [? ?]
  | H : (_ <=? _) = true |- _ => apply Z.leb_le in H
  | H : (_ <=? _) = false |- _ => apply Z.leb_gt in H
  | H : (_ <? _) = true |- _ => apply Z.ltb_lt in H
  | H : (_ <? _) = false |- _ => apply Z.ltb_ge in H
  | H : (_ =? _) = true |- _ => apply Z.eqb_eq in H
  | H : (_ =? _) = false |- _ => apply Z.eqb_neq in H
  end; try lia.

(** Inverts [Ok]-returning binds and checks in the context. *)
Ltac inv_ok :=
  repeat match goal with
  | H : Ok _ = Ok _ |- _ => injection H as H; subst
  | H : Panic _ = Ok _ |- _ => discriminate H
  | H : Ok _ = Panic _ |- _ => discriminate H
  | H : obind ?e _ = Ok _ |- _ =>
      let E := fresh "E" in destruct e eqn:E; simpl in H; [|discriminate H]
  | H : check ?b = Ok _ |- _ => 
      let E := fresh "E" in unfold check in H; destruct b eqn:E; [clear H|discriminate H]
  end.

(** ** Integers *)

Lemma u32_small z : 0 <= z < 2 ^ 32 -> u32 z = z.
Proof. intros. unfold u32. by rewrite Z.mod_small. Qed.
Lemma u64_small z : 0 <= z < 2 ^ 64 -> u64 z = z.
Proof. intros. unfold u64. by rewrite Z.mod_small. Qed.
Lemma u32_range z : 0 <= u32 z < 2 ^ 32.
Proof. apply Z.mod_pos_bound. done. Qed.
Lemma u64_range z : 0 <= u64 z < 2 ^ 64.
Proof. apply Z.mod_pos_bound. done. Qed.

(** ** Bytes and digits *)

Lemma Zb_range b : 0 <= Zb b < 256.
Proof. unfold Zb. pose proof (Strings.Byte.to_N_bounded b). lia. Qed.

Lemma Zb_bZ z : Zb (bZ z) = z mod 256.
Proof.
  unfold Zb, bZ. pose proof (Z.mod_pos_bound z 256 eq_refl) as Hz.
  destruct (Strings.Byte.of_N _) eqn:E.
  - apply Strings.Byte.to_of_N in E. rewrite E. lia.
  - apply Strings.Byte.of_N_None_iff in E. lia.
Qed.

Lemma bZ_Zb b : bZ (Zb b) = b.
Proof.
  unfold bZ, Zb. pose proof (Strings.Byte.to_N_bounded b).
  rewrite Z.mod_small by lia. rewrite N2Z.id. by rewrite Strings.Byte.of_to_N.
Qed.

#[global] Instance Zb_inj : Inj (=) (=) Zb.
Proof. intros a b H. rewrite <- (bZ_Zb a), <- (bZ_Zb b). by rewrite H. Qed.

#[global] Instance byte_eq_dec : EqDecision byte := Strings.Byte.byte_eq_dec.
#[global] Program Instance byte_countable : Countable byte :=
  inj_countable Strings.Byte.to_N Strings.Byte.of_N _.
Next Obligation. apply Strings.Byte.of_to_N. Qed.

Lemma length_to_digits base n z : length (to_digits base n z) = n.
Proof. induction n; simpl; auto. Qed.

Lemma to_digits_range base n z : 0 < base -> Forall (fun d => 0 <= d < base) (to_digits base n z).
Proof. intros. induction n; simpl; constructor; auto with lia. apply Z.mod_pos_bound. lia. Qed.

Lemma of_digits_snoc base l d : of_digits base (l ++ [d]) = of_digits base l * base + d.
Proof. unfold of_digits. by rewrite foldl_app. Qed.

Lemma foldl_digits base l acc :
  foldl (fun a d => a * base + d) acc l = acc * base ^ Zlength l + of_digits base l.
Proof.
  unfold of_digits, Zlength. revert acc. induction l as [|d l IH]; intros acc; cbn [foldl].
  - simpl. lia.
  - rewrite IH, (IH (0 * base + d)). rewrite length_cons, Nat2Z.inj_succ, Z.pow_succ_r by lia. lia.
Qed.

Lemma of_digits_cons base d l : of_digits base (d :: l) = d * base ^ Zlength l + of_digits base l.
Proof. unfold of_digits at 1. simpl. by rewrite foldl_digits. Qed.

Lemma of_digits_bound base l : 0 < base -> Forall (fun d => 0 <= d < base) l ->
  0 <= of_digits base l < base ^ Zlength l.
Proof.
  intros Hb Hl. induction Hl as [|d l Hd Hl IH].
  - unfold of_digits, Zlength; simpl. lia.
  - rewrite of_digits_cons. unfold Zlength in *.
    rewrite length_cons, Nat2Z.inj_succ, Z.pow_succ_r by lia. nia.
Qed.

Lemma of_to_digits base n z : 0 < base -> of_digits base (to_digits base n z) = z mod base ^ Z.of_nat n.
Proof.
  intros Hb. induction n as [|n IH]; cbn [to_digits].
  - unfold of_digits; simpl. by rewrite Z.mod_1_r.
  - rewrite of_digits_cons, IH. unfold Zlength. rewrite length_to_digits.
    rewrite Nat2Z.inj_succ, Z.pow_succ_r by lia.
    rewrite (Z.mul_comm base), Z.rem_mul_r by lia. lia.
Qed.

Lemma to_of_digits base l : 0 < base -> Forall (fun d => 0 <= d < base) l ->
  to_digits base (length l) (of_digits base l) = l.
Proof.
  intros Hb Hl. assert (forall l k, Forall (fun d => 0 <= d < base) l -> 
    to_digits base (length l) (k * base ^ Zlength l + of_digits base l) = l) as Hgen.
  { clear l Hl. intros l. induction l as [|d l IH]; intros k Hl; [done|]. inv Hl.
    pose proof (of_digits_bound base l Hb ltac:(done)) as Hbd.
    cbn [to_digits length]. rewrite of_digits_cons. unfold Zlength in *.
    rewrite length_cons, Nat2Z.inj_succ, Z.pow_succ_r by lia.
    replace (k * (base * base ^ Z.of_nat (length l)) + (d * base ^ Z.of_nat (length l) + of_digits base l))
      with ((k * base + d) * base ^ Z.of_nat (length l) + of_digits base l) by lia.
    f_equal; [|by apply IH].
    rewrite Z.div_add_l, Z.div_small by lia.
    rewrite Z.add_0_r, Z.add_comm, Z.mod_add, Z.mod_small by lia. lia. }
  pose proof (Hgen l 0 Hl) as H0. by rewrite Z.mul_0_l, Z.add_0_l in H0.
Qed.

(** Comparing digit strings of one length compares the numbers. *)
Lemma lex_compare_digits base l k : 0 < base -> length l = length k ->
  Forall (fun d => 0 <= d < base) l -> Forall (fun d => 0 <= d < base) k ->
  lex_compare l k = (of_digits base l ?= of_digits base k).
Proof.
  intros Hb. revert k. induction l as [|x l IH]; intros [|y k] Hlen Hl Hk; try done.
  inv Hl. inv Hk. simpl in *. assert (length l = length k) as Hlk by lia.
  pose proof (of_digits_bound base l Hb ltac:(done)). pose proof (of_digits_bound base k Hb ltac:(done)).
  rewrite !of_digits_cons, (IH k) by done. unfold Zlength in *. rewrite Hlk in *.
  destruct (Z.compare_spec x y) as [->|Hxy|Hxy]; symmetry.
  - apply Z.add_compare_mono_l.
  - apply Z.compare_lt_iff. nia.
  - apply Z.compare_gt_iff. nia.
Qed.

Lemma be_put_digits n z : Zb <$> be_put n z = to_digits 256 n z.
Proof.
  induction n as [|n IH]; [done|]. cbn [be_put to_digits fmap list_fmap]. rewrite IH. f_equal.
  rewrite Zb_bZ, Z.shiftr_div_pow2 by lia. rewrite Z.pow_mul_r by lia. done.
Qed.

(** A boolean property of a small range, by evaluation. *)
Lemma Z_range_forallb (n : nat) (P : Z -> bool) : forallb (fun k => P (Z.of_nat k)) (seq 0 n) = true ->
  forall z, 0 <= z < Z.of_nat n -> P z = true.
Proof.
  intros H z Hz. rewrite forallb_forall in H. specialize (H (Z.to_nat z)). rewrite Z2Nat.id in H by lia.
  apply H, in_seq. lia.
Qed.

Lemma lor_shift a b n : 0 <= n -> 0 <= a < 2 ^ n -> Z.lor a (Z.shiftl b n) = a + b * 2 ^ n.
Proof.
  intros Hn Ha. rewrite <- Z.add_nocarry_lor.
  - by rewrite Z.shiftl_mul_pow2.
  - apply Z.bits_inj'. intros k Hk. rewrite Z.land_spec, Z.bits_0.
    destruct (decide (k < n)) as [Hlt|Hge].
    + rewrite Z.shiftl_spec_low, andb_false_r by lia. done.
    + replace a with (a mod 2 ^ n) by (apply Z.mod_small; lia). rewrite Z.mod_pow2_bits_high by lia. done.
Qed.

Lemma lor_shift_byte acc b : 0 <= acc -> Z.lor (Z.shiftl acc 8) (Zb b) = acc * 256 + Zb b.
Proof.
  intros. pose proof (Zb_range b) as Hb.
  rewrite Z.lor_comm, <- Z.add_nocarry_lor.
  - rewrite Z.shiftl_mul_pow2 by lia. lia.
  - apply Z.bits_inj_iff'. intros i Hi. rewrite Z.land_spec, Z.bits_0.
    destruct (Z.lt_ge_cases i 8).
    + rewrite Z.shiftl_spec_low by lia. apply andb_false_r.
    + rewrite (Z.bits_above_log2 (Zb b)); [done|lia|].
      destruct (Z.eq_dec (Zb b) 0) as [->|]; [simpl; lia|].
      apply Z.log2_lt_pow2; [lia|]. apply Z.lt_le_trans with (2 ^ 8); [lia|].
      apply Z.pow_le_mono_r; lia.
Qed.

Lemma be_get_digits l : be_get l = of_digits 256 (Zb <$> l).
Proof.
  unfold be_get, of_digits. assert (forall acc, 0 <= acc ->
    foldl (fun a b => Z.lor (Z.shiftl a 8) (Zb b)) acc l =
    foldl (fun a d => a * 256 + d) acc (Zb <$> l)) as Hgen; [|by apply Hgen].
  induction l as [|b l IH]; intros acc Hacc; [done|]. cbn [foldl fmap list_fmap].
  rewrite lor_shift_byte by done. apply IH. pose proof (Zb_range b). lia.
Qed.

Lemma Zb_fmap_range l : Forall (fun d => 0 <= d < 256) (Zb <$> l).
Proof. rewrite Forall_fmap. apply Forall_true. intros b. apply Zb_range. Qed.

Lemma length_be_put n z : length (be_put n z) = n.
Proof. by rewrite <- (length_fmap Zb), be_put_digits, length_to_digits. Qed.
#[export] Hint Rewrite length_be_put : len.

Lemma be_get_put n z : be_get (be_put n z) = z mod 256 ^ Z.of_nat n.
Proof. rewrite be_get_digits, be_put_digits. by apply of_to_digits. Qed.

Lemma be_get_bound l : 0 <= be_get l < 256 ^ Zlength l.
Proof.
  rewrite be_get_digits. pose proof (of_digits_bound 256 (Zb <$> l) eq_refl (Zb_fmap_range l)) as H.
  unfold Zlength in *. by rewrite length_fmap in H.
Qed.

Lemma be_put_get l : be_put (length l) (be_get l) = l.
Proof.
  apply (inj (fmap Zb)). rewrite be_put_digits, be_get_digits, <- (length_fmap Zb).
  apply to_of_digits; [done|apply Zb_fmap_range].
Qed.

Lemma be_put_inj n x y : 0 <= x < 256 ^ Z.of_nat n -> 0 <= y < 256 ^ Z.of_nat n ->
  be_put n x = be_put n y -> x = y.
Proof.
  intros Hx Hy H. apply (f_equal be_get) in H. rewrite !be_get_put in H.
  by rewrite !Z.mod_small in H.
Qed.

Lemma be_get_inj l k : length l = length k -> be_get l = be_get k -> l = k.
Proof. intros Hlen H. rewrite <- (be_put_get l), <- (be_put_get k). by rewrite Hlen, H. Qed.

Lemma bytes_Compare_be l k : length l = length k -> bytes_Compare l k = (be_get l ?= be_get k).
Proof.
  intros. unfold bytes_Compare. rewrite !be_get_digits. apply lex_compare_digits; [done| |apply Zb_fmap_range..].
  by rewrite !length_fmap.
Qed.

Lemma lex_compare_refl l : lex_compare l l = Eq.
Proof. induction l; simpl; [done|]. by rewrite Z.compare_refl. Qed.

Lemma lex_compare_eq l k : lex_compare l k = Eq -> l = k.
Proof.
  revert k. induction l as [|x l IH]; intros [|y k]; simpl; try done.
  destruct (Z.compare_spec x y); try done. intros. subst. f_equal. auto.
Qed.

Lemma bytes_Compare_eq l k : bytes_Compare l k = Eq <-> l = k.
Proof.
  unfold bytes_Compare. split; [|intros ->; apply lex_compare_refl].
  intros H%lex_compare_eq. by apply (inj (fmap Zb)) in H.
Qed.

Lemma lex_compare_antisym l k : lex_compare k l = CompOpp (lex_compare l k).
Proof.
  revert k. induction l as [|x l IH]; intros [|y k]; simpl; try done.
  rewrite (Z.compare_antisym x y). destruct (x ?= y); simpl; auto.
Qed.

(** ** Slices *)

Lemma Zlength_nonneg {A} (l : list A) : 0 <= Zlength l.
Proof. unfold Zlength. lia. Qed.
Lemma Zlength_app {A} (l k : list A) : Zlength (l ++ k) = Zlength l + Zlength k.
Proof. unfold Zlength. rewrite length_app. lia. Qed.
Lemma Zlength_cons {A} (a : A) l : Zlength (a :: l) = 1 + Zlength l.
Proof. unfold Zlength. simpl. lia. Qed.
Lemma Zlength_nat {A} (l : list A) : Z.to_nat (Zlength l) = length l.
Proof. unfold Zlength. lia. Qed.
Lemma Zlength_fmap {A B} (f : A -> B) (l : list A) : Zlength (f <$> l) = Zlength l.
Proof. unfold Zlength. by rewrite length_fmap. Qed.
Lemma Zlength_be_put n z : Zlength (be_put n z) = Z.of_nat n.
Proof. unfold Zlength. by rewrite length_be_put. Qed.

Lemma slice_from_ok {A} (l : list A) lo : 0 <= lo <= Zlength l -> slice_from l lo = Ok (drop (Z.to_nat lo) l).
Proof. intros. unfold slice_from. rewrite (proj2 (Z.leb_le _ _)), (proj2 (Z.leb_le _ _)) by lia. done. Qed.

Lemma slice_ok {A} (l : list A) lo hi : 0 <= lo <= hi -> hi <= Zlength l ->
  slice l lo hi = Ok (take (Z.to_nat (hi - lo)) (drop (Z.to_nat lo) l)).
Proof. intros. unfold slice. rewrite !(proj2 (Z.leb_le _ _)) by lia. done. Qed.

(** The slice of a concatenation that starts after a prefix. *)
Lemma slice_from_app {A} (a b : list A) lo : lo = Zlength a -> slice_from (a ++ b) lo = Ok b.
Proof.
  intros ->. rewrite slice_from_ok.
  - by rewrite Zlength_nat, drop_app_length.
  - rewrite Zlength_app. pose proof (Zlength_nonneg a). pose proof (Zlength_nonneg b). lia.
Qed.

Lemma slice_app {A} (a b c : list A) lo hi : lo = Zlength a -> hi = lo + Zlength b ->
  slice (a ++ b ++ c) lo hi = Ok b.
Proof.
  intros -> ->. pose proof (Zlength_nonneg a). pose proof (Zlength_nonneg b). pose proof (Zlength_nonneg c).
  rewrite slice_ok; rewrite ?Zlength_app; try lia.
  rewrite Zlength_nat, drop_app_length. replace (_ + _ - _) with (Zlength b) by lia.
  by rewrite Zlength_nat, take_app_length.
Qed.

(** A slice of a slice. *)
Lemma slice_slice {A} (l m : list A) lo hi x y : slice l lo hi = Ok m -> 0 <= x <= y -> y <= hi - lo ->
  slice m x y = slice l (lo + x) (lo + y).
Proof.
  unfold slice at 1. destruct (_ && _) eqn:E; [|done]. bool_lia. intros [= <-] Hx Hy.
  pose proof (Zlength_nonneg l). rewrite !slice_ok.
  - f_equal. rewrite skipn_firstn_comm, take_take, drop_drop. f_equal; [lia|]. f_equal. lia.
  - lia.
  - lia.
  - lia.
  - unfold Zlength in *. rewrite length_take, length_drop. lia.
Qed.

Lemma index_lookup {A} (l : list A) i a : 0 <= i -> l !! Z.to_nat i = Some a -> index l i = Ok a.
Proof. intros Hi H. unfold index. rewrite (proj2 (Z.leb_le _ _)) by lia. by rewrite H. Qed.

Lemma index_Ok {A} (l : list A) i a : index l i = Ok a -> 0 <= i < Zlength l /\ l !! Z.to_nat i = Some a.
Proof.
  unfold index. destruct (0 <=? i) eqn:E; [|done]. destruct (l !! Z.to_nat i) eqn:E2; [|done].
  intros [= ->]. split; [|done]. apply lookup_lt_Some in E2. unfold Zlength. bool_lia.
Qed.

Lemma index_is_ok {A} (l : list A) i : 0 <= i < Zlength l -> exists a, index l i = Ok a /\ l !! Z.to_nat i = Some a.
Proof.
  intros H. destruct (lookup_lt_is_Some_2 l (Z.to_nat i)) as [a Ha]; [unfold Zlength in H; lia|].
  exists a. split; [|done]. apply index_lookup; [lia|done].
Qed.

Lemma uint_at_app n b l : length b = n -> uint_at n (b ++ l) = Ok (be_get b).
Proof.
  intros <-. unfold uint_at. rewrite (proj2 (Z.leb_le _ _)).
  - by rewrite take_app_length.
  - rewrite Zlength_app. pose proof (Zlength_nonneg l). unfold Zlength in *. lia.
Qed.

Lemma uint_at_put n z l : 0 <= z < 256 ^ Z.of_nat n -> uint_at n (be_put n z ++ l) = Ok z.
Proof.
  intros. rewrite uint_at_app by apply length_be_put. by rewrite be_get_put, Z.mod_small.
Qed.

(** ** Overwriting part of a buffer *)

Lemma length_blit {A} (dst : list A) pos src : (pos + length src <= length dst)%nat ->
  length (blit dst pos src) = length dst.
Proof. intros. unfold blit. len. Qed.

Lemma blit_app {A} (a b c src : list A) pos : pos = length a -> length src = length b ->
  blit (a ++ b ++ c) pos src = a ++ src ++ c.
Proof.
  intros -> Hs. unfold blit. rewrite take_app_length, !length_app.
  rewrite take_ge by lia. rewrite Hs. rewrite (app_assoc a b c), <- length_app, drop_app_length. done.
Qed.

Lemma split_at {A} (l : list A) pos n : (pos + n <= length l)%nat ->
  exists a b c, l = a ++ b ++ c /\ length a = pos /\ length b = n.
Proof.
  intros. exists (take pos l), (take n (drop pos l)), (drop n (drop pos l)).
  rewrite !take_drop. split; [done|]. len.
Qed.

Lemma put_at_app n a b c v pos : pos = Zlength a -> length b = n ->
  put_at n (a ++ b ++ c) pos v = Ok (a ++ be_put n v ++ c).
Proof.
  intros -> Hb. unfold put_at. pose proof (Zlength_nonneg a). pose proof (Zlength_nonneg c).
  rewrite !(proj2 (Z.leb_le _ _)).
  - simpl. rewrite Zlength_nat, blit_app; [done|done|]. by rewrite length_be_put.
  - rewrite !Zlength_app. unfold Zlength in *. lia.
  - lia.
Qed.

Lemma copy_at_app {A} (a b c src : list A) pos : pos = Zlength a -> length src = length b ->
  copy_at (a ++ b ++ c) pos src = Ok (Zlength src, a ++ src ++ c).
Proof.
  intros -> Hs. unfold copy_at. pose proof (Zlength_nonneg a). pose proof (Zlength_nonneg b). pose proof (Zlength_nonneg c).
  rewrite !Zlength_app, !(proj2 (Z.leb_le _ _)) by lia. simpl.
  rewrite Zlength_nat, blit_app by done. f_equal. f_equal. unfold Zlength in *. lia.
Qed.

(** ** Sorting *)

Lemma StronglySorted_weaken {A} (R S : A -> A -> Prop) l :
  (forall x y, R x y -> S x y) -> StronglySorted R l -> StronglySorted S l.
Proof. intros HRS. induction 1; constructor; [done|]. eapply Forall_impl; eauto. Qed.

Lemma StronglySorted_key_fmap {A} (key : A -> Z) (f : A -> A) l : (forall x, key (f x) = key x) ->
  StronglySorted (fun x y => key x <= key y) l -> StronglySorted (fun x y => key x <= key y) (f <$> l).
Proof.
  intros Hf. induction 1 as [|a l _ IH Hall]; [constructor|]. cbn [fmap list_fmap]. constructor; [done|].
  apply Forall_fmap. eapply Forall_impl; [exact Hall|]. intros x. unfold compose. by rewrite !Hf.
Qed.

Lemma strict_key_inj {A} (key : A -> Z) l x y : StronglySorted (fun x y => key x < key y) l ->
  x ∈ l -> y ∈ l -> key x = key y -> x = y.
Proof.
  induction 1 as [|a l _ IH Hall]; [by intros ?%elem_of_nil|]. rewrite Forall_forall in Hall.
  intros [->|Hx]%elem_of_cons [->|Hy]%elem_of_cons Hk; [done| | |by apply IH].
  - specialize (Hall _ Hy). lia.
  - specialize (Hall _ Hx). lia.
Qed.

(** Sorting by a key brings back the list that has its keys in order. *)
Lemma go_sort_restore `{GoSort} {A} (less : A -> A -> bool) (key : A -> Z) l k :
  (forall x y, less x y = (key x <? key y)) -> l ≡ₚ k -> StronglySorted (fun x y => key x < key y) k -> go_sort less l = k.
Proof.
  intros Hless Hp Hs. apply (StronglySorted_unique_strong (fun x y => key x <= key y)).
  - intros x y Hx Hy ? ?. apply (strict_key_inj key k); [done| |done|lia]. by rewrite go_sort_perm, Hp in Hx.
  - by apply go_sort_sorted.
  - eapply StronglySorted_weaken; [|exact Hs]. simpl. intros. lia.
  - by rewrite go_sort_perm.
Qed.


(** An instance, used by the witnesses: insertion sort. *)
Fixpoint insert_sorted {A} (less : A -> A -> bool) (x : A) (l : list A) : list A :=
  match l with [] => [x] | y :: l' => if less y x then y :: insert_sorted less x l' else x :: l end.
Lemma insert_sorted_perm {A} (less : A -> A -> bool) x l : insert_sorted less x l ≡ₚ x :: l.
Proof. induction l as [|y l IH]; [done|]. cbn [insert_sorted]. destruct (less y x); [|done]. rewrite IH. apply perm_swap. Qed.
Lemma insert_sorted_ordered {A} (less : A -> A -> bool) (R : A -> A -> Prop) x l : Transitive R -> (forall x y, less x y = true -> R x y) -> (forall x y, less x y = false -> R y x) ->
  StronglySorted R l -> StronglySorted R (insert_sorted less x l).
Proof.
  intros Ht Hlt Hge. induction 1 as [|y l Hl IH Hy]; [repeat constructor|]. cbn [insert_sorted]. destruct (less y x) eqn:Hyx.
  - constructor; [done|]. rewrite insert_sorted_perm. constructor; [by apply Hlt|done].
  - constructor; [by constructor|]. constructor; [by apply Hge|]. eapply Forall_impl; [exact Hy|]. cbn. intros z Hz. eapply Ht; [by apply Hge|done].
Qed.
Program Definition go_insertion_sort : GoSort := {|
  go_sort A less := foldr (insert_sorted less) []
|}.
Next Obligation. intros A less l. induction l as [|x l IH]; [done|]. cbn [foldr]. by rewrite insert_sorted_perm, IH. Qed.
Next Obligation. intros A less R l Ht Hlt Hge. induction l as [|x l IH]; [constructor|]. cbn [foldr]. by apply insert_sorted_ordered. Qed.

#[global] Arguments be_put : simpl never.
#[global] Arguments be_get : simpl never.
#[global] Arguments to_digits : simpl never.
#[global] Arguments of_digits : simpl never.
#[global] Arguments Zlength : simpl never.
#[global] Arguments u32 : simpl never.
#[global] Arguments u64 : simpl never.
