(* ===== verification/GoLib.v ===== *)
(** * The parts of Go's standard library the modelled code calls

    [crypto/sha512], [hash/crc32] with the Castagnoli table, [encoding/base32]
    with the alphabet of Noms, [encoding/binary] varints, [strings.Split] and
    [strings.Join], [strconv.FormatUint] and [strconv.ParseUint].  Strings are
    byte sequences, as in Go.  Each definition is executable and is tried on a
    published test vector below its lemmas. *)

From S2P Require Import Prelude.
From Stdlib Require Strings.String.

(** A string literal as its bytes. *)
Definition bs (s : String.string) : list byte := String.list_byte_of_string s.

(** ** SHA-512 *)

Module Sha512.

Definition K : list Z :=
  [0x428a2f98d728ae22; 0x7137449123ef65cd; 0xb5c0fbcfec4d3b2f; 0xe9b5dba58189dbbc;
   0x3956c25bf348b538; 0x59f111f1b605d019; 0x923f82a4af194f9b; 0xab1c5ed5da6d8118;
   0xd807aa98a3030242; 0x12835b0145706fbe; 0x243185be4ee4b28c; 0x550c7dc3d5ffb4e2;
   0x72be5d74f27b896f; 0x80deb1fe3b1696b1; 0x9bdc06a725c71235; 0xc19bf174cf692694;
   0xe49b69c19ef14ad2; 0xefbe4786384f25e3; 0x0fc19dc68b8cd5b5; 0x240ca1cc77ac9c65;
   0x2de92c6f592b0275; 0x4a7484aa6ea6e483; 0x5cb0a9dcbd41fbd4; 0x76f988da831153b5;
   0x983e5152ee66dfab; 0xa831c66d2db43210; 0xb00327c898fb213f; 0xbf597fc7beef0ee4;
   0xc6e00bf33da88fc2; 0xd5a79147930aa725; 0x06ca6351e003826f; 0x142929670a0e6e70;
   0x27b70a8546d22ffc; 0x2e1b21385c26c926; 0x4d2c6dfc5ac42aed; 0x53380d139d95b3df;
   0x650a73548baf63de; 0x766a0abb3c77b2a8; 0x81c2c92e47edaee6; 0x92722c851482353b;
   0xa2bfe8a14cf10364; 0xa81a664bbc423001; 0xc24b8b70d0f89791; 0xc76c51a30654be30;
   0xd192e819d6ef5218; 0xd69906245565a910; 0xf40e35855771202a; 0x106aa07032bbd1b8;
   0x19a4c116b8d2d0c8; 0x1e376c085141ab53; 0x2748774cdf8eeb99; 0x34b0bcb5e19b48a8;
   0x391c0cb3c5c95a63; 0x4ed8aa4ae3418acb; 0x5b9cca4f7763e373; 0x682e6ff3d6b2b8a3;
   0x748f82ee5defb2fc; 0x78a5636f43172f60; 0x84c87814a1f0ab72; 0x8cc702081a6439ec;
   0x90befffa23631e28; 0xa4506cebde82bde9; 0xbef9a3f7b2c67915; 0xc67178f2e372532b;
   0xca273eceea26619c; 0xd186b8c721c0c207; 0xeada7dd6cde0eb1e; 0xf57d4f7fee6ed178;
   0x06f067aa72176fba; 0x0a637dc5a2c898a6; 0x113f9804bef90dae; 0x1b710b35131c471b;
   0x28db77f523047d84; 0x32caab7b40c72493; 0x3c9ebe0a15c9bebc; 0x431d67c49c100d4c;
   0x4cc5d4becb3e42b6; 0x597f299cfc657e2a; 0x5fcb6fab3ad6faec; 0x6c44198c4a475817].
Definition H0 : list Z :=
  [0x6a09e667f3bcc908; 0xbb67ae8584caa73b; 0x3c6ef372fe94f82b; 0xa54ff53a5f1d36f1;
   0x510e527fade682d1; 0x9b05688c2b3e6c1f; 0x1f83d9abfb41bd6b; 0x5be0cd19137e2179].

Definition rotr (x n : Z) : Z := Z.lor (Z.shiftr x n) (u64 (Z.shiftl x (64 - n))).
Definition bigS0 (x : Z) : Z := Z.lxor (rotr x 28) (Z.lxor (rotr x 34) (rotr x 39)).
Definition bigS1 (x : Z) : Z := Z.lxor (rotr x 14) (Z.lxor (rotr x 18) (rotr x 41)).
Definition smallS0 (x : Z) : Z := Z.lxor (rotr x 1) (Z.lxor (rotr x 8) (Z.shiftr x 7)).
Definition smallS1 (x : Z) : Z := Z.lxor (rotr x 19) (Z.lxor (rotr x 61) (Z.shiftr x 6)).
Definition ch (x y z : Z) : Z := Z.lxor (Z.land x y) (Z.land (Z.lxor x (2 ^ 64 - 1)) z).
Definition maj (x y z : Z) : Z := Z.lxor (Z.land x y) (Z.lxor (Z.land x z) (Z.land y z)).

(** The message schedule, newest word first. *)
Fixpoint expand (n : nat) (ws : list Z) : list Z :=
  match n with
  | O => ws
  | S n' =>
      let w := u64 (smallS1 (nth 1 ws 0) + nth 6 ws 0 + smallS0 (nth 14 ws 0) + nth 15 ws 0) in
      expand n' (w :: ws)
  end.

Definition round (st : list Z) (kw : Z * Z) : list Z :=
  match st with
  | [a; b; c; d; e; f; g; h] =>
      let t1 := u64 (h + bigS1 e + ch e f g + fst kw + snd kw) in
      let t2 := u64 (bigS0 a + maj a b c) in
      [u64 (t1 + t2); a; b; c; u64 (d + t1); e; f; g]
  | _ => st
  end.

Fixpoint words (n : nat) (l : list byte) : list Z :=
  match n with O => [] | S n' => be_get (take 8 l) :: words n' (drop 8 l) end.

Definition block (st : list Z) (b : list byte) : list Z :=
  let ws := rev (expand 64 (rev (words 16 b))) in
  zip_with (fun x y => u64 (x + y)) st (foldl round st (zip K ws)).

Fixpoint blocks (n : nat) (st : list Z) (l : list byte) : list Z :=
  match n with O => st | S n' => blocks n' (block st (take 128 l)) (drop 128 l) end.

(** The message, a one bit, zeros up to 112 modulo 128, the bit length. *)
Definition pad (l : list byte) : list byte :=
  let n := Zlength l in
  l ++ bZ 128 :: replicate (Z.to_nat ((111 - n) mod 128)) (bZ 0) ++ be_put 16 (8 * n).

(** Always eight words. *)
Definition digest (l : list byte) : list Z :=
  take 8 (blocks (Nat.div (length (pad l)) 128) H0 (pad l) ++ replicate 8 0).

Definition Sum512 (l : list byte) : list byte := concat (be_put 8 <$> digest l).

End Sha512.

(** ** CRC-32C: [crc32.Update(0, crc32.MakeTable(crc32.Castagnoli), b)] *)

Module Crc32.

Definition poly : Z := 0x82f63b78.
Fixpoint shift_bits (n : nat) (c : Z) : Z :=
  match n with
  | O => c
  | S n' => shift_bits n' (if Z.odd c then Z.lxor (Z.shiftr c 1) poly else Z.shiftr c 1)
  end.
Definition step (c : Z) (b : byte) : Z :=
  Z.lxor (shift_bits 8 (Z.land (Z.lxor c (Zb b)) 255)) (Z.shiftr c 8).
Definition Update (l : list byte) : Z :=
  u32 (Z.lxor (foldl step (2 ^ 32 - 1) l) (2 ^ 32 - 1)).

End Crc32.

(** ** Base 32: [base32.NewEncoding("0123456789abcdefghijklmnopqrstuv")] *)

Module Base32.

Definition enc_char (d : Z) : byte := if d <? 10 then bZ (48 + d) else bZ (87 + d).
Definition dec_char (c : byte) : option Z :=
  let z := Zb c in
  if (48 <=? z) && (z <=? 57) then Some (z - 48)
  else if (97 <=? z) && (z <=? 118) then Some (z - 87) else None.
Definition pad_char : byte := bZ 61.

(** Five bytes are eight base 32 digits of one 40-bit number. *)
Definition quantum (l : list byte) : list byte := enc_char <$> to_digits 32 8 (be_get l).

(** How many digits carry the [n] bytes of a last, short group. *)
Definition short_digits (n : nat) : nat :=
  match n with 1 => 2 | 2 => 4 | 3 => 5 | 4 => 7 | _ => 8 end%nat.
Definition short_bytes (n : nat) : nat :=
  match n with 2 => 1 | 4 => 2 | 5 => 3 | 7 => 4 | _ => 5 end%nat.
Definition last_quantum (l : list byte) : list byte :=
  let k := short_digits (length l) in
  take k (quantum (l ++ replicate (5 - length l) (bZ 0))) ++ replicate (8 - k) pad_char.

Fixpoint EncodeToString (l : list byte) : list byte :=
  match l with
  | b0 :: b1 :: b2 :: b3 :: b4 :: rest => quantum [b0; b1; b2; b3; b4] ++ EncodeToString rest
  | [] => []
  | _ => last_quantum l
  end.

(** Reads up to eight digits; [None] is corrupt input, the flag says that
    padding ended the input. *)
Fixpoint read_quantum (room : nat) (dbuf : list Z) (src : list byte) : option (list Z * list byte * bool) :=
  match room with
  | O => Some (dbuf, src, false)
  | S room' =>
      match src with
      | [] => None
      | c :: src' =>
          let j := length dbuf in
          if bool_decide (c = pad_char) && (2 <=? j)%nat && (length src' <? 8)%nat then
            if (length src' + j <? 7)%nat then None
            else if forallb (fun b => bool_decide (b = pad_char)) (take (7 - j) src') then
              match j with 1 | 3 | 6 => None | _ => Some (dbuf, src', true) end%nat
            else None
          else match dec_char c with
               | Some d => read_quantum room' (dbuf ++ [d]) src'
               | None => None
               end
      end
  end.

(** What has been decoded when the input ends or turns out corrupt. *)
Fixpoint decode_loop (fuel : nat) (src : list byte) : list byte :=
  match fuel, src with
  | O, _ | _, [] => []
  | S fuel', _ =>
      match read_quantum 8 [] src with
      | None => []
      | Some (dbuf, rest, fin) =>
          let group := be_put 5 (of_digits 32 (dbuf ++ replicate (8 - length dbuf) 0)) in
          if fin then take (short_bytes (length dbuf)) group
          else group ++ decode_loop fuel' rest
      end
  end.

Definition strip_newlines (l : list byte) : list byte :=
  filter (fun b => ~ (Zb b = 10 \/ Zb b = 13)) l.
(** The bytes [DecodeString] and [Decode] deliver, their error left out: both
    callers ignore it. *)
Definition Decode (s : list byte) : list byte :=
  let s := strip_newlines s in decode_loop (length s) s.

End Base32.

(** ** [strings] and [strconv] *)

Module GoStrings.

(** [strings.Split] by a one-byte separator. *)
Fixpoint split_aux (sep : byte) (cur : list byte) (s : list byte) : list (list byte) :=
  match s with
  | [] => [rev cur]
  | c :: s' => if bool_decide (c = sep) then rev cur :: split_aux sep [] s' else split_aux sep (c :: cur) s'
  end.
Definition Split (sep : byte) (s : list byte) : list (list byte) := split_aux sep [] s.
Fixpoint Join (sep : byte) (l : list (list byte)) : list byte :=
  match l with
  | [] => []
  | [s] => s
  | s :: l' => s ++ sep :: Join sep l'
  end.

Fixpoint strip_zeros (l : list Z) : list Z :=
  match l with
  | 0 :: l' => strip_zeros l'
  | _ => l
  end.
Definition enc_digits (ds : list Z) : list byte := (fun d => bZ (48 + d)) <$> ds.
(** [strconv.FormatUint(v, 10)]: twenty digits hold a 64-bit value. *)
Definition FormatUint (v : Z) : list byte :=
  match strip_zeros (to_digits 10 20 v) with
  | [] => [bZ 48]
  | ds => enc_digits ds
  end.

Definition dec_digit (c : byte) : option Z :=
  let z := Zb c in if (48 <=? z) && (z <=? 57) then Some (z - 48) else None.
(** [strconv.ParseUint(s, 10, 32)]; [None] is a syntax or range error. *)
Definition ParseUint32 (s : list byte) : option Z :=
  match s with
  | [] => None
  | _ => ds ← mapM dec_digit s;
         let v := of_digits 10 ds in
         if v <? 2 ^ 32 then Some v else None
  end.

End GoStrings.

(** ** encoding/binary: unsigned varints *)

Module Binary.

Fixpoint put_uvarint (fuel : nat) (x : Z) : list byte :=
  match fuel with
  | O => []
  | S fuel' => if 0x80 <=? x then bZ (Z.lor x 0x80) :: put_uvarint fuel' (Z.shiftr x 7) else [bZ x]
  end.
(** Ten groups of seven bits hold a [uint64]. *)
Definition PutUvarint (x : Z) : list byte := put_uvarint 10 x.

(** The value and the number of bytes read: 0 when the buffer is too small,
    negative when the value overflows 64 bits. *)
Fixpoint uvarint (i : Z) (x s : Z) (buf : list byte) : Z * Z :=
  match buf with
  | [] => (0, 0)
  | b :: buf =>
      if Zb b <? 0x80 then
        if (9 <? i) || ((i =? 9) && (1 <? Zb b)) then (0, - (i + 1))
        else (Z.lor x (u64 (Z.shiftl (Zb b) s)), i + 1)
      else uvarint (i + 1) (Z.lor x (u64 (Z.shiftl (Z.land (Zb b) 0x7f) s))) (s + 7) buf
  end.
Definition Uvarint (buf : list byte) : Z * Z := uvarint 0 0 0 buf.

End Binary.

(** ** Lemmas *)

Lemma length_Sum512 l : length (Sha512.Sum512 l) = 64%nat.
Proof.
  unfold Sha512.Sum512. set (d := Sha512.digest l).
  assert (length d = 8%nat) as Hd by (subst d; unfold Sha512.digest; len).
  clearbody d. assert (forall k : list Z, length (concat (be_put 8 <$> k)) = (8 * length k)%nat) as Hk.
  { induction k as [|z k IH]; [done|]. cbn [fmap list_fmap concat length]. rewrite length_app, IH, length_be_put. lia. }
  rewrite Hk, Hd. done.
Qed.
#[export] Hint Rewrite length_Sum512 : len.

(** A list whose length is a multiple of [n] is a concatenation of groups. *)
Lemma groups_ind {A} (n : nat) (P : list A -> Prop) : (0 < n)%nat ->
  P [] -> (forall g l, length g = n -> P l -> P (g ++ l)) ->
  forall l, (length l mod n = 0)%nat -> P l.
Proof.
  intros Hn H0 Hstep l. induction l as [l IH] using (induction_ltof1 _ (@length A)).
  unfold ltof in IH. intros Hmod. destruct (decide (l = [])) as [->|Hne]; [done|].
  assert (0 < length l)%nat by (destruct l; [done|simpl; lia]).
  assert (n <= length l)%nat as Hle.
  { destruct (Nat.le_gt_cases n (length l)) as [|Hlt]; [done|].
    rewrite Nat.mod_small in Hmod by done. lia. }
  rewrite <- (take_drop n l). apply Hstep; [rewrite length_take; lia|].
  assert (length (drop n l) mod n = 0)%nat as Hmod'.
  { rewrite length_drop. rewrite <- Hmod.
    replace (length l) with (length l - n + 1 * n)%nat at 2 by lia. by rewrite Nat.Div0.mod_add. }
  apply IH; [rewrite length_drop; lia|done].
Qed.

Module Base32Facts.
Import Base32.

Lemma dec_enc_char d : 0 <= d < 32 -> dec_char (enc_char d) = Some d.
Proof.
  intros Hd. unfold dec_char, enc_char. destruct (d <? 10) eqn:E; bool_lia;
    rewrite Zb_bZ, Z.mod_small by lia.
  - rewrite !(proj2 (Z.leb_le _ _)) by lia. simpl. f_equal. lia.
  - rewrite (proj2 (Z.leb_gt (87 + d) 57)) by lia. rewrite andb_false_r.
    rewrite !(proj2 (Z.leb_le _ _)) by lia. simpl. f_equal. lia.
Qed.

Lemma dec_char_range c d : dec_char c = Some d -> 0 <= d < 32 /\ enc_char d = c.
Proof.
  unfold dec_char, enc_char. pose proof (Zb_range c). intros Hd.
  destruct ((48 <=? Zb c) && (Zb c <=? 57)) eqn:E1.
  - injection Hd as <-. bool_lia. split; [lia|].
    rewrite (proj2 (Z.ltb_lt _ _)) by lia. trans (bZ (Zb c)); [f_equal; lia|apply bZ_Zb].
  - destruct ((97 <=? Zb c) && (Zb c <=? 118)) eqn:E2; [|done].
    injection Hd as <-. bool_lia. split; [lia|].
    rewrite (proj2 (Z.ltb_ge _ _)) by lia. trans (bZ (Zb c)); [f_equal; lia|apply bZ_Zb].
Qed.

Lemma dec_char_not_pad c d : dec_char c = Some d -> c <> pad_char.
Proof. intros H ->. done. Qed.

Lemma dec_char_not_newline c d : dec_char c = Some d -> ~ (Zb c = 10 \/ Zb c = 13).
Proof. unfold dec_char. intros H [Hc|Hc]; rewrite Hc in H; done. Qed.

(** A string all of whose characters are in the alphabet. *)
Definition alphabetic (s : list byte) : Prop := Forall (fun c => is_Some (dec_char c)) s.

Lemma alphabetic_app s t : alphabetic (s ++ t) <-> alphabetic s /\ alphabetic t.
Proof. apply Forall_app. Qed.

Lemma enc_alphabetic ds : Forall (fun d => 0 <= d < 32) ds -> alphabetic (enc_char <$> ds).
Proof. intros. apply Forall_fmap. eapply Forall_impl; [done|]. intros d Hd. eexists. by apply dec_enc_char. Qed.

Lemma alphabetic_digits s : alphabetic s -> exists ds, s = enc_char <$> ds /\ Forall (fun d => 0 <= d < 32) ds.
Proof.
  induction 1 as [|c s [d Hd] _ (ds & -> & Hds)]; [by exists []|].
  apply dec_char_range in Hd as [? <-]. exists (d :: ds). split; [done|]. by constructor.
Qed.

Lemma strip_newlines_id s : alphabetic s -> strip_newlines s = s.
Proof.
  intros Hs. unfold strip_newlines.
  induction Hs as [|c s [d Hd] _ IH]; [done|].
  rewrite filter_cons_True by (by eapply dec_char_not_newline). by f_equal.
Qed.

Lemma read_quantum_digits ds dbuf rest : Forall (fun d => 0 <= d < 32) ds ->
  read_quantum (length ds) dbuf ((enc_char <$> ds) ++ rest) = Some (dbuf ++ ds, rest, false).
Proof.
  intros Hds. revert dbuf. induction Hds as [|d ds Hd Hds IH]; intros dbuf; simpl.
  - by rewrite app_nil_r.
  - rewrite bool_decide_eq_false_2 by (eapply dec_char_not_pad; by apply dec_enc_char).
    simpl. rewrite dec_enc_char by done. rewrite IH. by rewrite <- app_assoc.
Qed.

Lemma decode_loop_group ds fuel rest : length ds = 8%nat -> Forall (fun d => 0 <= d < 32) ds ->
  decode_loop (S fuel) ((enc_char <$> ds) ++ rest) = be_put 5 (of_digits 32 ds) ++ decode_loop fuel rest.
Proof.
  intros Hlen Hds. cbn [decode_loop].
  destruct ((enc_char <$> ds) ++ rest) as [|c s] eqn:E.
  { apply (f_equal length) in E. len. }
  rewrite <- E. pose proof (read_quantum_digits ds [] rest Hds) as Hq. rewrite Hlen in Hq.
  rewrite Hq. simpl. rewrite Hlen. simpl. by rewrite app_nil_r.
Qed.

Lemma Encode_group g l : length g = 5%nat -> EncodeToString (g ++ l) = quantum g ++ EncodeToString l.
Proof. destruct g as [|? [|? [|? [|? [|? [|]]]]]]; try done. Qed.

Lemma length_Encode l : (length l mod 5 = 0)%nat -> (5 * length (EncodeToString l) = 8 * length l)%nat.
Proof.
  revert l. apply groups_ind; [lia|done|]. intros g l Hg IH. rewrite Encode_group by done.
  unfold quantum. rewrite !length_app, length_fmap, length_to_digits. lia.
Qed.

Lemma Encode_alphabetic l : (length l mod 5 = 0)%nat -> alphabetic (EncodeToString l).
Proof.
  revert l. apply groups_ind; [lia|constructor|]. intros g l Hg IH. rewrite Encode_group by done.
  apply alphabetic_app. split; [|done]. by apply enc_alphabetic, to_digits_range.
Qed.

Lemma decode_loop_Encode l fuel : (length l mod 5 = 0)%nat -> (length (EncodeToString l) <= fuel)%nat ->
  decode_loop fuel (EncodeToString l) = l.
Proof.
  intros Hmod. revert l Hmod fuel.
  apply (groups_ind 5 (fun l => forall fuel, (length (EncodeToString l) <= fuel)%nat ->
    decode_loop fuel (EncodeToString l) = l)); [lia|by intros []|].
  intros g l Hg IH fuel Hf. rewrite Encode_group in * by done. unfold quantum in *.
  rewrite length_app, length_fmap, length_to_digits in Hf.
  destruct fuel as [|fuel]; [lia|].
  rewrite decode_loop_group by (rewrite ?length_to_digits; done || by apply to_digits_range).
  rewrite IH by lia. f_equal. rewrite of_to_digits by done.
  pose proof (be_get_bound g) as Hb. unfold Zlength in Hb. rewrite Hg in Hb.
  rewrite Z.mod_small by done. rewrite <- Hg. apply be_put_get.
Qed.

Lemma Decode_Encode l : (length l mod 5 = 0)%nat -> Decode (EncodeToString l) = l.
Proof.
  intros Hl. unfold Decode. rewrite strip_newlines_id by by apply Encode_alphabetic.
  by apply decode_loop_Encode.
Qed.

Lemma alphabetic_groups s : alphabetic s -> (length s mod 8 = 0)%nat ->
  exists l, s = EncodeToString l /\ (length l mod 5 = 0)%nat.
Proof.
  intros Ha Hm. revert s Hm Ha.
  apply (groups_ind 8 (fun s => alphabetic s -> exists l, s = EncodeToString l /\ (length l mod 5 = 0)%nat));
    [lia|by exists []|].
  intros g s Hg IH [Hga Hsa]%alphabetic_app. destruct (IH Hsa) as (l & -> & Hl).
  apply alphabetic_digits in Hga as (ds & -> & Hds). rewrite length_fmap in Hg.
  exists (be_put 5 (of_digits 32 ds) ++ l). split.
  - rewrite Encode_group by apply length_be_put. f_equal. unfold quantum. f_equal.
    pose proof (of_digits_bound 32 ds eq_refl Hds) as Hb. unfold Zlength in Hb. rewrite Hg in Hb.
    rewrite be_get_put, Z.mod_small by done. rewrite <- Hg. symmetry. by apply to_of_digits.
  - rewrite length_app, length_be_put.
    replace (5 + length l)%nat with (length l + 1 * 5)%nat by lia. by rewrite Nat.Div0.mod_add.
Qed.

(** On whole groups of the alphabet decoding loses nothing. *)
Lemma Encode_Decode s : alphabetic s -> (length s mod 8 = 0)%nat -> EncodeToString (Decode s) = s.
Proof. intros Ha Hm. destruct (alphabetic_groups s Ha Hm) as (l & -> & Hl). by rewrite Decode_Encode. Qed.

(** *** The textual order is the order of the bytes *)

Lemma lex_compare_app a b k l : length a = length b ->
  lex_compare (a ++ k) (b ++ l) = match lex_compare a b with Eq => lex_compare k l | c => c end.
Proof.
  revert b. induction a as [|x a IH]; intros [|y b] Hlen; simpl in *; try done.
  destruct (x ?= y); try done. apply IH. lia.
Qed.

Lemma enc_char_Zb d : 0 <= d < 32 -> Zb (enc_char d) = (if d <? 10 then 48 + d else 87 + d).
Proof. intros. unfold enc_char. destruct (d <? 10) eqn:E; bool_lia; rewrite Zb_bZ, Z.mod_small; lia. Qed.

Lemma enc_char_compare d e : 0 <= d < 32 -> 0 <= e < 32 -> (Zb (enc_char d) ?= Zb (enc_char e)) = (d ?= e).
Proof.
  intros. rewrite !enc_char_Zb by done.
  destruct (d <? 10) eqn:E1, (e <? 10) eqn:E2; bool_lia;
    destruct (Z.compare_spec d e); subst;
    first [apply Z.compare_eq_iff; lia | apply Z.compare_lt_iff; lia | apply Z.compare_gt_iff; lia].
Qed.

Lemma enc_lex_compare ds es : Forall (fun d => 0 <= d < 32) ds -> Forall (fun d => 0 <= d < 32) es ->
  lex_compare (Zb <$> (enc_char <$> ds)) (Zb <$> (enc_char <$> es)) = lex_compare ds es.
Proof.
  intros Hds. revert es. induction Hds as [|d ds Hd _ IH]; intros es Hes; destruct Hes as [|e es He Hes]; try done.
  cbn [fmap list_fmap lex_compare]. rewrite enc_char_compare by done. destruct (d ?= e); try done. by apply IH.
Qed.

Lemma quantum_compare g h : length g = 5%nat -> length h = 5%nat ->
  bytes_Compare (quantum g) (quantum h) = bytes_Compare g h.
Proof.
  intros Hg Hh. unfold bytes_Compare at 1, quantum.
  rewrite enc_lex_compare by by apply to_digits_range.
  rewrite (lex_compare_digits 32) by (done || (by rewrite !length_to_digits) || by apply to_digits_range).
  rewrite !of_to_digits, bytes_Compare_be by (done || congruence).
  pose proof (be_get_bound g) as B1. pose proof (be_get_bound h) as B2.
  unfold Zlength in *. rewrite Hg in B1. rewrite Hh in B2.
  by rewrite !Z.mod_small.
Qed.

Lemma length_quantum g : length (quantum g) = 8%nat.
Proof. unfold quantum. by rewrite length_fmap, length_to_digits. Qed.

Lemma bytes_Compare_app a b k l : length a = length b ->
  bytes_Compare (a ++ k) (b ++ l) = match bytes_Compare a b with Eq => bytes_Compare k l | c => c end.
Proof. intros. unfold bytes_Compare. rewrite !fmap_app. apply lex_compare_app. by rewrite !length_fmap. Qed.

Lemma Encode_compare l k : (length l mod 5 = 0)%nat -> length k = length l ->
  bytes_Compare (EncodeToString l) (EncodeToString k) = bytes_Compare l k.
Proof.
  intros Hl. revert l Hl k. apply (groups_ind 5 (fun l => forall k, length k = length l ->
    bytes_Compare (EncodeToString l) (EncodeToString k) = bytes_Compare l k)); [lia|by intros []|].
  intros g l Hg IH k Hk. rewrite length_app in Hk.
  rewrite <- (take_drop 5 k). set (h := take 5 k). set (k' := drop 5 k).
  assert (length h = 5%nat) as Hh by (subst h; rewrite length_take; lia).
  assert (length k' = length l) as Hk' by (subst k'; rewrite length_drop; lia).
  rewrite !Encode_group by done.
  rewrite !bytes_Compare_app by (rewrite ?length_quantum; congruence).
  by rewrite quantum_compare, IH.
Qed.

End Base32Facts.

Module GoStringsFacts.
Import GoStrings.

Lemma split_aux_app sep cur s t : sep ∉ s ->
  split_aux sep cur (s ++ sep :: t) = (rev cur ++ s) :: split_aux sep [] t.
Proof.
  revert cur. induction s as [|c s IH]; intros cur Hs; simpl.
  - by rewrite bool_decide_eq_true_2, app_nil_r by done.
  - apply not_elem_of_cons in Hs as [Hc Hs]. rewrite bool_decide_eq_false_2 by done.
    rewrite IH by done. simpl. by rewrite <- app_assoc.
Qed.

Lemma split_aux_last sep cur s : sep ∉ s -> split_aux sep cur s = [rev cur ++ s].
Proof.
  revert cur. induction s as [|c s IH]; intros cur Hs; simpl; [by rewrite app_nil_r|].
  apply not_elem_of_cons in Hs as [Hc Hs]. rewrite bool_decide_eq_false_2 by done.
  rewrite IH by done. simpl. by rewrite <- app_assoc.
Qed.

(** Splitting undoes joining when no part holds the separator. *)
Lemma Split_Join sep l : l <> [] -> Forall (fun s => sep ∉ s) l -> Split sep (Join sep l) = l.
Proof.
  unfold Split. intros Hne Hl. induction Hl as [|s l Hs Hl IH]; [done|].
  destruct l as [|t l]; simpl; [by apply split_aux_last|].
  rewrite split_aux_app by done. f_equal. by apply IH.
Qed.

Lemma strip_zeros_spec base ds : of_digits base (strip_zeros ds) = of_digits base ds.
Proof.
  induction ds as [|d ds IH]; [done|]. by destruct d.
Qed.

Lemma strip_zeros_Forall (P : Z -> Prop) ds : Forall P ds -> Forall P (strip_zeros ds).
Proof. induction 1 as [|d ds Hd Hds IH]; simpl; [done|]. destruct d; [done|by constructor..]. Qed.

Lemma dec_digit_enc d : 0 <= d < 10 -> dec_digit (bZ (48 + d)) = Some d.
Proof.
  intros. unfold dec_digit. rewrite Zb_bZ, Z.mod_small by lia.
  rewrite !(proj2 (Z.leb_le _ _)) by lia. simpl. f_equal. lia.
Qed.

Lemma mapM_dec_digit ds : Forall (fun d => 0 <= d < 10) ds ->
  mapM dec_digit (enc_digits ds) = Some ds.
Proof.
  induction 1 as [|d ds Hd _ IH]; [done|]. cbn [enc_digits fmap list_fmap mapM].
  rewrite dec_digit_enc by done. cbn [mbind option_bind]. unfold enc_digits in IH. by rewrite IH.
Qed.

Lemma FormatUint_digits v : exists ds : list Z, FormatUint v = enc_digits ds /\
  Forall (fun d => 0 <= d < 10) ds /\ of_digits 10 ds = v mod 10 ^ 20 /\ ds <> [].
Proof.
  unfold FormatUint. pose proof (strip_zeros_spec 10 (to_digits 10 20 v)) as Hs.
  rewrite of_to_digits in Hs by done. change (10 ^ Z.of_nat 20) with (10 ^ 20) in Hs.
  pose proof (strip_zeros_Forall _ _ (to_digits_range 10 20 v eq_refl)) as Hr.
  destruct (strip_zeros (to_digits 10 20 v)) as [|d ds] eqn:E.
  - exists [0]. split; [done|]. split; [by repeat constructor|]. split; [|done]. rewrite <- Hs. done.
  - exists (d :: ds). done.
Qed.

(** Decimal printing and parsing of 32-bit counts. *)
Lemma Parse_FormatUint v : 0 <= v < 2 ^ 32 -> ParseUint32 (FormatUint v) = Some v.
Proof.
  intros Hv. destruct (FormatUint_digits v) as (ds & -> & Hr & Hval & Hne).
  rewrite Z.mod_small in Hval by lia. unfold ParseUint32.
  destruct ds as [|d ds]; [done|]. rewrite mapM_dec_digit by done. cbn [enc_digits mbind option_bind fmap list_fmap].
  rewrite Hval, (proj2 (Z.ltb_lt _ _)) by lia. done.
Qed.

Lemma FormatUint_chars v : Forall (fun c => is_Some (dec_digit c)) (FormatUint v).
Proof.
  destruct (FormatUint_digits v) as (ds & -> & Hr & _). apply Forall_fmap.
  eapply Forall_impl; [done|]. intros d Hd. eexists. by apply dec_digit_enc.
Qed.

End GoStringsFacts.

(** Published vectors: SHA-512 of "abc" in the text form of Noms hashes
    (hash_test.go, TestOf) and the CRC-32C check value. *)
Example sha512_vector :
  Base32.EncodeToString (take 20 (Sha512.Sum512 (bs "abc"))) = bs "rmnjb8cjc5tblj21ed4qs821649eduie".
Proof. vm_compute. reflexivity. Qed.
Example crc32c_vector : Crc32.Update (bs "123456789") = 0xE3069283.
Proof. vm_compute. reflexivity. Qed.

Module BinaryFacts.
Import Binary.

Lemma continuation_byte x : 0 <= x ->
  (Zb (bZ (Z.lor x 0x80)) <? 0x80) = false /\ Z.land (Zb (bZ (Z.lor x 0x80))) 0x7f = x mod 128.
Proof.
  intros Hx. rewrite Zb_bZ. change 256 with (2 ^ 8). rewrite <- Z.land_ones by lia. split.
  - rewrite Z.land_lor_distr_l. change (Z.land 128 (Z.ones 8)) with (Z.shiftl 1 7).
    rewrite Z.land_ones by lia. apply Z.ltb_ge.
    apply Z.leb_le, (Z_range_forallb 256 (fun c => 128 <=? Z.lor c (Z.shiftl 1 7))); [by vm_compute|].
    apply Z.mod_pos_bound. lia.
  - change 0x7f with (Z.ones 7). rewrite <- Z.land_assoc. change (Z.land (Z.ones 8) (Z.ones 7)) with (Z.ones 7).
    rewrite Z.land_lor_distr_l. change (Z.land 128 (Z.ones 7)) with 0. by rewrite Z.lor_0_r, Z.land_ones.
Qed.

Lemma uvarint_put fuel i acc x rest : Z.of_nat fuel + i = 10 -> 0 <= i -> 0 <= x < 2 ^ (64 - 7 * i) -> 0 <= acc < 2 ^ (7 * i) ->
  uvarint i acc (7 * i) (put_uvarint fuel x ++ rest) = (acc + x * 2 ^ (7 * i), i + Zlength (put_uvarint fuel x)).
Proof.
  revert i acc x. induction fuel as [|fuel IH]; intros i acc x Hf Hi Hx Hacc.
  { replace i with 10 in Hx by lia. change (2 ^ (64 - 7 * 10)) with 0 in Hx. lia. }
  assert (2 ^ 64 = 2 ^ (64 - 7 * i) * 2 ^ (7 * i)) as H64 by (rewrite <- Z.pow_add_r by lia; f_equal; lia).
  assert (0 < 2 ^ (7 * i)) by (apply Z.pow_pos_nonneg; lia).
  cbn [put_uvarint]. destruct (0x80 <=? x) eqn:E; bool_lia.
  - assert (i < 9) by (destruct (decide (i = 9)) as [->|]; [change (2 ^ (64 - 7 * 9)) with 2 in Hx; lia|lia]).
    destruct (continuation_byte x ltac:(lia)) as [Hc1 Hc2]. cbn [app uvarint]. rewrite Hc1, Hc2.
    pose proof (Z.mod_pos_bound x 128 ltac:(lia)). assert (2 ^ (7 * (i + 1)) = 128 * 2 ^ (7 * i)) as Hp.
    { replace (7 * (i + 1)) with (7 + 7 * i) by lia. rewrite Z.pow_add_r by lia. done. }
    assert (2 ^ (7 * (i + 1)) <= 2 ^ 64) by (apply Z.pow_le_mono_r; lia).
    rewrite u64_small by (rewrite Z.shiftl_mul_pow2 by lia; nia). rewrite lor_shift by lia.
    replace (7 * i + 7) with (7 * (i + 1)) by lia. rewrite Z.shiftr_div_pow2 by lia. change (2 ^ 7) with 128.
    rewrite IH; [|lia|lia| |nia].
    + rewrite Hp, Zlength_cons. f_equal; [|lia]. pose proof (Z.div_mod x 128 ltac:(lia)). nia.
    + split; [apply Z.div_pos; lia|]. apply Z.div_lt_upper_bound; [lia|].
      replace (128 * 2 ^ (64 - 7 * (i + 1))) with (2 ^ (64 - 7 * i)); [lia|].
      replace (64 - 7 * i) with (7 + (64 - 7 * (i + 1))) by lia. rewrite Z.pow_add_r by lia. done.
  - cbn [app uvarint]. rewrite Zb_bZ, Z.mod_small by lia. rewrite (proj2 (Z.ltb_lt _ _)) by lia.
    destruct (_ || _) eqn:E2.
    { exfalso. apply orb_true_iff in E2 as [E2|[E2 E3]%andb_true_iff]; bool_lia. subst i. change (2 ^ (64 - 7 * 9)) with 2 in Hx. lia. }
    rewrite u64_small by (rewrite Z.shiftl_mul_pow2 by lia; nia). rewrite lor_shift by lia. done.
Qed.

Lemma Uvarint_Put x rest : 0 <= x < 2 ^ 64 -> Uvarint (PutUvarint x ++ rest) = (x, Zlength (PutUvarint x)).
Proof.
  intros Hx. unfold Uvarint, PutUvarint. pose proof (uvarint_put 10 0 0 x rest) as H. change (7 * 0) with 0 in H.
  rewrite H; [|done|done|done|done]. f_equal. lia.
Qed.

Lemma put_uvarint_length fuel x n : 0 <= x < 2 ^ (7 * Z.of_nat n) -> (1 <= n)%nat -> (length (put_uvarint fuel x) <= n)%nat.
Proof.
  revert x n. induction fuel as [|fuel IH]; intros x n Hx Hn; cbn [put_uvarint]; [simpl; lia|].
  destruct (0x80 <=? x) eqn:E; bool_lia; cbn [length]; [|lia].
  destruct n as [|[|n]]; [lia|change (2 ^ (7 * Z.of_nat 1)) with 128 in Hx; lia|].
  apply le_n_S, IH; [|lia]. rewrite Z.shiftr_div_pow2 by lia. split; [apply Z.div_pos; lia|].
  apply Z.div_lt_upper_bound; [lia|]. rewrite <- Z.pow_add_r by lia.
  replace (7 + 7 * Z.of_nat (S n)) with (7 * Z.of_nat (S (S n))) by lia. lia.
Qed.

Lemma PutUvarint_nonempty x : PutUvarint x <> [].
Proof. unfold PutUvarint. cbn [put_uvarint]. by destruct (_ <=? _). Qed.

End BinaryFacts.
