(* ===== verification/HashPkg.v ===== *)
(** * Package [hash] (src/go/hash)

    A Noms hash is the first 20 bytes of a SHA-512; its text form is base 32
    with the alphabet [0-9a-v].  The file models [hash.go], [base32.go] and
    [hash_slice.go] and shows that printing and parsing are inverse, that
    [MaybeParse] accepts exactly the printed hashes, that the text order is the
    hash order, and that [HashSlice] sorts into the order [Less] describes. *)

From S2P Require Import Prelude GoLib.

Module Hash.

(** ** Data *)

Definition ByteLen : nat := 20.
Definition StringLen : nat := 32.

(** [type Hash [ByteLen]byte]. *)
Record Hash : Type := MkHash {
  hash_bytes : list byte;
  hash_len : Nat.eqb (length hash_bytes) ByteLen = true
}.

(** [h := Hash{}; copy(h[:], l)]: what fits is copied, the rest stays zero. *)
Program Definition of_bytes (l : list byte) : Hash :=
  MkHash (take ByteLen (l ++ replicate ByteLen (bZ 0))) _.
Next Obligation. intros l. apply Nat.eqb_eq. unfold ByteLen. len. Qed.

Definition emptyHash : Hash := of_bytes [].

Lemma Hash_eq (h k : Hash) : hash_bytes h = hash_bytes k -> h = k.
Proof. destruct h as [l Hl], k as [m Hm]. simpl. intros ->. f_equal. apply proof_irrel. Qed.

#[global] Instance Hash_eq_dec : EqDecision Hash.
Proof.
  intros h k. destruct (decide (hash_bytes h = hash_bytes k)) as [E|E].
  - left. by apply Hash_eq.
  - right. intros ->. done.
Defined.

Lemma length_hash_bytes h : length (hash_bytes h) = ByteLen.
Proof. apply Nat.eqb_eq, hash_len. Qed.

Lemma of_bytes_hash_bytes h : of_bytes (hash_bytes h) = h.
Proof. apply Hash_eq. simpl. rewrite <- (length_hash_bytes h) at 1. apply take_app_length. Qed.

#[global] Program Instance Hash_countable : Countable Hash :=
  inj_countable' hash_bytes of_bytes _.
Next Obligation. apply of_bytes_hash_bytes. Qed.

#[global] Instance Hash_inhabited : Inhabited Hash := populate emptyHash.

(** ** Operations *)

(** base32.go *)
Definition encode (data : list byte) : list byte := Base32.EncodeToString data.
Definition decode (s : list byte) : list byte := Base32.Decode s.

Definition IsEmpty (h : Hash) : bool := bool_decide (h = emptyHash).
Definition String (h : Hash) : list byte := encode (hash_bytes h).
Definition Of (data : list byte) : Hash := of_bytes (take ByteLen (Sha512.Sum512 data)).
Definition New (data : list byte) : outcome Hash :=
  let! _ := check (Nat.eqb (length data) ByteLen) in Ok (of_bytes data).

(** The regular expression [^([0-9a-v]{32})$]. *)
Definition pattern_matches (s : list byte) : bool :=
  Nat.eqb (length s) StringLen &&
  forallb (fun c => let z := Zb c in ((48 <=? z) && (z <=? 57)) || ((97 <=? z) && (z <=? 118))) s.

Definition MaybeParse (s : list byte) : outcome (Hash * bool) :=
  if pattern_matches s then let! h := New (decode s) in Ok (h, true) else Ok (emptyHash, false).
Definition Parse (s : list byte) : outcome Hash :=
  let! (r, ok) := MaybeParse s in if ok : bool then Ok r else Panic ExplicitPanic.

Definition Less (h other : Hash) : bool :=
  match bytes_Compare (hash_bytes h) (hash_bytes other) with Lt => true | _ => false end.
Definition Greater (h other : Hash) : bool :=
  match bytes_Compare (hash_bytes h) (hash_bytes other) with Gt => true | _ => false end.

(** [type HashSet map[Hash]struct{}]. *)
Abbreviation HashSet := (gset Hash).
Definition Insert (hs : HashSet) (h : Hash) : HashSet := {[h]} ∪ hs.
Definition Has (hs : HashSet) (h : Hash) : bool := bool_decide (h ∈ hs).
Definition Remove (hs : HashSet) (h : Hash) : HashSet := hs ∖ {[h]}.

(** [type HashSlice []Hash]. *)
Abbreviation HashSlice := (list Hash).
Definition Slice_Less (rs : HashSlice) (i j : Z) : outcome bool :=
  let! a := index rs i in let! b := index rs j in Ok (Less a b).
Definition Slice_Swap (rs : HashSlice) (i j : Z) : outcome HashSlice :=
  let! a := index rs i in let! b := index rs j in
  let! rs := set_index rs i b in set_index rs j a.
(** The loop of [Equals]; [i] is the index of the head of [rs]. *)
Fixpoint Equals_loop (rs : HashSlice) (other : HashSlice) (i : Z) : outcome bool :=
  match rs with
  | [] => Ok true
  | h :: rs' => let! k := index other i in if bool_decide (h = k) then Equals_loop rs' other (i + 1) else Ok false
  end.
Definition Slice_Equals (rs other : HashSlice) : outcome bool :=
  if negb (Nat.eqb (length rs) (length other)) then Ok false else Equals_loop rs other 0.

End Hash.

Import Hash.

(** The hash as a number; the key [Less] sorts by. *)
Definition hash_num (h : Hash) : Z := be_get (hash_bytes h).

(** ** Lemmas *)

Module HashFacts.

Lemma hash_num_inj h k : hash_num h = hash_num k -> h = k.
Proof. intros H. apply Hash_eq, be_get_inj; [by rewrite !length_hash_bytes|done]. Qed.

Lemma hash_num_range h : 0 <= hash_num h < 2 ^ 160.
Proof.
  pose proof (be_get_bound (hash_bytes h)) as H. unfold Zlength in H. by rewrite length_hash_bytes in H.
Qed.

Lemma Less_num h k : Less h k = (hash_num h <? hash_num k).
Proof.
  unfold Less, hash_num. rewrite bytes_Compare_be by (by rewrite !length_hash_bytes). done.
Qed.

Lemma Greater_num h k : Greater h k = (hash_num k <? hash_num h).
Proof.
  unfold Greater, hash_num. rewrite bytes_Compare_be by (by rewrite !length_hash_bytes).
  rewrite Z.compare_antisym. unfold Z.ltb. by destruct (_ ?= _).
Qed.

Lemma of_bytes_exact l : length l = ByteLen -> hash_bytes (of_bytes l) = l.
Proof. intros H. simpl. rewrite <- H at 1. apply take_app_length. Qed.

Lemma New_hash_bytes h : New (hash_bytes h) = Ok h.
Proof. unfold New. rewrite hash_len. simpl. by rewrite of_bytes_hash_bytes. Qed.

Lemma pattern_alphabetic s : pattern_matches s = true <-> length s = StringLen /\ Base32Facts.alphabetic s.
Proof.
  unfold pattern_matches. rewrite andb_true_iff, Nat.eqb_eq.
  apply and_iff_compat_l. rewrite <- Is_true_true, forallb_True. unfold Base32Facts.alphabetic.
  apply Forall_iff. intros c. unfold Base32.dec_char. rewrite Is_true_true.
  destruct ((48 <=? Zb c) && (Zb c <=? 57)); simpl; [by split; eauto|].
  destruct ((97 <=? Zb c) && (Zb c <=? 118)); split; try done; by intros [? [=]].
Qed.

Lemma hash_mod5 h : (length (hash_bytes h) mod 5 = 0)%nat.
Proof. by rewrite length_hash_bytes. Qed.

Lemma length_String h : length (String h) = StringLen.
Proof.
  unfold String, encode. pose proof (Base32Facts.length_Encode _ (hash_mod5 h)) as H.
  rewrite length_hash_bytes in H. unfold StringLen, ByteLen in *. lia.
Qed.

Lemma pattern_String h : pattern_matches (String h) = true.
Proof.
  apply pattern_alphabetic. split; [apply length_String|].
  apply Base32Facts.Encode_alphabetic, hash_mod5.
Qed.

Lemma MaybeParse_String_ok h : MaybeParse (String h) = Ok (h, true).
Proof.
  unfold MaybeParse. rewrite pattern_String. unfold decode, String, encode.
  rewrite Base32Facts.Decode_Encode by apply hash_mod5. by rewrite New_hash_bytes.
Qed.

Lemma Parse_String_ok h : Parse (String h) = Ok h.
Proof. unfold Parse. by rewrite MaybeParse_String_ok. Qed.

(** A string the pattern accepts is the text of a hash. *)
Lemma pattern_is_String s : pattern_matches s = true -> exists h, s = String h.
Proof.
  intros [Hlen Ha]%pattern_alphabetic.
  destruct (Base32Facts.alphabetic_groups s Ha) as (l & -> & Hl); [by rewrite Hlen|].
  pose proof (Base32Facts.length_Encode l Hl) as Hl2. rewrite Hlen in Hl2. unfold StringLen in Hl2.
  exists (of_bytes l). unfold String, encode. rewrite of_bytes_exact; [done|]. unfold ByteLen. lia.
Qed.

Lemma String_inj h k : String h = String k -> h = k.
Proof. intros H. apply (f_equal MaybeParse) in H. rewrite !MaybeParse_String_ok in H. by injection H. Qed.

Lemma index_cons_succ {A} (a : A) l i : 0 <= i -> index (a :: l) (i + 1) = index l i.
Proof.
  intros. unfold index. rewrite !(proj2 (Z.leb_le _ _)) by lia.
  replace (Z.to_nat (i + 1)) with (S (Z.to_nat i)) by lia. done.
Qed.

Lemma Equals_loop_spec rs pre other : length rs = length other ->
  Equals_loop rs (pre ++ other) (Zlength pre) = Ok (bool_decide (rs = other)).
Proof.
  revert pre other. induction rs as [|h rs IH]; intros pre [|k other] Hlen; simpl in *; try done.
  rewrite (index_lookup _ _ k); [|apply Zlength_nonneg|].
  - simpl. case_bool_decide as Hhk.
    + subst k. replace (pre ++ h :: other) with ((pre ++ [h]) ++ other) by by rewrite <- app_assoc.
      replace (Zlength pre + 1) with (Zlength (pre ++ [h])) by by rewrite Zlength_app.
      rewrite IH by lia. f_equal. apply bool_decide_ext. split; [by intros ->|by intros [= ->]].
    + rewrite bool_decide_eq_false_2; [done|]. intros [= -> ->]. done.
  - rewrite Zlength_nat. apply list_lookup_middle. done.
Qed.

End HashFacts.

#[global] Arguments of_bytes : simpl never.
#[global] Arguments Of : simpl never.
#[global] Arguments String : simpl never.

(** ** Properties *)

(** C36: the text of a hash parses back to that hash: [Parse(h.String()) == h]
    and [MaybeParse] reports success. *)
Theorem hash_parse_string (h : Hash) : Parse (String h) = Ok h /\ MaybeParse (String h) = Ok (h, true).
Proof. split; [apply HashFacts.Parse_String_ok|apply HashFacts.MaybeParse_String_ok]. Qed.

(** [MaybeParse] never panics, whatever the input; it succeeds exactly on
    the strings that are the text of some hash and then returns that hash, and
    otherwise it returns the empty hash with [false]; [Parse] panics exactly
    where [MaybeParse] reports failure. *)
Theorem hash_maybeparse_total (s : list byte) :
  (exists h, s = String h /\ MaybeParse s = Ok (h, true) /\ Parse s = Ok h) \/
  ((forall h, s <> String h) /\ MaybeParse s = Ok (emptyHash, false) /\ Parse s = Panic ExplicitPanic).
Proof.
  destruct (pattern_matches s) eqn:E.
  - left. destruct (HashFacts.pattern_is_String s E) as [h ->]. exists h.
    by rewrite HashFacts.MaybeParse_String_ok, HashFacts.Parse_String_ok.
  - right. split; [intros h ->; by rewrite HashFacts.pattern_String in E|].
    unfold Parse, MaybeParse. by rewrite E.
Qed.

(** "sorted hashes will be sorted textually": comparing two hashes gives
    the result of comparing their texts, so [Less] and [Greater] are the order
    of the printed form. *)
Theorem hash_text_order (h k : Hash) :
  bytes_Compare (String h) (String k) = bytes_Compare (hash_bytes h) (hash_bytes k) /\
  (Less h k = true <-> bytes_Compare (String h) (String k) = Lt) /\
  (Greater h k = true <-> bytes_Compare (String h) (String k) = Gt).
Proof.
  assert (bytes_Compare (String h) (String k) = bytes_Compare (hash_bytes h) (hash_bytes k)) as H.
  { unfold String, encode. apply Base32Facts.Encode_compare; [apply HashFacts.hash_mod5|].
    by rewrite !length_hash_bytes. }
  rewrite H. unfold Less, Greater. split; [done|]. clear H. by destruct (bytes_Compare _ _).
Qed.

(** sorting two [HashSlice]s that hold the same hashes in any order makes
    them [Equals], whatever [sort.Sort] does with equal elements. *)
Theorem hash_slice_sort_canonical `{GoSort} (rs rs' : HashSlice) : rs ≡ₚ rs' ->
  Slice_Equals (go_sort Less rs) (go_sort Less rs') = Ok true.
Proof.
  intros Hp.
  assert (go_sort Less rs = go_sort Less rs') as Heq.
  { apply (StronglySorted_unique_strong (fun x y => hash_num x <= hash_num y)).
    - intros x y _ _ ? ?. apply HashFacts.hash_num_inj. lia.
    - apply go_sort_sorted, HashFacts.Less_num.
    - apply go_sort_sorted, HashFacts.Less_num.
    - by rewrite !go_sort_perm. }
  unfold Slice_Equals. rewrite Heq, Nat.eqb_refl. simpl.
  set (l := go_sort Less rs'). pose proof (HashFacts.Equals_loop_spec l [] l eq_refl) as Hl.
  by rewrite bool_decide_eq_true_2 in Hl.
Qed.

Lemma hash_slice_sort_canonical_witness :
  let a := of_bytes [bZ 3] in let b := of_bytes [bZ 1] in
  [a; b; a] ≡ₚ [b; a; a] /\
  Slice_Equals (@go_sort go_insertion_sort _ Less [a; b; a]) (@go_sort go_insertion_sort _ Less [b; a; a]) = Ok true.
Proof.
  intros a b. assert ([a; b; a] ≡ₚ [b; a; a]) as Hp by apply Permutation_swap.
  split; [exact Hp|]. exact (@hash_slice_sort_canonical go_insertion_sort [a; b; a] [b; a; a] Hp).
Defined.
