(* ===== verification/Chunks.v ===== *)
(** * Package [chunks] (src/go/chunks)

    Chunks, their wire format, the in-memory store with its root tracker, and
    the cache of unwritten puts.  What a chunk store promises is stated for
    [NomsBlockStore] in NbsRefine.v. *)

From S2P Require Import Prelude GoLib HashPkg.
Import Hash.

(** ** chunk.go *)

Module Chunks.

(** A [[]byte] is [None] when it is nil. *)
Definition goslice : Type := option (list byte).
Definition contents (s : goslice) : list byte := default [] s.

Record Chunk : Type := MkChunk { c_r : Hash; c_data : goslice }.

#[global] Instance Chunk_eq_dec : EqDecision Chunk.
Proof. solve_decision. Defined.

Definition Data (c : Chunk) : goslice := c_data c.
Definition ChunkHash (c : Chunk) : Hash := c_r c.
Definition Chunk_IsEmpty (c : Chunk) : bool := Nat.eqb (length (contents (c_data c))) 0.
Definition NewChunk (data : list byte) : Chunk := MkChunk (Of data) (Some data).
Definition NewChunkWithHash (r : Hash) (data : list byte) : Chunk := MkChunk r (Some data).
Definition EmptyChunk : Chunk := NewChunk [].

(** [ChunkWriter]: the buffer is nil once the writer is closed. *)
Record ChunkWriter : Type := MkWriter { w_buffer : option (list byte); w_c : option Chunk }.
Definition NewChunkWriter : ChunkWriter := MkWriter (Some []) None.
Definition Writer_Write (w : ChunkWriter) (data : list byte) : outcome (Z * ChunkWriter) :=
  match w_buffer w with
  | None => Panic ExplicitPanic
  | Some b => Ok (Zlength data, MkWriter (Some (b ++ data)) (w_c w))
  end.
Definition Writer_Close (w : ChunkWriter) : ChunkWriter :=
  match w_buffer w with
  | None => w
  | Some b => MkWriter None (Some (NewChunk b))
  end.
Definition Writer_Chunk (w : ChunkWriter) : ChunkWriter * option Chunk :=
  let w := Writer_Close w in (w, w_c w).

(** ** chunk_serializer.go

    The writer is an append-only buffer, the reader the bytes still to come. *)

Definition Serialize (c : Chunk) (writer : list byte) : outcome (list byte) :=
  match c_data c with
  | None => Panic AssertFailed
  | Some data =>
      let writer := writer ++ hash_bytes (ChunkHash c) in
      let chunkSize := u32 (Zlength data) in
      let writer := writer ++ be_put 4 chunkSize in
      let writer := writer ++ data in
      let! _ := check (u32 (Zlength data) =? chunkSize) in
      Ok writer
  end.

(** [io.ReadFull]: nothing at all is EOF, a short read is an error. *)
Inductive read_result : Type :=
| ReadEOF
| ReadShort
| ReadBytes (b rest : list byte).
Definition ReadFull (n : nat) (reader : list byte) : read_result :=
  if Nat.eqb n 0 then ReadBytes [] reader
  else match reader with
       | [] => ReadEOF
       | _ => if (length reader <? n)%nat then ReadShort else ReadBytes (take n reader) (drop n reader)
       end.

(** [None] is the [false] that ends the stream. *)
Definition deserializeChunk (reader : list byte) : outcome (option Chunk * list byte) :=
  match ReadFull ByteLen reader with
  | ReadEOF => Ok (None, reader)
  | ReadShort => Panic AssertFailed
  | ReadBytes hb reader =>
      let h := of_bytes hb in
      let! _ := check (Nat.eqb (length hb) ByteLen) in
      match ReadFull 4 reader with
      | ReadEOF | ReadShort => Panic AssertFailed
      | ReadBytes sz reader =>
          let chunkSize := be_get sz in
          match ReadFull (Z.to_nat chunkSize) reader with
          | ReadEOF | ReadShort => Panic AssertFailed
          | ReadBytes data reader =>
              let! _ := check (Zlength data =? chunkSize) in
              let c := NewChunk data in
              if bool_decide (h = ChunkHash c) then Ok (Some c, reader) else Panic ExplicitPanic
          end
      end
  end.

(** The chunks sent to the channel, in order.  Every round reads at least
    [ByteLen] bytes, so the length of the input is fuel enough. *)
Fixpoint DeserializeToChan_loop (fuel : nat) (reader : list byte) : outcome (list Chunk) :=
  match fuel with
  | O => Panic OutOfFuel
  | S fuel' =>
      let! (c, reader) := deserializeChunk reader in
      match c with
      | None => Ok []
      | Some c => let! cs := DeserializeToChan_loop fuel' reader in Ok (c :: cs)
      end
  end.
Definition DeserializeToChan (reader : list byte) : outcome (list Chunk) :=
  DeserializeToChan_loop (S (length reader)) reader.

(** ** memory_store.go and memory_root_tracker.go *)

Record MemoryStore : Type := MkMemoryStore { ms_data : gmap Hash Chunk; ms_root : Hash }.
Definition NewMemoryStore : MemoryStore := MkMemoryStore ∅ emptyHash.
Definition ms_Get (ms : MemoryStore) (h : Hash) : Chunk :=
  match ms_data ms !! h with Some c => c | None => EmptyChunk end.
Definition ms_GetMany (ms : MemoryStore) (hashes : list Hash) : list Chunk := ms_Get ms <$> hashes.
Definition ms_Has (ms : MemoryStore) (r : Hash) : bool := bool_decide (is_Some (ms_data ms !! r)).
Definition ms_Put (ms : MemoryStore) (c : Chunk) : MemoryStore :=
  MkMemoryStore (<[ChunkHash c := c]> (ms_data ms)) (ms_root ms).
Definition ms_PutMany (ms : MemoryStore) (cs : list Chunk) : MemoryStore * list Hash :=
  (foldl ms_Put ms cs, []).
Definition ms_Len (ms : MemoryStore) : nat := size (ms_data ms).
Definition Root (ms : MemoryStore) : Hash := ms_root ms.
Definition UpdateRoot (ms : MemoryStore) (current last : Hash) : MemoryStore * bool :=
  if negb (bool_decide (last = ms_root ms)) then (ms, false)
  else (MkMemoryStore (ms_data ms) current, true).

(** [Deserialize] hands every chunk to its own goroutine, so the sink sees
    some permutation of them. *)
Definition Deserialize (reader : list byte) (ms ms' : MemoryStore) : Prop :=
  exists cs order, DeserializeToChan reader = Ok cs /\ order ≡ₚ cs /\ ms' = foldl ms_Put ms order.

(** ** put_cache.go *)

Abbreviation unwrittenPutCache := (gmap Hash Chunk).
Definition Cache_Add (p : unwrittenPutCache) (c : Chunk) : unwrittenPutCache * bool :=
  match p !! ChunkHash c with
  | None => (<[ChunkHash c := c]> p, true)
  | Some _ => (p, false)
  end.
Definition Cache_Has (p : unwrittenPutCache) (c : Chunk) : bool := bool_decide (is_Some (p !! ChunkHash c)).
Definition Cache_Get (p : unwrittenPutCache) (r : Hash) : Chunk :=
  match p !! r with Some c => c | None => EmptyChunk end.
Definition Cache_Clear (p : unwrittenPutCache) (chunks : list Chunk) : unwrittenPutCache :=
  foldl (fun p c => delete (ChunkHash c) p) p chunks.

End Chunks.

Import Chunks.

(** ** Lemmas *)

(** A chunk whose hash is that of its data and whose size fits the format. *)
Definition valid_chunk (c : Chunk) : Prop :=
  exists data, c = NewChunk data /\ Zlength data < 2 ^ 32.

(** The bytes of a chunk on the wire. *)
Definition wire (c : Chunk) : list byte :=
  hash_bytes (ChunkHash c) ++ be_put 4 (Zlength (contents (c_data c))) ++ contents (c_data c).

(** Serializing a list of chunks to one writer. *)
Fixpoint SerializeAll (cs : list Chunk) (writer : list byte) : outcome (list byte) :=
  match cs with
  | [] => Ok writer
  | c :: cs => let! writer := Serialize c writer in SerializeAll cs writer
  end.

Module ChunksFacts.

Lemma Serialize_wire c writer : valid_chunk c -> Serialize c writer = Ok (writer ++ wire c).
Proof.
  intros (data & -> & Hlen). unfold Serialize, wire, NewChunk. simpl. rewrite Z.eqb_refl. simpl.
  rewrite u32_small; [by rewrite <- !app_assoc|]. pose proof (Zlength_nonneg data). lia.
Qed.

Lemma SerializeAll_wire cs writer : Forall valid_chunk cs ->
  SerializeAll cs writer = Ok (writer ++ concat (wire <$> cs)).
Proof.
  intros Hcs. revert writer. induction Hcs as [|c cs Hc Hcs IH]; intros writer; simpl.
  - by rewrite app_nil_r.
  - rewrite Serialize_wire by done. simpl. rewrite IH. by rewrite <- app_assoc.
Qed.

Lemma ReadFull_app n b rest : length b = n -> ReadFull n (b ++ rest) = ReadBytes b rest.
Proof.
  intros <-. unfold ReadFull. destruct b as [|x b]; [done|].
  assert ((length (x :: b ++ rest) <? length (x :: b))%nat = false) as E.
  { apply Nat.ltb_ge. simpl. rewrite length_app. lia. }
  simpl Nat.eqb. cbn iota beta. simpl app. rewrite E.
  change (x :: b ++ rest) with ((x :: b) ++ rest). by rewrite take_app_length, drop_app_length.
Qed.

Lemma ReadFull_bytes n reader b rest : ReadFull n reader = ReadBytes b rest -> reader = b ++ rest /\ length b = n.
Proof.
  unfold ReadFull. destruct (Nat.eqb_spec n 0) as [->|Hn]; [by intros [= <- <-]|].
  destruct reader as [|x r] eqn:Er; [done|]. rewrite <- Er.
  destruct (length reader <? n)%nat eqn:E; [done|]. apply Nat.ltb_ge in E. intros [= <- <-].
  rewrite take_drop. split; [done|]. rewrite length_take. lia.
Qed.

Lemma length_wire_pos c : (0 < length (wire c))%nat.
Proof. unfold wire. rewrite length_app, length_hash_bytes. unfold ByteLen. lia. Qed.

Lemma deserialize_wire c rest : valid_chunk c -> deserializeChunk (wire c ++ rest) = Ok (Some c, rest).
Proof.
  intros (data & -> & Hlen). unfold deserializeChunk, wire. unfold contents, NewChunk, ChunkHash.
  cbn [c_data c_r from_option id]. rewrite <- !app_assoc.
  rewrite ReadFull_app by apply length_hash_bytes. rewrite hash_len. cbn [obind check].
  rewrite ReadFull_app by apply length_be_put.
  pose proof (Zlength_nonneg data). rewrite be_get_put, Z.mod_small by (change (256 ^ Z.of_nat 4) with (2 ^ 32); lia).
  rewrite ReadFull_app by by rewrite Zlength_nat. rewrite Z.eqb_refl. cbn [obind check].
  rewrite of_bytes_hash_bytes. by rewrite bool_decide_eq_true_2.
Qed.

(** What [deserializeChunk] accepts is the wire form of a valid chunk. *)
Lemma deserialize_inv reader oc rest : deserializeChunk reader = Ok (oc, rest) ->
  match oc with
  | None => reader = [] /\ rest = []
  | Some c => valid_chunk c /\ reader = wire c ++ rest
  end.
Proof.
  unfold deserializeChunk. destruct (ReadFull ByteLen reader) as [| |hb r1] eqn:E1; [|done|].
  - intros [= <- <-]. unfold ReadFull in E1. simpl in E1. destruct reader; [done|].
    by destruct (_ <? _)%nat.
  - apply ReadFull_bytes in E1 as [-> Hhb]. rewrite (proj2 (Nat.eqb_eq _ _) Hhb). cbn [obind check].
    destruct (ReadFull 4 r1) as [| |sz r2] eqn:E2; [done|done|]. apply ReadFull_bytes in E2 as [-> Hsz].
    destruct (ReadFull (Z.to_nat (be_get sz)) r2) as [| |data r3] eqn:E3; [done|done|].
    apply ReadFull_bytes in E3 as [-> Hdata].
    destruct (Zlength data =? be_get sz) eqn:E4; [|done]. cbn [obind check]. apply Z.eqb_eq in E4.
    case_bool_decide as Hh; [|done]. intros [= <- <-].
    pose proof (be_get_bound sz) as Hb. unfold Zlength in Hb. rewrite Hsz in Hb. 
    split; [exists data; split; [done|]; rewrite E4; apply Hb|].
    unfold wire, contents, NewChunk, ChunkHash. cbn [c_data c_r from_option id].
    assert (be_put 4 (Zlength data) = sz) as -> by (rewrite E4, <- Hsz; apply be_put_get).
    rewrite <- !app_assoc. f_equal.
    change (ChunkHash (NewChunk data)) with (Of data) in *. rewrite <- Hh.
    symmetry. by apply HashFacts.of_bytes_exact.
Qed.

Lemma deserialize_loop_wire cs fuel : Forall valid_chunk cs -> (length (concat (wire <$> cs)) < fuel)%nat ->
  DeserializeToChan_loop fuel (concat (wire <$> cs)) = Ok cs.
Proof.
  intros Hcs. revert fuel. induction Hcs as [|c cs Hc Hcs IH]; intros [|fuel] Hf; try lia; [done|].
  cbn [fmap list_fmap concat] in *. rewrite length_app in Hf. pose proof (length_wire_pos c).
  cbn [DeserializeToChan_loop]. rewrite deserialize_wire by done. cbn [obind]. rewrite IH by lia. done.
Qed.

Lemma deserialize_loop_inv fuel reader cs : DeserializeToChan_loop fuel reader = Ok cs ->
  Forall valid_chunk cs /\ reader = concat (wire <$> cs).
Proof.
  revert reader cs. induction fuel as [|fuel IH]; intros reader cs; [done|]. cbn [DeserializeToChan_loop].
  destruct (deserializeChunk reader) as [[oc rest]|] eqn:E; [|done]. cbn [obind].
  apply deserialize_inv in E. destruct oc as [c|].
  - destruct E as [Hc ->]. destruct (DeserializeToChan_loop fuel rest) as [cs'|] eqn:E2; [|done].
    cbn [obind]. intros [= <-]. apply IH in E2 as [? ->]. split; [by constructor|done].
  - destruct E as [-> _]. intros [= <-]. done.
Qed.

Lemma ms_Put_foldl_lookup cs ms h : 
  ms_data (foldl ms_Put ms cs) !! h = 
  match last (filter (fun c => ChunkHash c = h) cs) with Some c => Some c | None => ms_data ms !! h end.
Proof.
  revert ms. induction cs as [|c cs IH] using rev_ind; intros ms; [done|].
  rewrite foldl_app, filter_app. simpl. rewrite filter_cons, filter_nil. case_decide as Hc.
  - rewrite last_snoc. subst h. by rewrite lookup_insert_eq.
  - rewrite app_nil_r, lookup_insert_ne by done. apply IH.
Qed.

End ChunksFacts.

(** ** Properties *)

(** C28: the wire format is exact: reading a stream to the end gives the chunks
    [cs] if and only if each of them carries the hash of its data and fits the
    four-byte length, and the stream is what serializing them in order writes.
    So every serialized list of chunks is read back, and no accepted stream
    yields a chunk that does not match its hash. *)
Theorem chunks_stream_exact (reader : list byte) (cs : list Chunk) :
  DeserializeToChan reader = Ok cs <-> Forall valid_chunk cs /\ SerializeAll cs [] = Ok reader.
Proof.
  unfold DeserializeToChan. split.
  - intros H. destruct (ChunksFacts.deserialize_loop_inv _ _ _ H) as [Hcs ->].
    split; [done|]. by rewrite ChunksFacts.SerializeAll_wire.
  - intros [Hcs Hs]. rewrite ChunksFacts.SerializeAll_wire in Hs by done. injection Hs as <-.
    apply ChunksFacts.deserialize_loop_wire; [done|]. simpl. lia.
Qed.

(** a store that receives a stream through [Deserialize] ends up, in
    whatever order the goroutines run, with every chunk of the stream, and with
    its old contents elsewhere; chunks of one hash are one chunk unless SHA-512
    collides on them. *)
Theorem chunks_deserialize_any_order (reader : list byte) (cs : list Chunk) (ms ms' : MemoryStore) :
  DeserializeToChan reader = Ok cs ->
  (forall c d, c ∈ cs -> d ∈ cs -> ChunkHash c = ChunkHash d -> c = d) ->
  Deserialize reader ms ms' ->
  (forall c, c ∈ cs -> ms_Get ms' (ChunkHash c) = c /\ ms_Has ms' (ChunkHash c) = true) /\
  (forall h, (forall c, c ∈ cs -> ChunkHash c <> h) -> ms_Get ms' h = ms_Get ms h /\ ms_Has ms' h = ms_Has ms h) /\
  Root ms' = Root ms.
Proof.
  intros Hcs Hinj (cs' & order & Hcs' & Hp & ->). rewrite Hcs in Hcs'. injection Hcs' as <-.
  unfold ms_Get, ms_Has. split; [|split].
  - intros c Hc. rewrite ChunksFacts.ms_Put_foldl_lookup. destruct (last _) as [d|] eqn:E.
    + apply last_Some_elem_of in E. apply list_elem_of_filter in E as [Hd1 Hd2].
      rewrite Hp in Hd2. rewrite (Hinj d c) by done. by rewrite bool_decide_eq_true_2.
    + apply last_None in E. exfalso. apply (filter_nil_not_elem_of _ _ c E); [done|]. by rewrite Hp.
  - intros h Hh. rewrite ChunksFacts.ms_Put_foldl_lookup. destruct (last _) as [d|] eqn:E; [|done].
    apply last_Some_elem_of in E. apply list_elem_of_filter in E as [Hd1 Hd2].
    rewrite Hp in Hd2. by destruct (Hh d Hd2).
  - clear. unfold Root. revert ms. induction order as [|c order IH]; intros ms; simpl; [done|]. by rewrite IH.
Qed.

Lemma chunks_deserialize_any_order_witness :
  let c := NewChunk (bs "abc") in
  DeserializeToChan (wire c) = Ok [c] /\ ms_Get (ms_Put NewMemoryStore c) (ChunkHash c) = c.
Proof.
  intros c. assert (DeserializeToChan (wire c) = Ok [c]) as H by (vm_compute; reflexivity).
  split; [exact H|].
  destruct (chunks_deserialize_any_order (wire c) [c] NewMemoryStore (ms_Put NewMemoryStore c) H) as [Hget _].
  - intros d e Hd He _. apply list_elem_of_singleton in Hd, He. by subst.
  - exists [c], [c]. split; [exact H|]. split; reflexivity.
  - apply Hget. apply list_elem_of_singleton. reflexivity.
Defined.
