(* ===== verification/SnappyPkg.v ===== *)
(** * The snappy block format (src/vendor/github.com/golang/snappy)

    The encoder and decoder that every table record goes through, in the
    portable version of encode_other.go and decode_other.go.  The encoder's
    hash table, its skipping heuristic and its copy lengths are modelled as they
    are; the theorems are that [Encode] never fails below the size limit, that
    [Decode] inverts it and that its output stays below [MaxEncodedLen].

    Functions that fill a buffer from its start return the bytes they write;
    [Encode]'s buffer has [MaxEncodedLen] bytes, which the bound shows to be
    enough.  [decode] works on its buffer and its input by index, as the source
    does, and panics out of range; the proofs go through a reference decoder
    that appends to a list. *)

From S2P Require Import Prelude GoLib.

Module SnappyGo.

Definition tagLiteral : Z := 0x00.
Definition tagCopy1 : Z := 0x01.
Definition tagCopy2 : Z := 0x02.
Definition tagCopy4 : Z := 0x03.
Definition maxBlockSize : Z := 65536.
Definition inputMargin : Z := 16 - 1.
Definition minNonLiteralBlockSize : Z := 1 + 1 + inputMargin.
Definition u16 (z : Z) : Z := z mod 2 ^ 16.

(** The argument is an [int]; a negative one is a huge [uint64]. *)
Definition MaxEncodedLen (srcLen : Z) : Z :=
  if (srcLen <? 0) || (0xffffffff <? srcLen) then -1
  else let n := 32 + srcLen + srcLen / 6 in if 0xffffffff <? n then -1 else n.

(** ** encode_other.go *)

(** Little-endian value of some bytes. *)
Definition le_get (l : list byte) : Z := foldr (fun b acc => Z.lor (Z.shiftl acc 8) (Zb b)) 0 l.
Definition load32 (b : list byte) (i : Z) : outcome Z := let! s := slice b i (i + 4) in Ok (le_get s).
Definition load64 (b : list byte) (i : Z) : outcome Z := let! s := slice b i (i + 8) in Ok (le_get s).

Definition emitLiteral (lit : list byte) : list byte :=
  let n := Zlength lit - 1 in
  if n <? 60 then bZ (Z.lor (Z.shiftl (u8 n) 2) tagLiteral) :: lit
  else if n <? Z.shiftl 1 8 then bZ (Z.lor (Z.shiftl 60 2) tagLiteral) :: bZ n :: lit
  else bZ (Z.lor (Z.shiftl 61 2) tagLiteral) :: bZ n :: bZ (Z.shiftr n 8) :: lit.

(** A three-byte copy of [length] bytes. *)
Definition copy2 (offset length : Z) : list byte :=
  [bZ (Z.lor (Z.shiftl (u8 (length - 1)) 2) tagCopy2); bZ offset; bZ (Z.shiftr offset 8)].
Definition emitCopy_last (offset length : Z) : list byte :=
  if (12 <=? length) || (2048 <=? offset) then copy2 offset length
  else [bZ (Z.lor (Z.lor (Z.shiftl (u8 (Z.shiftr offset 8)) 5) (Z.shiftl (u8 (length - 4)) 2)) tagCopy1); bZ offset].
Fixpoint emitCopy_loop (fuel : nat) (offset length : Z) : list byte :=
  match fuel with
  | O => []
  | S fuel' =>
      if 68 <=? length then copy2 offset 64 ++ emitCopy_loop fuel' offset (length - 64)
      else if 64 <? length then copy2 offset 60 ++ emitCopy_last offset (length - 60)
      else emitCopy_last offset length
  end.
(** Every round takes 64 off [length]. *)
Definition emitCopy (offset length : Z) : list byte := emitCopy_loop (S (Z.to_nat length)) offset length.

Fixpoint extendMatch (fuel : nat) (src : list byte) (i j : Z) : outcome Z :=
  match fuel with
  | O => Panic OutOfFuel
  | S fuel' =>
      if j <? Zlength src then
        let! a := index src i in
        let! b := index src j in
        if Zb a =? Zb b then extendMatch fuel' src (i + 1) (j + 1) else Ok j
      else Ok j
  end.

Definition hash (u shift : Z) : Z := Z.shiftr (u32 (u * 0x1e35a7bd)) shift.

Definition maxTableSize : Z := Z.shiftl 1 14.
Definition tableMask : Z := maxTableSize - 1.
(** [[maxTableSize]uint16], zero where nothing was stored. *)
Definition table : Type := gmap Z Z.
Definition table_at (t : table) (h : Z) : Z := default 0 (t !! Z.land h tableMask).
Definition table_put (t : table) (h v : Z) : table := <[Z.land h tableMask := u16 v]> t.

Fixpoint shift_loop (fuel : nat) (tableSize shift srcLen : Z) : Z :=
  match fuel with
  | O => shift
  | S fuel' =>
      if (tableSize <? maxTableSize) && (tableSize <? srcLen)
      then shift_loop fuel' (tableSize * 2) (shift - 1) srcLen else shift
  end.
(** Six doublings take [tableSize] to [maxTableSize]. *)
Definition table_shift (srcLen : Z) : Z := shift_loop 6 (Z.shiftl 1 8) (32 - 8) srcLen.

(** The loop that looks for a 4-byte match; [None] is [goto emitRemainder]. *)
Fixpoint search (fuel : nat) (src : list byte) (shift sLimit : Z) (t : table) (nextHash nextS skip : Z)
    : outcome (option (Z * Z * table * Z)) :=
  match fuel with
  | O => Panic OutOfFuel
  | S fuel' =>
      let s := nextS in
      let bytesBetweenHashLookups := Z.shiftr skip 5 in
      let nextS := s + bytesBetweenHashLookups in
      let skip := skip + bytesBetweenHashLookups in
      if sLimit <? nextS then Ok None
      else
        let candidate := table_at t nextHash in
        let t := table_put t nextHash s in
        let! l := load32 src nextS in
        let nextHash := hash l shift in
        let! here := load32 src s in
        let! there := load32 src candidate in
        if here =? there then Ok (Some (s, candidate, t, nextHash))
        else search fuel' src shift sLimit t nextHash nextS skip
  end.

(** The loop over adjacent matches: the copies, [nextEmit], and the state of the
    next round, or [None] for [goto emitRemainder]. *)
Fixpoint copies (fuel : nat) (src : list byte) (shift sLimit : Z) (t : table) (s candidate : Z)
    : outcome (list byte * Z * option (table * Z * Z)) :=
  match fuel with
  | O => Panic OutOfFuel
  | S fuel' =>
      let base := s in
      let! s := extendMatch (S (length src)) src (candidate + 4) (s + 4) in
      let out := emitCopy (base - candidate) (s - base) in
      let nextEmit := s in
      if sLimit <=? s then Ok (out, nextEmit, None)
      else
        let! x := load64 src (s - 1) in
        let prevHash := hash (u32 (Z.shiftr x 0)) shift in
        let t := table_put t prevHash (s - 1) in
        let currHash := hash (u32 (Z.shiftr x 8)) shift in
        let candidate := table_at t currHash in
        let t := table_put t currHash s in
        let! there := load32 src candidate in
        if negb (u32 (Z.shiftr x 8) =? there)
        then Ok (out, nextEmit, Some (t, hash (u32 (Z.shiftr x 16)) shift, s + 1))
        else
          let! (out', nextEmit, next) := copies fuel' src shift sLimit t s candidate in
          Ok (out ++ out', nextEmit, next)
  end.

Definition emitRemainder (src : list byte) (nextEmit : Z) : outcome (list byte) :=
  if nextEmit <? Zlength src then let! lit := slice_from src nextEmit in Ok (emitLiteral lit) else Ok [].

Fixpoint encode_rounds (fuel : nat) (src : list byte) (shift sLimit : Z) (t : table) (nextHash s nextEmit : Z)
    : outcome (list byte) :=
  match fuel with
  | O => Panic OutOfFuel
  | S fuel' =>
      let! found := search (S (length src)) src shift sLimit t nextHash s 32 in
      match found with
      | None => emitRemainder src nextEmit
      | Some (s, candidate, t, nextHash) =>
          let! lit := slice src nextEmit s in
          let! (out, nextEmit, next) := copies (S (length src)) src shift sLimit t s candidate in
          let! rest :=
            match next with
            | None => emitRemainder src nextEmit
            | Some (t, nextHash, s) => encode_rounds fuel' src shift sLimit t nextHash s nextEmit
            end in
          Ok (emitLiteral lit ++ out ++ rest)
      end
  end.

Definition encodeBlock (src : list byte) : outcome (list byte) :=
  let shift := table_shift (Zlength src) in
  let sLimit := Zlength src - inputMargin in
  let! l := load32 src 1 in
  encode_rounds (S (length src)) src shift sLimit ∅ (hash l shift) 1 0.

(** ** encode.go *)

Fixpoint encode_blocks (fuel : nat) (src : list byte) : outcome (list byte) :=
  match fuel with
  | O => Panic OutOfFuel
  | S fuel' =>
      if 0 <? Zlength src then
        let (p, src) := if maxBlockSize <? Zlength src
                        then (take (Z.to_nat maxBlockSize) src, drop (Z.to_nat maxBlockSize) src) else (src, []) in
        let! out := (if Zlength p <? minNonLiteralBlockSize then Ok (emitLiteral p) else encodeBlock p) in
        let! rest := encode_blocks fuel' src in
        Ok (out ++ rest)
      else Ok []
  end.

(** The bytes [Encode] returns. *)
Definition Encode (src : list byte) : outcome (list byte) :=
  if MaxEncodedLen (Zlength src) <? 0 then Panic ExplicitPanic
  else
    let! body := encode_blocks (S (length src)) src in
    Ok (Binary.PutUvarint (Zlength src) ++ body).

(** ** decode_other.go, decode.go *)

Definition decodeErrCodeCorrupt : Z := 1.
Definition decodeErrCodeUnsupportedLiteralLength : Z := 2.

(** [for end := d + length; d != end; d++ { dst[d] = dst[d-offset] }] *)
Fixpoint forward_copy (length : nat) (dst : list byte) (d offset : Z) : outcome (list byte) :=
  match length with
  | O => Ok dst
  | S length' =>
      let! b := index dst (d - offset) in
      let! dst := set_index dst d b in
      forward_copy length' dst (d + 1) offset
  end.

(** [uint32(src[i]) | uint32(src[i+1])<<8 | ...] of [n] bytes. *)
Fixpoint le_at (n : nat) (src : list byte) (i : Z) : outcome Z :=
  match n with
  | O => Ok 0
  | S n' => let! b := index src i in let! x := le_at n' src (i + 1) in Ok (Z.lor (Z.shiftl x 8) (Zb b))
  end.

(** The length field of a literal in [n] bytes of its own: the value and the new
    [s], or an error code. *)
Definition long_length (n : nat) (src : list byte) (s : Z) : outcome (Z * Z + Z) :=
  let s := s + 1 + Z.of_nat n in
  if Zlength src <? s then Ok (inr decodeErrCodeCorrupt)
  else let! x := le_at n src (s - Z.of_nat n) in Ok (inl (x, s)).
Definition literal_header (src : list byte) (s : Z) : outcome (Z * Z + Z) :=
  let! tag := index src s in
  let x := Z.shiftr (Zb tag) 2 in
  if x <? 60 then Ok (inl (x, s + 1))
  else if x =? 60 then long_length 1 src s
  else if x =? 61 then long_length 2 src s
  else if x =? 62 then long_length 3 src s
  else long_length 4 src s.

(** The length and offset of a copy and the new [s], or an error code. *)
Definition copy_header (src : list byte) (s : Z) : outcome (Z * Z * Z + Z) :=
  let! tag := index src s in
  let kind := Z.land (Zb tag) 0x03 in
  if kind =? tagCopy1 then
    let s := s + 2 in
    if Zlength src <? s then Ok (inr decodeErrCodeCorrupt)
    else
      let! a := index src (s - 2) in
      let! b := index src (s - 1) in
      Ok (inl (4 + Z.land (Z.shiftr (Zb a) 2) 0x7, Z.lor (Z.shiftl (Z.land (Zb a) 0xe0) 3) (Zb b), s))
  else if kind =? tagCopy2 then
    let s := s + 3 in
    if Zlength src <? s then Ok (inr decodeErrCodeCorrupt)
    else let! a := index src (s - 3) in let! offset := le_at 2 src (s - 2) in Ok (inl (1 + Z.shiftr (Zb a) 2, offset, s))
  else
    let s := s + 5 in
    if Zlength src <? s then Ok (inr decodeErrCodeCorrupt)
    else let! a := index src (s - 5) in let! offset := le_at 4 src (s - 4) in Ok (inl (1 + Z.shiftr (Zb a) 2, offset, s)).

(** The buffer [dst] when the function returns, and what it returns. *)
Fixpoint decode_loop (fuel : nat) (dst src : list byte) (d s : Z) : outcome (list byte * Z) :=
  if negb (s <? Zlength src) then Ok (dst, if negb (d =? Zlength dst) then decodeErrCodeCorrupt else 0)
  else
    match fuel with
    | O => Panic OutOfFuel
    | S fuel' =>
        let! tag := index src s in
        if Z.land (Zb tag) 0x03 =? tagLiteral then
          let! h := literal_header src s in
          match h with
          | inr e => Ok (dst, e)
          | inl (x, s) =>
              let length := x + 1 in
              if length <=? 0 then Ok (dst, decodeErrCodeUnsupportedLiteralLength)
              else if (Zlength dst - d <? length) || (Zlength src - s <? length) then Ok (dst, decodeErrCodeCorrupt)
              else
                let! literal := slice src s (s + length) in
                let! (_, dst) := copy_at dst d literal in
                decode_loop fuel' dst src (d + length) (s + length)
          end
        else
          let! h := copy_header src s in
          match h with
          | inr e => Ok (dst, e)
          | inl (length, offset, s) =>
              if (offset <=? 0) || (d <? offset) || (Zlength dst - d <? length) then Ok (dst, decodeErrCodeCorrupt)
              else
                let! dst := forward_copy (Z.to_nat length) dst d offset in
                decode_loop fuel' dst src (d + length) s
          end
    end.
(** Every round consumes a byte. *)
Definition decode (dst src : list byte) : outcome (list byte * Z) := decode_loop (length src) dst src 0 0.

(** [None] is [ErrCorrupt]. *)
Definition decodedLen (src : list byte) : option (Z * Z) :=
  let '(v, n) := Binary.Uvarint src in
  if (n <=? 0) || (0xffffffff <? v) then None else Some (v, n).

(** [None] is any error. *)
Definition Decode (dst src : list byte) : outcome (option (list byte)) :=
  match decodedLen src with
  | None => Ok None
  | Some (dLen, s) =>
      let! dst := if dLen <=? Zlength dst then slice dst 0 dLen else Ok (replicate (Z.to_nat dLen) (bZ 0)) in
      let! src := slice_from src s in
      let! (dst, code) := decode dst src in
      Ok (if code =? 0 then Some dst else None)
  end.

End SnappyGo.

Module SnappyGoFacts.
Import SnappyGo BinaryFacts.

(** ** A reference decoder *)

(** The output [dst[:d]] as a list that grows, and the input left, [src[s:]]. *)
Fixpoint grow_copy (n : nat) (offset : Z) (dst : list byte) : outcome (list byte) :=
  match n with
  | O => Ok dst
  | S n' => let! b := index dst (Zlength dst - offset) in grow_copy n' offset (dst ++ [b])
  end.

(** The header of a literal: the value of its length field and the input after
    it, or an error code. *)
Definition literal_head (x : Z) (src : list byte) : Z * list byte + Z :=
  if x <? 60 then inl (x, src)
  else if x =? 60 then match src with b :: src => inl (Zb b, src) | _ => inr decodeErrCodeCorrupt end
  else if x =? 61 then match src with b :: c :: src => inl (le_get [b; c], src) | _ => inr decodeErrCodeCorrupt end
  else if x =? 62 then match src with b :: c :: d :: src => inl (le_get [b; c; d], src) | _ => inr decodeErrCodeCorrupt end
  else match src with b :: c :: d :: e :: src => inl (le_get [b; c; d; e], src) | _ => inr decodeErrCodeCorrupt end.

(** The length and offset of a copy. *)
Definition copy_head (tag : Z) (src : list byte) : Z * Z * list byte + Z :=
  let l := Z.land tag 0x03 in
  if l =? tagCopy1 then
    match src with
    | b :: src => inl (4 + Z.land (Z.shiftr tag 2) 0x7, Z.lor (Z.shiftl (Z.land tag 0xe0) 3) (Zb b), src)
    | _ => inr decodeErrCodeCorrupt end
  else if l =? tagCopy2 then
    match src with
    | b :: c :: src => inl (1 + Z.shiftr tag 2, le_get [b; c], src)
    | _ => inr decodeErrCodeCorrupt end
  else
    match src with
    | b :: c :: d :: e :: src => inl (1 + Z.shiftr tag 2, le_get [b; c; d; e], src)
    | _ => inr decodeErrCodeCorrupt end.

(** [inr] is the error code, [inl] the output of [dLen] bytes. *)
Fixpoint out_loop (fuel : nat) (dLen : Z) (dst src : list byte) : outcome (list byte + Z) :=
  match src with
  | [] => Ok (if Zlength dst =? dLen then inl dst else inr decodeErrCodeCorrupt)
  | tag :: src =>
      match fuel with
      | O => Panic OutOfFuel
      | S fuel' =>
          if Z.land (Zb tag) 0x03 =? tagLiteral then
            match literal_head (Z.shiftr (Zb tag) 2) src with
            | inr e => Ok (inr e)
            | inl (x, src) =>
                let length := x + 1 in
                if length <=? 0 then Ok (inr decodeErrCodeUnsupportedLiteralLength)
                else if (dLen - Zlength dst <? length) || (Zlength src <? length) then Ok (inr decodeErrCodeCorrupt)
                else out_loop fuel' dLen (dst ++ take (Z.to_nat length) src) (drop (Z.to_nat length) src)
            end
          else
            match copy_head (Zb tag) src with
            | inr e => Ok (inr e)
            | inl (length, offset, src) =>
                if (offset <=? 0) || (Zlength dst <? offset) || (dLen - Zlength dst <? length)
                then Ok (inr decodeErrCodeCorrupt)
                else let! dst := grow_copy (Z.to_nat length) offset dst in out_loop fuel' dLen dst src
            end
      end
  end.

(** ** Bytes of the format *)

Lemma le_get_cons b l : le_get (b :: l) = Zb b + 256 * le_get l.
Proof.
  unfold le_get. simpl. fold (le_get l). rewrite Z.lor_comm, lor_shift; [change (2 ^ 8) with 256; lia|lia|apply Zb_range].
Qed.

Lemma le_get_nonneg l : 0 <= le_get l.
Proof. induction l as [|b l IH]; [done|]. rewrite le_get_cons. pose proof (Zb_range b). lia. Qed.

Lemma le_get_inj l k : length l = length k -> le_get l = le_get k -> l = k.
Proof.
  revert k. induction l as [|b l IH]; intros [|c k] Hlen H; simpl in Hlen; [done|lia|lia|].
  rewrite !le_get_cons in H. pose proof (Zb_range b). pose proof (Zb_range c). pose proof (le_get_nonneg l). pose proof (le_get_nonneg k).
  assert (Zb b = Zb c /\ le_get l = le_get k) as [Hb Hl] by lia. f_equal; [|apply IH; [lia|done]].
  by rewrite <- (bZ_Zb b), Hb, bZ_Zb.
Qed.

Lemma le_get_two n : 0 <= n < 65536 -> le_get [bZ n; bZ (Z.shiftr n 8)] = n.
Proof.
  intros Hn. rewrite !le_get_cons, !Zb_bZ, Z.shiftr_div_pow2 by lia. change (2 ^ 8) with 256. change (le_get []) with 0.
  rewrite (Z.mod_small (n / 256)) by (split; [apply Z.div_pos; lia|apply Z.div_lt_upper_bound; lia]).
  pose proof (Z.div_mod n 256 ltac:(lia)). lia.
Qed.

(** A tag byte with type [t] in its two low bits. *)
Lemma tag_byte m t : 0 <= m < 64 -> 0 <= t < 4 ->
  let b := Zb (bZ (Z.lor (Z.shiftl (u8 m) 2) t)) in Z.land b 0x03 = t /\ Z.shiftr b 2 = m.
Proof.
  intros Hm Ht. cbv zeta. unfold u8. rewrite (Z.mod_small m) by lia. rewrite Z.lor_comm, lor_shift by lia.
  rewrite Zb_bZ, Z.mod_small by lia. change 0x03 with (Z.ones 2). rewrite Z.land_ones, Z.shiftr_div_pow2 by lia.
  change (2 ^ 2) with 4. split; [rewrite Z.mod_add by lia; apply Z.mod_small; lia|].
  rewrite Z.div_add by lia. rewrite Z.div_small by lia. lia.
Qed.

(** ** Decoding what the encoder emits

    [decs p enc delta]: whatever came before, when the last output is [p],
    decoding [enc] appends [delta]. *)

Definition decs (p enc delta : list byte) : Prop := forall pre dLen more f,
  Zlength pre + Zlength p + Zlength delta <= dLen -> (length (enc ++ more) <= f)%nat ->
  exists f', (length more <= f')%nat /\
    out_loop f dLen (pre ++ p) (enc ++ more) = out_loop f' dLen (pre ++ p ++ delta) more.

Lemma decs_nil p : decs p [] [].
Proof. intros pre dLen more f _ Hf. exists f. by rewrite app_nil_r. Qed.

Lemma decs_app p e1 d1 e2 d2 : decs p e1 d1 -> decs (p ++ d1) e2 d2 -> decs p (e1 ++ e2) (d1 ++ d2).
Proof.
  intros H1 H2 pre dLen more f Hd Hf. rewrite Zlength_app in Hd. pose proof (Zlength_nonneg d2).
  destruct (H1 pre dLen (e2 ++ more) f) as (f1 & Hf1 & E1); [lia|by rewrite app_assoc|].
  destruct (H2 pre dLen more f1) as (f2 & Hf2 & E2); [rewrite Zlength_app; lia|done|].
  exists f2. split; [done|]. rewrite <- app_assoc, E1, E2. by rewrite <- !app_assoc.
Qed.

Lemma decs_weaken p enc delta : decs [] enc delta -> decs p enc delta.
Proof.
  intros H pre dLen more f Hd Hf. destruct (H (pre ++ p) dLen more f) as (f' & Hf' & E); [|done|].
  - rewrite Zlength_app. change (Zlength []) with 0. lia.
  - exists f'. split; [done|]. rewrite app_nil_r in E. rewrite E. by rewrite <- app_assoc.
Qed.

Lemma Zlength_emitLiteral lit : Zlength (emitLiteral lit) = Zlength lit +
  (if Zlength lit <=? 60 then 1 else if Zlength lit <=? 256 then 2 else 3).
Proof.
  unfold emitLiteral. change (Z.shiftl 1 8) with 256.
  destruct (Zlength lit - 1 <? 60) eqn:E1; destruct (Zlength lit <=? 60) eqn:E2; bool_lia; [rewrite Zlength_cons; lia|].
  destruct (Zlength lit - 1 <? 256) eqn:E3; destruct (Zlength lit <=? 256) eqn:E4; bool_lia; rewrite !Zlength_cons; lia.
Qed.

Lemma decode_literal f dLen dst tag x src hdr lit more :
  Z.land (Zb tag) 0x03 = tagLiteral -> literal_head (Z.shiftr (Zb tag) 2) src = inl (x, hdr) -> hdr = lit ++ more ->
  x + 1 = Zlength lit -> 0 < Zlength lit -> Zlength dst + Zlength lit <= dLen ->
  out_loop (S f) dLen dst (tag :: src) = out_loop f dLen (dst ++ lit) more.
Proof.
  intros Ht Hh -> Hx Hl Hd. cbn [out_loop]. rewrite Ht, Hh. cbn [Z.eqb tagLiteral].
  rewrite Hx. rewrite (proj2 (Z.leb_gt _ _)) by lia. pose proof (Zlength_nonneg more).
  rewrite (proj2 (Z.ltb_ge _ _)), (proj2 (Z.ltb_ge _ _)) by (rewrite ?Zlength_app; lia). cbn [orb].
  by rewrite Zlength_nat, take_app_length, drop_app_length.
Qed.

Lemma decs_literal p lit : 1 <= Zlength lit <= 65536 -> decs p (emitLiteral lit) lit.
Proof.
  intros Hl pre dLen more f Hd Hf. unfold emitLiteral in *. change (Z.shiftl 1 8) with 256 in *.
  destruct f as [|f]; [exfalso; destruct (_ <? 60); [simpl in Hf; lia|]; destruct (_ <? 256); simpl in Hf; lia|].
  exists f. rewrite !app_assoc. change (Z.shiftl 60 2) with (Z.shiftl (u8 60) 2) in *. change (Z.shiftl 61 2) with (Z.shiftl (u8 61) 2) in *.
  destruct (Zlength lit - 1 <? 60) eqn:E1; bool_lia; [|destruct (Zlength lit - 1 <? 256) eqn:E2; bool_lia].
  - destruct (tag_byte (Zlength lit - 1) tagLiteral) as [T1 T2]; [lia|done|]. simpl in Hf. rewrite length_app in Hf.
    split; [lia|]. cbn [app]. eapply decode_literal; [done|rewrite T2; unfold literal_head; by rewrite (proj2 (Z.ltb_lt _ _)) by lia|done|lia|lia|].
    rewrite Zlength_app. lia.
  - destruct (tag_byte 60 tagLiteral) as [T1 T2]; [lia|done|]. simpl in Hf. rewrite length_app in Hf.
    split; [lia|]. cbn [app]. eapply decode_literal; [done|by rewrite T2|done| |lia|].
    + rewrite Zb_bZ, Z.mod_small by lia. lia.
    + rewrite Zlength_app. lia.
  - destruct (tag_byte 61 tagLiteral) as [T1 T2]; [lia|done|]. simpl in Hf. rewrite length_app in Hf.
    split; [lia|]. cbn [app]. eapply decode_literal; [done|by rewrite T2|done| |lia|].
    + rewrite le_get_two by lia. lia.
    + rewrite Zlength_app. lia.
Qed.

(** ** Copies *)

(** The last [delta] bytes repeat what is [offset] bytes before them. *)
Definition repeats (p delta : list byte) (offset : Z) : Prop :=
  1 <= offset <= Zlength p /\
  forall k : nat, (length p <= k < length p + length delta)%nat ->
    (p ++ delta) !! k = (p ++ delta) !! (k - Z.to_nat offset)%nat.

Lemma repeats_app p d1 d2 offset : repeats p (d1 ++ d2) offset -> repeats p d1 offset /\ repeats (p ++ d1) d2 offset.
Proof.
  intros [Ho H]. split; (split; [rewrite ?Zlength_app; pose proof (Zlength_nonneg d1); lia|]); intros k Hk.
  - specialize (H k). rewrite app_assoc in H. rewrite !(lookup_app_l (p ++ d1) d2) in H by (rewrite length_app; lia).
    apply H. rewrite length_app. lia.
  - rewrite <- app_assoc. apply H. rewrite length_app in *. lia.
Qed.

Lemma grow_copy_ok pre p delta offset : repeats p delta offset ->
  grow_copy (length delta) offset (pre ++ p) = Ok (pre ++ p ++ delta).
Proof.
  revert p. induction delta as [|x delta IH]; intros p Hr; [by rewrite app_nil_r|].
  change (x :: delta) with ([x] ++ delta) in Hr. destruct (repeats_app _ _ _ _ Hr) as [[Ho H1] H2]. cbn [length grow_copy].
  rewrite (index_lookup _ _ x).
  - cbn [obind]. rewrite <- app_assoc, (IH (p ++ [x])) by done. by rewrite <- app_assoc.
  - rewrite Zlength_app. pose proof (Zlength_nonneg pre). lia.
  - unfold Zlength in *. rewrite length_app. rewrite lookup_app_r by lia.
    specialize (H1 (length p) ltac:(simpl; lia)).
    rewrite lookup_app_r, Nat.sub_diag in H1 by lia. simpl in H1. rewrite lookup_app_l in H1 by lia.
    rewrite H1. f_equal. lia.
Qed.

Lemma decode_copy f dLen pre p tag src length offset delta more :
  Z.land (Zb tag) 0x03 <> tagLiteral -> copy_head (Zb tag) src = inl (length, offset, more) ->
  repeats p delta offset -> Zlength delta = length -> Zlength pre + Zlength p + Zlength delta <= dLen ->
  out_loop (S f) dLen (pre ++ p) (tag :: src) = out_loop f dLen (pre ++ p ++ delta) more.
Proof.
  intros Ht Hh Hr <- Hd. cbn [out_loop]. rewrite (proj2 (Z.eqb_neq _ _) Ht), Hh.
  pose proof (proj1 Hr). pose proof (Zlength_nonneg pre). rewrite Zlength_app.
  rewrite (proj2 (Z.leb_gt _ _)), !(proj2 (Z.ltb_ge _ _)) by lia. cbn [orb].
  by rewrite Zlength_nat, grow_copy_ok.
Qed.

Lemma decs_copy2 p delta offset length : 1 <= length <= 64 -> offset < 65536 -> Zlength delta = length -> repeats p delta offset ->
  decs p (copy2 offset length) delta.
Proof.
  intros Hl Ho Hd Hr pre dLen more f Hroom Hf. pose proof (proj1 Hr).
  destruct f as [|f]; [simpl in Hf; lia|]. exists f. unfold copy2 in *. simpl in Hf. split; [lia|]. cbn [app].
  destruct (tag_byte (length - 1) tagCopy2) as [T1 T2]; [lia|done|].
  eapply decode_copy; [by rewrite T1|unfold copy_head; rewrite T1, T2; done| |lia|done].
  by rewrite le_get_two by lia.
Qed.

Lemma copy1_tag hi lo : 0 <= hi < 8 -> 0 <= lo < 8 ->
  let b := Zb (bZ (Z.lor (Z.lor (Z.shiftl (u8 hi) 5) (Z.shiftl (u8 lo) 2)) tagCopy1)) in
  Z.land b 0x03 = tagCopy1 /\ Z.land (Z.shiftr b 2) 0x7 = lo /\ Z.shiftl (Z.land b 0xe0) 3 = hi * 256.
Proof.
  intros Hhi Hlo.
  pose (P := fun z => let hi := z / 8 in let lo := z mod 8 in
    let b := Zb (bZ (Z.lor (Z.lor (Z.shiftl (u8 hi) 5) (Z.shiftl (u8 lo) 2)) tagCopy1)) in
    (Z.land b 0x03 =? tagCopy1) && (Z.land (Z.shiftr b 2) 0x7 =? lo) && (Z.shiftl (Z.land b 0xe0) 3 =? hi * 256)).
  assert (P (hi * 8 + lo) = true) as H.
  { apply (Z_range_forallb 64); [by vm_compute|lia]. }
  unfold P in H. replace ((hi * 8 + lo) / 8) with hi in H by (rewrite Z.div_add_l, Z.div_small; lia).
  replace ((hi * 8 + lo) mod 8) with lo in H by (rewrite Z.add_comm, Z.mod_add, Z.mod_small; lia).
  cbv zeta in *. apply andb_true_iff in H as [[H1 H2]%andb_true_iff H3]. apply Z.eqb_eq in H1, H2, H3. done.
Qed.

Lemma decs_copy_last p delta offset length : 4 <= length <= 64 -> offset < 65536 -> Zlength delta = length -> repeats p delta offset ->
  decs p (emitCopy_last offset length) delta.
Proof.
  intros Hl Ho Hd Hr. unfold emitCopy_last. destruct (_ || _) eqn:E; [apply decs_copy2; by try lia|].
  apply orb_false_iff in E as [E1 E2]. bool_lia. pose proof (proj1 Hr).
  intros pre dLen more f Hroom Hf. destruct f as [|f]; [simpl in Hf; lia|]. exists f. simpl in Hf. split; [lia|]. cbn [app].
  assert (0 <= Z.shiftr offset 8 < 8) as Hsh.
  { rewrite Z.shiftr_div_pow2 by lia. change (2 ^ 8) with 256. split; [apply Z.div_pos; lia|apply Z.div_lt_upper_bound; lia]. }
  destruct (copy1_tag (Z.shiftr offset 8) (length - 4) Hsh ltac:(lia)) as (T1 & T2 & T3).
  eapply decode_copy; [by rewrite T1|unfold copy_head; rewrite T1, T2, T3; done| |lia|done].
  replace (Z.lor (Z.shiftr offset 8 * 256) (Zb (bZ offset))) with offset; [done|].
  replace (Z.shiftr offset 8 * 256) with (Z.shiftl (offset / 256) 8)
    by (rewrite Z.shiftl_mul_pow2, Z.shiftr_div_pow2 by lia; done).
  rewrite Zb_bZ, Z.lor_comm, lor_shift; [|lia|apply Z.mod_pos_bound; lia].
  change (2 ^ 8) with 256. pose proof (Z.div_mod offset 256 ltac:(lia)). lia.
Qed.

Lemma decs_copy_split p delta offset n enc1 enc2 : 0 <= n <= Zlength delta -> repeats p delta offset ->
  (forall d1, Zlength d1 = n -> repeats p d1 offset -> decs p enc1 d1) ->
  (forall d1 d2, Zlength d1 = n -> Zlength d2 = Zlength delta - n -> repeats (p ++ d1) d2 offset -> decs (p ++ d1) enc2 d2) ->
  decs p (enc1 ++ enc2) delta.
Proof.
  intros Hn Hr H1 H2. rewrite <- (take_drop (Z.to_nat n) delta) in *. apply repeats_app in Hr as [Hr1 Hr2].
  assert (Zlength (take (Z.to_nat n) delta) = n) as Hl1.
  { unfold Zlength in *. rewrite length_take. rewrite take_drop in Hn. lia. }
  rewrite take_drop in Hn, H2. apply decs_app; [by apply H1|]. apply H2; [done| |done].
  unfold Zlength in *. rewrite length_drop. lia.
Qed.

Lemma decs_copy_loop fuel p delta offset length : 4 <= length -> Z.of_nat fuel > length / 64 -> offset < 65536 ->
  Zlength delta = length -> repeats p delta offset -> decs p (emitCopy_loop fuel offset length) delta.
Proof.
  revert p delta length. induction fuel as [|fuel IH]; intros p delta length Hl Hf Ho Hd Hr.
  { assert (0 <= length / 64) by (apply Z.div_pos; lia). lia. }
  cbn [emitCopy_loop]. destruct (68 <=? length) eqn:E1; bool_lia; [|destruct (64 <? length) eqn:E2; bool_lia].
  - apply (decs_copy_split p delta offset 64); [lia|done|intros; apply decs_copy2; by try lia|].
    intros d1 d2 Hd1 Hd2 Hr2. apply IH; [lia| |done|lia|done].
    replace length with ((length - 64) + 1 * 64) in Hf by lia. rewrite Z.div_add in Hf by lia. lia.
  - apply (decs_copy_split p delta offset 60); [lia|done|intros; apply decs_copy2; by try lia|].
    intros d1 d2 Hd1 Hd2 Hr2. apply decs_copy_last; [lia|done|lia|done].
  - apply decs_copy_last; [lia|done|done|done].
Qed.

Lemma decs_copy p delta offset length : 4 <= length -> offset < 65536 -> Zlength delta = length -> repeats p delta offset ->
  decs p (emitCopy offset length) delta.
Proof.
  intros Hl Ho Hd Hr. apply decs_copy_loop; [done| |done|done|done].
  assert (length / 64 <= length) by (apply Z.div_le_upper_bound; lia). lia.
Qed.

(** A copy is shorter than what it stands for. *)
Lemma Zlength_emitCopy offset length : 4 <= length -> Zlength (emitCopy offset length) <= length - 1.
Proof.
  intros Hl. unfold emitCopy. generalize (S (Z.to_nat length)) as fuel. intros fuel. revert length Hl.
  assert (forall length, 4 <= length -> Zlength (emitCopy_last offset length) <= 3) as Hlast.
  { intros length Hl. unfold emitCopy_last. destruct (_ || _); done. }
  induction fuel as [|fuel IH]; intros length Hl; cbn [emitCopy_loop].
  { change (Zlength []) with 0. lia. }
  destruct (68 <=? length) eqn:E1; bool_lia; [|destruct (64 <? length) eqn:E2; bool_lia].
  - rewrite Zlength_app. change (Zlength (copy2 offset 64)) with 3. specialize (IH (length - 64) ltac:(lia)). lia.
  - rewrite Zlength_app. change (Zlength (copy2 offset 60)) with 3. specialize (Hlast (length - 60) ltac:(lia)). lia.
  - specialize (Hlast length Hl). lia.
Qed.

(** ** The encoder *)

Lemma le_get_app a b : le_get (a ++ b) = le_get a + 256 ^ Zlength a * le_get b.
Proof.
  induction a as [|x a IH]; [change (le_get []) with 0; change (256 ^ Zlength []) with 1; simpl; lia|].
  cbn [app]. rewrite !le_get_cons, IH, Zlength_cons, Z.pow_add_r by (pose proof (Zlength_nonneg a); lia). lia.
Qed.

Lemma le_get_bound l : le_get l < 256 ^ Zlength l.
Proof.
  induction l as [|b l IH]; [done|]. rewrite le_get_cons, Zlength_cons, Z.pow_add_r by (pose proof (Zlength_nonneg l); lia).
  pose proof (Zb_range b). lia.
Qed.

Section block.
Context (src : list byte) (SIZE : 17 <= Zlength src <= 65536).
Abbreviation len := (Zlength src).

Definition seg (a b : Z) : list byte := take (Z.to_nat (b - a)) (drop (Z.to_nat a) src).
Definition upto (b : Z) : list byte := take (Z.to_nat b) src.

Lemma slice_seg a b : 0 <= a <= b -> b <= len -> slice src a b = Ok (seg a b).
Proof. apply slice_ok. Qed.
Lemma Zlength_seg a b : 0 <= a <= b -> b <= len -> Zlength (seg a b) = b - a.
Proof. intros. unfold seg, Zlength in *. rewrite length_take, length_drop. lia. Qed.
Lemma Zlength_upto b : 0 <= b <= len -> Zlength (upto b) = b.
Proof. intros. unfold upto, Zlength in *. rewrite length_take. lia. Qed.
Lemma upto_seg a b : 0 <= a <= b -> upto a ++ seg a b = upto b.
Proof.
  intros. unfold upto, seg. replace (Z.to_nat b) with (Z.to_nat a + Z.to_nat (b - a))%nat by lia. by rewrite <- take_take_drop.
Qed.
Lemma seg_seg a b c : 0 <= a <= b -> b <= c -> seg a b ++ seg b c = seg a c.
Proof.
  intros. unfold seg. replace (Z.to_nat (c - a)) with (Z.to_nat (b - a) + Z.to_nat (c - b))%nat by lia.
  rewrite <- take_take_drop, drop_drop. f_equal. f_equal. f_equal. lia.
Qed.
Lemma seg_lookup a b k : 0 <= a <= k -> k < b -> seg a b !! Z.to_nat (k - a) = src !! Z.to_nat k.
Proof. intros. unfold seg. rewrite lookup_take_lt by lia. rewrite lookup_drop. f_equal. lia. Qed.

(** The bytes from [s] to [e] are those from [c] on. *)
Definition agree (c s e : Z) : Prop := forall k, s <= k < e -> src !! Z.to_nat (k - (s - c)) = src !! Z.to_nat k.

Lemma agree_repeats c s e : 0 <= c < s -> s <= e <= len -> agree c s e -> repeats (upto s) (seg s e) (s - c).
Proof.
  intros Hc He Ha. split; [rewrite Zlength_upto by lia; lia|]. intros k Hk. rewrite upto_seg by lia.
  assert (length (upto s) = Z.to_nat s) as L1 by (pose proof (Zlength_upto s ltac:(lia)) as H; unfold Zlength in H at 1; lia).
  assert (length (seg s e) = Z.to_nat (e - s)) as L2 by (pose proof (Zlength_seg s e ltac:(lia) ltac:(lia)) as H; unfold Zlength in H at 1; lia).
  unfold upto. rewrite !lookup_take_lt by lia. specialize (Ha (Z.of_nat k) ltac:(lia)). rewrite Nat2Z.id in Ha. rewrite <- Ha. f_equal. lia.
Qed.

Lemma load32_seg i : 0 <= i -> i + 4 <= len -> load32 src i = Ok (le_get (seg i (i + 4))).
Proof. intros. unfold load32. by rewrite slice_seg by lia. Qed.

Lemma load32_agree c s : 0 <= c < s -> s + 4 <= len -> le_get (seg s (s + 4)) = le_get (seg c (c + 4)) -> agree c s (s + 4).
Proof.
  intros Hc Hs Heq k Hk. apply le_get_inj in Heq.
  - rewrite <- (seg_lookup s (s + 4) k) by lia. rewrite Heq, <- (seg_lookup c (c + 4)) by lia. f_equal. lia.
  - apply Nat2Z.inj. change (Zlength (seg s (s + 4)) = Zlength (seg c (c + 4))). rewrite !Zlength_seg by lia. lia.
Qed.

Lemma load64_ok s : 1 <= s -> s + 7 <= len -> exists x, load64 src (s - 1) = Ok x /\
  u32 (Z.shiftr x 8) = le_get (seg s (s + 4)).
Proof.
  intros H1 H2. unfold load64. rewrite slice_seg by lia. eexists. split; [done|].
  rewrite <- (seg_seg (s - 1) s (s - 1 + 8)) by lia. rewrite <- (seg_seg s (s + 4) (s - 1 + 8)) by lia.
  rewrite !le_get_app, !Zlength_seg by lia. replace (s - (s - 1)) with 1 by lia. replace (s + 4 - s) with 4 by lia.
  pose proof (le_get_bound (seg (s - 1) s)) as B1. pose proof (le_get_bound (seg s (s + 4))) as B2.
  rewrite !Zlength_seg in B1, B2 by lia. replace (s - (s - 1)) with 1 in B1 by lia. replace (s + 4 - s) with 4 in B2 by lia.
  pose proof (le_get_nonneg (seg (s - 1) s)). pose proof (le_get_nonneg (seg s (s + 4))).
  rewrite Z.shiftr_div_pow2 by lia. change (2 ^ 8) with 256. change (256 ^ 1) with 256 in *. change (256 ^ 4) with (2 ^ 32) in *.
  rewrite (Z.mul_comm 256), Z.div_add, Z.div_small, Z.add_0_l by lia. unfold u32.
  rewrite (Z.mul_comm (2 ^ 32)), Z.mod_add by lia. apply Z.mod_small. lia.
Qed.

Lemma extendMatch_ok fuel i j : 0 <= i < j -> j <= len -> (Z.to_nat (len - j) < fuel)%nat ->
  exists j', extendMatch fuel src i j = Ok j' /\ j <= j' <= len /\ agree i j j'.
Proof.
  revert i j. induction fuel as [|fuel IH]; intros i j Hi Hj Hf; [lia|]. cbn [extendMatch].
  destruct (j <? len) eqn:E; bool_lia.
  - destruct (index_is_ok src i ltac:(lia)) as (a & -> & Ha). destruct (index_is_ok src j ltac:(lia)) as (b & -> & Hb). cbn [obind].
    destruct (Zb a =? Zb b) eqn:E2; bool_lia.
    + destruct (IH (i + 1) (j + 1)) as (j' & -> & Hj' & Hag); [lia|lia|lia|]. exists j'. split; [done|]. split; [lia|].
      intros k Hk. destruct (decide (k = j)) as [->|].
      * replace (j - (j - i)) with i by lia. rewrite Ha, Hb. f_equal. by rewrite <- (bZ_Zb a), E2, bZ_Zb.
      * rewrite <- (Hag k) by lia. f_equal. lia.
    + exists j. split; [done|]. split; [lia|]. intros k Hk. lia.
  - exists j. split; [done|]. split; [lia|]. intros k Hk. lia.
Qed.

(** Everything in the hash table lies before [s]. *)
Definition table_ok (t : table) (s : Z) : Prop := forall k v, t !! k = Some v -> 0 <= v < s.

Lemma table_at_ok t s h : 1 <= s -> table_ok t s -> 0 <= table_at t h < s.
Proof. intros Hs Ht. unfold table_at. destruct (t !! _) as [v|] eqn:E; simpl; [by eapply Ht|lia]. Qed.
Lemma table_put_ok t s h v : table_ok t s -> 0 <= v < s -> s <= 65536 -> table_ok (table_put t h v) s.
Proof.
  intros Ht Hv Hs k w Hw. unfold table_put, u16 in Hw. rewrite Z.mod_small in Hw by lia. unfold table in *.
  apply lookup_insert_Some in Hw as [[_ <-]|[_ Hw]]; [done|by eapply Ht].
Qed.
Lemma table_ok_mono t s s' : table_ok t s -> s <= s' -> table_ok t s'.
Proof. intros Ht Hs k v Hv. specialize (Ht k v Hv). lia. Qed.

Abbreviation sLimit := (len - inputMargin).

Lemma search_ok fuel shift t nextHash nextS skip : table_ok t nextS -> 1 <= nextS -> 32 <= skip ->
  (Z.to_nat (len - nextS) < fuel)%nat ->
  exists r, search fuel src shift sLimit t nextHash nextS skip = Ok r /\
    match r with
    | None => True
    | Some (s, c, t', _) => nextS <= s < sLimit /\ 0 <= c < s /\ agree c s (s + 4) /\ table_ok t' (s + 1)
    end.
Proof.
  change inputMargin with 15. revert t nextHash nextS skip.
  induction fuel as [|fuel IH]; intros t nextHash nextS skip Ht Hs Hskip Hf; [lia|]. cbn [search].
  assert (1 <= Z.shiftr skip 5). { rewrite Z.shiftr_div_pow2 by lia. apply Z.div_le_lower_bound; lia. }
  destruct (_ <? _) eqn:E; bool_lia; [by exists None|].
  pose proof (table_at_ok t nextS nextHash Hs Ht) as Hc.
  rewrite !load32_seg by lia. cbn [obind].
  assert (table_ok (table_put t nextHash nextS) (nextS + 1)) as Ht'.
  { apply table_put_ok; [eapply table_ok_mono; [done|lia]|lia|lia]. }
  destruct (_ =? _) eqn:E2; bool_lia.
  - eexists. split; [done|]. simpl. split; [lia|]. split; [done|]. split; [apply load32_agree; [done|lia|done]|done].
  - destruct (IH (table_put t nextHash nextS) (hash (le_get (seg (nextS + Z.shiftr skip 5) (nextS + Z.shiftr skip 5 + 4))) shift)
      (nextS + Z.shiftr skip 5) (skip + Z.shiftr skip 5)) as (r & -> & Hr); [eapply table_ok_mono; [done|lia]|lia|lia|lia|].
    exists r. split; [done|]. destruct r as [[[[s c] t'] h]|]; [|done]. destruct Hr as (? & ? & ? & ?). split; [lia|done].
Qed.

Lemma copies_ok fuel shift t s c : table_ok t (s + 1) -> 0 <= c < s -> s + 4 <= len -> agree c s (s + 4) ->
  (Z.to_nat (len - s) < fuel)%nat ->
  exists out ne next, copies fuel src shift sLimit t s c = Ok (out, ne, next) /\ s + 4 <= ne <= len /\
    decs (upto s) out (seg s ne) /\ 6 * Zlength out <= 7 * (ne - s) - 10 /\
    match next with None => True | Some (t', _, s') => s' = ne + 1 /\ ne < sLimit /\ table_ok t' s' end.
Proof.
  change inputMargin with 15. revert t s c. induction fuel as [|fuel IH]; intros t s c Ht Hc Hs Hag Hf; [lia|]. cbn [copies].
  destruct (extendMatch_ok (S (length src)) (c + 4) (s + 4)) as (e & -> & He & Hext); [lia|lia|unfold Zlength; lia|]. cbn [obind].
  assert (agree c s e) as Hall.
  { intros k Hk. destruct (decide (k < s + 4)); [apply Hag; lia|]. rewrite <- (Hext k) by lia. f_equal. lia. }
  assert (decs (upto s) (emitCopy (s - c) (e - s)) (seg s e)) as Hdec.
  { apply decs_copy; [lia|lia|rewrite Zlength_seg by lia; lia|apply agree_repeats; [lia|lia|done]]. }
  pose proof (Zlength_emitCopy (s - c) (e - s) ltac:(lia)) as Hlen.
  destruct (_ <=? e) eqn:E; bool_lia.
  { eexists _, e, None. split; [done|]. split; [done|]. split; [done|]. split; [lia|done]. }
  destruct (load64_ok e) as (x & -> & Hx); [lia|lia|]. cbn [obind]. rewrite Hx.
  set (h1 := hash (u32 (Z.shiftr x 0)) shift). set (h2 := hash (le_get (seg e (e + 4))) shift).
  assert (table_ok (table_put t h1 (e - 1)) e) as Ht1.
  { apply table_put_ok; [eapply table_ok_mono; [done|lia]|lia|lia]. }
  pose proof (table_at_ok _ e h2 ltac:(lia) Ht1) as Hc2.
  assert (table_ok (table_put (table_put t h1 (e - 1)) h2 e) (e + 1)) as Ht2.
  { apply table_put_ok; [eapply table_ok_mono; [done|lia]|lia|lia]. }
  rewrite load32_seg by lia. cbn [obind]. destruct (_ =? _) eqn:E2; bool_lia; cbn [negb].
  - destruct (IH (table_put (table_put t h1 (e - 1)) h2 e) e (table_at (table_put t h1 (e - 1)) h2))
      as (out & ne & next & -> & Hne & Hd & Hb & Hnext); [done|done|lia|by apply load32_agree; [|lia|]|lia|].
    cbn [obind]. eexists _, ne, next. split; [done|]. split; [lia|]. split; [|split; [rewrite Zlength_app; lia|done]].
    rewrite <- (seg_seg s e ne) by lia. apply decs_app; [done|]. by rewrite upto_seg by lia.
  - eexists _, e, _. split; [done|]. split; [lia|]. split; [done|]. split; [lia|]. simpl. split; [done|]. split; [lia|done].
Qed.

Lemma emitLiteral_cost lit : 1 <= Zlength lit -> 6 * Zlength (emitLiteral lit) <= 7 * Zlength lit + 5.
Proof. intros. rewrite Zlength_emitLiteral. destruct (_ <=? 60) eqn:E; bool_lia. destruct (_ <=? 256) eqn:E2; bool_lia. Qed.

(** The rest of a block is cheap, or it is one literal. *)
Definition cheap (ne : Z) (out : list byte) : Prop :=
  6 * Zlength out <= 7 * (len - ne) \/ ne < len /\ out = emitLiteral (seg ne len).

Lemma cheap_cost ne out : 0 <= ne -> cheap ne out -> 6 * Zlength out <= 7 * (len - ne) + 5.
Proof.
  intros Hne [H|[Hlt ->]]; [lia|]. pose proof (emitLiteral_cost (seg ne len)) as H. rewrite Zlength_seg in H by lia. lia.
Qed.

Lemma emitRemainder_ok ne : 0 <= ne <= len -> exists out, emitRemainder src ne = Ok out /\
  decs (upto ne) out (seg ne len) /\ cheap ne out.
Proof.
  intros Hne. unfold emitRemainder. destruct (ne <? len) eqn:E; bool_lia.
  - rewrite slice_from_ok by lia. cbn [obind].
    assert (drop (Z.to_nat ne) src = seg ne len) as ->.
    { unfold seg. rewrite take_ge; [done|]. rewrite length_drop. unfold Zlength. lia. }
    eexists. split; [done|]. split; [|by right]. apply decs_literal. rewrite Zlength_seg by lia. lia.
  - assert (ne = len) as -> by lia. eexists. split; [done|]. split.
    + unfold seg. rewrite Z.sub_diag. apply decs_nil.
    + left. change (Zlength []) with 0. lia.
Qed.

Lemma encode_rounds_ok fuel shift t nextHash s ne : table_ok t s -> 0 <= ne < s -> ne <= len -> (Z.to_nat (len - ne) < fuel)%nat ->
  exists out, encode_rounds fuel src shift sLimit t nextHash s ne = Ok out /\
    decs (upto ne) out (seg ne len) /\ cheap ne out.
Proof.
  revert t nextHash s ne. induction fuel as [|fuel IH]; intros t nextHash s ne Ht Hs Hne Hf; [lia|]. cbn [encode_rounds].
  destruct (search_ok (S (length src)) shift t nextHash s 32) as (r & -> & Hr); [done|lia|lia|unfold Zlength; lia|]. cbn [obind].
  destruct r as [[[[s' c] t'] h']|]; [|by apply emitRemainder_ok; lia].
  destruct Hr as (Hs' & Hc & Hag & Ht'). assert (inputMargin = 15) as HM by done. rewrite slice_seg by lia. cbn [obind].
  destruct (copies_ok (S (length src)) shift t' s' c) as (out & ne' & next & -> & Hne' & Hd & Hb & Hnext);
    [done|done|lia|done|unfold Zlength; lia|]. cbn [obind].
  assert (exists rest, match next with
      | None => emitRemainder src ne'
      | Some (t, nextHash, s) => encode_rounds fuel src shift sLimit t nextHash s ne' end = Ok rest /\
    decs (upto ne') rest (seg ne' len) /\ cheap ne' rest) as (rest & -> & Hdr & Hcr).
  { destruct next as [[[t'' h''] s'']|]; [|apply emitRemainder_ok; lia]. destruct Hnext as (-> & ? & ?). apply IH; [done|lia|lia|lia]. }
  cbn [obind]. eexists. split; [done|]. split.
  - rewrite <- (seg_seg ne s' len) by lia. apply decs_app; [apply decs_literal; rewrite Zlength_seg by lia; lia|].
    rewrite upto_seg by lia. rewrite <- (seg_seg s' ne' len) by lia. apply decs_app; [done|]. by rewrite upto_seg by lia.
  - left. rewrite !Zlength_app. pose proof (emitLiteral_cost (seg ne s')) as H. rewrite Zlength_seg in H by lia.
    pose proof (cheap_cost ne' rest ltac:(lia) Hcr). lia.
Qed.

Lemma encodeBlock_ok : exists out, encodeBlock src = Ok out /\ decs [] out src /\ 6 * Zlength out <= 7 * len.
Proof.
  unfold encodeBlock. rewrite load32_seg by lia. cbn [obind].
  destruct (encode_rounds_ok (S (length src)) (table_shift len) ∅ (hash (le_get (seg 1 (1 + 4))) (table_shift len)) 1 0)
    as (out & -> & Hd & Hc); [|lia|lia|unfold Zlength; lia|].
  - intros k v Hv. unfold table in *. by rewrite lookup_empty in Hv.
  - assert (seg 0 len = src) as Hseg by (unfold seg; rewrite drop_0, take_ge; [done|unfold Zlength; lia]).
    rewrite Hseg in Hd. exists out. split; [done|]. split; [done|].
    destruct Hc as [Hc|[_ ->]]; [lia|]. rewrite Hseg, Zlength_emitLiteral. destruct (_ <=? 60) eqn:E; bool_lia. destruct (_ <=? 256); lia.
Qed.

End block.

Lemma encode_blocks_ok fuel src : (length src < fuel)%nat -> exists out, encode_blocks fuel src = Ok out /\
  decs [] out src /\ 6 * Zlength out <= 7 * Zlength src + 5.
Proof.
  revert src. induction fuel as [|fuel IH]; intros src Hf; [lia|]. cbn [encode_blocks].
  destruct (0 <? Zlength src) eqn:E; bool_lia.
  2: { exists []. destruct src; [|rewrite Zlength_cons in *; pose proof (Zlength_nonneg src); lia]. split; [done|]. split; [apply decs_nil|done]. }
  change maxBlockSize with 65536. change minNonLiteralBlockSize with 17. destruct (65536 <? Zlength src) eqn:E2; bool_lia.
  - assert (Zlength (take (Z.to_nat 65536) src) = 65536) as Hl by (unfold Zlength in *; rewrite length_take; lia).
    rewrite Hl. change (65536 <? 17) with false. cbv iota.
    destruct (encodeBlock_ok (take (Z.to_nat 65536) src)) as (out & -> & Hd & Hb); [lia|]. cbn [obind].
    destruct (IH (drop (Z.to_nat 65536) src)) as (rest & -> & Hdr & Hbr); [rewrite length_drop; unfold Zlength in E; lia|].
    cbn [obind]. eexists. split; [done|]. rewrite Zlength_app. split.
    + rewrite <- (take_drop (Z.to_nat 65536) src). apply decs_app; [done|by apply decs_weaken].
    + pose proof (f_equal Zlength (take_drop (Z.to_nat 65536) src)) as Htd. rewrite Zlength_app in Htd. lia.
  - assert (exists out, (if Zlength src <? 17 then Ok (emitLiteral src) else encodeBlock src) = Ok out /\
      decs [] out src /\ 6 * Zlength out <= 7 * Zlength src + 5) as (out & -> & Hd & Hb).
    { destruct (Zlength src <? 17) eqn:E3; bool_lia.
      - eexists. split; [done|]. split; [apply decs_literal; lia|apply emitLiteral_cost; lia].
      - destruct (encodeBlock_ok src) as (out & -> & Hd & Hb); [lia|]. exists out. split; [done|]. split; [done|lia]. }
    cbn [obind]. destruct fuel; [destruct src; [done|simpl in Hf; lia]|]. cbn [encode_blocks obind].
    change (0 <? Zlength []) with false. cbn [obind]. rewrite app_nil_r. eauto.
Qed.

Lemma MaxEncodedLen_pos n : 0 <= MaxEncodedLen n -> MaxEncodedLen n = 32 + n + n / 6 /\ 0 <= n <= 0xffffffff.
Proof. unfold MaxEncodedLen. destruct (_ || _) eqn:E; [lia|]. bool_lia. destruct (_ <? _); lia. Qed.

(** ** The decoder follows the reference

    The buffer is the output so far and the room after it, the input what is
    consumed and what is left. *)

Lemma index_middle {A} (l k : list A) x i : i = Zlength l -> index (l ++ x :: k) i = Ok x.
Proof. intros ->. apply index_lookup; [apply Zlength_nonneg|]. rewrite Zlength_nat. by apply list_lookup_middle. Qed.
Lemma set_index_middle {A} (l k : list A) x y i : i = Zlength l -> set_index (l ++ x :: k) i y = Ok (l ++ y :: k).
Proof.
  intros ->. unfold set_index. rewrite Zlength_app, Zlength_cons. pose proof (Zlength_nonneg l). pose proof (Zlength_nonneg k).
  rewrite (proj2 (Z.leb_le _ _)), (proj2 (Z.ltb_lt _ _)) by lia. cbn [andb]. by rewrite Zlength_nat, insert_app_r_alt, Nat.sub_diag by lia.
Qed.

Lemma le_at_app l : forall pre rest i, i = Zlength pre -> le_at (length l) (pre ++ l ++ rest) i = Ok (le_get l).
Proof.
  induction l as [|b l IH]; intros pre rest i ->; [done|]. cbn [length le_at app]. rewrite index_middle by done. cbn [obind].
  replace (pre ++ b :: l ++ rest) with ((pre ++ [b]) ++ l ++ rest) by (by rewrite <- app_assoc).
  rewrite IH by (rewrite Zlength_app; done). done.
Qed.

Lemma grow_copy_sim n offset : forall out room out', grow_copy n offset out = Ok out' -> (n <= length room)%nat -> 1 <= offset <= Zlength out ->
  forward_copy n (out ++ room) (Zlength out) offset = Ok (out' ++ drop n room).
Proof.
  induction n as [|n IH]; intros out [|r room] out' Hg Hn Ho; cbn [grow_copy forward_copy length] in *; try lia; [by injection Hg as <-..|].
  destruct (index_is_ok out (Zlength out - offset)) as (b & Hb & Hl); [lia|]. rewrite Hb in Hg. cbn [obind] in Hg.
  rewrite (index_lookup _ _ b); [|lia|by apply lookup_app_l_Some]. cbn [obind]. rewrite set_index_middle by done. cbn [obind].
  replace (out ++ b :: room) with ((out ++ [b]) ++ room) by (by rewrite <- app_assoc).
  replace (Zlength out + 1) with (Zlength (out ++ [b])) by (by rewrite Zlength_app).
  apply IH; [done|lia|rewrite Zlength_app; change (Zlength [b]) with 1; lia].
Qed.

(** A header of [n] bytes after the tag. *)
Lemma header_short {A} (past : list byte) tag left n (x y : A) : (length left < n)%nat ->
  (if Zlength (past ++ tag :: left) <? Zlength past + 1 + Z.of_nat n then x else y) = x.
Proof. intros Hn. rewrite (proj2 (Z.ltb_lt _ _)); [done|]. rewrite Zlength_app, Zlength_cons. unfold Zlength. lia. Qed.
Lemma header_long {A} (past : list byte) tag l left n (x y : A) : length l = n ->
  (if Zlength (past ++ tag :: l ++ left) <? Zlength past + 1 + Z.of_nat n then x else y) = y.
Proof. intros <-. rewrite (proj2 (Z.ltb_ge _ _)); [done|]. rewrite Zlength_app, Zlength_cons, Zlength_app. pose proof (Zlength_nonneg left). unfold Zlength. lia. Qed.
Lemma le_at_header past tag l left n : length l = n -> le_at n (past ++ tag :: l ++ left) (Zlength past + 1) = Ok (le_get l).
Proof.
  intros <-. replace (past ++ tag :: l ++ left) with ((past ++ [tag]) ++ l ++ left) by (by rewrite <- app_assoc).
  apply le_at_app. by rewrite Zlength_app.
Qed.

Definition long_head (n : nat) (left : list byte) : Z * list byte + Z :=
  if Nat.ltb (length left) n then inr decodeErrCodeCorrupt else inl (le_get (take n left), drop n left).
Lemma literal_head_long x left : literal_head x left =
  if x <? 60 then inl (x, left) else if x =? 60 then long_head 1 left else if x =? 61 then long_head 2 left
  else if x =? 62 then long_head 3 left else long_head 4 left.
Proof.
  unfold literal_head, long_head. destruct (x <? 60), (x =? 60), (x =? 61), (x =? 62);
    destruct left as [|b [|c [|d [|e left]]]]; try done. all: cbn; rewrite ?le_get_cons; change (le_get []) with 0; do 2 f_equal; lia.
Qed.

(** ** The reference takes any input *)

Lemma grow_copy_total n offset dst : 1 <= offset <= Zlength dst ->
  exists d, grow_copy n offset dst = Ok d /\ Zlength d = Zlength dst + Z.of_nat n.
Proof.
  revert dst. induction n as [|n IH]; intros dst Ho; cbn [grow_copy]; [exists dst; split; [done|lia]|].
  destruct (index_is_ok dst (Zlength dst - offset)) as (b & -> & _); [lia|]. cbn [obind].
  destruct (IH (dst ++ [b])) as (d & -> & Hd); [rewrite Zlength_app; change (Zlength [b]) with 1; lia|].
  exists d. split; [done|]. rewrite Hd, Zlength_app. change (Zlength [b]) with 1. lia.
Qed.

Lemma literal_head_shorter x src y src' : literal_head x src = inl (y, src') -> (length src' <= length src)%nat.
Proof. unfold literal_head. intros H. repeat case_match; simplify_eq; simpl; lia. Qed.
Lemma literal_head_error x src e : literal_head x src = inr e -> e <> 0.
Proof. unfold literal_head. intros H. repeat case_match; by simplify_eq. Qed.
Lemma copy_head_error tag src e : copy_head tag src = inr e -> e <> 0.
Proof. unfold copy_head. intros H. repeat case_match; by simplify_eq. Qed.
Lemma copy_head_shorter tag src l o src' : copy_head tag src = inl (l, o, src') ->
  (length src' <= length src)%nat /\ (0 <= tag -> 0 <= l).
Proof.
  unfold copy_head. intros H. repeat case_match; simplify_eq; simpl; (split; [lia|]); intros Ht.
  - pose proof (Z.land_nonneg (Z.shiftr tag 2) 7). lia.
  - pose proof (Z.shiftr_nonneg tag 2). lia.
  - pose proof (Z.shiftr_nonneg tag 2). lia.
Qed.

Lemma out_loop_total fuel dLen dst src : (length src <= fuel)%nat -> Zlength dst <= dLen ->
  exists r, out_loop fuel dLen dst src = Ok r /\ match r with inl d => Zlength d = dLen | inr e => e <> 0 end.
Proof.
  revert dst src. induction fuel as [|fuel IH]; intros dst [|tag src] Hf Hd; cbn [out_loop]; try (simpl in Hf; lia).
  1, 2: eexists; split; [done|]; destruct (_ =? _) eqn:E; bool_lia; done.
  simpl in Hf. destruct (_ =? tagLiteral).
  - destruct (literal_head _ _) as [[x src']|e] eqn:Eh; [|eexists; split; [done|by eapply literal_head_error]]. apply literal_head_shorter in Eh.
    destruct (_ <=? 0) eqn:E1; [by eexists|]. destruct (_ || _) eqn:E2; [by eexists|]. bool_lia.
    apply IH; [rewrite length_drop; lia|]. rewrite Zlength_app. unfold Zlength in *. rewrite length_take. lia.
  - destruct (copy_head _ _) as [[[l o] src']|e] eqn:Eh; [|eexists; split; [done|by eapply copy_head_error]]. apply copy_head_shorter in Eh as [Eh Hl].
    pose proof (Zb_range tag). destruct (_ || _) eqn:E2; [by eexists|]. bool_lia.
    destruct (grow_copy_total (Z.to_nat l) o dst) as (d & -> & Hld); [lia|]. cbn [obind]. apply IH; lia.
Qed.

Lemma long_length_sim n past tag left : long_length n (past ++ tag :: left) (Zlength past) =
  Ok (match long_head n left with inl (x, left') => inl (x, Zlength (past ++ tag :: left) - Zlength left') | inr e => inr e end).
Proof.
  unfold long_length, long_head. destruct (Nat.ltb_spec (length left) n) as [Hn|Hn]; [by rewrite header_short|].
  assert (length (take n left) = n) as Hl by (rewrite length_take; lia). pose proof (take_drop n left) as E.
  revert E Hl. generalize (take n left) (drop n left). intros l k <- Hl.
  rewrite header_long by done. replace (Zlength past + 1 + Z.of_nat n - Z.of_nat n) with (Zlength past + 1) by lia.
  rewrite le_at_header by done. cbn [obind]. do 3 f_equal. rewrite !Zlength_app, Zlength_cons, !Zlength_app. unfold Zlength. rewrite Hl. lia.
Qed.
Lemma literal_header_sim past tag left : literal_header (past ++ tag :: left) (Zlength past) =
  Ok (match literal_head (Z.shiftr (Zb tag) 2) left with inl (x, left') => inl (x, Zlength (past ++ tag :: left) - Zlength left') | inr e => inr e end).
Proof.
  unfold literal_header. rewrite index_middle by done. cbn [obind]. rewrite literal_head_long.
  destruct (_ <? 60); [do 3 f_equal; rewrite Zlength_app, Zlength_cons; lia|]. destruct (_ =? 60); [apply long_length_sim|].
  destruct (_ =? 61); [apply long_length_sim|]. destruct (_ =? 62); apply long_length_sim.
Qed.
Lemma copy_header_sim past tag left : copy_header (past ++ tag :: left) (Zlength past) =
  Ok (match copy_head (Zb tag) left with
      | inl (l, o, left') => inl (l, o, Zlength (past ++ tag :: left) - Zlength left') | inr e => inr e end).
Proof.
  unfold copy_header, copy_head. rewrite index_middle by done. cbn [obind].
  replace (Zlength past + 2) with (Zlength past + 1 + Z.of_nat 1) by lia. replace (Zlength past + 3) with (Zlength past + 1 + Z.of_nat 2) by lia.
  replace (Zlength past + 5) with (Zlength past + 1 + Z.of_nat 4) by lia.
  replace (Zlength past + 1 + Z.of_nat 1 - 2) with (Zlength past) by lia. replace (Zlength past + 1 + Z.of_nat 1 - 1) with (Zlength past + 1) by lia.
  replace (Zlength past + 1 + Z.of_nat 2 - 3) with (Zlength past) by lia. replace (Zlength past + 1 + Z.of_nat 2 - 2) with (Zlength past + 1) by lia.
  replace (Zlength past + 1 + Z.of_nat 4 - 5) with (Zlength past) by lia. replace (Zlength past + 1 + Z.of_nat 4 - 4) with (Zlength past + 1) by lia.
  rewrite index_middle by done. cbn [obind]. destruct (_ =? tagCopy1); [|destruct (_ =? tagCopy2)].
  - destruct left as [|b left]; [by rewrite header_short by (cbn; lia)|]. change (b :: left) with ([b] ++ left). rewrite header_long by done. cbn [app].
    replace (past ++ tag :: b :: left) with ((past ++ [tag]) ++ b :: left) by (by rewrite <- app_assoc).
    rewrite index_middle by (by rewrite Zlength_app). cbn [obind]. do 3 f_equal. rewrite !Zlength_app, !Zlength_cons. change (Zlength (@nil byte)) with 0. lia.
  - destruct left as [|b [|c left]]; [by rewrite header_short by (cbn; lia)..|]. change (b :: c :: left) with ([b; c] ++ left). rewrite header_long, le_at_header by done. cbn [obind]. do 3 f_equal. rewrite !Zlength_app, !Zlength_cons, !Zlength_app, !Zlength_cons. change (Zlength (@nil byte)) with 0. lia.
  - destruct left as [|b [|c [|d [|e left]]]]; [by rewrite header_short by (cbn; lia)..|]. change (b :: c :: d :: e :: left) with ([b; c; d; e] ++ left). rewrite header_long, le_at_header by done. cbn [obind]. do 3 f_equal. rewrite !Zlength_app, !Zlength_cons, !Zlength_app, !Zlength_cons. change (Zlength (@nil byte)) with 0. lia.
Qed.

(** A header leaves a suffix of the input. *)
Lemma literal_head_suffix x left y left' : literal_head x left = inl (y, left') -> exists h, left = h ++ left'.
Proof.
  rewrite literal_head_long. unfold long_head. intros H. repeat case_match; simplify_eq; [by exists []|..]; eexists; symmetry; apply take_drop.
Qed.
Lemma copy_head_suffix tag left l o left' : copy_head tag left = inl (l, o, left') -> exists h, left = h ++ left'.
Proof.
  unfold copy_head. intros H. repeat case_match; simplify_eq;
    [by eexists [_]|by eexists [_; _]|by eexists [_; _; _; _]].
Qed.

Definition code (r : list byte + Z) : Z := match r with inl _ => 0 | inr e => e end.

Lemma decode_loop_sim fuel : forall out room past left r,
  out_loop fuel (Zlength (out ++ room)) out left = Ok r ->
  exists dst, decode_loop fuel (out ++ room) (past ++ left) (Zlength out) (Zlength past) = Ok (dst, code r) /\ forall o, r = inl o -> dst = o.
Proof.
  induction fuel as [|fuel IH]; intros out room past [|tag left] r; cbn [out_loop decode_loop]; try done.
  1, 2: intros [= <-]; rewrite app_nil_r, Z.ltb_irrefl; cbn [negb]; exists (out ++ room); (destruct (Z.eqb_spec (Zlength out) (Zlength (out ++ room))) as [E|E];
    [split; [done|]; intros o [= <-]; rewrite Zlength_app in E; destruct room; [by rewrite app_nil_r|rewrite Zlength_cons in E; pose proof (Zlength_nonneg room); lia]|done]).
  pose proof (Zlength_nonneg out) as Ho. rewrite (proj2 (Z.ltb_lt _ _)) by (rewrite Zlength_app, Zlength_cons; pose proof (Zlength_nonneg left); lia).
  cbn [negb]. rewrite index_middle by done. cbn [obind]. destruct (_ =? tagLiteral).
  - rewrite literal_header_sim. cbn [obind]. destruct (literal_head _ _) as [[x left']|e] eqn:Eh; [|intros [= <-]; by eexists].
    destruct (literal_head_suffix _ _ _ _ Eh) as [h ->]. set (n := x + 1).
    assert (past ++ tag :: h ++ left' = (past ++ tag :: h) ++ left') as Hsrc by (by rewrite <- app_assoc). rewrite Hsrc, (Zlength_app _ left').
    replace (Zlength (past ++ tag :: h) + Zlength left' - Zlength left') with (Zlength (past ++ tag :: h)) by lia.
    replace (Zlength (past ++ tag :: h) + Zlength left' - Zlength (past ++ tag :: h)) with (Zlength left') by lia.
    destruct (n <=? 0) eqn:E1; [intros [= <-]; by eexists|]. destruct (_ || _) eqn:E2; [intros [= <-]; by eexists|]. bool_lia. rewrite Zlength_app in *.
    intros Hr. assert (Zlength (take (Z.to_nat n) left') = n) as Htl by (unfold Zlength in *; rewrite length_take; lia).
    remember (take (Z.to_nat n) left') as lit eqn:El. remember (drop (Z.to_nat n) left') as more eqn:Em.
    assert (left' = lit ++ more) as -> by (subst lit more; by rewrite take_drop). clear El Em.
    rewrite (slice_app (past ++ tag :: h) lit more) by lia. cbn [obind].
    rewrite <- (take_drop (length lit) room). set (r1 := take (length lit) room). set (r2 := drop (length lit) room).
    assert (length lit = length r1) as Hr1 by (unfold r1, Zlength in *; rewrite length_take; lia).
    rewrite (copy_at_app out r1 r2 lit) by done. cbn [obind].
    destruct (IH (out ++ lit) r2 ((past ++ tag :: h) ++ lit) more r) as (dst & Hdst & Hres).
    { rewrite <- Hr. f_equal. rewrite !Zlength_app. unfold r2, Zlength in *. rewrite length_drop. lia. }
    exists dst. split; [|done]. rewrite <- Hdst, <- !app_assoc. f_equal; rewrite !Zlength_app; lia.
  - rewrite copy_header_sim. cbn [obind]. destruct (copy_head _ _) as [[[l o] left']|e] eqn:Eh; [|intros [= <-]; by eexists].
    destruct (copy_head_shorter _ _ _ _ _ Eh) as [_ Hl]. specialize (Hl ltac:(pose proof (Zb_range tag); lia)).
    destruct (copy_head_suffix _ _ _ _ _ Eh) as [h ->].
    assert (past ++ tag :: h ++ left' = (past ++ tag :: h) ++ left') as Hsrc by (by rewrite <- app_assoc). rewrite Hsrc, (Zlength_app _ left').
    replace (Zlength (past ++ tag :: h) + Zlength left' - Zlength left') with (Zlength (past ++ tag :: h)) by lia.
    destruct (_ || _) eqn:E2; [intros [= <-]; by eexists|]. bool_lia. rewrite Zlength_app in *.
    destruct (grow_copy_total (Z.to_nat l) o out) as (out' & Hg & Hlen); [lia|]. rewrite Hg. cbn [obind]. intros Hr.
    rewrite (grow_copy_sim _ _ _ room out' Hg) by (unfold Zlength in *; lia). cbn [obind].
    destruct (IH out' (drop (Z.to_nat l) room) (past ++ tag :: h) left' r) as (dst & Hdst & Hres).
    { rewrite <- Hr. f_equal. rewrite Zlength_app, Hlen. unfold Zlength in *. rewrite length_drop. lia. }
    exists dst. split; [|done]. rewrite <- Hdst. f_equal. lia.
Qed.

(** The buffer of [Decode]. *)
Lemma decode_buffer dst dLen : 0 <= dLen -> exists buf, Zlength buf = dLen /\
  (if dLen <=? Zlength dst then slice dst 0 dLen else Ok (replicate (Z.to_nat dLen) (bZ 0))) = Ok buf.
Proof.
  intros Hd. destruct (Z.leb_spec dLen (Zlength dst)) as [Hle|Hgt].
  - rewrite slice_ok by lia. eexists. split; [|done]. unfold Zlength in *. rewrite length_take, drop_0. lia.
  - eexists. split; [|done]. unfold Zlength. rewrite length_replicate. lia.
Qed.
(** [decode] into any buffer. *)
Lemma decode_ref buf src r : out_loop (length src) (Zlength buf) [] src = Ok r ->
  exists dst, decode buf src = Ok (dst, code r) /\ forall o, r = inl o -> dst = o.
Proof. intros Hr. exact (decode_loop_sim (length src) [] buf [] src r Hr). Qed.

(** [Encode] succeeds, stays two bytes below the bound and is inverted by [Decode]. *)
Lemma Encode_ok src : 0 <= MaxEncodedLen (Zlength src) -> exists out, Encode src = Ok out /\
  Zlength out + 2 <= MaxEncodedLen (Zlength src) /\ forall dst, Decode dst out = Ok (Some src).
Proof.
  intros Hmax. destruct (MaxEncodedLen_pos _ Hmax) as [HM Hn]. unfold Encode. rewrite (proj2 (Z.ltb_ge _ _) Hmax).
  destruct (encode_blocks_ok (S (length src)) src) as (body & -> & Hd & Hb); [lia|]. cbn [obind].
  eexists. split; [done|]. split.
  - rewrite HM, Zlength_app. assert (Zlength (Binary.PutUvarint (Zlength src)) <= 5) as Hp.
    { unfold Zlength at 1. pose proof (put_uvarint_length 10 (Zlength src) 5) as H. unfold Binary.PutUvarint.
      assert (2 ^ (7 * Z.of_nat 5) = 34359738368) by done. specialize (H ltac:(lia) ltac:(lia)). lia. }
    pose proof (Z.div_mod (Zlength src) 6 ltac:(lia)). pose proof (Z.mod_pos_bound (Zlength src) 6 ltac:(lia)). lia.
  - intros dst. unfold Decode, decodedLen. assert (0xffffffff < 2 ^ 64) by done. rewrite Uvarint_Put by lia.
    assert (0 < Zlength (Binary.PutUvarint (Zlength src))) as Hpos.
    { pose proof (PutUvarint_nonempty (Zlength src)). destruct (Binary.PutUvarint (Zlength src)) as [|b l]; [done|].
      rewrite Zlength_cons. pose proof (Zlength_nonneg l). lia. }
    rewrite (proj2 (Z.leb_gt _ _)), (proj2 (Z.ltb_ge _ _)) by lia. cbn [orb].
    destruct (decode_buffer dst (Zlength src) ltac:(lia)) as (buf & Hbuf & ->). cbn [obind]. rewrite slice_from_app by done. cbn [obind].
    destruct (Hd [] (Zlength src) [] (length body)) as (f' & _ & Hdec); [change (Zlength []) with 0; lia|by rewrite app_nil_r|].
    rewrite !app_nil_r in Hdec. cbn [app] in Hdec. rewrite <- Hbuf in Hdec.
    destruct (decode_ref buf body (inl src)) as (d & -> & Hres); [|cbn [obind code Z.eqb]; by rewrite (Hres src eq_refl)].
    rewrite Hdec. destruct f'; cbn [out_loop]; by rewrite Hbuf, Z.eqb_refl.
Qed.

Lemma uvarint_consumed i x s buf : 0 <= i -> snd (Binary.uvarint i x s buf) <= i + Zlength buf /\
  (forall v n, Binary.uvarint i x s buf = (v, n) -> 0 <= x -> 0 <= v).
Proof.
  revert i x s. induction buf as [|b buf IH]; intros i x s Hi; cbn [Binary.uvarint].
  - change (Zlength []) with 0. split; [simpl; lia|]. intros v n [= <- <-]. done.
  - rewrite Zlength_cons. pose proof (Zlength_nonneg buf). destruct (_ <? 128).
    + destruct (_ || _); simpl; (split; [lia|]); intros v n [= <- <-] Hx; [done|]. apply Z.lor_nonneg. split; [done|apply u64_range].
    + destruct (IH (i + 1) (Z.lor x (u64 (Z.shiftl (Z.land (Zb b) 127) s))) (s + 7) ltac:(lia)) as [H1 H2]. split; [lia|].
      intros v n Hv Hx. apply (H2 v n Hv). apply Z.lor_nonneg. split; [done|apply u64_range].
Qed.

Lemma Decode_total dst src : exists r, Decode dst src = Ok r /\
  match r with Some d => exists n, decodedLen src = Some (Zlength d, n) | None => True end.
Proof.
  unfold Decode, decodedLen. destruct (Binary.Uvarint src) as [v n] eqn:Eu.
  destruct (uvarint_consumed 0 0 0 src ltac:(lia)) as [H1 H2]. unfold Binary.Uvarint in Eu. rewrite Eu in H1. simpl in H1.
  specialize (H2 v n Eu ltac:(lia)).
  destruct (_ || _) eqn:E; [by exists None|]. bool_lia. destruct (decode_buffer dst v H2) as (buf & Hbuf & ->). cbn [obind].
  rewrite slice_from_ok by lia. cbn [obind].
  destruct (out_loop_total (length (drop (Z.to_nat n) src)) v [] (drop (Z.to_nat n) src)) as (r & Hr & Hlen);
    [lia|change (Zlength []) with 0; lia|]. rewrite <- Hbuf in Hr. destruct (decode_ref _ _ _ Hr) as (d & -> & Hd). cbn [obind].
  eexists. split; [done|]. destruct (_ =? 0) eqn:Ec; [|done]. destruct r as [o|e].
  - rewrite (Hd o eq_refl), Hlen. by exists n.
  - exfalso. cbn [code] in Ec. bool_lia.
Qed.

End SnappyGoFacts.

(** ** What the users of the package rely on

    [Encode] compresses into the buffer it is given when that has room for the
    worst case and into a fresh one when not.  The portable version leaves the
    rest of that buffer alone, the assembly version may overrun the bytes it
    returns: [snappy_tail] is what it leaves there. *)

Import SnappyGo SnappyGoFacts.

Class Snappy := {
  snappy_encode : list byte -> list byte;
  snappy_tail : list byte -> list byte -> list byte;
  snappy_decode : list byte -> option (list byte)
}.

(** What the package documents: decoding inverts encoding, and an encoding is
    no longer than [MaxEncodedLen]. *)
Class SnappyLaws `{Snappy} : Prop := {
  snappy_roundtrip : forall l, 0 <= MaxEncodedLen (Zlength l) -> snappy_decode (snappy_encode l) = Some l;
  snappy_bound : forall l, 0 <= MaxEncodedLen (Zlength l) ->
    Zlength (snappy_encode l) <= MaxEncodedLen (Zlength l)
}.
(** Two of the 32 constant bytes in [MaxEncodedLen] are never used (the
    encoder's length header takes at most five). [maxTableSize] relies on it,
    see [max_table_size_suffices]. *)
Class SnappySlack `{Snappy} : Prop :=
  snappy_slack : forall l, 0 <= MaxEncodedLen (Zlength l) ->
    Zlength (snappy_encode l) + 2 <= MaxEncodedLen (Zlength l).

(** [snappy.Encode(dst, src)]: the new contents of [dst], and the result. *)
Definition snappy_Encode `{Snappy} (dst src : list byte) : outcome (list byte * list byte) :=
  let n := MaxEncodedLen (Zlength src) in
  if n <? 0 then Panic ExplicitPanic
  else let e := snappy_encode src in
    if Zlength dst <? n then Ok (dst, e)
    else Ok (e ++ take (length dst - length e) (snappy_tail dst src ++ drop (length e) dst), e).

(** The portable version keeps the contract. *)
Definition go_snappy : Snappy := {|
  snappy_encode l := match Encode l with Ok e => e | Panic _ => [] end;
  snappy_tail _ _ := [];
  snappy_decode l := match Decode [] l with Ok r => r | Panic _ => None end
|}.

Lemma go_snappy_laws : SnappyLaws (H := go_snappy).
Proof.
  split; intros l Hl; destruct (Encode_ok l Hl) as (out & He & Hb & Hd); cbn [snappy_encode snappy_decode go_snappy]; rewrite He.
  - by rewrite Hd.
  - lia.
Qed.

Lemma go_snappy_slack : SnappySlack (H := go_snappy).
Proof. intros l Hl. destruct (Encode_ok l Hl) as (out & He & Hb & Hd). cbn [snappy_encode go_snappy]. by rewrite He. Qed.

(** C25: snappy round trip.  Whatever fits the format, the encoder (hash table,
    match search with skipping, copies and literals over blocks of 64 KiB)
    terminates without a run-time panic, its output is at least two bytes below
    [MaxEncodedLen], and the decoder gives the input back, whatever buffer it
    is handed. *)
Theorem snappy_encode_decode (src : list byte) : 0 <= MaxEncodedLen (Zlength src) ->
  exists out, Encode src = Ok out /\ Zlength out + 2 <= MaxEncodedLen (Zlength src) /\ forall dst, Decode dst out = Ok (Some src).
Proof. apply Encode_ok. Qed.

Lemma snappy_encode_decode_witness :
  let src := bs "hello hello hello hello world, hello hello" in
  exists out, Encode src = Ok out /\ Zlength out + 2 <= MaxEncodedLen (Zlength src) /\ forall dst, Decode dst out = Ok (Some src).
Proof. apply snappy_encode_decode. vm_compute. discriminate. Defined.

(** C35: snappy decoding is safe on any input.  Whatever the bytes (a corrupt
    table) and the buffer, [Decode] returns a result or an error: every index
    and slice of the input and of the buffer is in range, and the loop ends.  A
    result has the length that the header announces. *)
Theorem snappy_decode_safe (dst src : list byte) : exists r, Decode dst src = Ok r /\
  match r with Some d => exists n, decodedLen src = Some (Zlength d, n) | None => True end.
Proof. apply Decode_total. Qed.
