(* ===== verification/NbsTable.v ===== *)
(** * Package [nbs]: the table format (src/go/nbs/table.go, table_writer.go,
      table_reader.go, index part)

    A table is the records of its chunks, an index and a footer in one byte
    buffer.  [tableWriter] fills the buffer in place: records front to back,
    then the index, whose lengths and suffixes are written at the position of
    each chunk's ordinal while the writer walks the chunks in prefix order.
    [parseTableIndex] reads index and footer back.  The lemmas give the exact
    bytes the writer leaves behind and the exact index the parser returns for
    them. *)

From S2P Require Import Prelude GoLib HashPkg Chunks SnappyPkg.
Import Hash Chunks.
Import SnappyGo(MaxEncodedLen).

(** ** table.go *)

Module Nbs.

Definition addrSize : Z := 20.
Definition addrPrefixSize : Z := 8.
Definition addrSuffixSize : Z := addrSize - addrPrefixSize.
Definition uint64Size : Z := 8.
Definition uint32Size : Z := 4.
Definition ordinalSize : Z := uint32Size.
Definition lengthSize : Z := uint32Size.
Definition magicNumber : list byte := bZ <$> [0xff; 0xb5; 0xd8; 0xc2; 0x24; 0x63; 0xee; 0x50].
Definition magicNumberSize : Z := Zlength magicNumber.
Definition footerSize : Z := uint32Size + uint64Size + magicNumberSize.
Definition prefixTupleSize : Z := addrPrefixSize + ordinalSize.
Definition checksumSize : Z := uint32Size.
Definition maxChunkSize : Z := 0xffffffff.

Definition crc (b : list byte) : Z := Crc32.Update b.

Abbreviation addr := Hash.
Definition computeAddrDefault (data : list byte) : addr := of_bytes (take 20 (Sha512.Sum512 data)).
Definition addr_String (a : addr) : list byte := Base32.EncodeToString (hash_bytes a).
Definition Prefix (a : addr) : Z := be_get (take 8 (hash_bytes a)).
Definition Suffix (a : addr) : list byte := drop 8 (hash_bytes a).
Definition Checksum (a : addr) : Z := be_get (drop 16 (hash_bytes a)).
(** [encoding.Decode(h[:], b)]: the error is dropped, a longer result panics. *)
Definition ParseAddr (b : list byte) : outcome addr :=
  let d := Base32.Decode b in
  if (length d <=? ByteLen)%nat then Ok (of_bytes d) else Panic IndexOutOfRange.

Definition addrSlice_Less (a b : addr) : bool :=
  match bytes_Compare (hash_bytes a) (hash_bytes b) with Lt => true | _ => false end.

Record hasRecord : Type := MkHas { hr_a : addr; hr_prefix : Z; hr_order : Z; hr_has : bool }.
Definition hasRecordByPrefix_Less (x y : hasRecord) : bool := hr_prefix x <? hr_prefix y.
Definition hasRecordByOrder_Less (x y : hasRecord) : bool := hr_order x <? hr_order y.

Record getRecord : Type := MkGet {
  gr_a : addr; gr_prefix : Z; gr_order : Z; gr_found : bool; gr_data : goslice }.
Definition getRecordByPrefix_Less (x y : getRecord) : bool := gr_prefix x <? gr_prefix y.
Definition getRecordByOrder_Less (x y : getRecord) : bool := gr_order x <? gr_order y.

Record extractRecord : Type := MkExtract { er_a : addr; er_data : goslice }.

(** ** table_writer.go *)

Record prefixIndexRec : Type := MkRec { pi_prefix : Z; pi_suffix : list byte; pi_order : Z; pi_size : Z }.
Definition prefixIndexSlice_Less (x y : prefixIndexRec) : bool := pi_prefix x <? pi_prefix y.

(** [blockHash] is the bytes hashed so far. *)
Record tableWriter : Type := MkTw {
  tw_buff : list byte;
  tw_pos : Z;
  tw_totalPhysicalData : Z;
  tw_prefixes : list prefixIndexRec;
  tw_blockHash : list byte
}.

Definition maxTableSize (numChunks totalData : Z) : outcome Z :=
  if numChunks =? 0 then Panic ExplicitPanic (* integer division by zero *)
  else
    let avgChunkSize := totalData / numChunks in
    let! _ := check (avgChunkSize <? maxChunkSize) in
    let maxSnappySize := MaxEncodedLen avgChunkSize in
    let! _ := check (0 <? maxSnappySize) in
    Ok (u64 (numChunks * (prefixTupleSize + lengthSize + addrSuffixSize + checksumSize + maxSnappySize)
             + footerSize)).

Definition indexSize (numChunks : Z) : Z :=
  u64 (numChunks * (addrSuffixSize + lengthSize + prefixTupleSize)).

Definition newTableWriter (buff : list byte) : tableWriter := MkTw buff 0 0 [] [].

Section writer.
Context `{Snappy} `{GoSort}.

Definition addChunk (tw : tableWriter) (h : addr) (data : list byte) : outcome tableWriter :=
  if Zlength data =? 0 then Panic ExplicitPanic
  else
    let! dst := slice_from (tw_buff tw) (tw_pos tw) in
    let! (dst, compressed) := snappy_Encode dst data in
    let buff := take (Z.to_nat (tw_pos tw)) (tw_buff tw) ++ dst in
    let dataLength := Zlength compressed in
    let pos := u64 (tw_pos tw + dataLength) in
    let totalPhysicalData := u64 (tw_totalPhysicalData tw + dataLength) in
    let! buff := put_at 4 buff pos (crc data) in
    let pos := u64 (pos + checksumSize) in
    let rec := MkRec (Prefix h) (Suffix h) (u32 (Zlength (tw_prefixes tw)))
                     (u32 (u64 (checksumSize + dataLength))) in
    Ok (MkTw buff pos totalPhysicalData (tw_prefixes tw ++ [rec]) (tw_blockHash tw)).

(** One round of the loop of [writeIndex]. *)
Definition writeIndex_step (lengthsOffset suffixesOffset : Z)
    (st : list byte * Z * list byte) (pi : prefixIndexRec) : outcome (list byte * Z * list byte) :=
  let '(buff, pos, blockHash) := st in
  let pfxScratch := be_put 8 (pi_prefix pi) in
  let blockHash := blockHash ++ pfxScratch ++ pi_suffix pi in
  (* hash prefix *)
  let! (n, buff) := copy_at buff pos pfxScratch in
  let! _ := check (n =? addrPrefixSize) in
  let pos := u64 (pos + n) in
  (* order *)
  let! buff := put_at 4 buff pos (pi_order pi) in
  let pos := u64 (pos + ordinalSize) in
  (* length *)
  let offset := u64 (lengthsOffset + pi_order pi * lengthSize) in
  let! buff := put_at 4 buff offset (pi_size pi) in
  (* hash suffix *)
  let offset := u64 (suffixesOffset + pi_order pi * addrSuffixSize) in
  let! (n, buff) := copy_at buff offset (pi_suffix pi) in
  let! _ := check (n =? addrSuffixSize) in
  Ok (buff, pos, blockHash).

Fixpoint writeIndex_loop (lengthsOffset suffixesOffset : Z)
    (recs : list prefixIndexRec) (st : list byte * Z * list byte) : outcome (list byte * Z * list byte) :=
  match recs with
  | [] => Ok st
  | pi :: recs => let! st := writeIndex_step lengthsOffset suffixesOffset st pi in
                  writeIndex_loop lengthsOffset suffixesOffset recs st
  end.

Definition writeIndex (tw : tableWriter) : outcome tableWriter :=
  let prefixes := go_sort prefixIndexSlice_Less (tw_prefixes tw) in
  let numRecords := Zlength prefixes in
  let lengthsOffset := u64 (tw_pos tw + numRecords * prefixTupleSize) in
  let suffixesOffset := u64 (lengthsOffset + numRecords * lengthSize) in
  let! (buff, _, blockHash) :=
    writeIndex_loop lengthsOffset suffixesOffset prefixes (tw_buff tw, tw_pos tw, tw_blockHash tw) in
  Ok (MkTw buff (u64 (suffixesOffset + numRecords * addrSuffixSize))
           (tw_totalPhysicalData tw) prefixes blockHash).

Definition writeFooter (tw : tableWriter) : outcome tableWriter :=
  let chunkCount := u32 (Zlength (tw_prefixes tw)) in
  let! buff := put_at 4 (tw_buff tw) (tw_pos tw) chunkCount in
  let pos := u64 (tw_pos tw + uint32Size) in
  let! buff := put_at 8 buff pos (tw_totalPhysicalData tw) in
  let pos := u64 (pos + uint64Size) in
  let! (_, buff) := copy_at buff pos magicNumber in
  let pos := u64 (pos + magicNumberSize) in
  Ok (MkTw buff pos (tw_totalPhysicalData tw) (tw_prefixes tw) (tw_blockHash tw)).

(** The writer's final state, the length of the table and its name. *)
Definition finish (tw : tableWriter) : outcome (tableWriter * Z * addr) :=
  let! tw := writeIndex tw in
  let! tw := writeFooter tw in
  Ok (tw, tw_pos tw, of_bytes (Sha512.Sum512 (tw_blockHash tw))).

End writer.

(** ** table_reader.go: the index *)

Record tableIndex : Type := MkIndex {
  ti_chunkCount : Z;
  ti_prefixes : list Z;
  ti_offsets : list Z;
  ti_lengths : list Z;
  ti_ordinals : list Z;
  ti_suffixes : list byte
}.

(** The loop of [computeOffsets] from [i] on, [n] rounds. *)
Fixpoint computeOffsets_loop (n : nat) (i : Z) (buff : list byte) (prevLen prevOff : Z) : outcome (list Z * list Z) :=
  match n with
  | O => Ok ([], [])
  | S n' =>
      let! b := slice_from buff (u64 (i * lengthSize)) in
      let! len := uint_at 4 b in
      let off := u64 (prevOff + prevLen) in
      let! (lens, offs) := computeOffsets_loop n' (i + 1) buff len off in
      Ok (len :: lens, off :: offs)
  end.
Definition computeOffsets (count : Z) (buff : list byte) : outcome (list Z * list Z) :=
  if count =? 0 then Panic IndexOutOfRange (* lengths[0] *)
  else
    let! len := uint_at 4 buff in
    let! (lens, offs) := computeOffsets_loop (Z.to_nat (count - 1)) 1 buff len 0 in
    Ok (len :: lens, 0 :: offs).

Fixpoint computePrefixes_loop (n : nat) (i : Z) (buff : list byte) : outcome (list Z * list Z) :=
  match n with
  | O => Ok ([], [])
  | S n' =>
      let idx := u64 (i * prefixTupleSize) in
      let! b := slice_from buff idx in
      let! prefix := uint_at 8 b in
      let! b := slice_from buff (u64 (idx + addrPrefixSize)) in
      let! ordinal := uint_at 4 b in
      let! (ps, os) := computePrefixes_loop n' (i + 1) buff in
      Ok (prefix :: ps, ordinal :: os)
  end.
Definition computePrefixes (count : Z) (buff : list byte) : outcome (list Z * list Z) :=
  computePrefixes_loop (Z.to_nat count) 0 buff.

Definition parseTableIndex (buff : list byte) : outcome tableIndex :=
  let pos := Zlength buff in
  (* footer *)
  let pos := u64 (pos - magicNumberSize) in
  let! magic := slice_from buff pos in
  let! _ := check (bool_decide (magic = magicNumber)) in
  (* skip total chunk data *)
  let pos := u64 (pos - uint64Size) in
  let pos := u64 (pos - uint32Size) in
  let! b := slice_from buff pos in
  let! chunkCount := uint_at 4 b in
  (* index *)
  let suffixesSize := u64 (chunkCount * addrSuffixSize) in
  let pos := u64 (pos - suffixesSize) in
  let! b := slice_from buff pos in
  let suffixes := take (Z.to_nat suffixesSize) (b ++ replicate (Z.to_nat suffixesSize) (bZ 0)) in
  let lengthsSize := u64 (chunkCount * lengthSize) in
  let pos := u64 (pos - lengthsSize) in
  let! b := slice buff pos (u64 (pos + lengthsSize)) in
  let! (lengths, offsets) := computeOffsets chunkCount b in
  let tuplesSize := u64 (chunkCount * prefixTupleSize) in
  let pos := u64 (pos - tuplesSize) in
  let! b := slice buff pos (u64 (pos + tuplesSize)) in
  let! (prefixes, ordinals) := computePrefixes chunkCount b in
  Ok (MkIndex chunkCount prefixes offsets lengths ordinals suffixes).

End Nbs.

Import Nbs.

(** ** The bytes of a table *)

Section layout.
Context `{Snappy}.

Definition record_bytes (data : list byte) : list byte := snappy_encode data ++ be_put 4 (crc data).
Definition records (chunks : list (addr * list byte)) : list byte := concat ((fun c => record_bytes (snd c)) <$> chunks).
Definition record_size (data : list byte) : Z := checksumSize + Zlength (snappy_encode data).
Definition physical (chunks : list (addr * list byte)) : Z :=
  foldr (fun c n => Zlength (snappy_encode (snd c)) + n) 0 chunks.

(** The index records the writer keeps for [chunks], in insertion order. *)
Definition rec_of (i : nat) (c : addr * list byte) : prefixIndexRec :=
  MkRec (Prefix (fst c)) (Suffix (fst c)) (Z.of_nat i) (record_size (snd c)).
Definition recs (chunks : list (addr * list byte)) : list prefixIndexRec := imap rec_of chunks.

Definition tuple_bytes (r : prefixIndexRec) : list byte := be_put 8 (pi_prefix r) ++ be_put 4 (pi_order r).
Definition index_bytes (sorted inserted : list prefixIndexRec) : list byte :=
  concat (tuple_bytes <$> sorted) ++
  concat ((fun r => be_put 4 (pi_size r)) <$> inserted) ++ concat (pi_suffix <$> inserted).
Definition footer_bytes (count total : Z) : list byte := be_put 4 count ++ be_put 8 total ++ magicNumber.

(** Limits every Go program respects (a slice is shorter than 2^63) and the
    widths of the format: 32-bit counts and record sizes. *)
Definition chunk_fits (c : addr * list byte) : Prop :=
  snd c <> [] /\ 0 <= MaxEncodedLen (Zlength (snd c)) /\ record_size (snd c) < 2 ^ 32.

Definition addChunks `{GoSort} : list (addr * list byte) -> tableWriter -> outcome tableWriter :=
  fix go cs tw := match cs with [] => Ok tw | (h, d) :: cs => let! tw := addChunk tw h d in go cs tw end.

End layout.

Module NbsTableFacts.

Section writer.
Context `{Snappy} `{GoSort}.

Lemma Zlength_record_bytes d : Zlength (record_bytes d) = record_size d.
Proof. unfold record_bytes, record_size. rewrite Zlength_app, Zlength_be_put. unfold checksumSize, uint32Size. lia. Qed.

Lemma records_snoc cs h d : records (cs ++ [(h, d)]) = records cs ++ record_bytes d.
Proof. unfold records. rewrite fmap_app, concat_app. simpl. by rewrite app_nil_r. Qed.

Lemma physical_snoc cs h d : physical (cs ++ [(h, d)]) = physical cs + Zlength (snappy_encode d).
Proof. unfold physical. rewrite foldr_app. simpl. induction cs as [|c cs IH]; simpl; lia. Qed.

Lemma recs_snoc cs c : recs (cs ++ [c]) = recs cs ++ [rec_of (length cs) c].
Proof. unfold recs. rewrite imap_app. simpl. by rewrite Nat.add_0_r. Qed.

Lemma length_recs cs : length (recs cs) = length cs.
Proof. apply length_imap. Qed.

(** The writer after [chunks], with [rest] bytes of buffer left. *)
Definition tw_holds (tw : tableWriter) (chunks : list (addr * list byte)) (rest : list byte) : Prop :=
  tw_buff tw = records chunks ++ rest /\ tw_pos tw = Zlength (records chunks) /\
  tw_totalPhysicalData tw = physical chunks /\ tw_prefixes tw = recs chunks /\ tw_blockHash tw = [] /\
  Zlength (tw_buff tw) < 2 ^ 63 /\ Zlength chunks < 2 ^ 32.

Lemma physical_records cs : 0 <= physical cs <= Zlength (records cs).
Proof.
  induction cs as [|[h d] cs IH] using rev_ind; [done|].
  rewrite physical_snoc, records_snoc, Zlength_app, Zlength_record_bytes. unfold record_size, checksumSize, uint32Size.
  pose proof (Zlength_nonneg (snappy_encode d)). lia.
Qed.

Lemma newTableWriter_holds buff : Zlength buff < 2 ^ 63 -> tw_holds (newTableWriter buff) [] buff.
Proof. done. Qed.

Lemma snappy_Encode_in_place dst src : 0 <= MaxEncodedLen (Zlength src) <= Zlength dst ->
  Zlength (snappy_encode src) <= Zlength dst ->
  exists t, snappy_Encode dst src = Ok (snappy_encode src ++ t, snappy_encode src) /\
    Zlength t = Zlength dst - Zlength (snappy_encode src).
Proof.
  intros Hm Hle. unfold snappy_Encode.
  rewrite (proj2 (Z.ltb_ge _ _)), (proj2 (Z.ltb_ge _ _)) by lia. eexists. split; [done|].
  unfold Zlength in *. rewrite length_take, length_app, length_drop. lia.
Qed.

Lemma addChunk_holds tw chunks rest h d :
  tw_holds tw chunks rest -> chunk_fits (h, d) -> Zlength chunks + 1 < 2 ^ 32 ->
  MaxEncodedLen (Zlength d) <= Zlength rest -> record_size d <= Zlength rest ->
  exists tw' rest', addChunk tw h d = Ok tw' /\ tw_holds tw' (chunks ++ [(h, d)]) rest' /\
    Zlength rest' = Zlength rest - record_size d.
Proof.
  intros (Hbuff & Hpos & Htot & Hpre & Hbh & Hlen & Hcnt) (Hne & Hmax & Hsz) Hcnt' Hroom Hroom'.
  simpl in *. unfold addChunk. rewrite (proj2 (Z.eqb_neq _ _)).
  2:{ destruct d; [done|]. rewrite Zlength_cons. pose proof (Zlength_nonneg d). lia. }
  rewrite Hbuff, Hpos, slice_from_app by done. cbn [obind].
  assert (Zlength (snappy_encode d) + 4 <= Zlength rest) as Hr4.
  { unfold record_size, checksumSize, uint32Size in *. lia. }
  destruct (snappy_Encode_in_place rest d) as (t & -> & Ht); [lia|lia|]. cbn [obind].
  pose proof (physical_records chunks) as Hph. pose proof (Zlength_nonneg (records chunks)).
  pose proof (Zlength_nonneg (snappy_encode d)).
  rewrite Hbuff, Zlength_app in Hlen.
  rewrite Zlength_nat, take_app_length.
  destruct (split_at t 0 4) as (t0 & t4 & t' & -> & Ht0 & Ht4); [unfold Zlength in *; lia|].
  destruct t0; [|done]. rewrite !Zlength_app in Ht. simpl in Ht.
  rewrite (u64_small (Zlength (records chunks) + _)) by lia.
  rewrite app_assoc. rewrite (put_at_app 4 (records chunks ++ snappy_encode d) t4 t') by (rewrite ?Zlength_app; done).
  cbn [obind]. eexists _, t'. split; [done|].
  rewrite Hpre. unfold Zlength at 4. rewrite length_recs. fold (Zlength chunks).
  change checksumSize with 4 in *. change (Zlength []) with 0 in Ht.
  assert (Zlength t4 = 4) by (unfold Zlength; lia).
  rewrite (u32_small (Zlength chunks)), (u64_small (4 + _)), (u32_small (4 + _))
    by (unfold record_size in *; change checksumSize with 4 in *; pose proof (Zlength_nonneg chunks); lia).
  unfold tw_holds. cbn [tw_buff tw_pos tw_totalPhysicalData tw_prefixes tw_blockHash].
  rewrite records_snoc, physical_snoc, recs_snoc. unfold record_bytes.
  assert (Zlength (records chunks ++ snappy_encode d ++ be_put 4 (crc d)) =
    Zlength (records chunks) + Zlength (snappy_encode d) + 4) as Hlrec.
  { rewrite !Zlength_app, Zlength_be_put. lia. }
  split_and!; try done.
  - by rewrite <- !app_assoc.
  - rewrite u64_small; lia.
  - rewrite Htot, u64_small; lia.
  - rewrite !Zlength_app, Zlength_be_put. lia.
  - rewrite Zlength_app. change (Zlength [(h, d)]) with 1. lia.
  - unfold record_size. change checksumSize with 4. lia.
Qed.

(** Room for every chunk of the list, one after the other. *)
Fixpoint fits_in (room : Z) (cs : list (addr * list byte)) : Prop :=
  match cs with
  | [] => True
  | (h, d) :: cs =>
      MaxEncodedLen (Zlength d) <= room /\ record_size d <= room /\ fits_in (room - record_size d) cs
  end.

Lemma addChunks_holds cs tw chunks rest :
  tw_holds tw chunks rest -> Forall chunk_fits cs -> Zlength chunks + Zlength cs < 2 ^ 32 ->
  fits_in (Zlength rest) cs ->
  exists tw' rest', addChunks cs tw = Ok tw' /\ tw_holds tw' (chunks ++ cs) rest' /\
    Zlength rest' = Zlength rest - Zlength (records cs).
Proof.
  revert tw chunks rest. induction cs as [|[h d] cs IH]; intros tw chunks rest Htw Hf Hcnt Hfit.
  - exists tw, rest. rewrite app_nil_r. change (Zlength (records [])) with 0. split; [done|]. split; [done|lia].
  - inv Hf. destruct Hfit as (Hr1 & Hr2 & Hfit). rewrite Zlength_cons in Hcnt.
    pose proof (Zlength_nonneg cs).
    destruct (addChunk_holds tw chunks rest h d) as (tw1 & rest1 & Hadd & Htw1 & Hl1); try done; [lia|].
    rewrite <- Hl1 in Hfit.
    destruct (IH tw1 (chunks ++ [(h, d)]) rest1) as (tw2 & rest2 & Hadds & Htw2 & Hl2); try done.
    { rewrite Zlength_app. change (Zlength [(h, d)]) with 1. lia. }
    exists tw2, rest2. simpl. rewrite Hadd. cbn [obind]. split; [done|].
    rewrite <- app_assoc in Htw2. split; [done|].
    unfold records. cbn [fmap list_fmap concat]. rewrite Zlength_app, Zlength_record_bytes. simpl.
    fold (records cs). lia.
Qed.

End writer.

(** *** Slots: a region cut into pieces of one length *)

Section slots.
Context {A : Type}.
Implicit Types ls : list (list A).

Definition slots (n : nat) ls : Prop := Forall (fun s => length s = n) ls.

Lemma slots_split n k (l : list A) : length l = (n * k)%nat ->
  exists ls, l = concat ls /\ slots n ls /\ length ls = k.
Proof.
  revert l. induction k as [|k IH]; intros l Hl.
  - exists []. rewrite Nat.mul_0_r in Hl. apply nil_length_inv in Hl as ->. split; [done|]. by split; [constructor|].
  - destruct (IH (drop n l)) as (ls & E & Hls & Hk); [rewrite length_drop; lia|].
    exists (take n l :: ls). simpl. rewrite <- E, take_drop. split; [done|]. split; [|lia].
    constructor; [|done]. rewrite length_take. lia.
Qed.

Lemma length_concat_slots n ls : slots n ls -> length (concat ls) = (n * length ls)%nat.
Proof. induction 1 as [|s ls Hs _ IH]; simpl; [lia|]. rewrite length_app, IH. lia. Qed.

Lemma concat_slot ls o s : ls !! o = Some s ->
  concat ls = concat (take o ls) ++ s ++ concat (drop (S o) ls).
Proof. intros Hs. rewrite <- (take_drop_middle ls o s Hs) at 1. by rewrite concat_app. Qed.

Lemma concat_slot_insert ls o s : (o < length ls)%nat ->
  concat (<[o := s]> ls) = concat (take o ls) ++ s ++ concat (drop (S o) ls).
Proof. intros Ho. rewrite insert_take_drop by done. by rewrite concat_app. Qed.

Lemma slots_insert n ls o s : slots n ls -> length s = n -> slots n (<[o := s]> ls).
Proof. intros. by apply Forall_insert. Qed.

Lemma Zlength_take_slots n ls o : slots n ls -> (o <= length ls)%nat ->
  Zlength (concat (take o ls)) = Z.of_nat n * Z.of_nat o.
Proof.
  intros Hs Ho. unfold Zlength. rewrite (length_concat_slots n); [|by apply Forall_take].
  rewrite length_take, Nat.min_l by done. apply Nat2Z.inj_mul.
Qed.

Lemma copy_at_slot n ls o (a c s : list A) pos : slots n ls -> (o < length ls)%nat -> length s = n ->
  pos = Zlength a + Z.of_nat n * Z.of_nat o ->
  copy_at (a ++ concat ls ++ c) pos s = Ok (Zlength s, a ++ concat (<[o := s]> ls) ++ c).
Proof.
  intros Hsl Ho Hs ->. destruct (lookup_lt_is_Some_2 ls o Ho) as [t Ht].
  rewrite (concat_slot ls o t Ht), concat_slot_insert by done.
  rewrite <- !app_assoc, !(app_assoc a (concat (take o ls))).
  apply copy_at_app.
  - rewrite Zlength_app, (Zlength_take_slots n) by (done || lia). done.
  - rewrite Hs. symmetry. by apply (Forall_lookup_1 _ _ _ _ Hsl Ht).
Qed.

End slots.

Lemma put_at_slot n ls o (a c : list byte) v pos : slots n ls -> (o < length ls)%nat ->
  pos = Zlength a + Z.of_nat n * Z.of_nat o ->
  put_at n (a ++ concat ls ++ c) pos v = Ok (a ++ concat (<[o := be_put n v]> ls) ++ c).
Proof.
  intros Hsl Ho ->. destruct (lookup_lt_is_Some_2 ls o Ho) as [t Ht].
  rewrite (concat_slot ls o t Ht), concat_slot_insert by done.
  rewrite <- !app_assoc, !(app_assoc a (concat (take o ls))).
  apply put_at_app.
  - rewrite Zlength_app, (Zlength_take_slots n) by (done || lia). done.
  - by apply (Forall_lookup_1 _ _ _ _ Hsl Ht).
Qed.

(** Writing every slot once, in any order, fills the region. *)
Lemma foldl_insert_slots {R} (key : R -> nat) (val : R -> list byte) (rs : list R) ls :
  NoDup (key <$> rs) -> forall i,
  foldl (fun ls r => <[key r := val r]> ls) ls rs !! i =
  match list_find (fun r => key r = i) rs with
  | Some (_, r) => if decide (i < length ls)%nat then Some (val r) else None
  | None => ls !! i
  end.
Proof.
  revert ls. induction rs as [|r rs IH]; intros ls Hnd i; [done|].
  cbn [fmap list_fmap] in Hnd. apply NoDup_cons in Hnd as [Hr Hnd]. cbn [foldl list_find].
  rewrite IH by done. rewrite length_insert. destruct (decide (key r = i)) as [Hk|Hk].
  - destruct (list_find (fun r0 => key r0 = i) rs) as [[j r']|] eqn:E.
    + apply list_find_Some in E as (Hj & Hk' & _). destruct Hr. assert (key r = key r') as -> by congruence.
      apply list_elem_of_fmap_2. by eapply list_elem_of_lookup_2.
    + simpl. subst i. case_decide; [by apply list_lookup_insert_eq|].
      apply lookup_ge_None. rewrite length_insert. lia.
  - destruct (list_find _ rs) as [[j r']|]; simpl; [done|]. by rewrite list_lookup_insert_ne.
Qed.

Lemma length_foldl_insert {R} (key : R -> nat) (val : R -> list byte) (rs : list R) ls :
  length (foldl (fun ls r => <[key r := val r]> ls) ls rs) = length ls.
Proof. revert ls. induction rs as [|r rs IH]; intros ls; simpl; [done|]. by rewrite IH, length_insert. Qed.

(** ... so it ends up as the values in key order. *)
Lemma foldl_insert_permutation {R} (key : R -> nat) (val : R -> list byte) (sorted inserted : list R) ls :
  sorted ≡ₚ inserted -> (forall i r, inserted !! i = Some r -> key r = i) -> length ls = length inserted ->
  foldl (fun ls r => <[key r := val r]> ls) ls sorted = val <$> inserted.
Proof.
  intros Hp Hkey Hlen.
  assert (NoDup (key <$> sorted)) as Hnd.
  { rewrite Hp. assert (key <$> inserted = seq 0 (length inserted)) as ->; [|apply NoDup_seq].
    apply list_eq. intros i. rewrite list_lookup_fmap. destruct (inserted !! i) as [r|] eqn:E.
    - simpl. rewrite (Hkey i r E). symmetry. apply lookup_seq. apply lookup_lt_Some in E. lia.
    - simpl. symmetry. apply lookup_ge_None. rewrite length_seq. by apply lookup_ge_None. }
  apply list_eq. intros i. rewrite foldl_insert_slots by done. rewrite list_lookup_fmap.
  destruct (inserted !! i) as [r|] eqn:E; simpl.
  - pose proof (lookup_lt_Some _ _ _ E).
    destruct (list_find _ sorted) as [[j r']|] eqn:E2.
    + apply list_find_Some in E2 as (Hj & Hk & _). case_decide; [|lia].
      assert (r' ∈ inserted) as Hin. { rewrite <- Hp. by eapply list_elem_of_lookup_2. }
      apply list_elem_of_lookup in Hin as [i' Hi']. rewrite (Hkey i' r' Hi') in Hk. subst i'. congruence.
    + apply list_find_None in E2. rewrite Forall_forall in E2. exfalso. apply (E2 r); [|by apply Hkey].
      rewrite Hp. by eapply list_elem_of_lookup_2.
  - apply lookup_ge_None in E. destruct (list_find _ sorted) as [[j r']|] eqn:E2.
    + case_decide; [lia|done].
    + apply lookup_ge_None. lia.
Qed.

(** *** The index *)

Ltac assoc := rewrite <- ?app_assoc; reflexivity.

Lemma writeIndex_step_ok (a t b : list byte) (ls ss : list (list byte)) (post bh : list byte) (o : nat) (r : prefixIndexRec) lo so :
  length t = 12%nat -> slots 4 ls -> slots 12 ss -> (o < length ls)%nat -> length ss = length ls ->
  pi_order r = Z.of_nat o -> length (pi_suffix r) = 12%nat ->
  lo = Zlength (a ++ t ++ b) -> so = lo + Zlength (concat ls) ->
  Zlength (a ++ t ++ b ++ concat ls ++ concat ss ++ post) < 2 ^ 63 ->
  writeIndex_step lo so (a ++ t ++ b ++ concat ls ++ concat ss ++ post, Zlength a, bh) r =
  Ok (a ++ tuple_bytes r ++ b ++ concat (<[o := be_put 4 (pi_size r)]> ls) ++ concat (<[o := pi_suffix r]> ss) ++ post,
      Zlength a + 12, bh ++ be_put 8 (pi_prefix r) ++ pi_suffix r).
Proof.
  intros Ht Hls Hss Ho Hlen Hord Hsuf -> -> Hbig.
  destruct (split_at t 8 4) as (t8 & t4 & t0 & -> & Ht8 & Ht4); [lia|].
  rewrite !length_app in Ht. assert (t0 = []) as -> by (destruct t0; [done|simpl in Ht; lia]).
  rewrite app_nil_r in *. clear Ht.
  set (p := be_put 8 (pi_prefix r)). set (q := be_put 4 (pi_order r)).
  assert (length p = 8%nat) as Hp by apply length_be_put.
  assert (length q = 4%nat) as Hq by apply length_be_put.
  assert (Zlength p = 8 /\ Zlength q = 4 /\ Zlength t8 = 8 /\ Zlength t4 = 4) as (Zp & Zq & Zt8 & Zt4)
    by (unfold Zlength; lia).
  pose proof (Zlength_nonneg a). pose proof (Zlength_nonneg b). pose proof (Zlength_nonneg post).
  assert (Zlength (concat ls) = 4 * Z.of_nat (length ls)) as Zls.
  { unfold Zlength. rewrite (length_concat_slots 4) by done. lia. }
  assert (Zlength (concat ss) = 12 * Z.of_nat (length ls)) as Zss.
  { unfold Zlength. rewrite (length_concat_slots 12) by done. lia. }
  rewrite !Zlength_app in Hbig. rewrite !Zlength_app.
  unfold writeIndex_step. fold p.
  replace (a ++ (t8 ++ t4) ++ b ++ concat ls ++ concat ss ++ post)
    with (a ++ t8 ++ (t4 ++ b ++ concat ls ++ concat ss ++ post)) by assoc.
  rewrite copy_at_app by (done || congruence). cbn [obind]. rewrite Zp.
  change (8 =? addrPrefixSize) with true. cbn [check obind].
  rewrite (u64_small (Zlength a + 8)) by lia.
  replace (a ++ p ++ t4 ++ b ++ concat ls ++ concat ss ++ post)
    with ((a ++ p) ++ t4 ++ (b ++ concat ls ++ concat ss ++ post)) by assoc.
  rewrite put_at_app by (rewrite ?Zlength_app; lia). cbn [obind]. fold q.
  change ordinalSize with 4. change lengthSize with 4. change addrSuffixSize with 12.
  rewrite (u64_small (Zlength a + 8 + 4)), Hord, !(u64_small (_ + Z.of_nat o * _)) by lia.
  replace ((a ++ p) ++ q ++ b ++ concat ls ++ concat ss ++ post)
    with ((a ++ p ++ q ++ b) ++ concat ls ++ (concat ss ++ post)) by assoc.
  rewrite (put_at_slot 4 _ o) by (done || rewrite ?Zlength_app; lia). cbn [obind].
  set (ls' := <[o := _]> ls).
  assert (Zlength (concat ls') = Zlength (concat ls)) as Zls'.
  { rewrite Zls. unfold Zlength. rewrite (length_concat_slots 4).
    - subst ls'. rewrite length_insert. lia.
    - apply slots_insert; [done|apply length_be_put]. }
  replace ((a ++ p ++ q ++ b) ++ concat ls' ++ concat ss ++ post)
    with ((a ++ p ++ q ++ b ++ concat ls') ++ concat ss ++ post) by assoc.
  rewrite (copy_at_slot 12 _ o) by (done || lia || (rewrite !Zlength_app; lia)). cbn [obind].
  assert (Zlength (pi_suffix r) = 12) as -> by (unfold Zlength; lia).
  change (12 =? 12) with true. cbn [check obind].
  f_equal. f_equal. f_equal; [|lia]. unfold tuple_bytes. fold p. subst q. rewrite Hord. assoc.
Qed.

Lemma writeIndex_loop_ok (rs : list prefixIndexRec) (pre : list byte) (ts ls ss : list (list byte)) (post bh : list byte) lo so :
  slots 12 ts -> length ts = length rs -> slots 4 ls -> slots 12 ss -> length ss = length ls ->
  Forall (fun r => exists o, pi_order r = Z.of_nat o /\ (o < length ls)%nat /\ length (pi_suffix r) = 12%nat) rs ->
  lo = Zlength (pre ++ concat ts) -> so = lo + Zlength (concat ls) ->
  Zlength (pre ++ concat ts ++ concat ls ++ concat ss ++ post) < 2 ^ 63 ->
  writeIndex_loop lo so rs (pre ++ concat ts ++ concat ls ++ concat ss ++ post, Zlength pre, bh) =
  Ok (pre ++ concat (tuple_bytes <$> rs) ++
      concat (foldl (fun ls r => <[Z.to_nat (pi_order r) := be_put 4 (pi_size r)]> ls) ls rs) ++
      concat (foldl (fun ss r => <[Z.to_nat (pi_order r) := pi_suffix r]> ss) ss rs) ++ post,
      Zlength pre + 12 * Zlength rs,
      bh ++ concat ((fun r => be_put 8 (pi_prefix r) ++ pi_suffix r) <$> rs)).
Proof.
  revert pre ts ls ss bh. induction rs as [|r rs IH];
    intros pre ts ls ss bh Hts Hlts Hls Hss Hlen Hrs Hlo Hso Hbig.
  - destruct ts; [|done]. simpl. rewrite app_nil_r, Z.add_0_r. done.
  - destruct ts as [|t ts]; [done|]. inv Hts. inv Hrs. simpl in Hlts.
    destruct H3 as (o & Ho & Hol & Hsuf).
    cbn [concat writeIndex_loop] in *. rewrite <- !app_assoc in *.
    rewrite (writeIndex_step_ok pre t (concat ts) ls ss post bh o) by done. cbn [obind].
    assert (length (tuple_bytes r) = 12%nat) as Htup by (unfold tuple_bytes; by rewrite length_app, !length_be_put).
    set (ls' := <[o := _]> ls). set (ss' := <[o := _]> ss).
    assert (slots 4 ls') as Hls' by (apply slots_insert; [done|apply length_be_put]).
    assert (slots 12 ss') as Hss' by (by apply slots_insert).
    assert (length ls' = length ls) as Hl1 by apply length_insert.
    assert (length ss' = length ss) as Hl2 by apply length_insert.
    assert (Zlength (concat ls') = Zlength (concat ls)) as Z1.
    { unfold Zlength. rewrite !(length_concat_slots 4), Hl1 by done. done. }
    assert (Zlength (concat ss') = Zlength (concat ss)) as Z2.
    { unfold Zlength. rewrite !(length_concat_slots 12), Hl2 by done. done. }
    assert (Zlength (tuple_bytes r) = 12) as Z3 by (unfold Zlength; lia).
    assert (Zlength t = 12) as Z4 by (unfold Zlength; lia).
    replace (pre ++ tuple_bytes r ++ concat ts ++ concat ls' ++ concat ss' ++ post)
      with ((pre ++ tuple_bytes r) ++ concat ts ++ concat ls' ++ concat ss' ++ post) by assoc.
    replace (Zlength pre + 12) with (Zlength (pre ++ tuple_bytes r)) by (rewrite Zlength_app; lia).
    rewrite IH; try done; try lia.
    + cbn [fmap list_fmap concat foldl]. rewrite Ho, Nat2Z.id. fold ls' ss'.
      f_equal. f_equal; [f_equal; [assoc|]|assoc].
      rewrite Zlength_app, Zlength_cons. lia.
    + by rewrite Hl1.
    + rewrite !Zlength_app. lia.
    + rewrite !Zlength_app in *. lia.
Qed.

Section finish.
Context `{Snappy} `{GoSort}.

Lemma length_Suffix h : length (Suffix h) = 12%nat.
Proof. unfold Suffix. rewrite length_drop, length_hash_bytes. done. Qed.

Lemma recs_lookup cs i r : recs cs !! i = Some r -> exists c, cs !! i = Some c /\ r = rec_of i c.
Proof.
  unfold recs. rewrite list_lookup_imap. destruct (cs !! i) as [c|]; [|done].
  simpl. intros [= <-]. by exists c.
Qed.

Lemma recs_order cs i r : recs cs !! i = Some r -> Z.to_nat (pi_order r) = i.
Proof. intros (c & _ & ->)%recs_lookup. simpl. lia. Qed.

Lemma sorted_recs_wf cs r : r ∈ go_sort prefixIndexSlice_Less (recs cs) ->
  exists o, pi_order r = Z.of_nat o /\ (o < length cs)%nat /\ length (pi_suffix r) = 12%nat.
Proof.
  rewrite go_sort_perm. intros (i & Hi)%list_elem_of_lookup. destruct (recs_lookup _ _ _ Hi) as (c & Hc & ->).
  exists i. split; [done|]. split; [by eapply lookup_lt_Some|apply length_Suffix].
Qed.

Lemma Zlength_index_bytes cs sorted : sorted ≡ₚ recs cs -> Zlength (index_bytes sorted (recs cs)) = 28 * Zlength cs.
Proof.
  intros Hp. unfold index_bytes. rewrite !Zlength_app.
  assert (forall rs : list prefixIndexRec, Zlength (concat (tuple_bytes <$> rs)) = 12 * Zlength rs) as H1.
  { induction rs as [|r rs IH]; [done|]. cbn [fmap list_fmap concat]. rewrite Zlength_app, IH, Zlength_cons.
    unfold tuple_bytes. rewrite Zlength_app, !Zlength_be_put. lia. }
  assert (forall rs : list prefixIndexRec, Zlength (concat ((fun r => be_put 4 (pi_size r)) <$> rs)) = 4 * Zlength rs) as H2.
  { induction rs as [|r rs IH]; [done|]. cbn [fmap list_fmap concat]. rewrite Zlength_app, IH, Zlength_cons, Zlength_be_put. lia. }
  assert (Zlength (concat (pi_suffix <$> recs cs)) = 12 * Zlength (recs cs)) as H3.
  { assert (Forall (fun r => length (pi_suffix r) = 12%nat) (recs cs)) as Hf.
    { apply Forall_lookup. intros i r (c & _ & ->)%recs_lookup. apply length_Suffix. }
    revert Hf. generalize (recs cs). induction 1 as [|r rs Hr _ IH]; [done|].
    cbn [fmap list_fmap concat]. rewrite Zlength_app, IH, Zlength_cons. unfold Zlength at 1. rewrite Hr. lia. }
  rewrite H1, H2, H3. unfold Zlength. apply Permutation_length in Hp. rewrite Hp, length_recs. lia.
Qed.

Lemma writeIndex_ok tw chunks rest : tw_holds tw chunks rest -> 28 * Zlength chunks <= Zlength rest ->
  let sorted := go_sort prefixIndexSlice_Less (recs chunks) in
  exists rest', Zlength rest' = Zlength rest - 28 * Zlength chunks /\
  writeIndex tw = Ok (MkTw (records chunks ++ index_bytes sorted (recs chunks) ++ rest')
    (Zlength (records chunks ++ index_bytes sorted (recs chunks))) (physical chunks) sorted
    (concat ((fun r => be_put 8 (pi_prefix r) ++ pi_suffix r) <$> sorted))).
Proof.
  intros (Hbuff & Hpos & Htot & Hpre & Hbh & Hlen & Hcnt) Hroom sorted.
  set (n := length chunks). assert (Zlength chunks = Z.of_nat n) as Zn by done. rewrite Zn in *.
  assert (sorted ≡ₚ recs chunks) as Hp by apply go_sort_perm.
  assert (length sorted = n) as Hls by (by rewrite Hp, length_recs).
  destruct (split_at rest 0 (12 * n)) as (z0 & r1 & r & -> & Hz & Hr1); [unfold Zlength in *; lia|].
  destruct z0; [|done]. cbn [app] in *.
  destruct (split_at r 0 (4 * n)) as (z0 & r2 & r' & -> & Hz2 & Hr2).
  { rewrite Zlength_app in Hroom. unfold Zlength in *. lia. }
  destruct z0; [|done]. cbn [app] in *.
  destruct (split_at r' 0 (12 * n)) as (z0 & r3 & post & -> & Hz3 & Hr3).
  { rewrite !Zlength_app in Hroom. unfold Zlength in *. lia. }
  destruct z0; [|done]. cbn [app] in *.
  destruct (slots_split 12 n r1 Hr1) as (ts & -> & Hts & Hlts).
  destruct (slots_split 4 n r2 Hr2) as (ls & -> & Hlsl & Hlls).
  destruct (slots_split 12 n r3 Hr3) as (ss & -> & Hss & Hlss).
  exists post. split. { rewrite !Zlength_app. unfold Zlength. lia. }
  assert (Zlength (records chunks ++ index_bytes sorted (recs chunks)) = Zlength (records chunks) + 28 * Z.of_nat n) as Zidx.
  { rewrite Zlength_app, Zlength_index_bytes by done. by rewrite Zn. }
  rewrite Hbuff in Hlen. rewrite !Zlength_app in Hlen.
  assert (Zlength (concat ts) = 12 * Z.of_nat n) as Zts by (unfold Zlength; lia).
  assert (Zlength (concat ls) = 4 * Z.of_nat n) as Zls by (unfold Zlength; lia).
  assert (Zlength (concat ss) = 12 * Z.of_nat n) as Zss by (unfold Zlength; lia).
  pose proof (Zlength_nonneg (records chunks)). pose proof (Zlength_nonneg post).
  unfold writeIndex. rewrite Hpre, Hpos, Hbuff, Hbh. fold sorted.
  replace (Zlength sorted) with (Z.of_nat n) by (unfold Zlength; lia).
  change prefixTupleSize with 12. change lengthSize with 4. change addrSuffixSize with 12.
  rewrite (u64_small (Zlength (records chunks) + _)), (u64_small (_ + Z.of_nat n * 4)), (u64_small (_ + Z.of_nat n * 12)) by lia.
  rewrite writeIndex_loop_ok; try done; try lia.
  - cbn [obind app]. rewrite (foldl_insert_permutation (fun r => Z.to_nat (pi_order r)) (fun r => be_put 4 (pi_size r)) sorted (recs chunks)),
      (foldl_insert_permutation (fun r => Z.to_nat (pi_order r)) pi_suffix sorted (recs chunks)); try done;
      try (intros i r Hi; by eapply recs_order); try (rewrite length_recs; lia).
    f_equal. f_equal; [|by rewrite Zidx; lia|done]. unfold index_bytes. assoc.
  - apply Forall_forall. intros r Hr. destruct (sorted_recs_wf chunks r Hr) as (o & ? & ? & ?).
    exists o. rewrite Hlls. done.
  - rewrite Zlength_app. lia.
  - rewrite !Zlength_app. lia.
Qed.

Lemma writeFooter_ok pre tw rest : tw_buff tw = pre ++ rest -> tw_pos tw = Zlength pre -> 20 <= Zlength rest ->
  Zlength (tw_buff tw) < 2 ^ 63 -> Zlength (tw_prefixes tw) < 2 ^ 32 ->
  exists rest', Zlength rest' = Zlength rest - 20 /\
  let footer := footer_bytes (Zlength (tw_prefixes tw)) (tw_totalPhysicalData tw) in
  writeFooter tw = Ok (MkTw (pre ++ footer ++ rest') (Zlength (pre ++ footer)) (tw_totalPhysicalData tw)
    (tw_prefixes tw) (tw_blockHash tw)).
Proof.
  intros Hb Hp Hr Hlen Hcnt. destruct tw as [buff pos total prefixes bh]. simpl in *. subst buff pos.
  destruct (split_at rest 4 8) as (r4 & r8 & r & -> & H4 & H8); [unfold Zlength in *; lia|].
  destruct (split_at r 0 8) as (z & m8 & post & -> & Hz & Hm8).
  { rewrite !Zlength_app in Hr. unfold Zlength in *. lia. }
  destruct z; [|done]. cbn [app] in *. exists post. rewrite !Zlength_app in Hlen.
  assert (Zlength r4 = 4) by (unfold Zlength; lia). assert (Zlength r8 = 8) by (unfold Zlength; lia).
  assert (Zlength m8 = 8) by (unfold Zlength; lia). split; [rewrite !Zlength_app; lia|].
  pose proof (Zlength_nonneg pre). pose proof (Zlength_nonneg post). pose proof (Zlength_nonneg prefixes).
  unfold writeFooter. cbn [tw_buff tw_pos tw_prefixes tw_totalPhysicalData tw_blockHash].
  rewrite (u32_small (Zlength prefixes)) by lia.
  rewrite put_at_app by (done || lia). cbn [obind].
  change uint32Size with 4. change uint64Size with 8. change magicNumberSize with 8.
  rewrite (u64_small (Zlength pre + 4)), (u64_small (_ + 8)), (u64_small (_ + 8 + 8)) by lia.
  set (c := be_put 4 _). assert (Zlength c = 4) by (subst c; by rewrite Zlength_be_put).
  replace (pre ++ c ++ r8 ++ m8 ++ post) with ((pre ++ c) ++ r8 ++ m8 ++ post) by assoc.
  rewrite put_at_app by (rewrite ?Zlength_app; done || lia). cbn [obind].
  set (t := be_put 8 _). assert (Zlength t = 8) by (subst t; by rewrite Zlength_be_put).
  replace ((pre ++ c) ++ t ++ m8 ++ post) with ((pre ++ c ++ t) ++ m8 ++ post) by assoc.
  rewrite copy_at_app by (rewrite ?Zlength_app; done || lia). cbn [obind].
  f_equal. unfold footer_bytes. fold c t. f_equal; [assoc|].
  rewrite !Zlength_app. change (Zlength magicNumber) with 8. lia.
Qed.

(** The whole table: what [finish] leaves in the first [byteLength] bytes. *)
Definition table_bytes (chunks : list (addr * list byte)) : list byte :=
  records chunks ++ index_bytes (go_sort prefixIndexSlice_Less (recs chunks)) (recs chunks) ++
  footer_bytes (Zlength chunks) (physical chunks).
Definition table_name (chunks : list (addr * list byte)) : addr :=
  of_bytes (Sha512.Sum512 (concat ((fun r => be_put 8 (pi_prefix r) ++ pi_suffix r) <$>
    go_sort prefixIndexSlice_Less (recs chunks)))).

Lemma finish_ok tw chunks rest : tw_holds tw chunks rest -> 28 * Zlength chunks + footerSize <= Zlength rest ->
  exists tw' rest', finish tw = Ok (tw', Zlength (table_bytes chunks), table_name chunks) /\
    tw_buff tw' = table_bytes chunks ++ rest'.
Proof.
  intros Htw Hroom. change footerSize with 20 in Hroom.
  destruct (writeIndex_ok tw chunks rest Htw) as (rest1 & Hl1 & HI); [lia|].
  destruct Htw as (Hbuff & Hpos & Htot & Hpre & Hbh & Hlen & Hcnt).
  set (sorted := go_sort prefixIndexSlice_Less (recs chunks)) in *.
  assert (sorted ≡ₚ recs chunks) as Hp by apply go_sort_perm.
  assert (Zlength sorted = Zlength chunks) as Zs by (unfold Zlength; by rewrite Hp, length_recs).
  set (tw1 := MkTw _ _ _ _ _) in HI.
  assert (Zlength (tw_buff tw1) = Zlength (records chunks) + 28 * Zlength chunks + Zlength rest1) as Hb1.
  { subst tw1. cbn [tw_buff]. rewrite !Zlength_app, Zlength_index_bytes by done. lia. }
  rewrite Hbuff, Zlength_app in Hlen.
  destruct (writeFooter_ok (records chunks ++ index_bytes sorted (recs chunks)) tw1 rest1) as (rest2 & Hl2 & HF).
  - subst tw1. cbn [tw_buff]. assoc.
  - done.
  - lia.
  - lia.
  - subst tw1. cbn [tw_prefixes]. lia.
  - cbv zeta in HF. eexists _, rest2. unfold finish. rewrite HI. cbn [obind]. rewrite HF. cbn [obind tw_pos tw_buff].
    subst tw1. cbn [tw_prefixes tw_totalPhysicalData tw_blockHash].
    rewrite Zs. unfold table_bytes, table_name. fold sorted.
    split; [by rewrite (app_assoc (records chunks))|assoc].
Qed.

(** Adding chunks to a fresh buffer and finishing gives the table. *)
Lemma write_table_ok buff chunks : Zlength buff < 2 ^ 63 -> Forall chunk_fits chunks -> Zlength chunks < 2 ^ 32 ->
  fits_in (Zlength buff) chunks -> Zlength (records chunks) + 28 * Zlength chunks + footerSize <= Zlength buff ->
  exists tw tw' rest, addChunks chunks (newTableWriter buff) = Ok tw /\
    finish tw = Ok (tw', Zlength (table_bytes chunks), table_name chunks) /\
    tw_buff tw' = table_bytes chunks ++ rest.
Proof.
  intros Hb Hf Hc Hfit Hroom.
  destruct (addChunks_holds chunks (newTableWriter buff) [] buff) as (tw & rest & Hadd & Htw & Hl);
    [by apply newTableWriter_holds|done|done|done|].
  destruct (finish_ok tw chunks rest) as (tw' & rest' & Hfin & Hbuff); [done|lia|].
  by exists tw, tw', rest'.
Qed.

End finish.

(** *** Parsing *)

Fixpoint prefix_sums (acc : Z) (lens : list Z) : list Z :=
  match lens with [] => [] | l :: lens => acc :: prefix_sums (acc + l) lens end.
Definition sum_lens (lens : list Z) : Z := foldr Z.add 0 lens.

Lemma length_prefix_sums acc lens : length (prefix_sums acc lens) = length lens.
Proof. revert acc. induction lens; intros; simpl; auto. Qed.

Lemma sum_lens_nonneg lens : Forall (fun l => 0 <= l) lens -> 0 <= sum_lens lens.
Proof. induction 1; simpl; lia. Qed.

Lemma concat_be_put n (vs : list Z) : slots n (be_put n <$> vs).
Proof. apply Forall_fmap, Forall_true. intros. apply length_be_put. Qed.

Lemma slice_from_slots n (pre rest : list Z) off : off = Z.of_nat n * Zlength pre ->
  slice_from (concat (be_put n <$> pre ++ rest)) off = Ok (concat (be_put n <$> rest)).
Proof.
  intros ->. rewrite fmap_app, concat_app. apply slice_from_app.
  unfold Zlength. rewrite (length_concat_slots n) by apply concat_be_put. rewrite length_fmap. lia.
Qed.

Lemma computeOffsets_loop_ok pre rest prevLen prevOff :
  Forall (fun l => 0 <= l < 2 ^ 32) rest -> 0 <= prevLen -> 0 <= prevOff ->
  prevOff + prevLen + sum_lens rest < 2 ^ 64 -> 4 * Zlength (pre ++ rest) < 2 ^ 64 ->
  computeOffsets_loop (length rest) (Zlength pre) (concat (be_put 4 <$> pre ++ rest)) prevLen prevOff =
  Ok (rest, prefix_sums (prevOff + prevLen) rest).
Proof.
  revert pre prevLen prevOff. induction rest as [|l rest IH]; intros pre prevLen prevOff Hf Hl Ho Hsum Hbig; [done|].
  inv Hf. cbn [length computeOffsets_loop]. change lengthSize with 4.
  pose proof (Zlength_nonneg pre) as Hpre. pose proof (Zlength_nonneg rest) as Hrest.
  rewrite Zlength_app, Zlength_cons in Hbig. rewrite u64_small by lia.
  rewrite (slice_from_slots 4) by lia. cbn [obind fmap list_fmap concat].
  rewrite uint_at_put by (change (256 ^ Z.of_nat 4) with (2 ^ 32); lia). cbn [obind].
  simpl in Hsum. assert (0 <= sum_lens rest) by (apply sum_lens_nonneg; eapply Forall_impl; [done|simpl; lia]).
  rewrite u64_small by (unfold sum_lens in *; lia).
  replace (pre ++ l :: rest) with ((pre ++ [l]) ++ rest) by assoc.
  replace (Zlength pre + 1) with (Zlength (pre ++ [l])) by (rewrite Zlength_app; done).
  rewrite IH; try done; try lia.
  rewrite !Zlength_app. change (Zlength [l]) with 1. lia.
Qed.

Lemma computeOffsets_ok lens : lens <> [] -> Forall (fun l => 0 <= l < 2 ^ 32) lens ->
  sum_lens lens < 2 ^ 64 -> 4 * Zlength lens < 2 ^ 64 ->
  computeOffsets (Zlength lens) (concat (be_put 4 <$> lens)) = Ok (lens, prefix_sums 0 lens).
Proof.
  intros Hne Hf Hsum Hbig. destruct lens as [|l lens]; [done|]. inv Hf. unfold computeOffsets.
  rewrite Zlength_cons in *. pose proof (Zlength_nonneg lens).
  rewrite (proj2 (Z.eqb_neq _ _)) by lia. cbn [fmap list_fmap concat].
  rewrite uint_at_put by (change (256 ^ Z.of_nat 4) with (2 ^ 32); lia). cbn [obind].
  replace (1 + Zlength lens - 1) with (Zlength lens) by lia. rewrite Zlength_nat.
  simpl in Hsum.
  pose proof (computeOffsets_loop_ok [l] lens l 0) as HL. cbn [app] in HL. cbn [fmap list_fmap concat] in HL.
  change (Zlength [l]) with 1 in HL. rewrite HL; try done; try lia.
  rewrite Zlength_cons. lia.
Qed.

Lemma slice_from_tuples pre rest off : off = 12 * Zlength pre ->
  slice_from (concat (tuple_bytes <$> pre ++ rest)) off = Ok (concat (tuple_bytes <$> rest)).
Proof.
  intros ->. rewrite fmap_app, concat_app. apply slice_from_app.
  unfold Zlength. rewrite (length_concat_slots 12), length_fmap; [lia|].
  apply Forall_fmap, Forall_true. intros r. unfold compose, tuple_bytes. by rewrite length_app, !length_be_put.
Qed.

Definition rec_in_range (r : prefixIndexRec) : Prop :=
  0 <= pi_prefix r < 2 ^ 64 /\ 0 <= pi_order r < 2 ^ 32 /\ 0 <= pi_size r < 2 ^ 32 /\ length (pi_suffix r) = 12%nat.

Lemma computePrefixes_loop_ok pre rest : Forall rec_in_range rest -> 12 * Zlength (pre ++ rest) < 2 ^ 64 ->
  computePrefixes_loop (length rest) (Zlength pre) (concat (tuple_bytes <$> pre ++ rest)) =
  Ok (pi_prefix <$> rest, pi_order <$> rest).
Proof.
  revert pre. induction rest as [|r rest IH]; intros pre Hf Hbig; [done|].
  inv Hf. destruct H1 as (Hp & Ho & _ & _). cbn [length computePrefixes_loop].
  change prefixTupleSize with 12. change addrPrefixSize with 8.
  pose proof (Zlength_nonneg pre). pose proof (Zlength_nonneg rest).
  rewrite Zlength_app, Zlength_cons in Hbig.
  rewrite (u64_small (_ * 12)) by lia. rewrite slice_from_tuples by lia. cbn [obind fmap list_fmap concat].
  unfold tuple_bytes at 1. rewrite <- !app_assoc.
  rewrite uint_at_put by (change (256 ^ Z.of_nat 8) with (2 ^ 64); lia). cbn [obind].
  rewrite u64_small by lia.
  assert (slice_from (concat (tuple_bytes <$> pre ++ r :: rest)) (Zlength pre * 12 + 8) =
    Ok (be_put 4 (pi_order r) ++ concat (tuple_bytes <$> rest))) as ->.
  { rewrite fmap_app, concat_app. cbn [fmap list_fmap concat]. unfold tuple_bytes at 2.
    rewrite <- !app_assoc, (app_assoc (concat _) (be_put 8 _)). apply slice_from_app.
    rewrite Zlength_app, Zlength_be_put. unfold Zlength at 2. rewrite (length_concat_slots 12), length_fmap.
    - unfold Zlength. lia.
    - apply Forall_fmap, Forall_true. intros q. unfold compose, tuple_bytes. by rewrite length_app, !length_be_put. }
  cbn [obind]. rewrite uint_at_put by (change (256 ^ Z.of_nat 4) with (2 ^ 32); lia). cbn [obind].
  replace (pre ++ r :: rest) with ((pre ++ [r]) ++ rest) by assoc.
  replace (Zlength pre + 1) with (Zlength (pre ++ [r])) by (rewrite Zlength_app; done).
  rewrite IH; [done|done|]. rewrite !Zlength_app. change (Zlength [r]) with 1. lia.
Qed.

(** The index the parser returns. *)
Definition index_of (sorted inserted : list prefixIndexRec) : tableIndex :=
  MkIndex (Zlength inserted) (pi_prefix <$> sorted) (prefix_sums 0 (pi_size <$> inserted))
    (pi_size <$> inserted) (pi_order <$> sorted) (concat (pi_suffix <$> inserted)).

Lemma parseTableIndex_ok pre sorted inserted total :
  sorted ≡ₚ inserted -> inserted <> [] -> Forall rec_in_range inserted -> Zlength inserted < 2 ^ 32 ->
  sum_lens (pi_size <$> inserted) < 2 ^ 64 ->
  Zlength (pre ++ index_bytes sorted inserted ++ footer_bytes (Zlength inserted) total) < 2 ^ 63 ->
  parseTableIndex (pre ++ index_bytes sorted inserted ++ footer_bytes (Zlength inserted) total) =
  Ok (index_of sorted inserted).
Proof.
  intros Hp Hne Hf Hcnt Hsum Hbig. unfold index_bytes, footer_bytes in *.
  set (n := Zlength inserted) in *.
  assert (0 < n) as Hn. { subst n. destruct inserted; [done|]. rewrite Zlength_cons. pose proof (Zlength_nonneg inserted). lia. }
  set (T := concat (tuple_bytes <$> sorted)) in *.
  set (L := concat ((fun r => be_put 4 (pi_size r)) <$> inserted)) in *.
  set (S := concat (pi_suffix <$> inserted)) in *.
  set (c := be_put 4 n) in *. set (t := be_put 8 total) in *.
  assert (Zlength sorted = n) as Hsn by (unfold n, Zlength; by rewrite Hp).
  assert (Zlength T = 12 * n) as ZT.
  { unfold T, Zlength. rewrite (length_concat_slots 12), length_fmap.
    - unfold Zlength in Hsn. lia.
    - apply Forall_fmap, Forall_true. intros r. unfold compose, tuple_bytes. by rewrite length_app, !length_be_put. }
  assert (Zlength L = 4 * n) as ZL.
  { unfold L, Zlength. rewrite (length_concat_slots 4), length_fmap; [unfold n, Zlength; lia|].
    apply Forall_fmap, Forall_true. intros r. unfold compose. by rewrite length_be_put. }
  assert (Zlength S = 12 * n) as ZS.
  { unfold S, Zlength. rewrite (length_concat_slots 12), length_fmap; [unfold n, Zlength; lia|].
    apply Forall_fmap. eapply Forall_impl; [done|]. by intros r (_ & _ & _ & ?). }
  assert (Zlength c = 4 /\ Zlength t = 8 /\ Zlength magicNumber = 8) as (Zc & Zt & Zm).
  { unfold c, t. by rewrite !Zlength_be_put. }
  pose proof (Zlength_nonneg pre) as Hpre. rewrite !Zlength_app in Hbig.
  assert (2 ^ 63 < 2 ^ 64) by done.
  unfold parseTableIndex. rewrite <- !app_assoc.
  assert (Zlength (pre ++ T ++ L ++ S ++ c ++ t ++ magicNumber) = Zlength pre + 28 * n + 20) as ->.
  { rewrite !Zlength_app. lia. }
  change magicNumberSize with 8. change uint64Size with 8. change uint32Size with 4.
  change addrSuffixSize with 12. change lengthSize with 4. change prefixTupleSize with 12.
  rewrite (u64_small (_ + 20 - 8)) by lia.
  replace (pre ++ T ++ L ++ S ++ c ++ t ++ magicNumber)
    with ((pre ++ T ++ L ++ S ++ c ++ t) ++ magicNumber) at 1 by assoc.
  rewrite slice_from_app by (rewrite !Zlength_app; lia). cbn [obind].
  rewrite bool_decide_eq_true_2 by done. cbn [obind check].
  rewrite !(u64_small (Zlength pre + _ + _ - _ - _)), !(u64_small (Zlength pre + _ + _ - _ - _ - _)) by lia.
  replace (pre ++ T ++ L ++ S ++ c ++ t ++ magicNumber)
    with ((pre ++ T ++ L ++ S) ++ c ++ t ++ magicNumber) at 1 by assoc.
  rewrite slice_from_app by (rewrite !Zlength_app; lia). cbn [obind].
  unfold c at 1. rewrite uint_at_put by (change (256 ^ Z.of_nat 4) with (2 ^ 32); lia). cbn [obind].
  rewrite (u64_small (n * 12)), (u64_small (n * 4)) by lia.
  rewrite (u64_small (_ - n * 12)) by lia.
  replace (pre ++ T ++ L ++ S ++ c ++ t ++ magicNumber)
    with ((pre ++ T ++ L) ++ S ++ c ++ t ++ magicNumber) at 1 by assoc.
  rewrite slice_from_app by (rewrite !Zlength_app; lia). cbn [obind].
  rewrite (u64_small (_ - n * 12 - n * 4)) by lia. rewrite (u64_small (_ - n * 12 - n * 4 + _)) by lia.
  replace (pre ++ T ++ L ++ S ++ c ++ t ++ magicNumber)
    with ((pre ++ T) ++ L ++ S ++ c ++ t ++ magicNumber) at 1 by assoc.
  rewrite slice_app by (rewrite ?Zlength_app; lia). cbn [obind].
  assert (L = concat (be_put 4 <$> (pi_size <$> inserted))) as HL by (unfold L; by rewrite <- list_fmap_compose).
  rewrite HL. replace n with (Zlength (pi_size <$> inserted)) at 1 by by rewrite Zlength_fmap.
  rewrite computeOffsets_ok.
  2:{ destruct inserted; done. }
  2:{ apply Forall_fmap. eapply Forall_impl; [done|]. by intros r (_ & _ & ? & _). }
  2:{ done. }
  2:{ rewrite Zlength_fmap. fold n. lia. }
  cbn [obind].
  rewrite (u64_small (_ - n * 12 - n * 4 - _)) by lia.
  rewrite (u64_small (_ - n * 12 - n * 4 - _ + _)) by lia.
  rewrite slice_app by (rewrite ?Zlength_app; lia). cbn [obind].
  unfold computePrefixes. rewrite <- Hsn at 1. rewrite Zlength_nat.
  pose proof (computePrefixes_loop_ok [] sorted) as HP. cbn [app] in HP. change (Zlength []) with 0 in HP.
  unfold T. rewrite HP.
  2:{ by rewrite Hp. }
  2:{ lia. }
  cbn [obind]. unfold index_of. fold n S. do 2 f_equal.
  rewrite <- app_assoc. replace (Z.to_nat (n * 12)) with (length S) by (unfold Zlength in ZS; lia).
  apply take_app_length.
Qed.

Section table.
Context `{Snappy} `{GoSort}.

Lemma Prefix_range h : 0 <= Prefix h < 2 ^ 64.
Proof.
  unfold Prefix. pose proof (be_get_bound (take 8 (hash_bytes h))) as Hb.
  unfold Zlength in Hb. rewrite length_take, length_hash_bytes in Hb. done.
Qed.

Lemma addr_split h : hash_bytes h = be_put 8 (Prefix h) ++ Suffix h.
Proof.
  unfold Prefix, Suffix. rewrite <- (take_drop 8 (hash_bytes h)) at 1. f_equal.
  rewrite <- (be_put_get (take 8 (hash_bytes h))) at 1. by rewrite length_take, length_hash_bytes.
Qed.

Lemma addr_eq h k : Prefix h = Prefix k -> Suffix h = Suffix k -> h = k.
Proof. intros Hp Hs. apply Hash_eq. by rewrite (addr_split h), (addr_split k), Hp, Hs. Qed.

Lemma recs_in_range cs : Forall chunk_fits cs -> Zlength cs < 2 ^ 32 -> Forall rec_in_range (recs cs).
Proof.
  intros Hf Hc. apply Forall_lookup. intros i r Hi. destruct (recs_lookup _ _ _ Hi) as ([h d] & Hc' & ->).
  pose proof (Forall_lookup_1 _ _ _ _ Hf Hc') as (_ & _ & Hsz). apply lookup_lt_Some in Hc'.
  unfold rec_in_range, rec_of. simpl in *. split; [apply Prefix_range|]. split; [unfold Zlength in *; lia|].
  split; [|apply length_Suffix]. split; [|done]. unfold record_size. change checksumSize with 4.
  pose proof (Zlength_nonneg (snappy_encode d)). lia.
Qed.

Lemma recs_sizes cs : pi_size <$> recs cs = (fun c => record_size (snd c)) <$> cs.
Proof.
  unfold recs. apply list_eq. intros i. rewrite !list_lookup_fmap, list_lookup_imap. by destruct (cs !! i).
Qed.

Lemma sum_sizes cs : sum_lens (pi_size <$> recs cs) = Zlength (records cs).
Proof.
  rewrite recs_sizes. induction cs as [|[h d] cs IH]; [done|]. unfold records. cbn [fmap list_fmap concat].
  rewrite Zlength_app, Zlength_record_bytes. fold (records cs). rewrite <- IH. done.
Qed.

Lemma Zlength_recs cs : Zlength (recs cs) = Zlength cs.
Proof. unfold Zlength. by rewrite length_recs. Qed.

(** The table the writer produced, or its tail from anywhere before the index
    on, parses to the index of its chunks. *)
Lemma parse_table_ok cs pre : cs <> [] -> Forall chunk_fits cs -> Zlength cs < 2 ^ 32 ->
  Zlength (table_bytes cs) < 2 ^ 63 -> pre `suffix_of` records cs ->
  parseTableIndex (pre ++ index_bytes (go_sort prefixIndexSlice_Less (recs cs)) (recs cs) ++
    footer_bytes (Zlength cs) (physical cs)) =
  Ok (index_of (go_sort prefixIndexSlice_Less (recs cs)) (recs cs)).
Proof.
  intros Hne Hf Hc Hb [k Hk]. unfold table_bytes in Hb. rewrite Hk in Hb. rewrite <- (Zlength_recs cs) in *.
  assert (Zlength (records cs) < 2 ^ 64).
  { rewrite Hk. rewrite !Zlength_app in *. unfold footer_bytes in Hb. rewrite !Zlength_app in Hb.
    assert (2 ^ 63 < 2 ^ 64) by done. pose proof (Zlength_nonneg (index_bytes (go_sort prefixIndexSlice_Less (recs cs)) (recs cs))).
    rewrite !Zlength_be_put in Hb. change (Zlength magicNumber) with 8 in Hb. lia. }
  apply parseTableIndex_ok.
  - apply go_sort_perm.
  - destruct cs; [done|]. by unfold recs.
  - apply recs_in_range; [done|]. by rewrite Zlength_recs in Hc.
  - done.
  - by rewrite sum_sizes.
  - rewrite !Zlength_app in *. pose proof (Zlength_nonneg k). lia.
Qed.

End table.

(** ** The size of the writer's buffer *)

Section buffer.
Context `{Snappy}.

Definition total_data (cs : list (addr * list byte)) : Z := foldr (fun c n => Zlength (snd c) + n) 0 cs.
(** The worst case the buffer is meant for. *)
Definition worst_case (cs : list (addr * list byte)) : Z :=
  foldr (fun c n => MaxEncodedLen (Zlength (snd c)) + checksumSize + n) 0 cs.

Lemma total_data_nonneg cs : 0 <= total_data cs.
Proof. induction cs as [|c cs IH]; simpl; [done|]. pose proof (Zlength_nonneg (snd c)). lia. Qed.

Lemma div6_add a b : 0 <= a -> 0 <= b -> a / 6 + b / 6 <= (a + b) / 6.
Proof.
  intros. apply Z.div_le_lower_bound; [lia|]. pose proof (Z.mul_div_le a 6). pose proof (Z.mul_div_le b 6). lia.
Qed.

Lemma worst_case_bound cs : Forall chunk_fits cs ->
  worst_case cs <= 36 * Zlength cs + total_data cs + total_data cs / 6.
Proof.
  induction cs as [|c cs IH]; intros Hf; [done|]. apply Forall_cons in Hf as [(_ & Hm & _) Hf]. specialize (IH Hf). simpl. rewrite Zlength_cons. pose proof (Zlength_nonneg (snd c)). pose proof (total_data_nonneg cs).
  rewrite (proj1 (SnappyGoFacts.MaxEncodedLen_pos _ Hm)). change checksumSize with 4.
  pose proof (div6_add (Zlength (snd c)) (total_data cs)). lia.
Qed.

(** Rounding the average down loses less than two bytes per chunk. *)
Lemma floor_average n t : 0 < n -> 0 <= t ->
  t + t / 6 < n * (t / n + t / n / 6) + 2 * n /\ n * (t / n + t / n / 6) <= t + t / 6.
Proof.
  intros Hn Ht. pose proof (Z.div_mod t n ltac:(lia)) as D1. pose proof (Z.mod_pos_bound t n ltac:(lia)) as B1.
  pose proof (Z.div_mod (t / n) 6 ltac:(lia)) as D2. pose proof (Z.mod_pos_bound (t / n) 6 ltac:(lia)) as B2.
  assert (0 <= t / n) as Hq0 by (apply Z.div_pos; lia). assert (0 <= t / n / 6) as Hq60 by (apply Z.div_pos; lia).
  set (q := t / n) in *. clearbody q. set (r := t mod n) in *. clearbody r.
  set (q6 := q / 6) in *. clearbody q6. set (r6 := q mod 6) in *. clearbody r6.
  assert (n * q = 6 * (n * q6) + n * r6) as Hq by (rewrite D2; ring).
  assert (n * r6 <= n * 5) by (apply Z.mul_le_mono_nonneg_l; lia).
  assert (0 <= n * r6) by (apply Z.mul_nonneg_nonneg; lia). assert (0 <= n * q6) by (apply Z.mul_nonneg_nonneg; lia).
  rewrite Z.mul_add_distr_l. set (m := n * q6) in *. clearbody m. set (w := n * r6) in *. clearbody w.
  set (nq := n * q) in *. clearbody nq.
  split; [|assert (m <= t / 6) by (apply Z.div_le_lower_bound; lia); lia].
  assert (t / 6 <= m + (w + r) / 6).
  { replace t with ((w + r) + m * 6) by lia. rewrite Z.div_add by lia. lia. }
  pose proof (Z.mul_div_le (w + r) 6 ltac:(lia)). lia.
Qed.

Lemma maxTableSize_lower n t size : 0 < n -> 0 <= t -> n < 2 ^ 32 -> t < 2 ^ 62 -> maxTableSize n t = Ok size ->
  36 * n + t + t / 6 + 28 * n + footerSize < size + 2 * n /\ size < 2 ^ 63.
Proof.
  intros Hn Ht Hn2 Ht2. unfold maxTableSize. rewrite (proj2 (Z.eqb_neq n 0)) by lia.
  destruct (_ <? maxChunkSize) eqn:E1; cbn [check obind]; [|done]. destruct (0 <? _) eqn:E2; cbn [check obind]; [|done].
  apply Z.ltb_lt in E1, E2. intros [= <-]. rewrite (proj1 (SnappyGoFacts.MaxEncodedLen_pos (t / n) ltac:(lia))).
  change prefixTupleSize with 12. change lengthSize with 4. change addrSuffixSize with 12. change checksumSize with 4.
  change footerSize with 20.
  destruct (floor_average n t Hn Ht) as [Hlow Hup].
  replace (n * (12 + 4 + 12 + 4 + (32 + t / n + t / n / 6)) + 20)
    with (64 * n + n * (t / n + t / n / 6) + 20) by ring.
  assert (0 <= t / n) by (apply Z.div_pos; lia). assert (0 <= t / n / 6) by (apply Z.div_pos; lia).
  assert (0 <= n * (t / n + t / n / 6)) by (apply Z.mul_nonneg_nonneg; lia).
  assert (2 ^ 62 = 4611686018427387904) as E62 by done. assert (2 ^ 63 = 9223372036854775808) as E63 by done.
  assert (2 ^ 64 = 18446744073709551616) as E64 by done. assert (2 ^ 32 = 4294967296) as E32 by done.
  pose proof (Z.mul_div_le t 6 ltac:(lia)). rewrite u64_small by lia. lia.
Qed.

(** The buffer misses the worst case by less than two bytes per chunk. *)
Lemma maxTableSize_worst_case cs size : cs <> [] -> Forall chunk_fits cs -> Zlength cs < 2 ^ 32 -> total_data cs < 2 ^ 62 ->
  maxTableSize (Zlength cs) (total_data cs) = Ok size ->
  worst_case cs + indexSize (Zlength cs) + footerSize < size + 2 * Zlength cs /\ size < 2 ^ 63.
Proof.
  intros Hne Hf Hc Ht Hsize. pose proof (total_data_nonneg cs).
  assert (0 < Zlength cs) by (destruct cs; [done|]; rewrite Zlength_cons; pose proof (Zlength_nonneg cs); lia).
  destruct (maxTableSize_lower _ _ _ ltac:(done) ltac:(done) Hc Ht Hsize) as [Hlow Hup].
  pose proof (worst_case_bound cs Hf) as Hw. unfold indexSize. change (addrSuffixSize + lengthSize + prefixTupleSize) with 28.
  rewrite u64_small by lia. split; [lia|done].
Qed.

Lemma records_worst `{!SnappySlack} cs : Forall chunk_fits cs ->
  Zlength (records cs) + 2 * Zlength cs <= worst_case cs.
Proof.
  induction cs as [|c cs IH]; intros Hf; [done|]. apply Forall_cons in Hf as [(_ & Hm & _) Hf]. specialize (IH Hf).
  change (records (c :: cs)) with (record_bytes (snd c) ++ records cs). cbn [worst_case foldr] in *. unfold worst_case in IH.
  rewrite Zlength_app, Zlength_cons, Zlength_record_bytes.
  pose proof (snappy_slack (snd c) Hm). unfold record_size. change checksumSize with 4 in *. lia.
Qed.

Lemma worst_case_nonneg cs : Forall chunk_fits cs -> 0 <= worst_case cs.
Proof.
  induction 1 as [|c cs (_ & Hm & _) _ IH]; simpl; [done|]. change checksumSize with 4. lia.
Qed.

Lemma fits_in_worst `{!SnappyLaws} room cs : Forall chunk_fits cs -> worst_case cs <= room -> fits_in room cs.
Proof.
  revert room. induction cs as [|[h d] cs IH]; intros room Hf Hr; [done|]. apply Forall_cons in Hf as [(_ & Hm & _) Hf].
  simpl in *. pose proof (snappy_bound d Hm). pose proof (worst_case_nonneg cs Hf). unfold record_size.
  change checksumSize with 4 in *. change uint32Size with 4. split; [lia|]. split; [lia|]. apply IH; [done|lia].
Qed.

(** A buffer of [maxTableSize] bytes has room for the table. *)
Lemma maxTableSize_room `{!SnappyLaws} `{!SnappySlack} cs size : cs <> [] -> Forall chunk_fits cs -> Zlength cs < 2 ^ 32 ->
  total_data cs < 2 ^ 62 -> maxTableSize (Zlength cs) (total_data cs) = Ok size ->
  size < 2 ^ 63 /\ fits_in size cs /\ Zlength (records cs) + 28 * Zlength cs + footerSize <= size.
Proof.
  intros Hne Hf Hc Ht Hsize. destruct (maxTableSize_worst_case cs size Hne Hf Hc Ht Hsize) as [Hw Hs].
  pose proof (Zlength_nonneg cs). unfold indexSize in Hw. change (addrSuffixSize + lengthSize + prefixTupleSize) with 28 in Hw.
  rewrite u64_small in Hw by lia. change footerSize with 20 in *. pose proof (records_worst cs Hf).
  split; [done|]. split; [apply fits_in_worst; [done|lia]|lia].
Qed.

End buffer.

End NbsTableFacts.
