(* ===== verification/NbsReader.v ===== *)
(** * Package [nbs]: reading tables (src/go/nbs/table_reader.go)

    Point lookups by binary search on prefixes, the merge-style scans of
    [hasMany] and [findOffsets], grouping of reads in [getMany], the read
    estimate [calcReads], and [extract].  A table that the writer of NbsTable.v
    produced for a list of chunks answers every query as that list does. *)

From S2P Require Import Prelude GoLib HashPkg Chunks SnappyPkg NbsTable.
Import Hash Chunks Nbs.
Import SnappyGo(MaxEncodedLen).

Module NbsReader.

(** [tableReader]; [tr_r] is the file behind the [io.ReaderAt]. *)
Record tableReader : Type := MkReader {
  tr_index : tableIndex;
  tr_r : list byte;
  tr_blockSize : Z;
  tr_maxReadSize : Z;
  tr_readAmpThresh : Z
}.

Definition newTableReader (index : tableIndex) (r : list byte) (blockSize maxReadSize readAmpThresh : Z) : tableReader :=
  MkReader index r blockSize maxReadSize readAmpThresh.

(** [ReadAt] of [len] bytes at [off]; a short read is an error. *)
Definition ReadAt (r : list byte) (off len : Z) : outcome (list byte) :=
  match slice r off (off + len) with Ok b => Ok b | Panic _ => Panic AssertFailed end.

(** ** Point lookups *)

Definition prefixIdxToOrdinal (ti : tableIndex) (idx : Z) : outcome Z := index (ti_ordinals ti) idx.

Fixpoint prefixIdx_loop (fuel : nat) (ti : tableIndex) (prefix : Z) (idx j : Z) : outcome Z :=
  match fuel with
  | O => Panic OutOfFuel
  | S fuel' =>
      if idx <? j then
        let h := u32 (idx + u32 (j - idx) / 2) in
        let! p := index (ti_prefixes ti) h in
        if p <? prefix then prefixIdx_loop fuel' ti prefix (u32 (h + 1)) j
        else prefixIdx_loop fuel' ti prefix idx h
      else Ok idx
  end.
(** Every round shrinks [j - idx], so [chunkCount] rounds are enough. *)
Definition prefixIdx (ti : tableIndex) (prefix : Z) : outcome Z :=
  prefixIdx_loop (S (Z.to_nat (ti_chunkCount ti))) ti prefix 0 (ti_chunkCount ti).

Definition ordinalSuffixMatches (ti : tableIndex) (ordinal : Z) (h : addr) : outcome bool :=
  let li := u64 (ordinal * addrSuffixSize) in
  let! s := slice (ti_suffixes ti) li (u64 (li + addrSuffixSize)) in
  Ok (match bytes_Compare (Suffix h) s with Eq => true | _ => false end).

Fixpoint lookupOrdinal_loop (fuel : nat) (ti : tableIndex) (prefix : Z) (h : addr) (idx : Z) : outcome Z :=
  match fuel with
  | O => Panic OutOfFuel
  | S fuel' =>
      if idx <? ti_chunkCount ti then
        let! p := index (ti_prefixes ti) idx in
        if p =? prefix then
          let! ordinal := prefixIdxToOrdinal ti idx in
          let! m := ordinalSuffixMatches ti ordinal h in
          if m : bool then Ok ordinal else lookupOrdinal_loop fuel' ti prefix h (u32 (idx + 1))
        else Ok (ti_chunkCount ti)
      else Ok (ti_chunkCount ti)
  end.
Definition lookupOrdinal (ti : tableIndex) (h : addr) : outcome Z :=
  let prefix := Prefix h in
  let! idx := prefixIdx ti prefix in
  lookupOrdinal_loop (S (Z.to_nat (ti_chunkCount ti))) ti prefix h idx.

Definition count (tr : tableReader) : Z := ti_chunkCount (tr_index tr).

Definition has (tr : tableReader) (h : addr) : outcome bool :=
  let! ordinal := lookupOrdinal (tr_index tr) h in Ok (ordinal <? count tr).

Section reader.
Context `{Snappy} `{GoSort}.

Definition parseChunk (buff : list byte) : outcome (list byte) :=
  let dataLen := u64 (Zlength buff - checksumSize) in
  let! body := slice buff 0 dataLen in
  match snappy_decode body with
  | None => Panic AssertFailed
  | Some data =>
      let! buff := slice_from buff dataLen in
      let! chksum := uint_at 4 buff in
      let! _ := check (chksum =? crc data) in
      Ok data
  end.

(** [None] is the nil slice. *)
Definition get (tr : tableReader) (h : addr) : outcome goslice :=
  let! ordinal := lookupOrdinal (tr_index tr) h in
  if ordinal =? count tr then Ok None
  else
    let! offset := index (ti_offsets (tr_index tr)) ordinal in
    let! length := index (ti_lengths (tr_index tr)) ordinal in
    let! buff := ReadAt (tr_r tr) offset length in
    let! data := parseChunk buff in
    (* snappy.Decode of nothing is nil *)
    let! _ := check (negb (Zlength data =? 0)) in
    Ok (Some data).

(** ** Scans over sorted requests *)

(** [for filterIdx < filterLen && prefixes[filterIdx] < prefix { filterIdx++ }] *)
Fixpoint advance_filter (fuel : nat) (ti : tableIndex) (prefix filterLen filterIdx : Z) : outcome Z :=
  match fuel with
  | O => Panic OutOfFuel
  | S fuel' =>
      if filterIdx <? filterLen then
        let! p := index (ti_prefixes ti) filterIdx in
        if p <? prefix then advance_filter fuel' ti prefix filterLen (u32 (filterIdx + 1)) else Ok filterIdx
      else Ok filterIdx
  end.

(** The inner loop of [hasMany]: does some position from [j] on with this
    prefix match? *)
Fixpoint match_from (fuel : nat) (ti : tableIndex) (prefix : Z) (a : addr) (filterLen j : Z) : outcome bool :=
  match fuel with
  | O => Panic OutOfFuel
  | S fuel' =>
      if j <? filterLen then
        let! p := index (ti_prefixes ti) j in
        if prefix =? p then
          let! o := prefixIdxToOrdinal ti j in
          let! m := ordinalSuffixMatches ti o a in
          if m : bool then Ok true else match_from fuel' ti prefix a filterLen (u32 (j + 1))
        else Ok false
      else Ok false
  end.

(** Fuel for one scan over the prefixes. *)
Definition scan_fuel (ti : tableIndex) : nat := S (length (ti_prefixes ti)).

Fixpoint hasMany_loop (ti : tableIndex) (filterLen : Z) (addrs : list hasRecord) (filterIdx : Z) (remaining : bool)
    : outcome (list hasRecord * bool) :=
  match addrs with
  | [] => Ok ([], remaining)
  | r :: addrs' =>
      if hr_has r then
        let! (rs, rem) := hasMany_loop ti filterLen addrs' filterIdx remaining in Ok (r :: rs, rem)
      else
        let! filterIdx := advance_filter (scan_fuel ti) ti (hr_prefix r) filterLen filterIdx in
        if filterLen <=? filterIdx then Ok (addrs, true)
        else
          let! p := index (ti_prefixes ti) filterIdx in
          if negb (hr_prefix r =? p) then
            let! (rs, rem) := hasMany_loop ti filterLen addrs' filterIdx true in Ok (r :: rs, rem)
          else
            let! m := match_from (scan_fuel ti) ti (hr_prefix r) (hr_a r) filterLen filterIdx in
            let r' := MkHas (hr_a r) (hr_prefix r) (hr_order r) m in
            let! (rs, rem) := hasMany_loop ti filterLen addrs' filterIdx (if m : bool then remaining else true) in
            Ok (r' :: rs, rem)
  end.
Definition hasMany (tr : tableReader) (addrs : list hasRecord) : outcome (list hasRecord * bool) :=
  hasMany_loop (tr_index tr) (u32 (Zlength (ti_prefixes (tr_index tr)))) addrs 0 false.

Record offsetRec : Type := MkOff { or_reqIdx : Z; or_ordinal : Z; or_offset : Z }.
Definition offsetRecSlice_Less (x y : offsetRec) : bool := or_offset x <? or_offset y.

(** The inner loop of [findOffsets]: every matching position from [j] on. *)
Fixpoint offsets_from (fuel : nat) (ti : tableIndex) (i prefix : Z) (a : addr) (filterLen j : Z) : outcome (list offsetRec) :=
  match fuel with
  | O => Panic OutOfFuel
  | S fuel' =>
      if j <? filterLen then
        let! p := index (ti_prefixes ti) j in
        if prefix =? p then
          let! o := prefixIdxToOrdinal ti j in
          let! m := ordinalSuffixMatches ti o a in
          let! ors := offsets_from fuel' ti i prefix a filterLen (u32 (j + 1)) in
          if m : bool then let! off := index (ti_offsets ti) o in Ok (MkOff (u32 i) o off :: ors)
          else Ok ors
        else Ok []
      else Ok []
  end.

Fixpoint findOffsets_loop (ti : tableIndex) (filterLen : Z) (reqs : list getRecord) (i filterIdx : Z) (remaining : bool)
    : outcome (list getRecord * list offsetRec * bool) :=
  match reqs with
  | [] => Ok ([], [], remaining)
  | req :: reqs' =>
      if gr_found req then
        let! (rs, ors, rem) := findOffsets_loop ti filterLen reqs' (i + 1) filterIdx remaining in
        Ok (req :: rs, ors, rem)
      else
        let! filterIdx := advance_filter (scan_fuel ti) ti (gr_prefix req) filterLen filterIdx in
        if filterLen <=? filterIdx then Ok (reqs, [], true)
        else
          let! p := index (ti_prefixes ti) filterIdx in
          if negb (gr_prefix req =? p) then
            let! (rs, ors, rem) := findOffsets_loop ti filterLen reqs' (i + 1) filterIdx true in
            Ok (req :: rs, ors, rem)
          else
            let! new := offsets_from (scan_fuel ti) ti i (gr_prefix req) (gr_a req) filterLen filterIdx in
            let req' := MkGet (gr_a req) (gr_prefix req) (gr_order req)
                              (match new with [] => gr_found req | _ => true end) (gr_data req) in
            let! (rs, ors, rem) := findOffsets_loop ti filterLen reqs' (i + 1) filterIdx remaining in
            Ok (req' :: rs, new ++ ors, rem)
  end.
(** The requests with [found] updated, the locations, and [remaining]. *)
Definition findOffsets (tr : tableReader) (reqs : list getRecord) : outcome (list getRecord * list offsetRec * bool) :=
  findOffsets_loop (tr_index tr) (u32 (Zlength (ti_prefixes (tr_index tr)))) reqs 0 0 false.

(** ** Grouping reads *)

Definition canReadAhead (fRec : offsetRec) (fLength readStart readEnd readAmp blockSize maxReadSize ampThresh : Z)
    : Z * Z * bool :=
  if or_offset fRec <? readEnd then (readEnd, 0, true)
  else
    let fReadAmp := u64 (or_offset fRec - readEnd) in
    let fReadAmp := if fReadAmp <? blockSize then 0 else u64 (fReadAmp - blockSize) in
    if (ampThresh =? 0) && (0 <? u64 (readAmp + fReadAmp)) then (readEnd, 0, false)
    else
      let proposedSize := u64 (u64 (or_offset fRec + fLength) - readStart) in
      if (maxReadSize <? proposedSize) || (proposedSize <? u64 (ampThresh * u64 (readAmp + fReadAmp)))
      then (readEnd, 0, false)
      else (u64 (or_offset fRec + fLength), u64 (readAmp + fReadAmp), true).

(** One physical read and the records it serves. *)
Record readBatch : Type := MkBatch { rb_start : Z; rb_end : Z; rb_recs : list offsetRec }.

(** The grouping loop of [getMany]: [cur] is the open batch with its
    [readAmp]; a batch that cannot grow is handed to [readAtOffsets]. *)
Fixpoint group_reads (tr : tableReader) (ors : list offsetRec) (cur : option (readBatch * Z)) : outcome (list readBatch) :=
  match ors with
  | [] => Ok (match cur with None => [] | Some (b, _) => [b] end)
  | rec :: ors' =>
      let! length := index (ti_lengths (tr_index tr)) (or_ordinal rec) in
      let fresh := MkBatch (or_offset rec) (u64 (or_offset rec + length)) [rec] in
      match cur with
      | None => group_reads tr ors' (Some (fresh, 0))
      | Some (b, readAmp) =>
          let '(newReadEnd, newReadAmp, canRead) :=
            canReadAhead rec length (rb_start b) (rb_end b) readAmp
              (tr_blockSize tr) (tr_maxReadSize tr) (tr_readAmpThresh tr) in
          if canRead : bool
          then group_reads tr ors' (Some (MkBatch (rb_start b) newReadEnd (rb_recs b ++ [rec]), newReadAmp))
          else let! bs := group_reads tr ors' (Some (fresh, 0)) in Ok (b :: bs)
      end
  end.

Fixpoint serve_recs (tr : tableReader) (readStart readLength : Z) (buff : list byte) (reqs : list getRecord)
    (recs : list offsetRec) : outcome (list getRecord) :=
  match recs with
  | [] => Ok reqs
  | rec :: recs' =>
      let! _ := check (readStart <=? or_offset rec) in
      let localStart := u64 (or_offset rec - readStart) in
      let! length := index (ti_lengths (tr_index tr)) (or_ordinal rec) in
      let localEnd := u64 (localStart + length) in
      let! _ := check (localEnd <=? readLength) in
      let! b := slice buff localStart localEnd in
      let! data := parseChunk b in
      let! req := index reqs (or_reqIdx rec) in
      let! reqs := set_index reqs (or_reqIdx rec)
        (MkGet (gr_a req) (gr_prefix req) (gr_order req) (gr_found req) (Some data)) in
      serve_recs tr readStart readLength buff reqs recs'
  end.
Definition readAtOffsets (tr : tableReader) (reqs : list getRecord) (b : readBatch) : outcome (list getRecord) :=
  let readLength := u64 (rb_end b - rb_start b) in
  let! buff := ReadAt (tr_r tr) (rb_start b) readLength in
  serve_recs tr (rb_start b) readLength buff reqs (rb_recs b).

Fixpoint run_batches (tr : tableReader) (reqs : list getRecord) (bs : list readBatch) : outcome (list getRecord) :=
  match bs with
  | [] => Ok reqs
  | b :: bs' => let! reqs := readAtOffsets tr reqs b in run_batches tr reqs bs'
  end.

(** The synchronous part of [getMany]: updated requests, the reads it hands to
    goroutines, and [remaining]. *)
Definition getMany_plan (tr : tableReader) (reqs : list getRecord) : outcome (list getRecord * list readBatch * bool) :=
  let! (reqs, ors, remaining) := findOffsets tr reqs in
  let ors := go_sort offsetRecSlice_Less ors in
  let! bs := group_reads tr ors None in
  Ok (reqs, bs, remaining).

(** [getMany] with its goroutines run to the end, one after the other. *)
Definition getMany (tr : tableReader) (reqs : list getRecord) : outcome (list getRecord * bool) :=
  let! (reqs, bs, remaining) := getMany_plan tr reqs in
  let! reqs := run_batches tr reqs bs in
  Ok (reqs, remaining).

(** ** calcReads *)

Definition satisfied (r : getRecord) : getRecord :=
  MkGet (gr_a r) (gr_prefix r) (gr_order r) (gr_found r) (Some [bZ 1]).
Definition mark (reqs : list getRecord) (i : Z) : outcome (list getRecord) :=
  let! r := index reqs i in set_index reqs i (satisfied r).
Definition is_nil (s : goslice) : bool := match s with None => true | Some _ => false end.

(** The read-ahead scan from the record after the one being read. *)
Fixpoint scan_ahead (tr : tableReader) (blockSize maxReadSize ampThresh readStart : Z)
    (reqs : list getRecord) (ors : list offsetRec) (readEnd readAmp : Z) : outcome (list getRecord) :=
  match ors with
  | [] => Ok reqs
  | fRec :: ors' =>
      let! req := index reqs (or_reqIdx fRec) in
      if negb (is_nil (gr_data req)) then scan_ahead tr blockSize maxReadSize ampThresh readStart reqs ors' readEnd readAmp
      else
        let! length := index (ti_lengths (tr_index tr)) (or_ordinal fRec) in
        let '(readEnd, readAmp, canRead) :=
          canReadAhead fRec length readStart readEnd readAmp blockSize maxReadSize ampThresh in
        if canRead : bool
        then let! reqs := mark reqs (or_reqIdx fRec) in
             scan_ahead tr blockSize maxReadSize ampThresh readStart reqs ors' readEnd readAmp
        else Ok reqs
  end.
Fixpoint calcReads_loop (tr : tableReader) (blockSize maxReadSize ampThresh : Z)
    (reqs : list getRecord) (ors : list offsetRec) (reads : Z) : outcome (list getRecord * Z) :=
  match ors with
  | [] => Ok (reqs, reads)
  | rec :: ors' =>
      let! req := index reqs (or_reqIdx rec) in
      if negb (is_nil (gr_data req)) then calcReads_loop tr blockSize maxReadSize ampThresh reqs ors' reads
      else
        let! reqs := mark reqs (or_reqIdx rec) in
        let! length := index (ti_lengths (tr_index tr)) (or_ordinal rec) in
        let! reqs := scan_ahead tr blockSize maxReadSize ampThresh (or_offset rec) reqs ors'
                       (u64 (or_offset rec + length)) 0 in
        calcReads_loop tr blockSize maxReadSize ampThresh reqs ors' (reads + 1)
  end.
Definition calcReads (tr : tableReader) (reqs : list getRecord) (blockSize maxReadSize ampThresh : Z)
    : outcome (list getRecord * Z * bool) :=
  let! (reqs, ors, remaining) := findOffsets tr reqs in
  let ors := go_sort offsetRecSlice_Less ors in
  let! (reqs, reads) := calcReads_loop tr blockSize maxReadSize ampThresh reqs ors 0 in
  Ok (reqs, reads, remaining).

(** ** extract *)

Inductive EnumerationOrder : Type := InsertOrder | ReverseOrder.

(** The reverse lookup table from ordinal to address; [idx] is the position of
    the head of [prefixes]. *)
Fixpoint build_hashes (ti : tableIndex) (prefixes : list Z) (idx : Z) (hashes : list addr) : outcome (list addr) :=
  match prefixes with
  | [] => Ok hashes
  | prefix :: prefixes' =>
      let! ordinal := prefixIdxToOrdinal ti idx in
      let li := u64 (ordinal * addrSuffixSize) in
      let! s := slice (ti_suffixes ti) li (u64 (li + addrSuffixSize)) in
      let! hashes := set_index hashes ordinal (of_bytes (be_put 8 prefix ++ s)) in
      build_hashes ti prefixes' (idx + 1) hashes
  end.

Definition sendChunk (tr : tableReader) (hashes : list addr) (buff : list byte) (first : Z) (i : Z) : outcome extractRecord :=
  let! off := index (ti_offsets (tr_index tr)) i in
  let localOffset := u64 (off - first) in
  let! length := index (ti_lengths (tr_index tr)) i in
  let! h := index hashes i in
  let! b := slice buff localOffset (u64 (localOffset + length)) in
  let! data := parseChunk b in
  Ok (MkExtract h (Some data)).

Fixpoint send_all (tr : tableReader) (hashes : list addr) (buff : list byte) (first : Z) (idxs : list Z) : outcome (list extractRecord) :=
  match idxs with
  | [] => Ok []
  | i :: idxs' => let! r := sendChunk tr hashes buff first i in
                let! rs := send_all tr hashes buff first idxs' in Ok (r :: rs)
  end.

(** What is sent to the channel. *)
Definition extract (tr : tableReader) (order : EnumerationOrder) : outcome (list extractRecord) :=
  let ti := tr_index tr in
  let! hashes := build_hashes ti (ti_prefixes ti) 0 (replicate (length (ti_prefixes ti)) emptyHash) in
  let! lastOff := index (ti_offsets ti) (u32 (ti_chunkCount ti - 1)) in
  let! lastLen := index (ti_lengths ti) (u32 (ti_chunkCount ti - 1)) in
  let chunkLen := u64 (lastOff + lastLen) in
  let! first := index (ti_offsets ti) 0 in
  let! buff := ReadAt (tr_r tr) first chunkLen in
  let n := Z.to_nat (ti_chunkCount ti) in
  match order with
  | ReverseOrder => send_all tr hashes buff first ((fun k => ti_chunkCount ti - Z.of_nat k) <$> seq 1 n)
  | InsertOrder => send_all tr hashes buff first (Z.of_nat <$> seq 0 n)
  end.

End reader.

End NbsReader.

Import NbsReader NbsTableFacts.

(** ** What a reader has to hold to serve a list of chunks *)

Section serves.
Context `{Snappy}.

Definition prefix_sorted (rs : list prefixIndexRec) : Prop :=
  StronglySorted (fun x y => pi_prefix x <= pi_prefix y) rs.

Record indexes (ti : tableIndex) (sorted : list prefixIndexRec) (cs : list (addr * list byte)) : Prop := {
  ix_eq : ti = index_of sorted (recs cs);
  ix_perm : sorted ≡ₚ recs cs;
  ix_sorted : prefix_sorted sorted;
  ix_fits : Forall chunk_fits cs;
  ix_count : Zlength cs < 2 ^ 32
}.

(** The reader's index is that of [cs] and its file starts with their records. *)
Definition serves (tr : tableReader) (cs : list (addr * list byte)) : Prop :=
  (exists sorted, indexes (tr_index tr) sorted cs) /\
  (exists tail, tr_r tr = records cs ++ tail) /\ Zlength (tr_r tr) < 2 ^ 63.

End serves.

Module NbsReaderFacts.

Section lookups.
Context `{Snappy} {ti : tableIndex} {sorted : list prefixIndexRec} {cs : list (addr * list byte)}.
Context (IX : indexes ti sorted cs).

Lemma ix_length : length sorted = length cs.
Proof. rewrite (ix_perm _ _ _ IX). apply length_recs. Qed.

Lemma ix_chunkCount : ti_chunkCount ti = Zlength cs.
Proof. rewrite (ix_eq _ _ _ IX). simpl. apply Zlength_recs. Qed.

Lemma ix_count_sorted : ti_chunkCount ti = Z.of_nat (length sorted).
Proof. rewrite ix_chunkCount. unfold Zlength. by rewrite ix_length. Qed.

Lemma ix_sorted_lookup k r : sorted !! k = Some r -> exists i c, cs !! i = Some c /\ r = rec_of i c.
Proof.
  intros Hk. assert (r ∈ recs cs) as Hr. { rewrite <- (ix_perm _ _ _ IX). by eapply list_elem_of_lookup_2. }
  apply list_elem_of_lookup in Hr as [i Hi]. destruct (recs_lookup _ _ _ Hi) as (c & ? & ->). by exists i, c.
Qed.

Lemma ix_position i c : cs !! i = Some c -> exists k, sorted !! k = Some (rec_of i c).
Proof.
  intros Hc. apply list_elem_of_lookup. rewrite (ix_perm _ _ _ IX). apply list_elem_of_lookup. exists i.
  unfold recs. rewrite list_lookup_imap, Hc. done.
Qed.

Lemma ix_prefix_lookup k : ti_prefixes ti !! k = pi_prefix <$> sorted !! k.
Proof. rewrite (ix_eq _ _ _ IX). simpl. apply list_lookup_fmap. Qed.
Lemma ix_ordinal_lookup k : ti_ordinals ti !! k = pi_order <$> sorted !! k.
Proof. rewrite (ix_eq _ _ _ IX). simpl. apply list_lookup_fmap. Qed.
Lemma ix_prefixes_Zlength : Zlength (ti_prefixes ti) = Zlength cs.
Proof. rewrite (ix_eq _ _ _ IX). simpl. rewrite Zlength_fmap. unfold Zlength. by rewrite ix_length. Qed.

Lemma ix_lengths_lookup i c : cs !! i = Some c -> ti_lengths ti !! i = Some (record_size (snd c)).
Proof. intros Hc. rewrite (ix_eq _ _ _ IX). simpl. rewrite recs_sizes, list_lookup_fmap, Hc. done. Qed.

Lemma index_prefix (k : nat) r : sorted !! k = Some r -> index (ti_prefixes ti) (Z.of_nat k) = Ok (pi_prefix r).
Proof. intros Hk. apply index_lookup; [lia|]. by rewrite Nat2Z.id, ix_prefix_lookup, Hk. Qed.
Lemma index_ordinal (k : nat) r : sorted !! k = Some r -> prefixIdxToOrdinal ti (Z.of_nat k) = Ok (pi_order r).
Proof. intros Hk. apply index_lookup; [lia|]. by rewrite Nat2Z.id, ix_ordinal_lookup, Hk. Qed.

Lemma concat_suffixes : ti_suffixes ti = concat ((fun c => Suffix (fst c)) <$> cs).
Proof.
  rewrite (ix_eq _ _ _ IX). simpl. f_equal. apply list_eq. intros i.
  unfold recs. rewrite !list_lookup_fmap, list_lookup_imap. by destruct (cs !! i).
Qed.

Lemma slice_suffix i c : cs !! i = Some c ->
  slice (ti_suffixes ti) (u64 (Z.of_nat i * addrSuffixSize)) (u64 (u64 (Z.of_nat i * addrSuffixSize) + addrSuffixSize)) =
  Ok (Suffix (fst c)).
Proof.
  intros Hc. pose proof (lookup_lt_Some _ _ _ Hc) as Hi. pose proof (ix_count _ _ _ IX) as Hcnt.
  change addrSuffixSize with 12. unfold Zlength in Hcnt. assert (2 ^ 32 * 12 + 12 < 2 ^ 64) by done.
  rewrite (u64_small (Z.of_nat i * 12)), u64_small by lia.
  rewrite concat_suffixes. set (ss := (fun c => Suffix (fst c)) <$> cs).
  assert (slots 12 ss) as Hss by (apply Forall_fmap, Forall_true; intros; apply length_Suffix).
  assert (ss !! i = Some (Suffix (fst c))) as Hs by (subst ss; by rewrite list_lookup_fmap, Hc).
  rewrite (concat_slot ss i _ Hs). apply slice_app.
  - rewrite (Zlength_take_slots 12); [lia|done|]. subst ss. rewrite length_fmap. lia.
  - unfold Zlength. rewrite length_Suffix. lia.
Qed.

Lemma suffix_matches_ok i c h : cs !! i = Some c ->
  ordinalSuffixMatches ti (Z.of_nat i) h = Ok (bool_decide (Suffix h = Suffix (fst c))).
Proof.
  intros Hc. unfold ordinalSuffixMatches. rewrite (slice_suffix i c Hc). cbn [obind]. f_equal.
  destruct (bytes_Compare _ _) eqn:E; symmetry.
  - apply bool_decide_eq_true_2. by apply bytes_Compare_eq.
  - apply bool_decide_eq_false_2. intros HE%bytes_Compare_eq. congruence.
  - apply bool_decide_eq_false_2. intros HE%bytes_Compare_eq. congruence.
Qed.

(** The record at a sorted position with the prefix of [h]: its suffix test
    is equality of addresses. *)
Lemma match_at k r h : sorted !! k = Some r -> pi_prefix r = Prefix h ->
  exists i c, cs !! i = Some c /\ r = rec_of i c /\
    prefixIdxToOrdinal ti (Z.of_nat k) = Ok (Z.of_nat i) /\
    ordinalSuffixMatches ti (Z.of_nat i) h = Ok (bool_decide (fst c = h)).
Proof.
  intros Hk Hp. destruct (ix_sorted_lookup k r Hk) as (i & c & Hc & ->). exists i, c.
  split; [done|]. split; [done|]. split; [by rewrite (index_ordinal k _ Hk)|].
  rewrite (suffix_matches_ok i c h Hc). f_equal. apply bool_decide_ext. simpl in Hp.
  split; [intros; symmetry; by apply addr_eq|by intros ->].
Qed.

(** [k] is the first position whose prefix is not below [p]. *)
Definition lower_bound (p : Z) (k : nat) : Prop :=
  (k <= length sorted)%nat /\
  (forall j r, sorted !! j = Some r -> (j < k)%nat <-> pi_prefix r < p).

Lemma sorted_le j k rj rk : (j <= k)%nat -> sorted !! j = Some rj -> sorted !! k = Some rk -> pi_prefix rj <= pi_prefix rk.
Proof.
  intros Hjk Hj Hk. destruct (decide (j = k)) as [->|Hne]; [rewrite Hj in Hk; injection Hk as ->; lia|].
  pose proof (ix_sorted _ _ _ IX) as HS. unfold prefix_sorted in HS.
  rewrite <- (take_drop_middle sorted j rj Hj) in HS.
  apply StronglySorted_app_1_r, StronglySorted_cons in HS as [HF _].
  rewrite Forall_lookup in HF. apply (HF (k - S j)%nat). rewrite lookup_drop. by replace (S j + (k - S j))%nat with k by lia.
Qed.

Lemma prefixIdx_loop_ok fuel p idx j : (idx <= j <= length sorted)%nat -> (j - idx < fuel)%nat ->
  (forall i r, (i < idx)%nat -> sorted !! i = Some r -> pi_prefix r < p) ->
  (forall i r, (j <= i)%nat -> sorted !! i = Some r -> p <= pi_prefix r) ->
  exists k, prefixIdx_loop fuel ti p (Z.of_nat idx) (Z.of_nat j) = Ok (Z.of_nat k) /\ lower_bound p k.
Proof.
  revert idx j. induction fuel as [|fuel IH]; intros idx j Hij Hf Hlo Hhi; [lia|]. cbn [prefixIdx_loop].
  destruct (Z.of_nat idx <? Z.of_nat j) eqn:E; bool_lia.
  - pose proof (ix_count _ _ _ IX) as Hcnt. pose proof ix_length as Hlen. unfold Zlength in Hcnt.
    set (m := ((j - idx) / 2)%nat).
    assert (Z.of_nat (j - idx) / 2 = Z.of_nat m) as Hm by (subst m; by rewrite Nat2Z.inj_div).
    assert (m < j - idx)%nat as Hmlt by (apply Nat.div_lt; lia).
    replace (Z.of_nat j - Z.of_nat idx) with (Z.of_nat (j - idx)) by lia.
    rewrite (u32_small (Z.of_nat (j - idx))), Hm, u32_small by lia.
    replace (Z.of_nat idx + Z.of_nat m) with (Z.of_nat (idx + m)) by lia.
    destruct (lookup_lt_is_Some_2 sorted (idx + m)) as [r Hr]; [lia|].
    rewrite (index_prefix _ r Hr). cbn [obind]. destruct (pi_prefix r <? p) eqn:E2; bool_lia.
    + rewrite u32_small by lia. replace (Z.of_nat (idx + m) + 1) with (Z.of_nat (S (idx + m))) by lia.
      apply IH; [lia|lia| |done]. intros i ri Hi Hri. pose proof (sorted_le i (idx + m) ri r). lia || (assert (pi_prefix ri <= pi_prefix r) by (apply H0; (lia || done)); lia).
    + apply IH; [lia|lia|done|]. intros i ri Hi Hri. pose proof (sorted_le (idx + m) i r ri Hi Hr Hri). lia.
  - assert (idx = j) as -> by lia. exists j. split; [done|]. split; [lia|]. intros i r Hi. split; [by eauto|].
    intros Hp. destruct (decide (i < j)%nat) as [|Hge]; [done|]. specialize (Hhi i r ltac:(lia) Hi). lia.
Qed.

(** [prefixIdx] returns the first position with prefix at least [p]. *)
Lemma prefixIdx_ok p : exists k, prefixIdx ti p = Ok (Z.of_nat k) /\ lower_bound p k.
Proof.
  unfold prefixIdx. rewrite ix_count_sorted, Nat2Z.id.
  apply (prefixIdx_loop_ok (S (length sorted)) p 0 (length sorted)); [lia|lia|lia|].
  intros i r Hi Hr. apply lookup_lt_Some in Hr. lia.
Qed.

(** Address [h] occurs at ordinal [i]. *)
Definition at_ordinal (h : addr) (i : nat) : Prop := exists d, cs !! i = Some (h, d).

Lemma lookup_loop_ok fuel h k0 k : lower_bound (Prefix h) k0 -> (k0 <= k)%nat -> (length sorted - k < fuel)%nat ->
  (forall j r, (k0 <= j < k)%nat -> sorted !! j = Some r -> forall i c, cs !! i = Some c -> r = rec_of i c -> fst c <> h) ->
  exists o, lookupOrdinal_loop fuel ti (Prefix h) h (Z.of_nat k) = Ok o /\
    ((exists i, o = Z.of_nat i /\ at_ordinal h i) \/ (o = Zlength cs /\ forall i, ~ at_ordinal h i)).
Proof.
  intros [Hk0 HLB]. revert k. induction fuel as [|fuel IH]; intros k Hk Hf Hno; [lia|]. cbn [lookupOrdinal_loop].
  rewrite !ix_count_sorted.
  pose proof (ix_count _ _ _ IX) as Hcnt. pose proof ix_length as Hlen. unfold Zlength in Hcnt.
  assert ((forall r, sorted !! k = Some r -> pi_prefix r <> Prefix h) ->
    forall i, ~ at_ordinal h i) as Habs.
  { intros Hstop i [d Hd]. destruct (ix_position i _ Hd) as [q Hq].
    destruct (decide (q < k0)%nat) as [Hlt|Hge]; [apply (HLB q _ Hq) in Hlt; simpl in Hlt; lia|].
    destruct (decide (q < k)%nat) as [Hlt|Hge2]; [by apply (Hno q _ ltac:(lia) Hq i _ Hd eq_refl)|].
    destruct (lookup_lt_is_Some_2 sorted k) as [r Hr]; [apply lookup_lt_Some in Hq; lia|].
    assert (pi_prefix r = Prefix h); [|by eapply Hstop].
    pose proof (sorted_le k q r _ ltac:(lia) Hr Hq) as Hle. simpl in Hle.
    assert (~ pi_prefix r < Prefix h). { intros Hc. apply (HLB k r Hr) in Hc. lia. } lia. }
  destruct (Z.of_nat k <? Z.of_nat (length sorted)) eqn:E; bool_lia.
  - destruct (lookup_lt_is_Some_2 sorted k) as [r Hr]; [lia|]. rewrite (index_prefix k r Hr). cbn [obind].
    destruct (pi_prefix r =? Prefix h) eqn:E2; bool_lia.
    + destruct (match_at k r h Hr E2) as (i & c & Hc & -> & -> & Hm). cbn [obind]. rewrite Hm. cbn [obind].
      case_bool_decide as Heq.
      * exists (Z.of_nat i). split; [done|]. left. exists i. split; [done|]. exists (snd c). rewrite Hc. by destruct c; subst.
      * rewrite u32_small by lia. replace (Z.of_nat k + 1) with (Z.of_nat (S k)) by lia.
        apply IH; [lia|lia|]. intros j rj Hj Hrj i' c' Hc' ->.
        destruct (decide (j = k)) as [->|]; [|eapply (Hno j); [lia|done..]].
        rewrite Hr in Hrj. injection Hrj as Hio Hrec Hord Hsz.
        assert (i = i') as <- by lia. rewrite Hc in Hc'. by injection Hc' as <-.
    + eexists. split; [done|]. right. split; [unfold Zlength; by rewrite <- ix_length|].
      apply Habs. intros r' Hr'. rewrite Hr in Hr'. by injection Hr' as <-.
  - eexists. split; [done|]. right. split; [unfold Zlength; by rewrite <- ix_length|].
    apply Habs. intros r Hr. apply lookup_lt_Some in Hr. lia.
Qed.

Lemma lookupOrdinal_ok h : exists o, lookupOrdinal ti h = Ok o /\
  ((exists i, o = Z.of_nat i /\ at_ordinal h i) \/ (o = Zlength cs /\ forall i, ~ at_ordinal h i)).
Proof.
  unfold lookupOrdinal. destruct (prefixIdx_ok (Prefix h)) as (k & -> & HLB). cbn [obind].
  apply (lookup_loop_ok _ h k k); [done|lia| |intros; lia].
  rewrite ix_count_sorted. lia.
Qed.

End lookups.

(** ** Reading records *)

Section records.
Context `{Snappy}.

Lemma prefix_sums_lookup acc lens i : (i < length lens)%nat ->
  prefix_sums acc lens !! i = Some (acc + sum_lens (take i lens)).
Proof.
  revert acc i. induction lens as [|l lens IH]; intros acc [|i] Hi; simpl in *; try lia.
  - f_equal. lia.
  - rewrite IH by lia. f_equal. unfold sum_lens. lia.
Qed.

Lemma records_app cs cs' : records (cs ++ cs') = records cs ++ records cs'.
Proof. unfold records. by rewrite fmap_app, concat_app. Qed.

Lemma records_middle cs i c : cs !! i = Some c ->
  records cs = records (take i cs) ++ record_bytes (snd c) ++ records (drop (S i) cs).
Proof.
  intros Hc. rewrite <- (take_drop_middle cs i c Hc) at 1. rewrite records_app. f_equal.
Qed.

Lemma sum_sizes_take cs i : sum_lens (take i (pi_size <$> recs cs)) = Zlength (records (take i cs)).
Proof. by rewrite recs_sizes, <- fmap_take, <- recs_sizes, sum_sizes. Qed.

Lemma record_size_pos d : 4 <= record_size d.
Proof. unfold record_size. change checksumSize with 4. pose proof (Zlength_nonneg (snappy_encode d)). lia. Qed.

Context {ti : tableIndex} {sorted : list prefixIndexRec} {cs : list (addr * list byte)}.
Context (IX : indexes ti sorted cs).

(** Offset of the [i]-th record. *)
Definition offset_of (i : nat) : Z := Zlength (records (take i cs)).

Lemma ix_offsets_lookup i c : cs !! i = Some c -> ti_offsets ti !! i = Some (offset_of i).
Proof.
  intros Hc. apply lookup_lt_Some in Hc. rewrite (ix_eq _ _ _ IX). simpl.
  rewrite prefix_sums_lookup by (rewrite length_fmap, length_recs; lia).
  by rewrite sum_sizes_take.
Qed.

Lemma index_offset i c : cs !! i = Some c -> index (ti_offsets ti) (Z.of_nat i) = Ok (offset_of i).
Proof. intros Hc. apply index_lookup; [lia|]. rewrite Nat2Z.id. by eapply ix_offsets_lookup. Qed.
Lemma index_length i c : cs !! i = Some c -> index (ti_lengths ti) (Z.of_nat i) = Ok (record_size (snd c)).
Proof. intros Hc. apply index_lookup; [lia|]. rewrite Nat2Z.id. by eapply ix_lengths_lookup. Qed.

Lemma offset_of_succ i c : cs !! i = Some c -> offset_of (S i) = offset_of i + record_size (snd c).
Proof.
  intros Hc. unfold offset_of. rewrite (take_S_r _ _ _ Hc), records_app, Zlength_app. f_equal.
  destruct c as [h d]. unfold records. cbn [fmap list_fmap concat]. rewrite app_nil_r. apply Zlength_record_bytes.
Qed.

Lemma offset_of_mono i j : (i <= j)%nat -> offset_of i <= offset_of j.
Proof.
  intros Hij. unfold offset_of. replace j with (i + (j - i))%nat by lia.
  rewrite <- (take_drop i (take (i + (j - i)) cs)), records_app, Zlength_app, take_take, Nat.min_l by lia.
  pose proof (Zlength_nonneg (records (drop i (take (i + (j - i)) cs)))). lia.
Qed.

Lemma offset_of_end i c : cs !! i = Some c -> offset_of i + record_size (snd c) <= Zlength (records cs).
Proof.
  intros Hc. rewrite <- (offset_of_succ i c Hc). unfold offset_of.
  rewrite <- (take_drop (S i) cs) at 2. rewrite records_app, Zlength_app.
  pose proof (Zlength_nonneg (records (drop (S i) cs))). lia.
Qed.

Lemma offset_of_nonneg i : 0 <= offset_of i.
Proof. apply Zlength_nonneg. Qed.

(** Reading at an ordinal's offset gives its record. *)
Lemma slice_record i c tail : cs !! i = Some c ->
  slice (records cs ++ tail) (offset_of i) (offset_of i + record_size (snd c)) = Ok (record_bytes (snd c)).
Proof.
  intros Hc. rewrite (records_middle cs i c Hc), <- !app_assoc. apply slice_app; [done|].
  by rewrite Zlength_record_bytes.
Qed.

Lemma parseChunk_record `{!SnappyLaws} d : 0 <= MaxEncodedLen (Zlength d) -> Zlength (record_bytes d) < 2 ^ 63 ->
  parseChunk (record_bytes d) = Ok d.
Proof.
  intros Hmax Hlen. unfold parseChunk, record_bytes in *. rewrite Zlength_app, Zlength_be_put in *.
  change checksumSize with 4. assert (2 ^ 63 < 2 ^ 64) by done. pose proof (Zlength_nonneg (snappy_encode d)).
  rewrite u64_small by lia. replace (_ + Z.of_nat 4 - 4) with (Zlength (snappy_encode d)) by lia.
  pose proof (slice_app [] (snappy_encode d) (be_put 4 (crc d)) 0 (Zlength (snappy_encode d)) eq_refl eq_refl) as Hs.
  cbn [app] in Hs. rewrite Hs. cbn [obind]. rewrite snappy_roundtrip by done.
  rewrite slice_from_app by done. cbn [obind].
  rewrite <- (app_nil_r (be_put 4 (crc d))), uint_at_put.
  - cbn [obind]. rewrite Z.eqb_refl. done.
  - change (256 ^ Z.of_nat 4) with (2 ^ 32). apply u32_range.
Qed.

End records.

Lemma get_ok `{Snappy} `{!SnappyLaws} tr cs h : serves tr cs ->
  exists r, get tr h = Ok r /\
    match r with Some d => (h, d) ∈ cs | None => h ∉ cs.*1 end.
Proof.
  intros ([sorted IX] & [tail Htail] & Hlen). unfold get.
  destruct (lookupOrdinal_ok IX h) as (o & -> & Hcase). cbn [obind]. unfold count. rewrite (ix_chunkCount IX).
  destruct Hcase as [(i & -> & d & Hd)|[-> Habs]].
  - pose proof (lookup_lt_Some _ _ _ Hd) as Hi. rewrite (proj2 (Z.eqb_neq _ _)) by (unfold Zlength; lia).
    rewrite (index_offset IX i _ Hd), (index_length IX i _ Hd). cbn [obind snd].
    unfold ReadAt. rewrite Htail, (slice_record i _ tail Hd). cbn [obind snd].
    pose proof (Forall_lookup_1 _ _ _ _ (ix_fits _ _ _ IX) Hd) as (Hne & Hmax & Hsz). cbn [snd] in *.
    rewrite parseChunk_record.
    + cbn [obind]. rewrite (proj2 (Z.eqb_neq (Zlength d) 0)).
      * exists (Some d). split; [done|]. by eapply list_elem_of_lookup_2.
      * destruct d; [done|]. rewrite Zlength_cons. pose proof (Zlength_nonneg d). lia.
    + done.
    + rewrite Zlength_record_bytes. lia.
  - rewrite Z.eqb_refl. exists None. split; [done|]. intros ([h' d] & -> & Hin)%list_elem_of_fmap.
    apply list_elem_of_lookup in Hin as [i Hi]. eapply Habs. by exists d.
Qed.

Lemma has_ok `{Snappy} tr cs h : serves tr cs -> has tr h = Ok (bool_decide (h ∈ cs.*1)).
Proof.
  intros ([sorted IX] & _). unfold has.
  destruct (lookupOrdinal_ok IX h) as (o & -> & Hcase). cbn [obind]. f_equal. unfold count. rewrite (ix_chunkCount IX).
  destruct Hcase as [(i & -> & d & Hd)|[-> Habs]].
  - pose proof (lookup_lt_Some _ _ _ Hd) as Hi. rewrite (proj2 (Z.ltb_lt _ _)) by (unfold Zlength; lia).
    symmetry. apply bool_decide_eq_true_2. apply list_elem_of_fmap. exists (h, d). split; [done|]. by eapply list_elem_of_lookup_2.
  - rewrite Z.ltb_irrefl. symmetry. apply bool_decide_eq_false_2. intros ([h' d] & -> & Hin)%list_elem_of_fmap.
    apply list_elem_of_lookup in Hin as [i Hi]. eapply Habs. by exists d.
Qed.

(** ** Scans *)

Section scans.
Context `{Snappy} {ti : tableIndex} {sorted : list prefixIndexRec} {cs : list (addr * list byte)}.
Context (IX : indexes ti sorted cs).

(** Every position before [k] has a prefix below [p]. *)
Definition below (p : Z) (k : nat) : Prop := forall j r, (j < k)%nat -> sorted !! j = Some r -> pi_prefix r < p.

Lemma advance_ok fuel p k : (k <= length sorted)%nat -> below p k -> (length sorted - k < fuel)%nat ->
  exists k', advance_filter fuel ti p (Z.of_nat (length sorted)) (Z.of_nat k) = Ok (Z.of_nat k') /\
    lower_bound (sorted := sorted) p k'.
Proof.
  revert k. induction fuel as [|fuel IH]; intros k Hk Hb Hf; [lia|]. cbn [advance_filter].
  pose proof (ix_count _ _ _ IX) as Hcnt. pose proof (ix_length IX) as Hlen. unfold Zlength in Hcnt.
  destruct (Z.of_nat k <? Z.of_nat (length sorted)) eqn:E; bool_lia.
  - destruct (lookup_lt_is_Some_2 sorted k) as [r Hr]; [lia|]. rewrite (index_prefix IX k r Hr). cbn [obind].
    destruct (pi_prefix r <? p) eqn:E2; bool_lia.
    + rewrite u32_small by lia. replace (Z.of_nat k + 1) with (Z.of_nat (S k)) by lia. apply IH; [lia| |lia].
      intros j rj Hj Hrj. destruct (decide (j = k)) as [->|]; [congruence|apply (Hb j rj); [lia|done]].
    + exists k. split; [done|]. split; [lia|]. intros j rj Hrj. split; [by eauto|]. intros Hp.
      destruct (decide (j < k)%nat) as [|Hge]; [done|]. pose proof (sorted_le IX k j r rj ltac:(lia) Hr Hrj). lia.
  - assert (k = length sorted) as -> by lia. eexists. split; [done|]. split; [lia|].
    intros j rj Hrj. apply lookup_lt_Some in Hrj as Hlt. split; [by eauto|done].
Qed.

Lemma lower_bound_unique p k k' : lower_bound (sorted := sorted) p k -> lower_bound (sorted := sorted) p k' -> k = k'.
Proof.
  intros [H1 H2] [H1' H2']. destruct (Nat.lt_trichotomy k k') as [Hlt|[->|Hlt]]; [|done|].
  - destruct (lookup_lt_is_Some_2 sorted k) as [r Hr]; [lia|]. specialize (H2 _ _ Hr). specialize (H2' _ _ Hr).
    exfalso. rewrite <- H2' in H2. lia.
  - destruct (lookup_lt_is_Some_2 sorted k') as [r Hr]; [lia|]. specialize (H2 _ _ Hr). specialize (H2' _ _ Hr).
    exfalso. rewrite <- H2' in H2. lia.
Qed.

(** The positions of an address lie in the run of its prefix. *)
Lemma run_position a k0 i : lower_bound (sorted := sorted) (Prefix a) k0 -> at_ordinal (cs := cs) a i ->
  exists q r, sorted !! q = Some r /\ (k0 <= q)%nat /\ pi_prefix r = Prefix a /\ pi_order r = Z.of_nat i.
Proof.
  intros [_ HLB] [d Hd]. destruct (ix_position IX i _ Hd) as [q Hq]. exists q, (rec_of i (a, d)).
  split; [done|]. split; [|done]. destruct (decide (k0 <= q)%nat) as [|Hlt]; [done|].
  assert (pi_prefix (rec_of i (a, d)) < Prefix a) by (apply (HLB q); [done|lia]). simpl in *. lia.
Qed.

Lemma not_in_run a k0 : lower_bound (sorted := sorted) (Prefix a) k0 ->
  (forall r, sorted !! k0 = Some r -> pi_prefix r <> Prefix a) -> a ∉ cs.*1.
Proof.
  intros HLB Hstop ([a' d] & -> & Hin)%list_elem_of_fmap. simpl in *. apply list_elem_of_lookup in Hin as [i Hi].
  destruct (run_position a' k0 i HLB) as (q & r & Hq & Hle & Hp & _); [by exists d|].
  destruct (lookup_lt_is_Some_2 sorted k0) as [r0 Hr0]; [apply lookup_lt_Some in Hq; lia|].
  apply (Hstop r0 Hr0). pose proof (sorted_le IX k0 q r0 r Hle Hr0 Hq).
  assert (~ pi_prefix r0 < Prefix a'). { intros Hc. apply (proj2 HLB k0 r0 Hr0) in Hc. lia. } lia.
Qed.

Lemma match_from_ok fuel a k0 k : lower_bound (sorted := sorted) (Prefix a) k0 -> (k0 <= k)%nat -> (length sorted - k < fuel)%nat ->
  (forall j r i c, (k0 <= j < k)%nat -> sorted !! j = Some r -> cs !! i = Some c -> r = rec_of i c -> fst c <> a) ->
  match_from fuel ti (Prefix a) a (Z.of_nat (length sorted)) (Z.of_nat k) = Ok (bool_decide (a ∈ cs.*1)).
Proof.
  intros HLB. revert k. induction fuel as [|fuel IH]; intros k Hk Hf Hno; [lia|]. cbn [match_from].
  pose proof (ix_count _ _ _ IX) as Hcnt. pose proof (ix_length IX) as Hlen. unfold Zlength in Hcnt.
  assert ((forall r, sorted !! k = Some r -> pi_prefix r <> Prefix a) -> a ∉ cs.*1) as Habs.
  { intros Hstop ([a' d] & -> & Hin)%list_elem_of_fmap. simpl in *. apply list_elem_of_lookup in Hin as [i Hi].
    destruct (ix_position IX i _ Hi) as [q Hq].
    destruct (decide (q < k)%nat) as [Hlt|Hge].
    - destruct (decide (k0 <= q)%nat) as [Hge|Hlt0]; [by eapply (Hno q _ i (a', d))|].
      assert (pi_prefix (rec_of i (a', d)) < Prefix a') by (apply (proj2 HLB q); [done|lia]). simpl in *. lia.
    - destruct (lookup_lt_is_Some_2 sorted k) as [r0 Hr0]; [apply lookup_lt_Some in Hq; lia|].
      apply (Hstop r0 Hr0). pose proof (sorted_le IX k q r0 _ ltac:(lia) Hr0 Hq) as Hle. simpl in Hle.
      assert (~ pi_prefix r0 < Prefix a'). { intros Hc. apply (proj2 HLB k r0 Hr0) in Hc. lia. } lia. }
  destruct (Z.of_nat k <? Z.of_nat (length sorted)) eqn:E; bool_lia.
  - destruct (lookup_lt_is_Some_2 sorted k) as [r Hr]; [lia|]. rewrite (index_prefix IX k r Hr). cbn [obind].
    destruct (Prefix a =? pi_prefix r) eqn:E2; bool_lia.
    + destruct (match_at IX k r a Hr (eq_sym E2)) as (i & c & Hc & -> & -> & Hm). cbn [obind]. rewrite Hm. cbn [obind].
      case_bool_decide as Heq.
      * rewrite bool_decide_eq_true_2; [done|]. apply list_elem_of_fmap. exists c. split; [done|]. by eapply list_elem_of_lookup_2.
      * rewrite u32_small by lia. replace (Z.of_nat k + 1) with (Z.of_nat (S k)) by lia.
        apply IH; [lia|lia|]. intros j rj i' c' Hj Hrj Hc' ->.
        destruct (decide (j = k)) as [->|]; [|eapply (Hno j); [lia|done..]].
        rewrite Hr in Hrj. injection Hrj as Hio Hrec Hord Hsz.
        assert (i = i') as <- by lia. rewrite Hc in Hc'. by injection Hc' as <-.
    + rewrite bool_decide_eq_false_2; [done|]. apply Habs. intros r' Hr'. rewrite Hr in Hr'. injection Hr' as <-. lia.
  - rewrite bool_decide_eq_false_2; [done|]. apply Habs. intros r' Hr'. apply lookup_lt_Some in Hr'. lia.
Qed.

(** The answer for one record. *)
Definition has_answer (r : hasRecord) : hasRecord :=
  MkHas (hr_a r) (hr_prefix r) (hr_order r) (hr_has r || bool_decide (hr_a r ∈ cs.*1)).
Definition has_wf (r : hasRecord) : Prop := hr_prefix r = Prefix (hr_a r).
Definition missing (rs : list hasRecord) : bool := existsb (fun r => negb (hr_has r)) rs.

Lemma has_answer_absent r : hr_a r ∉ cs.*1 -> has_answer r = r.
Proof. intros. unfold has_answer. rewrite bool_decide_eq_false_2, orb_false_r by done. by destruct r. Qed.

Lemma scan_fuel_ok : scan_fuel ti = S (length sorted).
Proof. unfold scan_fuel. rewrite (ix_eq _ _ _ IX). simpl. by rewrite length_fmap. Qed.

Lemma below_le p p' k : below p k -> p <= p' -> below p' k.
Proof. intros Hb Hle j r Hj Hr. specialize (Hb j r Hj Hr). lia. Qed.
Lemma lower_bound_below p k : lower_bound (sorted := sorted) p k -> below p k.
Proof. intros [_ HL] j r Hj Hr. by apply (HL j r Hr). Qed.

Lemma hasMany_loop_ok addrs k rem : (k <= length sorted)%nat -> Forall has_wf addrs ->
  StronglySorted (fun x y => hr_prefix x <= hr_prefix y) addrs ->
  (forall r, r ∈ addrs -> below (hr_prefix r) k) ->
  hasMany_loop ti (Z.of_nat (length sorted)) addrs (Z.of_nat k) rem =
  Ok (has_answer <$> addrs, rem || missing (has_answer <$> addrs)).
Proof.
  revert k rem. induction addrs as [|r addrs IH]; intros k rem Hk Hwf Hs Hb; cbn [hasMany_loop].
  { simpl. by rewrite orb_false_r. }
  apply StronglySorted_cons in Hs as [Hle Hs]. inv Hwf. rename H2 into Hr, H3 into Hwf.
  destruct (hr_has r) eqn:Eh.
  - rewrite IH; [|done..|intros; apply Hb; by right]. cbn [obind fmap list_fmap]. f_equal.
    assert (has_answer r = r) as Hrr by (unfold has_answer; rewrite Eh; destruct r; simpl in *; by subst).
    rewrite Hrr. unfold missing at 2. simpl. by rewrite Eh.
  - rewrite scan_fuel_ok. destruct (advance_ok (S (length sorted)) (hr_prefix r) k) as (k' & -> & HLB);
      [done|apply Hb; by left|lia|]. cbn [obind]. rewrite Hr in HLB.
    destruct (Z.of_nat (length sorted) <=? Z.of_nat k') eqn:E1; bool_lia.
    + assert (k' = length sorted) as -> by (destruct HLB; lia).
      assert (forall r', r' ∈ r :: addrs -> has_answer r' = r') as Hid.
      { intros r' Hr'. apply has_answer_absent. intros ([a d] & Ha & Hin)%list_elem_of_fmap. simpl in Ha.
        apply list_elem_of_lookup in Hin as [i Hi]. destruct (ix_position IX i _ Hi) as [q Hq].
        assert (pi_prefix (rec_of i (a, d)) < Prefix (hr_a r)) as Hlt.
        { apply (proj2 HLB q); [done|]. by eapply lookup_lt_Some. }
        simpl in Hlt. rewrite <- Ha in Hlt.
        assert (hr_prefix r <= hr_prefix r' /\ hr_prefix r' = Prefix (hr_a r')) as [? ?]; [|rewrite <- Hr in Hlt; lia].
        apply elem_of_cons in Hr' as [->|Hr']; [split; [lia|done]|].
        rewrite Forall_forall in Hle, Hwf. by split; [apply Hle|apply Hwf]. }
      assert (has_answer <$> r :: addrs = r :: addrs) as ->.
      { rewrite <- (list_fmap_id (r :: addrs)) at 2. apply list_fmap_ext. intros i x Hx. apply Hid. by eapply list_elem_of_lookup_2. }
      simpl. rewrite Eh. simpl. by rewrite orb_true_r.
    + destruct (lookup_lt_is_Some_2 sorted k') as [r0 Hr0]; [lia|]. rewrite (index_prefix IX k' r0 Hr0). cbn [obind].
      assert (forall r', r' ∈ addrs -> below (hr_prefix r') k') as Hb'.
      { intros r' Hr'. apply (below_le (hr_prefix r)); [rewrite Hr; by apply lower_bound_below|].
        rewrite Forall_forall in Hle. by apply Hle. }
      rewrite Hr. destruct (Prefix (hr_a r) =? pi_prefix r0) eqn:E2; bool_lia; cbn [negb].
      * rewrite (match_from_ok _ (hr_a r) k' k') by (done || lia). cbn [obind].
        rewrite IH; [|lia|done..]. cbn [obind fmap list_fmap]. f_equal.
        assert (has_answer r = MkHas (hr_a r) (Prefix (hr_a r)) (hr_order r) (bool_decide (hr_a r ∈ cs.*1))) as ->.
        { unfold has_answer. by rewrite Eh, Hr. }
        simpl. f_equal. destruct (bool_decide _), rem; done.
      * rewrite IH; [|lia|done..]. cbn [obind fmap list_fmap]. f_equal.
        assert (has_answer r = r) as ->.
        { apply has_answer_absent. apply (not_in_run _ k' HLB). intros r' Hr'. rewrite Hr0 in Hr'. injection Hr' as <-. lia. }
        simpl. rewrite Eh. simpl. by rewrite orb_true_r.
Qed.

End scans.

Lemma filterLen_ok `{Snappy} ti sorted cs : indexes ti sorted cs ->
  u32 (Zlength (ti_prefixes ti)) = Z.of_nat (length sorted).
Proof.
  intros IX. rewrite (ix_prefixes_Zlength IX), u32_small.
  - unfold Zlength. by rewrite (ix_length IX).
  - pose proof (ix_count _ _ _ IX). pose proof (Zlength_nonneg cs). lia.
Qed.

Lemma hasMany_ok `{Snappy} tr cs addrs : serves tr cs -> Forall has_wf addrs ->
  StronglySorted (fun x y => hr_prefix x <= hr_prefix y) addrs ->
  hasMany tr addrs = Ok (has_answer (cs := cs) <$> addrs, missing (has_answer (cs := cs) <$> addrs)).
Proof.
  intros ([sorted IX] & _) Hwf Hs. unfold hasMany. rewrite (filterLen_ok _ _ _ IX).
  apply (hasMany_loop_ok IX addrs 0 false); [lia|done|done|]. intros r _ j r' Hj. lia.
Qed.

(** ** [findOffsets] *)

Section find.
Context `{Snappy} {ti : tableIndex} {sorted : list prefixIndexRec} {cs : list (addr * list byte)}.
Context (IX : indexes ti sorted cs).

Definition get_wf (r : getRecord) : Prop := gr_prefix r = Prefix (gr_a r).
Definition found_answer (r : getRecord) : getRecord :=
  MkGet (gr_a r) (gr_prefix r) (gr_order r) (gr_found r || bool_decide (gr_a r ∈ cs.*1)) (gr_data r).
(** What [findOffsets] reports as remaining: an unfound request whose
    8-byte prefix does not occur in the table. *)
Definition prefix_missing (rs : list getRecord) : bool :=
  existsb (fun r => negb (gr_found r) && negb (bool_decide (gr_prefix r ∈ (fun c => Prefix (fst c)) <$> cs))) rs.

Definition or_valid (a : addr) (o : offsetRec) : Prop :=
  exists i, or_ordinal o = Z.of_nat i /\ at_ordinal (cs := cs) a i /\ or_offset o = offset_of (cs := cs) i.

(** The locations found for the requests from index [i0] on. *)
Record ors_spec (i0 : Z) (reqs : list getRecord) (ors : list offsetRec) : Prop := {
  ors_sound : forall o, o ∈ ors -> exists (j : nat) req, reqs !! j = Some req /\ gr_found req = false /\
    or_reqIdx o = i0 + Z.of_nat j /\ or_valid (gr_a req) o;
  ors_complete : forall (j : nat) req, reqs !! j = Some req -> gr_found req = false -> gr_a req ∈ cs.*1 ->
    exists o, o ∈ ors /\ or_reqIdx o = i0 + Z.of_nat j
}.

Lemma found_answer_absent r : gr_a r ∉ cs.*1 -> found_answer r = r.
Proof. intros. unfold found_answer. rewrite bool_decide_eq_false_2, orb_false_r by done. by destruct r. Qed.

Lemma offsets_from_ok fuel i a k0 k : lower_bound (sorted := sorted) (Prefix a) k0 -> (k0 <= k)%nat -> (length sorted - k < fuel)%nat ->
  exists new, offsets_from fuel ti i (Prefix a) a (Z.of_nat (length sorted)) (Z.of_nat k) = Ok new /\
    (forall o, o ∈ new -> or_reqIdx o = u32 i /\ or_valid a o) /\
    ((exists q r d, (k <= q)%nat /\ sorted !! q = Some r /\ exists n, cs !! n = Some (a, d) /\ r = rec_of n (a, d)) -> new <> []).
Proof.
  intros HLB. revert k. induction fuel as [|fuel IH]; intros k Hk Hf; [lia|]. cbn [offsets_from].
  pose proof (ix_count _ _ _ IX) as Hcnt. pose proof (ix_length IX) as Hlen. unfold Zlength in Hcnt.
  destruct (Z.of_nat k <? Z.of_nat (length sorted)) eqn:E; bool_lia.
  - destruct (lookup_lt_is_Some_2 sorted k) as [r Hr]; [lia|]. rewrite (index_prefix IX k r Hr). cbn [obind].
    destruct (Prefix a =? pi_prefix r) eqn:E2; bool_lia.
    + destruct (match_at IX k r a Hr (eq_sym E2)) as (n & c & Hc & -> & -> & Hm). cbn [obind]. rewrite Hm. cbn [obind].
      rewrite u32_small by lia. replace (Z.of_nat k + 1) with (Z.of_nat (S k)) by lia.
      destruct (IH (S k)) as (new & -> & Hs & Hc'); [lia|lia|]. cbn [obind]. case_bool_decide as Heq.
      * rewrite (index_offset IX n c Hc). cbn [obind]. eexists. split; [done|]. split; [|done].
        intros o [->|Ho]%elem_of_cons; [|by apply Hs]. split; [done|]. exists n. split; [done|]. split; [|done].
        exists (snd c). rewrite Hc. by destruct c; subst.
      * eexists. split; [done|]. split; [done|]. intros (q & rq & d & Hq & Hrq & m & Hm' & ->). apply Hc'.
        exists q, (rec_of m (a, d)), d. split; [|by eauto]. destruct (decide (q = k)) as [->|]; [|lia].
        rewrite Hr in Hrq. injection Hrq as Hio Hrec Hord Hsz. assert (n = m) as <- by lia.
        rewrite Hc in Hm'. injection Hm' as ->. done.
    + eexists. split; [done|]. split; [by intros o Ho%elem_of_nil|].
      intros (q & rq & d & Hq & Hrq & m & Hm' & ->). exfalso.
      pose proof (sorted_le IX k q r _ Hq Hr Hrq) as Hle. simpl in Hle.
      assert (~ pi_prefix r < Prefix a). { intros Hc. apply (proj2 HLB k r Hr) in Hc. lia. } lia.
  - eexists. split; [done|]. split; [by intros o Ho%elem_of_nil|].
    intros (q & rq & d & Hq & Hrq & _). apply lookup_lt_Some in Hrq. lia.
Qed.

Lemma offsets_from_run fuel i a k0 : lower_bound (sorted := sorted) (Prefix a) k0 -> (length sorted - k0 < fuel)%nat ->
  exists new, offsets_from fuel ti i (Prefix a) a (Z.of_nat (length sorted)) (Z.of_nat k0) = Ok new /\
    (forall o, o ∈ new -> or_reqIdx o = u32 i /\ or_valid a o) /\ (new <> [] <-> a ∈ cs.*1).
Proof.
  intros HLB Hf. destruct (offsets_from_ok fuel i a k0 k0 HLB) as (new & Hnew & Hs & Hc); [lia|done|].
  exists new. split; [done|]. split; [done|]. split.
  - intros Hne. destruct new as [|o new]; [done|]. destruct (Hs o) as [_ (n & _ & [d Hd] & _)]; [by left|].
    apply list_elem_of_fmap. exists (a, d). split; [done|]. by eapply list_elem_of_lookup_2.
  - intros ([a' d] & -> & Hin)%list_elem_of_fmap. simpl in *. apply Hc. apply list_elem_of_lookup in Hin as [n Hn].
    destruct (ix_position IX n _ Hn) as [q Hq]. exists q, (rec_of n (a', d)), d. split; [|by eauto].
    destruct (decide (k0 <= q)%nat) as [|Hlt]; [done|].
    assert (pi_prefix (rec_of n (a', d)) < Prefix a') by (apply (proj2 HLB q); [done|lia]). simpl in *. lia.
Qed.

Lemma ors_spec_cons i0 req reqs new ors : 
  (forall o, o ∈ new -> gr_found req = false /\ or_reqIdx o = i0 /\ or_valid (gr_a req) o) ->
  (gr_found req = false -> gr_a req ∈ cs.*1 -> new <> []) ->
  ors_spec (i0 + 1) reqs ors -> ors_spec i0 (req :: reqs) (new ++ ors).
Proof.
  intros Hnew Hne [Hs Hc]. split.
  - intros o [Ho|Ho]%elem_of_app.
    + destruct (Hnew o Ho) as (? & ? & ?). exists 0%nat, req. split_and!; [done..|lia|done].
    + destruct (Hs o Ho) as (j & r & Hj & Hf & Hi & Hv). exists (S j), r. split_and!; [done..|lia|done].
  - intros [|j] r Hr Hf Ha.
    + injection Hr as <-. destruct new as [|o new]; [by destruct (Hne Hf Ha)|].
      destruct (Hnew o) as (_ & ? & _); [by left|]. exists o. split; [by left|lia].
    + destruct (Hc j r Hr Hf Ha) as (o & Ho & Hi). exists o. split; [apply elem_of_app; by right|lia].
Qed.

Lemma prefix_in_table p k0 r : lower_bound (sorted := sorted) p k0 -> sorted !! k0 = Some r ->
  bool_decide (p ∈ (fun c => Prefix (fst c)) <$> cs) = (p =? pi_prefix r).
Proof.
  intros HLB Hr. destruct (p =? pi_prefix r) eqn:E; bool_lia.
  - apply bool_decide_eq_true_2. destruct (ix_sorted_lookup IX k0 r Hr) as (i & c & Hc & ->).
    apply list_elem_of_fmap. exists c. split; [done|]. by eapply list_elem_of_lookup_2.
  - apply bool_decide_eq_false_2. intros (c & -> & Hin)%list_elem_of_fmap. apply list_elem_of_lookup in Hin as [i Hi].
    destruct (ix_position IX i c Hi) as [q Hq].
    assert (~ pi_prefix r < Prefix c.1). { intros Hc. apply (proj2 HLB k0 r Hr) in Hc. lia. }
    destruct (decide (k0 <= q)%nat) as [Hle|Hlt].
    + pose proof (sorted_le IX k0 q r _ Hle Hr Hq) as Hle'. simpl in Hle'. lia.
    + assert (pi_prefix (rec_of i c) < Prefix c.1) by (apply (proj2 HLB q); [done|lia]). simpl in *. lia.
Qed.

Lemma past_end p c : lower_bound (sorted := sorted) p (length sorted) -> c ∈ cs -> Prefix (fst c) < p.
Proof.
  intros HLB Hin. apply list_elem_of_lookup in Hin as [i Hi]. destruct (ix_position IX i _ Hi) as [q Hq].
  assert (pi_prefix (rec_of i c) < p); [|done]. apply (proj2 HLB q); [done|]. by eapply lookup_lt_Some.
Qed.

Lemma findOffsets_loop_ok reqs i0 k rem : (k <= length sorted)%nat -> Forall get_wf reqs ->
  StronglySorted (fun x y => gr_prefix x <= gr_prefix y) reqs ->
  (forall r, r ∈ reqs -> below (sorted := sorted) (gr_prefix r) k) -> 0 <= i0 -> i0 + Zlength reqs < 2 ^ 32 ->
  exists ors, findOffsets_loop ti (Z.of_nat (length sorted)) reqs i0 (Z.of_nat k) rem =
    Ok (found_answer <$> reqs, ors, rem || prefix_missing reqs) /\ ors_spec i0 reqs ors.
Proof.
  revert i0 k rem. induction reqs as [|r reqs IH]; intros i0 k rem Hk Hwf Hs Hb Hi0 Hlen; cbn [findOffsets_loop].
  { exists []. simpl. rewrite orb_false_r. split; [done|]. split; [by intros o Ho%elem_of_nil|done]. }
  apply StronglySorted_cons in Hs as [Hle Hs]. inv Hwf. rename H2 into Hr, H3 into Hwf.
  rewrite Zlength_cons in Hlen. pose proof (Zlength_nonneg reqs) as Hnn.
  destruct (gr_found r) eqn:Ef.
  - destruct (IH (i0 + 1) k rem) as (ors & -> & Hors); [done..|intros; apply Hb; by right|lia|lia|].
    cbn [obind fmap list_fmap]. exists ors. split.
    + assert (found_answer r = r) as -> by (unfold found_answer; rewrite Ef; destruct r; simpl in *; by subst).
      f_equal. unfold prefix_missing at 2. simpl. by rewrite Ef.
    + apply (ors_spec_cons i0 r reqs [] ors); [by intros o Ho%elem_of_nil|congruence|done].
  - rewrite (scan_fuel_ok IX). destruct (advance_ok IX (S (length sorted)) (gr_prefix r) k) as (k' & -> & HLB);
      [done|apply Hb; by left|lia|]. cbn [obind]. rewrite Hr in HLB.
    destruct (Z.of_nat (length sorted) <=? Z.of_nat k') eqn:E1; bool_lia.
    + assert (k' = length sorted) as -> by (destruct HLB; lia).
      assert (forall r' c, r' ∈ r :: reqs -> c ∈ cs -> Prefix (fst c) < gr_prefix r' /\ gr_prefix r' = Prefix (gr_a r')) as Hlt.
      { intros r' c Hr' Hin. pose proof (past_end _ c HLB Hin) as Hlt. rewrite <- Hr in Hlt.
        apply elem_of_cons in Hr' as [->|Hr']; [by split|].
        rewrite Forall_forall in Hle, Hwf. specialize (Hle _ Hr'). split; [lia|by apply Hwf]. }
      assert (forall r', r' ∈ r :: reqs -> gr_a r' ∉ cs.*1) as Habs.
      { intros r' Hr' (c & Ha & Hin)%list_elem_of_fmap. destruct (Hlt r' c Hr' Hin) as [? ?]. rewrite <- Ha in *. lia. }
      exists []. split.
      * assert (found_answer <$> r :: reqs = r :: reqs) as ->.
        { rewrite <- (list_fmap_id (r :: reqs)) at 2. apply list_fmap_ext. intros i x Hx.
          apply found_answer_absent, Habs. by eapply list_elem_of_lookup_2. }
        simpl. rewrite Ef. simpl. rewrite bool_decide_eq_false_2; [by rewrite orb_true_r|].
        intros (c & Hc & Hin)%list_elem_of_fmap. destruct (Hlt r c) as [? ?]; [by left|done|]. lia.
      * split; [by intros o Ho%elem_of_nil|]. intros j req Hj _ Hin. exfalso. eapply Habs; [|done]. by eapply list_elem_of_lookup_2.
    + destruct (lookup_lt_is_Some_2 sorted k') as [r0 Hr0]; [lia|]. rewrite (index_prefix IX k' r0 Hr0). cbn [obind].
      assert (forall r', r' ∈ reqs -> below (sorted := sorted) (gr_prefix r') k') as Hb'.
      { intros r' Hr'. apply (below_le (gr_prefix r)); [rewrite Hr; by apply lower_bound_below|].
        rewrite Forall_forall in Hle. by apply Hle. }
      assert (bool_decide (gr_prefix r ∈ (fun c => Prefix (fst c)) <$> cs) = (Prefix (gr_a r) =? pi_prefix r0)) as Hpt
        by (rewrite Hr; by apply (prefix_in_table _ k')).
      rewrite Hr. destruct (Prefix (gr_a r) =? pi_prefix r0) eqn:E2; bool_lia; cbn [negb].
      * destruct (offsets_from_run (S (length sorted)) i0 (gr_a r) k' HLB) as (new & -> & Hnew & Hiff); [lia|]. cbn [obind].
        destruct (IH (i0 + 1) k' rem) as (ors & -> & Hors); [lia|done..|lia|lia|]. cbn [obind fmap list_fmap].
        exists (new ++ ors). split.
        -- f_equal. f_equal.
           ++ f_equal. f_equal. unfold found_answer. rewrite Ef, Hr. simpl. f_equal.
              destruct new as [|o new]; symmetry; [apply bool_decide_eq_false_2; rewrite <- Hiff; by intros Hne; apply Hne|].
              apply bool_decide_eq_true_2. by apply Hiff.
           ++ unfold prefix_missing at 2. simpl. rewrite Ef, Hpt. done.
        -- apply ors_spec_cons; [|intros _ Hin; by apply Hiff|done]. intros o Ho. destruct (Hnew o Ho) as [-> ?].
           rewrite u32_small by lia. done.
      * destruct (IH (i0 + 1) k' true) as (ors & -> & Hors); [lia|done..|lia|lia|]. cbn [obind fmap list_fmap].
        assert (gr_a r ∉ cs.*1) as Habs.
        { apply (not_in_run IX _ k' HLB). intros r' Hr'. rewrite Hr0 in Hr'. injection Hr' as <-. lia. }
        exists ors. split.
        -- rewrite found_answer_absent by done. f_equal. unfold prefix_missing at 2. simpl. rewrite Ef, Hpt. simpl. by rewrite orb_true_r.
        -- apply (ors_spec_cons i0 r reqs [] ors); [by intros o Ho%elem_of_nil|done|done].
Qed.

End find.

Lemma findOffsets_ok `{Snappy} tr cs reqs : serves tr cs -> Forall get_wf reqs ->
  StronglySorted (fun x y => gr_prefix x <= gr_prefix y) reqs -> Zlength reqs < 2 ^ 32 ->
  exists ors, findOffsets tr reqs = Ok (found_answer (cs := cs) <$> reqs, ors, prefix_missing (cs := cs) reqs) /\
    ors_spec (cs := cs) 0 reqs ors.
Proof.
  intros ([sorted IX] & _) Hwf Hs Hlen. unfold findOffsets. rewrite (filterLen_ok _ _ _ IX).
  apply (findOffsets_loop_ok IX reqs 0 0 false); [lia|done|done| |lia|lia]. intros r _ j r' Hj. lia.
Qed.

(** ** Grouped reads *)

Section grouping.
Context `{Snappy} {tr : tableReader} {sorted : list prefixIndexRec} {cs : list (addr * list byte)} {tail : list byte}.
Context (IX : indexes (tr_index tr) sorted cs) (FILE : tr_r tr = records cs ++ tail) (SIZE : Zlength (tr_r tr) < 2 ^ 63).

Abbreviation offset_of := (offset_of (cs := cs)).

(** [o] locates the record of chunk [c]. *)
Definition locates (o : offsetRec) (c : addr * list byte) : Prop :=
  exists i, cs !! i = Some c /\ or_ordinal o = Z.of_nat i /\ or_offset o = offset_of i.

Definition in_batch (lo hi : Z) (o : offsetRec) : Prop :=
  exists c, locates o c /\ lo <= or_offset o /\ or_offset o + record_size (snd c) <= hi.
Record batch_ok (b : readBatch) : Prop := {
  batch_range : 0 <= rb_start b <= rb_end b /\ rb_end b <= Zlength (records cs);
  batch_recs : Forall (in_batch (rb_start b) (rb_end b)) (rb_recs b)
}.
(** The open batch ends with a record that no later location precedes. *)
Definition batch_open (b : readBatch) (ors : list offsetRec) : Prop :=
  exists i c, cs !! i = Some c /\ rb_end b = offset_of (S i) /\ rb_start b <= offset_of i /\
    Forall (fun o => offset_of i <= or_offset o) ors.

Lemma file_size : Zlength (records cs) < 2 ^ 63.
Proof. rewrite FILE, Zlength_app in SIZE. pose proof (Zlength_nonneg tail). lia. Qed.

Lemma locates_range o c : locates o c ->
  0 <= or_offset o /\ 4 <= record_size (snd c) /\ or_offset o + record_size (snd c) <= Zlength (records cs).
Proof.
  intros (i & Hc & _ & ->). pose proof (offset_of_end i c Hc). pose proof (offset_of_nonneg (cs := cs) i).
  pose proof (record_size_pos (snd c)). lia.
Qed.

Lemma locates_length o c : locates o c -> index (ti_lengths (tr_index tr)) (or_ordinal o) = Ok (record_size (snd c)).
Proof. intros (i & Hc & -> & _). apply (index_length IX i c Hc). Qed.

(** Two records that overlap are the same record. *)
Lemma overlap_same i j ci cj : cs !! i = Some ci -> cs !! j = Some cj ->
  offset_of i <= offset_of j -> offset_of j < offset_of (S i) -> i = j.
Proof.
  intros Hi Hj H1 H2. pose proof (record_size_pos (snd cj)). pose proof (offset_of_succ j cj Hj).
  destruct (Nat.lt_trichotomy i j) as [Hlt|[->|Hlt]]; [|done|].
  - pose proof (offset_of_mono (cs := cs) (S i) j Hlt). lia.
  - pose proof (offset_of_mono (cs := cs) (S j) i Hlt). lia.
Qed.

Lemma in_batch_weaken lo hi hi' o : hi <= hi' -> in_batch lo hi o -> in_batch lo hi' o.
Proof. intros Hle (c & Hc & ? & ?). exists c. split; [done|lia]. Qed.

Lemma fresh_batch o c ors : locates o c -> Forall (fun o' => or_offset o <= or_offset o') ors ->
  let b := MkBatch (or_offset o) (u64 (or_offset o + record_size (snd c))) [o] in batch_ok b /\ batch_open b ors.
Proof.
  intros Ho Hs. pose proof (locates_range o c Ho). pose proof file_size. assert (2 ^ 63 < 2 ^ 64) by done.
  rewrite u64_small by lia. split.
  - split; simpl; [lia|]. constructor; [|done]. exists c. split; [done|lia].
  - destruct Ho as (i & Hc & _ & Hoff). exists i, c. simpl. rewrite Hoff in *. split; [done|].
    split; [by rewrite (offset_of_succ i c Hc)|]. split; [lia|done].
Qed.

(** Whatever the thresholds, a batch that is read ahead still covers its records. *)
Lemma read_ahead_ok b o c ors readAmp readEnd' readAmp' blockSize maxReadSize ampThresh :
  batch_ok b -> batch_open b (o :: ors) -> locates o c -> Forall (fun o' => or_offset o <= or_offset o') ors ->
  canReadAhead o (record_size (snd c)) (rb_start b) (rb_end b) readAmp blockSize maxReadSize ampThresh
    = (readEnd', readAmp', true) ->
  let b' := MkBatch (rb_start b) readEnd' (rb_recs b ++ [o]) in batch_ok b' /\ batch_open b' ors.
Proof.
  intros [Hr Hrecs] (i & ci & Hi & Hend & Hst & Hs) Ho Hso. inv Hs. rename H2 into Hio, H3 into Hs.
  pose proof (locates_range o c Ho). pose proof file_size. assert (2 ^ 63 < 2 ^ 64) by done.
  pose proof (offset_of_succ i ci Hi) as Hsucc. pose proof (record_size_pos (snd ci)).
  unfold canReadAhead. destruct (or_offset o <? rb_end b) eqn:E; bool_lia.
  - intros [= <- <-]. destruct Ho as (j & Hj & Hord & Hoff).
    assert (i = j) as <- by (eapply overlap_same; [done|done|lia|lia]).
    rewrite Hi in Hj. injection Hj as ->. split.
    + split; simpl; [done|]. apply Forall_app. split; [done|]. constructor; [|done].
      exists c. split; [by exists i|]. rewrite Hsucc in *. lia.
    + by exists i, c.
  - destruct (_ && _); [done|]. destruct (_ || _); [done|]. intros [= <- <-]. rewrite u64_small by lia. split.
    + split; simpl; [lia|]. apply Forall_app. split.
      * eapply Forall_impl; [done|]. intros o'. apply in_batch_weaken. lia.
      * constructor; [|done]. exists c. split; [done|lia].
    + destruct Ho as (j & Hj & Hord & Hoff). exists j, c. simpl. rewrite Hoff in *. split; [done|].
      split; [by rewrite (offset_of_succ j c Hj)|]. split; [lia|done].
Qed.

Definition flat (bs : list readBatch) : list offsetRec := concat (rb_recs <$> bs).

Lemma group_reads_ok ors : forall cur,
  Forall (fun o => exists c, locates o c) ors -> StronglySorted (fun x y => or_offset x <= or_offset y) ors ->
  (match cur with Some (b, _) => batch_ok b /\ batch_open b ors | None => True end) ->
  exists bs, group_reads tr ors cur = Ok bs /\ Forall batch_ok bs /\
    flat bs = (match cur with Some (b, _) => rb_recs b | None => [] end) ++ ors.
Proof.
  induction ors as [|o ors IH]; intros cur Hl Hs Hcur; cbn [group_reads].
  { rewrite app_nil_r. destruct cur as [[b amp]|].
    - exists [b]. unfold flat. simpl. rewrite app_nil_r. by destruct Hcur; auto.
    - by exists []. }
  inv Hl. destruct H2 as [c Hc]. rename H3 into Hl. apply StronglySorted_cons in Hs as [Hle Hs].
  rewrite (locates_length o c Hc). cbn [obind].
  destruct (fresh_batch o c ors Hc Hle) as [Hf1 Hf2].
  destruct cur as [[b amp]|].
  - destruct Hcur as [Hb Ho]. destruct (canReadAhead _ _ _ _ _ _ _ _) as [[e' a'] [|]] eqn:E.
    + edestruct (read_ahead_ok b o c ors) as [Hb' Ho']; [done..|].
      destruct (IH (Some (MkBatch (rb_start b) e' (rb_recs b ++ [o]), a'))) as (bs & -> & Hbs & Hflat); [done..|].
      exists bs. split; [done|]. split; [done|]. rewrite Hflat. simpl. by rewrite <- app_assoc.
    + destruct (IH (Some (MkBatch (or_offset o) (u64 (or_offset o + record_size (snd c))) [o], 0))) as (bs & Hbs' & Hbs & Hflat); [done..|].
      rewrite Hbs'. cbn [obind]. exists (b :: bs). split; [done|]. split; [by constructor|].
      change (flat (b :: bs)) with (rb_recs b ++ flat bs). by rewrite Hflat.
  - destruct (IH (Some (MkBatch (or_offset o) (u64 (or_offset o + record_size (snd c))) [o], 0))) as (bs & Hbs' & Hbs & Hflat); [done..|].
    rewrite Hbs'. by exists bs.
Qed.


(** Effect of serving one location on the requests. *)
Definition chunk_at (o : offsetRec) : list byte :=
  match cs !! Z.to_nat (or_ordinal o) with Some c => snd c | None => [] end.
Definition with_data (d : list byte) (r : getRecord) : getRecord :=
  MkGet (gr_a r) (gr_prefix r) (gr_order r) (gr_found r) (Some d).
Definition put_data (reqs : list getRecord) (o : offsetRec) : list getRecord :=
  alter (with_data (chunk_at o)) (Z.to_nat (or_reqIdx o)) reqs.
Definition addresses (n : Z) (o : offsetRec) : Prop := 0 <= or_reqIdx o < n.

Lemma Zlength_put_data reqs o : Zlength (put_data reqs o) = Zlength reqs.
Proof. unfold put_data, Zlength. by rewrite length_alter. Qed.

Lemma set_index_alter {A} (l : list A) i a (f : A -> A) : index l i = Ok a ->
  set_index l i (f a) = Ok (alter f (Z.to_nat i) l).
Proof.
  intros [Hi Ha]%index_Ok. unfold set_index. rewrite (proj2 (Z.leb_le _ _)), (proj2 (Z.ltb_lt _ _)) by lia. simpl.
  f_equal. apply list_eq. intros j. destruct (decide (j = Z.to_nat i)) as [->|Hne].
  - rewrite list_lookup_insert_eq by (by eapply lookup_lt_Some). by rewrite list_lookup_alter_eq, Ha.
  - by rewrite list_lookup_insert_ne, list_lookup_alter_ne by done.
Qed.

Lemma serve_recs_ok `{!SnappyLaws} lo hi buff recs reqs : slice (tr_r tr) lo hi = Ok buff ->
  0 <= lo <= hi -> hi <= Zlength (records cs) ->
  Forall (in_batch lo hi) recs -> Forall (addresses (Zlength reqs)) recs ->
  serve_recs tr lo (hi - lo) buff reqs recs = Ok (foldl put_data reqs recs).
Proof.
  intros Hbuff Hlo Hhi. revert reqs. induction recs as [|o recs IH]; intros reqs Hin Had; cbn [serve_recs foldl]; [done|].
  apply Forall_cons in Hin as [(c & Hc & Hb1 & Hb2) Hin]. apply Forall_cons in Had as [Ha Had]. unfold addresses in Ha.
  rewrite (proj2 (Z.leb_le _ _)) by lia. cbn [obind check].
  pose proof file_size. pose proof (locates_range o c Hc). assert (2 ^ 63 < 2 ^ 64) by done.
  rewrite (locates_length o c Hc). cbn [obind]. rewrite (u64_small (or_offset o - lo)), u64_small by lia.
  rewrite (proj2 (Z.leb_le _ _)) by lia. cbn [obind check].
  rewrite (slice_slice _ _ _ _ _ _ Hbuff) by lia.
  replace (lo + (or_offset o - lo)) with (or_offset o) by lia.
  replace (lo + (or_offset o - lo + record_size c.2)) with (or_offset o + record_size c.2) by lia.
  destruct Hc as (i & Hi & Hord & Hoff). rewrite FILE, Hoff, (slice_record i c tail Hi). cbn [obind].
  pose proof (Forall_lookup_1 _ _ _ _ (ix_fits _ _ _ IX) Hi) as (Hne & Hmax & Hsz).
  rewrite parseChunk_record; [|done|rewrite Zlength_record_bytes; lia]. cbn [obind].
  destruct (index_is_ok reqs (or_reqIdx o) Ha) as (r & Hr & _). rewrite Hr. cbn [obind].
  assert (snd c = chunk_at o) as -> by (unfold chunk_at; by rewrite Hord, Nat2Z.id, Hi).
  change (MkGet _ _ _ _ _) with (with_data (chunk_at o) r).
  rewrite (set_index_alter _ _ _ (with_data (chunk_at o)) Hr). cbn [obind]. apply IH; [done|].
  change (alter _ _ reqs) with (put_data reqs o). by rewrite Zlength_put_data.
Qed.

Lemma readAtOffsets_ok `{!SnappyLaws} reqs b : batch_ok b -> Forall (addresses (Zlength reqs)) (rb_recs b) ->
  readAtOffsets tr reqs b = Ok (foldl put_data reqs (rb_recs b)).
Proof.
  intros [[Hr1 Hr2] Hrecs] Ha. unfold readAtOffsets, ReadAt. pose proof file_size. assert (2 ^ 63 < 2 ^ 64) by done.
  rewrite u64_small by lia. replace (rb_start b + (rb_end b - rb_start b)) with (rb_end b) by lia.
  destruct (slice (tr_r tr) (rb_start b) (rb_end b)) as [buff|] eqn:E; cbn [obind].
  - by apply serve_recs_ok.
  - rewrite slice_ok in E; [done|lia|]. rewrite FILE, Zlength_app. pose proof (Zlength_nonneg tail). lia.
Qed.

Lemma run_batches_ok `{!SnappyLaws} bs reqs : Forall batch_ok bs -> Forall (addresses (Zlength reqs)) (flat bs) ->
  run_batches tr reqs bs = Ok (foldl put_data reqs (flat bs)).
Proof.
  revert reqs. induction bs as [|b bs IH]; intros reqs Hb Ha; cbn [run_batches]; [done|].
  inv Hb. unfold flat in *. cbn [fmap list_fmap concat] in *. apply Forall_app in Ha as [Ha1 Ha2].
  rewrite readAtOffsets_ok by done. cbn [obind]. rewrite foldl_app. apply IH; [done|].
  assert (Zlength (foldl put_data reqs (rb_recs b)) = Zlength reqs) as ->; [|done].
  clear. generalize (rb_recs b) as os. intros os. revert reqs. induction os as [|o os IH]; intros reqs; simpl; [done|].
  by rewrite IH, Zlength_put_data.
Qed.

(** The final value of a request after all locations were served. *)
Lemma put_all_lookup (os : list offsetRec) (reqs : list getRecord) j r d :
  Forall (addresses (Zlength reqs)) os -> reqs !! j = Some r ->
  (forall o, o ∈ os -> or_reqIdx o = Z.of_nat j -> chunk_at o = d) ->
  foldl put_data reqs os !! j =
    Some (if bool_decide (Exists (fun o => or_reqIdx o = Z.of_nat j) os) then with_data d r else r).
Proof.
  revert reqs r. induction os as [|o os IH]; intros reqs r Ha Hr Hd; cbn [foldl].
  { by rewrite bool_decide_eq_false_2 by (intros Hx; inv Hx). }
  apply Forall_cons in Ha as [Hao Ha]. unfold addresses in Hao.
  assert (Forall (addresses (Zlength (put_data reqs o))) os) as Ha' by (by rewrite Zlength_put_data).
  destruct (decide (or_reqIdx o = Z.of_nat j)) as [Heq|Hne].
  - rewrite (IH _ (with_data d r)); [|done| |intros; apply Hd; [by right|done]].
    + rewrite (bool_decide_eq_true_2 (Exists _ (o :: os))) by (by left). by destruct (bool_decide _).
    + unfold put_data. rewrite Heq, Nat2Z.id, list_lookup_alter_eq, Hr. simpl. by rewrite (Hd o (ltac:(by left)) Heq).
  - rewrite (IH _ r); [|done| |intros; apply Hd; [by right|done]].
    + f_equal. erewrite bool_decide_ext; [done|]. rewrite Exists_cons. split; [by right|by intros [?|?]].
    + unfold put_data. by rewrite list_lookup_alter_ne by lia.
Qed.

End grouping.

(** One address, one data: what content addressing gives. *)
Definition consistent (cs : list (addr * list byte)) : Prop :=
  forall h d d', (h, d) ∈ cs -> (h, d') ∈ cs -> d = d'.

(** A request after [getMany]: an unfound one that the table holds is found
    and has its data. *)
Definition get_answer (cs : list (addr * list byte)) (r : getRecord) : getRecord :=
  if gr_found r then r else
  match (list_to_map cs : gmap addr (list byte)) !! gr_a r with
  | Some d => MkGet (gr_a r) (gr_prefix r) (gr_order r) true (Some d)
  | None => r
  end.

Lemma list_to_map_consistent cs h d : consistent cs -> (h, d) ∈ cs -> (list_to_map cs : gmap addr (list byte)) !! h = Some d.
Proof.
  intros Hc Hin. destruct ((list_to_map cs : gmap addr (list byte)) !! h) as [d'|] eqn:E.
  - f_equal. apply elem_of_list_to_map_2 in E. by eapply Hc.
  - apply not_elem_of_list_to_map_2 in E. destruct E. apply list_elem_of_fmap. by exists (h, d).
Qed.

Lemma get_answer_served `{Snappy} cs (reqs : list getRecord) ors os j r : consistent cs -> ors_spec (cs := cs) 0 reqs ors -> os ≡ₚ ors ->
  reqs !! j = Some r ->
  foldl (put_data (cs := cs)) (found_answer (cs := cs) <$> reqs) os !! j = Some (get_answer cs r).
Proof.
  intros Hcons [Hs Hc] Hperm Hj.
  assert (Forall (addresses (Zlength (found_answer (cs := cs) <$> reqs))) os) as Ha.
  { apply Forall_forall. intros o Ho. rewrite Hperm in Ho. destruct (Hs o Ho) as (k & req & Hk & _ & Hi & _).
    apply lookup_lt_Some in Hk. unfold addresses, Zlength. rewrite length_fmap. lia. }
  assert (forall o, o ∈ os -> or_reqIdx o = Z.of_nat j -> gr_found r = false /\ (gr_a r, chunk_at (cs := cs) o) ∈ cs) as Hat.
  { intros o Ho Hi. rewrite Hperm in Ho. destruct (Hs o Ho) as (k & req & Hk & Hf & Hi' & i & Hord & [d Hd] & _).
    assert (k = j) as -> by lia. rewrite Hj in Hk. injection Hk as <-. split; [done|].
    unfold chunk_at. rewrite Hord, Nat2Z.id, Hd. by eapply list_elem_of_lookup_2. }
  rewrite (put_all_lookup _ _ j (found_answer (cs := cs) r) (default [] ((list_to_map cs : gmap addr (list byte)) !! gr_a r)) Ha).
  - f_equal. unfold get_answer. destruct (gr_found r) eqn:Ef.
    + rewrite bool_decide_eq_false_2.
      * unfold found_answer. rewrite Ef. destruct r; simpl in *; by subst.
      * intros (o & Ho & Hi)%Exists_exists. destruct (Hat o Ho Hi). congruence.
    + destruct ((list_to_map cs : gmap addr (list byte)) !! gr_a r) as [d|] eqn:E.
      * assert (gr_a r ∈ cs.*1) as Hin.
        { apply elem_of_list_to_map_2 in E. apply list_elem_of_fmap. by exists (gr_a r, d). }
        rewrite bool_decide_eq_true_2.
        -- unfold with_data, found_answer. simpl. rewrite bool_decide_eq_true_2 by done. by rewrite orb_true_r.
        -- apply Exists_exists. destruct (Hc j r Hj Ef Hin) as (o & Ho & Hi). exists o. rewrite Hperm. split; [done|lia].
      * apply not_elem_of_list_to_map_2 in E. rewrite bool_decide_eq_false_2; [by apply found_answer_absent|].
        intros (o & Ho & Hi)%Exists_exists. destruct (Hat o Ho Hi) as [_ Hin]. apply E, list_elem_of_fmap. by exists (gr_a r, chunk_at (cs := cs) o).
  - by rewrite list_lookup_fmap, Hj.
  - intros o Ho Hi. destruct (Hat o Ho Hi) as [_ Hin]. by rewrite (list_to_map_consistent _ _ _ Hcons Hin).
Qed.

Lemma flat_perm bs bs' : bs ≡ₚ bs' -> flat bs ≡ₚ flat bs'.
Proof. unfold flat. intros H. by rewrite H. Qed.

Lemma getMany_plan_reads `{Snappy} `{GoSort} tr cs reqs : serves tr cs -> Forall get_wf reqs ->
  StronglySorted (fun x y => gr_prefix x <= gr_prefix y) reqs -> Zlength reqs < 2 ^ 32 ->
  exists bs ors, getMany_plan tr reqs = Ok (found_answer (cs := cs) <$> reqs, bs, prefix_missing (cs := cs) reqs) /\
    ors_spec (cs := cs) 0 reqs ors /\ flat bs ≡ₚ ors /\ Forall (batch_ok (cs := cs)) bs.
Proof.
  intros Hserve Hwf Hs Hlen. unfold getMany_plan.
  destruct (findOffsets_ok tr cs reqs Hserve Hwf Hs Hlen) as (ors & -> & Hors). cbn [obind].
  destruct Hserve as ([sorted IX] & [tail Htail] & Hsize).
  pose proof (go_sort_perm _ offsetRecSlice_Less ors) as Hperm.
  pose proof (go_sort_sorted _ offsetRecSlice_Less or_offset ors (fun x y => eq_refl)) as Hsort.
  destruct (group_reads_ok IX Htail Hsize (go_sort offsetRecSlice_Less ors) None) as (bs & -> & Hbs & Hflat); [|done|done|].
  { apply Forall_forall. intros o Ho. rewrite Hperm in Ho.
    destruct (ors_sound _ _ _ Hors o Ho) as (j & req & _ & _ & _ & i & Hord & [d Hd] & Hoff). by exists (gr_a req, d), i. }
  cbn [obind app] in *. exists bs, ors. split; [done|]. split; [done|]. split; [by rewrite Hflat|done].
Qed.

Lemma ors_addresses `{Snappy} cs reqs ors o n : ors_spec (cs := cs) 0 reqs ors -> n = Zlength reqs -> o ∈ ors -> addresses n o.
Proof.
  intros Hors -> Ho. destruct (ors_sound _ _ _ Hors o Ho) as (k & req & Hk & _ & Hi & _).
  apply lookup_lt_Some in Hk. unfold addresses, Zlength. lia.
Qed.

Lemma getMany_plan_ok `{Snappy} `{!SnappyLaws} `{GoSort} tr cs reqs : serves tr cs -> consistent cs -> Forall get_wf reqs ->
  StronglySorted (fun x y => gr_prefix x <= gr_prefix y) reqs -> Zlength reqs < 2 ^ 32 ->
  exists bs, getMany_plan tr reqs = Ok (found_answer (cs := cs) <$> reqs, bs, prefix_missing (cs := cs) reqs) /\
    forall bs', bs' ≡ₚ bs -> run_batches tr (found_answer (cs := cs) <$> reqs) bs' = Ok (get_answer cs <$> reqs).
Proof.
  intros Hserve Hcons Hwf Hs Hlen. destruct (getMany_plan_reads tr cs reqs Hserve Hwf Hs Hlen) as (bs & ors & Hplan & Hors & Hflat & Hbs).
  destruct Hserve as ([sorted IX] & [tail Htail] & Hsize). exists bs. split; [done|]. intros bs' Hp.
  assert (flat bs' ≡ₚ ors) as Hp'. { rewrite (flat_perm _ _ Hp). apply Hflat. }
  rewrite (run_batches_ok IX Htail Hsize).
  - f_equal. apply list_eq. intros j. rewrite (list_lookup_fmap (get_answer cs)). destruct (reqs !! j) as [r|] eqn:E.
    + simpl. by eapply get_answer_served.
    + simpl. apply lookup_ge_None. apply lookup_ge_None in E. etrans; [|exact E].
      apply Nat.eq_le_incl. transitivity (length (found_answer (cs := cs) <$> reqs)); [|by rewrite length_fmap].
      generalize (found_answer (cs := cs) <$> reqs) as l. clear. generalize (flat bs') as os.
      induction os as [|o os IH]; intros l; simpl; [done|]. rewrite IH. unfold put_data. by rewrite length_alter.
  - by rewrite Hp.
  - rewrite Hp'. apply Forall_forall. intros o Ho. eapply ors_addresses; [exact Hors|by rewrite Zlength_fmap|done].
Qed.

(** ** [extract] *)

Section extraction.
Context `{Snappy} {tr : tableReader} {sorted : list prefixIndexRec} {cs : list (addr * list byte)} {tail : list byte}.
Context (IX : indexes (tr_index tr) sorted cs) (FILE : tr_r tr = records cs ++ tail) (SIZE : Zlength (tr_r tr) < 2 ^ 63).

Lemma of_bytes_addr (a : addr) : of_bytes (be_put 8 (Prefix a) ++ Suffix a) = a.
Proof. rewrite <- addr_split. apply of_bytes_hash_bytes. Qed.

Lemma build_hashes_ok fuel k hashes : (length sorted - k = fuel)%nat -> (k <= length sorted)%nat ->
  length hashes = length cs ->
  (forall j i c, (j < k)%nat -> cs !! i = Some c -> sorted !! j = Some (rec_of i c) -> hashes !! i = Some (fst c)) ->
  build_hashes (tr_index tr) (drop k (ti_prefixes (tr_index tr))) (Z.of_nat k) hashes = Ok (cs.*1).
Proof.
  revert k hashes. induction fuel as [|fuel IH]; intros k hashes Hf Hk Hlen Hdone.
  - rewrite drop_ge by (rewrite (ix_eq _ _ _ IX); simpl; rewrite length_fmap; lia). cbn [build_hashes]. f_equal.
    apply list_eq. intros i. rewrite list_lookup_fmap. destruct (cs !! i) as [c|] eqn:Hc; simpl.
    + destruct (ix_position IX i c Hc) as [j Hj]. apply (Hdone j i c); [|done|done].
      apply lookup_lt_Some in Hj. lia.
    + apply lookup_ge_None in Hc. apply lookup_ge_None. lia.
  - destruct (lookup_lt_is_Some_2 sorted k) as [r Hr]; [lia|].
    rewrite (drop_S _ (pi_prefix r)) by (by rewrite (ix_prefix_lookup IX), Hr). cbn [build_hashes].
    rewrite (index_ordinal IX k r Hr). cbn [obind].
    destruct (ix_sorted_lookup IX k r Hr) as (i & c & Hc & ->). cbn [pi_order pi_prefix rec_of].
    rewrite (slice_suffix IX i c Hc). cbn [obind]. rewrite of_bytes_addr.
    pose proof (lookup_lt_Some _ _ _ Hc) as Hi.
    unfold set_index. rewrite (proj2 (Z.leb_le _ _)), (proj2 (Z.ltb_lt _ _)) by (unfold Zlength; lia). cbn [andb obind].
    rewrite Nat2Z.id. replace (Z.of_nat k + 1) with (Z.of_nat (S k)) by lia.
    apply IH; [lia|lia|by rewrite length_insert|]. intros j i' c' Hj Hc' Hj'.
    destruct (decide (i' = i)) as [->|Hne].
    + rewrite list_lookup_insert_eq by lia. congruence.
    + rewrite list_lookup_insert_ne by done. apply (Hdone j); [|done|done].
      destruct (decide (j = k)) as [->|]; [|lia]. rewrite Hr in Hj'. injection Hj' as ??. lia.
Qed.

Definition extracted (c : addr * list byte) : extractRecord := MkExtract (fst c) (Some (snd c)).

Lemma sendChunk_ok `{!SnappyLaws} buff i c : slice (tr_r tr) 0 (Zlength (records cs)) = Ok buff ->
  cs !! i = Some c -> sendChunk tr (cs.*1) buff 0 (Z.of_nat i) = Ok (extracted c).
Proof.
  intros Hbuff Hc. unfold sendChunk. rewrite (index_offset IX i c Hc), (index_length IX i c Hc). cbn [obind].
  rewrite (index_lookup _ _ (fst c)); [|lia|by rewrite Nat2Z.id, list_lookup_fmap, Hc]. cbn [obind].
  pose proof (offset_of_end i c Hc). pose proof (offset_of_nonneg (cs := cs) i). pose proof (record_size_pos (snd c)).
  pose proof (file_size FILE SIZE). assert (2 ^ 63 < 2 ^ 64) by done.
  rewrite Z.sub_0_r, (u64_small (offset_of i)), u64_small by lia.
  rewrite (slice_slice _ _ _ _ _ _ Hbuff) by lia. rewrite !Z.add_0_l. rewrite FILE.
  rewrite (slice_record i c tail Hc). cbn [obind].
  pose proof (Forall_lookup_1 _ _ _ _ (ix_fits _ _ _ IX) Hc) as (Hne & Hmax & Hsz).
  rewrite parseChunk_record; [done|done|rewrite Zlength_record_bytes; lia].
Qed.

Lemma send_all_ok `{!SnappyLaws} buff is' out : slice (tr_r tr) 0 (Zlength (records cs)) = Ok buff ->
  Forall2 (fun i c => cs !! i = Some c) is' out ->
  send_all tr (cs.*1) buff 0 (Z.of_nat <$> is') = Ok (extracted <$> out).
Proof.
  intros Hbuff. induction 1 as [|i c is' out Hc _ IH]; [done|]. cbn [fmap list_fmap send_all].
  rewrite (sendChunk_ok buff i c Hbuff Hc). cbn [obind]. by rewrite IH.
Qed.

Lemma seq_lookups {A} (l : list A) : Forall2 (fun i c => l !! i = Some c) (seq 0 (length l)) l.
Proof. apply Forall2_same_length_lookup. split; [apply length_seq|]. intros i x y [-> _]%lookup_seq Hy. done. Qed.

Lemma seq_reverse n : (fun k => Z.of_nat n - Z.of_nat k) <$> seq 1 n = Z.of_nat <$> reverse (seq 0 n).
Proof.
  apply list_eq. intros i. rewrite !list_lookup_fmap. destruct (decide (i < n)%nat) as [Hi|Hi].
  - rewrite reverse_lookup by (rewrite length_seq; lia). rewrite length_seq, !lookup_seq_lt by lia. simpl. f_equal. lia.
  - rewrite !lookup_ge_None_2; [done|rewrite length_reverse, length_seq; lia|rewrite length_seq; lia].
Qed.

Lemma extract_ok `{!SnappyLaws} order : cs <> [] ->
  extract tr order = Ok (extracted <$> match order with InsertOrder => cs | ReverseOrder => reverse cs end).
Proof.
  intros Hne. unfold extract.
  pose proof (ix_length IX) as Hlen. pose proof (ix_count _ _ _ IX) as Hcnt. unfold Zlength in Hcnt.
  pose proof (build_hashes_ok (length sorted) 0 (replicate (length (ti_prefixes (tr_index tr))) emptyHash)) as Hbh.
  rewrite drop_0 in Hbh. change (Z.of_nat 0) with 0 in Hbh.
  rewrite Hbh; [|lia|lia|by rewrite length_replicate, (ix_eq _ _ _ IX); simpl; rewrite length_fmap|lia]. cbn [obind]. rewrite (ix_chunkCount IX). unfold Zlength at 1 2.
  destruct (last cs) as [c|] eqn:Hl; [|by apply last_None in Hl].
  rewrite last_lookup in Hl. pose proof (lookup_lt_Some _ _ _ Hl) as Hlt.
  rewrite u32_small by lia. replace (Z.of_nat (length cs) - 1) with (Z.of_nat (pred (length cs))) by lia.
  rewrite (index_offset IX _ c Hl), (index_length IX _ c Hl). cbn [obind].
  destruct (lookup_lt_is_Some_2 cs 0) as [c0 Hc0]; [lia|].
  pose proof (index_offset IX 0 c0 Hc0) as Hoff0. change (Z.of_nat 0) with 0 in Hoff0. rewrite Hoff0. cbn [obind].
  change (offset_of 0) with 0. rewrite <- (offset_of_succ _ c Hl).
  replace (S (pred (length cs))) with (length cs) by lia.
  assert (offset_of (cs := cs) (length cs) = Zlength (records cs)) as -> by (unfold offset_of; by rewrite firstn_all).
  pose proof (file_size FILE SIZE). pose proof (Zlength_nonneg (records cs)). assert (2 ^ 63 < 2 ^ 64) by done.
  rewrite u64_small by lia. unfold ReadAt. rewrite Z.add_0_l.
  destruct (slice (tr_r tr) 0 (Zlength (records cs))) as [buff|] eqn:E; cbn [obind].
  - unfold Zlength at 1 2 3. rewrite Nat2Z.id. destruct order.
    + by apply send_all_ok, seq_lookups.
    + rewrite seq_reverse. by apply send_all_ok, Forall2_reverse, seq_lookups.
  - rewrite slice_ok in E; [done|lia|]. rewrite FILE, Zlength_app. pose proof (Zlength_nonneg tail). lia.
Qed.

End extraction.

(** ** [calcReads] counts the reads of [getMany] *)

Section estimate.
Context `{Snappy} {tr : tableReader} {sorted : list prefixIndexRec} {cs : list (addr * list byte)}.
Context (IX : indexes (tr_index tr) sorted cs).
Abbreviation ti := (tr_index tr).

Lemma ix_ordinals_NoDup : NoDup (ti_ordinals ti).
Proof.
  rewrite (ix_eq _ _ _ IX). simpl. rewrite (ix_perm _ _ _ IX). unfold recs. rewrite fmap_imap.
  apply NoDup_alt. intros i j z Hi Hj. rewrite list_lookup_imap in Hi, Hj.
  destruct (cs !! i), (cs !! j); simpl in *; try done. injection Hi as <-. injection Hj as Hj. lia.
Qed.

Lemma offsets_from_sub fuel i a k new :
  offsets_from fuel ti i (Prefix a) a (Z.of_nat (length sorted)) (Z.of_nat k) = Ok new ->
  or_ordinal <$> new `sublist_of` drop k (ti_ordinals ti) /\
  Forall (fun o => or_reqIdx o = u32 i /\ exists n, or_ordinal o = Z.of_nat n /\ at_ordinal (cs := cs) a n) new.
Proof.
  revert k new. induction fuel as [|fuel IH]; intros k new; cbn [offsets_from]; [done|].
  pose proof (ix_count _ _ _ IX) as Hcnt. pose proof (ix_length IX) as Hlen. unfold Zlength in Hcnt.
  destruct (Z.of_nat k <? Z.of_nat (length sorted)) eqn:E; bool_lia.
  2: { intros [= <-]. split; [apply sublist_nil_l|done]. }
  destruct (lookup_lt_is_Some_2 sorted k) as [r Hr]; [lia|]. rewrite (index_prefix IX k r Hr). cbn [obind].
  destruct (Prefix a =? pi_prefix r) eqn:E2; bool_lia.
  2: { intros [= <-]. split; [apply sublist_nil_l|done]. }
  destruct (match_at IX k r a Hr (eq_sym E2)) as (n & c & Hc & -> & -> & Hm). cbn [obind]. rewrite Hm. cbn [obind].
  rewrite u32_small by lia. replace (Z.of_nat k + 1) with (Z.of_nat (S k)) by lia.
  destruct (offsets_from _ _ _ _ _ _ _) as [rest|] eqn:Er; cbn [obind]; [|done].
  destruct (IH _ _ Er) as [Hsub Hall].
  rewrite (drop_S _ (Z.of_nat n)) by (by rewrite (ix_ordinal_lookup IX), Hr). case_bool_decide as Heq.
  - rewrite (index_offset IX n c Hc). cbn [obind]. intros [= <-]. split; [by apply sublist_skip|].
    constructor; [|done]. split; [done|]. exists n. split; [done|]. exists (snd c). rewrite Hc. by destruct c; subst.
  - intros [= <-]. split; [by apply sublist_cons|done].
Qed.

(** With distinct addresses a request has at most one location. *)
Lemma offsets_from_one fuel i a k new : NoDup (cs.*1) ->
  offsets_from fuel ti i (Prefix a) a (Z.of_nat (length sorted)) (Z.of_nat k) = Ok new ->
  new = [] \/ exists o, new = [o] /\ or_reqIdx o = u32 i.
Proof.
  intros Hnd [Hsub Hall]%offsets_from_sub.
  assert (NoDup (or_ordinal <$> new)) as Hn.
  { eapply sublist_NoDup; [|exact Hsub]. eapply sublist_NoDup; [apply ix_ordinals_NoDup|]. apply sublist_drop. }
  destruct new as [|o [|o' new]]; [by left|right|].
  - exists o. split; [done|]. by inv Hall; destruct_and?.
  - exfalso. apply Forall_cons in Hall as [(_ & n & Hn1 & [d Hd]) [(_ & n' & Hn2 & [d' Hd']) _]%Forall_cons].
    assert (n = n') as <-.
    { apply (NoDup_lookup cs.*1 n n' a Hnd); by rewrite list_lookup_fmap, ?Hd, ?Hd'. }
    cbn [fmap list_fmap] in Hn. apply NoDup_cons in Hn as [Hx _]. apply Hx. rewrite Hn1, <- Hn2. by left.
Qed.

Lemma advance_filter_nonneg fuel p n z k' : 0 <= z -> advance_filter fuel ti p n z = Ok k' -> 0 <= k'.
Proof.
  revert z. induction fuel as [|f IH]; intros z Hz; cbn [advance_filter]; [done|].
  destruct (z <? n); [|by intros [= <-]]. destruct (index _ _) as [q|]; cbn [obind]; [|done].
  destruct (q <? p); [|by intros [= <-]]. apply IH. unfold u32. apply Z.mod_pos_bound. lia.
Qed.

Lemma findOffsets_loop_NoDup reqs i k rem rs ors rem' : NoDup (cs.*1) -> Forall get_wf reqs ->
  0 <= i -> i + Zlength reqs < 2 ^ 32 ->
  findOffsets_loop ti (Z.of_nat (length sorted)) reqs i (Z.of_nat k) rem = Ok (rs, ors, rem') ->
  NoDup (or_reqIdx <$> ors) /\ Forall (fun o => i <= or_reqIdx o) ors.
Proof.
  intros Hnd. revert i k rem rs ors rem'. induction reqs as [|r reqs IH]; intros i k rem rs ors rem' Hwf Hi Hlen; cbn [findOffsets_loop].
  { intros [= <- <- <-]. split; [apply NoDup_nil_2|done]. }
  apply Forall_cons in Hwf as [Hr Hwf]. rewrite Zlength_cons in Hlen. pose proof (Zlength_nonneg reqs).
  assert (forall k rem rs ors rem', findOffsets_loop ti (Z.of_nat (length sorted)) reqs (i + 1) (Z.of_nat k) rem = Ok (rs, ors, rem') ->
    NoDup (or_reqIdx <$> ors) /\ Forall (fun o => i + 1 <= or_reqIdx o) ors) as IH'.
  { intros ????? Hl. eapply (IH (i + 1)); [done|lia|lia|done]. }
  clear IH. assert (forall os, Forall (fun o => i + 1 <= or_reqIdx o) os -> Forall (fun o => i <= or_reqIdx o) os) as Hmono.
  { intros os Hos. eapply Forall_impl; [exact Hos|]. simpl. intros. lia. }
  destruct (gr_found r).
  { destruct (findOffsets_loop _ _ _ _ _ _) as [[[rs' ors'] rem'']|] eqn:El; cbn [obind]; [|done].
    intros [= <- <- <-]. destruct (IH' _ _ _ _ _ El). auto. }
  destruct (advance_filter _ _ _ _ _) as [k'|] eqn:Ea; cbn [obind]; [|done].
  assert (exists q, k' = Z.of_nat q) as [q ->].
  { apply advance_filter_nonneg in Ea; [|lia]. exists (Z.to_nat k'). lia. }
  destruct (_ <=? _); [intros [= <- <- <-]; split; [apply NoDup_nil_2|done]|].
  destruct (index _ _) as [p|]; cbn [obind]; [|done]. destruct (negb _).
  { destruct (findOffsets_loop _ _ _ _ _ _) as [[[rs' ors'] rem'']|] eqn:El; cbn [obind]; [|done].
    intros [= <- <- <-]. destruct (IH' _ _ _ _ _ El). auto. }
  rewrite Hr. destruct (offsets_from _ _ _ _ _ _ _) as [new|] eqn:Eo; cbn [obind]; [|done].
  destruct (findOffsets_loop _ _ _ _ _ _) as [[[rs' ors'] rem'']|] eqn:El; cbn [obind]; [|done].
  intros [= <- <- <-]. destruct (IH' _ _ _ _ _ El) as [Hn Hf].
  destruct (offsets_from_one _ _ _ _ _ Hnd Eo) as [->|(o & -> & Ho)]; [auto|].
  cbn [app fmap list_fmap]. rewrite u32_small in Ho by lia. split.
  - apply NoDup_cons. split; [|done]. intros (o' & Heq & Hin)%list_elem_of_fmap.
    rewrite Forall_forall in Hf. specialize (Hf o' Hin). lia.
  - constructor; [lia|auto].
Qed.

(** The requests once all of [os] were counted as read. *)
Definition marks (reqs : list getRecord) (os : list offsetRec) : list getRecord :=
  foldl (fun rs o => alter satisfied (Z.to_nat (or_reqIdx o)) rs) reqs os.
Definition pending (reqs : list getRecord) (o : offsetRec) : Prop :=
  exists r, index reqs (or_reqIdx o) = Ok r /\ gr_data r = None.

Lemma mark_ok reqs o : pending reqs o -> mark reqs (or_reqIdx o) = Ok (marks reqs [o]).
Proof. intros (r & Hr & _). unfold mark. rewrite Hr. cbn [obind]. by rewrite (set_index_alter _ _ _ satisfied Hr). Qed.

Lemma pending_other reqs o o' : pending reqs o' -> or_reqIdx o <> or_reqIdx o' -> 0 <= or_reqIdx o -> pending (marks reqs [o]) o'.
Proof.
  intros (r & [Hi Hr]%index_Ok & Hd) Hne Ho. exists r. split; [|done]. apply index_lookup; [lia|].
  simpl. by rewrite list_lookup_alter_ne by lia.
Qed.

Lemma pending_marked reqs o os : pending reqs o -> o ∈ os ->
  exists r, index (marks reqs os) (or_reqIdx o) = Ok r /\ is_nil (gr_data r) = false.
Proof.
  intros (r & [Hi Hr]%index_Ok & _) Hin.
  assert (forall os reqs, (exists r, reqs !! Z.to_nat (or_reqIdx o) = Some r /\ (o ∈ os \/ is_nil (gr_data r) = false)) ->
    exists r, marks reqs os !! Z.to_nat (or_reqIdx o) = Some r /\ is_nil (gr_data r) = false) as Hgen.
  { clear. induction os as [|x os IH]; intros reqs (r & Hr & Hor).
    - exists r. split; [done|]. by destruct Hor as [?%elem_of_nil|].
    - apply IH. destruct (decide (Z.to_nat (or_reqIdx x) = Z.to_nat (or_reqIdx o))) as [Heq|Hne].
      + exists (satisfied r). rewrite Heq, list_lookup_alter_eq, Hr. split; [done|by right].
      + exists r. rewrite list_lookup_alter_ne by done. split; [done|].
        destruct Hor as [[->|]%elem_of_cons|]; [done|by left|by right]. }
  destruct (Hgen os reqs) as (r' & Hr' & Hd); [by eauto|]. exists r'. split; [|done]. apply index_lookup; [lia|done].
Qed.

Lemma marks_app reqs a b : marks reqs (a ++ b) = marks (marks reqs a) b.
Proof. apply foldl_app. Qed.

Lemma pending_nonneg reqs o : pending reqs o -> 0 <= or_reqIdx o.
Proof. intros (r & [Hi _]%index_Ok & _). lia. Qed.

Lemma pending_marks reqs os post : Forall (pending reqs) (os ++ post) -> NoDup (or_reqIdx <$> os ++ post) ->
  Forall (pending (marks reqs os)) post.
Proof.
  revert reqs. induction os as [|o os IH]; intros reqs Hp Hn; [done|]. simpl in Hp, Hn.
  apply Forall_cons in Hp as [Ho Hp]. apply NoDup_cons in Hn as [Hx Hn].
  change (marks reqs (o :: os)) with (marks (marks reqs [o]) os). apply IH; [|done].
  apply Forall_forall. intros o' Ho'. apply pending_other; [by eapply Forall_forall in Hp| |by eapply pending_nonneg].
  intros Heq. apply Hx. rewrite Heq. apply list_elem_of_fmap. by exists o'.
Qed.

Definition sized (o : offsetRec) : Prop := exists l, index (ti_lengths ti) (or_ordinal o) = Ok l.
Abbreviation scan := (scan_ahead tr (tr_blockSize tr) (tr_maxReadSize tr) (tr_readAmpThresh tr)).
Abbreviation calc := (calcReads_loop tr (tr_blockSize tr) (tr_maxReadSize tr) (tr_readAmpThresh tr)).

(** The read-ahead scan takes the locations that [getMany] adds to its open batch. *)
Lemma scan_ahead_group ors : forall reqs b amp, Forall (pending reqs) ors -> NoDup (or_reqIdx <$> ors) -> Forall sized ors ->
  exists pre post e, ors = pre ++ post /\ scan (rb_start b) reqs ors (rb_end b) amp = Ok (marks reqs pre) /\
    group_reads tr ors (Some (b, amp)) =
      let! bs := group_reads tr post None in Ok (MkBatch (rb_start b) e (rb_recs b ++ pre) :: bs).
Proof.
  induction ors as [|o ors IH]; intros reqs b amp Hp Hn Hs; cbn [scan_ahead group_reads].
  { exists [], [], (rb_end b). simpl. rewrite app_nil_r. by destruct b. }
  pose proof (pending_marks reqs [o] ors Hp Hn) as Hp'.
  apply Forall_cons in Hp as [Ho Hp]. apply Forall_cons in Hs as [[l Hl] Hs]. rewrite Hl.
  pose proof (mark_ok reqs o Ho) as Hm. destruct Ho as (r & Hr & Hd). rewrite Hr. cbn [obind]. rewrite Hd. cbn [is_nil negb].
  destruct (canReadAhead _ _ _ _ _ _ _ _) as [[e' a'] [|]] eqn:E.
  - rewrite Hm. cbn [obind]. apply NoDup_cons in Hn as [_ Hn].
    destruct (IH (marks reqs [o]) (MkBatch (rb_start b) e' (rb_recs b ++ [o])) a' Hp' Hn Hs) as (pre & post & e & -> & Hscan & Hgr).
    exists (o :: pre), post, e. split; [done|]. cbn [rb_start rb_end rb_recs] in *. rewrite Hscan. split; [done|].
    rewrite Hgr, <- app_assoc. done.
  - exists [], (o :: ors), (rb_end b). split; [done|]. split; [done|].
    cbn [group_reads]. rewrite Hl. cbn [obind]. rewrite app_nil_r. by destruct b.
Qed.

Lemma calcReads_skip reqs pre post reads : 
  Forall (fun o => exists r, index reqs (or_reqIdx o) = Ok r /\ is_nil (gr_data r) = false) pre ->
  calc reqs (pre ++ post) reads = calc reqs post reads.
Proof. induction 1 as [|o pre (r & Hr & Hd) _ IH]; [done|]. cbn [app calcReads_loop]. rewrite Hr. cbn [obind]. by rewrite Hd. Qed.

Lemma calcReads_loop_ok n ors : forall reqs bs reads, (length ors <= n)%nat -> Forall (pending reqs) ors ->
  NoDup (or_reqIdx <$> ors) -> Forall sized ors -> group_reads tr ors None = Ok bs ->
  calc reqs ors reads = Ok (marks reqs ors, reads + Zlength bs).
Proof.
  revert ors. induction n as [|n IH]; intros ors reqs bs reads Hlen Hp Hn Hs Hg.
  { destruct ors; [|simpl in Hlen; lia]. injection Hg as <-. cbn [calcReads_loop]. rewrite Z.add_0_r. done. }
  destruct ors as [|o ors]; cbn [calcReads_loop]; [injection Hg as <-; by rewrite Z.add_0_r|].
  pose proof (pending_marks reqs [o] ors Hp Hn) as Hp'. pose proof Hp as Hpall. pose proof Hn as Hnall.
  apply Forall_cons in Hp as [Ho Hp]. apply Forall_cons in Hs as [[l Hl] Hs].
  pose proof (mark_ok reqs o Ho) as Hm. destruct Ho as (r & Hr & Hd). rewrite Hr. cbn [obind]. rewrite Hd. cbn [is_nil negb].
  rewrite Hm, Hl. cbn [obind]. cbn [group_reads] in Hg. rewrite Hl in Hg. cbn [obind] in Hg.
  apply NoDup_cons in Hn as [_ Hn].
  destruct (scan_ahead_group ors (marks reqs [o]) (MkBatch (or_offset o) (u64 (or_offset o + l)) [o]) 0 Hp' Hn Hs)
    as (pre & post & e & -> & Hscan & Hgr). cbn [rb_start rb_end] in Hscan. rewrite Hscan. cbn [obind].
  rewrite Hg in Hgr. destruct (group_reads tr post None) as [bs'|] eqn:Epost; cbn [obind] in Hgr; [|done]. injection Hgr as ->.
  change (marks (marks reqs [o]) pre) with (marks reqs (o :: pre)). rewrite calcReads_skip.
  - rewrite (IH post _ bs').
    + rewrite <- marks_app, <- app_comm_cons, Zlength_cons. f_equal. f_equal. lia.
    + simpl in Hlen. rewrite length_app in Hlen. lia.
    + by apply (pending_marks reqs (o :: pre) post).
    + rewrite app_comm_cons, fmap_app in Hnall. by apply NoDup_app in Hnall as (_ & _ & ?).
    + by apply Forall_app in Hs as [_ ?].
    + done.
  - apply Forall_forall. intros o' Ho'. apply pending_marked; [|by right].
    rewrite Forall_forall in Hpall. apply Hpall. right. apply elem_of_app. by left.
Qed.

End estimate.

Lemma calcReads_ok `{Snappy} `{!SnappyLaws} `{GoSort} tr cs reqs : serves tr cs -> NoDup (cs.*1) -> Forall get_wf reqs ->
  StronglySorted (fun x y => gr_prefix x <= gr_prefix y) reqs -> Zlength reqs < 2 ^ 32 ->
  Forall (fun r => gr_data r = None) reqs ->
  exists reqs' bs rem, getMany_plan tr reqs = Ok (found_answer (cs := cs) <$> reqs, bs, rem) /\
    calcReads tr reqs (tr_blockSize tr) (tr_maxReadSize tr) (tr_readAmpThresh tr) = Ok (reqs', Zlength bs, rem).
Proof.
  intros Hserve Hnd Hwf Hs Hlen Hdata. unfold getMany_plan, calcReads.
  destruct (findOffsets_ok tr cs reqs Hserve Hwf Hs Hlen) as (ors & Hfind & Hors). rewrite Hfind. cbn [obind].
  destruct Hserve as ([sorted IX] & [tail Htail] & Hsize).
  assert (NoDup (or_reqIdx <$> ors)) as Hndo.
  { unfold findOffsets in Hfind. rewrite (filterLen_ok _ _ _ IX) in Hfind.
    eapply (findOffsets_loop_NoDup IX reqs 0 0 false) in Hfind; [|done|done|lia|lia]. by destruct Hfind. }
  pose proof (go_sort_perm _ offsetRecSlice_Less ors) as Hperm.
  pose proof (go_sort_sorted _ offsetRecSlice_Less or_offset ors (fun x y => eq_refl)) as Hsort.
  assert (Forall (fun o => exists c, locates (cs := cs) o c) (go_sort offsetRecSlice_Less ors)) as Hloc.
  { apply Forall_forall. intros o Ho. rewrite Hperm in Ho.
    destruct (ors_sound _ _ _ Hors o Ho) as (j & req & _ & _ & _ & i & Hord & [d Hd] & Hoff). by exists (gr_a req, d), i. }
  destruct (group_reads_ok IX Htail Hsize (go_sort offsetRecSlice_Less ors) None) as (bs & Hbs & _); [done|done|done|].
  rewrite Hbs. cbn [obind]. eexists _, bs, _. split; [done|].
  rewrite (calcReads_loop_ok (length (go_sort offsetRecSlice_Less ors)) _ _ bs); [done|done| | | |done].
  - apply Forall_forall. intros o Ho. rewrite Hperm in Ho.
    destruct (ors_sound _ _ _ Hors o Ho) as (j & req & Hj & _ & Hi & _). exists (found_answer (cs := cs) req). split.
    + apply index_lookup; [lia|]. rewrite Hi, Z.add_0_l, Nat2Z.id, list_lookup_fmap, Hj. done.
    + simpl. by eapply (Forall_lookup_1 _ _ _ _ Hdata).
  - by rewrite Hperm.
  - eapply Forall_impl; [exact Hloc|]. intros o [c Hc]. eexists. by apply (locates_length IX o c).
Qed.

End NbsReaderFacts.

Import NbsReaderFacts.

Section written_tables.
Context `{Snappy} `{!SnappyLaws} `{GoSort}.

(** Writing a table into a buffer: its name and its bytes. *)
Definition write_table (buff : list byte) (cs : list (addr * list byte)) : outcome (addr * list byte) :=
  let! tw := addChunks cs (newTableWriter buff) in
  let! (tw, byteLength, name) := finish tw in
  let! data := slice (tw_buff tw) 0 byteLength in
  Ok (name, data).

(** A list of chunks a table can hold. *)
Record tableable (cs : list (addr * list byte)) : Prop := {
  ta_nonempty : cs <> [];
  ta_fits : Forall chunk_fits cs;
  ta_count : Zlength cs < 2 ^ 32;
  ta_data : total_data cs < 2 ^ 62
}.

Lemma write_table_bytes buff cs : Zlength buff < 2 ^ 63 -> Forall chunk_fits cs -> Zlength cs < 2 ^ 32 ->
  fits_in (Zlength buff) cs -> Zlength (records cs) + 28 * Zlength cs + footerSize <= Zlength buff ->
  write_table buff cs = Ok (table_name cs, table_bytes cs).
Proof.
  intros Hb Hf Hc Hfit Hroom. unfold write_table.
  destruct (write_table_ok buff cs Hb Hf Hc Hfit Hroom) as (tw & tw' & rest & -> & Hfin & Hbuff). cbn [obind].
  rewrite Hfin. cbn [obind]. rewrite Hbuff.
  pose proof (slice_app [] (table_bytes cs) rest 0 (Zlength (table_bytes cs)) eq_refl eq_refl) as Hs. cbn [app] in Hs.
  by rewrite Hs.
Qed.

Lemma Zlength_table_bytes cs : Zlength (table_bytes cs) = Zlength (records cs) + 28 * Zlength cs + footerSize.
Proof.
  unfold table_bytes, footer_bytes. rewrite !Zlength_app, !Zlength_be_put.
  rewrite Zlength_index_bytes by apply go_sort_perm. change (Zlength magicNumber) with 8. change footerSize with 20.
  lia.
Qed.

(** A parsed table serves the chunks it was written for. *)
Lemma table_serves cs : cs <> [] -> Forall chunk_fits cs -> Zlength cs < 2 ^ 32 -> Zlength (table_bytes cs) < 2 ^ 63 ->
  exists ti, parseTableIndex (table_bytes cs) = Ok ti /\
    forall b m a, serves (newTableReader ti (table_bytes cs) b m a) cs.
Proof.
  intros Hne Hf Hc Hb. eexists. split; [by apply parse_table_ok|].
  intros b m a. split; [|split; [by eexists|done]].
  exists (go_sort prefixIndexSlice_Less (recs cs)). split; [done|apply go_sort_perm| |done|done].
  apply (go_sort_sorted _ prefixIndexSlice_Less pi_prefix). done.
Qed.

End written_tables.

(** ** Theorems *)

(** C11: a written table gives back its chunks.  A buffer of the size that
    [maxTableSize] computes is enough to write any table-sized list of chunks
    (the writer never runs out of it, nor does snappy leave it); the bytes parse,
    and the reader's [has] and [get] answer for every address exactly as the list
    does, for all thresholds of the reader. *)
Theorem table_write_read `{Snappy} `{!SnappyLaws} `{!SnappySlack} `{GoSort} (cs : list (addr * list byte)) (size : Z) (buff : list byte) :
  tableable cs -> maxTableSize (Zlength cs) (total_data cs) = Ok size -> Zlength buff = size ->
  exists name data ti, write_table buff cs = Ok (name, data) /\ parseTableIndex data = Ok ti /\
    forall blockSize maxReadSize readAmpThresh h,
      let tr := newTableReader ti data blockSize maxReadSize readAmpThresh in
      has tr h = Ok (bool_decide (h ∈ cs.*1)) /\
      exists r, get tr h = Ok r /\ match r with Some d => (h, d) ∈ cs | None => h ∉ cs.*1 end.
Proof.
  intros [Hne Hf Hc Ht] Hsize <-. destruct (maxTableSize_room cs _ Hne Hf Hc Ht Hsize) as (Hs & Hfit & Hroom).
  destruct (table_serves cs Hne Hf Hc) as (ti & Hti & Hserve); [rewrite Zlength_table_bytes; lia|].
  exists (table_name cs), (table_bytes cs), ti. split; [by apply write_table_bytes|]. split; [done|].
  intros. split; [apply has_ok, Hserve|apply get_ok, Hserve].
Qed.

(** The gap in [maxTableSize].  The size is computed from the average chunk
    size rounded down; it falls short of the worst case it stands for (every
    chunk at [MaxEncodedLen], plus checksum, index and footer) by less than two
    bytes per chunk. *)
Theorem max_table_size_gap `{Snappy} (cs : list (addr * list byte)) (size : Z) :
  tableable cs -> maxTableSize (Zlength cs) (total_data cs) = Ok size ->
  worst_case cs + indexSize (Zlength cs) + footerSize < size + 2 * Zlength cs /\ size < 2 ^ 63.
Proof. intros [Hne Hf Hc Ht]. by apply maxTableSize_worst_case. Qed.

(** [hasMany] is exact.  For requests sorted by prefix, every request that
    was not already satisfied is marked exactly when the table holds its address,
    and [remaining] reports exactly whether some request is still unsatisfied. *)
Theorem table_hasMany_exact `{Snappy} (tr : tableReader) (cs : list (addr * list byte)) (addrs : list hasRecord) :
  serves tr cs -> Forall has_wf addrs -> StronglySorted (fun x y => hr_prefix x <= hr_prefix y) addrs ->
  hasMany tr addrs = Ok (has_answer (cs := cs) <$> addrs, missing (has_answer (cs := cs) <$> addrs)).
Proof. apply hasMany_ok. Qed.

(** C31: [getMany] serves every request, in any order of its reads.  The requests
    are grouped into physical reads by the read-ahead heuristic, whatever its
    thresholds; run in any order, the reads give every unfound request that the
    table holds its data and leave the others alone. *)
Theorem table_getMany_any_order `{Snappy} `{!SnappyLaws} `{GoSort} (tr : tableReader) (cs : list (addr * list byte)) (reqs : list getRecord) :
  serves tr cs -> consistent cs -> Forall get_wf reqs ->
  StronglySorted (fun x y => gr_prefix x <= gr_prefix y) reqs -> Zlength reqs < 2 ^ 32 ->
  exists reqs' bs remaining, getMany_plan tr reqs = Ok (reqs', bs, remaining) /\
    forall bs', bs' ≡ₚ bs -> run_batches tr reqs' bs' = Ok (get_answer cs <$> reqs).
Proof.
  intros Hs Hc Hw Hsort Hlen. destruct (getMany_plan_ok tr cs reqs Hs Hc Hw Hsort Hlen) as (bs & Hplan & Hrun). eauto 6.
Qed.

(** [calcReads] predicts [getMany].  With the thresholds of the reader and
    distinct addresses in the table, the estimate is the number of physical
    reads [getMany] performs for the same fresh requests, with the same
    [remaining]. *)
Theorem table_calcReads_exact `{Snappy} `{!SnappyLaws} `{GoSort} (tr : tableReader) (cs : list (addr * list byte)) (reqs : list getRecord) :
  serves tr cs -> NoDup (cs.*1) -> Forall get_wf reqs ->
  StronglySorted (fun x y => gr_prefix x <= gr_prefix y) reqs -> Zlength reqs < 2 ^ 32 ->
  Forall (fun r => gr_data r = None) reqs ->
  exists reqs1 reqs2 bs remaining, getMany_plan tr reqs = Ok (reqs1, bs, remaining) /\
    calcReads tr reqs (tr_blockSize tr) (tr_maxReadSize tr) (tr_readAmpThresh tr) = Ok (reqs2, Zlength bs, remaining).
Proof.
  intros Hs Hn Hw Hsort Hlen Hd. destruct (calcReads_ok tr cs reqs Hs Hn Hw Hsort Hlen Hd) as (r2 & bs & rem & E1 & E2). eauto 8.
Qed.

(** [extract] enumerates the table.  The chunks come out with their full
    addresses and data in insertion order, or in exactly the reverse. *)
Theorem table_extract_exact `{Snappy} `{!SnappyLaws} (tr : tableReader) (cs : list (addr * list byte)) (order : EnumerationOrder) :
  serves tr cs -> cs <> [] ->
  extract tr order = Ok ((fun c => MkExtract (fst c) (Some (snd c))) <$> match order with InsertOrder => cs | ReverseOrder => reverse cs end).
Proof. intros ([sorted IX] & [tail Htail] & Hsize) Hne. by apply (extract_ok IX Htail Hsize). Qed.

(** [findOffsets] forgets a request with a prefix twin.  When the address
    of a request is not in the table but some chunk of the table has its 8-byte
    prefix, [findOffsets] finds nothing and still reports that nothing remains,
    where [hasMany] reports the request as remaining. *)
Theorem findOffsets_forgets_prefix_twin `{Snappy} (tr : tableReader) (cs : list (addr * list byte)) (a : addr) :
  serves tr cs -> a ∉ cs.*1 -> Prefix a ∈ (fun c => Prefix (fst c)) <$> cs ->
  findOffsets tr [MkGet a (Prefix a) 0 false None] = Ok ([MkGet a (Prefix a) 0 false None], [], false) /\
  hasMany tr [MkHas a (Prefix a) 0 false] = Ok ([MkHas a (Prefix a) 0 false], true).
Proof.
  intros Hs Ha Hp. split.
  - destruct (findOffsets_ok tr cs [MkGet a (Prefix a) 0 false None] Hs) as (ors & Hf & Hors); [repeat constructor..|done|].
    rewrite Hf. unfold prefix_missing, found_answer. simpl. rewrite (bool_decide_eq_false_2 (a ∈ _)) by done.
    rewrite (bool_decide_eq_true_2 (Prefix a ∈ _)) by done. destruct ors as [|o ors]; [done|].
    destruct (ors_sound _ _ _ Hors o) as ([|[|j]] & req & Hj & _ & _ & i & _ & [d Hd] & _); [by left| |done|done].
    injection Hj as <-. destruct Ha. apply list_elem_of_fmap. exists (a, d). split; [done|]. by eapply list_elem_of_lookup_2.
  - rewrite (hasMany_ok tr cs); [|done|repeat constructor..]. unfold has_answer, missing. simpl.
    by rewrite (bool_decide_eq_false_2 (a ∈ _)) by done.
Qed.

(** ** Witnesses *)

Section sample.
Let put (s : String.string) : addr * list byte := (Of (bs s), bs s).
(** Chunks for the witnesses. *)
Definition sample_chunks : list (addr * list byte) := [put "hello"; put "noms"; put "hello hello hello"].
End sample.

Lemma sample_fits : Forall (chunk_fits (H := go_snappy)) sample_chunks.
Proof. repeat constructor; vm_compute; congruence. Qed.

#[local] Existing Instance go_snappy.
#[local] Existing Instance go_snappy_laws.
#[local] Existing Instance go_snappy_slack.
#[local] Existing Instance go_insertion_sort.

Definition sample_reader : tableReader :=
  match parseTableIndex (table_bytes sample_chunks) with
  | Ok ti => newTableReader ti (table_bytes sample_chunks) 64 4096 2
  | Panic _ => newTableReader (MkIndex 0 [] [] [] [] []) [] 0 0 0
  end.
Lemma sample_serves : serves sample_reader sample_chunks.
Proof.
  unfold sample_reader. destruct (table_serves sample_chunks) as (ti & -> & Hs); [done|apply sample_fits|by vm_compute|by vm_compute|].
  apply Hs.
Qed.

(** Two requests, one for a chunk of the table and one for an absent address. *)
Definition sample_addrs : list addr := [Of (bs "hello"); Of (bs "absent")].
Definition sample_has : list hasRecord := (fun h => MkHas h (Prefix h) 0 false) <$> sample_addrs.
Definition sample_get : list getRecord := (fun h => MkGet h (Prefix h) 0 false None) <$> sample_addrs.

Lemma sample_has_sorted : StronglySorted (fun x y => hr_prefix x <= hr_prefix y) sample_has.
Proof. repeat constructor; vm_compute; congruence. Qed.
Lemma sample_get_sorted : StronglySorted (fun x y => gr_prefix x <= gr_prefix y) sample_get.
Proof. repeat constructor; vm_compute; congruence. Qed.
Lemma sample_NoDup : NoDup (sample_chunks.*1).
Proof. apply (bool_decide_unpack _). vm_compute. exact I. Qed.
Lemma NoDup_consistent cs : NoDup (cs.*1) -> consistent cs.
Proof.
  intros Hn h d d' H1 H2. apply list_elem_of_lookup in H1 as [i Hi], H2 as [j Hj].
  assert (i = j) as <- by (apply (NoDup_lookup _ i j h Hn); rewrite list_lookup_fmap, ?Hi, ?Hj; done). congruence.
Qed.
Lemma sample_tableable : tableable sample_chunks.
Proof. split; [done|apply sample_fits|by vm_compute|by vm_compute]. Qed.

Lemma table_write_read_witness : exists name data ti,
  write_table (replicate 239 (bZ 0)) sample_chunks = Ok (name, data) /\ parseTableIndex data = Ok ti /\
  forall blockSize maxReadSize readAmpThresh h,
    let tr := newTableReader ti data blockSize maxReadSize readAmpThresh in
    has tr h = Ok (bool_decide (h ∈ sample_chunks.*1)) /\
    exists r, get tr h = Ok r /\ match r with Some d => (h, d) ∈ sample_chunks | None => h ∉ sample_chunks.*1 end.
Proof. apply (table_write_read sample_chunks 239); [apply sample_tableable|by vm_compute|by vm_compute]. Defined.

Lemma max_table_size_gap_witness :
  worst_case sample_chunks + indexSize 3 + footerSize < 239 + 2 * 3 /\ 239 < 2 ^ 63.
Proof. apply (max_table_size_gap sample_chunks 239); [apply sample_tableable|by vm_compute]. Defined.

Lemma table_hasMany_exact_witness :
  hasMany sample_reader sample_has =
  Ok (has_answer (cs := sample_chunks) <$> sample_has, missing (has_answer (cs := sample_chunks) <$> sample_has)).
Proof. apply table_hasMany_exact; [apply sample_serves|repeat constructor|apply sample_has_sorted]. Defined.

Lemma table_getMany_any_order_witness : exists reqs' bs remaining, getMany_plan sample_reader sample_get = Ok (reqs', bs, remaining) /\
  forall bs', bs' ≡ₚ bs -> run_batches sample_reader reqs' bs' = Ok (get_answer sample_chunks <$> sample_get).
Proof.
  apply table_getMany_any_order; [apply sample_serves|apply NoDup_consistent, sample_NoDup|repeat constructor|apply sample_get_sorted|by vm_compute].
Defined.

Lemma table_calcReads_exact_witness : exists reqs1 reqs2 bs remaining, getMany_plan sample_reader sample_get = Ok (reqs1, bs, remaining) /\
  calcReads sample_reader sample_get (tr_blockSize sample_reader) (tr_maxReadSize sample_reader) (tr_readAmpThresh sample_reader)
    = Ok (reqs2, Zlength bs, remaining).
Proof.
  apply (table_calcReads_exact sample_reader sample_chunks);
    [apply sample_serves|apply sample_NoDup|repeat constructor|apply sample_get_sorted|by vm_compute|repeat constructor].
Defined.

Lemma table_extract_exact_witness :
  extract sample_reader ReverseOrder = Ok ((fun c => MkExtract (fst c) (Some (snd c))) <$> reverse sample_chunks).
Proof. apply (table_extract_exact sample_reader sample_chunks ReverseOrder); [apply sample_serves|done]. Defined.

(** Addresses with one prefix. *)
Definition twin (n : Z) : addr := of_bytes (replicate 19 (bZ 7) ++ [bZ n]).
Definition twin_reader : tableReader :=
  match parseTableIndex (table_bytes [(twin 1, bs "data")]) with
  | Ok ti => newTableReader ti (table_bytes [(twin 1, bs "data")]) 64 4096 2
  | Panic _ => sample_reader
  end.
Lemma findOffsets_forgets_prefix_twin_witness :
  findOffsets twin_reader [MkGet (twin 2) (Prefix (twin 2)) 0 false None] =
    Ok ([MkGet (twin 2) (Prefix (twin 2)) 0 false None], [], false) /\
  hasMany twin_reader [MkHas (twin 2) (Prefix (twin 2)) 0 false] = Ok ([MkHas (twin 2) (Prefix (twin 2)) 0 false], true).
Proof.
  apply (findOffsets_forgets_prefix_twin twin_reader [(twin 1, bs "data")]).
  - unfold twin_reader. destruct (table_serves [(twin 1, bs "data")]) as (ti & -> & Hs);
      [done|repeat constructor; vm_compute; congruence|by vm_compute|by vm_compute|]. apply Hs.
  - apply (bool_decide_unpack _). vm_compute. exact I.
  - apply (bool_decide_unpack _). vm_compute. exact I.
Defined.
