(* ===== verification/NbsManifest.v ===== *)
(** * Package [nbs]: the manifest (src/go/nbs/manifest.go, file_manifest.go)

    The manifest names the root of the store and the tables it consists of.
    [fileManifest] keeps it in a text file that is replaced by renaming a
    temporary file while a lock file is held; the file holds what [parseManifest]
    reads back, and [Update] is a compare-and-set on the root.  The lock makes
    [Update] and [ParseIfExists] of all processes atomic, so they are functions
    on the state of the directory. *)

From S2P Require Import Prelude GoLib HashPkg Chunks SnappyPkg NbsTable.
Import Hash Chunks Nbs GoStrings.

Module Manifest.

Definition StorageVersion : list byte := bs "0".
Definition NomsVersion : list byte := bs "7".
Definition colon : byte := bZ 58.

Record tableSpec : Type := MkSpec { ts_name : addr; ts_chunkCount : Z }.
#[global] Instance tableSpec_eq_dec : EqDecision tableSpec.
Proof. solve_decision. Defined.

(** [tableInfo] is a slice of the strings to be joined: every slot is set. *)
Definition formatSpecs (specs : list tableSpec) (tableInfo : list (list byte)) : outcome (list (list byte)) :=
  let! _ := check (Nat.eqb (length tableInfo) (2 * length specs)) in
  Ok (concat ((fun t => [addr_String (ts_name t); FormatUint (ts_chunkCount t)]) <$> specs)).

(** [len(tableInfo)/2] specs. *)
Fixpoint parseSpecs (tableInfo : list (list byte)) : outcome (list tableSpec) :=
  match tableInfo with
  | name :: count :: tableInfo' =>
      let! a := ParseAddr name in
      let! c := match ParseUint32 count with Some c => Ok c | None => Panic AssertFailed end in
      let! specs := parseSpecs tableInfo' in
      Ok (MkSpec a c :: specs)
  | _ => Ok []
  end.

Definition writeManifest (root : Hash) (specs : list tableSpec) : outcome (list byte) :=
  let strs := replicate (2 * length specs + 3) [] in
  let! tableInfo := slice_from strs 3 in
  let! tableInfo := formatSpecs specs tableInfo in
  Ok (Join colon ([StorageVersion; NomsVersion; String root] ++ tableInfo)).

Definition parseManifest (manifest : list byte) : outcome (list byte * Hash * list tableSpec) :=
  let slices := Split colon manifest in
  if (length slices <? 3)%nat || Nat.eqb (length slices mod 2) 0 then Panic AssertFailed
  else
    let! s0 := index slices 0 in
    let! _ := check (bool_decide (StorageVersion = s0)) in
    let! vers := index slices 1 in
    let! s2 := index slices 2 in
    let! root := Parse s2 in
    let! tableInfo := slice_from slices 3 in
    let! specs := parseSpecs tableInfo in
    Ok (vers, root, specs).

(** The directory: is there a LOCK file, and the manifest file. *)
Record dir : Type := MkDir { d_lock : bool; d_manifest : option (list byte) }.

(** [None] is [!exists]. *)
Definition ParseIfExists (fm : dir) : outcome (option (list byte * Hash * list tableSpec)) :=
  if d_lock fm then
    match d_manifest fm with
    | None => Ok None
    | Some f => let! m := parseManifest f in Ok (Some m)
    end
  else Ok None.

(** The directory afterwards, [actual] and [tableSpecs]. *)
Definition Update (fm : dir) (specs : list tableSpec) (root newRoot : Hash) : outcome (dir * Hash * list tableSpec) :=
  let! temp := writeManifest newRoot specs in
  let! (actual, tableSpecs) :=
    match d_manifest fm with
    | Some f =>
        let! (mVers, actual, tableSpecs) := parseManifest f in
        let! _ := check (bool_decide (NomsVersion = mVers)) in
        Ok (actual, tableSpecs)
    | None =>
        let! _ := check (bool_decide (root = emptyHash)) in
        Ok (emptyHash, specs)
    end in
  if bool_decide (root = actual)
  then Ok (MkDir true (Some temp), newRoot, tableSpecs)
  else Ok (MkDir true (d_manifest fm), actual, tableSpecs).

End Manifest.
Import Manifest.

(** ** What the manifest stands for *)

Definition spec_ok (t : tableSpec) : Prop := 0 <= ts_chunkCount t < 2 ^ 32.

(** The directory holds root [r] and tables [specs], or nothing yet. *)
Definition dir_state (fm : dir) (st : option (Hash * list tableSpec)) : Prop :=
  match st with
  | None => d_manifest fm = None
  | Some (r, specs) => d_lock fm = true /\ Forall spec_ok specs /\
      exists f, d_manifest fm = Some f /\ writeManifest r specs = Ok f
  end.

Module ManifestFacts.

Lemma no_colon_base32 l : (length l mod 5 = 0)%nat -> colon ∉ Base32.EncodeToString l.
Proof.
  intros Hl Hin. pose proof (Base32Facts.Encode_alphabetic l Hl) as Ha. unfold Base32Facts.alphabetic in Ha.
  rewrite Forall_forall in Ha. specialize (Ha _ Hin). destruct Ha as [x Hx]. by vm_compute in Hx.
Qed.

Lemma no_colon_uint v : colon ∉ FormatUint v.
Proof.
  intros Hin. pose proof (GoStringsFacts.FormatUint_chars v) as H. rewrite Forall_forall in H.
  specialize (H _ Hin). destruct H as [x Hx]. by vm_compute in Hx.
Qed.

Definition info (specs : list tableSpec) : list (list byte) :=
  concat ((fun t => [addr_String (ts_name t); FormatUint (ts_chunkCount t)]) <$> specs).

Lemma length_info specs : length (info specs) = (2 * length specs)%nat.
Proof. unfold info. induction specs as [|t specs IH]; [done|]. cbn [fmap list_fmap concat app length]. rewrite IH. lia. Qed.

Lemma writeManifest_ok root specs :
  writeManifest root specs = Ok (Join colon ([StorageVersion; NomsVersion; String root] ++ info specs)).
Proof.
  unfold writeManifest. replace (2 * length specs + 3)%nat with (3 + 2 * length specs)%nat by lia.
  rewrite replicate_add, slice_from_app by done. cbn [obind]. unfold formatSpecs.
  rewrite length_replicate, Nat.eqb_refl. done.
Qed.

Lemma ParseAddr_String a : ParseAddr (addr_String a) = Ok a.
Proof.
  unfold ParseAddr, addr_String. rewrite Base32Facts.Decode_Encode by apply HashFacts.hash_mod5.
  rewrite length_hash_bytes. simpl. by rewrite of_bytes_hash_bytes.
Qed.

Lemma parseSpecs_info specs : Forall spec_ok specs -> parseSpecs (info specs) = Ok specs.
Proof.
  induction 1 as [|t specs Ht _ IH]; [done|]. unfold info in *. cbn [fmap list_fmap concat app parseSpecs].
  rewrite ParseAddr_String. cbn [obind]. rewrite GoStringsFacts.Parse_FormatUint by done. cbn [obind].
  rewrite IH. by destruct t.
Qed.

Lemma parse_write root specs f : Forall spec_ok specs -> writeManifest root specs = Ok f ->
  parseManifest f = Ok (NomsVersion, root, specs).
Proof.
  rewrite writeManifest_ok. intros Hs Hf. assert (f = Join colon ([StorageVersion; NomsVersion; String root] ++ info specs)) as -> by congruence.
  unfold parseManifest. rewrite GoStringsFacts.Split_Join.
  - rewrite length_app, length_info. replace (length _ + 2 * length specs)%nat with (3 + 2 * length specs)%nat by done.
    replace ((3 + 2 * length specs) mod 2)%nat with 1%nat.
    + cbn [orb Nat.eqb Nat.ltb Nat.leb Nat.add app]. cbn [index slice_from obind].
      change (index _ 0) with (Ok StorageVersion). cbn [obind check].
      rewrite bool_decide_eq_true_2 by done. cbn [obind].
      change (index _ 1) with (Ok NomsVersion). change (index _ 2) with (Ok (String root)). cbn [obind].
      rewrite HashFacts.Parse_String_ok. cbn [obind].
      change (StorageVersion :: _) with ([StorageVersion; NomsVersion; String root] ++ info specs).
      rewrite slice_from_app by done. cbn [obind]. by rewrite parseSpecs_info.
    + replace (3 + 2 * length specs)%nat with (1 + (1 + length specs) * 2)%nat by lia. by rewrite Nat.Div0.mod_add.
  - done.
  - repeat constructor.
    + apply (bool_decide_unpack _). by vm_compute.
    + apply (bool_decide_unpack _). by vm_compute.
    + apply no_colon_base32, HashFacts.hash_mod5.
    + unfold info. clear. induction specs as [|t specs IH]; [constructor|]. simpl.
      repeat constructor; [apply no_colon_base32, HashFacts.hash_mod5|apply no_colon_uint|done].
Qed.

(** [Update] on every branch. *)
Lemma Update_ok fm st specs root newRoot : dir_state fm st -> Forall spec_ok specs ->
  match st with
  | None => if bool_decide (root = emptyHash)
            then exists fm', Update fm specs root newRoot = Ok (fm', newRoot, specs) /\ dir_state fm' (Some (newRoot, specs))
            else Update fm specs root newRoot = Panic AssertFailed
  | Some (r, old) =>
      exists fm', dir_state fm' (if bool_decide (root = r) then Some (newRoot, specs) else st) /\
        Update fm specs root newRoot = Ok (fm', if bool_decide (root = r) then newRoot else r, old)
  end.
Proof.
  intros Hst Hs. unfold Update. rewrite writeManifest_ok. cbn [obind].
  destruct st as [[r old]|]; simpl in Hst.
  - destruct Hst as (Hlock & Hold & f & Hf & Hw). rewrite Hf, (parse_write r old f Hold Hw). cbn [obind].
    rewrite (bool_decide_eq_true_2 (NomsVersion = NomsVersion)) by done. cbn [check obind].
    destruct (bool_decide (root = r)) eqn:E.
    + eexists (MkDir true (Some _)). split; [|done]. split; [done|]. split; [done|]. eexists. split; [done|]. apply writeManifest_ok.
    + eexists (MkDir true _). split; [|done]. split; [done|]. split; [done|]. by exists f.
  - rewrite Hst. destruct (bool_decide (root = emptyHash)) eqn:E; cbn [check obind]; [|done].
    rewrite E. eexists (MkDir true (Some _)). split; [done|]. split; [done|]. split; [done|]. eexists. split; [done|]. apply writeManifest_ok.
Qed.

Lemma ParseIfExists_ok fm st : dir_state fm st ->
  ParseIfExists fm = Ok ((fun s => (NomsVersion, fst s, snd s)) <$> st).
Proof.
  intros Hst. unfold ParseIfExists. destruct st as [[r specs]|]; simpl in *.
  - destruct Hst as (-> & Hs & f & -> & Hw). rewrite (parse_write r specs f Hs Hw). done.
  - rewrite Hst. by destruct (d_lock fm).
Qed.

End ManifestFacts.
Import ManifestFacts.

(** C32: the manifest file round trip.  Whatever root and tables are written,
    parsing the file gives them back with the version of the data format. *)
Theorem manifest_roundtrip (root : Hash) (specs : list tableSpec) : Forall spec_ok specs ->
  exists f, writeManifest root specs = Ok f /\ parseManifest f = Ok (NomsVersion, root, specs).
Proof. intros Hs. eexists. split; [apply writeManifest_ok|]. apply parse_write; [done|apply writeManifest_ok]. Qed.

(** C27: [Update] is a compare-and-set on the root.  If the manifest holds root
    [r] and tables [old], an update against [r] installs the new root and tables
    and any other changes nothing; the caller gets the root that is now in force,
    and always the tables that were there before, also when it succeeded.  On a
    fresh directory only the empty root matches, anything else is refused.
    A later [ParseIfExists] sees exactly the outcome. *)
Theorem manifest_update_cas (fm : dir) (st : option (Hash * list tableSpec)) (specs : list tableSpec) (root newRoot : Hash) :
  dir_state fm st -> Forall spec_ok specs ->
  match st with
  | None =>
      if bool_decide (root = emptyHash)
      then exists fm', Update fm specs root newRoot = Ok (fm', newRoot, specs) /\
             dir_state fm' (Some (newRoot, specs)) /\ ParseIfExists fm' = Ok (Some (NomsVersion, newRoot, specs))
      else Update fm specs root newRoot = Panic AssertFailed
  | Some (r, old) =>
      let now := if bool_decide (root = r) then (newRoot, specs) else (r, old) in
      exists fm', Update fm specs root newRoot = Ok (fm', fst now, old) /\
        dir_state fm' (Some now) /\ ParseIfExists fm' = Ok (Some (NomsVersion, fst now, snd now))
  end.
Proof.
  intros Hst Hs. pose proof (Update_ok fm st specs root newRoot Hst Hs) as H. destruct st as [[r old]|].
  - destruct H as (fm' & Hd & HU). exists fm'. destruct (bool_decide (root = r)); (split; [done|]);
      (split; [done|]); by rewrite (ParseIfExists_ok _ _ Hd).
  - destruct (bool_decide (root = emptyHash)); [|done]. destruct H as (fm' & HU & Hd). exists fm'. split; [done|].
    split; [done|]. by rewrite (ParseIfExists_ok _ _ Hd).
Qed.

(** C39: tables can be lost between two writers.  The compare-and-set looks at
    the root only: when one process adds a table without moving the root (a
    flush), another process that has not seen the table still succeeds in
    updating the root, and the manifest no longer names the table. *)
Theorem manifest_loses_flushed_table (fm : dir) (r newRoot : Hash) (old : list tableSpec) (added : tableSpec) :
  dir_state fm (Some (r, old)) -> spec_ok added -> added ∉ old ->
  exists fm1 fm2, Update fm (added :: old) r r = Ok (fm1, r, old) /\
    ParseIfExists fm1 = Ok (Some (NomsVersion, r, added :: old)) /\
    Update fm1 old r newRoot = Ok (fm2, newRoot, added :: old) /\
    ParseIfExists fm2 = Ok (Some (NomsVersion, newRoot, old)).
Proof.
  intros Hst Ha Hnew. assert (Forall spec_ok old) as Hold by apply Hst.
  destruct (Update_ok fm _ (added :: old) r r Hst) as (fm1 & H1 & U1); [by constructor|]. rewrite bool_decide_eq_true_2 in H1, U1 by done.
  destruct (Update_ok fm1 _ old r newRoot H1 Hold) as (fm2 & H2 & U2). rewrite bool_decide_eq_true_2 in H2, U2 by done.
  exists fm1, fm2. rewrite U1, U2, (ParseIfExists_ok _ _ H1), (ParseIfExists_ok _ _ H2). done.
Qed.

(** ** Witnesses *)

Definition sample_spec (s : String.string) (n : Z) : tableSpec := MkSpec (Of (bs s)) n.
Definition sample_dir : dir :=
  match writeManifest (Of (bs "root")) [sample_spec "t1" 3; sample_spec "t2" 4000000000] with
  | Ok f => MkDir true (Some f)
  | Panic _ => MkDir false None
  end.
Lemma sample_dir_state : dir_state sample_dir (Some (Of (bs "root"), [sample_spec "t1" 3; sample_spec "t2" 4000000000])).
Proof.
  unfold sample_dir. rewrite writeManifest_ok. split; [done|]. split; [repeat constructor; by vm_compute|].
  eexists. split; [done|apply writeManifest_ok].
Qed.

Lemma manifest_roundtrip_witness : exists f,
  writeManifest (Of (bs "root")) [sample_spec "t1" 3; sample_spec "t2" 4000000000] = Ok f /\
  parseManifest f = Ok (NomsVersion, Of (bs "root"), [sample_spec "t1" 3; sample_spec "t2" 4000000000]).
Proof. apply manifest_roundtrip. repeat constructor; by vm_compute. Defined.

Lemma manifest_update_cas_witness : exists fm',
  Update sample_dir [sample_spec "t3" 1] (Of (bs "root")) (Of (bs "new")) =
    Ok (fm', Of (bs "new"), [sample_spec "t1" 3; sample_spec "t2" 4000000000]) /\
  dir_state fm' (Some (Of (bs "new"), [sample_spec "t3" 1])) /\
  ParseIfExists fm' = Ok (Some (NomsVersion, Of (bs "new"), [sample_spec "t3" 1])).
Proof.
  assert (Forall spec_ok [sample_spec "t3" 1]) as Hs by (repeat constructor; by vm_compute).
  pose proof (manifest_update_cas sample_dir _ [sample_spec "t3" 1] (Of (bs "root")) (Of (bs "new")) sample_dir_state Hs) as H.
  cbv beta iota zeta in H. rewrite bool_decide_eq_true_2 in H by done. exact H.
Defined.

Lemma manifest_loses_flushed_table_witness : exists fm1 fm2,
  let old := [sample_spec "t1" 3; sample_spec "t2" 4000000000] in
  Update sample_dir (sample_spec "t3" 1 :: old) (Of (bs "root")) (Of (bs "root")) = Ok (fm1, Of (bs "root"), old) /\
  ParseIfExists fm1 = Ok (Some (NomsVersion, Of (bs "root"), sample_spec "t3" 1 :: old)) /\
  Update fm1 old (Of (bs "root")) (Of (bs "new")) = Ok (fm2, Of (bs "new"), sample_spec "t3" 1 :: old) /\
  ParseIfExists fm2 = Ok (Some (NomsVersion, Of (bs "new"), old)).
Proof.
  apply manifest_loses_flushed_table; [apply sample_dir_state|by vm_compute|]. apply (bool_decide_unpack _). vm_compute. exact I.
Defined.
