(* ===== verification/NbsMem.v ===== *)
(** * Package [nbs]: the memory table (src/go/nbs/mem_table.go)

    New chunks are collected in a [memTable] until it is full; [write] turns it
    into a table, leaving out what the older tables already have.  The facts say
    that the written table holds exactly the other chunks, in insertion order. *)

From S2P Require Import Prelude GoLib HashPkg Chunks SnappyPkg NbsTable NbsReader.
Import Hash Chunks Nbs NbsReader NbsTableFacts NbsReaderFacts.
Import SnappyGo(MaxEncodedLen).

Module NbsMem.

Record memTable : Type := MkMem {
  mt_chunks : gmap addr (list byte);
  mt_order : list hasRecord;
  mt_maxData : Z;
  mt_totalData : Z
}.

Definition newMemTable (memTableSize : Z) : memTable := MkMem ∅ [] memTableSize 0.

Definition mt_addChunk (mt : memTable) (h : addr) (data : list byte) : outcome (memTable * bool) :=
  if Zlength data =? 0 then Panic ExplicitPanic
  else
    match mt_chunks mt !! h with
    | Some _ => Ok (mt, true)
    | None =>
        let dataLen := Zlength data in
        if mt_maxData mt <? u64 (mt_totalData mt + dataLen) then Ok (mt, false)
        else Ok (MkMem (<[h := data]> (mt_chunks mt))
                       (mt_order mt ++ [MkHas h (Prefix h) (Zlength (mt_order mt)) false])
                       (mt_maxData mt) (u64 (mt_totalData mt + dataLen)), true)
    end.

Definition mt_count (mt : memTable) : Z := u32 (Zlength (mt_order mt)).
Definition mt_has (mt : memTable) (h : addr) : bool := bool_decide (is_Some (mt_chunks mt !! h)).

Fixpoint mt_hasMany (mt : memTable) (addrs : list hasRecord) : list hasRecord * bool :=
  match addrs with
  | [] => ([], false)
  | r :: addrs' =>
      let (rs, remaining) := mt_hasMany mt addrs' in
      if hr_has r then (r :: rs, remaining)
      else if mt_has mt (hr_a r) then (MkHas (hr_a r) (hr_prefix r) (hr_order r) true :: rs, remaining)
      else (r :: rs, true)
  end.

Definition mt_get (mt : memTable) (h : addr) : goslice := mt_chunks mt !! h.

Fixpoint mt_getMany (mt : memTable) (reqs : list getRecord) : list getRecord * bool :=
  match reqs with
  | [] => ([], false)
  | r :: reqs' =>
      let (rs, remaining) := mt_getMany mt reqs' in
      match mt_chunks mt !! gr_a r with
      | Some data => (MkGet (gr_a r) (gr_prefix r) (gr_order r) (gr_found r) (Some data) :: rs, remaining)
      | None => (r :: rs, true)
      end
  end.

(** What is sent to the channel. *)
Definition mt_extract (mt : memTable) (order : EnumerationOrder) : list extractRecord :=
  let send := fun hrec => MkExtract (hr_a hrec) (mt_chunks mt !! hr_a hrec) in
  match order with
  | InsertOrder => send <$> mt_order mt
  | ReverseOrder => send <$> reverse (mt_order mt)
  end.

Section write.
Context `{Snappy} `{GoSort}.

(** The loop of [write]; the lookup of an absent chunk is nil, which the writer
    refuses. *)
Fixpoint write_chunks (mt : memTable) (order : list hasRecord) (tw : tableWriter) (count : Z) : outcome (tableWriter * Z) :=
  match order with
  | [] => Ok (tw, count)
  | r :: order' =>
      if negb (hr_has r) then
        let! tw := addChunk tw (hr_a r) (default [] (mt_chunks mt !! hr_a r)) in
        write_chunks mt order' tw (u32 (count + 1))
      else write_chunks mt order' tw count
  end.

(** [haver] is the [hasMany] of the older tables; [None] is nil.  The result is
    the table with its [order] as [write] leaves it, and name, data and count. *)
Definition mt_write (mt : memTable) (haver : option (list hasRecord -> outcome (list hasRecord * bool)))
    : outcome (memTable * addr * list byte * Z) :=
  let! maxSize := maxTableSize (Zlength (mt_order mt)) (mt_totalData mt) in
  let buff := replicate (Z.to_nat maxSize) (bZ 0) in
  let tw := newTableWriter buff in
  let! order :=
    match haver with
    | None => Ok (mt_order mt)
    | Some hasMany =>
        let! (order, _) := hasMany (go_sort hasRecordByPrefix_Less (mt_order mt)) in
        Ok (go_sort hasRecordByOrder_Less order)
    end in
  let! (tw, count) := write_chunks mt order tw 0 in
  let! (tw, tableSize, name) := finish tw in
  let! data := slice (tw_buff tw) 0 tableSize in
  Ok (MkMem (mt_chunks mt) order (mt_maxData mt) (mt_totalData mt), name, data, count).

End write.

End NbsMem.
Import NbsMem.

(** ** Invariant *)

(** The chunks in insertion order. *)
Definition mt_list (mt : memTable) : list (addr * list byte) :=
  (fun r => (hr_a r, default [] (mt_chunks mt !! hr_a r))) <$> mt_order mt.

Record mt_wf (mt : memTable) : Prop := {
  mw_order : mt_order mt = imap (fun i c => MkHas (fst c) (Prefix (fst c)) (Z.of_nat i) false) (mt_list mt);
  mw_nodup : NoDup ((mt_list mt).*1);
  mw_chunks : mt_chunks mt = list_to_map (mt_list mt);
  mw_nonempty : Forall (fun c => snd c <> []) (mt_list mt);
  mw_total : mt_totalData mt = total_data (mt_list mt);
  mw_fits : mt_totalData mt <= mt_maxData mt
}.
(** At most 2 GiB; [defaultMemTableSize] is 512 MiB. *)
Definition memTable_limit : Z := 2 ^ 31.

Module NbsMemFacts.

Lemma newMemTable_wf n : 0 <= n -> mt_wf (newMemTable n).
Proof. intros. split; try done. apply NoDup_nil_2. Qed.

Lemma total_data_app a b : total_data (a ++ b) = total_data a + total_data b.
Proof. induction a as [|c a IH]; simpl; lia. Qed.

Lemma mt_list_lookup mt h : mt_wf mt -> mt_chunks mt !! h = (list_to_map (mt_list mt) : gmap addr (list byte)) !! h.
Proof. intros Hw. by rewrite <- (mw_chunks _ Hw). Qed.

Lemma mt_chunks_elem mt h d : mt_wf mt -> mt_chunks mt !! h = Some d <-> (h, d) ∈ mt_list mt.
Proof. intros Hw. rewrite mt_list_lookup by done. symmetry. apply elem_of_list_to_map, Hw. Qed.

Lemma mt_has_elem mt h : mt_wf mt -> mt_has mt h = bool_decide (h ∈ (mt_list mt).*1).
Proof.
  intros Hw. unfold mt_has. apply bool_decide_ext. rewrite list_elem_of_fmap. split.
  - intros [d Hd]. exists (h, d). split; [done|]. by apply mt_chunks_elem.
  - intros ([h' d] & -> & Hin). exists d. by apply mt_chunks_elem.
Qed.

Lemma Zlength_mt_list mt : Zlength (mt_list mt) = Zlength (mt_order mt).
Proof. apply Zlength_fmap. Qed.

(** The list after inserting a new chunk. *)
Lemma mt_list_snoc mt h data n : mt_wf mt -> mt_chunks mt !! h = None ->
  mt_list (MkMem (<[h := data]> (mt_chunks mt)) (mt_order mt ++ [MkHas h (Prefix h) (Zlength (mt_order mt)) false]) (mt_maxData mt) n)
  = mt_list mt ++ [(h, data)].
Proof.
  intros Hw Hh. unfold mt_list at 1. cbn [mt_order mt_chunks]. rewrite fmap_app. cbn [fmap list_fmap hr_a].
  rewrite lookup_insert_eq. cbn [default]. f_equal. apply list_fmap_ext. intros i r Hr. f_equal. rewrite lookup_insert_ne; [done|].
  intros ->. assert ((hr_a r, default [] (mt_chunks mt !! hr_a r)) ∈ mt_list mt) as Hin.
  { apply list_elem_of_fmap. exists r. split; [done|]. by eapply list_elem_of_lookup_2. }
  apply mt_chunks_elem in Hin; [|done]. congruence.
Qed.

(** [addChunk]: refused when there is no room, else the chunk is in the table. *)
Lemma mt_addChunk_ok mt h data : mt_wf mt -> mt_maxData mt <= memTable_limit -> data <> [] -> Zlength data < 2 ^ 62 ->
  exists mt' b, mt_addChunk mt h data = Ok (mt', b) /\ mt_wf mt' /\ mt_maxData mt' = mt_maxData mt /\
    if b then mt_chunks mt' = (if mt_has mt h then mt_chunks mt else <[h := data]> (mt_chunks mt)) /\
              mt_list mt' = mt_list mt ++ (if mt_has mt h then [] else [(h, data)])
    else mt' = mt /\ mt_has mt h = false /\ mt_maxData mt < mt_totalData mt + Zlength data.
Proof.
  intros Hw Hmax Hd Hlen. unfold mt_addChunk. assert (Zlength data <> 0) as Hne.
  { destruct data; [done|]. rewrite Zlength_cons. pose proof (Zlength_nonneg data). lia. }
  rewrite (proj2 (Z.eqb_neq _ _) Hne). unfold mt_has.
  destruct (mt_chunks mt !! h) as [d|] eqn:Eh.
  { exists mt, true. rewrite bool_decide_eq_true_2, app_nil_r by done. done. }
  rewrite bool_decide_eq_false_2 by (by intros [? ?]).
  pose proof (total_data_nonneg (mt_list mt)) as Htd. pose proof (Zlength_nonneg data).
  pose proof (mw_total _ Hw). pose proof (mw_fits _ Hw). unfold memTable_limit in Hmax.
  assert (2 ^ 31 = 2147483648) by done. assert (2 ^ 62 = 4611686018427387904) by done. assert (2 ^ 64 = 18446744073709551616) by done.
  rewrite u64_small by lia. destruct (_ <? _) eqn:E; bool_lia.
  { exists mt, false. done. }
  eexists _, true. split; [done|]. pose proof (mt_list_snoc mt h data (mt_totalData mt + Zlength data) Hw Eh) as Hsnoc.
  assert (NoDup ((mt_list mt ++ [(h, data)]).*1)) as HN.
  { rewrite fmap_app. apply NoDup_app. split; [apply Hw|]. split; [|apply NoDup_singleton].
    intros x Hx ->%list_elem_of_singleton. simpl in Hx. apply list_elem_of_fmap in Hx as ([h' d] & -> & Hin).
    apply mt_chunks_elem in Hin; [|done]. simpl in *. congruence. }
  split; [|done]. split; rewrite ?Hsnoc; cbn [mt_order mt_chunks mt_totalData mt_maxData].
  - rewrite imap_app, <- (mw_order _ Hw). f_equal. simpl. rewrite Nat.add_0_r. f_equal. f_equal. rewrite <- Zlength_mt_list. done.
  - done.
  - rewrite (mw_chunks _ Hw). apply map_eq. intros k. destruct (decide (k = h)) as [->|Hk].
    + rewrite lookup_insert_eq. symmetry. apply elem_of_list_to_map; [done|apply elem_of_app; right; by left].
    + rewrite lookup_insert_ne, list_to_map_app, lookup_union by done. simpl. rewrite lookup_insert_ne, lookup_empty by done.
      by destruct ((list_to_map (mt_list mt) : gmap addr (list byte)) !! k).
  - apply Forall_app. split; [apply Hw|]. by constructor.
  - rewrite total_data_app. simpl. lia.
  - lia.
Qed.

(** ** Batched queries *)

Lemma mt_hasMany_ok mt addrs : mt_wf mt ->
  mt_hasMany mt addrs = (has_answer (cs := mt_list mt) <$> addrs, missing (has_answer (cs := mt_list mt) <$> addrs)).
Proof.
  intros Hw. induction addrs as [|r addrs IH]; [done|]. cbn [mt_hasMany fmap list_fmap]. rewrite IH, mt_has_elem by done.
  unfold missing, has_answer.
  destruct r as [a p o [|]]; simpl; [done|]. by destruct (bool_decide (a ∈ _)).
Qed.

(** A request after [getMany] of a memory table: [found] is left alone. *)
Definition mt_answer (mt : memTable) (r : getRecord) : getRecord :=
  match mt_chunks mt !! gr_a r with
  | Some d => MkGet (gr_a r) (gr_prefix r) (gr_order r) (gr_found r) (Some d)
  | None => r
  end.
Lemma mt_getMany_ok mt reqs :
  mt_getMany mt reqs = (mt_answer mt <$> reqs, existsb (fun r => negb (mt_has mt (gr_a r))) reqs).
Proof.
  induction reqs as [|r reqs IH]; [done|]. cbn [mt_getMany fmap list_fmap existsb]. rewrite IH. unfold mt_answer, mt_has.
  by destruct (mt_chunks mt !! gr_a r) as [d|] eqn:E.
Qed.

Lemma mt_extract_ok mt order : mt_wf mt -> mt_extract mt order =
  extracted <$> match order with InsertOrder => mt_list mt | ReverseOrder => reverse (mt_list mt) end.
Proof.
  intros Hw. assert ((fun hrec => MkExtract (hr_a hrec) (mt_chunks mt !! hr_a hrec)) <$> mt_order mt = extracted <$> mt_list mt) as Heq.
  { unfold mt_list. rewrite <- list_fmap_compose. apply list_fmap_ext. intros i r Hr. unfold extracted. simpl. f_equal.
    assert ((hr_a r, default [] (mt_chunks mt !! hr_a r)) ∈ mt_list mt) as Hin.
    { apply list_elem_of_fmap. exists r. split; [done|]. by eapply list_elem_of_lookup_2. }
    by apply mt_chunks_elem in Hin. }
  unfold mt_extract. destruct order; [done|]. by rewrite !fmap_reverse, Heq.
Qed.

(** ** [write] *)

Section write.
Context `{Snappy} `{!SnappyLaws} `{!SnappySlack} `{GoSort}.

(** Marks what the older tables have, as [k] says. *)
Definition mark_has (k : addr -> bool) (r : hasRecord) : hasRecord :=
  MkHas (hr_a r) (hr_prefix r) (hr_order r) (hr_has r || k (hr_a r)).
Definition haver_answers (hm : list hasRecord -> outcome (list hasRecord * bool)) (k : addr -> bool) : Prop :=
  forall addrs, Forall has_wf addrs -> StronglySorted (fun x y => hr_prefix x <= hr_prefix y) addrs ->
    exists rem, hm addrs = Ok (mark_has k <$> addrs, rem).

Definition fresh_chunks (k : addr -> bool) (cs : list (addr * list byte)) : list (addr * list byte) :=
  filter (fun c => k (fst c) = false) cs.

Lemma imap_sorted {A B} (key : B -> Z) (f : nat -> A -> B) (l : list A) n :
  (forall i x, key (f i x) = n + Z.of_nat i) -> StronglySorted (fun x y => key x < key y) (imap f l).
Proof.
  revert f n. induction l as [|x l IH]; intros f n Hf; [constructor|]. rewrite imap_cons. constructor.
  - apply (IH _ (n + 1)). intros i y. unfold compose. rewrite Hf. lia.
  - apply Forall_forall. intros y Hy. apply list_elem_of_lookup in Hy as [i Hi]. rewrite list_lookup_imap in Hi.
    destruct (l !! i) as [z|]; [|done]. injection Hi as <-. unfold compose. rewrite !Hf. lia.
Qed.

Lemma sort_restores k mt : mt_wf mt ->
  go_sort hasRecordByOrder_Less (mark_has k <$> go_sort hasRecordByPrefix_Less (mt_order mt)) = mark_has k <$> mt_order mt.
Proof.
  intros Hw. apply (go_sort_restore _ hr_order); [done|by rewrite go_sort_perm|].
  rewrite (mw_order _ Hw), fmap_imap. by apply (imap_sorted hr_order _ _ 0).
Qed.

Lemma write_chunks_ok k mt order tw count : Forall (fun r => hr_has r = false) order -> 0 <= count -> count + Zlength order < 2 ^ 32 ->
  let cs := (fun r => (hr_a r, default [] (mt_chunks mt !! hr_a r))) <$> order in
  write_chunks mt (mark_has k <$> order) tw count =
    let! tw := addChunks (fresh_chunks k cs) tw in Ok (tw, count + Zlength (fresh_chunks k cs)).
Proof.
  cbv zeta. intros Hh. revert tw count. induction Hh as [|r order Hr _ IH]; intros tw count Hc Hlen; cbn [fmap list_fmap write_chunks].
  { change (Zlength (fresh_chunks k [])) with 0. cbn. by rewrite Z.add_0_r. }
  rewrite Zlength_cons in Hlen. pose proof (Zlength_nonneg order). unfold mark_has at 1. cbn [hr_has hr_a]. rewrite Hr. cbn [orb].
  unfold fresh_chunks in *. rewrite filter_cons. cbn [fst]. destruct (k (hr_a r)) eqn:Ek; cbn [negb].
  - rewrite decide_False by done. apply IH; lia.
  - rewrite decide_True by done. cbn [addChunks]. unfold mark_has at 1 2. cbn [hr_a].
    destruct (addChunk tw _ _) as [tw'|]; cbn [obind]; [|done]. rewrite u32_small by lia. rewrite IH by lia.
    rewrite Zlength_cons. destruct (addChunks _ tw') as [tw''|]; cbn [obind]; [|done]. f_equal. f_equal. lia.
Qed.

Lemma MaxEncodedLen_small n : 0 <= n <= 2147483648 -> MaxEncodedLen n = 32 + n + n / 6.
Proof.
  intros Hn. unfold MaxEncodedLen. pose proof (Z.mul_div_le n 6 ltac:(lia)).
  rewrite (proj2 (Z.ltb_ge n 0)), (proj2 (Z.ltb_ge _ n)) by lia. cbn [orb]. by rewrite (proj2 (Z.ltb_ge _ _)) by lia.
Qed.

Lemma small_chunk_fits h d : d <> [] -> Zlength d <= memTable_limit -> chunk_fits (h, d).
Proof.
  unfold memTable_limit. intros Hd Hl. unfold chunk_fits. cbn [snd]. assert (2 ^ 31 = 2147483648) as E31 by done. rewrite E31 in Hl.
  pose proof (Zlength_nonneg d). pose proof (Z.mul_div_le (Zlength d) 6 ltac:(lia)).
  assert (0 <= MaxEncodedLen (Zlength d)) as Hm.
  { rewrite MaxEncodedLen_small by lia. pose proof (Z.div_pos (Zlength d) 6). lia. }
  split; [done|]. split; [done|]. pose proof (snappy_bound d Hm) as Hb. destruct (SnappyGoFacts.MaxEncodedLen_pos _ Hm) as [HM _].
  unfold record_size. change checksumSize with 4. assert (2 ^ 32 = 4294967296) by done. lia.
Qed.

Lemma total_data_elem c cs : c ∈ cs -> Zlength (snd c) <= total_data cs.
Proof.
  induction cs as [|c' cs IH]; [by intros ?%elem_of_nil|]. intros [->|Hin]%elem_of_cons; simpl; pose proof (total_data_nonneg cs); [lia|].
  specialize (IH Hin). pose proof (Zlength_nonneg (snd c')). lia.
Qed.

Lemma total_data_count cs : Forall (fun c => snd c <> []) cs -> Zlength cs <= total_data cs.
Proof.
  induction 1 as [|c cs Hc _ IH]; [done|]. rewrite Zlength_cons. simpl. destruct (snd c) as [|b d]; [done|].
  rewrite Zlength_cons. pose proof (Zlength_nonneg d). lia.
Qed.

Lemma mt_fits mt : mt_wf mt -> mt_maxData mt <= memTable_limit -> Forall chunk_fits (mt_list mt).
Proof.
  intros Hw Hmax. pose proof (mw_total _ Hw). pose proof (mw_fits _ Hw). apply Forall_forall. intros [h d] Hin.
  pose proof (mw_nonempty _ Hw) as Hne. rewrite Forall_forall in Hne. specialize (Hne _ Hin).
  apply small_chunk_fits; [done|]. pose proof (total_data_elem _ _ Hin). simpl in *. lia.
Qed.

Lemma mt_count_bound mt : mt_wf mt -> mt_maxData mt <= memTable_limit -> Zlength (mt_order mt) <= memTable_limit.
Proof.
  intros Hw Hmax. pose proof (mw_total _ Hw). pose proof (mw_fits _ Hw). pose proof (total_data_count _ (mw_nonempty _ Hw)).
  rewrite Zlength_mt_list in *. lia.
Qed.

Lemma maxTableSize_mt n t : 0 < n -> 0 <= t <= memTable_limit -> is_ok (maxTableSize n t) = true.
Proof.
  unfold memTable_limit. assert (2 ^ 31 = 2147483648) as -> by done. intros Hn Ht. unfold maxTableSize.
  rewrite (proj2 (Z.eqb_neq n 0)) by lia.
  assert (0 <= t / n <= t) as Hq by (split; [apply Z.div_pos; lia|apply Z.div_le_upper_bound; nia]).
  rewrite (proj2 (Z.ltb_lt _ maxChunkSize)) by (change maxChunkSize with 0xffffffff; lia). cbn [check obind].
  pose proof (Z.div_pos (t / n) 6 ltac:(lia) ltac:(lia)).
  rewrite MaxEncodedLen_small by lia. rewrite (proj2 (Z.ltb_lt _ _)) by lia. done.
Qed.

Lemma worst_case_fresh k cs : Forall chunk_fits cs -> worst_case (fresh_chunks k cs) <= worst_case cs /\
  Zlength (fresh_chunks k cs) <= Zlength cs.
Proof.
  induction 1 as [|c cs (_ & Hm & _) Hf IH]; [done|]. unfold fresh_chunks in *. rewrite filter_cons.
  change (worst_case (c :: cs)) with (MaxEncodedLen (Zlength (snd c)) + checksumSize + worst_case cs).
  change checksumSize with 4. destruct (decide _); rewrite ?Zlength_cons; [|lia].
  change (worst_case (c :: filter (fun c0 => k c0.1 = false) cs))
    with (MaxEncodedLen (Zlength (snd c)) + 4 + worst_case (filter (fun c0 => k c0.1 = false) cs)). lia.
Qed.

Lemma fresh_fits k cs : Forall chunk_fits cs -> Forall chunk_fits (fresh_chunks k cs).
Proof. rewrite !Forall_forall. intros Hf c [_ Hc]%list_elem_of_filter. by apply Hf. Qed.

(** The buffer for all chunks of the memory table has room for the new ones. *)
Lemma fresh_room mt k : mt_wf mt -> mt_maxData mt <= memTable_limit -> mt_order mt <> [] ->
  let cs := fresh_chunks k (mt_list mt) in
  exists size, maxTableSize (Zlength (mt_order mt)) (mt_totalData mt) = Ok size /\ 0 <= size < 2 ^ 63 /\
    fits_in size cs /\ Zlength (records cs) + 28 * Zlength cs + footerSize <= size.
Proof.
  intros Hw Hmax Hne cs. pose proof (mt_fits mt Hw Hmax) as Hf. pose proof (mt_count_bound mt Hw Hmax) as Hcnt.
  unfold memTable_limit in *. assert (2 ^ 31 = 2147483648) by done. assert (2 ^ 32 = 4294967296) by done. assert (2 ^ 62 = 4611686018427387904) by done.
  assert (mt_list mt <> []) as Hne' by (unfold mt_list; by destruct (mt_order mt)).
  assert (0 < Zlength (mt_order mt)) by (destruct (mt_order mt) as [|r l]; [done|]; rewrite Zlength_cons; pose proof (Zlength_nonneg l); lia).
  pose proof (mw_total _ Hw) as Htot. pose proof (mw_fits _ Hw). pose proof (total_data_nonneg (mt_list mt)).
  pose proof (maxTableSize_mt (Zlength (mt_order mt)) (mt_totalData mt) ltac:(lia) ltac:(unfold memTable_limit; lia)) as Hok.
  destruct (maxTableSize _ _) as [size|] eqn:Esize; [|done]. exists size. split; [done|].
  rewrite <- Zlength_mt_list, Htot in Esize.
  destruct (maxTableSize_worst_case (mt_list mt) size Hne' Hf) as [Hworst Hsize]; [rewrite Zlength_mt_list; lia|lia|done|].
  unfold indexSize in Hworst. change (addrSuffixSize + lengthSize + prefixTupleSize) with 28 in Hworst.
  rewrite Zlength_mt_list in Hworst. rewrite u64_small in Hworst by lia. change footerSize with 20 in *.
  destruct (worst_case_fresh k (mt_list mt) Hf) as [Hw1 Hw2]. fold cs in Hw1, Hw2. rewrite Zlength_mt_list in Hw2.
  pose proof (fresh_fits k _ Hf) as Hfcs. fold cs in Hfcs. pose proof (records_worst cs Hfcs). pose proof (worst_case_nonneg cs Hfcs).
  pose proof (Zlength_nonneg cs). split; [lia|]. split; [apply fits_in_worst; [done|lia]|lia].
Qed.

Lemma order_has_false mt : mt_wf mt -> Forall (fun r => hr_has r = false) (mt_order mt).
Proof.
  intros Hw. rewrite (mw_order _ Hw). apply Forall_forall. intros r Hr. apply list_elem_of_lookup in Hr as [i Hi].
  rewrite list_lookup_imap in Hi. destruct (mt_list mt !! i); [|done]. by injection Hi as <-.
Qed.
Lemma order_has_wf mt : mt_wf mt -> Forall has_wf (mt_order mt).
Proof.
  intros Hw. rewrite (mw_order _ Hw). apply Forall_forall. intros r Hr. apply list_elem_of_lookup in Hr as [i Hi].
  rewrite list_lookup_imap in Hi. destruct (mt_list mt !! i); [|done]. by injection Hi as <-.
Qed.

(** [write] produces the table of the chunks that the older tables lack. *)
Lemma mt_write_ok mt haver k : mt_wf mt -> mt_maxData mt <= memTable_limit -> mt_order mt <> [] ->
  match haver with None => k = (fun _ => false) | Some hm => haver_answers hm k end ->
  let cs := fresh_chunks k (mt_list mt) in
  exists mt', mt_write mt haver = Ok (mt', table_name cs, table_bytes cs, Zlength cs).
Proof.
  intros Hw Hmax Hne Hk cs. unfold mt_write. destruct (fresh_room mt k Hw Hmax Hne) as (size & -> & Hsize & Hfit & Hroom).
  cbn [obind]. fold cs in Hfit, Hroom. pose proof (mt_count_bound mt Hw Hmax) as Hcnt. unfold memTable_limit in Hcnt.
  assert (2 ^ 31 < 2 ^ 32) by done. pose proof (fresh_fits k _ (mt_fits mt Hw Hmax)) as Hfcs. fold cs in Hfcs.
  destruct (worst_case_fresh k (mt_list mt) (mt_fits mt Hw Hmax)) as [_ Hlen]. fold cs in Hlen. rewrite Zlength_mt_list in Hlen.
  assert (exists o, match haver with None => Ok (mt_order mt) | Some hasMany =>
      let! (order, _) := hasMany (go_sort hasRecordByPrefix_Less (mt_order mt)) in Ok (go_sort hasRecordByOrder_Less order) end = Ok o
    /\ o = mark_has k <$> mt_order mt) as (o & -> & ->).
  { destruct haver as [hm|].
    - destruct (Hk (go_sort hasRecordByPrefix_Less (mt_order mt))) as (rem & ->).
      + rewrite go_sort_perm. by apply order_has_wf.
      + apply (go_sort_sorted _ _ hr_prefix). done.
      + cbn [obind]. eexists. split; [done|]. by apply sort_restores.
    - exists (mt_order mt). split; [done|]. rewrite <- (list_fmap_id (mt_order mt)) at 1. apply list_fmap_ext.
      intros i r _. subst k. unfold mark_has. rewrite orb_false_r. by destruct r. }
  cbn [obind]. set (buff := replicate (Z.to_nat size) (bZ 0)).
  assert (Zlength buff = size) as Hb by (unfold buff, Zlength; rewrite length_replicate; lia).
  rewrite (write_chunks_ok k mt (mt_order mt)) by (by try apply order_has_false; try lia).
  change ((fun r => (hr_a r, default [] (mt_chunks mt !! hr_a r))) <$> mt_order mt) with (mt_list mt). fold cs.
  destruct (write_table_ok buff cs) as (tw & tw' & rest & -> & Hfin & Hbuff); [lia|done|lia|by rewrite Hb|by rewrite Hb|]. cbn [obind].
  rewrite Hfin. cbn [obind]. rewrite Hbuff.
  pose proof (slice_app [] (table_bytes cs) rest 0 (Zlength (table_bytes cs)) eq_refl eq_refl) as Hs. cbn [app] in Hs.
  rewrite Hs. cbn [obind]. by eexists.
Qed.

(** An empty memory table cannot be written. *)
Lemma mt_write_empty mt haver : mt_order mt = [] -> mt_write mt haver = Panic ExplicitPanic.
Proof. intros Hm. unfold mt_write. by rewrite Hm. Qed.

End write.

End NbsMemFacts.
