(* ===== verification/NbsStore.v ===== *)
(** * Package [nbs]: table sets and [NomsBlockStore] (src/go/nbs/table_set.go,
      compacting_chunk_source.go, file_table_persister.go, mmap_table_reader.go,
      store.go, cache.go)

    A full memory table is handed to a background compaction and stays readable
    until its table file is written.  Table sets are immutable lists that share
    the sources being compacted, so these live in a heap and a list holds their
    index; the operations that wait for a compaction are undefined until it is
    done, and [compact_step] is the step of a compaction, which may happen at any
    time.  [NomsBlockStore] works on such a heap and on a disk with the table
    files and the manifest. *)

From S2P Require Import Prelude GoLib HashPkg Chunks SnappyPkg NbsTable NbsReader NbsMem NbsManifest.
Import Hash Chunks Nbs NbsReader NbsMem Manifest.

Module NbsStore.

(** ** Persisted tables *)

Definition fileReadAmpThresh : Z := 2.
Definition fileBlockSize : Z := Z.shiftl 1 12.
Definition fileMaxReadSize : Z := Z.shiftl 1 28.

(** [mmapTableReader] and [emptyChunkSource]. *)
Inductive psource : Type :=
| PTable (h : addr) (tr : tableReader)
| PEmpty.

(** Name and contents of the table files. *)
Abbreviation files := (gmap addr (list byte)).

(** The index is mapped from the page that it starts in and cut out of that
    mapping, that is, [parseTableIndex] gets the file from [indexOffset] on. *)
Definition newMmapTableReader (fs : files) (h : addr) (chunkCount : Z) : outcome psource :=
  match fs !! h with
  | None => Panic AssertFailed
  | Some f =>
      let indexOffset := Zlength f - footerSize - indexSize chunkCount in
      let! buff := slice_from f indexOffset in
      let! index := parseTableIndex buff in
      let tr := newTableReader index f fileBlockSize fileMaxReadSize fileReadAmpThresh in
      let! _ := check (chunkCount =? count tr) in
      Ok (PTable h tr)
  end.

Definition p_has (p : psource) (h : addr) : outcome bool :=
  match p with PTable _ tr => has tr h | PEmpty => Ok false end.
Definition p_hasMany (p : psource) (addrs : list hasRecord) : outcome (list hasRecord * bool) :=
  match p with PTable _ tr => hasMany tr addrs | PEmpty => Ok (addrs, true) end.
Definition p_count (p : psource) : Z :=
  match p with PTable _ tr => count tr | PEmpty => 0 end.
Definition p_hash (p : psource) : addr :=
  match p with PTable h _ => h | PEmpty => emptyHash end.

(** ** Sources and compaction *)

(** A [chunkSource] of a table set: a persisted table, or a pointer to a
    [compactingChunkSource]. *)
Inductive chunkSource : Type :=
| Src (p : psource)
| Compacting (id : nat).
(** [compactingChunkSource]: [mt] is set and the goroutine will use [haver], or
    [cs] is set and [wg] done. *)
Inductive ccs : Type :=
| InMemory (mt : memTable) (haver : list chunkSource)
| Compacted (p : psource).
Abbreviation heap := (list ccs).

Inductive reader : Type := RMem (mt : memTable) | RTable (p : psource).
Definition getReader (hp : heap) (src : chunkSource) : outcome reader :=
  match src with
  | Src p => Ok (RTable p)
  | Compacting id =>
      match hp !! id with
      | Some (InMemory mt _) => Ok (RMem mt)
      | Some (Compacted p) => Ok (RTable p)
      | None => Panic NilDereference
      end
  end.
(** [ccs.wg.Wait()]: [None] as long as the compaction runs. *)
Definition wait (hp : heap) (src : chunkSource) : option psource :=
  match src with
  | Src p => Some p
  | Compacting id => match hp !! id with Some (Compacted p) => Some p | _ => None end
  end.

Section store.
Context `{Snappy} `{GoSort}.

Definition p_get (p : psource) (h : addr) : outcome goslice :=
  match p with PTable _ tr => get tr h | PEmpty => Ok None end.
(** Requests, reads for the goroutines, [remaining]. *)
Definition p_getMany (p : psource) (reqs : list getRecord) : outcome (list getRecord * list (tableReader * readBatch) * bool) :=
  match p with
  | PTable _ tr => let! (reqs, bs, remaining) := getMany_plan tr reqs in Ok (reqs, pair tr <$> bs, remaining)
  | PEmpty => Ok (reqs, [], true)
  end.
Definition p_calcReads (p : psource) (reqs : list getRecord) (blockSize maxReadSize ampThresh : Z) : outcome (list getRecord * Z * bool) :=
  match p with PTable _ tr => calcReads tr reqs blockSize maxReadSize ampThresh | PEmpty => Ok (reqs, 0, true) end.
Definition p_extract (p : psource) (order : EnumerationOrder) : outcome (list extractRecord) :=
  match p with PTable _ tr => extract tr order | PEmpty => Ok [] end.

(** [fsTablePersister.Compact]; [haver] is the [hasMany] of the older tables. *)
Definition Compact (fs : files) (mt : memTable) (haver : list hasRecord -> outcome (list hasRecord * bool)) : outcome (files * psource) :=
  let! (_, name, data, chunkCount) := mt_write mt (Some haver) in
  if chunkCount =? 0 then Ok (fs, PEmpty)
  else
    let fs := <[name := data]> fs in
    let! p := newMmapTableReader fs name chunkCount in
    Ok (fs, p).
Definition Open (fs : files) (name : addr) (chunkCount : Z) : outcome psource := newMmapTableReader fs name chunkCount.

Definition src_has (hp : heap) (src : chunkSource) (h : addr) : outcome bool :=
  let! cr := getReader hp src in
  match cr with RMem mt => Ok (mt_has mt h) | RTable p => p_has p h end.
Definition src_hasMany (hp : heap) (src : chunkSource) (addrs : list hasRecord) : outcome (list hasRecord * bool) :=
  let! cr := getReader hp src in
  match cr with RMem mt => Ok (mt_hasMany mt addrs) | RTable p => p_hasMany p addrs end.
Definition src_get (hp : heap) (src : chunkSource) (h : addr) : outcome goslice :=
  let! cr := getReader hp src in
  match cr with RMem mt => Ok (mt_get mt h) | RTable p => p_get p h end.
Definition src_getMany (hp : heap) (src : chunkSource) (reqs : list getRecord)
    : outcome (list getRecord * list (tableReader * readBatch) * bool) :=
  let! cr := getReader hp src in
  match cr with
  | RMem mt => let (reqs, remaining) := mt_getMany mt reqs in Ok (reqs, [], remaining)
  | RTable p => p_getMany p reqs
  end.
Definition src_count (hp : heap) (src : chunkSource) : outcome Z :=
  let! cr := getReader hp src in
  match cr with RMem mt => Ok (mt_count mt) | RTable p => Ok (p_count p) end.
Definition src_hash (hp : heap) (src : chunkSource) : option addr := p_hash <$> wait hp src.

(** ** table_set.go *)

Fixpoint css_has (hp : heap) (css : list chunkSource) (h : addr) : outcome bool :=
  match css with
  | [] => Ok false
  | haver :: css' => let! b := src_has hp haver h in if b : bool then Ok true else css_has hp css' h
  end.
Fixpoint css_hasMany (hp : heap) (css : list chunkSource) (addrs : list hasRecord) : outcome (list hasRecord * bool) :=
  match css with
  | [] => Ok (addrs, true)
  | haver :: css' =>
      let! (addrs, remaining) := src_hasMany hp haver addrs in
      if negb remaining then Ok (addrs, false) else css_hasMany hp css' addrs
  end.
Fixpoint css_get (hp : heap) (css : list chunkSource) (h : addr) : outcome goslice :=
  match css with
  | [] => Ok None
  | haver :: css' =>
      let! data := src_get hp haver h in
      match data with Some d => Ok (Some d) | None => css_get hp css' h end
  end.
Fixpoint css_getMany (hp : heap) (css : list chunkSource) (reqs : list getRecord)
    : outcome (list getRecord * list (tableReader * readBatch) * bool) :=
  match css with
  | [] => Ok (reqs, [], true)
  | haver :: css' =>
      let! (reqs, bs, remaining) := src_getMany hp haver reqs in
      if negb remaining then Ok (reqs, bs, false)
      else let! (reqs, bs', remaining) := css_getMany hp css' reqs in Ok (reqs, bs ++ bs', remaining)
  end.
(** [rds, remaining := ...] declares a second [remaining]; the result of the
    function is set only by the first return, to a false value.  [None] waits. *)
Fixpoint css_calcReads (hp : heap) (css : list chunkSource) (reqs : list getRecord) (blockSize maxReadSize ampThresh : Z)
    (reads : Z) (split : bool) : option (outcome (list getRecord * Z * bool * bool)) :=
  match css with
  | [] => Some (Ok (reqs, reads, split, false))
  | haver :: css' =>
      match wait hp haver with
      | None => None
      | Some p =>
          match p_calcReads p reqs blockSize maxReadSize ampThresh with
          | Panic w => Some (Panic w)
          | Ok (reqs, rds, remaining) =>
              let reads := reads + rds in
              if negb remaining then Some (Ok (reqs, reads, split, remaining))
              else css_calcReads hp css' reqs blockSize maxReadSize ampThresh reads true
          end
      end
  end.
Fixpoint css_count (hp : heap) (css : list chunkSource) (acc : Z) : outcome Z :=
  match css with
  | [] => Ok acc
  | haver :: css' => let! n := src_count hp haver in css_count hp css' (u32 (acc + n))
  end.

(** The new source shares the old table set as its [haver]. *)
Definition Prepend (hp : heap) (ts : list chunkSource) (mt : memTable) : heap * list chunkSource :=
  (hp ++ [InMemory mt ts], Compacting (length hp) :: ts).

Fixpoint extract_all (hp : heap) (css : list chunkSource) (order : EnumerationOrder) : option (outcome (list extractRecord)) :=
  match css with
  | [] => Some (Ok [])
  | cs :: css' =>
      match wait hp cs with
      | None => None
      | Some p =>
          match p_extract p order with
          | Panic w => Some (Panic w)
          | Ok rs =>
              match extract_all hp css' order with
              | Some (Ok rs') => Some (Ok (rs ++ rs'))
              | r => r
              end
          end
      end
  end.
Definition ts_extract (hp : heap) (ts : list chunkSource) (order : EnumerationOrder) : option (outcome (list extractRecord)) :=
  match order with
  | ReverseOrder => extract_all hp ts order
  | InsertOrder => extract_all hp (reverse ts) order
  end.

(** The loop of [Union] over the tables of the set: kept tables and known names. *)
Fixpoint union_keep (hp : heap) (ts : list chunkSource) : option (outcome (list chunkSource * list addr)) :=
  match ts with
  | [] => Some (Ok ([], []))
  | t :: ts' =>
      match src_count hp t with
      | Panic w => Some (Panic w)
      | Ok n =>
          if 0 <? n then
            match src_hash hp t with
            | None => None
            | Some a =>
                match union_keep hp ts' with
                | Some (Ok (ts, known)) => Some (Ok (t :: ts, a :: known))
                | r => r
                end
            end
          else union_keep hp ts'
      end
  end.
Fixpoint union_open (fs : files) (specs : list tableSpec) : outcome (list chunkSource) :=
  match specs with
  | [] => Ok []
  | t :: specs' =>
      let! p := Open fs (ts_name t) (ts_chunkCount t) in
      let! css := union_open fs specs' in
      Ok (Src p :: css)
  end.
Definition Union (fs : files) (hp : heap) (ts : list chunkSource) (specs : list tableSpec) : option (outcome (list chunkSource)) :=
  match union_keep hp ts with
  | None => None
  | Some (Panic w) => Some (Panic w)
  | Some (Ok (newTables, known)) =>
      let tablesToOpen := filter (fun t => ts_name t ∉ known) specs in
      Some (let! opened := union_open fs tablesToOpen in Ok (newTables ++ opened))
  end.

(** ** Compaction steps *)

Record sys : Type := MkSys { s_files : files; s_heap : heap }.

(** The goroutine of source [id] finishes. *)
Definition compact (s : sys) (id : nat) : outcome sys :=
  match s_heap s !! id with
  | Some (InMemory mt haver) =>
      let! (fs, p) := Compact (s_files s) mt (css_hasMany (s_heap s) haver) in
      Ok (MkSys fs (<[id := Compacted p]> (s_heap s)))
  | _ => Ok s
  end.
Definition compact_step (s s' : sys) : Prop :=
  exists id mt haver, s_heap s !! id = Some (InMemory mt haver) /\ compact s id = Ok s'.

(** [ToSpecs] reads the count of a source, waits for its hash and reads the
    count again; compactions may happen in between. *)
Inductive ToSpecs : sys -> list chunkSource -> sys -> list tableSpec -> Prop :=
| specs_nil s : ToSpecs s [] s []
| specs_compact s s1 css s' specs :
    compact_step s s1 -> ToSpecs s1 css s' specs -> ToSpecs s css s' specs
| specs_skip s src css s' specs :
    src_count (s_heap s) src = Ok 0 -> ToSpecs s css s' specs -> ToSpecs s (src :: css) s' specs
| specs_take s n src css s1 a s2 s' specs c :
    src_count (s_heap s) src = Ok n -> 0 < n ->
    rtc compact_step s s1 -> src_hash (s_heap s1) src = Some a ->
    rtc compact_step s1 s2 -> src_count (s_heap s2) src = Ok c ->
    ToSpecs s2 css s' specs -> ToSpecs s (src :: css) s' (MkSpec a c :: specs).

(** ** store.go *)

Definition defaultMemTableSize : Z := Z.shiftl 512 20.

Record NomsBlockStore : Type := MkNbs {
  nbs_nomsVersion : list byte;
  nbs_mt : option memTable;
  nbs_mtSize : Z;
  nbs_tables : list chunkSource;
  nbs_root : Hash;
  nbs_putCount : Z
}.

(** Opening a store: a new process starts with an empty heap and table set. *)
Definition newNomsBlockStore (fs : files) (mm : dir) (memTableSize : Z) : outcome NomsBlockStore :=
  let memTableSize := if memTableSize =? 0 then defaultMemTableSize else memTableSize in
  let! m := ParseIfExists mm in
  match m with
  | None => Ok (MkNbs NomsVersion None memTableSize [] emptyHash 0)
  | Some (vers, root, tableSpecs) =>
      let! tables := union_open fs tableSpecs in
      Ok (MkNbs vers None memTableSize tables root 0)
  end.

Definition nbs_addChunk (hp : heap) (nbs : NomsBlockStore) (h : addr) (data : list byte) : outcome (heap * NomsBlockStore * bool) :=
  let mt := match nbs_mt nbs with None => newMemTable (nbs_mtSize nbs) | Some mt => mt end in
  let! (mt, ok) := mt_addChunk mt h data in
  if negb ok then
    let (hp, tables) := Prepend hp (nbs_tables nbs) mt in
    let! (mt, ok) := mt_addChunk (newMemTable (nbs_mtSize nbs)) h data in
    Ok (hp, MkNbs (nbs_nomsVersion nbs) (Some mt) (nbs_mtSize nbs) tables (nbs_root nbs) (nbs_putCount nbs), ok)
  else Ok (hp, MkNbs (nbs_nomsVersion nbs) (Some mt) (nbs_mtSize nbs) (nbs_tables nbs) (nbs_root nbs) (nbs_putCount nbs), true).

Definition incPutCount (nbs : NomsBlockStore) : NomsBlockStore :=
  MkNbs (nbs_nomsVersion nbs) (nbs_mt nbs) (nbs_mtSize nbs) (nbs_tables nbs) (nbs_root nbs) (u64 (nbs_putCount nbs + 1)).

Definition nbs_Put (hp : heap) (nbs : NomsBlockStore) (c : Chunk) : outcome (heap * NomsBlockStore) :=
  let! (hp, nbs, ok) := nbs_addChunk hp nbs (ChunkHash c) (contents (Data c)) in
  let! _ := check ok in
  Ok (hp, incPutCount nbs).

(** The hashes that were not accepted are returned. *)
Fixpoint nbs_PutMany (hp : heap) (nbs : NomsBlockStore) (chunx : list Chunk) : outcome (heap * NomsBlockStore * list Hash) :=
  match chunx with
  | [] => Ok (hp, nbs, [])
  | c :: chunx' =>
      let! (hp, nbs, ok) := nbs_addChunk hp nbs (ChunkHash c) (contents (Data c)) in
      if negb ok then Ok (hp, nbs, ChunkHash <$> chunx) else nbs_PutMany hp (incPutCount nbs) chunx'
  end.

Definition nbs_Get (hp : heap) (nbs : NomsBlockStore) (h : Hash) : outcome Chunk :=
  match (match nbs_mt nbs with Some mt => mt_get mt h | None => None end) with
  | Some data => Ok (NewChunkWithHash h data)
  | None =>
      let! data := css_get hp (nbs_tables nbs) h in
      match data with Some data => Ok (NewChunkWithHash h data) | None => Ok EmptyChunk end
  end.

Definition toGetRecords (hashes : list Hash) : list getRecord :=
  imap (fun i a => MkGet a (Prefix a) (Z.of_nat i) false None) hashes.

Fixpoint run_reads (reqs : list getRecord) (bs : list (tableReader * readBatch)) : outcome (list getRecord) :=
  match bs with
  | [] => Ok reqs
  | (tr, b) :: bs' => let! reqs := readAtOffsets tr reqs b in run_reads reqs bs'
  end.

Definition respond (hashes : list Hash) (reqs : list getRecord) : list Chunk :=
  zip_with (fun h req => match gr_data req with None => EmptyChunk | Some data => NewChunkWithHash h data end) hashes reqs.

(** The part of [GetMany] up to [wg.Wait]: sorted requests and pending reads. *)
Definition GetMany_plan (hp : heap) (nbs : NomsBlockStore) (hashes : list Hash) : outcome (list getRecord * list (tableReader * readBatch)) :=
  let reqs := toGetRecords hashes in
  let (reqs, remaining) := match nbs_mt nbs with Some mt => mt_getMany mt reqs | None => (reqs, true) end in
  let reqs := go_sort getRecordByPrefix_Less reqs in
  if remaining : bool
  then let! (reqs, bs, _) := css_getMany hp (nbs_tables nbs) reqs in Ok (reqs, bs)
  else Ok (reqs, []).
Definition GetMany_finish (hashes : list Hash) (reqs : list getRecord) (bs : list (tableReader * readBatch)) : outcome (list Chunk) :=
  let! reqs := run_reads reqs bs in
  Ok (respond hashes (go_sort getRecordByOrder_Less reqs)).

(** [None] waits for a compaction. *)
Definition nbs_CalcReads (hp : heap) (nbs : NomsBlockStore) (hashes : list Hash) (blockSize maxReadSize ampThresh : Z) : option (outcome (Z * bool)) :=
  let reqs := go_sort getRecordByPrefix_Less (toGetRecords hashes) in
  match css_calcReads hp (nbs_tables nbs) reqs blockSize maxReadSize ampThresh 0 false with
  | None => None
  | Some r => Some (let! (_, reads, split, remaining) := r in let! _ := check (negb remaining) in Ok (reads, split))
  end.

Definition extractChunks (hp : heap) (nbs : NomsBlockStore) (order : EnumerationOrder) : option (outcome (list Chunk)) :=
  let mem := match nbs_mt nbs with Some mt => mt_extract mt order | None => [] end in
  let send := fun rec => NewChunkWithHash (er_a rec) (contents (er_data rec)) in
  match ts_extract hp (nbs_tables nbs) order with
  | None => None
  | Some (Panic w) => Some (Panic w)
  | Some (Ok tabs) => Some (Ok (send <$> match order with InsertOrder => tabs ++ mem | ReverseOrder => mem ++ tabs end))
  end.

Definition nbs_Count (hp : heap) (nbs : NomsBlockStore) : outcome Z :=
  let count := match nbs_mt nbs with Some mt => mt_count mt | None => 0 end in
  let! n := css_count hp (nbs_tables nbs) 0 in
  Ok (u32 (count + n)).

Definition nbs_Has (hp : heap) (nbs : NomsBlockStore) (h : Hash) : outcome bool :=
  let has := match nbs_mt nbs with Some mt => mt_has mt h | None => false end in
  if has then Ok true else css_has hp (nbs_tables nbs) h.

Definition nbs_Root (nbs : NomsBlockStore) : Hash := nbs_root nbs.

(** The part of [UpdateRoot] before the manifest is involved. *)
Definition flush_mt (hp : heap) (nbs : NomsBlockStore) : heap * NomsBlockStore :=
  match nbs_mt nbs with
  | Some mt =>
      if 0 <? mt_count mt then
        let (hp, tables) := Prepend hp (nbs_tables nbs) mt in
        (hp, MkNbs (nbs_nomsVersion nbs) None (nbs_mtSize nbs) tables (nbs_root nbs) (nbs_putCount nbs))
      else (hp, nbs)
  | None => (hp, nbs)
  end.

(** Process and disk. *)
Record world : Type := MkWorld { w_sys : sys; w_dir : dir; w_nbs : NomsBlockStore }.

(** [UpdateRoot] as a relation, for the compactions it waits for. *)
Inductive UpdateRoot (w : world) (current last : Hash) : world -> bool -> Prop :=
| update_done hp nbs s' specs fm actual tableNames :
    nbs_root (w_nbs w) = last ->
    flush_mt (s_heap (w_sys w)) (w_nbs w) = (hp, nbs) ->
    ToSpecs (MkSys (s_files (w_sys w)) hp) (nbs_tables nbs) s' specs ->
    Update (w_dir w) specs (nbs_root nbs) current = Ok (fm, actual, tableNames) ->
    current = actual ->
    UpdateRoot w current last
      (MkWorld s' fm (MkNbs NomsVersion (nbs_mt nbs) (nbs_mtSize nbs) (nbs_tables nbs) current (nbs_putCount nbs))) true
| update_lost hp nbs s' specs fm actual tableNames tables :
    nbs_root (w_nbs w) = last ->
    flush_mt (s_heap (w_sys w)) (w_nbs w) = (hp, nbs) ->
    ToSpecs (MkSys (s_files (w_sys w)) hp) (nbs_tables nbs) s' specs ->
    Update (w_dir w) specs (nbs_root nbs) current = Ok (fm, actual, tableNames) ->
    current <> actual ->
    Union (s_files s') (s_heap s') (nbs_tables nbs) tableNames = Some (Ok tables) ->
    UpdateRoot w current last
      (MkWorld s' fm (MkNbs (nbs_nomsVersion nbs) (nbs_mt nbs) (nbs_mtSize nbs) tables actual (nbs_putCount nbs))) false.

(** [Flush] is [UpdateRoot(root, root)], which has to succeed. *)
Definition Flush (w w' : world) : Prop := UpdateRoot w (nbs_root (w_nbs w)) (nbs_root (w_nbs w)) w' true.

End store.

End NbsStore.

Import NbsStore NbsTableFacts NbsReaderFacts NbsMemFacts ManifestFacts.

(** ** What the sources hold

    [U] is the universe of chunks in play: an address has one data.  This, and
    that different tables of such chunks have different names, is what content
    addressing by SHA-512 is trusted for. *)

Section invariant.
Context `{Snappy} `{!SnappyLaws} `{!SnappySlack} `{GoSort}.
Context (U : gmap addr (list byte)).

Definition good_list (cs : list (addr * list byte)) : Prop :=
  (forall h d, (h, d) ∈ cs -> U !! h = Some d) /\ NoDup (cs.*1).
Definition names_ok : Prop := forall cs cs', good_list cs -> good_list cs' -> table_name cs = table_name cs' -> cs ≡ₚ cs'.

(** A list that a table file can hold. *)
Record storable (cs : list (addr * list byte)) : Prop := {
  st_good : good_list cs;
  st_nonempty : cs <> [];
  st_fits : Forall chunk_fits cs;
  st_count : Zlength cs < 2 ^ 32;
  st_size : Zlength (table_bytes cs) < 2 ^ 63
}.
Definition files_ok (fs : files) : Prop :=
  forall name f, fs !! name = Some f -> exists cs, f = table_bytes cs /\ name = table_name cs /\ storable cs.

(** [p] is a persisted table of [cs], its file is there. *)
Definition p_lists (fs : files) (p : psource) (cs : list (addr * list byte)) : Prop :=
  match p with
  | PTable h tr => serves tr cs /\ storable cs /\ h = table_name cs /\ is_Some (fs !! h)
  | PEmpty => cs = []
  end.
Inductive lists (s : sys) : chunkSource -> list (addr * list byte) -> Prop :=
| lists_src p cs : p_lists (s_files s) p cs -> lists s (Src p) cs
| lists_mem id mt haver : s_heap s !! id = Some (InMemory mt haver) -> lists s (Compacting id) (mt_list mt)
| lists_done id p cs : s_heap s !! id = Some (Compacted p) -> p_lists (s_files s) p cs -> lists s (Compacting id) cs.

(** Address [h] is in one of the sources. *)
Definition key (s : sys) (css : list chunkSource) (h : addr) : Prop :=
  exists src cs, src ∈ css /\ lists s src cs /\ h ∈ cs.*1.
Definition empty_src (s : sys) (src : chunkSource) : Prop := lists s src [].

(** A source under compaction leaves out what its [haver] has, so a table set
    that contains it has to contain the non-empty part of that. *)
Definition closed (s : sys) (css : list chunkSource) : Prop :=
  forall id mt haver, Compacting id ∈ css -> s_heap s !! id = Some (InMemory mt haver) ->
    forall src, src ∈ haver -> src ∈ css \/ empty_src s src.
Definition older (id : nat) (src : chunkSource) : Prop :=
  match src with Src _ => True | Compacting j => (j < id)%nat end.

Definition mem_ok (mt : memTable) : Prop :=
  mt_wf mt /\ mt_maxData mt <= memTable_limit /\ good_list (mt_list mt).
Definition valid_src (s : sys) (src : chunkSource) : Prop := exists cs, lists s src cs.

(** Invariant of heap and files. *)
Record sys_ok (s : sys) : Prop := {
  so_files : files_ok (s_files s);
  so_mem : forall id mt haver, s_heap s !! id = Some (InMemory mt haver) ->
    mem_ok mt /\ Forall (older id) haver /\ Forall (valid_src s) haver /\ closed s haver;
  so_done : forall id p, s_heap s !! id = Some (Compacted p) -> exists cs, p_lists (s_files s) p cs
}.
(** Invariant of a table set. *)
Record tables_ok (s : sys) (css : list chunkSource) : Prop := {
  to_valid : Forall (valid_src s) css;
  to_closed : closed s css
}.

(** Invariant of a store and its heap and files. *)
Record store_ok (s : sys) (nbs : NomsBlockStore) : Prop := {
  no_sys : sys_ok s;
  no_tables : tables_ok s (nbs_tables nbs);
  no_mt : forall mt, nbs_mt nbs = Some mt -> mem_ok mt /\ mt_maxData mt = nbs_mtSize nbs;
  no_size : 0 < nbs_mtSize nbs <= memTable_limit
}.
(** The store has address [h]. *)
Definition in_mem (nbs : NomsBlockStore) (h : addr) : Prop :=
  exists mt, nbs_mt nbs = Some mt /\ h ∈ (mt_list mt).*1.
Definition holds (s : sys) (nbs : NomsBlockStore) (h : addr) : Prop :=
  in_mem nbs h \/ key s (nbs_tables nbs) h.

End invariant.

Module NbsStoreFacts.

Section facts.
Context `{Snappy} `{!SnappyLaws} `{!SnappySlack} `{GoSort}.
Context {U : gmap addr (list byte)}.

Lemma lists_good s src cs : sys_ok U s -> lists U s src cs -> good_list U cs.
Proof.
  intros Hs Hl. assert (forall p cs, p_lists U (s_files s) p cs -> good_list U cs) as Hp.
  { intros [h tr|] cs'; simpl; [intros (_ & Hst & _); apply Hst|]. intros ->. split; [by intros ?? ?%elem_of_nil|apply NoDup_nil_2]. }
  inversion Hl as [p cs' Hp'|id mt haver Hid|id p cs' Hid Hp']; subst; [by eapply Hp| |by eapply Hp].
  destruct (so_mem _ _ Hs _ _ _ Hid) as ((_ & _ & Hg) & _). done.
Qed.

Lemma newMmapTableReader_ok fs h cs : fs !! h = Some (table_bytes cs) -> h = table_name cs -> storable U cs ->
  exists tr, newMmapTableReader fs h (Zlength cs) = Ok (PTable h tr) /\ p_lists U fs (PTable h tr) cs.
Proof.
  intros Hf Hn Hst. destruct (st_good _ _ Hst) as [_ Hnd]. pose proof (st_nonempty _ _ Hst). pose proof (st_fits _ _ Hst).
  pose proof (st_count _ _ Hst) as Hc. pose proof (st_size _ _ Hst) as Hz. unfold newMmapTableReader. rewrite Hf.
  pose proof (Zlength_nonneg cs). pose proof (Zlength_nonneg (records cs)). assert (2 ^ 32 = 4294967296) by done.
  assert (Zlength (table_bytes cs) - footerSize - indexSize (Zlength cs) = Zlength (records cs)) as ->.
  { rewrite Zlength_table_bytes. unfold indexSize. change (addrSuffixSize + lengthSize + prefixTupleSize) with 28.
    rewrite u64_small by lia. lia. }
  unfold table_bytes at 1. rewrite slice_from_app by done. cbn [obind].
  pose proof (parse_table_ok cs []) as Hparse. cbn [app] in Hparse. rewrite Hparse; [|done..|apply suffix_nil]. cbn [obind].
  unfold count, newTableReader. cbn [tr_index index_of ti_chunkCount]. rewrite Zlength_recs, Z.eqb_refl. cbn [check obind].
  eexists. split; [done|]. split; [|split; [done|split; [done|by rewrite Hf]]].
  split; [|split; [by eexists|done]]. exists (go_sort prefixIndexSlice_Less (recs cs)).
  split; [done|apply go_sort_perm|by apply (go_sort_sorted _ prefixIndexSlice_Less pi_prefix)|done|done].
Qed.

(** ** Queries *)

Lemma getReader_ok s src : valid_src U s src -> is_ok (getReader (s_heap s) src) = true.
Proof. intros [cs Hl]. unfold getReader. inversion Hl as [|? ? ? Hid|? ? ? Hid]; subst; [done|by rewrite Hid|by rewrite Hid]. Qed.

Lemma src_has_ok s src cs h : sys_ok U s -> lists U s src cs -> src_has (s_heap s) src h = Ok (bool_decide (h ∈ cs.*1)).
Proof.
  intros Hs Hl. unfold src_has, getReader.
  assert (forall p, p_lists U (s_files s) p cs -> p_has p h = Ok (bool_decide (h ∈ cs.*1))) as Hp.
  { intros [a tr|]; simpl; [intros (Hsv & _); by apply has_ok|]. intros ->. rewrite bool_decide_eq_false_2; [done|apply not_elem_of_nil]. }
  inversion Hl as [p cs' Hp'|id mt haver Hid|id p cs' Hid Hp']; subst; [by apply Hp| |rewrite Hid; by apply Hp].
  rewrite Hid. cbn [obind]. f_equal. apply mt_has_elem. by destruct (so_mem _ _ Hs _ _ _ Hid) as ((Hw & _) & _).
Qed.

Lemma src_get_ok s src cs h : sys_ok U s -> lists U s src cs ->
  src_get (s_heap s) src h = Ok (if bool_decide (h ∈ cs.*1) then U !! h else None).
Proof.
  intros Hs Hl. pose proof (lists_good _ _ _ Hs Hl) as [HU Hnd]. unfold src_get, getReader.
  assert (forall p, p_lists U (s_files s) p cs -> p_get p h = Ok (if bool_decide (h ∈ cs.*1) then U !! h else None)) as Hp.
  { intros [a tr|]; simpl.
    - intros (Hsv & _). destruct (get_ok tr cs h Hsv) as (r & -> & Hr). f_equal. destruct r as [d|].
      + rewrite bool_decide_eq_true_2 by (apply list_elem_of_fmap; by exists (h, d)). by rewrite (HU h d).
      + by rewrite bool_decide_eq_false_2.
    - intros ->. rewrite bool_decide_eq_false_2; [done|apply not_elem_of_nil]. }
  inversion Hl as [p cs' Hp'|id mt haver Hid|id p cs' Hid Hp']; subst; [by apply Hp| |rewrite Hid; by apply Hp].
  rewrite Hid. cbn [obind]. f_equal. unfold mt_get. destruct (so_mem _ _ Hs _ _ _ Hid) as ((Hw & _) & _).
  destruct (mt_chunks mt !! h) as [d|] eqn:E.
  - apply mt_chunks_elem in E; [|done]. rewrite bool_decide_eq_true_2 by (apply list_elem_of_fmap; by exists (h, d)). by rewrite (HU h d).
  - rewrite bool_decide_eq_false_2; [done|]. intros ([h' d] & -> & Hin)%list_elem_of_fmap. apply mt_chunks_elem in Hin; [|done]. simpl in *. congruence.
Qed.

Lemma lists_keys s src cs cs' h : sys_ok U s -> lists U s src cs -> lists U s src cs' -> h ∈ cs.*1 -> h ∈ cs'.*1.
Proof.
  intros Hs Hl Hl' Hin. pose proof (src_has_ok s src cs h Hs Hl) as E. rewrite (src_has_ok s src cs' h Hs Hl') in E.
  rewrite (bool_decide_eq_true_2 (h ∈ cs.*1)) in E by done. injection E as E. by apply bool_decide_eq_true in E.
Qed.

Lemma key_skip s src cs css h : sys_ok U s -> lists U s src cs -> h ∉ cs.*1 -> key U s (src :: css) h <-> key U s css h.
Proof.
  intros Hs Hl Hin. split.
  - intros (src' & cs' & [->|Hin']%elem_of_cons & Hl' & Hh); [|by exists src', cs'].
    destruct Hin. by eapply lists_keys.
  - intros (src' & cs' & Hin' & Hl' & Hh). exists src', cs'. split; [by right|done].
Qed.

Lemma css_has_ok s css h : sys_ok U s -> Forall (valid_src U s) css ->
  exists b, css_has (s_heap s) css h = Ok b /\ (b = true <-> key U s css h).
Proof.
  intros Hs. induction 1 as [|src css [cs Hl] Hv IH]; cbn [css_has].
  { exists false. split; [done|]. split; [done|]. intros (? & ? & ?%elem_of_nil & _). done. }
  rewrite (src_has_ok s src cs h Hs Hl). cbn [obind]. case_bool_decide as Hin.
  - exists true. split; [done|]. split; [|done]. intros _. exists src, cs. split; [by left|done].
  - destruct IH as (b & -> & Hb). exists b. split; [done|]. by rewrite Hb, (key_skip s src cs).
Qed.

Lemma css_get_ok s css h : sys_ok U s -> Forall (valid_src U s) css ->
  exists r, css_get (s_heap s) css h = Ok r /\
    match r with Some d => key U s css h /\ U !! h = Some d | None => ~ key U s css h end.
Proof.
  intros Hs. induction 1 as [|src css [cs Hl] Hv IH]; cbn [css_get].
  { exists None. split; [done|]. intros (? & ? & ?%elem_of_nil & _). done. }
  rewrite (src_get_ok s src cs h Hs Hl). cbn [obind]. case_bool_decide as Hin.
  - pose proof (lists_good _ _ _ Hs Hl) as [HU _]. apply list_elem_of_fmap in Hin as ([h' d] & -> & Hin'). simpl.
    rewrite (HU h' d Hin'). exists (Some d). split; [done|]. split; [|done].
    exists src, cs. split; [by left|]. split; [done|]. apply list_elem_of_fmap. by exists (h', d).
  - destruct IH as (r & -> & Hr). exists r. split; [done|]. destruct r; by rewrite (key_skip s src cs).
Qed.

(** Does the table set have [h]? *)
Definition keyb (hp : heap) (css : list chunkSource) (h : addr) : bool :=
  match css_has hp css h with Ok b => b | Panic _ => false end.

Lemma keyb_key s css h : sys_ok U s -> Forall (valid_src U s) css -> keyb (s_heap s) css h = true <-> key U s css h.
Proof. intros Hs Hv. unfold keyb. destruct (css_has_ok s css h Hs Hv) as (b & -> & Hb). done. Qed.

Lemma keyb_cons s src cs css h : sys_ok U s -> lists U s src cs ->
  keyb (s_heap s) (src :: css) h = bool_decide (h ∈ cs.*1) || keyb (s_heap s) css h.
Proof. intros Hs Hl. unfold keyb. cbn [css_has]. rewrite (src_has_ok s src cs h Hs Hl). cbn [obind]. by destruct (bool_decide _). Qed.

Abbreviation by_prefix := (StronglySorted (fun x y => hr_prefix x <= hr_prefix y)).

Lemma src_hasMany_ok s src cs addrs : sys_ok U s -> lists U s src cs -> Forall has_wf addrs -> by_prefix addrs ->
  exists rem, src_hasMany (s_heap s) src addrs = Ok (has_answer (cs := cs) <$> addrs, rem) /\
    (rem = false -> missing (has_answer (cs := cs) <$> addrs) = false).
Proof.
  intros Hs Hl Hwf Hsort. unfold src_hasMany, getReader.
  assert (forall p, p_lists U (s_files s) p cs -> exists rem, p_hasMany p addrs = Ok (has_answer (cs := cs) <$> addrs, rem) /\
    (rem = false -> missing (has_answer (cs := cs) <$> addrs) = false)) as Hp.
  { intros [a tr|]; simpl.
    - intros (Hsv & _). rewrite (hasMany_ok tr cs) by done. eauto.
    - intros ->. exists true. split; [|done]. f_equal. f_equal. rewrite <- (list_fmap_id addrs) at 1. apply list_fmap_ext.
      intros i r _. unfold has_answer. rewrite bool_decide_eq_false_2, orb_false_r by apply not_elem_of_nil. by destruct r. }
  inversion Hl as [p cs' Hp'|id mt haver Hid|id p cs' Hid Hp']; subst; [by apply Hp| |rewrite Hid; by apply Hp].
  rewrite Hid. cbn [obind]. destruct (so_mem _ _ Hs _ _ _ Hid) as ((Hw & _) & _). rewrite mt_hasMany_ok by done. eauto.
Qed.

Lemma css_hasMany_ok s css : sys_ok U s -> Forall (valid_src U s) css ->
  haver_answers (css_hasMany (s_heap s) css) (keyb (s_heap s) css).
Proof.
  intros Hs. induction 1 as [|src css [cs Hl] Hv IH]; intros addrs Hwf Hsort; cbn [css_hasMany].
  { exists true. f_equal. f_equal. rewrite <- (list_fmap_id addrs) at 1. apply list_fmap_ext. intros i r _.
    unfold mark_has. simpl. rewrite orb_false_r. by destruct r. }
  destruct (src_hasMany_ok s src cs addrs Hs Hl Hwf Hsort) as (rem & -> & Hrem). cbn [obind].
  assert (forall r, mark_has (keyb (s_heap s) css) (has_answer (cs := cs) r) = mark_has (keyb (s_heap s) (src :: css)) r) as Hcomp.
  { intros r. unfold mark_has, has_answer. cbn [hr_a hr_prefix hr_order hr_has]. by rewrite (keyb_cons s src cs css) by done; rewrite orb_assoc. }
  destruct rem; cbn [negb].
  - destruct (IH (has_answer (cs := cs) <$> addrs)) as (rem' & ->).
    + apply Forall_fmap. eapply Forall_impl; [exact Hwf|]. done.
    + by apply (StronglySorted_key_fmap hr_prefix).
    + exists rem'. f_equal. f_equal. rewrite <- list_fmap_compose. apply list_fmap_ext. intros i r _. apply Hcomp.
  - exists false. f_equal. f_equal. apply list_fmap_ext. intros i r Hr. rewrite <- Hcomp. unfold mark_has.
    assert (hr_has (has_answer (cs := cs) r) = true) as Hhas; [|destruct (has_answer (cs := cs) r); simpl in *; by subst].
    specialize (Hrem eq_refl). unfold missing in Hrem. destruct (hr_has (has_answer (cs := cs) r)) eqn:E; [done|]. exfalso.
    assert (existsb (fun r => negb (hr_has r)) (has_answer (cs := cs) <$> addrs) = true) as Hx; [|congruence].
    apply existsb_exists. exists (has_answer (cs := cs) r). split; [|by rewrite E].
    apply list_elem_of_In, list_elem_of_fmap. exists r. split; [done|]. by eapply list_elem_of_lookup_2.
Qed.

(** ** Compaction *)

Lemma fresh_good k cs : good_list U cs -> good_list U (fresh_chunks k cs).
Proof.
  intros [HU Hn]. split.
  - intros h d [_ Hin]%list_elem_of_filter. by apply HU.
  - eapply sublist_NoDup; [exact Hn|]. apply fmap_sublist, sublist_filter.
Qed.

Lemma fresh_storable mt k : mem_ok U mt -> mt_order mt <> [] -> fresh_chunks k (mt_list mt) <> [] ->
  storable U (fresh_chunks k (mt_list mt)).
Proof.
  intros (Hw & Hmax & Hg) Hne Hf. destruct (fresh_room mt k Hw Hmax Hne) as (size & _ & Hsize & _ & Hroom).
  split; [by apply fresh_good|done|by apply fresh_fits, mt_fits| |rewrite Zlength_table_bytes; lia].
  destruct (worst_case_fresh k (mt_list mt) (mt_fits mt Hw Hmax)) as [_ Hlen]. rewrite Zlength_mt_list in Hlen.
  pose proof (mt_count_bound mt Hw Hmax). unfold memTable_limit in *. assert (2 ^ 31 < 2 ^ 32) by done. lia.
Qed.

(** What a compaction leaves behind. *)
Record compacted (s : sys) (id : nat) (mt : memTable) (haver : list chunkSource) (s' : sys) : Prop := {
  co_src : exists p, s_heap s' = <[id := Compacted p]> (s_heap s) /\
    p_lists U (s_files s') p (fresh_chunks (keyb (s_heap s) haver) (mt_list mt));
  co_files : files_ok U (s_files s');
  co_kept : forall h, is_Some (s_files s !! h) -> is_Some (s_files s' !! h);
  co_some : mt_order mt <> []
}.

Lemma compact_ok s id mt haver : sys_ok U s -> s_heap s !! id = Some (InMemory mt haver) -> mt_order mt <> [] ->
  exists s', compact s id = Ok s' /\ compacted s id mt haver s'.
Proof.
  intros Hs Hid Hne. destruct (so_mem _ _ Hs _ _ _ Hid) as (Hm & _ & Hv & _). unfold compact. rewrite Hid. unfold Compact.
  destruct Hm as (Hw & Hmax & Hg). set (k := keyb (s_heap s) haver). set (cs := fresh_chunks k (mt_list mt)).
  destruct (mt_write_ok mt (Some (css_hasMany (s_heap s) haver)) k Hw Hmax Hne) as (mt' & ->); [by apply css_hasMany_ok|].
  fold cs. cbn [obind]. destruct (Zlength cs =? 0) eqn:E; bool_lia.
  - cbn [obind]. eexists. split; [done|]. assert (cs = []) as Hcs.
    { destruct cs as [|c l]; [done|]. rewrite Zlength_cons in E. pose proof (Zlength_nonneg l). lia. }
    split; [exists PEmpty; done|apply Hs|done|done].
  - assert (storable U cs) as Hst.
    { apply fresh_storable; [done|done|]. fold cs. intros Hcs. by rewrite Hcs in E. }
    destruct (newMmapTableReader_ok (<[table_name cs := table_bytes cs]> (s_files s)) (table_name cs) cs) as (tr & -> & Hp);
      [by rewrite lookup_insert_eq|done|done|]. cbn [obind]. eexists. split; [done|]. split.
    + by exists (PTable (table_name cs) tr).
    + cbn [s_files]. intros name f [[<- <-]|[_ Hf]]%lookup_insert_Some; [by exists cs|by apply (so_files _ _ Hs)].
    + intros h Hh. cbn [s_files]. destruct (decide (h = table_name cs)) as [->|Hd]; [by rewrite lookup_insert_eq|by rewrite lookup_insert_ne].
    + done.
Qed.
(** The compaction of an empty memory table panics. *)
Lemma compact_empty s id mt haver : s_heap s !! id = Some (InMemory mt haver) -> mt_order mt = [] -> compact s id = Panic ExplicitPanic.
Proof. intros Hid Hm. unfold compact. rewrite Hid. unfold Compact. by rewrite mt_write_empty. Qed.

Section step.
Context {s : sys} {id : nat} {mt : memTable} {haver : list chunkSource} {s' : sys}.
Context (OK : sys_ok U s) (ID : s_heap s !! id = Some (InMemory mt haver)) (CO : compacted s id mt haver s').

Lemma p_lists_kept p cs : p_lists U (s_files s) p cs -> p_lists U (s_files s') p cs.
Proof. destruct p as [h tr|]; simpl; [|done]. intros (? & ? & ? & ?). split_and!; try done. by apply (co_kept _ _ _ _ _ CO). Qed.

Lemma heap_other j : j <> id -> s_heap s' !! j = s_heap s !! j.
Proof. intros Hj. destruct (co_src _ _ _ _ _ CO) as (p & -> & _). by rewrite list_lookup_insert_ne. Qed.
Lemma heap_this : exists p, s_heap s' !! id = Some (Compacted p) /\
  p_lists U (s_files s') p (fresh_chunks (keyb (s_heap s) haver) (mt_list mt)).
Proof.
  destruct (co_src _ _ _ _ _ CO) as (p & -> & Hp). exists p. split; [|done].
  rewrite list_lookup_insert_eq; [done|]. by eapply lookup_lt_Some.
Qed.

Lemma src_cases src j : {src = Compacting j} + {src <> Compacting j}.
Proof. destruct src as [p|i]; [by right|]. destruct (decide (i = j)) as [->|Hne]; [by left|right; congruence]. Qed.

Lemma lists_kept src cs : src <> Compacting id -> lists U s src cs -> lists U s' src cs.
Proof.
  intros Hne Hl. inversion Hl as [p cs' Hp'|j mt' haver' Hj|j p cs' Hj Hp']; subst.
  - constructor. by apply p_lists_kept.
  - eapply lists_mem. rewrite heap_other by congruence. exact Hj.
  - eapply lists_done; [|by apply p_lists_kept]. rewrite heap_other by congruence. exact Hj.
Qed.
Lemma lists_this : lists U s' (Compacting id) (fresh_chunks (keyb (s_heap s) haver) (mt_list mt)).
Proof. destruct heap_this as (p & Hp & Hl). by eapply lists_done. Qed.

Lemma valid_kept src : valid_src U s src -> valid_src U s' src.
Proof.
  intros [cs Hl]. destruct (src_cases src id) as [->|Hne]; [eexists; apply lists_this|].
  exists cs. by apply lists_kept.
Qed.
Lemma empty_kept src : empty_src U s src -> empty_src U s' src.
Proof.
  intros Hl. apply lists_kept; [|done]. intros ->. pose proof (co_some _ _ _ _ _ CO) as Hne.
  destruct (mt_order mt) as [|r l] eqn:Eo; [done|].
  assert (hr_a r ∈ ([] : list (addr * list byte)).*1) as Hx; [|by apply elem_of_nil in Hx].
  eapply lists_keys; [exact OK|by eapply lists_mem|exact Hl|]. unfold mt_list. rewrite Eo. by left.
Qed.
Lemma closed_kept css : closed U s css -> closed U s' css.
Proof.
  intros Hc j mt' haver' Hin Hj src Hsrc.
  assert (j <> id) as Hne. { intros ->. destruct heap_this as (p & Hp & _). congruence. }
  rewrite heap_other in Hj by done. destruct (Hc j mt' haver' Hin Hj src Hsrc) as [|He]; [by left|right; by apply empty_kept].
Qed.

Lemma sys_ok_kept : sys_ok U s'.
Proof.
  split; [apply CO| |].
  - intros j mt' haver' Hj. assert (j <> id) as Hne. { intros ->. destruct heap_this as (p & Hp & _). congruence. }
    rewrite heap_other in Hj by done. destruct (so_mem _ _ OK _ _ _ Hj) as (Hm & Hold & Hv & Hc).
    split; [done|]. split; [done|]. split; [|by apply closed_kept].
    eapply Forall_impl; [exact Hv|]. apply valid_kept.
  - intros j p Hj. destruct (decide (j = id)) as [->|Hne].
    + destruct heap_this as (p' & Hp & Hl). rewrite Hp in Hj. injection Hj as <-. eauto.
    + rewrite heap_other in Hj by done. destruct (so_done _ _ OK _ _ Hj) as [cs Hcs]. exists cs. by apply p_lists_kept.
Qed.

Lemma tables_ok_kept css : tables_ok U s css -> tables_ok U s' css.
Proof. intros [Hv Hc]. split; [eapply Forall_impl; [exact Hv|apply valid_kept]|by apply closed_kept]. Qed.

(** A compaction does not change what a table set holds. *)
Lemma key_kept css h : tables_ok U s css -> key U s css h <-> key U s' css h.
Proof.
  intros [Hv Hc]. rewrite Forall_forall in Hv. split.
  - intros (src & cs & Hin & Hl & Hh). destruct (src_cases src id) as [->|Hne].
    2: { exists src, cs. split; [done|]. split; [by apply lists_kept|done]. }
    apply (lists_keys _ _ _ (mt_list mt) h OK Hl) in Hh; [|by eapply lists_mem].
    destruct (so_mem _ _ OK _ _ _ ID) as (_ & Hold & Hvh & _).
    destruct (keyb (s_heap s) haver h) eqn:Ek.
    + apply keyb_key in Ek as (src' & cs' & Hin' & Hl' & Hh'); [|done|done].
      rewrite Forall_forall in Hold. specialize (Hold _ Hin').
      assert (src' <> Compacting id) as Hne' by (intros ->; simpl in Hold; lia).
      destruct (Hc id mt haver Hin ID src' Hin') as [Hin2|He].
      * exists src', cs'. split; [done|]. split; [by apply lists_kept|done].
      * exfalso. assert (h ∈ ([] : list (addr * list byte)).*1) as Hx; [|by apply elem_of_nil in Hx].
        eapply lists_keys; [exact OK|exact Hl'|exact He|done].
    + exists (Compacting id), (fresh_chunks (keyb (s_heap s) haver) (mt_list mt)). split; [done|]. split; [apply lists_this|].
      apply list_elem_of_fmap in Hh as (c & -> & Hc'). apply list_elem_of_fmap. exists c. split; [done|]. by apply list_elem_of_filter.
  - intros (src & cs & Hin & Hl & Hh). destruct (Hv src Hin) as [cs0 Hl0]. exists src.
    destruct (src_cases src id) as [->|Hne].
    + exists (mt_list mt). split; [done|]. split; [by eapply lists_mem|].
      assert (h ∈ (fresh_chunks (keyb (s_heap s) haver) (mt_list mt)).*1) as Hf.
      { eapply lists_keys; [apply sys_ok_kept|exact Hl|apply lists_this|done]. }
      apply list_elem_of_fmap in Hf as (c & -> & [_ Hc']%list_elem_of_filter). apply list_elem_of_fmap. by exists c.
    + exists cs0. split; [done|]. split; [done|]. eapply lists_keys; [apply sys_ok_kept|exact Hl|by apply lists_kept|done].
Qed.

End step.

(** ** [Prepend] *)

Section prepend.
Context {s : sys} {mt : memTable} {ts : list chunkSource}.
Context (OK : sys_ok U s) (TS : tables_ok U s ts) (MEM : mem_ok U mt).
#[local] Abbreviation s' := (MkSys (s_files s) (s_heap s ++ [InMemory mt ts])).

Lemma lookup_old id c : s_heap s !! id = Some c -> s_heap s' !! id = Some c.
Proof. intros Hid. cbn [s_heap]. by apply lookup_app_l_Some. Qed.
Lemma lookup_new id c : s_heap s' !! id = Some c -> s_heap s !! id = Some c \/ id = length (s_heap s) /\ c = InMemory mt ts.
Proof.
  cbn [s_heap]. intros [Hid|[Hlen Hid]]%lookup_app_Some; [by left|right].
  apply list_lookup_singleton_Some in Hid as [Hz <-]. split; [lia|done].
Qed.

Lemma prepend_lists src cs : lists U s src cs -> lists U s' src cs.
Proof.
  intros [p cs' Hp|id m haver Hid|id p cs' Hid Hp]; [by constructor|eapply lists_mem|eapply lists_done; [|done]]; by apply lookup_old.
Qed.
Lemma prepend_valid src : valid_src U s src -> valid_src U s' src.
Proof. intros [cs Hl]. exists cs. by apply prepend_lists. Qed.
Lemma valid_older src : valid_src U s src -> older (length (s_heap s)) src.
Proof. intros [cs Hl]. destruct Hl as [|id m haver Hid|id p cs Hid _]; simpl; [done|by eapply lookup_lt_Some..]. Qed.

Lemma closed_old css : Forall (valid_src U s) css -> closed U s css -> closed U s' css.
Proof.
  intros Hv Hc id m haver Hin Hid src Hsrc. apply lookup_new in Hid as [Hid|[-> _]].
  - destruct (Hc id m haver Hin Hid src Hsrc) as [|He]; [by left|right; by apply prepend_lists].
  - rewrite Forall_forall in Hv. apply Hv, valid_older in Hin. simpl in Hin. lia.
Qed.

Lemma prepend_sys : sys_ok U s'.
Proof.
  destruct TS as [Hv Hc]. split; [apply OK| |].
  - intros id m haver [Hid|[-> Heq]]%lookup_new.
    + destruct (so_mem _ _ OK _ _ _ Hid) as (Hm & Hold & Hvh & Hch). split; [done|]. split; [done|].
      split; [by eapply Forall_impl; [exact Hvh|apply prepend_valid]|by apply closed_old].
    + injection Heq as -> ->. split; [done|]. split; [eapply Forall_impl; [exact Hv|apply valid_older]|].
      split; [eapply Forall_impl; [exact Hv|apply prepend_valid]|by apply closed_old].
  - intros id p [Hid|[_ Heq]]%lookup_new; [|done]. by apply (so_done _ _ OK id).
Qed.

Lemma prepend_tables : tables_ok U s' (Compacting (length (s_heap s)) :: ts).
Proof.
  destruct TS as [Hv Hc]. assert (s_heap s' !! length (s_heap s) = Some (InMemory mt ts)) as Hnew by (cbn [s_heap]; by apply list_lookup_middle).
  split.
  - constructor; [eexists; by eapply lists_mem|]. eapply Forall_impl; [exact Hv|apply prepend_valid].
  - intros id m haver [Heq|Hin]%elem_of_cons Hid src Hsrc.
    + injection Heq as ->. rewrite Hnew in Hid. injection Hid as <- <-. left. by right.
    + destruct (closed_old ts Hv Hc id m haver Hin Hid src Hsrc); [left; by right|by right].
Qed.

Lemma prepend_key h : key U s' (Compacting (length (s_heap s)) :: ts) h <-> h ∈ (mt_list mt).*1 \/ key U s ts h.
Proof.
  assert (lists U s' (Compacting (length (s_heap s))) (mt_list mt)) as Hnew.
  { eapply lists_mem. cbn [s_heap]. by apply list_lookup_middle. }
  split.
  - intros (src & cs & [->|Hin]%elem_of_cons & Hl & Hh).
    + left. eapply lists_keys; [apply prepend_sys|exact Hl|exact Hnew|done].
    + right. destruct TS as [Hv _]. rewrite Forall_forall in Hv. destruct (Hv src Hin) as [cs' Hl'].
      exists src, cs'. split; [done|]. split; [done|]. eapply lists_keys; [apply prepend_sys|exact Hl|by apply prepend_lists|done].
  - intros [Hh|(src & cs & Hin & Hl & Hh)].
    + exists (Compacting (length (s_heap s))), (mt_list mt). split; [by left|done].
    + exists src, cs. split; [by right|]. split; [by apply prepend_lists|done].
Qed.

End prepend.

(** ** The store: queries and [Put] *)

Lemma nbs_Has_ok s nbs h : store_ok U s nbs ->
  exists b, nbs_Has (s_heap s) nbs h = Ok b /\ (b = true <-> holds U s nbs h).
Proof.
  intros [Hs [Hv _] Hmt _]. unfold nbs_Has, holds, in_mem. destruct (css_has_ok s (nbs_tables nbs) h Hs Hv) as (b & -> & Hb).
  destruct (nbs_mt nbs) as [mt|] eqn:Emt.
  - destruct (Hmt mt eq_refl) as [(Hw & _) _]. rewrite mt_has_elem by done. case_bool_decide as Hin.
    + exists true. split; [done|]. split; [|done]. intros _. left. eauto.
    + exists b. split; [done|]. rewrite Hb. split; [by right|]. intros [(? & [= <-] & ?)|?]; done.
  - exists b. split; [done|]. rewrite Hb. split; [by right|]. intros [(? & ? & ?)|?]; done.
Qed.

Lemma nbs_Get_ok s nbs h : store_ok U s nbs ->
  exists c, nbs_Get (s_heap s) nbs h = Ok c /\
    ((exists d, holds U s nbs h /\ U !! h = Some d /\ c = NewChunkWithHash h d) \/ ~ holds U s nbs h /\ c = EmptyChunk).
Proof.
  intros [Hs [Hv _] Hmt _]. unfold nbs_Get, holds, in_mem. destruct (css_get_ok s (nbs_tables nbs) h Hs Hv) as (r & -> & Hr). cbn [obind].
  destruct (nbs_mt nbs) as [mt|] eqn:Emt.
  - destruct (Hmt mt eq_refl) as [(Hw & _ & HU & _) _]. unfold mt_get. destruct (mt_chunks mt !! h) as [d|] eqn:Eh.
    + apply mt_chunks_elem in Eh; [|done]. eexists. split; [done|]. left. exists d. split; [|by rewrite (HU h d)].
      left. exists mt. split; [done|]. apply list_elem_of_fmap. by exists (h, d).
    + assert (h ∉ (mt_list mt).*1) as Hno.
      { intros ([h' d] & -> & Hin)%list_elem_of_fmap. apply mt_chunks_elem in Hin; [|done]. simpl in *. congruence. }
      destruct r as [d|]; (eexists; split; [done|]); [left; exists d; tauto|]. right. split; [|done].
      intros [(? & [= <-] & ?)|?]; done.
  - destruct r as [d|]; (eexists; split; [done|]); [left; exists d; tauto|]. right. split; [|done].
    intros [(? & ? & ?)|?]; done.
Qed.

(** What an accepted chunk does to a memory table. *)
Lemma mem_add mt h d mt' : mem_ok U mt -> U !! h = Some d -> Zlength d < 2 ^ 62 -> mt_addChunk mt h d = Ok (mt', true) ->
  mem_ok U mt' /\ mt_maxData mt' = mt_maxData mt /\ forall x, x ∈ (mt_list mt').*1 <-> x = h \/ x ∈ (mt_list mt).*1.
Proof.
  intros (Hw & Hmax & HU & HN) Hh Hd Hadd. assert (d <> []) as Hne by (by intros ->).
  destruct (mt_addChunk_ok mt h d Hw Hmax Hne Hd) as (mt2 & b & Heq & Hw' & Hmax' & Hb). rewrite Hadd in Heq. injection Heq as <- <-.
  destruct Hb as [_ Hl]. rewrite mt_has_elem in Hl by done. split; [split; [done|split; [by rewrite Hmax'|]]|split; [done|]].
  - split; [|apply Hw']. intros x e. rewrite Hl. intros [Hin|Hin]%elem_of_app; [by apply HU|].
    case_bool_decide; [by apply elem_of_nil in Hin|]. apply list_elem_of_singleton in Hin. by injection Hin as -> ->.
  - intros x. rewrite Hl, fmap_app, elem_of_app. case_bool_decide as Hin; simpl.
    + rewrite elem_of_nil. split; [tauto|]. intros [->|?]; [by left|tauto].
    + rewrite list_elem_of_singleton. tauto.
Qed.

Lemma newMemTable_ok n : 0 < n <= memTable_limit -> mem_ok U (newMemTable n).
Proof.
  intros Hn. split; [apply newMemTable_wf; lia|]. split; [simpl; lia|]. split; [by intros ?? ?%elem_of_nil|apply NoDup_nil_2].
Qed.

(** A memory table that refuses a chunk stays as it is. *)
Lemma refused_same mt h d mt1 : mt_addChunk mt h d = Ok (mt1, false) -> mt1 = mt.
Proof. unfold mt_addChunk. intros Hadd. repeat case_match; by simplify_eq. Qed.

(** A refused chunk that fits in an empty table was refused by a non-empty one. *)
Lemma refused_nonempty mt h d n mt1 mt2 : mt_wf mt -> mt_maxData mt = n -> mt_addChunk mt h d = Ok (mt1, false) ->
  mt_addChunk (newMemTable n) h d = Ok (mt2, true) -> mt1 = mt /\ mt_order mt <> [].
Proof.
  intros Hw <- Hno Hyes. unfold mt_addChunk in *. destruct (Zlength d =? 0); [done|]. cbn [newMemTable mt_chunks] in Hyes.
  rewrite lookup_empty in Hyes. destruct (mt_chunks mt !! h); [done|]. cbn [newMemTable mt_maxData mt_totalData] in Hyes.
  destruct (mt_maxData mt <? u64 (mt_totalData mt + _)) eqn:E1; [|done]. injection Hno as <-. split; [done|].
  destruct (mt_maxData mt <? u64 (0 + _)) eqn:E2; [done|]. intros Hm.
  assert (mt_totalData mt = 0) as Ht by (rewrite (mw_total _ Hw); unfold mt_list; by rewrite Hm). rewrite Ht in E1. congruence.
Qed.

(** The memory table that [addChunk] starts from. *)
Definition mt_of (nbs : NomsBlockStore) : memTable :=
  match nbs_mt nbs with None => newMemTable (nbs_mtSize nbs) | Some mt => mt end.
Lemma mt_of_ok s nbs : store_ok U s nbs -> mem_ok U (mt_of nbs) /\ mt_maxData (mt_of nbs) = nbs_mtSize nbs.
Proof.
  intros Hok. unfold mt_of. destruct (nbs_mt nbs) as [mt|] eqn:E; [by apply Hok|]. split; [apply newMemTable_ok, Hok|done].
Qed.
Lemma in_mem_some nbs mt x : nbs_mt nbs = Some mt -> in_mem nbs x <-> x ∈ (mt_list mt).*1.
Proof. unfold in_mem. intros ->. split; [by intros (? & [= <-] & ?)|by eexists]. Qed.
Lemma in_mem_none nbs x : nbs_mt nbs = None -> in_mem nbs x <-> False.
Proof. unfold in_mem. intros ->. split; [by intros (? & ? & _)|done]. Qed.
Lemma mt_of_mem nbs x : x ∈ (mt_list (mt_of nbs)).*1 <-> in_mem nbs x.
Proof.
  unfold mt_of. destruct (nbs_mt nbs) as [mt|] eqn:E; [by rewrite (in_mem_some _ _ _ E)|]. rewrite (in_mem_none _ _ E). apply elem_of_nil.
Qed.

Lemma addChunk_ok s nbs h d hp' nbs' : store_ok U s nbs -> U !! h = Some d -> Zlength d < 2 ^ 62 ->
  nbs_addChunk (s_heap s) nbs h d = Ok (hp', nbs', true) ->
  store_ok U (MkSys (s_files s) hp') nbs' /\ nbs_root nbs' = nbs_root nbs /\ nbs_mtSize nbs' = nbs_mtSize nbs /\
  forall x, holds U (MkSys (s_files s) hp') nbs' x <-> x = h \/ holds U s nbs x.
Proof.
  intros Hok Hh Hd. destruct (mt_of_ok s nbs Hok) as [Hm Hmax]. unfold nbs_addChunk. fold (mt_of nbs).
  destruct (mt_addChunk (mt_of nbs) h d) as [[mt1 [|]]|] eqn:E1; cbn [obind negb]; [..|done].
  - intros [= <- <-]. destruct (mem_add _ _ _ _ Hm Hh Hd E1) as (Hm1 & Hmax1 & Hk). destruct s as [fs hp].
    split; [|split; [done|split; [done|]]].
    + split; [apply Hok|apply Hok| |apply Hok]. intros mt [= <-]. by rewrite Hmax1.
    + intros x. unfold holds. rewrite (in_mem_some _ mt1) by done. rewrite Hk, mt_of_mem. cbn [nbs_tables]. tauto.
  - cbn [Prepend]. destruct (mt_addChunk (newMemTable (nbs_mtSize nbs)) h d) as [[mt2 b]|] eqn:E2; cbn [obind]; [|done]. intros [= <- <- ->].
    apply refused_same in E1 as ->. pose proof (no_size _ _ _ Hok) as Hsz.
    destruct (mem_add _ _ _ _ (newMemTable_ok _ Hsz) Hh Hd E2) as (Hm2 & Hmax2 & Hk2).
    pose proof (no_sys _ _ _ Hok) as Hs. pose proof (no_tables _ _ _ Hok) as Ht.
    split; [|split; [done|split; [done|]]].
    + split; [by apply prepend_sys|by apply prepend_tables| |done]. intros mt [= <-]. done.
    + intros x. unfold holds. cbn [nbs_mt nbs_tables]. rewrite prepend_key, mt_of_mem by done.
      rewrite (in_mem_some _ mt2) by done. rewrite Hk2. change (mt_list (newMemTable _)) with (@nil (addr * list byte)).
      rewrite elem_of_nil. tauto.
Qed.

(** What a memory table holds fits in it. *)
Lemma mem_fits mt h d : mem_ok U mt -> h ∈ (mt_list mt).*1 -> U !! h = Some d -> Zlength d <= mt_maxData mt.
Proof.
  intros (Hw & _ & HU & _) ([h' d'] & -> & Hin)%list_elem_of_fmap Hd. cbn in Hd. rewrite (HU _ _ Hin) in Hd. injection Hd as ->.
  pose proof (mw_total _ Hw) as Ht. pose proof (mw_fits _ Hw) as Hf. assert (Zlength d <= total_data (mt_list mt)); [|lia]. clear -Hin.
  induction (mt_list mt) as [|c l IH]; [by apply elem_of_nil in Hin|]. cbn [total_data foldr]. fold (total_data l). pose proof (total_data_nonneg l). pose proof (Zlength_nonneg (snd c)).
  apply elem_of_cons in Hin as [<-|Hin]; [cbn; lia|]. specialize (IH Hin). cbn. lia.
Qed.
(** The two ways in which a chunk is accepted: the memory table takes it, or a new
    one does and the old one, which is not empty, is handed to a compaction. *)
Inductive accepted (s : sys) (nbs : NomsBlockStore) (h : addr) (hp' : heap) (nbs' : NomsBlockStore) : Prop :=
| acc_here mt : hp' = s_heap s -> nbs_tables nbs' = nbs_tables nbs -> nbs_mt nbs' = Some mt ->
    (forall x, x ∈ (mt_list mt).*1 <-> x = h \/ in_mem nbs x) -> accepted s nbs h hp' nbs'
| acc_next mt mt0 : hp' = s_heap s ++ [InMemory mt0 (nbs_tables nbs)] -> nbs_mt nbs = Some mt0 -> mt_order mt0 <> [] ->
    nbs_tables nbs' = Compacting (length (s_heap s)) :: nbs_tables nbs -> nbs_mt nbs' = Some mt ->
    (forall x, x ∈ (mt_list mt).*1 <-> x = h) -> accepted s nbs h hp' nbs'.
Lemma addChunk_accepted s nbs h d hp' nbs' : store_ok U s nbs -> U !! h = Some d -> Zlength d < 2 ^ 62 ->
  nbs_addChunk (s_heap s) nbs h d = Ok (hp', nbs', true) -> accepted s nbs h hp' nbs' /\ Zlength d <= nbs_mtSize nbs.
Proof.
  intros Hok Hh Hd. destruct (mt_of_ok s nbs Hok) as [Hm Hmax]. unfold nbs_addChunk. fold (mt_of nbs).
  destruct (mt_addChunk (mt_of nbs) h d) as [[mt1 [|]]|] eqn:E1; cbn [obind negb]; [..|done].
  - intros [= <- <-]. destruct (mem_add _ _ _ _ Hm Hh Hd E1) as (Hm1 & Hmax1 & Hk). split.
    + eapply acc_here; [done|done|reflexivity|]. intros x. by rewrite Hk, mt_of_mem.
    + rewrite <- Hmax, <- Hmax1. apply (mem_fits mt1 h); [done| |done]. apply Hk. by left.
  - cbn [Prepend]. destruct (mt_addChunk (newMemTable (nbs_mtSize nbs)) h d) as [[mt2 b]|] eqn:E2; cbn [obind]; [|done]. intros [= <- <- ->].
    destruct (refused_nonempty _ _ _ _ _ _ (proj1 Hm) Hmax E1 E2) as [-> Hne]. pose proof (no_size _ _ _ Hok) as Hsz.
    destruct (mem_add _ _ _ _ (newMemTable_ok _ Hsz) Hh Hd E2) as (Hm2 & Hmax2 & Hk2). split.
    + assert (nbs_mt nbs = Some (mt_of nbs)) as Hmt by (unfold mt_of in *; by destruct (nbs_mt nbs)).
      eapply acc_next; [reflexivity|done|done|done|reflexivity|]. intros x. rewrite Hk2. change (mt_list (newMemTable _)) with (@nil (addr * list byte)).
      rewrite elem_of_nil. tauto.
    + change (nbs_mtSize nbs) with (mt_maxData (newMemTable (nbs_mtSize nbs))). rewrite <- Hmax2. apply (mem_fits mt2 h); [done| |done]. apply Hk2. by left.
Qed.

(** A chunk is refused when it is larger than a memory table, and what was in
    memory is handed to a compaction all the same. *)
Lemma addChunk_refused s nbs h d hp' nbs' : store_ok U s nbs -> Zlength d < 2 ^ 62 ->
  nbs_addChunk (s_heap s) nbs h d = Ok (hp', nbs', false) ->
  nbs_mtSize nbs < Zlength d /\ hp' = s_heap s ++ [InMemory (mt_of nbs) (nbs_tables nbs)] /\
  nbs' = MkNbs (nbs_nomsVersion nbs) (Some (newMemTable (nbs_mtSize nbs))) (nbs_mtSize nbs) (Compacting (length (s_heap s)) :: nbs_tables nbs) (nbs_root nbs) (nbs_putCount nbs).
Proof.
  intros Hok Hlen. unfold nbs_addChunk. fold (mt_of nbs). destruct (mt_addChunk (mt_of nbs) h d) as [[mt1 [|]]|] eqn:E1; cbn [obind negb]; [done| |done].
  cbn [Prepend]. destruct (mt_addChunk (newMemTable (nbs_mtSize nbs)) h d) as [[mt2 b]|] eqn:E2; cbn [obind]; [|done]. intros [= <- <- ->].
  apply refused_same in E1 as ->. pose proof E2 as ->%refused_same. split; [|done]. unfold mt_addChunk in E2. destruct (Zlength d =? 0); [done|].
  cbn [newMemTable mt_chunks mt_maxData mt_totalData] in E2. rewrite lookup_empty in E2. destruct (_ <? _) eqn:E; [|done]. bool_lia.
  pose proof (Zlength_nonneg d). rewrite u64_small in E by (assert (2 ^ 62 < 2 ^ 64) by done; lia). lia.
Qed.
Lemma refused_ok s nbs : store_ok U s nbs -> let s' := MkSys (s_files s) (s_heap s ++ [InMemory (mt_of nbs) (nbs_tables nbs)]) in
  let nbs' := MkNbs (nbs_nomsVersion nbs) (Some (newMemTable (nbs_mtSize nbs))) (nbs_mtSize nbs) (Compacting (length (s_heap s)) :: nbs_tables nbs) (nbs_root nbs) (nbs_putCount nbs) in
  store_ok U s' nbs' /\ forall x, holds U s' nbs' x <-> holds U s nbs x.
Proof.
  intros Hok s' nbs'. destruct (mt_of_ok s nbs Hok) as [Hm _]. pose proof Hok as [Hs Ht _ Hsz]. split.
  - split; [by apply prepend_sys|by apply prepend_tables| |done]. intros mt [= <-]. split; [by apply newMemTable_ok|done].
  - intros x. unfold holds. cbn [nbs_mt nbs_tables nbs']. unfold s'. rewrite prepend_key, mt_of_mem by done. rewrite (in_mem_some _ (newMemTable (nbs_mtSize nbs))) by done.
    change (mt_list (newMemTable _)) with (@nil (addr * list byte)). rewrite elem_of_nil. tauto.
Qed.

(** A chunk of at most the size of a memory table is always accepted. *)
Lemma addChunk_total s nbs h d : store_ok U s nbs -> d <> [] -> Zlength d <= nbs_mtSize nbs ->
  exists hp' nbs', nbs_addChunk (s_heap s) nbs h d = Ok (hp', nbs', true).
Proof.
  intros Hok Hd Hlen. destruct (mt_of_ok s nbs Hok) as [(Hw & Hlim & _) Hmax]. pose proof (no_size _ _ _ Hok) as Hsz.
  unfold memTable_limit in Hsz. assert (2 ^ 31 = 2147483648) by done. assert (2 ^ 62 = 4611686018427387904) by done.
  unfold nbs_addChunk. fold (mt_of nbs).
  destruct (mt_addChunk_ok (mt_of nbs) h d Hw Hlim Hd ltac:(lia)) as (mt1 & b & -> & _). cbn [obind]. destruct b; cbn [negb]; [by eauto|].
  destruct (newMemTable_ok _ (no_size _ _ _ Hok)) as (Hw0 & Hlim0 & _).
  destruct (mt_addChunk_ok _ h d Hw0 Hlim0 Hd ltac:(lia)) as (mt2 & b & -> & _ & _ & Hb). cbn [obind Prepend].
  destruct b; [by eauto|]. exfalso. destruct Hb as (_ & _ & Hb). simpl in Hb. lia.
Qed.

End facts.

End NbsStoreFacts.
