(* ===== verification/NbsRefine.v ===== *)
(** * Package [nbs]: what [NomsBlockStore] promises

    An abstract chunk store, a root and two sets of addresses (what the process
    sees and what the disk holds), and the proof that [NomsBlockStore] with its
    memory table, background compactions, table files and manifest behaves like
    it in every interleaving, including other writers, restarts, chunks that are
    refused and manifests that cannot be read again. *)

From S2P Require Import Prelude GoLib HashPkg Chunks SnappyPkg NbsTable NbsReader NbsMem NbsManifest NbsStore.
Import Hash Chunks Nbs NbsReader NbsMem Manifest NbsStore.
Import NbsTableFacts NbsReaderFacts NbsMemFacts ManifestFacts NbsStoreFacts.

#[global] Instance tableSpec_eq_dec : EqDecision tableSpec.
Proof. solve_decision. Defined.

(** ** The abstract store *)

Module StoreSpec.

(** [a_disk] is the manifest, if there is one: its root, and the chunks of its
    tables unless it names a table that is not there.  [a_limit] is the size of a
    memory table.  [a_again] and [a_refused] say whether, since the store was
    opened, a chunk was put that it already had and whether one was refused. *)
Record astate : Type := MkA {
  a_root : Hash; a_keys : gset addr; a_disk : option (Hash * option (gset addr));
  a_limit : Z; a_again : bool; a_refused : bool }.

(** [refused] are the hashes that [PutMany] returns; [broken] says that the
    manifest cannot be opened after [UpdateRoot]; another process writes a
    manifest with the chunks [ks], or one that cannot be opened. *)
Inductive event : Type :=
| EPut (c : Chunk)
| EPutMany (chunx : list Chunk) (refused : list Hash)
| ECompact
| EUpdate (current last : Hash) (result broken : bool)
| EOthers (root : Hash) (ks : option (gset addr))
| EReopen (memTableSize : Z).

(** The manifest agrees with the root that the process last saw. *)
Definition in_step (a : astate) : bool :=
  match a_disk a with None => bool_decide (a_root a = emptyHash) | Some (r, _) => bool_decide (r = a_root a) end.
(** Root and chunks of a store that is opened from the manifest, if it can be. *)
Definition on_disk (disk : option (Hash * option (gset addr))) : option (Hash * gset addr) :=
  match disk with
  | None => Some (emptyHash, ∅)
  | Some (r, Some ks) => Some (r, ks)
  | Some (_, None) => None
  end.
Definition readable (a : astate) : bool := match on_disk (a_disk a) with Some _ => true | None => false end.

Definition fits (a : astate) (c : Chunk) : bool := Zlength (contents (Data c)) <=? a_limit a.
Definition put (a : astate) (c : Chunk) : astate :=
  MkA (a_root a) ({[ChunkHash c]} ∪ a_keys a) (a_disk a) (a_limit a) (a_again a || bool_decide (ChunkHash c ∈ a_keys a)) (a_refused a).
Definition refuse (a : astate) : astate := MkA (a_root a) (a_keys a) (a_disk a) (a_limit a) (a_again a) true.
(** The first chunk that is too large is refused with everything after it. *)
Fixpoint put_many (a : astate) (chunx : list Chunk) : astate * list Hash :=
  match chunx with
  | [] => (a, [])
  | c :: chunx' => if fits a c then put_many (put a c) chunx' else (refuse a, ChunkHash <$> chunx)
  end.
Definition mem_size (memTableSize : Z) : Z := if memTableSize =? 0 then defaultMemTableSize else memTableSize.
Definition opened (memTableSize : Z) (r : Hash) (ks : gset addr) (disk : option (Hash * option (gset addr))) : astate :=
  MkA r ks disk (mem_size memTableSize) false false.

Definition astep (a : astate) (e : event) : option astate :=
  match e with
  | EPut c => if fits a c then Some (put a c) else None
  | EPutMany chunx refused =>
      let (a', refused') := put_many a chunx in if bool_decide (refused = refused') then Some a' else None
  | ECompact => Some a
  | EUpdate current last result broken =>
      if negb (bool_decide (a_root a = last)) then None
      else if in_step a then
        (* the manifest is written; it may be broken when a chunk was put again *)
        if negb result || (broken && negb (a_again a)) then None
        else Some (MkA current (a_keys a) (Some (current, if broken then None else Some (a_keys a))) (a_limit a) (a_again a) (a_refused a))
      else
        match a_disk a with
        | None => None
        | Some (r, ks) =>
            if negb (eqb result (bool_decide (r = current))) || negb (eqb broken (negb (readable a))) then None
            else if result then Some (MkA current (a_keys a) (a_disk a) (a_limit a) (a_again a) (a_refused a))
            else match ks with
                 | Some ks => Some (MkA r (a_keys a ∪ ks) (a_disk a) (a_limit a) (a_again a) (a_refused a))
                 | None => None
                 end
        end
  | EOthers r ks => Some (MkA (a_root a) (a_keys a) (Some (r, ks)) (a_limit a) (a_again a) (a_refused a))
  | EReopen n =>
      match on_disk (a_disk a) with Some (r, ks) => Some (opened n r ks (a_disk a)) | None => None end
  end.
Fixpoint asteps (a : astate) (es : list event) : option astate :=
  match es with
  | [] => Some a
  | e :: es' => match astep a e with None => None | Some a' => asteps a' es' end
  end.

End StoreSpec.
Import StoreSpec.

(** ** Steps of the store and its surroundings *)

Section steps.
Context `{Snappy} `{!SnappyLaws} `{!SnappySlack} `{GoSort}.
Context (U : gmap addr (list byte)).

(** Table [t] of the manifest is there and holds [cs]. *)
Definition spec_lists (fs : files) (t : tableSpec) (cs : list (addr * list byte)) : Prop :=
  storable U cs /\ ts_name t = table_name cs /\ ts_chunkCount t = Zlength cs /\ is_Some (fs !! ts_name t).
Definition specs_ok (fs : files) (specs : list tableSpec) : Prop := Forall (fun t => exists cs, spec_lists fs t cs) specs.
Definition spec_key (fs : files) (specs : list tableSpec) (h : addr) : Prop :=
  exists t cs, t ∈ specs /\ spec_lists fs t cs /\ h ∈ cs.*1.

(** What [ToSpecs] writes for an empty source: a table without a file. *)
Definition no_table : tableSpec := MkSpec emptyHash 0.
Definition unreadable (fm : dir) : bool :=
  match ParseIfExists fm with Ok (Some (_, _, specs)) => bool_decide (no_table ∈ specs) | _ => false end.

(** Files only get added, or replaced by tables of the same name. *)
Definition files_grow (fs fs' : files) : Prop := forall h, is_Some (fs !! h) -> is_Some (fs' !! h).

(** What the manifest of another process holds. *)
Definition specs_hold (fs : files) (specs : list tableSpec) (ks : option (gset addr)) : Prop :=
  match ks with
  | Some ks => specs_ok fs specs /\ forall h, h ∈ ks <-> spec_key fs specs h
  | None => no_table ∈ specs
  end.

(** One step: an operation of the process, the end of a compaction, other
    processes that write tables and the manifest, or a restart.  An operation
    that panics has no step, the process is gone and can be restarted. *)
Inductive step (w : world) : event -> world -> Prop :=
| step_put c hp nbs :
    U !! ChunkHash c = Some (contents (Data c)) ->
    nbs_Put (s_heap (w_sys w)) (w_nbs w) c = Ok (hp, nbs) ->
    step w (EPut c) (MkWorld (MkSys (s_files (w_sys w)) hp) (w_dir w) nbs)
| step_putMany chunx hp nbs refused :
    Forall (fun c => U !! ChunkHash c = Some (contents (Data c))) chunx ->
    nbs_PutMany (s_heap (w_sys w)) (w_nbs w) chunx = Ok (hp, nbs, refused) ->
    step w (EPutMany chunx refused) (MkWorld (MkSys (s_files (w_sys w)) hp) (w_dir w) nbs)
| step_compact s' :
    compact_step (w_sys w) s' -> step w ECompact (MkWorld s' (w_dir w) (w_nbs w))
| step_update current last w' result :
    UpdateRoot w current last w' result -> step w (EUpdate current last result (unreadable (w_dir w'))) w'
| step_others fs fm r specs ks :
    files_ok U fs -> files_grow (s_files (w_sys w)) fs -> dir_state fm (Some (r, specs)) -> specs_hold fs specs ks ->
    step w (EOthers r ks) (MkWorld (MkSys fs (s_heap (w_sys w))) fm (w_nbs w))
| step_reopen n nbs :
    0 <= n <= memTable_limit -> newNomsBlockStore (s_files (w_sys w)) (w_dir w) n = Ok nbs ->
    step w (EReopen n) (MkWorld (MkSys (s_files (w_sys w)) []) (w_dir w) nbs).
Inductive steps : world -> list event -> world -> Prop :=
| steps_nil w : steps w [] w
| steps_cons w e w1 es w2 : step w e w1 -> steps w1 es w2 -> steps w (e :: es) w2.

(** A process on an empty directory. *)
Definition fresh (memTableSize : Z) : world :=
  MkWorld (MkSys ∅ []) (MkDir false None) (MkNbs NomsVersion None (mem_size memTableSize) [] emptyHash 0).
Definition afresh (memTableSize : Z) : astate := opened memTableSize emptyHash ∅ None.

(** What is trusted of content addressing: tables with one name hold the same
    chunks, and the hash zero is not the name of a table.  Chunks are Go slices. *)
Record universe_ok : Prop := {
  uo_names : names_ok U;
  uo_zero : forall cs, good_list U cs -> table_name cs <> emptyHash;
  uo_sizes : forall h d, U !! h = Some d -> Zlength d < 2 ^ 62
}.

(** ** Refinement relation *)

Definition disk_ok (fs : files) (fm : dir) (d : option (Hash * option (gset addr))) : Prop :=
  match d with
  | None => dir_state fm None
  | Some (r, ks) => exists specs, dir_state fm (Some (r, specs)) /\ specs_hold fs specs ks
  end.
(** Every memory table has a chunk that the older tables lack, or none at all. *)
Definition brings (s : sys) (mt : memTable) (older : list chunkSource) : Prop :=
  mt_order mt = [] \/ exists h, h ∈ (mt_list mt).*1 /\ ~ key U s older h.
Definition fruitful (s : sys) (nbs : NomsBlockStore) : Prop :=
  (forall id mt haver, s_heap s !! id = Some (InMemory mt haver) -> brings s mt haver) /\
  (forall mt, nbs_mt nbs = Some mt -> brings s mt (nbs_tables nbs)).
(** No memory table is empty. *)
Definition filled (s : sys) (nbs : NomsBlockStore) : Prop :=
  (forall id mt haver, s_heap s !! id = Some (InMemory mt haver) -> mt_order mt <> []) /\
  (forall mt, nbs_mt nbs = Some mt -> mt_order mt <> []).
Record refines (w : world) (a : astate) : Prop := {
  rf_store : store_ok U (w_sys w) (w_nbs w);
  rf_root : nbs_root (w_nbs w) = a_root a;
  rf_keys : forall h, h ∈ a_keys a <-> holds U (w_sys w) (w_nbs w) h;
  rf_disk : disk_ok (s_files (w_sys w)) (w_dir w) (a_disk a);
  rf_new : a_disk a = None -> a_root a = emptyHash;
  rf_limit : nbs_mtSize (w_nbs w) = a_limit a;
  rf_again : a_again a = false -> fruitful (w_sys w) (w_nbs w);
  rf_refused : a_refused a = false -> filled (w_sys w) (w_nbs w)
}.

End steps.

Module NbsRefineFacts.

Section facts.
Context `{Snappy} `{!SnappyLaws} `{!SnappySlack} `{GoSort}.
Context {U : gmap addr (list byte)}.

(** ** Compactions *)

Lemma compact_step_ok s s' : sys_ok U s -> compact_step s s' ->
  exists id mt haver, s_heap s !! id = Some (InMemory mt haver) /\ compacted (U := U) s id mt haver s'.
Proof.
  intros Hs (id & mt & haver & Hid & Hc). destruct (decide (mt_order mt = [])) as [Hm|Hm].
  { by rewrite (compact_empty s id mt haver Hid Hm) in Hc. }
  destruct (compact_ok s id mt haver Hs Hid Hm) as (s2 & Hc' & Hco). rewrite Hc in Hc'. injection Hc' as <-. by exists id, mt, haver.
Qed.

(** An empty memory table, which a refused chunk leaves behind. *)
Definition idle (s : sys) (src : chunkSource) : Prop :=
  exists id mt haver, src = Compacting id /\ s_heap s !! id = Some (InMemory mt haver) /\ mt_order mt = [].
Lemma empty_list mt : mt_order mt = [] -> mt_list mt = [].
Proof. unfold mt_list. by intros ->. Qed.
Lemma idle_lists s src : idle s src -> lists U s src [].
Proof. intros (id & mt & haver & -> & Hid & Hm). rewrite <- (empty_list mt Hm). by eapply lists_mem. Qed.

(** What any number of compactions keeps. *)
Record kept (s s' : sys) : Prop := {
  k_sys : sys_ok U s';
  k_files : files_grow (s_files s) (s_files s');
  k_done : forall src p, wait (s_heap s) src = Some p -> wait (s_heap s') src = Some p;
  k_valid : forall src, valid_src U s src -> valid_src U s' src;
  k_tables : forall css, tables_ok U s css -> tables_ok U s' css;
  k_key : forall css h, tables_ok U s css -> key U s css h <-> key U s' css h;
  k_idle : forall src, idle s src -> idle s' src;
  k_mem : forall id mt haver, s_heap s' !! id = Some (InMemory mt haver) -> s_heap s !! id = Some (InMemory mt haver)
}.
Lemma kept_refl s : sys_ok U s -> kept s s.
Proof. intros Hs. split; [done|by intros h|done..]. Qed.
Lemma kept_trans s1 s2 s3 : kept s1 s2 -> kept s2 s3 -> kept s1 s3.
Proof.
  intros K1 K2. split.
  - apply K2.
  - intros h Hh. by apply (k_files _ _ K2), (k_files _ _ K1).
  - intros src p Hp. by apply (k_done _ _ K2), (k_done _ _ K1).
  - intros src Hv. by apply (k_valid _ _ K2), (k_valid _ _ K1).
  - intros css Ht. by apply (k_tables _ _ K2), (k_tables _ _ K1).
  - intros css h Ht. rewrite (k_key _ _ K1 css h Ht). by apply (k_key _ _ K2), (k_tables _ _ K1).
  - intros src Hi. by apply (k_idle _ _ K2), (k_idle _ _ K1).
  - intros id mt haver Hid. by apply (k_mem _ _ K1), (k_mem _ _ K2).
Qed.
Lemma kept_step s s' : sys_ok U s -> compact_step s s' -> kept s s'.
Proof.
  intros Hs (id & mt & haver & Hid & Hc)%compact_step_ok; [|done]. split.
  - by eapply sys_ok_kept.
  - exact (co_kept _ _ _ _ _ Hc).
  - intros [p'|j] p; [done|]. simpl. intros Hj. rewrite (heap_other Hc j); [done|]. intros ->. by rewrite Hid in Hj.
  - intros src. by eapply valid_kept.
  - intros css. by eapply tables_ok_kept.
  - intros css h Ht. by eapply key_kept.
  - intros src (j & mt' & haver' & -> & Hj & Hm). exists j, mt', haver'. split; [done|]. split; [|done]. rewrite (heap_other Hc j); [done|].
    intros ->. rewrite Hid in Hj. injection Hj as <- <-. by apply (co_some _ _ _ _ _ Hc).
  - intros j mt' haver' Hj. destruct (decide (j = id)) as [->|Hne]; [|by rewrite <- (heap_other Hc j)].
    destruct (heap_this Hid Hc) as (p & Hp & _). congruence.
Qed.
Lemma kept_steps s s' : sys_ok U s -> rtc compact_step s s' -> kept s s'.
Proof.
  intros Hs Hr. induction Hr as [s|s s1 s' Hst _ IH]; [by apply kept_refl|].
  pose proof (kept_step s s1 Hs Hst) as K. eapply kept_trans; [exact K|]. apply IH, K.
Qed.

Lemma kept_store s s' nbs : kept s s' -> store_ok U s nbs ->
  store_ok U s' nbs /\ forall h, holds U s' nbs h <-> holds U s nbs h.
Proof.
  intros K [Hs Ht Hm Hz]. split.
  - split; [apply K|by apply K|done|done].
  - intros h. unfold holds. by rewrite (k_key _ _ K (nbs_tables nbs) h Ht).
Qed.

Lemma files_grow_refl fs : files_grow fs fs.
Proof. by intros h. Qed.
Lemma spec_lists_grow fs fs' t cs : files_grow fs fs' -> spec_lists U fs t cs -> spec_lists U fs' t cs.
Proof. intros Hg (Hst & Hn & Hc & Hf). split_and!; try done. by apply Hg. Qed.
Lemma specs_ok_grow fs fs' specs : files_grow fs fs' -> specs_ok U fs specs -> specs_ok U fs' specs.
Proof. intros Hg Hs. eapply Forall_impl; [exact Hs|]. intros t [cs Hcs]. exists cs. by eapply spec_lists_grow. Qed.
(** What a manifest names does not depend on files that are added. *)
Lemma spec_key_grow fs fs' specs h : files_grow fs fs' -> specs_ok U fs specs -> spec_key U fs specs h <-> spec_key U fs' specs h.
Proof.
  intros Hg Hs. unfold specs_ok in Hs. rewrite Forall_forall in Hs. split; intros (t & cs & Hin & Hl & Hh); exists t, cs; (split; [done|]; split; [|done]).
  - by eapply spec_lists_grow.
  - destruct (Hs t Hin) as (cs' & _ & _ & _ & Hf). destruct Hl as (? & ? & ? & _). done.
Qed.
Lemma disk_ok_grow fs fs' fm d : files_grow fs fs' -> disk_ok U fs fm d -> disk_ok U fs' fm d.
Proof.
  intros Hg. destruct d as [[r [ks|]]|]; [|done..]. intros (specs & Hd & Hs & Hk). exists specs. split; [done|].
  split; [by eapply specs_ok_grow|]. intros h. rewrite Hk. by apply spec_key_grow.
Qed.
Lemma no_table_ok fs specs : specs_ok U fs specs -> no_table ∉ specs.
Proof.
  unfold specs_ok. rewrite Forall_forall. intros Hs Hin. destruct (Hs _ Hin) as (cs & Hst & _ & Hc & _).
  pose proof (st_nonempty _ _ Hst). destruct cs as [|c l]; [done|]. cbn in Hc. rewrite Zlength_cons in Hc. pose proof (Zlength_nonneg l). lia.
Qed.

(** ** Flushing the memory table *)

Lemma mt_count_exact mt : mem_ok U mt -> mt_count mt = Zlength (mt_list mt).
Proof.
  intros (Hw & Hmax & _). unfold mt_count. pose proof (mt_count_bound mt Hw Hmax) as Hb. unfold memTable_limit in Hb.
  assert (2 ^ 31 < 2 ^ 32) by done. rewrite Zlength_mt_list. pose proof (Zlength_nonneg (mt_order mt)). apply u32_small. lia.
Qed.

Lemma flush_ok s nbs hp' nbs' : store_ok U s nbs -> flush_mt (s_heap s) nbs = (hp', nbs') ->
  let s' := MkSys (s_files s) hp' in
  store_ok U s' nbs' /\ (forall h, key U s' (nbs_tables nbs') h <-> holds U s nbs h) /\
  (forall h, holds U s' nbs' h <-> holds U s nbs h) /\ nbs_root nbs' = nbs_root nbs /\ nbs_mtSize nbs' = nbs_mtSize nbs.
Proof.
  intros Hok. destruct Hok as [Hs Ht Hm Hz]. unfold flush_mt. destruct (nbs_mt nbs) as [mt|] eqn:Emt.
  - destruct (Hm mt eq_refl) as [Hmem Hmax]. rewrite mt_count_exact by done. destruct (0 <? Zlength (mt_list mt)) eqn:E; bool_lia; cbn [Prepend].
    + intros [= <- <-]. cbv zeta. cbn [nbs_tables nbs_root nbs_mtSize].
      assert (forall h, key U (MkSys (s_files s) (s_heap s ++ [InMemory mt (nbs_tables nbs)])) (Compacting (length (s_heap s)) :: nbs_tables nbs) h
        <-> holds U s nbs h) as Hk.
      { intros h. rewrite prepend_key by done. unfold holds. by rewrite (in_mem_some nbs mt h Emt). }
      split; [|split; [done|split; [|done]]].
      * split; [by apply prepend_sys|by apply prepend_tables|done|done].
      * intros h. rewrite <- Hk. unfold holds. rewrite in_mem_none by done. cbn [nbs_tables]. tauto.
    + intros [= <- <-]. assert (forall h, in_mem nbs h <-> False) as Hno.
      { intros h. rewrite (in_mem_some nbs mt h Emt). destruct (mt_list mt) as [|c l]; [by rewrite elem_of_nil|].
        rewrite Zlength_cons in E. pose proof (Zlength_nonneg l). lia. }
      destruct s as [fs hp]. split; [by split; [..|rewrite Emt|]|]. unfold holds. split; [|done]. intros h. rewrite Hno. cbn [s_files s_heap]. tauto.
  - intros [= <- <-]. destruct s as [fs hp]. split; [by split; [..|rewrite Emt|]|]. unfold holds. split; [|done].
    intros h. rewrite in_mem_none by done. cbn [s_files s_heap]. tauto.
Qed.

(** ** [ToSpecs] *)

(** [src] is compacted: it is table [p] of [cs]. *)
Definition done_as (s : sys) (src : chunkSource) (p : psource) (cs : list (addr * list byte)) : Prop :=
  wait (s_heap s) src = Some p /\ p_lists U (s_files s) p cs.
Lemma done_lists s src p cs : done_as s src p cs -> lists U s src cs.
Proof.
  intros [Hw Hp]. destruct src as [p'|id]; simpl in Hw; [injection Hw as <-; by constructor|].
  destruct (s_heap s !! id) as [[]|] eqn:E; try done. injection Hw as <-. by eapply lists_done.
Qed.
Lemma wait_done s src p : sys_ok U s -> valid_src U s src -> wait (s_heap s) src = Some p -> exists cs, done_as s src p cs.
Proof.
  intros Hs [cs Hl] Hw. destruct src as [p'|id]; simpl in Hw.
  - injection Hw as ->. inversion Hl; subst. by exists cs.
  - destruct (s_heap s !! id) as [[]|] eqn:E; try done. injection Hw as ->. destruct (so_done _ _ Hs _ _ E) as [cs' Hp].
    exists cs'. split; [|done]. simpl. by rewrite E.
Qed.
Lemma p_count_lists fs p cs : p_lists U fs p cs -> p_count p = Zlength cs /\ 0 <= p_count p < 2 ^ 32.
Proof.
  destruct p as [h tr|]; simpl; [|by intros ->]. intros (Hsv & Hst & _).
  destruct Hsv as ((sorted & Hix) & _). unfold count. rewrite (ix_chunkCount Hix).
  pose proof (st_count _ _ Hst). pose proof (Zlength_nonneg cs). lia.
Qed.
Lemma src_count_done s src p cs : done_as s src p cs -> src_count (s_heap s) src = Ok (p_count p).
Proof.
  intros [Hw _]. unfold src_count, getReader. destruct src as [p'|id]; simpl in Hw; [by injection Hw as ->|].
  destruct (s_heap s !! id) as [[]|] eqn:E; try done. by injection Hw as ->.
Qed.
(** A source without chunks. *)
Definition blank (s : sys) (src : chunkSource) : Prop := done_as s src PEmpty [] \/ idle s src.
Lemma blank_lists s src : blank s src -> lists U s src [].
Proof. intros [Hd|Hi]; [by eapply done_lists|by apply idle_lists]. Qed.
Lemma src_count_blank s src : blank s src -> src_count (s_heap s) src = Ok 0.
Proof.
  intros [Hd|(id & mt & haver & -> & Hid & Hm)]; [by apply (src_count_done _ _ _ _ Hd)|]. unfold src_count, getReader. rewrite Hid. cbn [obind].
  unfold mt_count. by rewrite Hm.
Qed.
Lemma src_count_zero s src : sys_ok U s -> valid_src U s src -> src_count (s_heap s) src = Ok 0 -> blank s src.
Proof.
  intros Hs Hv Hz. destruct (wait (s_heap s) src) as [p|] eqn:Hw.
  - left. destruct (wait_done s src p Hs Hv Hw) as [cs Hd]. rewrite (src_count_done _ _ _ _ Hd) in Hz. injection Hz as Hz.
    destruct Hd as [_ Hp]. destruct (p_count_lists _ _ _ Hp) as [Hc _]. destruct p as [h tr|]; [|done]. exfalso.
    destruct Hp as (_ & Hst & _). apply (st_nonempty _ _ Hst). destruct cs as [|c l]; [done|].
    rewrite Zlength_cons in Hc. pose proof (Zlength_nonneg l). lia.
  - right. destruct Hv as [cs Hl]. destruct src as [p|id]; [done|]. simpl in Hw. unfold src_count, getReader in Hz.
    destruct (s_heap s !! id) as [[mt haver|p]|] eqn:E; try done. cbn [obind] in Hz. injection Hz as Hz. exists id, mt, haver.
    destruct (so_mem _ _ Hs _ _ _ E) as (Hm & _). rewrite mt_count_exact, Zlength_mt_list in Hz by done.
    destruct (mt_order mt) as [|r l]; [done|]. rewrite Zlength_cons in Hz. pose proof (Zlength_nonneg l). lia.
Qed.
Lemma src_count_range s src n : sys_ok U s -> valid_src U s src -> src_count (s_heap s) src = Ok n -> 0 <= n < 2 ^ 32.
Proof.
  intros Hs Hv Hn. destruct (wait (s_heap s) src) as [p|] eqn:Hw.
  - destruct (wait_done s src p Hs Hv Hw) as [cs Hd]. rewrite (src_count_done _ _ _ _ Hd) in Hn. injection Hn as <-.
    destruct Hd as [_ Hp]. apply (p_count_lists _ _ _ Hp).
  - destruct src as [p|id]; [done|]. unfold src_count, getReader in Hn. simpl in Hw.
    destruct (s_heap s !! id) as [[mt haver|p]|] eqn:E; try done. injection Hn as <-. unfold mt_count, u32.
    apply Z.mod_pos_bound. lia.
Qed.

(** The sources are all compacted, if they have chunks, and [specs] names those. *)
Inductive specs_of (s : sys) : list chunkSource -> list tableSpec -> Prop :=
| so_nil : specs_of s [] []
| so_skip src css specs : blank s src -> specs_of s css specs -> specs_of s (src :: css) specs
| so_take src h tr cs css specs : done_as s src (PTable h tr) cs -> specs_of s css specs ->
    specs_of s (src :: css) (MkSpec h (Zlength cs) :: specs).

Lemma done_kept s s' src p cs : kept s s' -> done_as s src p cs -> done_as s' src p cs.
Proof.
  intros K [Hw Hp]. split; [by apply K|]. destruct p as [h tr|]; [|done]. destruct Hp as (? & ? & ? & ?).
  split_and!; try done. by apply (k_files _ _ K).
Qed.
Lemma blank_kept s s' src : kept s s' -> blank s src -> blank s' src.
Proof. intros K [Hd|Hi]; [left; by eapply done_kept|right; by apply K]. Qed.

Definition at_rest (s : sys) (css : list chunkSource) : Prop := Forall (fun src => is_Some (wait (s_heap s) src) \/ idle s src) css.
Definition all_done (s : sys) (css : list chunkSource) : Prop := Forall (fun src => is_Some (wait (s_heap s) src)) css.

Lemma blank_rest s src : blank s src -> is_Some (wait (s_heap s) src) \/ idle s src.
Proof. intros [[Hw _]|Hi]; [left; by rewrite Hw|by right]. Qed.

Lemma ToSpecs_ok s css s' specs : ToSpecs s css s' specs -> sys_ok U s -> Forall (valid_src U s) css ->
  kept s s' /\ Forall spec_ok specs /\ at_rest s' css /\ (no_table ∉ specs -> specs_of s' css specs).
Proof.
  intros HT. induction HT as [s|s s1 css s' specs Hst _ IH|s src css s' specs Hz _ IH|s n src css s1 a s2 s' specs c Hn Hpos Hr1 Ha Hr2 Hc _ IH];
    intros Hs Hv.
  - split; [by apply kept_refl|]. split; [done|]. split; [constructor|constructor].
  - pose proof (kept_step _ _ Hs Hst) as K. destruct IH as (K' & Hok & HS); [apply K|eapply Forall_impl; [exact Hv|apply K]|].
    split; [by eapply kept_trans|done].
  - apply Forall_cons in Hv as [Hsrc Hv]. destruct (IH Hs Hv) as (K & Hok & Hd & HS). split; [done|]. split; [done|].
    assert (blank s' src) as Hb by (eapply blank_kept; [exact K|]; by apply src_count_zero).
    split; [constructor; [by apply blank_rest|done]|]. intros Hall. constructor; [done|by apply HS].
  - apply Forall_cons in Hv as [Hsrc Hv]. pose proof (kept_steps _ _ Hs Hr1) as K1. pose proof (kept_steps _ _ (k_sys _ _ K1) Hr2) as K2.
    pose proof (kept_trans _ _ _ K1 K2) as K12.
    destruct IH as (K & Hok & Had & HS); [apply K2|eapply Forall_impl; [exact Hv|apply K12]|].
    unfold src_hash in Ha. destruct (wait (s_heap s1) src) as [p|] eqn:Hw; [|done]. injection Ha as <-.
    destruct (wait_done s1 src p (k_sys _ _ K1) (k_valid _ _ K1 _ Hsrc) Hw) as [cs Hd].
    pose proof (done_kept _ _ _ _ _ K2 Hd) as Hd2. rewrite (src_count_done _ _ _ _ Hd2) in Hc. injection Hc as <-.
    pose proof (done_kept _ _ _ _ _ K Hd2) as Hd3.
    destruct (p_count_lists _ _ _ (proj2 Hd)) as [Hcount Hrange].
    split; [by eapply kept_trans|]. split; [by constructor|]. split; [constructor; [left; by rewrite (proj1 Hd3)|done]|].
    intros [Hp Hall]%not_elem_of_cons.
    destruct p as [h tr|]; [|done]. cbn [p_hash]. rewrite Hcount. eapply so_take; [done|by apply HS].
Qed.

(** Once everything is compacted the table set has its specs. *)
Lemma at_rest_specs s css : sys_ok U s -> Forall (valid_src U s) css -> at_rest s css -> exists specs, specs_of s css specs.
Proof.
  intros Hs. induction 1 as [|src css Hv _ IH]; [eexists; constructor|]. intros [Hr Hd]%Forall_cons.
  destruct (IH Hd) as [specs Hsp]. destruct Hr as [[p Hw]|Hi]; [|exists specs; constructor; [by right|done]].
  destruct (wait_done s src p Hs Hv Hw) as [cs Hda]. destruct p as [h tr|].
  - eexists. by eapply so_take.
  - exists specs. destruct Hda as [? Hp]. simpl in Hp. subst cs. constructor; [by left|done].
Qed.

(** Every compaction that the process waits for ends. *)
Lemma wait_live s src : sys_ok U s -> valid_src U s src ->
  exists s1, rtc compact_step s s1 /\ (is_Some (wait (s_heap s1) src) \/ idle s1 src).
Proof.
  intros Hs Hsrc. destruct (wait (s_heap s) src) as [p|] eqn:Hw; [exists s; split; [done|left; by rewrite Hw]|].
  destruct src as [p|id]; [done|]. destruct Hsrc as [cs Hl]. simpl in Hw.
  destruct (s_heap s !! id) as [[mt haver|p]|] eqn:E; [|done|by inversion Hl; subst; congruence].
  destruct (decide (mt_order mt = [])) as [Hm|Hm]; [exists s; split; [done|right; by exists id, mt, haver]|].
  destruct (compact_ok s id mt haver Hs E Hm) as (s1 & Hc & Hco). destruct (heap_this E Hco) as (p & Hp & _).
  exists s1. split; [apply rtc_once; by exists id, mt, haver|]. left. simpl. by rewrite Hp.
Qed.
Lemma ToSpecs_later s s1 css s' specs : rtc compact_step s s1 -> ToSpecs s1 css s' specs -> ToSpecs s css s' specs.
Proof. induction 1 as [|? ? ? Hst _ IH]; [done|]. intros HT. eapply specs_compact; [exact Hst|by apply IH]. Qed.

(** Waiting for every compaction first is one way to run [ToSpecs]. *)
Lemma ToSpecs_live s css : sys_ok U s -> Forall (valid_src U s) css ->
  exists s' specs, ToSpecs s css s' specs /\ no_table ∉ specs.
Proof.
  intros Hs Hv. revert s Hs Hv. induction css as [|src css IH]; intros s Hs Hv.
  { exists s, []. split; [constructor|apply not_elem_of_nil]. }
  apply Forall_cons in Hv as [Hsrc Hv]. destruct (wait_live s src Hs Hsrc) as (s1 & Hr & Hw). pose proof (kept_steps _ _ Hs Hr) as K.
  destruct (IH s1 (k_sys _ _ K)) as (s' & specs & HT & Hpos); [eapply Forall_impl; [exact Hv|apply K]|].
  destruct Hw as [[p Hw]|Hi].
  2: { exists s', specs. split; [|done]. eapply ToSpecs_later, specs_skip; [exact Hr|by apply src_count_blank; right|done]. }
  destruct (wait_done s1 src p (k_sys _ _ K) (k_valid _ _ K _ Hsrc) Hw) as [cs Hd].
  destruct (p_count_lists _ _ _ (proj2 Hd)) as [Hcount Hrange]. pose proof (src_count_done _ _ _ _ Hd) as Hsc.
  destruct (decide (p_count p = 0)) as [Hz|Hz].
  - exists s', specs. split; [|done]. eapply ToSpecs_later, specs_skip; [exact Hr|by rewrite Hsc, Hz|done].
  - exists s', (MkSpec (p_hash p) (p_count p) :: specs). split; [|apply not_elem_of_cons; split; [unfold no_table; congruence|done]].
    eapply ToSpecs_later; [exact Hr|].
    eapply specs_take; [exact Hsc|lia|reflexivity|unfold src_hash; by rewrite Hw|reflexivity|exact Hsc|exact HT].
Qed.

Lemma specs_of_ok s css specs : specs_of s css specs -> specs_ok U (s_files s) specs.
Proof.
  induction 1 as [|src css specs Hd _ IH|src h tr cs css specs Hd _ IH]; [constructor|done|]. constructor; [|done].
  exists cs. destruct Hd as [_ (Hsv & Hst & -> & Hf)]. done.
Qed.

Lemma spec_lists_keys fs t cs cs' h : names_ok U -> spec_lists U fs t cs -> spec_lists U fs t cs' -> h ∈ cs.*1 -> h ∈ cs'.*1.
Proof.
  intros HN (Hst & Hn & _) (Hst' & Hn' & _). assert (cs ≡ₚ cs') as ->; [|done]. apply HN; [apply Hst|apply Hst'|congruence].
Qed.

Lemma spec_key_cons fs t cs specs h : names_ok U -> spec_lists U fs t cs ->
  spec_key U fs (t :: specs) h <-> h ∈ cs.*1 \/ spec_key U fs specs h.
Proof.
  intros HN Hl. split.
  - intros (t' & cs' & [->|Hin]%elem_of_cons & Hl' & Hh); [left; by eapply spec_lists_keys|right; by exists t', cs'].
  - intros [Hh|(t' & cs' & Hin & Hl' & Hh)]; [exists t, cs; split; [by left|done]|exists t', cs'; split; [by right|done]].
Qed.
Lemma key_cons s src cs css h : sys_ok U s -> lists U s src cs -> key U s (src :: css) h <-> h ∈ cs.*1 \/ key U s css h.
Proof.
  intros Hs Hl. split.
  - intros (src' & cs' & [->|Hin]%elem_of_cons & Hl' & Hh); [left; by eapply lists_keys|right; by exists src', cs'].
  - intros [Hh|(src' & cs' & Hin & Hl' & Hh)]; [exists src, cs; split; [by left|done]|exists src', cs'; split; [by right|done]].
Qed.
Lemma key_nil s h : ~ key U s [] h.
Proof. by intros (? & ? & ?%elem_of_nil & _). Qed.
Lemma spec_key_nil fs h : ~ spec_key U fs [] h.
Proof. by intros (? & ? & ?%elem_of_nil & _). Qed.

(** The specs stand for the chunks of the table set. *)
Lemma specs_of_key s css specs h : names_ok U -> sys_ok U s -> specs_of s css specs ->
  spec_key U (s_files s) specs h <-> key U s css h.
Proof.
  intros HN Hs. induction 1 as [|src css specs Hd _ IH|src h' tr cs css specs Hd _ IH].
  - split; intros []%key_nil || intros []%spec_key_nil.
  - rewrite IH. rewrite (key_cons s src [] css) by (done || by apply blank_lists). cbn. rewrite elem_of_nil. tauto.
  - rewrite (key_cons s src cs css) by (done || by eapply done_lists).
    rewrite (spec_key_cons _ _ cs) by (done || (destruct Hd as [_ (Hsv & Hst & -> & Hf)]; done)). by rewrite IH.
Qed.

(** ** Opening tables *)

Lemma union_open_ok fs hp specs : names_ok U -> files_ok U fs -> specs_ok U fs specs ->
  exists css, union_open fs specs = Ok css /\ Forall (valid_src U (MkSys fs hp)) css /\
    all_done (MkSys fs hp) css /\ forall h, key U (MkSys fs hp) css h <-> spec_key U fs specs h.
Proof.
  intros HN Hf. induction 1 as [|t specs (cs & Hst & Hn & Hc & Hfile) _ IH].
  { exists []. split; [done|]. split; [done|]. split; [constructor|]. intros h. split; intros []%key_nil || intros []%spec_key_nil. }
  cbn [union_open]. destruct Hfile as [f Hfile]. destruct (Hf _ _ Hfile) as (cs' & -> & Hn' & Hst').
  assert (cs' ≡ₚ cs) as Hp by (apply HN; [apply Hst'|apply Hst|congruence]).
  assert (Zlength cs' = ts_chunkCount t) as Hz by (rewrite Hc; unfold Zlength; by rewrite Hp).
  destruct (newMmapTableReader_ok fs (ts_name t) cs' Hfile Hn' Hst') as (tr & Hopen & Hpl). rewrite Hz in Hopen.
  unfold Open. rewrite Hopen. cbn [obind]. destruct IH as (css & -> & Hv & Hw & Hk). cbn [obind]. eexists. split; [done|].
  assert (lists U (MkSys fs hp) (Src (PTable (ts_name t) tr)) cs') as Hl by (by constructor).
  split; [constructor; [by exists cs'|done]|]. split; [by constructor|]. intros h.
  rewrite (spec_key_cons fs t cs) by (done || split_and!; by rewrite ?Hfile). rewrite <- Hk. split.
  - intros (src & cs2 & [->|Hin]%elem_of_cons & Hl2 & Hh).
    + left. inversion Hl2 as [p ? Hpl2| |]; subst. destruct Hpl2 as (_ & Hst2 & Hn2 & _). assert (cs2 ≡ₚ cs) as <-; [|done].
      apply HN; [apply Hst2|apply Hst|congruence].
    + right. by exists src, cs2.
  - intros [Hh|(src & cs2 & Hin & Hl2 & Hh)]; [exists (Src (PTable (ts_name t) tr)), cs'; split; [by left|split; [done|by rewrite Hp]]|].
    exists src, cs2. split; [by right|done].
Qed.

Lemma all_done_closed s css : all_done s css -> closed U s css.
Proof.
  intros Hd id mt haver Hin Hid src Hsrc. unfold all_done in Hd. rewrite Forall_forall in Hd. specialize (Hd _ Hin). simpl in Hd. rewrite Hid in Hd.
  by destruct Hd.
Qed.

Lemma union_keep_ok s css specs0 : sys_ok U s -> specs_of s css specs0 ->
  exists css', union_keep (s_heap s) css = Some (Ok (css', ts_name <$> specs0)) /\ Forall (valid_src U s) css' /\
    all_done s css' /\ forall h, key U s css' h <-> key U s css h.
Proof.
  intros Hs. induction 1 as [|src css specs Hd _ IH|src h tr cs css specs Hd _ IH]; cbn [union_keep].
  - exists []. split_and!; by try constructor.
  - rewrite (src_count_blank _ _ Hd). destruct IH as (css' & -> & Hv & Hw & Hk). exists css'. split; [done|].
    split; [done|]. split; [done|]. intros h. rewrite Hk, (key_cons s src []) by (done || by apply blank_lists). cbn. rewrite elem_of_nil. tauto.
  - rewrite (src_count_done _ _ _ _ Hd). destruct (p_count_lists _ _ _ (proj2 Hd)) as [Hcount _]. rewrite Hcount.
    assert ((0 <? Zlength cs) = true) as ->.
    { destruct Hd as [_ (_ & Hst & _)]. pose proof (st_nonempty _ _ Hst). destruct cs as [|c l]; [done|]. rewrite Zlength_cons.
      pose proof (Zlength_nonneg l). lia. }
    unfold src_hash. rewrite (proj1 Hd). cbn [fmap option_fmap option_map p_hash]. destruct IH as (css' & -> & Hv & Hw & Hk).
    exists (src :: css'). split; [done|]. pose proof (done_lists _ _ _ _ Hd) as Hl. split; [constructor; [by exists cs|done]|].
    split; [constructor; [by rewrite (proj1 Hd)|done]|]. intros x. rewrite !(key_cons s src cs) by done. by rewrite Hk.
Qed.

Lemma key_app s a b h : key U s (a ++ b) h <-> key U s a h \/ key U s b h.
Proof.
  split.
  - intros (src & cs & [Hin|Hin]%elem_of_app & Hl & Hh); [left|right]; by exists src, cs.
  - intros [(src & cs & Hin & ?)|(src & cs & Hin & ?)]; exists src, cs; (split; [apply elem_of_app; tauto|done]).
Qed.

(** Tables that are already open are not opened again. *)
Lemma Union_ok s css specs0 specs : names_ok U -> sys_ok U s -> specs_of s css specs0 -> specs_ok U (s_files s) specs ->
  exists tables, Union (s_files s) (s_heap s) css specs = Some (Ok tables) /\ tables_ok U s tables /\
    forall h, key U s tables h <-> key U s css h \/ spec_key U (s_files s) specs h.
Proof.
  intros HN Hs Hso Hsp. unfold Union. destruct (union_keep_ok s css specs0 Hs Hso) as (css' & -> & Hv & Hw & Hk).
  set (to_open := filter _ specs). assert (specs_ok U (s_files s) to_open) as Hto.
  { unfold specs_ok in *. rewrite Forall_forall in Hsp |- *. intros t [_ Hin]%list_elem_of_filter. by apply Hsp. }
  destruct s as [fs hp]. cbn [s_files s_heap] in *. destruct (union_open_ok fs hp to_open HN (so_files _ _ Hs) Hto) as (opened & -> & Hv' & Hw' & Hk'). cbn [obind].
  eexists. split; [done|]. split; [split; [by apply Forall_app|apply all_done_closed; by apply Forall_app]|].
  intros h. rewrite key_app, Hk, Hk'. split.
  - intros [?|(t & cs & [_ Hin]%list_elem_of_filter & ?)]; [by left|right; by exists t, cs].
  - intros [?|(t & cs & Hin & Hl & Hh)]; [by left|]. destruct (decide (ts_name t ∈ ts_name <$> specs0)) as [Hn|Hn].
    + left. apply list_elem_of_fmap in Hn as (t0 & Hn & Hin0). apply (specs_of_key _ _ _ _ HN Hs Hso).
      pose proof (specs_of_ok _ _ _ Hso) as Hok. unfold specs_ok in Hok. rewrite Forall_forall in Hok. destruct (Hok t0 Hin0) as [cs0 Hl0].
      exists t0, cs0. split; [done|]. split; [done|]. destruct Hl as (Hst & Hn1 & _), Hl0 as (Hst0 & Hn0 & _).
      assert (cs0 ≡ₚ cs) as ->; [|done]. apply HN; [apply Hst0|apply Hst|congruence].
    + right. exists t, cs. split; [by apply list_elem_of_filter|done].
Qed.

(** ** Opening a store *)

Lemma reopen_ok fs fm d n r ks : names_ok U -> files_ok U fs -> disk_ok U fs fm d -> 0 <= n <= memTable_limit -> on_disk d = Some (r, ks) ->
  exists nbs, newNomsBlockStore fs fm n = Ok nbs /\ store_ok U (MkSys fs []) nbs /\ nbs_root nbs = r /\
    nbs_mt nbs = None /\ nbs_mtSize nbs = mem_size n /\ forall h, holds U (MkSys fs []) nbs h <-> h ∈ ks.
Proof.
  intros HN Hf Hd Hn Hon. unfold newNomsBlockStore. fold (mem_size n).
  assert (0 < mem_size n <= memTable_limit) as Hsz.
  { unfold mem_size. destruct (n =? 0) eqn:E; [by vm_compute|bool_lia]. }
  assert (sys_ok U (MkSys fs [])) as Hs by (split; [done|by intros ??? ?|by intros ???]).
  destruct d as [[r' [ks'|]]|]; [|done|]; injection Hon as <- <-.
  - destruct Hd as (specs & Hdir & Hsp & Hks). rewrite (ParseIfExists_ok _ _ Hdir). cbn [obind fmap option_fmap option_map fst snd].
    destruct (union_open_ok fs [] specs HN Hf Hsp) as (css & -> & Hv & Hw & Hk). cbn [obind]. eexists. split; [done|].
    split; [split; [done|split; [done|by apply all_done_closed]|done|done]|]. do 3 (split; [done|]). intros h. unfold holds.
    rewrite in_mem_none by done. cbn [nbs_tables]. rewrite Hk, <- Hks. tauto.
  - rewrite (ParseIfExists_ok fm None Hd). cbn [obind fmap option_fmap option_map]. eexists. split; [done|].
    split; [split; [done|split; [done|apply all_done_closed; constructor]|done|done]|]. do 3 (split; [done|]). intros h. unfold holds.
    rewrite in_mem_none by done. cbn [nbs_tables]. split; [intros [[]|[]%key_nil]|by intros ?%elem_of_empty].
Qed.

(** The hash zero is not a table. *)
Lemma no_file fs : universe_ok U -> files_ok U fs -> fs !! emptyHash = None.
Proof.
  intros UOK Hf. destruct (fs !! emptyHash) as [f|] eqn:E; [|done]. destruct (Hf _ _ E) as (cs & _ & Hn & Hst). exfalso.
  apply (uo_zero _ UOK cs); [apply Hst|done].
Qed.
Lemma union_open_broken fs specs : fs !! emptyHash = None -> no_table ∈ specs -> is_ok (union_open fs specs) = false.
Proof.
  intros Hf. induction specs as [|t specs IH]; [by intros ?%elem_of_nil|]. cbn [union_open]. intros [<-|Hin]%elem_of_cons.
  - unfold Open, newMmapTableReader, no_table. cbn [ts_name]. by rewrite Hf.
  - destruct (Open _ _ _); cbn [obind]; [|done]. specialize (IH Hin). by destruct (union_open fs specs).
Qed.
Lemma reopen_broken fs fm d n : universe_ok U -> files_ok U fs -> disk_ok U fs fm d -> on_disk d = None -> is_ok (newNomsBlockStore fs fm n) = false.
Proof.
  intros UOK Hf Hd Hon. destruct d as [[r [ks|]]|]; try done. destruct Hd as (specs & Hdir & Hin). unfold newNomsBlockStore.
  rewrite (ParseIfExists_ok _ _ Hdir). cbn [obind fmap option_fmap option_map fst snd].
  pose proof (union_open_broken fs specs (no_file fs UOK Hf) Hin). by destruct (union_open fs specs).
Qed.
(** [Union] fails in the same way. *)
Lemma Union_broken s css specs0 specs tables : universe_ok U -> sys_ok U s -> specs_of s css specs0 -> no_table ∈ specs ->
  Union (s_files s) (s_heap s) css specs <> Some (Ok tables).
Proof.
  intros UOK Hs Hso Hin. unfold Union. destruct (union_keep_ok s css specs0 Hs Hso) as (css' & -> & _).
  pose proof (specs_of_ok _ _ _ Hso) as Hok. unfold specs_ok in Hok. rewrite Forall_forall in Hok.
  assert (is_ok (union_open (s_files s) (filter (fun t => ts_name t ∉ ts_name <$> specs0) specs)) = false) as Hno.
  { apply union_open_broken; [by apply no_file, Hs|]. apply list_elem_of_filter. split; [|done].
    intros (t & Hn & Ht)%list_elem_of_fmap. destruct (Hok t Ht) as (cs & Hst & Hn' & _). cbn in Hn.
    apply (uo_zero _ UOK cs); [apply Hst|congruence]. }
  by destruct (union_open _ _).
Qed.

(** ** Memory tables that bring something *)

Definition alive (s : sys) : Prop := forall id mt haver, s_heap s !! id = Some (InMemory mt haver) -> brings U s mt haver.
Lemma brings_kept s s' mt css : kept s s' -> tables_ok U s css -> brings U s mt css -> brings U s' mt css.
Proof. intros K Ht [Hm|(h & Hh & Hk)]; [by left|right]. exists h. split; [done|]. by rewrite <- (k_key _ _ K css h Ht). Qed.
Lemma haver_tables s id mt haver : sys_ok U s -> s_heap s !! id = Some (InMemory mt haver) -> tables_ok U s haver.
Proof. intros Hs Hid. destruct (so_mem _ _ Hs _ _ _ Hid) as (_ & _ & ? & ?). by split. Qed.
Lemma alive_kept s s' : sys_ok U s -> kept s s' -> alive s -> alive s'.
Proof.
  intros Hs K Ha id mt haver Hid%(k_mem _ _ K). eapply brings_kept; [exact K|by eapply haver_tables|by apply (Ha id)].
Qed.
(** Such a table does not come out of its compaction empty. *)
Lemma alive_done s s1 src : sys_ok U s -> alive s -> kept s s1 -> valid_src U s src -> done_as s1 src PEmpty [] -> blank s src.
Proof.
  intros Hs Ha K Hv Hd. destruct (wait (s_heap s) src) as [p|] eqn:Hw.
  { left. pose proof (k_done _ _ K src p Hw) as Hw'. rewrite (proj1 Hd) in Hw'. injection Hw' as <-. done. }
  destruct src as [p|id]; [done|]. cbn in Hw. destruct Hv as [cs Hl].
  destruct (s_heap s !! id) as [[mt haver|p]|] eqn:E; [|done|by inversion Hl; subst; congruence].
  destruct (Ha id mt haver E) as [Hm|(h & Hh & Hk)]; [right; by exists id, mt, haver|]. exfalso. apply Hk.
  pose proof (haver_tables _ _ _ _ Hs E) as [Htv Htc].
  assert (tables_ok U s (Compacting id :: haver)) as Ht.
  { split; [constructor; [by exists cs|done]|]. intros j mt' haver' Hin Hj src Hsrc.
    apply elem_of_cons in Hin as [[= ->]|Hin]; [rewrite E in Hj; injection Hj as <- <-; left; by right|].
    destruct (Htc j mt' haver' Hin Hj src Hsrc); [left; by right|by right]. }
  assert (key U s1 (Compacting id :: haver) h) as Hk1.
  { apply (k_key _ _ K _ h Ht). exists (Compacting id), (mt_list mt). split; [by left|]. split; [by eapply lists_mem|done]. }
  apply (key_cons s1 (Compacting id) [] haver h (k_sys _ _ K)) in Hk1 as [Hk1|Hk1]; [by apply elem_of_nil in Hk1| |by eapply done_lists].
  by apply (k_key _ _ K haver h).
Qed.
Lemma ToSpecs_alive s css s' specs : ToSpecs s css s' specs -> sys_ok U s -> Forall (valid_src U s) css -> alive s -> no_table ∉ specs.
Proof.
  intros HT. induction HT as [s|s s1 css s' specs Hst _ IH|s src css s' specs Hz _ IH|s n src css s1 a s2 s' specs c Hn Hpos Hr1 Ha Hr2 Hc _ IH];
    intros Hs Hv Hal.
  - apply not_elem_of_nil.
  - pose proof (kept_step _ _ Hs Hst) as K. apply IH; [apply K|eapply Forall_impl; [exact Hv|apply K]|by eapply alive_kept].
  - apply Forall_cons in Hv as [_ Hv]. by apply IH.
  - apply Forall_cons in Hv as [Hsrc Hv]. pose proof (kept_steps _ _ Hs Hr1) as K1. pose proof (kept_steps _ _ (k_sys _ _ K1) Hr2) as K2.
    pose proof (kept_trans _ _ _ K1 K2) as K12. apply not_elem_of_cons.
    split; [|apply IH; [apply K2|eapply Forall_impl; [exact Hv|apply K12]|by eapply alive_kept]].
    intros [= <- <-]. unfold src_hash in Ha. destruct (wait (s_heap s1) src) as [p|] eqn:Hw; [|done].
    destruct (wait_done s1 src p (k_sys _ _ K1) (k_valid _ _ K1 _ Hsrc) Hw) as [cs Hd].
    pose proof (done_kept _ _ _ _ _ K2 Hd) as Hd2. rewrite (src_count_done _ _ _ _ Hd2) in Hc. injection Hc as Hc.
    destruct p as [h tr|].
    + destruct (p_count_lists _ _ _ (proj2 Hd)) as [Hcount _]. destruct Hd as (_ & _ & Hst & _). pose proof (st_nonempty _ _ Hst).
      destruct cs as [|x l]; [done|]. rewrite Zlength_cons in Hcount. pose proof (Zlength_nonneg l). lia.
    + destruct Hd as [Hd Hp]. cbn in Hp. subst cs. assert (blank s src) as Hb by (by eapply alive_done).
      rewrite (src_count_blank _ _ Hb) in Hn. injection Hn as <-. lia.
Qed.

(** ** Simulation *)

Context (UOK : universe_ok U).

Lemma store_ok_inc s nbs : store_ok U s nbs -> store_ok U s (incPutCount nbs).
Proof. intros [? ? ? ?]. by split. Qed.

(** A memory table is handed to a compaction. *)
Section push.
Context {s : sys} {mt : memTable} {ts : list chunkSource}.
Context (OK : sys_ok U s) (TS : tables_ok U s ts) (MEM : mem_ok U mt).
#[local] Abbreviation s' := (MkSys (s_files s) (s_heap s ++ [InMemory mt ts])).

Lemma push_key css h : Forall (valid_src U s) css -> key U s' css h <-> key U s css h.
Proof.
  intros Hv. rewrite Forall_forall in Hv. split; intros (src & cs & Hin & Hl & Hh).
  - destruct (Hv src Hin) as [cs0 Hl0]. exists src, cs0. split; [done|]. split; [done|].
    eapply lists_keys; [exact (prepend_sys OK TS MEM)|exact Hl|by apply prepend_lists|done].
  - exists src, cs. split; [done|]. split; [by apply prepend_lists|done].
Qed.
Lemma push_brings m css : Forall (valid_src U s) css -> brings U s m css -> brings U s' m css.
Proof. intros Hv [Hm|(h & Hh & Hk)]; [by left|right]. exists h. by rewrite push_key. Qed.
Lemma push_alive : alive s -> brings U s mt ts -> alive s'.
Proof.
  intros Ha Hb id m haver [Hid|[-> [= -> ->]]]%lookup_new; [|apply push_brings; [apply TS|done]].
  apply push_brings; [by apply (haver_tables _ _ _ _ OK Hid)|by apply (Ha id)].
Qed.

End push.

Lemma accepted_fruitful s nbs h hp' nbs' : store_ok U s nbs -> accepted s nbs h hp' nbs' -> ~ holds U s nbs h ->
  fruitful U s nbs -> fruitful U (MkSys (s_files s) hp') nbs'.
Proof.
  intros Hok Hacc Hno [Ha Hb]. destruct Hacc as [mt -> Ht Hmt Hl|mt mt0 -> Hmt0 Hne Ht Hmt Hl]; unfold fruitful; rewrite Ht, Hmt.
  - destruct s as [fs hp]. split; [done|]. intros m [= <-]. right. exists h. split; [apply Hl; by left|]. intros Hk. apply Hno. by right.
  - pose proof Hok as [Hs Hts Hm _]. destruct (Hm mt0 Hmt0) as [Hm0 _]. split; [apply push_alive; try done; by apply Hb|].
    intros m [= <-]. right. exists h. split; [by apply Hl|]. rewrite prepend_key by done. intros Hk. apply Hno. destruct Hk; [left|by right].
    by apply (in_mem_some nbs mt0).
Qed.
Lemma list_filled mt h : h ∈ (mt_list mt).*1 -> mt_order mt <> [].
Proof. intros Hh Hm. rewrite (empty_list mt Hm) in Hh. by apply elem_of_nil in Hh. Qed.
Lemma accepted_filled s nbs h hp' nbs' : accepted s nbs h hp' nbs' -> filled s nbs -> filled (MkSys (s_files s) hp') nbs'.
Proof.
  intros Hacc [Ha Hb]. destruct Hacc as [mt -> Ht Hmt Hl|mt mt0 -> Hmt0 Hne Ht Hmt Hl]; unfold filled; rewrite Hmt.
  - split; [done|]. intros m [= <-]. apply (list_filled _ h), Hl. by left.
  - split; [|intros m [= <-]; by apply (list_filled _ h), Hl]. intros id m haver [Hid|[-> [= -> ->]]]%lookup_new; [by eapply Ha|done].
Qed.
Lemma refused_fruitful s nbs : store_ok U s nbs -> fruitful U s nbs -> alive (MkSys (s_files s) (s_heap s ++ [InMemory (mt_of nbs) (nbs_tables nbs)])).
Proof.
  intros Hok [Ha Hb]. destruct (mt_of_ok s nbs Hok) as [Hm _]. apply push_alive; [apply Hok..|done|done|].
  unfold mt_of. destruct (nbs_mt nbs) as [mt|] eqn:E; [by apply Hb|by left].
Qed.

(** One chunk of [Put] or [PutMany]. *)
Lemma sim_add w a c hp nbs ok : refines U w a -> U !! ChunkHash c = Some (contents (Data c)) ->
  nbs_addChunk (s_heap (w_sys w)) (w_nbs w) (ChunkHash c) (contents (Data c)) = Ok (hp, nbs, ok) ->
  fits a c = ok /\ refines U (MkWorld (MkSys (s_files (w_sys w)) hp) (w_dir w) (if ok then incPutCount nbs else nbs)) (if ok then put a c else refuse a).
Proof.
  intros R Hc Hadd. pose proof R as [Hok Hr Hk Hd Hn Hlim Hag Href]. pose proof (uo_sizes _ UOK _ _ Hc) as Hsz. unfold fits. destruct ok.
  - destruct (addChunk_ok _ _ _ _ hp nbs Hok Hc Hsz Hadd) as (Hok1 & Hr1 & Hz1 & Hk1).
    destruct (addChunk_accepted _ _ _ _ hp nbs Hok Hc Hsz Hadd) as [Hacc Hfit]. split; [rewrite <- Hlim; by apply Z.leb_le|].
    split; cbn; [by apply store_ok_inc|congruence| |done|done|congruence| |].
    + intros h. change (holds U _ (incPutCount nbs) h) with (holds U (MkSys (s_files (w_sys w)) hp) nbs h).
      rewrite Hk1, elem_of_union, elem_of_singleton, Hk. tauto.
    + intros [Hag0 Hnew]%orb_false_iff. apply bool_decide_eq_false in Hnew. rewrite Hk in Hnew. apply (accepted_fruitful _ _ _ _ _ Hok Hacc Hnew), Hag, Hag0.
    + intros Href0. by apply (accepted_filled _ _ _ _ _ Hacc), Href.
  - destruct (addChunk_refused _ _ _ _ hp nbs Hok Hsz Hadd) as (Hlt & -> & ->). destruct (refused_ok _ _ Hok) as [Hok1 Hk1].
    split; [rewrite <- Hlim; by apply Z.leb_gt|]. split; cbn; [done|done|intros h; by rewrite Hk, Hk1|done|done|done| |done].
    intros Hag0. split; [by apply refused_fruitful, Hag|]. intros m [= <-]. by left.
Qed.

Lemma sim_put w a c hp nbs : refines U w a -> U !! ChunkHash c = Some (contents (Data c)) ->
  nbs_Put (s_heap (w_sys w)) (w_nbs w) c = Ok (hp, nbs) ->
  exists a', astep a (EPut c) = Some a' /\ refines U (MkWorld (MkSys (s_files (w_sys w)) hp) (w_dir w) nbs) a'.
Proof.
  intros R Hc. unfold nbs_Put. destruct (nbs_addChunk _ _ _ _) as [[[hp1 nbs1] [|]]|] eqn:Eadd; cbn [obind check]; [|done..]. intros [= <- <-].
  destruct (sim_add _ _ _ _ _ _ R Hc Eadd) as [Hf R1]. cbn [astep]. rewrite Hf. by eexists.
Qed.

Lemma sim_putMany chunx : forall w a hp nbs refused, refines U w a -> Forall (fun c => U !! ChunkHash c = Some (contents (Data c))) chunx ->
  nbs_PutMany (s_heap (w_sys w)) (w_nbs w) chunx = Ok (hp, nbs, refused) ->
  (put_many a chunx).2 = refused /\ refines U (MkWorld (MkSys (s_files (w_sys w)) hp) (w_dir w) nbs) (put_many a chunx).1.
Proof.
  induction chunx as [|c chunx IH]; intros w a hp nbs refused R Hall; cbn [nbs_PutMany put_many].
  { intros [= <- <- <-]. split; [done|]. by destruct w as [[fs hp0] fm nbs0]. }
  apply Forall_cons in Hall as [Hc Hall]. destruct (nbs_addChunk _ _ _ _) as [[[hp1 nbs1] ok]|] eqn:Eadd; cbn [obind]; [|done].
  destruct (sim_add _ _ _ _ _ _ R Hc Eadd) as [-> R1]. destruct ok; cbn [negb].
  - intros HP. by apply (IH _ _ _ _ _ R1 Hall) in HP.
  - by intros [= <- <- <-].
Qed.

Lemma sim_compact w a s' : refines U w a -> compact_step (w_sys w) s' -> refines U (MkWorld s' (w_dir w) (w_nbs w)) a.
Proof.
  intros [Hok Hr Hk Hd Hn Hlim Hag Href] Hst. pose proof (no_sys _ _ _ Hok) as Hs. pose proof (kept_step _ _ Hs Hst) as K.
  destruct (kept_store _ _ _ K Hok) as [Hok' Hk']. split; [done|done| |eapply disk_ok_grow; [apply K|done]|done|done|..].
  - intros h. by rewrite Hk, Hk'.
  - intros Hag0. destruct (Hag Hag0) as [Ha Hb]. split; [by eapply alive_kept|]. intros mt Hmt.
    eapply brings_kept; [exact K|apply Hok|by apply Hb].
  - intros Href0. destruct (Href Href0) as [Ha Hb]. split; [|done]. intros id mt haver Hid%(k_mem _ _ K). by eapply Ha.
Qed.

Lemma sim_others w a fs fm r specs ks : refines U w a -> files_ok U fs -> files_grow (s_files (w_sys w)) fs ->
  dir_state fm (Some (r, specs)) -> specs_hold U fs specs ks ->
  refines U (MkWorld (MkSys fs (s_heap (w_sys w))) fm (w_nbs w)) (MkA (a_root a) (a_keys a) (Some (r, ks)) (a_limit a) (a_again a) (a_refused a)).
Proof.
  intros [Hok Hr Hk Hd Hn Hlim Hag Href] Hf Hg Hdir Hsp. destruct w as [[fs0 hp] fm0 nbs]. cbn [w_sys w_dir w_nbs s_files s_heap] in *.
  assert (forall p cs, p_lists U fs0 p cs -> p_lists U fs p cs) as Hp.
  { intros [h tr|] cs; [|done]. intros (? & ? & ? & ?). split_and!; try done. by apply Hg. }
  assert (forall src cs, lists U (MkSys fs0 hp) src cs -> lists U (MkSys fs hp) src cs) as Hl.
  { intros src cs [p cs' Hpl|id mt haver Hid|id p cs' Hid Hpl]; [constructor; by apply Hp|by eapply lists_mem|eapply lists_done; [done|by apply Hp]]. }
  assert (forall src, valid_src U (MkSys fs0 hp) src -> valid_src U (MkSys fs hp) src) as Hv by (intros src [cs ?]; exists cs; by apply Hl).
  assert (forall css, closed U (MkSys fs0 hp) css -> closed U (MkSys fs hp) css) as Hcl.
  { intros css Hc id mt haver Hin Hid src Hsrc. destruct (Hc id mt haver Hin Hid src Hsrc) as [|He]; [by left|right; by apply Hl]. }
  destruct Hok as [[_ Hmem Hdone] [Htv Htc] Hm Hz].
  assert (sys_ok U (MkSys fs hp)) as Hs.
  { split; [done| |].
    - intros id mt haver Hid. destruct (Hmem id mt haver Hid) as (? & ? & Hvh & Hch). split_and!; try done; [|by apply Hcl].
      eapply Forall_impl; [exact Hvh|apply Hv].
    - intros id p Hid. destruct (Hdone id p Hid) as [cs ?]. exists cs. by apply Hp. }
  assert (forall css h, Forall (valid_src U (MkSys fs0 hp)) css -> key U (MkSys fs0 hp) css h <-> key U (MkSys fs hp) css h) as Hkey.
  { intros css h Hcss. rewrite Forall_forall in Hcss. split; intros (src & cs & Hin & Hls & Hh).
    - exists src, cs. split; [done|]. split; [by apply Hl|done].
    - destruct (Hcss src Hin) as [cs' Hl']. exists src, cs'. split; [done|]. split; [done|].
      eapply lists_keys; [exact Hs|exact Hls|by apply Hl|done]. }
  assert (forall mt css, Forall (valid_src U (MkSys fs0 hp)) css -> brings U (MkSys fs0 hp) mt css -> brings U (MkSys fs hp) mt css) as Hbr.
  { intros mt css Hcss [Hb|(h & Hh & Hno)]; [by left|right]. exists h. by rewrite <- Hkey. }
  split; cbn; [|done| |by exists specs|done|done| |exact Href].
  - split; [done|split; [eapply Forall_impl; [exact Htv|apply Hv]|by apply Hcl]|done|done].
  - intros h. rewrite Hk. unfold holds. by rewrite Hkey.
  - intros [Ha Hb]%Hag. split; [|intros mt Hmt; by apply Hbr, Hb]. intros id mt haver Hid. apply Hbr; [|by eapply Ha].
    by destruct (Hmem id mt haver Hid) as (_ & _ & ? & _).
Qed.

Lemma sim_reopen w a n nbs : refines U w a -> 0 <= n <= memTable_limit -> newNomsBlockStore (s_files (w_sys w)) (w_dir w) n = Ok nbs ->
  exists a', astep a (EReopen n) = Some a' /\ refines U (MkWorld (MkSys (s_files (w_sys w)) []) (w_dir w) nbs) a'.
Proof.
  intros [Hok Hr Hk Hd Hn _ _ _] Hsz Hnew. pose proof (so_files _ _ (no_sys _ _ _ Hok)) as Hf. cbn [astep].
  destruct (on_disk (a_disk a)) as [[r ks]|] eqn:Eon.
  2: { pose proof (reopen_broken _ _ _ n UOK Hf Hd Eon) as Hb. by rewrite Hnew in Hb. }
  destruct (reopen_ok _ _ _ n r ks (uo_names _ UOK) Hf Hd Hsz Eon) as (nbs' & Hnew' & Hok' & Hr' & Hm' & Hz' & Hk').
  rewrite Hnew in Hnew'. injection Hnew' as <-. eexists. split; [done|]. split; cbn; [done|done|by intros h; rewrite Hk'|done| |done|..].
  - intros Hno. rewrite Hno in Eon. by injection Eon as <- _.
  - intros _. split; [by intros ????|by rewrite Hm'].
  - intros _. split; [by intros ????|by rewrite Hm'].
Qed.

(** What [UpdateRoot] does to the memory table first. *)
Lemma flush_cases s nbs hp nbs' : store_ok U s nbs -> flush_mt (s_heap s) nbs = (hp, nbs') ->
  hp = s_heap s /\ nbs' = nbs /\ (forall mt, nbs_mt nbs = Some mt -> mt_order mt = []) \/
  exists mt, nbs_mt nbs = Some mt /\ mt_order mt <> [] /\ hp = s_heap s ++ [InMemory mt (nbs_tables nbs)] /\ nbs_mt nbs' = None.
Proof.
  intros Hok. unfold flush_mt. destruct (nbs_mt nbs) as [mt|] eqn:Emt; [|intros [= <- <-]; by left].
  destruct (no_mt _ _ _ Hok mt Emt) as [Hm _]. rewrite mt_count_exact, Zlength_mt_list by done.
  destruct (0 <? Zlength (mt_order mt)) eqn:E; bool_lia; cbn [Prepend]; intros [= <- <-].
  - right. exists mt. split; [done|]. split; [|done]. intros Ho. by rewrite Ho in E.
  - left. split; [done|]. split; [done|]. intros m [= <-]. destruct (mt_order mt) as [|r l]; [done|].
    rewrite Zlength_cons in E. pose proof (Zlength_nonneg l). lia.
Qed.
Lemma flush_empty s nbs hp nbs' mt : store_ok U s nbs -> flush_mt (s_heap s) nbs = (hp, nbs') -> nbs_mt nbs' = Some mt -> mt_order mt = [].
Proof.
  intros Hok Hfl. destruct (flush_cases _ _ _ _ Hok Hfl) as [(_ & -> & Hm)|(m & _ & _ & _ & ->)]; [apply Hm|done].
Qed.
Lemma flush_alive s nbs hp nbs' : store_ok U s nbs -> flush_mt (s_heap s) nbs = (hp, nbs') -> fruitful U s nbs -> alive (MkSys (s_files s) hp).
Proof.
  intros Hok Hfl [Ha Hb]. destruct (flush_cases _ _ _ _ Hok Hfl) as [(-> & _)|(m & Hm & _ & -> & _)]; [by destruct s|].
  apply push_alive; [apply Hok..|by apply (no_mt _ _ _ Hok)|done|by apply Hb].
Qed.
Lemma flush_filled s nbs hp nbs' : store_ok U s nbs -> flush_mt (s_heap s) nbs = (hp, nbs') -> filled s nbs -> filled (MkSys (s_files s) hp) nbs'.
Proof.
  intros Hok Hfl [Ha Hb]. destruct (flush_cases _ _ _ _ Hok Hfl) as [(-> & -> & _)|(m & Hm & Hne & -> & Hnone)]; [by destruct s|].
  split; [|by rewrite Hnone]. intros id mt haver [Hid|[-> [= -> ->]]]%lookup_new; [by eapply Ha|done].
Qed.

(** The state when [UpdateRoot] gets to the manifest. *)
Record prepared (w : world) (a : astate) (nbs : NomsBlockStore) (s' : sys) (specs : list tableSpec) : Prop := {
  pr_store : store_ok U s' nbs;
  pr_key : forall h, key U s' (nbs_tables nbs) h <-> h ∈ a_keys a;
  pr_holds : forall h, holds U s' nbs h <-> h ∈ a_keys a;
  pr_range : Forall spec_ok specs;
  pr_rest : at_rest s' (nbs_tables nbs);
  pr_specs : no_table ∉ specs -> specs_of s' (nbs_tables nbs) specs;
  pr_disk : disk_ok U (s_files s') (w_dir w) (a_disk a);
  pr_root : nbs_root nbs = a_root a;
  pr_limit : nbs_mtSize nbs = a_limit a;
  pr_again : a_again a = false -> (no_table ∉ specs) /\ alive s';
  pr_empty : forall mt, nbs_mt nbs = Some mt -> mt_order mt = [];
  pr_refused : a_refused a = false -> filled s' nbs
}.
Lemma update_prepared w a hp nbs s' specs : refines U w a -> flush_mt (s_heap (w_sys w)) (w_nbs w) = (hp, nbs) ->
  ToSpecs (MkSys (s_files (w_sys w)) hp) (nbs_tables nbs) s' specs -> prepared w a nbs s' specs.
Proof.
  intros [Hok Hr Hk Hd Hn Hlim Hag Href] Hfl HT. destruct (flush_ok _ _ _ _ Hok Hfl) as (Hok1 & Hk1 & Hh1 & Hr1 & Hz1).
  pose proof (no_sys _ _ _ Hok1) as Hs1. pose proof (to_valid _ _ _ (no_tables _ _ _ Hok1)) as Hv1.
  destruct (ToSpecs_ok _ _ _ _ HT Hs1 Hv1) as (K & Hrange & Hdone & Hsp).
  destruct (kept_store _ _ _ K Hok1) as [Hok2 Hh2]. split; try done.
  - intros h. by rewrite <- (k_key _ _ K _ h (no_tables _ _ _ Hok1)), Hk1, Hk.
  - intros h. by rewrite Hh2, Hh1, Hk.
  - eapply disk_ok_grow; [exact (k_files _ _ K)|done].
  - congruence.
  - congruence.
  - intros Hag0. assert (alive (MkSys (s_files (w_sys w)) hp)) as Ha by (eapply flush_alive; [done|exact Hfl|by apply Hag]).
    split; [exact (ToSpecs_alive _ _ _ _ HT Hs1 Hv1 Ha)|exact (alive_kept _ _ Hs1 K Ha)].
  - intros mt Hmt. exact (flush_empty _ _ _ _ _ Hok Hfl Hmt).
  - intros Href0. destruct (flush_filled _ _ _ _ Hok Hfl (Href Href0)) as [Ha Hb]. split; [|done].
    intros id mt haver Hid%(k_mem _ _ K). by eapply Ha.
Qed.
(** What comes out of [UpdateRoot] refines an abstract state with the same chunks
    or with those of the tables it has opened. *)
Lemma prepared_refines w a nbs s' specs fm v ts r ks d : prepared w a nbs s' specs -> tables_ok U s' ts ->
  (forall h, h ∈ ks <-> key U s' ts h) -> disk_ok U (s_files s') fm (Some d) ->
  refines U (MkWorld s' fm (MkNbs v (nbs_mt nbs) (nbs_mtSize nbs) ts r (nbs_putCount nbs))) (MkA r ks (Some d) (a_limit a) (a_again a) (a_refused a)).
Proof.
  intros P Hts Hks Hd. pose proof (pr_store _ _ _ _ _ P) as [Hs _ Hm Hz].
  assert (forall h, in_mem nbs h <-> False) as Hno.
  { intros h. split; [|done]. intros (mt & Hmt & Hh). by apply (list_filled mt h Hh), (pr_empty _ _ _ _ _ P). }
  split; cbn [w_sys w_dir w_nbs nbs_root nbs_mtSize a_root a_keys a_disk a_limit a_again a_refused]; [by split|done| |done|done|apply P|..].
  - intros h. rewrite Hks. unfold holds. change (in_mem _ h) with (in_mem nbs h). cbn [nbs_tables]. rewrite Hno. tauto.
  - intros Hag. split; [by apply (pr_again _ _ _ _ _ P)|]. intros mt Hmt. left. by apply (pr_empty _ _ _ _ _ P).
  - intros Href. by apply (pr_refused _ _ _ _ _ P).
Qed.

Lemma unreadable_dir fm r specs : dir_state fm (Some (r, specs)) -> unreadable fm = bool_decide (no_table ∈ specs).
Proof. intros Hd. unfold unreadable. by rewrite (ParseIfExists_ok _ _ Hd). Qed.

(** What the table set means for the manifest it is written to. *)
Lemma commit_disk w a nbs s' specs fm cur : prepared w a nbs s' specs -> dir_state fm (Some (cur, specs)) ->
  (unreadable fm = true -> a_again a = true) /\ disk_ok U (s_files s') fm (Some (cur, if unreadable fm then None else Some (a_keys a))).
Proof.
  intros P Hdir. rewrite (unreadable_dir _ _ _ Hdir). case_bool_decide as Hno.
  - split; [|by exists specs]. intros _. destruct (a_again a) eqn:E; [done|]. by destruct (pr_again _ _ _ _ _ P E).
  - split; [done|]. pose proof (pr_specs _ _ _ _ _ P Hno) as Hso. exists specs. split; [done|]. split; [by eapply specs_of_ok|].
    intros h. rewrite <- (pr_key _ _ _ _ _ P). symmetry. apply specs_of_key; [apply UOK|apply (pr_store _ _ _ _ _ P)|done].
Qed.
Lemma hold_unreadable fs fm r specs ks : dir_state fm (Some (r, specs)) -> specs_hold U fs specs ks ->
  unreadable fm = match ks with Some _ => false | None => true end.
Proof.
  intros Hd Hs. rewrite (unreadable_dir _ _ _ Hd). destruct ks as [ks|]; [|by apply bool_decide_eq_true].
  apply bool_decide_eq_false. eapply no_table_ok, Hs.
Qed.

(** The compare-and-set of [UpdateRoot]: the root in the manifest was the one
    the process knew and is replaced, or it stays and is handed back. *)
Lemma update_manifest w a nbs s' specs cur fm actual tn : refines U w a -> prepared w a nbs s' specs ->
  Update (w_dir w) specs (nbs_root nbs) cur = Ok (fm, actual, tn) ->
  if in_step a then actual = cur /\ (unreadable fm = true -> a_again a = true) /\
    disk_ok U (s_files s') fm (Some (cur, if unreadable fm then None else Some (a_keys a)))
  else exists ks, a_disk a = Some (actual, ks) /\ actual <> a_root a /\ disk_ok U (s_files s') fm (a_disk a) /\
    unreadable fm = negb (readable a) /\ specs_hold U (s_files s') tn ks.
Proof.
  intros R P HUp. pose proof (pr_range _ _ _ _ _ P) as Hrange. pose proof (pr_disk _ _ _ _ _ P) as Hdisk.
  rewrite (pr_root _ _ _ _ _ P) in HUp. unfold in_step, readable. destruct (a_disk a) as [[r ks]|] eqn:Ed.
  - destruct Hdisk as (old & Hdir & Hold). destruct (Update_ok _ _ specs (a_root a) cur Hdir Hrange) as (fm' & Hdir' & HUp').
    rewrite HUp in HUp'. destruct (decide (a_root a = r)) as [Hr'|Hr'].
    + rewrite bool_decide_eq_true_2 in Hdir', HUp' by done. rewrite bool_decide_eq_true_2 by done. injection HUp' as -> -> ->.
      split; [done|by eapply commit_disk].
    + rewrite bool_decide_eq_false_2 in Hdir', HUp' by done. rewrite bool_decide_eq_false_2 by congruence. injection HUp' as -> -> ->.
      exists ks. split; [done|]. split; [congruence|]. split; [by exists old|]. split; [|done].
      rewrite (hold_unreadable _ _ _ _ _ Hdir' Hold). by destruct ks.
  - pose proof (Update_ok _ _ specs (a_root a) cur Hdisk Hrange) as HUp'. pose proof (rf_new _ _ _ R Ed) as He.
    rewrite bool_decide_eq_true_2 in HUp' by done. destruct HUp' as (fm' & HUp' & Hdir'). rewrite HUp in HUp'. injection HUp' as -> -> ->.
    rewrite bool_decide_eq_true_2 by done. split; [done|by eapply commit_disk].
Qed.

Lemma sim_update w a cur last w' b : refines U w a -> UpdateRoot w cur last w' b ->
  exists a', astep a (EUpdate cur last b (unreadable (w_dir w'))) = Some a' /\ refines U w' a'.
Proof.
  intros R HU. pose proof (rf_root _ _ _ R) as Hroot.
  destruct HU as [hp nbs s' specs fm actual tn Hlast Hfl HT HUp Heq|hp nbs s' specs fm actual tn tables Hlast Hfl HT HUp Hneq HUn];
    cbn [w_dir]; pose proof (update_prepared _ _ _ _ _ _ R Hfl HT) as P; pose proof (pr_store _ _ _ _ _ P) as Hok;
    assert (forall h, h ∈ a_keys a <-> key U s' (nbs_tables nbs) h) as Hkey by (intros h; symmetry; apply P);
    pose proof (update_manifest _ _ _ _ _ _ _ _ _ R P HUp) as HM; cbn [astep];
    rewrite bool_decide_eq_true_2 by congruence; cbn [negb]; destruct (in_step a) eqn:Ei.
  - destruct HM as (_ & Hag & HM). assert (unreadable fm && negb (a_again a) = false) as ->.
    { destruct (unreadable fm); [by rewrite Hag|done]. }
    cbn [orb]. eexists. split; [done|]. eapply prepared_refines; [exact P|apply Hok|done|done].
  - destruct HM as (ks & Ed & Hact & Hd' & Hun & _). subst actual. rewrite Hun, Ed, bool_decide_eq_true_2 by done. rewrite !eqb_reflx. cbn [eqb negb orb].
    eexists. split; [done|]. rewrite Ed in Hd'. eapply prepared_refines; [exact P|apply Hok|done|done].
  - destruct HM as [-> _]. done.
  - destruct HM as (ks & Ed & Hact & Hd' & Hun & Hold). rewrite Hun, Ed, bool_decide_eq_false_2 by congruence. rewrite !eqb_reflx. cbn [eqb negb orb].
    pose proof (no_sys _ _ _ Hok) as Hs. destruct (at_rest_specs s' (nbs_tables nbs) Hs (to_valid _ _ _ (no_tables _ _ _ Hok)) (pr_rest _ _ _ _ _ P)) as [specs0 Hso].
    destruct ks as [ks|]; [|by destruct (Union_broken s' _ specs0 tn tables UOK Hs Hso Hold)]. destruct Hold as [Hold Hks].
    destruct (Union_ok s' _ specs0 tn (uo_names _ UOK) Hs Hso Hold) as (tables' & HUn' & Hto & Hkey').
    rewrite HUn in HUn'. injection HUn' as <-. eexists. split; [done|]. rewrite Ed in Hd'. eapply prepared_refines; [exact P|done| |done].
    intros h. by rewrite elem_of_union, Hks, Hkey, Hkey'.
Qed.

Lemma sim_step w a e w' : refines U w a -> step U w e w' -> exists a', astep a e = Some a' /\ refines U w' a'.
Proof.
  intros R [c hp nbs Hc HP|chunx hp nbs refused Hc HP|s' Hst|cur last w2 b HU|fs fm r specs ks Hf Hg Hd Hsp|n nbs Hn Hnew].
  - by apply sim_put.
  - destruct (sim_putMany _ _ _ _ _ _ R Hc HP) as [Hr R1]. cbn [astep]. destruct (put_many a chunx) as [a' refused']. cbn in Hr, R1. subst refused'.
    rewrite bool_decide_eq_true_2 by done. by exists a'.
  - exists a. split; [done|]. by apply sim_compact.
  - by eapply sim_update.
  - eexists. split; [done|]. by eapply sim_others.
  - by apply sim_reopen.
Qed.

Lemma sim_steps w a es w' : refines U w a -> steps U w es w' -> exists a', asteps a es = Some a' /\ refines U w' a'.
Proof.
  intros R Hs. revert a R. induction Hs as [w|w e w1 es w2 Hst _ IH]; intros a R; cbn [asteps]; [by exists a|].
  destruct (sim_step w a e w1 R Hst) as (a1 & -> & R1). by apply IH.
Qed.

Lemma fresh_refines n : 0 <= n <= memTable_limit -> refines U (fresh n) (afresh n).
Proof.
  intros Hn. destruct (reopen_ok ∅ (MkDir false None) None n emptyHash ∅ (uo_names _ UOK)) as (nbs & Hnew & Hok & Hr & _ & _ & Hk); [by intros ???|done|done|done|].
  unfold newNomsBlockStore in Hnew. cbn in Hnew. injection Hnew as <-.
  split; cbn; [done|done|by intros h; rewrite Hk|done|done|done|intros _; by split|intros _; by split].
Qed.

End facts.

End NbsRefineFacts.
