(* ===== verification/NbsGetMany.v ===== *)
(** * Package [nbs]: batched reads of [NomsBlockStore] (src/go/nbs/store.go, [GetMany])

    [GetMany] asks the memory table and then table after table until nothing
    remains; each table plans physical reads that run concurrently.  The facts
    follow one request through all of that: whatever order the reads run in, the
    answers are those of [Get]. *)

From S2P Require Import Prelude GoLib HashPkg Chunks SnappyPkg NbsTable NbsReader NbsMem NbsManifest NbsStore NbsRefine.
Import Hash Chunks Nbs NbsReader NbsMem Manifest NbsStore.
Import NbsTableFacts NbsReaderFacts NbsMemFacts NbsStoreFacts NbsRefineFacts.

Module NbsGetManyFacts.

Section facts.
Context `{Snappy} `{!SnappyLaws} `{!SnappySlack} `{GoSort}.
Context {U : gmap addr (list byte)}.

(** Position [j] of the requests is served by one of the reads. *)
Definition serves_pos (j : nat) (x : tableReader * readBatch) : Prop :=
  Exists (fun o => or_reqIdx o = Z.of_nat j) (rb_recs (snd x)).
#[global] Instance serves_pos_dec j x : Decision (serves_pos j x).
Proof. apply _. Defined.
Abbreviation covers bs j := (Exists (serves_pos j) bs).

(** A read that gives requests for [addrs] their data. *)
Definition read_ok (addrs : list addr) (x : tableReader * readBatch) : Prop :=
  exists cs, serves (fst x) cs /\ batch_ok (cs := cs) (snd x) /\
    Forall (fun o => exists (j : nat) a, or_reqIdx o = Z.of_nat j /\ addrs !! j = Some a /\
      U !! a = Some (chunk_at (cs := cs) o)) (rb_recs (snd x)).

Definition give (c : bool) (r : getRecord) : getRecord := if c then with_data (default [] (U !! gr_a r)) r else r.

Lemma length_put_all (cs : list (addr * list byte)) os : forall reqs, length (foldl (put_data (cs := cs)) reqs os) = length reqs.
Proof. induction os as [|o os IH]; intros reqs; [done|]. cbn [foldl]. rewrite IH. unfold put_data. by rewrite length_alter. Qed.

Lemma read_ok_run addrs x reqs : read_ok addrs x -> gr_a <$> reqs = addrs ->
  readAtOffsets (fst x) reqs (snd x) = Ok (imap (fun j r => give (bool_decide (serves_pos j x)) r) reqs).
Proof.
  destruct x as [tr b]. intros (cs & Hsv & Hb & Hrecs) Ha. cbn [fst snd] in *.
  destruct Hsv as ([sorted IX] & [tail Htail] & Hsize). rewrite Forall_forall in Hrecs.
  assert (Forall (addresses (Zlength reqs)) (rb_recs b)) as Had.
  { apply Forall_forall. intros o Ho. destruct (Hrecs o Ho) as (j & a & Hi & Hj & _). subst addrs.
    rewrite list_lookup_fmap in Hj. destruct (reqs !! j) eqn:E; [|done]. apply lookup_lt_Some in E. unfold addresses, Zlength. lia. }
  rewrite (readAtOffsets_ok IX Htail Hsize) by done. f_equal. apply list_eq. intros j. rewrite list_lookup_imap.
  destruct (reqs !! j) as [r|] eqn:E.
  - rewrite (put_all_lookup (rb_recs b) reqs j r (default [] (U !! gr_a r)) Had E); [done|].
    intros o Ho Hi. destruct (Hrecs o Ho) as (j' & a & Hi' & Hj & HU). assert (j' = j) as -> by lia. subst addrs.
    rewrite list_lookup_fmap, E in Hj. injection Hj as <-. by rewrite HU.
  - apply lookup_ge_None. rewrite length_put_all. by apply lookup_ge_None.
Qed.

Lemma give_a c r : gr_a (give c r) = gr_a r.
Proof. by destruct c. Qed.
Lemma fmap_a_give (f : nat -> getRecord -> bool) reqs : gr_a <$> imap (fun j r => give (f j r) r) reqs = gr_a <$> reqs.
Proof. apply list_eq. intros j. rewrite !list_lookup_fmap, list_lookup_imap. destruct (reqs !! j); [|done]. cbn. by rewrite give_a. Qed.

(** All reads, one after the other. *)
Lemma run_reads_ok bs : forall reqs, Forall (read_ok (gr_a <$> reqs)) bs ->
  run_reads reqs bs = Ok (imap (fun j r => give (bool_decide (covers bs j)) r) reqs).
Proof.
  induction bs as [|[tr b] bs IH]; intros reqs Hbs; cbn [run_reads].
  { f_equal. apply list_eq. intros j. rewrite list_lookup_imap. destruct (reqs !! j); [|done]. cbn [fmap option_fmap option_map].
    rewrite bool_decide_eq_false_2; [done|]. intros Hx. by inversion Hx. }
  apply Forall_cons in Hbs as [Hb Hbs]. pose proof (read_ok_run _ (tr, b) reqs Hb eq_refl) as Hrun.
  cbn [fst snd] in Hrun. rewrite Hrun. cbn [obind].
  rewrite IH by (by rewrite fmap_a_give). f_equal. apply list_eq. intros j. rewrite !list_lookup_imap.
  destruct (reqs !! j) as [r|]; [|done]. cbn [fmap option_fmap option_map]. f_equal. unfold give at 1. rewrite give_a.
  destruct (decide (serves_pos j (tr, b))) as [Hs|Hs].
  - rewrite (bool_decide_eq_true_2 (serves_pos _ _)), (bool_decide_eq_true_2 (covers ((tr, b) :: bs) j)) by (done || by left). cbn.
    by destruct (bool_decide _).
  - rewrite (bool_decide_eq_false_2 (serves_pos _ _)) by done. cbn [give].
    rewrite (bool_decide_ext (covers ((tr, b) :: bs) j) (covers bs j)); [done|]. rewrite Exists_cons. tauto.
Qed.

(** ** Planning *)

(** What asking the sources [css] does to request [r] at position [j]. *)
Record asked (s : sys) (css : list chunkSource) (bs : list (tableReader * readBatch)) (j : nat) (r r' : getRecord) : Prop := {
  as_same : gr_a r' = gr_a r /\ gr_prefix r' = gr_prefix r /\ gr_order r' = gr_order r;
  as_data : gr_data r' = gr_data r \/ is_Some (gr_data r') /\ gr_data r' = U !! gr_a r /\ key U s css (gr_a r);
  as_covers : covers bs j -> key U s css (gr_a r);
  as_found : gr_found r' = true -> gr_found r = true \/ covers bs j;
  as_mono : is_Some (gr_data r) -> is_Some (gr_data r')
}.
Definition settled (bs : list (tableReader * readBatch)) (j : nat) (r r' : getRecord) : Prop :=
  gr_found r = true \/ is_Some (gr_data r') \/ covers bs j.
Record planned (s : sys) (css : list chunkSource) (reqs reqs' : list getRecord) (bs : list (tableReader * readBatch)) (rem : bool) : Prop := {
  pl_length : length reqs' = length reqs;
  pl_reads : Forall (read_ok (gr_a <$> reqs)) bs;
  pl_asked : forall j r r', reqs !! j = Some r -> reqs' !! j = Some r' -> asked s css bs j r r';
  pl_key : forall j r r', reqs !! j = Some r -> reqs' !! j = Some r' -> key U s css (gr_a r) -> settled bs j r r';
  pl_done : forall j r r', reqs !! j = Some r -> reqs' !! j = Some r' -> rem = false -> settled bs j r r'
}.

(** No request shares its 8-byte prefix with another address of the sources. *)
Definition twin_free (s : sys) (css : list chunkSource) (reqs : list getRecord) : Prop :=
  forall r h, r ∈ reqs -> key U s css h -> Prefix (gr_a r) = Prefix h -> gr_a r = h.

Lemma key_one s src cs h : sys_ok U s -> lists U s src cs -> key U s [src] h <-> h ∈ cs.*1.
Proof. intros Hs Hl. rewrite (key_cons s src cs) by done. split; [|by left]. by intros [?|[]%key_nil]. Qed.

Lemma no_covers j : ~ covers (@nil (tableReader * readBatch)) j.
Proof. intros Hx. by inversion Hx. Qed.

Lemma planned_mem s src mt reqs : sys_ok U s -> mem_ok U mt -> lists U s src (mt_list mt) ->
  planned s [src] reqs (mt_answer mt <$> reqs) [] (existsb (fun r => negb (mt_has mt (gr_a r))) reqs).
Proof.
  intros Hs (Hw & _ & HU & _) Hl.
  assert (forall j r r', reqs !! j = Some r -> (mt_answer mt <$> reqs) !! j = Some r' -> r' = mt_answer mt r) as Hlk.
  { intros j r r' Hj. rewrite list_lookup_fmap, Hj. by intros [= <-]. }
  assert (forall r, mt_has mt (gr_a r) = true -> is_Some (gr_data (mt_answer mt r))) as Hsome.
  { intros r Hh. unfold mt_has in Hh. apply bool_decide_eq_true in Hh as [d Hd]. unfold mt_answer. by rewrite Hd. }
  split; [by rewrite length_fmap|constructor| | |].
  - intros j r r' Hj Hj'. rewrite (Hlk j r r' Hj Hj'). unfold mt_answer. destruct (mt_chunks mt !! gr_a r) as [d|] eqn:E.
    + apply mt_chunks_elem in E; [|done]. split; cbn; [done| |by intros []%no_covers|by left|done].
      right. split; [done|]. split; [symmetry; by apply HU|]. rewrite (key_one s src (mt_list mt)) by done.
      apply list_elem_of_fmap. by exists (gr_a r, d).
    + split; [done|by left|by intros []%no_covers|by left|done].
  - intros j r r' Hj Hj' Hk. rewrite (Hlk j r r' Hj Hj'). right. left. apply Hsome. rewrite mt_has_elem by done.
    apply bool_decide_eq_true. by rewrite (key_one s src (mt_list mt)) in Hk.
  - intros j r r' Hj Hj' Hrem. rewrite (Hlk j r r' Hj Hj'). right. left. apply Hsome.
    destruct (mt_has mt (gr_a r)) eqn:E; [done|]. exfalso.
    assert (existsb (fun r => negb (mt_has mt (gr_a r))) reqs = true) as Hx; [|congruence].
    apply existsb_exists. exists r. split; [apply list_elem_of_In; by eapply list_elem_of_lookup_2|by rewrite E].
Qed.

(** Positions covered by the reads of one table. *)
Lemma covers_flat tr bs j : covers (pair tr <$> bs) j <-> exists o, o ∈ flat bs /\ or_reqIdx o = Z.of_nat j.
Proof.
  rewrite Exists_exists. unfold flat, serves_pos. split.
  - intros (x & (b & -> & Hb)%list_elem_of_fmap & (o & Ho & Hi)%Exists_exists). exists o. split; [|done].
    apply list_elem_of_In, in_concat. exists (rb_recs b). split; [apply list_elem_of_In, list_elem_of_fmap; by exists b|by apply list_elem_of_In].
  - intros (o & Ho & Hi). apply list_elem_of_In, in_concat in Ho as (l & Hl & Ho). apply list_elem_of_In, list_elem_of_fmap in Hl as (b & -> & Hb).
    exists (tr, b). split; [apply list_elem_of_fmap; by exists b|]. apply Exists_exists. exists o. split; [by apply list_elem_of_In|done].
Qed.

Lemma planned_table s src h tr cs reqs : sys_ok U s -> lists U s src cs -> p_lists U (s_files s) (PTable h tr) cs ->
  Forall get_wf reqs -> StronglySorted (fun x y => gr_prefix x <= gr_prefix y) reqs -> Zlength reqs < 2 ^ 32 -> twin_free s [src] reqs ->
  exists bs, getMany_plan tr reqs = Ok (found_answer (cs := cs) <$> reqs, bs, prefix_missing (cs := cs) reqs) /\
    planned s [src] reqs (found_answer (cs := cs) <$> reqs) (pair tr <$> bs) (prefix_missing (cs := cs) reqs).
Proof.
  intros Hs Hl (Hsv & Hst & _) Hwf Hsort Hlen Htw. pose proof (st_good _ _ Hst) as [HU _].
  destruct (getMany_plan_reads tr cs reqs Hsv Hwf Hsort Hlen) as (bs & ors & Hplan & Hors & Hflat & Hbs). exists bs. split; [done|].
  assert (forall j r r', reqs !! j = Some r -> (found_answer (cs := cs) <$> reqs) !! j = Some r' -> r' = found_answer (cs := cs) r) as Hlk.
  { intros j r r' Hj. rewrite list_lookup_fmap, Hj. by intros [= <-]. }
  assert (forall (j : nat) r, reqs !! j = Some r -> gr_found r = false -> gr_a r ∈ cs.*1 -> covers (pair tr <$> bs) j) as Hcov.
  { intros j r Hj Hf Hin. destruct (ors_complete _ _ _ Hors j r Hj Hf Hin) as (o & Ho & Hi). apply covers_flat. exists o.
    rewrite Hflat. split; [done|lia]. }
  assert (forall (j : nat) r, reqs !! j = Some r -> gr_a r ∈ cs.*1 -> settled (pair tr <$> bs) j r (found_answer (cs := cs) r)) as Hset.
  { intros j r Hj Hin. destruct (gr_found r) eqn:Ef; [by left|right; right; by eapply Hcov]. }
  split; [by rewrite length_fmap| | | |].
  - apply Forall_forall. intros x (b & -> & Hb)%list_elem_of_fmap. exists cs. split; [done|]. rewrite Forall_forall in Hbs. split; [by apply Hbs|].
    apply Forall_forall. intros o Ho. assert (o ∈ ors) as Ho'.
    { rewrite <- Hflat. apply list_elem_of_In, in_concat. exists (rb_recs b). split; [apply list_elem_of_In, list_elem_of_fmap; by exists b|by apply list_elem_of_In]. }
    destruct (ors_sound _ _ _ Hors o Ho') as (j & r & Hj & _ & Hi & i & Hord & [d Hd] & _). exists j, (gr_a r).
    split; [lia|]. split; [by rewrite list_lookup_fmap, Hj|]. unfold chunk_at. rewrite Hord, Nat2Z.id, Hd. cbn. apply HU. by eapply list_elem_of_lookup_2.
  - intros j r r' Hj Hj'. rewrite (Hlk j r r' Hj Hj'). split; cbn; [done|by left| | |done].
    + intros (o & Ho & Hi)%covers_flat. rewrite Hflat in Ho. destruct (ors_sound _ _ _ Hors o Ho) as (j' & r2 & Hj2 & _ & Hi' & i & _ & [d Hd] & _).
      assert (j' = j) as -> by lia. rewrite Hj in Hj2. injection Hj2 as <-. apply (key_one s src cs); [done|done|].
      apply list_elem_of_fmap. exists (gr_a r, d). split; [done|]. by eapply list_elem_of_lookup_2.
    + destruct (gr_found r) eqn:Ef; [by left|]. cbn. intros Hin%bool_decide_eq_true. right. by eapply Hcov.
  - intros j r r' Hj Hj' Hk. rewrite (Hlk j r r' Hj Hj'). apply Hset; [done|]. by apply (key_one s src cs) in Hk.
  - intros j r r' Hj Hj' Hrem. rewrite (Hlk j r r' Hj Hj'). destruct (gr_found r) eqn:Ef; [by left|]. apply Hset; [done|].
    rewrite Forall_forall in Hwf. assert (r ∈ reqs) as Hr by (by eapply list_elem_of_lookup_2). pose proof (Hwf r Hr) as Hp. unfold get_wf in Hp.
    destruct (decide (gr_prefix r ∈ (fun c => Prefix (fst c)) <$> cs)) as [Hin|Hnin].
    + apply list_elem_of_fmap in Hin as (c & Hc & Hin). assert (c.1 ∈ cs.*1) as Hc1 by (apply list_elem_of_fmap; by exists c).
      rewrite (Htw r c.1 Hr); [done|by apply (key_one s src cs)|congruence].
    + exfalso. assert (prefix_missing (cs := cs) reqs = true) as Hx; [|congruence]. unfold prefix_missing. apply existsb_exists.
      exists r. split; [by apply list_elem_of_In|]. by rewrite Ef, bool_decide_eq_false_2 by done.
Qed.

Lemma planned_skip s src reqs : planned s [src] reqs reqs [] true <->
  (forall r, r ∈ reqs -> key U s [src] (gr_a r) -> gr_found r = true \/ is_Some (gr_data r)).
Proof.
  split.
  - intros P r Hr Hk. apply list_elem_of_lookup in Hr as [j Hj]. destruct (pl_key _ _ _ _ _ _ P j r r Hj Hj Hk) as [?|[?|[]%no_covers]]; tauto.
  - intros Hk. split; [done|constructor| | |done].
    + intros j r r' Hj Hj'. assert (r' = r) as -> by congruence. split; [done|by left|by intros []%no_covers|by left|done].
    + intros j r r' Hj Hj' Hkey. assert (r' = r) as -> by congruence. destruct (Hk r) as [?|?]; [by eapply list_elem_of_lookup_2|done|by left|].
      right. by left.
Qed.

Definition ready (reqs : list getRecord) : Prop :=
  Forall get_wf reqs /\ StronglySorted (fun x y => gr_prefix x <= gr_prefix y) reqs /\ Zlength reqs < 2 ^ 32.

Lemma src_planned s src reqs : sys_ok U s -> valid_src U s src -> ready reqs -> twin_free s [src] reqs ->
  exists reqs' bs rem, src_getMany (s_heap s) src reqs = Ok (reqs', bs, rem) /\ planned s [src] reqs reqs' bs rem.
Proof.
  intros Hs [cs Hl] (Hwf & Hsort & Hlen) Htw. unfold src_getMany, getReader.
  assert (forall p cs', p_lists U (s_files s) p cs' -> lists U s src cs' -> exists reqs' bs rem,
    p_getMany p reqs = Ok (reqs', bs, rem) /\ planned s [src] reqs reqs' bs rem) as Hp.
  { intros [h tr|] cs' Hpl Hl'; cbn [p_getMany].
    - destruct (planned_table s src h tr cs' reqs Hs Hl' Hpl Hwf Hsort Hlen Htw) as (bs & -> & P). cbn [obind]. eauto.
    - exists reqs, [], true. split; [done|]. apply planned_skip. intros r _ Hk. simpl in Hpl. subst cs'.
      apply (key_one s src []) in Hk; [|done|done]. by apply elem_of_nil in Hk. }
  destruct src as [p|id]; cbn [obind].
  - inversion Hl as [p' cs' Hpl| |]; subst. by eapply Hp.
  - destruct (s_heap s !! id) as [[mt haver|p]|] eqn:E; cbn [obind].
    + rewrite mt_getMany_ok. destruct (so_mem _ _ Hs _ _ _ E) as (Hm & _). eexists _, _, _. split; [done|].
      apply planned_mem; [done|done|by eapply lists_mem].
    + destruct (so_done _ _ Hs _ _ E) as [cs' Hpl]. eapply Hp; [exact Hpl|by eapply lists_done].
    + exfalso. inversion Hl; subst; congruence.
Qed.

Lemma planned_lookup s css reqs reqs' bs rem j r : planned s css reqs reqs' bs rem -> reqs !! j = Some r -> exists r', reqs' !! j = Some r'.
Proof. intros P Hj. apply lookup_lt_is_Some. rewrite (pl_length _ _ _ _ _ _ P). by eapply lookup_lt_Some. Qed.

Lemma sorted_keys {A} (key : A -> Z) l : StronglySorted (fun x y => key x <= key y) l <-> StronglySorted Z.le (key <$> l).
Proof.
  induction l as [|x l IH]; [by split; constructor|]. cbn [fmap list_fmap]. split; intros [Hl Hx]%StronglySorted_inv; constructor.
  - by apply IH.
  - by apply Forall_fmap.
  - by apply IH.
  - rewrite Forall_fmap in Hx. exact Hx.
Qed.
Lemma planned_ready s css reqs reqs' bs rem : planned s css reqs reqs' bs rem -> ready reqs -> ready reqs' /\ gr_a <$> reqs' = gr_a <$> reqs.
Proof.
  intros P (Hwf & Hsort & Hlen). assert (gr_a <$> reqs' = gr_a <$> reqs /\ gr_prefix <$> reqs' = gr_prefix <$> reqs) as [Ha Hp].
  { split; apply list_eq; intros j; rewrite !list_lookup_fmap; destruct (reqs !! j) as [r|] eqn:E.
    - destruct (planned_lookup _ _ _ _ _ _ _ _ P E) as [r' E']. rewrite E'. cbn. f_equal. apply (pl_asked _ _ _ _ _ _ P j r r' E E').
    - apply lookup_ge_None in E. rewrite <- (pl_length _ _ _ _ _ _ P) in E. apply lookup_ge_None in E. by rewrite E.
    - destruct (planned_lookup _ _ _ _ _ _ _ _ P E) as [r' E']. rewrite E'. cbn. f_equal. apply (pl_asked _ _ _ _ _ _ P j r r' E E').
    - apply lookup_ge_None in E. rewrite <- (pl_length _ _ _ _ _ _ P) in E. apply lookup_ge_None in E. by rewrite E. }
  split; [|done]. split; [|split].
  - apply Forall_forall. intros r' Hr'. apply list_elem_of_lookup in Hr' as [j Hj']. destruct (reqs !! j) as [r|] eqn:Hj.
    + destruct (as_same _ _ _ _ _ _ (pl_asked _ _ _ _ _ _ P j r r' Hj Hj')) as (Ha' & Hp' & _). unfold get_wf. rewrite Ha', Hp'.
      rewrite Forall_forall in Hwf. apply Hwf. by eapply list_elem_of_lookup_2.
    + apply lookup_ge_None in Hj. rewrite <- (pl_length _ _ _ _ _ _ P) in Hj. apply lookup_lt_Some in Hj'. lia.
  - apply (sorted_keys gr_prefix). rewrite Hp. by apply (sorted_keys gr_prefix).
  - unfold Zlength in *. by rewrite (pl_length _ _ _ _ _ _ P).
Qed.

Lemma key_split s src css h : key U s (src :: css) h <-> key U s [src] h \/ key U s css h.
Proof. apply (key_app s [src]). Qed.
Lemma covers_app bs1 bs2 j : covers (bs1 ++ bs2) j <-> covers bs1 j \/ covers bs2 j.
Proof. apply Exists_app. Qed.

Lemma asked_trans s src css bs1 bs2 j r r1 r2 : asked s [src] bs1 j r r1 -> asked s css bs2 j r1 r2 -> asked s (src :: css) (bs1 ++ bs2) j r r2.
Proof.
  intros [(Ha1 & Hp1 & Ho1) Hd1 Hc1 Hf1 Hm1] [(Ha2 & Hp2 & Ho2) Hd2 Hc2 Hf2 Hm2]. rewrite Ha1 in *. split.
  - split_and!; congruence.
  - destruct Hd2 as [->|(Hs2 & Hd2 & Hk)]; [|right; rewrite key_split; tauto].
    destruct Hd1 as [|(Hs1 & Hd & Hk)]; [by left|right; rewrite key_split; tauto].
  - rewrite covers_app, key_split. tauto.
  - rewrite covers_app. intros [?|?]%Hf2; [|tauto]. destruct Hf1; tauto.
  - tauto.
Qed.
Lemma asked_first s src css bs j r r' : asked s [src] bs j r r' -> asked s (src :: css) bs j r r'.
Proof.
  intros [Hs Hd Hc Hf Hm]. split; [done| | |done|done].
  - destruct Hd as [|(? & ? & ?)]; [by left|right]. rewrite key_split. tauto.
  - rewrite key_split. tauto.
Qed.

(** Table after table until nothing remains. *)
Lemma css_planned s css : forall reqs, sys_ok U s -> Forall (valid_src U s) css -> ready reqs -> twin_free s css reqs ->
  exists reqs' bs rem, css_getMany (s_heap s) css reqs = Ok (reqs', bs, rem) /\ planned s css reqs reqs' bs rem.
Proof.
  induction css as [|src css IH]; intros reqs Hs Hv Hrd Htw; cbn [css_getMany].
  { exists reqs, [], true. split; [done|]. split; [done|constructor| |by intros ? ? ? ? ? []%key_nil|done].
    intros j r r' Hj Hj'. assert (r' = r) as -> by congruence. split; [done|by left|by intros []%no_covers|by left|done]. }
  apply Forall_cons in Hv as [Hsrc Hv].
  destruct (src_planned s src reqs Hs Hsrc Hrd) as (reqs1 & bs1 & rem1 & -> & P1).
  { intros r h Hr Hk. apply Htw; [done|]. apply key_split. by left. }
  cbn [obind]. destruct rem1; cbn [negb].
  2: { exists reqs1, bs1, false. split; [done|]. split; [apply P1|apply P1| | |apply P1].
       - intros j r r' Hj Hj'. by apply asked_first, P1.
       - intros j r r' Hj Hj' _. by apply (pl_done _ _ _ _ _ _ P1 j r r' Hj Hj'). }
  destruct (planned_ready _ _ _ _ _ _ P1 Hrd) as [Hrd1 Ha1].
  destruct (IH reqs1 Hs Hv Hrd1) as (reqs2 & bs2 & rem2 & -> & P2).
  { intros r h Hr Hk. assert (gr_a r ∈ gr_a <$> reqs) as Hin by (rewrite <- Ha1; apply list_elem_of_fmap; by exists r).
    apply list_elem_of_fmap in Hin as (r0 & -> & Hr0). apply Htw; [done|]. apply key_split. by right. }
  cbn [obind]. exists reqs2, (bs1 ++ bs2), rem2. split; [done|].
  assert (forall j r r', reqs !! j = Some r -> reqs2 !! j = Some r' -> exists r1, reqs1 !! j = Some r1 /\ asked s [src] bs1 j r r1 /\ asked s css bs2 j r1 r') as Hmid.
  { intros j r r' Hj Hj'. destruct (planned_lookup _ _ _ _ _ _ _ _ P1 Hj) as [r1 Hj1]. exists r1. split; [done|]. split; [by apply P1|by apply P2]. }
  assert (forall j r r1 r', asked s [src] bs1 j r r1 -> settled bs2 j r1 r' -> settled (bs1 ++ bs2) j r r') as Hset.
  { intros j r r1 r' A1 [Hf|[Hd|Hc]]; unfold settled; rewrite covers_app; [|tauto|tauto].
    destruct (as_found _ _ _ _ _ _ A1 Hf); tauto. }
  split.
  - rewrite (pl_length _ _ _ _ _ _ P2). apply P1.
  - apply Forall_app. split; [apply P1|]. rewrite <- Ha1. apply P2.
  - intros j r r' Hj Hj'. destruct (Hmid j r r' Hj Hj') as (r1 & _ & A1 & A2). by eapply asked_trans.
  - intros j r r' Hj Hj' Hk. destruct (Hmid j r r' Hj Hj') as (r1 & Hj1 & A1 & A2). apply key_split in Hk as [Hk|Hk].
    + destruct (pl_key _ _ _ _ _ _ P1 j r r1 Hj Hj1 Hk) as [?|[?|?]]; [by left| |right; right; apply covers_app; by left].
      right. left. by apply (as_mono _ _ _ _ _ _ A2).
    + apply (Hset j r r1 r' A1). apply (pl_key _ _ _ _ _ _ P2 j r1 r' Hj1 Hj'). by rewrite (proj1 (as_same _ _ _ _ _ _ A1)).
  - intros j r r' Hj Hj' Hrem. destruct (Hmid j r r' Hj Hj') as (r1 & Hj1 & A1 & A2). apply (Hset j r r1 r' A1).
    by apply (pl_done _ _ _ _ _ _ P2 j r1 r' Hj1 Hj').
Qed.

(** ** [GetMany] *)

Section store.
Context {s : sys} {nbs : NomsBlockStore} (OK : store_ok U s nbs).

(** [o] is what the store has to say about [h]. *)
Definition answers (h : addr) (o : goslice) : Prop :=
  match o with Some d => holds U s nbs h /\ U !! h = Some d | None => ~ holds U s nbs h end.
Definition answered (r rf : getRecord) : Prop := gr_order rf = gr_order r /\ gr_a rf = gr_a r /\ answers (gr_a r) (gr_data rf).

Lemma answers_get h o : answers h o -> nbs_Get (s_heap s) nbs h = Ok (match o with None => EmptyChunk | Some d => NewChunkWithHash h d end).
Proof.
  intros Ha. destruct (nbs_Get_ok s nbs h OK) as (c & -> & Hc). f_equal. destruct o as [d|]; simpl in Ha.
  - destruct Hc as [(d' & _ & Hd & ->)|[? _]]; [|tauto]. destruct Ha. congruence.
  - destruct Hc as [(d' & ? & _)|[_ ->]]; tauto.
Qed.

(** What the memory table leaves of a fresh request. *)
Definition after_mem (r : getRecord) : Prop :=
  get_wf r /\ gr_found r = false /\
  match gr_data r with Some d => in_mem nbs (gr_a r) /\ U !! gr_a r = Some d | None => ~ in_mem nbs (gr_a r) end.

Lemma mem_phase hashes : exists reqs rem,
  match nbs_mt nbs with Some mt => mt_getMany mt (toGetRecords hashes) | None => (toGetRecords hashes, true) end = (reqs, rem) /\
  Forall after_mem reqs /\ gr_a <$> reqs = hashes /\ StronglySorted (fun x y => gr_order x < gr_order y) reqs /\
  (rem = false -> forall r, r ∈ reqs -> is_Some (gr_data r)).
Proof.
  assert (forall g : getRecord -> getRecord, (forall r, gr_order (g r) = gr_order r) -> (forall r, gr_a (g r) = gr_a r) ->
    gr_a <$> (g <$> toGetRecords hashes) = hashes /\ StronglySorted (fun x y => gr_order x < gr_order y) (g <$> toGetRecords hashes)) as Hg.
  { intros g Ho Ha. unfold toGetRecords. rewrite fmap_imap. split.
    - rewrite fmap_imap. apply list_eq. intros j. rewrite list_lookup_imap. unfold compose. destruct (hashes !! j) eqn:E; [|done]. cbn. by rewrite Ha.
    - apply (imap_sorted gr_order _ _ 0). intros i x. unfold compose. by rewrite Ho. }
  assert (forall r, r ∈ toGetRecords hashes -> get_wf r /\ gr_found r = false /\ gr_data r = None) as Hr0.
  { intros r Hr. unfold toGetRecords in Hr. apply list_elem_of_lookup in Hr as [i Hi]. rewrite list_lookup_imap in Hi.
    destruct (hashes !! i); [|done]. by injection Hi as <-. }
  destruct (nbs_mt nbs) as [mt|] eqn:Emt.
  - destruct (no_mt _ _ _ OK mt Emt) as [(Hw & _ & HU & _) _]. rewrite mt_getMany_ok. eexists _, _. split; [done|].
    assert (forall r, gr_order (mt_answer mt r) = gr_order r /\ gr_a (mt_answer mt r) = gr_a r) as Hsame.
    { intros r. unfold mt_answer. by destruct (mt_chunks mt !! gr_a r). }
    split; [|destruct (Hg (mt_answer mt)) as [Ha Hs]; [apply Hsame..|]; split; [done|]; split; [done|]].
    + apply Forall_fmap, Forall_forall. intros r Hr. destruct (Hr0 r Hr) as (Hwf & Hf & Hd). unfold compose, after_mem, mt_answer.
      destruct (mt_chunks mt !! gr_a r) as [d|] eqn:E; cbn; rewrite ?Hd; (split; [done|]; split; [done|]); rewrite (in_mem_some nbs mt _ Emt).
      * apply mt_chunks_elem in E; [|done]. split; [apply list_elem_of_fmap; by exists (gr_a r, d)|by apply HU].
      * intros ([h d] & Hh & Hin)%list_elem_of_fmap. apply mt_chunks_elem in Hin; [|done]. simpl in *. congruence.
    + intros Hrem r' (r & -> & Hr)%list_elem_of_fmap. unfold mt_answer. destruct (mt_chunks mt !! gr_a r) as [d|] eqn:E; [done|]. exfalso.
      assert (existsb (fun r => negb (mt_has mt (gr_a r))) (toGetRecords hashes) = true) as Hx; [|congruence].
      apply existsb_exists. exists r. split; [by apply list_elem_of_In|]. unfold mt_has. by rewrite E.
  - eexists _, _. split; [done|]. destruct (Hg id) as [Ha Hs]; [done|done|]. rewrite list_fmap_id in Ha, Hs. split; [|done].
    apply Forall_forall. intros r Hr. destruct (Hr0 r Hr) as (Hwf & Hf & Hd). split; [done|]. split; [done|]. rewrite Hd.
    rewrite (in_mem_none nbs _ Emt). tauto.
Qed.

(** A request after the planned reads. *)
Lemma settled_answer bs j r r' : after_mem r -> asked s (nbs_tables nbs) bs j r r' ->
  (key U s (nbs_tables nbs) (gr_a r) -> settled bs j r r') ->
  answered r (give (bool_decide (covers bs j)) r').
Proof.
  intros (_ & Hf & Hd) [(Ha & _ & Ho) Hdata Hcov _ _] Hset. unfold settled in Hset. rewrite Hf in Hset.
  assert (forall h d, holds U s nbs h -> U !! h = Some d -> answers h (Some d)) as Hyes by (intros; done).
  assert (key U s (nbs_tables nbs) (gr_a r) -> exists d, U !! gr_a r = Some d) as HU.
  { intros (src & cs & _ & Hl & Hin). pose proof (lists_good _ _ _ (no_sys _ _ _ OK) Hl) as [HU _].
    apply list_elem_of_fmap in Hin as ([h d] & -> & Hin). exists d. by apply HU. }
  case_bool_decide as Hc; cbn [give].
  - split; [done|]. split; [done|]. cbn [with_data gr_data]. specialize (Hcov Hc). destruct (HU Hcov) as [d Hd']. rewrite Ha, Hd'. split; [by right|done].
  - split; [done|]. split; [done|]. destruct (gr_data r') as [d'|] eqn:Ed.
    + destruct Hdata as [Hdata|(_ & Hdata & Hk)]; [|split; [by right|done]]. rewrite <- Hdata in Hd. split; [left|]; tauto.
    + unfold answers, holds. intros [Hm|Hk].
      * destruct (gr_data r) as [d|]; [|done]. destruct Hdata as [?|([? ?] & _)]; done.
      * destruct (Hset Hk) as [?|[[? ?]|?]]; done.
Qed.

(** Restoring the order of the requests and building the response. *)
Lemma respond_ok hashes reqs sorted final : gr_a <$> reqs = hashes -> StronglySorted (fun x y => gr_order x < gr_order y) reqs ->
  sorted ≡ₚ reqs -> Forall2 answered sorted final ->
  Forall2 (fun h c => nbs_Get (s_heap s) nbs h = Ok c) hashes (respond hashes (go_sort getRecordByOrder_Less final)).
Proof.
  intros Ha Hsort Hperm Hans. destruct (Permutation_Forall2 Hperm Hans) as (final' & Hp & Hans').
  assert (StronglySorted (fun x y => gr_order x < gr_order y) final') as Hs'.
  { clear -Hsort Hans'. induction Hans' as [|r rf reqs final Hr Hf IH]; [constructor|]. apply StronglySorted_inv in Hsort as [Hsort Hall].
    constructor; [by apply IH|]. clear -Hr Hf Hall. induction Hf as [|r2 rf2 reqs final Hr2 _ IH]; [constructor|].
    apply Forall_cons in Hall as [? Hall]. constructor; [|by apply IH]. destruct Hr as [-> _], Hr2 as [-> _]. done. }
  rewrite (go_sort_restore _ gr_order final final') by done. subst hashes. unfold respond.
  clear -OK H0 Hans'. induction Hans' as [|r rf reqs final' (_ & _ & Hr) _ IH]; [constructor|]. cbn. constructor; [by apply answers_get|done].
Qed.

Lemma GetMany_ok hashes : Zlength hashes < 2 ^ 32 ->
  (forall a h, a ∈ hashes -> holds U s nbs h -> Prefix a = Prefix h -> a = h) ->
  exists reqs bs, GetMany_plan (s_heap s) nbs hashes = Ok (reqs, bs) /\ forall bs', bs' ≡ₚ bs ->
    exists cs, GetMany_finish hashes reqs bs' = Ok cs /\ Forall2 (fun h c => nbs_Get (s_heap s) nbs h = Ok c) hashes cs.
Proof.
  intros Hlen Htw. unfold GetMany_plan, GetMany_finish. destruct (mem_phase hashes) as (reqs0 & rem & Heq & Hmem & Ha & Hord & Hrem).
  cbv zeta. rewrite Heq. pose proof (go_sort_perm _ getRecordByPrefix_Less reqs0) as Hperm.
  set (reqs := go_sort getRecordByPrefix_Less reqs0) in *.
  assert (Forall after_mem reqs) as Hmem' by (by rewrite Hperm). rewrite Forall_forall in Hmem'. destruct rem.
  - assert (ready reqs) as Hrd.
    { split; [apply Forall_forall; intros r Hr; apply (Hmem' r Hr)|]. split; [by apply (go_sort_sorted _ _ gr_prefix)|].
      assert (Zlength reqs = Zlength hashes) as ->; [|done]. rewrite <- Ha, Zlength_fmap. unfold Zlength. by rewrite Hperm. }
    destruct (css_planned s (nbs_tables nbs) reqs (no_sys _ _ _ OK) (to_valid _ _ _ (no_tables _ _ _ OK)) Hrd) as (reqs' & bs & rem & -> & P).
    { intros r h Hr Hk. apply Htw; [|by right]. rewrite <- Ha. apply list_elem_of_fmap. exists r. by rewrite Hperm in Hr. }
    cbn [obind]. exists reqs', bs. split; [done|]. intros bs' Hp.
    destruct (planned_ready _ _ _ _ _ _ P Hrd) as [_ Ha']. rewrite run_reads_ok by (rewrite Ha', Hp; apply P). cbn [obind].
    eexists. split; [done|]. eapply respond_ok; [done|done|exact Hperm|]. apply Forall2_same_length_lookup.
    split; [by rewrite length_imap, (pl_length _ _ _ _ _ _ P)|]. intros j r rf Hj Hjf. rewrite list_lookup_imap in Hjf.
    destruct (reqs' !! j) as [r'|] eqn:Hj'; [|done]. injection Hjf as <-.
    rewrite (bool_decide_ext (covers bs' j) (covers bs j)) by (by rewrite Hp).
    apply settled_answer; [apply Hmem'; by eapply list_elem_of_lookup_2|by apply P|]. intros Hk. by apply (pl_key _ _ _ _ _ _ P j r r').
  - eexists _, _. split; [done|]. intros bs' ->%Permutation_nil_r. cbn [run_reads obind]. eexists. split; [done|].
    eapply respond_ok; [done|done|exact Hperm|]. apply Forall2_same_length_lookup. split; [done|]. intros j r rf Hj Hjf.
    assert (rf = r) as -> by congruence. assert (r ∈ reqs) as Hr by (by eapply list_elem_of_lookup_2).
    split; [done|]. split; [done|]. destruct (Hrem eq_refl r) as [d Hd]; [by rewrite <- Hperm|].
    destruct (Hmem' r Hr) as (_ & _ & Hm). rewrite Hd in *. destruct Hm; split; [by left|done].
Qed.

End store.

End facts.

End NbsGetManyFacts.
