(* ===== verification/NbsTheorems.v ===== *)
(** * Package [nbs]: theorems about [NomsBlockStore]

    The statements quantify over every run of the store: the steps of
    [NbsRefine] from an empty directory, which include background compactions at
    any time, other processes that write tables and manifest, refused chunks,
    manifests that cannot be opened, and restarts. *)

From S2P Require Import Prelude GoLib HashPkg Chunks SnappyPkg NbsTable NbsReader NbsMem NbsManifest NbsStore NbsRefine NbsGetMany.
Import Hash Chunks Nbs NbsReader NbsMem Manifest NbsStore StoreSpec.
Import NbsTableFacts NbsReaderFacts NbsMemFacts ManifestFacts NbsStoreFacts NbsRefineFacts NbsGetManyFacts.

Module NbsTheoremsFacts.

Section facts.
Context `{Snappy} `{!SnappyLaws} `{!SnappySlack} `{GoSort}.
Context {U : gmap addr (list byte)} (UOK : universe_ok U).

Lemma reachable_refines n es w : 0 <= n <= memTable_limit -> steps U (fresh n) es w ->
  exists a, asteps (afresh n) es = Some a /\ refines U w a.
Proof. intros Hn Hs. eapply sim_steps; [done|by apply fresh_refines|done]. Qed.

Lemma refines_has w a h : refines U w a -> nbs_Has (s_heap (w_sys w)) (w_nbs w) h = Ok (bool_decide (h ∈ a_keys a)).
Proof.
  intros R. destruct (nbs_Has_ok _ _ h (rf_store _ _ _ R)) as (b & -> & Hb). f_equal. rewrite <- (rf_keys _ _ _ R) in Hb.
  destruct b; symmetry; [apply bool_decide_eq_true_2; tauto|]. apply bool_decide_eq_false_2. intros Hh. by apply Hb in Hh.
Qed.
Lemma refines_get w a h : refines U w a ->
  nbs_Get (s_heap (w_sys w)) (w_nbs w) h = Ok (if bool_decide (h ∈ a_keys a) then NewChunkWithHash h (default [] (U !! h)) else EmptyChunk) /\
  (h ∈ a_keys a -> is_Some (U !! h)).
Proof.
  intros R. destruct (nbs_Get_ok _ _ h (rf_store _ _ _ R)) as (c & -> & [(d & Hh & Hd & ->)|[Hh ->]]);
    rewrite <- (rf_keys _ _ _ R) in Hh.
  - rewrite (bool_decide_eq_true_2 _ Hh), Hd. split; [reflexivity|intros _; by eexists].
  - by rewrite bool_decide_eq_false_2 by done.
Qed.

(** ** Progress *)

(** A compaction panics on a memory table without chunks, which only a refused
    chunk leaves. *)
Lemma compact_live w a id : refines U w a -> is_ok (compact (w_sys w) id) = false -> a_refused a = true.
Proof.
  intros R Hno. destruct (a_refused a) eqn:E; [done|]. destruct (rf_refused _ _ _ R E) as [Hf _]. unfold compact in Hno.
  destruct (s_heap (w_sys w) !! id) as [[mt haver|p]|] eqn:Hid; [|done..].
  destruct (compact_ok _ _ _ _ (no_sys _ _ _ (rf_store _ _ _ R)) Hid (Hf _ _ _ Hid)) as (s' & Hc & _).
  unfold compact in Hc. rewrite Hid in Hc. by rewrite Hc in Hno.
Qed.

(** [UpdateRoot] waits for the compactions and comes back. *)
Lemma update_specs w a cur : refines U w a -> exists hp nbs s' specs fm actual tn,
  flush_mt (s_heap (w_sys w)) (w_nbs w) = (hp, nbs) /\ ToSpecs (MkSys (s_files (w_sys w)) hp) (nbs_tables nbs) s' specs /\
  prepared (U := U) w a nbs s' specs /\ Update (w_dir w) specs (nbs_root nbs) cur = Ok (fm, actual, tn) /\ (in_step a = true -> unreadable fm = false).
Proof.
  intros R. destruct (flush_mt (s_heap (w_sys w)) (w_nbs w)) as [hp nbs] eqn:Hfl.
  destruct (flush_ok _ _ _ _ (rf_store _ _ _ R) Hfl) as (Hok1 & _).
  destruct (ToSpecs_live _ _ (no_sys _ _ _ Hok1) (to_valid _ _ _ (no_tables _ _ _ Hok1))) as (s' & specs & HT & Hpos).
  pose proof (update_prepared _ _ _ _ _ _ R Hfl HT) as P. exists hp, nbs, s', specs. pose proof (pr_range _ _ _ _ _ P) as Hrange.
  pose proof (pr_disk _ _ _ _ _ P) as Hdisk. rewrite (pr_root _ _ _ _ _ P). unfold in_step. destruct (a_disk a) as [[r ks]|] eqn:Ed.
  - destruct Hdisk as (old & Hdir & Hold). destruct (Update_ok _ _ specs (a_root a) cur Hdir Hrange) as (fm & Hd & HUp).
    eexists _, _, _. split; [done|]. split; [done|]. split; [done|]. split; [exact HUp|]. intros Heq%bool_decide_eq_true.
    rewrite bool_decide_eq_true_2 in Hd by done. rewrite (unreadable_dir _ _ _ Hd). by apply bool_decide_eq_false.
  - pose proof (Update_ok _ _ specs (a_root a) cur Hdisk Hrange) as HUp. rewrite bool_decide_eq_true_2 in HUp by (by apply R).
    destruct HUp as (fm & HUp & Hd). eexists _, _, _. split; [done|]. split; [done|]. split; [done|]. split; [exact HUp|]. intros _.
    rewrite (unreadable_dir _ _ _ Hd). by apply bool_decide_eq_false.
Qed.
Lemma update_live w a cur : refines U w a ->
  if in_step a then exists w', UpdateRoot w cur (nbs_Root (w_nbs w)) w' true /\ unreadable (w_dir w') = false
  else readable a = true -> exists w' b, UpdateRoot w cur (nbs_Root (w_nbs w)) w' b.
Proof.
  intros R. destruct (update_specs w a cur R) as (hp & nbs & s' & specs & fm & actual & tn & Hfl & HT & P & HUp & Hun).
  pose proof (update_manifest UOK _ _ _ _ _ _ _ _ _ R P HUp) as HM. destruct (in_step a) eqn:Ei.
  { destruct HM as (Heq & _ & _). eexists. split; [by eapply update_done|]. by apply Hun. }
  intros Hread. destruct (decide (cur = actual)) as [Heq|Hneq]; [eexists _, true; by eapply update_done|].
  destruct HM as (ks & Ed & _ & _ & _ & Hold). unfold readable in Hread. rewrite Ed in Hread. destruct ks as [ks|]; [|done].
  pose proof (pr_store _ _ _ _ _ P) as Hok. pose proof (no_sys _ _ _ Hok) as Hs.
  destruct (at_rest_specs s' (nbs_tables nbs) Hs (to_valid _ _ _ (no_tables _ _ _ Hok)) (pr_rest _ _ _ _ _ P)) as [specs0 Hso].
  destruct (Union_ok s' _ specs0 tn (uo_names _ UOK) Hs Hso (proj1 Hold)) as (tables & HUn & _).
  eexists _, false. by eapply update_lost.
Qed.

(** The store can be opened exactly when the manifest is readable. *)
Lemma reopen_live w a n : refines U w a -> 0 <= n <= memTable_limit -> is_ok (newNomsBlockStore (s_files (w_sys w)) (w_dir w) n) = readable a.
Proof.
  intros R Hn. pose proof (so_files _ _ (no_sys _ _ _ (rf_store _ _ _ R))) as Hf. pose proof (rf_disk _ _ _ R) as Hd. unfold readable.
  destruct (on_disk (a_disk a)) as [[r ks]|] eqn:E; [|by apply (reopen_broken _ _ _ n UOK Hf Hd)].
  by destruct (reopen_ok _ _ _ n r ks (uo_names _ UOK) Hf Hd Hn E) as (nbs & -> & _).
Qed.

(** ** Enumeration *)

Lemma p_extract_ok fs p cs order : p_lists U fs p cs ->
  p_extract p order = Ok (extracted <$> match order with InsertOrder => cs | ReverseOrder => reverse cs end).
Proof.
  destruct p as [h tr|]; simpl; [|intros ->; by destruct order]. intros (([sorted IX] & [tail Htail] & Hsize) & Hst & _).
  apply (extract_ok IX Htail Hsize). apply (st_nonempty _ _ Hst).
Qed.

Lemma extract_all_ok s css order : sys_ok U s -> Forall (valid_src U s) css -> all_done s css ->
  exists rs, extract_all (s_heap s) css order = Some (Ok rs) /\
    forall x, x ∈ rs <-> exists h d, x = extracted (h, d) /\ key U s css h /\ U !! h = Some d.
Proof.
  intros Hs. induction 1 as [|src css Hv _ IH]; intros Hd; cbn [extract_all].
  { exists []. split; [done|]. intros x. rewrite elem_of_nil. split; [done|]. by intros (? & ? & _ & []%key_nil & _). }
  apply Forall_cons in Hd as [[p Hw] Hd]. rewrite Hw. destruct (wait_done s src p Hs Hv Hw) as [cs Hda].
  rewrite (p_extract_ok _ _ _ _ (proj2 Hda)). destruct (IH Hd) as (rs & -> & Hrs). eexists. split; [done|].
  pose proof (done_lists _ _ _ _ Hda) as Hl. destruct (lists_good _ _ _ Hs Hl) as [HU _]. intros x. rewrite elem_of_app, Hrs.
  setoid_rewrite (key_cons s src cs css _ Hs Hl).
  assert (x ∈ extracted <$> match order with InsertOrder => cs | ReverseOrder => reverse cs end <->
    exists h d, x = extracted (h, d) /\ h ∈ cs.*1 /\ U !! h = Some d) as ->.
  { rewrite list_elem_of_fmap. assert (forall c, c ∈ match order with InsertOrder => cs | ReverseOrder => reverse cs end <-> c ∈ cs) as Hin.
    { intros c. destruct order; [done|]. by rewrite elem_of_reverse. }
    split.
    - intros ([h d] & -> & Hc%Hin). exists h, d. split; [done|]. split; [apply list_elem_of_fmap; by exists (h, d)|by apply HU].
    - intros (h & d & -> & Hh & Hd'). apply list_elem_of_fmap in Hh as ([h' d'] & -> & Hc). exists (h', d'). cbn in *.
      rewrite (HU _ _ Hc) in Hd'. injection Hd' as ->. split; [done|by apply Hin]. }
  split; [intros [(h & d & ? & ? & ?)|(h & d & ? & ? & ?)]; exists h, d; tauto|].
  intros (h & d & ? & [?|?] & ?); [left|right]; by exists h, d.
Qed.

Lemma key_reverse s css h : key U s (reverse css) h <-> key U s css h.
Proof. unfold key. by setoid_rewrite elem_of_reverse. Qed.

Lemma extractChunks_ok s nbs order : store_ok U s nbs -> all_done s (nbs_tables nbs) ->
  exists cs, extractChunks (s_heap s) nbs order = Some (Ok cs) /\
    forall c, c ∈ cs <-> exists h d, c = NewChunkWithHash h d /\ holds U s nbs h /\ U !! h = Some d.
Proof.
  intros [Hs [Hv _] Hmt _] Hd. unfold extractChunks, ts_extract.
  assert (exists tabs, match order with InsertOrder => extract_all (s_heap s) (reverse (nbs_tables nbs)) order
      | ReverseOrder => extract_all (s_heap s) (nbs_tables nbs) order end = Some (Ok tabs) /\
    forall x, x ∈ tabs <-> exists h d, x = extracted (h, d) /\ key U s (nbs_tables nbs) h /\ U !! h = Some d) as (tabs & Htabs & Hin).
  { destruct order; [|by apply extract_all_ok].
    destruct (extract_all_ok s (reverse (nbs_tables nbs)) InsertOrder Hs) as (rs & -> & Hrs).
    - rewrite Forall_forall in Hv |- *. intros src. rewrite elem_of_reverse. apply Hv.
    - unfold all_done in *. rewrite Forall_forall in Hd |- *. intros src. rewrite elem_of_reverse. apply Hd.
    - exists rs. split; [done|]. intros x. rewrite Hrs. by setoid_rewrite key_reverse. }
  set (mem := match nbs_mt nbs with Some mt => mt_extract mt order | None => [] end).
  assert (forall x, x ∈ mem <-> exists h d, x = extracted (h, d) /\ in_mem nbs h /\ U !! h = Some d) as Hmem.
  { intros x. unfold mem, in_mem. destruct (nbs_mt nbs) as [mt|] eqn:E.
    - destruct (Hmt mt eq_refl) as [(Hw & _ & HU & _) _]. rewrite mt_extract_ok, list_elem_of_fmap by done.
      assert (forall c, c ∈ match order with InsertOrder => mt_list mt | ReverseOrder => reverse (mt_list mt) end <-> c ∈ mt_list mt) as Hc.
      { intros c. destruct order; [done|]. by rewrite elem_of_reverse. }
      split.
      + intros ([h d] & -> & Hx%Hc). exists h, d. split; [done|]. split; [exists mt; split; [done|apply list_elem_of_fmap; by exists (h, d)]|by apply HU].
      + intros (h & d & -> & (mt' & [= <-] & Hh) & Hd'). apply list_elem_of_fmap in Hh as ([h' d'] & -> & Hx). exists (h', d'). cbn in *.
        rewrite (HU _ _ Hx) in Hd'. injection Hd' as ->. split; [done|by apply Hc].
    - rewrite elem_of_nil. split; [done|]. by intros (? & ? & _ & (? & ? & _) & _). }
  assert (match order with ReverseOrder => extract_all (s_heap s) (nbs_tables nbs) order
    | InsertOrder => extract_all (s_heap s) (reverse (nbs_tables nbs)) order end = Some (Ok tabs)) as -> by (by destruct order).
  eexists. split; [done|]. intros c. rewrite list_elem_of_fmap. split.
  - intros (x & -> & Hx). assert (x ∈ mem \/ x ∈ tabs) as [Hx'|Hx'] by (destruct order; apply elem_of_app in Hx; tauto).
    + apply Hmem in Hx' as (h & d & -> & ? & ?). exists h, d. split; [done|]. split; [by left|done].
    + apply Hin in Hx' as (h & d & -> & ? & ?). exists h, d. split; [done|]. split; [by right|done].
  - intros (h & d & -> & Hh & Hd'). exists (extracted (h, d)). split; [done|].
    assert (extracted (h, d) ∈ mem \/ extracted (h, d) ∈ tabs) as Hx.
    { destruct Hh as [Hh|Hh]; [left; apply Hmem|right; apply Hin]; by exists h, d. }
    destruct order; apply elem_of_app; tauto.
Qed.

(** ** A compaction that finds nothing new *)

Lemma compact_nothing s id mt haver : sys_ok U s -> s_heap s !! id = Some (InMemory mt haver) -> mt_order mt <> [] ->
  (forall h, h ∈ (mt_list mt).*1 -> keyb (s_heap s) haver h = true) ->
  compact s id = Ok (MkSys (s_files s) (<[id := Compacted PEmpty]> (s_heap s))).
Proof.
  intros Hs Hid Hne Hall. destruct (so_mem _ _ Hs _ _ _ Hid) as ((Hw & Hmax & Hg) & _ & Hv & _). unfold compact. rewrite Hid. unfold Compact.
  destruct (mt_write_ok mt (Some (css_hasMany (s_heap s) haver)) (keyb (s_heap s) haver) Hw Hmax Hne) as (mt' & ->); [by apply (css_hasMany_ok (U := U))|].
  assert (fresh_chunks (keyb (s_heap s) haver) (mt_list mt) = []) as ->; [|done].
  destruct (fresh_chunks _ _) as [|c l] eqn:E; [done|]. exfalso. assert (c ∈ c :: l) as Hc by (by left). rewrite <- E in Hc.
  apply list_elem_of_filter in Hc as [Hk Hc]. rewrite Hall in Hk; [done|]. apply list_elem_of_fmap. by exists c.
Qed.

Lemma ToSpecs_done s css : sys_ok U s -> Forall (valid_src U s) css -> all_done s css ->
  exists specs, ToSpecs s css s specs /\ Forall spec_ok specs.
Proof.
  intros Hs. induction 1 as [|src css Hv _ IH]; [exists []; split; [constructor|done]|]. intros [[p Hw] Hd]%Forall_cons.
  destruct (IH Hd) as (specs & HT & Hok). destruct (wait_done s src p Hs Hv Hw) as [cs Hda].
  pose proof (src_count_done _ _ _ _ Hda) as Hc. destruct (p_count_lists _ _ _ (proj2 Hda)) as [_ Hrange]. destruct (decide (p_count p = 0)) as [Hz|Hz].
  - exists specs. split; [|done]. apply specs_skip; [by rewrite Hc, Hz|done].
  - exists (MkSpec (p_hash p) (p_count p) :: specs). split; [|by constructor].
    eapply specs_take; [exact Hc|lia|reflexivity|unfold src_hash; by rewrite Hw|reflexivity|exact Hc|exact HT].
Qed.

(** [ToSpecs] sees the count of the memory table and the hash of the compacted one. *)
Lemma ToSpecs_race s ts mt : sys_ok U s -> tables_ok U s ts -> mem_ok U mt -> mt_order mt <> [] -> all_done s ts ->
  (forall h, h ∈ (mt_list mt).*1 -> key U s ts h) ->
  let s1 := MkSys (s_files s) (s_heap s ++ [Compacted PEmpty]) in
  exists specs, ToSpecs (MkSys (s_files s) (s_heap s ++ [InMemory mt ts])) (Compacting (length (s_heap s)) :: ts) s1 (MkSpec emptyHash 0 :: specs) /\
    Forall spec_ok specs.
Proof.
  intros Hs Hts Hm Hne Hd Hall s1. set (s0 := MkSys (s_files s) (s_heap s ++ [InMemory mt ts])). set (id := length (s_heap s)).
  assert (sys_ok U s0) as Hs0 by (by apply prepend_sys).
  assert (s_heap s0 !! id = Some (InMemory mt ts)) as Hid by (by apply list_lookup_middle).
  assert (Forall (valid_src U s0) ts) as Hv0 by (eapply Forall_impl; [exact (to_valid _ _ _ Hts)|intros src; apply prepend_valid]).
  assert (compact s0 id = Ok s1) as Hc.
  { rewrite (compact_nothing s0 id mt ts Hs0 Hid Hne).
    - unfold s1, s0, id. cbn [s_files s_heap]. by rewrite insert_app_r_alt, Nat.sub_diag by done.
    - intros h Hh. apply (keyb_key s0 ts h Hs0 Hv0). destruct (Hall h Hh) as (src & cs & Hin & Hl & Hh').
      exists src, cs. split; [done|]. split; [by apply prepend_lists|done]. }
  assert (compact_step s0 s1) as Hst by (by exists id, mt, ts). pose proof (kept_step _ _ Hs0 Hst) as K.
  destruct (ToSpecs_done s1 ts (k_sys _ _ K)) as (specs & HT & Hok).
  - eapply Forall_impl; [exact Hv0|apply K].
  - unfold all_done in *. eapply Forall_impl; [exact Hd|]. intros [p|j] [q Hq]; [done|]. cbn in Hq |- *.
    destruct (s_heap s !! j) as [c|] eqn:E; [|done]. rewrite (lookup_app_l_Some _ _ _ _ E). by exists q.
  - exists specs. split; [|done]. assert (s_heap s1 !! id = Some (Compacted PEmpty)) as Hid1 by (by apply list_lookup_middle).
    eapply (specs_take _ (mt_count mt)); [| |apply rtc_once; exact Hst| |reflexivity| |exact HT].
    + unfold src_count, getReader. by rewrite Hid.
    + rewrite mt_count_exact, Zlength_mt_list by done. destruct (mt_order mt) as [|r l]; [done|]. rewrite Zlength_cons. pose proof (Zlength_nonneg l). lia.
    + unfold src_hash. cbn [wait]. by rewrite Hid1.
    + unfold src_count, getReader. by rewrite Hid1.
Qed.

End facts.

End NbsTheoremsFacts.
Import NbsTheoremsFacts.

Section theorems.
Context `{Snappy} `{!SnappyLaws} `{!SnappySlack} `{GoSort}.
Context (U : gmap addr (list byte)).

(** C1: the block store is a chunk store.  In every run from an empty directory,
    with compactions ending at any time, chunks put and refused, other processes
    writing tables and the manifest and the store being reopened, the store
    behaves like the abstract one: [Put] takes the chunks that fit in a memory
    table, [PutMany] refuses from the first that does not, the results of
    [UpdateRoot] are those of the abstract store, the root is its root, [Has]
    answers membership in its set of addresses and [Get] returns the data of
    exactly those addresses and the empty chunk otherwise.  A manifest that
    [UpdateRoot] writes can be opened again and has exactly these addresses,
    unless a chunk that the store already had was put since it was opened; from a
    manifest that cannot be opened the abstract store has no step either. *)
Theorem store_refines (n : Z) (es : list event) (w : world) :
  universe_ok U -> 0 <= n <= memTable_limit -> steps U (fresh n) es w ->
  exists a, asteps (afresh n) es = Some a /\ nbs_Root (w_nbs w) = a_root a /\
    forall h, nbs_Has (s_heap (w_sys w)) (w_nbs w) h = Ok (bool_decide (h ∈ a_keys a)) /\
      nbs_Get (s_heap (w_sys w)) (w_nbs w) h =
        Ok (if bool_decide (h ∈ a_keys a) then NewChunkWithHash h (default [] (U !! h)) else EmptyChunk) /\
      (h ∈ a_keys a -> is_Some (U !! h)).
Proof.
  intros UOK Hn Hs. destruct (reachable_refines UOK n es w Hn Hs) as (a & Ha & R). exists a. split; [done|]. split; [apply R|].
  intros h. split; [by eapply refines_has|by apply refines_get].
Qed.

(** C21: when the block store gets stuck.  In every run, with [a] the state of the
    abstract store: a non-empty chunk of at most the size of a memory table can be
    put; a background compaction panics only if a chunk has been refused since the
    store was opened; while the root of the manifest is the one the process knows,
    [UpdateRoot] has an execution that returns true and leaves a manifest that can
    be opened; when the root was moved and the manifest can be opened, [UpdateRoot]
    has an execution that returns; and the store can be opened again exactly when
    the abstract manifest is readable. *)
Theorem store_progress (n : Z) (es : list event) (w : world) :
  universe_ok U -> 0 <= n <= memTable_limit -> steps U (fresh n) es w ->
  exists a, asteps (afresh n) es = Some a /\
    (forall c, contents (Data c) <> [] -> fits a c = true -> is_ok (nbs_Put (s_heap (w_sys w)) (w_nbs w) c) = true) /\
    (forall id, is_ok (compact (w_sys w) id) = false -> a_refused a = true) /\
    (forall current,
       if in_step a then exists w', UpdateRoot w current (nbs_Root (w_nbs w)) w' true /\ unreadable (w_dir w') = false
       else readable a = true -> exists w' b, UpdateRoot w current (nbs_Root (w_nbs w)) w' b) /\
    (forall m, 0 <= m <= memTable_limit -> is_ok (newNomsBlockStore (s_files (w_sys w)) (w_dir w) m) = readable a).
Proof.
  intros UOK Hn Hs. destruct (reachable_refines UOK n es w Hn Hs) as (a & Ha & R). exists a. split; [done|]. split_and!.
  - intros c Hc Hlen%Z.leb_le. rewrite <- (rf_limit _ _ _ R) in Hlen. unfold nbs_Put.
    by destruct (addChunk_total _ _ (ChunkHash c) _ (rf_store _ _ _ R) Hc Hlen) as (hp' & nbs' & ->).
  - intros id. by apply (compact_live w a id R).
  - intros current. by apply (update_live UOK w a current R).
  - intros m Hm. by apply (reopen_live UOK w a m).
Qed.

(** C24: [GetMany] agrees with [Get].  In every run, for any list of hashes none
    of which shares its 8-byte prefix with another address of the store, the
    concurrent reads that [GetMany] starts may run in any order: the response has,
    position by position, the chunk that [Get] returns for the hash. *)
Theorem store_getMany_get (n : Z) (es : list event) (w : world) (hashes : list Hash) :
  universe_ok U -> 0 <= n <= memTable_limit -> steps U (fresh n) es w ->
  Zlength hashes < 2 ^ 32 ->
  (forall a h, a ∈ hashes -> nbs_Has (s_heap (w_sys w)) (w_nbs w) h = Ok true -> Prefix a = Prefix h -> a = h) ->
  exists reqs reads, GetMany_plan (s_heap (w_sys w)) (w_nbs w) hashes = Ok (reqs, reads) /\
    forall reads', reads' ≡ₚ reads -> exists cs, GetMany_finish hashes reqs reads' = Ok cs /\
      Forall2 (fun h c => nbs_Get (s_heap (w_sys w)) (w_nbs w) h = Ok c) hashes cs.
Proof.
  intros UOK Hn Hs Hlen Htw. destruct (reachable_refines UOK n es w Hn Hs) as (a & _ & R). pose proof (rf_store _ _ _ R) as Hok.
  apply (GetMany_ok Hok); [done|]. intros x h Hx Hh. apply Htw; [done|]. destruct (nbs_Has_ok _ _ h Hok) as (b & -> & Hb).
  f_equal. by apply Hb.
Qed.

(** [extractChunks] enumerates the store.  In every run, once the compactions
    of its tables are done, it sends in either order exactly the chunks that [Has]
    and [Get] know. *)
Theorem store_extract_exact (n : Z) (es : list event) (w : world) (order : EnumerationOrder) :
  universe_ok U -> 0 <= n <= memTable_limit -> steps U (fresh n) es w ->
  Forall (fun src => is_Some (wait (s_heap (w_sys w)) src)) (nbs_tables (w_nbs w)) ->
  exists cs, extractChunks (s_heap (w_sys w)) (w_nbs w) order = Some (Ok cs) /\
    forall c, c ∈ cs <-> nbs_Has (s_heap (w_sys w)) (w_nbs w) (ChunkHash c) = Ok true /\
                         nbs_Get (s_heap (w_sys w)) (w_nbs w) (ChunkHash c) = Ok c.
Proof.
  intros UOK Hn Hs Hd. destruct (reachable_refines UOK n es w Hn Hs) as (a & _ & R). pose proof (rf_store _ _ _ R) as Hok.
  destruct (extractChunks_ok _ _ order Hok Hd) as (cs & -> & Hcs). exists cs. split; [done|]. intros c. rewrite Hcs.
  destruct (nbs_Has_ok _ _ (ChunkHash c) Hok) as (b & -> & Hb). destruct (nbs_Get_ok _ _ (ChunkHash c) Hok) as (c' & -> & Hc'). split.
  - intros (h & d & -> & Hh & HU). cbn in Hb, Hc'. destruct Hc' as [(d' & _ & HU' & ->)|[? _]]; [|tauto].
    rewrite HU in HU'. injection HU' as <-. split; [f_equal; by apply Hb|done].
  - intros [[= ->] [= ->]]. destruct Hc' as [(d & Hh & HU & Heq)|[Hno _]]; [|by destruct Hno; apply Hb]. by exists (ChunkHash c), d.
Qed.

(** C40: [UpdateRoot] can report success without writing.  When another process
    has already moved the root to [current], the compare-and-set fails, but the
    root it hands back equals [current] and the store takes that for success:
    it returns true, and the manifest does not name the tables of this store. *)
Theorem update_true_unwritten (n : Z) (es : list event) (w w' : world) (current : Hash) (v : list byte) (specs : list tableSpec) (b : bool) :
  universe_ok U -> 0 <= n <= memTable_limit -> steps U (fresh n) es w ->
  ParseIfExists (w_dir w) = Ok (Some (v, current, specs)) -> current <> nbs_Root (w_nbs w) ->
  UpdateRoot w current (nbs_Root (w_nbs w)) w' b ->
  b = true /\ ParseIfExists (w_dir w') = Ok (Some (v, current, specs)).
Proof.
  intros UOK Hn Hs HP Hne HU. destruct (reachable_refines UOK n es w Hn Hs) as (a & _ & R). pose proof (rf_root _ _ _ R) as Hroot.
  assert (exists fm' specs' actual tn, dir_state (w_dir w) (Some (current, specs)) /\ v = NomsVersion /\ Forall spec_ok specs' /\ w_dir w' = fm' /\
    Update (w_dir w) specs' (nbs_root (w_nbs w)) current = Ok (fm', actual, tn) /\ (b = true <-> current = actual))
    as (fm' & specs' & actual & tn & Hd & -> & Hok & <- & HUp & Hb).
  { pose proof (rf_disk _ _ _ R) as Hdisk. assert (dir_state (w_dir w) (Some (current, specs)) /\ v = NomsVersion) as [Hd ->].
    { destruct (a_disk a) as [[r ks]|]; [|by rewrite (ParseIfExists_ok _ None Hdisk) in HP]. destruct Hdisk as (l & Hd & _).
      rewrite (ParseIfExists_ok _ _ Hd) in HP. by injection HP as <- <- <-. }
    destruct HU as [hp nbs s' l fm actual tn _ Hfl HT HUp Heq|hp nbs s' l fm actual tn tables _ Hfl HT HUp Hneq _];
      pose proof (update_prepared _ _ _ _ _ _ R Hfl HT) as P; pose proof (pr_range _ _ _ _ _ P) as Hrange; rewrite (pr_root _ _ _ _ _ P), <- Hroot in HUp;
      exists fm, l, actual, tn; split_and!; try done; by split. }
  destruct (Update_ok _ _ specs' (nbs_root (w_nbs w)) current Hd Hok) as (fm & Hdir & HUp'). rewrite HUp in HUp'.
  rewrite bool_decide_eq_false_2 in Hdir, HUp' by (unfold nbs_Root in Hne; congruence). injection HUp' as <- -> ->.
  split; [by apply Hb|]. by rewrite (ParseIfExists_ok _ _ Hdir).
Qed.

(** C38: [ToSpecs] races with compaction.  Suppose all chunks of the memory table
    are already in older tables, which is what putting known chunks again leads
    to.  [ToSpecs] may read the positive count of the table being compacted and
    then wait for its hash, which is that of an empty source: the manifest names
    a table with hash zero and no chunks.  [UpdateRoot] returns true, and the
    store cannot be opened again. *)
Theorem update_race_unopenable (n : Z) (es : list event) (w : world) (mt : memTable) (current : Hash) (v : list byte) (specs : list tableSpec) :
  universe_ok U -> 0 <= n <= memTable_limit -> steps U (fresh n) es w ->
  nbs_mt (w_nbs w) = Some mt -> 0 < mt_count mt ->
  (forall h, mt_has mt h = true -> css_has (s_heap (w_sys w)) (nbs_tables (w_nbs w)) h = Ok true) ->
  Forall (fun src => is_Some (wait (s_heap (w_sys w)) src)) (nbs_tables (w_nbs w)) ->
  ParseIfExists (w_dir w) = Ok (Some (v, nbs_Root (w_nbs w), specs)) ->
  exists w', UpdateRoot w current (nbs_Root (w_nbs w)) w' true /\
    newNomsBlockStore (s_files (w_sys w')) (w_dir w') 0 = Panic AssertFailed.
Proof.
  intros UOK Hn Hs Hmt Hcnt Hall Hd HP. destruct (reachable_refines UOK n es w Hn Hs) as (a & _ & R). pose proof (rf_store _ _ _ R) as Hok.
  destruct (no_mt _ _ _ Hok mt Hmt) as [Hm _]. pose proof (no_tables _ _ _ Hok) as Hts. pose proof (no_sys _ _ _ Hok) as Hsys.
  assert (flush_mt (s_heap (w_sys w)) (w_nbs w) = (s_heap (w_sys w) ++ [InMemory mt (nbs_tables (w_nbs w))],
    MkNbs (nbs_nomsVersion (w_nbs w)) None (nbs_mtSize (w_nbs w)) (Compacting (length (s_heap (w_sys w))) :: nbs_tables (w_nbs w))
      (nbs_root (w_nbs w)) (nbs_putCount (w_nbs w)))) as Hfl.
  { unfold flush_mt. by rewrite Hmt, (proj2 (Z.ltb_lt _ _) Hcnt). }
  destruct (ToSpecs_race (w_sys w) (nbs_tables (w_nbs w)) mt Hsys Hts Hm) as (l & HT & Hl).
  { intros Ho. rewrite mt_count_exact, Zlength_mt_list, Ho in Hcnt by done. done. }
  { done. }
  { intros h Hh. destruct (css_has_ok _ _ h Hsys (to_valid _ _ _ Hts)) as (b & Hb & Hk). apply Hk. rewrite Hall in Hb; [by injection Hb as <-|].
    rewrite mt_has_elem by apply Hm. by apply bool_decide_eq_true. }
  assert (dir_state (w_dir w) (Some (nbs_Root (w_nbs w), specs))) as Hdir.
  { pose proof (rf_disk _ _ _ R) as Hdisk. destruct (a_disk a) as [[r ks]|]; [|by rewrite (ParseIfExists_ok _ None Hdisk) in HP].
    destruct Hdisk as (l' & Hdir & _). rewrite (ParseIfExists_ok _ _ Hdir) in HP. by injection HP as _ <- <-. }
  destruct (Update_ok _ _ (MkSpec emptyHash 0 :: l) (nbs_Root (w_nbs w)) current Hdir) as (fm & Hdir' & HUp); [by constructor|].
  rewrite bool_decide_eq_true_2 in Hdir', HUp by done. eexists. split; [eapply update_done; [done|exact Hfl|exact HT|exact HUp|done]|].
  pose proof (no_file _ UOK (so_files _ _ Hsys)) as He. cbn [w_sys w_dir s_files]. unfold newNomsBlockStore. rewrite (ParseIfExists_ok _ _ Hdir'). cbn [obind fmap option_fmap option_map fst snd union_open].
  unfold Open, newMmapTableReader. cbn [ts_name]. by rewrite He.
Qed.

(** An oversized chunk brings the process down.  A chunk larger than a memory
    table is not accepted: [PutMany] on a store whose memory table is empty
    returns it to the caller.  But on the way the empty memory table has been
    handed to a background compaction, which divides by its number of chunks and
    panics. *)
Theorem putMany_oversized_crash (fs : files) (hp : heap) (nbs : NomsBlockStore) (c : Chunk) :
  (forall mt, nbs_mt nbs = Some mt -> mt = newMemTable (nbs_mtSize nbs)) -> 0 <= nbs_mtSize nbs ->
  nbs_mtSize nbs < Zlength (contents (Data c)) < 2 ^ 64 ->
  exists hp' nbs', nbs_PutMany hp nbs [c] = Ok (hp', nbs', [ChunkHash c]) /\
    compact (MkSys fs hp') (length hp) = Panic ExplicitPanic.
Proof.
  intros Hmt H0' Hlen. cbn [nbs_PutMany]. unfold nbs_addChunk.
  assert (match nbs_mt nbs with None => newMemTable (nbs_mtSize nbs) | Some mt => mt end = newMemTable (nbs_mtSize nbs)) as ->.
  { destruct (nbs_mt nbs) as [mt|]; [by apply Hmt|done]. }
  assert (mt_addChunk (newMemTable (nbs_mtSize nbs)) (ChunkHash c) (contents (Data c)) = Ok (newMemTable (nbs_mtSize nbs), false)) as Hadd.
  { unfold mt_addChunk. rewrite (proj2 (Z.eqb_neq _ 0)) by lia. cbn [newMemTable mt_chunks mt_maxData mt_totalData]. rewrite lookup_empty.
    rewrite u64_small by lia. by rewrite (proj2 (Z.ltb_lt _ _)) by lia. }
  rewrite Hadd. cbn [obind negb Prepend]. cbn [fmap list_fmap]. eexists _, _. split; [done|].
  unfold compact. cbn [s_heap s_files]. rewrite list_lookup_middle by done. unfold Compact.
  by rewrite (mt_write_empty (newMemTable (nbs_mtSize nbs))).
Qed.

(** [CalcReads] never notices a missing chunk.  The loop over the tables
    declares a second [remaining], so the result is always false and the check of
    [CalcReads] cannot fail; a store without tables needs no reads for any
    request. *)
Theorem calcReads_never_remaining (hp : heap) (nbs : NomsBlockStore) (hashes : list Hash) (blockSize maxReadSize ampThresh : Z) :
  (forall css reqs reads split reqs' reads' split' remaining,
     css_calcReads hp css reqs blockSize maxReadSize ampThresh reads split = Some (Ok (reqs', reads', split', remaining)) -> remaining = false) /\
  nbs_CalcReads hp (MkNbs (nbs_nomsVersion nbs) (nbs_mt nbs) (nbs_mtSize nbs) [] (nbs_root nbs) (nbs_putCount nbs))
    hashes blockSize maxReadSize ampThresh = Some (Ok (0, false)).
Proof.
  split; [|done]. induction css as [|src css IH]; intros reqs reads split reqs' reads' split' remaining; cbn [css_calcReads].
  - by intros [= _ _ _ <-].
  - destruct (wait hp src) as [p|]; [|done]. destruct (p_calcReads p _ _ _ _) as [[[rs rds] rem]|]; [|done].
    destruct rem; cbn [negb]; [apply IH|]. by intros [= _ _ _ <-].
Qed.

End theorems.

(** ** Witnesses *)

#[local] Existing Instance go_snappy.
#[local] Existing Instance go_snappy_laws.
#[local] Existing Instance go_snappy_slack.
#[local] Existing Instance go_insertion_sort.

Module Sample.

Definition get_ok {A} (d : A) (x : outcome A) : A := match x with Ok a => a | Panic _ => d end.
Lemma get_ok_eq {A} (d : A) x : is_ok x = true -> x = Ok (get_ok d x).
Proof. by destruct x. Qed.

Definition hello : Chunk := NewChunk (bs "hello").
Definition noms : Chunk := NewChunk (bs "noms").
Definition entry (c : Chunk) : addr * list byte := (ChunkHash c, contents (Data c)).
Definition U : gmap addr (list byte) := list_to_map [entry hello; entry noms].

Lemma U_lookup h d : U !! h = Some d -> (h, d) = entry hello \/ (h, d) = entry noms.
Proof. intros Hl. apply elem_of_list_to_map_2 in Hl. by apply elem_of_cons in Hl as [?|?%list_elem_of_singleton]; [left|right]. Qed.

(** The tables of such chunks, up to the order of insertion. *)
Definition lists_of_U : list (list (addr * list byte)) := [[]; [entry hello]; [entry noms]; [entry hello; entry noms]].
Lemma names_of_U : NoDup (emptyHash :: (table_name <$> lists_of_U)).
Proof. apply (bool_decide_unpack _). by vm_compute. Qed.
Lemma name_swap : table_name [entry noms; entry hello] = table_name [entry hello; entry noms].
Proof. by vm_compute. Qed.

Lemma two_entries {A B} (x y : A * B) cs : NoDup (cs.*1) -> (forall c, c ∈ cs -> c = x \/ c = y) ->
  cs = [] \/ cs = [x] \/ cs = [y] \/ cs = [x; y] \/ cs = [y; x].
Proof.
  intros HN Hc. destruct cs as [|c1 [|c2 [|c3 l]]]; [tauto|..].
  - destruct (Hc c1) as [->| ->]; [by left|tauto..].
  - apply NoDup_cons in HN as [HN _]. cbn in HN. rewrite list_elem_of_singleton in HN.
    destruct (Hc c1) as [->| ->], (Hc c2) as [->| ->]; try (by left); try (by right; left); try (by destruct HN); tauto.
  - exfalso. apply NoDup_cons in HN as [HN1 HN]. apply NoDup_cons in HN as [HN2 _]. 
    apply not_elem_of_cons in HN1 as [N12 [N13 _]%not_elem_of_cons]. apply not_elem_of_cons in HN2 as [N23 _].
    assert (c1 ∈ c1 :: c2 :: c3 :: l /\ c2 ∈ c1 :: c2 :: c3 :: l /\ c3 ∈ c1 :: c2 :: c3 :: l) as (Hc1 & Hc2 & Hc3) by (rewrite !elem_of_cons; tauto).
    destruct (Hc c1 Hc1) as [->| ->], (Hc c2 Hc2) as [->| ->], (Hc c3 Hc3) as [->| ->]; congruence.
Qed.

Lemma good_U cs : good_list U cs -> exists l, l ∈ lists_of_U /\ cs ≡ₚ l /\ table_name cs = table_name l.
Proof.
  intros [HU HN]. assert (forall i, lists_of_U !! i = Some cs -> exists l, l ∈ lists_of_U /\ cs ≡ₚ l /\ table_name cs = table_name l) as Hsame.
  { intros i Hi. exists cs. split; [by eapply list_elem_of_lookup_2|]. split; reflexivity. }
  destruct (two_entries (entry hello) (entry noms) cs HN) as [->|[->|[->|[->| ->]]]].
  - intros [h d] Hin. by apply U_lookup, HU.
  - by apply (Hsame 0%nat).
  - by apply (Hsame 1%nat).
  - by apply (Hsame 2%nat).
  - by apply (Hsame 3%nat).
  - exists [entry hello; entry noms]. split; [by apply (list_elem_of_lookup_2 _ 3)|]. split; [apply Permutation_swap|apply name_swap].
Qed.

Lemma NoDup_fmap_inj {A B} (f : A -> B) l x y : NoDup (f <$> l) -> x ∈ l -> y ∈ l -> f x = f y -> x = y.
Proof.
  intros HN Hx Hy Hf. apply list_elem_of_lookup in Hx as [i Hi], Hy as [j Hj].
  assert (i = j) as ->; [|congruence]. apply (NoDup_lookup _ i j (f x) HN); rewrite list_lookup_fmap; [by rewrite Hi|by rewrite Hj, Hf].
Qed.

Lemma U_ok : universe_ok U.
Proof.
  split.
  - intros cs cs' (l & Hl & Hp & Hn)%good_U (l' & Hl' & Hp' & Hn')%good_U Heq.
    rewrite Hp, Hp'. rewrite (NoDup_fmap_inj table_name lists_of_U l l'); [reflexivity| |done|done|congruence].
    by destruct (proj1 (NoDup_cons _ _) names_of_U).
  - intros cs (l & Hl & _ & ->)%good_U Hz. apply (proj1 (proj1 (NoDup_cons _ _) names_of_U)).
    rewrite <- Hz. apply list_elem_of_fmap. by exists l.
  - intros h d [[= _ ->]|[= _ ->]]%U_lookup; by vm_compute.
Qed.

(** A memory table of 64 bytes; [hello] is put, committed and put again. *)
Definition put_world (w : world) (c : Chunk) : world :=
  match nbs_Put (s_heap (w_sys w)) (w_nbs w) c with
  | Ok (hp, nbs) => MkWorld (MkSys (s_files (w_sys w)) hp) (w_dir w) nbs
  | Panic _ => w
  end.
Lemma put_world_step w c : U !! ChunkHash c = Some (contents (Data c)) -> is_ok (nbs_Put (s_heap (w_sys w)) (w_nbs w) c) = true ->
  step U w (EPut c) (put_world w c).
Proof. intros HU Hok. unfold put_world. destruct (nbs_Put _ _ _) as [[hp nbs]|] eqn:E; [|done]. by apply step_put. Qed.

Definition w1 : world := put_world (fresh 64) hello.
Definition r1 : Hash := Of (bs "root").
Definition flushed : heap * NomsBlockStore := flush_mt (s_heap (w_sys w1)) (w_nbs w1).
Definition s0 : sys := MkSys ∅ (fst flushed).
Definition s1 : sys := get_ok s0 (compact s0 0).
Definition name1 : addr := default emptyHash (src_hash (s_heap s1) (Compacting 0)).
Definition fm1 : dir := fst (fst (get_ok (MkDir false None, emptyHash, []) (Update (MkDir false None) [MkSpec name1 1] emptyHash r1))).
Definition w2 : world := MkWorld s1 fm1 (MkNbs NomsVersion None 64 [Compacting 0] r1 1).
Definition w3 : world := put_world w2 hello.
Definition es3 : list event := [EPut hello; EUpdate r1 emptyHash true false; EPut hello].

Lemma compact0 : compact s0 0 = Ok s1.
Proof. apply get_ok_eq. by vm_compute. Qed.
Lemma update0 : Update (MkDir false None) [MkSpec name1 1] emptyHash r1 = Ok (fm1, r1, [MkSpec name1 1]) /\
  dir_state fm1 (Some (r1, [MkSpec name1 1])).
Proof.
  pose proof (Update_ok (MkDir false None) None [MkSpec name1 1] emptyHash r1 eq_refl) as HU.
  rewrite bool_decide_eq_true_2 in HU by done. destruct HU as (fm & HU & Hd); [by repeat constructor|].
  unfold fm1. rewrite HU. cbn [get_ok fst]. split; [reflexivity|exact Hd].
Qed.
Lemma specs0 : ToSpecs s0 [Compacting 0] s1 [MkSpec name1 1].
Proof.
  eapply specs_compact.
  - exists 0%nat. eexists _, _. split; [vm_compute; reflexivity|apply compact0].
  - eapply specs_take; [vm_compute; reflexivity|done|reflexivity|vm_compute; reflexivity|reflexivity|vm_compute; reflexivity|constructor].
Qed.
Lemma update_w2 : UpdateRoot w1 r1 emptyHash w2 true.
Proof.
  destruct update0 as [HU _]. eapply (update_done w1 r1 emptyHash (fst flushed) (snd flushed) s1 [MkSpec name1 1] fm1 r1).
  - by vm_compute.
  - by apply surjective_pairing.
  - exact specs0.
  - exact HU.
  - done.
Qed.

Lemma readable2 : unreadable (w_dir w2) = false.
Proof. change (w_dir w2) with fm1. rewrite (unreadable_dir _ _ _ (proj2 update0)). apply bool_decide_eq_false. intros Hin%list_elem_of_singleton. apply (f_equal ts_chunkCount) in Hin. discriminate Hin. Qed.

Lemma run3 : steps U (fresh 64) es3 w3.
Proof.
  eapply steps_cons; [apply put_world_step; by vm_compute|]. eapply steps_cons; [rewrite <- readable2; apply step_update; exact update_w2|].
  eapply steps_cons; [apply put_world_step; by vm_compute|constructor].
Qed.
Lemma hello_fits a : a_limit a = 64 -> fits a hello = true.
Proof. unfold fits. intros ->. reflexivity. Qed.
(** In this run the store has [hello] and nothing else; the manifest is in step. *)
Definition hello_twice : gset addr := {[ChunkHash hello]} ∪ ({[ChunkHash hello]} ∪ ∅).
Lemma abstract3 : exists a, asteps (afresh 64) es3 = Some a /\ a_keys a = hello_twice /\ in_step a = true /\ readable a = true /\ a_refused a = false.
Proof.
  set (a1 := put (afresh 64) hello). assert (astep (afresh 64) (EPut hello) = Some a1) as H1 by (cbn [astep]; by rewrite hello_fits).
  assert (bool_decide (a_root a1 = emptyHash) = true) as Hr by (by apply bool_decide_eq_true_2). assert (in_step a1 = true) as Hi by exact Hr.
  assert (astep a1 (EUpdate r1 emptyHash true false) = Some (MkA r1 (a_keys a1) (Some (r1, Some (a_keys a1))) 64 (a_again a1) false)) as H2.
  { cbn [astep]. rewrite Hr, Hi. reflexivity. }
  unfold es3. cbn [asteps]. rewrite H1, H2. cbn [astep]. rewrite hello_fits by reflexivity. eexists. split; [reflexivity|].
  split; [reflexivity|]. split; [unfold in_step; cbn [a_disk a_root put]; by apply bool_decide_eq_true_2|]. split; reflexivity.
Qed.
Lemma has3 h : nbs_Has (s_heap (w_sys w3)) (w_nbs w3) h = Ok (bool_decide (h = ChunkHash hello)).
Proof.
  destruct (reachable_refines U_ok 64 es3 w3) as (a & Ha & R); [by vm_compute|exact run3|]. rewrite (refines_has _ _ _ R). f_equal.
  destruct abstract3 as (a3 & Hab & Hkeys & _). rewrite Hab in Ha. injection Ha as <-. rewrite Hkeys.
  apply bool_decide_ext. unfold hello_twice. rewrite !elem_of_union, !elem_of_singleton, elem_of_empty.
  split; [intros [Hh|[Hh|[]]]; exact Hh|intros Hh; left; exact Hh].
Qed.

End Sample.
Import Sample.

Lemma store_refines_witness : exists a, asteps (afresh 64) es3 = Some a /\ nbs_Root (w_nbs w3) = a_root a /\
  forall h, nbs_Has (s_heap (w_sys w3)) (w_nbs w3) h = Ok (bool_decide (h ∈ a_keys a)) /\
    nbs_Get (s_heap (w_sys w3)) (w_nbs w3) h =
      Ok (if bool_decide (h ∈ a_keys a) then NewChunkWithHash h (default [] (U !! h)) else EmptyChunk) /\
    (h ∈ a_keys a -> is_Some (U !! h)).
Proof. apply (store_refines U 64 es3 w3); [exact U_ok|by vm_compute|exact run3]. Defined.

Lemma store_progress_witness : (exists w', UpdateRoot w3 emptyHash (nbs_Root (w_nbs w3)) w' true /\ unreadable (w_dir w') = false) /\
  is_ok (newNomsBlockStore (s_files (w_sys w3)) (w_dir w3) 0) = true /\ is_ok (compact (w_sys w3) 0) = true.
Proof.
  destruct (store_progress U 64 es3 w3) as (a & Ha & _ & Hc & Hup & Hopen); [exact U_ok|by vm_compute|exact run3|].
  destruct abstract3 as (a3 & Hab & _ & Hin & Hread & Href). rewrite Hab in Ha. injection Ha as <-. specialize (Hup emptyHash). rewrite Hin in Hup.
  split; [exact Hup|]. split; [rewrite (Hopen 0); [exact Hread|split; [reflexivity|discriminate]]|].
  specialize (Hc 0%nat). destruct (is_ok (compact (w_sys w3) 0)); [reflexivity|]. specialize (Hc eq_refl). rewrite Href in Hc. discriminate Hc.
Defined.

Lemma store_getMany_get_witness : exists reqs reads,
  GetMany_plan (s_heap (w_sys w3)) (w_nbs w3) [ChunkHash noms; ChunkHash hello] = Ok (reqs, reads) /\
  forall reads', reads' ≡ₚ reads -> exists cs, GetMany_finish [ChunkHash noms; ChunkHash hello] reqs reads' = Ok cs /\
    Forall2 (fun h c => nbs_Get (s_heap (w_sys w3)) (w_nbs w3) h = Ok c) [ChunkHash noms; ChunkHash hello] cs.
Proof.
  apply (store_getMany_get U 64 es3 w3); [exact U_ok|by vm_compute|exact run3|by vm_compute|].
  intros a h Ha. rewrite has3. intros [= ->%bool_decide_eq_true] Hp.
  apply elem_of_cons in Ha as [->|Ha%list_elem_of_singleton]; [|exact Ha]. vm_compute in Hp. discriminate Hp.
Defined.

Lemma store_extract_exact_witness : exists cs, extractChunks (s_heap (w_sys w3)) (w_nbs w3) InsertOrder = Some (Ok cs) /\
  forall c, c ∈ cs <-> nbs_Has (s_heap (w_sys w3)) (w_nbs w3) (ChunkHash c) = Ok true /\
                       nbs_Get (s_heap (w_sys w3)) (w_nbs w3) (ChunkHash c) = Ok c.
Proof.
  apply (store_extract_exact U 64 es3 w3); [exact U_ok|by vm_compute|exact run3|].
  apply Forall_singleton. apply (bool_decide_unpack _). by vm_compute.
Defined.

(** Another process has moved the root of the manifest. *)
Definition fm_moved : dir := MkDir true (Some (GoStrings.Join colon [StorageVersion; NomsVersion; String r1])).
Lemma fm_moved_state : dir_state fm_moved (Some (r1, [])).
Proof. split; [done|]. split; [done|]. eexists. split; [reflexivity|]. apply writeManifest_ok. Qed.
Definition w_moved : world := MkWorld (MkSys ∅ (s_heap (w_sys w1))) fm_moved (w_nbs w1).
Lemma run_moved : steps U (fresh 64) [EPut hello; EOthers r1 (Some ∅)] w_moved.
Proof.
  eapply steps_cons; [apply put_world_step; by vm_compute|]. eapply steps_cons; [|constructor].
  apply (step_others U w1 ∅ fm_moved r1 []); [by intros ???|by intros ?|exact fm_moved_state|split; [constructor|]].
  intros h. split; [by intros ?%elem_of_empty|by intros []%spec_key_nil].
Qed.
Lemma update_true_unwritten_witness : exists w', UpdateRoot w_moved r1 (nbs_Root (w_nbs w_moved)) w' true /\
  ParseIfExists (w_dir w') = Ok (Some (NomsVersion, r1, [])).
Proof.
  destruct (reachable_refines U_ok 64 _ w_moved ltac:(by vm_compute) run_moved) as (a & Ha & R).
  assert (exists w' b, UpdateRoot w_moved r1 (nbs_Root (w_nbs w_moved)) w' b) as (w' & b & HU).
  { assert (readable a = true) as Hread.
    { cbn [asteps] in Ha. destruct (astep (afresh 64) (EPut hello)) as [a1|]; [|discriminate Ha]. injection Ha as <-. reflexivity. }
    pose proof (update_live U_ok w_moved a r1 R) as HL. destruct (in_step a); [destruct HL as (w' & HU & _); eauto|exact (HL Hread)]. }
  exists w'. destruct (update_true_unwritten U 64 [EPut hello; EOthers r1 (Some ∅)] w_moved w' r1 NomsVersion [] b) as [-> HP];
    [exact U_ok|by vm_compute|exact run_moved|exact (ParseIfExists_ok _ _ fm_moved_state)|by vm_compute|exact HU|].
  split; [exact HU|exact HP].
Defined.

Lemma mem3 : exists mt, nbs_mt (w_nbs w3) = Some mt /\ 0 < mt_count mt.
Proof.
  assert (match nbs_mt (w_nbs w3) with Some mt => 0 <? mt_count mt | None => false end = true) as Hmt by (by vm_compute).
  destruct (nbs_mt (w_nbs w3)) as [mt|]; [|done]. exists mt. split; [done|]. by apply Z.ltb_lt.
Qed.
Lemma update_race_unopenable_witness : exists w', UpdateRoot w3 r1 (nbs_Root (w_nbs w3)) w' true /\
  newNomsBlockStore (s_files (w_sys w')) (w_dir w') 0 = Panic AssertFailed.
Proof.
  destruct mem3 as (mt & Hmt & Hc). apply (update_race_unopenable U 64 es3 w3 mt r1 NomsVersion [MkSpec name1 1]).
  - exact U_ok.
  - by vm_compute.
  - exact run3.
  - exact Hmt.
  - exact Hc.
  - intros h Hh. pose proof (has3 h) as Hhas. unfold nbs_Has in Hhas. rewrite Hmt, Hh in Hhas.
    injection Hhas as Hhas. symmetry in Hhas. apply bool_decide_eq_true in Hhas as ->. by vm_compute.
  - apply Forall_singleton. apply (bool_decide_unpack _). by vm_compute.
  - change (w_dir w3) with (w_dir (put_world w2 hello)). transitivity (ParseIfExists fm1); [by vm_compute|].
    transitivity (Ok (Some (NomsVersion, r1, [MkSpec name1 1]))); [exact (ParseIfExists_ok _ _ (proj2 update0))|by vm_compute].
Defined.

Lemma putMany_oversized_crash_witness : exists hp' nbs',
  nbs_PutMany [] (w_nbs (fresh 4)) [hello] = Ok (hp', nbs', [ChunkHash hello]) /\ compact (MkSys ∅ hp') 0 = Panic ExplicitPanic.
Proof. apply (putMany_oversized_crash ∅ [] (w_nbs (fresh 4)) hello); [done|by vm_compute|by vm_compute]. Defined.
