(* ===== verification/EditDistance.v ===== *)
(** * Package [types]: list diffs (src/go/types/edit_distance.go)

    [calcSplices] computes how one list has to be spliced to get another.  It
    only sees a comparison of positions.  The facts say that the splices do give
    the other list, and that no edit script removes and adds fewer elements. *)

From S2P Require Import Prelude.

Module EditDistance.

Definition DEFAULT_MAX_SPLICE_MATRIX_SIZE : Z := 20000000.
Definition SPLICE_UNASSIGNED : Z := 2 ^ 64 - 1.

Inductive op : Type := UNCHANGED | UPDATED | INSERTED | REMOVED.

Record Splice : Type := MkSplice { SpAt : Z; SpRemoved : Z; SpAdded : Z; SpFrom : Z }.

Definition uint64Min (a b : Z) : Z := if a <? b then a else b.
Definition uint64Min3 (a b c : Z) : Z :=
  if a <? b then if a <? c then a else c else if b <? c then b else c.

Definition addSplice (splices : list Splice) (s : Splice) : list Splice :=
  splices ++ [if SpFrom s =? SPLICE_UNASSIGNED then MkSplice (SpAt s) (SpRemoved s) (SpAdded s) 0 else s].

(** The trace back from the last cell of the matrix; the edits come out last
    one first. *)
Fixpoint operations_loop (fuel : nat) (distances : list (list Z)) (i j current : Z) (edits : list op) : outcome (list op) :=
  match fuel with
  | O => Panic OutOfFuel
  | S fuel' =>
      if (0 <? i) || (0 <? j) then
        if i =? 0 then operations_loop fuel' distances i (j - 1) current (edits ++ [INSERTED])
        else if j =? 0 then operations_loop fuel' distances (i - 1) j current (edits ++ [REMOVED])
        else
          let! above := index distances (i - 1) in
          let! row := index distances i in
          let! northWest := index above (j - 1) in
          let! west := index above j in
          let! north := index row (j - 1) in
          let minValue := uint64Min3 west north northWest in
          if minValue =? northWest then
            if northWest =? current
            then operations_loop fuel' distances (i - 1) (j - 1) current (edits ++ [UNCHANGED])
            else operations_loop fuel' distances (i - 1) (j - 1) northWest (edits ++ [UPDATED])
          else if minValue =? west then operations_loop fuel' distances (i - 1) j west (edits ++ [REMOVED])
          else operations_loop fuel' distances i (j - 1) north (edits ++ [INSERTED])
      else Ok edits
  end.
Definition operationsFromEditDistances (distances : list (list Z)) : outcome (list op) :=
  let i := Zlength distances - 1 in
  let! first := index distances 0 in
  let j := Zlength first - 1 in
  let! row := index distances i in
  let! current := index row j in
  let! edits := operations_loop (S (Z.to_nat (i + j))) distances i j current [] in
  Ok (reverse edits).

(** The loop that gathers operations into splices: [index] counts in the
    previous list and [previousIndex] in the current one. *)
Fixpoint splice_loop (ops : list op) (splices : list Splice) (splice : option Splice) (index previousIndex : Z) : list Splice :=
  match ops with
  | [] => match splice with Some s => addSplice splices s | None => splices end
  | o :: ops' =>
      let s := default (MkSplice index 0 0 SPLICE_UNASSIGNED) splice in
      let from := if SpFrom s =? SPLICE_UNASSIGNED then previousIndex else SpFrom s in
      match o with
      | UNCHANGED =>
          let splices := match splice with Some s => addSplice splices s | None => splices end in
          splice_loop ops' splices None (index + 1) (previousIndex + 1)
      | UPDATED =>
          splice_loop ops' splices (Some (MkSplice (SpAt s) (SpRemoved s + 1) (SpAdded s + 1) from)) (index + 1) (previousIndex + 1)
      | INSERTED =>
          splice_loop ops' splices (Some (MkSplice (SpAt s) (SpRemoved s) (SpAdded s + 1) from)) index (previousIndex + 1)
      | REMOVED =>
          splice_loop ops' splices (Some (MkSplice (SpAt s) (SpRemoved s + 1) (SpAdded s) (SpFrom s))) (index + 1) previousIndex
      end
  end.

Section eqFn.
Context (eqFn : Z -> Z -> bool).

Fixpoint sharedPrefix_loop (n : nat) (i : Z) : Z :=
  match n with
  | O => i
  | S n' => if negb (eqFn i i) then i else sharedPrefix_loop n' (i + 1)
  end.
Definition sharedPrefix (searchLength : Z) : Z := sharedPrefix_loop (Z.to_nat searchLength) 0.

(** Both lengths are decremented below zero when the lists are empty. *)
Fixpoint sharedSuffix_loop (n : nat) (count previousLength currentLength : Z) : Z :=
  match n with
  | O => count
  | S n' =>
      if eqFn previousLength currentLength
      then sharedSuffix_loop n' (count + 1) (u64 (previousLength - 1)) (u64 (currentLength - 1))
      else count
  end.
Definition sharedSuffix (previousLength currentLength searchLength : Z) : Z :=
  sharedSuffix_loop (Z.to_nat searchLength) 0 (u64 (previousLength - 1)) (u64 (currentLength - 1)).

(** Cells [j], [j+1], ... of a row from the cells of the row above. *)
Fixpoint row_from (eq : Z -> bool) (j west northWest : Z) (above : list Z) : list Z :=
  match above with
  | [] => []
  | north :: above' =>
      let d := if eq j then northWest else uint64Min (north + 1) (west + 1) in
      d :: row_from eq (j + 1) d north above'
  end.
Fixpoint rows_from (n : nat) (i previousStart currentStart : Z) (above : list Z) : list (list Z) :=
  match n with
  | O => []
  | S n' =>
      let row :=
        match above with
        | [] => []
        | a :: above' => i :: row_from (fun j => eqFn (previousStart + i - 1) (currentStart + j - 1)) 1 i a above'
        end in
      row :: rows_from n' (i + 1) previousStart currentStart row
  end.
Definition calcEditDistances (previousStart previousLen currentStart currentLen : Z) : list (list Z) :=
  let null_row := seqZ 0 (currentLen + 1) in
  null_row :: rows_from (Z.to_nat previousLen) 1 previousStart currentStart null_row.

Definition calcSplices (previousLength currentLength maxSpliceMatrixSize : Z) : outcome (list Splice) :=
  let minLength := uint64Min previousLength currentLength in
  let prefixCount := sharedPrefix minLength in
  let suffixCount := sharedSuffix previousLength currentLength (minLength - prefixCount) in
  let previousStart := prefixCount in
  let currentStart := prefixCount in
  let previousEnd := previousLength - suffixCount in
  let currentEnd := currentLength - suffixCount in
  if (currentEnd - currentStart =? 0) && (previousEnd - previousStart =? 0) then Ok []
  else if currentStart =? currentEnd then Ok [MkSplice previousStart (previousEnd - previousStart) 0 0]
  else if previousStart =? previousEnd then Ok [MkSplice previousStart 0 (currentEnd - currentStart) currentStart]
  else
    let previousLength := previousEnd - previousStart in
    let currentLength := currentEnd - currentStart in
    if maxSpliceMatrixSize <? u64 (previousLength * currentLength)
    then Ok [MkSplice 0 previousLength currentLength 0]
    else
      let distances := calcEditDistances previousStart previousLength currentStart currentLength in
      let! ops := operationsFromEditDistances distances in
      Ok (splice_loop ops [] None currentStart previousStart).

End eqFn.

End EditDistance.
Import EditDistance.

(** ** What splices mean *)

(** A splice at [SpAt] in the previous list removes [SpRemoved] elements and
    inserts the [SpAdded] elements of the current list from [SpFrom] on; the
    elements from [pos] to [SpAt] stay. *)
Fixpoint apply_splices {A} (prev cur : list A) (pos : Z) (splices : list Splice) : list A :=
  match splices with
  | [] => drop (Z.to_nat pos) prev
  | s :: splices' =>
      take (Z.to_nat (SpAt s - pos)) (drop (Z.to_nat pos) prev) ++
      take (Z.to_nat (SpAdded s)) (drop (Z.to_nat (SpFrom s)) cur) ++
      apply_splices prev cur (SpAt s + SpRemoved s) splices'
  end.

(** The number of elements removed and added. *)
Definition splice_cost (splices : list Splice) : Z := foldr (fun s n => SpRemoved s + SpAdded s + n) 0 splices.

(** [edits p c n]: [n] removals and insertions turn [p] into [c]. *)
Inductive edits {A} : list A -> list A -> nat -> Prop :=
| ed_nil : edits [] [] 0
| ed_keep x p c n : edits p c n -> edits (p ++ [x]) (c ++ [x]) n
| ed_del x p c n : edits p c n -> edits (p ++ [x]) c (S n)
| ed_ins x p c n : edits p c n -> edits p (c ++ [x]) (S n).

Module EditDistanceFacts.

Ltac zlen := rewrite ?Zlength_app in *; unfold Zlength in *; cbn [length] in *; lia.

(** ** The distance matrix *)

Section matrix.
Context (eq : nat -> nat -> bool).

(** The recurrence of the matrix. *)
Fixpoint D (i : nat) : nat -> nat :=
  match i with
  | O => fun j => j
  | S i' => fix Di (j : nat) : nat :=
      match j with
      | O => S i'
      | S j' => if eq i' j' then D i' j' else S (Nat.min (D i' (S j')) (Di j'))
      end
  end.
Lemma D_0_r i : D i 0 = i.
Proof. by destruct i. Qed.
Lemma D_S_S i j : D (S i) (S j) = if eq i j then D i j else S (Nat.min (D i (S j)) (D (S i) j)).
Proof. done. Qed.

(** Neighbouring cells differ by one. *)
Lemma D_step n : forall i j, (i + j < n)%nat ->
  (D (S i) j = S (D i j) \/ D i j = S (D (S i) j)) /\ (D i (S j) = S (D i j) \/ D i j = S (D i (S j))).
Proof.
  induction n as [|n IH]; [lia|]. intros i j Hn. split.
  - destruct j as [|j]; [rewrite !D_0_r; lia|]. rewrite D_S_S. destruct (eq i j) eqn:E.
    + destruct (IH i j ltac:(lia)) as [_ H]. lia.
    + destruct (IH i j ltac:(lia)) as [H1 H2]. lia.
  - destruct i as [|i]; [by left|]. rewrite D_S_S. destruct (eq i j) eqn:E.
    + destruct (IH i j ltac:(lia)) as [H _]. lia.
    + destruct (IH i j ltac:(lia)) as [H1 H2]. lia.
Qed.
Lemma D_step_i i j : D (S i) j = S (D i j) \/ D i j = S (D (S i) j).
Proof. apply (D_step (S (i + j))). lia. Qed.
Lemma D_step_j i j : D i (S j) = S (D i j) \/ D i j = S (D i (S j)).
Proof. apply (D_step (S (i + j))). lia. Qed.

Definition D_row (i n : nat) : list Z := (fun j => Z.of_nat (D i j)) <$> seq 0 n.

Lemma uint64Min_min a b : uint64Min a b = Z.min a b.
Proof. unfold uint64Min. destruct (a <? b) eqn:E; bool_lia. Qed.

Lemma row_from_ok (f : Z -> bool) i N k n : (forall j, (j < N)%nat -> f (Z.of_nat (S j)) = eq i j) -> (k + n <= N)%nat ->
  row_from f (Z.of_nat (S k)) (Z.of_nat (D (S i) k)) (Z.of_nat (D i k)) ((fun j => Z.of_nat (D i j)) <$> seq (S k) n) =
  (fun j => Z.of_nat (D (S i) j)) <$> seq (S k) n.
Proof.
  intros Hf. revert k. induction n as [|n IH]; intros k Hn; [done|]. cbn [seq fmap list_fmap row_from].
  assert ((if f (Z.of_nat (S k)) then Z.of_nat (D i k) else uint64Min (Z.of_nat (D i (S k)) + 1) (Z.of_nat (D (S i) k) + 1)) =
    Z.of_nat (D (S i) (S k))) as ->.
  { rewrite Hf, D_S_S, uint64Min_min by lia. destruct (eq i k); lia. }
  f_equal. replace (Z.of_nat (S k) + 1) with (Z.of_nat (S (S k))) by lia. apply IH. lia.
Qed.

Lemma rows_from_ok (eqFn : Z -> Z -> bool) ps cs M m n i : (forall i j, (i < M)%nat -> (j < n)%nat -> eqFn (ps + Z.of_nat i) (cs + Z.of_nat j) = eq i j) -> (i + m <= M)%nat ->
  rows_from eqFn m (Z.of_nat (S i)) ps cs (D_row i (S n)) = (fun i => D_row i (S n)) <$> seq (S i) m.
Proof.
  intros Heq. revert i. induction m as [|m IH]; intros i Hm; [done|]. cbn [rows_from seq fmap list_fmap].
  assert (match D_row i (S n) with [] => [] | a :: above' => Z.of_nat (S i) ::
    row_from (fun j => eqFn (ps + Z.of_nat (S i) - 1) (cs + j - 1)) 1 (Z.of_nat (S i)) a above' end = D_row (S i) (S n)) as ->.
  { unfold D_row. cbn [seq fmap list_fmap]. f_equal.
    apply (row_from_ok _ i n 0 n); [|lia]. intros j Hj. rewrite <- Heq by lia. f_equal; lia. }
  f_equal. replace (Z.of_nat (S i) + 1) with (Z.of_nat (S (S i))) by lia. apply IH. lia.
Qed.

(** [calcEditDistances] fills in the recurrence. *)
Lemma calcEditDistances_ok (eqFn : Z -> Z -> bool) ps cs m n : (forall i j, (i < m)%nat -> (j < n)%nat -> eqFn (ps + Z.of_nat i) (cs + Z.of_nat j) = eq i j) ->
  calcEditDistances eqFn ps (Z.of_nat m) cs (Z.of_nat n) = (fun i => D_row i (S n)) <$> seq 0 (S m).
Proof.
  intros Heq. unfold calcEditDistances. rewrite Nat2Z.id. cbn [seq fmap list_fmap].
  assert (seqZ 0 (Z.of_nat n + 1) = D_row 0 (S n)) as ->.
  { unfold seqZ, D_row. replace (Z.to_nat (Z.of_nat n + 1)) with (S n) by lia. apply list_fmap_ext. intros k x _. cbn. lia. }
  f_equal. by apply (rows_from_ok eqFn ps cs m m n 0 Heq).
Qed.

(** ** The trace back *)

(** Operations that go from the corner of the matrix to cell [i], [j]. *)
Inductive trace : nat -> nat -> list op -> Prop :=
| tr_nil : trace 0 0 []
| tr_keep i j o : eq i j = true -> trace i j o -> trace (S i) (S j) (o ++ [UNCHANGED])
| tr_upd i j o : trace i j o -> trace (S i) (S j) (o ++ [UPDATED])
| tr_ins i j o : trace i j o -> trace i (S j) (o ++ [INSERTED])
| tr_rem i j o : trace i j o -> trace (S i) j (o ++ [REMOVED]).
Definition op_cost (o : op) : nat := match o with UNCHANGED => 0 | UPDATED => 2 | INSERTED => 1 | REMOVED => 1 end.
Definition ops_cost (o : list op) : nat := sum_list (op_cost <$> o).

Lemma ops_cost_snoc o x : ops_cost (o ++ [x]) = (ops_cost o + op_cost x)%nat.
Proof. unfold ops_cost. rewrite fmap_app, sum_list_with_app. cbn. lia. Qed.

Lemma index_row m n i j : (i <= m)%nat -> (j <= n)%nat ->
  exists row, index ((fun i => D_row i (S n)) <$> seq 0 (S m)) (Z.of_nat i) = Ok row /\ index row (Z.of_nat j) = Ok (Z.of_nat (D i j)).
Proof.
  intros Hi Hj. exists (D_row i (S n)). split; apply index_lookup; try lia; rewrite Nat2Z.id.
  - by rewrite list_lookup_fmap, lookup_seq_lt by lia.
  - unfold D_row. by rewrite list_lookup_fmap, lookup_seq_lt by lia.
Qed.

(** Along the border [current] is not kept up to date, and not used. *)
Lemma operations_loop_ok m n : forall fuel i j cur edits, (i <= m)%nat -> (j <= n)%nat -> (i + j < fuel)%nat ->
  ((0 < i)%nat -> (0 < j)%nat -> cur = Z.of_nat (D i j)) ->
  exists o, operations_loop fuel ((fun i => D_row i (S n)) <$> seq 0 (S m)) (Z.of_nat i) (Z.of_nat j) cur edits =
    Ok (edits ++ reverse o) /\ trace i j o /\ ops_cost o = D i j.
Proof.
  set (d := (fun i => D_row i (S n)) <$> seq 0 (S m)).
  induction fuel as [|fuel IH]; intros i j cur edits Hi Hj Hf Hcur; [lia|]. cbn [operations_loop].
  assert (forall i' j' x cur', (i' + j' < i + j)%nat -> (i' <= i)%nat -> (j' <= j)%nat ->
    ((0 < i')%nat -> (0 < j')%nat -> cur' = Z.of_nat (D i' j')) ->
    (forall o, trace i' j' o -> trace i j (o ++ [x])) -> (D i j = D i' j' + op_cost x)%nat ->
    exists o, operations_loop fuel d (Z.of_nat i') (Z.of_nat j') cur' (edits ++ [x]) = Ok (edits ++ reverse o) /\
      trace i j o /\ ops_cost o = D i j) as Hgo.
  { intros i' j' x cur' Hlt Hi' Hj' Hcur' Htr Hc. destruct (IH i' j' cur' (edits ++ [x])) as (o & -> & Ho & Hco); [lia..|done|].
    exists (o ++ [x]). rewrite reverse_app, ops_cost_snoc, <- app_assoc. split; [done|]. split; [by apply Htr|lia]. }
  destruct i as [|i], j as [|j].
  - cbn. exists []. rewrite app_nil_r. split; [done|]. split; [constructor|done].
  - change (Z.of_nat 0) with 0. rewrite Z.ltb_irrefl, (proj2 (Z.ltb_lt _ _)) by lia. cbn [orb Z.eqb].
    replace (Z.of_nat (S j) - 1) with (Z.of_nat j) by lia. apply (Hgo 0%nat j); [lia..|by constructor|cbn; lia].
  - rewrite (proj2 (Z.ltb_lt 0 (Z.of_nat (S i)))), (proj2 (Z.eqb_neq (Z.of_nat (S i)) 0)) by lia. cbn [orb].
    rewrite (proj2 (Z.eqb_eq (Z.of_nat 0) 0)) by lia.
    replace (Z.of_nat (S i) - 1) with (Z.of_nat i) by lia. apply (Hgo i 0%nat); [lia..|by constructor|rewrite !D_0_r; cbn; lia].
  - rewrite (proj2 (Z.ltb_lt 0 (Z.of_nat (S i)))), (proj2 (Z.eqb_neq (Z.of_nat (S i)) 0)), (proj2 (Z.eqb_neq (Z.of_nat (S j)) 0)) by lia.
    cbn [orb]. rewrite (Hcur ltac:(lia) ltac:(lia)) in *. clear cur Hcur.
    replace (Z.of_nat (S i) - 1) with (Z.of_nat i) by lia. replace (Z.of_nat (S j) - 1) with (Z.of_nat j) by lia.
    destruct (index_row m n i j) as (above & Ha & Hnw); [lia..|]. destruct (index_row m n i (S j)) as (above' & Ha' & Hw); [lia..|].
    rewrite Ha in Ha'. injection Ha' as <-. destruct (index_row m n (S i) j) as (row & Hr & Hn); [lia..|]. fold d in Ha, Hr.
    rewrite Ha, Hr. cbn [obind]. rewrite Hnw, Hw, Hn. cbn [obind].
    pose proof (D_step_i i j) as S1. pose proof (D_step_j i j) as S2. pose proof (D_S_S i j) as HD.
    destruct (eq i j) eqn:E; unfold uint64Min3; repeat case_match; bool_lia; try lia.
    all: apply Hgo; [lia..| |cbn [op_cost]; lia]; intros o Ho; by first [apply tr_keep|apply tr_upd|apply tr_ins|apply tr_rem].
Qed.

Lemma operationsFromEditDistances_ok m n : exists o,
  operationsFromEditDistances ((fun i => D_row i (S n)) <$> seq 0 (S m)) = Ok o /\ trace m n o /\ ops_cost o = D m n.
Proof.
  unfold operationsFromEditDistances. 
  assert (index ((fun i => D_row i (S n)) <$> seq 0 (S m)) 0 = Ok (D_row 0 (S n))) as -> by (by apply index_lookup). cbn [obind].
  replace (Zlength ((fun i => D_row i (S n)) <$> seq 0 (S m)) - 1) with (Z.of_nat m) by (unfold Zlength; rewrite length_fmap, length_seq; lia).
  replace (Zlength (D_row 0 (S n)) - 1) with (Z.of_nat n) by (unfold Zlength, D_row; rewrite length_fmap, length_seq; lia).
  destruct (index_row m n m n) as (row & -> & Hc); [lia..|]. cbn [obind]. rewrite Hc. cbn [obind].
  destruct (operations_loop_ok m n (S (Z.to_nat (Z.of_nat m + Z.of_nat n))) m n (Z.of_nat (D m n)) []) as (o & -> & Ho & Hco); [lia..|done|].
  cbn [obind app]. exists o. by rewrite reverse_involutive.
Qed.

End matrix.

(** ** Least edit scripts *)

Section minimal.
Context {A : Type} `{EqDecision A}.

Definition least (p c : list A) (n : nat) : Prop := edits p c n /\ forall m, edits p c m -> (n <= m)%nat.

(** Comparing positions of two lists. *)
Definition same_at (p c : list A) (i j : nat) : bool :=
  match p !! i, c !! j with Some x, Some y => bool_decide (x = y) | _, _ => false end.

Lemma edits_D p c i j : (i <= length p)%nat -> (j <= length c)%nat -> edits (take i p) (take j c) (D (same_at p c) i j).
Proof.
  remember (i + j)%nat as n eqn:Hn. assert (i + j <= n)%nat as Hle by lia. clear Hn. revert i j Hle.
  induction n as [|n IH]; intros i j Hn Hi Hj.
  { assert (i = 0)%nat as -> by lia. assert (j = 0)%nat as -> by lia. rewrite !take_0. constructor. }
  destruct i as [|i].
  { destruct j as [|j]; [rewrite !take_0; constructor|]. destruct (lookup_lt_is_Some_2 c j Hj) as [y Hy].
    rewrite (take_S_r c j y Hy). apply (ed_ins y _ _ j). apply (IH 0%nat j); lia. }
  destruct (lookup_lt_is_Some_2 p i Hi) as [x Hx]. rewrite (take_S_r p i x Hx). destruct j as [|j].
  { rewrite D_0_r. apply ed_del. specialize (IH i 0%nat). rewrite D_0_r in IH. apply IH; lia. }
  destruct (lookup_lt_is_Some_2 c j Hj) as [y Hy]. rewrite D_S_S. unfold same_at at 1. rewrite Hx, Hy. case_bool_decide as Heq.
  - subst y. rewrite (take_S_r c j x Hy). apply ed_keep. apply IH; lia.
  - destruct (Nat.min_spec (D (same_at p c) i (S j)) (D (same_at p c) (S i) j)) as [[_ ->]|[_ ->]].
    + apply ed_del. apply IH; lia.
    + rewrite (take_S_r c j y Hy). apply ed_ins. rewrite <- (take_S_r p i x Hx). apply IH; lia.
Qed.

(** No script is cheaper than the matrix says; the matrix of a prefix is a part
    of the matrix. *)
Lemma D_below (p c : list A) n : edits p c n -> forall p' c', (D (same_at (p ++ p') (c ++ c')) (length p) (length c) <= n)%nat.
Proof.
  induction 1 as [|x p c n _ IH|x p c n _ IH|x p c n _ IH]; intros p' c'; [done|..]; rewrite ?length_app; cbn [length]; rewrite ?Nat.add_1_r.
  - rewrite D_S_S. rewrite <- !app_assoc. specialize (IH ([x] ++ p') ([x] ++ c')).
    assert (same_at (p ++ [x] ++ p') (c ++ [x] ++ c') (length p) (length c) = true) as ->; [|done].
    unfold same_at. cbn [app]. rewrite !list_lookup_middle by done. by apply bool_decide_eq_true_2.
  - rewrite <- app_assoc. specialize (IH ([x] ++ p') c'). pose proof (D_step_i (same_at (p ++ [x] ++ p') (c ++ c')) (length p) (length c)). lia.
  - rewrite <- app_assoc. specialize (IH p' ([x] ++ c')). pose proof (D_step_j (same_at (p ++ p') (c ++ [x] ++ c')) (length p) (length c)). lia.
Qed.

Lemma least_D p c : least p c (D (same_at p c) (length p) (length c)).
Proof.
  split.
  - pose proof (edits_D p c (length p) (length c)) as H. rewrite !firstn_all in H. by apply H.
  - intros m Hm. pose proof (D_below p c m Hm [] []) as H. by rewrite !app_nil_r in H.
Qed.
Lemma least_unique p c n m : least p c n -> least p c m -> n = m.
Proof. intros [H1 H2] [H3 H4]. specialize (H2 _ H3). specialize (H4 _ H1). lia. Qed.

(** A common last element is free. *)
Lemma least_snoc p c n x : least p c n -> least (p ++ [x]) (c ++ [x]) n.
Proof.
  intros Hl. pose proof (least_D (p ++ [x]) (c ++ [x])) as H. assert (D (same_at (p ++ [x]) (c ++ [x])) (length (p ++ [x])) (length (c ++ [x])) = n) as <-; [|done].
  rewrite !length_app. cbn [length]. rewrite !Nat.add_1_r, D_S_S.
  assert (same_at (p ++ [x]) (c ++ [x]) (length p) (length c) = true) as ->.
  { unfold same_at. rewrite !list_lookup_middle by done. by apply bool_decide_eq_true_2. }
  destruct Hl as [He Hmin]. pose proof (D_below p c n He [x] [x]). pose proof (edits_D (p ++ [x]) (c ++ [x]) (length p) (length c)) as Hd.
  rewrite !take_app_length, !length_app in Hd. specialize (Hmin _ (Hd ltac:(lia) ltac:(lia))). lia.
Qed.

Lemma edits_cons (p c : list A) n : edits p c n ->
  (forall x, edits (x :: p) (x :: c) n) /\ (forall x, edits (x :: p) c (S n)) /\ (forall x, edits p (x :: c) (S n)).
Proof.
  induction 1 as [|x p c n _ (I1 & I2 & I3)|x p c n _ (I1 & I2 & I3)|x p c n _ (I1 & I2 & I3)].
  - split; [|split]; intros x; [apply (ed_keep x [] [])|apply (ed_del x [] [])|apply (ed_ins x [] [])]; constructor.
  - split; [|split]; intros y; rewrite ?app_comm_cons; by constructor.
  - split; [|split]; intros y; rewrite ?app_comm_cons; by constructor.
  - split; [|split]; intros y; rewrite ?app_comm_cons; by constructor.
Qed.
Lemma edits_reverse (p c : list A) n : edits p c n -> edits (reverse p) (reverse c) n.
Proof. induction 1 as [|x p c n _ IH|x p c n _ IH|x p c n _ IH]; rewrite ?reverse_snoc; [constructor|by apply edits_cons..]. Qed.
Lemma least_reverse p c n : least p c n -> least (reverse p) (reverse c) n.
Proof.
  intros [He Hm]. split; [by apply edits_reverse|]. intros m Hr. apply Hm. apply edits_reverse in Hr. by rewrite !reverse_involutive in Hr.
Qed.
Lemma least_suffix p c n s : least p c n -> least (p ++ s) (c ++ s) n.
Proof.
  induction s as [|x s IH] using rev_ind; intros Hl; [by rewrite !app_nil_r|]. rewrite !app_assoc. apply least_snoc. by apply IH.
Qed.
Lemma least_prefix p c n s : least p c n -> least (s ++ p) (s ++ c) n.
Proof.
  intros Hl. apply least_reverse in Hl. apply (least_suffix _ _ _ (reverse s)) in Hl. apply least_reverse in Hl.
  by rewrite !reverse_app, !reverse_involutive in Hl.
Qed.

End minimal.

(** ** From operations to splices *)

Section splices.
Context {A : Type}.

Inductive script : list op -> list A -> list A -> Prop :=
| sc_nil : script [] [] []
| sc_keep x o p c : script o p c -> script (UNCHANGED :: o) (x :: p) (x :: c)
| sc_upd x y o p c : script o p c -> script (UPDATED :: o) (x :: p) (y :: c)
| sc_ins y o p c : script o p c -> script (INSERTED :: o) p (y :: c)
| sc_rem x o p c : script o p c -> script (REMOVED :: o) (x :: p) c.

Lemma script_snoc o p c : script o p c ->
  (forall x, script (o ++ [UNCHANGED]) (p ++ [x]) (c ++ [x])) /\ (forall x y, script (o ++ [UPDATED]) (p ++ [x]) (c ++ [y])) /\
  (forall y, script (o ++ [INSERTED]) p (c ++ [y])) /\ (forall x, script (o ++ [REMOVED]) (p ++ [x]) c).
Proof.
  induction 1 as [|z o p c _ (I1 & I2 & I3 & I4)|z z' o p c _ (I1 & I2 & I3 & I4)|z o p c _ (I1 & I2 & I3 & I4)|z o p c _ (I1 & I2 & I3 & I4)].
  1: split_and!; intros; cbn; repeat constructor.
  all: split_and!; intros; cbn; constructor; by auto.
Qed.

Lemma trace_script (eq : nat -> nat -> bool) (p c : list A) i j o : (forall i j, eq i j = true -> exists x, p !! i = Some x /\ c !! j = Some x) ->
  trace eq i j o -> (i <= length p)%nat -> (j <= length c)%nat -> script o (take i p) (take j c).
Proof.
  intros Heq. induction 1 as [|i j o He _ IH|i j o _ IH|i j o _ IH|i j o _ IH]; intros Hi Hj; [constructor|..].
  - destruct (Heq i j He) as (x & Hx & Hy). rewrite (take_S_r p i x Hx), (take_S_r c j x Hy). apply script_snoc. apply IH; lia.
  - destruct (lookup_lt_is_Some_2 p i Hi) as [x Hx], (lookup_lt_is_Some_2 c j Hj) as [y Hy].
    rewrite (take_S_r p i x Hx), (take_S_r c j y Hy). apply script_snoc. apply IH; lia.
  - destruct (lookup_lt_is_Some_2 c j Hj) as [y Hy]. rewrite (take_S_r c j y Hy). apply script_snoc. apply IH; lia.
  - destruct (lookup_lt_is_Some_2 p i Hi) as [x Hx]. rewrite (take_S_r p i x Hx). apply script_snoc. apply IH; lia.
Qed.

(** What [addSplice] appends. *)
Definition assigned (s : Splice) : Splice :=
  if SpFrom s =? SPLICE_UNASSIGNED then MkSplice (SpAt s) (SpRemoved s) (SpAdded s) 0 else s.
Definition emit (splice : option Splice) : list Splice := match splice with Some s => [assigned s] | None => [] end.

Lemma splice_loop_app ops : forall splices splice i j,
  splice_loop ops splices splice i j = splices ++ splice_loop ops [] splice i j.
Proof.
  induction ops as [|o ops IH]; intros splices splice i j; cbn [splice_loop].
  - destruct splice; [done|by rewrite app_nil_r].
  - destruct o; cbv zeta; [|by rewrite IH..]. destruct splice as [s|]; [|by rewrite IH].
    unfold addSplice. rewrite IH, (IH ([] ++ _)). cbn [app]. by rewrite <- app_assoc.
Qed.

(** A pending splice: it stands for the removed [r] and the added [a]. *)
Definition pending (splice : option Splice) (at_ from : Z) (r a : list A) : Prop :=
  match splice with
  | None => r = [] /\ a = []
  | Some s => SpAt s = at_ /\ SpRemoved s = Zlength r /\ SpAdded s = Zlength a /\
              (if bool_decide (a = []) then SpFrom s = SPLICE_UNASSIGNED else SpFrom s = from)
  end.

Lemma pending_default splice at_ from (r a : list A) : pending splice at_ from r a ->
  pending (Some (default (MkSplice (at_ + Zlength r) 0 0 SPLICE_UNASSIGNED) splice)) at_ from r a.
Proof. destruct splice as [s|]; [done|]. intros [-> ->]. cbn. rewrite Z.add_0_r. done. Qed.
Lemma pending_add s at_ from (r a r' : list A) y : from < SPLICE_UNASSIGNED -> pending (Some s) at_ from r a ->
  pending (Some (MkSplice (SpAt s) (SpRemoved s + Zlength r') (SpAdded s + 1)
    (if SpFrom s =? SPLICE_UNASSIGNED then from + Zlength a else SpFrom s))) at_ from (r ++ r') (a ++ [y]).
Proof.
  intros Hfrom (H1 & H2 & H3 & H4). cbn [pending SpAt SpRemoved SpAdded SpFrom]. rewrite !Zlength_app, H2, H3.
  rewrite bool_decide_eq_false_2 by (by destruct a). split_and!; [done..|]. case_bool_decide.
  - subst a. rewrite H4, Z.eqb_refl. zlen.
  - rewrite H4, (proj2 (Z.eqb_neq _ _)) by lia. done.
Qed.
Lemma pending_rem s at_ from (r a : list A) x : pending (Some s) at_ from r a ->
  pending (Some (MkSplice (SpAt s) (SpRemoved s + 1) (SpAdded s) (SpFrom s))) at_ from (r ++ [x]) a.
Proof. intros (H1 & H2 & H3 & H4). cbn [pending SpAt SpRemoved SpAdded SpFrom]. rewrite Zlength_app, H2. done. Qed.

Lemma drop_take_app (P l : list A) pos : 0 <= pos <= Zlength P ->
  take (Z.to_nat (Zlength P - pos)) (drop (Z.to_nat pos) (P ++ l)) = drop (Z.to_nat pos) P.
Proof.
  intros Hp. unfold Zlength in *. rewrite drop_app_le by lia.
  replace (Z.to_nat (Z.of_nat (length P) - pos)) with (length (drop (Z.to_nat pos) P)) by (rewrite length_drop; lia).
  apply take_app_length.
Qed.
Lemma drop_Zlength (P l : list A) n : n = Zlength P -> drop (Z.to_nat n) (P ++ l) = l.
Proof. intros ->. unfold Zlength. rewrite Nat2Z.id. apply drop_app_length. Qed.

(** Applying a pending splice and then the others. *)
Lemma apply_pending s (P C r a lp lc : list A) pos rest : 0 <= pos <= Zlength P -> Zlength C < SPLICE_UNASSIGNED ->
  pending (Some s) (Zlength P) (Zlength C) r a ->
  apply_splices (P ++ r ++ lp) (C ++ a ++ lc) pos (assigned s :: rest) =
  drop (Z.to_nat pos) P ++ a ++ apply_splices (P ++ r ++ lp) (C ++ a ++ lc) (Zlength (P ++ r)) rest.
Proof.
  intros Hp Hc (H1 & H2 & H3 & H4). cbn [apply_splices].
  assert (SpAt (assigned s) = SpAt s /\ SpRemoved (assigned s) = SpRemoved s /\ SpAdded (assigned s) = SpAdded s) as (-> & -> & ->).
  { unfold assigned. by destruct (SpFrom s =? SPLICE_UNASSIGNED). }
  rewrite H1, H2, drop_take_app by done. rewrite Zlength_app. f_equal. f_equal. rewrite H3.
  case_bool_decide as Ha; [by rewrite Ha|]. unfold assigned. rewrite H4, (proj2 (Z.eqb_neq _ _)) by lia.
  rewrite H4, drop_Zlength by done. unfold Zlength. rewrite Nat2Z.id. apply take_app_length.
Qed.

Lemma splice_loop_ok ops p c : script ops p c -> forall (P C r a t : list A) splice pos, 0 <= pos <= Zlength P ->
  Zlength (C ++ a ++ c ++ t) < SPLICE_UNASSIGNED -> pending splice (Zlength P) (Zlength C) r a ->
  apply_splices (P ++ r ++ p ++ t) (C ++ a ++ c ++ t) pos
    (splice_loop ops [] splice (Zlength P + Zlength r) (Zlength C + Zlength a)) = drop (Z.to_nat pos) P ++ a ++ c ++ t.
Proof.
  induction 1 as [|x o p c _ IH|x y o p c _ IH|y o p c _ IH|x o p c _ IH]; intros P C r a t splice pos Hpos Hlen Hpend.
  all: assert (Zlength C < SPLICE_UNASSIGNED) as HC by zlen.
  all: cbn [splice_loop]; cbv zeta.
  - cbn [app]. destruct splice as [s|]; cbn [emit].
    + unfold addSplice. cbn [app]. fold (assigned s). rewrite (apply_pending s P C r a t t) by done. cbn [apply_splices].
      rewrite (app_assoc P r), drop_Zlength by done. done.
    + destruct Hpend as [-> ->]. cbn. unfold Zlength in Hpos. rewrite drop_app_le by lia. done.
  - replace (Zlength P + Zlength r + 1) with (Zlength (P ++ r ++ [x]) + Zlength (@nil A)) by zlen.
    replace (Zlength C + Zlength a + 1) with (Zlength (C ++ a ++ [x]) + Zlength (@nil A)) by zlen.
    assert (forall pos', 0 <= pos' <= Zlength (P ++ r ++ [x]) -> apply_splices (P ++ r ++ (x :: p) ++ t) (C ++ a ++ (x :: c) ++ t) pos'
      (splice_loop o [] None (Zlength (P ++ r ++ [x]) + Zlength (@nil A)) (Zlength (C ++ a ++ [x]) + Zlength (@nil A))) =
      drop (Z.to_nat pos') (P ++ r ++ [x]) ++ c ++ t) as Hgo.
    { intros pos' Hp'. specialize (IH (P ++ r ++ [x]) (C ++ a ++ [x]) [] [] t None pos' Hp'). rewrite <- !app_assoc in IH. apply IH; done. }
    destruct splice as [s|].
    + unfold addSplice. cbn [app]. rewrite splice_loop_app. fold (assigned s). cbn [app].
      rewrite (apply_pending s P C r a ((x :: p) ++ t) ((x :: c) ++ t)) by done. cbn [app] in Hgo. rewrite Hgo.
      * rewrite (app_assoc P r), drop_Zlength by done. done.
      * zlen.
    + destruct Hpend as [-> ->]. rewrite Hgo by zlen.
      cbn [app]. unfold Zlength in Hpos. rewrite drop_app_le by lia. by rewrite <- app_assoc.
  - apply pending_default in Hpend. apply (pending_add _ _ _ _ _ [x] y) in Hpend; [|done].
    pose proof (fun Hl => IH P C (r ++ [x]) (a ++ [y]) t _ pos Hpos Hl Hpend) as Hgo. rewrite <- !app_assoc in Hgo. specialize (Hgo Hlen).
    rewrite !Zlength_app, !Z.add_assoc in Hgo. exact Hgo.
  - apply pending_default in Hpend. apply (pending_add _ _ _ _ _ [] y) in Hpend; [|done]. rewrite app_nil_r in Hpend.
    change (Zlength (@nil A)) with 0 in Hpend. rewrite Z.add_0_r in Hpend.
    pose proof (fun Hl => IH P C r (a ++ [y]) t _ pos Hpos Hl Hpend) as Hgo. rewrite <- !app_assoc in Hgo. specialize (Hgo Hlen).
    rewrite !Zlength_app, !Z.add_assoc in Hgo. exact Hgo.
  - apply pending_default in Hpend. apply (pending_rem _ _ _ _ _ x) in Hpend.
    pose proof (fun Hl => IH P C (r ++ [x]) a t _ pos Hpos Hl Hpend) as Hgo. rewrite <- !app_assoc in Hgo. specialize (Hgo Hlen).
    rewrite !Zlength_app, !Z.add_assoc in Hgo. exact Hgo.
Qed.

Definition cost_of (splice : option Splice) : Z := match splice with Some s => SpRemoved s + SpAdded s | None => 0 end.
Lemma splice_cost_app l k : splice_cost (l ++ k) = splice_cost l + splice_cost k.
Proof. induction l as [|s l IH]; cbn; [done|]. fold (splice_cost (l ++ k)) (splice_cost l). lia. Qed.
Lemma splice_loop_cost ops : forall splice i j,
  splice_cost (splice_loop ops [] splice i j) = Z.of_nat (ops_cost ops) + cost_of splice.
Proof.
  assert (forall s, splice_cost [assigned s] = SpRemoved s + SpAdded s) as Hs.
  { intros s. unfold assigned. destruct (SpFrom s =? SPLICE_UNASSIGNED); cbn; lia. }
  induction ops as [|o ops IH]; intros splice i j; cbn [splice_loop].
  - destruct splice as [s|]; [|done]. unfold addSplice. cbn [app]. fold (assigned s). rewrite (Hs s). cbn. lia.
  - assert (ops_cost (o :: ops) = op_cost o + ops_cost ops)%nat as -> by done.
    cbv zeta. destruct o; [|rewrite IH; destruct splice; cbn; lia..].
    destruct splice as [s|]; [|rewrite IH; cbn; lia]. unfold addSplice. cbn [app].
    rewrite splice_loop_app, splice_cost_app, IH. fold (assigned s). rewrite (Hs s). cbn. lia.
Qed.

End splices.

(** ** The shared ends *)

Section ends.
Context {A : Type} `{EqDecision A} (eqFn : Z -> Z -> bool) (prev cur : list A).
Context (Heq : forall i j, (i < length prev)%nat -> (j < length cur)%nat -> eqFn (Z.of_nat i) (Z.of_nat j) = same_at prev cur i j).
Context (Hlen : Zlength prev < 2 ^ 63) (Hlen' : Zlength cur < 2 ^ 63).

Lemma same_at_true i j : same_at prev cur i j = true <-> exists x, prev !! i = Some x /\ cur !! j = Some x.
Proof.
  unfold same_at. destruct (prev !! i) as [x|], (cur !! j) as [y|]; [rewrite bool_decide_eq_true|..]; (split; [|intros (? & ? & ?)]); intros; simplify_eq; eauto.
Qed.

Lemma sharedPrefix_loop_ok n : forall k, take k prev = take k cur -> (k + n <= length prev)%nat -> (k + n <= length cur)%nat ->
  exists m, sharedPrefix_loop eqFn n (Z.of_nat k) = Z.of_nat m /\ (k <= m <= k + n)%nat /\ take m prev = take m cur /\
    (m = k + n \/ same_at prev cur m m = false)%nat.
Proof.
  induction n as [|n IH]; intros k Hk Hp Hc; cbn [sharedPrefix_loop]; [exists k; split_and!; [done|lia..|done|lia]|].
  rewrite Heq by lia. destruct (same_at prev cur k k) eqn:E; cbn [negb]; [|exists k; split_and!; [done|lia..|done|by right]].
  apply same_at_true in E as (x & Hx & Hy). destruct (IH (S k)) as (m & Hm & Hr & Ht & Hs); [|lia..|].
  - by rewrite (take_S_r prev k x Hx), (take_S_r cur k x Hy), Hk.
  - exists m. replace (Z.of_nat k + 1) with (Z.of_nat (S k)) by lia.
    split_and!; [done|lia..|done|]. destruct Hs as [->|Hs]; [left; lia|by right].
Qed.

Lemma sharedSuffix_loop_ok n : forall k, drop (length prev - k) prev = drop (length cur - k) cur ->
  (k + n <= length prev)%nat -> (k + n <= length cur)%nat -> exists m,
  sharedSuffix_loop eqFn n (Z.of_nat k) (u64 (Zlength prev - Z.of_nat k - 1)) (u64 (Zlength cur - Z.of_nat k - 1)) = Z.of_nat m /\
  (k <= m <= k + n)%nat /\ drop (length prev - m) prev = drop (length cur - m) cur.
Proof.
  assert (2 ^ 64 = 18446744073709551616) as H64 by done. assert (2 ^ 63 = 9223372036854775808) as H63 by done.
  induction n as [|n IH]; intros k Hk Hp Hc; cbn [sharedSuffix_loop]; [exists k; split; [done|split; [lia|done]]|].
  unfold Zlength in *. rewrite !(u64_small (_ - Z.of_nat k - 1)) by lia.
  replace (Z.of_nat (length prev) - Z.of_nat k - 1) with (Z.of_nat (length prev - k - 1)) by lia.
  replace (Z.of_nat (length cur) - Z.of_nat k - 1) with (Z.of_nat (length cur - k - 1)) by lia.
  rewrite Heq by lia. destruct (same_at prev cur (length prev - k - 1) (length cur - k - 1)) eqn:E; [|exists k; split; [done|split; [lia|done]]].
  apply same_at_true in E as (x & Hx & Hy). destruct (IH (S k)) as (m & Hm & Hr & Ht); [|lia..|].
  - replace (length prev - S k)%nat with (length prev - k - 1)%nat by lia. replace (length cur - S k)%nat with (length cur - k - 1)%nat by lia.
    rewrite (drop_S _ _ _ Hx), (drop_S _ _ _ Hy). f_equal.
    replace (S (length prev - k - 1)) with (length prev - k)%nat by lia. replace (S (length cur - k - 1)) with (length cur - k)%nat by lia. done.
  - exists m. rewrite <- Hm. split; [|split; [lia|done]]. f_equal; [lia|f_equal; lia..].
Qed.

(** The prefix and the suffix found do not overlap. *)
Lemma ends_ok : exists s p c t, prev = s ++ p ++ t /\ cur = s ++ c ++ t /\
  sharedPrefix eqFn (uint64Min (Zlength prev) (Zlength cur)) = Zlength s /\
  sharedSuffix eqFn (Zlength prev) (Zlength cur) (uint64Min (Zlength prev) (Zlength cur) - Zlength s) = Zlength t /\
  (p = [] \/ c = [] \/ same_at p c 0 0 = false).
Proof.
  rewrite uint64Min_min. unfold sharedPrefix.
  destruct (sharedPrefix_loop_ok (Z.to_nat (Z.min (Zlength prev) (Zlength cur))) 0) as (m & Hm & Hr & Ht & Hs); [done|unfold Zlength; lia..|].
  destruct (sharedSuffix_loop_ok (Z.to_nat (Z.min (Zlength prev) (Zlength cur)) - m) 0) as (k & Hk & Hr' & Hd); [|unfold Zlength in *; lia..|].
  { rewrite !Nat.sub_0_r, !drop_all. done. }
  exists (take m prev), (drop m (take (length prev - k) prev)), (drop m (take (length cur - k) cur)), (drop (length prev - k) prev).
  assert (forall l : list A, (m + k <= length l)%nat -> l = take m l ++ drop m (take (length l - k) l) ++ drop (length l - k) l) as Hsplit.
  { intros l Hl. rewrite <- (take_drop (length l - k) l) at 1. rewrite <- (take_drop m (take (length l - k) l)) at 1.
    rewrite take_take, Nat.min_l, <- app_assoc by lia. done. }
  assert (Zlength (take m prev) = Z.of_nat m) as Hlm by (unfold Zlength in *; rewrite length_take; lia).
  assert (Zlength (drop (length prev - k) prev) = Z.of_nat k) as Hlk by (unfold Zlength in *; rewrite length_drop; lia).
  split; [apply Hsplit; unfold Zlength in *; lia|]. split; [rewrite Ht, Hd; apply Hsplit; unfold Zlength in *; lia|].
  change (Z.of_nat 0) with 0 in *. rewrite !Z.sub_0_r in Hk. rewrite Hlm, Hlk. split; [exact Hm|]. unfold sharedSuffix.
  replace (Z.to_nat (Z.min (Zlength prev) (Zlength cur) - Z.of_nat m)) with (Z.to_nat (Z.min (Zlength prev) (Zlength cur)) - m)%nat by lia.
  split; [exact Hk|]. destruct Hs as [->|Hs].
  - destruct (decide (Zlength prev <= Zlength cur)) as [Hle|Hle]; [left|right; left]; apply drop_ge; rewrite length_take; unfold Zlength in *; lia.
  - unfold same_at in *. rewrite !lookup_drop, Nat.add_0_r.
    destruct (decide (m < length prev - k)%nat) as [Hl|Hl]; [|left; apply drop_ge; rewrite length_take; lia].
    destruct (decide (m < length cur - k)%nat) as [Hl'|Hl']; [|right; left; apply drop_ge; rewrite length_take; lia].
    right. right. by rewrite !lookup_take_lt by lia.
Qed.

End ends.

(** Everything [calcSplices] does when it does not give up on the matrix. *)
Section calc.
Context {A : Type} `{EqDecision A} (eqFn : Z -> Z -> bool).

Lemma same_at_middle (s p c t : list A) i j : (i < length p)%nat -> (j < length c)%nat ->
  same_at (s ++ p ++ t) (s ++ c ++ t) (length s + i) (length s + j) = same_at p c i j.
Proof. intros Hi Hj. unfold same_at. rewrite !(lookup_app_r s) by lia. rewrite !Nat.add_sub', !lookup_app_l by lia. done. Qed.

Lemma matrix_splices (s p c t : list A) :
  (forall i j, (i < length (s ++ p ++ t))%nat -> (j < length (s ++ c ++ t))%nat ->
    eqFn (Z.of_nat i) (Z.of_nat j) = same_at (s ++ p ++ t) (s ++ c ++ t) i j) -> Zlength (s ++ c ++ t) < 2 ^ 63 ->
  exists splices, (let! ops := operationsFromEditDistances (calcEditDistances eqFn (Zlength s) (Zlength p) (Zlength s) (Zlength c)) in
     Ok (splice_loop ops [] None (Zlength s) (Zlength s))) = Ok splices /\
    apply_splices (s ++ p ++ t) (s ++ c ++ t) 0 splices = s ++ c ++ t /\
    exists n, least (s ++ p ++ t) (s ++ c ++ t) n /\ splice_cost splices = Z.of_nat n.
Proof.
  intros Heq Hlen. unfold Zlength at 1 2 3 4. rewrite (calcEditDistances_ok (same_at p c)).
  - destruct (operationsFromEditDistances_ok (same_at p c) (length p) (length c)) as (o & -> & Ho & Hco). cbn [obind].
    eexists. split; [done|]. apply (trace_script _ p c) in Ho; [|intros i j; apply same_at_true|done..]. rewrite !firstn_all in Ho. split.
    + pose proof (splice_loop_ok o p c Ho s s [] [] t None 0) as Hsp. change (Zlength (@nil A)) with 0 in Hsp.
      rewrite !Z.add_0_r in Hsp. apply Hsp; [zlen|unfold SPLICE_UNASSIGNED; cbn [app]; lia|done].
    + rewrite splice_loop_cost, Hco. cbn [cost_of]. rewrite Z.add_0_r. eexists. split; [|done]. apply least_prefix, least_suffix, least_D.
  - intros i j Hi Hj. replace (Z.of_nat (length s) + Z.of_nat i) with (Z.of_nat (length s + i)) by lia.
    replace (Z.of_nat (length s) + Z.of_nat j) with (Z.of_nat (length s + j)) by lia.
    rewrite Heq by (rewrite !length_app; lia). by apply same_at_middle.
Qed.

(** [eqFn] compares the elements of the two lists. *)
Definition compares (prev cur : list A) : Prop := forall i j x y,
  prev !! i = Some x -> cur !! j = Some y -> eqFn (Z.of_nat i) (Z.of_nat j) = bool_decide (x = y).

Lemma compares_at prev cur i j : compares prev cur -> (i < length prev)%nat -> (j < length cur)%nat ->
  eqFn (Z.of_nat i) (Z.of_nat j) = same_at prev cur i j.
Proof.
  intros Hc Hi Hj. destruct (lookup_lt_is_Some_2 prev i Hi) as [x Hx], (lookup_lt_is_Some_2 cur j Hj) as [y Hy].
  unfold same_at. rewrite Hx, Hy. by apply Hc.
Qed.

Lemma Zlength_eq_0 (l : list A) : Zlength l = 0 -> l = [].
Proof. intros Hl. apply nil_length_inv. unfold Zlength in Hl. lia. Qed.

Lemma calcSplices_cases prev cur max : compares prev cur -> Zlength prev < 2 ^ 63 -> Zlength cur < 2 ^ 63 ->
  exists s p c t, prev = s ++ p ++ t /\ cur = s ++ c ++ t /\
  calcSplices eqFn (Zlength prev) (Zlength cur) max =
    match p, c with
    | [], [] => Ok []
    | _, [] => Ok [MkSplice (Zlength s) (Zlength p) 0 0]
    | [], _ => Ok [MkSplice (Zlength s) 0 (Zlength c) (Zlength s)]
    | _, _ =>
        if max <? u64 (Zlength p * Zlength c) then Ok [MkSplice 0 (Zlength p) (Zlength c) 0]
        else let! ops := operationsFromEditDistances (calcEditDistances eqFn (Zlength s) (Zlength p) (Zlength s) (Zlength c)) in
             Ok (splice_loop ops [] None (Zlength s) (Zlength s))
    end /\ (p = [] \/ c = [] \/ same_at p c 0 0 = false).
Proof.
  intros Hc Hp Hl. destruct (ends_ok eqFn prev cur) as (s & p & c & t & -> & -> & Hpre & Hsuf & Hends); [by intros; apply compares_at|done..|].
  exists s, p, c, t. split; [done|]. split; [done|]. split; [|done]. unfold calcSplices. cbv zeta. rewrite Hpre, Hsuf.
  replace (Zlength (s ++ p ++ t) - Zlength t - Zlength s) with (Zlength p) by zlen.
  replace (Zlength (s ++ c ++ t) - Zlength t - Zlength s) with (Zlength c) by zlen.
  replace (Zlength (s ++ p ++ t) - Zlength t) with (Zlength s + Zlength p) by zlen.
  replace (Zlength (s ++ c ++ t) - Zlength t) with (Zlength s + Zlength c) by zlen. clear.
  (destruct p as [|x p]; [|pose proof (Zlength_nonneg p)]); (destruct c as [|y c]; [|pose proof (Zlength_nonneg c)]);
    rewrite ?Zlength_cons; change (Zlength (@nil A)) with 0;
    repeat match goal with |- context [?a =? ?b] => destruct (Z.eqb_spec a b); [try (exfalso; lia)|try (exfalso; lia)] end; done.
Qed.

(** When the matrix is built, the splices turn one list into the other and are
    the fewest. *)
Lemma calcSplices_ok prev cur max : compares prev cur -> Zlength prev < 2 ^ 63 -> Zlength cur < 2 ^ 63 ->
  Zlength prev * Zlength cur <= max -> exists splices, calcSplices eqFn (Zlength prev) (Zlength cur) max = Ok splices /\
  apply_splices prev cur 0 splices = cur /\ exists n, least prev cur n /\ splice_cost splices = Z.of_nat n.
Proof.
  intros Hc Hp Hl Hmax. destruct (calcSplices_cases prev cur max Hc Hp Hl) as (s & p & c & t & -> & -> & -> & _).
  pose proof (fun i j => compares_at _ _ i j Hc) as Hat. pose proof (least_D p c) as Hleast. apply (least_suffix _ _ _ t), (least_prefix _ _ _ s) in Hleast.
  assert (forall splices n, apply_splices (s ++ p ++ t) (s ++ c ++ t) 0 splices = s ++ c ++ t -> D (same_at p c) (length p) (length c) = n ->
    splice_cost splices = Z.of_nat n -> exists splices', Ok splices = Ok splices' /\ apply_splices (s ++ p ++ t) (s ++ c ++ t) 0 splices' = s ++ c ++ t /\
    exists n, least (s ++ p ++ t) (s ++ c ++ t) n /\ splice_cost splices' = Z.of_nat n) as Hgo.
  { intros splices n Ha <- Hcost. exists splices. eauto. }
  destruct p as [|x p], c as [|y c].
  - by apply (Hgo [] 0%nat).
  - apply (Hgo _ (length (y :: c))); [|done|cbn; zlen]. cbn [apply_splices SpAt SpRemoved SpAdded SpFrom app].
    rewrite !Z.sub_0_r, Z.add_0_r, drop_0. unfold Zlength. rewrite !Nat2Z.id, take_app_length, !drop_app_length.
    f_equal. rewrite (app_comm_cons c t y). by rewrite take_app_length.
  - apply (Hgo _ (length (x :: p))); [|by rewrite D_0_r|cbn; zlen]. cbn [apply_splices SpAt SpRemoved SpAdded SpFrom].
    rewrite <- Zlength_app, (app_assoc s (x :: p)), (drop_Zlength (s ++ x :: p) t (Zlength (s ++ x :: p))), <- app_assoc by done.
    rewrite drop_take_app by zlen. done.
  - rewrite (proj2 (Z.ltb_ge _ _)); [by apply matrix_splices|].
    etransitivity; [apply Z.mod_le; [|done]|]; [pose proof (Zlength_nonneg (x :: p)); pose proof (Zlength_nonneg (y :: c)); nia|].
    etransitivity; [|exact Hmax]. pose proof (Zlength_nonneg s). pose proof (Zlength_nonneg t). rewrite !Zlength_app.
    pose proof (Zlength_nonneg (x :: p)); pose proof (Zlength_nonneg (y :: c)). nia.
Qed.

End calc.

End EditDistanceFacts.
Import EditDistanceFacts.

Lemma snoc_or_nil {A} (l : list A) : l = [] \/ exists l' x, l = l' ++ [x].
Proof. induction l as [|x l _] using rev_ind; eauto. Qed.

(** Two lists that differ in their last element only. *)
Lemma last_differs {A} `{EqDecision A} (s s' p c t : list A) x y : x <> y -> s ++ [x] = s' ++ p ++ t -> s ++ [y] = s' ++ c ++ t ->
  (p = [] \/ c = [] \/ same_at p c 0 0 = false) -> s' = s /\ p = [x] /\ c = [y] /\ t = [].
Proof.
  intros Hxy Hp Hc Hends. destruct (snoc_or_nil t) as [->|(t' & z & ->)].
  2:{ exfalso. rewrite !app_assoc in Hp, Hc. apply app_inj_tail in Hp as [_ ->]. apply app_inj_tail in Hc as [_ ->]. done. }
  rewrite app_nil_r in Hp, Hc. assert (length p = length c) as Hl.
  { apply (f_equal length) in Hp, Hc. rewrite !length_app in *. cbn [length] in *. lia. }
  destruct p as [|u p], c as [|v c]; try discriminate Hl.
  { exfalso. rewrite app_nil_r in Hp, Hc. rewrite <- Hc in Hp. apply app_inj_tail in Hp as [_ Hp]. done. }
  destruct Hends as [Hn|[Hn|Hs]]; [done..|]. cbn in Hs. apply bool_decide_eq_false in Hs.
  destruct (snoc_or_nil p) as [->|(p' & u' & ->)].
  - destruct c; [|done]. apply app_inj_tail in Hp as [<- <-]. apply app_inj_tail in Hc as [_ <-]. done.
  - exfalso. destruct (snoc_or_nil c) as [->|(c' & v' & ->)]; [cbn in Hl; rewrite length_app in Hl; cbn in Hl; lia|].
    rewrite app_comm_cons, app_assoc in Hp, Hc. apply app_inj_tail in Hp as [-> _]. apply app_inj_tail in Hc as [Hc _].
    apply app_inv_head in Hc. congruence.
Qed.

(** C23: when the matrix is not over the limit (the lengths, below 2^63, multiply
    to at most the limit), applying the splices of [calcSplices] to the previous
    list gives the current list. *)
Theorem calcSplices_correct {A} `{EqDecision A} (eqFn : Z -> Z -> bool) (prev cur : list A) (maxSpliceMatrixSize : Z) :
  compares eqFn prev cur -> Zlength prev < 2 ^ 63 -> Zlength cur < 2 ^ 63 -> Zlength prev * Zlength cur <= maxSpliceMatrixSize ->
  exists splices, calcSplices eqFn (Zlength prev) (Zlength cur) maxSpliceMatrixSize = Ok splices /\
    apply_splices prev cur 0 splices = cur.
Proof. intros Hc Hp Hl Hm. destruct (calcSplices_ok eqFn prev cur _ Hc Hp Hl Hm) as (sp & ? & ? & _). eauto. Qed.

(** C30: for lists of fewer than 2^63 elements whose lengths multiply to at most
    the limit of the matrix, [calcSplices] returns, and its splices remove and add
    as few elements as any sequence of removals and insertions that turns the
    previous list into the current one. *)
Theorem calcSplices_minimal {A} `{EqDecision A} (eqFn : Z -> Z -> bool) (prev cur : list A) (maxSpliceMatrixSize : Z) (m : nat) :
  compares eqFn prev cur -> Zlength prev < 2 ^ 63 -> Zlength cur < 2 ^ 63 -> Zlength prev * Zlength cur <= maxSpliceMatrixSize ->
  edits prev cur m ->
  exists splices, calcSplices eqFn (Zlength prev) (Zlength cur) maxSpliceMatrixSize = Ok splices /\ splice_cost splices <= Z.of_nat m.
Proof.
  intros Hc Hp Hl Hm Hed. destruct (calcSplices_ok eqFn prev cur _ Hc Hp Hl Hm) as (sp & He & _ & n & [_ Hmin] & Hn).
  exists sp. split; [done|]. specialize (Hmin _ Hed). lia.
Qed.

(** Over the limit the one splice returned starts at position 0, though the
    lengths leave out the shared prefix: two lists that differ in the last
    element only get a splice that leaves the previous list as it is. *)
Theorem calcSplices_over_limit {A} `{EqDecision A} (eqFn : Z -> Z -> bool) (s : list A) (x y : A) (maxSpliceMatrixSize : Z) :
  s <> [] -> x <> y -> compares eqFn (s ++ [x]) (s ++ [y]) -> Zlength s + 1 < 2 ^ 63 -> maxSpliceMatrixSize < 1 ->
  exists splices, calcSplices eqFn (Zlength (s ++ [x])) (Zlength (s ++ [y])) maxSpliceMatrixSize = Ok splices /\
    apply_splices (s ++ [x]) (s ++ [y]) 0 splices = s ++ [x].
Proof.
  intros Hs Hxy Hc Hlen Hmax. destruct (calcSplices_cases eqFn (s ++ [x]) (s ++ [y]) maxSpliceMatrixSize Hc) as (s' & p & c & t & Hp & Hcc & -> & Hends);
    [rewrite Zlength_app; done..|].
  destruct (last_differs s s' p c t x y Hxy Hp Hcc Hends) as (-> & -> & -> & ->).
  change (u64 (Zlength [x] * Zlength [y])) with 1. rewrite (proj2 (Z.ltb_lt _ _) Hmax). eexists. split; [done|]. by destruct s.
Qed.

Definition same_in (p c : list Z) (i j : Z) : bool := bool_decide (p !! Z.to_nat i = c !! Z.to_nat j).
Lemma same_in_compares p c : compares (same_in p c) p c.
Proof. intros i j x y Hx Hy. unfold same_in. rewrite !Nat2Z.id, Hx, Hy. apply bool_decide_ext. split; congruence. Qed.

Lemma calcSplices_correct_witness : exists splices,
  calcSplices (same_in [1; 2; 3; 4] [1; 3; 5; 4]) 4 4 DEFAULT_MAX_SPLICE_MATRIX_SIZE = Ok splices /\
  apply_splices [1; 2; 3; 4] [1; 3; 5; 4] 0 splices = [1; 3; 5; 4].
Proof. apply (calcSplices_correct _ [1; 2; 3; 4] [1; 3; 5; 4]); [apply same_in_compares|done..]. Defined.
Lemma calcSplices_minimal_witness : exists splices,
  calcSplices (same_in [1; 2; 3] [1; 3]) 3 2 DEFAULT_MAX_SPLICE_MATRIX_SIZE = Ok splices /\ splice_cost splices <= Z.of_nat 1.
Proof.
  apply (calcSplices_minimal _ [1; 2; 3] [1; 3]); [apply same_in_compares|done..|].
  apply (ed_keep 3 [1; 2] [1]), (ed_del 2 [1] [1]), (ed_keep 1 [] []), ed_nil.
Defined.
Lemma calcSplices_over_limit_witness : exists splices, calcSplices (same_in [7; 8] [7; 9]) 2 2 0 = Ok splices /\
  apply_splices [7; 8] [7; 9] 0 splices = [7; 8].
Proof. apply (calcSplices_over_limit _ [7] 8 9 0); [done|done|apply same_in_compares|done..]. Defined.
