(* ===== verification/OrderedParallel.v ===== *)
(** * Package [orderedparallel] (src/go/util/orderedparallel/ordered_parallel.go)

    A pool of goroutines that apply a function to the values of a channel and send
    the results in the order of the values.  The goroutines are the threads of a
    step function: a step runs one of them from one access to shared state to the
    next, and the theorem holds for all schedules. *)

From S2P Require Import Prelude.

(** Package container/heap on a slice: [Push] adds an element, the minimum is at
    index 0, and [Pop] removes it. *)
Class GoHeap := {
  heap_Push : forall {A}, (A -> A -> bool) -> A -> list A -> list A;
  heap_Pop : forall {A}, (A -> A -> bool) -> list A -> option (A * list A);
  is_heap : forall {A}, (A -> A -> bool) -> list A -> Prop;
  heap_nil {A} (less : A -> A -> bool) : is_heap less [];
  heap_push {A} (less : A -> A -> bool) x l : is_heap less l -> heap_Push less x l ≡ₚ x :: l /\ is_heap less (heap_Push less x l);
  heap_pop {A} (less : A -> A -> bool) x l : is_heap less (x :: l) -> exists l', heap_Pop less (x :: l) = Some (x, l') /\ l' ≡ₚ l /\ is_heap less l';
  heap_min {A} (less : A -> A -> bool) (key : A -> Z) x l y : (forall a b, less a b = (key a <? key b)) -> is_heap less (x :: l) -> y ∈ l -> key x <= key y
}.

Module OrderedParallel.

Record workItem (X : Type) : Type := MkItem { order : Z; data : X }.
Arguments MkItem {X} order data.
Arguments order {X} w.
Arguments data {X} w.

Section pool.
Context `{GoHeap} {A B : Type} (fn : A -> B).

Definition workQueue : Type := list (workItem B).
Definition Less (x y : workItem B) : bool := order x <? order y.
Definition Peek_order (wq : workQueue) : Z := match wq with item :: _ => order item | [] => 0 end.

(** The goroutine that numbers the values: waiting for one, about to send it on
    [wq], about to count it, finished. *)
Inductive sender : Type := SRecv | SSend (item : workItem A) | SCount | SDone.
(** A worker: waiting on [wq], about to apply [fn], about to lock [mu], about to
    look at the heap, about to send the minimum, about to count it, about to lock
    [mu] for the last time, about to close [out], finished. *)
Inductive worker : Type :=
| WRecv | WFn (item : workItem A) | WLock (item : workItem B) | WLoop | WSend (top : workItem B) | WCount | WExit | WClose | WDone.
(** What the goroutines share, and where each of them is.  [out] is what has been
    received from the channel [out]; [panicked] records a send on the closed
    channel, its second close or a pop from the empty heap. *)
Record pool : Type := MkPool {
  input : list A; inCount : Z; snd_ : sender; workers : list worker;
  mu : option nat; outHeap : workQueue; outCount : Z; out : list B; outClosed : bool; panicked : bool
}.
Definition New (xs : list A) (parallelism : nat) : pool := MkPool xs 0 SRecv (replicate parallelism WRecv) None [] 0 [] false false.

Definition set_sender (s : pool) (xs : list A) (n : Z) (p : sender) : pool :=
  MkPool xs n p (workers s) (mu s) (outHeap s) (outCount s) (out s) (outClosed s) (panicked s).
Definition set_worker (s : pool) (i : nat) (p : worker) : pool :=
  MkPool (input s) (inCount s) (snd_ s) (<[i := p]> (workers s)) (mu s) (outHeap s) (outCount s) (out s) (outClosed s) (panicked s).
Definition set_mu (s : pool) (o : option nat) : pool :=
  MkPool (input s) (inCount s) (snd_ s) (workers s) o (outHeap s) (outCount s) (out s) (outClosed s) (panicked s).
Definition set_heap (s : pool) (q : workQueue) : pool :=
  MkPool (input s) (inCount s) (snd_ s) (workers s) (mu s) q (outCount s) (out s) (outClosed s) (panicked s).
Definition set_out (s : pool) (n : Z) (bs : list B) (closed bad : bool) : pool :=
  MkPool (input s) (inCount s) (snd_ s) (workers s) (mu s) (outHeap s) n bs closed bad.

Definition sender_step (s : pool) : option pool :=
  match snd_ s with
  | SRecv => match input s with [] => Some (set_sender s [] (inCount s) SDone) | x :: xs => Some (set_sender s xs (inCount s) (SSend (MkItem (inCount s) x))) end
  | SSend _ => None
  | SCount => Some (set_sender s (input s) (u64 (inCount s + 1)) SRecv)
  | SDone => None
  end.
(** A step of worker [i]; [None] when it has to wait. *)
Definition worker_step (i : nat) (s : pool) : option pool :=
  match workers s !! i with
  | None => None
  | Some p =>
      match p with
      | WRecv =>
          match snd_ s with
          | SSend item => Some (set_worker (set_sender s (input s) (inCount s) SCount) i (WFn item))
          | SDone => Some (set_worker s i WExit)
          | _ => None
          end
      | WFn item => Some (set_worker s i (WLock (MkItem (order item) (fn (data item)))))
      | WLock item => match mu s with Some _ => None | None => Some (set_worker (set_heap (set_mu s (Some i)) (heap_Push Less item (outHeap s))) i WLoop) end
      | WLoop =>
          if Peek_order (outHeap s) =? outCount s then
            match heap_Pop Less (outHeap s) with
            | Some (top, q) => Some (set_worker (set_heap s q) i (WSend top))
            | None => Some (set_out s (outCount s) (out s) (outClosed s) true)
            end
          else Some (set_worker (set_mu s None) i WRecv)
      | WSend top => Some (set_worker (set_out s (outCount s) (out s ++ [data top]) (outClosed s) (panicked s || outClosed s)) i WCount)
      | WCount => Some (set_worker (set_out s (u64 (outCount s + 1)) (out s) (outClosed s) (panicked s)) i WLoop)
      | WExit => match mu s with Some _ => None | None => Some (set_worker (set_mu s (Some i)) i WClose) end
      | WClose =>
          let s := if outCount s =? inCount s then set_out s (u64 (outCount s + 1)) (out s) true (panicked s || outClosed s) else s in
          Some (set_worker (set_mu s None) i WDone)
      | WDone => None
      end
  end.

Inductive thread : Type := Sender | Worker (i : nat).
Definition step (t : thread) (s : pool) : option pool := match t with Sender => sender_step s | Worker i => worker_step i s end.
Fixpoint run (schedule : list thread) (s : pool) : option pool :=
  match schedule with [] => Some s | t :: ts => match step t s with Some s' => run ts s' | None => None end end.

(** ** The measure *)

Definition sender_weight (p : sender) : nat := match p with SRecv => 1 | SSend _ => 9 | SCount => 2 | SDone => 0 end.
Definition worker_weight (p : worker) : nat :=
  match p with WRecv => 3 | WFn _ => 9 | WLock _ => 8 | WLoop => 4 | WSend _ => 6 | WCount => 5 | WExit => 2 | WClose => 1 | WDone => 0 end.
Definition weight (s : pool) : nat := 10 * length (input s) + sender_weight (snd_ s) + sum_list_with worker_weight (workers s) + 3 * length (outHeap s).

(** ** The invariant *)

Section invariant.
Context (xs : list A) (Hlen : Zlength xs + 1 < 2 ^ 64).
#[local] Abbreviation N := (length xs).

Definition orders (items : workQueue) : list Z := map order items.
(** The orders of the items of a worker. *)
Definition held (p : worker) : list Z := match p with WFn item => [order item] | WLock item | WSend item => [order item] | _ => [] end.
Definition critical (p : worker) : bool := match p with WLoop | WSend _ | WCount | WClose => true | _ => false end.
Definition emitting (p : worker) : bool := match p with WLoop | WSend _ | WCount => true | _ => false end.
Definition leaving (p : worker) : bool := match p with WExit | WClose | WDone => true | _ => false end.

Definition result_ok (item : workItem B) : Prop := exists x, xs !! Z.to_nat (order item) = Some x /\ data item = fn x.
(** The number of items that have been handed to workers, with [k] values received. *)
Definition handed (s : pool) (k : nat) : nat := match snd_ s with SSend _ => k - 1 | _ => k end.
Definition sender_ok (s : pool) (k : nat) : Prop :=
  match snd_ s with
  | SRecv => inCount s = Z.of_nat k
  | SSend item => (0 < k)%nat /\ inCount s = Z.of_nat (k - 1) /\ order item = Z.of_nat (k - 1) /\ xs !! (k - 1)%nat = Some (data item)
  | SCount => (0 < k)%nat /\ inCount s = Z.of_nat (k - 1)
  | SDone => inCount s = Z.of_nat k /\ k = N
  end.
Definition worker_ok (s : pool) (i : nat) (p : worker) : Prop :=
  (critical p = true <-> mu s = Some i) /\ (leaving p = true -> snd_ s = SDone) /\ (outClosed s = true -> emitting p = false) /\
  match p with
  | WFn item => xs !! Z.to_nat (order item) = Some (data item)
  | WLock item => result_ok item
  | WLoop => outCount s = Zlength (out s) /\ (outHeap s <> [] \/ 0 < outCount s)
  | WSend item => result_ok item /\ order item = outCount s /\ outCount s = Zlength (out s)
  | WCount => 0 <= outCount s /\ outCount s + 1 = Zlength (out s)
  | _ => True
  end.
Definition first (n : nat) : list Z := map Z.of_nat (seq 0 n).
#[local] Arguments first : simpl never.
Record pool_ok (s : pool) (k : nat) : Prop := MkPoolOk {
  po_input : input s = drop k xs /\ (k <= N)%nat;
  po_sender : sender_ok s k;
  po_perm : flat_map held (workers s) ++ orders (outHeap s) ++ first (length (out s)) ≡ₚ first (handed s k);
  po_heap : is_heap Less (outHeap s) /\ Forall result_ok (outHeap s);
  po_out : out s `prefix_of` map fn xs;
  po_count : outClosed s = false -> (forall i p, workers s !! i = Some p -> emitting p = false) -> outCount s = Zlength (out s);
  po_settled : (forall i p, workers s !! i = Some p -> emitting p = false) -> Zlength (out s) ∉ orders (outHeap s);
  po_closed : outClosed s = true -> snd_ s = SDone /\ length (out s) = N /\ outCount s = Zlength xs + 1;
  po_last : outClosed s = false -> snd_ s = SDone -> length (out s) = N -> exists i p, workers s !! i = Some p /\ p <> WDone;
  po_workers : forall i p, workers s !! i = Some p -> worker_ok s i p;
  po_mu : forall i, mu s = Some i -> is_Some (workers s !! i);
  po_some : workers s <> [];
  po_panic : panicked s = false
}.

(** ** Lists of workers *)

Lemma held_insert ws i p q : ws !! i = Some p -> flat_map held (<[i := q]> ws) ++ held p ≡ₚ flat_map held ws ++ held q.
Proof.
  intros Hi. rewrite <- (take_drop_middle ws i p Hi) at 2. rewrite (insert_take_drop _ _ q (lookup_lt_Some _ _ _ Hi)), !flat_map_app. cbn [flat_map].
  rewrite <- !app_assoc. apply Permutation_app_head. rewrite (Permutation_app_comm (held q)), (Permutation_app_comm (held p) (_ ++ held q)), <- !app_assoc. apply Permutation_app_head. apply Permutation_app_comm.
Qed.
Lemma held_same ws i p q : ws !! i = Some p -> held q = held p -> flat_map held (<[i := q]> ws) = flat_map held ws.
Proof.
  intros Hi Hh. rewrite <- (take_drop_middle ws i p Hi) at 2. rewrite (insert_take_drop _ _ q (lookup_lt_Some _ _ _ Hi)), !flat_map_app. cbn [flat_map]. by rewrite Hh.
Qed.
Lemma weight_insert ws i p q : ws !! i = Some p -> (sum_list_with worker_weight (<[i := q]> ws) + worker_weight p = sum_list_with worker_weight ws + worker_weight q)%nat.
Proof.
  intros Hi. rewrite <- (take_drop_middle ws i p Hi) at 2. rewrite (insert_take_drop _ _ q (lookup_lt_Some _ _ _ Hi)), !sum_list_with_app. cbn [sum_list_with]. lia.
Qed.
Lemma all_set (ws : list worker) i q (P : nat -> worker -> Prop) : (forall j p, j <> i -> ws !! j = Some p -> P j p) -> P i q -> forall j p, <[i := q]> ws !! j = Some p -> P j p.
Proof. intros Ho Hi j p [(<- & -> & _)|(Hne & Hj)]%list_lookup_insert_Some; [done|]. by apply Ho. Qed.

Lemma worker_other s s' i j p : j <> i -> worker_ok s j p -> mu s = None \/ mu s = Some i -> mu s' = None \/ mu s' = Some i -> (snd_ s = SDone -> snd_ s' = SDone) -> worker_ok s' j p.
Proof.
  intros Hne (Hc & Hl & _ & Hp) Hm Hm' Hs. assert (critical p = false) as Hcr by (destruct (critical p); [|done]; destruct Hc as [Hc _]; specialize (Hc eq_refl); destruct Hm; congruence).
  unfold worker_ok. rewrite Hcr. split_and!; [split; [done|destruct Hm'; congruence]|auto|by destruct p|by destruct p].
Qed.
Lemma worker_same s s' j p : worker_ok s j p -> mu s' = mu s -> outHeap s' = outHeap s -> outCount s' = outCount s -> out s' = out s -> outClosed s' = outClosed s -> (snd_ s = SDone -> snd_ s' = SDone) -> worker_ok s' j p.
Proof. unfold worker_ok. intros (Hc & Hl & He & Hp) -> -> -> -> -> Hs. split_and!; auto. Qed.

(** ** Steps *)

Lemma drop_cons_inv {X} (l : list X) k x rest : drop k l = x :: rest -> l !! k = Some x /\ drop (S k) l = rest /\ (S k <= length l)%nat.
Proof.
  intros Hd. assert (l !! k = Some x) as Hk by (rewrite <- (Nat.add_0_r k), <- lookup_drop, Hd; done). split; [done|]. rewrite (drop_S _ _ _ Hk) in Hd. injection Hd as ->. split; [done|]. by apply lookup_lt_Some in Hk.
Qed.
Lemma sender_preserves s k s' : pool_ok s k -> sender_step s = Some s' -> exists k', pool_ok s' k'.
Proof.
  intros [[Hin Hk] Hsnd Hperm Hheap Hout Hcount Hset Hcl Hlast Hws Hmu Hsome Hpan] Hst. unfold sender_step in Hst. unfold sender_ok, handed in *. destruct (snd_ s) as [|item| |] eqn:Es; try done.
  - assert (outClosed s = false) as Hopen by (destruct (outClosed s); [by destruct (Hcl eq_refl)|done]). destruct (input s) as [|x rest] eqn:Ei; injection Hst as <-.
    + assert (k = N) as -> by (apply (f_equal length) in Hin; rewrite length_drop in Hin; cbn in Hin; lia). exists N. split; unfold sender_ok, handed; cbn; try done.
      * by rewrite Hopen.
      * intros _ _ _. destruct (workers s) as [|p ws] eqn:Ew; [done|]. exists 0%nat, p. split; [done|]. intros ->. destruct (Hws 0%nat WDone eq_refl) as (_ & Hl & _). by rewrite Es in Hl; specialize (Hl eq_refl).
      * intros i p Hi. by apply (worker_same s); [apply Hws| | | | | |].
    + symmetry in Hin. destruct (drop_cons_inv _ _ _ _ Hin) as (Hx & Hrest & Hk1). exists (S k). split; unfold sender_ok, handed; cbn; rewrite ?Nat.sub_0_r; try done.
      * split; [lia|]. done.
      * by rewrite Hopen.
      * intros i p Hi. apply (worker_same s); try done; [by apply Hws|by rewrite Es].
  - injection Hst as <-. assert (outClosed s = false) as Hopen by (destruct (outClosed s); [by destruct (Hcl eq_refl)|done]). exists k. split; unfold sender_ok, handed; cbn; try done.
    + destruct Hsnd as [Hk0 ->]. unfold Zlength in Hlen. rewrite u64_small; lia.
    + by rewrite Hopen.
    + intros i p Hi. apply (worker_same s); try done; [by apply Hws|by rewrite Es].
Qed.

Lemma none_emits (ws : list worker) i p q : ws !! i = Some p -> emitting p = false -> (forall j r, <[i := q]> ws !! j = Some r -> emitting r = false) -> forall j r, ws !! j = Some r -> emitting r = false.
Proof.
  intros Hi Hp Hall j r Hj. destruct (decide (i = j)) as [<-|Hne]; [congruence|]. apply (Hall j). by rewrite list_lookup_insert_ne.
Qed.
Lemma some_emits (ws : list worker) i p q : ws !! i = Some p -> emitting q = true -> ~ (forall j r, <[i := q]> ws !! j = Some r -> emitting r = false).
Proof. intros Hi Hq Hall. specialize (Hall i q). rewrite list_lookup_insert_eq in Hall by (by apply lookup_lt_Some in Hi). specialize (Hall eq_refl). congruence. Qed.
Lemma mu_insert (ws : list worker) i (q : worker) (o : option nat) : (forall j, o = Some j -> is_Some (ws !! j)) -> forall j, o = Some j -> is_Some (<[i := q]> ws !! j).
Proof. intros Ho j Hj. apply lookup_lt_is_Some_2. rewrite length_insert. by apply lookup_lt_is_Some_1, Ho. Qed.
Lemma insert_some (ws : list worker) i (q : worker) : ws <> [] -> <[i := q]> ws <> [].
Proof. intros Hne Hn. apply (f_equal length) in Hn. rewrite length_insert in Hn. by destruct ws. Qed.
(** Somebody is left when worker [i] goes on to [q]. *)
Lemma last_insert (ws : list worker) i p q : ws !! i = Some p -> q <> WDone -> exists j r, <[i := q]> ws !! j = Some r /\ r <> WDone.
Proof. intros Hi Hq. exists i, q. split; [|done]. apply list_lookup_insert_eq. by apply lookup_lt_Some in Hi. Qed.

(** Outside the critical sections. *)
Lemma quiet_preserves s k i p q snd' : pool_ok s k -> workers s !! i = Some p -> critical p = false -> critical q = false -> q <> WDone -> (leaving q = true -> snd' = SDone) ->
  (snd_ s = SDone -> snd' = SDone) -> (snd' = SDone -> snd_ s = SDone) -> match q with WFn item => xs !! Z.to_nat (order item) = Some (data item) | WLock item => result_ok item | _ => True end ->
  let s' := set_worker (set_sender s (input s) (inCount s) snd') i q in sender_ok s' k -> flat_map held (workers s') ++ orders (outHeap s) ++ first (length (out s)) ≡ₚ first (handed s' k) -> pool_ok s' k.
Proof.
  intros [[Hin Hk] Hsnd Hperm Hheap Hout Hcount Hset Hcl Hlast Hws Hmu Hsome Hpan] Hi Hp Hq Hnd Hlv Hs1 Hs2 Hdata s' Hsnd' Hperm'.
  assert (emitting p = false /\ emitting q = false) as [Hep Heq] by (by destruct p, q). split; try done; cbn.
  - intros Ho Hall. apply Hcount; [done|]. by eapply none_emits.
  - intros Hall. apply Hset. by eapply none_emits.
  - intros Hc. destruct (Hcl Hc) as (? & ?). auto.
  - intros _ _ _. by eapply last_insert.
  - apply all_set; [intros j r Hne Hj; apply (worker_same s); try done; by apply Hws|]. destruct (Hws i p Hi) as (Hc & _). rewrite Hp in Hc. unfold worker_ok. cbn. rewrite Hq. split_and!; [done|done|by destruct q|by destruct q].
  - by apply mu_insert.
  - by apply insert_some.
Qed.
Lemma first_S n : first (S n) = first n ++ [Z.of_nat n].
Proof. unfold first. by rewrite seq_S, map_app. Qed.
Lemma recv_preserves s k i item : pool_ok s k -> workers s !! i = Some WRecv -> snd_ s = SSend item -> pool_ok (set_worker (set_sender s (input s) (inCount s) SCount) i (WFn item)) k.
Proof.
  intros Hok Hi Es. pose proof (po_sender _ _ Hok) as Hsnd. unfold sender_ok in Hsnd. rewrite Es in Hsnd. destruct Hsnd as (Hk0 & Hn & Ho & Hx).
  apply (quiet_preserves s k i WRecv (WFn item) SCount Hok Hi); try done; [by rewrite Es|by rewrite Ho, Nat2Z.id|].
  pose proof (po_perm _ _ Hok) as Hperm. unfold handed in Hperm. rewrite Es in Hperm. change (handed _ k) with k. assert (first k = first (k - 1) ++ [order item]) as -> by (rewrite Ho, <- first_S; f_equal; lia).
  pose proof (held_insert _ _ _ (WFn item) Hi) as Hh. cbn [held] in Hh. rewrite app_nil_r in Hh. cbn [workers set_worker set_sender]. rewrite <- Hperm, Hh, <- (app_assoc _ [order item]), (Permutation_app_comm [order item]), !app_assoc. done.
Qed.

(** ** Critical sections *)

Lemma first_elem n z : z ∈ first n <-> 0 <= z < Z.of_nat n.
Proof. unfold first. rewrite list_elem_of_In, in_map_iff. split; [intros (m & <- & Hm%in_seq); lia|]. intros Hz. exists (Z.to_nat z). rewrite in_seq. lia. Qed.
Lemma first_NoDup n : NoDup (first n).
Proof. unfold first. apply (NoDup_fmap_2 Z.of_nat), NoDup_ListNoDup, seq_NoDup. Qed.
Lemma first_length n : length (first n) = n.
Proof. unfold first. by rewrite length_map, length_seq. Qed.
Lemma handed_le s k : pool_ok s k -> (handed s k <= N)%nat.
Proof. intros Hok. destruct (po_input _ _ Hok) as [_ Hk]. unfold handed. destruct (snd_ s); lia. Qed.
Lemma pending_fresh s k z : pool_ok s k -> z ∈ flat_map held (workers s) \/ z ∈ orders (outHeap s) -> Zlength (out s) <= z < Z.of_nat N.
Proof.
  intros Hok Hz. pose proof (first_NoDup (handed s k)) as Hnd. pose proof (po_perm _ _ Hok) as Hperm. rewrite <- Hperm, app_assoc in Hnd. apply NoDup_app in Hnd as (_ & Hdis & _).
  assert (z ∈ flat_map held (workers s) ++ orders (outHeap s)) as Hin by (apply elem_of_app; tauto). assert (z ∈ first (handed s k)) as Hf by (rewrite <- Hperm, app_assoc; apply elem_of_app; by left).
  apply first_elem in Hf. specialize (Hdis z Hin). rewrite first_elem in Hdis. pose proof (handed_le s k Hok). unfold Zlength. lia.
Qed.
Lemma held_elem (ws : list worker) i p z : ws !! i = Some p -> z ∈ held p -> z ∈ flat_map held ws.
Proof. intros Hi Hz. apply list_elem_of_In, in_flat_map. exists p. split; [apply list_elem_of_In; by eapply list_elem_of_lookup_2|by apply list_elem_of_In]. Qed.
Lemma out_length s k : pool_ok s k -> Zlength (out s) <= Zlength xs.
Proof. intros Hok. pose proof (prefix_length _ _ (po_out _ _ Hok)) as Hl. rewrite length_map in Hl. unfold Zlength. lia. Qed.
(** With results pending, [out] is open. *)
Lemma pending_open s k z : pool_ok s k -> z ∈ flat_map held (workers s) \/ z ∈ orders (outHeap s) -> outClosed s = false.
Proof. intros Hok Hz%(pending_fresh s k); [|done]. destruct (outClosed s) eqn:Hc; [|done]. destruct (po_closed _ _ Hok Hc) as (_ & Hn & _). unfold Zlength in Hz. lia. Qed.
Lemma unlocked_quiet s k : pool_ok s k -> mu s = None -> forall i p, workers s !! i = Some p -> emitting p = false.
Proof. intros Hok Hm i p Hi. destruct (po_workers _ _ Hok i p Hi) as ([Hc _] & _). destruct p; try done; specialize (Hc eq_refl); congruence. Qed.
Lemma holder s k i p : pool_ok s k -> workers s !! i = Some p -> critical p = true -> mu s = Some i.
Proof. intros Hok Hi Hc. destruct (po_workers _ _ Hok i p Hi) as ([Hm _] & _). auto. Qed.

Lemma lock_preserves s k i item : pool_ok s k -> workers s !! i = Some (WLock item) -> mu s = None -> pool_ok (set_worker (set_heap (set_mu s (Some i)) (heap_Push Less item (outHeap s))) i WLoop) k.
Proof.
  intros Hok Hi Hm. assert (outClosed s = false) as Hopen by (apply (pending_open s k (order item) Hok); left; eapply held_elem; [exact Hi|by left]).
  pose proof (po_workers _ _ Hok i _ Hi) as (_ & _ & _ & Hitem). pose proof (po_count _ _ Hok Hopen (unlocked_quiet _ _ Hok Hm)) as Hn. destruct Hok as [Hin Hsnd Hperm [Hheap Hres] Hout Hcount Hset Hcl Hlast Hws Hmu Hsome Hpan].
  destruct (heap_push Less item (outHeap s) Hheap) as [Hpush Hheap']. split; try done; cbn.
  - pose proof (held_insert _ _ _ WLoop Hi) as Hh. cbn [held] in Hh. rewrite app_nil_r in Hh. unfold handed in *. cbn. rewrite <- Hperm, <- Hh. unfold orders. rewrite Hpush. cbn [map]. rewrite <- !app_assoc. done.
  - split; [done|]. rewrite Hpush. by constructor.
  - intros Hall. by destruct (some_emits _ _ _ WLoop Hi eq_refl Hall).
  - intros _ _ _. by eapply last_insert.
  - apply all_set; [intros j r Hne Hj; apply (worker_other s _ i); try done; [by apply Hws|by left|by right]|]. unfold worker_ok. cbn. rewrite Hopen. split_and!; try done. left. intros Hnil. rewrite Hnil in Hpush. by apply Permutation_nil_cons in Hpush.
  - apply mu_insert. by intros j [= <-].
  - by apply insert_some.
Qed.

Lemma exit_preserves s k i : pool_ok s k -> workers s !! i = Some WExit -> mu s = None -> pool_ok (set_worker (set_mu s (Some i)) i WClose) k.
Proof.
  intros [Hin Hsnd Hperm Hheap Hout Hcount Hset Hcl Hlast Hws Hmu Hsome Hpan] Hi Hm. pose proof (Hws i _ Hi) as (_ & Hl & _). split; try done; cbn.
  - by rewrite (held_same _ _ _ WClose Hi).
  - intros Ho Hall. apply Hcount; [done|]. by eapply none_emits.
  - intros Hall. apply Hset. by eapply none_emits.
  - intros _ _ _. by eapply last_insert.
  - apply all_set; [intros j r Hne Hj; apply (worker_other s _ i); try done; [by apply Hws|by left|by right]|]. unfold worker_ok. cbn. by split_and!; auto.
  - apply mu_insert. by intros j [= <-].
  - by apply insert_some.
Qed.
Lemma pop_preserves s k i x l : pool_ok s k -> workers s !! i = Some WLoop -> outHeap s = x :: l -> order x = outCount s ->
  exists q, heap_Pop Less (outHeap s) = Some (x, q) /\ pool_ok (set_worker (set_heap s q) i (WSend x)) k.
Proof.
  intros Hok Hi Hx Hord. pose proof (holder _ _ _ _ Hok Hi eq_refl) as Hm. pose proof (po_workers _ _ Hok i _ Hi) as (Hc & _ & Hcls & Hn & _). destruct Hok as [Hin Hsnd Hperm [Hheap Hres] Hout Hcount Hset Hcl Hlast Hws Hmu Hsome Hpan].
  rewrite Hx in Hheap, Hres. apply Forall_cons in Hres as [Hres1 Hres]. destruct (heap_pop Less x l Hheap) as (q & Hpop & Hq & Hheap'). exists q. rewrite Hx. split; [done|]. split; try done; cbn.
  - pose proof (held_insert _ _ _ (WSend x) Hi) as Hh. cbn [held] in Hh. rewrite app_nil_r in Hh. unfold handed in *. cbn. rewrite <- Hperm, Hh, Hx. unfold orders. rewrite Hq. cbn [map]. rewrite <- !app_assoc. done.
  - split; [done|]. by rewrite Hq.
  - intros Hall. by destruct (some_emits _ _ _ (WSend x) Hi eq_refl Hall).
  - intros _ _ _. by eapply last_insert.
  - apply all_set; [intros j r Hne Hj; apply (worker_other s _ i); try done; [by apply Hws|by right|by right]|]. unfold worker_ok. cbn. rewrite Hm. by split_and!.
  - by apply mu_insert.
  - by apply insert_some.
Qed.
Lemma unlock_preserves s k i : pool_ok s k -> workers s !! i = Some WLoop -> Peek_order (outHeap s) <> outCount s -> pool_ok (set_worker (set_mu s None) i WRecv) k.
Proof.
  intros Hok Hi Hpk. pose proof (holder _ _ _ _ Hok Hi eq_refl) as Hm. pose proof (po_workers _ _ Hok i _ Hi) as (_ & _ & _ & Hn & _). assert (Zlength (out s) ∉ orders (outHeap s)) as Hfresh.
  { destruct (outHeap s) as [|x l] eqn:Hx; [by intros ?%elem_of_nil|]. cbn [Peek_order] in Hpk. assert (Zlength (out s) <= order x) as Hle.
    { apply (pending_fresh s k); [done|]. right. rewrite Hx. left. }
    intros Hin. apply list_elem_of_In, in_map_iff in Hin as (y & Hy & [<-|Hin%list_elem_of_In]); [lia|]. pose proof (po_heap _ _ Hok) as [Hheap _]. rewrite Hx in Hheap. pose proof (heap_min Less order x l y ltac:(done) Hheap Hin). lia. }
  destruct Hok as [Hin Hsnd Hperm Hheap Hout Hcount Hset Hcl Hlast Hws Hmu Hsome Hpan]. split; try done; cbn.
  - by rewrite (held_same _ _ _ WRecv Hi).
  - intros _ _ _. by eapply last_insert.
  - apply all_set; [intros j r Hne Hj; apply (worker_other s _ i); try done; [by apply Hws|by right|by left]|]. unfold worker_ok. cbn. by split_and!.
  - by apply insert_some.
Qed.
Lemma prefix_next (os bs : list B) b : os `prefix_of` bs -> bs !! length os = Some b -> (os ++ [b]) `prefix_of` bs.
Proof. intros [k ->] Hb. rewrite lookup_app_r, Nat.sub_diag in Hb by lia. destruct k as [|c k]; [done|]. injection Hb as ->. exists k. by rewrite <- app_assoc. Qed.
Lemma send_preserves s k i top : pool_ok s k -> workers s !! i = Some (WSend top) -> pool_ok (set_worker (set_out s (outCount s) (out s ++ [data top]) (outClosed s) (panicked s || outClosed s)) i WCount) k.
Proof.
  intros Hok Hi. pose proof (holder _ _ _ _ Hok Hi eq_refl) as Hm. assert (outClosed s = false) as Hopen by (apply (pending_open s k (order top) Hok); left; eapply held_elem; [exact Hi|by left]).
  pose proof (po_workers _ _ Hok i _ Hi) as (_ & _ & _ & (x & Hx & Hd) & Hord & Hn). destruct Hok as [Hin Hsnd Hperm Hheap Hout Hcount Hset Hcl Hlast Hws Hmu Hsome Hpan]. unfold Zlength in Hn. split; try done; cbn.
  - pose proof (held_insert _ _ _ WCount Hi) as Hh. cbn [held] in Hh. rewrite app_nil_r in Hh. unfold handed in *. cbn. assert (first (length (out s ++ [data top])) = first (length (out s)) ++ [order top]) as -> by (rewrite Hord, Hn, <- first_S, length_app; f_equal; cbn; lia).
    rewrite <- Hperm, <- Hh, <- !app_assoc. apply Permutation_app_head. rewrite app_assoc, (Permutation_app_comm _ [_]). done.
  - apply prefix_next; [done|]. rewrite list_lookup_fmap. rewrite Hord, Hn, Nat2Z.id in Hx. by rewrite Hx, Hd.
  - intros _ Hall. by destruct (some_emits _ _ _ WCount Hi eq_refl Hall).
  - intros Hall. by destruct (some_emits _ _ _ WCount Hi eq_refl Hall).
  - by rewrite Hopen.
  - intros _ _ _. by eapply last_insert.
  - apply all_set; [intros j r Hne Hj; apply (worker_other s _ i); try done; [by apply Hws|by right|by right]|]. unfold worker_ok. cbn. rewrite Hm, Hopen. split_and!; try done; [lia|]. rewrite Zlength_app. unfold Zlength. cbn [length]. lia.
  - by apply mu_insert.
  - by apply insert_some.
  - by rewrite Hpan, Hopen.
Qed.

Lemma count_preserves s k i : pool_ok s k -> workers s !! i = Some WCount -> pool_ok (set_worker (set_out s (u64 (outCount s + 1)) (out s) (outClosed s) (panicked s)) i WLoop) k.
Proof.
  intros Hok Hi. pose proof (holder _ _ _ _ Hok Hi eq_refl) as Hm. pose proof (out_length _ _ Hok) as Hol. pose proof (po_workers _ _ Hok i _ Hi) as (_ & _ & Hcls & Hn0 & Hn).
  assert (outClosed s = false) as Hopen by (destruct (outClosed s); [by specialize (Hcls eq_refl)|done]). assert (u64 (outCount s + 1) = Zlength (out s)) as Hu by (rewrite Hn, u64_small; [done|]; pose proof (Zlength_nonneg (out s)); lia).
  destruct Hok as [Hin Hsnd Hperm Hheap Hout Hcount Hset Hcl Hlast Hws Hmu Hsome Hpan]. split; try done; cbn [set_worker set_out input inCount snd_ workers mu outHeap outCount out outClosed panicked].
  - by rewrite (held_same _ _ _ WLoop Hi).
  - intros Hall. by destruct (some_emits _ _ _ WLoop Hi eq_refl Hall).
  - by rewrite Hopen.
  - intros _ _ _. by eapply last_insert.
  - apply all_set; [intros j r Hne Hj; apply (worker_other s _ i); try done; [by apply Hws|by right|by right]|]. unfold worker_ok. cbn [set_worker set_out snd_ mu outHeap outCount out outClosed]. rewrite Hm, Hopen, Hu. split_and!; try done. right. lia.
  - by apply mu_insert.
  - by apply insert_some.
Qed.
Lemma close_preserves s k i : pool_ok s k -> workers s !! i = Some WClose ->
  pool_ok (set_worker (set_mu (if outCount s =? inCount s then set_out s (u64 (outCount s + 1)) (out s) true (panicked s || outClosed s) else s) None) i WDone) k.
Proof.
  intros Hok Hi. pose proof (holder _ _ _ _ Hok Hi eq_refl) as Hm. pose proof (out_length _ _ Hok) as Hol. pose proof (po_workers _ _ Hok i _ Hi) as (_ & Hlv & _). specialize (Hlv eq_refl).
  assert (forall j r, workers s !! j = Some r -> emitting r = false) as Hquiet.
  { intros j r Hj. destruct (decide (j = i)) as [->|Hne]; [by rewrite Hi in Hj; injection Hj as <-|]. destruct (po_workers _ _ Hok j r Hj) as ([Hc _] & _). destruct r; try done; specialize (Hc eq_refl); congruence. }
  destruct Hok as [Hin Hsnd Hperm Hheap Hout Hcount Hset Hcl Hlast Hws Hmu Hsome Hpan]. pose proof Hsnd as Hs. unfold sender_ok in Hs. rewrite Hlv in Hs. destruct Hs as [Hinc ->].
  assert (forall s', workers s' = workers s -> mu s' = mu s -> snd_ s' = snd_ s -> forall j r, <[i := WDone]> (workers s) !! j = Some r -> worker_ok (set_worker (set_mu s' None) i WDone) j r) as Hws'.
  { intros s' Hw' Hm' Hs'. apply all_set; [intros j r Hne Hj; apply (worker_other s _ i); try done; [by apply Hws|by right|by left|by rewrite Hlv; cbn; rewrite Hs'; congruence]|]. unfold worker_ok. cbn. rewrite Hs', Hlv. by split_and!. }
  destruct (Z.eqb_spec (outCount s) (inCount s)) as [Heq|Hne].
  - assert (outClosed s = false) as Hopen by (destruct (outClosed s); [destruct (Hcl eq_refl) as (_ & _ & ?); unfold Zlength in *; lia|done]). specialize (Hcount Hopen Hquiet). unfold Zlength in Hcount.
    assert (u64 (outCount s + 1) = Zlength xs + 1) as Hu by (unfold Zlength in *; rewrite u64_small; lia). split; try done; cbn [set_worker set_mu set_out input inCount snd_ workers mu outHeap outCount out outClosed panicked].
    + by rewrite (held_same _ _ _ WDone Hi).
    + intros Hall. by apply Hset.
    + intros _. split_and!; [done|lia|done].
    + by apply (Hws' (set_out s _ _ _ _)).
    + by apply insert_some.
    + by rewrite Hpan, Hopen.
  - split; try done; cbn [set_worker set_mu set_out input inCount snd_ workers mu outHeap outCount out outClosed panicked].
    + by rewrite (held_same _ _ _ WDone Hi).
    + intros Hopen _. by apply Hcount.
    + intros Hall. by apply Hset.
    + intros Hopen _ Hn. specialize (Hcount Hopen Hquiet). unfold Zlength in Hcount. lia.
    + by apply Hws'.
    + by apply insert_some.
Qed.

Lemma step_preserves t s k s' : pool_ok s k -> step t s = Some s' -> exists k', pool_ok s' k'.
Proof.
  intros Hok Hst. destruct t as [|i]; cbn [step] in Hst; [by eapply sender_preserves|]. unfold worker_step in Hst. destruct (workers s !! i) as [p|] eqn:Hi; [|done]. pose proof (po_workers _ _ Hok i p Hi) as Hp. destruct p as [|item|item| |top| | | |]; try done.
  - destruct (snd_ s) as [|item| |] eqn:Es; try done; injection Hst as <-; exists k; [by apply recv_preserves|].
    replace s with (set_sender s (input s) (inCount s) SDone) at 1 by (rewrite <- Es; by destruct s). apply (quiet_preserves s k i WRecv WExit SDone Hok Hi); try done; pose proof (po_sender _ _ Hok) as Hsnd; unfold sender_ok, handed in *; cbn; rewrite Es in Hsnd; [done|].
    pose proof (po_perm _ _ Hok) as Hperm. unfold handed in Hperm. rewrite Es in Hperm. by rewrite (held_same _ _ _ WExit Hi).
  - injection Hst as <-. exists k. set (it := MkItem (order item) (fn (data item))). replace s with (set_sender s (input s) (inCount s) (snd_ s)) at 1 by (by destruct s). apply (quiet_preserves s k i (WFn item) (WLock it) (snd_ s) Hok Hi); try done.
    + destruct Hp as (_ & _ & _ & Hx). by exists (data item).
    + apply (po_sender _ _ Hok).
    + cbn. rewrite (held_same _ _ _ (WLock it) Hi) by done. apply (po_perm _ _ Hok).
  - destruct (mu s) eqn:Hm; [done|]. injection Hst as <-. exists k. by apply lock_preserves.
  - destruct (Z.eqb_spec (Peek_order (outHeap s)) (outCount s)) as [Heq|Hne]; [|injection Hst as <-; exists k; by apply unlock_preserves].
    destruct Hp as (_ & _ & _ & _ & Hne). destruct (outHeap s) as [|x l] eqn:Hx; [cbn in Heq; destruct Hne; [done|lia]|]. destruct (pop_preserves s k i x l Hok Hi Hx Heq) as (q & Hpop & Hok'). rewrite <- Hx, Hpop in Hst. injection Hst as <-. by exists k.
  - injection Hst as <-. exists k. by apply send_preserves.
  - injection Hst as <-. exists k. by apply count_preserves.
  - destruct (mu s) eqn:Hm; [done|]. injection Hst as <-. exists k. by apply exit_preserves.
  - injection Hst as <-. exists k. by apply close_preserves.
Qed.

(** ** Termination *)

Lemma worker_weight_step s i p q xs' n snd' m h c os cl pa : workers s !! i = Some p ->
  (10 * length xs' + sender_weight snd' + worker_weight q + 3 * length h < 10 * length (input s) + sender_weight (snd_ s) + worker_weight p + 3 * length (outHeap s))%nat ->
  (weight (MkPool xs' n snd' (<[i := q]> (workers s)) m h c os cl pa) < weight s)%nat.
Proof. intros Hi Hlt. unfold weight. cbn [input snd_ workers outHeap]. pose proof (weight_insert _ _ _ q Hi). lia. Qed.
Lemma step_weight t s k s' : pool_ok s k -> step t s = Some s' -> (weight s' < weight s)%nat.
Proof.
  intros Hok Hst. destruct t as [|i]; cbn [step] in Hst.
  - unfold sender_step in Hst. destruct (snd_ s) eqn:Es; try done; [destruct (input s) eqn:Ei|]; injection Hst as <-; unfold weight; cbn [set_sender input snd_ workers outHeap]; rewrite Es, ?Ei; cbn [length sender_weight]; lia.
  - unfold worker_step in Hst. destruct (workers s !! i) as [p|] eqn:Hi; [|done]. destruct p as [|item|item| |top| | | |]; try done.
    + destruct (snd_ s) eqn:Es; try done; injection Hst as <-; apply (worker_weight_step s i _ _ _ _ _ _ _ _ _ _ _ Hi); rewrite Es; cbn; lia.
    + injection Hst as <-. apply (worker_weight_step s i _ _ _ _ _ _ _ _ _ _ _ Hi). cbn. lia.
    + destruct (mu s); [done|]. injection Hst as <-. apply (worker_weight_step s i _ _ _ _ _ _ _ _ _ _ _ Hi). cbn [worker_weight set_mu set_heap input snd_ outHeap].
      destruct (heap_push Less item (outHeap s) (proj1 (po_heap _ _ Hok))) as [Hp _]. rewrite (Permutation_length Hp). cbn [length]. lia.
    + destruct (Z.eqb_spec (Peek_order (outHeap s)) (outCount s)) as [Heq|Hne]; [|injection Hst as <-; apply (worker_weight_step s i _ _ _ _ _ _ _ _ _ _ _ Hi); cbn; lia].
      destruct (po_workers _ _ Hok i _ Hi) as (_ & _ & _ & _ & Hne). destruct (outHeap s) as [|x l] eqn:Hx; [cbn in Heq; destruct Hne; [done|lia]|]. pose proof (proj1 (po_heap _ _ Hok)) as Hheap. rewrite Hx in Hheap.
      destruct (heap_pop Less x l Hheap) as (q & Hpop & Hq & _). rewrite Hpop in Hst. injection Hst as <-. apply (worker_weight_step s i _ _ _ _ _ _ _ _ _ _ _ Hi). cbn [worker_weight set_heap input snd_ outHeap]. rewrite Hx, (Permutation_length Hq). cbn [length]. lia.
    + injection Hst as <-. apply (worker_weight_step s i _ _ _ _ _ _ _ _ _ _ _ Hi). cbn. lia.
    + injection Hst as <-. apply (worker_weight_step s i _ _ _ _ _ _ _ _ _ _ _ Hi). cbn. lia.
    + destruct (mu s); [done|]. injection Hst as <-. apply (worker_weight_step s i _ _ _ _ _ _ _ _ _ _ _ Hi). cbn. lia.
    + injection Hst as <-. destruct (outCount s =? inCount s); apply (worker_weight_step s i _ _ _ _ _ _ _ _ _ _ _ Hi); cbn; lia.
Qed.

(** ** No deadlock *)

(** A worker that cannot go on waits for a value, for the lock, or is finished. *)
Lemma blocked s k i p : pool_ok s k -> workers s !! i = Some p -> step (Worker i) s = None -> mu s = None -> p = WDone \/ (p = WRecv /\ (snd_ s = SRecv \/ snd_ s = SCount)).
Proof.
  intros Hok Hi Hst Hm. cbn [step] in Hst. unfold worker_step in Hst. rewrite Hi, Hm in Hst. destruct p as [|item|item| |top| | | |]; try done; [|by rewrite (holder _ _ _ _ Hok Hi eq_refl) in Hm|by left].
  right. split; [done|]. destruct (snd_ s); [by left|done|by right|done].
Qed.
Lemma stuck_unlocked s k : pool_ok s k -> (forall t, step t s = None) -> mu s = None.
Proof.
  intros Hok Hst. destruct (mu s) as [i|] eqn:Hm; [|done]. destruct (po_mu _ _ Hok i Hm) as [p Hi]. destruct (po_workers _ _ Hok i p Hi) as ([_ Hc] & _). specialize (Hc Hm). specialize (Hst (Worker i)). cbn [step] in Hst. unfold worker_step in Hst. rewrite Hi in Hst.
  destruct p; try done. destruct (Peek_order _ =? _); [|done]. by destruct (heap_Pop _ _) as [[? ?]|].
Qed.
Lemma stuck_done s k : pool_ok s k -> (forall t, step t s = None) -> snd_ s = SDone /\ forall i p, workers s !! i = Some p -> p = WDone.
Proof.
  intros Hok Hst. pose proof (stuck_unlocked _ _ Hok Hst) as Hm. assert (snd_ s <> SRecv /\ snd_ s <> SCount) as [Hn1 Hn2].
  { pose proof (Hst Sender) as Hs. cbn [step] in Hs. unfold sender_step in Hs. by split; intros Es; rewrite Es in Hs; [destruct (input s)|]. }
  assert (forall i p, workers s !! i = Some p -> p = WDone) as Hall by (intros i p Hi; destruct (blocked s k i p Hok Hi (Hst (Worker i)) Hm) as [?|[_ [?|?]]]; done).
  split; [|done]. pose proof (po_some _ _ Hok) as Hsome. destruct (workers s) as [|p ws] eqn:Hw; [done|]. rewrite <- Hw in *. assert (workers s !! 0%nat = Some p) as H0 by by rewrite Hw.
  destruct (po_workers _ _ Hok 0%nat p H0) as (_ & Hl & _). rewrite (Hall 0%nat p H0) in Hl. auto.
Qed.
Lemma stuck_complete s k : pool_ok s k -> (forall t, step t s = None) -> out s = map fn xs /\ outClosed s = true.
Proof.
  intros Hok Hst. destruct (stuck_done _ _ Hok Hst) as [Hd Hall]. pose proof (stuck_unlocked _ _ Hok Hst) as Hm. pose proof (unlocked_quiet _ _ Hok Hm) as Hq.
  assert (flat_map held (workers s) = []) as Hheld.
  { clear -Hall. induction (workers s) as [|p ws IH]; [done|]. cbn [flat_map]. rewrite (Hall 0%nat p eq_refl), IH; [done|]. intros i q Hi. by apply (Hall (S i)). }
  pose proof (po_perm _ _ Hok) as Hperm. pose proof (po_sender _ _ Hok) as Hsnd. unfold sender_ok, handed in *. rewrite Hd in Hsnd, Hperm. destruct Hsnd as [_ ->]. rewrite Hheld in Hperm. cbn [app] in Hperm.
  assert (length (out s) = N) as Hn.
  { pose proof (prefix_length _ _ (po_out _ _ Hok)) as Hl. rewrite length_map in Hl. destruct (decide (length (out s) = N)) as [|Hne]; [done|]. exfalso. apply (po_settled _ _ Hok Hq).
    assert (Zlength (out s) ∈ first N) as Hin by (apply first_elem; unfold Zlength; lia). rewrite <- Hperm in Hin. apply elem_of_app in Hin as [Hin|Hin%first_elem]; [done|]. unfold Zlength in Hin. lia. }
  split.
  - pose proof (po_out _ _ Hok) as [r Hr]. assert (length r = 0%nat) as Hr0 by (apply (f_equal length) in Hr; rewrite length_app, length_map in Hr; lia). destruct r; [|done]. by rewrite app_nil_r in Hr.
  - destruct (outClosed s) eqn:Hc; [done|]. destruct (po_last _ _ Hok Hc Hd Hn) as (i & p & Hi & Hne). by apply Hall in Hi.
Qed.

Lemma new_ok parallelism : (0 < parallelism)%nat -> pool_ok (New xs parallelism) 0.
Proof.
  intros Hp. unfold New. split; cbn; try done.
  - split; [done|lia].
  - assert (forall n, flat_map held (replicate n WRecv) = []) as -> by (induction n; done). done.
  - split; [apply heap_nil|done].
  - apply prefix_nil.
  - intros _ Hin. by apply elem_of_nil in Hin.
  - intros i p [-> _]%lookup_replicate_1. unfold worker_ok. cbn. by split_and!.
  - destruct parallelism; [lia|done].
Qed.
Lemma run_ok schedule : forall s k s', pool_ok s k -> run schedule s = Some s' -> exists k', pool_ok s' k' /\ (length schedule + weight s' <= weight s)%nat.
Proof.
  induction schedule as [|t ts IH]; intros s k s' Hok; cbn [run length].
  - intros [= <-]. exists k. split; [done|lia].
  - destruct (step t s) as [s1|] eqn:Hst; [|done]. intros Hr. pose proof (step_weight _ _ _ _ Hok Hst) as Hw. destruct (step_preserves _ _ _ _ Hok Hst) as [k1 Hok1]. destruct (IH s1 k1 s' Hok1 Hr) as (k' & Hok' & Hl). exists k'. split; [done|lia].
Qed.

End invariant.

End pool.
End OrderedParallel.
Import OrderedParallel.

(** C22: The pool sends [fn x] for every input [x], in the order of the inputs,
    whatever the schedule of its goroutines.  At every time what has been received
    is a prefix of these results, and nothing has been sent on the closed channel
    or closed twice; the channel is closed only behind the last result.  No
    schedule takes more than [10 n + 3 p + 1] steps for [n] inputs and [p] workers,
    and when no goroutine can go on, all results have been received and the
    channel is closed. *)
Theorem ordered_parallel_correct `{GoHeap} {A B : Type} (fn : A -> B) (xs : list A) (parallelism : nat) schedule s : (0 < parallelism)%nat -> Zlength xs + 1 < 2 ^ 64 ->
  run fn schedule (New xs parallelism) = Some s ->
  panicked s = false /\ out s `prefix_of` map fn xs /\ (outClosed s = true -> out s = map fn xs) /\
  (length schedule <= 10 * length xs + 3 * parallelism + 1)%nat /\
  ((forall t, step fn t s = None) -> out s = map fn xs /\ outClosed s = true).
Proof.
  intros Hp Hlen Hr. destruct (run_ok fn xs Hlen schedule _ 0%nat s (new_ok fn xs parallelism Hp) Hr) as (k & Hok & Hw). pose proof (po_out _ _ _ _ Hok) as Hout.
  split; [apply Hok|]. split; [done|]. split; [|split; [|by apply (stuck_complete fn xs s k)]].
  - intros Hc. destruct (po_closed _ _ _ _ Hok Hc) as (_ & Hn & _). destruct Hout as [r Hr']. assert (length r = 0%nat) as Hr0 by (apply (f_equal length) in Hr'; rewrite length_app, length_map in Hr'; lia). destruct r; [|done]. by rewrite app_nil_r in Hr'.
  - assert (weight (New (B := B) xs parallelism) = 10 * length xs + 3 * parallelism + 1)%nat as He; [|lia]. unfold weight, New. cbn [input snd_ workers outHeap sender_weight length].
    assert (forall n, sum_list_with worker_weight (replicate n (@WRecv A B)) = 3 * n)%nat as -> by (induction n as [|n IH]; cbn [replicate sum_list_with worker_weight]; lia). lia.
Qed.

(** A heap that keeps its elements sorted, and two workers of which the second one
    is done first. *)
Program Definition sorted_heap : GoHeap := {|
  heap_Push A less x l := @go_sort go_insertion_sort A less (x :: l);
  heap_Pop A less l := match l with [] => None | x :: l' => Some (x, l') end;
  is_heap A less l := forall key : A -> Z, (forall a b, less a b = (key a <? key b)) -> StronglySorted (fun x y => key x <= key y) l
|}.
Next Obligation. intros. constructor. Qed.
Next Obligation. intros A less x l _. split; [apply go_sort_perm|]. intros key Hkey. by apply go_sort_sorted. Qed.
Next Obligation. intros A less x l Hs. exists l. split_and!; [done..|]. intros key Hkey. specialize (Hs key Hkey). by apply StronglySorted_inv in Hs as [? _]. Qed.
Next Obligation. intros A less key x l y Hkey Hs Hy. specialize (Hs key Hkey). apply StronglySorted_inv in Hs as [_ Hf]. rewrite Forall_forall in Hf. by apply Hf. Qed.
Definition late_first : list thread :=
  [Sender; Worker 0; Sender; Sender; Worker 1; Sender; Sender; Worker 1; Worker 1; Worker 1; Worker 0; Worker 0; Worker 0; Worker 0; Worker 0; Worker 0; Worker 0; Worker 0; Worker 0; Worker 0; Worker 0; Worker 0; Worker 1; Worker 1; Worker 1].
Lemma ordered_parallel_correct_witness : exists s, @run sorted_heap Z Z Z.opp late_first (New [1; 2] 2) = Some s /\ out s = [-1; -2] /\ outClosed s = true.
Proof.
  assert (exists s, @run sorted_heap Z Z Z.opp late_first (New [1; 2] 2) = Some s /\ forall t, @step sorted_heap Z Z Z.opp t s = None) as (s & Hr & Hst).
  { eexists. split; [vm_compute; reflexivity|]. intros [|[|[|i]]]; reflexivity. }
  exists s. split; [exact Hr|]. destruct (@ordered_parallel_correct sorted_heap Z Z Z.opp [1; 2] 2 late_first s) as (_ & _ & _ & _ & Hdone); [lia|reflexivity|exact Hr|]. exact (Hdone Hst).
Defined.
