(* ===== verification/TypesCodec.v ===== *)
(** * Package [types]: the binary codec (src/go/types/codec.go, number_util.go)

    The reader and the writer of the primitive data of a chunk: fixed width
    integers, strings, byte slices, hashes, and numbers as an integer and a
    power of two in signed varints.  Go's [float64] is modelled by exact binary
    fractions with the rounding of IEEE 754. *)

From S2P Require Import Prelude GoLib HashPkg.
Import Hash.

(** ** Package [encoding/binary]: signed varints *)

Module Varint.

Definition MaxVarintLen64 : Z := 10.

Definition PutVarint (x : Z) : list byte :=
  let ux := u64 (Z.shiftl (u64 x) 1) in
  Binary.PutUvarint (if x <? 0 then Z.lxor ux (2 ^ 64 - 1) else ux).
Definition Varint (buf : list byte) : Z * Z :=
  let '(ux, n) := Binary.Uvarint buf in
  let x := s64 (Z.shiftr ux 1) in
  (if Z.land ux 1 =? 0 then x else Z.lnot x, n).

End Varint.

(** ** [float64]

    A finite number is a sign, a mantissa and an exponent of two.  The mantissa
    is odd, or zero with exponent zero, so that equal numbers that are not zero
    have one representation. *)

Module Float64.

Inductive float64 : Type :=
| Finite (neg : bool) (m e : Z)
| Infinite (neg : bool)
| NaN.

Fixpoint odd_part (p : positive) : positive * Z :=
  match p with
  | xO q => let '(o, k) := odd_part q in (o, k + 1)
  | _ => (p, 0)
  end.
Definition make (neg : bool) (m e : Z) : float64 :=
  match m with
  | Zpos p => let '(o, k) := odd_part p in Finite neg (Zpos o) (e + k)
  | _ => Finite neg 0 0
  end.

(** The float nearest to [m * 2 ^ e], ties to even: 53 bits of mantissa, no unit
    in the last place below [2 ^ -1074], infinity from [2 ^ 1024] on. *)
Definition round (neg : bool) (m e : Z) : float64 :=
  let ulp := Z.max (Z.log2 m + 1 + e - 53) (-1074) in
  let q :=
    if ulp <=? e then m * 2 ^ (e - ulp)
    else
      let d := 2 ^ (ulp - e) in
      if (2 * (m mod d) <? d) || ((2 * (m mod d) =? d) && Z.even (m / d)) then m / d else m / d + 1 in
  if 1024 <=? Z.log2 q + ulp then Infinite neg else make neg q ulp.

Definition of_int (i : Z) : float64 := round (i <? 0) (Z.abs i) 0.

Definition Signbit (f : float64) : bool :=
  match f with Finite neg _ _ => neg | Infinite neg => neg | NaN => false end.
Definition Abs (f : float64) : float64 :=
  match f with Finite _ m e => Finite false m e | Infinite _ => Infinite false | NaN => NaN end.
Definition Neg (f : float64) : float64 :=
  match f with Finite neg m e => Finite (negb neg) m e | Infinite neg => Infinite (negb neg) | NaN => NaN end.
Definition IsNaN (f : float64) : bool := match f with NaN => true | _ => false end.
Definition IsInf (f : float64) : bool := match f with Infinite _ => true | _ => false end.
Definition is_zero (f : float64) : bool := match f with Finite _ 0 _ => true | _ => false end.

(** [f == g]. *)
Definition eqb (f g : float64) : bool :=
  match f, g with
  | Finite n m e, Finite n' m' e' => ((m =? 0) && (m' =? 0)) || (Bool.eqb n n' && (m =? m') && (e =? e'))
  | Infinite n, Infinite n' => Bool.eqb n n'
  | _, _ => false
  end.
(** [f > b] for an integer [b] and [f] not negative. *)
Definition above (f : float64) (b : Z) : bool :=
  match f with
  | Finite _ m e => b * 2 ^ Z.max (- e) 0 <? m * 2 ^ Z.max e 0
  | Infinite _ => true
  | NaN => false
  end.

(** [math.Trunc]. *)
Definition Trunc (f : float64) : float64 :=
  match f with Finite neg m e => if 0 <=? e then f else make neg (m / 2 ^ (- e)) 0 | _ => f end.
(** [f * 2 ^ k], rounded. *)
Definition scale (f : float64) (k : Z) : float64 :=
  match f with Finite neg m e => round neg m (e + k) | _ => f end.
(** [int64(f)] of an integral [f]. *)
Definition to_int64 (f : float64) : Z :=
  match f with Finite neg m e => s64 (if neg then - (m * 2 ^ e) else m * 2 ^ e) | _ => 0 end.
(** [f / math.Pow(2, exp)]: the power is infinite from 1024 on and zero below
    -1074. *)
Definition div_pow2 (f : float64) (exp : Z) : float64 :=
  if 1024 <=? exp then match f with Finite neg _ _ => Finite neg 0 0 | _ => NaN end
  else if exp <? -1074 then
    match f with Finite neg m _ => if m =? 0 then NaN else Infinite neg | _ => f end
  else scale f (- exp).

End Float64.
Import Float64.

(** ** number_util.go *)

Module NumberUtil.

Definition maxSafeInteger : Z := 9007199254740991.

Definition float64IsInt (f : float64) : bool := eqb (Trunc f) f.

Fixpoint shrink (fuel : nat) (f : float64) (exp : Z) : outcome (float64 * Z) :=
  match fuel with
  | O => Panic OutOfFuel
  | S fuel' => if above f maxSafeInteger then shrink fuel' (scale f (-1)) (exp - 1) else Ok (f, exp)
  end.
Fixpoint grow (fuel : nat) (f : float64) (exp : Z) : outcome (float64 * Z) :=
  match fuel with
  | O => Panic OutOfFuel
  | S fuel' => if negb (float64IsInt f) then grow fuel' (scale f 1) (exp + 1) else Ok (f, exp)
  end.
Definition float64ToIntExp (f : float64) : outcome (Z * Z) :=
  if is_zero f then Ok (0, 0)
  else
    let isNegative := Signbit f in
    let! (f, exp) := shrink 2048 (Abs f) 0 in
    let! (f, exp) := grow 2048 f exp in
    Ok (to_int64 (if isNegative then Neg f else f), exp).

Definition intExpToFloat64 (i exp : Z) : float64 :=
  if exp =? 0 then of_int i else div_pow2 (of_int i) exp.

End NumberUtil.
Import NumberUtil.

(** ** The reader and the writer of codec.go *)

Module Codec.

Definition initialBufferSize : nat := 2048.

Record binaryNomsReader : Type := MkReader { r_buff : list byte; r_offset : Z }.

Definition pos (b : binaryNomsReader) : Z := r_offset b.
Definition seek (b : binaryNomsReader) (pos : Z) : binaryNomsReader := MkReader (r_buff b) pos.

(** [b.offset += n] at 32 bits. *)
Definition advance (b : binaryNomsReader) (n : Z) : binaryNomsReader := MkReader (r_buff b) (u32 (r_offset b + n)).
(** [n] bytes ored together, most significant first. *)
Fixpoint read_be (n : nat) (b : binaryNomsReader) (i acc : Z) : outcome Z :=
  match n with
  | O => Ok acc
  | S n' => let! c := index (r_buff b) (u32 (r_offset b + i)) in read_be n' b (i + 1) (Z.lor (Z.shiftl acc 8) (Zb c))
  end.

Definition readUint8 (b : binaryNomsReader) : outcome (Z * binaryNomsReader) :=
  let! v := read_be 1 b 0 0 in Ok (v, advance b 1).
Definition readUint32 (b : binaryNomsReader) : outcome (Z * binaryNomsReader) :=
  let! v := read_be 4 b 0 0 in Ok (v, advance b 4).
Definition readUint64 (b : binaryNomsReader) : outcome (Z * binaryNomsReader) :=
  let! v := read_be 8 b 0 0 in Ok (v, advance b 8).
Definition readBytes (b : binaryNomsReader) : outcome (list byte * binaryNomsReader) :=
  let! (size, b) := readUint32 b in
  let! buff := slice (r_buff b) (r_offset b) (u32 (r_offset b + size)) in
  Ok (buff, advance b size).
Definition readNumber (b : binaryNomsReader) : outcome (float64 * binaryNomsReader) :=
  let! rest := slice_from (r_buff b) (r_offset b) in
  let '(i, count) := Varint.Varint rest in
  let b := advance b (u32 count) in
  let! rest := slice_from (r_buff b) (r_offset b) in
  let '(exp, count2) := Varint.Varint rest in
  let b := advance b (u32 count2) in
  Ok (intExpToFloat64 i exp, b).
Definition readBool (b : binaryNomsReader) : outcome (bool * binaryNomsReader) :=
  let! (v, b) := readUint8 b in Ok (v =? 1, b).
Definition readString (b : binaryNomsReader) : outcome (list byte * binaryNomsReader) :=
  let! (size, b) := readUint32 b in
  let! v := slice (r_buff b) (r_offset b) (u32 (r_offset b + size)) in
  Ok (v, advance b size).
Definition readHash (b : binaryNomsReader) : outcome (Hash * binaryNomsReader) :=
  let! h := slice (r_buff b) (r_offset b) (u32 (r_offset b + Z.of_nat ByteLen)) in
  Ok (of_bytes h, advance b (Z.of_nat ByteLen)).

Record binaryNomsWriter : Type := MkNomsWriter { w_buff : list byte; w_offset : Z }.

Definition make_bytes (n : nat) : list byte := replicate n (bZ 0).
Definition newBinaryNomsWriter : binaryNomsWriter := MkNomsWriter (make_bytes initialBufferSize) 0.
Definition data (b : binaryNomsWriter) : outcome (list byte) := slice (w_buff b) 0 (w_offset b).
Definition reset (b : binaryNomsWriter) : binaryNomsWriter := MkNomsWriter (w_buff b) 0.

(** The doubling of [ensureCapacity], at 32 bits. *)
Fixpoint double_length (fuel : nat) (need length : Z) : outcome Z :=
  match fuel with
  | O => Panic OutOfFuel
  | S fuel' => if length <? need then double_length fuel' need (u32 (length * 2)) else Ok length
  end.
Definition ensureCapacity (fuel : nat) (b : binaryNomsWriter) (n : Z) : outcome binaryNomsWriter :=
  let length := u32 (Zlength (w_buff b)) in
  if u32 (w_offset b + n) <=? length then Ok b
  else
    let! length := double_length fuel (u32 (w_offset b + n)) length in
    let! (_, buff) := copy_at (make_bytes (Z.to_nat length)) 0 (w_buff b) in
    Ok (MkNomsWriter buff (w_offset b)).
(** Thirty-two doublings leave nothing of a 32-bit length. *)
Definition capacity_fuel : nat := 33.

(** [copy(b.buff[b.offset:], v); b.offset += n]. *)
Definition put_bytes (b : binaryNomsWriter) (v : list byte) (n : Z) : outcome binaryNomsWriter :=
  let! (_, buff) := copy_at (w_buff b) (w_offset b) v in Ok (MkNomsWriter buff (u32 (w_offset b + n))).
(** The bytes of [v], most significant first, stored one by one. *)
Definition put_be (n : nat) (b : binaryNomsWriter) (v : Z) : outcome binaryNomsWriter :=
  let! b := ensureCapacity capacity_fuel b (Z.of_nat n) in
  let! buff := put_at n (w_buff b) (w_offset b) v in
  Ok (MkNomsWriter buff (u32 (w_offset b + Z.of_nat n))).

Definition writeUint8 (b : binaryNomsWriter) (v : Z) : outcome binaryNomsWriter := put_be 1 b v.
Definition writeUint32 (b : binaryNomsWriter) (v : Z) : outcome binaryNomsWriter := put_be 4 b v.
Definition writeUint64 (b : binaryNomsWriter) (v : Z) : outcome binaryNomsWriter := put_be 8 b v.
Definition writeBytes (b : binaryNomsWriter) (v : list byte) : outcome binaryNomsWriter :=
  let size := u32 (Zlength v) in
  let! b := writeUint32 b size in
  let! b := ensureCapacity capacity_fuel b size in
  put_bytes b v size.
(** [binary.PutVarint] needs room for its bytes. *)
Definition put_varint (b : binaryNomsWriter) (x : Z) : outcome binaryNomsWriter :=
  let v := Varint.PutVarint x in
  let! rest := slice_from (w_buff b) (w_offset b) in
  if Zlength v <=? Zlength rest then put_bytes b v (u32 (Zlength v)) else Panic IndexOutOfRange.
Definition writeNumber (b : binaryNomsWriter) (v : float64) : outcome binaryNomsWriter :=
  let! b := ensureCapacity capacity_fuel b (Varint.MaxVarintLen64 * 2) in
  let! (i, exp) := float64ToIntExp v in
  let! b := put_varint b i in
  put_varint b (s64 exp).
Definition writeBool (b : binaryNomsWriter) (v : bool) : outcome binaryNomsWriter :=
  if v then writeUint8 b 1 else writeUint8 b 0.
Definition writeString (b : binaryNomsWriter) (v : list byte) : outcome binaryNomsWriter :=
  let size := u32 (Zlength v) in
  let! b := writeUint32 b size in
  let! b := ensureCapacity capacity_fuel b size in
  put_bytes b v size.
Definition writeHash (b : binaryNomsWriter) (h : Hash) : outcome binaryNomsWriter :=
  let! b := ensureCapacity capacity_fuel b (Z.of_nat ByteLen) in
  put_bytes b (hash_bytes h) (Z.of_nat ByteLen).
(** The last part of [appendType], for a serialization that is there. *)
Definition append_data (b : binaryNomsWriter) (data : list byte) : outcome binaryNomsWriter :=
  let size := u32 (Zlength data) in
  let! b := ensureCapacity capacity_fuel b size in
  put_bytes b data size.

(** The interface [nomsWriter], without [appendType]. *)
Class nomsWriter (W : Type) := {
  nw_writeBytes : W -> list byte -> outcome W;
  nw_writeUint8 : W -> Z -> outcome W;
  nw_writeUint32 : W -> Z -> outcome W;
  nw_writeUint64 : W -> Z -> outcome W;
  nw_writeNumber : W -> float64 -> outcome W;
  nw_writeBool : W -> bool -> outcome W;
  nw_writeString : W -> list byte -> outcome W;
  nw_writeHash : W -> Hash -> outcome W
}.
#[export] Instance binary_nomsWriter : nomsWriter binaryNomsWriter := {|
  nw_writeBytes := writeBytes; nw_writeUint8 := writeUint8; nw_writeUint32 := writeUint32; nw_writeUint64 := writeUint64;
  nw_writeNumber := writeNumber; nw_writeBool := writeBool; nw_writeString := writeString; nw_writeHash := writeHash
|}.

End Codec.
Import Codec.

(** ** Facts about floats *)

Module FloatFacts.

(** A finite number of the format that is not zero. *)
Definition normal (m e : Z) : Prop := Z.Odd m /\ 0 < m < 2 ^ 53 /\ -1074 <= e /\ Z.log2 m + e < 1024.
Definition finite (f : float64) : Prop :=
  match f with Finite _ m e => (m = 0 /\ e = 0) \/ normal m e | _ => False end.

Lemma odd_part_odd p : Z.Odd (Zpos p) -> odd_part p = (p, 0).
Proof. intros [k Hk]. destruct p; [done|lia|done]. Qed.
Lemma make_odd neg o k e : Z.Odd o -> 0 < o -> 0 <= k -> make neg (o * 2 ^ k) e = Finite neg o (e + k).
Proof.
  intros Ho Hpos Hk. destruct o as [|o|o]; try lia.
  assert (exists p, Zpos o * 2 ^ k = Zpos p /\ odd_part p = (o, k)) as (p & -> & Hp); [|cbn; by rewrite Hp].
  revert k Hk. apply natlike_ind.
  - exists o. rewrite Z.mul_1_r. split; [done|by apply odd_part_odd].
  - intros k Hk (p & Hp & Hodd). exists (xO p). rewrite Z.pow_succ_r by done. split; [lia|]. cbn. by rewrite Hodd.
Qed.

Lemma log2_shift o k : 0 < o -> 0 <= k -> Z.log2 (o * 2 ^ k) = Z.log2 o + k.
Proof. intros. rewrite Z.log2_mul_pow2 by lia. lia. Qed.

(** A representable value is not changed. *)
Lemma round_exact neg o k e : 0 <= k -> normal o (e + k) -> round neg (o * 2 ^ k) e = Finite neg o (e + k).
Proof.
  intros Hk (Hodd & Ho & Hmin & Hmax). unfold round. rewrite log2_shift by lia.
  assert (Z.log2 o < 53) as Hl by (apply Z.log2_lt_pow2; lia).
  set (ulp := Z.max (Z.log2 o + k + 1 + e - 53) (-1074)). assert (ulp <= e + k) as Hu by lia.
  match goal with |- context [if ulp <=? e then ?x else ?y] => assert ((if ulp <=? e then x else y) = o * 2 ^ (e + k - ulp)) as -> end.
  { destruct (ulp <=? e) eqn:E; bool_lia.
    - rewrite <- Z.mul_assoc, <- Z.pow_add_r by lia. f_equal. f_equal. lia.
    - assert (o * 2 ^ k = o * 2 ^ (e + k - ulp) * 2 ^ (ulp - e)) as ->.
      { rewrite <- Z.mul_assoc, <- Z.pow_add_r by lia. f_equal. f_equal. lia. }
      assert (0 < 2 ^ (ulp - e)) as Hd by lia. rewrite Z.mod_mul, Z.div_mul by lia.
      rewrite (proj2 (Z.ltb_lt _ _)) by lia. done. }
  cbv zeta. rewrite log2_shift, (proj2 (Z.leb_gt _ _)) by lia. rewrite make_odd by (done || lia). f_equal. lia.
Qed.
Lemma round_normal neg m e : normal m e -> round neg m e = Finite neg m e.
Proof. intros H. pose proof (round_exact neg m 0 e) as Hr. rewrite Z.mul_1_r, Z.add_0_r in Hr. by apply Hr. Qed.

Lemma normal_down m e : normal m e -> 0 < e -> normal m (e - 1).
Proof. unfold normal. intuition lia. Qed.
Lemma normal_up m e : normal m e -> e < 0 -> normal m (e + 1).
Proof.
  intros (H1 & H2 & H3 & H4) He. unfold normal. assert (Z.log2 m < 53) by (apply Z.log2_lt_pow2; lia). split; [done|lia].
Qed.

(** A mantissa has at most 53 bits, so a number above the limit is even. *)
Lemma above_exp neg m e : normal m e -> above (Finite neg m e) maxSafeInteger = true -> 0 < e.
Proof.
  intros (_ & Hm & _) H. cbn in H. destruct (Z.le_gt_cases e 0) as [He|He]; [|done]. exfalso.
  rewrite (Z.max_r e 0), (Z.max_l (- e) 0) in H by lia. bool_lia. unfold maxSafeInteger in H. change (2 ^ 53) with 9007199254740992 in Hm.
  assert (1 <= 2 ^ (- e)) by (apply Z.pow_le_mono_r with (b := 0); lia). nia.
Qed.

Lemma shrink_ok m : forall fuel e exp, normal m e -> (Z.to_nat e < fuel)%nat ->
  exists e', shrink fuel (Finite false m e) exp = Ok (Finite false m e', exp - (e - e')) /\
    normal m e' /\ (e' = e \/ 0 <= e' < e) /\ (0 <= e' -> m * 2 ^ e' <= maxSafeInteger).
Proof.
  induction fuel as [|fuel IH]; intros e exp Hn Hf; [lia|]. cbn [shrink].
  destruct (above (Finite false m e) maxSafeInteger) eqn:E.
  - pose proof (above_exp _ _ _ Hn E) as He. pose proof (normal_down m e Hn He) as Hn'. cbn [scale].
    replace (e + -1) with (e - 1) by lia. rewrite round_normal by done.
    destruct (IH (e - 1) (exp - 1) Hn') as (e' & -> & H1 & H2 & H3); [lia|]. exists e'. split; [f_equal; f_equal; lia|]. split; [done|]. split; [lia|done].
  - exists e. split; [f_equal; f_equal; lia|]. split; [done|]. split; [by left|]. intros He. cbn in E.
    rewrite (Z.max_l e 0), (Z.max_r (- e) 0), Z.mul_1_r in E by lia. bool_lia.
Qed.

Lemma make_int neg q : exists o k, make neg q 0 = Finite neg o k /\ 0 <= k.
Proof.
  destruct q as [|q|q]; cbn [make]; [by exists 0, 0| |by exists 0, 0].
  assert (0 <= (odd_part q).2) as Hk.
  { induction q as [q|q IH|]; cbn [odd_part]; [done| |done]. destruct (odd_part q). cbn in *. lia. }
  destruct (odd_part q) as [o k]. cbn in Hk. exists (Zpos o), k. done.
Qed.

(** An odd mantissa with a negative exponent is not an integer. *)
Lemma float64IsInt_normal m e : normal m e -> float64IsInt (Finite false m e) = (0 <=? e).
Proof.
  intros (Hodd & Hm & _). unfold float64IsInt. cbn [Trunc]. destruct (0 <=? e) eqn:E; bool_lia.
  - cbn. rewrite !Z.eqb_refl. by destruct (m =? 0).
  - destruct (make_int false (m / 2 ^ (- e))) as (o & k & -> & Hk). unfold eqb.
    rewrite (proj2 (Z.eqb_neq m 0)), (proj2 (Z.eqb_neq k e)) by lia. by rewrite !andb_false_r.
Qed.

Lemma grow_ok m : forall fuel e exp, normal m e -> (Z.to_nat (- e) < fuel)%nat ->
  grow fuel (Finite false m e) exp = Ok (Finite false m (Z.max e 0), exp + Z.max (- e) 0).
Proof.
  induction fuel as [|fuel IH]; intros e exp Hn Hf; [lia|]. cbn [grow]. rewrite float64IsInt_normal by done.
  destruct (0 <=? e) eqn:E; bool_lia; cbn [negb].
  - f_equal. f_equal; [f_equal|]; lia.
  - cbn [scale]. rewrite round_normal by (apply normal_up; [done|lia]). rewrite IH by (apply normal_up || idtac; done || lia).
    f_equal. f_equal; [f_equal|]; lia.
Qed.

Definition signed (neg : bool) (i : Z) : Z := if neg then - i else i.

Lemma float64ToIntExp_ok neg m e : normal m e -> exists k exp, float64ToIntExp (Finite neg m e) = Ok (signed neg (m * 2 ^ k), exp) /\
  0 <= k /\ e = k - exp /\ m * 2 ^ k <= maxSafeInteger /\ -1074 <= exp <= 1074 /\ (0 < exp -> k = 0).
Proof.
  intros Hn. pose proof Hn as (_ & Hm & He & Hmax). pose proof (Z.log2_nonneg m) as Hlog. unfold float64ToIntExp.
  assert (is_zero (Finite neg m e) = false) as -> by (destruct m; [lia|done..]). cbn [Signbit Abs].
  destruct (shrink_ok m 2048 e 0 Hn) as (e' & -> & Hn' & Hee & Hsafe); [lia|]. cbn [obind].
  pose proof Hn' as (_ & _ & He' & _). rewrite grow_ok by (done || lia). cbn [obind].
  exists (Z.max e' 0), (0 - (e - e') + Z.max (- e') 0). 
  assert (m * 2 ^ Z.max e' 0 <= maxSafeInteger) as Hle.
  { destruct (Z.le_gt_cases 0 e') as [H0|H0]; [rewrite Z.max_l by lia; by apply Hsafe|]. rewrite Z.max_r, Z.mul_1_r by lia.
    unfold maxSafeInteger. change (2 ^ 53) with 9007199254740992 in Hm. lia. }
  assert (0 < 2 ^ Z.max e' 0) as Hpow by lia. assert (0 < m * 2 ^ Z.max e' 0) as Hpos by nia.
  split; [|split_and!; lia || done]. f_equal. f_equal. unfold maxSafeInteger in Hle.
  assert (s64 (signed neg (m * 2 ^ Z.max e' 0)) = signed neg (m * 2 ^ Z.max e' 0)) as Hs.
  { unfold s64. assert (2 ^ 63 = 9223372036854775808) as -> by done. assert (2 ^ 64 = 18446744073709551616) as -> by done.
    unfold signed. rewrite Z.mod_small; destruct neg; lia. }
  rewrite <- Hs. by destruct neg.
Qed.

Lemma of_int_ok neg m k : Z.Odd m -> 0 < m -> 0 <= k -> m * 2 ^ k <= maxSafeInteger -> of_int (signed neg (m * 2 ^ k)) = Finite neg m k.
Proof.
  intros Hodd Hm Hk Hle. assert (0 < 2 ^ k) as Hpow by lia. assert (0 < m * 2 ^ k) as Hpos by nia. unfold of_int.
  assert ((signed neg (m * 2 ^ k) <? 0) = neg) as -> by (destruct neg; cbn; [apply Z.ltb_lt|apply Z.ltb_ge]; lia).
  assert (Z.abs (signed neg (m * 2 ^ k)) = m * 2 ^ k) as -> by (destruct neg; cbn; lia).
  rewrite round_exact; [done|done|]. unfold maxSafeInteger in Hle. assert (2 ^ 53 = 9007199254740992) as H53 by done.
  unfold normal. rewrite Z.add_0_l, H53. split; [done|]. split; [nia|]. split; [lia|]. rewrite <- log2_shift by lia.
  assert (Z.log2 (m * 2 ^ k) < 53) by (apply Z.log2_lt_pow2; lia). lia.
Qed.

Lemma intExpToFloat64_ok neg m k exp : normal m (k - exp) -> 0 <= k -> m * 2 ^ k <= maxSafeInteger -> -1074 <= exp ->
  intExpToFloat64 (signed neg (m * 2 ^ k)) exp = if 1024 <=? exp then Finite neg 0 0 else Finite neg m (k - exp).
Proof.
  intros Hn Hk Hle Hexp. pose proof Hn as (Hodd & Hm & _). unfold intExpToFloat64. rewrite of_int_ok by (done || lia).
  destruct (exp =? 0) eqn:E0; bool_lia; [subst exp; cbn; f_equal; lia|]. unfold div_pow2. destruct (1024 <=? exp); [done|].
  rewrite (proj2 (Z.ltb_ge _ _)) by lia. cbn [scale]. rewrite round_normal; [f_equal; lia|]. by replace (k + - exp) with (k - exp) by lia.
Qed.

(** What a number becomes: the sign of zero is lost, and so are the numbers
    that need more than 1023 fractional bits. *)
Definition stored_number (f : float64) : float64 :=
  match f with
  | Finite neg m e => if m =? 0 then Finite false 0 0 else if e <=? -1024 then Finite neg 0 0 else f
  | _ => f
  end.

Lemma number_codec f : finite f -> exists i exp, float64ToIntExp f = Ok (i, exp) /\ - 2 ^ 63 <= i < 2 ^ 63 /\ -1074 <= exp <= 1074 /\
  intExpToFloat64 i exp = stored_number f.
Proof.
  destruct f as [neg m e|neg|]; [|done..]. intros [[-> ->]|Hn].
  - exists 0, 0. done.
  - destruct (float64ToIntExp_ok neg m e Hn) as (k & exp & He & Hk & -> & Hle & Hexp & Hint). exists (signed neg (m * 2 ^ k)), exp.
    pose proof Hn as (_ & Hm & _). assert (0 < 2 ^ k) as Hpow by lia. assert (0 < m * 2 ^ k) as Hpos by nia.
    unfold maxSafeInteger in Hle. split; [done|]. split; [destruct neg; cbn [signed]; change (2 ^ 63) with 9223372036854775808; lia|].
    split; [done|]. rewrite intExpToFloat64_ok by (done || lia). cbn [stored_number]. rewrite (proj2 (Z.eqb_neq m 0)) by lia.
    destruct (1024 <=? exp) eqn:E1, (k - exp <=? -1024) eqn:E2; bool_lia; done || (exfalso; lia).
Qed.

End FloatFacts.

(** ** Facts about the codec *)

Module CodecFacts.
Import FloatFacts.

Lemma testbit_above a i : 0 <= a < 2 ^ 64 -> 64 <= i -> Z.testbit a i = false.
Proof.
  intros Ha Hi. destruct (decide (a = 0)) as [->|]; [apply Z.testbit_0_l|]. apply Z.bits_above_log2; [lia|].
  assert (Z.log2 a < 64) by (apply Z.log2_lt_pow2; lia). lia.
Qed.
Lemma lxor_ones a : 0 <= a < 2 ^ 64 -> Z.lxor a (2 ^ 64 - 1) = 2 ^ 64 - 1 - a.
Proof.
  intros Ha. change (2 ^ 64 - 1) with (Z.ones 64).
  assert (forall i, 0 <= i -> Z.testbit (Z.ones 64) i = true \/ (Z.testbit (Z.ones 64) i = false /\ Z.testbit a i = false)) as Hb.
  { intros i Hi. rewrite Z.testbit_ones_nonneg by lia. destruct (i <? 64) eqn:E; [by left|right]. split; [done|].
    apply testbit_above; [done|]. by apply Z.ltb_ge. }
  rewrite Z.sub_nocarry_ldiff; apply Z.bits_inj'; intros i Hi; rewrite ?Z.lxor_spec, !Z.ldiff_spec, ?Z.bits_0;
    destruct (Hb i Hi) as [->|[-> ->]], (Z.testbit a i); done.
Qed.

(** The unsigned number that stands for [x]. *)
Lemma zigzag x : - 2 ^ 63 <= x < 2 ^ 63 ->
  Varint.PutVarint x = Binary.PutUvarint (if x <? 0 then - 2 * x - 1 else 2 * x).
Proof.
  intros Hx. unfold Varint.PutVarint. assert (2 ^ 63 = 9223372036854775808) as H63 by done.
  assert (2 ^ 64 = 18446744073709551616) as H64 by done. rewrite Z.shiftl_mul_pow2, Z.pow_1_r by done. f_equal.
  destruct (x <? 0) eqn:E; bool_lia.
  - assert (u64 (u64 x * 2) = 2 ^ 64 + 2 * x) as ->.
    { unfold u64. rewrite Z.mul_mod_idemp_l by lia. symmetry; apply Z.mod_unique with (q := -1); lia. }
    rewrite lxor_ones by lia. lia.
  - rewrite (u64_small x), u64_small by lia. lia.
Qed.

Lemma Varint_Put x rest : - 2 ^ 63 <= x < 2 ^ 63 ->
  Varint.Varint (Varint.PutVarint x ++ rest) = (x, Zlength (Varint.PutVarint x)).
Proof.
  intros Hx. rewrite zigzag by done. assert (2 ^ 63 = 9223372036854775808) as H63 by done. assert (2 ^ 64 = 18446744073709551616) as H64 by done.
  unfold Varint.Varint. rewrite BinaryFacts.Uvarint_Put by (destruct (x <? 0) eqn:E; bool_lia). f_equal.
  assert (forall ux, Z.land ux 1 = ux mod 2) as Hland by (intros ux; by apply (Z.land_ones ux 1)).
  rewrite Hland, Z.shiftr_div_pow2, Z.pow_1_r by done.
  destruct (x <? 0) eqn:E; bool_lia.
  - assert ((-2 * x - 1) / 2 = - x - 1) as -> by (symmetry; apply Z.div_unique with (r := 1); lia).
    assert ((-2 * x - 1) mod 2 = 1) as -> by (symmetry; apply Z.mod_unique with (q := - x - 1); lia). cbn [Z.eqb].
    unfold s64. rewrite Z.mod_small by lia. unfold Z.lnot. lia.
  - rewrite Z.mul_comm, Z.div_mul, Z.mod_mul by lia. cbn [Z.eqb]. unfold s64. rewrite Z.mod_small by lia. lia.
Qed.
Lemma PutVarint_length x : - 2 ^ 63 <= x < 2 ^ 63 -> Zlength (Varint.PutVarint x) <= 10.
Proof.
  intros Hx. rewrite zigzag by done. unfold Zlength. pose proof (BinaryFacts.put_uvarint_length 10 (if x <? 0 then - 2 * x - 1 else 2 * x) 10) as H.
  assert (2 ^ 63 = 9223372036854775808) as H63 by done. assert (2 ^ 64 < 2 ^ (7 * Z.of_nat 10)) as H64 by done.
  change (2 ^ 64) with 18446744073709551616 in H64. unfold Binary.PutUvarint. destruct (x <? 0) eqn:E; bool_lia; lia.
Qed.

(** *** Reading *)

(** [f] takes the bytes [l] at any position and gives [a]. *)
Definition reads {A} (f : binaryNomsReader -> outcome (A * binaryNomsReader)) (l : list byte) (a : A) : Prop :=
  forall before after, Zlength (before ++ l ++ after) < 2 ^ 32 ->
  f (MkReader (before ++ l ++ after) (Zlength before)) = Ok (a, MkReader (before ++ l ++ after) (Zlength before + Zlength l)).

Lemma reads_ret {A} (a : A) : reads (fun r => Ok (a, r)) [] a.
Proof. intros before after _. by rewrite Z.add_0_r. Qed.
Lemma reads_bind {A B} f (g : A -> binaryNomsReader -> outcome (B * binaryNomsReader)) l k a b : reads f l a -> reads (g a) k b ->
  reads (fun r => let! (x, r) := f r in g x r) (l ++ k) b.
Proof.
  intros Hf Hg before after Hlen. rewrite <- app_assoc in *. rewrite Hf by done. cbn [obind].
  rewrite app_assoc, <- Zlength_app in *. rewrite Hg by done. by rewrite !Zlength_app, Z.add_assoc.
Qed.
Lemma reads_map {A B} f (g : A -> B) l a : reads f l a -> reads (fun r => let! (x, r) := f r in Ok (g x, r)) l (g a).
Proof. intros Hf before after Hlen. rewrite Hf by done. done. Qed.

Lemma reader_advance (before l after : list byte) n : Zlength (before ++ l ++ after) < 2 ^ 32 -> n = Zlength l ->
  advance (MkReader (before ++ l ++ after) (Zlength before)) n = MkReader (before ++ l ++ after) (Zlength before + Zlength l).
Proof.
  intros Hlen ->. unfold advance. cbn [r_buff r_offset]. rewrite !Zlength_app in Hlen.
  pose proof (Zlength_nonneg before). pose proof (Zlength_nonneg l). pose proof (Zlength_nonneg after). by rewrite u32_small by lia.
Qed.
Lemma slice_here (before l after : list byte) n : Zlength (before ++ l ++ after) < 2 ^ 32 -> n = Zlength l ->
  slice (before ++ l ++ after) (Zlength before) (u32 (Zlength before + n)) = Ok l.
Proof.
  intros Hlen ->. rewrite !Zlength_app in Hlen. pose proof (Zlength_nonneg before). pose proof (Zlength_nonneg l). pose proof (Zlength_nonneg after).
  rewrite u32_small by lia. by apply slice_app.
Qed.

Lemma read_be_ok l : forall before done_ after acc, Zlength (before ++ done_ ++ l ++ after) < 2 ^ 32 ->
  read_be (length l) (MkReader (before ++ done_ ++ l ++ after) (Zlength before)) (Zlength done_) acc =
  Ok (foldl (fun acc b => Z.lor (Z.shiftl acc 8) (Zb b)) acc l).
Proof.
  induction l as [|c l IH]; intros before done_ after acc Hlen; cbn [length read_be foldl]; [done|]. cbn [r_buff r_offset].
  rewrite !Zlength_app, Zlength_cons in Hlen. pose proof (Zlength_nonneg before). pose proof (Zlength_nonneg done_). pose proof (Zlength_nonneg l). pose proof (Zlength_nonneg after).
  rewrite u32_small by lia. rewrite (index_lookup _ _ c); [|lia|].
  - cbn [obind]. pose proof (IH before (done_ ++ [c]) after (Z.lor (Z.shiftl acc 8) (Zb c))) as Hi.
    rewrite <- app_assoc, (Zlength_app done_ [c]) in Hi. change (Zlength [c]) with 1 in Hi. apply Hi.
    rewrite !Zlength_app. change (Zlength [c]) with 1. lia.
  - rewrite <- Zlength_app, Zlength_nat, app_assoc. by apply list_lookup_middle.
Qed.
Lemma reads_be n z : 0 <= z < 256 ^ Z.of_nat n -> reads (fun r => let! v := read_be n r 0 0 in Ok (v, advance r (Z.of_nat n))) (be_put n z) z.
Proof.
  intros Hz before after Hlen. pose proof (read_be_ok (be_put n z) before [] after 0 Hlen) as Hr. rewrite length_be_put in Hr.
  cbn [app] in Hr. change (Zlength (@nil byte)) with 0 in Hr. rewrite Hr. cbn [obind].
  rewrite reader_advance by (done || by rewrite Zlength_be_put). fold (be_get (be_put n z)). by rewrite be_get_put, Z.mod_small.
Qed.
Lemma reads_Uint8 z : 0 <= z < 2 ^ 8 -> reads readUint8 (be_put 1 z) z.
Proof. apply (reads_be 1). Qed.
Lemma reads_Uint32 z : 0 <= z < 2 ^ 32 -> reads readUint32 (be_put 4 z) z.
Proof. apply (reads_be 4). Qed.
Lemma reads_Uint64 z : 0 <= z < 2 ^ 64 -> reads readUint64 (be_put 8 z) z.
Proof. apply (reads_be 8). Qed.
Lemma reads_Bool (v : bool) : reads readBool (be_put 1 (if v then 1 else 0)) v.
Proof.
  intros before after Hlen. unfold readBool. rewrite (reads_Uint8 (if v then 1 else 0)) by (done || by destruct v). cbn [obind]. by destruct v.
Qed.
Lemma reads_slice (v : list byte) : reads (fun b => let! (size, b) := readUint32 b in
  let! v := slice (r_buff b) (r_offset b) (u32 (r_offset b + size)) in Ok (v, advance b size)) (be_put 4 (Zlength v) ++ v) v.
Proof.
  intros before after Hall. assert (Zlength v < 2 ^ 32) as Hv.
  { rewrite !Zlength_app in Hall. pose proof (Zlength_nonneg before). pose proof (Zlength_nonneg after).
    pose proof (Zlength_nonneg (be_put 4 (Zlength v))). lia. }
  revert before after Hall. apply reads_bind with (g := fun size b => let! v := slice (r_buff b) (r_offset b) (u32 (r_offset b + size)) in Ok (v, advance b size)) (a := Zlength v).
  - apply reads_Uint32. pose proof (Zlength_nonneg v). lia.
  - intros before after Hlen. cbn [r_buff r_offset]. rewrite slice_here by done. cbn [obind]. by rewrite reader_advance.
Qed.
Lemma reads_String v : reads readString (be_put 4 (Zlength v) ++ v) v.
Proof. apply reads_slice. Qed.
Lemma reads_Bytes v : reads readBytes (be_put 4 (Zlength v) ++ v) v.
Proof. apply reads_slice. Qed.
Lemma reads_Hash h : reads readHash (hash_bytes h) h.
Proof.
  intros before after Hlen. assert (Z.of_nat ByteLen = Zlength (hash_bytes h)) as Hl by (unfold Zlength; by rewrite length_hash_bytes).
  unfold readHash. cbn [r_buff r_offset]. rewrite slice_here by done. cbn [obind]. rewrite reader_advance by done. by rewrite of_bytes_hash_bytes.
Qed.

Definition number_bytes (i exp : Z) : list byte := Varint.PutVarint i ++ Varint.PutVarint exp.
Lemma reads_Varint x : - 2 ^ 63 <= x < 2 ^ 63 -> reads (fun b => let! rest := slice_from (r_buff b) (r_offset b) in
  let '(i, count) := Varint.Varint rest in Ok (i, advance b (u32 count))) (Varint.PutVarint x) x.
Proof.
  intros Hx before after Hlen. cbn [r_buff r_offset]. rewrite slice_from_app by done. cbn [obind].
  rewrite Varint_Put by done. pose proof (PutVarint_length x Hx). pose proof (Zlength_nonneg (Varint.PutVarint x)).
  rewrite u32_small by (assert (2 ^ 32 = 4294967296) as -> by done; lia). by rewrite reader_advance.
Qed.
Lemma reads_Number i exp : - 2 ^ 63 <= i < 2 ^ 63 -> - 2 ^ 63 <= exp < 2 ^ 63 ->
  reads readNumber (number_bytes i exp) (intExpToFloat64 i exp).
Proof.
  intros Hi He before after Hlen. unfold number_bytes in *. pose proof (reads_bind _ (fun i b => let! (e, b) :=
    (let! rest := slice_from (r_buff b) (r_offset b) in let '(i, count) := Varint.Varint rest in Ok (i, advance b (u32 count))) in
    Ok (intExpToFloat64 i e, b)) _ _ i (intExpToFloat64 i exp) (reads_Varint i Hi)
    (reads_map _ (intExpToFloat64 i) _ exp (reads_Varint exp He)) before after Hlen) as H.
  rewrite <- H. unfold readNumber. cbn [r_buff r_offset]. destruct (slice_from _ _) as [l|w]; [|done]. cbn [obind].
  destruct (Varint.Varint l) as [x n]. cbn [obind r_buff r_offset]. destruct (slice_from _ _) as [l'|w]; [|done]. cbn [obind].
  by destruct (Varint.Varint l') as [y n'].
Qed.

(** *** Writing *)

(** The buffer has a power of two bytes, at most [2 ^ 31]. *)
Definition writer_ok (b : binaryNomsWriter) : Prop :=
  0 <= w_offset b <= Zlength (w_buff b) /\ exists k, 0 <= k <= 31 /\ Zlength (w_buff b) = 2 ^ k.
Definition written (b : binaryNomsWriter) : list byte := take (Z.to_nat (w_offset b)) (w_buff b).

Lemma Zlength_written b : writer_ok b -> Zlength (written b) = w_offset b.
Proof. intros [H _]. unfold written, Zlength in *. rewrite length_take. lia. Qed.
Lemma data_ok b : writer_ok b -> data b = Ok (written b).
Proof. intros [H _]. unfold data. rewrite slice_ok by lia. by rewrite Z.sub_0_r, drop_0. Qed.

Lemma double_length_ok need : need <= 2 ^ 31 -> forall fuel k, 0 <= k <= 31 -> (Z.to_nat (31 - k) < fuel)%nat ->
  exists j, double_length fuel need (2 ^ k) = Ok (2 ^ j) /\ k <= j <= 31 /\ need <= 2 ^ j.
Proof.
  intros Hneed. induction fuel as [|fuel IH]; intros k Hk Hf; [lia|]. cbn [double_length].
  destruct (2 ^ k <? need) eqn:E; bool_lia; [|exists k; split; [done|lia]].
  assert (k < 31) as Hlt by (apply (Z.pow_lt_mono_r_iff 2); lia).
  assert (u32 (2 ^ k * 2) = 2 ^ (k + 1)) as ->.
  { rewrite Z.pow_add_r, Z.pow_1_r by lia. apply u32_small. replace (2 ^ k * 2) with (2 ^ (k + 1)) by (rewrite Z.pow_add_r; lia).
    split; [lia|]. apply Z.pow_lt_mono_r; lia. }
  destruct (IH (k + 1)) as (j & -> & Hj & Hn); [lia..|]. exists j. split; [done|lia].
Qed.

Lemma ensureCapacity_ok b n : writer_ok b -> 0 <= n -> w_offset b + n <= 2 ^ 31 -> exists b',
  ensureCapacity capacity_fuel b n = Ok b' /\ writer_ok b' /\ written b' = written b /\ w_offset b' = w_offset b /\
  w_offset b + n <= Zlength (w_buff b').
Proof.
  intros Hb Hn Hle. pose proof Hb as [Ho (k & Hk & Hlen)]. assert (2 ^ 31 = 2147483648) as H31 by done.
  assert (2 ^ 32 = 4294967296) as H32 by done. assert (2 ^ k <= 2 ^ 31) as Hk31 by (apply Z.pow_le_mono_r; lia).
  unfold ensureCapacity. rewrite !u32_small by lia. destruct (w_offset b + n <=? Zlength (w_buff b)) eqn:E; bool_lia; [by exists b|].
  rewrite Hlen in *. destruct (double_length_ok (w_offset b + n) Hle capacity_fuel k) as (j & -> & Hj & Hneed); [done|unfold capacity_fuel; lia|].
  cbn [obind]. assert (Zlength (make_bytes (Z.to_nat (2 ^ j))) = 2 ^ j) as Hm by (unfold Zlength, make_bytes; rewrite length_replicate; lia).
  assert (2 ^ k <= 2 ^ j) as Hkj by (apply Z.pow_le_mono_r; lia).
  unfold copy_at. rewrite Z.leb_refl. rewrite (proj2 (Z.leb_le 0 _)) by (rewrite Hm; lia). cbn [andb obind].
  change (Z.to_nat 0) with 0%nat. unfold Zlength in *.
  assert (length (blit (make_bytes (Z.to_nat (2 ^ j))) 0 (w_buff b)) = length (make_bytes (Z.to_nat (2 ^ j)))) as Hbl by (apply length_blit; lia).
  eexists. split; [done|]. cbn [w_buff w_offset]. unfold writer_ok, written, Zlength. cbn [w_buff w_offset]. rewrite Hbl, Hm.
  split_and!; [lia|lia|exists j; lia| |done|done].
  unfold blit. rewrite take_0, (take_ge (w_buff b)) by lia. cbn [app]. apply take_app_le. lia.
Qed.

Lemma put_bytes_ok b v : writer_ok b -> w_offset b + Zlength v <= Zlength (w_buff b) -> exists b',
  put_bytes b v (Zlength v) = Ok b' /\ writer_ok b' /\ written b' = written b ++ v /\ Zlength (w_buff b') = Zlength (w_buff b) /\
  w_offset b' = w_offset b + Zlength v.
Proof.
  intros Hb Hle. pose proof Hb as [Ho (k & Hk & Hlen)]. assert (2 ^ 31 < 2 ^ 32) as H32 by done.
  assert (2 ^ k <= 2 ^ 31) as Hk31 by (apply Z.pow_le_mono_r; lia). pose proof (Zlength_nonneg v) as Hv.
  unfold put_bytes, copy_at. rewrite (proj2 (Z.leb_le 0 _)), (proj2 (Z.leb_le (w_offset b) _)) by lia. cbn [andb obind].
  rewrite u32_small by lia.
  assert (Zlength (blit (w_buff b) (Z.to_nat (w_offset b)) v) = Zlength (w_buff b)) as Hbl by (unfold Zlength in *; rewrite length_blit; lia).
  eexists. split; [done|]. unfold writer_ok, written. cbn [w_buff w_offset]. rewrite Hbl. split_and!; [lia|lia|by exists k| |done|done].
  unfold blit, Zlength in *. rewrite app_assoc, (take_ge v) by lia. apply take_app_length'. rewrite length_app, length_take. lia.
Qed.

(** [f] appends the bytes [l], as long as they and the room for a number fit
    into [2 ^ 31] bytes. *)
Definition appends (f : binaryNomsWriter -> outcome binaryNomsWriter) (l : list byte) : Prop :=
  forall b, writer_ok b -> w_offset b + Zlength l + 20 <= 2 ^ 31 -> exists b', f b = Ok b' /\ writer_ok b' /\ written b' = written b ++ l.

Lemma appends_ret : appends Ok [].
Proof. intros b Hb _. exists b. by rewrite app_nil_r. Qed.
Lemma appends_bind f g l k : appends f l -> appends g k -> appends (fun b => let! b := f b in g b) (l ++ k).
Proof.
  intros Hf Hg b Hb Hle. rewrite Zlength_app in Hle. pose proof (Zlength_nonneg k). destruct (Hf b) as (b1 & -> & Hb1 & Hw1); [done|lia|].
  cbn [obind]. destruct (Hg b1) as (b2 & -> & Hb2 & Hw2); [done| |].
  - rewrite <- (Zlength_written b1), Hw1, Zlength_app, Zlength_written by done. lia.
  - exists b2. split; [done|]. split; [done|]. by rewrite Hw2, Hw1, app_assoc.
Qed.
Lemma appends_put v n : n = Zlength v -> appends (fun b => let! b := ensureCapacity capacity_fuel b n in put_bytes b v n) v.
Proof.
  intros -> b Hb Hle. pose proof (Zlength_nonneg v). destruct (ensureCapacity_ok b (Zlength v)) as (b1 & -> & Hb1 & Hw1 & Ho1 & Hroom); [done|lia..|].
  cbn [obind]. destruct (put_bytes_ok b1 v) as (b2 & -> & Hb2 & Hw2 & _); [done|lia|]. exists b2. by rewrite Hw2, Hw1.
Qed.

Lemma appends_be n v : appends (fun b => put_be n b v) (be_put n v).
Proof.
  intros b Hb Hle. rewrite Zlength_be_put in Hle. unfold put_be.
  destruct (ensureCapacity_ok b (Z.of_nat n)) as (b1 & -> & Hb1 & Hw1 & Ho1 & Hroom); [done|lia..|]. cbn [obind].
  destruct (put_bytes_ok b1 (be_put n v)) as (b2 & Hp & Hb2 & Hw2 & _); [done|rewrite Zlength_be_put; lia|]. exists b2. rewrite Hw2, Hw1.
  split; [|done]. rewrite <- Hp. pose proof Hb1 as [Ho _]. unfold put_at, put_bytes, copy_at. rewrite Zlength_be_put.
  rewrite (proj2 (Z.leb_le 0 _)), (proj2 (Z.leb_le (w_offset b1 + _) _)), (proj2 (Z.leb_le (w_offset b1) _)) by lia. done.
Qed.
Lemma appends_Uint8 v : appends (fun b => writeUint8 b v) (be_put 1 v).
Proof. apply appends_be. Qed.
Lemma appends_Uint32 v : appends (fun b => writeUint32 b v) (be_put 4 v).
Proof. apply appends_be. Qed.
Lemma appends_Uint64 v : appends (fun b => writeUint64 b v) (be_put 8 v).
Proof. apply appends_be. Qed.
Lemma appends_Bool (v : bool) : appends (fun b => writeBool b v) (be_put 1 (if v then 1 else 0)).
Proof. destruct v; apply appends_be. Qed.
Lemma appends_slice v : appends (fun b => let size := u32 (Zlength v) in let! b := writeUint32 b size in
  let! b := ensureCapacity capacity_fuel b size in put_bytes b v size) (be_put 4 (Zlength v) ++ v).
Proof.
  intros b Hb Hle. pose proof (Zlength_nonneg v). assert (Zlength v < 2 ^ 32) as Hv.
  { rewrite !Zlength_app, Zlength_be_put in Hle. pose proof Hb as [? _]. assert (2 ^ 31 < 2 ^ 32) by done. lia. }
  rewrite u32_small by lia. cbv zeta. revert b Hb Hle.
  apply (appends_bind _ (fun b => let! b := ensureCapacity capacity_fuel b (Zlength v) in put_bytes b v (Zlength v))); [apply appends_Uint32|by apply appends_put].
Qed.
Lemma appends_String v : appends (fun b => writeString b v) (be_put 4 (Zlength v) ++ v).
Proof. apply appends_slice. Qed.
Lemma appends_Bytes v : appends (fun b => writeBytes b v) (be_put 4 (Zlength v) ++ v).
Proof. apply appends_slice. Qed.
Lemma appends_Hash h : appends (fun b => writeHash b h) (hash_bytes h).
Proof. apply appends_put. unfold Zlength. by rewrite length_hash_bytes. Qed.
Lemma appends_data v : appends (fun b => append_data b v) v.
Proof.
  intros b Hb Hle. assert (Zlength v < 2 ^ 32) as Hv by (pose proof Hb as [? _]; assert (2 ^ 31 < 2 ^ 32) by done; lia).
  unfold append_data. pose proof (Zlength_nonneg v). rewrite u32_small by lia. by apply appends_put.
Qed.

Lemma put_varint_ok b x : writer_ok b -> - 2 ^ 63 <= x < 2 ^ 63 -> w_offset b + Zlength (Varint.PutVarint x) <= Zlength (w_buff b) -> exists b',
  put_varint b x = Ok b' /\ writer_ok b' /\ written b' = written b ++ Varint.PutVarint x /\ Zlength (w_buff b') = Zlength (w_buff b) /\
  w_offset b' = w_offset b + Zlength (Varint.PutVarint x).
Proof.
  intros Hb Hx Hle. pose proof Hb as [Ho _]. unfold put_varint. rewrite slice_from_ok by lia. cbn [obind].
  pose proof (PutVarint_length x Hx) as Hl. pose proof (Zlength_nonneg (Varint.PutVarint x)) as Hn.
  rewrite (proj2 (Z.leb_le _ _)) by (unfold Zlength in *; rewrite length_drop; lia).
  rewrite u32_small by (assert (2 ^ 32 = 4294967296) as -> by done; lia). by apply put_bytes_ok.
Qed.
Lemma s64_small x : - 2 ^ 63 <= x < 2 ^ 63 -> s64 x = x.
Proof. intros Hx. unfold s64. change (2 ^ 64) with (2 ^ 63 + 2 ^ 63). rewrite Z.mod_small; lia. Qed.

(** A number takes at most the twenty bytes that are set aside. *)
Definition number_enc (f : float64) : list byte := match float64ToIntExp f with Ok (i, exp) => number_bytes i exp | Panic _ => [] end.
Lemma number_written f : finite f -> Zlength (number_enc f) <= 20 /\ appends (fun b => writeNumber b f) (number_enc f) /\
  reads readNumber (number_enc f) (stored_number f).
Proof.
  intros Hf. destruct (number_codec f Hf) as (i & exp & He & Hi & Hexp & Hdec). unfold number_enc. rewrite He.
  assert (- 2 ^ 63 <= exp < 2 ^ 63) as Hexp' by (change (2 ^ 63) with 9223372036854775808; lia).
  pose proof (PutVarint_length i Hi) as Hl1. pose proof (PutVarint_length exp Hexp') as Hl2.
  split; [unfold number_bytes; rewrite Zlength_app; lia|]. split; [|rewrite <- Hdec; by apply reads_Number].
  intros b Hb Hle. unfold writeNumber, Varint.MaxVarintLen64. pose proof (Zlength_nonneg (number_bytes i exp)).
  destruct (ensureCapacity_ok b (10 * 2)) as (b1 & -> & Hb1 & Hw1 & Ho1 & Hroom); [done|lia..|]. cbn [obind]. rewrite He. cbn [obind].
  destruct (put_varint_ok b1 i) as (b2 & -> & Hb2 & Hw2 & Hlen2 & Ho2); [done|done|lia|]. cbn [obind]. rewrite s64_small by done.
  destruct (put_varint_ok b2 exp) as (b3 & -> & Hb3 & Hw3 & _); [done|done|lia|]. exists b3. rewrite Hw3, Hw2, Hw1.
  unfold number_bytes. by rewrite app_assoc.
Qed.

End CodecFacts.
Import FloatFacts CodecFacts.

(** C34: a number that needs at most 1023 fractional bits is read back as a
    number that is equal to it. *)
Theorem number_roundtrip (b : binaryNomsWriter) (neg : bool) (m e : Z) :
  writer_ok b -> w_offset b + 40 <= 2 ^ 31 -> finite (Finite neg m e) -> -1023 <= e ->
  exists b' d g r, writeNumber b (Finite neg m e) = Ok b' /\ data b' = Ok d /\
    readNumber (MkReader d (w_offset b)) = Ok (g, r) /\ eqb g (Finite neg m e) = true /\ pos r = Zlength d.
Proof.
  intros Hb Hroom Hf He. destruct (number_written _ Hf) as (Hl & Hw & Hr). destruct (Hw b Hb ltac:(lia)) as (b' & Hb' & Hok & Hwr).
  exists b', (written b'), (stored_number (Finite neg m e)), (MkReader (written b') (Zlength (written b'))).
  split; [done|]. split; [by apply data_ok|]. rewrite Hwr. split; [|split; [|done]].
  - rewrite <- (Zlength_written b) by done. specialize (Hr (written b) []). rewrite app_nil_r in Hr. rewrite Hr; [by rewrite Zlength_app|].
    rewrite Zlength_app, Zlength_written by done. assert (2 ^ 31 < 2 ^ 32) by done. lia.
  - cbn [stored_number]. destruct (m =? 0) eqn:E; bool_lia; [subst; done|]. rewrite (proj2 (Z.leb_gt _ _)) by lia.
    cbn. by rewrite eqb_reflx, !Z.eqb_refl, orb_true_r.
Qed.

(** A number that needs more than 1023 fractional bits, which every
    subnormal with an odd last bit does, is read back as zero: the power of two
    that [intExpToFloat64] divides by is infinite. *)
Theorem number_small_lost (neg : bool) (m e : Z) : normal m e -> e <= -1024 ->
  exists i exp, float64ToIntExp (Finite neg m e) = Ok (i, exp) /\ intExpToFloat64 i exp = Finite neg 0 0.
Proof.
  intros Hn He. destruct (number_codec (Finite neg m e)) as (i & exp & H1 & _ & _ & H2); [by right|]. exists i, exp. split; [done|].
  rewrite H2. cbn [stored_number]. pose proof Hn as (_ & Hm & _). rewrite (proj2 (Z.eqb_neq m 0)), (proj2 (Z.leb_le e _)) by lia. done.
Qed.

(** [ensureCapacity] makes room for any data up to [2 ^ 31] bytes, without
    touching what was written. *)
Theorem ensureCapacity_room (b : binaryNomsWriter) (n : Z) : writer_ok b -> 0 <= n -> w_offset b + n <= 2 ^ 31 ->
  exists b', ensureCapacity capacity_fuel b n = Ok b' /\ w_offset b' + n <= Zlength (w_buff b') /\ data b' = data b.
Proof.
  intros Hb Hn Hle. destruct (ensureCapacity_ok b n Hb Hn Hle) as (b' & He & Hb' & Hw & Ho & Hroom). exists b'.
  rewrite !data_ok, Hw, Ho by done. done.
Qed.

(** [ensureCapacity] does not end for more than [2 ^ 31] bytes: the length
    is doubled at 32 bits until it is zero and stays zero. *)
Theorem ensureCapacity_diverges (b : binaryNomsWriter) (n : Z) (fuel : nat) :
  writer_ok b -> 2 ^ 31 < w_offset b + n < 2 ^ 32 -> ensureCapacity fuel b n = Panic OutOfFuel.
Proof.
  intros [Ho (k & Hk & Hlen)] Hn. assert (2 ^ k <= 2 ^ 31) as Hk31 by (apply Z.pow_le_mono_r; lia).
  assert (2 ^ 31 = 2147483648) as H31 by done. assert (2 ^ 32 = 4294967296) as H32 by done. unfold ensureCapacity.
  rewrite !u32_small by lia. rewrite (proj2 (Z.leb_gt _ _)) by lia. rewrite Hlen.
  assert (forall len, len = 0 \/ (exists k, 0 <= k <= 31 /\ len = 2 ^ k) -> double_length fuel (w_offset b + n) len = Panic OutOfFuel) as Hgo.
  { induction fuel as [|fuel IH]; intros len Hl; [done|]. cbn [double_length]. assert (len <= 2 ^ 31) as Hle.
    { destruct Hl as [->|(j & Hj & ->)]; [lia|]. apply Z.pow_le_mono_r; lia. }
    rewrite (proj2 (Z.ltb_lt _ _)) by lia. apply IH. destruct Hl as [->|(j & Hj & ->)]; [by left|].
    replace (2 ^ j * 2) with (2 ^ (j + 1)) by (rewrite Z.pow_add_r; lia). destruct (decide (j = 31)) as [->|]; [by left|right].
    exists (j + 1). split; [lia|]. apply u32_small. split; [lia|apply Z.pow_lt_mono_r; lia]. }
  rewrite Hgo; [done|right; by exists k].
Qed.

Lemma number_roundtrip_witness : exists b' d g r, writeNumber newBinaryNomsWriter (Finite true 5 (-3)) = Ok b' /\ data b' = Ok d /\
  readNumber (MkReader d 0) = Ok (g, r) /\ eqb g (Finite true 5 (-3)) = true /\ pos r = Zlength d.
Proof.
  apply (number_roundtrip newBinaryNomsWriter true 5 (-3)); [split; [done|exists 11; done]|done| |done].
  right. split; [by exists 2|done].
Defined.
Lemma number_small_lost_witness : exists i exp, float64ToIntExp (Finite false 1 (-1074)) = Ok (i, exp) /\ intExpToFloat64 i exp = Finite false 0 0.
Proof. apply (number_small_lost false 1 (-1074)); [split; [by exists 0|done]|done]. Defined.
Lemma ensureCapacity_room_witness : exists b', ensureCapacity capacity_fuel newBinaryNomsWriter 5000 = Ok b' /\
  w_offset b' + 5000 <= Zlength (w_buff b') /\ data b' = data newBinaryNomsWriter.
Proof. apply (ensureCapacity_room newBinaryNomsWriter 5000); [split; [done|exists 11; done]|done..]. Defined.
Lemma ensureCapacity_diverges_witness : ensureCapacity 100 newBinaryNomsWriter (2 ^ 31 + 1) = Panic OutOfFuel.
Proof. apply (ensureCapacity_diverges newBinaryNomsWriter (2 ^ 31 + 1) 100); [split; [done|exists 11; done]|done]. Defined.
