(* ===== verification/TypesType.v ===== *)
(** * Package [types]: types and the type cache

    (src/go/types/noms_kind.go, type.go, type_desc.go, type_cache.go and the type
    part of value_encoder.go and value_decoder.go)

    A [*Type] is a pointer: equal types are meant to be one object, which the
    [TypeCache] finds in its tries, and the fields of a recursive struct type
    point back to it.  So types live on a heap, a [*Type] is an index into it,
    and every operation passes the heap and the cache on.  Recursion over the
    type graph takes fuel. *)

From S2P Require Import Prelude GoLib HashPkg TypesCodec.
Import Hash Codec.

(** ** noms_kind.go *)

Module NomsKinds.

Inductive NomsKind : Type :=
| BoolKind | NumberKind | StringKind | BlobKind | ValueKind | ListKind | MapKind | RefKind | SetKind
| StructKind | TypeKind | CycleKind | UnionKind.

#[global] Instance NomsKind_eq_dec : EqDecision NomsKind.
Proof. solve_decision. Defined.

(** [iota]. *)
Definition kind_code (k : NomsKind) : Z :=
  match k with
  | BoolKind => 0 | NumberKind => 1 | StringKind => 2 | BlobKind => 3 | ValueKind => 4 | ListKind => 5 | MapKind => 6
  | RefKind => 7 | SetKind => 8 | StructKind => 9 | TypeKind => 10 | CycleKind => 11 | UnionKind => 12
  end.
(** A byte that is not the code of a kind is a value of [NomsKind] all the same;
    no [case] of the code takes it. *)
Definition kind_of (z : Z) : option NomsKind :=
  match z with
  | 0 => Some BoolKind | 1 => Some NumberKind | 2 => Some StringKind | 3 => Some BlobKind | 4 => Some ValueKind
  | 5 => Some ListKind | 6 => Some MapKind | 7 => Some RefKind | 8 => Some SetKind | 9 => Some StructKind
  | 10 => Some TypeKind | 11 => Some CycleKind | 12 => Some UnionKind | _ => None
  end.

Definition IsPrimitiveKind (k : NomsKind) : bool :=
  match k with BoolKind | NumberKind | StringKind | BlobKind | ValueKind | TypeKind => true | _ => false end.
Definition isKindOrderedByValue (k : NomsKind) : bool := kind_code k <=? kind_code StringKind.

End NomsKinds.
Import NomsKinds.

(** ** Loops that pass a state on *)

Fixpoint map_w {A B W} (f : A -> W -> outcome (B * W)) (l : list A) (w : W) : outcome (list B * W) :=
  match l with
  | [] => Ok ([], w)
  | a :: l' => let! (b, w) := f a w in let! (bs, w) := map_w f l' w in Ok (b :: bs, w)
  end.
Fixpoint fold_w {A W} (f : A -> W -> outcome W) (l : list A) (w : W) : outcome W :=
  match l with
  | [] => Ok w
  | a :: l' => let! w := f a w in fold_w f l' w
  end.
Fixpoint any_w {A} (f : A -> outcome bool) (l : list A) : outcome bool :=
  match l with
  | [] => Ok false
  | a :: l' => let! b := f a in if b then Ok true else any_w f l'
  end.

Fixpoint repeat_w {B W} (n : nat) (f : W -> outcome (B * W)) (w : W) : outcome (list B * W) :=
  match n with
  | O => Ok ([], w)
  | S n' => let! (b, w) := f w in let! (bs, w) := repeat_w n' f w in Ok (b :: bs, w)
  end.
(** [for i := 0; i < n; i++ { s = f(s) }]. *)
Fixpoint iterate_w {S W} (n : nat) (f : S -> W -> outcome (S * W)) (s : S) (w : W) : outcome (S * W) :=
  match n with
  | O => Ok (s, w)
  | Datatypes.S n' => let! (s, w) := f s w in iterate_w n' f s w
  end.

Module TypeCache.

(** ** Types and the heap *)

Abbreviation ptr := nat.

Inductive TypeDesc : Type :=
| PrimitiveDesc (k : NomsKind)
| CompoundDesc (kind : NomsKind) (ElemTypes : list ptr)
| StructDesc (Name : list byte) (fields : list (list byte * ptr))
| CycleDesc (level : Z).
Definition desc_Kind (d : TypeDesc) : NomsKind :=
  match d with PrimitiveDesc k => k | CompoundDesc kind _ => kind | StructDesc _ _ => StructKind | CycleDesc _ => CycleKind end.

(** The field [h] holds the empty hash until the hash is asked for. *)
Record Typ : Type := MkType {
  Desc : TypeDesc; t_h : Hash; oid : option Hash; id : Z; serialization : option (list byte) }.

(** The type trie of a kind is known by the paths from its root: position
    [(kind, path)] holds the type found there, and nodes without a type are not
    observable. *)
Record world : Type := MkWorld {
  heap : list Typ;
  ident_entries : gmap (list byte) Z; ident_nextId : Z;
  tries : gmap (Z * list Z) ptr; nextId : Z }.

Definition get_type (w : world) (t : ptr) : outcome Typ :=
  match heap w !! t with Some T => Ok T | None => Panic NilDereference end.
Definition set_heap (w : world) (h : list Typ) : world := MkWorld h (ident_entries w) (ident_nextId w) (tries w) (nextId w).
Definition set_type (w : world) (t : ptr) (T : Typ) : world := set_heap w (<[t := T]> (heap w)).
Definition set_desc (T : Typ) (d : TypeDesc) : Typ := MkType d (t_h T) (oid T) (id T) (serialization T).
Definition set_oid (T : Typ) (o : Hash) : Typ := MkType (Desc T) (t_h T) (Some o) (id T) (serialization T).
Definition set_hash (T : Typ) (h : Hash) : Typ := MkType (Desc T) h (oid T) (id T) (serialization T).
Definition set_id (T : Typ) (i : Z) : Typ := MkType (Desc T) (t_h T) (oid T) i (serialization T).
Definition set_serialization (T : Typ) (s : list byte) : Typ := MkType (Desc T) (t_h T) (oid T) (id T) (Some s).

Definition new_Type (desc : TypeDesc) (id : Z) : Typ := MkType desc emptyHash None id None.
Definition newType (desc : TypeDesc) (id : Z) (w : world) : ptr * world :=
  (length (heap w), set_heap w (heap w ++ [new_Type desc id])).

Definition BoolType : ptr := 0%nat.
Definition NumberType : ptr := 1%nat.
Definition StringType : ptr := 2%nat.
Definition BlobType : ptr := 3%nat.
Definition TypeType : ptr := 4%nat.
Definition ValueType : ptr := 5%nat.
Definition makePrimitiveType (k : NomsKind) : Typ := new_Type (PrimitiveDesc k) (kind_code k).

(** The package variables and an empty cache. *)
Definition NewTypeCache : world :=
  MkWorld (makePrimitiveType <$> [BoolKind; NumberKind; StringKind; BlobKind; TypeKind; ValueKind]) ∅ 0 ∅ 256.

Definition MakePrimitiveType (k : NomsKind) : outcome ptr :=
  match k with
  | BoolKind => Ok BoolType | NumberKind => Ok NumberType | StringKind => Ok StringType
  | BlobKind => Ok BlobType | ValueKind => Ok ValueType | TypeKind => Ok TypeType
  | _ => Panic AssertFailed
  end.

Definition Kind (w : world) (t : ptr) : outcome NomsKind := let! T := get_type w t in Ok (desc_Kind (Desc T)).

(** Enough for every path through a graph whose cycles all go through a struct
    that is remembered. *)
Definition type_fuel (w : world) : nat := (2 * (S (length (heap w)) * S (length (heap w))))%nat.

Fixpoint indexOfType_loop (t : ptr) (tl : list ptr) (i : Z) : option Z :=
  match tl with
  | [] => None
  | t' :: tl' => if Nat.eqb t' t then Some i else indexOfType_loop t tl' (i + 1)
  end.
Definition indexOfType (t : ptr) (tl : list ptr) : option Z := indexOfType_loop t tl 0.

(** ** Cycles *)

Fixpoint hasUnresolvedCycle (fuel : nat) (w : world) (t : ptr) (visited : list ptr) : outcome bool :=
  match fuel with
  | O => Panic OutOfFuel
  | S fuel' =>
      match indexOfType t visited with
      | Some _ => Ok false
      | None =>
          let! T := get_type w t in
          match Desc T with
          | PrimitiveDesc _ => Ok false
          | CompoundDesc _ ts => any_w (fun t' => hasUnresolvedCycle fuel' w t' (visited ++ [t])) ts
          | StructDesc _ fields => any_w (fun f => hasUnresolvedCycle fuel' w f.2 (visited ++ [t])) fields
          | CycleDesc _ => Ok true
          end
      end
  end.
Definition HasUnresolvedCycle (w : world) (t : ptr) : outcome bool := hasUnresolvedCycle (type_fuel w) w t [].

Definition nextTypeId (w : world) : Z * world :=
  (nextId w, MkWorld (heap w) (ident_entries w) (ident_nextId w) (tries w) (u32 (nextId w + 1))).
Definition newType_next (desc : TypeDesc) (w : world) : ptr * world :=
  let '(i, w) := nextTypeId w in newType desc i w.

Fixpoint toUnresolvedType (fuel : nat) (t : ptr) (level : Z) (parentStructTypes : list ptr) (w : world) : outcome ((ptr * bool) * world) :=
  match fuel with
  | O => Panic OutOfFuel
  | S fuel' =>
      match indexOfType t parentStructTypes with
      | Some i =>
          let '(c, w) := newType (CycleDesc (u32 (u32 (Zlength parentStructTypes) - i - 1))) 0xfa15e w in Ok ((c, true), w)
      | None =>
          let! T := get_type w t in
          match Desc T with
          | CompoundDesc kind ElemTypes =>
              let! (ts, w) := map_w (fun et => toUnresolvedType fuel' et level parentStructTypes) ElemTypes w in
              if existsb snd ts then let '(t', w) := newType_next (CompoundDesc kind (fst <$> ts)) w in Ok ((t', true), w)
              else Ok ((t, false), w)
          | StructDesc Name fields =>
              let! (ts, w) := map_w (fun f => toUnresolvedType fuel' f.2 (level + 1) (parentStructTypes ++ [t])) fields w in
              if existsb snd ts
              then let '(t', w) := newType_next (StructDesc Name (zip (fst <$> fields) (fst <$> ts))) w in Ok ((t', true), w)
              else Ok ((t, false), w)
          | CycleDesc desc => Ok ((t, desc <=? level), w)
          | PrimitiveDesc _ => Ok ((t, false), w)
          end
      end
  end.
Definition ToUnresolvedType (t : ptr) (w : world) : outcome (ptr * world) :=
  let! ((t2, _), w) := toUnresolvedType (type_fuel w) t 0 [] w in Ok (t2, w).

(** [desc.ElemTypes[i] = t'] and [desc.fields[i].t = t'], in place. *)
Definition set_component (w : world) (t : ptr) (i : nat) (t' : ptr) : outcome world :=
  let! T := get_type w t in
  match Desc T with
  | CompoundDesc kind ElemTypes => Ok (set_type w t (set_desc T (CompoundDesc kind (<[i := t']> ElemTypes))))
  | StructDesc Name fields => Ok (set_type w t (set_desc T (StructDesc Name (alter (fun f => (f.1, t')) i fields))))
  | _ => Ok w
  end.
Definition component (w : world) (t : ptr) (i : nat) : outcome ptr :=
  let! T := get_type w t in
  match (match Desc T with CompoundDesc _ ts => ts | StructDesc _ fs => snd <$> fs | _ => [] end) !! i with
  | Some t' => Ok t'
  | None => Panic IndexOutOfRange
  end.

(** Replaces cycles by pointers to the enclosing structs, in place. *)
Fixpoint resolveStructCycles (fuel : nat) (t : ptr) (parentStructTypes : list ptr) (w : world) : outcome (ptr * world) :=
  match fuel with
  | O => Panic OutOfFuel
  | S fuel' =>
      let step parents i w :=
        let! et := component w t i in
        let! (et', w) := resolveStructCycles fuel' et parents w in
        set_component w t i et' in
      let! T := get_type w t in
      match Desc T with
      | CompoundDesc _ ElemTypes =>
          let! w := fold_w (step parentStructTypes) (seq 0 (length ElemTypes)) w in Ok (t, w)
      | StructDesc _ fields =>
          let! w := fold_w (step (parentStructTypes ++ [t])) (seq 0 (length fields)) w in Ok (t, w)
      | CycleDesc idx =>
          let n := u32 (Zlength parentStructTypes) in
          if idx <? n then let! p := index parentStructTypes (u32 (u32 (n - 1) - idx)) in Ok (p, w) else Ok (t, w)
      | PrimitiveDesc _ => Ok (t, w)
      end
  end.

(** ** Encoding of types (value_encoder.go) *)

Section writer.
Context {W : Type} `{nomsWriter W}.

Definition writeKind (b : W) (kind : NomsKind) : outcome W := nw_writeUint8 b (kind_code kind).
Definition writeCycle (b : W) (i : Z) : outcome W :=
  let! b := writeKind b CycleKind in nw_writeUint32 b i.

Fixpoint writeType (fuel : nat) (w : world) (t : ptr) (parentStructTypes : list ptr) (b : W) : outcome W :=
  match fuel with
  | O => Panic OutOfFuel
  | S fuel' =>
      let! T := get_type w t in
      match Desc T with
      | CompoundDesc UnionKind elemTypes =>
          let! b := writeKind b UnionKind in
          let! b := nw_writeUint32 b (u32 (Zlength elemTypes)) in
          fold_w (fun elemType b => writeType fuel' w elemType parentStructTypes b) elemTypes b
      | CompoundDesc ((ListKind | MapKind | RefKind | SetKind) as k) elemTypes =>
          let! b := writeKind b k in
          fold_w (fun elemType b => writeType fuel' w elemType parentStructTypes b) elemTypes b
      | CompoundDesc k _ => let! b := writeKind b k in let! _ := check (IsPrimitiveKind k) in Ok b
      | StructDesc Name fields =>
          match indexOfType t parentStructTypes with
          | Some i => writeCycle b (u32 (u32 (Zlength parentStructTypes) - i - 1))
          | None =>
              let! b := writeKind b StructKind in
              let! b := nw_writeString b Name in
              let! b := nw_writeUint32 b (u32 (Zlength fields)) in
              fold_w (fun f b => let! b := nw_writeString b f.1 in writeType fuel' w f.2 (parentStructTypes ++ [t]) b) fields b
          end
      | CycleDesc level => writeCycle b level
      | PrimitiveDesc k => let! b := writeKind b k in let! _ := check (IsPrimitiveKind k) in Ok b
      end
  end.

End writer.

Definition initialTypeBufferSize : nat := 128.
Definition ensureTypeSerialization (w : world) (t : ptr) : outcome world :=
  let! T := get_type w t in
  match serialization T with
  | Some _ => Ok w
  | None =>
      let! b := writeType (type_fuel w) w t [] (MkNomsWriter (make_bytes initialTypeBufferSize) 0) in
      let! s := data b in
      Ok (set_type w t (set_serialization T s))
  end.
Definition appendType (t : ptr) (s : binaryNomsWriter * world) : outcome (binaryNomsWriter * world) :=
  let '(b, w) := s in
  let! w := ensureTypeSerialization w t in
  let! T := get_type w t in
  let! b := append_data b (default [] (serialization T)) in
  Ok (b, w).

(** [t.Hash()]: the hash of the encoding of [t] as a value. *)
Definition Type_Hash (t : ptr) (w : world) : outcome (Hash * world) :=
  let! T := get_type w t in
  if IsEmpty (t_h T) then
    let! (b, w) := appendType TypeType (newBinaryNomsWriter, w) in
    let! b := writeType (type_fuel w) w t [] b in
    let! d := data b in
    let! T := get_type w t in
    Ok (Of d, set_type w t (set_hash T (Of d)))
  else Ok (t_h T, w).

(** ** Order ids *)

Fixpoint checkForUnresolvedCycles (fuel : nat) (w : world) (root t : ptr) (parentStructTypes : list ptr) : outcome unit :=
  match fuel with
  | O => Panic OutOfFuel
  | S fuel' =>
      let! T := get_type w t in
      match Desc T with
      | CycleDesc _ => Panic ExplicitPanic
      | CompoundDesc _ ElemTypes =>
          if Nat.eqb t root then Ok tt
          else fold_w (fun e _ => checkForUnresolvedCycles fuel' w root e parentStructTypes) ElemTypes tt
      | StructDesc _ fields =>
          match indexOfType t parentStructTypes with
          | Some _ => Ok tt
          | None => fold_w (fun f _ => checkForUnresolvedCycles fuel' w root f.2 (parentStructTypes ++ [t])) fields tt
          end
      | PrimitiveDesc _ => Ok tt
      end
  end.

Definition xor_bytes (a b : list byte) : list byte := zip_with (fun x y => bZ (Z.lxor (Zb x) (Zb y))) a b.
(** The set of order ids, xored byte by byte in the order of a map iteration,
    which does not matter. *)
Definition xor_all (oids : list Hash) : list byte :=
  foldr xor_bytes (make_bytes ByteLen) (hash_bytes <$> remove_dups oids).

Fixpoint encodeForOID (fuel : nat) (t : ptr) (allowUnresolvedCycles : bool) (root : ptr) (parentStructTypes : list ptr)
    (s : binaryNomsWriter * world) : outcome (binaryNomsWriter * world) :=
  match fuel with
  | O => Panic OutOfFuel
  | S fuel' =>
      let '(buf, w) := s in
      let! T := get_type w t in
      match Desc T with
      | CycleDesc desc =>
          if allowUnresolvedCycles
          then let! buf := writeUint8 buf (kind_code CycleKind) in let! buf := writeUint32 buf desc in Ok (buf, w)
          else Panic ExplicitPanic
      | PrimitiveDesc k => let! buf := writeUint8 buf (kind_code k) in Ok (buf, w)
      | CompoundDesc UnionKind ElemTypes =>
          let! buf := writeUint8 buf (kind_code UnionKind) in
          if Nat.eqb t root then Ok (buf, w)
          else
            let! buf := writeUint32 buf (u32 (Zlength ElemTypes)) in
            let! (oids, (mbuf, w)) := map_w (fun elemType '(mbuf, w) =>
              let! E := get_type w elemType in
              match oid E with
              | None =>
                  let! (mbuf, w) := encodeForOID fuel' elemType allowUnresolvedCycles root parentStructTypes (reset mbuf, w) in
                  let! d := data mbuf in
                  let h2 := Of d in
                  match indexOfType elemType parentStructTypes with
                  | Some _ => Ok (h2, (mbuf, w))
                  | None => let! E := get_type w elemType in Ok (h2, (mbuf, set_type w elemType (set_oid E h2)))
                  end
              | Some h =>
                  let! _ := checkForUnresolvedCycles fuel' w root elemType parentStructTypes in Ok (h, (mbuf, w))
              end) ElemTypes (newBinaryNomsWriter, w) in
            let! buf := writeBytes buf (xor_all oids) in
            Ok (buf, w)
      | CompoundDesc ((ListKind | MapKind | RefKind | SetKind) as k) ElemTypes =>
          let! buf := writeUint8 buf (kind_code k) in
          let! buf := writeUint32 buf (u32 (Zlength ElemTypes)) in
          fold_w (fun e => encodeForOID fuel' e allowUnresolvedCycles root parentStructTypes) ElemTypes (buf, w)
      | CompoundDesc _ _ => Panic ExplicitPanic
      | StructDesc Name fields =>
          match indexOfType t parentStructTypes with
          | Some idx =>
              let! buf := writeUint8 buf (kind_code CycleKind) in
              let! buf := writeUint32 buf (u32 (u32 (Zlength parentStructTypes) - 1 - idx)) in
              Ok (buf, w)
          | None =>
              let! buf := writeUint8 buf (kind_code StructKind) in
              let! buf := writeString buf Name in
              fold_w (fun f '(buf, w) =>
                let! buf := writeString buf f.1 in
                encodeForOID fuel' f.2 allowUnresolvedCycles root (parentStructTypes ++ [t]) (buf, w)) fields (buf, w)
          end
      end
  end.

Definition generateOID (t : ptr) (allowUnresolvedCycles : bool) (w : world) : outcome world :=
  let! T := get_type w t in
  match oid T with
  | Some _ => Ok w
  | None =>
      let! (buf, w) := encodeForOID (type_fuel w) t allowUnresolvedCycles t [] (newBinaryNomsWriter, w) in
      let! d := data buf in
      let! T := get_type w t in
      Ok (set_type w t (set_oid T (Of d)))
  end.

(** ** Checks of struct types *)

Fixpoint walkType (fuel : nat) (t : ptr) (parentStructTypes : list ptr) (cb : ptr -> list ptr -> world -> outcome world) (w : world) : outcome world :=
  match fuel with
  | O => Panic OutOfFuel
  | S fuel' =>
      let! T := get_type w t in
      match Desc T, indexOfType t parentStructTypes with
      | StructDesc _ _, Some _ => Ok w
      | _, _ =>
          let! w := cb t parentStructTypes w in
          let! T := get_type w t in
          match Desc T with
          | CompoundDesc _ ElemTypes => fold_w (fun t' => walkType fuel' t' parentStructTypes cb) ElemTypes w
          | StructDesc _ fields => fold_w (fun f => walkType fuel' f.2 (parentStructTypes ++ [t]) cb) fields w
          | _ => Ok w
          end
      end
  end.

Definition oid_of (w : world) (t : ptr) : outcome Hash :=
  let! T := get_type w t in match oid T with Some o => Ok o | None => Panic NilDereference end.
Definition generateOIDs (t : ptr) (_ : list ptr) (w : world) : outcome world := generateOID t false w.
Definition checkForUnrolledCycles (t : ptr) (parentStructTypes : list ptr) (w : world) : outcome world :=
  let! k := Kind w t in
  match k with
  | StructKind =>
      fold_w (fun p w => let! o := oid_of w t in let! o' := oid_of w p in
        if bool_decide (o = o') then Panic ExplicitPanic else Ok w) parentStructTypes w
  | _ => Ok w
  end.

(** [sort.Sort(typeSlice)]: [Less] compares order ids, which have to be there
    when there is something to compare. *)
Definition sort_types `{GoSort} (w : world) (ts : list ptr) : outcome (list ptr) :=
  if Nat.ltb (length ts) 2 then Ok ts
  else
    let! (os, _) := map_w (fun t _ => let! o := oid_of w t in Ok ((o, t), tt)) ts tt in
    Ok (snd <$> go_sort (fun x y => Less x.1 y.1) os).
Definition sortUnions `{GoSort} (t : ptr) (_ : list ptr) (w : world) : outcome world :=
  let! T := get_type w t in
  match Desc T with
  | CompoundDesc UnionKind ElemTypes => let! ts := sort_types w ElemTypes in Ok (set_type w t (set_desc T (CompoundDesc UnionKind ts)))
  | _ => Ok w
  end.

(** struct.go: the pattern of field and struct names. *)
Definition is_letter (c : byte) : bool := ((97 <=? Zb c) && (Zb c <=? 122)) || ((65 <=? Zb c) && (Zb c <=? 90)).
Definition is_tail (c : byte) : bool := is_letter c || ((48 <=? Zb c) && (Zb c <=? 57)) || (Zb c =? 95).
Definition IsValidStructFieldName (name : list byte) : bool :=
  match name with [] => false | c :: l => is_letter c && forallb is_tail l end.
Definition verifyFieldName (name : list byte) : outcome unit :=
  if IsValidStructFieldName name then Ok tt else Panic ExplicitPanic.
Definition verifyStructName (name : list byte) : outcome unit :=
  match name with [] => Ok tt | _ => if IsValidStructFieldName name then Ok tt else Panic ExplicitPanic end.
(** Each name after its predecessor. *)
Fixpoint verify_after (last : list byte) (names : list (list byte)) : outcome unit :=
  match names with
  | [] => Ok tt
  | n :: names' =>
      let! _ := verifyFieldName n in
      let! _ := check (match bytes_Compare last n with Lt => true | _ => false end) in
      verify_after n names'
  end.
Definition verifyFieldNames (names : list (list byte)) : outcome unit :=
  match names with [] => Ok tt | n :: names' => let! _ := verifyFieldName n in verify_after n names' end.
Definition verifyFields (fs : list (list byte * ptr)) : outcome unit := verifyFieldNames (fst <$> fs).

Fixpoint ordered_oids (w : world) (last : ptr) (ts : list ptr) : outcome unit :=
  match ts with
  | [] => Ok tt
  | t :: ts' =>
      let! o := oid_of w last in
      let! o' := oid_of w t in
      if Less o o' then ordered_oids w t ts' else Panic ExplicitPanic
  end.
Definition validateTypes (t : ptr) (_ : list ptr) (w : world) : outcome world :=
  let! T := get_type w t in
  match Desc T with
  | CompoundDesc UnionKind [] => Ok w
  | CompoundDesc UnionKind [_] => Panic ExplicitPanic
  | CompoundDesc UnionKind (t1 :: ts) => let! _ := ordered_oids w t1 ts in Ok w
  | StructDesc Name fields => let! _ := verifyStructName Name in let! _ := verifyFields fields in Ok w
  | _ => Ok w
  end.

Inductive checkKindType : Type := checkKindNormalize | checkKindNoValidate | checkKindValidate.

Definition checkStructType `{GoSort} (t : ptr) (checkKind : checkKindType) (w : world) : outcome world :=
  match checkKind with
  | checkKindNoValidate => Ok w
  | _ =>
      let! w := walkType (type_fuel w) t [] generateOIDs w in
      let! w := walkType (type_fuel w) t [] checkForUnrolledCycles w in
      match checkKind with
      | checkKindNormalize => walkType (type_fuel w) t [] sortUnions w
      | _ => walkType (type_fuel w) t [] validateTypes w
      end
  end.

(** ** The cache *)

Definition GetId (ident : list byte) (w : world) : Z * world :=
  match ident_entries w !! ident with
  | Some i => (i, w)
  | None =>
      let i := ident_nextId w in
      (i, MkWorld (heap w) (<[ident := i]> (ident_entries w)) (u32 (i + 1)) (tries w) (nextId w))
  end.
(** A position in the trie of a kind. *)
Abbreviation trie := (Z * list Z)%type.
Definition root_trie (kind : NomsKind) : trie := (kind_code kind, []).
Definition Traverse (tct : trie) (typeId : Z) : trie := (tct.1, tct.2 ++ [typeId]).
Definition trie_t (w : world) (tct : trie) : option ptr := tries w !! tct.
Definition set_trie (w : world) (tct : trie) (t : ptr) : world :=
  MkWorld (heap w) (ident_entries w) (ident_nextId w) (<[tct := t]> (tries w)) (nextId w).

Definition type_id (w : world) (t : ptr) : outcome Z := let! T := get_type w t in Ok (id T).
Fixpoint traverse_ids (w : world) (tct : trie) (ts : list ptr) : outcome trie :=
  match ts with
  | [] => Ok tct
  | t :: ts' => let! i := type_id w t in traverse_ids w (Traverse tct i) ts'
  end.
Definition getCompoundType (kind : NomsKind) (elemTypes : list ptr) (w : world) : outcome (ptr * world) :=
  let! tct := traverse_ids w (root_trie kind) elemTypes in
  match trie_t w tct with
  | Some t => Ok (t, w)
  | None => let '(t, w) := newType_next (CompoundDesc kind elemTypes) w in Ok (t, set_trie w tct t)
  end.
Definition getCycleType (level : Z) (w : world) : outcome (ptr * world) :=
  let tct := Traverse (root_trie CycleKind) level in
  match trie_t w tct with
  | Some t => Ok (t, w)
  | None => let '(t, w) := newType_next (CycleDesc level) w in Ok (t, set_trie w tct t)
  end.

(** The path of a struct: its name, then name and type of each field. *)
Fixpoint traverse_fields (tct : trie) (fields : list (list byte * ptr)) (w : world) : outcome (trie * world) :=
  match fields with
  | [] => Ok (tct, w)
  | (fn, ft) :: fields' =>
      let '(i, w) := GetId fn w in
      let! j := type_id w ft in
      traverse_fields (Traverse (Traverse tct i) j) fields' w
  end.
Definition makeStructTypeQuickly `{GoSort} (name : list byte) (fields : list (list byte * ptr)) (checkKind : checkKindType) (w : world) : outcome (ptr * world) :=
  let '(i, w) := GetId name w in
  let! (tct, w) := traverse_fields (Traverse (root_trie StructKind) i) fields w in
  match trie_t w tct with
  | Some t => Ok (t, w)
  | None =>
      let '(t, w) := newType (StructDesc name fields) 0 w in
      let! unresolved := HasUnresolvedCycle w t in
      let! (t, w) :=
        if unresolved then
          let! ((t, _), w) := toUnresolvedType (type_fuel w) t (-1) [] w in
          let! (_, w) := resolveStructCycles (type_fuel w) t [] w in
          let! still := HasUnresolvedCycle w t in
          let! w := if still then Ok w else checkStructType t checkKind w in
          Ok (t, w)
        else Ok (t, w) in
      let '(i, w) := nextTypeId w in
      let! T := get_type w t in
      let w := set_type w t (set_id T i) in
      Ok (t, set_trie w tct t)
  end.
Definition makeStructType `{GoSort} (name : list byte) (fieldNames : list (list byte)) (fieldTypes : list ptr) (w : world) : outcome (ptr * world) :=
  if negb (Nat.eqb (length fieldNames) (length fieldTypes)) then Panic ExplicitPanic
  else
    let! _ := verifyStructName name in
    let! _ := verifyFieldNames fieldNames in
    makeStructTypeQuickly name (zip fieldNames fieldTypes) checkKindNormalize w.

(** The types of nested unions, each hash once. *)
Fixpoint flattenUnionTypes (fuel : nat) (ts : list ptr) (seenTypes : gset Hash) (w : world) : outcome (list ptr * (gset Hash * world)) :=
  match fuel with
  | O => Panic OutOfFuel
  | S fuel' =>
      let! (tss, s) := map_w (fun t '(seenTypes, w) =>
        let! T := get_type w t in
        match Desc T with
        | CompoundDesc UnionKind ElemTypes => flattenUnionTypes fuel' ElemTypes seenTypes w
        | _ =>
            let! (h, w) := Type_Hash t w in
            if bool_decide (h ∈ seenTypes) then Ok ([], (seenTypes, w)) else Ok ([t], ({[h]} ∪ seenTypes, w))
        end) ts (seenTypes, w) in
      Ok (concat tss, s)
  end.
Definition makeUnionType `{GoSort} (elemTypes : list ptr) (w : world) : outcome (ptr * world) :=
  let! (ts, (_, w)) := flattenUnionTypes (type_fuel w) elemTypes ∅ w in
  match ts with
  | [t] => Ok (t, w)
  | _ =>
      let! w := fold_w (fun t => generateOID t true) ts w in
      let! ts := sort_types w ts in
      getCompoundType UnionKind ts w
  end.

Definition MakeListType (elemType : ptr) (w : world) : outcome (ptr * world) := getCompoundType ListKind [elemType] w.
Definition MakeSetType (elemType : ptr) (w : world) : outcome (ptr * world) := getCompoundType SetKind [elemType] w.
Definition MakeRefType (elemType : ptr) (w : world) : outcome (ptr * world) := getCompoundType RefKind [elemType] w.
Definition MakeMapType (keyType valType : ptr) (w : world) : outcome (ptr * world) := getCompoundType MapKind [keyType; valType] w.
Definition MakeStructType `{GoSort} (name : list byte) (fieldNames : list (list byte)) (fieldTypes : list ptr) (w : world) : outcome (ptr * world) :=
  makeStructType name fieldNames fieldTypes w.
Definition MakeUnionType `{GoSort} (elemTypes : list ptr) (w : world) : outcome (ptr * world) := makeUnionType elemTypes w.
Definition MakeCycleType (level : Z) (w : world) : outcome (ptr * world) := getCycleType level w.
(** The fields of a map, in the order of their names; the names are distinct, so
    the order in which Go ranges over the map does not matter. *)
Definition fieldSorter_Less (x y : list byte * ptr) : bool := match bytes_Compare x.1 y.1 with Lt => true | _ => false end.
Definition MakeStructTypeFromFields `{GoSort} (name : list byte) (fields : gmap (list byte) ptr) (w : world) : outcome (ptr * world) :=
  let fs := go_sort fieldSorter_Less (map_to_list fields) in
  MakeStructType name (fst <$> fs) (snd <$> fs) w.
Definition MakePrimitiveTypeByString (p : list byte) : outcome ptr :=
  if bool_decide (p = bs "Bool") then Ok BoolType
  else if bool_decide (p = bs "Number") then Ok NumberType
  else if bool_decide (p = bs "String") then Ok StringType
  else if bool_decide (p = bs "Blob") then Ok BlobType
  else if bool_decide (p = bs "Value") then Ok ValueType
  else if bool_decide (p = bs "Type") then Ok TypeType
  else Panic AssertFailed.

End TypeCache.
Import TypeCache.

(** ** Decoding of types (value_decoder.go) *)

Module TypeDecoder.

Record valueDecoder : Type := MkDecoder { nomsReader : binaryNomsReader; tc : world; typeDepth : Z }.

Definition on_reader {A} (f : binaryNomsReader -> outcome (A * binaryNomsReader)) (r : valueDecoder) : outcome (A * valueDecoder) :=
  let! (a, b) := f (nomsReader r) in Ok (a, MkDecoder b (tc r) (typeDepth r)).
Definition on_tc {A} (f : world -> outcome (A * world)) (r : valueDecoder) : outcome (A * valueDecoder) :=
  let! (a, w) := f (tc r) in Ok (a, MkDecoder (nomsReader r) w (typeDepth r)).
Definition deeper (n : Z) (r : valueDecoder) : valueDecoder := MkDecoder (nomsReader r) (tc r) (typeDepth r + n).

(** Looks the name up and adds it when it is new: [GetId] does both. *)
Definition readIdent (r : valueDecoder) : outcome (Z * valueDecoder) :=
  let! (size, r) := on_reader readUint32 r in
  let b := nomsReader r in
  let! s := slice (r_buff b) (r_offset b) (u32 (r_offset b + size)) in
  on_tc (fun w => Ok (GetId s w)) (MkDecoder (advance b size) (tc r) (typeDepth r)).
Definition readKind (r : valueDecoder) : outcome (option NomsKind * valueDecoder) :=
  let! (k, r) := on_reader readUint8 r in Ok (kind_of k, r).

Section readers.
Context `{GoSort} (readType : valueDecoder -> outcome (ptr * valueDecoder)).

Definition readCachedStructType (r : valueDecoder) : outcome (option ptr * valueDecoder) :=
  let! (i, r) := readIdent r in
  let! (count, r) := on_reader readUint32 r in
  let! (tct, r) := iterate_w (Z.to_nat count) (fun tct r =>
    let! (i, r) := readIdent r in
    let! (t, r) := readType r in
    let! j := type_id (tc r) t in
    Ok (Traverse (Traverse tct i) j, r)) (Traverse (root_trie StructKind) i) r in
  Ok (trie_t (tc r) tct, r).
Definition readStructType (r : valueDecoder) : outcome (ptr * valueDecoder) :=
  let start := pos (nomsReader r) in
  let! (t, r) := readCachedStructType r in
  match t with
  | Some t => Ok (t, r)
  | None =>
      let r := MkDecoder (seek (nomsReader r) start) (tc r) (typeDepth r) in
      let! (name, r) := on_reader readString r in
      let! (count, r) := on_reader readUint32 r in
      let! (fields, r) := repeat_w (Z.to_nat count) (fun r =>
        let! (fn, r) := on_reader readString r in
        let! (ft, r) := readType r in
        Ok ((fn, ft), r)) r in
      on_tc (makeStructTypeQuickly name fields checkKindNoValidate) r
  end.
Definition readUnionType (r : valueDecoder) : outcome (ptr * valueDecoder) :=
  let! (l, r) := on_reader readUint32 r in
  let! (ts, r) := repeat_w (Z.to_nat l) readType r in
  on_tc (getCompoundType UnionKind ts) r.
Definition readTypeInner (r : valueDecoder) : outcome (ptr * valueDecoder) :=
  let! (k, r) := readKind r in
  match k with
  | Some ListKind => let! (t, r) := readType r in on_tc (getCompoundType ListKind [t]) r
  | Some MapKind => let! (k, r) := readType r in let! (v, r) := readType r in on_tc (getCompoundType MapKind [k; v]) r
  | Some RefKind => let! (t, r) := readType r in on_tc (getCompoundType RefKind [t]) r
  | Some SetKind => let! (t, r) := readType r in on_tc (getCompoundType SetKind [t]) r
  | Some StructKind => readStructType r
  | Some UnionKind => readUnionType r
  | Some CycleKind => let! (level, r) := on_reader readUint32 r in on_tc (getCycleType level) r
  | Some k => let! _ := check (IsPrimitiveKind k) in let! t := MakePrimitiveType k in Ok (t, r)
  | None => Panic AssertFailed
  end.

End readers.

Fixpoint readType `{GoSort} (validating : bool) (fuel : nat) (r : valueDecoder) : outcome (ptr * valueDecoder) :=
  match fuel with
  | O => Panic OutOfFuel
  | S fuel' =>
      let! (t, r) := readTypeInner (readType validating fuel') (deeper 1 r) in
      let r := deeper (-1) r in
      if (typeDepth r =? 0) && validating
      then let! w := checkStructType t checkKindValidate (tc r) in Ok (t, MkDecoder (nomsReader r) w (typeDepth r))
      else Ok (t, r)
  end.

End TypeDecoder.
