(* ===== verification/TypesOids.v ===== *)
(** * Package [types]: computing order ids

    Order ids, and the checks of struct types that use them, set nothing but
    order ids: every type keeps its description, hash, id and serialization,
    and the tries and the tables of names and ids stay. *)

From S2P Require Import Prelude GoLib HashPkg TypesCodec TypesType.
Import Hash Codec NomsKinds TypeCache.

Module OidFacts.

Definition stays {A} (o o' : option A) : Prop := forall a, o = Some a -> o' = Some a.
Lemma stays_refl {A} (o : option A) : stays o o.
Proof. by intros a. Qed.
#[export] Hint Resolve stays_refl : core.
Lemma get_lookup w t T : get_type w t = Ok T -> heap w !! t = Some T.
Proof. unfold get_type. destruct (heap w !! t); [by intros [= ->]|done]. Qed.

(** Order ids are computed once; computing one for a type may set those of its
    components. *)
Record same_but_oids (w w' : world) : Prop := MkSameOids {
  so_heap : forall p T, heap w !! p = Some T ->
    exists T', heap w' !! p = Some T' /\ Desc T' = Desc T /\ t_h T' = t_h T /\ id T' = id T /\ serialization T' = serialization T /\ stays (oid T) (oid T');
  so_length : length (heap w') = length (heap w);
  so_tries : tries w' = tries w;
  so_rest : ident_entries w' = ident_entries w /\ ident_nextId w' = ident_nextId w /\ nextId w' = nextId w
}.
Lemma same_oids_refl w : same_but_oids w w.
Proof. split; [|done..]. intros p T HT. exists T. by split_and!. Qed.
Lemma same_oids_trans w1 w2 w3 : same_but_oids w1 w2 -> same_but_oids w2 w3 -> same_but_oids w1 w3.
Proof.
  intros [Hh Hl Ht Hr] [Hh' Hl' Ht' Hr']. split; [|congruence|congruence|intuition congruence]. intros p T (T' & HT' & HD & Hh1 & Hi & Hs & Ho)%Hh. destruct (Hh' p T' HT') as (T'' & HT'' & HD' & Hh1' & Hi' & Hs' & Ho').
  exists T''. split_and!; try congruence. intros o ?. auto.
Qed.
Lemma set_oid_same w w1 t T E h : heap w !! t = Some T -> oid T = None -> same_but_oids w w1 -> heap w1 !! t = Some E -> same_but_oids w (set_type w1 t (set_oid E h)).
Proof.
  intros HT Ho [Hh Hl Ht Hr] HE. split; [|cbn; by rewrite length_insert|done|done]. intros p U HU. destruct (Hh p U HU) as (U' & HU' & HD & Hh1 & Hi & Hs & Ho'). cbn. destruct (decide (p = t)) as [->|Hne].
  - rewrite list_lookup_insert_eq by (by eapply lookup_lt_Some). simplify_eq. eexists. split; [done|]. cbn. split_and!; try done. by rewrite Ho.
  - rewrite list_lookup_insert_ne by done. exists U'. by split_and!.
Qed.
Lemma fold_w_inv {A S} (R : S -> S -> Prop) (f : A -> S -> outcome S) l : (forall s, R s s) -> (forall s1 s2 s3, R s1 s2 -> R s2 s3 -> R s1 s3) ->
  (forall a s s', f a s = Ok s' -> R s s') -> forall s s', fold_w f l s = Ok s' -> R s s'.
Proof.
  intros Hr Ht Hf. induction l as [|a l IH]; intros s s'; cbn [fold_w]; [intros [= <-]; apply Hr|]. destruct (f a s) as [s1|] eqn:Hs; [|done]. intros Hl. eapply Ht; [by eapply Hf|by apply IH].
Qed.
Lemma map_w_inv {A B S} (R : S -> S -> Prop) (f : A -> S -> outcome (B * S)) l : (forall s, R s s) -> (forall s1 s2 s3, R s1 s2 -> R s2 s3 -> R s1 s3) ->
  (forall a s b s', f a s = Ok (b, s') -> R s s') -> forall s bs s', map_w f l s = Ok (bs, s') -> R s s'.
Proof.
  intros Hr Ht Hf. induction l as [|a l IH]; intros s bs s'; cbn [map_w]; [intros [= _ <-]; apply Hr|]. destruct (f a s) as [[b s1]|] eqn:Hs; [|done]. cbn [obind].
  destruct (map_w f l s1) as [[bs1 s2]|] eqn:Hl; [|done]. cbn [obind]. intros [= _ <-]. eapply Ht; [by eapply Hf|by eapply IH].
Qed.
Lemma encodeForOID_same fuel : forall t allow root ps (s s' : binaryNomsWriter * world), encodeForOID fuel t allow root ps s = Ok s' -> same_but_oids s.2 s'.2.
Proof.
  set (R := fun s s' : binaryNomsWriter * world => same_but_oids s.2 s'.2).
  assert (forall s, R s s) as Hrefl by (intros; apply same_oids_refl). assert (forall s1 s2 s3, R s1 s2 -> R s2 s3 -> R s1 s3) as Htrans by (intros s1 s2 s3; apply same_oids_trans).
  induction fuel as [|fuel IH]; intros t allow root ps [b w] s'; cbn [encodeForOID]; [done|]. destruct (get_type w t) as [T|]; [|done]. cbn [obind snd].
  destruct (Desc T) as [k|k es|name fs|i].
  - destruct (writeUint8 b _); [|done]. cbn [obind]. intros [= <-]. apply same_oids_refl.
  - destruct k; try done; (destruct (writeUint8 b _) as [b1|]; [|done]); cbn [obind];
      try ((destruct (writeUint32 b1 _) as [b2|]; [|done]); cbn [obind]; intros Hf; apply (fold_w_inv R _ _ Hrefl Htrans) in Hf; [done|]; intros e s1 s2; apply IH).
    destruct (Nat.eqb t root); [intros [= <-]; apply same_oids_refl|]. destruct (writeUint32 b1 _) as [b2|]; [|done]. cbn [obind].
    destruct (map_w _ es _) as [[oids [mb w1]]|] eqn:Hm; [|done]. cbn [obind]. destruct (writeBytes b2 _); [|done]. cbn [obind]. intros [= <-].
    apply (map_w_inv R _ _ Hrefl Htrans) in Hm; [done|]. intros e [mb1 u] h s2. unfold R. cbn [snd]. destruct (get_type u e) as [E|] eqn:HE; [|done]. apply get_lookup in HE. cbn [obind]. destruct (oid E) as [o|] eqn:Ho.
    + destruct (checkForUnresolvedCycles _ _ _ _ _); [|done]. cbn [obind]. intros [= _ <-]. apply same_oids_refl.
    + destruct (encodeForOID fuel e _ _ _ _) as [[mb2 u1]|] eqn:Hen; [|done]. apply IH in Hen. cbn [obind snd] in *. destruct (data mb2) as [d|]; [|done]. cbn [obind].
      destruct (indexOfType e ps); [intros [= _ <-]; done|]. destruct (get_type u1 e) as [E1|] eqn:HE1; [|done]. apply get_lookup in HE1. cbn [obind]. intros [= _ <-]. by apply (set_oid_same u u1 e E E1).
  - destruct (indexOfType t ps).
    + destruct (writeUint8 b _) as [b1|]; [|done]. cbn [obind]. destruct (writeUint32 b1 _); [|done]. cbn [obind]. intros [= <-]. apply same_oids_refl.
    + destruct (writeUint8 b _) as [b1|]; [|done]. cbn [obind]. destruct (writeString b1 _) as [b2|]; [|done]. cbn [obind]. intros Hf. apply (fold_w_inv R _ _ Hrefl Htrans) in Hf; [done|].
      intros f [b3 u] s2. destruct (writeString b3 _) as [b4|]; [|done]. cbn [obind]. apply IH.
  - destruct allow; [|done]. destruct (writeUint8 b _) as [b1|]; [|done]. cbn [obind]. destruct (writeUint32 b1 _); [|done]. cbn [obind]. intros [= <-]. apply same_oids_refl.
Qed.
Lemma generateOID_same t allow w w' : generateOID t allow w = Ok w' -> same_but_oids w w'.
Proof.
  unfold generateOID. destruct (get_type w t) as [T|] eqn:HT; [|done]. apply get_lookup in HT. cbn [obind].
  destruct (oid T) as [o|] eqn:Ho; [intros [= <-]; apply same_oids_refl|].
  destruct (encodeForOID _ t _ _ _ _) as [[b w1]|] eqn:He; [|done]. apply encodeForOID_same in He. cbn [obind snd] in *. destruct (data b) as [d|]; [|done]. cbn [obind].
  destruct (get_type w1 t) as [T1|] eqn:HT1; [|done]. apply get_lookup in HT1. cbn [obind]. intros [= <-]. by apply (set_oid_same w w1 t T T1).
Qed.

Lemma walkType_same cb : (forall t ps w w', cb t ps w = Ok w' -> same_but_oids w w') ->
  forall fuel t ps w w', walkType fuel t ps cb w = Ok w' -> same_but_oids w w'.
Proof.
  intros Hcb. induction fuel as [|fuel IH]; intros t ps w w'; cbn [walkType]; [done|]. destruct (get_type w t) as [T|]; [|done]. cbn [obind]. intros Hx.
  assert (w' = w \/ (let! w := cb t ps w in let! T := get_type w t in match Desc T with
    | CompoundDesc _ ElemTypes => fold_w (fun t' => walkType fuel t' ps cb) ElemTypes w
    | StructDesc _ fields => fold_w (fun f => walkType fuel f.2 (ps ++ [t]) cb) fields w | _ => Ok w end) = Ok w') as [->|Hw].
  { destruct (Desc T); [by right|by right| |by right]. destruct (indexOfType t ps); [left; by injection Hx|by right]. }
  { apply same_oids_refl. }
  destruct (cb t ps w) as [w1|] eqn:Hc; [|done]. cbn [obind] in Hw. destruct (get_type w1 t) as [T1|]; [|done]. cbn [obind] in Hw.
  eapply same_oids_trans; [by eapply Hcb|]. destruct (Desc T1) as [k|k es|name fs|i]; [injection Hw as <-; apply same_oids_refl| | |injection Hw as <-; apply same_oids_refl].
  - revert Hw. apply (fold_w_inv same_but_oids); [apply same_oids_refl|apply same_oids_trans|intros; by eapply IH].
  - revert Hw. apply (fold_w_inv same_but_oids); [apply same_oids_refl|apply same_oids_trans|intros; by eapply IH].
Qed.

(** What the decoder does with a type when it validates. *)
Lemma validate_same `{GoSort} t w w' : checkStructType t checkKindValidate w = Ok w' -> same_but_oids w w'.
Proof.
  unfold checkStructType. destruct (walkType _ t [] generateOIDs w) as [w1|] eqn:H1; [|done]. cbn [obind].
  destruct (walkType _ t [] checkForUnrolledCycles w1) as [w2|] eqn:H2; [|done]. cbn [obind]. intros H3.
  eapply same_oids_trans; [|eapply same_oids_trans].
  - eapply walkType_same; [|exact H1]. intros ? ? ? ?. apply generateOID_same.
  - eapply walkType_same; [|exact H2]. intros u ps v v'. unfold checkForUnrolledCycles. destruct (Kind v u) as [k|]; [|done]. cbn [obind].
    destruct k; try (intros [= <-]; apply same_oids_refl). apply (fold_w_inv same_but_oids); [apply same_oids_refl|apply same_oids_trans|].
    intros p s s'. destruct (oid_of s u); [|done]. cbn [obind]. destruct (oid_of s p); [|done]. cbn [obind]. destruct (bool_decide _); [done|].
    intros [= <-]. apply same_oids_refl.
  - eapply walkType_same; [|exact H3]. intros u ps v v'. unfold validateTypes. destruct (get_type v u) as [T|]; [|done]. cbn [obind].
    intros Hv. assert (v' = v) as ->; [|apply same_oids_refl]. repeat case_match; simplify_eq; try done.
    all: repeat match goal with H : context [obind ?x _] |- _ => destruct x; cbn [obind] in H end; congruence.
Qed.

End OidFacts.
