(* ===== verification/TypesValue.v ===== *)
(** * Package [types]: values, their encoding and decoding

    (src/go/types/value_encoder.go, value_decoder.go, codec.go, get_hash.go,
    meta_sequence.go and the value types)

    A collection is a sequence: a leaf with its elements, or a level of the
    prolly tree with references to the sequences below.  The writes that the
    encoder asks of its [ValueWriter] are logged in order. *)

From S2P Require Import Prelude GoLib HashPkg Chunks TypesCodec TypesType.
Import Hash Chunks Float64 NumberUtil Codec NomsKinds TypeCache TypeDecoder.

Module Values.

(** ** Values *)

Record RefData : Type := MkRef { target : Hash; height : Z; ref_t : ptr }.

#[local] Unset Elimination Schemes.
Inductive Value : Type :=
| Bool (b : bool)
| Number (f : float64)
| String (s : list byte)
| Blob (seq : sequence)
| List (seq : sequence)
| Map (seq : sequence)
| Set_ (seq : sequence)
| Struct (values : list Value) (t : ptr)
| Ref (r : RefData)
| TypeValue (t : ptr)
with sequence : Type :=
| blobLeafSequence (data : list byte)
| listLeafSequence (t : ptr) (values : list Value)
| setLeafSequence (t : ptr) (data : list Value)
| mapLeafSequence (t : ptr) (data : list (Value * Value))
| metaSequence (t : ptr) (tuples : list metaTuple)
with metaTuple : Type :=
| MkMetaTuple (ref : RefData) (key : orderedKey) (numLeaves : Z) (child : option Value)
with orderedKey : Type :=
| MkKey (isOrderedByValue : bool) (v : option Value) (h : Hash).
#[local] Set Elimination Schemes.

Definition seq_Type (seq : sequence) : ptr :=
  match seq with
  | blobLeafSequence _ => BlobType
  | listLeafSequence t _ | setLeafSequence t _ | mapLeafSequence t _ | metaSequence t _ => t
  end.
(** [v.Type()]. *)
Definition Type_of (v : Value) : ptr :=
  match v with
  | Bool _ => BoolType
  | Number _ => NumberType
  | String _ => StringType
  | Blob seq | List seq | Map seq | Set_ seq => seq_Type seq
  | Struct _ t => t
  | Ref r => ref_t r
  | TypeValue _ => TypeType
  end.

(** ref.go *)
Definition constructRef (w : world) (t : ptr) (target : Hash) (height : Z) : outcome RefData :=
  let! T := get_type w t in
  match Desc T with
  | CompoundDesc RefKind ElemTypes =>
      let! e := index ElemTypes 0 in
      let! _ := check (negb (Nat.eqb ValueType e)) in
      Ok (MkRef target height t)
  | _ => Panic AssertFailed
  end.

(** ** The encoder *)

Record valueEncoder (W : Type) : Type := MkEncoder { enc_w : W; enc_tc : world; enc_log : list Value }.
Arguments MkEncoder {W} enc_w enc_tc enc_log.
Arguments enc_w {W} _.
Arguments enc_tc {W} _.
Arguments enc_log {W} _.

(** The method [appendType] of a [nomsWriter]. *)
Class typeWriter (W : Type) := nw_appendType : ptr -> W * world -> outcome (W * world).
#[export] Instance binary_typeWriter : typeWriter binaryNomsWriter := appendType.

Section writer.
Context {W : Type} `{nomsWriter W, typeWriter W}.
#[local] Abbreviation valueEncoder := (valueEncoder W).

Definition on_writer (f : W -> outcome W) (w : valueEncoder) : outcome valueEncoder :=
  let! b := f (enc_w w) in Ok (MkEncoder b (enc_tc w) (enc_log w)).
Definition enc_appendType (t : ptr) (w : valueEncoder) : outcome valueEncoder :=
  let! (b, tc) := nw_appendType t (enc_w w, enc_tc w) in Ok (MkEncoder b tc (enc_log w)).

Definition writeRef (r : RefData) (w : valueEncoder) : outcome valueEncoder :=
  let! w := on_writer (fun b => nw_writeHash b (target r)) w in
  on_writer (fun b => nw_writeUint64 b (height r)) w.
(** [writeValue] of a [Ref]. *)
Definition writeRefValue (r : RefData) (w : valueEncoder) : outcome valueEncoder :=
  let! w := enc_appendType (ref_t r) w in
  let! k := Kind (enc_tc w) (ref_t r) in
  match k with RefKind => writeRef r w | _ => Panic ExplicitPanic end.

(** A key that is not ordered by value is written as a reference with its hash. *)
Definition hash_key (h : Hash) (w : valueEncoder) : outcome (RefData * valueEncoder) :=
  let! _ := check (negb (IsEmpty h)) in
  let! (t, tc) := MakeRefType BoolType (enc_tc w) in
  let! r := constructRef tc t h 0 in
  Ok (r, MkEncoder (enc_w w) tc (enc_log w)).
Definition log_child (vw : bool) (child : option Value) (w : valueEncoder) : valueEncoder :=
  match child with
  | Some c => if vw then MkEncoder (enc_w w) (enc_tc w) (enc_log w ++ [c]) else w
  | None => w
  end.

(** The count of a slice and its items. *)
Definition write_counted {A} (f : A -> valueEncoder -> outcome valueEncoder) (l : list A) (w : valueEncoder) : outcome valueEncoder :=
  let! w := on_writer (fun b => nw_writeUint32 b (u32 (Zlength l))) w in fold_w f l w.
(** The first byte of a sequence tells a meta sequence from a leaf. *)
Definition write_meta (isMeta : bool) (w : valueEncoder) : outcome valueEncoder := on_writer (fun b => nw_writeBool b isMeta) w.

Section encoder.
(** Whether the encoder has a [ValueWriter]. *)
Context (vw : bool).

Fixpoint writeValue (v : Value) (w : valueEncoder) {struct v} : outcome valueEncoder :=
  let! w := enc_appendType (Type_of v) w in
  let! k := Kind (enc_tc w) (Type_of v) in
  match k, v with
  | BlobKind, Blob (metaSequence _ tuples) =>
      let! w := write_meta true w in write_counted writeTuple tuples w
  | BlobKind, Blob (blobLeafSequence d) =>
      let! w := write_meta false w in on_writer (fun b => nw_writeBytes b d) w
  | BoolKind, Bool b => on_writer (fun w => nw_writeBool w b) w
  | NumberKind, Number f =>
      if IsNaN f || IsInf f then Panic ExplicitPanic else on_writer (fun b => nw_writeNumber b f) w
  | ListKind, List (metaSequence _ tuples) =>
      let! w := write_meta true w in write_counted writeTuple tuples w
  | ListKind, List (listLeafSequence _ values) =>
      let! w := write_meta false w in write_counted writeValue values w
  | MapKind, Map (metaSequence _ tuples) =>
      let! w := write_meta true w in write_counted writeTuple tuples w
  | MapKind, Map (mapLeafSequence _ data) =>
      let! w := write_meta false w in
      write_counted (fun '(key, value) w => let! w := writeValue key w in writeValue value w) data w
  | RefKind, Ref r => writeRef r w
  | SetKind, Set_ (metaSequence _ tuples) =>
      let! w := write_meta true w in write_counted writeTuple tuples w
  | SetKind, Set_ (setLeafSequence _ data) =>
      let! w := write_meta false w in write_counted writeValue data w
  | StringKind, String s => on_writer (fun b => nw_writeString b s) w
  | TypeKind, TypeValue t => on_writer (writeType (type_fuel (enc_tc w)) (enc_tc w) t []) w
  | StructKind, Struct values _ => fold_w writeValue values w
  | (CycleKind | UnionKind | ValueKind), _ => Panic AssertFailed
  | _, _ => Panic ExplicitPanic
  end
with writeTuple (mt : metaTuple) (w : valueEncoder) {struct mt} : outcome valueEncoder :=
  match mt with
  | MkMetaTuple ref (MkKey isOrderedByValue v h) numLeaves child =>
      let w := log_child vw child w in
      let! w := writeRefValue ref w in
      let! w :=
        if isOrderedByValue then match v with Some v => writeValue v w | None => Panic NilDereference end
        else let! (r, w) := hash_key h w in writeRefValue r w in
      on_writer (fun b => nw_writeUint64 b numLeaves) w
  end.

End encoder.

End writer.


(** codec.go *)
Definition EncodeValue (vw : bool) (v : Value) (tc : world) : outcome (Chunk * (world * list Value)) :=
  let! w := writeValue vw v (MkEncoder newBinaryNomsWriter tc []) in
  let! d := data (enc_w w) in
  Ok (NewChunk d, (enc_tc w, enc_log w)).

(** get_hash.go, without an override; the cached hash of a value is the one
    computed. *)
Definition getHash (v : Value) (tc : world) : outcome (Hash * world) :=
  match v with
  | TypeValue t => Type_Hash t tc
  | _ => let! (c, (tc, _)) := EncodeValue false v tc in Ok (ChunkHash c, tc)
  end.

(** meta_sequence.go *)
Definition newOrderedKey (v : Value) (tc : world) : outcome (orderedKey * world) :=
  let! k := Kind tc (Type_of v) in
  if isKindOrderedByValue k then Ok (MkKey true (Some v) emptyHash, tc)
  else let! (h, tc) := getHash v tc in Ok (MkKey false (Some v) h, tc).
Definition orderedKeyFromHash (h : Hash) : orderedKey := MkKey false None h.

(** ** The decoder *)

Section decoder.
Context `{GoSort} (validating : bool).

Definition readRef (t : ptr) (r : valueDecoder) : outcome (RefData * valueDecoder) :=
  let! (h, r) := on_reader readHash r in
  let! (height, r) := on_reader readUint64 r in
  let! ref := constructRef (tc r) t h height in
  Ok (ref, r).

Section readValue.
Context (readType : valueDecoder -> outcome (ptr * valueDecoder)) (readValue : valueDecoder -> outcome (Value * valueDecoder)).

Definition readBlobLeafSequence (r : valueDecoder) : outcome (sequence * valueDecoder) :=
  let! (b, r) := on_reader readBytes r in Ok (blobLeafSequence b, r).
Definition readValueSequence (r : valueDecoder) : outcome (list Value * valueDecoder) :=
  let! (count, r) := on_reader readUint32 r in repeat_w (Z.to_nat count) readValue r.
Definition readListLeafSequence (t : ptr) (r : valueDecoder) : outcome (sequence * valueDecoder) :=
  let! (data, r) := readValueSequence r in Ok (listLeafSequence t data, r).
Definition readSetLeafSequence (t : ptr) (r : valueDecoder) : outcome (sequence * valueDecoder) :=
  let! (data, r) := readValueSequence r in Ok (setLeafSequence t data, r).
Definition readMapLeafSequence (t : ptr) (r : valueDecoder) : outcome (sequence * valueDecoder) :=
  let! (count, r) := on_reader readUint32 r in
  let! (data, r) := repeat_w (Z.to_nat count) (fun r =>
    let! (k, r) := readValue r in let! (v, r) := readValue r in Ok ((k, v), r)) r in
  Ok (mapLeafSequence t data, r).
Definition readMetaTuple (r : valueDecoder) : outcome (metaTuple * valueDecoder) :=
  let! (ref, r) := readValue r in
  match ref with
  | Ref ref =>
      let! (v, r) := readValue r in
      let! (key, r) :=
        match v with
        | Ref k => Ok (orderedKeyFromHash (target k), r)
        | _ => on_tc (newOrderedKey v) r
        end in
      let! (numLeaves, r) := on_reader readUint64 r in
      Ok (MkMetaTuple ref key numLeaves None, r)
  | _ => Panic ExplicitPanic
  end.
Definition readMetaSequence (t : ptr) (r : valueDecoder) : outcome (sequence * valueDecoder) :=
  let! (count, r) := on_reader readUint32 r in
  let! (data, r) := repeat_w (Z.to_nat count) readMetaTuple r in
  Ok (metaSequence t data, r).
Definition readStruct (t : ptr) (r : valueDecoder) : outcome (Value * valueDecoder) :=
  let! T := get_type (tc r) t in
  match Desc T with
  | StructDesc _ fields => let! (values, r) := repeat_w (length fields) readValue r in Ok (Struct values t, r)
  | _ => Panic ExplicitPanic
  end.
(** A meta sequence or the leaf of the collection. *)
Definition readSequence (t : ptr) (leaf : valueDecoder -> outcome (sequence * valueDecoder)) (r : valueDecoder) : outcome (sequence * valueDecoder) :=
  let! (isMeta, r) := on_reader readBool r in
  if isMeta then readMetaSequence t r else leaf r.
Definition readValueInner (r : valueDecoder) : outcome (Value * valueDecoder) :=
  let! (t, r) := readType r in
  let! k := Kind (tc r) t in
  match k with
  | BlobKind => let! (seq, r) := readSequence t readBlobLeafSequence r in Ok (Blob seq, r)
  | BoolKind => let! (b, r) := on_reader readBool r in Ok (Bool b, r)
  | NumberKind => let! (f, r) := on_reader readNumber r in Ok (Number f, r)
  | StringKind => let! (s, r) := on_reader readString r in Ok (String s, r)
  | ListKind => let! (seq, r) := readSequence t (readListLeafSequence t) r in Ok (List seq, r)
  | MapKind => let! (seq, r) := readSequence t (readMapLeafSequence t) r in Ok (Map seq, r)
  | RefKind => let! (ref, r) := readRef t r in Ok (Ref ref, r)
  | SetKind => let! (seq, r) := readSequence t (readSetLeafSequence t) r in Ok (Set_ seq, r)
  | StructKind => readStruct t r
  | TypeKind => let! (t, r) := readType r in Ok (TypeValue t, r)
  | CycleKind | UnionKind | ValueKind => Panic AssertFailed
  end.

End readValue.

Fixpoint readValue (fuel : nat) (r : valueDecoder) : outcome (Value * valueDecoder) :=
  match fuel with
  | O => Panic OutOfFuel
  | S fuel' => readValueInner (readType validating fuel') (readValue fuel') r
  end.

(** Every call of [readValue] and [readType] takes a byte, which bounds the
    depth of the calls. *)
Definition decodeFromBytes (data : list byte) (w : world) : outcome (Value * world) :=
  let! (v, r) := readValue (S (S (length data))) (MkDecoder (MkReader data 0) w 0) in
  let! _ := check (pos (nomsReader r) =? u32 (Zlength data)) in
  Ok (v, tc r).

End decoder.

Definition DecodeFromBytes `{GoSort} : list byte -> world -> outcome (Value * world) := decodeFromBytes false.
Definition decodeFromBytesWithValidation `{GoSort} : list byte -> world -> outcome (Value * world) := decodeFromBytes true.
Definition DecodeValue `{GoSort} (c : Chunk) (w : world) : outcome (Value * world) :=
  let! _ := check (negb (Chunk_IsEmpty c)) in DecodeFromBytes (contents (Data c)) w.

End Values.
