(* ===== verification/TypesIntern.v ===== *)
(** * Package [types]: the type cache keeps one object per type

    Facts about the types without cycles: what a type on the heap stands for,
    that the cache never holds two objects for one type, and that reading the
    serialization of a type gives the object of that type. *)

From S2P Require Import Prelude GoLib HashPkg TypesCodec TypesType TypesOids.
Import Hash Codec NomsKinds TypeCache TypeDecoder.
Import CodecFacts OidFacts.

(** ** Types as trees *)

#[local] Unset Elimination Schemes.
Inductive ty : Type :=
| TPrim (k : NomsKind)
| TComp (k : NomsKind) (ts : list ty)
| TStruct (name : list byte) (fs : list (list byte * ty)).
#[local] Set Elimination Schemes.

(** The serialization of a type. *)
Definition str_bytes (s : list byte) : list byte := be_put 4 (Zlength s) ++ s.
Fixpoint ser (t : ty) : list byte :=
  match t with
  | TPrim k => be_put 1 (kind_code k)
  | TComp k ts =>
      be_put 1 (kind_code k) ++ (match k with UnionKind => be_put 4 (Zlength ts) | _ => [] end) ++ flat_map ser ts
  | TStruct name fs =>
      be_put 1 (kind_code StructKind) ++ str_bytes name ++ be_put 4 (Zlength fs) ++
      flat_map (fun f => str_bytes f.1 ++ ser f.2) fs
  end.
(** The number of types in a type, and of the names in it. *)
Fixpoint size (t : ty) : nat :=
  match t with
  | TPrim _ => 0
  | TComp _ ts => S (list_sum (map size ts))
  | TStruct _ fs => S (list_sum (map (fun f => size f.2) fs))
  end.
Fixpoint names (t : ty) : nat :=
  match t with
  | TPrim _ => 0
  | TComp _ ts => list_sum (map names ts)
  | TStruct _ fs => S (list_sum (map (fun f => S (names f.2)) fs))
  end.
Fixpoint depth (t : ty) : nat :=
  match t with
  | TPrim _ => 1
  | TComp _ ts => S (list_max (map depth ts))
  | TStruct _ fs => S (list_max (map (fun f => depth f.2) fs))
  end.

(** A kind has its number of element types. *)
Definition arity_ok (k : NomsKind) (n : nat) : bool :=
  match k with
  | ListKind | RefKind | SetKind => Nat.eqb n 1
  | MapKind => Nat.eqb n 2
  | UnionKind => true
  | _ => false
  end.
#[local] Unset Elimination Schemes.
Inductive ty_ok : ty -> Prop :=
| ok_prim k : IsPrimitiveKind k = true -> ty_ok (TPrim k)
| ok_comp k ts : arity_ok k (length ts) = true -> Forall ty_ok ts -> ty_ok (TComp k ts)
| ok_struct name fs : Forall (fun f => ty_ok f.2) fs -> ty_ok (TStruct name fs).


(** What a pointer stands for. *)
Inductive denotes (h : list Typ) : ptr -> ty -> Prop :=
| dn_prim p T k : h !! p = Some T -> Desc T = PrimitiveDesc k -> denotes h p (TPrim k)
| dn_comp p T k es ts : h !! p = Some T -> Desc T = CompoundDesc k es -> Forall2 (denotes h) es ts -> denotes h p (TComp k ts)
| dn_struct p T name fs gs : h !! p = Some T -> Desc T = StructDesc name fs ->
    Forall2 (fun f g => f.1 = g.1 /\ denotes h f.2 g.2) fs gs -> denotes h p (TStruct name gs).
#[local] Set Elimination Schemes.

(** ** The cache *)

(** The objects the cache can return. *)
Definition known (w : world) (p : ptr) : Prop :=
  (exists k, MakePrimitiveType k = Ok p) \/ exists key, tries w !! key = Some p.

Definition has_id (w : world) (p : ptr) (i : Z) : Prop := exists T, heap w !! p = Some T /\ id T = i.
(** The path of the fields of a struct. *)
Fixpoint field_path (w : world) (fs : list (list byte * ptr)) (path : list Z) : Prop :=
  match fs, path with
  | [], [] => True
  | (n, p) :: fs', i :: j :: path' => ident_entries w !! n = Some i /\ has_id w p j /\ field_path w fs' path'
  | _, _ => False
  end.

(** A type in a trie: its components are known and older, and lead to it. *)
Definition trie_ok (w : world) (key : trie) (p : ptr) : Prop :=
  exists T, heap w !! p = Some T /\ 256 <= id T < nextId w /\
  match Desc T with
  | CompoundDesc k es =>
      key.1 = kind_code k /\ arity_ok k (length es) = true /\ Forall (fun e => known w e /\ (e < p)%nat) es /\
      Forall2 (has_id w) es key.2
  | StructDesc name fs =>
      key.1 = kind_code StructKind /\ Forall (fun f => known w f.2 /\ (f.2 < p)%nat) fs /\
      match key.2 with i :: path => ident_entries w !! name = Some i /\ field_path w fs path | [] => False end
  | _ => False
  end.

Record world_ok (w : world) : Prop := MkWorldOk {
  wo_prims : forall k p, MakePrimitiveType k = Ok p ->
    exists T, heap w !! p = Some T /\ Desc T = PrimitiveDesc k /\ id T = kind_code k;
  wo_tries : forall key p, tries w !! key = Some p -> trie_ok w key p;
  wo_ids : forall k1 k2 p1 p2 i, tries w !! k1 = Some p1 -> tries w !! k2 = Some p2 -> has_id w p1 i -> has_id w p2 i -> p1 = p2;
  wo_idents : forall n i, ident_entries w !! n = Some i -> 0 <= i < ident_nextId w;
  wo_names : forall n n' i, ident_entries w !! n = Some i -> ident_entries w !! n' = Some i -> n = n';
  wo_bounds : 256 <= nextId w < 2 ^ 32 /\ 0 <= ident_nextId w < 2 ^ 32;
  wo_all : forall p T, heap w !! p = Some T -> known w p;
  wo_ser : forall p T s t, heap w !! p = Some T -> serialization T = Some s -> denotes (heap w) p t -> s = ser t
}.

Module InternFacts.

Lemma ty_ind (P : ty -> Prop) : (forall k, P (TPrim k)) -> (forall k ts, Forall P ts -> P (TComp k ts)) ->
  (forall name fs, Forall (fun f => P f.2) fs -> P (TStruct name fs)) -> forall t, P t.
Proof.
  intros Hp Hc Hs. fix IH 1. intros [k|k ts|name fs]; [apply Hp|apply Hc|apply Hs].
  - induction ts as [|t ts IHts]; constructor; [apply IH|exact IHts].
  - induction fs as [|f fs IHfs]; constructor; [apply IH|exact IHfs].
Qed.

Lemma ser_nonempty t : 1 <= Zlength (ser t).
Proof. destruct t; cbn [ser]; rewrite ?Zlength_app, Zlength_be_put; unfold Zlength; lia. Qed.

Lemma list_max_cons n l : list_max (n :: l) = Nat.max n (list_max l).
Proof. done. Qed.

(** A type tree is as deep as its serialization is long, at most. *)
Lemma depth_ser t : Z.of_nat (depth t) <= Zlength (ser t).
Proof.
  induction t as [k|k ts IH|name fs IH] using ty_ind; cbn [depth ser].
  - rewrite Zlength_be_put. lia.
  - rewrite !Zlength_app, Zlength_be_put. assert (Z.of_nat (list_max (map depth ts)) <= Zlength (flat_map ser ts)) as Hle.
    { clear k. induction IH as [|t ts Ht _ IHts]; [done|]. cbn [map list_max foldr flat_map]. fold (list_max (map depth ts)).
      rewrite Zlength_app. pose proof (Zlength_nonneg (flat_map ser ts)). pose proof (Zlength_nonneg (ser t)). lia. }
    unfold Zlength at 1. lia.
  - rewrite !Zlength_app, !Zlength_be_put. set (F := fun f : list byte * ty => str_bytes f.1 ++ ser f.2).
    assert (Z.of_nat (list_max (map (fun f => depth f.2) fs)) <= Zlength (flat_map F fs)) as Hle.
    { clear name. induction IH as [|f fs Ht _ IHts]; [done|]. cbn [map list_max foldr flat_map]. fold (list_max (map (fun f => depth f.2) fs)).
      unfold F at 1. rewrite !Zlength_app. pose proof (Zlength_nonneg (flat_map F fs)). pose proof (Zlength_nonneg (str_bytes f.1)). pose proof (Zlength_nonneg (ser f.2)). lia. }
    pose proof (Zlength_nonneg (str_bytes name)). lia.
Qed.

Lemma denotes_inv h p t : denotes h p t -> exists T, h !! p = Some T /\
  match t with
  | TPrim k => Desc T = PrimitiveDesc k
  | TComp k ts => exists es, Desc T = CompoundDesc k es /\ Forall2 (denotes h) es ts
  | TStruct name gs => exists fs, Desc T = StructDesc name fs /\ Forall2 (fun f g => f.1 = g.1 /\ denotes h f.2 g.2) fs gs
  end.
Proof. destruct 1; eauto. Qed.
Lemma ty_ok_inv t : ty_ok t ->
  match t with
  | TPrim k => IsPrimitiveKind k = true
  | TComp k ts => arity_ok k (length ts) = true /\ Forall ty_ok ts
  | TStruct _ fs => Forall (fun f => ty_ok f.2) fs
  end.
Proof. by destruct 1. Qed.

Lemma Forall2_functional {A B} (R : A -> B -> Prop) es ts : Forall (fun t => forall p t', R p t -> R p t' -> t = t') ts ->
  Forall2 R es ts -> forall ts', Forall2 R es ts' -> ts = ts'.
Proof.
  intros Hf H. induction H as [|e t es ts Het _ IH]; intros ts' H'; inversion H'; subst; [done|].
  apply Forall_cons in Hf as [Hf1 Hf2]. f_equal; eauto.
Qed.

(** The tree of a pointer is unique. *)
Lemma denotes_fun h t : forall p t', denotes h p t -> denotes h p t' -> t = t'.
Proof.
  induction t as [k|k ts IH|name fs IH] using ty_ind; intros p t' (T & HT & H1)%denotes_inv (T' & HT' & H2)%denotes_inv;
    assert (T' = T) as -> by congruence.
  - destruct t' as [k'|k' ts'|name' fs']; [congruence|destruct H2 as (es & H2 & _); congruence..].
  - destruct H1 as (es & H1 & Hes). destruct t' as [k'|k' ts'|name' fs']; [congruence| |destruct H2 as (? & H2 & _); congruence].
    destruct H2 as (es' & H2 & Hes'). rewrite H1 in H2. injection H2 as <- <-. f_equal. by apply (Forall2_functional (denotes h) es).
  - destruct H1 as (gs & H1 & Hgs). destruct t' as [k'|k' ts'|name' fs']; [congruence|destruct H2 as (? & H2 & _); congruence|].
    destruct H2 as (gs' & H2 & Hgs'). rewrite H1 in H2. injection H2 as <- <-. f_equal.
    eapply (Forall2_functional (fun f g => f.1 = g.1 /\ denotes h f.2 g.2) gs); [|done..].
    eapply Forall_impl; [exact IH|]. intros [n u] Hu [n1 q] [n' u'] [E1 D1] [E2 D2]. cbn in *. subst. f_equal. by apply (Hu q).
Qed.

(** ** Writing a type *)

Lemma appends_fold {A B} (f : A -> binaryNomsWriter -> outcome binaryNomsWriter) (g : B -> list byte) l k :
  Forall2 (fun a b => appends (f a) (g b)) l k -> appends (fold_w f l) (flat_map g k).
Proof.
  induction 1 as [|a b l k Ha _ IH]; cbn [fold_w flat_map]; [apply appends_ret|]. by apply (appends_bind (f a) (fold_w f l)).
Qed.
Lemma flat_map_length {A} (g : A -> list byte) l : (forall a, 1 <= Zlength (g a)) -> Zlength l <= Zlength (flat_map g l).
Proof.
  intros Hg. induction l as [|a l IH]; cbn [flat_map]; [done|]. rewrite Zlength_cons, Zlength_app. specialize (Hg a). lia.
Qed.
(** A count in front of its items; there are no more items than bytes. *)
Lemma appends_count n f l : 0 <= n <= Zlength l -> appends f l ->
  appends (fun b => let! b := writeUint32 b (u32 n) in f b) (be_put 4 n ++ l).
Proof.
  intros Hn Hf b Hb Hle. rewrite Zlength_app, Zlength_be_put in Hle. pose proof Hb as [? _]. assert (2 ^ 31 < 2 ^ 32) by done.
  rewrite u32_small by lia. apply (appends_bind (fun b => writeUint32 b n) f); [apply appends_Uint32|done|done|].
  rewrite Zlength_app, Zlength_be_put. lia.
Qed.
Lemma appends_ext f g l : (forall b, f b = g b) -> appends g l -> appends f l.
Proof. intros Hfg Hg b. rewrite Hfg. apply Hg. Qed.

Lemma indexOfType_none t tl : t ∉ tl -> indexOfType t tl = None.
Proof.
  unfold indexOfType. generalize 0. induction tl as [|t' tl IH]; intros i Hn; cbn [indexOfType_loop]; [done|].
  apply not_elem_of_cons in Hn as [Hne Hn]. rewrite (proj2 (Nat.eqb_neq _ _)) by done. by apply IH.
Qed.

(** The structs around a type are larger, so none of them is the type. *)
Definition around (h : list Typ) (t : ty) (parents : list ptr) : Prop :=
  Forall (fun q => exists t', denotes h q t' /\ (size t < size t')%nat) parents.
Lemma size_in (ts : list ty) t : t ∈ ts -> (size t <= list_sum (map size ts))%nat.
Proof.
  induction ts as [|u ts IH]; [by intros ?%elem_of_nil|]. cbn [map list_sum foldr]. fold (list_sum (map size ts)).
  intros [->|Hin]%elem_of_cons; [lia|]. specialize (IH Hin). lia.
Qed.
Lemma depth_in (ts : list ty) t : t ∈ ts -> (depth t <= list_max (map depth ts))%nat.
Proof.
  induction ts as [|u ts IH]; [by intros ?%elem_of_nil|]. cbn [map list_max foldr]. fold (list_max (map depth ts)).
  intros [->|Hin]%elem_of_cons; [lia|]. specialize (IH Hin). lia.
Qed.
Lemma around_le h t t' parents : (size t <= size t')%nat -> around h t' parents -> around h t parents.
Proof. intros Hle Ha. eapply Forall_impl; [exact Ha|]. intros q (u & Hu & Hs). exists u. split; [done|lia]. Qed.

Lemma writeType_ok w t : forall p parents fuel, denotes (heap w) p t -> ty_ok t -> (depth t <= fuel)%nat -> around (heap w) t parents ->
  appends (writeType fuel w p parents) (ser t).
Proof.
  induction t as [k|k ts IH|name gs IH] using ty_ind; intros p parents fuel Hd Hok%ty_ok_inv Hf Har;
    (destruct fuel as [|fuel]; [cbn in Hf; lia|]); pose proof Hd as (T & HT & HD)%denotes_inv.
  - eapply appends_ext; [intros b; cbn [writeType]; unfold get_type; rewrite HT; cbn [obind]; rewrite HD, Hok; reflexivity|].
    rewrite <- (app_nil_r (ser _)). apply (appends_bind (fun b => writeKind b k) Ok); [apply appends_Uint8|apply appends_ret].
  - destruct HD as (es & HD & Hes). destruct Hok as [Har' Hoks]. cbn [ser].
    assert (appends (fold_w (fun e b => writeType fuel w e parents b) es) (flat_map ser ts)) as Hfold.
    { apply appends_fold. apply Forall2_same_length_lookup. split; [by eapply Forall2_length|]. intros i e t He Ht.
      assert (t ∈ ts) as Hin by (by apply list_elem_of_lookup_2 with i).
      rewrite Forall_forall in IH, Hoks. apply IH; [done| |by apply Hoks| |].
      - by apply (Forall2_lookup_lr _ _ _ i e t Hes).
      - cbn [depth] in Hf. pose proof (depth_in ts t Hin). lia.
      - apply around_le with (TComp k ts); [|done]. cbn [size]. pose proof (size_in ts t Hin). lia. }
    assert (Zlength es = Zlength ts) as Hlen by (unfold Zlength; by rewrite (Forall2_length _ _ _ Hes)).
    destruct k; try discriminate Har'; cbn [app].
    1-4: eapply appends_ext; [intros b; cbn [writeType]; unfold get_type; rewrite HT; cbn [obind]; rewrite HD; reflexivity|];
      apply (appends_bind (fun b => writeKind b _)); [apply appends_Uint8|done].
    eapply appends_ext; [intros b; cbn [writeType]; unfold get_type; rewrite HT; cbn [obind]; rewrite HD, Hlen; reflexivity|].
    apply (appends_bind (fun b => writeKind b _) (fun b => let! b := writeUint32 b (u32 (Zlength ts)) in _ b)); [apply appends_Uint8|].
    apply appends_count; [|done]. split; [apply Zlength_nonneg|]. apply flat_map_length, ser_nonempty.
  - destruct HD as (fs & HD & Hfs). cbn [ser].
    assert (p ∉ parents) as Hp.
    { intros (t' & Hd' & Hlt)%(proj1 (Forall_forall _ _) Har p). rewrite (denotes_fun _ _ _ _ Hd' Hd) in Hlt. lia. }
    assert (appends (fold_w (fun f b => let! b := writeString b f.1 in writeType fuel w f.2 (parents ++ [p]) b) fs)
      (flat_map (fun f => str_bytes f.1 ++ ser f.2) gs)) as Hfold.
    { apply appends_fold. apply Forall2_same_length_lookup. split; [by eapply Forall2_length|]. intros i [n e] [n' t] He Ht.
      assert ((n', t) ∈ gs) as Hin by (by apply list_elem_of_lookup_2 with i). cbn [fst snd].
      destruct (Forall2_lookup_lr _ _ _ i _ _ Hfs He Ht) as [Hn He']. cbn in Hn, He'. subst n'.
      assert (t ∈ snd <$> gs) as Hin' by (apply list_elem_of_fmap; by exists (n, t)).
      apply (appends_bind (fun b => writeString b n)); [apply appends_String|]. rewrite Forall_forall in IH, Hok. apply (IH _ Hin); [done|by apply (Hok _ Hin)| |].
      - cbn [depth] in Hf. pose proof (depth_in _ t Hin') as Hle. change (snd <$> gs) with (map snd gs) in Hle. rewrite map_map in Hle. cbn [snd]. lia.
      - pose proof (size_in _ t Hin') as Hle. change (snd <$> gs) with (map snd gs) in Hle. rewrite map_map in Hle. apply Forall_app. split.
        + apply around_le with (TStruct name gs); [|done]. cbn [size snd]. lia.
        + constructor; [|constructor]. exists (TStruct name gs). split; [done|]. cbn [size snd]. lia. }
    assert (Zlength fs = Zlength gs) as Hlen by (unfold Zlength; by rewrite (Forall2_length _ _ _ Hfs)).
    eapply appends_ext; [intros b; cbn [writeType]; unfold get_type; rewrite HT; cbn [obind]; rewrite HD, (indexOfType_none p parents Hp), Hlen; reflexivity|].
    apply (appends_bind (fun b => writeKind b _) (fun b => let! b := writeString b name in let! b := writeUint32 b (u32 (Zlength gs)) in _ b)); [apply appends_Uint8|].
    apply (appends_bind (fun b => writeString b name) (fun b => let! b := writeUint32 b (u32 (Zlength gs)) in _ b)); [apply appends_String|].
    apply appends_count; [|done]. split; [apply Zlength_nonneg|]. apply flat_map_length. intros f. rewrite Zlength_app.
    pose proof (ser_nonempty f.2). pose proof (Zlength_nonneg (str_bytes f.1)). lia.
Qed.

(** ** Known types *)

Lemma prim_kind k p : MakePrimitiveType k = Ok p -> IsPrimitiveKind k = true.
Proof. by destruct k. Qed.
Lemma prim_inj k k' p : MakePrimitiveType k = Ok p -> MakePrimitiveType k' = Ok p -> k = k'.
Proof. intros H1 H2. rewrite <- H1 in H2. destruct k, k'; done || discriminate. Qed.
Lemma prim_exists k : IsPrimitiveKind k = true -> exists p, MakePrimitiveType k = Ok p.
Proof. destruct k; cbn; try discriminate; eauto. Qed.
Lemma kind_code_range k : 0 <= kind_code k < 256.
Proof. destruct k; cbn; lia. Qed.
Lemma kind_code_inj k k' : kind_code k = kind_code k' -> k = k'.
Proof. destruct k, k'; cbn; congruence. Qed.
Lemma kind_of_code k : kind_of (kind_code k) = Some k.
Proof. by destruct k. Qed.

Lemma has_id_fun w p i j : has_id w p i -> has_id w p j -> i = j.
Proof. intros (T & H1 & <-) (T' & H2 & <-). congruence. Qed.

(** An id stands for one known type. *)
Lemma known_id_inj w p q i : world_ok w -> known w p -> known w q -> has_id w p i -> has_id w q i -> p = q.
Proof.
  intros Hw [[k Hk]|[key Hp]] [[k' Hk']|[key' Hq]] Hi Hj.
  - destruct (wo_prims w Hw _ _ Hk) as (T & HT & _ & Hid), (wo_prims w Hw _ _ Hk') as (T' & HT' & _ & Hid').
    destruct Hi as (? & ? & <-), Hj as (? & ? & Hj). assert (k = k') as -> by (apply kind_code_inj; congruence). congruence.
  - exfalso. destruct (wo_prims w Hw _ _ Hk) as (T & HT & _ & Hid), (wo_tries w Hw _ _ Hq) as (T' & HT' & Hid' & _).
    destruct Hi as (? & ? & <-), Hj as (? & ? & Hj). pose proof (kind_code_range k). simplify_eq. lia.
  - exfalso. destruct (wo_prims w Hw _ _ Hk') as (T & HT & _ & Hid), (wo_tries w Hw _ _ Hp) as (T' & HT' & Hid' & _).
    destruct Hi as (? & ? & <-), Hj as (? & ? & Hj). pose proof (kind_code_range k'). simplify_eq. lia.
  - by apply (wo_ids w Hw key key' p q i).
Qed.

(** A known type that is not primitive is in its trie. *)
Lemma known_trie w p T : world_ok w -> known w p -> heap w !! p = Some T -> (forall k, Desc T <> PrimitiveDesc k) ->
  exists key, tries w !! key = Some p.
Proof.
  intros Hw [[k Hk]|Hkey] HT Hn; [|done]. destruct (wo_prims w Hw _ _ Hk) as (T' & HT' & HD & _). exfalso. apply (Hn k). congruence.
Qed.
Lemma known_comp w p T k es : world_ok w -> known w p -> heap w !! p = Some T -> Desc T = CompoundDesc k es ->
  exists path, tries w !! (kind_code k, path) = Some p /\ arity_ok k (length es) = true /\
    Forall (fun e => known w e /\ (e < p)%nat) es /\ Forall2 (has_id w) es path.
Proof.
  intros Hw Hp HT HD. destruct (known_trie w p T Hw Hp HT) as [[c path] Hk]; [congruence|].
  destruct (wo_tries w Hw _ _ Hk) as (T' & HT' & _ & Hm). assert (T' = T) as -> by congruence. rewrite HD in Hm.
  destruct Hm as (Hc & Hm). cbn in Hc. subst c. by exists path.
Qed.
Lemma known_struct w p T name fs : world_ok w -> known w p -> heap w !! p = Some T -> Desc T = StructDesc name fs ->
  exists i path, tries w !! (kind_code StructKind, i :: path) = Some p /\ Forall (fun f => known w f.2 /\ (f.2 < p)%nat) fs /\
    ident_entries w !! name = Some i /\ field_path w fs path.
Proof.
  intros Hw Hp HT HD. destruct (known_trie w p T Hw Hp HT) as [[c [|i path]] Hk]; [congruence|..];
    destruct (wo_tries w Hw _ _ Hk) as (T' & HT' & _ & Hm); assert (T' = T) as -> by congruence; rewrite HD in Hm;
    destruct Hm as (Hc & Hfs & Hm); [done|]. cbn in Hc. subst c. by exists i, path.
Qed.

(** Every known type is a tree. *)
Lemma known_tree w : world_ok w -> forall p, known w p -> exists t, denotes (heap w) p t /\ ty_ok t /\ (depth t <= S p)%nat.
Proof.
  intros Hw p. induction (lt_wf p) as [p _ IH]. intros Hp.
  assert (exists T, heap w !! p = Some T) as [T HT].
  { destruct Hp as [[k Hk]|[key Hk]]; [destruct (wo_prims w Hw _ _ Hk) as (T & HT & _)|destruct (wo_tries w Hw _ _ Hk) as (T & HT & _)]; by exists T. }
  destruct (Desc T) as [k|k es|name fs|c] eqn:HD.
  - exists (TPrim k). split; [by econstructor|]. split; [|cbn; lia]. constructor.
    destruct Hp as [[k' Hk]|[key Hk]].
    + destruct (wo_prims w Hw _ _ Hk) as (T' & HT' & HD' & _). assert (k' = k) as -> by congruence. by apply prim_kind with p.
    + destruct (wo_tries w Hw _ _ Hk) as (T' & HT' & _ & Hm). assert (T' = T) as -> by congruence. by rewrite HD in Hm.
  - destruct (known_comp w p T k es Hw Hp HT HD) as (path & _ & Har & Hes & _).
    assert (exists ts, Forall2 (denotes (heap w)) es ts /\ Forall ty_ok ts /\ (list_max (map depth ts) <= p)%nat) as (ts & H1 & H2 & H3).
    { clear Har HD. induction Hes as [|e es [He Hlt] _ (ts & H1 & H2 & H3)]; [exists []; cbn; split_and!; [constructor..|lia]|].
      destruct (IH e Hlt He) as (t & D1 & D2 & D3). exists (t :: ts). split_and!; [by constructor..|]. cbn [map]. rewrite list_max_cons. lia. }
    exists (TComp k ts). split; [by econstructor|]. split; [|cbn [depth]; lia]. constructor; [|done]. by rewrite <- (Forall2_length _ _ _ H1).
  - destruct (known_struct w p T name fs Hw Hp HT HD) as (i & path & _ & Hfs & _).
    assert (exists gs, Forall2 (fun f g => f.1 = g.1 /\ denotes (heap w) f.2 g.2) fs gs /\ Forall (fun g => ty_ok g.2) gs /\
      (list_max (map (fun g => depth g.2) gs) <= p)%nat) as (gs & H1 & H2 & H3).
    { clear HD. induction Hfs as [|[n e] fs [He Hlt] _ (gs & H1 & H2 & H3)]; [exists []; cbn; split_and!; [constructor..|lia]|].
      destruct (IH e Hlt He) as (t & D1 & D2 & D3). exists ((n, t) :: gs). split_and!; [by constructor..|]. cbn [map snd] in *. rewrite list_max_cons. lia. }
    exists (TStruct name gs). split; [by econstructor|]. split; [by constructor|cbn [depth]; lia].
  - exfalso. destruct (known_trie w p T Hw Hp HT) as [key Hk]; [congruence|].
    destruct (wo_tries w Hw _ _ Hk) as (T' & HT' & _ & Hm). assert (T' = T) as -> by congruence. by rewrite HD in Hm.
Qed.

Lemma field_path_fun w fs : forall path path', field_path w fs path -> field_path w fs path' -> path = path'.
Proof.
  induction fs as [|[n p] fs IH]; intros [|i [|j path]] [|i' [|j' path']]; cbn; try done.
  intros (H1 & H2 & H3) (H4 & H5 & H6). rewrite (has_id_fun _ _ _ _ H2 H5), (IH _ _ H3 H6). congruence.
Qed.
Lemma has_ids_fun w es : forall path path', Forall2 (has_id w) es path -> Forall2 (has_id w) es path' -> path = path'.
Proof.
  induction es as [|e es IH]; intros path path' H1 H2; inversion H1; inversion H2; subst; [done|]. f_equal; [by eapply has_id_fun|by apply IH].
Qed.

(** Two known objects of one type are one object. *)
Lemma intern w t : world_ok w -> forall p q, known w p -> known w q -> denotes (heap w) p t -> denotes (heap w) q t -> p = q.
Proof.
  intros Hw. induction t as [k|k ts IH|name gs IH] using ty_ind; intros p q Hp Hq (T & HT & HD)%denotes_inv (T' & HT' & HD')%denotes_inv.
  - assert (forall p T, known w p -> heap w !! p = Some T -> Desc T = PrimitiveDesc k -> MakePrimitiveType k = Ok p) as Hprim; [|by injection (eq_trans (eq_sym (Hprim p T Hp HT HD)) (Hprim q T' Hq HT' HD')) as ->].
    clear -Hw. intros p T [[k' Hk]|[key Hk]] HT HD.
    + destruct (wo_prims w Hw _ _ Hk) as (T' & HT' & HD' & _). assert (k' = k) as <- by congruence. done.
    + destruct (wo_tries w Hw _ _ Hk) as (T' & HT' & _ & Hm). assert (T' = T) as -> by congruence. by rewrite HD in Hm.
  - destruct HD as (es & HD & Hes), HD' as (es' & HD' & Hes').
    destruct (known_comp w p T k es Hw Hp HT HD) as (path & Hkey & _ & Hk & Hids).
    destruct (known_comp w q T' k es' Hw Hq HT' HD') as (path' & Hkey' & _ & Hk' & Hids').
    assert (es' = es) as ->; [|rewrite (has_ids_fun _ _ _ _ Hids' Hids) in Hkey'; congruence].
    clear -Hw IH Hes Hes' Hk Hk'. revert es' Hes' Hk'. induction Hes as [|e t es ts He _ IHe]; intros es' Hes' Hk'; inversion Hes' as [|e' ? es1 ? He' Hes1]; subst; [done|].
    apply Forall_cons in IH as [IH1 IH2], Hk as [[Hk1 _] Hk2], Hk' as [[Hk1' _] Hk2']. f_equal; [by apply IH1|by apply IHe].
  - destruct HD as (fs & HD & Hfs), HD' as (fs' & HD' & Hfs').
    destruct (known_struct w p T name fs Hw Hp HT HD) as (i & path & Hkey & Hk & Hn & Hpath).
    destruct (known_struct w q T' name fs' Hw Hq HT' HD') as (i' & path' & Hkey' & Hk' & Hn' & Hpath').
    assert (fs' = fs) as ->; [|rewrite (field_path_fun _ _ _ _ Hpath' Hpath) in Hkey'; congruence].
    clear -Hw IH Hfs Hfs' Hk Hk'. revert fs' Hfs' Hk'. induction Hfs as [|[n e] [m t] fs gs [En He] _ IHe]; intros fs' Hfs' Hk'; inversion Hfs' as [|[n' e'] ? fs1 ? [En' He'] Hfs1]; subst; [done|].
    cbn in *. subst. apply Forall_cons in IH as [IH1 IH2], Hk as [[Hk1 _] Hk2], Hk' as [[Hk1' _] Hk2']. cbn in *.
    f_equal; [f_equal; by apply IH1|by apply IHe].
Qed.

(** ** Growth of the cache *)

(** Types keep their description and id, names their id, tries their types. *)
Record grows (w w' : world) : Prop := MkGrows {
  gr_heap : forall p T, heap w !! p = Some T -> exists T', heap w' !! p = Some T' /\ Desc T' = Desc T /\ id T' = id T;
  gr_idents : ident_entries w ⊆ ident_entries w';
  gr_tries : tries w ⊆ tries w'
}.
Lemma grows_refl w : grows w w.
Proof. split; [eauto|done..]. Qed.
Lemma grows_trans w1 w2 w3 : grows w1 w2 -> grows w2 w3 -> grows w1 w3.
Proof.
  intros [H1 I1 T1] [H2 I2 T2]. split; [|by etransitivity..]. intros p T (T' & HT' & HD & Hid)%H1.
  apply H2 in HT' as (T'' & HT'' & HD' & Hid'). exists T''. split; [done|]. split; congruence.
Qed.
Lemma grows_known w w' p : grows w w' -> known w p -> known w' p.
Proof. intros Hg [Hp|[key Hk]]; [by left|right]. exists key. eapply lookup_weaken; [done|apply Hg]. Qed.
Lemma grows_has_id w w' p i : grows w w' -> has_id w p i -> has_id w' p i.
Proof. intros Hg (T & HT & Hi). destruct (gr_heap _ _ Hg _ _ HT) as (T' & HT' & _ & Hi'). exists T'. split; [done|congruence]. Qed.
Lemma grows_denotes w w' t : grows w w' -> forall p, denotes (heap w) p t -> denotes (heap w') p t.
Proof.
  intros Hg. induction t as [k|k ts IH|name gs IH] using ty_ind; intros p (T & HT & HD)%denotes_inv;
    destruct (gr_heap _ _ Hg _ _ HT) as (T' & HT' & HD' & _).
  - apply dn_prim with T'; congruence.
  - destruct HD as (es & HD & Hes). apply dn_comp with T' es; [done|congruence|].
    clear -IH Hes. induction Hes as [|e t es ts He _ IHe]; constructor; apply Forall_cons in IH as [IH1 IH2]; [by apply IH1|by apply IHe].
  - destruct HD as (fs & HD & Hfs). apply dn_struct with T' fs; [done|congruence|].
    clear -IH Hfs. induction Hfs as [|f g fs gs [Hn He] _ IHe]; constructor; apply Forall_cons in IH as [IH1 IH2]; [split; [done|by apply IH1]|by apply IHe].
Qed.
Lemma grows_field_path w w' fs : grows w w' -> forall path, field_path w fs path -> field_path w' fs path.
Proof.
  intros Hg. induction fs as [|[n p] fs IH]; intros [|i [|j path]]; cbn; try done. intros (H1 & H2 & H3).
  split; [eapply lookup_weaken; [done|apply Hg]|]. split; [by eapply grows_has_id|by apply IH].
Qed.
Lemma grows_trie_ok w w' key p : grows w w' -> nextId w <= nextId w' -> trie_ok w key p -> trie_ok w' key p.
Proof.
  intros Hg Hn (T & HT & Hid & Hm). destruct (gr_heap _ _ Hg _ _ HT) as (T' & HT' & HD' & Hid'). exists T'. split; [done|]. split; [lia|]. rewrite HD'.
  destruct (Desc T) as [k|k es|name fs|c]; [done| | |done].
  - destruct Hm as (Hc & Har & Hes & Hids). split_and!; [done|done| |].
    + eapply Forall_impl; [exact Hes|]. intros e [He Hlt]. split; [by eapply grows_known|done].
    + eapply Forall2_impl; [exact Hids|]. intros e i. by apply grows_has_id.
  - destruct Hm as (Hc & Hfs & Hpath). split_and!; [done| |].
    + eapply Forall_impl; [exact Hfs|]. intros f [He Hlt]. split; [by eapply grows_known|done].
    + destruct key.2 as [|i path]; [done|]. destruct Hpath as [Hi Hpath]. split; [eapply lookup_weaken; [done|apply Hg]|by eapply grows_field_path].
Qed.

Lemma known_lookup w p : world_ok w -> known w p -> exists T, heap w !! p = Some T.
Proof.
  intros Hw [[k Hk]|[key Hk]]; [destruct (wo_prims w Hw _ _ Hk) as (T & HT & _)|destruct (wo_tries w Hw _ _ Hk) as (T & HT & _)]; by exists T.
Qed.
Lemma known_has_id w p : world_ok w -> known w p -> exists i, has_id w p i.
Proof. intros Hw Hp. destruct (known_lookup w p Hw Hp) as [T HT]. exists (id T). by exists T. Qed.
Lemma known_lt w p : world_ok w -> known w p -> (p < length (heap w))%nat.
Proof. intros Hw Hp. destruct (known_lookup w p Hw Hp) as [T HT]. by apply lookup_lt_Some in HT. Qed.

(** A type that was there keeps its tree. *)
Lemma denotes_back w w' p t : world_ok w -> grows w w' -> known w p -> denotes (heap w') p t -> denotes (heap w) p t.
Proof.
  intros Hw Hg Hp Hd. destruct (known_tree w Hw p Hp) as (t0 & Hd0 & _). pose proof (grows_denotes w w' t0 Hg p Hd0) as Hd0'.
  by rewrite <- (denotes_fun _ _ _ _ Hd0' Hd).
Qed.

(** *** Names *)
Lemma GetId_ok n w : world_ok w -> is_Some (ident_entries w !! n) \/ ident_nextId w + 1 < 2 ^ 32 -> exists i w', GetId n w = (i, w') /\ world_ok w' /\ grows w w' /\
  ident_entries w' !! n = Some i /\ heap w' = heap w /\ tries w' = tries w /\ nextId w' = nextId w /\
  ident_nextId w <= ident_nextId w' <= ident_nextId w + 1 /\ (is_Some (ident_entries w !! n) -> w' = w).
Proof.
  intros Hw Hb. unfold GetId. destruct (ident_entries w !! n) as [i|] eqn:E.
  - exists i, w. split_and!; try done; [apply grows_refl|lia..].
  - destruct Hb as [[? ?]|Hb]; [done|]. pose proof (wo_bounds w Hw) as [Hb1 Hb2]. set (w' := MkWorld _ _ _ _ _). exists (ident_nextId w), w'.
    assert (grows w w') as Hg by (split; [eauto|by apply insert_subseteq|done]).
    assert (forall m j, ident_entries w' !! m = Some j -> (m = n /\ j = ident_nextId w) \/ (ident_entries w !! m = Some j /\ 0 <= j < ident_nextId w)) as Hent.
    { intros m j Hj. change (ident_entries w') with (<[n := ident_nextId w]> (ident_entries w)) in Hj.
      apply lookup_insert_Some in Hj as [[<- <-]|[? ?]]; [by left|right]. split; [done|by apply (wo_idents w Hw m)]. }
    split_and!; [done| |done|by apply lookup_insert_eq|done|done|done|cbn; rewrite u32_small; lia..|by intros []].
    split; [apply Hw| |apply Hw| | |cbn; rewrite u32_small by lia; lia|apply Hw|apply Hw].
    + intros key p Hk. apply grows_trie_ok with w; [done|done|by apply (wo_tries w Hw)].
    + intros m j Hj. cbn. rewrite u32_small by lia. destruct (Hent m j Hj) as [[_ ->]|[_ ?]]; lia.
    + intros m m' j Hj Hj'. destruct (Hent m j Hj) as [[-> ->]|[Hj1 ?]], (Hent m' _ Hj') as [[-> ?]|[Hj2 ?]]; try done; try lia.
      by apply (wo_names w Hw m m' j).
Qed.

(** *** A new type *)

Definition add_type (w : world) (key : trie) (d : TypeDesc) : world :=
  MkWorld (heap w ++ [new_Type d (nextId w)]) (ident_entries w) (ident_nextId w) (<[key := length (heap w)]> (tries w)) (nextId w + 1).
(** The components of [d] lead to [key]. *)
Definition leads_to (w : world) (d : TypeDesc) (key : trie) : Prop :=
  match d with
  | CompoundDesc k es => key.1 = kind_code k /\ arity_ok k (length es) = true /\ Forall (known w) es /\ Forall2 (has_id w) es key.2
  | StructDesc name fs =>
      key.1 = kind_code StructKind /\ Forall (fun f => known w f.2) fs /\
      match key.2 with i :: path => ident_entries w !! name = Some i /\ field_path w fs path | [] => False end
  | _ => False
  end.

Lemma add_type_grows w key d : tries w !! key = None -> grows w (add_type w key d).
Proof. intros Hk. split; cbn; [|done|by apply insert_subseteq]. intros p T HT. exists T. by rewrite lookup_app_l by (by eapply lookup_lt_Some). Qed.
Lemma add_type_new w key d : heap (add_type w key d) !! length (heap w) = Some (new_Type d (nextId w)).
Proof. cbn. by apply list_lookup_middle. Qed.
Lemma add_type_old w key d p T : heap (add_type w key d) !! p = Some T -> heap w !! p = Some T \/ (p = length (heap w) /\ T = new_Type d (nextId w)).
Proof.
  intros HT. cbn in HT. apply lookup_app_Some in HT as [?|[Hle HT]]; [by left|right].
  destruct (p - length (heap w))%nat as [|n] eqn:E; cbn in HT; [|done]. split; [lia|congruence].
Qed.

Lemma add_type_ok w key d : world_ok w -> tries w !! key = None -> nextId w + 1 < 2 ^ 32 -> leads_to w d key ->
  world_ok (add_type w key d).
Proof.
  intros Hw Hkey Hb Hl. pose proof (add_type_grows w key d Hkey) as Hg. pose proof (wo_bounds w Hw) as [Hb1 Hb2].
  pose proof (add_type_new w key d) as Hnew. set (w' := add_type w key d) in *. assert (tries w' = <[key := length (heap w)]> (tries w)) as Htr by done.
  assert (forall k p i, tries w' !! k = Some p -> has_id w' p i -> (k = key /\ p = length (heap w) /\ i = nextId w) \/ (tries w !! k = Some p /\ has_id w p i /\ i < nextId w)) as Hcases.
  { intros k p i Hk (T & HT & Hi). rewrite Htr in Hk. apply lookup_insert_Some in Hk as [[<- <-]|[_ Hk]].
    - left. rewrite Hnew in HT. injection HT as <-. done.
    - right. destruct (wo_tries w Hw _ _ Hk) as (T0 & HT0 & Hid & _). destruct (gr_heap _ _ Hg _ _ HT0) as (T1 & HT1 & _ & Hid1).
      assert (T1 = T) as -> by congruence. split; [done|]. split; [exists T0; split; [done|congruence]|lia]. }
  split.
  - intros k p Hk. destruct (wo_prims w Hw k p Hk) as (T & HT & HD & Hid). destruct (gr_heap _ _ Hg _ _ HT) as (T' & HT' & HD' & Hid').
    exists T'. split; [done|]. split; congruence.
  - intros k p Hk. rewrite Htr in Hk. apply lookup_insert_Some in Hk as [[<- <-]|[_ Hk]]; [|apply grows_trie_ok with w; [done|cbn; lia|by apply (wo_tries w Hw)]].
    exists (new_Type d (nextId w)). split; [done|]. split; [cbn; lia|]. cbn [Desc new_Type]. destruct d as [k|k es|name fs|c]; [done| | |done].
    + destruct Hl as (H1 & H2 & H3 & H4). split_and!; [done|done| |].
      * eapply Forall_impl; [exact H3|]. intros e He. split; [by eapply grows_known|by apply known_lt].
      * eapply Forall2_impl; [exact H4|]. intros e i. by apply grows_has_id.
    + destruct Hl as (H1 & H3 & H4). split_and!; [done| |].
      * eapply Forall_impl; [exact H3|]. intros f He. split; [by eapply grows_known|by apply known_lt].
      * destruct key.2; [done|]. destruct H4 as [H4 H5]. split; [done|by eapply grows_field_path].
  - intros k1 k2 p1 p2 i Hk1 Hk2 Hi1 Hi2.
    destruct (Hcases k1 p1 i Hk1 Hi1) as [(-> & -> & ->)|(K1 & I1 & L1)], (Hcases k2 p2 _ Hk2 Hi2) as [(-> & -> & E)|(K2 & I2 & L2)]; try lia.
    by apply (wo_ids w Hw k1 k2 p1 p2 i).
  - apply Hw.
  - apply Hw.
  - cbn. lia.
  - intros p T [HT|[-> ->]]%add_type_old; [by eapply grows_known, wo_all; [| |exact HT]|]. right. exists key. apply lookup_insert_eq.
  - intros p T sz t HT Hs Hd. apply add_type_old in HT as [HT|[-> ->]]; [|done].
    apply (wo_ser w Hw p T sz t HT Hs). apply denotes_back with w'; [done|done|by eapply wo_all|done].
Qed.

(** *** Looking a type up *)

Lemma traverse_ids_ok w es : world_ok w -> Forall (known w) es -> exists path, Forall2 (has_id w) es path /\
  forall tct, traverse_ids w tct es = Ok (tct.1, tct.2 ++ path).
Proof.
  intros Hw. induction 1 as [|e es He _ (path & Hp & IH)]; [exists []; split; [constructor|intros [c l]; cbn; by rewrite app_nil_r]|].
  destruct (known_lookup w e Hw He) as [T HT]. exists (id T :: path). split; [constructor; [by exists T|done]|]. intros [c l].
  cbn [traverse_ids]. unfold type_id, get_type. rewrite HT. cbn [obind]. rewrite IH. cbn. by rewrite <- app_assoc.
Qed.
Lemma has_ids_inj w : world_ok w -> forall es es' path, Forall (known w) es -> Forall (known w) es' -> Forall2 (has_id w) es path -> Forall2 (has_id w) es' path -> es = es'.
Proof.
  intros Hw es es' path Hk Hk' H. revert es' Hk'. induction H as [|e i es path He _ IH]; intros es' Hk' H'; inversion H' as [|e' ? es1 ? He' Hes1]; subst; [done|].
  apply Forall_cons in Hk as [Hk1 Hk2], Hk' as [Hk1' Hk2']. f_equal; [by apply (known_id_inj w e e' i)|by apply IH].
Qed.
Lemma field_path_inj w : world_ok w -> forall fs fs' path, Forall (fun f => known w f.2) fs -> Forall (fun f => known w f.2) fs' ->
  field_path w fs path -> field_path w fs' path -> fs = fs'.
Proof.
  intros Hw. induction fs as [|[n e] fs IH]; intros [|[n' e'] fs'] [|i [|j path]] Hk Hk'; cbn; try done.
  intros (H1 & H2 & H3) (H4 & H5 & H6). apply Forall_cons in Hk as [Hk1 Hk2], Hk' as [Hk1' Hk2']. cbn in *.
  rewrite (wo_names w Hw _ _ _ H1 H4), (known_id_inj w e e' j), (IH fs' path) by done. done.
Qed.

Lemma trie_comp w k es path p : world_ok w -> arity_ok k (length es) = true -> Forall (known w) es -> Forall2 (has_id w) es path ->
  tries w !! (kind_code k, path) = Some p -> exists T, heap w !! p = Some T /\ Desc T = CompoundDesc k es.
Proof.
  intros Hw Har Hk Hids Hkey. destruct (wo_tries w Hw _ _ Hkey) as (T & HT & _ & Hm). exists T. split; [done|].
  destruct (Desc T) as [k'|k' es'|name fs|c]; [done| | |done].
  - destruct Hm as (Hc & _ & Hes & Hids'). cbn in Hc, Hids'. apply kind_code_inj in Hc as <-. f_equal.
    apply (has_ids_inj w Hw _ _ path); [|done..]. eapply Forall_impl; [exact Hes|]. by intros e [? _].
  - destruct Hm as (Hc & _). cbn in Hc. change 9 with (kind_code StructKind) in Hc. apply kind_code_inj in Hc as ->. done.
Qed.
Lemma trie_struct w name fs i path p : world_ok w -> Forall (fun f => known w f.2) fs -> ident_entries w !! name = Some i -> field_path w fs path ->
  tries w !! (kind_code StructKind, i :: path) = Some p -> exists T, heap w !! p = Some T /\ Desc T = StructDesc name fs.
Proof.
  intros Hw Hk Hn Hpath Hkey. destruct (wo_tries w Hw _ _ Hkey) as (T & HT & _ & Hm). exists T. split; [done|].
  destruct (Desc T) as [k'|k' es'|name' fs'|c]; [done| | |done].
  - destruct Hm as (Hc & Har & _). cbn in Hc. change 9 with (kind_code StructKind) in Hc. apply kind_code_inj in Hc as <-. done.
  - destruct Hm as (_ & Hfs & Hn' & Hpath'). f_equal; [by apply (wo_names w Hw _ _ i)|].
    apply (field_path_inj w Hw _ _ path); [|done..]. eapply Forall_impl; [exact Hfs|]. by intros f [? _].
Qed.

Definition has_type (w : world) (t : ty) : Prop := exists q, known w q /\ denotes (heap w) q t.

(** [p] is an object of type [t] in [w'], which holds no more than [w] and the
    parts of [t]; nothing changes when [w] has the type. *)
Record yields (w : world) (t : ty) (p : ptr) (w' : world) : Prop := MkYields {
  y_ok : world_ok w';
  y_grows : grows w w';
  y_known : known w' p;
  y_tree : denotes (heap w') p t;
  y_next : nextId w' <= nextId w + Z.of_nat (size t);
  y_idents : ident_nextId w' <= ident_nextId w + Z.of_nat (names t);
  y_same : has_type w t -> w' = w
}.

Lemma known_parts w es ts : world_ok w -> forall es', Forall (known w) es -> Forall (known w) es' -> Forall2 (denotes (heap w)) es ts -> Forall2 (denotes (heap w)) es' ts -> es = es'.
Proof.
  intros Hw es' Hk Hk' H. revert es' Hk'. induction H as [|e t es ts He _ IH]; intros es' Hk' H'; inversion H' as [|e' ? es1 ? He' Hes1]; subst; [done|].
  apply Forall_cons in Hk as [Hk1 Hk2], Hk' as [Hk1' Hk2']. f_equal; [by apply (intern w t)|by apply IH].
Qed.

Lemma getCompoundType_ok w k es ts : world_ok w -> Forall (known w) es -> Forall2 (denotes (heap w)) es ts -> arity_ok k (length es) = true ->
  has_type w (TComp k ts) \/ nextId w + 1 < 2 ^ 32 -> exists p w', getCompoundType k es w = Ok (p, w') /\ world_ok w' /\ grows w w' /\ known w' p /\
  denotes (heap w') p (TComp k ts) /\ nextId w' <= nextId w + 1 /\ ident_nextId w' = ident_nextId w /\
  (has_type w (TComp k ts) -> w' = w).
Proof.
  intros Hw Hk Hts Har Hb. destruct (traverse_ids_ok w es Hw Hk) as (path & Hids & Htr). unfold getCompoundType. rewrite Htr. cbn [obind root_trie fst snd app].
  unfold trie_t. destruct (tries w !! (kind_code k, path)) as [p|] eqn:Hkey.
  - destruct (trie_comp w k es path p Hw Har Hk Hids Hkey) as (T & HT & HD). exists p, w.
    split_and!; [done|done|apply grows_refl|right; eauto|by apply dn_comp with T es|lia|done|done].
  - assert (~ has_type w (TComp k ts)) as Hno.
    { intros (q & Hq & (T & HT & es' & HD & Hes')%denotes_inv). destruct (known_comp w q T k es' Hw Hq HT HD) as (path' & Hkey' & _ & Hk' & Hids').
      assert (es = es') as <-. { apply (known_parts w es ts Hw); [done| |done..]. eapply Forall_impl; [exact Hk'|]. by intros e [? _]. }
      rewrite (has_ids_fun _ _ _ _ Hids' Hids) in Hkey'. congruence. }
    destruct Hb as [?|Hb]; [done|].
    assert (newType_next (CompoundDesc k es) w = (length (heap w), MkWorld (heap w ++ [new_Type (CompoundDesc k es) (nextId w)]) (ident_entries w) (ident_nextId w) (tries w) (nextId w + 1))) as ->.
    { unfold newType_next, nextTypeId, newType, set_heap. cbn. pose proof (wo_bounds w Hw). by rewrite u32_small by lia. }
    cbn. change (set_trie _ _ _) with (add_type w (kind_code k, path) (CompoundDesc k es)).
    pose proof (add_type_grows w (kind_code k, path) (CompoundDesc k es) Hkey) as Hg.
    eexists _, _. split; [reflexivity|]. split; [by apply add_type_ok|]. split; [done|]. split; [right; exists (kind_code k, path); by apply lookup_insert_eq|].
    split; [apply dn_comp with (new_Type (CompoundDesc k es) (nextId w)) es; [apply add_type_new|done|]|split; [cbn; lia|done]].
    eapply Forall2_impl; [exact Hts|]. intros e t. by apply grows_denotes.
Qed.

(** *** Struct types *)

Lemma traverse_fields_ok fs : forall w tct, world_ok w -> Forall (fun f => known w f.2) fs ->
  Forall (fun f => is_Some (ident_entries w !! f.1)) fs \/ ident_nextId w + Zlength fs < 2 ^ 32 ->
  exists path w', traverse_fields tct fs w = Ok ((tct.1, tct.2 ++ path), w') /\ world_ok w' /\ grows w w' /\ field_path w' fs path /\
  heap w' = heap w /\ tries w' = tries w /\ nextId w' = nextId w /\ ident_nextId w <= ident_nextId w' <= ident_nextId w + Zlength fs /\
  (Forall (fun f => is_Some (ident_entries w !! f.1)) fs -> w' = w).
Proof.
  induction fs as [|[n e] fs IH]; intros w [c l] Hw Hk Hb; cbn [traverse_fields].
  - exists [], w. rewrite app_nil_r. split_and!; try done; [apply grows_refl|unfold Zlength; cbn; lia..].
  - apply Forall_cons in Hk as [He Hk]. cbn in He. rewrite Zlength_cons in *. pose proof (Zlength_nonneg fs) as Hn.
    destruct (GetId_ok n w Hw) as (i & w1 & -> & Hw1 & Hg1 & Hi & Hh1 & Ht1 & Hn1 & Hb1 & Hs1);
      [destruct Hb as [[? _]%Forall_cons|Hb]; [by left|right; lia]|].
    destruct (known_lookup w e Hw He) as [T HT]. unfold type_id, get_type. rewrite Hh1, HT. cbn [obind].
    destruct (IH w1 (Traverse (Traverse (c, l) i) (id T))) as (path & w2 & -> & Hw2 & Hg2 & Hp & Hh2 & Ht2 & Hn2 & Hb2 & Hs2); [done| | |].
    { eapply Forall_impl; [exact Hk|]. intros f. by apply grows_known. }
    { destruct Hb as [[Hsn Hss]%Forall_cons|Hb]; [left; by rewrite (Hs1 Hsn)|right; lia]. }
    exists (i :: id T :: path), w2. cbn [fst snd Traverse]. rewrite <- !app_assoc. split_and!; try (done || congruence || lia).
    + by eapply grows_trans.
    + split; [eapply lookup_weaken; [done|apply Hg2]|]. split; [|done]. exists T. split; [congruence|done].
    + intros [Hs Hss]%Forall_cons. assert (w1 = w) as -> by (by apply Hs1). by apply Hs2.
Qed.

Lemma hasUnresolvedCycle_ok w t : forall p visited fuel, denotes (heap w) p t -> (depth t <= fuel)%nat ->
  hasUnresolvedCycle fuel w p visited = Ok false.
Proof.
  induction t as [k|k ts IH|name gs IH] using ty_ind; intros p visited fuel (T & HT & HD)%denotes_inv Hf;
    (destruct fuel as [|fuel]; [cbn in Hf; lia|]); cbn [hasUnresolvedCycle]; destruct (indexOfType p visited); try done; unfold get_type; rewrite HT; cbn [obind].
  - by rewrite HD.
  - destruct HD as (es & -> & Hes). cbn [depth] in Hf. generalize (visited ++ [p]). intros vs. clear -IH Hes Hf.
    induction Hes as [|e t es ts He _ IHe]; cbn [any_w]; [done|]. cbn [map] in Hf. rewrite list_max_cons in Hf. apply Forall_cons in IH as [IH1 IH2].
    rewrite IH1 by (done || lia). cbn [obind]. apply IHe; [done|lia].
  - destruct HD as (fs & -> & Hfs). cbn [depth] in Hf. generalize (visited ++ [p]). intros vs. clear -IH Hfs Hf.
    induction Hfs as [|f g fs gs [_ He] _ IHe]; cbn [any_w]; [done|]. cbn [map] in Hf. rewrite list_max_cons in Hf. apply Forall_cons in IH as [IH1 IH2].
    rewrite IH1 by (done || lia). cbn [obind]. apply IHe; [done|lia].
Qed.

Lemma fields_depth w fs (gs : list (list byte * ty)) : world_ok w -> Forall (fun f => known w f.2) fs -> Forall2 (fun f g => f.1 = g.1 /\ denotes (heap w) f.2 g.2) fs gs ->
  (list_max (map (fun g => depth g.2) gs) <= length (heap w))%nat.
Proof.
  intros Hw Hk. induction 1 as [|f g fs gs [_ Hd] _ IH]; [cbn; lia|]. apply Forall_cons in Hk as [Hf Hk]. cbn [map]. rewrite list_max_cons.
  destruct (known_tree w Hw _ Hf) as (t & Hd' & _ & Hdep). rewrite (denotes_fun _ _ _ _ Hd Hd'). pose proof (known_lt w _ Hw Hf). specialize (IH Hk). lia.
Qed.

Lemma known_fields w fs (gs : list (list byte * ty)) : world_ok w -> forall fs', Forall (fun f => known w f.2) fs -> Forall (fun f => known w f.2) fs' ->
  Forall2 (fun f g => f.1 = g.1 /\ denotes (heap w) f.2 g.2) fs gs -> Forall2 (fun f g => f.1 = g.1 /\ denotes (heap w) f.2 g.2) fs' gs -> fs = fs'.
Proof.
  intros Hw fs' Hk Hk' H. revert fs' Hk'. induction H as [|[n e] [m t] fs gs [En He] _ IH]; intros fs' Hk' H'; inversion H' as [|[n' e'] ? fs1 ? [En' He'] Hfs1]; subst; [done|].
  apply Forall_cons in Hk as [Hk1 Hk2], Hk' as [Hk1' Hk2']. cbn in *. subst. f_equal; [f_equal; by apply (intern w t)|by apply IH].
Qed.
(** A known struct has its names in the table. *)
Lemma field_path_names w fs : forall path, field_path w fs path -> Forall (fun f => is_Some (ident_entries w !! f.1)) fs.
Proof. induction fs as [|[n e] fs IH]; intros [|i [|j path]]; cbn; try done. intros (Hn & _ & Hp). constructor; [by exists i|by eapply IH]. Qed.

Lemma makeStructTypeQuickly_ok `{GoSort} w name fs (gs : list (list byte * ty)) ck : world_ok w -> Forall (fun f => known w f.2) fs ->
  Forall2 (fun f g => f.1 = g.1 /\ denotes (heap w) f.2 g.2) fs gs -> nextId w + 1 < 2 ^ 32 ->
  Forall (fun n => is_Some (ident_entries w !! n)) (name :: (fst <$> fs)) \/ ident_nextId w + 1 + Zlength fs < 2 ^ 32 ->
  exists p w', makeStructTypeQuickly name fs ck w = Ok (p, w') /\ world_ok w' /\ grows w w' /\ known w' p /\
  denotes (heap w') p (TStruct name gs) /\ nextId w' <= nextId w + 1 /\ ident_nextId w' <= ident_nextId w + 1 + Zlength fs /\
  (Forall (fun n => is_Some (ident_entries w !! n)) (name :: (fst <$> fs)) -> ident_nextId w' = ident_nextId w) /\
  ((exists q, known w q /\ denotes (heap w) q (TStruct name gs)) -> w' = w).
Proof.
  intros Hw Hk Hgs Hb Hbi. unfold makeStructTypeQuickly. pose proof (Zlength_nonneg fs) as Hn.
  destruct (GetId_ok name w Hw) as (i & w1 & -> & Hw1 & Hg1 & Hi & Hh1 & Ht1 & Hn1 & Hb1 & Hs1);
    [destruct Hbi as [[? _]%Forall_cons|Hbi]; [by left|right; lia]|].
  assert (Forall (fun f => known w1 f.2) fs) as Hk1. { eapply Forall_impl; [exact Hk|]. intros f. by apply grows_known. }
  destruct (traverse_fields_ok fs w1 (Traverse (root_trie StructKind) i) Hw1 Hk1) as (path & w2 & -> & Hw2 & Hg2 & Hp & Hh2 & Ht2 & Hn2 & Hb2 & Hs2);
    [destruct Hbi as [[Hsn Hss]%Forall_cons|Hbi]; [left; rewrite (Hs1 Hsn); exact (proj1 (Forall_fmap fst _ _) Hss)|right; lia]|].
  cbn [obind Traverse root_trie fst snd app]. assert (grows w w2) as Hg by (by eapply grows_trans).
  assert (Forall (fun f => known w2 f.2) fs) as Hk2. { eapply Forall_impl; [exact Hk|]. intros f. by apply grows_known. }
  assert (ident_entries w2 !! name = Some i) as Hi2 by (eapply lookup_weaken; [done|apply Hg2]).
  assert (Forall2 (fun f g => f.1 = g.1 /\ denotes (heap w2) f.2 g.2) fs gs) as Hgs2 by (rewrite Hh2, Hh1; done).
  assert (forall q, known w q -> denotes (heap w) q (TStruct name gs) -> w2 = w /\ tries w2 !! (kind_code StructKind, i :: path) = Some q) as Hsame.
  { intros q Hq (T & HT & fs' & HD & Hfs')%denotes_inv. destruct (known_struct w q T name fs' Hw Hq HT HD) as (i' & path' & Hkey & Hk' & Hi' & Hp').
    assert (fs = fs') as <-. { apply (known_fields w fs gs Hw); [done| |done..]. eapply Forall_impl; [exact Hk'|]. by intros f [? _]. }
    assert (w1 = w) as -> by (apply Hs1; by exists i'). assert (w2 = w) as -> by (apply Hs2; by eapply field_path_names). split; [done|].
    rewrite (field_path_fun _ _ _ _ Hp Hp'). congruence. }
  unfold trie_t. destruct (tries w2 !! (kind_code StructKind, i :: path)) as [p|] eqn:Hkey.
  - destruct (trie_struct w2 name fs i path p Hw2 Hk2 Hi2 Hp Hkey) as (T & HT & HD). exists p, w2.
    split_and!; [done|done|done|right; eauto|by apply dn_struct with T fs|lia|lia| |].
    + intros [Hs Hss]%Forall_cons. assert (w1 = w) as -> by (by apply Hs1). rewrite Hs2; [done|]. exact (proj1 (Forall_fmap fst _ _) Hss).
    + intros (q & Hq & Hd). by apply (Hsame q).
  - cbn [newType]. set (w3 := set_heap w2 (heap w2 ++ [new_Type (StructDesc name fs) 0])).
    assert (grows w2 w3) as Hg3. { split; [|done..]. intros p T HT. exists T. cbn. by rewrite lookup_app_l by (by eapply lookup_lt_Some). }
    assert (heap w3 !! length (heap w2) = Some (new_Type (StructDesc name fs) 0)) as Hnew by (by apply list_lookup_middle).
    assert (HasUnresolvedCycle w3 (length (heap w2)) = Ok false) as ->.
    { unfold HasUnresolvedCycle. apply hasUnresolvedCycle_ok with (TStruct name gs).
      - eapply dn_struct; [exact Hnew|done|]. eapply Forall2_impl; [exact Hgs2|]. intros f g [E D]. split; [done|by eapply grows_denotes].
      - cbn [depth]. pose proof (fields_depth w2 fs gs Hw2 Hk2 Hgs2). unfold type_fuel. cbn [heap w3 set_heap]. rewrite length_app. cbn [length]. lia. }
    cbn [obind]. unfold nextTypeId, get_type. cbn [heap]. rewrite Hnew. cbn [obind]. pose proof (wo_bounds w Hw) as Hbd.
    match goal with |- context [Ok (length (heap w2), ?x)] => assert (x = add_type w2 (kind_code StructKind, i :: path) (StructDesc name fs)) as -> end.
    { unfold set_trie, set_type, set_heap, add_type. cbn. rewrite u32_small by lia. f_equal. rewrite insert_app_r_alt, Nat.sub_diag by lia. done. }
    eexists _, _. split; [reflexivity|]. pose proof (add_type_grows w2 _ (StructDesc name fs) Hkey) as Hg4.
    split; [apply add_type_ok; [done|done|lia|done]|]. split; [by eapply grows_trans|]. split; [right; eexists; by apply lookup_insert_eq|].
    split; [|split; [cbn; lia|split; [cbn; lia|split]]].
    + eapply dn_struct; [apply add_type_new|done|]. eapply Forall2_impl; [exact Hgs2|]. intros f g [E D]. split; [done|by eapply grows_denotes].
    + intros [Hs Hss]%Forall_cons. assert (w1 = w) as -> by (by apply Hs1). cbn. rewrite Hs2; [done|]. exact (proj1 (Forall_fmap fst _ _) Hss).
    + intros (q & Hq & Hd). destruct (Hsame q Hq Hd) as [_ Hq']. congruence.
Qed.

(** ** Reading a type *)

(** [f] takes the bytes [l] at any position, in the cache [w], with a result and
    a cache that satisfy [P]. *)
Definition dreads {A} (w : world) (f : valueDecoder -> outcome (A * valueDecoder)) (l : list byte) (P : A -> world -> Prop) : Prop :=
  forall before after d, Zlength (before ++ l ++ after) < 2 ^ 32 -> exists a w',
  f (MkDecoder (MkReader (before ++ l ++ after) (Zlength before)) w d) =
    Ok (a, MkDecoder (MkReader (before ++ l ++ after) (Zlength before + Zlength l)) w' d) /\ P a w'.

Lemma dreads_bind {A B} w f (g : A -> valueDecoder -> outcome (B * valueDecoder)) l k P Q : dreads w f l P ->
  (forall a w', P a w' -> dreads w' (g a) k Q) -> dreads w (fun r => let! (a, r) := f r in g a r) (l ++ k) Q.
Proof.
  intros Hf Hg before after d Hlen. rewrite <- app_assoc in *. destruct (Hf before (k ++ after) d Hlen) as (a & w1 & -> & Ha). cbn [obind].
  rewrite app_assoc, <- Zlength_app in *. destruct (Hg a w1 Ha (before ++ l) after d Hlen) as (b & w2 & -> & Hb).
  exists b, w2. split; [|done]. by rewrite !Zlength_app, Z.add_assoc.
Qed.
Lemma dreads_weaken {A} w f l (P Q : A -> world -> Prop) : dreads w f l P -> (forall a w', P a w' -> Q a w') -> dreads w f l Q.
Proof. intros Hf HPQ before after d Hlen. destruct (Hf before after d Hlen) as (a & w' & He & Ha). eauto. Qed.
Lemma dreads_ext {A} w f g l (P : A -> world -> Prop) : (forall r, tc r = w -> f r = g r) -> dreads w g l P -> dreads w f l P.
Proof. intros He Hg before after d Hlen. rewrite He by done. by apply Hg. Qed.
Lemma dreads_ret {A} w (a : A) (P : A -> world -> Prop) : P a w -> dreads w (fun r => Ok (a, r)) [] P.
Proof. intros Ha before after d _. exists a, w. by rewrite Z.add_0_r. Qed.
Lemma dreads_map {A B} w f (g : A -> B) l P : dreads w f l (fun a w' => P (g a) w') -> dreads w (fun r => let! (a, r) := f r in Ok (g a, r)) l P.
Proof. intros Hf before after d Hlen. destruct (Hf before after d Hlen) as (a & w' & -> & Ha). cbn. eauto. Qed.
Lemma dreads_reader {A} w f l (a : A) (P : A -> world -> Prop) : reads f l a -> P a w -> dreads w (on_reader f) l P.
Proof. intros Hf Ha before after d Hlen. unfold on_reader. cbn [nomsReader]. rewrite Hf by done. cbn. eauto. Qed.
Lemma dreads_tc {A} w f a w' (P : A -> world -> Prop) : f w = Ok (a, w') -> P a w' -> dreads w (on_tc f) [] P.
Proof. intros Hf Ha before after d Hlen. unfold on_tc. cbn [tc]. rewrite Hf. cbn. exists a, w'. by rewrite Z.add_0_r. Qed.

Lemma readIdent_ok n w : world_ok w -> is_Some (ident_entries w !! n) \/ ident_nextId w + 1 < 2 ^ 32 -> dreads w readIdent (str_bytes n) (fun i w' =>
  world_ok w' /\ grows w w' /\ ident_entries w' !! n = Some i /\ heap w' = heap w /\ tries w' = tries w /\ nextId w' = nextId w /\
  ident_nextId w <= ident_nextId w' <= ident_nextId w + 1 /\ (is_Some (ident_entries w !! n) -> w' = w)).
Proof.
  intros Hw Hb before after d Hlen. destruct (GetId_ok n w Hw Hb) as (i & w' & He & Hp). exists i, w'. split; [|exact Hp].
  pose proof (reads_String n before after Hlen) as Hs. unfold readString in Hs. unfold readIdent, on_reader. cbn [nomsReader].
  destruct (readUint32 _) as [[size b]|]; cbn [obind] in Hs |- *; [|done]. cbn [nomsReader tc typeDepth].
  destruct (slice _ _ _) as [v|]; cbn [obind] in Hs |- *; [|done]. pose proof (f_equal (fun o => match o with Ok (x, _) => x | _ => v end) Hs) as Hv. cbn in Hv. subst v.
  pose proof (f_equal (fun o => match o with Ok (_, x) => x | _ => b end) Hs) as Hb'. cbn beta iota in Hb'. rewrite Hb'.
  unfold on_tc. cbn [tc]. rewrite He. done.
Qed.

Section readTypes.
Context (rt : valueDecoder -> outcome (ptr * valueDecoder)).

(** The cache has the type, or ids for all its parts. *)
Definition room (w : world) (t : ty) : Prop :=
  has_type w t \/ (nextId w + Z.of_nat (size t) < 2 ^ 32 /\ ident_nextId w + Z.of_nat (names t) < 2 ^ 32).
(** [rt] reads the type [t] in any cache with room for it. *)
Definition reads_type (t : ty) : Prop := forall w, world_ok w -> room w t -> dreads w rt (ser t) (yields w t).

Lemma read_types_ok ts : Forall reads_type ts -> forall w, world_ok w ->
  Forall (has_type w) ts \/ (nextId w + Z.of_nat (list_sum (map size ts)) < 2 ^ 32 /\ ident_nextId w + Z.of_nat (list_sum (map names ts)) < 2 ^ 32) ->
  dreads w (repeat_w (length ts) rt) (flat_map ser ts) (fun ps w' => world_ok w' /\ grows w w' /\ Forall (known w') ps /\
    Forall2 (denotes (heap w')) ps ts /\ nextId w' <= nextId w + Z.of_nat (list_sum (map size ts)) /\
    ident_nextId w' <= ident_nextId w + Z.of_nat (list_sum (map names ts)) /\ (Forall (has_type w) ts -> w' = w)).
Proof.
  induction 1 as [|t ts Ht _ IH]; intros w Hw Hb; cbn [length repeat_w flat_map map list_sum foldr] in *.
  - apply dreads_ret. split_and!; try done; [apply grows_refl|constructor..|lia|lia].
  - fold (list_sum (map size ts)) (list_sum (map names ts)) in *. eapply dreads_bind; [apply Ht; [done|]|].
    { destruct Hb as [[? _]%Forall_cons|Hb]; [by left|right; lia]. }
    intros p w1 Hy. pose proof (y_next _ _ _ _ Hy). pose proof (y_idents _ _ _ _ Hy). rewrite <- (app_nil_r (flat_map ser ts)).
    eapply dreads_bind; [apply IH; [apply Hy|]|].
    { destruct Hb as [[H1 H2]%Forall_cons|Hb]; [left; by rewrite (y_same _ _ _ _ Hy H1)|right; lia]. }
    intros ps w2 (Hw2 & Hg2 & Hk2 & Hd2 & Hn2 & Hi2 & Hs2). apply dreads_ret.
    split_and!; [done|eapply grows_trans; [apply Hy|done]|constructor; [eapply grows_known; [done|apply Hy]|done]|constructor; [eapply grows_denotes; [done|apply Hy]|done]|lia|lia|].
    intros [H1 H2]%Forall_cons. assert (w1 = w) as -> by (by apply (y_same _ _ _ _ Hy)). by apply Hs2.
Qed.

(** The parts of a type in the cache are in the cache. *)
Lemma has_parts w k ts : world_ok w -> has_type w (TComp k ts) -> Forall (has_type w) ts.
Proof.
  intros Hw (q & Hq & (T & HT & es & HD & Hes)%denotes_inv). destruct (known_comp w q T k es Hw Hq HT HD) as (path & _ & _ & Hes' & _).
  clear -Hes Hes'. induction Hes as [|e t es ts He _ IHe]; constructor; apply Forall_cons in Hes' as [[H1 _] H2]; [by exists e|by apply IHe].
Qed.

Lemma read_comp_ok k ts : arity_ok k (length ts) = true -> Forall reads_type ts -> forall w, world_ok w -> room w (TComp k ts) ->
  dreads w (fun r => let! (ps, r) := repeat_w (length ts) rt r in on_tc (getCompoundType k ps) r) (flat_map ser ts) (yields w (TComp k ts)).
Proof.
  intros Har Hts w Hw Hb. unfold room in Hb. cbn [size names] in *. rewrite <- (app_nil_r (flat_map ser ts)).
  eapply dreads_bind; [apply read_types_ok; [done|done|]|].
  { destruct Hb as [Hb|Hb]; [left; by apply has_parts with k|right; lia]. }
  intros ps w1 (Hw1 & Hg1 & Hk1 & Hd1 & Hn1 & Hi1 & Hs1). assert (has_type w (TComp k ts) -> w1 = w) as Hsame by (intros Hh; by eapply Hs1, has_parts).
  destruct (getCompoundType_ok w1 k ps ts Hw1 Hk1 Hd1) as (p & w2 & He & Hw2 & Hg2 & Hk2 & Hd2 & Hn2 & Hi2 & Hs2); [by rewrite (Forall2_length _ _ _ Hd1)| |].
  { destruct Hb as [Hb|Hb]; [left; by rewrite (Hsame Hb)|right; lia]. }
  apply dreads_tc with p w2; [done|]. split; [done|by eapply grows_trans|done|done|cbn [size]; lia|cbn [names]; lia|].
  intros Hh. pose proof (Hsame Hh) as ->. by apply Hs2.
Qed.

Definition field_ser (g : list byte * ty) : list byte := str_bytes g.1 ++ ser g.2.
Definition fields_size (gs : list (list byte * ty)) : Z := Z.of_nat (list_sum (map (fun g => size g.2) gs)).
Definition fields_names (gs : list (list byte * ty)) : Z := Z.of_nat (list_sum (map (fun g => S (names g.2)) gs)).
(** Everything the fields need is in the cache. *)
Definition has_fields (w : world) (gs : list (list byte * ty)) : Prop :=
  Forall (fun g => is_Some (ident_entries w !! g.1) /\ has_type w g.2) gs.
Definition fields_denote (w : world) (fs : list (list byte * ptr)) (gs : list (list byte * ty)) : Prop :=
  Forall2 (fun f g => f.1 = g.1 /\ denotes (heap w) f.2 g.2) fs gs.

Lemma fields_size_cons g gs : fields_size (g :: gs) = Z.of_nat (size g.2) + fields_size gs.
Proof. unfold fields_size. cbn. fold (list_sum (map (fun g => size g.2) gs)). lia. Qed.
Lemma fields_names_cons g gs : fields_names (g :: gs) = 1 + Z.of_nat (names g.2) + fields_names gs.
Proof. unfold fields_names. cbn. fold (list_sum (map (fun g => S (names g.2)) gs)). lia. Qed.
Lemma fields_size_nonneg gs : 0 <= fields_size gs.
Proof. unfold fields_size. lia. Qed.
Lemma fields_names_nonneg gs : Zlength gs <= fields_names gs.
Proof. induction gs as [|g gs IH]; [done|]. rewrite fields_names_cons, Zlength_cons. lia. Qed.

Definition cached_step (tct : trie) (r : valueDecoder) : outcome (trie * valueDecoder) :=
  let! (i, r) := readIdent r in
  let! (t, r) := rt r in
  let! j := type_id (tc r) t in
  Ok (Traverse (Traverse tct i) j, r).

(** The first pass over the fields of a struct follows the trie. *)
Lemma cached_fields_ok gs : Forall (fun g => reads_type g.2) gs -> forall w tct, world_ok w ->
  has_fields w gs \/ (nextId w + fields_size gs < 2 ^ 32 /\ ident_nextId w + fields_names gs < 2 ^ 32) ->
  dreads w (iterate_w (length gs) cached_step tct) (flat_map field_ser gs) (fun tct' w' => world_ok w' /\ grows w w' /\
    (exists fs path, tct' = (tct.1, tct.2 ++ path) /\ field_path w' fs path /\ Forall (fun f => known w' f.2) fs /\ fields_denote w' fs gs) /\
    nextId w' <= nextId w + fields_size gs /\ ident_nextId w' <= ident_nextId w + fields_names gs /\ (has_fields w gs -> w' = w)).
Proof.
  induction 1 as [|[n t] gs Ht _ IH]; intros w [c l] Hw Hb; cbn [length iterate_w flat_map].
  - apply dreads_ret. split_and!; try done; [apply grows_refl|exists [], []; rewrite app_nil_r; split_and!; try done; constructor|unfold fields_size; cbn; lia|unfold fields_names; cbn; lia].
  - rewrite fields_size_cons, fields_names_cons in *. cbn [fst snd] in *. pose proof (fields_size_nonneg gs). pose proof (fields_names_nonneg gs). pose proof (Zlength_nonneg gs).
    eapply dreads_bind with (P := fun tct1 w1 => world_ok w1 /\ grows w w1 /\ (exists i p j, tct1 = (c, l ++ [i; j]) /\ ident_entries w1 !! n = Some i /\
      has_id w1 p j /\ known w1 p /\ denotes (heap w1) p t) /\ nextId w1 <= nextId w + Z.of_nat (size t) /\ ident_nextId w1 <= ident_nextId w + 1 + Z.of_nat (names t) /\
      (is_Some (ident_entries w !! n) -> has_type w t -> w1 = w)).
    { unfold field_ser, cached_step. cbn [fst snd]. eapply dreads_bind; [apply readIdent_ok; [done|]|].
      { destruct Hb as [[[? _] _]%Forall_cons|Hb]; [by left|right; lia]. }
      intros i w1 (Hw1 & Hg1 & Hi & Hh1 & Ht1 & Hn1 & Hb1 & Hs1). rewrite <- (app_nil_r (ser t)).
      eapply dreads_bind; [apply Ht; [done|]|].
      { destruct Hb as [[[Ha1 Ha2] _]%Forall_cons|Hb]; [left; by rewrite (Hs1 Ha1)|right; lia]. }
      intros p w2 Hy. pose proof (y_next _ _ _ _ Hy). pose proof (y_idents _ _ _ _ Hy).
      destruct (known_lookup w2 p (y_ok _ _ _ _ Hy) (y_known _ _ _ _ Hy)) as [T HT].
      eapply dreads_ext; [intros r Hr; unfold type_id, get_type; rewrite Hr, HT; cbn [obind]; reflexivity|]. apply dreads_ret.
      split; [apply Hy|]. split; [eapply grows_trans; [done|apply Hy]|]. split; [|split; [lia|split; [lia|]]].
      - exists i, p, (id T). split; [unfold Traverse; cbn [fst snd]; by rewrite <- app_assoc|]. split; [eapply lookup_weaken; [done|apply Hy]|]. split; [by exists T|]. split; apply Hy.
      - intros Hs Hht. assert (w1 = w) as -> by (by apply Hs1). by apply (y_same _ _ _ _ Hy). }
    intros tct1 w1 (Hw1 & Hg1 & (i & p & j & -> & Hi & Hid & Hk & Hd) & Hn1 & Hi1 & Hs1).
    eapply dreads_weaken; [apply IH; [done|]|].
    { destruct Hb as [[[Ha1 Ha2] Ha3]%Forall_cons|Hb]; [left; by rewrite (Hs1 Ha1 Ha2)|right; lia]. }
    intros tct' w2 (Hw2 & Hg2 & (fs & path & -> & Hp & Hks & Hds) & Hn2 & Hi2 & Hs2).
    split; [done|]. split; [by eapply grows_trans|]. split; [|split; [lia|split; [lia|]]].
    + exists ((n, p) :: fs), (i :: j :: path). cbn [fst snd]. split; [by rewrite <- app_assoc|]. split.
      { split; [eapply lookup_weaken; [done|apply Hg2]|]. split; [by eapply grows_has_id|done]. }
      split; constructor; [by eapply grows_known|done|split; [done|by eapply grows_denotes]|done].
    + intros [[Hs Hht] Hrest]%Forall_cons. assert (w1 = w) as -> by (by apply Hs1). by apply Hs2.
Qed.

(** The second pass reads the same fields again; nothing is new. *)
Lemma read_fields_ok gs : Forall (fun g => reads_type g.2) gs -> forall w, world_ok w -> Forall (fun g => has_type w g.2) gs ->
  dreads w (repeat_w (length gs) (fun r => let! (fn, r) := on_reader readString r in let! (ft, r) := rt r in Ok ((fn, ft), r)))
    (flat_map field_ser gs) (fun fs w' => w' = w /\ Forall (fun f => known w f.2) fs /\ fields_denote w fs gs).
Proof.
  induction 1 as [|[n t] gs Ht _ IH]; intros w Hw Hh; cbn [length repeat_w flat_map].
  - apply dreads_ret. split_and!; [done|constructor..].
  - apply Forall_cons in Hh as [Hht Hh]. cbn [snd] in Hht.
    eapply dreads_bind with (P := fun f w1 => w1 = w /\ f.1 = n /\ known w f.2 /\ denotes (heap w) f.2 t).
    { unfold field_ser. cbn [fst snd]. eapply dreads_bind; [apply (dreads_reader w readString (str_bytes n) n (fun a w' => a = n /\ w' = w)); [exact (reads_String n)|exact (conj eq_refl eq_refl)]|].
      intros n' w1 [-> ->]. apply (dreads_map w rt (fun ft => (n, ft))). eapply dreads_weaken; [apply Ht; [done|by left]|].
      intros p w1 Hy. assert (w1 = w) as -> by (by apply (y_same _ _ _ _ Hy)). split_and!; [done|done|apply Hy..]. }
    intros [n' p] w1 (-> & <- & Hk & Hd). cbn [fst snd] in *. rewrite <- (app_nil_r (flat_map field_ser gs)).
    eapply dreads_bind; [by apply IH|]. intros fs w1 (-> & Hks & Hds). apply dreads_ret.
    split; [done|]. split; constructor; try done.
Qed.

End readTypes.

Lemma dreads_count {A} w n (g : Z -> valueDecoder -> outcome (A * valueDecoder)) l P : 0 <= n <= Zlength l -> dreads w (g n) l P ->
  dreads w (fun r => let! (count, r) := on_reader readUint32 r in g count r) (be_put 4 n ++ l) P.
Proof.
  intros Hn Hg before after d Hlen. assert (n < 2 ^ 32) as Hlt.
  { rewrite !Zlength_app in Hlen. pose proof (Zlength_nonneg before). pose proof (Zlength_nonneg after). pose proof (Zlength_nonneg (be_put 4 n)). lia. }
  revert before after d Hlen. eapply dreads_bind.
  - apply (dreads_reader w readUint32 (be_put 4 n) n (fun a w' => a = n /\ w' = w)); [apply reads_Uint32; lia|done].
  - intros a w' [-> ->]. done.
Qed.
Lemma dreads_kind {A} w k (g : option NomsKind -> valueDecoder -> outcome (A * valueDecoder)) l P : dreads w (g (Some k)) l P ->
  dreads w (fun r => let! (x, r) := readKind r in g x r) (be_put 1 (kind_code k) ++ l) P.
Proof.
  intros Hg. apply (dreads_bind w readKind g _ _ (fun a w' => a = Some k /\ w' = w)); [|intros a w' [-> ->]; exact Hg].
  unfold readKind. apply (dreads_map w (on_reader readUint8) kind_of).
  apply (dreads_reader w readUint8 _ (kind_code k)); [apply reads_Uint8, kind_code_range|]. by rewrite kind_of_code.
Qed.

Lemma has_struct_parts w name gs : world_ok w -> has_type w (TStruct name gs) -> is_Some (ident_entries w !! name) /\ has_fields w gs.
Proof.
  intros Hw (q & Hq & (T & HT & fs & HD & Hfs)%denotes_inv). destruct (known_struct w q T name fs Hw Hq HT HD) as (i & path & _ & Hk & Hi & Hp).
  split; [by exists i|]. pose proof (field_path_names w fs path Hp) as Hnames. clear -Hfs Hk Hnames.
  induction Hfs as [|f g fs gs [En Hd] _ IH]; [constructor|]. apply Forall_cons in Hk as [[Hk1 _] Hk2], Hnames as [Hn Hnames].
  constructor; [|by apply IH]. rewrite <- En. split; [done|by exists f.2].
Qed.
Lemma struct_sizes name gs : Z.of_nat (size (TStruct name gs)) = fields_size gs + 1 /\ Z.of_nat (names (TStruct name gs)) = fields_names gs + 1.
Proof. unfold fields_size, fields_names. cbn [size names]. lia. Qed.
Lemma fields_count gs : 0 <= Zlength gs <= Zlength (flat_map field_ser gs).
Proof.
  split; [apply Zlength_nonneg|]. apply flat_map_length. intros g. unfold field_ser. rewrite Zlength_app.
  pose proof (ser_nonempty g.2). pose proof (Zlength_nonneg (str_bytes g.1)). lia.
Qed.
Definition struct_body (name : list byte) (gs : list (list byte * ty)) : list byte :=
  str_bytes name ++ be_put 4 (Zlength gs) ++ flat_map field_ser gs.

Lemma cached_struct_ok rt name gs : Forall (fun g => reads_type rt g.2) gs -> forall w, world_ok w -> room w (TStruct name gs) ->
  dreads w (readCachedStructType rt) (struct_body name gs) (fun ot w1 => world_ok w1 /\ grows w w1 /\ is_Some (ident_entries w1 !! name) /\
    (exists fs, Forall (fun f => known w1 f.2) fs /\ fields_denote w1 fs gs /\ Forall (fun f => is_Some (ident_entries w1 !! f.1)) fs /\
      forall t, ot = Some t -> exists T, heap w1 !! t = Some T /\ Desc T = StructDesc name fs) /\
    (ot = None -> ~ has_type w1 (TStruct name gs)) /\
    nextId w1 <= nextId w + fields_size gs /\ ident_nextId w1 <= ident_nextId w + 1 + fields_names gs /\
    (has_type w (TStruct name gs) -> w1 = w)).
Proof.
  intros Hgs w Hw Hb. destruct (struct_sizes name gs) as [Es En]. unfold room in Hb. rewrite Es, En in Hb.
  pose proof (fields_names_nonneg gs) as Hnm. pose proof (Zlength_nonneg gs) as Hln. unfold readCachedStructType, struct_body.
  eapply dreads_bind; [apply readIdent_ok; [done|]|].
  { destruct Hb as [[? _]%has_struct_parts|Hb]; [by left|done|right; lia]. }
  intros i w1 (Hw1 & Hg1 & Hi & Hh1 & Ht1 & Hn1 & Hb1 & Hs1). apply dreads_count; [apply fields_count|].
  unfold Zlength. rewrite Nat2Z.id, <- (app_nil_r (flat_map field_ser gs)). eapply dreads_bind; [apply cached_fields_ok; [done|done|]|].
  { destruct Hb as [[Hsn Hhf]%has_struct_parts|Hb]; [left; by rewrite (Hs1 Hsn)|done|right; lia]. }
  intros tct w2 (Hw2 & Hg2 & (fs & path & -> & Hp & Hk & Hd) & Hn2 & Hi2 & Hs2).
  assert (ident_entries w2 !! name = Some i) as Hi' by (eapply lookup_weaken; [done|apply Hg2]).
  eapply dreads_ext; [intros r Hr; rewrite Hr; reflexivity|]. apply dreads_ret. split_and!; [done|by eapply grows_trans|by exists i| | |lia|lia|].
  - exists fs. split_and!; [done|done|by eapply field_path_names|]. intros t Ht. by apply (trie_struct w2 name fs i path t).
  - intros Ht (q & Hq & (T & HT & fs' & HD & Hfs')%denotes_inv). destruct (known_struct w2 q T name fs' Hw2 Hq HT HD) as (i' & path' & Hkey & Hk' & Hi3 & Hp').
    assert (fs = fs') as <-. { apply (known_fields w2 fs gs Hw2); [done| |done..]. eapply Forall_impl; [exact Hk'|]. by intros f [? _]. }
    rewrite (field_path_fun _ _ _ _ Hp' Hp) in Hkey. assert (i' = i) as -> by congruence. change (tries w2 !! (kind_code StructKind, i :: path) = None) in Ht. congruence.
  - intros [Hsn Hhf]%has_struct_parts; [|done]. assert (w1 = w) as -> by (by apply Hs1). by apply Hs2.
Qed.

(** A struct: the first pass finds it, or the second pass adds it. *)
Lemma read_struct_ok `{GoSort} rt name gs : Forall (fun g => reads_type rt g.2) gs -> forall w, world_ok w -> room w (TStruct name gs) ->
  dreads w (readStructType rt) (struct_body name gs) (yields w (TStruct name gs)).
Proof.
  intros Hgs w Hw Hb before after d Hlen. unfold readStructType. destruct (struct_sizes name gs) as [Es En].
  destruct (cached_struct_ok rt name gs Hgs w Hw Hb before after d Hlen) as (ot & w1 & -> & Hw1 & Hg1 & Hn & (fs & Hk & Hd & Hfn & Hot) & Hnew & Hn1 & Hi1 & Hs1).
  cbn [obind nomsReader pos r_offset]. destruct ot as [t|].
  { exists t, w1. split; [done|]. destruct (Hot t eq_refl) as (T & HT & HD).
    split; [done|done|by eapply wo_all|by apply dn_struct with T fs|lia|lia|done]. }
  cbn [seek tc typeDepth r_buff].
  assert (Forall (fun g => has_type w1 g.2) gs) as Hht.
  { clear -Hk Hd. induction Hd as [|f g fs gs [_ Hd] _ IH]; constructor; apply Forall_cons in Hk as [H1 H2]; [by exists f.2|by apply IH]. }
  assert (nextId w1 + 1 < 2 ^ 32) as Hroom.
  { unfold room in Hb. destruct Hb as [Hb|Hb]; [|lia]. exfalso. apply (Hnew eq_refl). by rewrite (Hs1 Hb). }
  revert before after d Hlen. fold (dreads w1 (fun r => let! (name, r) := on_reader readString r in let! (count, r) := on_reader readUint32 r in
    let! (fields, r) := repeat_w (Z.to_nat count) (fun r => let! (fn, r) := on_reader readString r in let! (ft, r) := rt r in Ok ((fn, ft), r)) r in
    on_tc (makeStructTypeQuickly name fields checkKindNoValidate) r) (struct_body name gs) (yields w (TStruct name gs))). unfold struct_body.
  eapply dreads_bind; [apply (dreads_reader w1 readString (str_bytes name) name (fun a w' => a = name /\ w' = w1)); [exact (reads_String name)|exact (conj eq_refl eq_refl)]|].
  intros n' w' [-> ->]. apply dreads_count; [apply fields_count|]. unfold Zlength. rewrite Nat2Z.id, <- (app_nil_r (flat_map field_ser gs)).
  eapply dreads_bind; [by apply read_fields_ok|]. intros fs' w' (-> & Hk' & Hd'). assert (fs' = fs) as -> by (by apply (known_fields w1 fs' gs Hw1)).
  destruct (makeStructTypeQuickly_ok w1 name fs gs checkKindNoValidate Hw1 Hk Hd Hroom) as (p & w2 & He & Hw2 & Hg2 & Hk2 & Hd2 & Hn2 & _ & Hi2 & _).
  { left. constructor; [done|]. by apply (proj2 (Forall_fmap fst _ _)). }
  apply dreads_tc with p w2; [done|]. assert (ident_nextId w2 = ident_nextId w1) as Hi3.
  { apply Hi2. constructor; [done|]. by apply (proj2 (Forall_fmap fst _ _)). }
  split; [done|by eapply grows_trans|done|done|lia|lia|]. intros Hh. exfalso. apply (Hnew eq_refl). by rewrite (Hs1 Hh).
Qed.

Lemma readType_inner `{GoSort} fuel w l P : dreads w (readTypeInner (readType false fuel)) l P -> dreads w (readType false (S fuel)) l P.
Proof.
  intros Hi before after d Hlen. destruct (Hi before after (d + 1) Hlen) as (p & w' & He & HP). exists p, w'. split; [|done].
  cbn [readType]. unfold deeper at 1. cbn [nomsReader tc typeDepth]. rewrite He. cbn [obind]. unfold deeper. cbn [nomsReader tc typeDepth].
  rewrite andb_false_r. by replace (d + 1 + -1) with d by lia.
Qed.

(** [k] types in a row, as the cases of [readTypeInner] read them. *)
Lemma read_one rt k (r : valueDecoder) : (let! (t, r) := rt r in on_tc (getCompoundType k [t]) r) =
  (let! (ps, r) := repeat_w 1 rt r in on_tc (getCompoundType k ps) r).
Proof. cbn [repeat_w]. by destruct (rt r) as [[t r']|]. Qed.
Lemma read_two rt k (r : valueDecoder) : (let! (t, r) := rt r in let! (u, r) := rt r in on_tc (getCompoundType k [t; u]) r) =
  (let! (ps, r) := repeat_w 2 rt r in on_tc (getCompoundType k ps) r).
Proof. cbn [repeat_w]. destruct (rt r) as [[t r']|]; [|done]. cbn [obind]. by destruct (rt r') as [[u r'']|]. Qed.

Lemma readType_ok `{GoSort} t : forall fuel, ty_ok t -> (depth t <= fuel)%nat -> reads_type (readType false fuel) t.
Proof.
  induction t as [k|k ts IH|name gs IH] using ty_ind; intros fuel Hok%ty_ok_inv Hf w Hw Hb;
    (destruct fuel as [|fuel]; [cbn in Hf; lia|]); apply readType_inner; unfold readTypeInner; cbn [ser].
  - rewrite <- (app_nil_r (be_put 1 _)). apply dreads_kind. destruct (prim_exists k Hok) as [p Hp].
    destruct (wo_prims w Hw k p Hp) as (T & HT & HD & _). apply (dreads_ext _ _ (fun r => Ok (p, r))).
    { intros r _. destruct k; try discriminate Hok; cbn in Hp |- *; congruence. }
    apply dreads_ret. split; [done|apply grows_refl|left; eauto|by apply dn_prim with T|cbn; lia|cbn; lia|done].
  - destruct Hok as [Har Hoks]. apply dreads_kind. assert (Forall (reads_type (readType false fuel)) ts) as Hts.
    { apply Forall_forall. intros t Ht. rewrite Forall_forall in IH, Hoks. apply IH; [done|by apply Hoks|].
      cbn [depth] in Hf. pose proof (depth_in ts t Ht). lia. }
    pose proof (read_comp_ok (readType false fuel) k ts Har Hts w Hw Hb) as Hread.
    destruct k; try discriminate Har; cbn [app].
    1,3,4: apply Nat.eqb_eq in Har; rewrite Har in Hread; apply (dreads_ext _ _ _ _ _ (fun r _ => read_one (readType false fuel) _ r) Hread).
    + apply Nat.eqb_eq in Har. rewrite Har in Hread. apply (dreads_ext _ _ _ _ _ (fun r _ => read_two (readType false fuel) _ r) Hread).
    + unfold readUnionType. apply dreads_count; [split; [apply Zlength_nonneg|apply flat_map_length, ser_nonempty]|].
      unfold Zlength. by rewrite Nat2Z.id.
  - apply dreads_kind. apply read_struct_ok; [|done|done]. apply Forall_forall. intros g Hg. rewrite Forall_forall in IH, Hok.
    apply (IH g Hg); [by apply (Hok g)|]. assert (g.2 ∈ snd <$> gs) as Hin by (apply list_elem_of_fmap; by exists g).
    pose proof (depth_in _ _ Hin) as Hle. change (snd <$> gs) with (map snd gs) in Hle. rewrite map_map in Hle. cbn [depth] in Hf. lia.
Qed.

(** ** Serializations *)

Lemma set_ser_grows w p T s : heap w !! p = Some T -> let w' := set_type w p (set_serialization T s) in grows w w' /\ grows w' w.
Proof.
  intros HT w'. split; (split; [|done..]); intros q U HU; cbn in *.
  - destruct (decide (q = p)) as [->|Hne].
    + exists (set_serialization T s). rewrite list_lookup_insert_eq by (by eapply lookup_lt_Some). simplify_eq. done.
    + exists U. by rewrite list_lookup_insert_ne.
  - destruct (decide (q = p)) as [->|Hne].
    + rewrite list_lookup_insert_eq in HU by (by eapply lookup_lt_Some). injection HU as <-. by exists T.
    + rewrite list_lookup_insert_ne in HU by done. by exists U.
Qed.
(** A cache with the same types, up to what is remembered of them. *)
Record settled (w w' : world) : Prop := MkSettled {
  se_ok : world_ok w';
  se_grows : grows w w';
  se_back : grows w' w;
  se_next : nextId w' = nextId w /\ ident_nextId w' = ident_nextId w
}.
Lemma settled_refl w : world_ok w -> settled w w.
Proof. intros Hw. split; [done|apply grows_refl..|done]. Qed.
Lemma settled_trans w1 w2 w3 : settled w1 w2 -> settled w2 w3 -> settled w1 w3.
Proof. intros [_ G1 B1 N1] [O2 G2 B2 N2]. split; [done|by eapply grows_trans..|intuition congruence]. Qed.
Lemma settled_ok w w' : world_ok w -> grows w w' -> grows w' w -> nextId w' = nextId w /\ ident_nextId w' = ident_nextId w ->
  (forall p T s t, heap w' !! p = Some T -> serialization T = Some s -> denotes (heap w) p t -> s = ser t) -> settled w w'.
Proof.
  intros Hw Hg Hg' Hnx Hser. split; [|done..]. destruct Hnx as [Hn Hi].
  assert (tries w' = tries w) as Ht by (apply (anti_symm (⊆)); [apply Hg'|apply Hg]).
  assert (ident_entries w' = ident_entries w) as He by (apply (anti_symm (⊆)); [apply Hg'|apply Hg]). split.
  - intros k q Hk. destruct (wo_prims w Hw k q Hk) as (U & HU & HD & Hid). destruct (gr_heap _ _ Hg _ _ HU) as (U' & HU' & HD' & Hid').
    exists U'. split; [done|]. split; congruence.
  - intros key q Hk. rewrite Ht in Hk. apply grows_trie_ok with w; [done|lia|by apply (wo_tries w Hw)].
  - intros k1 k2 p1 p2 i H1 H2 I1 I2. rewrite Ht in H1, H2. apply (wo_ids w Hw k1 k2 p1 p2 i H1 H2); by apply (grows_has_id w' w).
  - rewrite He, Hi. apply Hw.
  - rewrite He. apply Hw.
  - rewrite Hn, Hi. apply Hw.
  - intros q U HU. destruct (gr_heap _ _ Hg' _ _ HU) as (U' & HU' & _). exact (grows_known _ _ _ Hg (wo_all w Hw q U' HU')).
  - intros q U s t HU Hs Hd. apply (Hser q U s t HU Hs). by apply (grows_denotes w' w).
Qed.
Lemma set_ser_ok w p T t : world_ok w -> heap w !! p = Some T -> denotes (heap w) p t -> world_ok (set_type w p (set_serialization T (ser t))).
Proof.
  intros Hw HT Hd. destruct (set_ser_grows w p T (ser t) HT) as [Hg Hg']. apply (settled_ok w); [done..|]. intros q U s t' HU Hs Hd'.
  cbn in HU. destruct (decide (q = p)) as [->|Hne].
  - rewrite list_lookup_insert_eq in HU by (by eapply lookup_lt_Some). injection HU as <-. cbn in Hs. injection Hs as <-.
    by rewrite (denotes_fun _ _ _ _ Hd Hd').
  - rewrite list_lookup_insert_ne in HU by done. by apply (wo_ser w Hw q U s t').
Qed.

Lemma type_fuel_ok w p t : world_ok w -> known w p -> denotes (heap w) p t -> (depth t <= type_fuel w)%nat.
Proof.
  intros Hw Hp Hd. destruct (known_tree w Hw p Hp) as (t' & Hd' & _ & Hdep). rewrite (denotes_fun _ _ _ _ Hd Hd').
  pose proof (known_lt w p Hw Hp). unfold type_fuel. lia.
Qed.
Lemma known_ty_ok w p t : world_ok w -> known w p -> denotes (heap w) p t -> ty_ok t.
Proof. intros Hw Hp Hd. destruct (known_tree w Hw p Hp) as (t' & Hd' & Hok & _). by rewrite (denotes_fun _ _ _ _ Hd Hd'). Qed.

Lemma ensureTypeSerialization_ok w p t : world_ok w -> known w p -> denotes (heap w) p t -> Zlength (ser t) + 20 <= 2 ^ 31 -> exists w' T',
  ensureTypeSerialization w p = Ok w' /\ world_ok w' /\ grows w w' /\ grows w' w /\ heap w' !! p = Some T' /\ serialization T' = Some (ser t) /\
  nextId w' = nextId w /\ ident_nextId w' = ident_nextId w.
Proof.
  intros Hw Hp Hd Hlen. destruct (known_lookup w p Hw Hp) as [T HT]. unfold ensureTypeSerialization, get_type. rewrite HT. cbn [obind].
  destruct (serialization T) as [s|] eqn:Es.
  - exists w, T. rewrite Es, (wo_ser w Hw p T s t HT Es Hd). split_and!; try done; apply grows_refl.
  - destruct (writeType_ok w t p [] (type_fuel w) Hd (known_ty_ok w p t Hw Hp Hd) (type_fuel_ok w p t Hw Hp Hd) (Forall_nil_2 _)
      (MkNomsWriter (make_bytes initialTypeBufferSize) 0)) as (b & -> & Hb & Hwr); [split; [done|exists 7; done]|cbn [w_offset]; lia|].
    cbn [obind]. rewrite data_ok by done. cbn [obind]. rewrite Hwr. cbn [written w_offset w_buff Z.to_nat take app].
    destruct (set_ser_grows w p T (ser t) HT) as [Hg Hg'].
    exists (set_type w p (set_serialization T (ser t))), (set_serialization T (ser t)).
    split_and!; [done|by apply set_ser_ok|done|done| |done|done|done]. cbn. apply list_lookup_insert_eq. by eapply lookup_lt_Some.
Qed.

(** ** Hashes, order ids and unions *)

Lemma same_oids_settled w w' : world_ok w -> same_but_oids w w' -> settled w w'.
Proof.
  intros Hw [Hh Hl Ht (He & Hi & Hn)].
  assert (forall p T', heap w' !! p = Some T' -> exists T, heap w !! p = Some T /\ Desc T' = Desc T /\ id T' = id T /\ serialization T' = serialization T) as Hback.
  { intros p T' HT'. destruct (heap w !! p) as [T|] eqn:HT; [|apply lookup_ge_None in HT; apply lookup_lt_Some in HT'; lia].
    destruct (Hh p T HT) as (T2 & HT2 & HD & _ & Hid & Hs & _). assert (T2 = T') as -> by congruence. by exists T. }
  apply settled_ok; [done| | |done|].
  - split; [|by rewrite He|by rewrite Ht]. intros p T HT. destruct (Hh p T HT) as (T' & HT' & HD & _ & Hid & _). by exists T'.
  - split; [|by rewrite He|by rewrite Ht]. intros p T' (T & HT & HD & Hid & _)%Hback. exists T. by split_and!.
  - intros p T' s t (T & HT & _ & _ & Hs')%Hback Hs Hd. apply (wo_ser w Hw p T s t HT); congruence.
Qed.

Lemma set_hash_settled w t T h : world_ok w -> heap w !! t = Some T -> settled w (set_type w t (set_hash T h)).
Proof.
  intros Hw HT. set (w' := set_type w t (set_hash T h)).
  assert (forall p U, heap w !! p = Some U -> exists U', heap w' !! p = Some U' /\ Desc U' = Desc U /\ id U' = id U /\ serialization U' = serialization U) as Hto.
  { intros p U HU. cbn. destruct (decide (p = t)) as [->|Hne]; [|exists U; by rewrite list_lookup_insert_ne by done].
    rewrite list_lookup_insert_eq by (by eapply lookup_lt_Some). simplify_eq. eexists. by split_and!. }
  assert (forall p U, heap w' !! p = Some U -> exists U', heap w !! p = Some U' /\ Desc U' = Desc U /\ id U' = id U /\ serialization U' = serialization U) as Hback.
  { intros p U HU. cbn in HU. destruct (decide (p = t)) as [->|Hne]; [|rewrite list_lookup_insert_ne in HU by done; by exists U].
    rewrite list_lookup_insert_eq in HU by (by eapply lookup_lt_Some). injection HU as <-. exists T. by split_and!. }
  apply settled_ok; [done| | |done|].
  - split; [|done..]. intros p U (U' & ? & ? & ? & _)%Hto. by exists U'.
  - split; [|done..]. intros p U (U' & ? & ? & ? & _)%Hback. by exists U'.
  - intros p U s u (U' & HU' & _ & _ & Hs')%Hback Hs Hd. apply (wo_ser w Hw p U' s u HU'); congruence.
Qed.

Lemma Type_Hash_settled t w h w' : world_ok w -> Type_Hash t w = Ok (h, w') -> settled w w'.
Proof.
  intros Hw. unfold Type_Hash. destruct (get_type w t) as [T|]; [|done]. cbn [obind]. destruct (IsEmpty (t_h T)); [|intros [= _ <-]; by apply settled_refl].
  unfold appendType. assert (known w TypeType) as Hk by (left; by exists TypeKind).
  destruct (wo_prims w Hw TypeKind TypeType eq_refl) as (U & HU & HD & _).
  destruct (ensureTypeSerialization_ok w TypeType (TPrim TypeKind) Hw Hk (dn_prim _ _ U _ HU HD)) as (w1 & U1 & He & Hw1 & Hg & Hg' & HU1 & Hs1 & Hn1 & Hi1); [by vm_compute|].
  rewrite He. cbn [obind]. unfold get_type at 1. rewrite HU1. cbn [obind]. destruct (append_data _ _) as [b|]; [|done]. cbn [obind].
  destruct (writeType _ w1 t [] b) as [b1|]; [|done]. cbn [obind]. destruct (data b1) as [d|]; [|done]. cbn [obind].
  destruct (get_type w1 t) as [T1|] eqn:HT1; [|done]. apply get_lookup in HT1. cbn [obind]. intros [= _ <-].
  eapply settled_trans; [|by apply set_hash_settled]. by split.
Qed.

Lemma fold_oids_settled allow ts : forall w w', world_ok w -> fold_w (fun t => generateOID t allow) ts w = Ok w' -> settled w w'.
Proof.
  intros w w' Hw Hf. apply same_oids_settled; [done|]. revert Hf.
  apply (fold_w_inv same_but_oids); [apply same_oids_refl|apply same_oids_trans|intros ? ? ?; apply generateOID_same].
Qed.

Lemma flatten_settled fuel : forall ts seen w r seen' w', world_ok w -> Forall (known w) ts ->
  flattenUnionTypes fuel ts seen w = Ok (r, (seen', w')) -> settled w w' /\ Forall (known w') r.
Proof.
  induction fuel as [|fuel IH]; intros ts seen w r seen' w' Hw Hk; cbn [flattenUnionTypes]; [done|].
  destruct (map_w _ ts (seen, w)) as [[tss [seen1 w1]]|] eqn:Hm; [|done]. cbn [obind]. intros [= <- <- <-].
  revert seen w tss Hw Hk Hm. induction ts as [|t ts IHts]; cbn [map_w]; intros seen w tss Hw Hk Hm.
  { injection Hm as <- <- <-. split; [by apply settled_refl|constructor]. }
  apply Forall_cons in Hk as [Ht Hk].
  match type of Hm with obind ?x _ = _ => destruct x as [[us [seen2 w2]]|] eqn:Hu; [|done] end. cbn [obind] in Hm.
  match type of Hm with obind ?x _ = _ => destruct x as [[uss [seen3 w3]]|] eqn:Huss; [|done] end. cbn [obind] in Hm. injection Hm as <- <- <-.
  assert (settled w w2 /\ Forall (known w2) us) as [Hs2 Hus].
  { destruct (get_type w t) as [T|] eqn:HT; [|done]. apply get_lookup in HT. cbn [obind] in Hu.
    assert (forall o, o = Ok (us, (seen2, w2)) -> (let! (h, w) := Type_Hash t w in
      if bool_decide (h ∈ seen) then Ok ([], (seen, w)) else Ok ([t], ({[h]} ∪ seen, w))) = o -> settled w w2 /\ Forall (known w2) us) as Hhash.
    { intros o ->. destruct (Type_Hash t w) as [[h w4]|] eqn:Hh; [|done]. cbn [obind]. pose proof (Type_Hash_settled t w h w4 Hw Hh) as Hs4.
      destruct (bool_decide _); intros [= <- <- <-]; (split; [done|]); [constructor|]. apply Forall_singleton. exact (grows_known _ _ _ (se_grows _ _ Hs4) Ht). }
    destruct (Desc T) as [k|k es|name fs|i] eqn:HD; try (by eapply Hhash; [exact Hu|]). destruct k; try (by eapply Hhash; [exact Hu|]).
    eapply IH; [done| |exact Hu]. destruct (known_comp w t T _ es Hw Ht HT HD) as (_ & _ & _ & Hes & _). eapply Forall_impl; [exact Hes|]. by intros e [? _]. }
  destruct (IHts seen2 w2 uss) as [Hs3 Hus3]; [apply Hs2| |done|].
  { eapply Forall_impl; [exact Hk|]. intros e. apply grows_known, (se_grows _ _ Hs2). }
  split; [by eapply settled_trans|]. cbn [concat]. apply Forall_app. split; [|done]. eapply Forall_impl; [exact Hus|]. intros e. apply grows_known, (se_grows _ _ Hs3).
Qed.

Lemma sort_types_known `{GoSort} w w0 ts ts' : Forall (known w0) ts -> sort_types w ts = Ok ts' -> Forall (known w0) ts'.
Proof.
  intros Hk. unfold sort_types. destruct (Nat.ltb _ _); [by intros [= <-]|]. destruct (map_w _ ts tt) as [[os u]|] eqn:Hm; [|done]. cbn [obind]. intros [= <-].
  assert (os.*2 = ts) as Hos.
  { clear Hk. revert os u Hm. induction ts as [|t ts IH]; intros os u; cbn [map_w]; [by intros [= <- _]|].
    destruct (oid_of w t); [|done]. cbn [obind]. destruct (map_w _ ts tt) as [[os1 u1]|] eqn:Hm; [|done]. cbn [obind]. intros [= <- _].
    cbn. f_equal. by eapply IH. }
  rewrite <- Hos in Hk. eapply Permutation_Forall; [|exact Hk]. symmetry. apply fmap_Permutation, go_sort_perm.
Qed.

Lemma known_trees w es : world_ok w -> Forall (known w) es -> exists ts, Forall2 (denotes (heap w)) es ts.
Proof.
  intros Hw. induction 1 as [|e es He _ [ts IH]]; [by exists []|]. destruct (known_tree w Hw e He) as (t & Hd & _). exists (t :: ts). by constructor.
Qed.
Lemma getCompoundType_step w k es p w' : world_ok w -> Forall (known w) es -> arity_ok k (length es) = true -> nextId w + 1 < 2 ^ 32 ->
  getCompoundType k es w = Ok (p, w') -> world_ok w' /\ grows w w' /\ known w' p.
Proof.
  intros Hw Hk Har Hb He. destruct (known_trees w es Hw Hk) as [ts Hts].
  destruct (getCompoundType_ok w k es ts Hw Hk Hts Har (or_intror Hb)) as (p' & w1 & He' & Hw1 & Hg1 & Hp1 & _). rewrite He in He'. by injection He' as <- <-.
Qed.
Lemma makeUnionType_step `{GoSort} w es p w' : world_ok w -> Forall (known w) es -> nextId w + 1 < 2 ^ 32 ->
  makeUnionType es w = Ok (p, w') -> world_ok w' /\ grows w w' /\ known w' p.
Proof.
  intros Hw Hk Hb. unfold makeUnionType. destruct (flattenUnionTypes _ es ∅ w) as [[ts [seen w1]]|] eqn:Hf; [|done]. cbn [obind].
  destruct (flatten_settled _ _ _ _ _ _ _ Hw Hk Hf) as [[Hw1 Hg1 _ [Hn1 _]] Hts]. intros Hm.
  assert (forall ts, Forall (known w1) ts -> (let! w := fold_w (fun t => generateOID t true) ts w1 in let! ts := sort_types w ts in getCompoundType UnionKind ts w) = Ok (p, w') ->
    world_ok w' /\ grows w w' /\ known w' p) as Hrest.
  { clear ts Hf Hts Hm. intros ts Hts. destruct (fold_w _ ts w1) as [w2|] eqn:Hg; [|done]. cbn [obind]. destruct (fold_oids_settled _ _ _ _ Hw1 Hg) as [Hw2 Hg2 _ [Hn2 _]].
    destruct (sort_types w2 ts) as [ts'|] eqn:Hs; [|done]. cbn [obind]. intros Hc.
    destruct (getCompoundType_step w2 UnionKind ts' p w' Hw2) as (Hw3 & Hg3 & Hp); [|done|lia|done|].
    - apply (sort_types_known w2 w2 ts); [|done]. eapply Forall_impl; [exact Hts|]. intros e. by apply grows_known.
    - split; [done|]. split; [|done]. eapply grows_trans; [exact Hg1|by eapply grows_trans]. }
  destruct ts as [|t [|t' ts]]; [by apply (Hrest [])| |by apply (Hrest (t :: t' :: ts))]. injection Hm as <- <-. apply Forall_cons in Hts as [Ht _]. done.
Qed.

End InternFacts.
Import InternFacts.

(** ** Runs of the cache

    A program holds types that it got from the cache.  A step is a call of one
    of the functions that make a type, of [Type.Hash], of the serialization that
    the encoder asks for, of the checks of a validating decoder, or of the decoder
    on the serialization of a type, while there is room for the ids of the new
    types and names.  No step makes a cycle type: the types are trees, the
    last section is about the others. *)

Inductive cache_step `{GoSort} : world -> world -> Prop :=
| step_list w e p w' : known w e -> nextId w + 1 < 2 ^ 32 -> MakeListType e w = Ok (p, w') -> cache_step w w'
| step_set w e p w' : known w e -> nextId w + 1 < 2 ^ 32 -> MakeSetType e w = Ok (p, w') -> cache_step w w'
| step_ref w e p w' : known w e -> nextId w + 1 < 2 ^ 32 -> MakeRefType e w = Ok (p, w') -> cache_step w w'
| step_map w k v p w' : known w k -> known w v -> nextId w + 1 < 2 ^ 32 -> MakeMapType k v w = Ok (p, w') -> cache_step w w'
| step_union w es p w' : Forall (known w) es -> nextId w + 1 < 2 ^ 32 -> MakeUnionType es w = Ok (p, w') -> cache_step w w'
| step_struct w name fieldNames fieldTypes p w' : Forall (known w) fieldTypes -> nextId w + 1 < 2 ^ 32 ->
    ident_nextId w + 1 + Zlength fieldTypes < 2 ^ 32 -> MakeStructType name fieldNames fieldTypes w = Ok (p, w') -> cache_step w w'
| step_hash w p h w' : known w p -> Type_Hash p w = Ok (h, w') -> cache_step w w'
| step_serialize w p t w' : known w p -> denotes (heap w) p t -> Zlength (ser t) + 20 <= 2 ^ 31 ->
    ensureTypeSerialization w p = Ok w' -> cache_step w w'
| step_validate w p w' : known w p -> checkStructType p checkKindValidate w = Ok w' -> cache_step w w'
| step_read w t fuel p r : ty_ok t -> (depth t <= fuel)%nat -> room w t -> Zlength (ser t) < 2 ^ 32 ->
    readType false fuel (MkDecoder (MkReader (ser t) 0) w 0) = Ok (p, r) -> cache_step w (tc r).

Lemma new_world_ok : world_ok NewTypeCache.
Proof.
  split; cbn [tries ident_entries nextId ident_nextId NewTypeCache].
  - intros k p Hk. destruct k; cbn in Hk; try discriminate Hk; injection Hk as <-; eexists; (split; [reflexivity|done]).
  - intros key p. by rewrite lookup_empty.
  - intros k1 k2 p1 p2 i. by rewrite lookup_empty.
  - intros n i. by rewrite lookup_empty.
  - intros n n' i. by rewrite lookup_empty.
  - done.
  - intros p T HT. left. do 6 (destruct p as [|p]; [first [by exists BoolKind|by exists NumberKind|by exists StringKind|by exists BlobKind|by exists TypeKind|by exists ValueKind]|]). done.
  - intros p T s t HT Hs. do 6 (destruct p as [|p]; [cbn in HT; injection HT as <-; done|]). done.
Qed.

Lemma zip_known w (fns : list (list byte)) fts : Forall (known w) fts -> Forall (fun f => known w f.2) (zip fns fts).
Proof. intros Hk. revert fns. induction Hk as [|e es He _ IH]; intros [|n fns]; constructor; [done|apply IH]. Qed.
Lemma zip_trees w (fns : list (list byte)) fts ts : Forall2 (denotes (heap w)) fts ts -> length fns = length fts ->
  Forall2 (fun f g => f.1 = g.1 /\ denotes (heap w) f.2 g.2) (zip fns fts) (zip fns ts).
Proof. intros H. revert fns. induction H as [|e t es ts He _ IH]; intros [|n fns] Hl; try discriminate Hl; constructor; [done|]. apply IH. by injection Hl. Qed.

Lemma makeStructType_step `{GoSort} w name fns fts p w' : world_ok w -> Forall (known w) fts -> nextId w + 1 < 2 ^ 32 ->
  ident_nextId w + 1 + Zlength fts < 2 ^ 32 -> makeStructType name fns fts w = Ok (p, w') -> world_ok w' /\ grows w w' /\ known w' p.
Proof.
  intros Hw Hk Hb Hbi He. unfold makeStructType in He. destruct (Nat.eqb (length fns) (length fts)) eqn:El; cbn [negb] in He; [|done]. apply Nat.eqb_eq in El.
  destruct (verifyStructName name) as [[]|]; cbn [obind] in He; [|done]. destruct (verifyFieldNames fns) as [[]|]; cbn [obind] in He; [|done].
  destruct (known_trees w fts Hw Hk) as [ts Hts].
  destruct (makeStructTypeQuickly_ok w name (zip fns fts) (zip fns ts) checkKindNormalize Hw (zip_known w fns fts Hk) (zip_trees w fns fts ts Hts El) Hb) as (p' & w1 & He' & Hw1 & Hg1 & Hp1 & _).
  { right. unfold Zlength in *. rewrite length_zip_with. lia. }
  rewrite He in He'. by injection He' as <- <-.
Qed.
Lemma cache_step_ok `{GoSort} w w' : world_ok w -> cache_step w w' -> world_ok w' /\ grows w w'.
Proof.
  intros Hw Hstep. destruct Hstep as [w e p w' Hk Hb He|w e p w' Hk Hb He|w e p w' Hk Hb He|w k v p w' Hk Hv Hb He|w es p w' Hk Hb He|w name fns fts p w' Hk Hb Hbi He
    |w p h w' Hk He|w p t w' Hp Hd Hl He|w p w' Hk He|w t fuel p r Hok Hf Hroom Hl He].
  1-3: pose proof (Forall_cons_2 _ _ _ Hk (Forall_nil_2 _)) as Hks.
  - by destruct (getCompoundType_step w ListKind [e] p w' Hw Hks eq_refl Hb He) as (? & ? & _).
  - by destruct (getCompoundType_step w SetKind [e] p w' Hw Hks eq_refl Hb He) as (? & ? & _).
  - by destruct (getCompoundType_step w RefKind [e] p w' Hw Hks eq_refl Hb He) as (? & ? & _).
  - by destruct (getCompoundType_step w MapKind [k; v] p w' Hw (Forall_cons_2 _ _ _ Hk (Forall_cons_2 _ _ _ Hv (Forall_nil_2 _))) eq_refl Hb He) as (? & ? & _).
  - by destruct (makeUnionType_step w es p w' Hw Hk Hb He) as (? & ? & _).
  - by destruct (makeStructType_step w name fns fts p w' Hw Hk Hb Hbi He) as (? & ? & _).
  - by destruct (Type_Hash_settled p w h w' Hw He).
  - destruct (ensureTypeSerialization_ok w p t Hw Hp Hd Hl) as (w1 & T & He' & Hw1 & Hg1 & _). assert (w1 = w') as -> by congruence. done.
  - by destruct (same_oids_settled w w' Hw (validate_same p w w' He)).
  - destruct (readType_ok t fuel Hok Hf w Hw Hroom [] [] 0) as (p' & w1 & He' & Hy); [by rewrite app_nil_r|].
    cbn [app] in He'. rewrite app_nil_r in He'. change (Zlength (@nil byte)) with 0 in He'. rewrite He in He'. injection He' as <- ->. cbn [tc]. split; apply Hy.
Qed.
Lemma cache_run_ok `{GoSort} w : rtc cache_step NewTypeCache w -> world_ok w.
Proof.
  intros Hrun. remember NewTypeCache as w0 eqn:E. assert (world_ok w0) as Hw0 by (subst; apply new_world_ok). clear E.
  induction Hrun as [|w w1 w2 Hs _ IH]; [done|]. apply IH. by apply (cache_step_ok w).
Qed.

(** C18: types without cycles are interned.  In every run of the cache that makes
    no cycle type, two of its types are the same object exactly when they are the
    same type, whether they were made from their parts, by [MakeUnionType] or read
    by the decoder. *)
Theorem types_interned `{GoSort} (w : world) (p q : ptr) : rtc cache_step NewTypeCache w -> known w p -> known w q ->
  p = q <-> exists t, denotes (heap w) p t /\ denotes (heap w) q t.
Proof.
  intros Hw%cache_run_ok Hp Hq. split.
  - intros <-. destruct (known_tree w Hw p Hp) as (t & Hd & _). by exists t.
  - intros (t & Hd1 & Hd2). by apply (intern w t).
Qed.

(** C29: types without cycles survive serialization.  In runs that make no cycle
    type, the serialization of a type of one cache, read by any other cache with
    room for it, gives an object of the same type there and is read to its end;
    read by the same cache, it gives the object itself and changes nothing. *)
Theorem type_roundtrip `{GoSort} (w w2 : world) (p : ptr) (t : ty) : rtc cache_step NewTypeCache w -> rtc cache_step NewTypeCache w2 ->
  known w p -> denotes (heap w) p t -> Zlength (ser t) + 20 <= 2 ^ 31 -> room w2 t ->
  exists w' T s, ensureTypeSerialization w p = Ok w' /\ heap w' !! p = Some T /\ serialization T = Some s /\
    (exists p2 w3, readType false (length s) (MkDecoder (MkReader s 0) w2 0) = Ok (p2, MkDecoder (MkReader s (Zlength s)) w3 0) /\
      known w3 p2 /\ denotes (heap w3) p2 t) /\
    readType false (length s) (MkDecoder (MkReader s 0) w' 0) = Ok (p, MkDecoder (MkReader s (Zlength s)) w' 0).
Proof.
  intros Hw%cache_run_ok Hw2%cache_run_ok Hp Hd Hl Hroom.
  destruct (ensureTypeSerialization_ok w p t Hw Hp Hd Hl) as (w' & T & He & Hw' & Hg & _ & HT & Hs & _). exists w', T, (ser t).
  split; [done|]. split; [done|]. split; [done|]. pose proof (known_ty_ok w p t Hw Hp Hd) as Hok.
  assert (depth t <= length (ser t))%nat as Hdep by (pose proof (depth_ser t); unfold Zlength in *; lia).
  assert (Zlength ([] ++ ser t ++ []) < 2 ^ 32) as Hlen by (rewrite app_nil_r; cbn [app]; assert (2 ^ 31 < 2 ^ 32) by done; lia). split.
  - destruct (readType_ok t _ Hok Hdep w2 Hw2 Hroom [] [] 0 Hlen) as (p2 & w3 & He3 & Hy). cbn [app] in He3. rewrite app_nil_r in He3.
    exists p2, w3. split; [exact He3|]. split; apply Hy.
  - assert (has_type w' t) as Hht by (exists p; split; [by apply (grows_known w)|by apply (grows_denotes w)]).
    destruct (readType_ok t _ Hok Hdep w' Hw' (or_introl Hht) [] [] 0 Hlen) as (p2 & w3 & He3 & Hy). cbn [app] in He3. rewrite app_nil_r in He3.
    pose proof (y_same _ _ _ _ Hy Hht) as ->. rewrite (intern w' t Hw' p p2); [exact He3|by apply (grows_known w)|apply Hy|by apply (grows_denotes w)|apply Hy].
Qed.

(** ** Recursive types *)




(** ** A list of numbers and a struct with it *)

Module InternSample.
#[local] Existing Instance go_insertion_sort.

Definition cached (o : outcome (ptr * world)) : world := match o with Ok (_, w) => w | Panic _ => NewTypeCache end.
Definition w_list : world := cached (getCompoundType ListKind [NumberType] NewTypeCache).
Definition w_struct : world := cached (makeStructType (bs "A") [bs "x"] [6%nat] w_list).
Definition t_list : ty := TComp ListKind [TPrim NumberKind].
Definition t_struct : ty := TStruct (bs "A") [(bs "x", t_list)].

Lemma run_list : rtc cache_step NewTypeCache w_list.
Proof.
  apply rtc_once, (step_list _ NumberType 6%nat); [|done|vm_compute; reflexivity]. left. by exists NumberKind.
Qed.
Lemma known_list : known w_list 6%nat.
Proof. right. exists (5, [1]). vm_compute. reflexivity. Qed.
Lemma run_struct : rtc cache_step NewTypeCache w_struct.
Proof.
  eapply rtc_r; [apply run_list|]. apply (step_struct _ (bs "A") [bs "x"] [6%nat] 7%nat); [|done|done|vm_compute; reflexivity].
  constructor; [apply known_list|constructor].
Qed.
Lemma known_struct_7 : known w_struct 7%nat.
Proof. right. exists (9, [0; 1; 256]). vm_compute. reflexivity. Qed.
Lemma known_list_6 : known w_struct 6%nat.
Proof. right. exists (5, [1]). vm_compute. reflexivity. Qed.
Lemma struct_denotes : denotes (heap w_struct) 7%nat t_struct.
Proof.
  eapply dn_struct; [vm_compute; reflexivity|reflexivity|]. constructor; [|constructor]. split; [done|].
  eapply dn_comp; [vm_compute; reflexivity|reflexivity|]. constructor; [|constructor]. eapply dn_prim; [vm_compute; reflexivity|reflexivity].
Qed.

End InternSample.
Import InternSample.
#[local] Existing Instance go_insertion_sort.

Lemma types_interned_witness : 6%nat = 7%nat <-> exists t, denotes (heap w_struct) 6%nat t /\ denotes (heap w_struct) 7%nat t.
Proof. apply (types_interned w_struct 6%nat 7%nat run_struct known_list_6 known_struct_7). Defined.
Lemma type_roundtrip_witness : exists w' T s, ensureTypeSerialization w_struct 7%nat = Ok w' /\ heap w' !! 7%nat = Some T /\ serialization T = Some s /\
  (exists p2 w3, readType false (length s) (MkDecoder (MkReader s 0) NewTypeCache 0) = Ok (p2, MkDecoder (MkReader s (Zlength s)) w3 0) /\
    known w3 p2 /\ denotes (heap w3) p2 t_struct) /\
  readType false (length s) (MkDecoder (MkReader s 0) w' 0) = Ok (7%nat, MkDecoder (MkReader s (Zlength s)) w' 0).
Proof.
  apply (type_roundtrip w_struct NewTypeCache 7%nat t_struct run_struct (rtc_refl _ _) known_struct_7 struct_denotes); [vm_compute; discriminate|right; vm_compute; split; reflexivity].
Defined.
