(* ===== verification/TypesRoundtrip.v ===== *)
(** * Package [types]: values survive encoding and decoding

    What a value is encoded to, and that decoding gives the value back: the same
    types and contents, with the children that are not written yet and the keys
    that are written as hashes left out.  The types are those without cycles. *)

From S2P Require Import Prelude GoLib HashPkg Chunks TypesCodec TypesType TypesValue TypesIntern.
Import Hash Chunks Float64 NumberUtil Codec NomsKinds TypeCache TypeDecoder Values.
Import FloatFacts CodecFacts InternFacts.

(** ** Well-formed values *)

Definition all {A} (P : A -> Prop) (l : list A) : Prop := foldr (fun a acc => P a /\ acc) True l.

Definition kind_is (w : world) (p : ptr) (k : NomsKind) : Prop := known w p /\ Kind w p = Ok k.
Definition ref_ok (w : world) (r : RefData) : Prop :=
  kind_is w (ref_t r) RefKind /\ 0 <= height r < 2 ^ 64 /\
  exists T e, heap w !! ref_t r = Some T /\ Desc T = CompoundDesc RefKind [e] /\ e <> ValueType.
(** The type of the references that stand for hashes. *)
Definition t_ref_bool : ty := TComp RefKind [TPrim BoolKind].
(** The values that are keys of their own order. *)
Definition by_value (v : Value) : bool := match v with Bool _ | Number _ | String _ => true | _ => false end.

(** The numbers that are stored as they are: zero without a sign, and finite
    numbers with at most 1023 fractional bits. *)
Definition exact (f : float64) : Prop :=
  match f with Finite neg m e => (neg = false /\ m = 0 /\ e = 0) \/ (normal m e /\ -1023 <= e) | _ => False end.

Fixpoint value_ok (w : world) (v : Value) : Prop :=
  match v with
  | Bool _ | String _ => True
  | Number f => exact f
  | Blob (blobLeafSequence _) => True
  | Blob (metaSequence t tuples) => kind_is w t BlobKind /\ all (tuple_ok w) tuples
  | List (listLeafSequence t values) => kind_is w t ListKind /\ all (value_ok w) values
  | List (metaSequence t tuples) => kind_is w t ListKind /\ all (tuple_ok w) tuples
  | Map (mapLeafSequence t data) => kind_is w t MapKind /\ all (fun e => value_ok w e.1 /\ value_ok w e.2) data
  | Map (metaSequence t tuples) => kind_is w t MapKind /\ all (tuple_ok w) tuples
  | Set_ (setLeafSequence t data) => kind_is w t SetKind /\ all (value_ok w) data
  | Set_ (metaSequence t tuples) => kind_is w t SetKind /\ all (tuple_ok w) tuples
  | Struct values t => known w t /\ (exists T name fs, heap w !! t = Some T /\ Desc T = StructDesc name fs /\ length values = length fs) /\ all (value_ok w) values
  | Ref r => ref_ok w r
  | TypeValue t => known w t
  | _ => False
  end
with tuple_ok (w : world) (mt : metaTuple) : Prop :=
  match mt with
  | MkMetaTuple ref (MkKey isOrderedByValue v h) numLeaves _ =>
      ref_ok w ref /\ 0 <= numLeaves < 2 ^ 64 /\
      if isOrderedByValue then match v with Some v => by_value v = true /\ value_ok w v | None => False end
      else IsEmpty h = false /\ has_type w t_ref_bool
  end.

(** ** What is stored

    The children of a sequence that are kept in memory are not, and of a key
    that is ordered by its hash only the hash is. *)

Fixpoint stored (v : Value) : Value :=
  match v with
  | Blob (metaSequence t tuples) => Blob (metaSequence t (map stored_tuple tuples))
  | List (listLeafSequence t values) => List (listLeafSequence t (map stored values))
  | List (metaSequence t tuples) => List (metaSequence t (map stored_tuple tuples))
  | Map (mapLeafSequence t data) => Map (mapLeafSequence t (map (fun e => (stored e.1, stored e.2)) data))
  | Map (metaSequence t tuples) => Map (metaSequence t (map stored_tuple tuples))
  | Set_ (setLeafSequence t data) => Set_ (setLeafSequence t (map stored data))
  | Set_ (metaSequence t tuples) => Set_ (metaSequence t (map stored_tuple tuples))
  | Struct values t => Struct (map stored values) t
  | _ => v
  end
with stored_tuple (mt : metaTuple) : metaTuple :=
  match mt with
  | MkMetaTuple ref (MkKey isOrderedByValue v h) numLeaves _ =>
      MkMetaTuple ref
        (if isOrderedByValue then MkKey true (match v with Some v => Some (stored v) | None => None end) emptyHash else MkKey false None h)
        numLeaves None
  end.

Definition ref_enc (t : ty) (r : RefData) : list byte := ser t ++ hash_bytes (target r) ++ be_put 8 (height r).
Definition counted {A} (f : A -> list byte) (l : list A) : list byte := be_put 4 (Zlength l) ++ flat_map f l.

Section bytes.
(** The tree of each type. *)
Context (ts : ptr -> ty).

Fixpoint vbytes (v : Value) : list byte :=
  match v with
  | Bool b => ser (ts BoolType) ++ be_put 1 (if b then 1 else 0)
  | Number f => ser (ts NumberType) ++ number_enc f
  | String s => ser (ts StringType) ++ str_bytes s
  | Blob (blobLeafSequence d) => ser (ts BlobType) ++ be_put 1 0 ++ str_bytes d
  | List (listLeafSequence t values) => ser (ts t) ++ be_put 1 0 ++ counted vbytes values
  | Map (mapLeafSequence t data) => ser (ts t) ++ be_put 1 0 ++ counted (fun e => vbytes e.1 ++ vbytes e.2) data
  | Set_ (setLeafSequence t data) => ser (ts t) ++ be_put 1 0 ++ counted vbytes data
  | Blob (metaSequence t tuples) | List (metaSequence t tuples) | Map (metaSequence t tuples) | Set_ (metaSequence t tuples) =>
      ser (ts t) ++ be_put 1 1 ++ counted tbytes tuples
  | Struct values t => ser (ts t) ++ flat_map vbytes values
  | Ref r => ref_enc (ts (ref_t r)) r
  | TypeValue t => ser (ts TypeType) ++ ser (ts t)
  | _ => []
  end
with tbytes (mt : metaTuple) : list byte :=
  match mt with
  | MkMetaTuple ref (MkKey isOrderedByValue v h) numLeaves _ =>
      ref_enc (ts (ref_t ref)) ref ++
      (if isOrderedByValue then match v with Some v => vbytes v | None => [] end
       else ref_enc t_ref_bool (MkRef h 0 0%nat)) ++ be_put 8 numLeaves
  end.

End bytes.

(** The tree of each type of a cache: a type is older than the types it is part
    of, so the number of types is enough fuel. *)
Fixpoint tree_of (n : nat) (h : list Typ) (p : ptr) : ty :=
  match n with
  | O => TPrim ValueKind
  | S n' =>
      match h !! p with
      | Some T =>
          match Desc T with
          | PrimitiveDesc k => TPrim k
          | CompoundDesc k es => TComp k (map (tree_of n' h) es)
          | StructDesc name fs => TStruct name (map (fun f => (f.1, tree_of n' h f.2)) fs)
          | CycleDesc _ => TPrim CycleKind
          end
      | None => TPrim ValueKind
      end
  end.
Definition trees (w : world) : ptr -> ty := tree_of (S (length (heap w))) (heap w).

(** The children that a [ValueWriter] is asked to write, in order. *)
Definition tuple_unwritten (mt : metaTuple) : list Value :=
  match mt with MkMetaTuple _ _ _ child => match child with Some c => [c] | None => [] end end.
Fixpoint unwritten (v : Value) : list Value :=
  match v with
  | Blob (metaSequence _ tuples) | List (metaSequence _ tuples) | Map (metaSequence _ tuples) | Set_ (metaSequence _ tuples) =>
      flat_map tuple_unwritten tuples
  | List (listLeafSequence _ values) => flat_map unwritten values
  | Set_ (setLeafSequence _ data) => flat_map unwritten data
  | Map (mapLeafSequence _ data) => flat_map (fun e => unwritten e.1 ++ unwritten e.2) data
  | Struct values _ => flat_map unwritten values
  | _ => []
  end.

Module RoundtripFacts.

Lemma exact_written f : exact f -> Zlength (number_enc f) <= 20 /\ appends (fun b => writeNumber b f) (number_enc f) /\
  reads readNumber (number_enc f) f.
Proof.
  intros Hf. assert (finite f /\ stored_number f = f) as [Hfin Hst].
  { destruct f as [neg m e|neg|]; [|done..]. destruct Hf as [(-> & -> & ->)|[Hn He]]; [split; [by left|done]|]. split; [by right|].
    cbn [stored_number]. pose proof Hn as (_ & Hm & _). by rewrite (proj2 (Z.eqb_neq m 0)), (proj2 (Z.leb_gt e _)) by lia. }
  pose proof (number_written f Hfin) as Hw. by rewrite Hst in Hw.
Qed.
#[local] Abbreviation valueEncoder := (Values.valueEncoder binaryNomsWriter).

(** ** Encoding *)

Lemma grows_has_type w w' t : grows w w' -> has_type w t -> has_type w' t.
Proof. intros Hg (q & Hq & Hd). exists q. split; [by eapply grows_known|by eapply grows_denotes]. Qed.
Lemma grows_Kind w w' p k : grows w w' -> Kind w p = Ok k -> Kind w' p = Ok k.
Proof.
  intros Hg. unfold Kind, get_type. destruct (heap w !! p) as [T|] eqn:HT; [|done]. cbn. intros Hk.
  destruct (gr_heap _ _ Hg _ _ HT) as (T' & -> & HD & _). cbn. by rewrite HD.
Qed.

(** [f] appends the bytes [l] and logs [ks], in any state that knows the types
    of [w0]. *)
Definition writes (w0 : world) (f : valueEncoder -> outcome valueEncoder) (l : list byte) (ks : list Value) : Prop :=
  forall e, writer_ok (enc_w e) -> world_ok (enc_tc e) -> grows w0 (enc_tc e) ->
  w_offset (enc_w e) + Zlength l + 20 <= 2 ^ 31 -> exists e', f e = Ok e' /\ writer_ok (enc_w e') /\ world_ok (enc_tc e') /\
  grows (enc_tc e) (enc_tc e') /\ grows (enc_tc e') (enc_tc e) /\ written (enc_w e') = written (enc_w e) ++ l /\ enc_log e' = enc_log e ++ ks.

Lemma writes_bind w0 f g l k ks ms : writes w0 f l ks -> writes w0 g k ms -> writes w0 (fun e => let! e := f e in g e) (l ++ k) (ks ++ ms).
Proof.
  intros Hf Hg e He Hw Hgr Hle. rewrite Zlength_app in Hle. pose proof (Zlength_nonneg k).
  destruct (Hf e) as (e1 & -> & He1 & Hw1 & Hgr1 & Hgb1 & Hb1 & Hl1); [done..|lia|]. cbn [obind].
  destruct (Hg e1) as (e2 & -> & He2 & Hw2 & Hgr2 & Hgb2 & Hb2 & Hl2); [done|done|by eapply grows_trans| |].
  - rewrite <- (Zlength_written (enc_w e1)), Hb1, Zlength_app, Zlength_written by done. lia.
  - exists e2. split_and!; try done; [by eapply grows_trans|by eapply grows_trans|by rewrite Hb2, Hb1, app_assoc|by rewrite Hl2, Hl1, app_assoc].
Qed.
Lemma writes_ret w0 : writes w0 Ok [] [].
Proof. intros e He Hw _ _. exists e. rewrite !app_nil_r. split_and!; try done; apply grows_refl. Qed.
Lemma writes_ext w0 f g l ks : (forall e, f e = g e) -> writes w0 g l ks -> writes w0 f l ks.
Proof. intros Hfg Hg e. rewrite Hfg. apply Hg. Qed.
Lemma writes_on_writer w0 f l : appends f l -> writes w0 (on_writer f) l [].
Proof.
  intros Hf e He Hw _ Hle. destruct (Hf (enc_w e) He Hle) as (b & Hb & Hok & Hwr). unfold on_writer. rewrite Hb. cbn [obind].
  eexists. split; [done|]. cbn [enc_w enc_tc enc_log]. rewrite app_nil_r. split_and!; try done; apply grows_refl.
Qed.
Lemma writes_fold {A} w0 (f : A -> valueEncoder -> outcome valueEncoder) (g : A -> list byte) (k : A -> list Value) l :
  Forall (fun a => writes w0 (f a) (g a) (k a)) l -> writes w0 (fold_w f l) (flat_map g l) (flat_map k l).
Proof. induction 1 as [|a l Ha _ IH]; cbn [fold_w flat_map]; [apply writes_ret|]. by apply (writes_bind w0 (f a) (fold_w f l)). Qed.
Lemma flat_map_Forall {A} (g : A -> list byte) l : Forall (fun a => 1 <= Zlength (g a)) l -> Zlength l <= Zlength (flat_map g l).
Proof. induction 1 as [|a l Ha _ IH]; cbn [flat_map]; [done|]. rewrite Zlength_cons, Zlength_app. lia. Qed.
Lemma writes_counted {A} w0 (f : A -> valueEncoder -> outcome valueEncoder) (g : A -> list byte) (k : A -> list Value) l :
  Forall (fun a => writes w0 (f a) (g a) (k a)) l -> Forall (fun a => 1 <= Zlength (g a)) l -> writes w0 (write_counted f l) (counted g l) (flat_map k l).
Proof.
  intros Hl Hg e He Hw Hgr Hle. unfold write_counted, counted in *. rewrite Zlength_app, Zlength_be_put in Hle.
  pose proof (flat_map_Forall g l Hg). pose proof (Zlength_nonneg l). pose proof He as [? _]. assert (2 ^ 31 < 2 ^ 32) by done. rewrite u32_small by lia.
  apply (writes_bind w0 (on_writer (fun b => writeUint32 b (Zlength l))) (fold_w f l) _ _ [] (flat_map k l)); try done.
  - apply writes_on_writer, appends_Uint32.
  - by apply writes_fold.
  - rewrite Zlength_app, Zlength_be_put. lia.
Qed.

Lemma writes_appendType w0 p t : known w0 p -> denotes (heap w0) p t -> writes w0 (enc_appendType p) (ser t) [].
Proof.
  intros Hp Hd e He Hw Hg Hle. pose proof He as [? _].
  destruct (ensureTypeSerialization_ok (enc_tc e) p t Hw) as (w1 & T & Hs & Hw1 & Hg1 & Hgb1 & HT & Hser & Hn & _); [by eapply grows_known|by eapply grows_denotes|lia|].
  destruct (appends_data (ser t) (enc_w e) He Hle) as (b & Hb & Hok & Hwr).
  unfold enc_appendType, nw_appendType, binary_typeWriter, appendType. rewrite Hs. cbn [obind]. unfold get_type. rewrite HT. cbn [obind]. rewrite Hser. change (default [] (Some (ser t))) with (ser t). rewrite Hb. cbn [obind].
  eexists. split; [done|]. cbn [enc_w enc_tc enc_log]. rewrite app_nil_r. by split_and!.
Qed.
(** The beginning of every value: its type, then by its kind. *)
Lemma writes_head w0 p k t (g : NomsKind -> valueEncoder -> outcome valueEncoder) l ks : kind_is w0 p k -> denotes (heap w0) p t -> writes w0 (g k) l ks ->
  writes w0 (fun e => let! e := enc_appendType p e in let! k := Kind (enc_tc e) p in g k e) (ser t ++ l) ks.
Proof.
  intros [Hp Hk] Hd Hg. apply (writes_bind w0 (enc_appendType p) (fun e => let! k := Kind (enc_tc e) p in g k e) _ _ [] ks); [by apply writes_appendType|].
  intros e He Hw Hgr Hle. rewrite (grows_Kind w0 (enc_tc e) p k) by done. cbn [obind]. by apply Hg.
Qed.

Lemma writes_Ref w0 r : writes w0 (writeRef r) (hash_bytes (target r) ++ be_put 8 (height r)) [].
Proof.
  apply (writes_bind w0 (on_writer (fun b => writeHash b (target r))) (on_writer (fun b => writeUint64 b (height r))) _ _ [] []);
    apply writes_on_writer; [apply appends_Hash|apply appends_Uint64].
Qed.
Lemma writes_RefValue w0 r t : kind_is w0 (ref_t r) RefKind -> denotes (heap w0) (ref_t r) t -> writes w0 (writeRefValue r) (ref_enc t r) [].
Proof.
  intros Hk Hd. apply (writes_head w0 (ref_t r) RefKind t (fun k w => match k with RefKind => writeRef r w | _ => Panic ExplicitPanic end)); [done|done|apply writes_Ref].
Qed.

Lemma prim_known w k p : world_ok w -> MakePrimitiveType k = Ok p -> kind_is w p k /\ denotes (heap w) p (TPrim k).
Proof.
  intros Hw Hp. destruct (wo_prims w Hw k p Hp) as (T & HT & HD & _). split; [|by apply dn_prim with T]. split; [left; by exists k|].
  unfold Kind, get_type. rewrite HT. cbn. by rewrite HD.
Qed.
(** The object of [Ref<Bool>]. *)
Lemma ref_bool_desc w q : world_ok w -> known w q -> denotes (heap w) q t_ref_bool ->
  exists T e, heap w !! q = Some T /\ Desc T = CompoundDesc RefKind [e] /\ e <> ValueType.
Proof.
  intros Hw Hq (T & HT & es & HD & Hes)%denotes_inv. inversion Hes as [|e ? ? ? He Hnil]; subst. inversion Hnil; subst. exists T, e. split_and!; try done.
  intros ->. destruct (wo_prims w Hw ValueKind ValueType eq_refl) as (T' & HT' & HD' & _). apply denotes_inv in He as (T'' & HT'' & HD''). congruence.
Qed.
Lemma writes_hash_key w0 h : IsEmpty h = false -> has_type w0 t_ref_bool ->
  writes w0 (fun w => let! (r, w) := hash_key h w in writeRefValue r w) (ref_enc t_ref_bool (MkRef h 0 0%nat)) [].
Proof.
  intros Hh Hrb e He Hw Hgr Hle. unfold hash_key, MakeRefType. rewrite Hh. cbn [negb check obind].
  destruct (prim_known (enc_tc e) BoolKind BoolType Hw eq_refl) as [[Hkb _] Hdb].
  destruct (getCompoundType_ok (enc_tc e) RefKind [BoolType] [TPrim BoolKind] Hw) as (q & w1 & -> & Hw1 & Hg1 & Hk1 & Hd1 & _ & _ & Hsame); [by constructor|by constructor|done|left; by eapply grows_has_type|].
  pose proof (Hsame (grows_has_type _ _ _ Hgr Hrb)) as ->. cbn [obind]. destruct (ref_bool_desc (enc_tc e) q Hw1 Hk1 Hd1) as (T & e' & HT & HD & Hne). unfold constructRef, get_type. rewrite HT. cbn [obind]. rewrite HD.
  cbn [index obind Z.leb Z.to_nat lookup list_lookup]. change (index [e'] 0) with (Ok e'). cbn [obind].
  rewrite (proj2 (Nat.eqb_neq ValueType e')) by done. cbn [negb check obind].
  assert (kind_is (enc_tc e) q RefKind) as Hkq. { split; [done|]. unfold Kind, get_type. rewrite HT. cbn. by rewrite HD. }
  apply (writes_RefValue (enc_tc e) (MkRef h 0 q) t_ref_bool Hkq Hd1 (MkEncoder (enc_w e) (enc_tc e) (enc_log e))); [done|done|apply grows_refl|done].
Qed.

Lemma all_Forall {A} (P : A -> Prop) l : all P l <-> Forall P l.
Proof. induction l as [|a l IH]; cbn; [split; [constructor|done]|]. unfold all in IH. by rewrite Forall_cons, IH. Qed.
Lemma flat_map_part {A} (g : A -> list byte) l a : a ∈ l -> Zlength (g a) <= Zlength (flat_map g l).
Proof.
  induction l as [|b l IH]; [by intros ?%elem_of_nil|]. cbn [flat_map]. rewrite Zlength_app. pose proof (Zlength_nonneg (g b)). pose proof (Zlength_nonneg (flat_map g l)).
  intros [->|Hin]%elem_of_cons; [lia|]. specialize (IH Hin). lia.
Qed.

Section encode.
Context (w0 : world) (Hw0 : world_ok w0) (ts : ptr -> ty) (Hts : forall p, known w0 p -> denotes (heap w0) p (ts p)).

Lemma ts_prim k p : MakePrimitiveType k = Ok p -> kind_is w0 p k /\ denotes (heap w0) p (ts p).
Proof. intros Hp. destruct (prim_known w0 k p Hw0 Hp) as [Hk _]. split; [done|]. apply Hts. by destruct Hk. Qed.

Lemma tbytes_nonempty mt : 1 <= Zlength (tbytes ts mt).
Proof.
  destruct mt as [ref [b v h] n c]. cbn [tbytes]. unfold ref_enc. rewrite !Zlength_app. pose proof (ser_nonempty (ts (ref_t ref))).
  pose proof (Zlength_nonneg (hash_bytes (target ref))). pose proof (Zlength_nonneg (be_put 8 (height ref))). pose proof (Zlength_nonneg (be_put 8 n)).
  pose proof (Zlength_nonneg (if b then match v with Some v => vbytes ts v | None => [] end else ser t_ref_bool ++ hash_bytes (target (MkRef h 0 0%nat)) ++ be_put 8 (height (MkRef h 0 0%nat)))). lia.
Qed.
Lemma vbytes_head v : value_ok w0 v -> exists l, vbytes ts v = ser (ts (Type_of v)) ++ l.
Proof. destruct v as [b|f|s|[]|[]|[]|[]|vs t|r|t]; cbn; try done; intros _; eexists; reflexivity. Qed.
Lemma vbytes_nonempty v : value_ok w0 v -> 1 <= Zlength (vbytes ts v).
Proof. intros Hv. destruct (vbytes_head v Hv) as [l ->]. rewrite Zlength_app. pose proof (ser_nonempty (ts (Type_of v))). pose proof (Zlength_nonneg l). lia. Qed.

Context (vw : bool).
Definition logged (ks : list Value) : list Value := if vw then ks else [].
Lemma logged_app a b : logged (a ++ b) = logged a ++ logged b.
Proof. unfold logged. by destruct vw. Qed.
Lemma logged_flat {A} (f : A -> list Value) l : logged (flat_map f l) = flat_map (fun a => logged (f a)) l.
Proof. unfold logged. destruct vw; [done|]. by induction l. Qed.
Lemma logged_nil : logged [] = [].
Proof. unfold logged. by destruct vw. Qed.

(** Values shorter than [n] bytes are written. *)
Definition writes_below (n : Z) : Prop := forall v, Zlength (vbytes ts v) < n -> value_ok w0 v ->
  writes w0 (writeValue vw v) (vbytes ts v) (logged (unwritten v)).

Lemma writes_log child f l ks : writes w0 f l ks ->
  writes w0 (fun w => f (log_child vw child w)) l (logged (match child with Some c => [c] | None => [] end) ++ ks).
Proof.
  intros Hf e He Hw Hg Hle. unfold log_child, logged. destruct child as [c|], vw; cbn [app]; try (by apply Hf).
  destruct (Hf (MkEncoder (enc_w e) (enc_tc e) (enc_log e ++ [c]))) as (e' & H1 & H2 & H3 & H4 & H5 & H6 & H7); [done..|].
  exists e'. split_and!; try done. rewrite H7. cbn [enc_log]. by rewrite <- app_assoc.
Qed.

Lemma writes_tuple n mt : writes_below n -> Zlength (tbytes ts mt) <= n -> tuple_ok w0 mt ->
  writes w0 (writeTuple vw mt) (tbytes ts mt) (logged (tuple_unwritten mt)).
Proof.
  intros Hn Hlen. destruct mt as [ref [b v h] nl child]. cbn [tuple_ok tbytes writeTuple tuple_unwritten] in *. intros (Href & Hnl & Hkey).
  pose proof Href as (Hk & _). rewrite <- (app_nil_r (logged _)).
  apply (writes_log child (fun w => let! w := writeRefValue ref w in let! w := (if b then match v with Some v => writeValue vw v w | None => Panic NilDereference end
    else let! (r, w) := hash_key h w in writeRefValue r w) in on_writer (fun b => writeUint64 b nl) w)).
  apply (writes_bind w0 (writeRefValue ref) _ _ _ [] []); [apply writes_RefValue; [done|by apply Hts; destruct Hk]|].
  apply (writes_bind w0 (fun w => if b then match v with Some v => writeValue vw v w | None => Panic NilDereference end
    else let! (r, w) := hash_key h w in writeRefValue r w) _ _ _ [] []); [|apply writes_on_writer, appends_Uint64].
  destruct b; [|destruct Hkey; by apply writes_hash_key]. destruct v as [v|]; [|done]. destruct Hkey as [Hby Hv].
  assert (logged (unwritten v) = []) as <- by (destruct v; try discriminate Hby; apply logged_nil). apply Hn; [|done].
  unfold ref_enc in Hlen. rewrite !Zlength_app, !Zlength_be_put in Hlen. pose proof (ser_nonempty (ts (ref_t ref))).
  pose proof (Zlength_nonneg (hash_bytes (target ref))). pose proof (Zlength_nonneg (be_put 8 (height ref))). lia.
Qed.

(** A sequence: the marker, the count and the items. *)
Lemma writes_sequence {A} m (f : A -> valueEncoder -> outcome valueEncoder) (g : A -> list byte) (k : A -> list Value) l :
  Forall (fun a => writes w0 (f a) (g a) (logged (k a)) /\ 1 <= Zlength (g a)) l ->
  writes w0 (fun w => let! w := write_meta m w in write_counted f l w) (be_put 1 (if m then 1 else 0) ++ counted g l) (logged (flat_map k l)).
Proof.
  intros Hl. rewrite logged_flat. apply (writes_bind w0 (write_meta m) (write_counted f l) _ _ [] _).
  - apply writes_on_writer, appends_Bool.
  - apply writes_counted; (eapply Forall_impl; [exact Hl|]); by intros a [? ?].
Qed.
Lemma counted_part {A} (g : A -> list byte) l a : a ∈ l -> Zlength (g a) < Zlength (counted g l).
Proof. intros Hin. unfold counted. rewrite Zlength_app, Zlength_be_put. pose proof (flat_map_part g l a Hin). lia. Qed.

Lemma writes_tuples n tuples : writes_below n -> Zlength (counted (tbytes ts) tuples) <= n -> all (tuple_ok w0) tuples ->
  writes w0 (fun w => let! w := write_meta true w in write_counted (writeTuple vw) tuples w)
    (be_put 1 1 ++ counted (tbytes ts) tuples) (logged (flat_map tuple_unwritten tuples)).
Proof.
  intros Hn Hlen Hok%all_Forall. apply (writes_sequence true). apply Forall_forall. intros mt Hin. rewrite Forall_forall in Hok.
  pose proof (counted_part (tbytes ts) tuples mt Hin). split; [|apply tbytes_nonempty]. apply (writes_tuple n); [done|lia|by apply Hok].
Qed.
Lemma writes_values n values : writes_below n -> Zlength (counted (vbytes ts) values) <= n -> all (value_ok w0) values ->
  writes w0 (fun w => let! w := write_meta false w in write_counted (writeValue vw) values w)
    (be_put 1 0 ++ counted (vbytes ts) values) (logged (flat_map unwritten values)).
Proof.
  intros Hn Hlen Hok%all_Forall. apply (writes_sequence false). apply Forall_forall. intros v Hin. rewrite Forall_forall in Hok.
  pose proof (counted_part (vbytes ts) values v Hin). split; [|by apply vbytes_nonempty, Hok]. apply Hn; [lia|by apply Hok].
Qed.
Lemma writes_entries n data : writes_below n -> Zlength (counted (fun e => vbytes ts e.1 ++ vbytes ts e.2) data) <= n ->
  all (fun e => value_ok w0 e.1 /\ value_ok w0 e.2) data ->
  writes w0 (fun w => let! w := write_meta false w in write_counted (fun '(key, value) w => let! w := writeValue vw key w in writeValue vw value w) data w)
    (be_put 1 0 ++ counted (fun e => vbytes ts e.1 ++ vbytes ts e.2) data) (logged (flat_map (fun e => unwritten e.1 ++ unwritten e.2) data)).
Proof.
  intros Hn Hlen Hok%all_Forall. apply (writes_sequence false). apply Forall_forall. intros [k v] Hin. rewrite Forall_forall in Hok.
  pose proof (counted_part (fun e => vbytes ts e.1 ++ vbytes ts e.2) data (k, v) Hin) as Hlt. cbn [fst snd] in *. rewrite Zlength_app in Hlt.
  destruct (Hok (k, v) Hin) as [Hk Hv]. cbn [fst snd] in *. pose proof (vbytes_nonempty k Hk). pose proof (vbytes_nonempty v Hv). rewrite Zlength_app, logged_app.
  split; [|lia]. apply (writes_bind w0 (writeValue vw k) (writeValue vw v)); apply Hn; try done; lia.
Qed.

Ltac head k :=
  eapply writes_ext; [intros ?; cbn [writeValue]; reflexivity|];
  match goal with Hhead : forall k, kind_is _ _ k -> _ |- _ => eapply (Hhead k); [|cbn beta iota; cbn [unwritten]; rewrite ?logged_nil] end.

Lemma writeValue_ok n : writes_below (Z.of_nat n).
Proof.
  induction n as [|n IH]; intros v Hlen Hok; [pose proof (Zlength_nonneg (vbytes ts v)); lia|].
  destruct (vbytes_head v Hok) as [body Hbody]. pose proof (ser_nonempty (ts (Type_of v))) as Hser. rewrite Hbody, Zlength_app in Hlen.
  assert (forall k, kind_is w0 (Type_of v) k -> forall g, writes w0 (g k) body (logged (unwritten v)) ->
    writes w0 (fun e => let! e := enc_appendType (Type_of v) e in let! k := Kind (enc_tc e) (Type_of v) in g k e) (vbytes ts v) (logged (unwritten v))) as Hhead.
  { intros k Hk g Hg. rewrite Hbody. apply (writes_head w0 _ k); [done|apply Hts, Hk|done]. }
  assert (forall a b, ser (ts (Type_of v)) ++ a = ser (ts (Type_of v)) ++ b -> a = b) as Hinv by (intros a b Hab; by apply app_inv_head in Hab).
  destruct v as [b|f|s|[d| | | |t tuples]|[|t vs| | |t tuples]|[| | |t data|t tuples]|[| |t vs| |t tuples]|vs t|r|t]; cbn in Hok; try done;
    cbn [vbytes Type_of seq_Type] in *; apply Hinv in Hbody; subst body.
  - head BoolKind; [by apply ts_prim|]. apply writes_on_writer, appends_Bool.
  - head NumberKind; [by apply ts_prim|]. destruct f as [neg m e|neg|]; [|done..]. cbn [IsNaN IsInf orb]. apply writes_on_writer. by apply exact_written.
  - head StringKind; [by apply ts_prim|]. apply writes_on_writer, appends_String.
  - head BlobKind; [by apply ts_prim|].
    apply (writes_bind w0 (write_meta false) (on_writer (fun b => writeBytes b d)) _ _ [] []); apply writes_on_writer; [apply (appends_Bool false)|apply appends_Bytes].
  - destruct Hok as [Hk Hok]. head BlobKind; [done|]. apply (writes_tuples (Z.of_nat n)); [done|rewrite Zlength_app in Hlen; pose proof (Zlength_nonneg (be_put 1 1)); lia|done].
  - destruct Hok as [Hk Hok]. head ListKind; [done|]. apply (writes_values (Z.of_nat n)); [done|rewrite Zlength_app in Hlen; pose proof (Zlength_nonneg (be_put 1 0)); lia|done].
  - destruct Hok as [Hk Hok]. head ListKind; [done|]. apply (writes_tuples (Z.of_nat n)); [done|rewrite Zlength_app in Hlen; pose proof (Zlength_nonneg (be_put 1 1)); lia|done].
  - destruct Hok as [Hk Hok]. head MapKind; [done|]. apply (writes_entries (Z.of_nat n)); [done|rewrite Zlength_app in Hlen; pose proof (Zlength_nonneg (be_put 1 0)); lia|done].
  - destruct Hok as [Hk Hok]. head MapKind; [done|]. apply (writes_tuples (Z.of_nat n)); [done|rewrite Zlength_app in Hlen; pose proof (Zlength_nonneg (be_put 1 1)); lia|done].
  - destruct Hok as [Hk Hok]. head SetKind; [done|]. apply (writes_values (Z.of_nat n)); [done|rewrite Zlength_app in Hlen; pose proof (Zlength_nonneg (be_put 1 0)); lia|done].
  - destruct Hok as [Hk Hok]. head SetKind; [done|]. apply (writes_tuples (Z.of_nat n)); [done|rewrite Zlength_app in Hlen; pose proof (Zlength_nonneg (be_put 1 1)); lia|done].
  - destruct Hok as (Hk & (T & name & fs & HT & HD & _) & Hok). head StructKind; [split; [done|]; unfold Kind, get_type; rewrite HT; cbn; by rewrite HD|].
    rewrite logged_flat. apply writes_fold. apply all_Forall in Hok. rewrite Forall_forall in Hok. apply Forall_forall. intros v Hin.
    pose proof (flat_map_part (vbytes ts) vs v Hin). apply IH; [lia|by apply Hok].
  - destruct Hok as (Hk & _). head RefKind; [done|]. apply writes_Ref.
  - head TypeKind; [by apply ts_prim|]. intros e He Hw Hg Hle. pose proof (Hts t Hok) as Hd.
    assert (known (enc_tc e) t) as Hkt by (by eapply grows_known). assert (denotes (heap (enc_tc e)) t (ts t)) as Hdt by (by eapply grows_denotes).
    apply (writes_on_writer w0 (writeType (type_fuel (enc_tc e)) (enc_tc e) t [])); try done.
    apply writeType_ok; [done|by apply (known_ty_ok (enc_tc e) t)|by apply (type_fuel_ok (enc_tc e) t)|constructor].
Qed.

End encode.

(** ** Decoding *)

Section decode.
Context `{GoSort} (w : world) (Hw : world_ok w) (ts : ptr -> ty) (Hts : forall p, known w p -> denotes (heap w) p (ts p)).

(** [f] reads [l] as [a] and leaves the cache as it is. *)
Definition vreads {A} (f : valueDecoder -> outcome (A * valueDecoder)) (l : list byte) (a : A) : Prop :=
  dreads w f l (fun x w' => x = a /\ w' = w).

Lemma vreads_bind {A B} f (g : A -> valueDecoder -> outcome (B * valueDecoder)) l k a b : vreads f l a -> vreads (g a) k b ->
  vreads (fun r => let! (x, r) := f r in g x r) (l ++ k) b.
Proof. intros Hf Hg. eapply dreads_bind; [exact Hf|]. intros x w' [-> ->]. exact Hg. Qed.
Lemma vreads_ret {A} (a : A) : vreads (fun r => Ok (a, r)) [] a.
Proof. by apply dreads_ret. Qed.
Lemma vreads_map {A B} f (g : A -> B) l a : vreads f l a -> vreads (fun r => let! (x, r) := f r in Ok (g x, r)) l (g a).
Proof. intros Hf. apply dreads_map. eapply dreads_weaken; [exact Hf|]. by intros x w' [-> ->]. Qed.
Lemma vreads_reader {A} f l (a : A) : reads f l a -> vreads (on_reader f) l a.
Proof. intros Hf. by apply (dreads_reader w f l a). Qed.
Lemma vreads_ext {A} f g l (a : A) : (forall r, tc r = w -> f r = g r) -> vreads g l a -> vreads f l a.
Proof. apply dreads_ext. Qed.
Lemma vreads_repeat {A B} f (g : A -> list byte) (h : A -> B) l : Forall (fun a => vreads f (g a) (h a)) l ->
  vreads (repeat_w (length l) f) (flat_map g l) (map h l).
Proof.
  induction 1 as [|a l Ha _ IH]; cbn [length repeat_w flat_map map]; [apply vreads_ret|].
  apply (vreads_bind f _ _ _ (h a)); [done|]. rewrite <- (app_nil_r (flat_map g l)).
  apply (vreads_bind (repeat_w (length l) f) _ _ _ (map h l)); [done|apply vreads_ret].
Qed.
Lemma vreads_counted {A B} f (g : A -> list byte) (h : A -> B) l : Forall (fun a => vreads f (g a) (h a) /\ 1 <= Zlength (g a)) l ->
  vreads (fun r => let! (count, r) := on_reader readUint32 r in repeat_w (Z.to_nat count) f r) (counted g l) (map h l).
Proof.
  intros Hl. apply (dreads_count w (Zlength l) (fun count r => repeat_w (Z.to_nat count) f r)).
  - split; [apply Zlength_nonneg|]. apply flat_map_Forall. eapply Forall_impl; [exact Hl|]. by intros a [_ ?].
  - unfold Zlength. rewrite Nat2Z.id. apply vreads_repeat. eapply Forall_impl; [exact Hl|]. by intros a [? _].
Qed.

Lemma read_known p fuel : known w p -> (depth (ts p) <= fuel)%nat -> vreads (readType false fuel) (ser (ts p)) p.
Proof.
  intros Hp Hf. pose proof (Hts p Hp) as Hd. assert (has_type w (ts p)) as Hht by (by exists p).
  eapply dreads_weaken; [apply (readType_ok (ts p) fuel); [by apply (known_ty_ok w p)|done|done|by left]|].
  intros q w' Hy. pose proof (y_same _ _ _ _ Hy Hht) as ->. split; [|done]. apply (intern w (ts p) Hw); [apply Hy|done|apply Hy|done].
Qed.

(** The values of at most [n] bytes are read back with fuel [n] and more. *)
Definition reads_below (n : nat) : Prop := forall v fuel, Zlength (vbytes ts v) <= Z.of_nat n -> (n < fuel)%nat -> value_ok w v ->
  vreads (readValue false fuel) (vbytes ts v) (stored v).

Lemma vreads_Ref r : ref_ok w r -> vreads (readRef (ref_t r)) (hash_bytes (target r) ++ be_put 8 (height r)) r.
Proof.
  intros (Hk & Hh & T & e & HT & HD & Hne). unfold readRef. apply (vreads_bind (on_reader readHash) _ _ _ (target r)); [apply vreads_reader, reads_Hash|].
  rewrite <- (app_nil_r (be_put 8 _)). apply (vreads_bind (on_reader readUint64) _ _ _ (height r)); [by apply vreads_reader, reads_Uint64|].
  apply (vreads_ext _ (fun d => Ok (r, d))); [|apply vreads_ret]. intros d Hd. unfold constructRef, get_type. rewrite Hd, HT. cbn [obind]. rewrite HD.
  change (index [e] 0) with (Ok e). cbn [obind]. rewrite (proj2 (Nat.eqb_neq ValueType e)) by done. cbn. by destruct r.
Qed.

Lemma by_value_key v : by_value v = true -> newOrderedKey (stored v) w = Ok (MkKey true (Some (stored v)) emptyHash, w).
Proof.
  intros Hv. unfold newOrderedKey.
  assert (exists k p, MakePrimitiveType k = Ok p /\ Type_of (stored v) = p /\ isKindOrderedByValue k = true) as (k & p & Hk & -> & Hord).
  { destruct v; try discriminate Hv; cbn; [exists BoolKind|exists NumberKind|exists StringKind]; eexists; done. }
  destruct (prim_known w k p Hw Hk) as [[_ ->] _]. cbn [obind]. by rewrite Hord.
Qed.

Lemma vreads_tuple n mt fuel : reads_below n -> (n < fuel)%nat -> Zlength (tbytes ts mt) <= Z.of_nat n -> tuple_ok w mt ->
  vreads (readMetaTuple (readValue false fuel)) (tbytes ts mt) (stored_tuple mt).
Proof.
  intros Hn Hf Hlen Hok. destruct mt as [ref [b v h] nl child]. cbn [tuple_ok tbytes stored_tuple] in *. destruct Hok as (Href & Hnl & Hkey).
  unfold readMetaTuple. rewrite !Zlength_app in Hlen. pose proof (Zlength_nonneg (ref_enc (ts (ref_t ref)) ref)). pose proof (Zlength_nonneg (be_put 8 nl)).
  apply (vreads_bind (readValue false fuel) _ _ _ (Ref ref)). { apply (Hn (Ref ref) fuel); [cbn [vbytes]|done|done]. 
    pose proof (Zlength_nonneg (if b then match v with Some v => vbytes ts v | None => [] end else ref_enc t_ref_bool (MkRef h 0 0%nat))). lia. }
  assert (forall x key l, vreads (readValue false fuel) l x ->
    (forall r : valueDecoder, tc r = w -> match x with Ref k => Ok (orderedKeyFromHash (target k), r) | _ => on_tc (newOrderedKey x) r end = Ok (key, r)) ->
    vreads (fun r => let! (v, r) := readValue false fuel r in
      let! (key, r) := match v with Ref k => Ok (orderedKeyFromHash (target k), r) | _ => on_tc (newOrderedKey v) r end in
      let! (numLeaves, r) := on_reader readUint64 r in Ok (MkMetaTuple ref key numLeaves None, r)) (l ++ be_put 8 nl) (MkMetaTuple ref key nl None)) as Hgo.
  { intros x key l Hx Hm. eapply vreads_bind; [exact Hx|]. eapply vreads_ext; [intros r Hr; rewrite (Hm r Hr); cbn [obind]; reflexivity|].
    apply (vreads_map (on_reader readUint64) (fun n => MkMetaTuple ref key n None)). by apply vreads_reader, reads_Uint64. }
  destruct b.
  - destruct v as [v|]; [|done]. destruct Hkey as [Hby Hv]. apply (Hgo (stored v)).
    + apply Hn; [lia|done|done].
    + intros r Hr. assert (forall k, stored v <> Ref k) as Hne by (intros k; destruct v; done).
      assert (on_tc (newOrderedKey (stored v)) r = Ok (MkKey true (Some (stored v)) emptyHash, r)) as Hk.
      { unfold on_tc. rewrite Hr, by_value_key by done. cbn. destruct r. cbn in Hr. by subst. }
      destruct (stored v); try exact Hk. by destruct (Hne r0).
  - destruct Hkey as [_ (q & Hq & Hdq)]. assert (ts q = t_ref_bool) as Hq' by (apply (denotes_fun (heap w) _ q); [by apply Hts|done]).
    apply (Hgo (Ref (MkRef h 0 q))); [|done]. destruct (ref_bool_desc w q Hw Hq Hdq) as (T & e & HT & HD & Hne).
    assert (ref_enc t_ref_bool (MkRef h 0 0%nat) = vbytes ts (Ref (MkRef h 0 q))) as -> by (cbn [vbytes ref_t]; by rewrite Hq').
    apply (Hn (Ref (MkRef h 0 q)) fuel); [cbn [vbytes ref_t]; rewrite Hq'; unfold ref_enc in *; cbn [target height] in *; lia|done|].
    split; [split; [done|]; unfold Kind, get_type; cbn [ref_t]; rewrite HT; cbn; by rewrite HD|]. split; [done|]. by exists T, e.
Qed.

Lemma vreads_tuples n tuples fuel t : reads_below n -> (n < fuel)%nat -> Zlength (counted (tbytes ts) tuples) <= Z.of_nat n -> all (tuple_ok w) tuples ->
  vreads (readMetaSequence (readValue false fuel) t) (counted (tbytes ts) tuples) (metaSequence t (map stored_tuple tuples)).
Proof.
  intros Hn Hf Hlen Hok%all_Forall. unfold readMetaSequence.
  apply (vreads_ext _ (fun r => let! (l, r) := (let! (count, r) := on_reader readUint32 r in repeat_w (Z.to_nat count) (readMetaTuple (readValue false fuel)) r) in Ok (metaSequence t l, r))).
  { intros r _. by destruct (on_reader readUint32 r) as [[c r']|]. }
  apply (vreads_map _ (metaSequence t)), vreads_counted. apply Forall_forall. intros mt Hin. rewrite Forall_forall in Hok.
  pose proof (counted_part (tbytes ts) tuples mt Hin). split; [|apply tbytes_nonempty]. apply (vreads_tuple n); [done|done|lia|by apply Hok].
Qed.
Lemma vreads_values n values fuel : reads_below n -> (n < fuel)%nat -> Zlength (counted (vbytes ts) values) <= Z.of_nat n -> all (value_ok w) values ->
  vreads (readValueSequence (readValue false fuel)) (counted (vbytes ts) values) (map stored values).
Proof.
  intros Hn Hf Hlen Hok%all_Forall. apply vreads_counted. apply Forall_forall. intros v Hin. rewrite Forall_forall in Hok.
  pose proof (counted_part (vbytes ts) values v Hin). split; [|by apply (vbytes_nonempty w), Hok]. apply Hn; [lia|done|by apply Hok].
Qed.
Lemma vreads_entries n data fuel t : reads_below n -> (n < fuel)%nat -> Zlength (counted (fun e => vbytes ts e.1 ++ vbytes ts e.2) data) <= Z.of_nat n ->
  all (fun e => value_ok w e.1 /\ value_ok w e.2) data ->
  vreads (readMapLeafSequence (readValue false fuel) t) (counted (fun e => vbytes ts e.1 ++ vbytes ts e.2) data)
    (mapLeafSequence t (map (fun e => (stored e.1, stored e.2)) data)).
Proof.
  intros Hn Hf Hlen Hok%all_Forall. unfold readMapLeafSequence.
  apply (vreads_ext _ (fun r => let! (l, r) := (let! (count, r) := on_reader readUint32 r in repeat_w (Z.to_nat count)
    (fun r => let! (k, r) := readValue false fuel r in let! (v, r) := readValue false fuel r in Ok ((k, v), r)) r) in Ok (mapLeafSequence t l, r))).
  { intros r _. by destruct (on_reader readUint32 r) as [[c r']|]. }
  apply (vreads_map _ (mapLeafSequence t)), (vreads_counted _ (fun e => vbytes ts e.1 ++ vbytes ts e.2) (fun e => (stored e.1, stored e.2))).
  apply Forall_forall. intros [k v] Hin. rewrite Forall_forall in Hok.
  pose proof (counted_part (fun e => vbytes ts e.1 ++ vbytes ts e.2) data (k, v) Hin) as Hlt. cbn [fst snd] in *. rewrite Zlength_app in Hlt.
  destruct (Hok (k, v) Hin) as [Hk Hv]. cbn [fst snd] in *. pose proof (vbytes_nonempty w ts k Hk). pose proof (vbytes_nonempty w ts v Hv).
  rewrite Zlength_app. split; [|lia]. apply (vreads_bind (readValue false fuel) _ _ _ (stored k)); [apply Hn; [lia|done|done]|].
  apply (vreads_map (readValue false fuel) (fun v => (stored k, v))). apply Hn; [lia|done|done].
Qed.

(** The marker, then a meta sequence or the leaf. *)
Lemma vreads_leaf t rv leaf l seq : vreads leaf l seq -> vreads (readSequence rv t leaf) (be_put 1 0 ++ l) seq.
Proof. intros Hl. unfold readSequence. apply (vreads_bind (on_reader readBool) _ _ _ false); [apply vreads_reader, (reads_Bool false)|done]. Qed.
Lemma vreads_meta t rv leaf l seq : vreads (readMetaSequence rv t) l seq -> vreads (readSequence rv t leaf) (be_put 1 1 ++ l) seq.
Proof. intros Hl. unfold readSequence. apply (vreads_bind (on_reader readBool) _ _ _ true); [apply vreads_reader, (reads_Bool true)|done]. Qed.

Lemma readValue_ok n : reads_below n.
Proof.
  induction n as [|n IH]; intros v fuel Hlen Hf Hok; pose proof (vbytes_nonempty w ts v Hok) as Hne; [lia|].
  destruct fuel as [|fuel]; [lia|]. cbn [readValue]. unfold readValueInner. destruct (vbytes_head w ts v Hok) as [body Hbody].
  pose proof (ser_nonempty (ts (Type_of v))) as Hser. pose proof (depth_ser (ts (Type_of v))) as Hdep. rewrite Hbody in *. rewrite Zlength_app in Hlen.
  pose proof (Zlength_nonneg body) as Hbn. assert (n < fuel)%nat as Hfn by lia.
  assert (forall k g (x : Value), kind_is w (Type_of v) k -> vreads (g k (Type_of v)) body x ->
    vreads (fun r => let! (t, r) := readType false fuel r in let! k := Kind (tc r) t in g k t r) (ser (ts (Type_of v)) ++ body) x) as Hhead.
  { intros k g x Hk Hg. apply (vreads_bind (readType false fuel) _ _ _ (Type_of v)); [apply read_known; [apply Hk|lia]|].
    eapply vreads_ext; [intros r Hr; rewrite Hr, (proj2 Hk); cbn [obind]; reflexivity|]. done. }
  assert (forall a b, ser (ts (Type_of v)) ++ a = ser (ts (Type_of v)) ++ b -> a = b) as Hinv by (intros a b Hab; by apply app_inv_head in Hab).
  destruct v as [b|f|s|[d| | | |t tuples]|[|t vs| | |t tuples]|[| | |t data|t tuples]|[| |t vs| |t tuples]|vs t|r|t]; cbn in Hok; try done;
    cbn [vbytes Type_of seq_Type] in *; apply Hinv in Hbody; subst body; rewrite ?Zlength_app, ?Zlength_be_put in Hlen.
  - eapply (Hhead BoolKind); [by apply (prim_known w BoolKind)|]. apply (vreads_map (on_reader readBool) Bool), vreads_reader, reads_Bool.
  - eapply (Hhead NumberKind); [by apply (prim_known w NumberKind)|]. apply (vreads_map (on_reader readNumber) Number), vreads_reader. by apply exact_written.
  - eapply (Hhead StringKind); [by apply (prim_known w StringKind)|]. apply (vreads_map (on_reader readString) String), vreads_reader. exact (reads_String s).
  - eapply (Hhead BlobKind); [by apply (prim_known w BlobKind)|]. apply (vreads_map _ Blob), vreads_leaf. apply (vreads_map _ blobLeafSequence), vreads_reader. exact (reads_Bytes d).
  - destruct Hok as [Hk Hok]. eapply (Hhead BlobKind); [done|]. apply (vreads_map _ Blob), vreads_meta. apply (vreads_tuples n); [done|done|lia|done].
  - destruct Hok as [Hk Hok]. eapply (Hhead ListKind); [done|]. apply (vreads_map _ List), vreads_leaf. apply (vreads_map _ (listLeafSequence t)), (vreads_values n); [done|done|lia|done].
  - destruct Hok as [Hk Hok]. eapply (Hhead ListKind); [done|]. apply (vreads_map _ List), vreads_meta. apply (vreads_tuples n); [done|done|lia|done].
  - destruct Hok as [Hk Hok]. eapply (Hhead MapKind); [done|]. apply (vreads_map _ Map), vreads_leaf. apply (vreads_entries n); [done|done|lia|done].
  - destruct Hok as [Hk Hok]. eapply (Hhead MapKind); [done|]. apply (vreads_map _ Map), vreads_meta. apply (vreads_tuples n); [done|done|lia|done].
  - destruct Hok as [Hk Hok]. eapply (Hhead SetKind); [done|]. apply (vreads_map _ Set_), vreads_leaf. apply (vreads_map _ (setLeafSequence t)), (vreads_values n); [done|done|lia|done].
  - destruct Hok as [Hk Hok]. eapply (Hhead SetKind); [done|]. apply (vreads_map _ Set_), vreads_meta. apply (vreads_tuples n); [done|done|lia|done].
  - destruct Hok as (Hk & (T & name & fs & HT & HD & Hl) & Hok). eapply (Hhead StructKind); [split; [done|]; unfold Kind, get_type; rewrite HT; cbn; by rewrite HD|].
    unfold readStruct. apply (vreads_ext _ (fun r => let! (values, r) := repeat_w (length vs) (readValue false fuel) r in Ok (Struct values t, r))).
    { intros r Hr. unfold get_type. rewrite Hr, HT. cbn [obind]. by rewrite HD, Hl. }
    apply (vreads_map _ (fun l => Struct l t)), (vreads_repeat _ (vbytes ts) stored). apply all_Forall in Hok. rewrite Forall_forall in Hok. apply Forall_forall. intros v Hin.
    pose proof (flat_map_part (vbytes ts) vs v Hin). apply IH; [lia|done|by apply Hok].
  - destruct Hok as (Hk & Hok). eapply (Hhead RefKind); [done|]. apply (vreads_map _ Ref), vreads_Ref. done.
  - eapply (Hhead TypeKind); [by apply (prim_known w TypeKind)|]. apply (vreads_map _ TypeValue), read_known; [done|]. pose proof (depth_ser (ts t)). lia.
Qed.

End decode.

(** ** Both *)

Lemma grows_known_Kind w w' p k : grows w w' -> kind_is w p k -> kind_is w' p k.
Proof. intros Hg [? ?]. split; [by eapply grows_known|by eapply grows_Kind]. Qed.
Lemma grows_desc w w' p (D : TypeDesc) : grows w w' -> (exists T, heap w !! p = Some T /\ Desc T = D) -> exists T, heap w' !! p = Some T /\ Desc T = D.
Proof. intros Hg (T & HT & HD). destruct (gr_heap _ _ Hg _ _ HT) as (T' & HT' & HD' & _). exists T'. split; [done|congruence]. Qed.
Lemma grows_ref_ok w w' r : grows w w' -> ref_ok w r -> ref_ok w' r.
Proof.
  intros Hg (Hk & Hh & T & e & HT & HD & Hne). split; [by eapply grows_known_Kind|]. split; [done|].
  destruct (grows_desc w w' (ref_t r) _ Hg (ex_intro _ T (conj HT HD))) as (T' & ? & ?). by exists T', e.
Qed.

Section grow.
Context (w w' : world) (Hg : grows w w').

Lemma all_grows {A} (P Q : A -> Prop) l : (forall a, P a -> Q a) -> all P l -> all Q l.
Proof. intros HPQ. rewrite !all_Forall. intros HP. by eapply Forall_impl. Qed.
(** Values stay well-formed while the cache grows. *)
Fixpoint value_ok_grows (v : Value) {struct v} : value_ok w v -> value_ok w' v
with tuple_ok_grows (mt : metaTuple) {struct mt} : tuple_ok w mt -> tuple_ok w' mt.
Proof.
  - assert (forall t k (P : Prop) Q, (P -> Q) -> kind_is w t k /\ P -> kind_is w' t k /\ Q) as Hkind
      by (intros t k P Q HPQ [? ?]; split; [by eapply grows_known_Kind|by apply HPQ]).
    destruct v as [b|f|s|[d| | | |t tuples]|[|t vs| | |t tuples]|[| | |t es|t tuples]|[| |t vs| |t tuples]|vs t|r|t]; cbn [value_ok]; try done; try (by apply (grows_ref_ok w)); try apply Hkind.
    + induction tuples as [|mt l IH]; cbn; [done|]. intros [? ?]. split; [by apply tuple_ok_grows|by apply IH].
    + induction vs as [|v l IH]; cbn; [done|]. intros [? ?]. split; [by apply value_ok_grows|by apply IH].
    + induction tuples as [|mt l IH]; cbn; [done|]. intros [? ?]. split; [by apply tuple_ok_grows|by apply IH].
    + induction es as [|[k v] l IH]; cbn; [done|]. intros [[? ?] ?]. split; [split; by apply value_ok_grows|by apply IH].
    + induction tuples as [|mt l IH]; cbn; [done|]. intros [? ?]. split; [by apply tuple_ok_grows|by apply IH].
    + induction vs as [|v l IH]; cbn; [done|]. intros [? ?]. split; [by apply value_ok_grows|by apply IH].
    + induction tuples as [|mt l IH]; cbn; [done|]. intros [? ?]. split; [by apply tuple_ok_grows|by apply IH].
    + intros (Hk & (T & name & fs & HT & HD & Hl) & Hvs). split; [by eapply grows_known|]. split.
      * destruct (grows_desc w w' t _ Hg (ex_intro _ T (conj HT HD))) as (T' & ? & ?). by exists T', name, fs.
      * clear HT HD Hl. induction vs as [|v l IH]; cbn in *; [done|]. destruct Hvs. split; [by apply value_ok_grows|by apply IH].
    + by apply grows_known.
  - destruct mt as [ref [[] [v|] h] nl c]; cbn [tuple_ok]; intros (Href & Hnl & Hk); (split; [by eapply grows_ref_ok|]); split; try done.
    + destruct Hk as [? ?]. split; [done|by apply value_ok_grows].
    + destruct Hk as [? ?]. split; [done|by eapply grows_has_type].
    + destruct Hk as [? ?]. split; [done|by eapply grows_has_type].
Qed.

End grow.

Lemma tree_of_denotes h t : forall p n, denotes h p t -> (depth t <= n)%nat -> tree_of n h p = t.
Proof.
  induction t as [k|k ts IH|name gs IH] using ty_ind; intros p [|n] (T & HT & HD)%denotes_inv Hn; cbn [depth] in Hn; try lia; cbn [tree_of]; rewrite HT.
  - by rewrite HD.
  - destruct HD as (es & -> & Hes). f_equal. clear HT. revert IH Hn. induction Hes as [|e t es ts He _ IHes]; intros IH Hn; [done|].
    cbn [map] in *. rewrite list_max_cons in Hn. inversion IH; subst. f_equal; [|apply IHes; [done|lia]]. match goal with Ht : forall p n, _ |- _ => apply Ht; [done|lia] end.
  - destruct HD as (fs & -> & Hfs). f_equal. clear HT. revert IH Hn. induction Hfs as [|[m e] [m' t] fs gs [Hm He] _ IHfs]; intros IH Hn; [done|].
    cbn [map] in *. rewrite list_max_cons in Hn. inversion IH; subst. cbn [fst snd] in *. subst m'. f_equal; [|apply IHfs; [done|lia]]. f_equal.
    match goal with Ht : forall p n, _ |- _ => apply Ht; [done|lia] end.
Qed.
Lemma trees_denote w p : world_ok w -> known w p -> denotes (heap w) p (trees w p).
Proof.
  intros Hw Hp. destruct (known_tree w Hw p Hp) as (t & Hd & _ & Hdep). unfold trees. pose proof (known_lt w p Hw Hp).
  rewrite (tree_of_denotes (heap w) t); [done|done|lia].
Qed.

End RoundtripFacts.
Import RoundtripFacts.

(** C10: encoding a value in a cache that knows its types gives the chunk of the
    bytes [vbytes] and asks the writer for the children that are not written,
    in order; decoding the chunk gives the value back, with its own types,
    without the children and the keys that are written as hashes, and leaves
    the cache as it is.  Its numbers need at most 1023 fractional bits and zero
    has no sign; the types, those of the cache included, are without cycles. *)
Theorem value_roundtrip `{GoSort} (w : world) (vw : bool) (v : Value) : rtc cache_step NewTypeCache w -> value_ok w v ->
  Zlength (vbytes (trees w) v) + 20 <= 2 ^ 31 ->
  exists w', EncodeValue vw v w = Ok (NewChunk (vbytes (trees w) v), (w', if vw then unwritten v else [])) /\
    DecodeValue (NewChunk (vbytes (trees w) v)) w' = Ok (stored v, w').
Proof.
  intros Hw%cache_run_ok Hv Hlen. pose proof (fun p => trees_denote w p Hw) as Hts. set (l := vbytes (trees w) v) in *.
  assert (Zlength l < Z.of_nat (S (length l))) as Hn by (unfold Zlength; lia).
  destruct (writeValue_ok w Hw (trees w) Hts vw _ v Hn Hv (MkEncoder newBinaryNomsWriter w [])) as (e & He & Hwr & Hw' & Hg & Hgb & Hb & Hl);
    [split; [done|by exists 11]|done|apply grows_refl|done|]. fold l in Hb. change (written (enc_w (MkEncoder newBinaryNomsWriter w []))) with (@nil byte) in Hb.
  exists (enc_tc e). split.
  - unfold EncodeValue. rewrite He. cbn [obind]. rewrite data_ok by done. cbn [obind]. by rewrite Hl, Hb.
  - pose proof (vbytes_nonempty w (trees w) v Hv) as Hne. fold l in Hne. unfold DecodeValue, DecodeFromBytes, decodeFromBytes.
    replace (Chunk_IsEmpty (NewChunk l)) with false by (destruct l; [done|reflexivity]). cbn [negb check obind]. change (contents (Data (NewChunk l))) with l.
    assert (forall p, known (enc_tc e) p -> denotes (heap (enc_tc e)) p (trees w p)) as Hts'.
    { intros p Hp. apply (grows_denotes w _ _ Hg), Hts. by apply (grows_known (enc_tc e)). }
    destruct (readValue_ok (enc_tc e) Hw' (trees w) Hts' (length l) v (S (S (length l))) ltac:(done) ltac:(lia) (value_ok_grows _ _ Hg v Hv) [] [] 0)
      as (a & w2 & Hr & -> & ->); [fold l; rewrite app_nil_r; cbn [app]; assert (2 ^ 31 < 2 ^ 32) by done; lia|].
    fold l in Hr. rewrite app_nil_r in Hr. cbn [app] in Hr. change (Zlength (@nil byte)) with 0 in Hr. rewrite Hr. cbn [obind nomsReader pos r_offset]. rewrite u32_small, Z.eqb_refl by (assert (2 ^ 31 < 2 ^ 32) by done; lia). done.
Qed.

(** A struct that holds a list of two numbers. *)
Import InternSample.
#[local] Existing Instance go_insertion_sort.
Definition sample_value : Value := Struct [List (listLeafSequence 6%nat [Number (Finite false 3 0); Number (Finite true 5 (-3))])] 7%nat.

Lemma value_roundtrip_witness : exists w', EncodeValue true sample_value w_struct = Ok (NewChunk (vbytes (trees w_struct) sample_value), (w', [])) /\
  DecodeValue (NewChunk (vbytes (trees w_struct) sample_value)) w' = Ok (stored sample_value, w').
Proof.
  apply (value_roundtrip w_struct true sample_value run_struct); [|vm_compute; discriminate].
  cbn [value_ok sample_value]. split; [apply known_struct_7|]. split; [eexists _, _, _; split; [vm_compute; reflexivity|split; [reflexivity|done]]|].
  split; [|done]. split; [split; [apply known_list_6|vm_compute; reflexivity]|]. cbn [all foldr value_ok]. split; [right; split; [split; [by exists 1|done]|done]|]. split; [right; split; [split; [by exists 2|done]|done]|done].
Defined.
