(* ===== verification/RollingHash.v ===== *)
(** * Package [types]: the rolling hash of values

    (src/go/types/rolling_value_hasher.go and src/vendor/github.com/kch42/buzhash)

    A [rollingValueHasher] is a [nomsWriter] that feeds the bytes of values to a
    buzhash with a window of the last bytes, and notices when the hash of the
    window ends in ones; there a chunk ends.  The hash of a window does not
    depend on what came before it. *)

From S2P Require Import Prelude GoLib HashPkg TypesCodec TypesType TypesValue.
Import Hash Float64 NumberUtil Codec NomsKinds TypeCache Values.

(** ** buzhash/hash.go *)

Module Buz.

Definition bytehash : list Z := [
  0x12bd9527; 0xf4140cea; 0x987bd6e1; 0x79079850; 0xafbfd539; 0xd350ce0a; 0x82973931; 0x9fc32b9c;
  0x28003b88; 0xc30c13aa; 0x6b678c34; 0x5844ef1d; 0xaa552c18; 0x4a77d3e8; 0xd1f62ea0; 0x6599417c;
  0xfbe30e7a; 0xf9e2d5ee; 0xa1fca42e; 0x41548969; 0x116d5b59; 0xaeda1e1a; 0xc5191c17; 0x54b9a3cb;
  0x727e492a; 0x5c432f91; 0x31a50bce; 0xc2696af6; 0x217c8020; 0x1262aefc; 0xace75924; 0x9876a04f;
  0xaf300bc2; 0x3ffce3f6; 0xd6680fb5; 0xd0b1ced8; 0x6651f842; 0x736fadef; 0xbc2d3429; 0xb03d2904;
  0x7e634ba4; 0xdfd87d8c; 0x7988d63a; 0x4be4d933; 0x6a8d0382; 0x9e132d62; 0x3ee9c95f; 0xfec05b97;
  0x6907ad34; 0x8616cfcc; 0xa6aabf24; 0x8ad1c92e; 0x4f2affc0; 0xb87519db; 0x6576eaf6; 0x15dbe00a;
  0x63e1dd82; 0xa36b6a81; 0xeead99b3; 0xbc6a4309; 0x3478d1a7; 0x2182bcc0; 0xdd50cfce; 0x7cb25580;
  0x73075483; 0x503b7f42; 0x4cd50d63; 0x3f4d94c9; 0x385fcbb7; 0x90daf16c; 0xece10b8e; 0x11c1cb04;
  0x816a899b; 0x69a29d06; 0xfb090b37; 0xf98ef13c; 0x07653435; 0x9f15dc42; 0x3b43abdf; 0x1334283f;
  0x93f3d9af; 0x0cbdfe71; 0xa788a614; 0x4f54d2f0; 0xd4374fc7; 0x70557ce7; 0xf741fce8; 0xe4b6f661;
  0xc630cb98; 0x387a6366; 0x72f428fd; 0x539009db; 0xc53e3810; 0x1e1a52e5; 0x7d6816b0; 0x040f9b81;
  0x9c99c9fb; 0x9f3af3d2; 0x774d1061; 0xd5c840ea; 0x8e1480fe; 0x6ee4023c; 0x2fbda535; 0xd88eff7a;
  0xd8632a2a; 0x43c4e024; 0x3ef27971; 0xc72866fd; 0xe35cc630; 0x46d96220; 0x437a8384; 0xe92caf0c;
  0x6290a47e; 0xa7bb9238; 0x0e1000f9; 0x49e76bdc; 0x3acfb4b8; 0x03582b8e; 0x6ea2de4e; 0x2ec1008d;
  0xfcc8df69; 0x91c2fe0a; 0xb471c7d9; 0x778be812; 0x70d29ad1; 0x76411cbf; 0xc302e81c; 0x4e445194;
  0x22e3aa72; 0xb65762e9; 0xa280db05; 0x827aa70e; 0x4c531a9d; 0x7a60bf4a; 0x8fd95a44; 0x2289aef0;
  0xcd50ddc4; 0x639aae69; 0x5fe85ed6; 0x4ed724ff; 0x00f04f7d; 0x95a5fcb0; 0x88255d15; 0xa603d2c9;
  0xf6956a5b; 0x53ea7f3e; 0xb570f225; 0x2b3be203; 0xa181e40e; 0xc413cdce; 0xa7cb1ebb; 0xcf258b1f;
  0x516eb016; 0xca204586; 0xd1e69894; 0xe85a73d3; 0x7db2d382; 0xae73b463; 0x3598d643; 0x5087c864;
  0xd91f30b6; 0xe1d4d1e7; 0x73b3b337; 0xceac1233; 0x8edf7845; 0xa69c45c9; 0xdb5db3ab; 0x28cfade8;
  0xebfa49e7; 0xcbc2a659; 0x59cce971; 0x959a01af; 0x8ee9aae7; 0xfb2f01c6; 0x5a752836; 0x9ed12981;
  0x618d05b6; 0x93ec12b3; 0x4590c779; 0xed1317a2; 0x03fe5835; 0x7ad3c6f7; 0xd4aad5b5; 0x1a995ed7;
  0x247bfaa4; 0x69c2c799; 0x745fa405; 0xc5b9f239; 0xc3d9aebc; 0xa6f60e0b; 0xdf1e91d7; 0xab8e041c;
  0xee3188c6; 0x37377a9e; 0xc0e1a3bf; 0x19a5a9e4; 0x56cb9556; 0xc4d33d3f; 0xfb1eb03e; 0xf9557057;
  0x1be31d37; 0xd1fa65f1; 0xf518d714; 0x570ac722; 0xf26cf66a; 0x24794d47; 0x8ba2e402; 0x3f5137e6;
  0x35be1453; 0x43350478; 0x9f05ee88; 0x364cf9cf; 0x39a23ee7; 0xa4db8d49; 0xc2ebb3d2; 0xc6fb99d5;
  0xe014dfb0; 0x7156d425; 0xe090a87a; 0x4cc12f78; 0x1b30f503; 0x06694a7a; 0x68198cd1; 0x2f8345bd;
  0x9d79198e; 0xd871943f; 0x22ef6cf4; 0xe81b1c15; 0x067b61d8; 0xfc4ea4f5; 0xfe6dab57; 0x1bf744ba;
  0xa70b6a25; 0xafe6e412; 0xc6c1a05c; 0x8ffbe3ce; 0xc4270af1; 0xf3f36373; 0xc4507dd8; 0x5e6fd1e2;
  0x58cd9739; 0x47d3c5b5; 0xe1d5a343; 0x3d4dea4a; 0x893d91ae; 0xbb2a5e2a; 0x0d57b800; 0x652a7cc9;
  0x6a68ccfd; 0x62529f0b; 0xec5f36d6; 0x766cceda; 0x96ca63ef; 0xa0499838; 0xd9030f59; 0x8185f4d2
].

Record BuzHash : Type := MkBuz {
  state : Z; buf : list byte; bn : Z; bshiftn : Z; bshiftm : Z; bufpos : Z; overflow : bool
}.
Definition Reset (bh : BuzHash) : BuzHash := MkBuz 0 (buf bh) (bn bh) (bshiftn bh) (bshiftm bh) 0 false.
Definition NewBuzHash (n : Z) : BuzHash :=
  Reset (MkBuz 0 (make_bytes (Z.to_nat n)) n (n mod 32) (32 - n mod 32) 0 false).
Definition bytehash_at (b : byte) : Z := nth (Z.to_nat (Zb b)) bytehash 0.
Definition HashByte (bh : BuzHash) (b : byte) : outcome BuzHash :=
  let '(overflow, bufpos) := if bufpos bh =? bn bh then (true, 0) else (overflow bh, bufpos bh) in
  let s := state bh in
  let s := Z.lor (u32 (Z.shiftl s 1)) (Z.shiftr s 31) in
  let! s :=
    if overflow : bool then
      let! old := index (buf bh) bufpos in
      let toshift := bytehash_at old in
      Ok (Z.lxor s (Z.lor (u32 (Z.shiftl toshift (bshiftn bh))) (Z.shiftr toshift (bshiftm bh))))
    else Ok s in
  let! buf := set_index (buf bh) bufpos b in
  Ok (MkBuz (Z.lxor s (bytehash_at b)) buf (bn bh) (bshiftn bh) (bshiftm bh) (u32 (bufpos + 1)) overflow).
Definition Sum32 (bh : BuzHash) : Z := state bh.

End Buz.

(** ** rolling_value_hasher.go *)

(** The package variables [chunkPattern] and [chunkWindow]; only tests set them. *)
Class chunkingConfig := { chunkPattern : Z; chunkWindow : Z }.
Definition normalProductionChunks : chunkingConfig := {| chunkPattern := 2 ^ 12 - 1; chunkWindow := 64 |}.
Definition smallTestChunks : chunkingConfig := {| chunkPattern := 2 ^ 7 - 1; chunkWindow := 32 |}.

Module Rolling.

Section rolling.
Context `{chunkingConfig}.

Record rollingValueHasher : Type := MkRv {
  bz : Buz.BuzHash; bytesHashed : Z; lengthOnly : bool; crossedBoundary : bool; pattern : Z; window : Z
}.
Definition newRollingValueHasher : rollingValueHasher :=
  MkRv (Buz.NewBuzHash chunkWindow) 0 false false chunkPattern chunkWindow.

Definition HashByte (rv : rollingValueHasher) (b : byte) : outcome rollingValueHasher :=
  let bytesHashed := u32 (bytesHashed rv + 1) in
  if lengthOnly rv then Ok (MkRv (bz rv) bytesHashed (lengthOnly rv) (crossedBoundary rv) (pattern rv) (window rv))
  else
    let! bz := Buz.HashByte (bz rv) b in
    Ok (MkRv bz bytesHashed (lengthOnly rv)
      (crossedBoundary rv || (Z.land (Buz.Sum32 bz) chunkPattern =? chunkPattern)) (pattern rv) (window rv)).
Definition ClearLastBoundary (rv : rollingValueHasher) : rollingValueHasher :=
  MkRv (bz rv) 0 (lengthOnly rv) false (pattern rv) (window rv).
Definition set_lengthOnly (rv : rollingValueHasher) (b : bool) : rollingValueHasher :=
  MkRv (bz rv) (bytesHashed rv) b (crossedBoundary rv) (pattern rv) (window rv).

(** One byte after the other. *)
Definition rv_writeBytes (rv : rollingValueHasher) (v : list byte) : outcome rollingValueHasher :=
  fold_w (fun b rv => HashByte rv b) v rv.
Definition rv_writeUint8 (rv : rollingValueHasher) (v : Z) : outcome rollingValueHasher := HashByte rv (bZ (u8 v)).
Definition rv_writeUint32 (rv : rollingValueHasher) (v : Z) : outcome rollingValueHasher := rv_writeBytes rv (be_put 4 v).
Definition rv_writeUint64 (rv : rollingValueHasher) (v : Z) : outcome rollingValueHasher := rv_writeBytes rv (be_put 8 v).
Definition hashVarint (rv : rollingValueHasher) (n : Z) : outcome rollingValueHasher := rv_writeBytes rv (Varint.PutVarint n).
Definition rv_writeNumber (rv : rollingValueHasher) (v : float64) : outcome rollingValueHasher :=
  let! (i, exp) := float64ToIntExp v in
  let! rv := hashVarint rv i in
  hashVarint rv (s64 exp).
Definition rv_writeBool (rv : rollingValueHasher) (v : bool) : outcome rollingValueHasher :=
  if v then rv_writeUint8 rv 1 else rv_writeUint8 rv 0.
Definition rv_writeString (rv : rollingValueHasher) (v : list byte) : outcome rollingValueHasher :=
  let! rv := rv_writeUint32 rv (u32 (Zlength v)) in
  rv_writeBytes rv v.
Definition rv_writeHash (rv : rollingValueHasher) (h : Hash) : outcome rollingValueHasher := rv_writeBytes rv (hash_bytes h).
(** Type bytes are not part of the stream that is chunked. *)
Definition rv_appendType (t : ptr) (s : rollingValueHasher * world) : outcome (rollingValueHasher * world) := Ok s.

#[export] Instance rolling_nomsWriter : nomsWriter rollingValueHasher := {|
  nw_writeBytes := rv_writeBytes; nw_writeUint8 := rv_writeUint8; nw_writeUint32 := rv_writeUint32; nw_writeUint64 := rv_writeUint64;
  nw_writeNumber := rv_writeNumber; nw_writeBool := rv_writeBool; nw_writeString := rv_writeString; nw_writeHash := rv_writeHash
|}.
#[export] Instance rolling_typeWriter : typeWriter rollingValueHasher := rv_appendType.

(** The encoder [rv.enc] writes to the hasher itself. *)
Definition HashValue (v : Value) (s : rollingValueHasher * world) : outcome (rollingValueHasher * world) :=
  let '(rv, w) := s in
  let! e := writeValue false v (MkEncoder rv w []) in
  Ok (enc_w e, enc_tc e).

End rolling.

End Rolling.
Import Rolling.

(** ** Facts about the hash *)

Module BuzFacts.

Definition rot1 (s : Z) : Z := Z.lor (u32 (Z.shiftl s 1)) (Z.shiftr s 31).
Definition rot (k s : Z) : Z := Z.lor (u32 (Z.shiftl s (k mod 32))) (Z.shiftr s (32 - k mod 32)).
Definition word (s : Z) : Prop := 0 <= s < 2 ^ 32.

Lemma word_bits s i : word s -> 32 <= i -> Z.testbit s i = false.
Proof.
  intros Hs Hi. rewrite <- (Z.mod_small s (2 ^ 32)) by done. by apply Z.mod_pow2_bits_high.
Qed.
Lemma rot_bits k s i : word s -> 0 <= i < 32 -> Z.testbit (rot k s) i = Z.testbit s ((i - k) mod 32).
Proof.
  intros Hs Hi. unfold rot, u32. rewrite Z.lor_spec, Z.mod_pow2_bits_low, Z.shiftl_spec, Z.shiftr_spec by lia.
  pose proof (Z.mod_pos_bound k 32 eq_refl) as Hk. rewrite <- Zminus_mod_idemp_r. set (j := k mod 32) in *.
  destruct (Z.ltb_spec i j).
  - rewrite (Z.testbit_neg_r s (i - j)) by lia. cbn [orb]. f_equal. apply Z.mod_unique_pos with (-1); lia.
  - rewrite (word_bits s (i + (32 - j))) by (done || lia). rewrite orb_false_r. by rewrite Z.mod_small by lia.
Qed.
Lemma word_ext a b : word a -> word b -> (forall i, 0 <= i < 32 -> Z.testbit a i = Z.testbit b i) -> a = b.
Proof.
  intros Ha Hb Heq. apply Z.bits_inj'. intros i Hi. destruct (Z.ltb_spec i 32); [by apply Heq|]. by rewrite !word_bits.
Qed.
Lemma word_lxor a b : word a -> word b -> word (Z.lxor a b).
Proof.
  intros Ha Hb. split; [by apply Z.lxor_nonneg; unfold word in *; lia|].
  destruct (Z.eq_dec (Z.lxor a b) 0) as [->|Hne]; [done|]. apply Z.log2_lt_pow2; [pose proof (proj2 (Z.lxor_nonneg a b)); unfold word in *; lia|].
  destruct Ha as [Ha0 Ha], Hb as [Hb0 Hb]. pose proof (Z.log2_lxor a b Ha0 Hb0).
  assert (Z.log2 a < 32) by (destruct (Z.eq_dec a 0) as [->|]; [done|apply Z.log2_lt_pow2; lia]).
  assert (Z.log2 b < 32) by (destruct (Z.eq_dec b 0) as [->|]; [done|apply Z.log2_lt_pow2; lia]). lia.
Qed.
Lemma word_rot k s : word s -> word (rot k s).
Proof.
  intros Hs. unfold rot, u32, word. pose proof (Z.mod_pos_bound k 32 eq_refl). pose proof (Z.mod_pos_bound (Z.shiftl s (k mod 32)) (2 ^ 32) eq_refl) as Hm.
  set (a := Z.shiftl s (k mod 32) mod 2 ^ 32) in *. set (b := Z.shiftr s (32 - k mod 32)).
  assert (0 <= b < 2 ^ 32) as Hb.
  { unfold b. rewrite Z.shiftr_div_pow2 by lia. assert (0 < 2 ^ (32 - k mod 32)) by (apply Z.pow_pos_nonneg; lia). unfold word in Hs.
    split; [apply Z.div_pos; lia|]. apply Z.div_lt_upper_bound; nia. }
  split; [apply Z.lor_nonneg; lia|]. destruct (Z.eq_dec (Z.lor a b) 0) as [->|Hne]; [done|]. pose proof (proj2 (Z.lor_nonneg a b)).
  apply Z.log2_lt_pow2; [lia|]. rewrite Z.log2_lor by lia.
  assert (Z.log2 a < 32) by (destruct (Z.eq_dec a 0) as [->|]; [done|apply Z.log2_lt_pow2; lia]).
  assert (Z.log2 b < 32) by (destruct (Z.eq_dec b 0) as [->|]; [done|apply Z.log2_lt_pow2; lia]). lia.
Qed.
Lemma rot1_rot s : rot1 s = rot 1 s.
Proof. reflexivity. Qed.
Lemma rot_lxor k a b : word a -> word b -> rot k (Z.lxor a b) = Z.lxor (rot k a) (rot k b).
Proof.
  intros Ha Hb. apply word_ext; [by apply word_rot, word_lxor|by apply word_lxor; apply word_rot|].
  intros i Hi. rewrite Z.lxor_spec, !rot_bits, Z.lxor_spec by (done || by apply word_lxor). done.
Qed.
Lemma rot_rot j k s : word s -> rot j (rot k s) = rot (j + k) s.
Proof.
  intros Hs. apply word_ext; [by apply word_rot, word_rot|by apply word_rot|].
  intros i Hi. rewrite !rot_bits by (done || (by apply word_rot) || by apply Z.mod_pos_bound). f_equal. rewrite Zminus_mod_idemp_l. f_equal. lia.
Qed.
Lemma rot_0 s : word s -> rot 0 s = s.
Proof. intros Hs. apply word_ext; [by apply word_rot|done|]. intros i Hi. rewrite rot_bits by done. by rewrite Z.sub_0_r, Z.mod_small. Qed.

(** The hash of a window. *)
Definition mix (s : Z) (b : byte) : Z := Z.lxor (rot1 s) (Buz.bytehash_at b).
Definition sum_from (s : Z) (l : list byte) : Z := foldl mix s l.
Definition window_sum (l : list byte) : Z := sum_from 0 l.

Lemma word_bytehash b : word (Buz.bytehash_at b).
Proof.
  assert (forallb (fun z => (0 <=? z) && (z <? 2 ^ 32)) Buz.bytehash = true) as Hall by (vm_compute; reflexivity).
  unfold Buz.bytehash_at. destruct (nth_in_or_default (Z.to_nat (Zb b)) Buz.bytehash 0) as [Hin| ->]; [|done].
  rewrite forallb_forall in Hall. specialize (Hall _ Hin). unfold word. lia.
Qed.
Lemma word_sum_from l : forall s, word s -> word (sum_from s l).
Proof.
  induction l as [|b l IH]; intros s Hs; [done|]. cbn. apply IH, word_lxor; [by apply (word_rot 1)|apply word_bytehash].
Qed.
Lemma sum_from_split l : forall s, word s -> sum_from s l = Z.lxor (rot (Zlength l) s) (window_sum l).
Proof.
  induction l as [|b l IH]; intros s Hs; [unfold Zlength; cbn; by rewrite Z.lxor_0_r, rot_0|].
  pose proof (word_bytehash b) as Hb. pose proof (word_rot 1 s Hs) as H1. unfold window_sum. cbn [sum_from foldl]. fold (sum_from (mix s b) l) (sum_from (mix 0 b) l).
  rewrite (IH (mix s b)), (IH (mix 0 b)) by (apply word_lxor; [by apply (word_rot 1)|done]).
  unfold mix. rewrite rot_lxor by done. change (rot1 0) with 0. rewrite Z.lxor_0_l, Z.lxor_assoc. f_equal.
  rewrite Zlength_cons, rot1_rot, rot_rot by done. f_equal. lia.
Qed.
(** The oldest byte leaves the window. *)
Lemma window_sum_slide x l b : Z.lxor (Z.lxor (rot1 (window_sum (x :: l))) (rot (Zlength l + 1) (Buz.bytehash_at x))) (Buz.bytehash_at b) = window_sum (l ++ [b]).
Proof.
  pose proof (word_bytehash x) as Hx. unfold window_sum at 2. unfold sum_from. rewrite foldl_app. cbn [foldl]. fold (sum_from 0 l) (window_sum l). unfold mix. f_equal.
  change (window_sum (x :: l)) with (sum_from (mix 0 x) l). unfold mix. change (rot1 0) with 0. rewrite Z.lxor_0_l, sum_from_split by done.
  rewrite rot1_rot, rot_lxor by (by apply word_rot || by apply word_sum_from). rewrite rot_rot, (Z.add_comm 1) by done. fold (rot1 (window_sum l)).
  rewrite (Z.lxor_comm (rot _ _)), Z.lxor_assoc, Z.lxor_nilpotent, Z.lxor_0_r. done.
Qed.

(** ** The hash of a stream *)

(** The last [n] bytes. *)
Definition lastn (n : nat) (h : list byte) : list byte := drop (length h - n) h.

(** [bh] has read [h]. *)
Record has_read (n : Z) (bh : Buz.BuzHash) (h : list byte) : Prop := MkRead {
  hr_n : Buz.bn bh = n; hr_shiftn : Buz.bshiftn bh = n mod 32; hr_shiftm : Buz.bshiftm bh = 32 - n mod 32;
  hr_len : length (Buz.buf bh) = Z.to_nat n; hr_pos : 0 <= Buz.bufpos bh <= n;
  hr_start : Buz.overflow bh = false -> Zlength h = Buz.bufpos bh;
  hr_full : Buz.overflow bh = true -> n <= Zlength h;
  hr_win : lastn (Z.to_nat n) h =
    (if Buz.overflow bh then drop (Z.to_nat (Buz.bufpos bh)) (Buz.buf bh) else []) ++ take (Z.to_nat (Buz.bufpos bh)) (Buz.buf bh);
  hr_state : Buz.state bh = window_sum (lastn (Z.to_nat n) h)
}.

Lemma lastn_short n h : (length h <= n)%nat -> lastn n h = h.
Proof. intros Hl. unfold lastn. by replace (length h - n)%nat with 0%nat by lia. Qed.
Lemma lastn_app n h k : (n <= length k)%nat -> lastn n (h ++ k) = lastn n k.
Proof. intros Hl. unfold lastn. rewrite length_app, drop_app, (drop_ge h) by lia. cbn [app]. f_equal. lia. Qed.
Lemma lastn_snoc n h b x w : (n <= length h)%nat -> lastn n h = x :: w -> lastn n (h ++ [b]) = w ++ [b].
Proof.
  intros Hl Hx. unfold lastn in *. rewrite length_app. cbn [length].
  assert (0 < n)%nat by (apply (f_equal length) in Hx; rewrite length_drop in Hx; cbn in Hx; lia). rewrite drop_app_le by lia.
  replace (length h + 1 - n)%nat with ((length h - n) + 1)%nat by lia. rewrite <- drop_drop, Hx. done.
Qed.
Lemma new_has_read n : 0 < n < 2 ^ 32 -> has_read n (Buz.NewBuzHash n) [].
Proof. intros Hn. constructor; try done; cbn; [apply length_replicate|lia]. Qed.

(** Storing over the oldest byte. *)
Lemma rotate_buf (buf : list byte) (p : nat) x b : buf !! p = Some x ->
  drop p buf ++ take p buf = x :: drop (S p) buf ++ take p buf /\
  drop (S p) (<[p := b]> buf) ++ take (S p) (<[p := b]> buf) = (drop (S p) buf ++ take p buf) ++ [b].
Proof.
  intros Hx. pose proof (lookup_lt_Some _ _ _ Hx). split; [by rewrite (drop_S buf x p Hx)|].
  rewrite drop_insert_lt by lia. rewrite (take_S_r (<[p := b]> buf) p b) by (by apply list_lookup_insert_eq). rewrite take_insert_ge by lia. by rewrite app_assoc.
Qed.
Lemma slide_state n x w b s : word s -> s = window_sum (x :: w) -> Zlength (x :: w) = n ->
  Z.lxor (Z.lxor (rot1 s) (Z.lor (u32 (Z.shiftl (Buz.bytehash_at x) (n mod 32))) (Z.shiftr (Buz.bytehash_at x) (32 - n mod 32)))) (Buz.bytehash_at b) = window_sum (w ++ [b]).
Proof. intros _ -> Hn. rewrite <- (window_sum_slide x w b). unfold rot. rewrite Zlength_cons in Hn. by replace (Zlength w + 1) with n by lia. Qed.

Lemma HashByte_read n bh h b : 0 < n < 2 ^ 32 -> has_read n bh h -> exists bh', Buz.HashByte bh b = Ok bh' /\ has_read n bh' (h ++ [b]).
Proof.
  intros Hn [Hbn Hsn Hsm Hlen Hpos Hstart Hfull Hwin Hst]. unfold Buz.HashByte. set (p := Buz.bufpos bh) in *. set (buf := Buz.buf bh) in *.
  assert (exists q ov, (if p =? Buz.bn bh then (true, 0) else (Buz.overflow bh, p)) = (ov, q) /\ 0 <= q < n /\
    lastn (Z.to_nat n) h = (if ov : bool then drop (Z.to_nat q) buf else []) ++ take (Z.to_nat q) buf /\
    (ov = false -> Zlength h = q) /\ (ov = true -> n <= Zlength h)) as (q & ov & -> & Hq & Hwin' & Hs' & Hf').
  { rewrite Hbn. destruct (Z.eqb_spec p n) as [Hpn|Hpn].
    - exists 0, true. split_and!; [done|lia|lia| |done|].
      + rewrite Hwin, Hpn. cbn. rewrite app_nil_r, (take_ge buf) by lia. destruct (Buz.overflow bh); [|done]. by rewrite drop_ge by lia.
      + intros _. destruct (Buz.overflow bh); [by apply Hfull|]. rewrite Hstart by done. lia.
    - exists p, (Buz.overflow bh). split_and!; try done; lia. }
  clear Hwin. assert (Z.to_nat q < length buf)%nat as Hqb by lia. destruct (lookup_lt_is_Some_2 buf (Z.to_nat q) Hqb) as [x Hx].
  destruct (rotate_buf buf (Z.to_nat q) x b Hx) as [Hold Hnew].
  assert (index buf q = Ok x) as Hix by (unfold index; rewrite (proj2 (Z.leb_le 0 q)), Hx by lia; done).
  assert (set_index buf q b = Ok (<[Z.to_nat q := b]> buf)) as Hset.
  { unfold set_index. rewrite (proj2 (Z.leb_le 0 q)), (proj2 (Z.ltb_lt q (Zlength buf))) by (unfold Zlength; lia). done. }
  assert (u32 (q + 1) = q + 1) as Hu by (apply u32_small; lia).
  assert (Z.to_nat (q + 1) = S (Z.to_nat q)) as Hn1 by lia.
  destruct ov.
  - rewrite Hix. cbn [obind]. rewrite Hset. cbn [obind]. eexists. split; [done|]. rewrite Hu.
    pose proof (Hf' eq_refl). rewrite Hold in Hwin'. pose proof (lastn_snoc (Z.to_nat n) h b _ _ ltac:(unfold Zlength in *; lia) Hwin') as Hwn.
    constructor; cbn; try done; try lia.
    + by rewrite length_insert.
    + intros _. rewrite Zlength_app. cbn. pose proof (Zlength_nonneg [b]). lia.
    + by rewrite Hn1, Hnew.
    + rewrite Hwn. rewrite Hsn, Hsm. apply slide_state; [|by rewrite Hst, Hwin'|].
      * rewrite Hst. by apply word_sum_from.
      * rewrite <- Hold. unfold Zlength. rewrite length_app, length_drop, length_take. lia.
  - cbn [obind]. rewrite Hset. cbn [obind]. eexists. split; [done|]. rewrite Hu. pose proof (Hs' eq_refl) as Hlh. cbn [app] in Hwin'.
    assert (lastn (Z.to_nat n) (h ++ [b]) = h ++ [b]) as Hl1 by (apply lastn_short; rewrite length_app; cbn; unfold Zlength in *; lia).
    assert (lastn (Z.to_nat n) h = h) as Hl0 by (apply lastn_short; unfold Zlength in *; lia). rewrite Hl0 in *.
    constructor; cbn; try done; try lia.
    + by rewrite length_insert.
    + intros _. rewrite Zlength_app. change (Zlength [b]) with 1. lia.
    + rewrite Hl1, Hn1, (take_S_r _ _ b) by (by apply list_lookup_insert_eq). rewrite take_insert_ge by lia. by rewrite <- Hwin'.
    + rewrite Hl1, Hst. unfold window_sum, sum_from. by rewrite foldl_app.
Qed.

(** Two streams with the same window have the same future. *)
Definition same_window (n : nat) (h k : list byte) : Prop :=
  h = k \/ ((n <= length h)%nat /\ (n <= length k)%nat /\ lastn n h = lastn n k).
Lemma same_window_refl n h : same_window n h h.
Proof. by left. Qed.
Lemma same_window_sym n h k : same_window n h k -> same_window n k h.
Proof. intros [->|(? & ? & ?)]; [by left|by right]. Qed.
Lemma same_window_trans n h k l : same_window n h k -> same_window n k l -> same_window n h l.
Proof. intros [->|(? & ? & Hhk)]; [done|]. intros [<-|(? & ? & ?)]; [by right|right]. split_and!; try done. by rewrite Hhk. Qed.
Lemma same_window_lastn n h k : same_window n h k -> lastn n h = lastn n k.
Proof. by intros [->|(_ & _ & ?)]. Qed.
(** The last [n] bytes decide. *)
Lemma same_window_suffix n h k l : (n <= length l)%nat -> same_window n (h ++ l) (k ++ l).
Proof. intros Hl. right. rewrite !length_app, !lastn_app by done. split_and!; [lia|lia|done]. Qed.
Lemma same_window_snoc n h k b : same_window n h k -> same_window n (h ++ [b]) (k ++ [b]).
Proof.
  intros [->|(Hh & Hk & Heq)]; [by left|right]. rewrite !length_app. split_and!; [lia|lia|].
  destruct n as [|n]; [by rewrite !lastn_app by (cbn; lia)|].
  destruct (lastn (S n) k) as [|x w] eqn:Hx; [apply (f_equal length) in Hx; unfold lastn in Hx; rewrite length_drop in Hx; cbn in Hx; lia|].
  by rewrite (lastn_snoc (S n) h b x w), (lastn_snoc (S n) k b x w).
Qed.
Lemma same_window_app n l : forall h k, same_window n h k -> same_window n (h ++ l) (k ++ l).
Proof.
  induction l as [|b l IH]; intros h k Hhk; [by rewrite !app_nil_r|].
  change (b :: l) with ([b] ++ l). rewrite !(app_assoc _ [b] l). by apply IH, same_window_snoc.
Qed.

Lemma hash_stream n l : 0 < n < 2 ^ 32 -> forall bh h, has_read n bh h -> exists bh', fold_w (fun b bh => Buz.HashByte bh b) l bh = Ok bh' /\ has_read n bh' (h ++ l).
Proof.
  intros Hn. induction l as [|b l IH]; intros bh h Hr; cbn [fold_w]; [exists bh; by rewrite app_nil_r|].
  destruct (HashByte_read n bh h b Hn Hr) as (bh1 & -> & Hr1). cbn [obind]. destruct (IH bh1 _ Hr1) as (bh2 & He & Hr2).
  exists bh2. split; [done|]. change (b :: l) with ([b] ++ l). by rewrite app_assoc.
Qed.

End BuzFacts.
Import BuzFacts.

(** C26: the hash is rolling.  After any stream of at least [n] bytes, the
    incremental hash with a window of [n] bytes is the hash of the last [n]
    bytes alone. *)
Theorem buzhash_rolling (n : Z) (l w : list byte) : 0 < n < 2 ^ 32 -> Zlength w = n ->
  exists bh bh', fold_w (fun b bh => Buz.HashByte bh b) (l ++ w) (Buz.NewBuzHash n) = Ok bh /\
    fold_w (fun b bh => Buz.HashByte bh b) w (Buz.NewBuzHash n) = Ok bh' /\ Buz.Sum32 bh = Buz.Sum32 bh'.
Proof.
  intros Hn Hw. destruct (hash_stream n (l ++ w) Hn _ [] (new_has_read n Hn)) as (bh & Hbh & Hr).
  destruct (hash_stream n w Hn _ [] (new_has_read n Hn)) as (bh' & Hbh' & Hr'). exists bh, bh'. split; [done|]. split; [done|].
  unfold Buz.Sum32. rewrite (hr_state _ _ _ Hr), (hr_state _ _ _ Hr'). cbn [app]. by rewrite lastn_app by (unfold Zlength in Hw; lia).
Qed.
Lemma buzhash_rolling_witness : exists bh bh', fold_w (fun b bh => Buz.HashByte bh b) (bs "abcdef" ++ bs "xyz") (Buz.NewBuzHash 3) = Ok bh /\
  fold_w (fun b bh => Buz.HashByte bh b) (bs "xyz") (Buz.NewBuzHash 3) = Ok bh' /\ Buz.Sum32 bh = Buz.Sum32 bh'.
Proof. apply (buzhash_rolling 3 (bs "abcdef") (bs "xyz")); done. Defined.

(** ** Facts about the hasher of values *)

Module RollingFacts.

Section facts.
Context `{chunkingConfig} (Hwin : 0 < chunkWindow < 2 ^ 32).
#[local] Abbreviation wn := (Z.to_nat chunkWindow).

(** Whether a byte of [l], read after [h], crosses a boundary. *)
Fixpoint crosses (h l : list byte) : bool :=
  match l with
  | [] => false
  | b :: l' => (Z.land (window_sum (lastn wn (h ++ [b]))) chunkPattern =? chunkPattern) || crosses (h ++ [b]) l'
  end.
Lemma crosses_window l : forall h k, same_window wn h k -> crosses h l = crosses k l.
Proof.
  induction l as [|b l IH]; intros h k Hhk; [done|]. cbn [crosses]. pose proof (same_window_snoc wn h k b Hhk) as Hs.
  by rewrite (same_window_lastn _ _ _ Hs), (IH _ _ Hs).
Qed.

(** The hasher has read [h] and counts and checks boundaries. *)
Record rv_read (rv : rollingValueHasher) (h : list byte) : Prop := MkRvRead {
  rr_bz : has_read chunkWindow (bz rv) h; rr_window : window rv = chunkWindow; rr_only : lengthOnly rv = false
}.
Lemma new_rv_read : rv_read newRollingValueHasher [].
Proof. constructor; [by apply new_has_read|done|done]. Qed.
Lemma clear_rv_read rv h : rv_read rv h -> rv_read (ClearLastBoundary rv) h.
Proof. by intros [? ? ?]. Qed.

Lemma rv_read_bytes l : forall rv h, rv_read rv h -> exists rv', rv_writeBytes rv l = Ok rv' /\ rv_read rv' (h ++ l) /\
  crossedBoundary rv' = crossedBoundary rv || crosses h l /\ bytesHashed rv' = match l with [] => bytesHashed rv | _ => u32 (bytesHashed rv + Zlength l) end.
Proof.
  induction l as [|b l IH]; intros rv h [Hb Hw Ho]; cbn [rv_writeBytes fold_w]; [exists rv; rewrite app_nil_r, orb_false_r; by split_and!|].
  unfold HashByte. rewrite Ho. destruct (HashByte_read _ _ _ b Hwin Hb) as (bz' & -> & Hb'). cbn [obind].
  match goal with |- exists _, fold_w _ _ ?r = _ /\ _ => destruct (IH r (h ++ [b])) as (rv' & He & Hr & Hc & Hn) end; [by constructor|].
  exists rv'. split; [exact He|]. change (b :: l) with ([b] ++ l). rewrite app_assoc. split; [done|]. rewrite Hc, Hn. cbn [crossedBoundary bytesHashed app crosses].
  unfold Buz.Sum32. rewrite (hr_state _ _ _ Hb'), orb_assoc. split; [done|]. destruct l as [|b' l]; [done|]. rewrite !Zlength_cons. unfold u32. rewrite Zplus_mod_idemp_l. f_equal. lia.
Qed.
(** Counting only. *)
Lemma rv_count_bytes l : forall rv, lengthOnly rv = true -> exists rv', rv_writeBytes rv l = Ok rv' /\ bz rv' = bz rv /\
  window rv' = window rv /\ lengthOnly rv' = true /\ bytesHashed rv' = match l with [] => bytesHashed rv | _ => u32 (bytesHashed rv + Zlength l) end.
Proof.
  induction l as [|b l IH]; intros rv Ho; cbn [rv_writeBytes fold_w]; [by exists rv|]. unfold HashByte. rewrite Ho. cbn [obind].
  match goal with |- exists _, fold_w _ _ ?r = _ /\ _ => destruct (IH r) as (rv' & He & Hb & Hw & Ho' & Hn) end; [done|].
  exists rv'. split_and!; try done. rewrite Hn. cbn [bytesHashed]. destruct l as [|b' l]; [done|]. rewrite !Zlength_cons. unfold u32. rewrite Zplus_mod_idemp_l. f_equal. lia.
Qed.

End facts.

End RollingFacts.
