(* ===== verification/Sequences.v ===== *)
(** * Package [types]: sequences, cursors and the chunker

    (src/go/types/sequence.go, sequence_cursor.go, sequence_chunker.go,
    sequence_concat.go, meta_sequence.go, indexed_sequences.go, leaf_sequence.go,
    ref.go)

    A collection is a tree: a sequence of items is cut into chunks where the
    rolling hash of its items says so, and the references to the chunks are the
    items of the next level, up to a level of one chunk.  A cursor is the path
    from a leaf to the root; a chunker has one level per level of the tree it
    builds.  Cursors own their parents ([clone] copies the path), so a cursor is
    the list of its levels, leaf first, and so is a chunker.  Read-ahead only
    loads sequences earlier and is left out. *)

From S2P Require Import Prelude GoLib HashPkg TypesCodec TypesType TypesValue RollingHash.
Import Hash Float64 Codec NomsKinds TypeCache Values Rolling.

Module Sequences.

(** ** sequence.go and the sequences *)

Inductive sequenceItem : Type :=
| VItem (v : Value)
| BItem (b : byte)
| EItem (key value : Value)
| MItem (mt : metaTuple).

Definition mt_ref (mt : metaTuple) : RefData := match mt with MkMetaTuple ref _ _ _ => ref end.
Definition mt_key (mt : metaTuple) : orderedKey := match mt with MkMetaTuple _ key _ _ => key end.
Definition mt_numLeaves (mt : metaTuple) : Z := match mt with MkMetaTuple _ _ n _ => n end.
Definition mt_child (mt : metaTuple) : option Value := match mt with MkMetaTuple _ _ _ child => child end.

Definition seq_items (seq : sequence) : list sequenceItem :=
  match seq with
  | blobLeafSequence data => map BItem data
  | listLeafSequence _ values => map VItem values
  | setLeafSequence _ data => map VItem data
  | mapLeafSequence _ data => map (fun e => EItem e.1 e.2) data
  | metaSequence _ tuples => map MItem tuples
  end.
Definition getItem (seq : sequence) (idx : Z) : outcome sequenceItem := index (seq_items seq) idx.
Definition seqLen (seq : sequence) : Z := Zlength (seq_items seq).
Definition cumulativeNumberOfLeaves (tuples : list metaTuple) : Z := foldl (fun cum mt => u64 (cum + mt_numLeaves mt)) 0 tuples.
Definition numLeaves (seq : sequence) : Z :=
  match seq with metaSequence _ tuples => cumulativeNumberOfLeaves tuples | _ => seqLen seq end.
Definition isMetaSequence (seq : sequence) : bool := match seq with metaSequence _ _ => true | _ => false end.

(** [v.(Collection).sequence()]. *)
Definition sequence_of (v : Value) : outcome sequence :=
  match v with Blob seq | List seq | Map seq | Set_ seq => Ok seq | _ => Panic AssertFailed end.

(** [WalkRefs]: the references of a value, in order. *)
Fixpoint WalkRefs (v : Value) : list RefData :=
  match v with
  | Blob seq | List seq | Map seq | Set_ seq =>
      match seq with
      | blobLeafSequence _ => []
      | listLeafSequence _ values => flat_map WalkRefs values
      | setLeafSequence _ data => flat_map WalkRefs data
      | mapLeafSequence _ data => flat_map (fun e => WalkRefs e.1 ++ WalkRefs e.2) data
      | metaSequence _ tuples => map mt_ref tuples
      end
  | Struct values _ => flat_map WalkRefs values
  | Ref r => [r]
  | _ => []
  end.
Definition maxChunkHeight (v : Value) : Z := foldl (fun m r => if m <? height r then height r else m) 0 (WalkRefs v).
Definition NewRef (v : Value) (w : world) : outcome (RefData * world) :=
  let! (h, w) := getHash v w in
  let! (t, w) := MakeRefType (Type_of v) w in
  Ok (MkRef h (u64 (maxChunkHeight v + 1)) t, w).

Definition orderedKeyFromInt (n : Z) (w : world) : outcome (orderedKey * world) := newOrderedKey (Number (of_int n)) w.
Definition orderedKeyFromUint64 (n : Z) (w : world) : outcome (orderedKey * world) := newOrderedKey (Number (of_int n)) w.

(** The path from a leaf to the root, leaf first. *)
Record level : Type := MkLevel { l_seq : sequence; l_idx : Z }.
Abbreviation sequenceCursor := (list level).

Section reader.
(** The [ValueReader] of the sequences; [None] is nil. *)
Context (vr : option (Hash -> option Value)).

Definition TargetValue (r : RefData) : outcome (option Value) :=
  match vr with Some ReadValue => Ok (ReadValue (target r)) | None => Panic NilDereference end.
Definition mt_getChildSequence (mt : metaTuple) : outcome sequence :=
  match mt_child mt with
  | Some child => sequence_of child
  | None => let! v := TargetValue (mt_ref mt) in match v with Some v => sequence_of v | None => Panic AssertFailed end
  end.
(** [None] is the nil of the leaf sequences. *)
Definition getChildSequence (seq : sequence) (idx : Z) : outcome (option sequence) :=
  match seq with
  | metaSequence _ tuples => let! mt := index tuples idx in let! s := mt_getChildSequence mt in Ok (Some s)
  | _ => Ok None
  end.

(** ** sequence_cursor.go *)

Definition newSequenceCursor (parent : sequenceCursor) (seq : sequence) (idx : Z) : outcome sequenceCursor :=
  let! idx := if idx <? 0 then let idx := idx + seqLen seq in let! _ := check (0 <=? idx) in Ok idx else Ok idx in
  Ok (MkLevel seq idx :: parent).
Definition valid (cur : sequenceCursor) : bool :=
  match cur with MkLevel seq idx :: _ => (0 <=? idx) && (idx <? seqLen seq) | [] => false end.
Definition cur_current (cur : sequenceCursor) : outcome sequenceItem :=
  match cur with
  | MkLevel seq idx :: _ => let! _ := check (valid cur) in getItem seq idx
  | [] => Panic NilDereference
  end.
Definition cur_getChildSequence (cur : sequenceCursor) : outcome (option sequence) :=
  match cur with MkLevel seq idx :: _ => getChildSequence seq idx | [] => Panic NilDereference end.
Definition indexInChunk (cur : sequenceCursor) : Z := match cur with MkLevel _ idx :: _ => idx | [] => 0 end.
Definition cur_length (cur : sequenceCursor) : Z := match cur with MkLevel seq _ :: _ => seqLen seq | [] => 0 end.
Definition depth (cur : sequenceCursor) : Z := Zlength cur.
(** The sequence that the parent points to. *)
Definition sync (parent : sequenceCursor) : outcome sequence :=
  let! s := cur_getChildSequence parent in match s with Some s => Ok s | None => Panic NilDereference end.

Fixpoint advanceMaybeAllowPastEnd (cur : sequenceCursor) (allowPastEnd : bool) : outcome (bool * sequenceCursor) :=
  match cur with
  | [] => Panic NilDereference
  | MkLevel seq idx :: parent =>
      if idx <? seqLen seq - 1 then Ok (true, MkLevel seq (idx + 1) :: parent)
      else if idx =? seqLen seq then Ok (false, cur)
      else
        let! (moved, parent) := match parent with [] => Ok (false, []) | _ => advanceMaybeAllowPastEnd parent false end in
        if moved : bool then let! seq := sync parent in Ok (true, MkLevel seq 0 :: parent)
        else Ok (false, MkLevel seq (if allowPastEnd then idx + 1 else idx) :: parent)
  end.
Definition advance (cur : sequenceCursor) : outcome (bool * sequenceCursor) := advanceMaybeAllowPastEnd cur true.

Fixpoint retreatMaybeAllowBeforeStart (cur : sequenceCursor) (allowBeforeStart : bool) : outcome (bool * sequenceCursor) :=
  match cur with
  | [] => Panic NilDereference
  | MkLevel seq idx :: parent =>
      if 0 <? idx then Ok (true, MkLevel seq (idx - 1) :: parent)
      else if idx =? -1 then Ok (false, cur)
      else
        let! _ := check (0 =? idx) in
        let! (moved, parent) := match parent with [] => Ok (false, []) | _ => retreatMaybeAllowBeforeStart parent false end in
        if moved : bool then let! seq := sync parent in Ok (true, MkLevel seq (seqLen seq - 1) :: parent)
        else Ok (false, MkLevel seq (if allowBeforeStart then idx - 1 else idx) :: parent)
  end.
Definition retreat (cur : sequenceCursor) : outcome (bool * sequenceCursor) := retreatMaybeAllowBeforeStart cur true.

(** ** Positions (indexed_sequences.go) *)

(** Advances over the tuples that end before [idx]. *)
Fixpoint tuples_before (tuples : list metaTuple) (i cum idx : Z) : Z * Z :=
  match tuples with
  | mt :: (_ :: _) as tuples' =>
      if u64 (cum + mt_numLeaves mt) <=? idx then tuples_before tuples' (i + 1) (u64 (cum + mt_numLeaves mt)) idx else (i, cum)
  | _ => (i, cum)
  end.
(** The cursor and the number of leaves before it. *)
Definition advanceCursorToOffset (cur : level) (idx : Z) : level * Z :=
  match l_seq cur with
  | metaSequence _ tuples => let '(i, cum) := tuples_before tuples 0 0 idx in (MkLevel (l_seq cur) i, cum)
  | seq => let i := if seqLen seq <? s64 idx then seqLen seq else s64 idx in (MkLevel seq i, u64 i)
  end.
Fixpoint newCursorAtIndex_loop (fuel : nat) (cur : sequenceCursor) (seq : sequence) (idx : Z) : outcome sequenceCursor :=
  match fuel with
  | O => Panic OutOfFuel
  | S fuel' =>
      let '(l, n) := advanceCursorToOffset (MkLevel seq 0) idx in
      let cur := l :: cur in
      let! cs := cur_getChildSequence cur in
      match cs with None => Ok cur | Some seq => newCursorAtIndex_loop fuel' cur seq (u64 (idx - n)) end
  end.
Definition newCursorAtIndex (fuel : nat) (seq : sequence) (idx : Z) : outcome sequenceCursor := newCursorAtIndex_loop fuel [] seq idx.

(** [iterSequence] with a callback that collects the items. *)
Fixpoint iterSequence (fuel : nat) (cur : sequenceCursor) : outcome (list sequenceItem) :=
  match fuel with
  | O => Panic OutOfFuel
  | S fuel' =>
      if valid cur then
        let! item := cur_current cur in
        let! (_, cur) := advance cur in
        let! items := iterSequence fuel' cur in
        Ok (item :: items)
      else Ok []
  end.

(** [sequenceIterator.advance]: whether there is more, and the cursor. *)
Fixpoint si_advance (n : nat) (cur : sequenceCursor) : outcome (bool * sequenceCursor) :=
  match n with
  | O => Ok (valid cur, cur)
  | S n' => let! (moved, cur) := advance cur in if moved : bool then si_advance n' cur else Ok (valid cur, cur)
  end.

End reader.

End Sequences.
