(* ===== verification/Chunker.v ===== *)
(** * Package [types]: the chunker (src/go/types/sequence_chunker.go,
      sequence_concat.go and the chunk functions of meta_sequence.go,
      indexed_sequences.go and list.go)

    A chunker collects items, ends a chunk where the rolling hash of the items
    crosses a boundary, and hands a tuple for the chunk to its parent, the
    chunker of the next level.  A chunker with a cursor edits an existing
    sequence: it resumes the state that chunking the items before the cursor
    would have left, and [Done] takes over the chunks behind the cursor as soon
    as they cannot change any more. *)

From S2P Require Import Prelude GoLib HashPkg TypesCodec TypesType TypesValue RollingHash Sequences.
Import Hash Float64 Codec NomsKinds TypeCache Values Rolling Sequences.

Module Chunker.

(** The type cache and the values given to the [ValueWriter], in order. *)
Record cstate : Type := MkState { st_tc : world; st_log : list Value }.
Definition set_tc (st : cstate) (w : world) : cstate := MkState w (st_log st).

(** One level; [sc_cur] is the cursor or nil. *)
Record chunker : Type := MkSc {
  sc_cur : option sequenceCursor; current : list sequenceItem; sc_rv : rollingValueHasher; sc_done : bool
}.
(** A chunker and its parents. *)
Abbreviation sequenceChunker := (list chunker).
Definition makeChunkFn : Type := list sequenceItem -> world -> outcome (Value * orderedKey * Z * world).
Definition hashValueBytesFn : Type := sequenceItem -> rollingValueHasher * world -> outcome (rollingValueHasher * world).

Definition hashValueBytes `{chunkingConfig} : hashValueBytesFn := fun item s =>
  match item with VItem v => HashValue v s | _ => Panic AssertFailed end.
Definition hashValueByte `{chunkingConfig} : hashValueBytesFn := fun item s =>
  match item with BItem b => let! rv := HashByte s.1 b in Ok (rv, s.2) | _ => Panic AssertFailed end.
Definition mapHashValueBytes `{chunkingConfig} : hashValueBytesFn := fun item s =>
  match item with EItem k v => let! s := HashValue k s in HashValue v s | _ => Panic AssertFailed end.
(** meta_sequence.go: the reference, then the key or a reference with its hash. *)
Definition metaHashValueBytes `{chunkingConfig} : hashValueBytesFn := fun item s =>
  match item with
  | MItem (MkMetaTuple ref (MkKey isOrderedByValue v h) _ _) =>
      if isOrderedByValue then
        let! s := HashValue (Ref ref) s in
        match v with Some v => HashValue v s | None => Panic NilDereference end
      else
        let! _ := check (negb (IsEmpty h)) in
        let! (t, w) := MakeRefType BoolType s.2 in
        let! k := constructRef w t h 0 in
        let! s := HashValue (Ref ref) (s.1, w) in
        HashValue (Ref k) s
  | _ => Panic AssertFailed
  end.

Section chunker.
Context `{chunkingConfig}.
Context (vr : option (Hash -> option Value)) (vw : bool).
Context (makeChunk parentMakeChunk : makeChunkFn) (leafHash : hashValueBytesFn).

(** What depends on the level: all chunkers but the first are made by
    [createParent]. *)
Definition level_hash (isLeaf : bool) : hashValueBytesFn := if isLeaf then leafHash else metaHashValueBytes.
Definition level_makeChunk (isLeaf : bool) : makeChunkFn := if isLeaf then makeChunk else parentMakeChunk.

Definition set_current (c : chunker) (items : list sequenceItem) : chunker := MkSc (sc_cur c) items (sc_rv c) (sc_done c).
Definition set_cur (c : chunker) (cur : option sequenceCursor) : chunker := MkSc cur (current c) (sc_rv c) (sc_done c).
Definition set_rv (c : chunker) (rv : rollingValueHasher) : chunker := MkSc (sc_cur c) (current c) rv (sc_done c).
Definition new_chunker (cur : option sequenceCursor) : chunker := MkSc cur [] newRollingValueHasher false.

(** [sc.hashValueBytes(item, sc.rv)]. *)
Definition hash_item (isLeaf : bool) (item : sequenceItem) (rv : rollingValueHasher) (st : cstate) : outcome (rollingValueHasher * cstate) :=
  let! (rv, w) := level_hash isLeaf item (rv, st_tc st) in Ok (rv, set_tc st w).

Definition createSequence (isLeaf : bool) (c : chunker) (st : cstate) : outcome (sequence * metaTuple * chunker * cstate) :=
  let! (col, key, numLeaves, w) := level_makeChunk isLeaf (current c) (st_tc st) in
  let! seq := sequence_of col in
  let! (ref, w) := NewRef col w in
  let log := if vw then st_log st ++ [col] else st_log st in
  let child := if vw then None else Some col in
  Ok (seq, MkMetaTuple ref key numLeaves child, set_current c [], MkState w log).

(** ** Walking back over the items that prime the hash *)

(** In the chunk of the cursor: counts the items to append and to hash. *)
Fixpoint walk_in_chunk (n : nat) (isLeaf : bool) (cur : sequenceCursor) (rv : rollingValueHasher) (st : cstate) (primeHashBytes : Z) (appendCount primeHashCount : nat)
    : outcome (sequenceCursor * rollingValueHasher * cstate * Z * nat * nat) :=
  match n with
  | O => Panic OutOfFuel
  | S n' =>
      if 0 <? indexInChunk cur then
        let! (moved, cur) := retreatMaybeAllowBeforeStart vr cur false in
        if moved : bool then
          if 0 <? primeHashBytes then
            let! item := cur_current cur in
            let! (rv, st) := hash_item isLeaf item (ClearLastBoundary rv) st in
            walk_in_chunk n' isLeaf cur rv st (primeHashBytes - bytesHashed rv) (S appendCount) (S primeHashCount)
          else walk_in_chunk n' isLeaf cur rv st primeHashBytes (S appendCount) primeHashCount
        else Ok (cur, rv, st, primeHashBytes, appendCount, primeHashCount)
      else Ok (cur, rv, st, primeHashBytes, appendCount, primeHashCount)
  end.
(** Before the chunk, as long as the window is not filled. *)
Fixpoint walk_before (n : nat) (isLeaf : bool) (cur : sequenceCursor) (rv : rollingValueHasher) (st : cstate) (primeHashBytes : Z) (primeHashCount : nat)
    : outcome (sequenceCursor * rollingValueHasher * cstate * nat) :=
  match n with
  | O => Panic OutOfFuel
  | S n' =>
      if 0 <? primeHashBytes then
        let! (moved, cur) := retreatMaybeAllowBeforeStart vr cur false in
        if moved : bool then
          let! item := cur_current cur in
          let! (rv, st) := hash_item isLeaf item (ClearLastBoundary rv) st in
          walk_before n' isLeaf cur rv st (primeHashBytes - bytesHashed rv) (S primeHashCount)
        else Ok (cur, rv, st, primeHashCount)
      else Ok (cur, rv, st, primeHashCount)
  end.

(** Forward again: hash the items in the window and append those of the chunk.
    [boundary] is [handleChunkBoundary]. *)
Fixpoint prime (n : nat) (boundary : sequenceChunker -> cstate -> outcome (sequenceChunker * cstate)) (isLeaf cursorBeyondFinal : bool)
    (appendCount primeHashCount : nat) (sc : sequenceChunker) (st : cstate) : outcome (sequenceChunker * cstate) :=
  match n with
  | O => Panic OutOfFuel
  | S n' =>
      if Nat.eqb primeHashCount 0 && Nat.eqb appendCount 0 then Ok (sc, st)
      else
        match sc with
        | [] => Panic NilDereference
        | c :: parents =>
            match sc_cur c with
            | None => Panic NilDereference
            | Some cur =>
                let! item := cur_current cur in
                let! (_, cur) := advance vr cur in
                let c := set_cur c (Some cur) in
                if Nat.ltb appendCount primeHashCount then
                  let! (rv, st) := hash_item isLeaf item (sc_rv c) st in
                  prime n' boundary isLeaf cursorBeyondFinal appendCount (pred primeHashCount) (set_rv c rv :: parents) st
                else if Nat.ltb primeHashCount appendCount then
                  prime n' boundary isLeaf cursorBeyondFinal (pred appendCount) primeHashCount (set_current c (current c ++ [item]) :: parents) st
                else
                  let! (rv, st) := hash_item isLeaf item (ClearLastBoundary (sc_rv c)) st in
                  let c := set_current (set_rv c rv) (current c ++ [item]) in
                  let! (sc, st) :=
                    if crossedBoundary rv && cursorBeyondFinal && Nat.eqb appendCount 1 then boundary (c :: parents) st else Ok (c :: parents, st) in
                  prime n' boundary isLeaf cursorBeyondFinal (pred appendCount) (pred primeHashCount) sc st
            end
        end
  end.

(** ** Appending and resuming

    The recursion goes up the levels. *)

Fixpoint Append (fuel : nat) (isLeaf : bool) (sc : sequenceChunker) (item : sequenceItem) (st : cstate) {struct fuel} : outcome (sequenceChunker * cstate) :=
  match fuel with
  | O => Panic OutOfFuel
  | S fuel' =>
      match sc with
      | [] => Panic NilDereference
      | c :: parents =>
          let! (rv, st) := hash_item isLeaf item (ClearLastBoundary (sc_rv c)) st in
          let c := set_rv (set_current c (current c ++ [item])) rv in
          if crossedBoundary rv then handleChunkBoundary fuel' isLeaf (c :: parents) st else Ok (c :: parents, st)
      end
  end
with handleChunkBoundary (fuel : nat) (isLeaf : bool) (sc : sequenceChunker) (st : cstate) {struct fuel} : outcome (sequenceChunker * cstate) :=
  match fuel with
  | O => Panic OutOfFuel
  | S fuel' =>
      match sc with
      | [] => Panic NilDereference
      | c :: parents =>
          let! _ := check (negb (Nat.eqb (length (current c)) 0)) in
          let! (_, mt, c, st) := createSequence isLeaf c st in
          let! (parents, st) := match parents with [] => createParent fuel' c st | _ => Ok (parents, st) end in
          let! (parents, st) := Append fuel' false parents (MItem mt) st in
          Ok (c :: parents, st)
      end
  end
with createParent (fuel : nat) (c : chunker) (st : cstate) {struct fuel} : outcome (sequenceChunker * cstate) :=
  match fuel with
  | O => Panic OutOfFuel
  | S fuel' =>
      match sc_cur c with
      | Some (_ :: (_ :: _) as parent) => resume fuel' false parent st
      | _ => Ok ([new_chunker None], st)
      end
  end
with resume (fuel : nat) (isLeaf : bool) (cur : sequenceCursor) (st : cstate) {struct fuel} : outcome (sequenceChunker * cstate) :=
  match fuel with
  | O => Panic OutOfFuel
  | S fuel' =>
      let c := new_chunker (Some cur) in
      let! (parents, st) := match cur with _ :: _ :: _ => createParent fuel' c st | _ => Ok ([], st) end in
      let cursorBeyondFinal := indexInChunk cur =? cur_length cur in
      let! (cur, k) :=
        if cursorBeyondFinal then
          let! (moved, cur) := retreatMaybeAllowBeforeStart vr cur false in Ok (cur, if moved : bool then 1%nat else O)
        else Ok (cur, O) in
      let rv := set_lengthOnly (sc_rv c) true in
      let! (cur, rv, st, primeHashBytes, appendCount, primeHashCount) :=
        walk_in_chunk (S (Z.to_nat (indexInChunk cur))) isLeaf cur rv st (window rv) k k in
      let! (cur, rv, st, primeHashCount) := walk_before fuel' isLeaf cur rv st primeHashBytes primeHashCount in
      let c := MkSc (Some cur) [] (set_lengthOnly rv false) false in
      prime (S (appendCount + primeHashCount)) (handleChunkBoundary fuel' isLeaf) isLeaf cursorBeyondFinal appendCount primeHashCount (c :: parents) st
  end.

Definition newSequenceChunker (fuel : nat) (cur : option sequenceCursor) (st : cstate) : outcome (sequenceChunker * cstate) :=
  match cur with Some cur => resume fuel true cur st | None => Ok ([new_chunker None], st) end.
Definition newEmptySequenceChunker (fuel : nat) (st : cstate) : outcome (sequenceChunker * cstate) := newSequenceChunker fuel None st.

(** ** Skipping items of the edited sequence *)

Fixpoint Skip (sc : sequenceChunker) : outcome sequenceChunker :=
  match sc with
  | [] => Panic NilDereference
  | c :: parents =>
      match sc_cur c with
      | None => Panic NilDereference
      | Some cur =>
          let! (moved, cur) := advance vr cur in
          let c := set_cur c (Some cur) in
          if moved && (indexInChunk cur =? 0) then
            match parents with
            | p :: _ => match sc_cur p with Some _ => let! parents := Skip parents in Ok (c :: parents) | None => Ok (c :: parents) end
            | [] => Ok (c :: parents)
            end
          else Ok (c :: parents)
      end
  end.
Definition skipParentIfExists (parents : sequenceChunker) : outcome sequenceChunker :=
  match parents with
  | p :: _ => match sc_cur p with Some _ => Skip parents | None => Ok parents end
  | [] => Ok parents
  end.

(** ** The end of the sequence *)

Fixpoint anyPending (sc : sequenceChunker) : bool :=
  match sc with [] => false | c :: parents => negb (Nat.eqb (length (current c)) 0) || anyPending parents end.

(** The loop of [finalizeCursor]; [first] is [i == 0]. *)
Fixpoint finalize_loop (n fuel : nat) (isLeaf first : bool) (hashWindow : Z) (isBoundary : bool) (sc : sequenceChunker) (st : cstate)
    : outcome (sequenceChunker * cstate) :=
  match n with
  | O => Panic OutOfFuel
  | S n' =>
      match sc with
      | [] => Panic NilDereference
      | c :: parents =>
          match sc_cur c with
          | None => Panic NilDereference
          | Some cur =>
              if valid cur && ((0 <? hashWindow) || (0 <? indexInChunk cur) || negb isBoundary) then
                let! parents := if first || (indexInChunk cur =? 0) then skipParentIfExists parents else Ok parents in
                let! item := cur_current cur in
                let! (_, cur) := advance vr cur in
                let c := set_cur (set_current c (current c ++ [item])) (Some cur) in
                let! (c, st, hashWindow, isBoundary) :=
                  if 0 <? hashWindow then
                    let! (rv, st) := hash_item isLeaf item (ClearLastBoundary (sc_rv c)) st in
                    Ok (set_rv c rv, st, hashWindow - bytesHashed rv, crossedBoundary rv)
                  else Ok (c, st, hashWindow, indexInChunk cur =? 0) in
                let! (sc, st) := if isBoundary : bool then handleChunkBoundary fuel isLeaf (c :: parents) st else Ok (c :: parents, st) in
                finalize_loop n' fuel isLeaf false hashWindow isBoundary sc st
              else Ok (sc, st)
          end
      end
  end.
Definition finalizeCursor (fuel : nat) (isLeaf : bool) (sc : sequenceChunker) (st : cstate) : outcome (sequenceChunker * cstate) :=
  match sc with
  | [] => Panic NilDereference
  | c :: parents =>
      match sc_cur c with
      | None => Panic NilDereference
      | Some cur =>
          if valid cur then finalize_loop fuel fuel isLeaf true (window (sc_rv c)) (Nat.eqb (length (current c)) 0) sc st
          else let! parents := skipParentIfExists parents in Ok (c :: parents, st)
      end
  end.

(** Down from a tuple to a leaf or to more than one tuple. *)
Fixpoint canonical_root (fuel : nat) (mt : metaTuple) : outcome sequence :=
  match fuel with
  | O => Panic OutOfFuel
  | S fuel' =>
      let! child := mt_getChildSequence vr mt in
      match child with
      | metaSequence _ tuples => if 1 <? Zlength tuples then Ok child else let! mt := index tuples 0 in canonical_root fuel' mt
      | _ => Ok child
      end
  end.

Fixpoint Done (fuel : nat) (isLeaf : bool) (sc : sequenceChunker) (st : cstate) : outcome (sequence * cstate) :=
  match fuel with
  | O => Panic OutOfFuel
  | S fuel' =>
      match sc with
      | [] => Panic NilDereference
      | c :: parents =>
          let! _ := check (negb (sc_done c)) in
          let sc := MkSc (sc_cur c) (current c) (sc_rv c) true :: parents in
          let! (sc, st) := match sc_cur c with Some _ => finalizeCursor fuel' isLeaf sc st | None => Ok (sc, st) end in
          match sc with
          | [] => Panic NilDereference
          | c :: parents =>
              if anyPending parents then
                let! (sc, st) := if negb (Nat.eqb (length (current c)) 0) then handleChunkBoundary fuel' isLeaf sc st else Ok (sc, st) in
                Done fuel' false (tail sc) st
              else if isLeaf || Nat.ltb 1 (length (current c)) then
                let! (seq, _, _, st) := createSequence isLeaf c st in Ok (seq, st)
              else
                match current c with
                | [MItem mt] => let! seq := canonical_root fuel' mt in Ok (seq, st)
                | _ => Panic AssertFailed
                end
          end
      end
  end.

(** ** Appending all items, skipping a number of items *)

Fixpoint append_all (fuel : nat) (sc : sequenceChunker) (items : list sequenceItem) (st : cstate) : outcome (sequenceChunker * cstate) :=
  match items with
  | [] => Ok (sc, st)
  | item :: items' => let! (sc, st) := Append fuel true sc item st in append_all fuel sc items' st
  end.
Fixpoint skip_n (n : nat) (sc : sequenceChunker) : outcome sequenceChunker :=
  match n with O => Ok sc | S n' => let! sc := Skip sc in skip_n n' sc end.

(** ** sequence_concat.go *)

(** The loop of [concat]: every level of the chunker gets the cursor of the second
    sequence in place of its own. *)
Fixpoint swap_cursors (fuel : nat) (cur : sequenceCursor) (sc : sequenceChunker) (st : cstate) : outcome (sequenceChunker * cstate) :=
  match cur with
  | [] => Ok (sc, st)
  | _ :: parent =>
      match sc with
      | [] => Panic NilDereference
      | c :: parents =>
          let! (parents, st) := match parents with [] => createParent fuel c st | _ => Ok (parents, st) end in
          let! (parents, st) := swap_cursors fuel parent parents st in
          Ok (set_cur c (Some cur) :: parents, st)
      end
  end.
(** [concat]; both sequences have the reader [vr]. *)
Definition concat_sequences (fuel : nat) (fst_ snd_ : sequence) (st : cstate) : outcome (sequence * cstate) :=
  if numLeaves fst_ =? 0 then Ok (snd_, st)
  else if numLeaves snd_ =? 0 then Ok (fst_, st)
  else
    let! cur := newCursorAtIndex vr fuel fst_ (numLeaves fst_) in
    let! (sc, st) := newSequenceChunker fuel (Some cur) st in
    let! cur := newCursorAtIndex vr fuel snd_ 0 in
    let! (sc, st) := swap_cursors fuel cur sc st in
    Done fuel true sc st.

End chunker.

End Chunker.
