(* ===== verification/Lists.v ===== *)
(** * Package [types]: lists (src/go/types/list.go, list_leaf_sequence.go,
      indexed_sequences.go, sequence_concat.go)

    Lists are built by the chunker from their values and edited by resuming it at
    a cursor. *)

From S2P Require Import Prelude GoLib HashPkg TypesCodec TypesType TypesValue RollingHash Sequences Chunker.
Import Hash Float64 Codec NomsKinds TypeCache Values Rolling Sequences Chunker.

Module Lists.

Section lists.
Context `{GoSort} `{chunkingConfig}.

(** [item.(Value)] and [item.(metaTuple)] of all items. *)
Definition as_value (item : sequenceItem) : outcome Value := match item with VItem v => Ok v | _ => Panic AssertFailed end.
Definition as_tuple (item : sequenceItem) : outcome metaTuple := match item with MItem mt => Ok mt | _ => Panic AssertFailed end.
Fixpoint all_ok {A B} (f : A -> outcome B) (l : list A) : outcome (list B) :=
  match l with [] => Ok [] | a :: l' => let! b := f a in let! bs := all_ok f l' in Ok (b :: bs) end.

Definition newListLeafSequence (v : list Value) (w : world) : outcome (sequence * world) :=
  let! (u, w) := MakeUnionType (Type_of <$> v) w in
  let! (t, w) := MakeListType u w in
  Ok (listLeafSequence t v, w).
Definition makeListLeafChunkFn : makeChunkFn := fun items w =>
  let! values := all_ok as_value items in
  let! (seq, w) := newListLeafSequence values w in
  let! (key, w) := orderedKeyFromInt (Zlength values) w in
  Ok (List seq, key, u64 (Zlength values), w).

(** [desc.ElemTypes[0]] of a compound type. *)
Definition elem_type (w : world) (t : ptr) : outcome ptr :=
  let! T := get_type w t in
  match Desc T with CompoundDesc _ ElemTypes => index ElemTypes 0 | _ => Panic AssertFailed end.
Definition newListMetaSequence (tuples : list metaTuple) (w : world) : outcome (sequence * world) :=
  let! ts := all_ok (fun mt => let! t := elem_type w (ref_t (mt_ref mt)) in elem_type w t) tuples in
  let! (u, w) := MakeUnionType ts w in
  let! (t, w) := MakeListType u w in
  Ok (metaSequence t tuples, w).
Definition newBlobMetaSequence (tuples : list metaTuple) (w : world) : outcome (sequence * world) := Ok (metaSequence BlobType tuples, w).
Definition orderedKeyFromSum (msd : list metaTuple) (w : world) : outcome (orderedKey * world) := orderedKeyFromUint64 (cumulativeNumberOfLeaves msd) w.
Definition newIndexedMetaSequenceChunkFn (kind : NomsKind) : makeChunkFn := fun items w =>
  let! tuples := all_ok as_tuple items in
  let! (col, w) :=
    match kind with
    | ListKind => let! (seq, w) := newListMetaSequence tuples w in Ok (List seq, w)
    | BlobKind => let! (seq, w) := newBlobMetaSequence tuples w in Ok (Blob seq, w)
    | _ => Panic AssertFailed
    end in
  let! (key, w) := orderedKeyFromSum tuples w in
  Ok (col, key, cumulativeNumberOfLeaves tuples, w).

Section operations.
Context (vr : option (Hash -> option Value)) (fuel : nat).

Definition list_append_all (vw : bool) (ch : sequenceChunker) (values : list Value) (st : cstate) : outcome (sequenceChunker * cstate) :=
  append_all vr vw makeListLeafChunkFn (newIndexedMetaSequenceChunkFn ListKind) hashValueBytes fuel ch (map VItem values) st.
Definition list_Done (vw : bool) := Done vr vw makeListLeafChunkFn (newIndexedMetaSequenceChunkFn ListKind) hashValueBytes fuel true.
(** [l.newChunker(cur, vr)]. *)
Definition newChunker (cur : option sequenceCursor) (st : cstate) : outcome (sequenceChunker * cstate) :=
  newSequenceChunker vr false makeListLeafChunkFn (newIndexedMetaSequenceChunkFn ListKind) hashValueBytes fuel cur st.

(** [NewList] for [vw = false], and [NewStreamingList] with the values of its
    channel for [vw = true]. *)
Definition build_list (vw : bool) (values : list Value) (st : cstate) : outcome (Value * cstate) :=
  let! (ch, st) := list_append_all vw [new_chunker None] values st in
  let! (seq, st) := list_Done vw ch st in
  Ok (List seq, st).
Definition NewList (values : list Value) (w : world) : outcome (Value * world) :=
  let! (l, st) := build_list false values (MkState w []) in Ok (l, st_tc st).
Definition NewStreamingList (values : list Value) (st : cstate) : outcome (Value * cstate) := build_list true values st.

Definition list_seq (l : Value) : outcome sequence := match l with List seq => Ok seq | _ => Panic AssertFailed end.
Definition Len (l : Value) : outcome Z := let! seq := list_seq l in Ok (numLeaves seq).
Definition Empty (l : Value) : outcome bool := let! n := Len l in Ok (n =? 0).
Definition Get (l : Value) (idx : Z) : outcome Value :=
  let! n := Len l in
  let! _ := check (idx <? n) in
  let! seq := list_seq l in
  let! cur := newCursorAtIndex vr fuel seq idx in
  let! item := cur_current cur in
  as_value item.
(** [IterAll] with a callback that collects the values. *)
Definition IterAll (l : Value) : outcome (list Value) :=
  let! seq := list_seq l in
  let! cur := newCursorAtIndex vr fuel seq 0 in
  let! items := iterSequence vr fuel cur in
  all_ok as_value items.

Definition Splice (l : Value) (idx deleteCount : Z) (vs : list Value) (w : world) : outcome (Value * world) :=
  if (deleteCount =? 0) && Nat.eqb (length vs) 0 then Ok (l, w)
  else
    let! n := Len l in
    let! _ := check (idx <=? n) in
    let! _ := check (u64 (idx + deleteCount) <=? n) in
    let! seq := list_seq l in
    let! cur := newCursorAtIndex vr fuel seq idx in
    let! (ch, st) := newChunker (Some cur) (MkState w []) in
    let! ch := skip_n vr (Z.to_nat deleteCount) ch in
    let! (ch, st) := list_append_all false ch vs st in
    let! (seq, st) := list_Done false ch st in
    Ok (List seq, st_tc st).
Definition Concat (l other : Value) (w : world) : outcome (Value * world) :=
  let! fst_ := list_seq l in
  let! snd_ := list_seq other in
  let! (seq, st) := concat_sequences vr false makeListLeafChunkFn (newIndexedMetaSequenceChunkFn ListKind) hashValueBytes fuel fst_ snd_ (MkState w []) in
  Ok (List seq, st_tc st).
Definition Set_at (l : Value) (idx : Z) (v : Value) (w : world) : outcome (Value * world) :=
  let! n := Len l in let! _ := check (idx <? n) in Splice l idx 1 [v] w.
Definition AppendValues (l : Value) (vs : list Value) (w : world) : outcome (Value * world) := let! n := Len l in Splice l n 0 vs w.
Definition Insert (l : Value) (idx : Z) (vs : list Value) (w : world) : outcome (Value * world) := Splice l idx 0 vs w.
Definition Remove (l : Value) (start end_ : Z) (w : world) : outcome (Value * world) :=
  let! _ := check (start <=? end_) in Splice l start (u64 (end_ - start)) [] w.
Definition RemoveAt (l : Value) (idx : Z) (w : world) : outcome (Value * world) := Splice l idx 1 [] w.

End operations.

End lists.

End Lists.
