(* ===== verification/Blobs.v ===== *)
(** * Package [types]: blobs (src/go/types/blob.go, blob_leaf_sequence.go,
      sequence_iterator.go)

    A blob is a list of bytes.  [readBlob] has a chunker of its own for the leaves
    and hands their tuples to the generic chunker; [Splice] and [Concat] use the
    generic one for the leaves as well. *)

From S2P Require Import Prelude GoLib HashPkg TypesCodec TypesType TypesValue RollingHash Sequences Chunker Lists.
Import Hash Float64 Codec NomsKinds TypeCache Values Rolling Sequences Chunker Lists.

Module Blobs.

Section blobs.
Context `{GoSort} `{chunkingConfig}.

Definition newBlobLeafSequence (data : list byte) : sequence := blobLeafSequence data.
Definition NewEmptyBlob : Value := Blob (newBlobLeafSequence []).
Definition chunkBlobLeaf (buff : list byte) (w : world) : outcome (Value * orderedKey * Z * world) :=
  let! (key, w) := orderedKeyFromInt (Zlength buff) w in
  Ok (Blob (newBlobLeafSequence buff), key, u64 (Zlength buff), w).
(** [v.(byte)]. *)
Definition as_byte (item : sequenceItem) : outcome byte := match item with BItem b => Ok b | _ => Panic AssertFailed end.
Definition makeBlobLeafChunkFn : makeChunkFn := fun items w =>
  let! buff := all_ok as_byte items in chunkBlobLeaf buff w.

Definition blob_seq (b : Value) : outcome sequence := match b with Blob seq => Ok seq | _ => Panic AssertFailed end.
Definition Blob_Len (b : Value) : outcome Z := let! seq := blob_seq b in Ok (numLeaves seq).
Definition Blob_Empty (b : Value) : outcome bool := let! n := Blob_Len b in Ok (n =? 0).

Section operations.
Context (vr : option (Hash -> option Value)) (fuel : nat).

(** [b.newChunker(cur, vr)]. *)
Definition blob_newChunker (cur : option sequenceCursor) (st : cstate) : outcome (sequenceChunker * cstate) :=
  newSequenceChunker vr false makeBlobLeafChunkFn (newIndexedMetaSequenceChunkFn BlobKind) hashValueByte fuel cur st.
Definition blob_Done (vw : bool) (ch : sequenceChunker) (st : cstate) : outcome (sequence * cstate) :=
  Done vr vw makeBlobLeafChunkFn (newIndexedMetaSequenceChunkFn BlobKind) hashValueByte fuel true ch st.
Definition Blob_Splice (b : Value) (idx deleteCount : Z) (data : list byte) (w : world) : outcome (Value * world) :=
  if (deleteCount =? 0) && Nat.eqb (length data) 0 then Ok (b, w)
  else
    let! n := Blob_Len b in
    let! _ := check (idx <=? n) in
    let! _ := check (u64 (idx + deleteCount) <=? n) in
    let! seq := blob_seq b in
    let! cur := newCursorAtIndex vr fuel seq idx in
    let! (ch, st) := blob_newChunker (Some cur) (MkState w []) in
    let! ch := skip_n vr (Z.to_nat deleteCount) ch in
    let! (ch, st) := append_all vr false makeBlobLeafChunkFn (newIndexedMetaSequenceChunkFn BlobKind) hashValueByte fuel ch (map BItem data) st in
    let! (seq, st) := blob_Done false ch st in
    Ok (Blob seq, st_tc st).
Definition Blob_Concat (b other : Value) (st : cstate) : outcome (Value * cstate) :=
  let! fst_ := blob_seq b in
  let! snd_ := blob_seq other in
  let! (seq, st) := concat_sequences vr false makeBlobLeafChunkFn (newIndexedMetaSequenceChunkFn BlobKind) hashValueByte fuel fst_ snd_ st in
  Ok (Blob seq, st).

(** ** Reading a blob *)

(** [bytes.Reader]: [Read] gives the bytes and whether there are no more. *)
Record bytesReader : Type := MkBytesReader { br_s : list byte; br_i : Z }.
Definition bytesReader_Read (r : bytesReader) (n : Z) : list byte * bool * bytesReader :=
  if Zlength (br_s r) <=? br_i r then ([], true, r)
  else let b := take (Z.to_nat n) (drop (Z.to_nat (br_i r)) (br_s r)) in (b, false, MkBytesReader (br_s r) (br_i r + Zlength b)).

Record BlobReader : Type := MkBlobReader { cbr_seq : sequence; cbr_iter : sequenceCursor; currentReader : option bytesReader; cbr_pos : Z }.
Definition Reader (b : Value) : outcome BlobReader :=
  let! seq := blob_seq b in
  let! iter := newCursorAtIndex vr fuel seq 0 in
  Ok (MkBlobReader seq iter None 0).
Definition updateReader (cbr : BlobReader) : outcome bytesReader :=
  match cbr_iter cbr with
  | MkLevel (blobLeafSequence data) idx :: _ => Ok (MkBytesReader data idx)
  | _ => Panic AssertFailed
  end.
(** [Read] into a slice of length [n]: the bytes, and whether it reports [io.EOF]. *)
Definition Read (cbr : BlobReader) (n : Z) : outcome (list byte * bool * BlobReader) :=
  let! r := match currentReader cbr with Some r => Ok r | None => updateReader cbr end in
  let '(p, eof, r) := bytesReader_Read r n in
  let! (hasMore, iter) := si_advance vr (length p) (cbr_iter cbr) in
  let pos := u64 (cbr_pos cbr + Zlength p) in
  if eof && hasMore then Ok (p, false, MkBlobReader (cbr_seq cbr) iter None pos)
  else Ok (p, eof, MkBlobReader (cbr_seq cbr) iter (Some r) pos).
(** [Read] until it reports [io.EOF]. *)
Fixpoint read_all (steps : nat) (cbr : BlobReader) (n : Z) : outcome (list byte) :=
  match steps with
  | O => Panic OutOfFuel
  | S steps' =>
      let! (p, eof, cbr) := Read cbr n in
      if eof : bool then Ok p else let! ps := read_all steps' cbr n in Ok (p ++ ps)
  end.

Inductive seekError : Type := InvalidWhence | NegativePosition.
(** The position or the error, and the reader. *)
Definition Seek (cbr : BlobReader) (offset whence : Z) : outcome ((Z + seekError) * BlobReader) :=
  let abs :=
    if whence =? 0 then Some offset
    else if whence =? 1 then Some (s64 (s64 (cbr_pos cbr) + offset))
    else if whence =? 2 then Some (s64 (s64 (numLeaves (cbr_seq cbr)) + offset))
    else None in
  match abs with
  | None => Ok (inr InvalidWhence, cbr)
  | Some abs =>
      if abs <? 0 then Ok (inr NegativePosition, cbr)
      else
        let! iter := newCursorAtIndex vr fuel (cbr_seq cbr) (u64 abs) in
        Ok (inl abs, MkBlobReader (cbr_seq cbr) iter None (u64 abs))
  end.

(** ** Building a blob *)

(** The variables of [readBlob]: the buffer and how much of it is used, the hasher
    and the chunks sent to [input]. *)
Record blobBuilder : Type := MkBuilder { chunkBytes : list byte; bb_offset : Z; bb_rv : rollingValueHasher; bb_input : list (list byte) }.
Definition new_builder : blobBuilder := MkBuilder (make_bytes (Z.to_nat 8192)) 0 newRollingValueHasher [].
Definition addByte (b : byte) (s : blobBuilder) : outcome (bool * blobBuilder) :=
  let buf := if Zlength (chunkBytes s) <=? bb_offset s then chunkBytes s ++ make_bytes (length (chunkBytes s)) else chunkBytes s in
  let! buf := set_index buf (bb_offset s) b in
  let! rv := HashByte (bb_rv s) b in
  Ok (crossedBoundary rv, MkBuilder buf (bb_offset s + 1) rv (bb_input s)).
Definition makeChunk (s : blobBuilder) : outcome blobBuilder :=
  let! cp := slice (chunkBytes s) 0 (bb_offset s) in
  Ok (MkBuilder (chunkBytes s) 0 (bb_rv s) (bb_input s ++ [cp])).
Definition clear_boundary (s : blobBuilder) : blobBuilder := MkBuilder (chunkBytes s) (bb_offset s) (ClearLastBoundary (bb_rv s)) (bb_input s).
(** The bytes of one [Read] of the [io.Reader]. *)
Definition add_bytes (data : list byte) (s : blobBuilder) : outcome blobBuilder :=
  fold_w (fun b s => let! (crossed, s) := addByte b s in if crossed : bool then makeChunk (clear_boundary s) else Ok s) data s.
(** An [io.Reader]: the bytes of its reads, and whether they end with [io.EOF] and
    not another error. *)
Record ioReader : Type := MkIoReader { reads : list (list byte); ends_eof : bool }.
Definition chunk_bytes (r : ioReader) : outcome (list (list byte)) :=
  let! s := fold_w add_bytes (reads r) new_builder in
  let! _ := check (ends_eof r) in
  let! s := if 0 <? bb_offset s then makeChunk s else Ok s in
  Ok (bb_input s).

(** The function of [orderedparallel.New], which gives its results in order. *)
Definition leaf_tuple (vw : bool) (cp : list byte) (st : cstate) : outcome (metaTuple * cstate) :=
  let! (col, key, numLeaves, w) := chunkBlobLeaf cp (st_tc st) in
  let! (ref, w) := NewRef col w in
  Ok (MkMetaTuple ref key numLeaves (if vw then None else Some col), MkState w (if vw then st_log st ++ [col] else st_log st)).
(** The loop over [output]. *)
Fixpoint append_tuples (vw : bool) (cps : list (list byte)) (c : chunker) (parents : sequenceChunker) (st : cstate) : outcome (sequenceChunker * cstate) :=
  match cps with
  | [] => Ok (c :: parents, st)
  | cp :: cps' =>
      let! (mt, st) := leaf_tuple vw cp st in
      let! (parents, st) :=
        match parents with
        | [] => createParent vr vw makeBlobLeafChunkFn (newIndexedMetaSequenceChunkFn BlobKind) hashValueByte fuel c st
        | _ => Ok (parents, st)
        end in
      let! (parents, st) := Append vr vw makeBlobLeafChunkFn (newIndexedMetaSequenceChunkFn BlobKind) hashValueByte fuel false parents (MItem mt) st in
      append_tuples vw cps' c parents st
  end.
Definition readBlob (vw : bool) (r : ioReader) (st : cstate) : outcome (Value * cstate) :=
  let! cps := chunk_bytes r in
  let! (sc, st) := append_tuples vw cps (new_chunker None) [] st in
  let! (seq, st) := blob_Done vw sc st in
  Ok (Blob seq, st).
(** [readBlobsP]: one goroutine per reader, in any order; the blobs are put
    together in the order of the readers. *)
Definition readBlobsP (vw : bool) (rs : list ioReader) (st : cstate) : outcome (Value * cstate) :=
  match rs with
  | [] => Ok (NewEmptyBlob, st)
  | [r] => readBlob vw r st
  | r :: rs' =>
      let! (b, st) := readBlob vw r st in
      let! (blobs, st) := map_w (readBlob vw) rs' st in
      fold_w (fun other s => Blob_Concat s.1 other s.2) blobs (b, st)
  end.
Definition NewBlob (rs : list ioReader) (w : world) : outcome (Value * world) :=
  let! (b, st) := readBlobsP false rs (MkState w []) in Ok (b, st_tc st).
Definition NewStreamingBlob (rs : list ioReader) (st : cstate) : outcome (Value * cstate) := readBlobsP true rs st.

End operations.

End blobs.

End Blobs.
