(* ===== verification/Ordered.v ===== *)
(** * Package [types]: maps and sets (src/go/types/map.go, set.go,
      ordered_sequences.go, map_leaf_sequence.go, set_leaf_sequence.go, less.go,
      number.go, string.go, bool.go)

    Maps and sets are sequences in the order of their keys: booleans, numbers and
    strings by value, all other values by hash.  They are built by the chunker and
    edited by resuming it at the cursor that a search for the key finds. *)

From S2P Require Import Prelude GoLib HashPkg TypesCodec TypesType TypesValue RollingHash Sequences Chunker Lists.
Import Hash Float64 Codec NomsKinds TypeCache Values Rolling Sequences Chunker Lists.

Module Ordered.

(** ** The order of values *)

(** [f < g]. *)
Definition float_Less (f g : float64) : bool :=
  match f, g with
  | Finite n m e, Finite n' m' e' =>
      let d := Z.min e e' in
      (if n then - (m * 2 ^ (e - d)) else m * 2 ^ (e - d)) <? (if n' then - (m' * 2 ^ (e' - d)) else m' * 2 ^ (e' - d))
  | NaN, _ | _, NaN => false
  | Infinite n, Infinite n' => n && negb n'
  | Infinite n, Finite _ _ _ => n
  | Finite _ _ _, Infinite n' => negb n'
  end.
Definition valueLess (v1 v2 : Value) (w : world) : outcome (bool * world) :=
  let! k := Kind w (Type_of v2) in
  match k with
  | BoolKind | NumberKind | StringKind => Ok (false, w)
  | _ => let! (h1, w) := getHash v1 w in let! (h2, w) := getHash v2 w in Ok (Less h1 h2, w)
  end.
Definition value_Less (v other : Value) (w : world) : outcome (bool * world) :=
  match v, other with
  | Bool b, Bool b2 => Ok (negb b && b2, w)
  | Bool _, _ => Ok (true, w)
  | Number f, Number f2 => Ok (float_Less f f2, w)
  | Number _, _ => let! k := Kind w (Type_of other) in Ok (kind_code NumberKind <? kind_code k, w)
  | String s, String s2 => Ok (match bytes_Compare s s2 with Lt => true | _ => false end, w)
  | String _, _ => let! k := Kind w (Type_of other) in Ok (kind_code StringKind <? kind_code k, w)
  | _, _ => valueLess v other w
  end.
(** [v.Hash() == other.Hash()]. *)
Definition same_hash (v other : Value) (w : world) : outcome (bool * world) :=
  let! (h1, w) := getHash v w in let! (h2, w) := getHash other w in Ok (bool_decide (h1 = h2), w).
Definition Equals (v other : Value) (w : world) : outcome (bool * world) :=
  match v, other with
  | Bool b, Bool b2 => Ok (Bool.eqb b b2, w)
  | Number f, Number f2 => Ok (eqb f f2, w)
  | String s, String s2 => Ok (bool_decide (s = s2), w)
  | Bool _, _ | Number _, _ | String _, _ => Ok (false, w)
  | TypeValue t, TypeValue t2 => if Nat.eqb t t2 then Ok (true, w) else same_hash v other w
  | _, _ => same_hash v other w
  end.
Definition orderedKey_Less (key mk2 : orderedKey) (w : world) : outcome (bool * world) :=
  match key, mk2 with
  | MkKey true v _, MkKey true v2 _ =>
      match v, v2 with Some v, Some v2 => value_Less v v2 w | _, _ => Panic NilDereference end
  | MkKey true _ _, _ => Ok (true, w)
  | _, MkKey true _ _ => Ok (false, w)
  | MkKey _ _ h, MkKey _ _ h2 => let! _ := check (negb (IsEmpty h || IsEmpty h2)) in Ok (Less h h2, w)
  end.

(** ** Searching *)

Definition emptyKey : orderedKey := MkKey false None emptyHash.
Definition is_emptyKey (key : orderedKey) : bool := match key with MkKey false None h => IsEmpty h | _ => false end.
(** [getKey] of an ordered sequence. *)
Definition getKey (seq : sequence) (idx : Z) (w : world) : outcome (orderedKey * world) :=
  match seq with
  | mapLeafSequence _ data => let! e := index data idx in newOrderedKey e.1 w
  | setLeafSequence _ data => let! v := index data idx in newOrderedKey v w
  | metaSequence _ tuples => let! mt := index tuples idx in Ok (mt_key mt, w)
  | _ => Panic AssertFailed
  end.
(** [sort.Search]. *)
Fixpoint Search_loop (n : nat) (f : Z -> world -> outcome (bool * world)) (i j : Z) (w : world) : outcome (Z * world) :=
  match n with
  | O => Panic OutOfFuel
  | S n' =>
      if i <? j then
        let h := (i + j) / 2 in
        let! (b, w) := f h w in
        if b : bool then Search_loop n' f i h w else Search_loop n' f (h + 1) j w
      else Ok (i, w)
  end.
Definition Search (n : Z) (f : Z -> world -> outcome (bool * world)) (w : world) : outcome (Z * world) := Search_loop (S (Z.to_nat n)) f 0 n w.
(** The index that [seekTo] moves the cursor to, and its result. *)
Definition seekTo (seq : sequence) (key : orderedKey) (lastPositionIfNotFound : bool) (w : world) : outcome (Z * bool * world) :=
  let! (idx, w) := Search (seqLen seq) (fun i w => let! (k, w) := getKey seq i w in let! (b, w) := orderedKey_Less k key w in Ok (negb b, w)) w in
  let! idx := if (idx =? seqLen seq) && lastPositionIfNotFound then let! _ := check (0 <? idx) in Ok (idx - 1) else Ok idx in
  Ok (idx, idx <? seqLen seq, w).

Section search.
Context (vr : option (Hash -> option Value)).

Fixpoint newCursorAt_loop (fuel : nat) (cur : sequenceCursor) (seq : sequence) (key : orderedKey) (forInsertion last : bool) (w : world) : outcome (sequenceCursor * world) :=
  match fuel with
  | O => Panic OutOfFuel
  | S fuel' =>
      let! c := newSequenceCursor cur seq (if last then -1 else 0) in
      let! (c, found, w) :=
        if is_emptyKey key then Ok (c, true, w)
        else let! (idx, found, w) := seekTo seq key (forInsertion && isMetaSequence seq) w in Ok (MkLevel seq idx :: cur, found, w) in
      if found : bool then
        let! cs := cur_getChildSequence vr c in
        match cs with None => Ok (c, w) | Some seq => newCursorAt_loop fuel' c seq key forInsertion last w end
      else Ok (c, w)
  end.
Definition newCursorAt (fuel : nat) (seq : sequence) (key : orderedKey) (forInsertion last : bool) (w : world) : outcome (sequenceCursor * world) :=
  newCursorAt_loop fuel [] seq key forInsertion last w.
Definition newCursorAtValue (fuel : nat) (seq : sequence) (val : Value) (forInsertion last : bool) (w : world) : outcome (sequenceCursor * world) :=
  let! (key, w) := newOrderedKey val w in newCursorAt fuel seq key forInsertion last w.

End search.

(** ** Sorting *)

(** [sort.Stable]: insertion sort, as it sorts its blocks; a stable sort has one
    result.  The sorted part is held from its end. *)
Fixpoint insert_last {A} (less : A -> A -> world -> outcome (bool * world)) (x : A) (l : list A) (w : world) : outcome (list A * world) :=
  match l with
  | [] => Ok ([x], w)
  | y :: l' => let! (b, w) := less x y w in if b : bool then let! (r, w) := insert_last less x l' w in Ok (y :: r, w) else Ok (x :: l, w)
  end.
Definition Stable {A} (less : A -> A -> world -> outcome (bool * world)) (l : list A) (w : world) : outcome (list A * world) :=
  let! (r, w) := fold_w (fun x s => insert_last less x s.1 s.2) l ([], w) in Ok (rev r, w).
(** The loop that keeps the last one of equal elements. *)
Fixpoint uniqueSorted {A} (equals : A -> A -> world -> outcome (bool * world)) (last : A) (l : list A) (w : world) : outcome (list A * world) :=
  match l with
  | [] => Ok ([last], w)
  | v :: l' =>
      let! (b, w) := equals v last w in
      let! (r, w) := uniqueSorted equals v l' w in
      Ok (if b : bool then r else last :: r, w)
  end.
Definition buildSetData (values : list Value) (w : world) : outcome (list Value * world) :=
  let! (values, w) := Stable value_Less values w in
  match values with [] => Ok ([], w) | last :: l => uniqueSorted Equals last l w end.
(** The key-value pairs of [NewMap]. *)
Fixpoint pairs (values : list Value) : outcome (list (Value * Value)) :=
  match values with
  | [] => Ok []
  | k :: v :: values' => let! kvs := pairs values' in Ok ((k, v) :: kvs)
  | _ => Panic ExplicitPanic
  end.
Definition buildMapData (values : list Value) (w : world) : outcome (list (Value * Value) * world) :=
  let! kvs := pairs values in
  let! (kvs, w) := Stable (fun e e' => value_Less e.1 e'.1) kvs w in
  match kvs with [] => Ok ([], w) | last :: l => uniqueSorted (fun e e' => Equals e.1 e'.1) last l w end.

(** ** Chunks *)

Section chunks.
Context `{GoSort} `{chunkingConfig}.

Definition newSetLeafSequence (v : list Value) (w : world) : outcome (sequence * world) :=
  let! (u, w) := MakeUnionType (Type_of <$> v) w in
  let! (t, w) := MakeSetType u w in
  Ok (setLeafSequence t v, w).
Definition newMapLeafSequence (data : list (Value * Value)) (w : world) : outcome (sequence * world) :=
  let! (uk, w) := MakeUnionType ((fun e => Type_of e.1) <$> data) w in
  let! (uv, w) := MakeUnionType ((fun e => Type_of e.2) <$> data) w in
  let! (t, w) := MakeMapType uk uv w in
  Ok (mapLeafSequence t data, w).
(** [newOrderedKey] of the last key, the zero key of an empty chunk. *)
Definition last_key (keys : list Value) (w : world) : outcome (orderedKey * world) :=
  match last keys with Some v => newOrderedKey v w | None => Ok (emptyKey, w) end.
Definition makeSetLeafChunkFn : makeChunkFn := fun items w =>
  let! setData := all_ok as_value items in
  let! (seq, w) := newSetLeafSequence setData w in
  let! (key, w) := last_key setData w in
  Ok (Set_ seq, key, u64 (Zlength items), w).
Definition as_entry (item : sequenceItem) : outcome (Value * Value) := match item with EItem k v => Ok (k, v) | _ => Panic AssertFailed end.
Definition makeMapLeafChunkFn : makeChunkFn := fun items w =>
  let! mapData := all_ok as_entry items in
  let! (seq, w) := newMapLeafSequence mapData w in
  let! (key, w) := last_key (map fst mapData) w in
  Ok (Map seq, key, u64 (Zlength items), w).

(** [desc.ElemTypes] of the target of a tuple's reference. *)
Definition target_elems (w : world) (mt : metaTuple) : outcome (list ptr) :=
  let! t := elem_type w (ref_t (mt_ref mt)) in
  let! T := get_type w t in
  match Desc T with CompoundDesc _ ElemTypes => Ok ElemTypes | _ => Panic AssertFailed end.
Definition newSetMetaSequence (tuples : list metaTuple) (w : world) : outcome (sequence * world) :=
  let! ts := all_ok (fun mt => let! es := target_elems w mt in index es 0) tuples in
  let! (u, w) := MakeUnionType ts w in
  let! (t, w) := MakeSetType u w in
  Ok (metaSequence t tuples, w).
Definition newMapMetaSequence (tuples : list metaTuple) (w : world) : outcome (sequence * world) :=
  let! kts := all_ok (fun mt => let! es := target_elems w mt in index es 0) tuples in
  let! vts := all_ok (fun mt => let! es := target_elems w mt in index es 1) tuples in
  let! (uk, w) := MakeUnionType kts w in
  let! (uv, w) := MakeUnionType vts w in
  let! (t, w) := MakeMapType uk uv w in
  Ok (metaSequence t tuples, w).
Definition newOrderedMetaSequenceChunkFn (kind : NomsKind) : makeChunkFn := fun items w =>
  let! tuples := all_ok as_tuple items in
  let! (col, w) :=
    match kind with
    | SetKind => let! (seq, w) := newSetMetaSequence tuples w in Ok (Set_ seq, w)
    | MapKind => let! (seq, w) := newMapMetaSequence tuples w in Ok (Map seq, w)
    | _ => Panic AssertFailed
    end in
  let! mt := match last tuples with Some mt => Ok mt | None => Panic IndexOutOfRange end in
  Ok (col, mt_key mt, cumulativeNumberOfLeaves tuples, w).

(** ** Sets *)

Section operations.
Context (vr : option (Hash -> option Value)) (fuel : nat).

(** A chunker at [cur] that skips [deleteCount] items, appends [vs] and is done:
    [splice] of sets and maps. *)
Definition splice (leaf : makeChunkFn) (kind : NomsKind) (lh : hashValueBytesFn) (cur : option sequenceCursor) (deleteCount : nat) (vs : list sequenceItem) (w : world) : outcome (sequence * world) :=
  let! (ch, st) := newSequenceChunker vr false leaf (newOrderedMetaSequenceChunkFn kind) lh fuel cur (MkState w []) in
  let! ch := skip_n vr deleteCount ch in
  let! (ch, st) := append_all vr false leaf (newOrderedMetaSequenceChunkFn kind) lh fuel ch vs st in
  let! (seq, st) := Done vr false leaf (newOrderedMetaSequenceChunkFn kind) lh fuel true ch st in
  Ok (seq, st_tc st).
Definition set_seq (s : Value) : outcome sequence := match s with Set_ seq => Ok seq | _ => Panic AssertFailed end.
Definition Set_splice (cur : option sequenceCursor) (deleteCount : nat) (vs : list Value) (w : world) : outcome (Value * world) :=
  let! (seq, w) := splice makeSetLeafChunkFn SetKind hashValueBytes cur deleteCount (map VItem vs) w in Ok (Set_ seq, w).
Definition NewSet (v : list Value) (w : world) : outcome (Value * world) :=
  let! (data, w) := buildSetData v w in Set_splice None 0 data w.
Definition Set_Len (s : Value) : outcome Z := let! seq := set_seq s in Ok (numLeaves seq).
Definition Set_Empty (s : Value) : outcome bool := let! n := Set_Len s in Ok (n =? 0).
Definition Set_First (s : Value) (w : world) : outcome (option Value * world) :=
  let! seq := set_seq s in
  let! (cur, w) := newCursorAt vr fuel seq emptyKey false false w in
  if valid cur then let! item := cur_current cur in let! v := as_value item in Ok (Some v, w) else Ok (None, w).
Definition Set_At (s : Value) (idx : Z) : outcome Value :=
  let! n := Set_Len s in
  if n <=? idx then Panic ExplicitPanic
  else let! seq := set_seq s in let! cur := newCursorAtIndex vr fuel seq idx in let! item := cur_current cur in as_value item.
(** The cursor to insert at, and whether the value is there. *)
Definition Set_getCursorAtValue (s v : Value) (w : world) : outcome (sequenceCursor * bool * world) :=
  let! seq := set_seq s in
  let! (cur, w) := newCursorAtValue vr fuel seq v true false w in
  match cur with
  | MkLevel lseq idx :: _ =>
      if idx <? seqLen lseq then let! item := cur_current cur in let! u := as_value item in let! (b, w) := Equals u v w in Ok (cur, b, w) else Ok (cur, false, w)
  | [] => Panic NilDereference
  end.
Fixpoint Set_Insert (s : Value) (values : list Value) (w : world) : outcome (Value * world) :=
  match values with
  | [] => Ok (s, w)
  | head :: tail =>
      let! (cur, found, w) := Set_getCursorAtValue s head w in
      let! (s, w) := if found : bool then Ok (s, w) else Set_splice (Some cur) 0 [head] w in
      Set_Insert s tail w
  end.
Fixpoint Set_Remove (s : Value) (values : list Value) (w : world) : outcome (Value * world) :=
  match values with
  | [] => Ok (s, w)
  | head :: tail =>
      let! (cur, found, w) := Set_getCursorAtValue s head w in
      let! (s, w) := if found : bool then Set_splice (Some cur) 1 [] w else Ok (s, w) in
      Set_Remove s tail w
  end.
Definition Set_Has (s v : Value) (w : world) : outcome (bool * world) :=
  let! seq := set_seq s in
  let! (cur, w) := newCursorAtValue vr fuel seq v false false w in
  if valid cur then let! item := cur_current cur in let! u := as_value item in Equals u v w else Ok (false, w).
(** [IterAll] with a callback that collects the values. *)
Definition Set_IterAll (s : Value) (w : world) : outcome (list Value * world) :=
  let! seq := set_seq s in
  let! (cur, w) := newCursorAt vr fuel seq emptyKey false false w in
  let! items := iterSequence vr fuel cur in
  let! vs := all_ok as_value items in Ok (vs, w).

(** ** Maps *)

Definition entry_item (e : Value * Value) : sequenceItem := EItem e.1 e.2.
Definition map_seq (m : Value) : outcome sequence := match m with Map seq => Ok seq | _ => Panic AssertFailed end.
Definition Map_splice (cur : option sequenceCursor) (deleteCount : nat) (vs : list (Value * Value)) (w : world) : outcome (Value * world) :=
  let! (seq, w) := splice makeMapLeafChunkFn MapKind mapHashValueBytes cur deleteCount (map entry_item vs) w in Ok (Map seq, w).
Definition NewMap (kv : list Value) (w : world) : outcome (Value * world) :=
  let! (entries, w) := buildMapData kv w in Map_splice None 0 entries w.
Definition Map_Len (m : Value) : outcome Z := let! seq := map_seq m in Ok (numLeaves seq).
Definition Map_Empty (m : Value) : outcome bool := let! n := Map_Len m in Ok (n =? 0).
Definition firstOrLast (m : Value) (last : bool) (w : world) : outcome (option (Value * Value) * world) :=
  let! seq := map_seq m in
  let! (cur, w) := newCursorAt vr fuel seq emptyKey false last w in
  if valid cur then let! item := cur_current cur in let! e := as_entry item in Ok (Some e, w) else Ok (None, w).
Definition First (m : Value) (w : world) : outcome (option (Value * Value) * world) := firstOrLast m false w.
Definition Last (m : Value) (w : world) : outcome (option (Value * Value) * world) := firstOrLast m true w.
Definition Map_At (m : Value) (idx : Z) : outcome (Value * Value) :=
  let! n := Map_Len m in
  if n <=? idx then Panic ExplicitPanic
  else let! seq := map_seq m in let! cur := newCursorAtIndex vr fuel seq idx in let! item := cur_current cur in as_entry item.
Definition MaybeGet (m key : Value) (w : world) : outcome (option Value * world) :=
  let! seq := map_seq m in
  let! (cur, w) := newCursorAtValue vr fuel seq key false false w in
  if valid cur then
    let! item := cur_current cur in
    let! e := as_entry item in
    let! (b, w) := Equals e.1 key w in
    Ok (if b : bool then Some e.2 else None, w)
  else Ok (None, w).
Definition Map_Has (m key : Value) (w : world) : outcome (bool * world) :=
  let! seq := map_seq m in
  let! (cur, w) := newCursorAtValue vr fuel seq key false false w in
  if valid cur then let! item := cur_current cur in let! e := as_entry item in Equals e.1 key w else Ok (false, w).
(** [Get]: the value or [nil]. *)
Definition Map_Get (m key : Value) (w : world) : outcome (option Value * world) := MaybeGet m key w.
Definition Map_getCursorAtValue (m v : Value) (w : world) : outcome (sequenceCursor * bool * world) :=
  let! seq := map_seq m in
  let! (cur, w) := newCursorAtValue vr fuel seq v true false w in
  match cur with
  | MkLevel lseq idx :: _ =>
      if idx <? seqLen lseq then let! item := cur_current cur in let! e := as_entry item in let! (b, w) := Equals e.1 v w in Ok (cur, b, w) else Ok (cur, false, w)
  | [] => Panic NilDereference
  end.
Fixpoint SetM (m : Value) (kv : list Value) (w : world) : outcome (Value * world) :=
  match kv with
  | [] => Ok (m, w)
  | [_] => Panic AssertFailed
  | k :: v :: tail =>
      let! _ := check (Nat.even (length kv)) in
      let! (cur, found, w) := Map_getCursorAtValue m k w in
      let! (m, w) := Map_splice (Some cur) (if found : bool then 1 else 0)%nat [(k, v)] w in
      SetM m tail w
  end.
Definition Map_Set (m key val : Value) (w : world) : outcome (Value * world) := SetM m [key; val] w.
Definition Map_Remove (m k : Value) (w : world) : outcome (Value * world) :=
  let! (cur, found, w) := Map_getCursorAtValue m k w in
  if found : bool then Map_splice (Some cur) 1 [] w else Ok (m, w).
(** [IterAll] and [IterFrom] with callbacks that collect the entries. *)
Definition Map_IterAll (m : Value) (w : world) : outcome (list (Value * Value) * world) :=
  let! seq := map_seq m in
  let! (cur, w) := newCursorAt vr fuel seq emptyKey false false w in
  let! items := iterSequence vr fuel cur in
  let! es := all_ok as_entry items in Ok (es, w).
Definition IterFrom (m start : Value) (w : world) : outcome (list (Value * Value) * world) :=
  let! seq := map_seq m in
  let! (cur, w) := newCursorAtValue vr fuel seq start false false w in
  let! items := iterSequence vr fuel cur in
  let! es := all_ok as_entry items in Ok (es, w).

End operations.

End chunks.
End Ordered.
