(* ===== verification/OrderedDiff.v ===== *)
(** * Package [types]: diffs of maps and sets (src/go/types/ordered_sequences_diff.go,
      meta_sequence.go, map.go, set.go)

    The left-right diff runs two cursors over the leaves and skips chunks that both
    trees have; the top-down diff compares the tuples of the levels.  [Diff] runs
    both at once and takes the changes of the one that is ahead.  The consumer takes
    all changes: the stop channel is not used. *)

From S2P Require Import Prelude GoLib HashPkg EditDistance TypesCodec TypesType TypesValue RollingHash Sequences Chunker Lists Ordered.
Import Hash Float64 Codec NomsKinds TypeCache Values Rolling Sequences Chunker Lists Ordered.

Module OrderedDiff.

Inductive DiffChangeType : Type := DiffChangeAdded | DiffChangeRemoved | DiffChangeModified.
(** The changed key; [None] is nil. *)
Record ValueChanged : Type := MkChange { ChangeType : DiffChangeType; change_V : option Value }.
Definition key_v (key : orderedKey) : option Value := match key with MkKey _ v _ => v end.

(** ** Comparing items *)

(** [seq.getCompareFn(other)(idx, otherIdx)]. *)
Definition compareFn (seq other : sequence) (idx otherIdx : Z) (w : world) : outcome (bool * world) :=
  match seq, other with
  | mapLeafSequence _ data, mapLeafSequence _ data' =>
      let! e := index data idx in
      let! e' := index data' otherIdx in
      let! (b, w) := Equals e.1 e'.1 w in
      if b : bool then Equals e.2 e'.2 w else Ok (false, w)
  | setLeafSequence _ data, setLeafSequence _ data' => let! v := index data idx in let! v' := index data' otherIdx in Equals v v' w
  | listLeafSequence _ data, listLeafSequence _ data' => let! v := index data idx in let! v' := index data' otherIdx in Equals v v' w
  | blobLeafSequence data, blobLeafSequence data' => let! b := index data idx in let! b' := index data' otherIdx in Ok (bool_decide (b = b'), w)
  | metaSequence _ tuples, metaSequence _ tuples' =>
      let! mt := index tuples idx in
      let! mt' := index tuples' otherIdx in
      Ok (bool_decide (target (mt_ref mt) = target (mt_ref mt')), w)
  | _, _ => Panic AssertFailed
  end.
Definition isCurrentEqual (a b : sequenceCursor) (w : world) : outcome (bool * world) :=
  match a, b with
  | MkLevel seq idx :: _, MkLevel seq' idx' :: _ => compareFn seq seq' idx idx' w
  | _, _ => Panic NilDereference
  end.
Definition getCurrentKey (cur : sequenceCursor) (w : world) : outcome (orderedKey * world) :=
  match cur with MkLevel seq idx :: _ => getKey seq idx w | [] => Panic NilDereference end.

Section diff.
Context `{GoSort} (vr : option (Hash -> option Value)).

(** ** The left-right diff *)

Definition syncWithIdx (parent : sequenceCursor) (hasMore allowPastEnd : bool) : outcome sequenceCursor :=
  let! seq := sync vr parent in
  Ok (MkLevel seq (if hasMore then 0 else if allowPastEnd then seqLen seq else seqLen seq - 1) :: parent).
(** The loop of [doFastForward]; the call for the parents starts it anew. *)
Fixpoint doFastForward_loop (fuel : nat) (allowPastEnd aHasMore bHasMore : bool) (a b : sequenceCursor) (w : world) : outcome (bool * bool * sequenceCursor * sequenceCursor * world) :=
  match fuel with
  | O => Panic OutOfFuel
  | S fuel' =>
      if aHasMore && bHasMore then
        let! (eq, w) := isCurrentEqual a b w in
        if eq : bool then
          let! (peq, w) := match tail a, tail b with [], _ | _, [] => Ok (false, w) | pa, pb => isCurrentEqual pa pb w end in
          if peq : bool then
            let! _ := check (valid (tail a)) in
            let! _ := check (valid (tail b)) in
            let! (aHasMore, bHasMore, pa, pb, w) := doFastForward_loop fuel' false true true (tail a) (tail b) w in
            let! a := syncWithIdx pa aHasMore allowPastEnd in
            let! b := syncWithIdx pb bHasMore allowPastEnd in
            doFastForward_loop fuel' allowPastEnd aHasMore bHasMore a b w
          else
            let! (aHasMore, a) := advanceMaybeAllowPastEnd vr a allowPastEnd in
            let! (bHasMore, b) := advanceMaybeAllowPastEnd vr b allowPastEnd in
            doFastForward_loop fuel' allowPastEnd aHasMore bHasMore a b w
        else Ok (aHasMore, bHasMore, a, b, w)
      else Ok (aHasMore, bHasMore, a, b, w)
  end.
Definition doFastForward (fuel : nat) (allowPastEnd : bool) (a b : sequenceCursor) (w : world) : outcome (bool * bool * sequenceCursor * sequenceCursor * world) :=
  let! _ := check (valid a) in
  let! _ := check (valid b) in
  doFastForward_loop fuel allowPastEnd true true a b w.
Definition fastForward (fuel : nat) (a b : sequenceCursor) (w : world) : outcome (sequenceCursor * sequenceCursor * world) :=
  if valid a && valid b then let! (_, _, a, b, w) := doFastForward fuel true a b w in Ok (a, b, w) else Ok (a, b, w).
(** The loop over items that differ. *)
Fixpoint changes_loop (fuel : nat) (lastCur currentCur : sequenceCursor) (w : world) : outcome (list ValueChanged * sequenceCursor * sequenceCursor * world) :=
  match fuel with
  | O => Panic OutOfFuel
  | S fuel' =>
      if valid lastCur && valid currentCur then
        let! (eq, w) := isCurrentEqual lastCur currentCur w in
        if eq : bool then Ok ([], lastCur, currentCur, w)
        else
          let! (lastKey, w) := getCurrentKey lastCur w in
          let! (currentKey, w) := getCurrentKey currentCur w in
          let! (less, w) := orderedKey_Less currentKey lastKey w in
          let! (c, lastCur, currentCur, w) :=
            if less : bool then
              let! (_, currentCur) := advance vr currentCur in Ok (MkChange DiffChangeAdded (key_v currentKey), lastCur, currentCur, w)
            else
              let! (less, w) := orderedKey_Less lastKey currentKey w in
              if less : bool then
                let! (_, lastCur) := advance vr lastCur in Ok (MkChange DiffChangeRemoved (key_v lastKey), lastCur, currentCur, w)
              else
                let! (_, lastCur) := advance vr lastCur in
                let! (_, currentCur) := advance vr currentCur in
                Ok (MkChange DiffChangeModified (key_v lastKey), lastCur, currentCur, w) in
          let! (cs, lastCur, currentCur, w) := changes_loop fuel' lastCur currentCur w in
          Ok (c :: cs, lastCur, currentCur, w)
      else Ok ([], lastCur, currentCur, w)
  end.
Fixpoint common_loop (fuel : nat) (lastCur currentCur : sequenceCursor) (w : world) : outcome (list ValueChanged * sequenceCursor * sequenceCursor * world) :=
  match fuel with
  | O => Panic OutOfFuel
  | S fuel' =>
      if valid lastCur && valid currentCur then
        let! (lastCur, currentCur, w) := fastForward fuel' lastCur currentCur w in
        let! (cs, lastCur, currentCur, w) := changes_loop fuel' lastCur currentCur w in
        let! (cs', lastCur, currentCur, w) := common_loop fuel' lastCur currentCur w in
        Ok (cs ++ cs', lastCur, currentCur, w)
      else Ok ([], lastCur, currentCur, w)
  end.
(** The rest of one of the sequences. *)
Fixpoint rest_loop (fuel : nat) (t : DiffChangeType) (cur : sequenceCursor) (w : world) : outcome (list ValueChanged * world) :=
  match fuel with
  | O => Panic OutOfFuel
  | S fuel' =>
      if valid cur then
        let! (key, w) := getCurrentKey cur w in
        let! (_, cur) := advance vr cur in
        let! (cs, w) := rest_loop fuel' t cur w in
        Ok (MkChange t (key_v key) :: cs, w)
      else Ok ([], w)
  end.
(** The cursor at the start; [None] is the sequence [emptySequence]. *)
Definition start_cursor (fuel : nat) (seq : option sequence) (w : world) : outcome (sequenceCursor * world) :=
  match seq with Some seq => newCursorAt vr fuel seq emptyKey false false w | None => Ok ([], w) end.
Definition orderedSequenceDiffLeftRight (fuel : nat) (last current : option sequence) (w : world) : outcome (list ValueChanged * world) :=
  let! (lastCur, w) := start_cursor fuel last w in
  let! (currentCur, w) := start_cursor fuel current w in
  let! (cs, lastCur, currentCur, w) := common_loop fuel lastCur currentCur w in
  let! (removed, w) := rest_loop fuel DiffChangeRemoved lastCur w in
  let! (added, w) := rest_loop fuel DiffChangeAdded currentCur w in
  Ok (cs ++ removed ++ added, w).

(** ** The top-down diff *)

Definition as_meta (seq : option sequence) : outcome (ptr * list metaTuple) :=
  match seq with Some (metaSequence t tuples) => Ok (t, tuples) | _ => Panic AssertFailed end.
Definition is_meta (seq : option sequence) : bool := match seq with Some seq => isMetaSequence seq | None => false end.
Definition opt_seqLen (seq : option sequence) : Z := match seq with Some seq => seqLen seq | None => 0 end.
(** The items of the children, in order. *)
Fixpoint child_items (children : list sequence) : outcome (bool * list metaTuple * list (Value * Value) * list Value) :=
  match children with
  | [] => Ok (false, [], [], [])
  | seq :: children' =>
      let! (childIsMeta, metaItems, mapItems, valueItems) := child_items children' in
      match seq with
      | metaSequence _ tuples => Ok (true, tuples ++ metaItems, mapItems, valueItems)
      | mapLeafSequence _ data => Ok (childIsMeta, metaItems, data ++ mapItems, valueItems)
      | setLeafSequence _ data | listLeafSequence _ data => Ok (childIsMeta, metaItems, mapItems, data ++ valueItems)
      | blobLeafSequence _ => Panic ExplicitPanic
      end
  end.
Definition getCompositeChildSequence (t : ptr) (tuples : list metaTuple) (start length : Z) (w : world) : outcome (option sequence * world) :=
  if length =? 0 then Ok (None, w)
  else
    let! k := Kind w t in
    let! children := all_ok (fun i => let! mt := index tuples i in mt_getChildSequence vr mt) (seqZ start length) in
    let! (childIsMeta, metaItems, mapItems, valueItems) := child_items children in
    let! (seq, w) :=
      if childIsMeta : bool then Ok (metaSequence t metaItems, w)
      else match k with ListKind => newListLeafSequence valueItems w | MapKind => newMapLeafSequence mapItems w | _ => newSetLeafSequence valueItems w end in
    Ok (Some seq, w).
(** [last.getCompareFn(current)] on a level above the leaves; the function of an
    [emptySequence] panics, but there are no items to call it for. *)
Definition meta_compareFn (last current : option sequence) : outcome (Z -> Z -> bool) :=
  match last, current with
  | None, _ => Ok (fun _ _ => false)
  | Some (metaSequence _ tuples), Some (metaSequence _ tuples') =>
      Ok (fun i j => match tuples !! Z.to_nat i, tuples' !! Z.to_nat j with Some mt, Some mt' => bool_decide (target (mt_ref mt) = target (mt_ref mt')) | _, _ => false end)
  | _, _ => Panic AssertFailed
  end.
(** What a goroutine sends, and how it ends. *)
Definition stream : Type := list ValueChanged * outcome world.
Definition stream_of (r : outcome (list ValueChanged * world)) : stream := match r with Ok (cs, w) => (cs, Ok w) | Panic p => ([], Panic p) end.
Definition then_ (s : stream) (k : world -> stream) : stream := match s with (cs, Ok w) => let '(cs', e) := k w in (cs ++ cs', e) | (cs, Panic p) => (cs, Panic p) end.
Definition bind_ {A} (o : outcome A) (k : A -> stream) : stream := match o with Ok a => k a | Panic p => ([], Panic p) end.
Fixpoint orderedSequenceDiffInternalNodes (fuel : nat) (last current : option sequence) (lastHeight currentHeight : Z) (w : world) : stream :=
  match fuel with
  | O => ([], Panic OutOfFuel)
  | S fuel' =>
      if currentHeight <? lastHeight then
        bind_ (let! (t, tuples) := as_meta last in getCompositeChildSequence t tuples 0 (opt_seqLen last) w) (fun '(lastChild, w) =>
        orderedSequenceDiffInternalNodes fuel' lastChild current (lastHeight - 1) currentHeight w)
      else if lastHeight <? currentHeight then
        bind_ (let! (t, tuples) := as_meta current in getCompositeChildSequence t tuples 0 (opt_seqLen current) w) (fun '(currentChild, w) =>
        orderedSequenceDiffInternalNodes fuel' last currentChild lastHeight (currentHeight - 1) w)
      else if negb (is_meta last) && negb (is_meta current) then stream_of (orderedSequenceDiffLeftRight fuel' last current w)
      else
        bind_ (meta_compareFn last current) (fun eqFn =>
        bind_ (EditDistance.calcSplices eqFn (opt_seqLen last) (opt_seqLen current) EditDistance.DEFAULT_MAX_SPLICE_MATRIX_SIZE) (fun splices =>
        foldl (fun s sp => then_ s (fun w =>
          bind_ (let! (t, tuples) := as_meta last in getCompositeChildSequence t tuples (EditDistance.SpAt sp) (EditDistance.SpRemoved sp) w) (fun '(lastChild, w) =>
          bind_ (let! (t, tuples) := as_meta current in getCompositeChildSequence t tuples (EditDistance.SpFrom sp) (EditDistance.SpAdded sp) w) (fun '(currentChild, w) =>
          orderedSequenceDiffInternalNodes fuel' lastChild currentChild (lastHeight - 1) (currentHeight - 1) w)))) ([], Ok w) splices))
  end.
Definition orderedSequenceDiffTopDown (fuel : nat) (last current : sequence) (w : world) : stream :=
  bind_ (newCursorAt vr fuel last emptyKey false false w) (fun '(lastCur, w) =>
  bind_ (newCursorAt vr fuel current emptyKey false false w) (fun '(currentCur, w) =>
  orderedSequenceDiffInternalNodes fuel (Some last) (Some current) (depth lastCur) (depth currentCur) w)).

(** ** Both at once *)

(** What the goroutines have not sent yet, and how they end; what was counted and
    sent on. *)
Record best : Type := MkBest { b_lr : list ValueChanged; b_td : list ValueChanged; lrChangeCount : Z; tdChangeCount : Z; multiplexing : bool; b_out : list ValueChanged }.
Inductive best_result : Type := Running (s : best) | Finished (out : list ValueChanged) | Crashed (p : gopanic).
(** A receive of [select], from the left-right goroutine for [true].  When the
    function returns, a goroutine that has no more to send still runs to its end. *)
Definition best_step (tdEnd : outcome unit) (fromLr : bool) (s : best) : best_result :=
  let finish := match tdEnd, b_td s with Panic p, [] => Crashed p | _, _ => Finished (b_out s) end in
  if fromLr && multiplexing s then
    match b_lr s with
    | [] => finish
    | c :: lr => Running (MkBest lr (b_td s) (lrChangeCount s + 1) (tdChangeCount s) true (b_out s ++ [c]))
    end
  else
    match b_td s with
    | [] => finish
    | c :: td =>
        if multiplexing s && negb (lrChangeCount s <? tdChangeCount s + 1)
        then Running (MkBest (b_lr s) td (lrChangeCount s) (tdChangeCount s + 1) true (b_out s))
        else Running (MkBest (b_lr s) td (lrChangeCount s) (tdChangeCount s + 1) false (b_out s ++ [c]))
    end.
Fixpoint best_run (tdEnd : outcome unit) (schedule : list bool) (s : best) : best_result :=
  match schedule with
  | [] => Running s
  | e :: schedule' => match best_step tdEnd e s with Running s => best_run tdEnd schedule' s | r => r end
  end.
Definition orderedSequenceDiffBest (fuel : nat) (schedule : list bool) (last current : sequence) (w : world) : outcome (best_result * world) :=
  let! (lr, w) := orderedSequenceDiffLeftRight fuel (Some last) (Some current) w in
  let '(td, e) := orderedSequenceDiffTopDown fuel last current w in
  let (tdEnd, w) := match e with Ok w' => (Ok tt, w') | Panic p => (Panic p, w) end in
  Ok (best_run tdEnd schedule (MkBest lr td 0 0 true []), w).

(** ** Maps and sets *)

Definition Map_Diff (fuel : nat) (schedule : list bool) (m last : Value) (w : world) : outcome (best_result * world) :=
  let! (eq, w) := Equals m last w in
  if eq : bool then Ok (Finished [], w) else let! lseq := map_seq last in let! mseq := map_seq m in orderedSequenceDiffBest fuel schedule lseq mseq w.
Definition Map_DiffLeftRight (fuel : nat) (m last : Value) (w : world) : outcome (list ValueChanged * world) :=
  let! (eq, w) := Equals m last w in
  if eq : bool then Ok ([], w) else let! lseq := map_seq last in let! mseq := map_seq m in orderedSequenceDiffLeftRight fuel (Some lseq) (Some mseq) w.
Definition Set_Diff (fuel : nat) (schedule : list bool) (s last : Value) (w : world) : outcome (best_result * world) :=
  let! (eq, w) := Equals s last w in
  if eq : bool then Ok (Finished [], w) else let! lseq := set_seq last in let! sseq := set_seq s in orderedSequenceDiffBest fuel schedule lseq sseq w.
Definition Set_DiffLeftRight (fuel : nat) (s last : Value) (w : world) : outcome (list ValueChanged * world) :=
  let! (eq, w) := Equals s last w in
  if eq : bool then Ok ([], w) else let! lseq := set_seq last in let! sseq := set_seq s in orderedSequenceDiffLeftRight fuel (Some lseq) (Some sseq) w.

End diff.
End OrderedDiff.
