(* ===== verification/ChunkerFacts.v ===== *)
(** * Package [types]: chunking does not depend on history

    Where a sequence is cut depends only on its items, so the tree of a sequence
    is determined by its items.  The facts follow the chunker: from scratch it
    builds that tree, and resumed at a cursor of the tree of one sequence it
    builds the tree of the edited sequence. *)

From S2P Require Import Prelude GoLib HashPkg TypesCodec TypesType TypesValue RollingHash Sequences Chunker.
Import Hash Float64 Codec NomsKinds TypeCache Values Rolling Sequences Chunker.
Import BuzFacts RollingFacts.

Module ChunkerFacts.

(** ** Cutting a sequence *)

Section cut.
Context `{chunkingConfig}.
#[local] Abbreviation wn := (Z.to_nat chunkWindow).
(** The bytes of an item. *)
Context (by_ : sequenceItem -> list byte).

Definition hist (xs : list sequenceItem) : list byte := flat_map by_ xs.
(** No item of [xs], after [h], crosses a boundary. *)
Fixpoint quiet (h : list byte) (xs : list sequenceItem) : Prop :=
  match xs with [] => True | x :: xs' => crosses h (by_ x) = false /\ quiet (h ++ by_ x) xs' end.
(** Only the last item of [ck] does. *)
Definition loud (h : list byte) (ck : list sequenceItem) : Prop :=
  exists pre x, ck = pre ++ [x] /\ quiet h pre /\ crosses (h ++ hist pre) (by_ x) = true.
Fixpoint chunked (h : list byte) (cs : list (list sequenceItem)) (r : list sequenceItem) : Prop :=
  match cs with [] => quiet h r | ck :: cs' => loud h ck /\ chunked (h ++ hist ck) cs' r end.
(** After [h], the items [xs] are cut into the chunks [cs] and the rest [r]. *)
Definition cut (h : list byte) (xs : list sequenceItem) (cs : list (list sequenceItem)) (r : list sequenceItem) : Prop :=
  xs = concat cs ++ r /\ chunked h cs r.
(** All chunks: the end is a boundary as well. *)
Definition full (cs : list (list sequenceItem)) (r : list sequenceItem) : list (list sequenceItem) :=
  cs ++ match r with [] => [] | _ => [r] end.

Lemma hist_app xs ys : hist (xs ++ ys) = hist xs ++ hist ys.
Proof. apply flat_map_app. Qed.
Lemma hist_snoc xs x : hist (xs ++ [x]) = hist xs ++ by_ x.
Proof. rewrite hist_app. cbn. by rewrite app_nil_r. Qed.
Lemma quiet_app xs ys : forall h, quiet h (xs ++ ys) <-> quiet h xs /\ quiet (h ++ hist xs) ys.
Proof.
  induction xs as [|x xs IH]; intros h; cbn [app quiet hist flat_map]; [rewrite app_nil_r; tauto|].
  rewrite IH, <- app_assoc. tauto.
Qed.
Lemma quiet_snoc h xs x : quiet h (xs ++ [x]) <-> quiet h xs /\ crosses (h ++ hist xs) (by_ x) = false.
Proof. rewrite quiet_app. cbn [quiet]. tauto. Qed.
Lemma quiet_window xs : forall h k, same_window wn h k -> quiet h xs -> quiet k xs.
Proof.
  induction xs as [|x xs IH]; intros h k Hhk; cbn [quiet]; [done|]. intros [Hx Hq]. split; [by rewrite <- (crosses_window _ h k)|].
  by apply (IH (h ++ by_ x)); [apply same_window_app|].
Qed.
Lemma loud_window ck h k : same_window wn h k -> loud h ck -> loud k ck.
Proof.
  intros Hhk (pre & x & -> & Hq & Hx). exists pre, x. split_and!; [done|by apply (quiet_window pre h)|].
  by rewrite <- (crosses_window _ (h ++ hist pre) (k ++ hist pre)) by by apply same_window_app.
Qed.
Lemma chunked_window cs r : forall h k, same_window wn h k -> chunked h cs r -> chunked k cs r.
Proof.
  induction cs as [|ck cs IH]; intros h k Hhk; cbn [chunked]; [by apply quiet_window|]. intros [Hl Hc].
  split; [by apply (loud_window ck h)|]. by apply (IH (h ++ hist ck)); [apply same_window_app|].
Qed.
Lemma cut_window h k xs cs r : same_window wn h k -> cut h xs cs r -> cut k xs cs r.
Proof. intros Hhk [-> Hc]. split; [done|by apply (chunked_window cs r h)]. Qed.

Lemma chunked_app cs cs' r : forall h, chunked h (cs ++ cs') r <-> chunked h cs [] /\ chunked (h ++ hist (concat cs)) cs' r.
Proof.
  induction cs as [|ck cs IH]; intros h; cbn [app concat chunked]; [rewrite app_nil_r; cbn; tauto|].
  rewrite IH, hist_app, <- app_assoc. tauto.
Qed.
Lemma chunked_rest cs r : forall h, chunked h cs r <-> chunked h cs [] /\ quiet (h ++ hist (concat cs)) r.
Proof.
  induction cs as [|ck cs IH]; intros h; cbn [concat chunked]; [rewrite app_nil_r; cbn; tauto|].
  rewrite IH, hist_app, <- app_assoc. tauto.
Qed.

Lemma cut_nil h : cut h [] [] [].
Proof. done. Qed.
Lemma cut_hist h xs cs r : cut h xs cs r -> hist xs = hist (concat cs) ++ hist r.
Proof. intros [-> _]. apply hist_app. Qed.
Lemma cut_snoc h P cs r x : cut h P cs r ->
  if crosses (h ++ hist P) (by_ x) then cut h (P ++ [x]) (cs ++ [r ++ [x]]) [] else cut h (P ++ [x]) cs (r ++ [x]).
Proof.
  intros HP. pose proof (cut_hist _ _ _ _ HP) as Hh. destruct HP as [-> [Hc Hq]%chunked_rest]. rewrite Hh. destruct (crosses _ _) eqn:Hx.
  - split; [rewrite concat_app; cbn; by rewrite !app_nil_r, app_assoc|]. apply chunked_app. split; [done|]. cbn [chunked]. split; [|done].
    exists r, x. rewrite <- app_assoc. split_and!; try done; by rewrite ?app_assoc.
  - split; [by rewrite app_assoc|]. apply chunked_rest. split; [done|]. apply quiet_snoc. split; [done|]. by rewrite <- app_assoc.
Qed.
Lemma cut_exists xs : forall h, exists cs r, cut h xs cs r.
Proof.
  induction xs as [|x xs IH] using rev_ind; intros h; [exists [], []; apply cut_nil|]. destruct (IH h) as (cs & r & Hc).
  pose proof (cut_snoc h xs cs r x Hc) as Hs. destruct (crosses _ _); eauto.
Qed.
Lemma loud_quiet h ck a : loud h ck -> ~ quiet h (ck ++ a).
Proof. intros (pre & x & -> & _ & Hx) [[_ Hq]%quiet_snoc _]%quiet_app. by rewrite Hx in Hq. Qed.
Lemma loud_nonempty h ck : loud h ck -> ck <> [].
Proof. intros (pre & x & -> & _). by destruct pre. Qed.
Lemma loud_first h ck ck' a b : loud h ck -> loud h ck' -> ck ++ a = ck' ++ b -> (length ck <= length ck')%nat -> ck = ck'.
Proof.
  intros Hl (pre & x & -> & Hq & Hx) Heq Hle. destruct (decide (length ck = length (pre ++ [x]))) as [Hlen|Hlen]; [by apply app_inj_1 in Heq as [-> _]|].
  exfalso. apply (loud_quiet h ck (drop (length ck) pre) Hl). rewrite length_app in *. cbn in *.
  assert (ck = take (length ck) pre) as Hck.
  { apply (f_equal (take (length ck))) in Heq. rewrite take_app_length, <- app_assoc, take_app_le in Heq by lia. done. }
  rewrite Hck at 1. by rewrite take_drop.
Qed.
Lemma cut_fun h xs cs r : forall cs' r', cut h xs cs r -> cut h xs cs' r' -> cs = cs' /\ r = r'.
Proof.
  revert h xs. induction cs as [|ck cs IH]; intros h xs [|ck' cs'] r' [-> Hc] [He Hc']; cbn [concat app chunked] in *; [done| | |].
  - destruct Hc' as [Hl _]. rewrite <- app_assoc in He. subst r. by apply loud_quiet in Hc.
  - destruct Hc as [Hl _]. rewrite <- app_assoc in He. rewrite <- He in Hc'. by apply loud_quiet in Hc'.
  - destruct Hc as [Hl Hc], Hc' as [Hl' Hc']. rewrite <- !app_assoc in He.
    assert (ck = ck') as <- by (destruct (Nat.le_ge_cases (length ck) (length ck')); [by eapply loud_first|symmetry; by eapply loud_first]).
    apply app_inv_head in He. destruct (IH (h ++ hist ck) (concat cs ++ r) cs' r') as [-> ->]; [done|by split|done].
Qed.
Lemma cut_prefix h P Q cs r csN rN : cut h P cs r -> cut h (P ++ Q) csN rN -> exists cs2, csN = cs ++ cs2.
Proof.
  intros HP. revert csN rN. induction Q as [|y Q IH] using rev_ind; intros csN rN HN.
  - rewrite app_nil_r in HN. destruct (cut_fun _ _ _ _ _ _ HP HN) as [-> _]. exists []. by rewrite app_nil_r.
  - destruct (cut_exists (P ++ Q) h) as (cs1 & r1 & H1). destruct (IH cs1 r1 H1) as [cs2 ->]. pose proof (cut_snoc h (P ++ Q) _ _ y H1) as Hs. rewrite app_assoc in HN.
    destruct (crosses _ _); destruct (cut_fun _ _ _ _ _ _ HN Hs) as [-> _]; [rewrite <- app_assoc|]; eauto.
Qed.
Lemma cut_app h P cs Q cs' r' : cut h P cs [] -> cut (h ++ hist P) Q cs' r' -> cut h (P ++ Q) (cs ++ cs') r'.
Proof.
  intros [-> Hc] [-> Hc']. rewrite app_nil_r in *. split; [by rewrite concat_app, <- app_assoc|]. by apply chunked_app.
Qed.
Lemma full_nil r cs : full cs r = [] -> cs = [] /\ r = [].
Proof. unfold full. intros [-> Hr]%app_eq_nil. by destruct r. Qed.
Lemma concat_full cs r : concat (full cs r) = concat cs ++ r.
Proof. unfold full. rewrite concat_app. destruct r; cbn; by rewrite ?app_nil_r. Qed.
Lemma full_nonempty h xs cs r ck : cut h xs cs r -> ck ∈ full cs r -> ck <> [].
Proof.
  intros [_ Hc] [Hin|Hin]%elem_of_app.
  - revert h Hc. induction cs as [|ck' cs IH]; intros h; [by apply elem_of_nil in Hin|]. intros [Hl Hc]. apply elem_of_cons in Hin as [->|Hin]; [by eapply loud_nonempty|by eapply IH].
  - destruct r; [by apply elem_of_nil in Hin|]. by apply list_elem_of_singleton in Hin as ->.
Qed.
(** The cut before the chunks [cs2] and from there on. *)
Lemma cut_split h xs cs r cs1 cs2 : cut h xs cs r -> full cs r = cs1 ++ cs2 -> cs2 <> [] ->
  cut h (concat cs1) cs1 [] /\ exists cs3, cut (h ++ hist (concat cs1)) (concat cs2) cs3 r /\ full cs3 r = cs2 /\ xs = concat cs1 ++ concat cs2.
Proof.
  intros [-> Hc] Hf Hne. assert (exists cs3, cs = cs1 ++ cs3 /\ cs2 = full cs3 r) as (cs3 & -> & ->).
  { unfold full in *. destruct r as [|x r]; [exists cs2; rewrite !app_nil_r in *; by subst|].
    destruct cs2 as [|ck cs2 _] using rev_ind; [done|]. rewrite (app_assoc cs1) in Hf. apply app_inj_2 in Hf as [-> Hck]; [|done]. exists cs2. by rewrite Hck. }
  apply chunked_app in Hc as [Hc1 Hc2]. split; [split; [by rewrite app_nil_r|done]|]. exists cs3. split_and!; [|done|].
  - split; [apply concat_full|done].
  - by rewrite concat_full, concat_app, <- app_assoc.
Qed.
(** The cut inside the chunk [ck]. *)
Lemma loud_inside h ck i : loud h ck -> (i < length ck)%nat -> quiet h (take i ck).
Proof.
  intros (pre & x & -> & Hq & _) Hi. rewrite length_app in Hi. cbn in Hi. rewrite take_app_le by lia.
  rewrite <- (take_drop i pre), quiet_app in Hq. tauto.
Qed.
Lemma cut_inside h xs cs r cs1 ck cs2 i : cut h xs cs r -> full cs r = cs1 ++ ck :: cs2 -> (i < length ck)%nat -> cut h (concat cs1 ++ take i ck) cs1 (take i ck).
Proof.
  intros Hx Hf Hi. destruct (cut_split _ _ _ _ _ _ Hx Hf) as ([_ Hc] & cs3 & [_ Hc3] & Hf3 & _); [done|]. split; [done|].
  apply chunked_rest. split; [done|]. unfold full in Hf3. destruct cs3 as [|ck3 cs3]; cbn in Hf3.
  - destruct r as [|x r]; [done|]. injection Hf3 as <- _. cbn [chunked] in Hc3. rewrite <- (take_drop i (x :: r)), quiet_app in Hc3. tauto.
  - injection Hf3 as -> _. destruct Hc3 as [Hl _]. by apply loud_inside.
Qed.
(** The cut after the last chunk. *)
Lemma cut_last h xs cs r cs1 ck : cut h xs cs r -> full cs r = cs1 ++ [ck] -> exists pre x, ck = pre ++ [x] /\ cut h (concat cs1 ++ pre) cs1 pre /\
  if crosses (h ++ hist (concat cs1 ++ pre)) (by_ x) then cs = cs1 ++ [ck] /\ r = [] else cs = cs1 /\ r = ck.
Proof.
  intros Hx Hf. assert (ck <> []) as Hne by (eapply full_nonempty; [exact Hx|rewrite Hf; apply elem_of_app; right; by apply list_elem_of_singleton]).
  destruct ck as [|x pre _] using rev_ind; [done|]. exists pre, x. split; [done|].
  pose proof (cut_inside h xs cs r cs1 (pre ++ [x]) [] (length pre) Hx Hf ltac:(rewrite length_app; cbn; lia)) as Hp. rewrite take_app_length in Hp. split; [done|].
  pose proof (cut_snoc h _ _ _ x Hp) as Hs. destruct (cut_split _ _ _ _ _ _ Hx Hf) as (_ & cs3 & _ & _ & Hxs); [done|]. cbn [concat] in Hxs. rewrite app_nil_r, app_assoc in Hxs. subst xs.
  destruct (crosses _ _); by destruct (cut_fun _ _ _ _ _ _ Hx Hs) as [-> ->].
Qed.
End cut.

(** ** Trees

    The facts hold for all chunk functions that obey these laws: items have a
    byte sequence that the hasher is fed, and a chunk that was created once is
    created again as the same tuple in every later state. *)

(** The chunk functions of a kind of collection, the states of the type cache and
    their order, the items of a level (the leaves for [true]) and their bytes. *)
Class chunking := MkChunking {
  c_vr : option (Hash -> option Value); c_makeChunk : makeChunkFn; c_parentMakeChunk : makeChunkFn; c_leafHash : hashValueBytesFn;
  inv : cstate -> Prop; le : cstate -> cstate -> Prop; ok : bool -> cstate -> sequenceItem -> Prop; bytes : bool -> cstate -> sequenceItem -> list byte
}.

Section tree.
Context `{chunkingConfig, chunking}.

Definition create (l : bool) (items : list sequenceItem) (st : cstate) : outcome (sequence * metaTuple * cstate) :=
  let! (seq, mt, _, st) := createSequence false c_makeChunk c_parentMakeChunk l (MkSc None items newRollingValueHasher false) st in Ok (seq, mt, st).
(** The number of leaves of a chunk. *)
Definition leaves (l : bool) (items : list sequenceItem) : Z :=
  if l then Zlength items else foldl (fun n x => match x with MItem mt => n + mt_numLeaves mt | _ => n end) 0 items.

(** The length of a slice of values is an [int]. *)
Definition small (l : bool) (items : list sequenceItem) : Prop := l = true -> Zlength items < 2 ^ 63.
Lemma small_app l xs ys : small l (xs ++ ys) -> small l xs /\ small l ys.
Proof. unfold small. rewrite Zlength_app. pose proof (Zlength_nonneg xs). pose proof (Zlength_nonneg ys). intuition lia. Qed.

Record made (l : bool) (st : cstate) (items : list sequenceItem) (seq : sequence) (mt : metaTuple) : Prop := MkMade {
  md_again : forall st2, inv st2 -> le st st2 -> exists st3, create l items st2 = Ok (seq, mt, st3) /\ inv st3 /\ le st2 st3;
  md_items : seq_items seq = items;
  md_meta : isMetaSequence seq = negb l;
  md_child : mt_getChildSequence c_vr mt = Ok seq;
  md_leaves : leaves l items < 2 ^ 63 -> mt_numLeaves mt = leaves l items;
  md_ok : items <> [] -> ok false st (MItem mt)
}.
Class chunk_laws : Prop := {
  cl_refl st : le st st;
  cl_trans st1 st2 st3 : le st1 st2 -> le st2 st3 -> le st1 st3;
  cl_ok l st st' x : le st st' -> ok l st x -> ok l st' x;
  cl_bytes l st st' x : le st st' -> ok l st x -> bytes l st' x = bytes l st x;
  cl_small l st x : ok l st x -> Zlength (bytes l st x) < 2 ^ 32;
  cl_hash l st x rv : inv st -> ok l st x ->
    level_hash c_leafHash l x (rv, st_tc st) = let! rv := rv_writeBytes rv (bytes l st x) in Ok (rv, st_tc st);
  cl_create l st items seq mt st' : inv st -> Forall (ok l st) items -> (items <> [] \/ l = true) -> small l items -> create l items st = Ok (seq, mt, st') ->
    inv st' /\ le st st' /\ made l st' items seq mt
}.
Context `{!chunk_laws}.

Lemma createSequence_create l c st : createSequence false c_makeChunk c_parentMakeChunk l c st =
  let! (seq, mt, st) := create l (current c) st in Ok (seq, mt, set_current c [], st).
Proof.
  unfold create, createSequence. cbn [current]. destruct (level_makeChunk _ _ _ _ _) as [[[[col key] n] w]|]; [|done]. cbn [obind].
  destruct (sequence_of col); [|done]. cbn [obind]. destruct (NewRef col w) as [[? ?]|]; done.
Qed.
Lemma made_le l st st' items seq mt : le st st' -> made l st items seq mt -> made l st' items seq mt.
Proof.
  intros Hle [Ha Hi Hm Hc Hl Ho]. constructor; try done; [|intros Hne; eapply cl_ok; [done|by apply Ho]]. intros st2 Hinv Hle2. apply Ha; [done|]. by eapply cl_trans.
Qed.
Lemma made_fun l st items seq mt seq' mt' : inv st -> made l st items seq mt -> made l st items seq' mt' -> seq = seq' /\ mt = mt'.
Proof.
  intros Hinv Hm Hm'. destruct (md_again _ _ _ _ _ Hm st Hinv (cl_refl st)) as (st3 & He & _). destruct (md_again _ _ _ _ _ Hm' st Hinv (cl_refl st)) as (st4 & He' & _).
  rewrite He in He'. by injection He' as -> -> ->.
Qed.
(** The item of the next level for a chunk. *)
Definition tuple_of (l : bool) (st : cstate) (ck : list sequenceItem) (t : sequenceItem) : Prop := exists seq mt, t = MItem mt /\ made l st ck seq mt /\ ck <> [].
Lemma tuple_of_le l st st' ck t : le st st' -> tuple_of l st ck t -> tuple_of l st' ck t.
Proof. intros Hle (seq & mt & -> & Hm & Hne). exists seq, mt. split; [done|]. split; [by eapply made_le|done]. Qed.
Lemma tuple_of_fun l st ck t t' : inv st -> tuple_of l st ck t -> tuple_of l st ck t' -> t = t'.
Proof. intros Hinv (seq & mt & -> & Hm & _) (seq' & mt' & -> & Hm' & _). by destruct (made_fun _ _ _ _ _ _ _ Hinv Hm Hm') as [_ ->]. Qed.
Lemma tuples_fun l st cs : forall ts ts', inv st -> Forall2 (tuple_of l st) cs ts -> Forall2 (tuple_of l st) cs ts' -> ts = ts'.
Proof.
  induction cs as [|ck cs IH]; intros ts ts' Hinv Hf Hf'; inversion Hf; inversion Hf'; subst; [done|]. f_equal; [by eapply tuple_of_fun|by apply IH].
Qed.

Lemma hist_le l st st' xs : le st st' -> Forall (ok l st) xs -> hist (bytes l st') xs = hist (bytes l st) xs.
Proof. intros Hle. unfold hist. induction 1 as [|x xs Hx _ IH]; [done|]. cbn [flat_map]. by rewrite (cl_bytes l st st' x), IH. Qed.
Lemma quiet_le l st st' xs : le st st' -> Forall (ok l st) xs -> forall h, quiet (bytes l st) h xs -> quiet (bytes l st') h xs.
Proof. intros Hle. induction 1 as [|x xs Hx _ IH]; intros h; cbn [quiet]; [done|]. rewrite (cl_bytes l st st' x) by done. intros [? ?]. split; [done|by apply IH]. Qed.
Lemma chunked_le l st st' cs r : le st st' -> Forall (ok l st) (concat cs ++ r) -> forall h, chunked (bytes l st) h cs r -> chunked (bytes l st') h cs r.
Proof.
  intros Hle. induction cs as [|ck cs IH]; cbn [concat app chunked]; intros Hok h; [by apply quiet_le|]. rewrite <- app_assoc in Hok. apply Forall_app in Hok as [Hck Hok].
  intros [(pre & x & -> & Hq & Hx) Hc]. split; [|rewrite (hist_le l st st') by done; by apply IH]. apply Forall_app in Hck as [Hpre Hxs%Forall_inv].
  exists pre, x. split; [done|]. rewrite (hist_le l st st') by done. rewrite (cl_bytes l st st' x) by done. split; [by apply (quiet_le l st)|done].
Qed.
Lemma cut_le l st st' h xs cs r : le st st' -> Forall (ok l st) xs -> cut (bytes l st) h xs cs r -> cut (bytes l st') h xs cs r.
Proof. intros Hle Hok [-> Hc]. split; [done|by apply (chunked_le l st)]. Qed.

(** The levels that the chunker builds from the items of the first level, up to
    one without a boundary. *)
Inductive built (st : cstate) : bool -> list (list sequenceItem) -> Prop :=
| built_top l N : Forall (ok l st) N -> cut (bytes l st) [] N [] N -> built st l [N]
| built_up l N cs r N1 rest : Forall (ok l st) N -> cut (bytes l st) [] N cs r -> cs <> [] -> Forall2 (tuple_of l st) (full cs r) N1 ->
    built st false (N1 :: rest) -> built st l (N :: N1 :: rest).
(** The levels of a tree: the last one has one chunk. *)
Inductive tower (st : cstate) : bool -> list (list sequenceItem) -> Prop :=
| tower_root l L cs r : Forall (ok l st) L -> cut (bytes l st) [] L cs r -> (length (full cs r) <= 1)%nat -> tower st l [L]
| tower_up l L cs r L1 rest : Forall (ok l st) L -> cut (bytes l st) [] L cs r -> Forall2 (tuple_of l st) (full cs r) L1 -> L1 <> [] ->
    tower st false (L1 :: rest) -> tower st l (L :: L1 :: rest).

Lemma tuples_le l st st' cs ts : le st st' -> Forall2 (tuple_of l st) cs ts -> Forall2 (tuple_of l st') cs ts.
Proof. intros Hle Hf. eapply Forall2_impl; [exact Hf|]. intros ck t. by apply tuple_of_le. Qed.
Lemma oks_le l st st' xs : le st st' -> Forall (ok l st) xs -> Forall (ok l st') xs.
Proof. intros Hle Hf. eapply Forall_impl; [exact Hf|]. intros x. by apply cl_ok. Qed.
Lemma built_le st st' l N : le st st' -> built st l N -> built st' l N.
Proof.
  intros Hle. induction 1 as [l N Hok Hc|l N cs r N1 rest Hok Hc Hne Hts _ IH].
  - constructor; [by eapply oks_le|by apply (cut_le l st)].
  - econstructor; [by eapply oks_le|by apply (cut_le l st)|done|by eapply tuples_le|done].
Qed.
Lemma tower_le st st' l N : le st st' -> tower st l N -> tower st' l N.
Proof.
  intros Hle. induction 1 as [l N cs r Hok Hc Hl|l N cs r N1 rest Hok Hc Hts Hne _ IH].
  - econstructor; [by eapply oks_le|by apply (cut_le l st)|done].
  - econstructor; [by eapply oks_le|by apply (cut_le l st)|by eapply tuples_le|done|done].
Qed.

End tree.

End ChunkerFacts.
