(* ===== verification/CursorFacts.v ===== *)
(** * Package [types]: cursors in a tree

    A cursor is at a position of the items of its level.  Advancing and
    retreating move by one item, across the chunks of the tree. *)

From S2P Require Import Prelude GoLib HashPkg TypesCodec TypesType TypesValue RollingHash Sequences Chunker ChunkerFacts.
Import Hash Float64 Codec NomsKinds TypeCache Values Rolling Sequences Chunker.
Import BuzFacts RollingFacts ChunkerFacts.

Module CursorFacts.

Section cursor.
Context `{chunkingConfig, chunking}.

(** A cursor at item [q] of the first level of a tower. *)
Inductive at_ (st : cstate) : bool -> list (list sequenceItem) -> nat -> sequenceCursor -> Prop :=
| at_root l L q seq : seq_items seq = L -> (q <= length L)%nat -> at_ st l [L] q [MkLevel seq (Z.of_nat q)]
| at_up l L cs r L1 rest cs1 ck cs2 i seq mt cur : cut (bytes l st) [] L cs r -> full cs r = cs1 ++ ck :: cs2 ->
    L1 !! length cs1 = Some (MItem mt) -> made l st ck seq mt -> ((i < length ck)%nat \/ (i = length ck /\ cs2 = [])) ->
    at_ st false (L1 :: rest) (length cs1) cur ->
    at_ st l (L :: L1 :: rest) (length (concat cs1) + i) (MkLevel seq (Z.of_nat i) :: cur).

Lemma at_le `{!chunk_laws} st st' l olds q cur : le st st' -> tower st l olds -> at_ st l olds q cur -> at_ st' l olds q cur.
Proof.
  intros Hle Ht Hat. induction Hat as [l L q seq Hs Hq|l L cs r L1 rest cs1 ck cs2 i seq mt cur Hc Hf Hm Hmd Hi _ IH]; [by constructor|].
  inversion Ht; subst. econstructor; try done; [by apply (cut_le l st)|by eapply made_le|]. by apply IH.
Qed.

Lemma concat_length_mid {A} (cs1 cs2 : list (list A)) ck : length (concat (cs1 ++ ck :: cs2)) = (length (concat cs1) + length ck + length (concat cs2))%nat.
Proof. rewrite concat_app. cbn [concat]. rewrite !length_app. lia. Qed.
Lemma cut_length by_ h L cs r cs1 ck cs2 : cut by_ h L cs r -> full cs r = cs1 ++ ck :: cs2 ->
  length L = (length (concat cs1) + length ck + length (concat cs2))%nat.
Proof. intros [-> _] Hf. by rewrite <- concat_full, Hf, concat_length_mid. Qed.
Lemma at_bound st l L rest q cur : at_ st l (L :: rest) q cur -> (q <= length L)%nat.
Proof.
  inversion 1 as [? ? ? ? ? Hq|? ? cs r ? ? cs1 ck cs2 i ? ? ? Hc Hf _ _ Hi]; subst; [done|].
  rewrite (cut_length _ _ _ _ _ _ _ _ Hc Hf). lia.
Qed.

(** The tuple of a cursor on a level above the leaves. *)
Lemma meta_item seq i mt : seq_items seq !! i = Some (MItem mt) -> exists t tuples, seq = metaSequence t tuples /\ tuples !! i = Some mt.
Proof.
  destruct seq; cbn; rewrite list_lookup_fmap; intros (a & Ha & Heq)%fmap_Some; try discriminate Heq. injection Heq as ->. eauto.
Qed.
Lemma index_nat {A} (l : list A) (i : nat) a : l !! i = Some a -> index l (Z.of_nat i) = Ok a.
Proof. intros Hl. unfold index. rewrite (proj2 (Z.leb_le 0 _)), Nat2Z.id, Hl by lia. done. Qed.
(** The item under the cursor. *)
Lemma at_current st l L rest q cur x : at_ st l (L :: rest) q cur -> L !! q = Some x -> cur_current cur = Ok x /\ valid cur = true.
Proof.
  intros Hat Hx. assert (exists seq i, head cur = Some (MkLevel seq (Z.of_nat i)) /\ seq_items seq !! i = Some x) as (seq & i & Hh & Hi).
  { inversion Hat as [? ? ? seq Hs Hq|? ? cs r ? ? cs1 ck cs2 i seq mt cur' Hc Hf _ Hmd Hi]; subst; [by eexists _, _|]. eexists _, _. split; [done|].
    rewrite (md_items _ _ _ _ _ Hmd). destruct Hc as [-> _]. rewrite <- concat_full, Hf, concat_app in Hx. cbn [concat] in Hx.
    rewrite lookup_app_r in Hx by lia. replace (_ + i - _)%nat with i in Hx by lia. destruct Hi as [Hi|[-> ->]]; [by rewrite lookup_app_l in Hx|].
    cbn [concat] in Hx. rewrite app_nil_r in Hx. apply lookup_lt_Some in Hx. lia. }
  destruct cur as [|lv cur]; [done|]. injection Hh as ->. pose proof (lookup_lt_Some _ _ _ Hi).
  assert (valid (MkLevel seq (Z.of_nat i) :: cur) = true) as Hv by (cbn; unfold seqLen, Zlength; bool_lia).
  cbn [cur_current]. rewrite Hv. cbn [check obind]. split; [|done]. by apply index_nat.
Qed.
Lemma at_invalid st l L rest q cur : at_ st l (L :: rest) q cur -> q = length L -> valid cur = false.
Proof.
  intros Hat ->. inversion Hat as [? ? ? seq Hs Hq|? ? cs r ? ? cs1 ck cs2 i seq mt cur' Hc Hf _ Hmd Hi]; subst; cbn; unfold seqLen, Zlength.
  - bool_lia.
  - rewrite (md_items _ _ _ _ _ Hmd). pose proof (cut_length _ _ _ _ _ _ _ _ Hc Hf). destruct Hi as [Hi|[-> ->]]; bool_lia.
Qed.
Lemma sync_at st L rest q cur mt : at_ st false (L :: rest) q cur -> L !! q = Some (MItem mt) -> sync c_vr cur = mt_getChildSequence c_vr mt.
Proof.
  intros Hat Hx. destruct (at_current _ _ _ _ _ _ _ Hat Hx) as [Hcur _]. destruct cur as [|[seq i] cur]; [done|]. cbn [cur_current] in Hcur.
  destruct (valid _) eqn:Hv; [|done]. cbn [check obind] in Hcur. unfold getItem, index in Hcur. cbn in Hv. destruct (0 <=? i) eqn:Hi; [|done].
  destruct (seq_items seq !! Z.to_nat i) as [y|] eqn:Hy; [|done]. injection Hcur as ->. destruct (meta_item _ _ _ Hy) as (t & tuples & -> & Hmt).
  unfold sync. cbn [cur_getChildSequence getChildSequence]. rewrite <- (Z2Nat.id i), (index_nat tuples _ mt) by (done || lia). cbn [obind]. by destruct (mt_getChildSequence c_vr mt).
Qed.

Lemma at_nonempty st l olds q cur : at_ st l olds q cur -> exists lv rest, cur = lv :: rest.
Proof. inversion 1; eauto. Qed.
(** The tuple of the next chunk. *)
Lemma tuple_lookup l st cs L1 p ck : Forall2 (tuple_of l st) cs L1 -> cs !! p = Some ck -> exists seq mt, L1 !! p = Some (MItem mt) /\ made l st ck seq mt.
Proof. intros Hf Hp. destruct (Forall2_lookup_l _ _ _ _ _ Hf Hp) as (t & Ht & seq & mt & -> & Hm & _). eauto. Qed.

Definition advances (st : cstate) (l : bool) (olds : list (list sequenceItem)) (q : nat) (cur : sequenceCursor) : Prop :=
  let n := length (hd [] olds) in
  ((S q < n)%nat -> forall b, exists cur', advanceMaybeAllowPastEnd c_vr cur b = Ok (true, cur') /\ at_ st l olds (S q) cur') /\
  (S q = n -> advanceMaybeAllowPastEnd c_vr cur false = Ok (false, cur) /\ exists cur', advance c_vr cur = Ok (false, cur') /\ at_ st l olds (S q) cur') /\
  (q = n -> forall b, advanceMaybeAllowPastEnd c_vr cur b = Ok (false, cur)).
Lemma advance_at st l olds q cur : tower st l olds -> at_ st l olds q cur -> advances st l olds q cur.
Proof.
  intros Ht Hat. induction Hat as [l L q seq Hs Hq|l L cs r L1 rest cs1 ck cs2 i seq mt cur Hc Hf Hm Hmd Hi Hat IH]; unfold advances; cbn [hd].
  - unfold advance. cbn [advanceMaybeAllowPastEnd]. unfold seqLen, Zlength. rewrite Hs. split_and!.
    + intros Hlt b. rewrite (proj2 (Z.ltb_lt _ _)) by lia. eexists. split; [done|]. replace (Z.of_nat q + 1) with (Z.of_nat (S q)) by lia. by constructor; [|lia].
    + intros Heq. rewrite (proj2 (Z.ltb_ge _ _)), (proj2 (Z.eqb_neq _ _)) by lia. cbn [obind]. split; [done|]. eexists. split; [done|].
      replace (Z.of_nat q + 1) with (Z.of_nat (S q)) by lia. by constructor; [|lia].
    + intros Heq b. by rewrite (proj2 (Z.ltb_ge _ _)), (proj2 (Z.eqb_eq _ _)) by lia.
  - inversion Ht as [|? ? cs' r' ? ? Hok Hc' Hts Hne Ht']; subst. destruct (cut_fun _ _ _ _ _ _ _ Hc Hc') as [<- <-]. rewrite Hf in Hts.
    specialize (IH Ht') as (IH1 & IH2 & _). cbn [hd] in *. pose proof (Forall2_length _ _ _ Hts) as Hlen1. rewrite length_app in Hlen1. cbn [length] in Hlen1.
    rewrite (cut_length _ _ _ _ _ _ _ _ Hc Hf). unfold advance. cbn [advanceMaybeAllowPastEnd]. unfold seqLen, Zlength. rewrite (md_items _ _ _ _ _ Hmd).
    destruct (at_nonempty _ _ _ _ _ Hat) as (lv & crest & ->). set (cur := lv :: crest) in *.
    destruct (decide (S i < length ck)%nat) as [Hlt|Hge]; [|destruct (decide (i = length ck)) as [->|Hne']].
    + split_and!; [|lia|lia]. intros _ b. rewrite (proj2 (Z.ltb_lt _ _)) by lia. eexists. split; [done|]. rewrite <- Nat.add_succ_r.
      replace (Z.of_nat i + 1) with (Z.of_nat (S i)) by lia. econstructor; try done; [left; lia].
    + destruct Hi as [Hi|[_ ->]]; [lia|]. cbn [concat length]. split_and!; [lia|lia|]. intros _ b. by rewrite (proj2 (Z.ltb_ge _ _)), (proj2 (Z.eqb_eq _ _)) by lia.
    + rewrite (proj2 (Z.ltb_ge _ _)), (proj2 (Z.eqb_neq _ _)) by lia. destruct cs2 as [|ck2 cs3].
      * destruct (IH2 ltac:(cbn [length] in *; lia)) as [-> _]. cbn [concat length obind]. split_and!; [lia| |lia]. intros _. split; [done|]. eexists. split; [done|].
        rewrite <- Nat.add_succ_r. replace (Z.of_nat i + 1) with (Z.of_nat (S i)) by lia. econstructor; try done; right; split; [lia|done].
      * destruct (tuple_lookup _ _ _ _ (S (length cs1)) ck2 Hts) as (seq2 & mt2 & Hm2 & Hmd2); [rewrite lookup_app_r by lia; by replace (S (length cs1) - length cs1)%nat with 1%nat by lia|].
        assert (0 < length ck2)%nat as Hpos.
        { pose proof (full_nonempty _ _ _ _ _ ck2 Hc) as Hn. rewrite Hf in Hn. destruct ck2; [|cbn; lia]. exfalso. apply Hn; [|done]. apply elem_of_app. right. do 2 constructor. }
        split_and!; [|cbn [concat] in *; rewrite length_app; lia|cbn [concat] in *; rewrite length_app; lia]. intros _ b.
        destruct (IH1 ltac:(cbn [length] in *; lia) false) as (cur' & -> & Hat'). cbn [obind]. rewrite (sync_at _ _ _ _ _ _ Hat' Hm2), (md_child _ _ _ _ _ Hmd2). cbn [obind].
        eexists. split; [done|]. replace (S (length (concat cs1) + i)) with (length (concat (cs1 ++ [ck])) + 0)%nat by (rewrite concat_length_mid; cbn; lia).
        apply (at_up st l L cs r L1 rest (cs1 ++ [ck]) ck2 cs3 0%nat seq2 mt2 cur'); try done; [by rewrite <- app_assoc|by rewrite length_app, Nat.add_comm|by left|by rewrite length_app, Nat.add_comm].
Qed.

Definition retreats (st : cstate) (l : bool) (olds : list (list sequenceItem)) (q : nat) (cur : sequenceCursor) : Prop :=
  match q with
  | O => retreatMaybeAllowBeforeStart c_vr cur false = Ok (false, cur)
  | S q' => forall b, exists cur', retreatMaybeAllowBeforeStart c_vr cur b = Ok (true, cur') /\ at_ st l olds q' cur'
  end.
Lemma retreat_at st l olds q cur : tower st l olds -> at_ st l olds q cur -> retreats st l olds q cur.
Proof.
  intros Ht Hat. induction Hat as [l L q seq Hs Hq|l L cs r L1 rest cs1 ck cs2 i seq mt cur Hc Hf Hm Hmd Hi Hat IH].
  - destruct q as [|q]; cbn; [done|]. intros b. eexists. split; [done|]. replace (Z.of_nat (S q) - 1) with (Z.of_nat q) by lia. by constructor; [|lia].
  - inversion Ht as [|? ? cs' r' ? ? Hok Hc' Hts Hne Ht']; subst. destruct (cut_fun _ _ _ _ _ _ _ Hc Hc') as [<- <-]. rewrite Hf in Hts. specialize (IH Ht').
    destruct (at_nonempty _ _ _ _ _ Hat) as (lv & crest & ->). set (cur := lv :: crest) in *. destruct i as [|i].
    + rewrite Nat.add_0_r in *. destruct cs1 as [|ck0 cs0 _] using rev_ind.
      * cbn [concat length retreats retreatMaybeAllowBeforeStart Z.of_nat Z.ltb Z.eqb check obind Z.compare] in *. rewrite IH. done.
      * assert (exists mt0 seq0, L1 !! length cs0 = Some (MItem mt0) /\ made l st ck0 seq0 mt0) as (mt0 & seq0 & Hm0 & Hmd0).
        { destruct (tuple_lookup _ _ _ _ (length cs0) ck0 Hts) as (seq0 & mt0 & ? & ?); [|by eauto]. rewrite <- app_assoc, lookup_app_r, Nat.sub_diag by lia. done. }
        assert (0 < length ck0)%nat as Hpos.
        { pose proof (full_nonempty _ _ _ _ _ ck0 Hc) as Hn. rewrite Hf in Hn. destruct ck0; [|cbn; lia]. exfalso. apply Hn; [|done]. rewrite <- app_assoc. apply elem_of_app. right. constructor. }
        rewrite length_app, Nat.add_comm in IH. cbn [length Nat.add retreats] in IH. destruct (IH false) as (cur' & Hr & Hat').
        rewrite concat_app, length_app. cbn [concat]. rewrite app_nil_r. replace (length (concat cs0) + length ck0)%nat with (S (length (concat cs0) + pred (length ck0))) by lia.
        cbn [retreats retreatMaybeAllowBeforeStart Z.of_nat Z.ltb Z.eqb check obind Z.compare]. intros b. change (Z.of_nat 0) with 0. cbn [Z.ltb Z.eqb check obind Z.compare]. rewrite Hr. subst cur. cbn [obind]. rewrite (sync_at _ _ _ _ _ _ Hat' Hm0), (md_child _ _ _ _ _ Hmd0). cbn [obind].
        eexists. split; [done|]. unfold seqLen, Zlength. rewrite (md_items _ _ _ _ _ Hmd0). replace (Z.of_nat (length ck0) - 1) with (Z.of_nat (pred (length ck0))) by lia.
        apply (at_up st l L cs r L1 rest cs0 ck0 (ck :: cs2) _ seq0 mt0 cur'); try done; [by rewrite Hf, <- app_assoc|left; lia].
    + rewrite Nat.add_succ_r. cbn [retreats retreatMaybeAllowBeforeStart]. intros b. rewrite (proj2 (Z.ltb_lt _ _)) by lia. eexists. split; [done|].
      replace (Z.of_nat (S i) - 1) with (Z.of_nat i) by lia. econstructor; try done; left; lia.
Qed.

(** The chunk of a cursor. *)
Lemma at_place st l L rest q cur : tower st l (L :: rest) -> at_ st l (L :: rest) q cur -> L <> [] -> exists cs r cs1 ck cs2 i,
  cut (bytes l st) [] L cs r /\ full cs r = cs1 ++ ck :: cs2 /\ q = (length (concat cs1) + i)%nat /\ indexInChunk cur = Z.of_nat i /\ cur_length cur = Zlength ck /\
  ((i < length ck)%nat \/ (i = length ck /\ cs2 = [])) /\
  match rest with [] => cs1 = [] /\ cs2 = [] /\ tail cur = [] | _ => at_ st false rest (length cs1) (tail cur) end.
Proof.
  intros Ht Hat Hne. inversion Hat as [? ? ? seq Hs Hq|? ? cs r ? ? cs1 ck cs2 i seq mt cur' Hc Hf Hm Hmd Hi Hat']; subst.
  - inversion Ht as [? ? cs r Hok Hc Hl|]; subst. pose proof (concat_full cs r) as Hcf. destruct Hc as [Hx Hch]. rewrite <- Hx in Hcf.
    destruct (full cs r) as [|ck [|]] eqn:Hf; cbn in Hl; [by rewrite <- Hcf in Hne|cbn in Hcf; rewrite app_nil_r in Hcf|lia]. subst ck.
    exists cs, r, [], (seq_items seq), [], q. split_and!; try done. destruct (decide (q = length (seq_items seq))); [by right|left; lia].
  - exists cs, r, cs1, ck, cs2, i. split_and!; try done. cbn. unfold seqLen. by rewrite (md_items _ _ _ _ _ Hmd).
Qed.

End cursor.

End CursorFacts.
