(* ===== verification/AppendFacts.v ===== *)
(** * Package [types]: the chunker appends

    The levels of a chunker after some items: each level holds the items behind
    its last boundary, and its parent has the tuples of the chunks before. *)

From S2P Require Import Prelude GoLib HashPkg TypesCodec TypesType TypesValue RollingHash Sequences Chunker ChunkerFacts CursorFacts.
Import Hash Float64 Codec NomsKinds TypeCache Values Rolling Sequences Chunker.
Import BuzFacts RollingFacts ChunkerFacts CursorFacts.

Module AppendFacts.

Section facts.
Context `{chunkingConfig, chunking} (Hwin : 0 < chunkWindow < 2 ^ 32) `{!chunk_laws}.
#[local] Abbreviation wn := (Z.to_nat chunkWindow).
#[local] Abbreviation app_ := (Append c_vr false c_makeChunk c_parentMakeChunk c_leafHash).
#[local] Abbreviation hcb := (handleChunkBoundary c_vr false c_makeChunk c_parentMakeChunk c_leafHash).

(** The recursion, unfolded once. *)
Lemma Append_S vr vw mk pmk lh fuel l c parents item st : Append vr vw mk pmk lh (S fuel) l (c :: parents) item st =
  let! (rv, st) := hash_item lh l item (ClearLastBoundary (sc_rv c)) st in
  let c := set_rv (set_current c (current c ++ [item])) rv in
  if crossedBoundary rv then handleChunkBoundary vr vw mk pmk lh fuel l (c :: parents) st else Ok (c :: parents, st).
Proof. reflexivity. Qed.
Lemma boundary_S vr vw mk pmk lh fuel l c parents st : handleChunkBoundary vr vw mk pmk lh (S fuel) l (c :: parents) st =
  let! _ := check (negb (Nat.eqb (length (current c)) 0)) in
  let! (_, mt, c, st) := createSequence vw mk pmk l c st in
  let! (parents, st) := match parents with [] => createParent vr vw mk pmk lh fuel c st | _ => Ok (parents, st) end in
  let! (parents, st) := Append vr vw mk pmk lh fuel false parents (MItem mt) st in
  Ok (c :: parents, st).
Proof. reflexivity. Qed.
Lemma createParent_S vr vw mk pmk lh fuel c st : createParent vr vw mk pmk lh (S fuel) c st =
  match sc_cur c with Some (_ :: (_ :: _) as parent) => resume vr vw mk pmk lh fuel false parent st | _ => Ok ([new_chunker None], st) end.
Proof. reflexivity. Qed.

(** A level that has got the items [P], cut into [cs] and what it holds. *)
Record lvl (st : cstate) (l : bool) (P : list sequenceItem) (cs : list (list sequenceItem)) (c : chunker) : Prop := MkLvl {
  lv_cut : cut (bytes l st) [] P cs (current c);
  lv_rv : exists h, rv_read (sc_rv c) h /\ same_window wn h (hist (bytes l st) P);
  lv_done : sc_done c = false
}.
(** [createParent] makes a parent without cursor. *)
Definition no_parent (c : chunker) : Prop := match sc_cur c with Some (_ :: _ :: _) => False | _ => True end.
Inductive sim (st : cstate) : bool -> list sequenceItem -> sequenceChunker -> Prop :=
| sim_one l P c : lvl st l P [] c -> no_parent c -> sim st l P [c]
| sim_more l P cs c ts p ps : lvl st l P cs c -> Forall2 (tuple_of l st) cs ts -> sim st false ts (p :: ps) -> sim st l P (c :: p :: ps).
(** The parents of a level whose chunks have the tuples [ts]. *)
Definition psim (st : cstate) (ts : list sequenceItem) (c : chunker) (parents : sequenceChunker) : Prop :=
  match parents with [] => ts = [] /\ no_parent c | _ => sim st false ts parents end.

Lemma sim_inv st l P sc : sim st l P sc -> exists c parents cs ts, sc = c :: parents /\ lvl st l P cs c /\ Forall2 (tuple_of l st) cs ts /\ psim st ts c parents.
Proof. destruct 1 as [l P c Hl Hn|l P cs c ts p ps Hl Hts Hs]; [exists c, [], [], []; by split_and!|exists c, (p :: ps), cs, ts; by split_and!]. Qed.
Lemma sim_intro st l P c parents cs ts : lvl st l P cs c -> Forall2 (tuple_of l st) cs ts -> psim st ts c parents -> sim st l P (c :: parents).
Proof. intros Hl Hts Hp. destruct parents as [|p ps]; [|by econstructor]. destruct Hp as [-> Hn]. inversion Hts; subst. by constructor. Qed.
Lemma tuples_ok st l cs ts : Forall2 (tuple_of l st) cs ts -> Forall (ok false st) ts.
Proof. induction 1 as [|ck t cs ts (seq & mt & -> & Hm & Hne) _ IH]; constructor; [by apply Hm|done]. Qed.
Lemma lvl_le st st' l P cs c : le st st' -> Forall (ok l st) P -> lvl st l P cs c -> lvl st' l P cs c.
Proof. intros Hle Hok [Hc (h & Hr & Hs) Hd]. constructor; [by apply (cut_le l st)| |done]. exists h. split; [done|]. by rewrite (hist_le l st st'). Qed.
Lemma sim_le st st' l P sc : le st st' -> Forall (ok l st) P -> sim st l P sc -> sim st' l P sc.
Proof.
  intros Hle Hok Hs. induction Hs as [l P c Hl Hn|l P cs c ts p ps Hl Hts Hs IH]; [constructor; [by apply (lvl_le st)|done]|].
  econstructor; [by apply (lvl_le st)|by eapply tuples_le|]. apply IH. by eapply tuples_ok.
Qed.
Lemma psim_le st st' ts c parents : le st st' -> Forall (ok false st) ts -> psim st ts c parents -> psim st' ts c parents.
Proof. intros Hle Hok. destruct parents; [done|]. by apply sim_le. Qed.

(** The cursors of the levels stay; new levels have none. *)
Definition same_cursors (sc sc' : sequenceChunker) : Prop := exists k, map sc_cur sc' = map sc_cur sc ++ replicate k None.
Lemma same_cursors_refl sc : same_cursors sc sc.
Proof. exists 0%nat. by rewrite app_nil_r. Qed.
Lemma same_cursors_trans sc1 sc2 sc3 : same_cursors sc1 sc2 -> same_cursors sc2 sc3 -> same_cursors sc1 sc3.
Proof. intros [k Hk] [k' Hk']. exists (k + k')%nat. by rewrite Hk', Hk, <- app_assoc, replicate_add. Qed.
Lemma same_cursors_cons c c' sc sc' : sc_cur c' = sc_cur c -> same_cursors sc sc' -> same_cursors (c :: sc) (c' :: sc').
Proof. intros Hc [k Hk]. exists k. cbn. by rewrite Hc, Hk. Qed.

Lemma new_sim st l : sim st l [] [new_chunker None].
Proof.
  constructor; [|done]. constructor; [apply cut_nil| |done]. exists []. split; [by apply new_rv_read|apply same_window_refl].
Qed.

(** Hashing one more item. *)
Lemma hash_next st l P rv h x : inv st -> rv_read rv h -> same_window wn h (hist (bytes l st) P) -> ok l st x -> exists rv', hash_item c_leafHash l x (ClearLastBoundary rv) st = Ok (rv', st) /\
  crossedBoundary rv' = crosses (hist (bytes l st) P) (bytes l st x) /\ bytesHashed rv' = Zlength (bytes l st x) /\
  exists h', rv_read rv' h' /\ same_window wn h' (hist (bytes l st) (P ++ [x])).
Proof.
  intros Hinv Hr Hs Hx. unfold hash_item. rewrite cl_hash by done. pose proof (cl_small _ _ _ Hx) as Hsm.
  destruct (rv_read_bytes Hwin (bytes l st x) (ClearLastBoundary rv) h (clear_rv_read _ _ Hr)) as (rv' & -> & Hr' & Hc & Hn). cbn [obind].
  exists rv'. split; [by destruct st|]. split; [rewrite Hc; cbn; by apply crosses_window|]. split.
  - rewrite Hn. cbn. destruct (bytes l st x); [done|]. apply u32_small. pose proof (Zlength_nonneg (b :: l0)). lia.
  - exists (h ++ bytes l st x). split; [done|]. rewrite hist_snoc. by apply same_window_app.
Qed.
Lemma hash_one st l P cs c x : inv st -> lvl st l P cs c -> ok l st x -> exists rv, hash_item c_leafHash l x (ClearLastBoundary (sc_rv c)) st = Ok (rv, st) /\
  crossedBoundary rv = crosses (hist (bytes l st) P) (bytes l st x) /\ bytesHashed rv = Zlength (bytes l st x) /\
  exists h, rv_read rv h /\ same_window wn h (hist (bytes l st) (P ++ [x])).
Proof. intros Hinv [_ (h & Hr & Hs) _] Hx. by apply (hash_next st l P (sc_rv c) h x). Qed.

Lemma prefix_ok l st (P N : list sequenceItem) x : Forall (ok l st) N -> (P ++ [x]) `prefix_of` N -> Forall (ok l st) P /\ ok l st x.
Proof. intros HN [k ->]. rewrite !Forall_app in HN. destruct HN as [[? ?%Forall_inv] _]. done. Qed.

(** The chunk that ends is handed to the parents. *)
Definition appends_to (news : list (list sequenceItem)) : Prop := forall fuel l N rest P x sc st, news = N :: rest ->
  built st l news -> inv st -> sim st l P sc -> (P ++ [x]) `prefix_of` N -> (2 * length news <= fuel)%nat ->
  exists sc' st', app_ fuel l sc x st = Ok (sc', st') /\ inv st' /\ le st st' /\ sim st' l (P ++ [x]) sc' /\ same_cursors sc sc'.

Lemma boundary_ok news fuel l st c parents seq mt ts N rest : news = N :: rest -> appends_to news -> built st false news -> inv st -> current c <> [] ->
  made l st (current c) seq mt -> psim st ts c parents -> Forall (ok false st) ts -> (ts ++ [MItem mt]) `prefix_of` N -> (2 * length news < fuel)%nat ->
  exists parents' st', hcb fuel l (c :: parents) st = Ok (set_current c [] :: parents', st') /\ inv st' /\ le st st' /\ sim st' false (ts ++ [MItem mt]) parents' /\
    same_cursors parents parents'.
Proof.
  intros Hnews Happ Hb Hinv Hne Hm Hp Hok Hpre Hfuel. destruct fuel as [|fuel]; [lia|]. rewrite boundary_S.
  assert (negb (Nat.eqb (length (current c)) 0) = true) as -> by (by destruct (current c)). cbn [check obind].
  destruct (md_again _ _ _ _ _ Hm st Hinv (cl_refl st)) as (st1 & Hcr & Hinv1 & Hle1). rewrite createSequence_create, Hcr. cbn [obind].
  assert (exists parents1, match parents with [] => createParent c_vr false c_makeChunk c_parentMakeChunk c_leafHash fuel (set_current c []) st1 | _ :: _ => Ok (parents, st1) end = Ok (parents1, st1) /\
    sim st1 false ts parents1 /\ same_cursors parents parents1) as (parents1 & -> & Hs1 & Hsc1).
  { destruct parents as [|p ps]; [|exists (p :: ps); split; [done|]; split; [by apply (sim_le st)|apply same_cursors_refl]]. destruct Hp as [-> Hn].
    destruct fuel as [|fuel]; [subst news; cbn in Hfuel; lia|]. rewrite createParent_S. cbn [set_current sc_cur]. unfold no_parent in Hn. exists [new_chunker None].
    split; [destruct (sc_cur c) as [[|? [|]]|]; done|]. split; [apply new_sim|by exists 1%nat]. }
  cbn [obind]. destruct (Happ fuel false N rest ts (MItem mt) parents1 st1 Hnews) as (parents2 & st2 & -> & Hinv2 & Hle2 & Hs2 & Hsc2); [by apply (built_le st)|done|done|done|lia|].
  cbn [obind]. exists parents2, st2. split_and!; try done; [by eapply cl_trans|by eapply same_cursors_trans].
Qed.

Lemma lvl_more st l P cs c x rv cs' r' : lvl st l P cs c -> cut (bytes l st) [] (P ++ [x]) cs' r' -> (exists h, rv_read rv h /\ same_window wn h (hist (bytes l st) (P ++ [x]))) ->
  lvl st l (P ++ [x]) cs' (set_rv (set_current c r') rv).
Proof. intros [_ _ Hd] Hc Hrv. by constructor. Qed.

(** The chunks of a prefix are chunks of the whole, and so are their tuples. *)
Lemma built_prefix st l N rest P cs r ts : inv st -> built st l (N :: rest) -> P `prefix_of` N -> cut (bytes l st) [] P cs r -> cs <> [] ->
  Forall2 (tuple_of l st) cs ts -> exists N1 rest', rest = N1 :: rest' /\ built st false (N1 :: rest') /\ ts `prefix_of` N1.
Proof.
  intros Hinv Hb [k ->] Hc Hne Hts. inversion Hb as [? ? Hok HcN|? ? csN rN N1 rest' Hok HcN HneN HtsN Hb']; subst.
  - destruct (cut_prefix _ _ _ _ _ _ _ _ Hc HcN) as [cs2 Heq]. symmetry in Heq. by apply app_eq_nil in Heq as [-> _].
  - exists N1, rest'. split; [done|]. split; [done|]. destruct (cut_prefix _ _ _ _ _ _ _ _ Hc HcN) as [cs2 ->]. unfold full in HtsN. rewrite <- app_assoc in HtsN.
    apply Forall2_app_inv_l in HtsN as (ts1 & ts2 & Hts1 & _ & ->). exists ts2. by rewrite (tuples_fun _ _ _ _ _ Hinv Hts Hts1).
Qed.
Lemma built_tuple st l N rest P cs ck : built st l (N :: rest) -> P `prefix_of` N -> cut (bytes l st) [] P (cs ++ [ck]) [] -> exists t, tuple_of l st ck t.
Proof.
  intros Hb [k ->] Hc. inversion Hb as [? ? Hok HcN|? ? csN rN N1 rest' Hok HcN HneN HtsN Hb']; subst; destruct (cut_prefix _ _ _ _ _ _ _ _ Hc HcN) as [cs2 Heq].
  - symmetry in Heq. by destruct cs.
  - subst csN. unfold full in HtsN. rewrite <- !app_assoc in HtsN. destruct (Forall2_lookup_l _ _ _ (length cs) ck HtsN) as (t & _ & Ht); [|by exists t].
    rewrite lookup_app_r, Nat.sub_diag by lia. done.
Qed.

Lemma Append_ok news : appends_to news.
Proof.
  induction news as [|N0 news IH]; intros fuel l N rest P x sc st Heq Hb Hinv Hs Hpre Hfuel; [done|]. injection Heq as -> ->.
  destruct (sim_inv _ _ _ _ Hs) as (c & parents & cs & ts & -> & Hl & Hts & Hp). destruct fuel as [|fuel]; [cbn in Hfuel; lia|]. rewrite Append_S.
  assert (Forall (ok l st) N) as HokN by (by inversion Hb). destruct (prefix_ok _ _ _ _ _ HokN Hpre) as [HokP Hx].
  destruct (hash_one st l P cs c x Hinv Hl Hx) as (rv & -> & Hcr & _ & Hrv). cbn [obind]. rewrite Hcr. pose proof (cut_snoc _ _ _ _ _ x (lv_cut _ _ _ _ _ Hl)) as Hcut.
  cbn [app] in Hcut. destruct (crosses _ _).
  - destruct (built_tuple _ _ _ _ _ _ _ Hb Hpre Hcut) as (t & Ht). pose proof Ht as (seq & mt & -> & Hm & _).
    assert (Forall2 (tuple_of l st) (cs ++ [current c ++ [x]]) (ts ++ [MItem mt])) as Hts' by (apply Forall2_app; [done|by constructor]).
    destruct (built_prefix _ _ _ _ _ _ _ _ Hinv Hb Hpre Hcut ltac:(by destruct cs) Hts') as (N1 & rest' & -> & Hb1 & Hpre1).
    set (c' := set_rv (set_current c (current c ++ [x])) rv).
    destruct (boundary_ok (N1 :: rest') fuel l st c' parents seq mt ts N1 rest') as (parents' & st' & -> & Hinv' & Hle' & Hs' & Hsc');
      [done|done|done|done|by cbn; destruct (current c)|done|by destruct parents|by eapply tuples_ok|done|cbn [length] in *; lia|].
    exists (set_current c' [] :: parents'), st'. split_and!; [done|done|done| |by apply same_cursors_cons].
    apply (sim_intro st' l (P ++ [x]) _ parents' (cs ++ [current c ++ [x]]) (ts ++ [MItem mt])); [|by eapply tuples_le|by destruct parents'; [inversion Hs'|]].
    apply (lvl_le st); [done|by apply Forall_app; split; [done|constructor]|]. by apply (lvl_more st l P cs c x rv _ []).
  - exists (set_rv (set_current c (current c ++ [x])) rv :: parents), st. split_and!; [done|done|apply cl_refl| |apply same_cursors_cons; [done|apply same_cursors_refl]].
    apply (sim_intro st l (P ++ [x]) _ parents cs ts); [by apply (lvl_more st l P cs c x rv cs)|done|by destruct parents].
Qed.

End facts.

End AppendFacts.
