(* ===== verification/BuildFacts.v ===== *)
(** * Package [types]: a chunker from scratch builds the tree of its items *)

From S2P Require Import Prelude GoLib HashPkg TypesCodec TypesType TypesValue RollingHash Sequences Chunker ChunkerFacts CursorFacts AppendFacts.
Import Hash Float64 Codec NomsKinds TypeCache Values Rolling Sequences Chunker.
Import BuzFacts RollingFacts ChunkerFacts CursorFacts AppendFacts.

Module BuildFacts.

Section facts.
Context `{chunkingConfig, chunking} (Hwin : 0 < chunkWindow < 2 ^ 32) `{!chunk_laws}.
#[local] Abbreviation app_ := (Append c_vr false c_makeChunk c_parentMakeChunk c_leafHash).
#[local] Abbreviation hcb := (handleChunkBoundary c_vr false c_makeChunk c_parentMakeChunk c_leafHash).
#[local] Abbreviation done_ := (Done c_vr false c_makeChunk c_parentMakeChunk c_leafHash).

(** ** What a run of [Append] has done *)

Definition append_runs (fuel : nat) : Prop := forall l P x sc st sc' st', inv st -> sim st l P sc -> Forall (ok l st) P -> ok l st x -> small l (P ++ [x]) ->
  app_ fuel l sc x st = Ok (sc', st') -> inv st' /\ le st st' /\ sim st' l (P ++ [x]) sc' /\ same_cursors sc sc'.
Lemma boundary_run fuel l st c parents ts sc' st' : append_runs fuel -> inv st -> Forall (ok l st) (current c) -> small l (current c) -> psim st ts c parents -> Forall (ok false st) ts ->
  hcb (S fuel) l (c :: parents) st = Ok (sc', st') -> inv st' /\ le st st' /\
  exists seq mt parents', sc' = set_current c [] :: parents' /\ made l st' (current c) seq mt /\ sim st' false (ts ++ [MItem mt]) parents' /\ same_cursors parents parents'.
Proof.
  intros Happ Hinv Hok Hsm Hp Hts Hr. rewrite boundary_S, createSequence_create in Hr. destruct (negb _) eqn:Hne; [|done]. cbn [check obind] in Hr.
  destruct (create l (current c) st) as [[[seq mt] st1]|] eqn:Hcr; [|done]. cbn [obind] in Hr.
  destruct (cl_create l st (current c) seq mt st1) as (Hinv1 & Hle1 & Hm); [done|done|left; by destruct (current c)|done|done|].
  assert (exists parents1, match parents with [] => createParent c_vr false c_makeChunk c_parentMakeChunk c_leafHash fuel (set_current c []) st1 | _ :: _ => Ok (parents, st1) end = Ok (parents1, st1) /\
    sim st1 false ts parents1 /\ same_cursors parents parents1) as (parents1 & He & Hs1 & Hsc1).
  { destruct parents as [|p ps]; [|exists (p :: ps); split; [done|]; split; [by apply (sim_le st)|apply same_cursors_refl]]. destruct Hp as [-> Hn].
    destruct fuel as [|fuel]; [done|]. rewrite createParent_S in *. cbn [set_current sc_cur] in *. unfold no_parent in Hn. exists [new_chunker None].
    split; [destruct (sc_cur c) as [[|? [|]]|]; done|]. split; [by apply new_sim|by exists 1%nat]. }
  rewrite He in Hr. cbn [obind] in Hr. destruct (app_ fuel false parents1 (MItem mt) st1) as [[parents2 st2]|] eqn:Ha; [|done]. cbn [obind] in Hr. injection Hr as <- <-.
  destruct (Happ false ts (MItem mt) parents1 st1 parents2 st2) as (Hinv2 & Hle2 & Hs2 & Hsc2); [done|done|by eapply oks_le|apply Hm; by destruct (current c)|done|done|].
  split; [done|]. split; [by eapply cl_trans|]. exists seq, mt, parents2. split_and!; try done; [by eapply made_le|by eapply same_cursors_trans].
Qed.
Lemma Append_run fuel : append_runs fuel.
Proof.
  induction fuel as [fuel IH] using lt_wf_ind. intros l P x sc st sc' st' Hinv Hs Hok Hx Hsm Hr. destruct fuel as [|fuel]; [done|].
  destruct (sim_inv _ _ _ _ Hs) as (c & parents & cs & ts & -> & Hl & Hts & Hp). rewrite Append_S in Hr.
  destruct (hash_one Hwin st l P cs c x Hinv Hl Hx) as (rv & He & Hcr & _ & Hrv). rewrite He in Hr. cbn [obind] in Hr. rewrite Hcr in Hr. pose proof (cut_snoc _ _ _ _ _ x (lv_cut _ _ _ _ _ Hl)) as Hcut.
  cbn [app] in Hcut. destruct (crosses _ _).
  - destruct fuel as [|fuel]; [done|]. set (c' := set_rv (set_current c (current c ++ [x])) rv) in *.
    assert (Forall (ok l st) (current c ++ [x])) as Hoks.
    { apply Forall_app. split; [|by constructor]. destruct (lv_cut _ _ _ _ _ Hl) as [-> _]. by apply Forall_app in Hok as [_ ?]. }
    destruct (boundary_run fuel l st c' parents ts sc' st') as (Hinv' & Hle' & seq & mt & parents' & -> & Hm & Hs' & Hsc'); [apply IH; lia|done|done| |by destruct parents|by eapply tuples_ok|done|].
    { destruct (lv_cut _ _ _ _ _ Hl) as [HP _]. rewrite HP, <- app_assoc in Hsm. by apply small_app in Hsm as [_ ?]. }
    split; [done|]. split; [done|]. split; [|by apply same_cursors_cons].
    apply (sim_intro st' l (P ++ [x]) _ parents' (cs ++ [current c ++ [x]]) (ts ++ [MItem mt])); [| |by destruct parents'; [inversion Hs'|]].
    + apply (lvl_le st); [done|by apply Forall_app; split; [done|constructor]|]. by apply (lvl_more st l P cs c x rv _ []).
    + apply Forall2_app; [by eapply tuples_le|]. constructor; [|done]. exists seq, mt. split_and!; [done|done|by destruct (current c)].
  - injection Hr as <- <-. split_and!; [done|apply cl_refl| |apply same_cursors_cons; [done|apply same_cursors_refl]].
    apply (sim_intro st l (P ++ [x]) _ parents cs ts); [by apply (lvl_more st l P cs c x rv cs)|done|by destruct parents].
Qed.

(** ** The root *)

(** Down from a tuple, over tuples with one child, in at most [n] steps. *)
Inductive descends : nat -> metaTuple -> sequence -> Prop :=
| descends_here n mt child : mt_getChildSequence c_vr mt = Ok child -> (isMetaSequence child = false \/ (1 < length (seq_items child))%nat) -> descends (S n) mt child
| descends_down n mt t mt' r : mt_getChildSequence c_vr mt = Ok (metaSequence t [mt']) -> descends n mt' r -> descends (S n) mt r.
Lemma canonical_descends fuel : forall mt r, canonical_root c_vr fuel mt = Ok r <-> descends fuel mt r.
Proof.
  induction fuel as [|fuel IH]; intros mt r; [split; [done|by inversion 1]|]. cbn [canonical_root]. split.
  - destruct (mt_getChildSequence c_vr mt) as [child|] eqn:Hc; [|done]. cbn [obind]. destruct child as [| | | |t tuples] eqn:Hch; try (intros [= <-]; apply descends_here; [done|by left]).
    destruct (Z.ltb_spec 1 (Zlength tuples)) as [Hlt|Hge].
    + intros [= <-]. apply descends_here; [done|right]. cbn. rewrite length_map. unfold Zlength in Hlt. lia.
    + destruct tuples as [|mt' [|]]; [done| |unfold Zlength in Hge; cbn in Hge; lia]. change (index [mt'] 0) with (Ok mt'). cbn [obind]. intros Hr%IH. by apply descends_down with t mt'.
  - inversion 1 as [n ? child Hc Hm|n ? t mt' ? Hc Hd]; subst; rewrite Hc; cbn [obind].
    + destruct r as [| | | |t tuples]; try done. destruct Hm as [Hm|Hm]; [done|]. cbn in Hm. rewrite length_map in Hm. by rewrite (proj2 (Z.ltb_lt 1 _)) by (unfold Zlength; lia).
    + change (1 <? Zlength [mt']) with false. change (index [mt'] 0) with (Ok mt'). cbn [obind]. by apply IH.
Qed.
Lemma descends_mono n m mt r : (n <= m)%nat -> descends n mt r -> descends m mt r.
Proof.
  intros Hle Hd. revert m Hle. induction Hd as [n mt child Hc Hm|n mt t mt' r Hc Hd IH]; intros [|m] Hle; try lia; [by apply descends_here|].
  apply descends_down with t mt'; [done|]. apply IH. lia.
Qed.

(** The root sequence over the levels [news]. *)
Fixpoint rooted (n : nat) (st : cstate) (l : bool) (news : list (list sequenceItem)) (r : sequence) : Prop :=
  match news with
  | [] => False
  | [N] => ((l = true \/ (1 < length N)%nat) /\ exists mt, made l st N r mt) \/ (l = false /\ exists mt, N = [MItem mt] /\ descends n mt r)
  | _ :: rest => rooted n st false rest r
  end.
Lemma rooted_le n st st' news r : le st st' -> forall l, rooted n st l news r -> rooted n st' l news r.
Proof.
  intros Hle. induction news as [|N [|N1 rest] IH]; intros l; cbn [rooted]; [done| |apply IH].
  intros [[Hl (mt & Hm)]|Hd]; [left|by right]. split; [done|]. exists mt. by eapply made_le.
Qed.
Lemma rooted_mono n m st news r : (n <= m)%nat -> forall l, rooted n st l news r -> rooted m st l news r.
Proof.
  intros Hle. induction news as [|N [|N1 rest] IH]; intros l; cbn [rooted]; [done| |apply IH].
  intros [Hd|(Hl & mt & HN & Hd)]; [by left|right]. split; [done|]. exists mt. split; [done|by eapply descends_mono].
Qed.

Lemma cut_empty by_ h P cs r : cut by_ h P cs r -> P = [] -> cs = [] /\ r = [].
Proof.
  intros Hc ->. destruct cs as [|ck cs]; [destruct Hc as [Hx _]; cbn in Hx; by subst|].
  exfalso. apply (full_nonempty _ _ _ _ _ ck Hc); [apply elem_of_app; left; constructor|]. destruct Hc as [Hx _]. cbn in Hx. by destruct ck.
Qed.
Lemma sim_pending st l P sc : sim st l P sc -> anyPending sc = match P with [] => false | _ => true end.
Proof.
  induction 1 as [l P c [Hc _ _] Hn|l P cs c ts p ps [Hc _ _] Hts Hs IH]; cbn [anyPending].
  - destruct Hc as [-> _]. cbn. by destruct (current c).
  - cbn [anyPending] in IH. rewrite IH. destruct P as [|x P]; [destruct (cut_empty _ _ _ _ _ Hc eq_refl) as [-> ->]; by inversion Hts|].
    destruct (current c) as [|y r] eqn:Hcur; cbn [length Nat.eqb negb orb]; [|done]. destruct ts; [|done]. inversion Hts; subst. by destruct Hc as [Hx _].
Qed.
Lemma psim_pending st ts c parents : psim st ts c parents -> anyPending parents = match ts with [] => false | _ => true end.
Proof. destruct parents as [|p ps]; [by intros [-> _]|]. cbn [psim]. apply sim_pending. Qed.

Lemma Done_S fuel l c parents st : done_ (S fuel) l (c :: parents) st =
  let! _ := check (negb (sc_done c)) in
  let sc := MkSc (sc_cur c) (current c) (sc_rv c) true :: parents in
  let! (sc, st) := match sc_cur c with Some _ => finalizeCursor c_vr false c_makeChunk c_parentMakeChunk c_leafHash fuel l sc st | None => Ok (sc, st) end in
  match sc with
  | [] => Panic NilDereference
  | c :: parents =>
      if anyPending parents then
        let! (sc, st) := if negb (Nat.eqb (length (current c)) 0) then hcb fuel l sc st else Ok (sc, st) in
        done_ fuel false (tail sc) st
      else if l || Nat.ltb 1 (length (current c)) then
        let! (seq, _, _, st) := createSequence false c_makeChunk c_parentMakeChunk l c st in Ok (seq, st)
      else match current c with [MItem mt] => let! seq := canonical_root c_vr fuel mt in Ok (seq, st) | _ => Panic AssertFailed end
  end.
Proof. reflexivity. Qed.

Definition uncursored (sc : sequenceChunker) : Prop := Forall (fun c => sc_cur c = None) sc.
Lemma same_uncursored sc sc' : same_cursors sc sc' -> uncursored sc -> uncursored sc'.
Proof.
  intros [k Hk] Hu. unfold uncursored in *. assert (Forall (fun o : option sequenceCursor => o = None) (map sc_cur sc')) as Hf.
  { rewrite Hk. apply Forall_app. split; [by apply Forall_fmap|]. by apply Forall_replicate. }
  clear -Hf. induction sc'; [done|]. inversion Hf; subst. constructor; [done|auto].
Qed.

(** Without a cursor, [Done] finds the root over the levels of the items. *)
Lemma Done_run fuel : forall l P sc st r st', inv st -> sim st l P sc -> uncursored sc -> Forall (ok l st) P -> (P <> [] \/ l = true) -> small l P ->
  done_ fuel l sc st = Ok (r, st') -> inv st' /\ le st st' /\ exists rest, built st' l (P :: rest) /\ rooted fuel st' l (P :: rest) r /\ (length (P :: rest) <= fuel)%nat.
Proof.
  induction fuel as [|fuel IH]; intros l P sc st r st' Hinv Hs Hu Hok Hne Hsm Hr; [done|].
  destruct (sim_inv _ _ _ _ Hs) as (c & parents & cs & ts & -> & Hl & Hts & Hp). rewrite Done_S in Hr. inversion Hu as [|? ? Hcur Hup]; subst. pose proof (lv_cut _ _ _ _ _ Hl) as Hcut.
  rewrite (lv_done _ _ _ _ _ Hl), Hcur in Hr. cbn [negb check obind] in Hr. rewrite (psim_pending _ _ _ _ Hp) in Hr. cbn [current] in Hr. set (c' := MkSc None (current c) (sc_rv c) true) in *.
  destruct ts as [|t0 ts0] eqn:Ets; [|rewrite <- Ets in *].
  - inversion Hts; subst. destruct Hcut as [HP Hcut]. cbn in HP. destruct (l || Nat.ltb 1 (length (current c))) eqn:Hbig.
    + rewrite createSequence_create in Hr. change (current c') with (current c) in Hr. destruct (create l (current c) st) as [[[seq mt] st1]|] eqn:Hcr; [|done]. injection Hr as <- <-.
      rewrite <- HP in *. destruct (cl_create l st P seq mt st1) as (Hinv1 & Hle1 & Hm); [done..|]. split; [done|]. split; [done|]. exists []. split_and!.
      * constructor; [by eapply oks_le|]. apply (cut_le l st); [done|done|by split].
      * left. split; [|by exists mt]. apply orb_true_iff in Hbig as [Hb|Hb]; [by left|right; by apply Nat.ltb_lt].
      * cbn. lia.
    + apply orb_false_iff in Hbig as [-> Hb]. destruct (current c) as [|[v|b|k v|mt] [|]] eqn:Ecur; try done. destruct (canonical_root c_vr fuel mt) as [seq|] eqn:Hcan; [|done].
      injection Hr as <- <-. split; [done|]. split; [apply cl_refl|]. exists []. subst P. split_and!; [by constructor| |cbn; lia].
      right. split; [done|]. exists mt. split; [done|]. apply (descends_mono fuel); [lia|]. by apply canonical_descends.
  - assert (cs <> []) as Hcs by (intros ->; inversion Hts; congruence). assert (Forall (ok false st) ts) as Hokt by by eapply tuples_ok. clear t0 ts0 Ets Hne.
    assert (exists sc2 st2 N1, match current c with [] => Ok (c' :: parents, st) | _ => hcb fuel l (c' :: parents) st end = Ok (sc2, st2) /\ inv st2 /\ le st st2 /\
      Forall2 (tuple_of l st2) (full cs (current c)) N1 /\ sim st2 false N1 (tail sc2) /\ uncursored (tail sc2) /\ N1 <> [] /\ done_ fuel false (tail sc2) st2 = Ok (r, st')) as
      (sc2 & st2 & N1 & _ & Hinv2 & Hle2 & Hts2 & Hs2 & Hu2 & HN1 & Hdone).
    { unfold full. destruct (current c) as [|x cr] eqn:Ecur; cbn [length Nat.eqb negb] in Hr.
      - cbn [obind tail] in Hr. exists (c' :: parents), st, ts. rewrite app_nil_r. split_and!; try done; [apply cl_refl|by destruct parents; [destruct Hp as [-> _]; inversion Hts; subst|]|by intros ->; inversion Hts; subst].
      - destruct (hcb fuel l (c' :: parents) st) as [[sc2 st2]|] eqn:Hh; [|done]. cbn [obind] in Hr. destruct fuel as [|fuel]; [done|].
        destruct (boundary_run fuel l st c' parents ts sc2 st2) as (Hinv2 & Hle2 & seq & mt & parents' & -> & Hm & Hs' & Hsc'); [apply Append_run|done| | |by destruct parents; [destruct Hp|]|done|done|].
        { cbn. rewrite <- Ecur. destruct Hcut as [HP _]. rewrite HP in Hok. apply Forall_app in Hok as [_ ?]. by rewrite Ecur. }
        { destruct Hcut as [HP _]. rewrite HP in Hsm. apply small_app in Hsm as [_ Hsm]. exact Hsm. }
        exists (set_current c' [] :: parents'), st2, (ts ++ [MItem mt]). split_and!; try done.
        + apply Forall2_app; [by eapply tuples_le|]. constructor; [|done]. by exists seq, mt.
        + by apply (same_uncursored parents).
        + by destruct ts. }
    destruct (IH false N1 (tail sc2) st2 r st') as (Hinv3 & Hle3 & rest & Hb & Hroot & Hlen); [done|done|done|by eapply tuples_ok|by left|done|done|].
    assert (le st st') as Hle by by eapply cl_trans. split; [done|]. split; [done|]. exists (N1 :: rest). split_and!.
    + econstructor; [by eapply oks_le|by apply (cut_le l st)|done|by apply (tuples_le l st2)|done].
    + change (rooted (S fuel) st' false (N1 :: rest) r). by apply (rooted_mono fuel); [lia|].
    + cbn [length] in *. lia.
Qed.

End facts.

End BuildFacts.
