(* ===== verification/ResumeFacts.v ===== *)
(** * Package [types]: a chunker resumes at a cursor

    [resume] leaves the state that appending the items before the cursor would
    have left, with the cursors of all levels at the chunks of the cursor. *)

From S2P Require Import Prelude GoLib HashPkg TypesCodec TypesType TypesValue RollingHash Sequences Chunker ChunkerFacts CursorFacts AppendFacts BuildFacts.
Import Hash Float64 Codec NomsKinds TypeCache Values Rolling Sequences Chunker.
Import BuzFacts RollingFacts ChunkerFacts CursorFacts AppendFacts BuildFacts.

Module ResumeFacts.

(** The items from [a] to [b]. *)
Definition seg {A} (L : list A) (a b : nat) : list A := drop a (take b L).
Lemma seg_snoc {A} (L : list A) a b x : (a <= b)%nat -> L !! b = Some x -> seg L a (S b) = seg L a b ++ [x].
Proof.
  intros Hab Hx. unfold seg. pose proof (lookup_lt_Some _ _ _ Hx). rewrite (take_S_r _ _ x) by done. rewrite drop_app_le; [done|]. rewrite length_take. lia.
Qed.
Lemma seg_nil {A} (L : list A) a b : (b <= a)%nat -> seg L a b = [].
Proof. intros Hba. unfold seg. apply drop_ge. rewrite length_take. lia. Qed.
Lemma seg_take {A} (L : list A) b : seg L 0 b = take b L.
Proof. done. Qed.
Lemma take_seg {A} (L : list A) a b : (a <= b)%nat -> take b L = take a L ++ seg L a b.
Proof. intros Hab. unfold seg. rewrite <- (take_drop a (take b L)) at 1. by rewrite take_take, Nat.min_l. Qed.

Section facts.
Context `{chunkingConfig, chunking} (Hwin : 0 < chunkWindow < 2 ^ 32) `{!chunk_laws}.
#[local] Abbreviation wn := (Z.to_nat chunkWindow).

(** ** Walking back *)

(** The hasher counts only and has read nothing. *)
Definition counting (rv : rollingValueHasher) : Prop := lengthOnly rv = true /\ rv_read (set_lengthOnly rv false) [].
Lemma count_one st l x rv : inv st -> ok l st x -> counting rv -> exists rv', hash_item c_leafHash l x (ClearLastBoundary rv) st = Ok (rv', st) /\
  counting rv' /\ bytesHashed rv' = Zlength (bytes l st x).
Proof.
  intros Hinv Hx [Ho [Hb Hw _]]. unfold hash_item. rewrite cl_hash by done. pose proof (cl_small _ _ _ Hx) as Hsm.
  destruct (rv_count_bytes (bytes l st x) (ClearLastBoundary rv)) as (rv' & -> & Hb' & Hw' & Ho' & Hn); [done|]. cbn [obind]. exists rv'.
  split; [by destruct st|]. split; [split; [done|]; constructor; cbn in *; [by rewrite Hb'|by rewrite Hw'|done]|]. rewrite Hn. cbn.
  destruct (bytes l st x); [done|]. apply u32_small. pose proof (Zlength_nonneg (b :: l0)). lia.
Qed.

Lemma tower_oks st l L rest : tower st l (L :: rest) -> Forall (ok l st) L.
Proof. by inversion 1. Qed.
Lemma tower_ok st l L rest q x : tower st l (L :: rest) -> L !! q = Some x -> ok l st x.
Proof. intros Ht%tower_oks Hx. by eapply Forall_lookup_1. Qed.
Lemma hist_seg st l L a b x : (a <= b)%nat -> L !! b = Some x -> Zlength (hist (bytes l st) (seg L a (S b))) = Zlength (hist (bytes l st) (seg L a b)) + Zlength (bytes l st x).
Proof. intros Hab Hx. by rewrite (seg_snoc L a b x), hist_snoc, Zlength_app. Qed.
Lemma hist_seg_nil st l L a : Zlength (hist (bytes l st) (seg L a a)) = 0.
Proof. by rewrite seg_nil. Qed.
Lemma at_item st l L rest q cur : at_ st l (L :: rest) (S q) cur -> exists x, L !! q = Some x.
Proof. intros Hat%at_bound. apply lookup_lt_is_Some_2. lia. Qed.

Lemma walk_in_ok st l L rest : inv st -> tower st l (L :: rest) -> forall i n q cur rv pb ac pc,
  at_ st l (L :: rest) q cur -> indexInChunk cur = Z.of_nat i -> (i <= q)%nat -> (i < n)%nat -> counting rv ->
  exists cur' rv' j, let pb' := pb - Zlength (hist (bytes l st) (seg L (q - j) q)) in (j <= i)%nat /\
    walk_in_chunk c_vr c_leafHash n l cur rv st pb ac pc = Ok (cur', rv', st, pb', (ac + i)%nat, (pc + j)%nat) /\
    at_ st l (L :: rest) (q - i) cur' /\ counting rv' /\ (0 < pb' -> j = i) /\ (pb <= 0 -> j = 0%nat).
Proof.
  intros Hinv Ht. induction i as [|i IH]; intros n q cur rv pb ac pc Hat Hi Hiq Hin Hrv; (destruct n as [|n]; [lia|]).
  - exists cur, rv, 0%nat. cbn zeta. cbn [walk_in_chunk]. rewrite Hi, !Nat.sub_0_r, !Nat.add_0_r, hist_seg_nil, Z.sub_0_r. by split_and!.
  - destruct q as [|q]; [lia|]. destruct (at_item _ _ _ _ _ _ Hat) as [x Hx]. pose proof (retreat_at _ _ _ _ _ Ht Hat false) as (cur1 & Hr & Hat1).
    assert (indexInChunk cur1 = Z.of_nat i) as Hi1.
    { destruct cur as [|[seq idx] par]; [done|]. cbn in Hi. subst idx. cbn [retreatMaybeAllowBeforeStart] in Hr. rewrite (proj2 (Z.ltb_lt _ _)) in Hr by lia.
      injection Hr as <-. cbn. lia. }
    cbn [walk_in_chunk]. rewrite Hi, (proj2 (Z.ltb_lt 0 _)), Hr by lia. cbn [obind]. destruct (Z.ltb_spec 0 pb) as [Hpb|Hpb].
    + destruct (at_current _ _ _ _ _ _ _ Hat1 Hx) as [-> _]. cbn [obind]. destruct (count_one st l x rv Hinv (tower_ok _ _ _ _ _ _ Ht Hx) Hrv) as (rv1 & -> & Hrv1 & Hn). cbn [obind]. rewrite Hn.
      destruct (IH n q cur1 rv1 (pb - Zlength (bytes l st x)) (S ac) (S pc) Hat1 Hi1 ltac:(lia) ltac:(lia) Hrv1) as (cur' & rv' & j & Hj & He & Hat' & Hrv' & Hfull & Hz).
      exists cur', rv', (S j). cbn zeta in *. rewrite Nat.sub_succ, (hist_seg st l L (q - j) q x) by (done || lia). replace (pb - _ - _) with (pb - (Zlength (hist (bytes l st) (seg L (q - j) q)) + Zlength (bytes l st x))) in * by lia.
      rewrite !Nat.add_succ_r. split_and!; [lia|exact He|done|done| |lia]. intros Hlt. f_equal. by apply Hfull.
    + destruct (IH n q cur1 rv pb (S ac) pc Hat1 Hi1 ltac:(lia) ltac:(lia) Hrv) as (cur' & rv' & j & Hj & He & Hat' & Hrv' & Hfull & Hz). cbn zeta in *.
      rewrite (Hz Hpb) in *. exists cur', rv', 0%nat. cbn zeta in *. rewrite !Nat.sub_0_r, hist_seg_nil, Z.sub_0_r, !Nat.add_0_r in *. rewrite Nat.add_succ_r. split_and!; [lia|exact He|done|done|lia|done].
Qed.

Lemma walk_before_ok st l L rest : inv st -> tower st l (L :: rest) -> forall q n cur rv pb pc,
  at_ st l (L :: rest) q cur -> (q < n)%nat -> counting rv ->
  exists cur' rv' j, (j <= q)%nat /\ walk_before c_vr c_leafHash n l cur rv st pb pc = Ok (cur', rv', st, (pc + j)%nat) /\
    at_ st l (L :: rest) (q - j) cur' /\ counting rv' /\ (pb <= Zlength (hist (bytes l st) (seg L (q - j) q)) \/ j = q) /\ (pb <= 0 -> j = 0%nat).
Proof.
  intros Hinv Ht. induction q as [|q IH]; intros n cur rv pb pc Hat Hn Hrv; (destruct n as [|n]; [lia|]); cbn [walk_before].
  - exists cur, rv, 0%nat. rewrite (retreat_at _ _ _ _ _ Ht Hat). cbn [obind]. rewrite Nat.add_0_r, Nat.sub_0_r. split_and!; try done; [by destruct (0 <? pb)|by right].
  - destruct (Z.ltb_spec 0 pb) as [Hpb|Hpb].
    + destruct (at_item _ _ _ _ _ _ Hat) as [x Hx]. pose proof (retreat_at _ _ _ _ _ Ht Hat false) as (cur1 & -> & Hat1). cbn [obind].
      destruct (at_current _ _ _ _ _ _ _ Hat1 Hx) as [-> _]. cbn [obind]. destruct (count_one st l x rv Hinv (tower_ok _ _ _ _ _ _ Ht Hx) Hrv) as (rv1 & -> & Hrv1 & Hb). cbn [obind]. rewrite Hb.
      destruct (IH n cur1 rv1 (pb - Zlength (bytes l st x)) (S pc) Hat1 ltac:(lia) Hrv1) as (cur' & rv' & j & Hj & He & Hat' & Hrv' & Hfull & _).
      exists cur', rv', (S j). rewrite Nat.sub_succ, (hist_seg st l L (q - j) q x) by (done || lia). rewrite Nat.add_succ_r. split_and!; [lia|exact He|done|done| |lia].
      destruct Hfull as [Hfull| ->]; [left; lia|by right].
    + exists cur, rv, 0%nat. rewrite Nat.add_0_r, Nat.sub_0_r. split_and!; try done; [lia|]. left. rewrite hist_seg_nil. lia.
Qed.

(** Both walks: back to the chunk or to the first item that is hashed. *)
Lemma walk_ok st l L rest i q n n' cur rv ac pc : inv st -> tower st l (L :: rest) -> at_ st l (L :: rest) q cur -> indexInChunk cur = Z.of_nat i -> (i <= q)%nat ->
  (i < n)%nat -> (q < n')%nat -> counting rv -> exists cur1 rv1 pb1 pc1 cur' rv' j, (j <= q)%nat /\
  walk_in_chunk c_vr c_leafHash n l cur rv st chunkWindow ac pc = Ok (cur1, rv1, st, pb1, (ac + i)%nat, pc1) /\
  walk_before c_vr c_leafHash n' l cur1 rv1 st pb1 pc1 = Ok (cur', rv', st, (pc + j)%nat) /\
  at_ st l (L :: rest) (q - Nat.max i j) cur' /\ counting rv' /\ same_window wn (hist (bytes l st) (seg L (q - j) q)) (hist (bytes l st) (take q L)).
Proof.
  intros Hinv Ht Hat Hi Hiq Hn Hn' Hrv.
  destruct (walk_in_ok st l L rest Hinv Ht i n q cur rv chunkWindow ac pc Hat Hi Hiq Hn Hrv) as (cur1 & rv1 & j & Hj & Hin & Hat1 & Hrv1 & Hfull & _). cbn zeta in *.
  destruct (walk_before_ok st l L rest Hinv Ht (q - i) n' cur1 rv1 (chunkWindow - Zlength (hist (bytes l st) (seg L (q - j) q))) (pc + j) Hat1 ltac:(lia) Hrv1)
    as (cur2 & rv2 & k & Hk & Hbef & Hat2 & Hrv2 & Hwin2 & Hz). exists cur1, rv1, (chunkWindow - Zlength (hist (bytes l st) (seg L (q - j) q))), (pc + j)%nat, cur2, rv2, (j + k)%nat.
  rewrite Nat.add_assoc. split; [lia|]. split; [done|]. split; [done|].
  assert (j = i \/ k = 0%nat) as Hjk by (destruct (Z.le_gt_cases (chunkWindow - Zlength (hist (bytes l st) (seg L (q - j) q))) 0); [right; auto|left; apply Hfull; lia]).
  split; [replace (q - Nat.max i (j + k))%nat with (q - i - k)%nat by lia; done|]. split; [done|].
  rewrite (take_seg L (q - (j + k)) q), hist_app by lia. destruct (decide (j + k = q)%nat) as [->|Hne]; [rewrite Nat.sub_diag; by left|].
  assert (chunkWindow <= Zlength (hist (bytes l st) (seg L (q - (j + k)) q))) as Hlen.
  { destruct (decide (k = 0)%nat) as [->|Hk0]; [rewrite Nat.add_0_r; destruct Hwin2 as [Hw|?]; [rewrite Nat.sub_0_r, hist_seg_nil in Hw; lia|lia]|].
    assert (j = i) as -> by lia. destruct Hwin2 as [Hw|?]; [|lia]. replace (q - (i + k))%nat with (q - i - k)%nat by lia.
    assert (seg L (q - i - k) q = seg L (q - i - k) (q - i) ++ seg L (q - i) q) as ->; [|rewrite hist_app, Zlength_app; lia].
    unfold seg. rewrite (take_seg L (q - i) q) at 1 by lia. rewrite drop_app_le; [done|]. apply at_bound in Hat. rewrite length_take. lia. }
  apply (same_window_suffix wn [] _). unfold Zlength in Hlen. lia.
Qed.

(** ** Forward again *)

(** One item forward. *)
Lemma advance_one st l L rest t cur x : tower st l (L :: rest) -> at_ st l (L :: rest) t cur -> L !! t = Some x ->
  cur_current cur = Ok x /\ exists cur', advance c_vr cur = Ok (Nat.ltb (S t) (length L), cur') /\ at_ st l (L :: rest) (S t) cur'.
Proof.
  intros Ht Hat Hx. destruct (at_current _ _ _ _ _ _ _ Hat Hx) as [Hitem _]. split; [done|]. pose proof (lookup_lt_Some _ _ _ Hx).
  destruct (advance_at _ _ _ _ _ Ht Hat) as (Hmid & Hend & _). cbn [hd] in *. destruct (Nat.ltb_spec (S t) (length L)) as [Hlt|Hge]; [by apply Hmid|].
  destruct (Hend ltac:(lia)) as (_ & cur' & ? & ?). by exists cur'.
Qed.

(** At item [t] on the way to [q]: the items of the chunk, the last [ac] before
    [q], are collected, and the last [pc] are hashed. *)
Record primed (st : cstate) (l : bool) (L : list sequenceItem) (rest : list (list sequenceItem)) (q ac pc t : nat) (c : chunker) : Prop := MkPrimed {
  pr_cur : exists cur, sc_cur c = Some cur /\ at_ st l (L :: rest) t cur;
  pr_current : current c = seg L (q - ac) t;
  pr_rv : rv_read (sc_rv c) (hist (bytes l st) (seg L (q - pc) t));
  pr_done : sc_done c = false
}.
Lemma read_item st l x rv h : inv st -> ok l st x -> rv_read rv h -> exists rv', hash_item c_leafHash l x rv st = Ok (rv', st) /\ rv_read rv' (h ++ bytes l st x) /\
  crossedBoundary rv' = crossedBoundary rv || crosses h (bytes l st x).
Proof.
  intros Hinv Hx Hr. unfold hash_item. rewrite cl_hash by done. destruct (rv_read_bytes Hwin (bytes l st x) rv h Hr) as (rv' & -> & Hr' & Hc & _). cbn [obind].
  exists rv'. split; [by destruct st|done].
Qed.

(** The item at [t] is collected and hashed. *)
Lemma prime_both st l L rest q ac pc t c x b bf n parents : inv st -> tower st l (L :: rest) -> primed st l L rest q ac pc t c -> L !! t = Some x -> (t < q)%nat ->
  (q - t <= Nat.min ac pc)%nat -> exists c', primed st l L rest q ac pc (S t) c' /\
    prime c_vr c_leafHash (S n) b l bf (Nat.min ac (q - t)) (Nat.min pc (q - t)) (c :: parents) st =
    (let! (sc, st) := if crosses (hist (bytes l st) (seg L (q - pc) t)) (bytes l st x) && bf && Nat.eqb (q - t) 1 then b (c' :: parents) st else Ok (c' :: parents, st) in
     prime c_vr c_leafHash n b l bf (Nat.min ac (q - S t)) (Nat.min pc (q - S t)) sc st).
Proof.
  intros Hinv Ht [(cur & Hcur & Hat) Hc Hr Hd] Hx Htq Hmin. destruct (advance_one _ _ _ _ _ _ _ Ht Hat Hx) as (Hitem & cur' & Hadv & Hat').
  destruct (read_item st l x (ClearLastBoundary (sc_rv c)) _ Hinv (tower_ok _ _ _ _ _ _ Ht Hx) (clear_rv_read _ _ Hr)) as (rv' & He & Hr' & Hcr).
  exists (set_current (set_rv (set_cur c (Some cur')) rv') (current c ++ [x])). split.
  - constructor; cbn; [by exists cur'| | |done].
    + rewrite Hc. symmetry. apply seg_snoc; [lia|done].
    + rewrite (seg_snoc L (q - pc) t x), hist_snoc by (done || lia). done.
  - cbn [prime]. rewrite !Nat.min_r by lia. rewrite (proj2 (Nat.eqb_neq (q - t) 0)), Hcur, Hitem by lia. cbn [andb obind]. rewrite Hadv. cbn [obind].
    rewrite Nat.ltb_irrefl. cbn [set_cur sc_rv]. rewrite He. cbn [obind]. rewrite Hcr. cbn [ClearLastBoundary crossedBoundary orb]. replace (pred (q - t)) with (q - S t)%nat by lia. done.
Qed.
Lemma prime_step st l L rest q ac pc t c b bf n parents : inv st -> tower st l (L :: rest) -> primed st l L rest q ac pc t c -> (t < q)%nat -> (q <= length L)%nat ->
  (q - t <= Nat.max ac pc)%nat -> bf = false \/ (S t < q)%nat ->
  exists c', primed st l L rest q ac pc (S t) c' /\
    prime c_vr c_leafHash (S n) b l bf (Nat.min ac (q - t)) (Nat.min pc (q - t)) (c :: parents) st =
    prime c_vr c_leafHash n b l bf (Nat.min ac (q - S t)) (Nat.min pc (q - S t)) (c' :: parents) st.
Proof.
  intros Hinv Ht Hp Htq HqL Hmax Hbf. destruct (lookup_lt_is_Some_2 L t ltac:(lia)) as [x Hx]. destruct (decide (q - t <= Nat.min ac pc)%nat) as [Hmin|Hmin].
  { destruct (prime_both st l L rest q ac pc t c x b bf n parents Hinv Ht Hp Hx Htq Hmin) as (c' & Hp' & ->). exists c'. split; [done|].
    replace (_ && bf && Nat.eqb (q - t) 1) with false; [done|]. symmetry. destruct Hbf as [->|Hlt]; [by rewrite andb_false_r|].
    rewrite (proj2 (Nat.eqb_neq (q - t) 1)), andb_false_r by lia. done. }
  destruct Hp as [(cur & Hcur & Hat) Hc Hr Hd]. destruct (advance_one _ _ _ _ _ _ _ Ht Hat Hx) as (Hitem & cur' & Hadv & Hat').
  cbn [prime]. assert (Nat.eqb (Nat.min pc (q - t)) 0 && Nat.eqb (Nat.min ac (q - t)) 0 = false) as -> by (apply andb_false_iff; rewrite !Nat.eqb_neq; lia).
  rewrite Hcur, Hitem. cbn [obind]. rewrite Hadv. cbn [obind]. destruct (Nat.ltb_spec (Nat.min ac (q - t)) (Nat.min pc (q - t))) as [Hlt|Hge].
  - cbn [set_cur sc_rv]. destruct (read_item st l x (sc_rv c) _ Hinv (tower_ok _ _ _ _ _ _ Ht Hx) Hr) as (rv' & -> & Hr' & _). cbn [obind].
    exists (set_rv (set_cur c (Some cur')) rv'). split; [|by replace (pred (Nat.min pc (q - t))) with (Nat.min pc (q - S t)) by lia; replace (Nat.min ac (q - t)) with (Nat.min ac (q - S t)) by lia].
    constructor; cbn; [by exists cur'| | |done].
    + rewrite Hc, !seg_nil by lia. done.
    + rewrite (seg_snoc L (q - pc) t x), hist_snoc by (done || lia). done.
  - rewrite (proj2 (Nat.ltb_lt _ _)) by lia.
    exists (set_current (set_cur c (Some cur')) (current c ++ [x])). split; [|by replace (pred (Nat.min ac (q - t))) with (Nat.min ac (q - S t)) by lia; replace (Nat.min pc (q - t)) with (Nat.min pc (q - S t)) by lia].
    constructor; cbn; [by exists cur'| | |done].
    + rewrite Hc. symmetry. apply seg_snoc; [lia|done].
    + rewrite seg_nil in * by lia. done.
Qed.
(** To item [u], before the last one if that may be a boundary. *)
Lemma prime_to st l L rest q ac pc u b bf parents : inv st -> tower st l (L :: rest) -> (u <= q <= length L)%nat -> bf = false \/ (u < q)%nat ->
  forall k t n c, primed st l L rest q ac pc t c -> (t + k = u)%nat -> (q - t <= Nat.max ac pc)%nat ->
  exists c', primed st l L rest q ac pc u c' /\
    prime c_vr c_leafHash (k + n) b l bf (Nat.min ac (q - t)) (Nat.min pc (q - t)) (c :: parents) st =
    prime c_vr c_leafHash n b l bf (Nat.min ac (q - u)) (Nat.min pc (q - u)) (c' :: parents) st.
Proof.
  intros Hinv Ht Hu Hbf. induction k as [|k IH]; intros t n c Hp Htk Hmax; [exists c; by replace u with t by lia|].
  destruct (prime_step st l L rest q ac pc t c b bf (k + n) parents Hinv Ht Hp) as (c1 & Hp1 & He); [lia|lia|lia|destruct Hbf; [by left|right; lia]|].
  destruct (IH (S t) n c1 Hp1) as (c' & Hp' & He'); [lia|lia|]. exists c'. split; [done|]. cbn [Nat.add]. by rewrite He, He'.
Qed.

(** ** One level *)

#[local] Abbreviation hcb := (handleChunkBoundary c_vr false c_makeChunk c_parentMakeChunk c_leafHash).
#[local] Abbreviation resume_ := (resume c_vr false c_makeChunk c_parentMakeChunk c_leafHash).
#[local] Abbreviation create_parent := (createParent c_vr false c_makeChunk c_parentMakeChunk c_leafHash).

(** [resume] once the parents are there. *)
Definition resumed (fuel : nat) (l : bool) (cur : sequenceCursor) (parents : sequenceChunker) (st : cstate) : outcome (sequenceChunker * cstate) :=
  let cursorBeyondFinal := indexInChunk cur =? cur_length cur in
  let! (cur, k) :=
    if cursorBeyondFinal then
      let! (moved, cur) := retreatMaybeAllowBeforeStart c_vr cur false in Ok (cur, if moved : bool then 1%nat else O)
    else Ok (cur, O) in
  let rv := set_lengthOnly newRollingValueHasher true in
  let! (cur, rv, st, primeHashBytes, appendCount, primeHashCount) :=
    walk_in_chunk c_vr c_leafHash (S (Z.to_nat (indexInChunk cur))) l cur rv st (window rv) k k in
  let! (cur, rv, st, primeHashCount) := walk_before c_vr c_leafHash fuel l cur rv st primeHashBytes primeHashCount in
  prime c_vr c_leafHash (S (appendCount + primeHashCount)) (hcb fuel l) l cursorBeyondFinal appendCount primeHashCount
    (MkSc (Some cur) [] (set_lengthOnly rv false) false :: parents) st.
Lemma resume_S fuel l cur st : resume_ (S fuel) l cur st =
  let! (parents, st) := match cur with _ :: _ :: _ => create_parent fuel (new_chunker (Some cur)) st | _ => Ok ([], st) end in
  resumed fuel l cur parents st.
Proof. reflexivity. Qed.
Lemma prime_none n b l bf sc st : prime c_vr c_leafHash (S n) b l bf 0 0 sc st = Ok (sc, st).
Proof. reflexivity. Qed.
Lemma new_counting : counting (set_lengthOnly newRollingValueHasher true).
Proof. split; [done|]. by destruct (new_rv_read Hwin). Qed.
Lemma start_primed st l L rest q i j cur rv : at_ st l (L :: rest) (q - Nat.max i j) cur -> counting rv ->
  primed st l L rest q i j (q - Nat.max i j) (MkSc (Some cur) [] (set_lengthOnly rv false) false).
Proof. intros Hat [_ Hr]. constructor; cbn; [by exists cur|by rewrite seg_nil by lia|by rewrite seg_nil by lia|done]. Qed.

Lemma resumed_inside fuel st l L rest q i cur parents : inv st -> tower st l (L :: rest) -> at_ st l (L :: rest) q cur -> indexInChunk cur = Z.of_nat i -> (i <= q)%nat ->
  indexInChunk cur <> cur_length cur -> (q < fuel)%nat -> exists c j, resumed fuel l cur parents st = Ok (c :: parents, st) /\ primed st l L rest q i j q c /\
    same_window wn (hist (bytes l st) (seg L (q - j) q)) (hist (bytes l st) (take q L)).
Proof.
  intros Hinv Ht Hat Hi Hiq Hne Hfuel. unfold resumed. rewrite (proj2 (Z.eqb_neq _ _) Hne). cbn [obind].
  destruct (walk_ok st l L rest i q (S (Z.to_nat (indexInChunk cur))) fuel cur _ 0 0 Hinv Ht Hat Hi Hiq ltac:(lia) Hfuel new_counting) as
    (cur1 & rv1 & pb1 & pc1 & cur' & rv' & j & Hj & Hin & Hbef & Hat' & Hrv' & Hsw).
  change (window (set_lengthOnly newRollingValueHasher true)) with chunkWindow. rewrite Hin. cbn [obind]. rewrite Hbef. cbn [obind Nat.add].
  destruct (prime_to st l L rest q i j q (hcb fuel l) false parents Hinv Ht ltac:(apply at_bound in Hat; lia) (or_introl eq_refl) (Nat.max i j) (q - Nat.max i j) (S (Nat.min i j)) _
    (start_primed _ _ _ _ _ _ _ _ _ Hat' Hrv')) as (c & Hp & He); [lia|lia|].
  exists c, j. split; [|done]. rewrite Nat.sub_diag, !Nat.min_0_r, prime_none in He. etransitivity; [|exact He]. f_equal; lia.
Qed.
Lemma resumed_beyond fuel st l L rest m i cur parents : inv st -> tower st l (L :: rest) -> at_ st l (L :: rest) (S m) cur -> indexInChunk cur = Z.of_nat (S i) -> (i <= m)%nat ->
  indexInChunk cur = cur_length cur -> (S m = length L)%nat -> (m < fuel)%nat -> exists c j x, L !! m = Some x /\
    resumed fuel l cur parents st = (if crosses (hist (bytes l st) (take m L)) (bytes l st x) then hcb fuel l (c :: parents) st else Ok (c :: parents, st)) /\
    primed st l L rest (S m) (S i) (S j) (S m) c /\ same_window wn (hist (bytes l st) (seg L (m - j) m)) (hist (bytes l st) (take m L)).
Proof.
  intros Hinv Ht Hat Hi Him Hidx Hlen Hfuel. destruct (at_item _ _ _ _ _ _ Hat) as [x Hx]. pose proof (retreat_at _ _ _ _ _ Ht Hat false) as (cur0 & Hr & Hat0).
  assert (indexInChunk cur0 = Z.of_nat i) as Hi0.
  { destruct cur as [|[seq idx] par]; [done|]. cbn in Hi. subst idx. cbn [retreatMaybeAllowBeforeStart] in Hr. rewrite (proj2 (Z.ltb_lt _ _)) in Hr by lia. injection Hr as <-. cbn. lia. }
  unfold resumed. rewrite (proj2 (Z.eqb_eq _ _) Hidx), Hr. cbn [obind].
  destruct (walk_ok st l L rest i m (S (Z.to_nat (indexInChunk cur0))) fuel cur0 _ 1 1 Hinv Ht Hat0 Hi0 Him ltac:(lia) Hfuel new_counting) as
    (cur1 & rv1 & pb1 & pc1 & cur' & rv' & j & Hj & Hin & Hbef & Hat' & Hrv' & Hsw).
  change (window (set_lengthOnly newRollingValueHasher true)) with chunkWindow. rewrite Hin. cbn [obind]. rewrite Hbef. cbn [obind Nat.add].
  assert (at_ st l (L :: rest) (S m - Nat.max (S i) (S j)) cur') as Hat'' by (by replace (S m - Nat.max (S i) (S j))%nat with (m - Nat.max i j)%nat by lia).
  destruct (prime_to st l L rest (S m) (S i) (S j) m (hcb fuel l) true parents Hinv Ht ltac:(lia) ltac:(right; lia) (Nat.max i j) (S m - Nat.max (S i) (S j)) (S (S (S (Nat.min i j)))) _
    (start_primed _ _ _ _ _ _ _ _ _ Hat'' Hrv')) as (c1 & Hp1 & He1); [lia|lia|].
  destruct (prime_both st l L rest (S m) (S i) (S j) m c1 x (hcb fuel l) true (S (S (Nat.min i j))) parents Hinv Ht Hp1 Hx ltac:(lia) ltac:(lia)) as (c & Hp & He).
  exists c, j, x. split; [done|]. split; [|done].
  etransitivity; [|etransitivity; [exact He1|]]; [f_equal; lia|]. rewrite He. replace (S m - m)%nat with 1%nat by lia. rewrite Nat.sub_diag, !Nat.min_0_r. cbn [Nat.eqb]. rewrite !andb_true_r.
  rewrite (crosses_window _ _ _ Hsw). destruct (crosses (hist (bytes l st) (take m L)) (bytes l st x)); [|apply prime_none]. destruct (hcb fuel l (c :: parents) st) as [[sc st']|]; [apply prime_none|done].
Qed.

End facts.

End ResumeFacts.
