(* ===== verification/AlignFacts.v ===== *)
(** * Package [types]: the cursors of a chunker

    The cursor of each level is at the chunk of the cursor below.  [resume]
    establishes this, [Append] and [Skip] keep it. *)

From S2P Require Import Prelude GoLib HashPkg TypesCodec TypesType TypesValue RollingHash Sequences Chunker ChunkerFacts CursorFacts AppendFacts BuildFacts ResumeFacts.
Import Hash Float64 Codec NomsKinds TypeCache Values Rolling Sequences Chunker.
Import BuzFacts RollingFacts ChunkerFacts CursorFacts AppendFacts BuildFacts ResumeFacts.

Module AlignFacts.

Section facts.
Context `{chunkingConfig, chunking} (Hwin : 0 < chunkWindow < 2 ^ 32) `{!chunk_laws}.
#[local] Abbreviation wn := (Z.to_nat chunkWindow).
#[local] Abbreviation hcb := (handleChunkBoundary c_vr false c_makeChunk c_parentMakeChunk c_leafHash).
#[local] Abbreviation resume_ := (resume c_vr false c_makeChunk c_parentMakeChunk c_leafHash).
#[local] Abbreviation create_parent := (createParent c_vr false c_makeChunk c_parentMakeChunk c_leafHash).

(** Item [q] is item [i] of the chunk [ck] after the chunks [cs1]; the end is in
    the last chunk. *)
Definition placed (st : cstate) (l : bool) (L : list sequenceItem) (q : nat) (cs1 : list (list sequenceItem)) (ck : list sequenceItem) (cs2 : list (list sequenceItem)) (i : nat) : Prop :=
  exists cs r, cut (bytes l st) [] L cs r /\ full cs r = cs1 ++ ck :: cs2 /\ q = (length (concat cs1) + i)%nat /\ ((i < length ck)%nat \/ (i = length ck /\ cs2 = [])).
(** The index of the chunk of item [q]. *)
Definition cidx (st : cstate) (l : bool) (L : list sequenceItem) (q p : nat) : Prop := exists cs1 ck cs2 i, placed st l L q cs1 ck cs2 i /\ p = length cs1.
(** The levels of the edited tree, if there are any. *)
Definition old_tree (st : cstate) (l : bool) (olds : list (list sequenceItem)) : Prop := match olds with [] => True | _ => tower st l olds end.
(** A cursor past the end, and one that the next step takes there. *)
Definition past (cur : sequenceCursor) : Prop := valid cur = false /\ advance c_vr cur = Ok (false, cur).
Definition spent (cur : sequenceCursor) : Prop := exists cur', advance c_vr cur = Ok (false, cur') /\ past cur' /\ length cur' = length cur.
(** Chunkers above the edited tree: they have nothing to take over. *)
Fixpoint idle (ps : sequenceChunker) : Prop :=
  match ps with
  | [] => True
  | c :: ps' => match sc_cur c with Some cur => spent cur | None => uncursored ps' end /\ (ps' = [] -> no_parent c) /\ idle ps'
  end.
Definition at_end (ps : sequenceChunker) : Prop := match ps with c :: _ => match sc_cur c with Some cur => past cur | None => True end | [] => True end.
(** Chunkers at item [q]; above the tree, a position after the start says that the
    first of them is past its end. *)
Inductive aligned (st : cstate) : bool -> list (list sequenceItem) -> nat -> sequenceChunker -> Prop :=
| al_none l q ps : idle ps -> ((0 < q)%nat -> at_end ps) -> aligned st l [] q ps
| al_level l L rest q p c cur ps : sc_cur c = Some cur -> at_ st l (L :: rest) q cur -> (rest <> [] -> cidx st l L q p) -> aligned st false rest p ps -> aligned st l (L :: rest) q (c :: ps).

Lemma uncursored_idle ps : uncursored ps -> idle ps /\ at_end ps.
Proof.
  induction 1 as [|c ps Hc Hu IH]; cbn [idle at_end]; [done|]. rewrite Hc. split_and!; try done; [|by apply IH]. intros _. unfold no_parent. by rewrite Hc.
Qed.
Lemma aligned_uncursored st l q ps : uncursored ps -> aligned st l [] q ps.
Proof. intros [Hi He]%uncursored_idle. by constructor. Qed.
Lemma idle_same ps : forall ps', idle ps -> same_cursors ps ps' -> idle ps'.
Proof.
  induction ps as [|c ps IH]; intros [|c' ps'] Hi Hs; try done.
  - apply uncursored_idle, (same_uncursored [] _ Hs). constructor.
  - destruct Hs as [k Hk]. cbn in Hk. injection Hk as Hc Hps. destruct Hi as (Hcur & Hn & Hi). assert (same_cursors ps ps') as Hs' by by exists k. cbn [idle]. rewrite Hc. split_and!; [|..|by apply IH].
    + destruct (sc_cur c); [done|]. by apply (same_uncursored ps).
    + intros ->. unfold no_parent. rewrite Hc. apply Hn. destruct ps; [done|]. by apply (f_equal length) in Hps.
Qed.
Lemma at_end_same ps ps' : at_end ps -> same_cursors ps ps' -> at_end ps'.
Proof.
  intros He [k Hk]. destruct ps as [|c ps], ps' as [|c' ps']; try done; cbn in *.
  - destruct k; [done|]. injection Hk as -> _. done.
  - by injection Hk as -> _.
Qed.
Lemma past_spent cur : past cur -> spent cur.
Proof. intros [Hv Ha]. by exists cur. Qed.

Lemma old_tree_rest st l L rest : tower st l (L :: rest) -> old_tree st false rest.
Proof. by inversion 1. Qed.
Lemma old_tree_le st st' l olds : le st st' -> old_tree st l olds -> old_tree st' l olds.
Proof. destruct olds; [done|]. cbn. apply tower_le. Qed.
Lemma placed_le st st' l L q cs1 ck cs2 i : le st st' -> Forall (ok l st) L -> placed st l L q cs1 ck cs2 i -> placed st' l L q cs1 ck cs2 i.
Proof. intros Hle Hok (cs & r & Hc & ?). exists cs, r. split; [by apply (cut_le l st)|done]. Qed.
Lemma aligned_le st st' l olds q sc : le st st' -> old_tree st l olds -> aligned st l olds q sc -> aligned st' l olds q sc.
Proof.
  intros Hle Ht Hal. induction Hal as [l q ps Hu He|l L rest q p c cur ps Hc Hat Hi Hal IH]; [by constructor|]. cbn [old_tree] in Ht.
  apply (al_level st' l L rest q p c cur ps); [done|by apply (at_le st)| |by apply IH, (old_tree_rest st l L)].
  intros Hne. destruct (Hi Hne) as (cs1 & ck & cs2 & i & Hp & ->). exists cs1, ck, cs2, i. split; [|done]. apply (placed_le st); [done|by eapply tower_oks|done].
Qed.
Lemma aligned_same st l olds q sc sc' : aligned st l olds q sc -> same_cursors sc sc' -> aligned st l olds q sc'.
Proof.
  intros Hal. revert sc'. induction Hal as [l q ps Hu He|l L rest q p c cur ps Hc Hat Hi Hal IH]; intros sc' Hsc; [constructor; [by apply (idle_same ps)|intros Hq; apply (at_end_same ps); [by apply He|done]]|].
  destruct sc' as [|c' ps']; [destruct Hsc as [k Hk]; done|]. destruct Hsc as [k Hk]. cbn in Hk. injection Hk as Hc' Hps.
  apply (al_level st l L rest q p c' cur ps'); [by rewrite Hc'|done|done|]. apply IH. by exists k.
Qed.

Lemma placed_items st l L q cs1 ck cs2 i : placed st l L q cs1 ck cs2 i -> L = concat cs1 ++ ck ++ concat cs2 /\ (i <= length ck)%nat /\ q = (length (concat cs1) + i)%nat.
Proof.
  intros (cs & r & [-> _] & Hf & -> & Hi). split; [|split; [lia|done]]. by rewrite <- concat_full, Hf, concat_app.
Qed.
Lemma placed_take st l L q cs1 ck cs2 i : placed st l L q cs1 ck cs2 i -> take q L = concat cs1 ++ take i ck /\ seg L (q - i) q = take i ck.
Proof.
  intros (-> & Hi & ->)%placed_items. rewrite Nat.add_sub. unfold seg.
  assert (take (length (concat cs1) + i) (concat cs1 ++ ck ++ concat cs2) = concat cs1 ++ take i ck) as ->; [by rewrite take_app_add, take_app_le by done|].
  split; [done|]. apply drop_app_length.
Qed.
(** The cut of the items before [q]. *)
Lemma placed_cut st l L q cs1 ck cs2 i : placed st l L q cs1 ck cs2 i -> (i < length ck)%nat -> cut (bytes l st) [] (take q L) cs1 (take i ck).
Proof. intros Hp Hi. destruct (placed_take _ _ _ _ _ _ _ _ Hp) as [-> _]. destruct Hp as (cs & r & Hc & Hf & _). by apply (cut_inside _ _ L cs r cs1 ck cs2). Qed.
Lemma placed_chunk st l L q cs1 ck cs2 i : placed st l L q cs1 ck cs2 i -> ck <> [].
Proof. intros (cs & r & Hc & Hf & _). apply (full_nonempty _ _ _ _ _ ck Hc). rewrite Hf. apply elem_of_app. right. constructor. Qed.

(** A cursor knows its place. *)
Lemma at_placed st l L rest q cur : tower st l (L :: rest) -> at_ st l (L :: rest) q cur -> L <> [] -> exists cs1 ck cs2 i, placed st l L q cs1 ck cs2 i /\
  indexInChunk cur = Z.of_nat i /\ cur_length cur = Zlength ck /\
  match rest with [] => cs1 = [] /\ cs2 = [] /\ tail cur = [] | _ => at_ st false rest (length cs1) (tail cur) end.
Proof.
  intros Ht Hat Hne. destruct (at_place st l L rest q cur Ht Hat Hne) as (cs & r & cs1 & ck & cs2 & i & Hc & Hf & Hq & Hi & Hlen & Hik & Hrest).
  exists cs1, ck, cs2, i. split; [by exists cs, r|done].
Qed.
(** The tuples of the chunks before. *)
Lemma tower_tuples st l L L1 rest q cs1 ck cs2 i : tower st l (L :: L1 :: rest) -> placed st l L q cs1 ck cs2 i ->
  Forall2 (tuple_of l st) cs1 (take (length cs1) L1) /\ Forall2 (tuple_of l st) (ck :: cs2) (drop (length cs1) L1).
Proof.
  intros Ht (cs & r & Hc & Hf & _). inversion Ht as [|? ? cs' r' ? ? _ Hc' Hts _ _]; subst. destruct (cut_fun _ _ _ _ _ _ _ Hc Hc') as [<- <-]. rewrite Hf in Hts.
  apply Forall2_app_inv_l in Hts as (ts1 & ts2 & Hts1 & Hts2 & ->). rewrite (Forall2_length _ _ _ Hts1), take_app_length, drop_app_length. done.
Qed.

(** ** Resuming *)

(** [P] starts a level that is built, of a height of at most [m]. *)
Definition supports (m : nat) (st : cstate) (l : bool) (P : list sequenceItem) : Prop :=
  P = [] \/ exists N rest, built st l (N :: rest) /\ P `prefix_of` N /\ (length (N :: rest) <= m)%nat.
Lemma supports_le m st st' l P : le st st' -> supports m st l P -> supports m st' l P.
Proof. intros Hle [->|(N & rest & Hb & ?)]; [by left|right]. exists N, rest. split; [by apply (built_le st)|done]. Qed.
Lemma supports_up m st l P cs r ts : inv st -> supports m st l P -> cut (bytes l st) [] P cs r -> Forall2 (tuple_of l st) cs ts -> supports m st false ts.
Proof.
  intros Hinv Hs Hc Hts. destruct cs as [|ck cs]; [inversion Hts; by left|]. destruct Hs as [->|(N & rest & Hb & Hpre & Hm)]; [by destruct (cut_empty _ _ _ _ _ Hc eq_refl)|].
  destruct (built_prefix st l N rest P (ck :: cs) r ts Hinv Hb Hpre Hc) as (N1 & rest' & -> & Hb1 & Hpre1); [done|done|]. right. exists N1, rest'. split; [done|]. split; [done|]. cbn in *. lia.
Qed.
Lemma supports_prefix m st l P P' : supports m st l P -> P' `prefix_of` P -> supports m st l P'.
Proof.
  intros [->|(N & rest & Hb & Hpre & Hm)] Hp; [left; by destruct Hp as [k ?]; destruct P'|right]. exists N, rest. split_and!; [done|by etransitivity|done].
Qed.

(** What the parents of a level have to satisfy. *)
Lemma parents_psim st l L rest q cur c ts parents p : at_ st l (L :: rest) q cur -> sc_cur c = Some cur -> aligned st false rest p parents ->
  match rest with [] => parents = [] /\ ts = [] | _ => sim st false ts parents end -> psim st ts c parents.
Proof.
  intros Hat Hc Hal Hp. destruct rest as [|L1 rest].
  - destruct Hp as [-> ->]. split; [done|]. unfold no_parent. rewrite Hc. inversion Hat; subst. done.
  - inversion Hal; subst. exact Hp.
Qed.

Definition resumes (olds : list (list sequenceItem)) : Prop := forall fuel l L rest q cur st m, olds = L :: rest -> tower st l olds -> at_ st l olds q cur -> inv st ->
  supports m st l (take q L) -> (2 * length olds + length L + 2 * m + 3 <= fuel)%nat ->
  exists sc st', resume_ fuel l cur st = Ok (sc, st') /\ inv st' /\ le st st' /\ sim st' l (take q L) sc /\ aligned st' l olds q sc.

Lemma chunks_fewer by_ h xs cs r : cut by_ h xs cs r -> (length (full cs r) <= length xs)%nat.
Proof.
  intros Hc. assert (forall ls : list (list sequenceItem), (forall ck, ck ∈ ls -> ck <> []) -> length ls <= length (concat ls))%nat as Hlen.
  { induction ls as [|ck ls IH]; intros Hne; [done|]. cbn [concat length]. rewrite length_app. pose proof (IH ltac:(intros ck' Hck'; apply Hne; by constructor)).
    destruct ck; [by destruct (Hne [] ltac:(constructor))|]. cbn. lia. }
  etransitivity; [apply Hlen; intros ck; by apply (full_nonempty _ _ _ _ _ ck Hc)|]. rewrite concat_full. by destruct Hc as [-> _].
Qed.
Lemma tower_shorter st l L L1 rest : tower st l (L :: L1 :: rest) -> (length L1 <= length L)%nat.
Proof. inversion 1 as [|? ? cs r ? ? _ Hc Hts _ _]; subst. rewrite <- (Forall2_length _ _ _ Hts). by eapply chunks_fewer. Qed.

Lemma resume_parents L rest fuel l q cur st m cs1 ck cs2 i : resumes rest -> tower st l (L :: rest) -> at_ st l (L :: rest) q cur -> inv st -> supports m st l (take q L) ->
  placed st l L q cs1 ck cs2 i -> match rest with [] => cs1 = [] /\ cs2 = [] /\ tail cur = [] | _ => at_ st false rest (length cs1) (tail cur) end ->
  (2 * length (L :: rest) + length L + 2 * m + 2 <= fuel)%nat -> exists ts parents st1,
  match cur with _ :: _ :: _ => create_parent fuel (new_chunker (Some cur)) st | _ => Ok ([], st) end = Ok (parents, st1) /\ inv st1 /\ le st st1 /\
  Forall2 (tuple_of l st1) cs1 ts /\ match rest with [] => parents = [] /\ ts = [] | _ => sim st1 false ts parents end /\ aligned st1 false rest (length cs1) parents.
Proof.
  intros IH Ht Hat Hinv Hsup Hpl Hrest Hfuel. destruct (at_nonempty _ _ _ _ _ Hat) as (lv & tl & ->). cbn [tail] in Hrest. destruct rest as [|L1 rest].
  - destruct Hrest as (-> & -> & ->). exists [], [], st. split_and!; try done; [apply cl_refl|by constructor].
  - destruct (at_nonempty _ _ _ _ _ Hrest) as (lv1 & tl1 & ->). destruct fuel as [|fuel]; [lia|]. rewrite createParent_S. cbn [new_chunker sc_cur].
    destruct (tower_tuples _ _ _ _ _ _ _ _ _ _ Ht Hpl) as [Hts _]. pose proof (tower_shorter _ _ _ _ _ Ht) as Hsh.
    assert (supports m st false (take (length cs1) L1)) as Hsup1.
    { apply (supports_up m st l (concat cs1) cs1 []); [done| | |done].
      - apply (supports_prefix _ _ _ (take q L)); [done|]. destruct (placed_take _ _ _ _ _ _ _ _ Hpl) as [-> _]. by eexists.
      - destruct Hpl as (cs & r & Hc & Hf & _). by destruct (cut_split _ _ _ _ _ _ _ Hc Hf) as [? _]. }
    destruct (IH fuel false L1 rest (length cs1) (lv1 :: tl1) st m eq_refl) as (parents & st1 & -> & Hinv1 & Hle1 & Hs1 & Hal1);
      [by inversion Ht|done|done|done|cbn [length] in *; lia|].
    exists (take (length cs1) L1), parents, st1. split_and!; try done. by eapply tuples_le.
Qed.

Lemma same_tail (h k : list byte) l1 : same_window wn h k -> same_window wn (h ++ l1) (k ++ l1).
Proof. apply same_window_app. Qed.
Lemma primed_lvl st l L rest q i j c cs r : primed st l L rest q i j q c -> cut (bytes l st) [] (take q L) cs r -> seg L (q - i) q = r ->
  same_window wn (hist (bytes l st) (seg L (q - j) q)) (hist (bytes l st) (take q L)) -> lvl st l (take q L) cs c.
Proof. intros [_ Hc Hr Hd] Hcut <- Hsw. constructor; [by rewrite Hc|by eexists|done]. Qed.
(** The last item of a chunk at the end decides. *)
Lemma placed_end st l L q cs1 ck m : placed st l L q cs1 ck [] (length ck) -> q = S m -> exists pre x, ck = pre ++ [x] /\ L !! m = Some x /\ take m L = concat cs1 ++ pre /\
  if crosses (hist (bytes l st) (take m L)) (bytes l st x) then cut (bytes l st) [] L (cs1 ++ [ck]) [] else cut (bytes l st) [] L cs1 ck.
Proof.
  intros Hp ->. destruct (placed_items _ _ _ _ _ _ _ _ Hp) as (HL & _ & Hm). cbn [concat] in HL. rewrite app_nil_r in HL. destruct Hp as (cs & r & Hc & Hf & _ & _).
  destruct (cut_last _ _ _ _ _ _ _ Hc Hf) as (pre & x & -> & Hpre & Hcr). rewrite length_app in Hm. cbn in Hm.
  assert (take m L = concat cs1 ++ pre) as Htk by (rewrite HL, app_assoc; replace m with (length (concat cs1 ++ pre)) by (rewrite length_app; lia); apply take_app_length).
  exists pre, x. split; [done|]. split; [rewrite HL, app_assoc; apply list_lookup_middle; rewrite length_app; lia|]. split; [done|].
  rewrite Htk. cbn [app] in Hcr. destruct (crosses _ _); destruct Hcr as [<- <-]; done.
Qed.

Lemma resume_empty fuel l q cur st rest : tower st l ([] :: rest) -> at_ st l ([] :: rest) q cur -> inv st -> exists sc, resume_ (S (S fuel)) l cur st = Ok (sc, st) /\
  sim st l [] sc /\ aligned st l ([] :: rest) q sc.
Proof.
  intros Ht Hat Hinv. inversion Ht as [|? ? cs r L1 rest' _ Hc Hts Hne _]; subst.
  2:{ destruct (cut_empty _ _ _ _ _ Hc eq_refl) as [-> ->]. by inversion Hts; subst. }
  pose proof (at_bound _ _ _ _ _ _ Hat) as Hq. cbn in Hq. assert (q = 0%nat) as -> by lia. pose proof (retreat_at _ _ _ _ _ Ht Hat) as Hr. cbn [retreats] in Hr.
  inversion Hat as [? ? ? seq Hs _|]; subst. rewrite resume_S. cbn [obind]. unfold resumed. cbn [indexInChunk cur_length]. unfold seqLen. rewrite Hs. change (Z.of_nat 0 =? Zlength []) with true. cbv iota.
  rewrite Hr. cbn [obind indexInChunk].
  destruct (walk_ok Hwin st l [] [] 0 0 (S (Z.to_nat (Z.of_nat 0))) (S fuel) _ _ 0 0 Hinv Ht Hat eq_refl ltac:(lia) ltac:(lia) ltac:(lia) (new_counting Hwin)) as
    (cur1 & rv1 & pb1 & pc1 & cur' & rv' & j & Hj & Hin & Hbef & Hat' & [_ Hrv'] & _).
  change (window (set_lengthOnly newRollingValueHasher true)) with chunkWindow. rewrite Hin. cbn [obind]. rewrite Hbef. assert (j = 0%nat) as -> by lia.
  cbn [obind Nat.add]. rewrite prime_none. eexists. split; [done|]. split.
  - constructor; [|by inversion Hat']. constructor; [apply cut_nil| |done]. exists []. split; [exact Hrv'|apply same_window_refl].
  - eapply (al_level _ _ _ _ _ 0%nat); [done|done|done|by constructor].
Qed.

Lemma aligned_level st st' l L rest q p c cur parents parents' : le st st' -> tower st l (L :: rest) -> sc_cur c = Some cur -> at_ st l (L :: rest) q cur -> (rest <> [] -> cidx st l L q p) ->
  aligned st false rest p parents -> same_cursors parents parents' -> aligned st' l (L :: rest) q (c :: parents').
Proof.
  intros Hle Ht Hc Hat Hi Hal Hsc. apply (aligned_le st); [done|done|]. apply (al_level st l L rest q p c cur); try done. by apply (aligned_same st false rest p parents).
Qed.
(** A finished chunk is handed to the parents. *)
Lemma hand_over m fuel st l P cs ck ts c parents : inv st -> supports m st l P -> cut (bytes l st) [] P (cs ++ [ck]) [] -> Forall2 (tuple_of l st) cs ts -> current c = ck -> ck <> [] ->
  psim st ts c parents -> (2 * m < fuel)%nat -> exists parents' st' ts', hcb fuel l (c :: parents) st = Ok (set_current c [] :: parents', st') /\ inv st' /\ le st st' /\
    Forall2 (tuple_of l st') (cs ++ [ck]) ts' /\ sim st' false ts' parents' /\ same_cursors parents parents' /\ (exists t, ts' = ts ++ [t]).
Proof.
  intros Hinv Hsup Hcut Hts Hck Hne Hp Hfuel. destruct Hsup as [->|(N & rest & Hb & Hpre & Hm)].
  { destruct (cut_empty _ _ _ _ _ Hcut eq_refl) as [Hnil _]. by destruct cs. }
  destruct (built_tuple _ _ _ _ _ _ _ Hb Hpre Hcut) as (t & seq & mt & -> & Hmd & Hckne).
  assert (Forall2 (tuple_of l st) (cs ++ [ck]) (ts ++ [MItem mt])) as Hts' by (apply Forall2_app; [done|constructor; [by exists seq, mt|done]]).
  destruct (built_prefix _ _ _ _ _ _ _ _ Hinv Hb Hpre Hcut ltac:(by destruct cs) Hts') as (N1 & rest' & -> & Hb1 & Hpre1).
  destruct (boundary_ok Hwin (N1 :: rest') fuel l st c parents seq mt ts N1 rest' eq_refl (Append_ok Hwin _) Hb1 Hinv) as (parents' & st' & He & Hinv' & Hle' & Hs' & Hsc');
    [by rewrite Hck|by rewrite Hck|done|by eapply tuples_ok|done|cbn [length] in *; lia|].
  exists parents', st', (ts ++ [MItem mt]). split_and!; try done; [by eapply tuples_le|by eexists].
Qed.
Lemma sim_psim st ts c parents : sim st false ts parents -> psim st ts c parents.
Proof. intros Hs. destruct parents; [inversion Hs|done]. Qed.

(** At the end, a chunk that is complete is handed over again. *)
Lemma resume_end fuel l L rest q cur st m cs1 ck ts parents : tower st l (L :: rest) -> at_ st l (L :: rest) q cur -> inv st -> supports m st l L ->
  placed st l L q cs1 ck [] (length ck) -> indexInChunk cur = Zlength ck -> cur_length cur = Zlength ck -> Forall2 (tuple_of l st) cs1 ts ->
  match rest with [] => parents = [] /\ ts = [] | _ => sim st false ts parents end -> aligned st false rest (length cs1) parents -> (length L + 2 * m + 2 <= fuel)%nat ->
  exists sc st', resumed fuel l cur parents st = Ok (sc, st') /\ inv st' /\ le st st' /\ sim st' l L sc /\ aligned st' l (L :: rest) q sc.
Proof.
  intros Ht Hat Hinv Hsup Hpl Hi Hlen Hts Hps Hal Hfuel. pose proof (placed_chunk _ _ _ _ _ _ _ _ Hpl) as Hck.
  destruct (placed_items _ _ _ _ _ _ _ _ Hpl) as (HL & _ & Hq). cbn [concat] in HL. rewrite app_nil_r in HL.
  assert (exists k, length ck = S k) as [k Hk] by (destruct ck; [done|by eexists]). assert (q = S (length (concat cs1) + k)) as Hqm by lia. set (m' := (length (concat cs1) + k)%nat) in *.
  assert (S m' = length L) as HmL by (rewrite HL, length_app; lia).
  destruct (placed_end _ _ _ _ _ _ m' Hpl Hqm) as (pre & x & Hckx & Hx & Htk & Hcr). clear Hq. subst q.
  destruct (resumed_beyond Hwin fuel st l L rest m' k cur parents Hinv Ht Hat) as (c & j & x' & Hx' & -> & Hp & Hsw); [rewrite Hi; unfold Zlength; lia|lia|by rewrite Hi, Hlen|done|lia|].
  rewrite Hx in Hx'. injection Hx' as <-. destruct (placed_take _ _ _ _ _ _ _ _ Hpl) as [HtL Hseg]. rewrite take_ge in HtL by lia. rewrite Hk, firstn_all2 in Hseg by lia.
  assert (same_window wn (hist (bytes l st) (seg L (S m' - S j) (S m'))) (hist (bytes l st) (take (S m') L))) as Hsw'.
  { rewrite Nat.sub_succ, (seg_snoc L (m' - j) m' x), (take_S_r L m' x), !hist_snoc by (done || lia). by apply same_tail. }
  pose proof (primed_lvl st l L rest (S m') (S k) (S j) c) as Hlvl. destruct (pr_cur _ _ _ _ _ _ _ _ _ Hp) as (cur' & Hc' & Hat').
  assert (psim st ts c parents) as Hpsim by (by apply (parents_psim st l L rest (S m') cur' c ts parents (length cs1))).
  assert (rest <> [] -> cidx st l L (S m') (length cs1)) as Hci by (intros _; by exists cs1, ck, [], (length ck)).
  rewrite (take_ge L (S m')) in Hlvl by lia. rewrite (take_ge L (S m')) in Hsw' by lia. destruct (crosses _ _).
  - destruct (hand_over m fuel st l L cs1 ck ts c parents Hinv Hsup Hcr Hts) as (parents' & st' & ts' & -> & Hinv' & Hle' & Hts' & Hs' & Hsc' & _);
      [rewrite (pr_current _ _ _ _ _ _ _ _ _ Hp); done|done|done|lia|].
    exists (set_current c [] :: parents'), st'. split_and!; [done|done|done| |by apply (aligned_level st st' l L rest (S m') (length cs1) _ cur' parents)].
    apply (sim_intro st' l L _ parents' (cs1 ++ [ck]) ts'); [|done|by apply sim_psim]. apply (lvl_le st); [done|by eapply tower_oks|].
    destruct Hp as [_ _ Hr Hd]. constructor; cbn; [done|by eexists|done].
  - exists (c :: parents), st. split_and!; [done|done|apply cl_refl| |by apply (al_level _ _ _ _ _ (length cs1) c cur')].
    apply (sim_intro st l L c parents cs1 ts); [|done|done]. by apply (Hlvl cs1 ck).
Qed.

Lemma resume_ok olds : resumes olds.
Proof.
  induction olds as [|L0 rest0 IH]; intros fuel l L rest q cur st m Heq Ht Hat Hinv Hsup Hfuel; [done|]. injection Heq as -> ->.
  destruct fuel as [|fuel]; [lia|]. destruct (decide (L = [])) as [->|Hne].
  { destruct fuel as [|fuel]; [lia|]. destruct (resume_empty fuel l q cur st rest Ht Hat Hinv) as (sc & He & Hs & Hal). exists sc, st. rewrite take_nil. split_and!; try done. apply cl_refl. }
  destruct (at_placed _ _ _ _ _ _ Ht Hat Hne) as (cs1 & ck & cs2 & i & Hpl & Hi & Hlen & Hrest). rewrite resume_S.
  destruct (resume_parents L rest fuel l q cur st m cs1 ck cs2 i IH Ht Hat Hinv Hsup Hpl Hrest ltac:(lia)) as (ts & parents & st1 & -> & Hinv1 & Hle1 & Hts & Hps & Hal1). cbn [obind].
  apply (tower_le st st1) in Ht as Ht1; [|done]. apply (at_le st st1) in Hat as Hat1; [|done|done]. apply (placed_le st st1) in Hpl as Hpl1; [|done|by eapply tower_oks].
  assert (rest <> [] -> cidx st1 l L q (length cs1)) as Hci by (intros _; by exists cs1, ck, cs2, i). destruct (placed_items _ _ _ _ _ _ _ _ Hpl1) as (HL & Hik & Hq).
  destruct (placed_take _ _ _ _ _ _ _ _ Hpl1) as [Htk Hseg]. pose proof (at_bound _ _ _ _ _ _ Hat) as Hqb. destruct (decide (i < length ck)%nat) as [Hin|Hend].
  - destruct (resumed_inside Hwin fuel st1 l L rest q i cur parents Hinv1 Ht1 Hat1 Hi ltac:(lia)) as (c & j & -> & Hp & Hsw); [rewrite Hi, Hlen; unfold Zlength; lia|cbn in *; lia|].
    exists (c :: parents), st1. split_and!; [done|done|done| |].
    + apply (sim_intro st1 l _ c parents cs1 ts); [|done|].
      * by apply (primed_lvl st1 l L rest q i j c cs1 (take i ck)); [|apply (placed_cut _ _ _ _ _ _ cs2)| |].
      * destruct (pr_cur _ _ _ _ _ _ _ _ _ Hp) as (cur' & Hc' & Hat'). by apply (parents_psim st1 l L rest q cur' c ts parents (length cs1)).
    + destruct (pr_cur _ _ _ _ _ _ _ _ _ Hp) as (cur' & Hc' & Hat'). by apply (al_level _ _ _ _ _ (length cs1) c cur').
  - assert (i = length ck) as -> by lia. assert (cs2 = []) as -> by (destruct Hpl as (? & ? & _ & _ & _ & [?|[_ ?]]); [lia|done]). cbn [concat] in HL. rewrite app_nil_r in HL.
    assert (take q L = L) as HqL by (apply take_ge; rewrite HL, length_app; lia). rewrite HqL in *.
    destruct (resume_end fuel l L rest q cur st1 m cs1 ck ts parents) as (sc & st' & -> & Hinv' & Hle' & Hs' & Hal'); try done; [by apply (supports_le m st)|cbn in *; lia|].
    exists sc, st'. split_and!; try done. by eapply cl_trans.
Qed.

End facts.

End AlignFacts.
