(* ===== verification/SkipFacts.v ===== *)
(** * Package [types]: a chunker skips items of the edited sequence *)

From S2P Require Import Prelude GoLib HashPkg TypesCodec TypesType TypesValue RollingHash Sequences Chunker ChunkerFacts CursorFacts AppendFacts BuildFacts ResumeFacts AlignFacts.
Import Hash Float64 Codec NomsKinds TypeCache Values Rolling Sequences Chunker.
Import BuzFacts RollingFacts ChunkerFacts CursorFacts AppendFacts BuildFacts ResumeFacts AlignFacts.

Module SkipFacts.

Section facts.
Context `{chunkingConfig, chunking} (Hwin : 0 < chunkWindow < 2 ^ 32) `{!chunk_laws}.

(** ** Places *)

Lemma placed_lt st l L q cs1 ck cs2 i : placed st l L q cs1 ck cs2 i -> (q < length L)%nat -> (i < length ck)%nat.
Proof.
  intros Hp Hq. destruct (placed_items _ _ _ _ _ _ _ _ Hp) as (-> & _ & ->). destruct Hp as (cs & r & _ & _ & _ & [Hi|[-> ->]]); [done|].
  cbn [concat] in Hq. rewrite app_nil_r, length_app in Hq. lia.
Qed.
Lemma app_split {A} (a b c d : list A) x y : a ++ x :: b = c ++ y :: d -> (length a < length c)%nat -> exists e, c = a ++ x :: e /\ b = e ++ y :: d.
Proof.
  revert c. induction a as [|z a IH]; intros [|w c] Heq Hlt; cbn in *; try lia.
  - injection Heq as -> ->. by exists c.
  - injection Heq as -> Heq. destruct (IH c Heq ltac:(lia)) as (e & -> & ->). by exists e.
Qed.
Lemma placed_before st l L q cs1 ck cs2 i cs1' ck' cs2' i' : placed st l L q cs1 ck cs2 i -> placed st l L q cs1' ck' cs2' i' -> ~ (length cs1 < length cs1')%nat.
Proof.
  intros (cs & r & Hc & Hf & Hq & Hi) (cs' & r' & Hc' & Hf' & Hq' & Hi') Hlt. destruct (cut_fun _ _ _ _ _ _ _ Hc Hc') as [<- <-]. rewrite Hf in Hf'.
  destruct (app_split _ _ _ _ _ _ Hf' Hlt) as (e & -> & ->). rewrite concat_length_mid in Hq'. destruct Hi as [Hi|[Hi Hnil]]; [lia|]. by destruct e.
Qed.
Lemma placed_fun st l L q cs1 ck cs2 i cs1' ck' cs2' i' : placed st l L q cs1 ck cs2 i -> placed st l L q cs1' ck' cs2' i' -> cs1 = cs1' /\ ck = ck' /\ cs2 = cs2' /\ i = i'.
Proof.
  intros Hp Hp'. pose proof (placed_before _ _ _ _ _ _ _ _ _ _ _ _ Hp Hp'). pose proof (placed_before _ _ _ _ _ _ _ _ _ _ _ _ Hp' Hp).
  destruct Hp as (cs & r & Hc & Hf & Hq & Hi), Hp' as (cs' & r' & Hc' & Hf' & Hq' & Hi'). destruct (cut_fun _ _ _ _ _ _ _ Hc Hc') as [<- <-]. rewrite Hf in Hf'.
  apply app_inj_1 in Hf' as [<- Hcons]; [|lia]. injection Hcons as <- <-. split_and!; try done. lia.
Qed.
(** The next place. *)
Lemma placed_next st l L q cs1 ck cs2 i : placed st l L q cs1 ck cs2 i -> (i < length ck)%nat ->
  match cs2 with
  | ck2 :: cs3 => if Nat.ltb (S i) (length ck) then placed st l L (S q) cs1 ck cs2 (S i) else placed st l L (S q) (cs1 ++ [ck]) ck2 cs3 0
  | [] => placed st l L (S q) cs1 ck [] (S i)
  end.
Proof.
  intros Hp Hi. pose proof Hp as (cs & r & Hc & Hf & -> & _). destruct cs2 as [|ck2 cs3].
  - exists cs, r. split_and!; [done|done|lia|]. destruct (decide (S i = length ck)); [by right|left; lia].
  - destruct (Nat.ltb_spec (S i) (length ck)) as [Hlt|Hge]; exists cs, r.
    + split_and!; [done|done|lia|by left].
    + split_and!; [done|by rewrite <- app_assoc|rewrite concat_app, length_app; cbn [concat]; rewrite app_nil_r; lia|]. left.
      destruct ck2; [|cbn; lia]. exfalso. apply (full_nonempty _ _ _ _ _ [] Hc); [rewrite Hf|done]. apply elem_of_app. right. do 2 constructor.
Qed.
(** Whether an item ends a chunk. *)
Lemma placed_boundary st l L q cs1 ck cs2 i x : placed st l L q cs1 ck cs2 i -> L !! q = Some x -> (S q < length L)%nat ->
  crosses (hist (bytes l st) (take q L)) (bytes l st x) = negb (Nat.ltb (S i) (length ck)).
Proof.
  intros Hp Hx Hq. pose proof (placed_lt _ _ _ _ _ _ _ _ Hp ltac:(lia)) as Hi. pose proof (placed_cut _ _ _ _ _ _ _ _ Hp Hi) as Hcut.
  pose proof (cut_snoc _ _ _ _ _ x Hcut) as Hs. rewrite <- (take_S_r L q x Hx) in Hs. cbn [app] in Hs. pose proof (placed_next _ _ _ _ _ _ _ _ Hp Hi) as Hn.
  assert (exists cs1' r', cut (bytes l st) [] (take (S q) L) cs1' r' /\ cs1' = if Nat.ltb (S i) (length ck) then cs1 else cs1 ++ [ck]) as (cs1' & r' & Hc' & Heq).
  { destruct cs2 as [|ck2 cs3].
    - destruct (placed_items _ _ _ _ _ _ _ _ Hp) as (-> & _ & ->). cbn [concat] in Hq. rewrite app_nil_r, length_app in Hq. rewrite (proj2 (Nat.ltb_lt _ _)) by lia.
      eexists _, _. split; [|done]. apply (placed_cut _ _ _ _ _ _ [] _ Hn). lia.
    - destruct (Nat.ltb_spec (S i) (length ck)); eexists _, _; (split; [|done]); [by apply (placed_cut _ _ _ _ _ _ _ _ Hn)|].
      apply (placed_cut _ _ _ _ _ _ _ _ Hn). destruct ck2; [by apply placed_chunk in Hn|cbn; lia]. }
  destruct (crosses _ _), (Nat.ltb_spec (S i) (length ck)); try done; cbn [negb]; destruct (cut_fun _ _ _ _ _ _ _ Hs Hc') as [He _]; subst cs1'; apply (f_equal length) in He; rewrite length_app in He; cbn in He; lia.
Qed.

(** ** Contents *)

(** The chunkers differ in their cursors only. *)
Definition same_content (sc sc' : sequenceChunker) : Prop := Forall2 (fun c c' => current c' = current c /\ sc_rv c' = sc_rv c /\ sc_done c' = sc_done c) sc sc'.
Lemma same_content_refl sc : same_content sc sc.
Proof. induction sc; by constructor. Qed.
Lemma same_content_trans sc1 sc2 sc3 : same_content sc1 sc2 -> same_content sc2 sc3 -> same_content sc1 sc3.
Proof.
  intros Hs. revert sc3. induction Hs as [|c c' sc sc' (H1' & H2' & H3') _ IH]; intros sc3 Hs'; inversion Hs' as [|? c3 ? ? (H1'' & H2'' & H3'') Hrest]; subst; constructor; [|by apply IH].
  split_and!; congruence.
Qed.
Lemma aligned_top st l olds q c : aligned st l olds q [c] -> no_parent c.
Proof.
  inversion 1 as [? ? ? Hu He|? ? rest ? p ? cur ? Hc Hat Hi Hal]; subst; [apply Hu; reflexivity|]. unfold no_parent.
  rewrite Hc. inversion Hal; subst. by inversion Hat; subst.
Qed.
Lemma sim_content st l P sc sc' olds q : sim st l P sc -> same_content sc sc' -> aligned st l olds q sc' -> sim st l P sc'.
Proof.
  intros Hs. revert sc' olds q. induction Hs as [l P c Hl Hn|l P cs c ts p ps Hl Hts Hs IH]; intros sc' olds q Hsc Hal; inversion Hsc as [|? c' ? ps' (Hcu & Hrv & Hd) Hps]; subst.
  - inversion Hps; subst. constructor; [|by eapply aligned_top]. destruct Hl as [Hcut (h & Hr & Hsw) Hdn]. constructor; [by rewrite Hcu|exists h; by rewrite Hrv|by rewrite Hd].
  - assert (lvl st l P cs c') as Hl' by (destruct Hl as [Hcut (h & Hr & Hsw) Hdn]; constructor; [by rewrite Hcu|exists h; by rewrite Hrv|by rewrite Hd]).
    inversion Hps as [|? p' ? ps'' Hp' Hps'']; subst. apply (sim_more st l P cs c' ts p' ps''); [done|done|].
    inversion Hal as [? ? ? Hu He|? ? rest ? p0 ? cur ? Hc Hat Hi Hal']; subst.
    + destruct Hu as (_ & _ & Hu). apply (IH (p' :: ps'') [] 0%nat); [done|constructor; [done|lia]].
    + by apply (IH (p' :: ps'') rest p0).
Qed.

(** ** Skipping *)

Lemma Skip_cons c parents cur : sc_cur c = Some cur -> Skip c_vr (c :: parents) =
  let! (moved, cur) := advance c_vr cur in
  if moved && (indexInChunk cur =? 0) then let! parents := skipParentIfExists c_vr parents in Ok (set_cur c (Some cur) :: parents)
  else Ok (set_cur c (Some cur) :: parents).
Proof.
  intros Hc. cbn [Skip]. rewrite Hc. destruct (advance c_vr cur) as [[moved cur']|]; [|done]. cbn [obind]. destruct (moved && _); [|done].
  destruct parents as [|p ps]; [done|]. unfold skipParentIfExists. by destruct (sc_cur p).
Qed.
(** Chunkers above the tree. *)
Lemma skip_idle ps : idle ps -> exists ps', skipParentIfExists c_vr ps = Ok ps' /\ idle ps' /\ at_end ps' /\ same_content ps ps'.
Proof.
  intros Hi. destruct ps as [|c ps]; [exists []; split_and!; try done; constructor|]. unfold skipParentIfExists. destruct (sc_cur c) as [cur|] eqn:Hc.
  - destruct Hi as (Hs & Hn & Hi). rewrite Hc in Hs. destruct Hs as (cur' & Ha & Hp & Hlen). rewrite (Skip_cons c ps cur Hc), Ha. cbn [obind andb]. eexists. split; [done|]. split_and!; [|done|by constructor; [|apply same_content_refl]].
    cbn [idle set_cur sc_cur]. split_and!; [by apply past_spent| |done]. intros Hps. specialize (Hn Hps). unfold no_parent in *. cbn [set_cur sc_cur]. rewrite Hc in Hn.
    destruct cur' as [|? [|? ?]]; try done. by destruct cur as [|? [|? ?]].
  - exists (c :: ps). split_and!; [done|done|cbn; by rewrite Hc|apply same_content_refl].
Qed.
Lemma cidx_lt st l L q p L1 rest : tower st l (L :: L1 :: rest) -> cidx st l L q p -> (p < length L1)%nat.
Proof.
  intros Ht (cs1 & ck & cs2 & i & Hp & ->). destruct (tower_tuples _ _ _ _ _ _ _ _ _ _ Ht Hp) as [_ Hd%Forall2_length]. rewrite length_drop in Hd. cbn in Hd. lia.
Qed.

Lemma Skip_ok olds : forall st l L rest q sc, olds = L :: rest -> tower st l olds -> aligned st l olds q sc -> (q < length L)%nat ->
  exists sc', Skip c_vr sc = Ok sc' /\ aligned st l olds (S q) sc' /\ same_content sc sc'.
Proof.
  induction olds as [|L0 rest0 IH]; intros st l L rest q sc Heq Ht Hal Hq; [done|]. injection Heq as -> ->.
  inversion Hal as [|? ? ? ? p c cur ps Hc Hat Hi Hal']; subst. rewrite (Skip_cons c ps cur Hc). destruct (lookup_lt_is_Some_2 L q Hq) as [x Hx].
  destruct (advance_one _ _ _ _ _ _ _ Ht Hat Hx) as (_ & cur' & -> & Hat'). cbn [obind].
  assert (L <> []) as HL by (by intros ->). destruct (at_placed _ _ _ _ _ _ Ht Hat' HL) as (cs1' & ck' & cs2' & i' & Hp' & Hidx & Hlen & Hrest'). rewrite Hidx.
  destruct (at_placed _ _ _ _ _ _ Ht Hat HL) as (cs1 & ck & cs2 & i & Hp & _ & _ & Hrest). pose proof (placed_lt _ _ _ _ _ _ _ _ Hp Hq) as Hik.
  pose proof (placed_next _ _ _ _ _ _ _ _ Hp Hik) as Hn.
  assert (rest <> [] -> p = length cs1) as Hpp.
  { intros Hr. destruct (Hi Hr) as (cs1'' & ck'' & cs2'' & i'' & Hp'' & ->). by destruct (placed_fun _ _ _ _ _ _ _ _ _ _ _ _ Hp Hp'') as [-> _]. }
  assert (forall ps' p', aligned st false rest p' ps' -> same_content ps ps' -> (rest <> [] -> p' = length cs1') -> exists sc', Ok (set_cur c (Some cur') :: ps') = Ok sc' /\
    aligned st l (L :: rest) (S q) sc' /\ same_content (c :: ps) sc') as Hfin.
  { intros ps' p' Ha Hsc Hp1. eexists. split; [done|]. split; [|by constructor]. apply (al_level st l L rest (S q) p' _ cur'); try done. intros Hr. rewrite (Hp1 Hr). by exists cs1', ck', cs2', i'. }
  destruct (Nat.ltb_spec (S q) (length L)) as [Hlt|Hge]; cbn [andb].
  - destruct (decide (i' = 0%nat)) as [->|Hi0].
    + cbn [Z.of_nat Z.eqb]. assert (cs1' = cs1 ++ [ck]) as ->.
      { destruct cs2 as [|ck2 cs3]; [by destruct (placed_fun _ _ _ _ _ _ _ _ _ _ _ _ Hn Hp') as (_ & _ & _ & ?)|].
        destruct (Nat.ltb (S i) (length ck)); by destruct (placed_fun _ _ _ _ _ _ _ _ _ _ _ _ Hn Hp') as (<- & _ & _ & ?). }
      destruct rest as [|L1 rest]; [destruct Hrest' as [Hnil _]; by destruct cs1|]. pose proof (Hpp ltac:(done)) as ->. pose proof (cidx_lt _ _ _ _ _ _ _ Ht (Hi ltac:(done))) as Hp1.
      inversion Hal' as [|? ? ? ? p1 c1 cur1 ps1 Hc1]; subst. unfold skipParentIfExists. rewrite Hc1.
      destruct (IH st false L1 rest (length cs1) (c1 :: ps1) eq_refl) as (ps' & -> & Hal1 & Hsc1); [by inversion Ht|done|done|]. cbn [obind].
      apply (Hfin ps' (S (length cs1))); [done|done|]. intros _. rewrite length_app, Nat.add_comm. done.
    + rewrite (proj2 (Z.eqb_neq _ _)) by lia. apply (Hfin ps p); [done|apply same_content_refl|]. intros Hr. rewrite (Hpp Hr).
      destruct cs2 as [|ck2 cs3]; [by destruct (placed_fun _ _ _ _ _ _ _ _ _ _ _ _ Hn Hp') as (<- & _)|].
      destruct (Nat.ltb (S i) (length ck)); destruct (placed_fun _ _ _ _ _ _ _ _ _ _ _ _ Hn Hp') as (<- & _ & _ & ?); [done|lia].
  - apply (Hfin ps p); [done|apply same_content_refl|]. intros Hr. rewrite (Hpp Hr). destruct cs2 as [|ck2 cs3]; [by destruct (placed_fun _ _ _ _ _ _ _ _ _ _ _ _ Hn Hp') as (<- & _)|].
    exfalso. destruct (placed_items _ _ _ _ _ _ _ _ Hp) as (HLe & _ & Hqe). assert (ck2 <> []) as Hck2.
    { destruct Hp as (cs & r & Hcut & Hf & _). apply (full_nonempty _ _ _ _ _ ck2 Hcut). rewrite Hf. apply elem_of_app. right. do 2 constructor. }
    rewrite HLe, !length_app in Hge. cbn [concat] in Hge. rewrite length_app in Hge. destruct ck2; [done|]. cbn in Hge. lia.
Qed.

End facts.

End SkipFacts.
