(* ===== verification/FinalizeFacts.v ===== *)
(** * Package [types]: the chunker runs on to a boundary of the edited sequence

    [finalizeCursor] appends the items behind the cursor until the window has
    left the edit and a chunk of the old sequence begins; from there on the
    chunks are the old ones, and the parent takes over their tuples. *)

From S2P Require Import Prelude GoLib HashPkg TypesCodec TypesType TypesValue RollingHash Sequences Chunker ChunkerFacts CursorFacts AppendFacts BuildFacts ResumeFacts AlignFacts SkipFacts.
Import Hash Float64 Codec NomsKinds TypeCache Values Rolling Sequences Chunker.
Import BuzFacts RollingFacts ChunkerFacts CursorFacts AppendFacts BuildFacts ResumeFacts AlignFacts SkipFacts.

Module FinalizeFacts.

Section facts.
Context `{chunkingConfig, chunking} (Hwin : 0 < chunkWindow < 2 ^ 32) `{!chunk_laws}.
#[local] Abbreviation wn := (Z.to_nat chunkWindow).
#[local] Abbreviation hcb := (handleChunkBoundary c_vr false c_makeChunk c_parentMakeChunk c_leafHash).
#[local] Abbreviation floop := (finalize_loop c_vr false c_makeChunk c_parentMakeChunk c_leafHash).

(** ** The old chunks *)

(** The chunks before [p] have been entered. *)
Definition entered (st : cstate) (l : bool) (L : list sequenceItem) (q p : nat) : Prop :=
  exists cs r cs1 ck cs2 i, cut (bytes l st) [] L cs r /\ full cs r = cs1 ++ ck :: cs2 /\ q = (length (concat cs1) + i)%nat /\ (0 < i <= length ck)%nat /\ p = S (length cs1).
(** The chunk that the parent is at: in the first round it is not skipped yet. *)
Definition behind (st : cstate) (l : bool) (L : list sequenceItem) (first : bool) (q p : nat) : Prop := if first then cidx st l L q p else entered st l L q p.
(** Above the tree there is nothing to be at; after the first round the parent is
    past its end. *)
Definition follows (st : cstate) (l : bool) (L : list sequenceItem) (rest : list (list sequenceItem)) (first : bool) (q p : nat) : Prop :=
  match rest with [] => first = false -> (0 < p)%nat | _ => behind st l L first q p end.
Lemma behind_le st st' l L first q p : le st st' -> Forall (ok l st) L -> behind st l L first q p -> behind st' l L first q p.
Proof.
  intros Hle Hok. destruct first; cbn.
  - intros (cs1 & ck & cs2 & i & Hp & ->). exists cs1, ck, cs2, i. split; [by apply (placed_le st)|done].
  - intros (cs & r & cs1 & ck & cs2 & i & Hc & ?). exists cs, r, cs1, ck, cs2, i. split; [by apply (cut_le l st)|done].
Qed.
Lemma behind_step st l L first q p cs1 ck cs2 i : placed st l L q cs1 ck cs2 i -> (q < length L)%nat -> behind st l L first q p ->
  if first || Nat.eqb i 0 then p = length cs1 /\ entered st l L (S q) (S p) else entered st l L (S q) p.
Proof.
  intros Hp Hq Hb. pose proof (placed_lt _ _ _ _ _ _ _ _ Hp Hq) as Hi.
  assert (entered st l L (S q) (S (length cs1))) as He.
  { destruct Hp as (cs & r & Hc & Hf & -> & _). exists cs, r, cs1, ck, cs2, (S i). split_and!; try done; lia. }
  destruct first; cbn [orb behind] in *.
  - destruct Hb as (cs1' & ck' & cs2' & i' & Hp' & ->). by destruct (placed_fun _ _ _ _ _ _ _ _ _ _ _ _ Hp Hp') as (<- & _).
  - destruct Hb as (cs & r & cs1' & ck' & cs2' & i' & Hc & Hf & Hq' & Hi' & ->). destruct (decide (i' < length ck')%nat) as [Hlt|Hge].
    + assert (placed st l L q cs1' ck' cs2' i') as Hp' by (exists cs, r; split_and!; try done; by left).
      destruct (placed_fun _ _ _ _ _ _ _ _ _ _ _ _ Hp Hp') as (<- & <- & <- & <-). by rewrite (proj2 (Nat.eqb_neq i 0)) by lia.
    + assert (i' = length ck') as -> by lia. destruct cs2' as [|ck2 cs3].
      { exfalso. rewrite (cut_length _ _ _ _ _ _ _ _ Hc Hf) in Hq. cbn in Hq. lia. }
      assert (placed st l L q (cs1' ++ [ck']) ck2 cs3 0) as Hp'.
      { exists cs, r. split_and!; [done|by rewrite <- app_assoc|rewrite Hq', concat_app, length_app; cbn [concat]; rewrite app_nil_r; lia|]. left.
        destruct ck2; [|cbn; lia]. exfalso. apply (full_nonempty _ _ _ _ _ [] Hc); [rewrite Hf|done]. apply elem_of_app. right. do 2 constructor. }
      destruct (placed_fun _ _ _ _ _ _ _ _ _ _ _ _ Hp Hp') as (-> & -> & -> & ->). cbn [Nat.eqb]. rewrite length_app, Nat.add_comm in *. cbn [length Nat.add] in *. split; [done|exact He].
Qed.
Lemma entered_end st l L p L1 rest : tower st l (L :: L1 :: rest) -> entered st l L (length L) p -> drop p L1 = [].
Proof.
  intros Ht (cs & r & cs1 & ck & cs2 & i & Hc & Hf & Hq & Hi & ->). rewrite (cut_length _ _ _ _ _ _ _ _ Hc Hf) in Hq.
  assert (cs2 = []) as ->.
  { destruct cs2 as [|ck2 cs3]; [done|]. exfalso. assert (ck2 <> []) as Hne by (apply (full_nonempty _ _ _ _ _ ck2 Hc); rewrite Hf; apply elem_of_app; right; do 2 constructor).
    cbn [concat] in Hq. rewrite length_app in Hq. destruct ck2; [done|]. cbn in Hq. lia. }
  inversion Ht as [|? ? cs' r' ? ? _ Hc' Hts _ _]; subst. destruct (cut_fun _ _ _ _ _ _ _ Hc Hc') as [<- <-]. rewrite Hf in Hts. apply Forall2_length in Hts. rewrite length_app in Hts.
  apply drop_ge. cbn in Hts. lia.
Qed.

(** ** The parents *)

Lemma parents_content st ts c c' parents parents' rest p : psim st ts c parents -> same_content parents parents' -> aligned st false rest p parents' -> (parents = [] -> rest = [] -> no_parent c') ->
  psim st ts c' parents'.
Proof.
  intros Hp Hsc Hal Hn. destruct parents as [|p0 ps]; inversion Hsc; subst; cbn [psim] in *; [|by eapply sim_content]. destruct Hp as [-> _]. split; [done|].
  apply Hn; [done|]. by inversion Hal.
Qed.
Lemma at_no_parent st l L rest q cur c : at_ st l (L :: rest) q cur -> sc_cur c = Some cur -> rest = [] -> no_parent c.
Proof. intros Hat Hc ->. unfold no_parent. rewrite Hc. by inversion Hat; subst. Qed.
Lemma skip_parents st l L rest first q p cs1 ck cs2 i parents : tower st l (L :: rest) -> placed st l L q cs1 ck cs2 i -> (q < length L)%nat ->
  aligned st false rest p parents -> follows st l L rest first q p ->
  exists parents' p', (if first || (Z.of_nat i =? 0) then skipParentIfExists c_vr parents else Ok parents) = Ok parents' /\ aligned st false rest p' parents' /\
    same_content parents parents' /\ follows st l L rest false (S q) p'.
Proof.
  intros Ht Hp Hq Hal Hb. destruct rest as [|L1 rest].
  - inversion Hal as [? ? ? Hu He|]; subst. destruct (first || _) eqn:Hf.
    + destruct (skip_idle parents Hu) as (ps & Hs & Hi & He' & Hc). exists ps, 1%nat. split_and!; [done|by constructor|done|intros _; lia].
    + apply orb_false_iff in Hf as [-> _]. exists parents, p. split_and!; [done|done|apply same_content_refl|done].
  - cbn [follows] in *. pose proof (behind_step _ _ _ _ _ _ _ _ _ _ Hp Hq Hb) as Hs.
    replace (first || (Z.of_nat i =? 0)) with (first || Nat.eqb i 0) by (f_equal; destruct (Nat.eqb_spec i 0), (Z.eqb_spec (Z.of_nat i) 0); lia).
    destruct (first || Nat.eqb i 0).
    + destruct Hs as [-> He]. inversion Hal as [|? ? ? ? p1 c1 cur1 ps1 Hc1]; subst. unfold skipParentIfExists. rewrite Hc1.
      destruct (Skip_ok (L1 :: rest) st false L1 rest (length cs1) (c1 :: ps1) eq_refl) as (ps' & -> & Hal1 & Hsc1); [by inversion Ht|done| |].
      { apply (cidx_lt st l L q _ L1 rest Ht). by exists cs1, ck, cs2, i. }
      by exists ps', (S (length cs1)).
    + exists parents, p. split_and!; try done. apply same_content_refl.
Qed.

(** ** One item *)

Definition isnil {A} (xs : list A) : bool := Nat.eqb (length xs) 0.
(** The chunks of [P] are handed over; at the end the last one may be held back. *)
Definition cut_to (st : cstate) (l : bool) (P : list sequenceItem) (cs : list (list sequenceItem)) (r : list sequenceItem) (last : bool) : Prop :=
  cut (bytes l st) [] P cs r \/ (last = true /\ cut (bytes l st) [] P (cs ++ [r]) [] /\ r <> []).
Lemma cut_to_le st st' l P cs r last : le st st' -> Forall (ok l st) P -> cut_to st l P cs r last -> cut_to st' l P cs r last.
Proof. intros Hle Hok [Hc|(Hl & Hc & Hne)]; [left|right; split; [done|split; [|done]]]; by apply (cut_le l st). Qed.

(** A chunk is handed over when it is complete. *)
Lemma push_ok m fuel st l P cs ck ts c parents (b last : bool) : inv st -> supports m st l P -> Forall (ok l st) P -> Forall2 (tuple_of l st) cs ts -> psim st ts c parents ->
  current c = ck -> ck <> [] -> (if b then cut (bytes l st) [] P (cs ++ [ck]) [] else cut_to st l P cs ck last) -> (2 * m < fuel)%nat ->
  exists c' parents' st' cs' ts', (if b then hcb fuel l (c :: parents) st else Ok (c :: parents, st)) = Ok (c' :: parents', st') /\ inv st' /\ le st st' /\
    same_cursors parents parents' /\ sc_cur c' = sc_cur c /\ sc_rv c' = sc_rv c /\ b = isnil (current c') /\ cut_to st' l P cs' (current c') last /\
    Forall2 (tuple_of l st') cs' ts' /\ psim st' ts' c' parents'.
Proof.
  intros Hinv Hsup Hok Hts Hp Hck Hne Hcut Hfuel. destruct b.
  - destruct (hand_over Hwin m fuel st l P cs ck ts c parents Hinv Hsup Hcut Hts Hck Hne Hp Hfuel) as (parents' & st' & ts' & He & Hinv' & Hle' & Hts' & Hs' & Hsc' & _).
    exists (set_current c []), parents', st', (cs ++ [ck]), ts'. split_and!; try done; [|by apply sim_psim]. left. by apply (cut_le l st).
  - exists c, parents, st, cs, ts. rewrite Hck. split_and!; try done; [apply cl_refl|apply same_cursors_refl|by destruct ck].
Qed.

(** In the loop, the items from [q0] to [q] have been appended to [P0]. *)
Record fin (st : cstate) (l : bool) (L : list sequenceItem) (rest : list (list sequenceItem)) (N P0 : list sequenceItem) (q0 q : nat) (first : bool) (p : nat) (hw : Z)
    (c : chunker) (parents : sequenceChunker) (cs : list (list sequenceItem)) (ts : list sequenceItem) (cur : sequenceCursor) : Prop := MkFin {
  fi_cur : sc_cur c = Some cur;
  fi_at : at_ st l (L :: rest) q cur;
  fi_al : aligned st false rest p parents;
  fi_p : follows st l L rest first q p;
  fi_q : (q0 <= q)%nat;
  fi_first : first = false -> (q0 < q)%nat;
  fi_N : N = (P0 ++ seg L q0 q) ++ drop q L;
  fi_hw : chunkWindow - Zlength (hist (bytes l st) (seg L q0 q)) <= hw /\ (0 < hw -> hw = chunkWindow - Zlength (hist (bytes l st) (seg L q0 q)));
  fi_cut : cut_to st l (P0 ++ seg L q0 q) cs (current c) (Nat.eqb q (length L));
  fi_ts : Forall2 (tuple_of l st) cs ts;
  fi_ps : psim st ts c parents;
  fi_rv : 0 < hw -> exists h, rv_read (sc_rv c) h /\ same_window wn h (hist (bytes l st) (P0 ++ seg L q0 q))
}.
Lemma supports_oks m st l N : supports m st l N -> Forall (ok l st) N.
Proof.
  intros [->|(N' & rest & Hb & [k ->] & _)]; [done|]. assert (Forall (ok l st) (N ++ k)) as Hf by (by inversion Hb). by apply Forall_app in Hf as [? _].
Qed.
Lemma drop_items {A} (L : list A) q x : L !! q = Some x -> drop q L = x :: drop (S q) L.
Proof. apply drop_S. Qed.

(** Past the window, boundaries are where the old ones are. *)
Lemma fin_same st l L rest N P0 q0 q first p hw c parents cs ts cur : fin st l L rest N P0 q0 q first p hw c parents cs ts cur -> hw <= 0 ->
  same_window wn (hist (bytes l st) (P0 ++ seg L q0 q)) (hist (bytes l st) (take q L)).
Proof.
  intros Hf Hhw. destruct (fi_hw _ _ _ _ _ _ _ _ _ _ _ _ _ _ _ _ Hf) as [Hle _]. rewrite (take_seg L q0 q), !hist_app by apply Hf. apply same_window_suffix. unfold Zlength in Hle. lia.
Qed.

(** What an item is to the chunks, in the window and past it. *)
Definition takes (st : cstate) (l : bool) (L : list sequenceItem) (P0 : list sequenceItem) (q0 q : nat) (hw : Z) (x : sequenceItem) (cur' : sequenceCursor) (b : bool) : Prop :=
  if 0 <? hw then b = crosses (hist (bytes l st) (P0 ++ seg L q0 q)) (bytes l st x) else b = (indexInChunk cur' =? 0).
Lemma takes_cut st l L rest N P0 q0 q first p hw c parents cs ts cur x cur' b : tower st l (L :: rest) -> fin st l L rest N P0 q0 q first p hw c parents cs ts cur ->
  L !! q = Some x -> at_ st l (L :: rest) (S q) cur' -> takes st l L P0 q0 q hw x cur' b ->
  if b then cut (bytes l st) [] (P0 ++ seg L q0 (S q)) (cs ++ [current c ++ [x]]) [] else cut_to st l (P0 ++ seg L q0 (S q)) cs (current c ++ [x]) (Nat.eqb (S q) (length L)).
Proof.
  intros Ht Hf Hx Hat' Htk. pose proof (lookup_lt_Some _ _ _ Hx) as Hq. pose proof (fi_q _ _ _ _ _ _ _ _ _ _ _ _ _ _ _ _ Hf) as Hq0.
  rewrite (seg_snoc L q0 q x Hq0 Hx), app_assoc. set (P := P0 ++ seg L q0 q) in *.
  assert (cut (bytes l st) [] P cs (current c)) as Hcut by (destruct (fi_cut _ _ _ _ _ _ _ _ _ _ _ _ _ _ _ _ Hf) as [?|[He%Nat.eqb_eq _]]; [done|lia]).
  pose proof (cut_snoc _ _ _ _ _ x Hcut) as Hs. cbn [app] in Hs. unfold takes in Htk. destruct (Z.ltb_spec 0 hw) as [Hhw|Hhw].
  - fold P in Htk. rewrite Htk. destruct (crosses _ _); [done|by left].
  - pose proof (fin_same _ _ _ _ _ _ _ _ _ _ _ _ _ _ _ _ Hf Hhw) as Hsw. fold P in Hsw. rewrite (crosses_window _ _ _ Hsw) in Hs.
    assert (L <> []) as HL by (by intros ->). destruct (at_placed _ _ _ _ _ _ Ht Hat' HL) as (cs1' & ck' & cs2' & i' & Hp' & Hidx & _ & _). rewrite Hidx in Htk.
    destruct (at_placed _ _ _ _ _ _ Ht (fi_at _ _ _ _ _ _ _ _ _ _ _ _ _ _ _ _ Hf) HL) as (cs1 & ck & cs2 & i & Hp & _). pose proof (placed_lt _ _ _ _ _ _ _ _ Hp Hq) as Hi.
    pose proof (placed_next _ _ _ _ _ _ _ _ Hp Hi) as Hn. destruct (decide (S q < length L)%nat) as [Hlt|Hge].
    + rewrite (placed_boundary _ _ _ _ _ _ _ _ _ Hp Hx Hlt) in Hs. assert (b = negb (Nat.ltb (S i) (length ck))) as ->; [|destruct (Nat.ltb (S i) (length ck)); [by left|done]].
      destruct cs2 as [|ck2 cs3].
      * destruct (placed_fun _ _ _ _ _ _ _ _ _ _ _ _ Hn Hp') as (<- & <- & _ & <-). pose proof (placed_lt _ _ _ _ _ _ _ _ Hn Hlt). rewrite (proj2 (Nat.ltb_lt _ _)) by done. rewrite Htk. by apply Z.eqb_neq; lia.
      * destruct (Nat.ltb (S i) (length ck)); destruct (placed_fun _ _ _ _ _ _ _ _ _ _ _ _ Hn Hp') as (<- & <- & _ & <-); rewrite Htk; [by apply Z.eqb_neq; lia|done].
    + assert (S q = length L) as Hend by lia. assert (i' <> 0%nat) as Hi'.
      { intros ->. pose proof (placed_chunk _ _ _ _ _ _ _ _ Hp') as Hck. destruct Hp' as (cs' & r' & Hc' & Hf' & Hq' & [Hi'|[Hi' _]]); [|by destruct ck'].
        rewrite (cut_length _ _ _ _ _ _ _ _ Hc' Hf') in Hend. lia. }
      rewrite Htk, (proj2 (Z.eqb_neq _ _)), Hend, Nat.eqb_refl by lia. unfold cut_to. destruct (crosses _ _); [right|by left]. split_and!; [done|done|by destruct (current c)].
Qed.

Lemma fin_hash st l L rest N P0 q0 q first p hw c parents cs ts cur x cur' : inv st -> tower st l (L :: rest) -> fin st l L rest N P0 q0 q first p hw c parents cs ts cur ->
  L !! q = Some x -> exists c' hw' b, let c1 := set_cur (set_current c (current c ++ [x])) (Some cur') in
  (if 0 <? hw then let! (rv, st) := hash_item c_leafHash l x (ClearLastBoundary (sc_rv c1)) st in Ok (set_rv c1 rv, st, hw - bytesHashed rv, crossedBoundary rv)
   else Ok (c1, st, hw, indexInChunk cur' =? 0)) = Ok (c', st, hw', b) /\ takes st l L P0 q0 q hw x cur' b /\ current c' = current c ++ [x] /\ sc_cur c' = Some cur' /\
  (chunkWindow - Zlength (hist (bytes l st) (seg L q0 (S q))) <= hw' /\ (0 < hw' -> hw' = chunkWindow - Zlength (hist (bytes l st) (seg L q0 (S q))))) /\
  (0 < hw' -> exists h, rv_read (sc_rv c') h /\ same_window wn h (hist (bytes l st) (P0 ++ seg L q0 (S q)))).
Proof.
  intros Hinv Ht Hf Hx. pose proof (fi_q _ _ _ _ _ _ _ _ _ _ _ _ _ _ _ _ Hf) as Hq0. destruct (fi_hw _ _ _ _ _ _ _ _ _ _ _ _ _ _ _ _ Hf) as [Hle Heq].
  rewrite (hist_seg st l L q0 q x Hq0 Hx). pose proof (Zlength_nonneg (bytes l st x)). unfold takes. cbn zeta. destruct (Z.ltb_spec 0 hw) as [Hhw|Hhw].
  - destruct (fi_rv _ _ _ _ _ _ _ _ _ _ _ _ _ _ _ _ Hf Hhw) as (h & Hr & Hsw). change (sc_rv (set_cur _ _)) with (sc_rv c).
    destruct (hash_next Hwin st l (P0 ++ seg L q0 q) (sc_rv c) h x Hinv Hr Hsw (tower_ok _ _ _ _ _ _ Ht Hx)) as (rv & -> & Hc & Hn & h' & Hr' & Hsw'). cbn [obind].
    eexists _, _, _. split; [done|]. split; [done|]. split; [done|]. split; [done|]. rewrite Hn. specialize (Heq Hhw). split; [lia|]. intros _. exists h'. split; [done|].
    by rewrite (seg_snoc L q0 q x), app_assoc by done.
  - eexists _, _, _. split; [done|]. split; [done|]. split; [done|]. split; [done|]. split; [lia|lia].
Qed.

Lemma fin_step m fuel st l L rest N P0 q0 q first p hw c parents cs ts cur : inv st -> tower st l (L :: rest) -> supports m st l N ->
  fin st l L rest N P0 q0 q first p hw c parents cs ts cur -> (q < length L)%nat -> (2 * m < fuel)%nat -> (0 <? hw) || (0 <? indexInChunk cur) || negb (isnil (current c)) = true ->
  exists p' hw' c' parents' cs' ts' cur' st', inv st' /\ le st st' /\ fin st' l L rest N P0 q0 (S q) false p' hw' c' parents' cs' ts' cur' /\
    forall n, floop (S n) fuel l first hw (isnil (current c)) (c :: parents) st = floop n fuel l false hw' (isnil (current c')) (c' :: parents') st'.
Proof.
  intros Hinv Ht Hsup Hf Hq Hfuel Hcond. destruct (lookup_lt_is_Some_2 L q Hq) as [x Hx]. pose proof Hf as [Hcur Hat Hal Hb Hq0 _ HN _ _ Hts Hps _].
  assert (L <> []) as HL by (by intros ->). destruct (at_placed _ _ _ _ _ _ Ht Hat HL) as (cs1 & ck & cs2 & i & Hp & Hidx & _).
  destruct (skip_parents st l L rest first q p cs1 ck cs2 i parents Ht Hp Hq Hal Hb) as (parents1 & p1 & Hskip & Hal1 & Hsc1 & He1).
  destruct (advance_one _ _ _ _ _ _ _ Ht Hat Hx) as (Hitem & cur' & Hadv & Hat'). destruct (at_current _ _ _ _ _ _ _ Hat Hx) as [_ Hvalid].
  destruct (fin_hash st l L rest N P0 q0 q first p hw c parents cs ts cur x cur' Hinv Ht Hf Hx) as (c2 & hw' & b & Hhash & Htk & Hcu2 & Hc2 & Hhw' & Hrv').
  pose proof (takes_cut _ _ _ _ _ _ _ _ _ _ _ _ _ _ _ _ _ _ _ Ht Hf Hx Hat' Htk) as Hcut.
  assert (N = (P0 ++ seg L q0 (S q)) ++ drop (S q) L) as HN' by (rewrite HN, (drop_S L x q Hx), (seg_snoc L q0 q x Hq0 Hx), <- !app_assoc; done).
  assert (Forall (ok l st) (P0 ++ seg L q0 (S q))) as Hok by (apply supports_oks in Hsup; rewrite HN' in Hsup; by apply Forall_app in Hsup as [? _]).
  assert (supports m st l (P0 ++ seg L q0 (S q))) as Hsup1 by (apply (supports_prefix _ _ _ N); [done|rewrite HN'; by eexists]).
  destruct (push_ok m fuel st l (P0 ++ seg L q0 (S q)) cs (current c ++ [x]) ts c2 parents1 b (Nat.eqb (S q) (length L)) Hinv Hsup1 Hok Hts) as
    (c' & parents' & st' & cs' & ts' & Hpush & Hinv' & Hle' & Hsc' & Hcur' & Hrvc & Hb' & Hcut' & Hts' & Hps');
    [by apply (parents_content st ts c c2 parents parents1 rest p1); [| | |intros _; apply (at_no_parent st l L rest (S q) cur')]|done|by destruct (current c)|done|done|].
  exists p1, hw', c', parents', cs', ts', cur', st'. split; [done|]. split; [done|]. split.
  - assert (Forall (ok l st) (seg L q0 (S q))) as Hoks by (by apply Forall_app in Hok as [_ ?]). constructor; try done.
    + by rewrite Hcur'.
    + by apply (at_le st).
    + apply (aligned_le st); [done|by eapply old_tree_rest|]. by apply (aligned_same st false rest p1 parents1).
    + destruct rest; [done|]. cbn [follows] in *. apply (behind_le st); [done|by eapply tower_oks|done].
    + lia.
    + lia.
    + by rewrite (hist_le l st st').
    + rewrite Hrvc, (hist_le l st st') by done. done.
  - intros n. cbn [finalize_loop]. rewrite Hcur, Hvalid. cbn [andb]. rewrite Hcond, Hidx, Hskip. cbn [obind]. rewrite Hitem. cbn [obind]. rewrite Hadv. cbn [obind]. cbn zeta in Hhash.
    rewrite Hhash. cbn [obind]. rewrite Hpush. cbn [obind]. by rewrite Hb'.
Qed.

(** ** The loop *)

(** The chunks of [N] are the ones handed over, what is held, and old ones that
    the parent will take over. *)
Definition finished (st : cstate) (l : bool) (rest : list (list sequenceItem)) (N : list sequenceItem) (c : chunker) (parents : sequenceChunker) : Prop :=
  exists cs ts p late csN rN, cs `prefix_of` csN /\ Forall2 (tuple_of l st) cs ts /\ psim st ts c parents /\ aligned st false rest p parents /\
    cut (bytes l st) [] N csN rN /\ full csN rN = full cs (current c) ++ late /\ (late <> [] -> current c = [] /\ cs <> []) /\
    match rest with [] => late = [] /\ (0 < p)%nat | L1 :: _ => Forall2 (tuple_of l st) late (drop p L1) end.
Lemma cut_to_full st l P cs r last : cut_to st l P cs r last -> exists cs' r', cut (bytes l st) [] P cs' r' /\ full cs' r' = full cs r /\ cs `prefix_of` cs'.
Proof.
  intros [Hc|(_ & Hc & Hne)]; eexists _, _; (split; [exact Hc|]); [done|]. split; [|by eexists]. unfold full. rewrite app_nil_r. by destruct r.
Qed.
Lemma fin_end st l L rest N P0 q0 first p hw c parents cs ts cur : tower st l (L :: rest) -> fin st l L rest N P0 q0 (length L) first p hw c parents cs ts cur -> first = false ->
  finished st l rest N c parents.
Proof.
  intros Ht [_ _ Hal Hb _ _ HN _ Hcut Hts Hps _] ->. rewrite drop_all, app_nil_r in HN. subst N. destruct (cut_to_full _ _ _ _ _ _ Hcut) as (csN & rN & HcN & Hfull & Hpre).
  exists cs, ts, p, [], csN, rN. rewrite app_nil_r. split_and!; try done. destruct rest as [|L1 rest]; [split; [done|by apply Hb]|]. by rewrite (entered_end _ _ _ _ _ _ Ht Hb).
Qed.
Lemma isnil_true {A} (xs : list A) : isnil xs = true -> xs = [].
Proof. by destruct xs. Qed.
Lemma fin_resync st l L rest N P0 q0 q p hw c parents cs ts cur : tower st l (L :: rest) -> fin st l L rest N P0 q0 q false p hw c parents cs ts cur -> (q < length L)%nat ->
  (0 <? hw) || (0 <? indexInChunk cur) || negb (isnil (current c)) = false -> finished st l rest N c parents.
Proof.
  intros Ht Hf Hq [[Hhw%Z.ltb_ge Hidx%Z.ltb_ge]%orb_false_iff Hnil%negb_false_iff%isnil_true]%orb_false_iff. pose proof (fin_same _ _ _ _ _ _ _ _ _ _ _ _ _ _ _ _ Hf Hhw) as Hsw.
  destruct Hf as [Hcur Hat Hal Hb Hq0 Hq1 HN _ Hcut Hts Hps _]. specialize (Hq1 eq_refl). rewrite Hnil in Hcut. destruct Hcut as [Hcut|(_ & _ & ?)]; [|done].
  assert (L <> []) as HL by (intros ->; cbn in Hq; lia). destruct (at_placed _ _ _ _ _ _ Ht Hat HL) as (cs1 & ck & cs2 & i & Hp & Hi & _ & Hrest). assert (i = 0%nat) as -> by lia.
  destruct (placed_items _ _ _ _ _ _ _ _ Hp) as (HLe & _ & Hqe). destruct rest as [|L1 rest]; [exfalso; destruct Hrest as (-> & _); cbn in Hqe; lia|].
  pose proof (behind_step _ _ _ _ _ _ _ _ _ _ Hp Hq Hb) as [-> _]. destruct (tower_tuples _ _ _ _ _ _ _ _ _ _ Ht Hp) as [_ Hlate].
  destruct (placed_take _ _ _ _ _ _ _ _ Hp) as [Htake _]. rewrite take_0, app_nil_r in Htake. pose proof Hp as (csL & rL & HcL & HfL & _).
  destruct (cut_split _ _ _ _ _ _ _ HcL HfL ltac:(done)) as (_ & cs3 & Hc3 & Hf3 & HLs). cbn [app] in Hc3.
  assert (drop q L = concat (ck :: cs2)) as Hdrop by (rewrite HLs, Hqe, Nat.add_0_r; apply drop_app_length). rewrite Htake in Hsw.
  assert (cs <> []) as Hcs.
  { intros ->. destruct Hcut as [Hnil' _]. cbn in Hnil'. apply app_eq_nil in Hnil' as [_ Hseg]. apply (f_equal length) in Hseg. unfold seg in Hseg. rewrite length_drop, length_take in Hseg. cbn in Hseg. lia. }
  exists cs, ts, (length cs1), (ck :: cs2), (cs ++ cs3), rL. rewrite Hnil. split_and!; try done; [by eexists| |].
  - rewrite HN, Hdrop. apply cut_app; [done|]. cbn [app]. by apply (cut_window _ (hist (bytes l st) (concat cs1))); [apply same_window_sym|].
  - rewrite <- Hf3. unfold full at 1 2. by rewrite app_nil_r, <- app_assoc.
Qed.

Lemma finalize_loop_ok m fuel l L rest N P0 q0 : forall k n st q first p hw c parents cs ts cur, (length L - q <= k)%nat -> (k < n)%nat -> (q <= length L)%nat -> first = false \/ (q < length L)%nat /\ 0 < hw ->
  inv st -> tower st l (L :: rest) -> supports m st l N -> fin st l L rest N P0 q0 q first p hw c parents cs ts cur -> (2 * m < fuel)%nat ->
  exists c' parents' st', floop n fuel l first hw (isnil (current c)) (c :: parents) st = Ok (c' :: parents', st') /\ inv st' /\ le st st' /\ finished st' l rest N c' parents'.
Proof.
  induction k as [|k IH]; intros n st q first p hw c parents cs ts cur Hk Hn Hq Hfirst Hinv Ht Hsup Hf Hfuel; (destruct n as [|n]; [lia|]).
  - assert (q = length L) as -> by lia. destruct Hfirst as [->|[? _]]; [|lia]. exists c, parents, st. pose proof Hf as [Hcur Hat _ _ _ _ _ _ _ _ _ _].
    split_and!; [|done|apply cl_refl|by eapply fin_end]. cbn [finalize_loop]. by rewrite Hcur, (at_invalid _ _ _ _ _ _ Hat eq_refl).
  - destruct (decide (q = length L)) as [->|Hne].
    { destruct Hfirst as [->|[? _]]; [|lia]. exists c, parents, st. pose proof Hf as [Hcur Hat _ _ _ _ _ _ _ _ _ _].
      split_and!; [|done|apply cl_refl|by eapply fin_end]. cbn [finalize_loop]. by rewrite Hcur, (at_invalid _ _ _ _ _ _ Hat eq_refl). }
    destruct ((0 <? hw) || (0 <? indexInChunk cur) || negb (isnil (current c))) eqn:Hcond.
    + destruct (fin_step m fuel st l L rest N P0 q0 q first p hw c parents cs ts cur) as (p' & hw' & c' & parents' & cs' & ts' & cur' & st' & Hinv' & Hle' & Hf' & Hstep); try done; [lia|]. rewrite Hstep.
      destruct (IH n st' (S q) false p' hw' c' parents' cs' ts' cur') as (c2 & parents2 & st2 & -> & Hinv2 & Hle2 & Hfin2); try done; [lia|lia|lia|by left|by apply (tower_le st)|by apply (supports_le m st)|].
      exists c2, parents2, st2. split_and!; try done. by eapply cl_trans.
    + assert (first = false) as ->.
      { destruct Hfirst as [?|[_ Hhw]]; [done|]. apply orb_false_iff in Hcond as [[Hz%Z.ltb_ge _]%orb_false_iff _]. lia. }
      exists c, parents, st. split_and!; [|done|apply cl_refl|eapply fin_resync; [done|exact Hf|lia|done]]. pose proof Hf as [Hcur Hat _ _ _ _ _ _ _ _ _ _].
      cbn [finalize_loop]. by rewrite Hcur, Hcond, andb_false_r.
Qed.

(** ** [finalizeCursor] *)

Lemma finalize_ok m fuel st l L rest P q c parents cs ts p : inv st -> tower st l (L :: rest) -> supports m st l (P ++ drop q L) -> cut (bytes l st) [] P cs (current c) ->
  (exists h, rv_read (sc_rv c) h /\ same_window wn h (hist (bytes l st) P)) -> Forall2 (tuple_of l st) cs ts -> psim st ts c parents ->
  (exists cur, sc_cur c = Some cur /\ at_ st l (L :: rest) q cur) -> aligned st false rest p parents -> (rest <> [] -> cidx st l L q p) -> (2 * m + length L + 1 < fuel)%nat ->
  exists c' parents' st', finalizeCursor c_vr false c_makeChunk c_parentMakeChunk c_leafHash fuel l (c :: parents) st = Ok (c' :: parents', st') /\ inv st' /\ le st st' /\
    finished st' l rest (P ++ drop q L) c' parents'.
Proof.
  intros Hinv Ht Hsup Hcut Hrv Hts Hps (cur & Hcur & Hat) Hal Hci Hfuel. pose proof (at_bound _ _ _ _ _ _ Hat) as Hq. unfold finalizeCursor. rewrite Hcur.
  destruct (decide (q = length L)) as [->|Hne].
  - rewrite (at_invalid _ _ _ _ _ _ Hat eq_refl), drop_all, app_nil_r.
    assert (exists parents' p', skipParentIfExists c_vr parents = Ok parents' /\ aligned st false rest p' parents' /\ same_content parents parents' /\
      match rest with [] => (0 < p')%nat | L1 :: _ => drop p' L1 = [] end) as (parents' & p' & -> & Hal' & Hsc' & Hend).
    { destruct rest as [|L1 rest].
      - inversion Hal as [? ? ? Hu He|]; subst. destruct (skip_idle parents Hu) as (ps & Hs & Hi & He' & Hc). exists ps, 1%nat. split_and!; [done|by constructor|done|lia].
      - specialize (Hci ltac:(done)). pose proof (cidx_lt _ _ _ _ _ _ _ Ht Hci) as Hp. inversion Hal as [|? ? ? ? p1 c1 cur1 ps1 Hc1]; subst. unfold skipParentIfExists. rewrite Hc1.
        destruct (Skip_ok (L1 :: rest) st false L1 rest p (c1 :: ps1) eq_refl) as (ps' & -> & Hal1 & Hsc1); [by inversion Ht|done|done|].
        exists ps', (S p). split_and!; try done. destruct Hci as (cs1 & ck & cs2 & i & Hpl & ->). destruct (tower_tuples _ _ _ _ _ _ _ _ _ _ Ht Hpl) as [_ Hd].
        assert (cs2 = []) as ->.
        { pose proof (placed_lt st l L (length L) cs1 ck cs2 i Hpl). pose proof Hpl as (csL & rL & HcL & HfL & HqL & [Hi|[_ ?]]); [|done]. rewrite (cut_length _ _ _ _ _ _ _ _ HcL HfL) in HqL. lia. }
        apply Forall2_length in Hd. rewrite length_drop in Hd. cbn in Hd. apply drop_ge. lia. }
    cbn [obind]. exists c, parents', st. split_and!; [done|done|apply cl_refl|]. exists cs, ts, p', [], cs, (current c). rewrite app_nil_r. split_and!; try done.
    + apply (parents_content st ts c c parents parents' rest p'); try done. intros _. by apply (at_no_parent st l L rest (length L) cur).
    + destruct rest as [|L1 rest]; [done|]. by rewrite Hend.
  - destruct (lookup_lt_is_Some_2 L q ltac:(lia)) as [x Hx]. destruct (at_current _ _ _ _ _ _ _ Hat Hx) as [_ ->].
    assert (window (sc_rv c) = chunkWindow) as -> by (destruct Hrv as (h & [_ Hw _] & _); done).
    apply (finalize_loop_ok m fuel l L rest (P ++ drop q L) P q (length L) fuel st q true p chunkWindow c parents cs ts cur); try done; [lia|lia|right; lia| |lia].
    constructor; try done; [destruct rest; [done|by apply Hci]|..]; rewrite seg_nil, ?app_nil_r by done; try done; [change (Zlength (hist (bytes l st) [])) with 0; lia|by left].
Qed.

End facts.

End FinalizeFacts.
