(* ===== verification/DoneFacts.v ===== *)
(** * Package [types]: the chunker finds the root of the tree of all items *)

From S2P Require Import Prelude GoLib HashPkg TypesCodec TypesType TypesValue RollingHash Sequences Chunker ChunkerFacts CursorFacts AppendFacts BuildFacts ResumeFacts AlignFacts SkipFacts FinalizeFacts.
Import Hash Float64 Codec NomsKinds TypeCache Values Rolling Sequences Chunker.
Import BuzFacts RollingFacts ChunkerFacts CursorFacts AppendFacts BuildFacts ResumeFacts AlignFacts SkipFacts FinalizeFacts.

Module DoneFacts.

Section facts.
Context `{chunkingConfig, chunking} (Hwin : 0 < chunkWindow < 2 ^ 32) `{!chunk_laws}.
#[local] Abbreviation hcb := (handleChunkBoundary c_vr false c_makeChunk c_parentMakeChunk c_leafHash).
#[local] Abbreviation done_ := (Done c_vr false c_makeChunk c_parentMakeChunk c_leafHash).

(** ** The root of one chunk *)

(** Over one chunk [N], the root is that chunk, or what is below its one tuple. *)
Definition root_over (n : nat) (st : cstate) (l : bool) (N : list sequenceItem) (r : sequence) : Prop :=
  if l || Nat.ltb 1 (length N) then exists mt, made l st N r mt else exists mt, N = [MItem mt] /\ descends n mt r.
Lemma one_chunk by_ (N : list sequenceItem) cs r : cut by_ [] N cs r -> (length (full cs r) <= 1)%nat -> N <> [] -> full cs r = [N].
Proof.
  intros [HN _] Hlen Hne. pose proof (concat_full cs r) as Hf. rewrite <- HN in Hf. destruct (full cs r) as [|ck [|]]; cbn in *; [by subst| |lia]. rewrite app_nil_r in Hf. by subst.
Qed.
Lemma single_root n st l news r : built st l news -> rooted n st l news r -> forall N rest cs rr, news = N :: rest -> cut (bytes l st) [] N cs rr -> (length (full cs rr) <= 1)%nat ->
  l = true \/ N <> [] -> root_over n st l N r.
Proof.
  induction 1 as [l N0 Hok Hc|l N0 cs0 r0 N1 rest0 Hok Hc Hne Hts Hb IH]; intros Hr N rest cs rr Heq Hcut Hlen HN; injection Heq as <- <-; unfold root_over.
  - cbn [rooted] in Hr. destruct Hr as [[Hl Hm]|(-> & mt & -> & Hd)]; [|exists mt; by split].
    replace (l || Nat.ltb 1 (length N0)) with true; [done|]. symmetry. apply orb_true_iff. destruct Hl; [by left|right; by apply Nat.ltb_lt].
  - destruct (cut_fun _ _ _ _ _ _ _ Hcut Hc) as [-> ->]. assert (N0 <> []) as HN0 by (intros ->; by destruct (cut_empty _ _ _ _ _ Hc eq_refl)).
    rewrite (one_chunk _ _ _ _ Hc Hlen HN0) in Hts. inversion Hts as [|? t ? ts0 (seq & mt & -> & Hm & _) Hts0]; subst. inversion Hts0; subst.
    assert (root_over n st false [MItem mt] r) as Hroot.
    { destruct (cut_exists (bytes false st) [MItem mt] []) as (cs1 & r1 & Hc1). apply (IH Hr [MItem mt] rest0 cs1 r1); [done|done| |by right]. by apply chunks_fewer in Hc1. }
    unfold root_over in Hroot. cbn [orb length Nat.ltb Nat.leb] in Hroot. destruct Hroot as (mt' & [= <-] & Hd). inversion Hd as [n' ? child Hch Hbig|n' ? t mt' ? Hch Hd']; subst.
    + rewrite (md_child _ _ _ _ _ Hm) in Hch. injection Hch as <-. rewrite (md_meta _ _ _ _ _ Hm), (md_items _ _ _ _ _ Hm) in Hbig.
      replace (l || Nat.ltb 1 (length N0)) with true; [by exists mt|]. symmetry. apply orb_true_iff. destruct Hbig; [left; by destruct l|right; by apply Nat.ltb_lt].
    + rewrite (md_child _ _ _ _ _ Hm) in Hch. injection Hch as Hch. pose proof (md_items _ _ _ _ _ Hm) as Hi. pose proof (md_meta _ _ _ _ _ Hm) as Hme. rewrite Hch in Hi, Hme. cbn in Hi, Hme. subst N0.
      destruct l; [done|]. cbn. exists mt'. split; [done|]. apply (descends_mono n'); [lia|done].
Qed.

(** ** [Done] *)

Definition dones (news : list (list sequenceItem)) : Prop := forall fuel l N rest P sc st olds q r n, news = N :: rest -> built st l news -> rooted n st l news r -> inv st ->
  sim st l P sc -> old_tree st l olds -> aligned st l olds q sc -> (olds = [] -> (0 < q)%nat) -> N = P ++ drop q (hd [] olds) -> l = true \/ N <> [] ->
  (3 * length news + length (hd [] olds) + n + 3 <= fuel)%nat -> exists st', done_ fuel l sc st = Ok (r, st') /\ inv st' /\ le st st'.

(** What [Done] does after [finalizeCursor]. *)
Definition rest_of_Done (fuel : nat) (l : bool) (c : chunker) (parents : sequenceChunker) (st : cstate) : outcome (sequence * cstate) :=
  if anyPending parents then
    let! (sc, st) := if negb (Nat.eqb (length (current c)) 0) then hcb fuel l (c :: parents) st else Ok (c :: parents, st) in
    done_ fuel false (tail sc) st
  else if l || Nat.ltb 1 (length (current c)) then
    let! (seq, _, _, st) := createSequence false c_makeChunk c_parentMakeChunk l c st in Ok (seq, st)
  else match current c with [MItem mt] => let! seq := canonical_root c_vr fuel mt in Ok (seq, st) | _ => Panic AssertFailed end.

Lemma root_done fuel n st l N r c parents : root_over n st l N r -> inv st -> anyPending parents = false -> current c = N -> (n <= fuel)%nat ->
  exists st', rest_of_Done fuel l c parents st = Ok (r, st') /\ inv st' /\ le st st'.
Proof.
  intros Hroot Hinv Hp Hc Hn. unfold rest_of_Done. rewrite Hp, createSequence_create, Hc. unfold root_over in Hroot. destruct (l || Nat.ltb 1 (length N)).
  - destruct Hroot as (mt & Hm). destruct (md_again _ _ _ _ _ Hm st Hinv (cl_refl st)) as (st' & -> & Hinv' & Hle'). cbn [obind]. by exists st'.
  - destruct Hroot as (mt & -> & Hd). apply (descends_mono n fuel) in Hd; [|done]. apply canonical_descends in Hd. rewrite Hd. exists st. split_and!; try done. apply cl_refl.
Qed.

Lemma pending_done news1 fuel l st N N1 rest1 r n c parents orest : dones news1 -> news1 = N1 :: rest1 -> built st false news1 -> rooted n st false news1 r -> inv st ->
  old_tree st false orest -> finished st l orest N c parents -> (exists csN rN, cut (bytes l st) [] N csN rN /\ Forall2 (tuple_of l st) (full csN rN) N1) -> anyPending parents = true ->
  (3 * length news1 + length (hd [] orest) + n + 3 <= fuel)%nat -> exists st', rest_of_Done fuel l c parents st = Ok (r, st') /\ inv st' /\ le st st'.
Proof.
  intros IH Hnews Hb Hr Hinv Hot (cs & ts & p & late & csN & rN & Hpre & Hts & Hps & Hal & HcN & Hfull & Hlate & Hold) (csN' & rN' & HcN' & HtsN) Hpend Hfuel.
  destruct (cut_fun _ _ _ _ _ _ _ HcN' HcN) as [-> ->]. rewrite Hfull in HtsN. apply Forall2_app_inv_l in HtsN as (ts1 & lt & Hts1 & Hlt & ->).
  assert (lt = drop p (hd [] orest)) as ->.
  { destruct orest as [|L1 orest]; [destruct Hold as [-> _]; apply Forall2_nil_inv_l in Hlt as ->; cbn [hd]; by rewrite drop_nil|]. cbn [hd]. by apply (tuples_fun l st late). }
  assert (orest = [] -> (0 < p)%nat) as Hp0 by (intros ->; apply Hold). unfold rest_of_Done. rewrite Hpend. unfold full in Hts1. destruct (current c) as [|x cr] eqn:Ec; cbn [length Nat.eqb negb].
  - rewrite app_nil_r in Hts1. rewrite (tuples_fun _ _ _ _ _ Hinv Hts1 Hts) in *. cbn [obind tail].
    assert (sim st false ts parents) as Hs by (destruct parents; [done|exact Hps]).
    apply (IH fuel false (ts ++ drop p (hd [] orest)) rest1 ts parents st orest p r n); try done. right. destruct parents as [|p0 ps]; [done|].
    rewrite (psim_pending _ _ _ _ Hps) in Hpend. by destruct ts.
  - destruct late as [|? ?]; [|by destruct (Hlate ltac:(done)) as [? _]]. apply Forall2_nil_inv_l in Hlt as Hnil. rewrite Hnil, app_nil_r in Hnews. apply Forall2_app_inv_l in Hts1 as (ts0 & ts2 & Hts0 & Hts2 & ->).
    rewrite (tuples_fun _ _ _ _ _ Hinv Hts0 Hts) in *. inversion Hts2 as [|? t ? ? (seq & mt & -> & Hm & _) Hnil2]; subst. inversion Hnil2; subst. rewrite <- Ec in Hm.
    destruct (boundary_ok Hwin ((ts ++ [MItem mt]) :: rest1) fuel l st c parents seq mt ts _ rest1 eq_refl (Append_ok Hwin _) Hb Hinv) as (parents' & st' & -> & Hinv' & Hle' & Hs' & Hsc');
      [by rewrite Ec|done|done|by eapply tuples_ok|done|cbn [length] in *; lia|]. cbn [obind tail].
    destruct (IH fuel false (ts ++ [MItem mt]) rest1 (ts ++ [MItem mt]) parents' st' orest p r n) as (st2 & -> & Hinv2 & Hle2);
      [done|by apply (built_le st)|by apply (rooted_le n st)|done|done|by apply (old_tree_le st)| |done| |right; by destruct ts|done|].
    + apply (aligned_le st); [done|done|]. by apply (aligned_same st false orest p parents).
    + by rewrite Hnil, app_nil_r.
    + exists st2. split_and!; try done. by eapply cl_trans.
Qed.

Lemma finish_done news fuel l N rest st r n c parents orest : dones rest -> news = N :: rest -> built st l news -> rooted n st l news r -> inv st -> old_tree st false orest ->
  finished st l orest N c parents -> l = true \/ N <> [] -> (3 * length rest + length (hd [] orest) + n + 3 <= fuel)%nat ->
  exists st', rest_of_Done fuel l c parents st = Ok (r, st') /\ inv st' /\ le st st'.
Proof.
  intros IH -> Hb Hr Hinv Hot Hfin HN Hfuel. pose proof Hfin as (cs & ts & p & late & csN & rN & Hpre & Hts & Hps & Hal & HcN & Hfull & Hlate & Hold).
  pose proof (psim_pending _ _ _ _ Hps) as Hpend. destruct ts as [|t ts].
  - inversion Hts; subst. assert (late = []) as -> by (destruct late; [done|by destruct (Hlate ltac:(done))]). rewrite app_nil_r in Hfull. unfold full in Hfull at 2. cbn [app] in Hfull.
    assert (current c = N) as HcN2 by (destruct HcN as [-> _]; rewrite <- concat_full, Hfull; destruct (current c); cbn; by rewrite ?app_nil_r).
    apply (root_done fuel n st l N r c parents); try done; [|lia]. apply (single_root n st l (N :: rest) r Hb Hr N rest csN rN); try done. rewrite Hfull. destruct (current c); cbn; lia.
  - assert (csN <> []) as HcsN by (inversion Hts; subst; by destruct Hpre as [k ->]). inversion Hb as [? ? Hok Hc|? ? cs0 r0 N1 rest1 Hok Hc Hne Hts1 Hb1]; subst.
    { by destruct (cut_fun _ _ _ _ _ _ _ Hc HcN) as [<- _]. }
    apply (pending_done (N1 :: rest1) fuel l st N N1 rest1 r n c parents orest); try done. by exists cs0, r0.
Qed.

Lemma Done_ok news : dones news.
Proof.
  induction news as [|N0 rest0 IH]; intros fuel l N rest P sc st olds q r n Heq Hb Hr Hinv Hs Hot Hal Hq HN Hne Hfuel; [done|]. injection Heq as -> ->.
  destruct (sim_inv _ _ _ _ Hs) as (c & parents & cs & ts & -> & [Hcut Hrv Hdone] & Hts & Hps). destruct fuel as [|fuel]; [lia|]. rewrite Done_S, Hdone. cbn [negb check obind].
  set (c1 := MkSc (sc_cur c) (current c) (sc_rv c) true). assert (psim st ts c1 parents) as Hps1 by (destruct parents; [by destruct Hps|exact Hps]).
  assert (exists c' parents' st1, match sc_cur c with Some _ => finalizeCursor c_vr false c_makeChunk c_parentMakeChunk c_leafHash fuel l (c1 :: parents) st | None => Ok (c1 :: parents, st) end =
    Ok (c' :: parents', st1) /\ inv st1 /\ le st st1 /\ finished st1 l (tail olds) N c' parents') as (c' & parents' & st1 & -> & Hinv1 & Hle1 & Hfin).
  { destruct olds as [|L orest].
    - inversion Hal as [? ? ? Hu He|]; subst. specialize (He (Hq eq_refl)). cbn [at_end] in He. destruct Hu as (Hc & Hn & Hu).
      assert (exists parents', match sc_cur c with Some _ => finalizeCursor c_vr false c_makeChunk c_parentMakeChunk c_leafHash fuel l (c1 :: parents) st | None => Ok (c1 :: parents, st) end =
        Ok (c1 :: parents', st) /\ idle parents' /\ at_end parents' /\ same_content parents parents') as (parents' & -> & Hi & He' & Hsc).
      { destruct (sc_cur c) as [cur|] eqn:Ec.
        - unfold finalizeCursor. change (sc_cur c1) with (Some cur). destruct He as [-> _]. destruct (skip_idle parents Hu) as (ps & -> & Hi & He' & Hsc). cbn [obind]. by exists ps.
        - destruct (uncursored_idle _ Hc) as [_ He']. exists parents. split_and!; [done|done|done|apply same_content_refl]. }
      exists c1, parents', st. split_and!; try done; [apply cl_refl|]. cbn [hd tail]. rewrite drop_nil, app_nil_r. exists cs, ts, 1%nat, [], cs, (current c). rewrite app_nil_r.
      assert (aligned st false [] 1 parents') as Hal' by by constructor. split_and!; try done; [|lia]. apply (parents_content st ts c1 c1 parents parents' [] 1); try done. intros Hnil _. by apply Hn.
    - inversion Hal as [|? ? ? ? p ? cur ? Hc Hat Hci Hal']; subst. rewrite Hc. cbn [hd tail] in *.
      apply (finalize_ok Hwin (length ((P ++ drop q L) :: rest)) fuel st l L orest P q c1 parents cs ts p); try done; [|by exists cur|lia].
      right. exists (P ++ drop q L), rest. split_and!; done. }
  cbn [obind]. destruct (finish_done (N :: rest) fuel l N rest st1 r n c' parents' (tail olds) IH eq_refl) as (st2 & He & Hinv2 & Hle2);
    [by apply (built_le st)|by apply (rooted_le n st)|done| |done|done| |].
  - destruct olds as [|L orest]; [done|]. apply (old_tree_le st); [done|]. by eapply old_tree_rest.
  - destruct olds as [|L [|L1 orest]]; cbn [hd tail length] in *; [lia|lia|]. pose proof (tower_shorter _ _ _ _ _ Hot). lia.
  - exists st2. split; [exact He|]. split; [done|]. by eapply cl_trans.
Qed.

End facts.

End DoneFacts.
