(* ===== verification/TreeFacts.v ===== *)
(** * Package [types]: the tree of a sequence, and cursors by index

    The root that the chunker returns has the levels of the items below it, and
    [newCursorAtIndex] finds the leaf with a given number. *)

From S2P Require Import Prelude GoLib HashPkg TypesCodec TypesType TypesValue RollingHash Sequences Chunker ChunkerFacts CursorFacts AppendFacts BuildFacts ResumeFacts AlignFacts SkipFacts FinalizeFacts DoneFacts.
Import Hash Float64 Codec NomsKinds TypeCache Values Rolling Sequences Chunker.
Import BuzFacts RollingFacts ChunkerFacts CursorFacts AppendFacts BuildFacts ResumeFacts AlignFacts SkipFacts FinalizeFacts DoneFacts.

Module TreeFacts.

Section facts.
Context `{chunkingConfig, chunking} (Hwin : 0 < chunkWindow < 2 ^ 32) `{!chunk_laws}.

(** ** The levels below a root *)

Fixpoint root_of (st : cstate) (l : bool) (olds : list (list sequenceItem)) (r : sequence) : Prop :=
  match olds with
  | [] => False
  | [L] => exists mt, made l st L r mt
  | _ :: rest => root_of st false rest r
  end.
Lemma root_of_le st st' olds r : le st st' -> forall l, root_of st l olds r -> root_of st' l olds r.
Proof.
  intros Hle. induction olds as [|L [|L1 rest] IH]; intros l; cbn [root_of]; [done| |apply IH]. intros (mt & Hm). exists mt. by eapply made_le.
Qed.
Lemma rooted_tower n st l news r : built st l news -> rooted n st l news r -> forall N rest, news = N :: rest -> l = true \/ (1 < length N)%nat ->
  exists olds, tower st l (N :: olds) /\ root_of st l (N :: olds) r /\ (length olds <= length rest)%nat.
Proof.
  intros Hb. pose proof Hb as Hb0. revert Hb0. induction Hb as [l N0 Hok Hc|l N0 cs r0 N1 rest0 Hok Hc Hne Hts Hb IH]; intros Hb0 Hr N rest Heq HN; injection Heq as <- <-.
  - exists []. cbn [rooted] in Hr. destruct Hr as [[_ Hm]|(-> & mt & -> & _)]; [|destruct HN as [?|Hl]; [done|cbn in Hl; lia]]. split_and!; [|done|done].
    apply (tower_root st l N0 [] N0); [done|done|]. unfold full. destruct N0; cbn; lia.
  - assert (N0 <> []) as HN0 by (intros ->; by destruct (cut_empty _ _ _ _ _ Hc eq_refl)). destruct (decide (length (full cs r0) <= 1)%nat) as [Hone|Hmore].
    + pose proof (single_root n st l _ r Hb0 Hr N0 (N1 :: rest0) cs r0 eq_refl Hc Hone (or_intror HN0)) as Hroot. unfold root_over in Hroot.
      replace (l || Nat.ltb 1 (length N0)) with true in Hroot.
      * exists []. split_and!; [by apply (tower_root st l N0 cs r0)|done|cbn; lia].
      * symmetry. apply orb_true_iff. destruct HN; [by left|right; by apply Nat.ltb_lt].
    + assert (1 < length N1)%nat as HN1 by (rewrite <- (Forall2_length _ _ _ Hts); lia).
      destruct (IH Hb Hr N1 rest0 eq_refl (or_intror HN1)) as (olds & Ht & Hro & Hl). exists (N1 :: olds). split_and!; [|done|cbn; lia].
      apply (tower_up st l N0 cs r0); try done. intros ->; cbn in HN1; lia.
Qed.

(** ** Counting leaves *)

Definition weight (l : bool) (x : sequenceItem) : Z := if l then 1 else match x with MItem mt => mt_numLeaves mt | _ => 0 end.
Definition weigh (l : bool) (xs : list sequenceItem) : Z := foldr (fun x n => weight l x + n) 0 xs.
Lemma weigh_app l xs ys : weigh l (xs ++ ys) = weigh l xs + weigh l ys.
Proof. unfold weigh. induction xs as [|x xs IH]; cbn [app foldr]; [lia|]. rewrite IH. lia. Qed.
Lemma leaves_weigh l xs : leaves l xs = weigh l xs.
Proof.
  destruct l; cbn [leaves]; [induction xs as [|x xs IH]; [done|]; rewrite Zlength_cons, IH; change (weigh true (x :: xs)) with (1 + weigh true xs); lia|].
  induction xs as [|x xs IH] using rev_ind; [done|]. rewrite foldl_app, IH, weigh_app. cbn. unfold weight. destruct x; lia.
Qed.
Definition weighty (l : bool) (xs : list sequenceItem) : Prop := Forall (fun x => 0 <= weight l x) xs.
Lemma weigh_nonneg l xs : weighty l xs -> 0 <= weigh l xs.
Proof. unfold weigh. induction 1; cbn [foldr]; lia. Qed.
Lemma weigh_prefix l xs i : weighty l xs -> 0 <= weigh l (take i xs) <= weigh l xs.
Proof.
  intros Hw. rewrite <- (take_drop i xs) in Hw. apply Forall_app in Hw as [Hw1%weigh_nonneg Hw2%weigh_nonneg]. rewrite <- (take_drop i xs) at 3. rewrite weigh_app. lia.
Qed.
Lemma weigh_leaf xs : weigh true xs = Zlength xs.
Proof. by rewrite <- leaves_weigh. Qed.
(** The tuples weigh what their chunks weigh. *)
Lemma tuples_weigh l st cs ts : Forall2 (tuple_of l st) cs ts -> weighty l (concat cs) -> weigh l (concat cs) < 2 ^ 63 ->
  weighty false ts /\ forall p, weigh false (take p ts) = weigh l (concat (take p cs)).
Proof.
  induction 1 as [|ck t cs ts (seq & mt & -> & Hm & _) _ IH]; intros Hw Hlt; [split; [constructor|intros p; by destruct p]|]. cbn [concat] in Hw, Hlt. apply Forall_app in Hw as [Hck Hcs].
  rewrite weigh_app in Hlt. pose proof (weigh_nonneg _ _ Hck). pose proof (weigh_nonneg _ _ Hcs). destruct IH as [IH1 IH2]; [done|lia|].
  assert (weight false (MItem mt) = weigh l ck) as Hmt by (cbn; rewrite <- leaves_weigh; apply Hm; rewrite leaves_weigh; lia).
  split; [constructor; [by rewrite Hmt|done]|]. intros [|p]; [done|]. cbn [take concat]. rewrite weigh_app, <- IH2. unfold weigh at 1. cbn [foldr]. by rewrite Hmt.
Qed.

(** ** One step of the search *)

(** Item [i] holds leaf [idx], or is the last one. *)
Definition holds (l : bool) (xs : list sequenceItem) (idx : Z) (i : nat) : Prop :=
  if l then i = Z.to_nat idx else (i < length xs)%nat /\ weigh l (take i xs) <= idx /\ (idx < weigh l (take (S i) xs) \/ S i = length xs).
Lemma tuples_before_ok idx tuples : forall pre, weighty false (map MItem (pre ++ tuples)) -> weigh false (map MItem (pre ++ tuples)) < 2 ^ 63 -> tuples <> [] ->
  weigh false (map MItem pre) <= idx -> exists i, let xs := map MItem (pre ++ tuples) in
  tuples_before tuples (Zlength pre) (weigh false (map MItem pre)) idx = (Z.of_nat i, weigh false (take i xs)) /\ holds false xs idx i.
Proof.
  induction tuples as [|mt tuples IH]; intros pre Hw Hlt Hne Hidx; [done|]. cbn zeta. unfold holds. rewrite !length_map, length_app. cbn [length].
  assert (take (length pre) (map MItem (pre ++ mt :: tuples)) = map MItem pre) as Htk by (rewrite map_app, <- (length_map MItem pre); apply take_app_length).
  assert (take (S (length pre)) (map MItem (pre ++ mt :: tuples)) = map MItem (pre ++ [mt])) as Htk1.
  { rewrite !map_app. cbn [map]. replace (S (length pre)) with (length (map MItem pre ++ [MItem mt])) by (rewrite length_app, length_map; cbn; lia).
    change (MItem mt :: map MItem tuples) with ([MItem mt] ++ map MItem tuples). rewrite app_assoc. apply take_app_length. }
  assert (weigh false (map MItem (pre ++ [mt])) = weigh false (map MItem pre) + mt_numLeaves mt) as Hw1 by (rewrite map_app, weigh_app; cbn; lia).
  pose proof (weigh_prefix false _ (S (length pre)) Hw) as Hb1. rewrite Htk1, Hw1 in Hb1. pose proof (weigh_prefix false _ (length pre) Hw) as Hb0. rewrite Htk in Hb0.
  destruct tuples as [|mt2 tuples].
  - exists (length pre). cbn [tuples_before]. rewrite Htk. split; [done|]. split_and!; [lia|done|right; cbn; lia].
  - cbn [tuples_before]. rewrite u64_small by lia. destruct (Z.leb_spec (weigh false (map MItem pre) + mt_numLeaves mt) idx) as [Hle|Hgt].
    + destruct (IH (pre ++ [mt])) as (i & He & Hh); [by rewrite <- app_assoc|by rewrite <- app_assoc|done|by rewrite Hw1|]. rewrite <- app_assoc in He, Hh. cbn [app] in He, Hh.
      rewrite Hw1, Zlength_app in He. exists i. split; [exact He|]. unfold holds in Hh. rewrite !length_map, length_app in Hh. exact Hh.
    + exists (length pre). rewrite Htk, Htk1, Hw1. split; [done|]. split_and!; [lia|done|by left].
Qed.
Lemma offset_ok seq l idx : isMetaSequence seq = negb l -> l = true \/ seq_items seq <> [] -> weighty l (seq_items seq) -> weigh l (seq_items seq) < 2 ^ 63 ->
  0 <= idx <= weigh l (seq_items seq) -> exists i, advanceCursorToOffset (MkLevel seq 0) idx = (MkLevel seq (Z.of_nat i), weigh l (take i (seq_items seq))) /\ holds l (seq_items seq) idx i.
Proof.
  intros Hmeta Hne Hw Hlt Hidx. destruct l; cbn [negb] in Hmeta.
  - exists (Z.to_nat idx). split; [|done]. rewrite weigh_leaf in *. unfold advanceCursorToOffset. cbn [l_seq].
    assert (s64 idx = idx) as Hs by (apply CodecFacts.s64_small; lia). assert (u64 idx = idx) as Hu by (apply u64_small; lia). unfold Zlength in *. rewrite length_take, Nat.min_l, Z2Nat.id by lia.
    destruct seq; try done; rewrite Hs; unfold seqLen, Zlength; rewrite (proj2 (Z.ltb_ge _ _)), Hu by lia; done.
  - destruct Hne as [?|Hne]; [done|]. destruct seq as [| | | |t tuples]; try done. cbn [seq_items] in *. unfold advanceCursorToOffset. cbn [l_seq].
    destruct (tuples_before_ok idx tuples []) as (i & He & Hh); [done|done|by intros ->|cbn; lia|]. cbn [app map Zlength weigh foldr] in He. exists i. split; [|exact Hh].
    change (Zlength []) with 0 in He. rewrite He. done.
Qed.

(** ** The search *)

Lemma index_step fuel cur seq idx i n : advanceCursorToOffset (MkLevel seq 0) idx = (MkLevel seq (Z.of_nat i), n) ->
  newCursorAtIndex_loop c_vr (S fuel) cur seq idx =
  let! cs := cur_getChildSequence c_vr (MkLevel seq (Z.of_nat i) :: cur) in
  match cs with None => Ok (MkLevel seq (Z.of_nat i) :: cur) | Some seq' => newCursorAtIndex_loop c_vr fuel (MkLevel seq (Z.of_nat i) :: cur) seq' (u64 (idx - n)) end.
Proof. intros He. cbn [newCursorAtIndex_loop]. by rewrite He. Qed.
Lemma child_at st L rest q cur mt seq : at_ st false (L :: rest) q cur -> L !! q = Some (MItem mt) -> mt_getChildSequence c_vr mt = Ok seq -> cur_getChildSequence c_vr cur = Ok (Some seq).
Proof.
  intros Hat Hx Hm. pose proof (sync_at _ _ _ _ _ _ Hat Hx) as Hs. rewrite Hm in Hs. unfold sync in Hs. destruct (cur_getChildSequence c_vr cur) as [[s|]|]; [|done|done]. cbn in Hs. congruence.
Qed.
Lemma tower_weigh st l L L1 rest : tower st l (L :: L1 :: rest) -> weighty l L -> weigh l L < 2 ^ 63 -> weighty false L1 /\ weigh false L1 = weigh l L.
Proof.
  intros Ht Hw Hlt. inversion Ht as [|? ? cs r ? ? _ Hc Hts _ _]; subst. pose proof Hc as [HL _]. rewrite <- concat_full in HL. rewrite HL in Hw, Hlt.
  destruct (tuples_weigh _ _ _ _ Hts Hw Hlt) as [Hw1 Heq]. split; [done|]. pose proof (Heq (length L1)) as He. rewrite firstn_all in He.
  rewrite He, <- (Forall2_length _ _ _ Hts), firstn_all. by rewrite HL.
Qed.
(** The weights before, in and after a chunk. *)
Lemma chunk_weigh st l L L1 rest p ck cs1 cs2 cs r : tower st l (L :: L1 :: rest) -> weighty l L -> weigh l L < 2 ^ 63 -> cut (bytes l st) [] L cs r -> full cs r = cs1 ++ ck :: cs2 -> p = length cs1 ->
  weigh false (take p L1) = weigh l (concat cs1) /\ weigh false (take (S p) L1) = weigh l (concat cs1) + weigh l ck /\ length L1 = (length cs1 + S (length cs2))%nat.
Proof.
  intros Ht Hw Hlt Hc Hf ->. inversion Ht as [|? ? cs' r' ? ? _ Hc' Hts _ _]; subst. destruct (cut_fun _ _ _ _ _ _ _ Hc Hc') as [<- <-]. pose proof Hc as [HL _]. rewrite <- concat_full in HL. rewrite HL in Hw, Hlt.
  destruct (tuples_weigh _ _ _ _ Hts Hw Hlt) as [_ Heq]. rewrite !Heq, Hf. rewrite <- (Forall2_length _ _ _ Hts), Hf, length_app. cbn [length]. rewrite take_app_length. split; [done|]. split; [|lia].
  replace (S (length cs1)) with (length (cs1 ++ [ck])) by (rewrite length_app; cbn; lia). change (ck :: cs2) with ([ck] ++ cs2). rewrite app_assoc, take_app_length, concat_app, weigh_app. cbn [concat]. by rewrite app_nil_r.
Qed.

(** The chunk below a tuple. *)
Lemma child_of st l L L1 rest p cur : tower st l (L :: L1 :: rest) -> at_ st false (L1 :: rest) p cur -> (p < length L1)%nat ->
  exists cs1 ck cs2 seq mt, Forall2 (tuple_of l st) (cs1 ++ ck :: cs2) L1 /\ p = length cs1 /\ L = concat cs1 ++ ck ++ concat cs2 /\ made l st ck seq mt /\ ck <> [] /\
    cur_getChildSequence c_vr cur = Ok (Some seq) /\ forall i, (i < length ck)%nat \/ (i = length ck /\ cs2 = []) -> at_ st l (L :: L1 :: rest) (length (concat cs1) + i) (MkLevel seq (Z.of_nat i) :: cur).
Proof.
  intros Ht Hat Hp. inversion Ht as [|? ? cs r ? ? Hok Hc Hts Hne Ht1]; subst. pose proof (Forall2_length _ _ _ Hts) as Hlen.
  destruct (lookup_lt_is_Some_2 (full cs r) p ltac:(lia)) as [ck Hck]. destruct (tuple_lookup _ _ _ _ _ _ Hts Hck) as (seq & mt & Hmt & Hm).
  destruct (list_elem_of_split_length _ _ _ Hck) as (cs1 & cs2 & Hf & Hp1). exists cs1, ck, cs2, seq, mt. rewrite <- Hf. split_and!; [done|done| |done| | |].
  - destruct Hc as [-> _]. by rewrite <- concat_full, Hf, concat_app.
  - apply (full_nonempty _ _ _ _ _ ck Hc). rewrite Hf. apply elem_of_app. right. constructor.
  - by apply (child_at st L1 rest p cur mt); [| |apply Hm].
  - intros i Hi. rewrite Hp1 in *. by apply (at_up st l L cs r L1 rest cs1 ck cs2 i seq mt cur).
Qed.
Lemma index_up st l L L1 rest idx p cur1 : tower st l (L :: L1 :: rest) -> weighty l L -> weigh l L < 2 ^ 63 -> 0 <= idx <= weigh l L ->
  at_ st false (L1 :: rest) p cur1 -> holds false L1 idx p -> exists seq i, cur_getChildSequence c_vr cur1 = Ok (Some seq) /\
    advanceCursorToOffset (MkLevel seq 0) (u64 (idx - weigh false (take p L1))) = (MkLevel seq (Z.of_nat i), weigh l (take i (seq_items seq))) /\
    exists q, at_ st l (L :: L1 :: rest) q (MkLevel seq (Z.of_nat i) :: cur1) /\ holds l L idx q /\ weigh l (take q L) = weigh false (take p L1) + weigh l (take i (seq_items seq)).
Proof.
  intros Ht Hw Hlt Hidx Hat (Hp & Hlo & Hhi). inversion Ht as [|? ? cs r ? ? Hok Hc Hts Hne Ht1]; subst. pose proof (Forall2_length _ _ _ Hts) as Hlen.
  destruct (lookup_lt_is_Some_2 (full cs r) p ltac:(lia)) as [ck Hck]. destruct (tuple_lookup _ _ _ _ _ _ Hts Hck) as (seq & mt & Hmt & Hm).
  destruct (list_elem_of_split_length _ _ _ Hck) as (cs1 & cs2 & Hf & Hp1).
  destruct (chunk_weigh _ _ _ _ _ p ck cs1 cs2 cs r Ht Hw Hlt Hc Hf Hp1) as (Hb & Hb1 & HL1).
  assert (L = concat cs1 ++ ck ++ concat cs2) as HLe by (destruct Hc as [-> _]; by rewrite <- concat_full, Hf, concat_app).
  assert (weighty l (concat cs1) /\ weighty l ck /\ weighty l (concat cs2)) as (Hw1 & Hw2 & Hw3) by (rewrite HLe in Hw; unfold weighty in *; by rewrite !Forall_app in Hw).
  pose proof (weigh_nonneg _ _ Hw1). pose proof (weigh_nonneg _ _ Hw2). pose proof (weigh_nonneg _ _ Hw3). rewrite HLe, !weigh_app in Hidx, Hlt.
  assert (ck <> []) as Hckne by (apply (full_nonempty _ _ _ _ _ ck Hc); rewrite Hf; apply elem_of_app; right; constructor).
  assert (idx - weigh l (concat cs1) <= weigh l ck /\ (cs2 <> [] -> idx - weigh l (concat cs1) < weigh l ck)) as [Hin Hin'].
  { destruct cs2 as [|ck2 cs2]; [cbn [concat weigh foldr] in *; split; [lia|done]|]. cbn [length] in HL1. split; [|intros _]; destruct Hhi; lia. }
  pose proof (md_items _ _ _ _ _ Hm) as Hi. rewrite Hb, u64_small by lia.
  destruct (offset_ok seq l (idx - weigh l (concat cs1))) as (i & He & Hh); [apply Hm|by right; rewrite Hi|by rewrite Hi|rewrite Hi; lia|rewrite Hi; lia|]. rewrite Hi in He, Hh.
  exists seq, i. split; [by apply (child_at st L1 rest p cur1 mt); [| |apply Hm]|]. rewrite Hi. split; [done|]. exists (length (concat cs1) + i)%nat.
  assert ((i < length ck)%nat \/ (i = length ck /\ cs2 = [])) as Hik.
  { unfold holds in Hh. destruct l; [rewrite !weigh_leaf in *; unfold Zlength in *; destruct cs2; [|left; specialize (Hin' ltac:(done)); lia]|left; by destruct Hh].
    destruct (decide (i = length ck)); [by right|left; lia]. }
  assert (forall j, (j <= length ck)%nat -> take (length (concat cs1) + j) L = concat cs1 ++ take j ck) as Htk by (intros j Hj; rewrite HLe, take_app_add, take_app_le by done; done).
  split_and!.
  - rewrite Hp1 in *. by apply (at_up st l L cs r L1 rest cs1 ck cs2 i seq mt cur1).
  - unfold holds in *. destruct l; [rewrite !weigh_leaf in *; unfold Zlength in *; lia|]. destruct Hh as (Hi1 & Hi2 & Hi3). rewrite <- Nat.add_succ_r, !Htk, !weigh_app by lia.
    rewrite HLe, !length_app. split_and!; [lia|lia|]. destruct Hi3 as [Hi3|Hi3]; [left; lia|]. rewrite Hi3, firstn_all. destruct cs2; [right; cbn; lia|left; specialize (Hin' ltac:(done)); lia].
  - rewrite Htk, weigh_app by lia. done.
Qed.

Lemma index_at olds : forall st l L rest r idx, olds = L :: rest -> tower st l olds -> root_of st l olds r -> weighty l L -> weigh l L < 2 ^ 63 -> 0 <= idx <= weigh l L -> l = true \/ L <> [] ->
  exists q cur, at_ st l olds q cur /\ holds l L idx q /\ (exists seq i tl, cur = MkLevel seq i :: tl /\ isMetaSequence seq = negb l) /\
  forall fuel, newCursorAtIndex_loop c_vr (length olds + fuel) [] r idx =
    let! cs := cur_getChildSequence c_vr cur in
    match cs with None => Ok cur | Some seq => newCursorAtIndex_loop c_vr fuel cur seq (u64 (idx - weigh l (take q L))) end.
Proof.
  induction olds as [|L0 rest0 IH]; intros st l L rest r idx Heq Ht Hr Hw Hlt Hidx HL; [done|]. injection Heq as -> ->. destruct rest as [|L1 rest].
  - cbn [root_of] in Hr. destruct Hr as (mt & Hm). pose proof (md_items _ _ _ _ _ Hm) as Hi. pose proof (md_meta _ _ _ _ _ Hm) as Hme.
    destruct (offset_ok r l idx Hme) as (i & He & Hh); [by rewrite Hi|by rewrite Hi|by rewrite Hi|by rewrite Hi|]. rewrite Hi in He, Hh. exists i, [MkLevel r (Z.of_nat i)].
    split; [constructor; [done|]; unfold holds in Hh; destruct l; [rewrite weigh_leaf in *; unfold Zlength in *; lia|lia]|]. split; [done|]. split; [by eexists _, _, _|].
    intros fuel. cbn [length Nat.add]. by rewrite (index_step fuel [] r idx i _ He).
  - inversion Ht as [|? ? cs r0 ? ? Hok Hc Hts Hne Ht1]; subst. destruct (tower_weigh _ _ _ _ _ Ht Hw Hlt) as [Hw1 Heq1].
    destruct (IH st false L1 rest r idx eq_refl Ht1 Hr Hw1 ltac:(lia) ltac:(lia) (or_intror Hne)) as (p & cur1 & Hat1 & Hh1 & _ & Hloop).
    destruct (index_up st l L L1 rest idx p cur1 Ht Hw Hlt Hidx Hat1 Hh1) as (seq & i & Hch & He & q & Hat & Hh & Hwq). exists q, (MkLevel seq (Z.of_nat i) :: cur1).
    split; [done|]. split; [done|]. split.
    { eexists _, _, _. split; [done|]. inversion Hat as [|? ? ? ? ? ? ? ? ? ? ? ? ? _ _ _ Hmd]; subst. apply Hmd. }
    intros fuel. replace (length (L :: L1 :: rest) + fuel)%nat with (length (L1 :: rest) + S fuel)%nat by (cbn [length]; lia). rewrite Hloop, Hch. cbn [obind].
    rewrite (index_step fuel cur1 seq _ i _ He). destruct (cur_getChildSequence c_vr (MkLevel seq (Z.of_nat i) :: cur1)) as [[s|]|]; try done. cbn [obind]. f_equal.
    rewrite Hwq. unfold u64. rewrite Zminus_mod_idemp_l. f_equal. lia.
Qed.
(** The cursor at leaf [idx]. *)
Lemma cursor_at fuel st L rest r q : tower st true (L :: rest) -> root_of st true (L :: rest) r -> Zlength L < 2 ^ 63 -> (q <= length L)%nat -> (length (L :: rest) <= fuel)%nat ->
  exists cur, newCursorAtIndex c_vr fuel r (Z.of_nat q) = Ok cur /\ at_ st true (L :: rest) q cur.
Proof.
  intros Ht Hr Hlt Hq Hfuel. destruct (index_at (L :: rest) st true L rest r (Z.of_nat q) eq_refl Ht Hr) as (q' & cur & Hat & Hh & (seq & i & tl & -> & Hme) & Hloop);
    [by apply Forall_true|by rewrite weigh_leaf|rewrite weigh_leaf; unfold Zlength; lia|by left|].
  cbn [holds] in Hh. rewrite Nat2Z.id in Hh. subst q'. eexists. split; [|done]. unfold newCursorAtIndex. replace fuel with (length (L :: rest) + (fuel - length (L :: rest)))%nat by lia. rewrite Hloop.
  cbn [cur_getChildSequence getChildSequence]. by destruct seq.
Qed.

(** ** Reading *)

Lemma cumulative_weigh tuples : weighty false (map MItem tuples) -> weigh false (map MItem tuples) < 2 ^ 63 -> cumulativeNumberOfLeaves tuples = weigh false (map MItem tuples).
Proof.
  unfold cumulativeNumberOfLeaves. induction tuples as [|mt tuples IH] using rev_ind; intros Hw Hlt; [done|]. rewrite foldl_app. cbn [foldl]. rewrite map_app in Hw. unfold weighty in Hw. rewrite Forall_app in Hw. destruct Hw as [Hw Hmt].
  rewrite map_app, weigh_app in *. cbn [map] in *. apply Forall_inv in Hmt as Hmt1. cbn in Hmt1. pose proof (weigh_nonneg _ _ Hw). change (weigh false [MItem mt]) with (mt_numLeaves mt + 0) in *. rewrite IH by (done || lia). rewrite u64_small; lia.
Qed.
Lemma root_leaves olds : forall st l L rest r, olds = L :: rest -> tower st l olds -> root_of st l olds r -> weighty l L -> weigh l L < 2 ^ 63 -> numLeaves r = weigh l L.
Proof.
  induction olds as [|L0 rest0 IH]; intros st l L rest r Heq Ht Hr Hw Hlt; [done|]. injection Heq as -> ->. destruct rest as [|L1 rest].
  - cbn [root_of] in Hr. destruct Hr as (mt & Hm). pose proof (md_items _ _ _ _ _ Hm) as Hi. pose proof (md_meta _ _ _ _ _ Hm) as Hme. destruct l; cbn [negb] in Hme.
    + rewrite weigh_leaf, <- Hi. by destruct r.
    + destruct r as [| | | |t tuples]; try done. cbn [numLeaves seq_items] in *. rewrite <- Hi in *. by apply cumulative_weigh.
  - destruct (tower_weigh _ _ _ _ _ Ht Hw Hlt) as [Hw1 <-]. apply (IH st false L1 rest); try done; [by inversion Ht|]. destruct (tower_weigh _ _ _ _ _ Ht Hw Hlt) as [_ ->]. done.
Qed.
Lemma iter_at st L rest k : tower st true (L :: rest) -> forall n q cur, at_ st true (L :: rest) q cur -> (length L - q <= k)%nat -> (k < n)%nat -> iterSequence c_vr n cur = Ok (drop q L).
Proof.
  intros Ht. induction k as [|k IH]; intros n q cur Hat Hk Hn; (destruct n as [|n]; [lia|]); pose proof (at_bound _ _ _ _ _ _ Hat) as Hq; cbn [iterSequence].
  - assert (q = length L) as -> by lia. by rewrite (at_invalid _ _ _ _ _ _ Hat eq_refl), drop_all.
  - destruct (decide (q = length L)) as [->|Hne]; [by rewrite (at_invalid _ _ _ _ _ _ Hat eq_refl), drop_all|]. destruct (lookup_lt_is_Some_2 L q ltac:(lia)) as [x Hx].
    destruct (at_current _ _ _ _ _ _ _ Hat Hx) as [_ ->]. destruct (advance_one _ _ _ _ _ _ _ Ht Hat Hx) as (-> & cur' & -> & Hat'). cbn [obind].
    rewrite (IH n (S q) cur' Hat') by lia. cbn [obind]. by rewrite (drop_S L x q Hx).
Qed.

End facts.

End TreeFacts.
