(* ===== verification/ConcatFacts.v ===== *)
(** * Package [types]: concatenating two sequences

    The chunker resumes at the end of the first sequence and finishes in the
    second one, whose cursors it is given; its levels above the second sequence
    keep cursors at the end of the first. *)

From S2P Require Import Prelude GoLib HashPkg TypesCodec TypesType TypesValue RollingHash Sequences Chunker ChunkerFacts CursorFacts AppendFacts BuildFacts ResumeFacts AlignFacts SkipFacts FinalizeFacts DoneFacts TreeFacts.
Import Hash Float64 Codec NomsKinds TypeCache Values Rolling Sequences Chunker.
Import BuzFacts RollingFacts ChunkerFacts CursorFacts AppendFacts BuildFacts ResumeFacts AlignFacts SkipFacts FinalizeFacts DoneFacts TreeFacts.

Module ConcatFacts.

Section facts.
Context `{chunkingConfig, chunking} (Hwin : 0 < chunkWindow < 2 ^ 32) `{!chunk_laws}.

(** ** Cursors at the end *)

Lemma at_length st l olds q cur : at_ st l olds q cur -> length cur = length olds.
Proof. induction 1 as [|? ? ? ? ? ? ? ? ? ? ? ? ? _ _ _ _ _ _ IH]; cbn [length] in *; lia. Qed.
Lemma at_past st l L rest cur : at_ st l (L :: rest) (length L) cur -> past cur.
Proof.
  intros Hat. split; [by apply (at_invalid _ _ _ _ _ _ Hat)|]. unfold advance. inversion Hat as [? ? ? seq Hs _ Heq|? ? cs r L1 rest' cs1 ck cs2 i seq mt cur' Hc Hf Hmt Hm Hi Hat' Heq]; subst; cbn [advanceMaybeAllowPastEnd].
  - unfold seqLen. rewrite (proj2 (Z.ltb_ge _ _)) by (unfold Zlength; lia). unfold Zlength. by rewrite Z.eqb_refl.
  - assert (i = length ck) as ->.
    { destruct Hi as [Hi|[Hi _]]; [|done]. pose proof (cut_length _ _ _ _ _ _ _ _ Hc Hf) as HL. lia. }
    unfold seqLen. rewrite (md_items _ _ _ _ _ Hm). rewrite (proj2 (Z.ltb_ge _ _)) by (unfold Zlength; lia). unfold Zlength. by rewrite Z.eqb_refl.
Qed.
Lemma at_spent st l L rest q cur : tower st l (L :: rest) -> at_ st l (L :: rest) q cur -> (length L <= S q)%nat -> L <> [] -> spent cur.
Proof.
  intros Ht Hat Hq HL. pose proof (at_bound _ _ _ _ _ _ Hat) as Hb. destruct (decide (q = length L)) as [->|Hne]; [by eapply past_spent, at_past|].
  destruct (lookup_lt_is_Some_2 L q ltac:(lia)) as [x Hx]. destruct (advance_one _ _ _ _ _ _ _ Ht Hat Hx) as (_ & cur' & Ha & Hat'). rewrite (proj2 (Nat.ltb_ge _ _)) in Ha by lia.
  exists cur'. split; [done|]. replace (S q) with (length L) in Hat' by lia. split; [by eapply at_past|]. by rewrite (at_length _ _ _ _ _ Hat'), (at_length _ _ _ _ _ Hat).
Qed.
Lemma cidx_last st l L q p L1 rest : tower st l (L :: L1 :: rest) -> cidx st l L q p -> (length L <= S q)%nat -> S p = length L1.
Proof.
  intros Ht (cs1 & ck & cs2 & i & Hp & ->) Hq. destruct (tower_tuples _ _ _ _ _ _ _ _ _ _ Ht Hp) as [_ Hd%Forall2_length]. rewrite length_drop in Hd. cbn [length] in Hd.
  assert (cs2 = []) as ->; [|cbn in Hd; lia]. destruct cs2 as [|ck2 cs3]; [done|]. exfalso. destruct Hp as (cs & r & Hc & Hf & -> & [Hi|[_ ?]]); [|done].
  assert (ck2 <> []) as Hne by (apply (full_nonempty _ _ _ _ _ ck2 Hc); rewrite Hf; apply elem_of_app; right; do 2 constructor).
  rewrite (cut_length _ _ _ _ _ _ _ _ Hc Hf) in Hq. cbn [concat] in Hq. rewrite length_app in Hq. destruct ck2; [done|]. cbn in Hq. lia.
Qed.
(** The levels of a chunker at the last item have nothing left. *)
Lemma aligned_idle olds : forall st l q sc, old_tree st l olds -> aligned st l olds q sc -> match olds with [] => True | L :: _ => L <> [] /\ (length L <= S q)%nat end -> idle sc.
Proof.
  induction olds as [|L rest IH]; intros st l q sc Ht Hal HL; inversion Hal as [? ? ? Hi|? ? ? ? p c cur ps Hc Hat Hci Hal']; subst; [done|]. destruct HL as [HL Hq]. cbn [idle old_tree] in *. rewrite Hc. split_and!.
  - by eapply at_spent.
  - intros ->. inversion Hal'; subst. unfold no_parent. rewrite Hc. by inversion Hat; subst.
  - apply (IH st false p ps); [by eapply old_tree_rest|done|]. destruct rest as [|L1 rest]; [done|]. pose proof (cidx_last _ _ _ _ _ _ _ Ht (Hci ltac:(done)) Hq). split; [|lia]. intros ->. done.
Qed.

(** ** The swap *)

Lemma swap_ok olds : forall fuel st l L rest q cur P sc, olds = L :: rest -> tower st l olds -> at_ st l olds q cur -> sim st l P sc -> idle (tail sc) -> L <> [] ->
  exists sc', swap_cursors c_vr false c_makeChunk c_parentMakeChunk c_leafHash (S fuel) cur sc st = Ok (sc', st) /\ sim st l P sc' /\ aligned st l olds q sc'.
Proof.
  induction olds as [|L0 rest0 IH]; intros fuel st l L rest q cur P sc Heq Ht Hat Hs Hi HL; [done|]. injection Heq as -> ->.
  destruct (sim_inv _ _ _ _ Hs) as (c & parents & cs & ts & -> & Hl & Hts & Hps). cbn [tail] in Hi. destruct (at_placed _ _ _ _ _ _ Ht Hat HL) as (cs1 & ck & cs2 & i & Hpl & _ & _ & Hrest).
  assert (exists parents1, match parents with [] => createParent c_vr false c_makeChunk c_parentMakeChunk c_leafHash (S fuel) c st | _ :: _ => Ok (parents, st) end = Ok (parents1, st) /\
    sim st false ts parents1 /\ idle parents1) as (parents1 & He & Hs1 & Hi1).
  { destruct parents as [|p ps]; [|by exists (p :: ps)]. destruct Hps as [-> Hn]. exists [new_chunker None]. rewrite createParent_S. unfold no_parent in Hn.
    split; [destruct (sc_cur c) as [[|? [|]]|]; done|]. split; [by apply new_sim|]. cbn. split_and!; [constructor|done|done]. }
  assert (lvl st l P cs (set_cur c (Some cur))) as Hl' by (by destruct Hl).
  destruct (at_nonempty _ _ _ _ _ Hat) as (lv & tl & ->). cbn [swap_cursors]. rewrite He. cbn [obind tail] in *. destruct rest as [|L1 rest].
  - destruct Hrest as (_ & _ & ->). cbn [swap_cursors obind]. eexists. split; [done|]. split.
    + apply (sim_intro st l P _ parents1 cs ts); [done|done|by apply sim_psim].
    + apply (al_level st l L [] q 0%nat _ [lv]); [done|done|done|]. constructor; [done|lia].
  - assert (L1 <> []) as HL1 by (by inversion Ht). destruct (IH fuel st false L1 rest (length cs1) tl ts parents1 eq_refl) as (parents2 & -> & Hs2 & Hal2); [by inversion Ht|done|done| |done|].
    { destruct parents1; [done|]. by destruct Hi1 as (_ & _ & ?). }
    cbn [obind]. eexists. split; [done|]. split; [by apply (sim_intro st l P _ parents2 cs ts); [done|done|apply sim_psim]|].
    apply (al_level st l L (L1 :: rest) q (length cs1) _ (lv :: tl)); [done|done| |done]. intros _. by exists cs1, ck, cs2, i.
Qed.

(** ** [concat] *)

Lemma concat_ok fuel st L1 rest1 r1 L2 rest2 r2 m n r news : tower st true (L1 :: rest1) -> root_of st true (L1 :: rest1) r1 -> tower st true (L2 :: rest2) -> root_of st true (L2 :: rest2) r2 -> inv st ->
  L1 <> [] -> L2 <> [] -> Zlength L1 < 2 ^ 63 -> Zlength L2 < 2 ^ 63 -> supports m st true L1 -> built st true ((L1 ++ L2) :: news) -> rooted n st true ((L1 ++ L2) :: news) r ->
  (2 * length (L1 :: rest1) + length L1 + length (L2 :: rest2) + length L2 + 2 * m + 3 * length (L1 :: news) + n + 3 <= fuel)%nat ->
  exists st', concat_sequences c_vr false c_makeChunk c_parentMakeChunk c_leafHash fuel r1 r2 st = Ok (r, st') /\ inv st' /\ le st st'.
Proof.
  intros Ht1 Hr1 Ht2 Hr2 Hinv HL1 HL2 Hlt1 Hlt2 Hsup Hb Hr Hf. cbn [length] in Hf.
  assert (forall L rest r, tower st true (L :: rest) -> root_of st true (L :: rest) r -> Zlength L < 2 ^ 63 -> numLeaves r = Zlength L) as Hleaves.
  { intros L rest r0 Ht Hro Hlt. rewrite (root_leaves _ st true L rest r0 eq_refl Ht Hro); [apply weigh_leaf|by apply Forall_true|by rewrite weigh_leaf]. }
  unfold concat_sequences. rewrite (Hleaves _ _ _ Ht1 Hr1 Hlt1), (Hleaves _ _ _ Ht2 Hr2 Hlt2). rewrite (proj2 (Z.eqb_neq (Zlength L1) 0)) by (by destruct L1). rewrite (proj2 (Z.eqb_neq (Zlength L2) 0)) by (by destruct L2).
  destruct (cursor_at fuel st L1 rest1 r1 (length L1) Ht1 Hr1 Hlt1 ltac:(lia)) as (cur1 & Hc1 & Hat1); [cbn [length]; lia|]. unfold Zlength at 1. rewrite Hc1. cbn [obind newSequenceChunker].
  destruct (resume_ok Hwin (L1 :: rest1) fuel true L1 rest1 (length L1) cur1 st m eq_refl Ht1 Hat1 Hinv) as (sc & st1 & -> & Hinv1 & Hle1 & Hs1 & Hal1); [by rewrite take_ge|cbn [length]; lia|]. cbn [obind].
  destruct (cursor_at fuel st L2 rest2 r2 0 Ht2 Hr2 Hlt2 ltac:(lia)) as (cur2 & Hc2 & Hat2); [cbn [length]; lia|]. change (Z.of_nat 0) with 0 in Hc2. rewrite Hc2. cbn [obind]. rewrite take_ge in Hs1 by done.
  destruct fuel as [|fuel]; [lia|]. assert (idle sc) as Hi by (apply (aligned_idle (L1 :: rest1) st1 true (length L1) sc); [by apply (tower_le st)|done|split; [done|lia]]).
  destruct (swap_ok (L2 :: rest2) fuel st1 true L2 rest2 0 cur2 L1 sc eq_refl) as (sc2 & -> & Hs2 & Hal2); [by apply (tower_le st)|by apply (at_le st)|done| |done|].
  { destruct sc; [done|]. by destruct Hi as (_ & _ & ?). }
  cbn [obind]. destruct (Done_ok Hwin ((L1 ++ L2) :: news) (S fuel) true (L1 ++ L2) news L1 sc2 st1 (L2 :: rest2) 0%nat r n eq_refl) as (st2 & He & Hinv2 & Hle2);
    [by apply (built_le st)|by apply (rooted_le n st)|done|done|by apply (tower_le st)|done|done|done|by left|cbn [hd length]; lia|].
  exists st2. split; [exact He|]. split; [done|by eapply cl_trans].
Qed.

End facts.

End ConcatFacts.
