(* ===== verification/EditFacts.v ===== *)
(** * Package [types]: a sequence has one tree

    Building a sequence from its items, editing it and concatenating it with
    another all lead to the same tree, whatever the kind of collection. *)

From S2P Require Import Prelude GoLib HashPkg TypesCodec TypesType TypesValue RollingHash Sequences Chunker ChunkerFacts CursorFacts AppendFacts BuildFacts ResumeFacts AlignFacts SkipFacts FinalizeFacts DoneFacts TreeFacts ConcatFacts.
Import Hash Float64 Codec NomsKinds TypeCache Values Rolling Sequences Chunker.
Import BuzFacts RollingFacts ChunkerFacts CursorFacts AppendFacts BuildFacts ResumeFacts AlignFacts SkipFacts FinalizeFacts DoneFacts TreeFacts ConcatFacts.

Module EditFacts.

Section facts.
Context `{chunkingConfig, chunking} (Hwin : 0 < chunkWindow < 2 ^ 32) `{!chunk_laws}.
#[local] Abbreviation app_all := (append_all c_vr false c_makeChunk c_parentMakeChunk c_leafHash).
#[local] Abbreviation done_ := (Done c_vr false c_makeChunk c_parentMakeChunk c_leafHash).

(** ** The tree of a sequence *)

(** The root [r] over the levels of [items]; [n] bounds the height. *)
Definition has_tree (n : nat) (st : cstate) (items : list sequenceItem) (r : sequence) : Prop :=
  exists rest, built st true (items :: rest) /\ rooted n st true (items :: rest) r /\ (length (items :: rest) <= n)%nat.
Lemma has_tree_le n st st' items r : le st st' -> has_tree n st items r -> has_tree n st' items r.
Proof. intros Hle (rest & Hb & Hr & Hl). exists rest. split_and!; [by apply (built_le st)|by apply (rooted_le n st)|done]. Qed.
Lemma built_fun st l N rest rest' : inv st -> built st l (N :: rest) -> built st l (N :: rest') -> rest = rest'.
Proof.
  intros Hinv Hb. remember (N :: rest) as news eqn:Hn. revert N rest rest' Hn. induction Hb as [l N0 Hok Hc|l N0 cs r N1 rest0 Hok Hc Hne Hts Hb IH]; intros N rest rest' Hn Hb'; injection Hn as <- <-.
  - inversion Hb' as [|? ? cs' r' N1' rest1 _ Hc' Hne' _ _]; subst; [done|]. by destruct (cut_fun _ _ _ _ _ _ _ Hc Hc') as [<- _].
  - inversion Hb' as [? ? _ Hc'|? ? cs' r' N1' rest1 _ Hc' _ Hts' Hb1']; subst; destruct (cut_fun _ _ _ _ _ _ _ Hc Hc') as [? ?]; subst; [done|].
    rewrite <- (tuples_fun _ _ _ _ _ Hinv Hts Hts') in *. f_equal. by apply (IH N1 rest0).
Qed.
Lemma rooted_fun n n' st news r r' : inv st -> forall l, rooted n st l news r -> rooted n' st l news r' -> r = r'.
Proof.
  intros Hinv. induction news as [|N [|N1 rest] IH]; intros l; cbn [rooted]; [done| |apply IH].
  intros [[Hl (mt & Hm)]|(-> & mt & -> & Hd)] [[Hl' (mt' & Hm')]|(Hf & mt' & HN & Hd')].
  - by destruct (made_fun _ _ _ _ _ _ _ Hinv Hm Hm').
  - destruct Hl as [->|Hl]; [done|]. subst N. cbn in Hl. lia.
  - destruct Hl' as [?|Hl']; [done|]. cbn in Hl'. lia.
  - injection HN as <-. apply (descends_mono n (n + n')) in Hd; [|lia]. apply (descends_mono n' (n + n')) in Hd'; [|lia]. apply canonical_descends in Hd, Hd'. congruence.
Qed.
Lemma has_tree_fun n n' st items r r' : inv st -> has_tree n st items r -> has_tree n' st items r' -> r = r'.
Proof.
  intros Hinv (rest & Hb & Hr & _) (rest' & Hb' & Hr' & _). rewrite <- (built_fun _ _ _ _ _ Hinv Hb Hb') in Hr'. by apply (rooted_fun n n' st (items :: rest) r r' Hinv true).
Qed.
Lemma has_tree_tower n st items r : has_tree n st items r -> exists olds, tower st true (items :: olds) /\ root_of st true (items :: olds) r /\ (length (items :: olds) <= n)%nat.
Proof.
  intros (rest & Hb & Hr & Hl). destruct (rooted_tower n st true _ r Hb Hr items rest eq_refl) as (olds & Ht & Hro & Hlen); [by left|]. exists olds. cbn [length] in *. split_and!; [done|done|lia].
Qed.
Lemma has_tree_supports n st items r i : has_tree n st items r -> supports n st true (take i items).
Proof. intros (rest & Hb & _ & Hl). right. exists items, rest. split_and!; [done|apply prefix_take|done]. Qed.
Lemma has_tree_length n st items r : has_tree n st items r -> Zlength items < 2 ^ 63 -> numLeaves r = Zlength items.
Proof.
  intros (olds & Ht & Hro & _)%has_tree_tower Hlt. rewrite (root_leaves _ st true items olds r eq_refl Ht Hro); [apply weigh_leaf|by apply Forall_true|by rewrite weigh_leaf].
Qed.
Lemma has_tree_empty n st r : has_tree n st [] r -> seq_items r = [].
Proof.
  intros (olds & Ht & Hro & _)%has_tree_tower. destruct olds as [|L1 olds]; [destruct Hro as (mt & Hm); by apply Hm|]. inversion Ht as [|? ? cs r0 ? ? _ Hc Hts Hne _]; subst. by destruct (cut_empty _ _ _ _ _ Hc eq_refl) as [-> ->]; inversion Hts; subst.
Qed.
Lemma has_tree_cursor n st items r q fuel : has_tree n st items r -> Zlength items < 2 ^ 63 -> (q <= length items)%nat -> (n <= fuel)%nat ->
  exists olds cur, tower st true (items :: olds) /\ (length (items :: olds) <= n)%nat /\ newCursorAtIndex c_vr fuel r (Z.of_nat q) = Ok cur /\ at_ st true (items :: olds) q cur.
Proof.
  intros (olds & Ht & Hro & Hlen)%has_tree_tower Hlt Hq Hf. destruct (cursor_at fuel st items olds r q Ht Hro Hlt Hq) as (cur & Hc & Hat); [lia|]. by exists olds, cur.
Qed.
(** Iterating from a position. *)
Lemma has_tree_iter n st items r q fuel : has_tree n st items r -> Zlength items < 2 ^ 63 -> (q <= length items)%nat -> (n <= fuel)%nat -> (length items < fuel)%nat ->
  exists cur, newCursorAtIndex c_vr fuel r (Z.of_nat q) = Ok cur /\ iterSequence c_vr fuel cur = Ok (drop q items).
Proof.
  intros Ht Hlt Hq Hn Hf. destruct (has_tree_cursor n st items r q fuel Ht Hlt Hq Hn) as (olds & cur & Htw & _ & Hc & Hat). exists cur. split; [done|]. apply (iter_at _ _ _ (length items) Htw); [done|lia|done].
Qed.

(** ** Building *)

Lemma append_all_run fuel items : forall P ch st ch' st', inv st -> sim st true P ch -> Forall (ok true st) P -> Forall (ok true st) items -> small true (P ++ items) ->
  app_all fuel ch items st = Ok (ch', st') -> inv st' /\ le st st' /\ sim st' true (P ++ items) ch' /\ same_cursors ch ch'.
Proof.
  induction items as [|x items IH]; intros P ch st ch' st' Hinv Hs HP Hv Hsm; cbn [append_all].
  - intros [= <- <-]. rewrite app_nil_r. split_and!; [done|apply cl_refl|done|apply same_cursors_refl].
  - destruct (Append _ _ _ _ _ fuel true ch x st) as [[ch1 st1]|] eqn:Ha; [|done]. cbn [obind]. intros Hr. apply Forall_cons in Hv as [Hv1 Hv].
    replace (P ++ x :: items) with ((P ++ [x]) ++ items) in * by (by rewrite <- app_assoc).
    destruct (Append_run Hwin fuel true P x ch st ch1 st1) as (Hinv1 & Hle1 & Hs1 & Hc1); [done|done|done|done|by apply small_app in Hsm as [? _]|exact Ha|].
    destruct (IH (P ++ [x]) ch1 st1 ch' st') as (Hinv2 & Hle2 & Hs2 & Hc2); [done|done| |by eapply oks_le|done|done|].
    { apply Forall_app. split; [by eapply oks_le|]. constructor; [by eapply cl_ok|done]. }
    split_and!; [done|by eapply cl_trans|done|by eapply same_cursors_trans].
Qed.
(** A chunker that is done over [items]. *)
Lemma Done_tree fuel st items ch r st' : inv st -> sim st true items ch -> uncursored ch -> Forall (ok true st) items -> small true items -> done_ fuel true ch st = Ok (r, st') ->
  inv st' /\ le st st' /\ has_tree fuel st' items r.
Proof.
  intros Hinv Hs Hu Hok Hsm Hd. destruct (Done_run Hwin fuel true items ch st r st') as (Hinv2 & Hle2 & rest & Hb & Hr & Hl); [done|done|done|done|by right|done|exact Hd|].
  split; [done|]. split; [done|]. by exists rest.
Qed.
Definition build (fuel : nat) (items : list sequenceItem) (st : cstate) : outcome (sequence * cstate) :=
  let! (ch, st) := app_all fuel [new_chunker None] items st in done_ fuel true ch st.
Lemma build_run fuel items st r st' : inv st -> Forall (ok true st) items -> small true items -> build fuel items st = Ok (r, st') -> inv st' /\ le st st' /\ has_tree fuel st' items r.
Proof.
  intros Hinv Hok Hsm. unfold build. destruct (app_all fuel _ items st) as [[ch st1]|] eqn:Ha; [|done]. cbn [obind]. intros Hd.
  destruct (append_all_run fuel items [] [new_chunker None] st ch st1) as (Hinv1 & Hle1 & Hs1 & Hc1); [done|by apply new_sim|done|done|done|done|]. cbn [app] in Hs1.
  destruct (Done_tree fuel st1 items ch r st') as (Hinv2 & Hle2 & Ht); [done|done|apply (same_uncursored _ _ Hc1); by constructor|by eapply oks_le|done|done|]. split; [done|]. split; [by eapply cl_trans|done].
Qed.

(** ** Editing *)

Lemma append_all_ok fuel items : forall P ch st N rest, built st true (N :: rest) -> inv st -> sim st true P ch -> (P ++ items) `prefix_of` N -> (2 * length (N :: rest) <= fuel)%nat ->
  exists ch' st', app_all fuel ch items st = Ok (ch', st') /\ inv st' /\ le st st' /\ sim st' true (P ++ items) ch' /\ same_cursors ch ch'.
Proof.
  induction items as [|x items IH]; intros P ch st N rest Hb Hinv Hs Hpre Hf; cbn [append_all].
  - exists ch, st. rewrite app_nil_r. split_and!; [done|done|apply cl_refl|done|apply same_cursors_refl].
  - replace (P ++ x :: items) with ((P ++ [x]) ++ items) in * by (by rewrite <- app_assoc).
    destruct (Append_ok Hwin _ fuel true N rest P x ch st eq_refl Hb Hinv Hs) as (ch1 & st1 & -> & Hinv1 & Hle1 & Hs1 & Hc1); [by etransitivity; [apply prefix_app_r|]|done|].
    destruct (IH (P ++ [x]) ch1 st1 N rest) as (ch2 & st2 & Ha2 & Hinv2 & Hle2 & Hs2 & Hc2); [by apply (built_le st)|done|done|done|done|].
    exists ch2, st2. cbn [obind]. split_and!; [done|done|by eapply cl_trans|done|by eapply same_cursors_trans].
Qed.
Lemma skip_n_ok d : forall st L rest q ch, tower st true (L :: rest) -> aligned st true (L :: rest) q ch -> (q + d <= length L)%nat ->
  exists ch', skip_n c_vr d ch = Ok ch' /\ aligned st true (L :: rest) (q + d) ch' /\ same_content ch ch'.
Proof.
  induction d as [|d IH]; intros st L rest q ch Ht Hal Hq; cbn [skip_n].
  - exists ch. rewrite Nat.add_0_r. split_and!; [done|done|apply same_content_refl].
  - destruct (Skip_ok (L :: rest) st true L rest q ch eq_refl Ht Hal) as (ch1 & -> & Hal1 & Hc1); [lia|]. cbn [obind].
    destruct (IH st L rest (S q) ch1 Ht Hal1) as (ch2 & Hs2 & Hal2 & Hc2); [lia|]. exists ch2. split; [exact Hs2|]. split; [by replace (q + S d)%nat with (S q + d)%nat by lia|by eapply same_content_trans].
Qed.
(** The chunker from the cursor on: skip, append, done. *)
Definition edit (fuel : nat) (cur : sequenceCursor) (d : nat) (items : list sequenceItem) (st : cstate) : outcome (sequence * cstate) :=
  let! (ch, st) := newSequenceChunker c_vr false c_makeChunk c_parentMakeChunk c_leafHash fuel (Some cur) st in
  let! ch := skip_n c_vr d ch in
  let! (ch, st) := app_all fuel ch items st in
  done_ fuel true ch st.
Lemma edit_ok fuel st L rest q cur d items m n r news : tower st true (L :: rest) -> at_ st true (L :: rest) q cur -> inv st -> supports m st true (take q L) -> (q + d <= length L)%nat ->
  built st true ((take q L ++ items ++ drop (q + d) L) :: news) -> rooted n st true ((take q L ++ items ++ drop (q + d) L) :: news) r ->
  (2 * length (L :: rest) + length L + 2 * m + 3 * length (L :: news) + n + 3 <= fuel)%nat ->
  exists st', edit fuel cur d items st = Ok (r, st') /\ inv st' /\ le st st'.
Proof.
  set (N := take q L ++ items ++ drop (q + d) L). intros Ht Hat Hinv Hsup Hqd Hb Hr Hf. cbn [length] in Hf. unfold edit, newSequenceChunker.
  destruct (resume_ok Hwin (L :: rest) fuel true L rest q cur st m eq_refl Ht Hat Hinv Hsup) as (ch & st1 & -> & Hinv1 & Hle1 & Hs1 & Hal1); [cbn [length]; lia|]. cbn [obind].
  assert (tower st1 true (L :: rest)) as Ht1 by (by apply (tower_le st)). destruct (skip_n_ok d st1 L rest q ch Ht1 Hal1 Hqd) as (ch2 & -> & Hal2 & Hc2). cbn [obind].
  pose proof (sim_content _ _ _ _ _ _ _ Hs1 Hc2 Hal2) as Hs2. pose proof (built_le _ _ _ _ Hle1 Hb) as Hb1.
  destruct (append_all_ok fuel items (take q L) ch2 st1 N news Hb1 Hinv1 Hs2) as (ch3 & st3 & -> & Hinv3 & Hle3 & Hs3 & Hc3); [unfold N; rewrite app_assoc; by eexists|cbn [length]; lia|]. cbn [obind].
  assert (le st st3) as Hle by by eapply cl_trans.
  destruct (Done_ok Hwin (N :: news) fuel true N news (take q L ++ items) ch3 st3 (L :: rest) (q + d)%nat r n eq_refl) as (st4 & Hdone & Hinv4 & Hle4);
    [by apply (built_le st)|by apply (rooted_le n st)|done|done|by apply (tower_le st)| |done|unfold N; cbn [hd]; by rewrite app_assoc|by left|cbn [hd length]; lia|].
  { apply (aligned_same _ _ _ _ ch2); [|done]. by apply (aligned_le st1). }
  exists st4. split; [exact Hdone|]. split; [done|by eapply cl_trans].
Qed.
(** The edited tree is the tree of the edited items. *)
Lemma edit_tree fuel n n' st items l i d ins r : inv st -> has_tree n st items l -> has_tree n' st (take i items ++ ins ++ drop (i + d) items) r -> (i + d <= length items)%nat -> Zlength items < 2 ^ 63 ->
  (4 * n + 4 * n' + length items + 3 <= fuel)%nat -> exists cur st', newCursorAtIndex c_vr fuel l (Z.of_nat i) = Ok cur /\ edit fuel cur d ins st = Ok (r, st').
Proof.
  intros Hinv Hl Hr Hid Hlt Hf. destruct (has_tree_cursor n st items l i fuel Hl Hlt) as (olds & cur & Ht & Hlen & Hc & Hat); [lia|lia|].
  destruct Hr as (news & Hb & Hro & Hln). destruct (edit_ok fuel st items olds i cur d ins n n' r news Ht Hat Hinv) as (st' & He & _); [by eapply has_tree_supports|done|done|done|cbn [length] in *; lia|].
  by exists cur, st'.
Qed.
Lemma concat_tree fuel n1 n2 n st items1 items2 r1 r2 r : inv st -> has_tree n1 st items1 r1 -> has_tree n2 st items2 r2 -> has_tree n st (items1 ++ items2) r -> Zlength items1 < 2 ^ 63 -> Zlength items2 < 2 ^ 63 ->
  (4 * n1 + n2 + 4 * n + length items1 + length items2 + 3 <= fuel)%nat -> exists st', concat_sequences c_vr false c_makeChunk c_parentMakeChunk c_leafHash fuel r1 r2 st = Ok (r, st').
Proof.
  intros Hinv Hs1 Hs2 Hr Hlt1 Hlt2 Hf. destruct items1 as [|x1 items1].
  { exists st. unfold concat_sequences. rewrite (has_tree_length _ _ _ _ Hs1 Hlt1). cbn. by rewrite (has_tree_fun n2 n st items2 r2 r Hinv Hs2 Hr). }
  destruct items2 as [|x2 items2].
  { exists st. rewrite app_nil_r in Hr. unfold concat_sequences. rewrite (has_tree_length _ _ _ _ Hs1 Hlt1), (has_tree_length _ _ _ _ Hs2 Hlt2). rewrite (proj2 (Z.eqb_neq _ _)) by done. cbn.
    by rewrite (has_tree_fun n1 n st _ r1 r Hinv Hs1 Hr). }
  pose proof (has_tree_supports n1 st _ r1 (length (x1 :: items1)) Hs1) as Hsup. rewrite take_ge in Hsup by done.
  destruct (has_tree_tower _ _ _ _ Hs1) as (olds1 & Ht1 & Hr1 & Hl1), (has_tree_tower _ _ _ _ Hs2) as (olds2 & Ht2 & Hr2 & Hl2), Hr as (news & Hb & Hro & Hln).
  destruct (concat_ok Hwin fuel st _ olds1 r1 _ olds2 r2 n1 n r news Ht1 Hr1 Ht2 Hr2 Hinv) as (st' & He & _); try done; [cbn [length] in *; lia|]. by exists st'.
Qed.

End facts.

End EditFacts.
