(* ===== verification/CacheFacts.v ===== *)
(** * Package [types]: what the type cache has done once it does not do again

    Types keep their description, and what the cache has stored for them stays.
    So an operation that succeeded gives the same result in every later state of
    the cache, and leaves that state as it is. *)

From S2P Require Import Prelude GoLib HashPkg Chunks TypesCodec TypesType TypesOids TypesValue TypesIntern RollingHash Sequences.
Import Hash Chunks Float64 NumberUtil Codec NomsKinds TypeCache Values Sequences.
Import OidFacts.

Module CacheFacts.

(** ** Later states *)

(** A type is in the trie of its kind. *)
Definition in_trie (w : world) (key : trie) (p : ptr) : Prop := exists k, key.1 = kind_code k /\ Kind w p = Ok k.
Record keeps (w w' : world) : Prop := MkKeeps {
  ke_heap : forall p T, heap w !! p = Some T -> exists T', heap w' !! p = Some T' /\ Desc T' = Desc T /\ id T' = id T /\ stays (oid T) (oid T') /\ stays (serialization T) (serialization T');
  ke_tries : tries w ⊆ tries w';
  ke_new : forall key p, tries w' !! key = Some p -> tries w !! key = Some p \/ in_trie w' key p
}.
(** The bytes that [Type_Hash] hashes. *)
Definition digest (t : ptr) (w : world) : outcome (list byte * world) :=
  let! (b, w) := appendType TypeType (newBinaryNomsWriter, w) in
  let! b := writeType (type_fuel w) w t [] b in
  let! d := data b in
  Ok (d, w).
(** A hash stays, or is computed. *)
Definition hash_stays (w' : world) (p : ptr) (h h' : Hash) : Prop :=
  h' = h \/ (IsEmpty h = true /\ exists d w0 w1, digest p w0 = Ok (d, w1) /\ keeps w1 w' /\ h' = Of d).
Record later (w w' : world) : Prop := MkLater {
  la_keeps : keeps w w';
  la_hash : forall p T T', heap w !! p = Some T -> heap w' !! p = Some T' -> hash_stays w' p (t_h T) (t_h T')
}.

Lemma keeps_refl w : keeps w w.
Proof. split; [|done|by left]. intros p T HT. exists T. by split_and!. Qed.
Lemma keeps_trans w1 w2 w3 : keeps w1 w2 -> keeps w2 w3 -> keeps w1 w3.
Proof.
  intros [Hh Ht Hn] [Hh' Ht' Hn']. split; [|by etransitivity|].
  - intros p T (T' & HT' & HD & Hi & Ho & Hs)%Hh. destruct (Hh' p T' HT') as (T'' & HT'' & HD' & Hi' & Ho' & Hs').
    exists T''. split_and!; [done|congruence|congruence|intros o ?; auto|intros s ?; auto].
  - intros key p [[Hp|(k & Hk & HK)]%Hn|Hp]%Hn'; [by left| |by right]. right. exists k. split; [done|]. unfold Kind, get_type in *. destruct (heap w2 !! p) as [T|] eqn:HT; [|done].
    destruct (Hh' p T HT) as (T' & -> & HD & _). cbn [obind] in *. by rewrite HD.
Qed.
Lemma later_refl w : later w w.
Proof. split; [apply keeps_refl|]. intros p T T' HT HT'. left. congruence. Qed.
Lemma later_trans w1 w2 w3 : later w1 w2 -> later w2 w3 -> later w1 w3.
Proof.
  intros [Hk Hh] [Hk' Hh']. split; [by eapply keeps_trans|]. intros p T T'' HT HT''. destruct (ke_heap _ _ Hk p T HT) as (T' & HT' & _).
  destruct (Hh p T T' HT HT') as [He|(Hemp & d & u & v & Hd & Hkv & He)], (Hh' p T' T'' HT' HT'') as [He'|(Hemp' & d' & u' & v' & Hd' & Hkv' & He')].
  - left. congruence.
  - right. split; [congruence|]. by exists d', u', v'.
  - right. split; [done|]. exists d, u, v. split_and!; [done|by eapply keeps_trans|congruence].
  - right. split; [done|]. by exists d', u', v'.
Qed.
(** A type changes in what was not there yet. *)
Lemma set_later w t T T' : heap w !! t = Some T -> Desc T' = Desc T -> id T' = id T -> stays (oid T) (oid T') -> stays (serialization T) (serialization T') ->
  hash_stays (set_type w t T') t (t_h T) (t_h T') -> later w (set_type w t T').
Proof.
  intros HT HD Hi Ho Hs Hh. pose proof (lookup_lt_Some _ _ _ HT) as Hlt. split.
  - split; [|done|by left]. intros p U HU. cbn. destruct (decide (p = t)) as [->|Hne].
    + exists T'. rewrite list_lookup_insert_eq by done. rewrite HT in HU. injection HU as <-. by split_and!.
    + exists U. rewrite list_lookup_insert_ne by done. by split_and!.
  - intros p U U' HU HU'. cbn in HU'. destruct (decide (p = t)) as [->|Hne].
    + rewrite list_lookup_insert_eq in HU' by done. simplify_eq. done.
    + rewrite list_lookup_insert_ne in HU' by done. left. congruence.
Qed.
Lemma set_same w t T : heap w !! t = Some T -> set_type w t T = w.
Proof. intros HT. unfold set_type, set_heap. rewrite list_insert_id by done. by destruct w. Qed.

Lemma get_keeps w w' t T : keeps w w' -> get_type w t = Ok T -> exists T', get_type w' t = Ok T' /\ Desc T' = Desc T /\ id T' = id T /\ stays (oid T) (oid T') /\ stays (serialization T) (serialization T').
Proof.
  unfold get_type. intros Hk HT. destruct (heap w !! t) as [U|] eqn:HU; [|done]. injection HT as ->. destruct (ke_heap _ _ Hk t T HU) as (T' & -> & ?). by exists T'.
Qed.
Lemma keeps_length w w' : keeps w w' -> (length (heap w) <= length (heap w'))%nat.
Proof.
  intros Hk. destruct (decide (length (heap w) = 0)%nat) as [|Hne]; [lia|]. destruct (lookup_lt_is_Some_2 (heap w) (pred (length (heap w))) ltac:(lia)) as [T HT].
  destruct (ke_heap _ _ Hk _ _ HT) as (T' & HT'%lookup_lt_Some & _). lia.
Qed.
Lemma keeps_fuel w w' : keeps w w' -> (type_fuel w <= type_fuel w')%nat.
Proof. intros Hk%keeps_length. unfold type_fuel. nia. Qed.
Lemma Kind_keeps w w' t k : keeps w w' -> Kind w t = Ok k -> Kind w' t = Ok k.
Proof.
  intros Hk. unfold Kind. destruct (get_type w t) as [T|] eqn:HT; [|done]. destruct (get_keeps _ _ _ _ Hk HT) as (T' & -> & HD & _). cbn [obind]. by rewrite HD.
Qed.

(** ** The operations of the cache *)

Lemma fold_w_impl {A S} (f g : A -> S -> outcome S) l : (forall a s s', f a s = Ok s' -> g a s = Ok s') -> forall s s', fold_w f l s = Ok s' -> fold_w g l s = Ok s'.
Proof.
  intros Hfg. induction l as [|a l IH]; intros s s'; cbn [fold_w]; [done|]. destruct (f a s) as [s1|] eqn:Hf; [|done]. rewrite (Hfg a s s1 Hf). apply IH.
Qed.
Lemma writeType_keeps {W} `{nomsWriter W} w w2 : keeps w w2 -> forall fuel fuel2 t ps (b b' : W), (fuel <= fuel2)%nat -> writeType fuel w t ps b = Ok b' -> writeType fuel2 w2 t ps b = Ok b'.
Proof.
  intros Hk. induction fuel as [|fuel IH]; intros [|fuel2] t ps b b' Hle; cbn [writeType]; [done|done|lia|]. destruct (get_type w t) as [T|] eqn:HT; [|done].
  destruct (get_keeps _ _ _ _ Hk HT) as (T' & -> & HD & _). cbn [obind]. rewrite HD.
  assert (forall ps e (b b' : W), writeType fuel w e ps b = Ok b' -> writeType fuel2 w2 e ps b = Ok b') as IH' by (intros; apply IH; [lia|done]).
  destruct (Desc T) as [k|k es|name fs|i]; [done| | |done].
  - destruct k; try done; (destruct (writeKind b _) as [b1|]; [|done]); cbn [obind]; try (destruct (nw_writeUint32 b1 _) as [b2|]; [|done]; cbn [obind]); apply fold_w_impl; intros e s s'; apply IH'.
  - destruct (indexOfType t ps); [done|]. destruct (writeKind b StructKind) as [b1|]; [|done]. cbn [obind]. destruct (nw_writeString b1 name) as [b2|]; [|done]. cbn [obind].
    destruct (nw_writeUint32 b2 _) as [b3|]; [|done]. cbn [obind]. apply fold_w_impl. intros f s s'. destruct (nw_writeString s f.1) as [s1|]; [|done]. cbn [obind]. apply IH'.
Qed.

(** An operation gives the same result later, and nothing changes. *)
Definition replays {A} (f : world -> outcome (A * world)) : Prop :=
  forall w a w', f w = Ok (a, w') -> later w w' /\ forall w2, later w' w2 -> f w2 = Ok (a, w2).
(** Reading the cache. *)
Definition rereads {A} (f : world -> outcome A) : Prop := forall w a w2, f w = Ok a -> later w w2 -> f w2 = Ok a.

Lemma replays_ret {A} (a : A) : replays (fun w => Ok (a, w)).
Proof. intros w a' w' [= <- <-]. split; [apply later_refl|done]. Qed.
Lemma replays_bind {A B} f (g : A -> world -> outcome (B * world)) : replays f -> (forall a, replays (g a)) -> replays (fun w => let! (a, w) := f w in g a w).
Proof.
  intros Hf Hg w b w2. destruct (f w) as [[a w1]|] eqn:Hfw; [|done]. cbn [obind]. intros Hgw. destruct (Hf _ _ _ Hfw) as [Hl1 Hr1]. destruct (Hg _ _ _ _ Hgw) as [Hl2 Hr2].
  split; [by eapply later_trans|]. intros w3 Hl3. rewrite Hr1 by (by eapply later_trans). cbn [obind]. by apply Hr2.
Qed.
Lemma replays_read {A B} f (g : A -> world -> outcome (B * world)) : rereads f -> (forall a, replays (g a)) -> replays (fun w => let! a := f w in g a w).
Proof.
  intros Hf Hg w b w2. destruct (f w) as [a|] eqn:Hfw; [|done]. cbn [obind]. intros Hgw. destruct (Hg _ _ _ _ Hgw) as [Hl2 Hr2]. split; [done|].
  intros w3 Hl3. rewrite (Hf _ _ _ Hfw) by (by eapply later_trans). cbn [obind]. by apply Hr2.
Qed.
Lemma replays_pure {A B} (o : outcome A) (g : A -> world -> outcome (B * world)) : (forall a, o = Ok a -> replays (g a)) -> replays (fun w => let! a := o in g a w).
Proof. intros Hg w b w2. destruct o as [a|]; [|done]. cbn [obind]. by apply Hg. Qed.
Lemma replays_ext {A} (f g : world -> outcome (A * world)) : (forall w, f w = g w) -> replays g -> replays f.
Proof. intros Hfg Hg w a w' Hf. rewrite Hfg in Hf. destruct (Hg _ _ _ Hf) as [Hl Hr]. split; [done|]. intros w2 Hl2. rewrite Hfg. by apply Hr. Qed.
Lemma Kind_rereads t : rereads (fun w => Kind w t).
Proof. intros w k w2 Hk [Hl _]. by eapply Kind_keeps. Qed.

Lemma ensure_replays w t w' : ensureTypeSerialization w t = Ok w' -> later w w' /\ (exists T s, heap w' !! t = Some T /\ serialization T = Some s) /\
  forall w2, keeps w' w2 -> ensureTypeSerialization w2 t = Ok w2.
Proof.
  unfold ensureTypeSerialization. destruct (get_type w t) as [T|] eqn:HT; [|done]. cbn [obind]. apply get_lookup in HT as Hl.
  assert (forall w' T' s, heap w' !! t = Some T' -> serialization T' = Some s -> forall w2, keeps w' w2 ->
    (let! T := get_type w2 t in match serialization T with Some _ => Ok w2 | None => let! b := writeType (type_fuel w2) w2 t [] (MkNomsWriter (make_bytes initialTypeBufferSize) 0) in
      let! s := data b in Ok (set_type w2 t (set_serialization T s)) end) = Ok w2) as Hagain.
  { intros u U s HU Hs w2 Hk. destruct (ke_heap _ _ Hk t U HU) as (T2 & HT2 & _ & _ & _ & Hs2). unfold get_type. rewrite HT2. cbn [obind]. by rewrite (Hs2 s Hs). }
  destruct (serialization T) as [s|] eqn:Es.
  - intros [= <-]. split; [apply later_refl|]. split; [by exists T, s|]. by apply (Hagain w T s).
  - destruct (writeType (type_fuel w) w t [] _) as [b|]; [|done]. cbn [obind]. destruct (data b) as [s|]; [|done]. cbn [obind]. intros [= <-].
    assert (heap (set_type w t (set_serialization T s)) !! t = Some (set_serialization T s)) as HU by (cbn; apply list_lookup_insert_eq; by eapply lookup_lt_Some).
    split; [|split; [by exists (set_serialization T s), s|by apply (Hagain _ (set_serialization T s) s)]]. apply (set_later w t T); try done; [|by left]. cbn. rewrite Es. done.
Qed.
Lemma appendType_replays t (b b' : binaryNomsWriter) w w' : appendType t (b, w) = Ok (b', w') -> later w w' /\ forall w2, keeps w' w2 -> appendType t (b, w2) = Ok (b', w2).
Proof.
  unfold appendType. destruct (ensureTypeSerialization w t) as [w1|] eqn:He; [|done]. cbn [obind]. destruct (ensure_replays _ _ _ He) as (Hl & (T & s & HT & Hs) & Hr).
  unfold get_type. rewrite HT. cbn [obind]. rewrite Hs. destruct (append_data b _) as [b1|] eqn:Hb; [|done]. cbn [obind]. intros [= <- <-]. split; [done|]. intros w2 Hk.
  rewrite Hr by done. cbn [obind]. destruct (ke_heap _ _ Hk t T HT) as (T2 & -> & _ & _ & _ & Hs2). cbn [obind]. by rewrite (Hs2 s Hs), Hb.
Qed.
Lemma digest_replays t w d w' : digest t w = Ok (d, w') -> later w w' /\ forall w2, keeps w' w2 -> digest t w2 = Ok (d, w2).
Proof.
  unfold digest. destruct (appendType TypeType (newBinaryNomsWriter, w)) as [[b w1]|] eqn:Ha; [|done]. cbn [obind]. destruct (appendType_replays _ _ _ _ _ Ha) as [Hl Hr].
  destruct (writeType (type_fuel w1) w1 t [] b) as [b1|] eqn:Hw; [|done]. cbn [obind]. destruct (data b1) as [d1|] eqn:Hd; [|done]. cbn [obind]. intros [= <- <-]. split; [done|]. intros w2 Hk.
  rewrite Hr by done. cbn [obind]. rewrite (writeType_keeps w1 w2 Hk _ _ _ _ _ _ (keeps_fuel _ _ Hk) Hw). cbn [obind]. by rewrite Hd.
Qed.
Lemma Type_Hash_digest t w : Type_Hash t w =
  let! T := get_type w t in
  if IsEmpty (t_h T) then let! (d, w) := digest t w in let! T := get_type w t in Ok (Of d, set_type w t (set_hash T (Of d))) else Ok (t_h T, w).
Proof.
  unfold Type_Hash, digest. destruct (get_type w t) as [T|]; [|done]. cbn [obind]. destruct (IsEmpty (t_h T)); [|done]. destruct (appendType TypeType _) as [[b w1]|]; [|done]. cbn [obind].
  destruct (writeType _ w1 t [] b) as [b1|]; [|done]. cbn [obind]. by destruct (data b1).
Qed.
Lemma Type_Hash_replays t : replays (Type_Hash t).
Proof.
  intros w h w'. rewrite Type_Hash_digest. destruct (get_type w t) as [T|] eqn:HT; [|done]. apply get_lookup in HT. cbn [obind]. destruct (IsEmpty (t_h T)) eqn:He.
  - destruct (digest t w) as [[d w1]|] eqn:Hd; [|done]. cbn [obind]. destruct (digest_replays _ _ _ _ Hd) as [Hl1 Hr1].
    destruct (ke_heap _ _ (la_keeps _ _ Hl1) t T HT) as (T1 & HT1 & HD & Hi & Ho & Hs). unfold get_type at 1. rewrite HT1. cbn [obind]. intros [= <- <-].
    set (w' := set_type w1 t (set_hash T1 (Of d))). assert (keeps w1 w') as Hk1.
    { split; [|done|by left]. intros p U HU. cbn. pose proof (lookup_lt_Some _ _ _ HT1). destruct (decide (p = t)) as [->|Hne].
      - rewrite list_lookup_insert_eq by done. simplify_eq. eexists. split; [done|]. by split_and!.
      - rewrite list_lookup_insert_ne by done. exists U. by split_and!. }
    assert (heap w' !! t = Some (set_hash T1 (Of d))) as HT' by (cbn; apply list_lookup_insert_eq; by eapply lookup_lt_Some). split.
    + split; [by apply (keeps_trans w w1); [apply Hl1|]|]. intros p U U' HU HU'. destruct (decide (p = t)) as [->|Hne].
      * rewrite HT' in HU'. simplify_eq. right. split; [done|]. by exists d, w, w1.
      * cbn in HU'. rewrite list_lookup_insert_ne in HU' by done. destruct (la_hash _ _ Hl1 p U U' HU HU') as [?|(? & d' & u & v & Hd' & Hkv & ?)]; [by left|right]. split; [done|]. exists d', u, v.
        split_and!; [done|by eapply keeps_trans|done].
    + intros w2 Hl2. rewrite Type_Hash_digest. destruct (ke_heap _ _ (la_keeps _ _ Hl2) t _ HT') as (T2 & HT2 & _). unfold get_type at 1. rewrite HT2. cbn [obind].
      assert (digest t w2 = Ok (d, w2)) as Hd2 by (apply Hr1, (keeps_trans w1 w'); [done|apply Hl2]).
      assert (t_h T2 = Of d) as Hh.
      { destruct (la_hash _ _ Hl2 t _ T2 HT' HT2) as [?|(_ & d' & u & v & Hd' & Hkv & ->)]; [done|]. destruct (digest_replays _ _ _ _ Hd') as [_ Hr']. rewrite Hr' in Hd2 by done. by injection Hd2 as ->. }
      rewrite Hh. destruct (IsEmpty (Of d)); [|done]. rewrite Hd2. cbn [obind]. unfold get_type. rewrite HT2. cbn [obind]. do 2 f_equal. apply set_same. rewrite HT2. f_equal. destruct T2. cbn in *. by subst.
  - intros [= <- <-]. split; [apply later_refl|]. intros w2 Hl2. rewrite Type_Hash_digest. destruct (ke_heap _ _ (la_keeps _ _ Hl2) t _ HT) as (T2 & HT2 & _). unfold get_type. rewrite HT2. cbn [obind].
    destruct (la_hash _ _ Hl2 t _ T2 HT HT2) as [->|(Hemp & _)]; [by rewrite He|congruence].
Qed.

Lemma traverse_keeps w w2 ts : keeps w w2 -> forall tct tct', traverse_ids w tct ts = Ok tct' -> traverse_ids w2 tct ts = Ok tct'.
Proof.
  intros Hk. induction ts as [|t ts IH]; intros tct tct'; cbn [traverse_ids]; [done|]. unfold type_id. destruct (get_type w t) as [T|] eqn:HT; [|done].
  destruct (get_keeps _ _ _ _ Hk HT) as (T' & -> & _ & Hi & _). cbn [obind]. rewrite Hi. apply IH.
Qed.
Lemma traverse_root w ts : forall tct tct', traverse_ids w tct ts = Ok tct' -> tct'.1 = tct.1.
Proof.
  induction ts as [|t ts IH]; intros tct tct'; cbn [traverse_ids]; [by intros [= <-]|]. destruct (type_id w t) as [i|]; [|done]. cbn [obind]. intros Ht. by rewrite (IH _ _ Ht).
Qed.
Lemma getCompoundType_replays k es : replays (getCompoundType k es).
Proof.
  intros w p w'. unfold getCompoundType. destruct (traverse_ids w (root_trie k) es) as [tct|] eqn:Ht; [|done]. cbn [obind]. unfold trie_t.
  assert (forall u, tries u !! tct = Some p -> keeps w u -> forall w2, later u w2 -> (let! tct := traverse_ids w2 (root_trie k) es in match tries w2 !! tct with Some t => Ok (t, w2) | None =>
    let '(t, w) := newType_next (CompoundDesc k es) w2 in Ok (t, set_trie w tct t) end) = Ok (p, w2)) as Hagain.
  { intros u Hu Hku w2 [Hk2 _]. rewrite (traverse_keeps w w2 es (keeps_trans _ _ _ Hku Hk2) _ _ Ht). cbn [obind]. by rewrite (lookup_weaken _ _ _ _ Hu (ke_tries _ _ Hk2)). }
  destruct (tries w !! tct) as [q|] eqn:Hq.
  - intros [= <- <-]. split; [apply later_refl|]. apply (Hagain w Hq (keeps_refl w)).
  - unfold newType_next, nextTypeId, newType. cbn. intros [= <- <-]. match goal with |- later w ?u /\ _ => set (w' := u) end.
    assert (later w w') as Hl.
    { split.
      - split; [|by apply insert_subseteq|].
        + intros r T HT. exists T. cbn. rewrite lookup_app_l by (by eapply lookup_lt_Some). by split_and!.
        + intros key r. cbn. intros [[<- <-]|[_ Hr]]%lookup_insert_Some; [right|by left]. exists k. split; [exact (traverse_root _ _ _ _ Ht)|].
          unfold Kind, get_type. cbn. by rewrite list_lookup_middle.
      - intros r T T' HT HT'. cbn in HT'. rewrite lookup_app_l in HT' by (by eapply lookup_lt_Some). left. congruence. }
    split; [done|]. apply (Hagain w'); [by apply lookup_insert_eq|apply Hl].
Qed.

(** The types of the package variables and of the tries have their kinds. *)
Record typed (w : world) : Prop := MkTyped {
  ty_prims : forall k p, MakePrimitiveType k = Ok p -> Kind w p = Ok k;
  ty_tries : forall key p, tries w !! key = Some p -> in_trie w key p
}.
Lemma typed_later w w' : later w w' -> typed w -> typed w'.
Proof.
  intros [Hk _] [Hp Ht]. split; [intros k p ?%Hp; by eapply Kind_keeps|]. intros key p [(k & ? & ?)%Ht|?]%(ke_new _ _ Hk); [|done]. exists k. split; [done|by eapply Kind_keeps].
Qed.
Lemma compound_kind k es w p w' : typed w -> getCompoundType k es w = Ok (p, w') -> Kind w' p = Ok k.
Proof.
  intros Hw Hg. assert (typed w') as [_ Ht] by (apply (typed_later w); [by apply (getCompoundType_replays k es w p)|done]).
  unfold getCompoundType in Hg. destruct (traverse_ids w (root_trie k) es) as [tct|] eqn:Hi; [|done]. cbn [obind] in Hg. apply traverse_root in Hi. cbn in Hi.
  assert (tries w' !! tct = Some p) as (k' & Hk & HK)%Ht; [|rewrite Hi in Hk; by apply InternFacts.kind_code_inj in Hk as ->].
  unfold trie_t in Hg. destruct (tries w !! tct) eqn:Hq; [by injection Hg as <- <-|]. unfold newType_next, nextTypeId, newType in Hg. cbn in Hg. injection Hg as <- <-. apply lookup_insert_eq.
Qed.
Lemma world_typed w : world_ok w -> typed w.
Proof.
  intros Hw. split.
  - intros k p (T & HT & HD & _)%(wo_prims w Hw). unfold Kind, get_type. rewrite HT. cbn [obind]. by rewrite HD.
  - intros key p (T & HT & _ & Hm)%(wo_tries w Hw). unfold in_trie, Kind, get_type. rewrite HT. cbn [obind]. exists (desc_Kind (Desc T)). split; [|done].
    destruct (Desc T) as [k|k es|name fs|i]; [done|by destruct Hm|by destruct Hm|done].
Qed.

Lemma same_oids_later w w' : same_but_oids w w' -> later w w'.
Proof.
  intros [Hh _ Ht _]. split; [split; [|by rewrite Ht|rewrite Ht; by left]|].
  - intros p T (T' & HT' & HD & Hh1 & Hi & Hs & Ho)%Hh. exists T'. split_and!; try done. by rewrite Hs.
  - intros p T T' (T2 & HT2 & _ & Hh1 & _)%Hh HT'. left. congruence.
Qed.
Lemma generateOID_replays t allow w w' : generateOID t allow w = Ok w' -> later w w' /\ forall w2, later w' w2 -> generateOID t allow w2 = Ok w2.
Proof.
  unfold generateOID. destruct (get_type w t) as [T|] eqn:HT; [|done]. apply get_lookup in HT. cbn [obind].
  assert (forall u U o, heap u !! t = Some U -> oid U = Some o -> forall w2, later u w2 -> (let! T := get_type w2 t in match oid T with Some _ => Ok w2 | None =>
    let! (buf, w) := encodeForOID (type_fuel w2) t allow t [] (newBinaryNomsWriter, w2) in let! d := data buf in let! T := get_type w t in Ok (set_type w t (set_oid T (Of d))) end) = Ok w2) as Hagain.
  { intros u U o HU Ho w2 [Hk _]. destruct (ke_heap _ _ Hk t U HU) as (T2 & HT2 & _ & _ & Ho2 & _). unfold get_type at 1. rewrite HT2. cbn [obind]. by rewrite (Ho2 o Ho). }
  destruct (oid T) as [o|] eqn:Ho; [intros [= <-]; split; [apply later_refl|by apply (Hagain w T o)]|].
  destruct (encodeForOID _ t _ _ _ _) as [[b w1]|] eqn:He; [|done]. apply encodeForOID_same in He. cbn [obind snd] in *. destruct (data b) as [d|]; [|done]. cbn [obind].
  destruct (get_type w1 t) as [T1|] eqn:HT1; [|done]. apply get_lookup in HT1. cbn [obind]. intros [= <-]. split.
  - apply same_oids_later. by apply (set_oid_same w w1 t T T1).
  - apply (Hagain _ (set_oid T1 (Of d)) (Of d)); [|done]. cbn. apply list_lookup_insert_eq. by eapply lookup_lt_Some.
Qed.

(** Loops over operations that replay; the second run may be another function. *)
Definition sreplays {A B S} (f g : A -> S * world -> outcome (B * (S * world))) (a : A) : Prop :=
  forall s w b s' w', f a (s, w) = Ok (b, (s', w')) -> later w w' /\ forall w2, later w' w2 -> g a (s, w2) = Ok (b, (s', w2)).
Lemma map_w_replays {A B S} (f g : A -> S * world -> outcome (B * (S * world))) l : Forall (sreplays f g) l ->
  forall s w bs s' w', map_w f l (s, w) = Ok (bs, (s', w')) -> later w w' /\ forall w2, later w' w2 -> map_w g l (s, w2) = Ok (bs, (s', w2)).
Proof.
  induction 1 as [|a l Ha _ IH]; intros s w bs s' w'; cbn [map_w]; [intros [= <- <- <-]; split; [apply later_refl|done]|].
  destruct (f a (s, w)) as [[b [s1 w1]]|] eqn:Hf; [|done]. cbn [obind]. destruct (map_w f l (s1, w1)) as [[bs1 [s2 w2]]|] eqn:Hm; [|done]. cbn [obind]. intros [= <- <- <-].
  destruct (Ha _ _ _ _ _ Hf) as [Hl1 Hr1]. destruct (IH _ _ _ _ _ Hm) as [Hl2 Hr2]. split; [by eapply later_trans|]. intros w3 Hl3.
  rewrite Hr1 by (by eapply later_trans). cbn [obind]. by rewrite Hr2.
Qed.
Lemma fold_replays {A} (f : A -> world -> outcome world) l : (forall a w w', f a w = Ok w' -> later w w' /\ forall w2, later w' w2 -> f a w2 = Ok w2) ->
  forall w w', fold_w f l w = Ok w' -> later w w' /\ forall w2, later w' w2 -> fold_w f l w2 = Ok w2.
Proof.
  intros Hf. induction l as [|a l IH]; intros w w'; cbn [fold_w]; [intros [= <-]; split; [apply later_refl|done]|]. destruct (f a w) as [w1|] eqn:Ha; [|done]. cbn [obind]. intros Hl.
  destruct (Hf _ _ _ Ha) as [Hl1 Hr1]. destruct (IH _ _ Hl) as [Hl2 Hr2]. split; [by eapply later_trans|]. intros w2 Hl3. rewrite Hr1 by (by eapply later_trans). cbn [obind]. by apply Hr2.
Qed.
Lemma flatten_replays fuel : forall fuel2 ts seen w r seen' w', (fuel <= fuel2)%nat -> flattenUnionTypes fuel ts seen w = Ok (r, (seen', w')) ->
  later w w' /\ forall w2, later w' w2 -> flattenUnionTypes fuel2 ts seen w2 = Ok (r, (seen', w2)).
Proof.
  induction fuel as [|fuel IH]; intros [|fuel2] ts seen w r seen' w' Hle; cbn [flattenUnionTypes]; [done|done|lia|].
  destruct (map_w _ ts _) as [[tss [s1 w1]]|] eqn:Hm; [|done]. cbn [obind]. intros [= <- <- <-]. eapply map_w_replays in Hm as [Hl Hr]; [split; [exact Hl|]; intros w2 Hl2; by rewrite Hr|].
  apply Forall_forall. intros t _ s u b s' u'. destruct (get_type u t) as [T|] eqn:HT; [|done]. cbn [obind].
  assert (forall v, later u v -> exists T', get_type v t = Ok T' /\ Desc T' = Desc T) as Hget by (intros v [Hk _]; destruct (get_keeps _ _ _ _ Hk HT) as (T' & ? & ? & _); by exists T').
  assert (forall o, (let! (h, v) := Type_Hash t u in if bool_decide (h ∈ s) then Ok ([], (s, v)) else Ok ([t], ({[h]} ∪ s, v))) = o -> o = Ok (b, (s', u')) -> later u u' /\ forall w2, later u' w2 ->
    (let! (h, v) := Type_Hash t w2 in if bool_decide (h ∈ s) then Ok ([], (s, v)) else Ok ([t], ({[h]} ∪ s, v))) = Ok (b, (s', w2))) as Hhash.
  { intros o <-. destruct (Type_Hash t u) as [[h u1]|] eqn:Hh; [|done]. cbn [obind]. destruct (Type_Hash_replays _ _ _ _ Hh) as [Hl Hr].
    case_bool_decide; intros [= <- <- <-]; (split; [done|]); intros w2 Hl2; rewrite Hr by done; cbn [obind]; [by rewrite bool_decide_eq_true_2|by rewrite bool_decide_eq_false_2]. }
  destruct (Desc T) as [k|k es|name fs|i] eqn:HD; [| destruct k | |];
    try (intros Hrun; destruct (Hhash _ eq_refl Hrun) as [Hl Hr]; split; [exact Hl|]; intros w2 Hl2; destruct (Hget w2 ltac:(by eapply later_trans)) as (T' & -> & HD'); cbn [obind]; rewrite HD'; by apply Hr).
  intros Hrun. destruct (IH fuel2 _ _ _ _ _ _ ltac:(lia) Hrun) as [Hl Hr]. split; [exact Hl|]. intros w2 Hl2. destruct (Hget w2 ltac:(by eapply later_trans)) as (T' & -> & HD'). cbn [obind]. rewrite HD'. by apply Hr.
Qed.
Lemma oid_rereads t : rereads (fun w => oid_of w t).
Proof.
  intros w o w2. unfold oid_of. destruct (get_type w t) as [T|] eqn:HT; [|done]. cbn [obind]. intros Ho [Hk _]. destruct (get_keeps _ _ _ _ Hk HT) as (T' & -> & _ & _ & Hs & _). cbn [obind].
  destruct (oid T) as [o'|]; [|done]. injection Ho as ->. by rewrite (Hs o eq_refl).
Qed.
Lemma sort_rereads `{GoSort} ts : rereads (fun w => sort_types w ts).
Proof.
  intros w r w2 Hs Hl. unfold sort_types in *. destruct (Nat.ltb (length ts) 2); [done|].
  assert (forall l os, map_w (fun t _ => let! o := oid_of w t in Ok ((o, t), tt)) l tt = Ok os -> map_w (fun t _ => let! o := oid_of w2 t in Ok ((o, t), tt)) l tt = Ok os) as Hm.
  { induction l as [|t l IH]; intros os; cbn [map_w]; [done|]. destruct (oid_of w t) as [o|] eqn:Ho; [|done]. rewrite (oid_rereads t w o w2 Ho Hl). cbn [obind].
    destruct (map_w _ l tt) as [[os1 []]|]; [|done]. by rewrite (IH _ eq_refl). }
  destruct (map_w _ ts tt) as [os|] eqn:Hw; [|done]. by rewrite (Hm _ _ Hw).
Qed.
Lemma makeUnionType_replays `{GoSort} ts : replays (makeUnionType ts).
Proof.
  intros w p w'. unfold makeUnionType. destruct (flattenUnionTypes _ ts ∅ w) as [[us [s w1]]|] eqn:Hf; [|done]. cbn [obind]. intros Hrest.
  assert (replays (fun w => match us with [t] => Ok (t, w) | _ => let! w := fold_w (fun t => generateOID t true) us w in let! ts := sort_types w us in getCompoundType UnionKind ts w end)) as Hr.
  { assert (replays (fun w => let! w := fold_w (fun t => generateOID t true) us w in let! ts := sort_types w us in getCompoundType UnionKind ts w)) as Hg.
    { intros u q u'. destruct (fold_w _ us u) as [u1|] eqn:Hg; [|done]. cbn [obind]. apply fold_replays in Hg as [Hl1 Hr1]; [|intros ? ? ?; apply generateOID_replays]. intros Hg2.
      apply (replays_read _ _ (sort_rereads us) (getCompoundType_replays UnionKind)) in Hg2 as [Hl2 Hr2]. split; [by eapply later_trans|]. intros w2 Hl3. rewrite Hr1 by (by eapply later_trans). cbn [obind]. by apply Hr2. }
    destruct us as [|t [|t' us]]; [exact Hg|apply replays_ret|exact Hg]. }
  destruct (Hr _ _ _ Hrest) as [Hl2 Hr2]. destruct (flatten_replays _ _ _ _ _ _ _ _ (le_n _) Hf) as [Hl1 _]. split; [by eapply later_trans|]. intros w2 Hl3.
  assert (later w w2) as [Hk _] by (eapply later_trans; [exact Hl1|by eapply later_trans]).
  destruct (flatten_replays _ (type_fuel w2) _ _ _ _ _ _ (keeps_fuel _ _ Hk) Hf) as [_ Hr1]. rewrite Hr1 by (by eapply later_trans). cbn [obind]. by apply Hr2.
Qed.

(** ** Encoding values *)

Section unfold.
Context {W : Type} `{nomsWriter W, typeWriter W}.
(** What [writeValue] writes behind the type. *)
Definition write_rest (vw : bool) (v : Value) (k : NomsKind) (w : valueEncoder W) : outcome (valueEncoder W) :=
  match k, v with
  | BlobKind, Blob (metaSequence _ tuples) | ListKind, List (metaSequence _ tuples) | MapKind, Map (metaSequence _ tuples) | SetKind, Set_ (metaSequence _ tuples) =>
      let! w := write_meta true w in write_counted (writeTuple vw) tuples w
  | BlobKind, Blob (blobLeafSequence d) => let! w := write_meta false w in on_writer (fun b => nw_writeBytes b d) w
  | BoolKind, Bool b => on_writer (fun w => nw_writeBool w b) w
  | NumberKind, Number f => if IsNaN f || IsInf f then Panic ExplicitPanic else on_writer (fun b => nw_writeNumber b f) w
  | ListKind, List (listLeafSequence _ values) | SetKind, Set_ (setLeafSequence _ values) =>
      let! w := write_meta false w in write_counted (writeValue vw) values w
  | MapKind, Map (mapLeafSequence _ data) =>
      let! w := write_meta false w in
      write_counted (fun '(key, value) w => let! w := writeValue vw key w in writeValue vw value w) data w
  | RefKind, Ref r => writeRef r w
  | StringKind, String s => on_writer (fun b => nw_writeString b s) w
  | TypeKind, TypeValue t => on_writer (writeType (type_fuel (enc_tc w)) (enc_tc w) t []) w
  | StructKind, Struct values _ => fold_w (writeValue vw) values w
  | (CycleKind | UnionKind | ValueKind), _ => Panic AssertFailed
  | _, _ => Panic ExplicitPanic
  end.
Lemma writeValue_eq vw v w : writeValue vw v w = let! w := enc_appendType (Type_of v) w in let! k := Kind (enc_tc w) (Type_of v) in write_rest vw v k w.
Proof.
  assert (forall (o : outcome (valueEncoder W)) (f g : valueEncoder W -> outcome (valueEncoder W)), (forall w, f w = g w) -> (let! w := o in f w) = (let! w := o in g w)) as Hext by (intros [w'|] f g Hfg; [apply Hfg|done]).
  destruct v; cbn [writeValue]; apply Hext; intros w1; (destruct (Kind (enc_tc w1) _) as [k|]; [|done]); cbn [obind]; destruct k; try reflexivity; match goal with seq : sequence |- _ => by destruct seq end.
Qed.
End unfold.

(** Induction over values: what holds for the parts holds for the whole. *)
Section value_ind.
Context (P : Value -> Prop) (Q : metaTuple -> Prop).

Definition parts (v : Value) : Prop :=
  match v with
  | Blob seq | List seq | Map seq | Set_ seq =>
      match seq with
      | blobLeafSequence _ => True
      | listLeafSequence _ values => Forall P values
      | setLeafSequence _ data => Forall P data
      | mapLeafSequence _ data => Forall (fun e => P e.1 /\ P e.2) data
      | metaSequence _ tuples => Forall Q tuples
      end
  | Struct values _ => Forall P values
  | _ => True
  end.
Definition tuple_parts (mt : metaTuple) : Prop := match mt with MkMetaTuple _ (MkKey _ (Some v) _) _ _ => P v | _ => True end.
Context (HP : forall v, parts v -> P v) (HQ : forall mt, tuple_parts mt -> Q mt).

Fixpoint value_parts (v : Value) : P v
with meta_parts (mt : metaTuple) : Q mt.
Proof.
  - apply HP. destruct v as [b|f|s|seq|seq|seq|seq|values t|r|t]; cbn [parts]; try exact I.
    1-4: destruct seq as [d|t values|t data|t data|t tuples]; [exact I| | | |];
      [induction values as [|v values IH]; constructor; [apply value_parts|exact IH]
      |induction data as [|v data IH]; constructor; [apply value_parts|exact IH]
      |induction data as [|e data IH]; constructor; [split; apply value_parts|exact IH]
      |induction tuples as [|mt tuples IH]; constructor; [apply meta_parts|exact IH]].
    induction values as [|v values IH]; constructor; [apply value_parts|exact IH].
  - apply HQ. destruct mt as [ref [by_value [v|] h] n child]; cbn [tuple_parts]; [apply value_parts|exact I].
Qed.
End value_ind.

Lemma constructRef_rereads t h n : rereads (fun w => constructRef w t h n).
Proof.
  intros w r w2. unfold constructRef. destruct (get_type w t) as [T|] eqn:HT; [|done]. cbn [obind]. intros Hr [Hk _]. destruct (get_keeps _ _ _ _ Hk HT) as (T' & -> & HD & _). cbn [obind]. by rewrite HD.
Qed.
Lemma hash_ref_replays h : replays (fun w => let! (t, w) := MakeRefType BoolType w in let! r := constructRef w t h 0 in Ok (r, w)).
Proof. apply replays_bind; [apply getCompoundType_replays|]. intros t. apply (replays_read (fun w => constructRef w t h 0) (fun r w => Ok (r, w))); [apply constructRef_rereads|apply replays_ret]. Qed.

Section encoders.
Context {W : Type} `{nomsWriter W, typeWriter W}.
Definition ereplays (f : valueEncoder W -> outcome (valueEncoder W)) : Prop :=
  forall b w lg e', f (MkEncoder b w lg) = Ok e' -> later w (enc_tc e') /\ forall w2, later (enc_tc e') w2 -> f (MkEncoder b w2 lg) = Ok (MkEncoder (enc_w e') w2 (enc_log e')).
Context (Happ : forall t, ereplays (enc_appendType t)).

Lemma ereplays_bind f g : ereplays f -> ereplays g -> ereplays (fun e => let! e := f e in g e).
Proof.
  intros Hf Hg b w lg e'. destruct (f _) as [[b1 w1 lg1]|] eqn:Hfe; [|done]. cbn [obind]. intros Hge. destruct (Hf _ _ _ _ Hfe) as [Hl1 Hr1]. cbn [enc_w enc_tc enc_log] in *.
  destruct (Hg _ _ _ _ Hge) as [Hl2 Hr2]. split; [by eapply later_trans|]. intros w2 Hl. rewrite Hr1 by (by eapply later_trans). cbn [obind]. by apply Hr2.
Qed.
Lemma ereplays_writer f : ereplays (on_writer f).
Proof. intros b w lg e'. unfold on_writer. cbn [enc_w enc_tc enc_log]. destruct (f b); [|done]. cbn [obind]. intros [= <-]. split; [apply later_refl|done]. Qed.
Lemma ereplays_kind t g : (forall k, ereplays (g k)) -> ereplays (fun e => let! k := Kind (enc_tc e) t in g k e).
Proof.
  intros Hg b w lg e'. cbn [enc_tc]. destruct (Kind w t) as [k|] eqn:Hk; [|done]. cbn [obind]. intros Hge. destruct (Hg _ _ _ _ _ Hge) as [Hl Hr]. split; [done|]. intros w2 Hl2.
  rewrite (Kind_rereads t w k w2 Hk) by (by eapply later_trans). cbn [obind]. by apply Hr.
Qed.
Lemma ereplays_panic p : ereplays (fun _ => Panic p).
Proof. by intros b w lg e'. Qed.
Lemma ereplays_fold {A} (f : A -> valueEncoder W -> outcome (valueEncoder W)) l : Forall (fun a => ereplays (f a)) l -> ereplays (fold_w f l).
Proof.
  induction 1 as [|a l Ha _ IH]; cbn [fold_w]; [|by apply ereplays_bind]. intros b w lg e' [= <-]. split; [apply later_refl|done].
Qed.
Lemma ereplays_counted {A} (f : A -> valueEncoder W -> outcome (valueEncoder W)) l : Forall (fun a => ereplays (f a)) l -> ereplays (write_counted f l).
Proof. intros Hf. unfold write_counted. by apply ereplays_bind; [apply ereplays_writer|apply ereplays_fold]. Qed.
Lemma ereplays_meta m f : ereplays f -> ereplays (fun e => let! e := write_meta m e in f e).
Proof. intros Hf. apply ereplays_bind; [apply ereplays_writer|done]. Qed.
Lemma writeType_ereplays t : ereplays (fun e => on_writer (writeType (type_fuel (enc_tc e)) (enc_tc e) t []) e).
Proof.
  intros b w lg e'. unfold on_writer. cbn [enc_w enc_tc enc_log]. destruct (writeType _ w t [] b) as [b'|] eqn:Hw; [|done]. cbn [obind]. intros [= <-]. cbn [enc_tc enc_w enc_log]. split; [apply later_refl|].
  intros w2 [Hk _]. by rewrite (writeType_keeps w w2 Hk _ _ _ _ _ _ (keeps_fuel _ _ Hk) Hw).
Qed.
Lemma writeRefValue_ereplays r : ereplays (writeRefValue r).
Proof.
  apply ereplays_bind; [apply Happ|]. apply (ereplays_kind (ref_t r) (fun k e => match k with RefKind => writeRef r e | _ => Panic ExplicitPanic end)).
  intros []; try apply ereplays_panic. apply ereplays_bind; apply ereplays_writer.
Qed.

Lemma hash_key_ereplays h g : (forall r, ereplays (g r)) -> ereplays (fun e => let! (r, e) := hash_key h e in g r e).
Proof.
  intros Hg b w lg e'. unfold hash_key. cbn [enc_tc enc_w enc_log]. destruct (check _); [|done]. cbn [obind].
  destruct (MakeRefType BoolType w) as [[t w1]|] eqn:Ht; [|done]. cbn [obind]. destruct (constructRef w1 t h 0) as [r|] eqn:Hr; [|done]. cbn [obind]. intros Hge.
  destruct (Hg _ _ _ _ _ Hge) as [Hl2 Hr2]. destruct (hash_ref_replays h w r w1) as [Hl1 Hr1]; [by rewrite Ht; cbn [obind]; rewrite Hr|].
  split; [by eapply later_trans|]. intros w2 Hl. specialize (Hr1 w2 ltac:(by eapply later_trans)). destruct (MakeRefType BoolType w2) as [[t2 w3]|]; [|done]. cbn [obind] in *.
  destruct (constructRef w3 t2 h 0) as [r2|]; [|done]. cbn [obind] in *. injection Hr1 as -> ->. by apply Hr2.
Qed.
Lemma ereplays_ext f g : (forall e, f e = g e) -> ereplays g -> ereplays f.
Proof. intros Hfg Hg b w lg e' He. rewrite Hfg in He. destruct (Hg _ _ _ _ He) as [Hl Hr]. split; [done|]. intros w2 Hl2. rewrite Hfg. by apply Hr. Qed.
Lemma ereplays_log vw child f : ereplays f -> ereplays (fun e => f (log_child vw child e)).
Proof. intros Hf b w lg. unfold log_child. destruct child as [c|]; [destruct vw|]; cbn [enc_w enc_tc enc_log]; apply Hf. Qed.

Lemma writeValue_parts vw v : parts (fun v => ereplays (writeValue vw v)) (fun mt => ereplays (writeTuple vw mt)) v -> ereplays (writeValue vw v).
Proof.
  intros Hv. eapply ereplays_ext; [intros e; apply writeValue_eq|]. apply ereplays_bind; [apply Happ|]. apply (ereplays_kind (Type_of v) (write_rest vw v)). intros k.
  destruct k, v as [b|x|s|[d|t l|t l|t l|t l]|[d|t l|t l|t l|t l]|[d|t l|t l|t l|t l]|[d|t l|t l|t l|t l]|l t|r|t]; try apply ereplays_panic; try apply ereplays_writer; cbn [parts] in Hv;
    try (apply ereplays_meta; first [apply ereplays_writer|by apply ereplays_counted]); try (by apply ereplays_fold).
  - unfold write_rest; destruct (IsNaN x || IsInf x); [apply ereplays_panic|apply ereplays_writer].
  - apply ereplays_meta, ereplays_counted. eapply Forall_impl; [exact Hv|]. intros [a c] [Ha Hc]. by apply ereplays_bind.
  - apply ereplays_bind; apply ereplays_writer.
  - apply writeType_ereplays.
Qed.
Lemma writeTuple_parts vw mt : tuple_parts (fun v => ereplays (writeValue vw v)) mt -> ereplays (writeTuple vw mt).
Proof.
  destruct mt as [ref [by_value v h] n child]. intros Hv.
  apply (ereplays_log vw child (fun e => let! e := writeRefValue ref e in
    let! e := if by_value then match v with Some v => writeValue vw v e | None => Panic NilDereference end else let! (r, e) := hash_key h e in writeRefValue r e in on_writer (fun b => nw_writeUint64 b n) e)).
  apply ereplays_bind; [apply writeRefValue_ereplays|]. apply ereplays_bind; [|apply ereplays_writer]. destruct by_value.
  - destruct v as [v|]; [exact Hv|apply ereplays_panic].
  - apply hash_key_ereplays, writeRefValue_ereplays.
Qed.
Lemma writeValue_ereplays vw v : ereplays (writeValue vw v).
Proof. apply (value_parts (fun v => ereplays (writeValue vw v)) (fun mt => ereplays (writeTuple vw mt))); [apply writeValue_parts|apply writeTuple_parts]. Qed.

End encoders.

Lemma binary_ereplays t : ereplays (W := binaryNomsWriter) (enc_appendType t).
Proof.
  intros b w lg e'. unfold enc_appendType, nw_appendType, binary_typeWriter. cbn [enc_w enc_tc enc_log]. destruct (appendType t (b, w)) as [[b' w']|] eqn:Ha; [|done]. cbn [obind]. intros [= <-].
  destruct (appendType_replays _ _ _ _ _ Ha) as [Hl Hr]. split; [done|]. intros w2 [Hk _]. by rewrite Hr.
Qed.
Lemma EncodeValue_replays vw v : replays (fun w => let! (c, (w, lg)) := EncodeValue vw v w in Ok (c, lg, w)).
Proof.
  intros w [c lg] w'. unfold EncodeValue. destruct (writeValue vw v _) as [e|] eqn:He; [|done]. cbn [obind]. destruct (data (enc_w e)) as [d|] eqn:Hd; [|done]. cbn [obind]. intros [= <- <- <-].
  destruct (writeValue_ereplays binary_ereplays vw v _ _ _ _ He) as [Hl Hr]. split; [done|]. intros w2 Hl2. rewrite Hr by done. cbn [obind enc_w enc_tc enc_log]. by rewrite Hd.
Qed.
Lemma getHash_replays v : replays (getHash v).
Proof.
  assert (replays (fun w => let! (c, (w, _)) := EncodeValue false v w in Ok (ChunkHash c, w))) as He.
  { intros w h w'. destruct (EncodeValue false v w) as [[c [w1 lg]]|] eqn:He; [|done]. cbn [obind]. intros [= <- <-].
    destruct (EncodeValue_replays false v w (c, lg) w1) as [Hl Hr]; [by rewrite He|]. split; [done|]. intros w2 Hl2. specialize (Hr w2 Hl2).
    destruct (EncodeValue false v w2) as [[c2 [w3 lg2]]|]; [|done]. cbn [obind] in *. by injection Hr as -> -> ->. }
  destruct v; try exact He. apply Type_Hash_replays.
Qed.
Lemma newOrderedKey_replays v : replays (newOrderedKey v).
Proof.
  apply (replays_read (fun w => Kind w (Type_of v)) (fun k w => if isKindOrderedByValue k then Ok (MkKey true (Some v) emptyHash, w)
    else let! (h, w) := getHash v w in Ok (MkKey false (Some v) h, w))); [apply Kind_rereads|]. intros k.
  destruct (isKindOrderedByValue k); [apply replays_ret|]. apply replays_bind; [apply getHash_replays|]. intros h. apply replays_ret.
Qed.
Lemma NewRef_replays v : replays (NewRef v).
Proof. apply replays_bind; [apply getHash_replays|]. intros h. apply replays_bind; [apply getCompoundType_replays|]. intros t. apply replays_ret. Qed.

End CacheFacts.
