(* ===== verification/RecordFacts.v ===== *)
(** * Package [types]: the bytes that the rolling hash is fed

    A writer that keeps the bytes it is given stands for the rolling hash: what
    it records of a value is what the hash reads, one byte after the other. *)

From S2P Require Import Prelude GoLib HashPkg TypesCodec TypesType TypesValue TypesIntern RollingHash Sequences CacheFacts.
Import Hash Float64 NumberUtil Codec NomsKinds TypeCache Values Rolling Sequences.
Import FloatFacts CodecFacts CacheFacts.

Module RecordFacts.

Abbreviation recorder := (list byte).
Definition number_record (v : float64) : outcome (list byte) := let! (i, exp) := float64ToIntExp v in Ok (Varint.PutVarint i ++ Varint.PutVarint (s64 exp)).
#[export] Instance record_nomsWriter : nomsWriter recorder := {|
  nw_writeBytes l v := Ok (l ++ v);
  nw_writeUint8 l v := Ok (l ++ [bZ (u8 v)]);
  nw_writeUint32 l v := Ok (l ++ be_put 4 v);
  nw_writeUint64 l v := Ok (l ++ be_put 8 v);
  nw_writeNumber l v := let! bs := number_record v in Ok (l ++ bs);
  nw_writeBool l v := Ok (l ++ [bZ (u8 (if v then 1 else 0))]);
  nw_writeString l v := Ok (l ++ be_put 4 (u32 (Zlength v)) ++ v);
  nw_writeHash l h := Ok (l ++ hash_bytes h)
|}.
#[export] Instance record_typeWriter : typeWriter recorder := fun _ s => Ok s.
(** [HashValue] to the record, and the values one after the other. *)
Definition record_value (v : Value) (s : recorder * world) : outcome (recorder * world) :=
  let '(l, w) := s in
  let! e := writeValue false v (MkEncoder l w []) in
  Ok (enc_w e, enc_tc e).
Definition record (vs : list Value) (w : world) : outcome (recorder * world) := fold_w record_value vs ([], w).

Section records.
Context `{chunkingConfig}.

Lemma rv_writeBytes_app a b rv : rv_writeBytes rv (a ++ b) = let! rv := rv_writeBytes rv a in rv_writeBytes rv b.
Proof.
  unfold rv_writeBytes. revert rv. induction a as [|x a IH]; intros rv; cbn [app fold_w]; [done|]. destruct (HashByte rv x); [|done]. cbn [obind]. apply IH.
Qed.

(** One write: either it fails whatever was written before, or it adds bytes. *)
Definition wrecords (f : rollingValueHasher -> outcome rollingValueHasher) (g : recorder -> outcome recorder) : Prop :=
  (forall l, exists p, g l = Panic p) \/ exists bs, (forall l, g l = Ok (l ++ bs)) /\ forall rv, f rv = rv_writeBytes rv bs.
Lemma wrecords_bytes bs : wrecords (fun rv => rv_writeBytes rv bs) (fun l => Ok (l ++ bs)).
Proof. right. by exists bs. Qed.
Lemma wrecords_bind f f' g g' : wrecords f g -> wrecords f' g' -> wrecords (fun rv => let! rv := f rv in f' rv) (fun l => let! l := g l in g' l).
Proof.
  intros [Hp|(bs & Hg & Hf)]; [left; intros l; destruct (Hp l) as [p ->]; by exists p|]. intros [Hp|(bs' & Hg' & Hf')].
  - left. intros l. rewrite Hg. apply Hp.
  - right. exists (bs ++ bs'). split; [intros l; rewrite Hg; cbn [obind]; by rewrite Hg', app_assoc|]. intros rv. rewrite Hf, rv_writeBytes_app. destruct (rv_writeBytes rv bs); [apply Hf'|done].
Qed.
Lemma wrecords_ret : wrecords Ok Ok.
Proof. right. exists []. split; [intros l; by rewrite app_nil_r|done]. Qed.
Lemma wrecords_panic f p : wrecords f (fun _ => Panic p).
Proof. left. by exists p. Qed.
Lemma wrecords_fold {A} (f : A -> rollingValueHasher -> outcome rollingValueHasher) g l : Forall (fun a => wrecords (f a) (g a)) l -> wrecords (fold_w f l) (fold_w g l).
Proof. induction 1 as [|a l Ha _ IH]; cbn [fold_w]; [apply wrecords_ret|by apply wrecords_bind]. Qed.
Lemma wrecords_ext f f' g : (forall rv, f rv = f' rv) -> wrecords f' g -> wrecords f g.
Proof. intros Hff [Hp|(bs & Hg & Hf)]; [by left|right]. exists bs. split; [done|]. intros rv. by rewrite Hff. Qed.
Lemma rv_one rv b : HashByte rv b = rv_writeBytes rv [b].
Proof. unfold rv_writeBytes. cbn [fold_w]. by destruct (HashByte rv b). Qed.
Lemma wrecords_Uint8 v : wrecords (fun rv => nw_writeUint8 rv v) (fun l => nw_writeUint8 l v).
Proof. eapply wrecords_ext; [intros rv; apply rv_one|apply wrecords_bytes]. Qed.
Lemma wrecords_Bool v : wrecords (fun rv => nw_writeBool rv v) (fun l => nw_writeBool l v).
Proof. eapply wrecords_ext; [|apply wrecords_bytes]. intros rv. destruct v; apply rv_one. Qed.
Lemma wrecords_Uint32 v : wrecords (fun rv => nw_writeUint32 rv v) (fun l => nw_writeUint32 l v).
Proof. apply wrecords_bytes. Qed.
Lemma wrecords_Uint64 v : wrecords (fun rv => nw_writeUint64 rv v) (fun l => nw_writeUint64 l v).
Proof. apply wrecords_bytes. Qed.
Lemma wrecords_Bytes v : wrecords (fun rv => nw_writeBytes rv v) (fun l => nw_writeBytes l v).
Proof. apply wrecords_bytes. Qed.
Lemma wrecords_Hash h : wrecords (fun rv => nw_writeHash rv h) (fun l => nw_writeHash l h).
Proof. apply wrecords_bytes. Qed.
Lemma wrecords_String v : wrecords (fun rv => nw_writeString rv v) (fun l => nw_writeString l v).
Proof. eapply wrecords_ext; [|apply wrecords_bytes]. intros rv. symmetry. apply rv_writeBytes_app. Qed.
Lemma wrecords_Number v : wrecords (fun rv => nw_writeNumber rv v) (fun l => nw_writeNumber l v).
Proof.
  cbn. unfold rv_writeNumber, number_record. destruct (float64ToIntExp v) as [[i exp]|p]; cbn [obind]; [|apply wrecords_panic].
  eapply wrecords_ext; [|apply wrecords_bytes]. intros rv. symmetry. apply rv_writeBytes_app.
Qed.
Lemma wrecords_type fuel w : forall t ps, wrecords (writeType fuel w t ps) (writeType fuel w t ps).
Proof.
  induction fuel as [|fuel IH]; intros t ps; cbn [writeType]; [apply wrecords_panic|]. destruct (get_type w t) as [T|p]; cbn [obind]; [|apply wrecords_panic].
  assert (forall i, wrecords (fun b => writeCycle b i) (fun b => writeCycle b i)) as Hcycle by (intros i; apply (wrecords_bind (fun b => writeKind b _) (fun b => nw_writeUint32 b i) (fun b => writeKind b _) (fun b => nw_writeUint32 b i)); [apply wrecords_Uint8|apply wrecords_Uint32]).
  assert (forall k, wrecords (fun b => let! b := writeKind b k in let! _ := check (IsPrimitiveKind k) in Ok b) (fun b => let! b := writeKind b k in let! _ := check (IsPrimitiveKind k) in Ok b)) as Hprim.
  { intros k. apply (wrecords_bind (fun b => writeKind b k) (fun b => let! _ := check (IsPrimitiveKind k) in Ok b) (fun b => writeKind b k) (fun b => let! _ := check (IsPrimitiveKind k) in Ok b)); [apply wrecords_Uint8|].
    destruct (check _); [apply wrecords_ret|apply wrecords_panic]. }
  assert (forall ps es, wrecords (fold_w (fun e b => writeType fuel w e ps b) es) (fold_w (fun e b => writeType fuel w e ps b) es)) as Hfold by (intros; apply wrecords_fold, Forall_forall; intros e _; apply IH).
  destruct (Desc T) as [k|k es|name fs|i]; [apply Hprim| | |apply Hcycle].
  - destruct k; try apply Hprim; try (apply (wrecords_bind (fun b => writeKind b _) (fold_w _ es) (fun b => writeKind b _) (fold_w _ es)); [apply wrecords_Uint8|apply Hfold]).
    apply (wrecords_bind (fun b => writeKind b _) (fun b => let! b := nw_writeUint32 b _ in fold_w _ es b) (fun b => writeKind b _) (fun b => let! b := nw_writeUint32 b _ in fold_w _ es b)); [apply wrecords_Uint8|].
    apply wrecords_bind; [apply wrecords_Uint32|apply Hfold].
  - destruct (indexOfType t ps); [apply Hcycle|]. apply (wrecords_bind (fun b => writeKind b _) (fun b => let! b := nw_writeString b _ in let! b := nw_writeUint32 b _ in fold_w _ fs b)
      (fun b => writeKind b _) (fun b => let! b := nw_writeString b _ in let! b := nw_writeUint32 b _ in fold_w _ fs b)); [apply wrecords_Uint8|].
    apply wrecords_bind; [apply wrecords_String|]. apply wrecords_bind; [apply wrecords_Uint32|]. apply wrecords_fold, Forall_forall. intros f _. apply wrecords_bind; [apply wrecords_String|apply IH].
Qed.

(** The encoder. *)
Definition records (f : valueEncoder rollingValueHasher -> outcome (valueEncoder rollingValueHasher)) (g : valueEncoder recorder -> outcome (valueEncoder recorder)) : Prop :=
  forall w lg, (forall l, exists p, g (MkEncoder l w lg) = Panic p) \/
    exists bs w' lg', (forall l, g (MkEncoder l w lg) = Ok (MkEncoder (l ++ bs) w' lg')) /\ forall rv, f (MkEncoder rv w lg) = let! rv := rv_writeBytes rv bs in Ok (MkEncoder rv w' lg').
Lemma records_bind f f' g g' : records f g -> records f' g' -> records (fun e => let! e := f e in f' e) (fun e => let! e := g e in g' e).
Proof.
  intros H1 H2 w lg. destruct (H1 w lg) as [Hp|(bs & w1 & lg1 & Hg & Hf)]; [left; intros l; destruct (Hp l) as [p ->]; by exists p|].
  destruct (H2 w1 lg1) as [Hp|(bs' & w2 & lg2 & Hg' & Hf')].
  - left. intros l. rewrite Hg. apply Hp.
  - right. exists (bs ++ bs'), w2, lg2. split; [intros l; rewrite Hg; cbn [obind]; by rewrite Hg', app_assoc|]. intros rv. rewrite Hf, rv_writeBytes_app.
    destruct (rv_writeBytes rv bs); [|done]. cbn [obind]. apply Hf'.
Qed.
Lemma records_writer f g : wrecords f g -> records (on_writer f) (on_writer g).
Proof.
  intros [Hp|(bs & Hg & Hf)] w lg; unfold on_writer; cbn [enc_w enc_tc enc_log]; [left; intros l; destruct (Hp l) as [p ->]; by exists p|].
  right. exists bs, w, lg. split; [intros l; by rewrite Hg|]. intros rv. by rewrite Hf.
Qed.
Lemma records_panic f p : records f (fun _ => Panic p).
Proof. intros w lg. left. by exists p. Qed.
Lemma records_ret : records Ok Ok.
Proof. intros w lg. right. exists [], w, lg. split; [intros l; by rewrite app_nil_r|done]. Qed.
Lemma records_fold {A} (f : A -> valueEncoder rollingValueHasher -> outcome (valueEncoder rollingValueHasher)) g l : Forall (fun a => records (f a) (g a)) l -> records (fold_w f l) (fold_w g l).
Proof. induction 1 as [|a l Ha _ IH]; cbn [fold_w]; [apply records_ret|by apply records_bind]. Qed.
Lemma records_counted {A} (f : A -> valueEncoder rollingValueHasher -> outcome (valueEncoder rollingValueHasher)) g l : Forall (fun a => records (f a) (g a)) l -> records (write_counted f l) (write_counted g l).
Proof. intros Hf. unfold write_counted. apply records_bind; [apply records_writer, wrecords_Uint32|by apply records_fold]. Qed.
Lemma records_meta m f g : records f g -> records (fun e => let! e := write_meta m e in f e) (fun e => let! e := write_meta m e in g e).
Proof. intros Hf. apply records_bind; [apply records_writer, wrecords_Bool|done]. Qed.
Lemma records_type t : records (enc_appendType t) (enc_appendType t).
Proof. intros w lg. right. exists [], w, lg. split; [intros l; by rewrite app_nil_r|done]. Qed.
Lemma records_kind t f g : (forall k, records (f k) (g k)) -> records (fun e => let! k := Kind (enc_tc e) t in f k e) (fun e => let! k := Kind (enc_tc e) t in g k e).
Proof. intros Hk w lg. cbn [enc_tc]. destruct (Kind w t) as [k|p]; cbn [obind]; [apply Hk|left; by exists p]. Qed.
Lemma records_ext f f' g g' : (forall e, f e = f' e) -> (forall e, g e = g' e) -> records f' g' -> records f g.
Proof.
  intros Hf Hg Hr w lg. destruct (Hr w lg) as [Hp|(bs & w' & lg' & Hg' & Hf')]; [left; intros l; rewrite Hg; apply Hp|right]. exists bs, w', lg'. split; intros; [by rewrite Hg|by rewrite Hf].
Qed.
Lemma records_writeType t : records (fun e => on_writer (writeType (type_fuel (enc_tc e)) (enc_tc e) t []) e) (fun e => on_writer (writeType (type_fuel (enc_tc e)) (enc_tc e) t []) e).
Proof. intros w lg. apply (records_writer _ _ (wrecords_type (type_fuel w) w t []) w lg). Qed.
Lemma records_ref r : records (writeRef r) (writeRef r).
Proof. apply records_bind; apply records_writer; [apply wrecords_Hash|apply wrecords_Uint64]. Qed.
Lemma records_refValue r : records (writeRefValue r) (writeRefValue r).
Proof.
  apply records_bind; [apply records_type|]. apply (records_kind (ref_t r) (fun k e => match k with RefKind => writeRef r e | _ => Panic ExplicitPanic end) (fun k e => match k with RefKind => writeRef r e | _ => Panic ExplicitPanic end)).
  intros []; try apply records_panic. apply records_ref.
Qed.
Lemma records_log vw child f g : records f g -> records (fun e => f (log_child vw child e)) (fun e => g (log_child vw child e)).
Proof. intros Hf w lg. unfold log_child. destruct child as [c|]; [destruct vw|]; cbn [enc_w enc_tc enc_log]; apply Hf. Qed.
Lemma records_key h f g : (forall r, records (f r) (g r)) -> records (fun e => let! (r, e) := hash_key h e in f r e) (fun e => let! (r, e) := hash_key h e in g r e).
Proof.
  intros Hr w lg. unfold hash_key. cbn [enc_tc enc_w enc_log]. destruct (check _) as [u|p]; cbn [obind]; [|left; by exists p]. destruct (MakeRefType BoolType w) as [[t w1]|p]; cbn [obind]; [|left; by exists p].
  destruct (constructRef w1 t h 0) as [r|p]; cbn [obind]; [apply Hr|left; by exists p].
Qed.

Lemma record_parts vw v : parts (fun v => records (writeValue vw v) (writeValue vw v)) (fun mt => records (writeTuple vw mt) (writeTuple vw mt)) v -> records (writeValue vw v) (writeValue vw v).
Proof.
  intros Hv. eapply records_ext; [intros e; apply writeValue_eq..|]. apply records_bind; [apply records_type|]. apply (records_kind (Type_of v) (write_rest vw v) (write_rest vw v)). intros k.
  destruct k, v as [b|x|s|[d|t l|t l|t l|t l]|[d|t l|t l|t l|t l]|[d|t l|t l|t l|t l]|[d|t l|t l|t l|t l]|l t|r|t]; try apply records_panic; cbn [parts] in Hv;
    try (apply records_meta; by apply records_counted); try (by apply records_fold).
  - apply records_writer, wrecords_Bool.
  - unfold write_rest. destruct (IsNaN x || IsInf x); [apply records_panic|apply records_writer, wrecords_Number].
  - apply records_writer, wrecords_String.
  - apply records_meta, records_writer, wrecords_Bytes.
  - apply records_meta, records_counted. eapply Forall_impl; [exact Hv|]. intros [a c] [Ha Hc]. by apply records_bind.
  - apply records_ref.
  - apply records_writeType.
Qed.
Lemma record_tuple vw mt : tuple_parts (fun v => records (writeValue vw v) (writeValue vw v)) mt -> records (writeTuple vw mt) (writeTuple vw mt).
Proof.
  destruct mt as [ref [by_value v h] n child]. intros Hv.
  apply (records_log vw child
    (fun e => let! e := writeRefValue ref e in
      let! e := if by_value then match v with Some v => writeValue vw v e | None => Panic NilDereference end else let! (r, e) := hash_key h e in writeRefValue r e in on_writer (fun b => nw_writeUint64 b n) e)
    (fun e => let! e := writeRefValue ref e in
      let! e := if by_value then match v with Some v => writeValue vw v e | None => Panic NilDereference end else let! (r, e) := hash_key h e in writeRefValue r e in on_writer (fun b => nw_writeUint64 b n) e)).
  apply records_bind; [apply records_refValue|]. apply records_bind; [|apply records_writer, wrecords_Uint64]. destruct by_value.
  - destruct v as [v|]; [exact Hv|apply records_panic].
  - apply (records_key h (fun r => writeRefValue r) (fun r => writeRefValue r)), records_refValue.
Qed.
Lemma records_value vw v : records (writeValue vw v) (writeValue vw v).
Proof.
  apply (value_parts (fun v => records (writeValue vw v) (writeValue vw v)) (fun mt => records (writeTuple vw mt) (writeTuple vw mt))); [apply record_parts|apply record_tuple].
Qed.

Lemma record_values vs : forall w, (forall l, exists p, fold_w record_value vs (l, w) = Panic p) \/
  exists bs w', (forall l, fold_w record_value vs (l, w) = Ok (l ++ bs, w')) /\ forall rv, fold_w HashValue vs (rv, w) = let! rv := rv_writeBytes rv bs in Ok (rv, w').
Proof.
  induction vs as [|v vs IH]; intros w; cbn [fold_w].
  - right. exists [], w. split; [intros l; by rewrite app_nil_r|done].
  - destruct (records_value false v w []) as [Hp|(bs & w1 & lg & Hg & Hf)].
    + left. intros l. unfold record_value at 1. destruct (Hp l) as [p ->]. by exists p.
    + destruct (IH w1) as [Hp|(bs' & w2 & Hg' & Hf')].
      * left. intros l. unfold record_value at 1. rewrite Hg. cbn [obind enc_w enc_tc]. apply Hp.
      * right. exists (bs ++ bs'), w2. split; [intros l; unfold record_value at 1; rewrite Hg; cbn [obind enc_w enc_tc]; by rewrite Hg', app_assoc|].
        intros rv. unfold HashValue at 1. rewrite Hf, rv_writeBytes_app. destruct (rv_writeBytes rv bs) as [rv1|]; [|done]. cbn [obind enc_w enc_tc]. apply Hf'.
Qed.
(** The hash reads what is recorded. *)
Lemma hash_recorded vs w bs w' rv : record vs w = Ok (bs, w') -> fold_w HashValue vs (rv, w) = let! rv := rv_writeBytes rv bs in Ok (rv, w').
Proof.
  unfold record. intros Hr. destruct (record_values vs w) as [Hp|(bs2 & w2 & Hg & Hf)]; [destruct (Hp []) as [p Hp']; congruence|]. rewrite Hg in Hr. injection Hr as <- <-. apply Hf.
Qed.

End records.

(** The record of a value is the same later. *)
Lemma record_later vs w bs w' w2 : record vs w = Ok (bs, w') -> later w' w2 -> record vs w2 = Ok (bs, w2).
Proof.
  assert (forall l w l' w', fold_w record_value vs (l, w) = Ok (l', w') -> later w w' /\ forall w2, later w' w2 -> fold_w record_value vs (l, w2) = Ok (l', w2)) as Hr; [|intros Hw Hl; by apply (Hr _ _ _ _ Hw)].
  induction vs as [|v vs IH]; intros l u l' u'; cbn [fold_w]; [intros [= <- <-]; split; [apply later_refl|done]|]. unfold record_value at 1.
  destruct (writeValue false v _) as [[l1 u1 lg]|] eqn:He; [|done]. cbn [obind enc_w enc_tc]. intros Hrest.
  apply writeValue_ereplays in He as [Hl1 Hr1]; [|intros t b x lg' e' [= <-]; split; [apply later_refl|done]]. cbn [enc_w enc_tc enc_log] in *. destruct (IH _ _ _ _ Hrest) as [Hl2 Hr2].
  split; [by eapply later_trans|]. intros w2' Hl. unfold record_value at 1. rewrite Hr1 by (by eapply later_trans). cbn [obind enc_w enc_tc]. by apply Hr2.
Qed.

(** ** Integers as floats *)

Lemma odd_part_ok p : exists o k, odd_part p = (o, k) /\ 0 <= k /\ Z.Odd (Zpos o) /\ Zpos p = Zpos o * 2 ^ k.
Proof.
  induction p as [p _|p (o & k & He & Hk & Ho & Hp)|]; cbn [odd_part].
  - exists (xI p), 0. split_and!; [done|done|by exists (Zpos p)|lia].
  - exists o, (k + 1). rewrite He. split_and!; [done|lia|done|]. rewrite Z.pow_add_r by lia. lia.
  - exists xH, 0. split_and!; [done|done|by exists 0|lia].
Qed.
Lemma make_finite neg q u : 0 <= q <= 2 ^ 53 -> -1074 <= u <= 900 -> finite (make neg q u).
Proof.
  intros Hq Hu. destruct q as [|p|p]; cbn [make]; [by left| |lia]. destruct (odd_part_ok p) as (o & k & -> & Hk & Ho & Hp). right.
  assert (0 < 2 ^ k) by lia. assert (Zpos o <= 2 ^ 53) as Hle by nia. assert (Zpos o <> 2 ^ 53) as Hne by (intros He; rewrite He in Ho; by destruct Ho as [z Hz]; change (2 ^ 53) with 9007199254740992 in Hz; lia).
  split; [done|]. split; [lia|]. split; [lia|]. assert (Z.log2 (Zpos p) <= 53) as Hlog by (apply Z.le_trans with (Z.log2 (2 ^ 53)); [apply Z.log2_le_mono; lia|done]).
  rewrite Hp, log2_shift in Hlog by lia. lia.
Qed.
Lemma of_int_finite n : 0 <= n < 2 ^ 64 -> finite (of_int n).
Proof.
  intros Hn. unfold of_int, round. rewrite (proj2 (Z.ltb_ge n 0)) by lia. rewrite Z.abs_eq by lia. assert (Z.log2 n < 64) as Hlog by (destruct (Z.eq_dec n 0) as [->|]; [done|apply Z.log2_lt_pow2; lia]).
  pose proof (Z.log2_nonneg n) as Hlog0. set (u := Z.max (Z.log2 n + 1 + 0 - 53) (-1074)). assert (-1074 <= u <= 900) as Hu by lia.
  match goal with |- context [if u <=? 0 then ?x else ?y] => assert (0 <= (if u <=? 0 then x else y) <= 2 ^ 53) as Hq; [|set (q := if u <=? 0 then x else y) in *] end.
  - assert (n < 2 ^ (Z.log2 n + 1)) as Hn2 by (destruct (Z.eq_dec n 0) as [->|]; [done|pose proof (Z.log2_spec n); lia]).
    assert (2 ^ (Z.log2 n + 1) = 2 ^ (u + 53)) as Hpow by (f_equal; lia). destruct (u <=? 0) eqn:E; bool_lia.
    + split; [nia|]. rewrite Z.sub_0_l. assert (0 < 2 ^ (- u)) by lia. assert (2 ^ (u + 53) * 2 ^ (- u) = 2 ^ 53) as <- by (rewrite <- Z.pow_add_r by lia; f_equal; lia). nia.
    + cbv zeta. rewrite Z.sub_0_r. assert (0 < 2 ^ u) by lia. assert (0 <= n / 2 ^ u < 2 ^ 53) as Hd.
      { split; [apply Z.div_pos; lia|]. apply Z.div_lt_upper_bound; [lia|]. rewrite <- Z.pow_add_r by lia. lia. }
      destruct (_ || _); lia.
  - assert (Z.log2 q <= 53) as Hlq by (apply Z.le_trans with (Z.log2 (2 ^ 53)); [apply Z.log2_le_mono; lia|done]). cbv zeta. rewrite (proj2 (Z.leb_gt _ _)) by lia. by apply make_finite.
Qed.

End RecordFacts.
