(* ===== verification/CollectionFacts.v ===== *)
(** * Package [types]: the chunk functions of a kind of collection

    Collections differ in their leaves and in the keys of their tuples.  With chunk
    functions that create a chunk again as it was, and tuples with keys that can be
    hashed, they obey the laws of the chunker. *)

From S2P Require Import Prelude GoLib HashPkg TypesCodec TypesType TypesValue TypesIntern RollingHash Sequences Chunker Lists ChunkerFacts CursorFacts AppendFacts BuildFacts ResumeFacts AlignFacts SkipFacts FinalizeFacts DoneFacts TreeFacts ConcatFacts EditFacts CacheFacts RecordFacts.
Import Hash Float64 NumberUtil Codec NomsKinds TypeCache Values Rolling Sequences Chunker Lists.
Import BuzFacts RollingFacts ChunkerFacts CursorFacts AppendFacts BuildFacts ResumeFacts AlignFacts SkipFacts FinalizeFacts DoneFacts TreeFacts ConcatFacts EditFacts CacheFacts RecordFacts.
Import FloatFacts CodecFacts.

Module CollectionFacts.

(** ** Tuples *)

(** The value that is hashed for a key: itself, or a reference to its hash. *)
Definition key_value (w : world) (key : orderedKey) : outcome Value :=
  match key with
  | MkKey true (Some v) _ => Ok v
  | MkKey true None _ => Panic NilDereference
  | MkKey false _ h => let! _ := check (negb (IsEmpty h)) in let! (t, w) := MakeRefType BoolType w in let! k := constructRef w t h 0 in Ok (Ref k)
  end.
(** The type of that reference has been made. *)
Definition key_settled (w : world) (key : orderedKey) : Prop :=
  match key with MkKey true _ _ => True | _ => exists t, MakeRefType BoolType w = Ok (t, w) end.
Definition key_ok (w : world) (key : orderedKey) : Prop :=
  key_settled w key /\ exists v bs, key_value w key = Ok v /\ record [v] w = Ok (bs, w) /\ Zlength bs < 2 ^ 31.
Definition tuple_ok (w : world) (x : sequenceItem) : Prop :=
  match x with MItem (MkMetaTuple ref key n _) => Kind w (ref_t ref) = Ok RefKind /\ key_ok w key /\ 0 <= n | _ => False end.
Definition tuple_bytes (w : world) (x : sequenceItem) : list byte :=
  match x with
  | MItem (MkMetaTuple ref key _ _) => match key_value w key with Ok v => match record [Ref ref; v] w with Ok (bs, _) => bs | Panic _ => [] end | Panic _ => [] end
  | _ => []
  end.
(** A chunk and the number of its leaves. *)
Record chunk_ok (l : bool) (items : list sequenceItem) (col : Value) (n : Z) : Prop := MkChunkOk {
  ck_seq : exists seq, sequence_of col = Ok seq /\ seq_items seq = items /\ isMetaSequence seq = negb l;
  ck_range : 0 <= n < 2 ^ 64;
  ck_leaves : weighty l items -> weigh l items < 2 ^ 63 -> n = weigh l items
}.

(** A kind of collection: how its chunks are made, how its leaves are hashed, the
    states of the type cache, the items that leaves can have and their bytes. *)
Class collection := MkCollection {
  cn_leaf : makeChunkFn; cn_parent : makeChunkFn; cn_hash : hashValueBytesFn;
  cn_good : world -> Prop; cn_ok : world -> sequenceItem -> Prop; cn_bytes : world -> sequenceItem -> list byte
}.
Definition chunk_fn `{collection} (l : bool) : makeChunkFn := level_makeChunk cn_leaf cn_parent l.
Definition item_ok `{collection} (l : bool) (w : world) (x : sequenceItem) : Prop := if l then cn_ok w x else tuple_ok w x.
Class collection_laws `{chunkingConfig, collection} : Prop := {
  nl_typed w : cn_good w -> typed w;
  nl_good w w' : later w w' -> cn_good w -> cn_good w';
  nl_replays l items : replays (chunk_fn l items);
  nl_chunk l items w col key n w' : cn_good w -> Forall (item_ok l w) items -> small l items -> chunk_fn l items w = Ok (col, key, n, w') ->
    chunk_ok l items col n /\ (items <> [] -> key_ok w' key);
  nl_later w w' x : later w w' -> cn_ok w x -> cn_ok w' x /\ cn_bytes w' x = cn_bytes w x;
  nl_small w x : cn_ok w x -> Zlength (cn_bytes w x) < 2 ^ 32;
  nl_hash w x rv : cn_good w -> cn_ok w x -> cn_hash x (rv, w) = let! rv := rv_writeBytes rv (cn_bytes w x) in Ok (rv, w)
}.

Section laws.
Context `{GoSort} `{chunkingConfig} (vr : option (Hash -> option Value)) `{collection}.

#[export] Instance collection_chunking : chunking := {|
  c_vr := vr; c_makeChunk := cn_leaf; c_parentMakeChunk := cn_parent; c_leafHash := cn_hash;
  inv st := cn_good (st_tc st); le st st' := later (st_tc st) (st_tc st');
  ok l st x := item_ok l (st_tc st) x; bytes l st x := if l then cn_bytes (st_tc st) x else tuple_bytes (st_tc st) x
|}.
Context `{!collection_laws}.

Lemma key_settled_later w w' key : later w w' -> key_settled w key -> key_settled w' key.
Proof. intros Hl. destruct key as [[] v h]; [done|]. cbn. intros [t Ht]. exists t. destruct (getCompoundType_replays RefKind [BoolType] _ _ _ Ht) as [_ Hr]. by apply Hr. Qed.
Lemma key_value_later w w' key v : later w w' -> key_settled w key -> key_value w key = Ok v -> key_value w' key = Ok v.
Proof.
  intros Hl. destruct key as [[] [u|] h]; try done; cbn [key_settled key_value]; intros [t Ht]; (destruct (negb (IsEmpty h)); [|done]); cbn [check obind]; destruct (getCompoundType_replays RefKind [BoolType] _ _ _ Ht) as [_ Hr]; unfold MakeRefType in *; rewrite Ht, (Hr _ Hl); cbn [obind].
  all: destruct (constructRef w t h 0) as [r|] eqn:Hc; [|done]; by rewrite (constructRef_rereads t h 0 _ _ _ Hc Hl).
Qed.
Lemma key_ok_later w w' key : later w w' -> key_ok w key -> key_ok w' key.
Proof.
  intros Hl (Hs & v & bs & Hv & Hr & Hb). split; [by eapply key_settled_later|]. exists v, bs. split_and!; [by eapply key_value_later|by eapply record_later|done].
Qed.

(** What is hashed of a tuple. *)
Lemma record_cons v vs w bs bs' : record [v] w = Ok (bs, w) -> record vs w = Ok (bs', w) -> record (v :: vs) w = Ok (bs ++ bs', w).
Proof.
  unfold record. intros Hv Hvs. destruct (record_values vs w) as [Hp|(b2 & w2 & Hg & _)]; [destruct (Hp []) as [p Hp']; congruence|]. rewrite Hg in Hvs. injection Hvs as <- ->.
  cbn [fold_w] in *. destruct (record_value v ([], w)) as [[b1 w1]|]; [|done]. cbn [obind] in *. injection Hv as <- <-. by rewrite Hg.
Qed.
Lemma ref_recorded w ref : Kind w (ref_t ref) = Ok RefKind -> exists bs, record [Ref ref] w = Ok (bs, w) /\ Zlength bs = 28.
Proof.
  intros Hk. exists (hash_bytes (target ref) ++ be_put 8 (height ref)). split.
  - unfold record. cbn [fold_w]. unfold record_value at 1. rewrite writeValue_eq. cbn [Type_of enc_appendType nw_appendType record_typeWriter obind enc_w enc_tc enc_log]. rewrite Hk. cbn [obind write_rest].
    unfold writeRef, on_writer. by cbn [nw_writeHash nw_writeUint64 record_nomsWriter obind enc_w enc_tc enc_log app].
  - rewrite Zlength_app, Zlength_be_put. unfold Zlength. by rewrite length_hash_bytes.
Qed.
Lemma tuple_recorded w ref key n child : tuple_ok w (MItem (MkMetaTuple ref key n child)) ->
  exists v bs, key_value w key = Ok v /\ record [Ref ref; v] w = Ok (bs, w) /\ Zlength bs < 2 ^ 32.
Proof.
  intros (Hk & (_ & v & bs & Hv & Hr & Hb) & _). destruct (ref_recorded w ref Hk) as (rb & Hrb & Hlen). exists v, (rb ++ bs). split_and!; [done|by apply record_cons|]. rewrite Zlength_app, Hlen.
  change (2 ^ 31) with 2147483648 in Hb. change (2 ^ 32) with 4294967296. lia.
Qed.
Lemma tuple_later w w' x : later w w' -> tuple_ok w x -> tuple_ok w' x /\ tuple_bytes w' x = tuple_bytes w x.
Proof.
  intros Hl Hx. destruct x as [| | |[ref key n child]]; try done. destruct (tuple_recorded _ _ _ _ _ Hx) as (v & bs & Hv & Hr & _). destruct Hx as (Hk & Hkey & Hn). split.
  - split_and!; [|by eapply key_ok_later|done]. by apply (Kind_rereads (ref_t ref) _ _ _ Hk).
  - cbn [tuple_bytes]. destruct Hkey as [Hs _]. by rewrite Hv, (key_value_later _ _ _ _ Hl Hs Hv), Hr, (record_later _ _ _ _ _ Hr Hl).
Qed.
Lemma tuple_hash w x rv : tuple_ok w x -> metaHashValueBytes x (rv, w) = let! rv := rv_writeBytes rv (tuple_bytes w x) in Ok (rv, w).
Proof.
  intros Hx. destruct x as [| | |[ref key n child]]; try done. destruct (tuple_recorded _ _ _ _ _ Hx) as (v & bs & Hv & Hr & _). destruct Hx as (_ & (Hs & _) & _).
  cbn [tuple_bytes]. rewrite Hv, Hr, <- (hash_recorded _ _ _ _ rv Hr). cbn [fold_w]. destruct key as [[] u h].
  - cbn [key_value metaHashValueBytes] in *. destruct u as [u|]; [|done]. injection Hv as ->. destruct (HashValue (Ref ref) _) as [s1|]; [|done]. cbn [obind]. by destruct (HashValue v s1).
  - destruct Hs as [t Ht]. cbn [key_value metaHashValueBytes snd fst] in *. destruct (negb (IsEmpty h)); [|by destruct u]. cbn [check obind] in *. rewrite Ht in *. cbn [obind] in *. destruct (constructRef w t h 0) as [k|]; [|by destruct u]. cbn [obind] in *.
    assert (v = Ref k) as -> by (destruct u; by injection Hv). destruct (HashValue (Ref ref) _) as [s1|]; [|done]. cbn [obind]. by destruct (HashValue (Ref k) s1).
Qed.

(** ** Creating a chunk *)

(** [createSequence] of items, without the state around the cache. *)
Definition creates (l : bool) (items : list sequenceItem) (w : world) : outcome (sequence * metaTuple * world) :=
  let! (col, key, n, w) := chunk_fn l items w in
  let! seq := sequence_of col in
  let! (ref, w) := NewRef col w in
  Ok (seq, MkMetaTuple ref key n (Some col), w).
Lemma creates_replays l items : replays (creates l items).
Proof.
  apply (replays_ext _ (fun w => let! (a, w) := chunk_fn l items w in let! seq := sequence_of a.1.1 in let! (ref, w) := NewRef a.1.1 w in Ok (seq, MkMetaTuple ref a.1.2 a.2 (Some a.1.1), w))).
  - intros w. unfold creates. by destruct (chunk_fn l items w) as [[[[col key] n] w1]|].
  - apply replays_bind; [apply nl_replays|]. intros a.
    apply (replays_pure (sequence_of a.1.1) (fun seq w => let! (ref, w) := NewRef a.1.1 w in Ok (seq, MkMetaTuple ref a.1.2 a.2 (Some a.1.1), w))). intros seq _.
    apply replays_bind; [apply NewRef_replays|]. intros ref. apply replays_ret.
Qed.
Lemma create_creates l items st : create l items st = let! (a, w) := creates l items (st_tc st) in Ok (a, set_tc st w).
Proof.
  unfold create, createSequence, creates, chunk_fn. cbn [current c_makeChunk c_parentMakeChunk collection_chunking]. destruct (level_makeChunk _ _ _ _ _) as [[[[col key] n] w]|]; [|done]. cbn [obind].
  destruct (sequence_of col) as [seq|]; [|done]. cbn [obind]. by destruct (NewRef col w) as [[ref w1]|].
Qed.
Lemma NewRef_kind col w ref w' : typed w -> NewRef col w = Ok (ref, w') -> Kind w' (ref_t ref) = Ok RefKind.
Proof.
  intros Hw. unfold NewRef. destruct (getHash _ w) as [[h w3]|] eqn:Hh; [|done]. cbn [obind]. destruct (MakeRefType _ w3) as [[t w4]|] eqn:Ht; [|done]. cbn [obind]. intros [= <- <-].
  cbn [ref_t]. apply getHash_replays in Hh as [Hl3 _]. eapply compound_kind; [|exact Ht]. by eapply typed_later.
Qed.
(** A chunk that is created has its tuple, and is created again. *)
Lemma creates_made l items st seq mt w' : cn_good (st_tc st) -> Forall (ok l st) items -> small l items -> creates l items (st_tc st) = Ok (seq, mt, w') -> made l (set_tc st w') items seq mt.
Proof.
  intros Hw Hok Hsm Hc. pose proof (creates_replays l items _ _ _ Hc) as [Hl Hr].
  unfold creates in Hc. destruct (chunk_fn l items (st_tc st)) as [[[[col key] n] w1]|] eqn:Hch; [|done]. cbn [obind] in Hc.
  destruct (nl_chunk _ _ _ _ _ _ _ Hw Hok Hsm Hch) as [[(seq' & Hseq & Hit & Hmeta) Hn Hlv] Hkey]. assert (cn_good w1) as Hw1 by (apply nl_replays in Hch as [Hl1 _]; by eapply nl_good).
  rewrite Hseq in Hc. cbn [obind] in Hc. destruct (NewRef col w1) as [[ref w2]|] eqn:Href; [|done]. cbn [obind] in Hc. injection Hc as <- <- <-.
  split; [|done|done|done| |].
  - intros st2 Hinv2 Hl2. exists st2. rewrite create_creates, (Hr _ Hl2). cbn [obind]. split; [by destruct st2|]. split; [done|apply later_refl].
  - rewrite leaves_weigh. cbn [mt_numLeaves]. apply Hlv. eapply Forall_impl; [exact Hok|]. intros x Hx. destruct l; [done|]. destruct x as [| | |[]]; try done. by destruct Hx as (_ & _ & ?).
  - intros Hne. split_and!; [by eapply NewRef_kind; [apply nl_typed|]| |lia]. apply NewRef_replays in Href as [Hl2 _]. apply (key_ok_later w1); [done|by apply Hkey].
Qed.
#[export] Instance collection_chunk_laws : chunk_laws.
Proof.
  split; cbn [le inv ok bytes c_leafHash collection_chunking].
  - intros st. apply later_refl.
  - intros st1 st2 st3. apply later_trans.
  - intros [] st st' x Hl Hx; [by apply (nl_later (st_tc st))|by apply (tuple_later (st_tc st))].
  - intros [] st st' x Hl Hx; [by apply nl_later|by apply tuple_later].
  - intros [] st x Hx; [by apply nl_small|]. destruct x as [| | |[ref key n child]]; try done. destruct (tuple_recorded _ ref key n child Hx) as (v & bs & Hv & Hr & Hb). cbn [tuple_bytes]. by rewrite Hv, Hr.
  - intros [] st x rv Hg; [by apply nl_hash|apply tuple_hash].
  - intros l st items seq mt st' Hw Hok _ Hsm. rewrite create_creates. destruct (creates l items (st_tc st)) as [[a w']|] eqn:Hc; [|done]. cbn [obind]. intros [= -> <-].
    pose proof (creates_replays l items _ _ _ Hc) as [Hl _]. cbn [set_tc st_tc]. split; [by apply (nl_good (st_tc st))|]. split; [done|]. by apply (creates_made l items st).
Qed.

End laws.
End CollectionFacts.
