(* ===== verification/OrderFacts.v ===== *)
(** * Package [types]: the order of keys

    Keys are ordered as lists of integers, their ranks, are.  Comparing, searching
    and sorting by [Less] is comparing, searching and sorting by rank. *)

From S2P Require Import Prelude GoLib HashPkg TypesCodec TypesType TypesValue TypesIntern RollingHash Sequences Chunker Lists Ordered CacheFacts.
Import Hash Float64 NumberUtil Codec NomsKinds TypeCache Values Rolling Sequences Chunker Lists Ordered.
Import FloatFacts CodecFacts CacheFacts.

Module OrderFacts.

(** ** Ranks *)

Abbreviation rank_t := (list Z).
Definition lt (r s : rank_t) : bool := match lex_compare r s with Lt => true | _ => false end.
Lemma lex_compare_trans a : forall b c, lex_compare a b = Lt -> lex_compare b c = Lt -> lex_compare a c = Lt.
Proof.
  induction a as [|x a IH]; intros [|y b] [|z c]; cbn; try done. destruct (Z.compare_spec x y) as [->|Hxy|Hxy], (Z.compare_spec y z) as [->|Hyz|Hyz]; try done.
  - intros. by apply (IH b).
  - by rewrite (proj2 (Z.compare_lt_iff x z)) by lia.
  - by rewrite (proj2 (Z.compare_lt_iff x z)) by lia.
Qed.
Lemma lt_trans a b c : lt a b = true -> lt b c = true -> lt a c = true.
Proof. unfold lt. intros H1 H2. destruct (lex_compare a b) eqn:Hab; try done. destruct (lex_compare b c) eqn:Hbc; try done. by rewrite (lex_compare_trans a b c). Qed.
Lemma lt_irrefl a : lt a a = false.
Proof. unfold lt. by rewrite lex_compare_refl. Qed.
Lemma lt_total a b : lt a b = false -> lt b a = false -> a = b.
Proof. unfold lt. rewrite (lex_compare_antisym a b). destruct (lex_compare a b) eqn:Hab; try done. intros _ _. by apply lex_compare_eq. Qed.
Lemma lt_not a b : lt a b = true -> lt b a = false.
Proof. intros Hab. destruct (lt b a) eqn:Hba; [|done]. pose proof (lt_trans a b a Hab Hba) as Hx. by rewrite lt_irrefl in Hx. Qed.
(** Not less on the right. *)
Lemma lt_le_trans a b c : lt a b = true -> lt c b = false -> lt a c = true.
Proof.
  intros Hab Hcb. destruct (lt a c) eqn:Hac; [done|]. destruct (lt c a) eqn:Hca; [by rewrite (lt_trans c a b) in Hcb|]. by rewrite (lt_total a c Hac Hca), Hcb in Hab.
Qed.
Lemma le_lt_trans a b c : lt b a = false -> lt b c = true -> lt a c = true.
Proof.
  intros Hba Hbc. destruct (lt a c) eqn:Hac; [done|]. destruct (lt c a) eqn:Hca; [by rewrite (lt_trans b c a) in Hba|]. by rewrite <- (lt_total a c Hac Hca), Hba in Hbc.
Qed.

(** The value of a float in units of its smallest step. *)
Definition number_rank (f : float64) : Z := match f with Finite n m e => (if n then - m else m) * 2 ^ (e + 1074) | _ => 0 end.
Definition rank (k : orderedKey) : rank_t :=
  match k with
  | MkKey true (Some (Bool b)) _ => [0; if b then 1 else 0]
  | MkKey true (Some (Number f)) _ => [1; number_rank f]
  | MkKey true (Some (String s)) _ => 2 :: map Zb s
  | MkKey false _ h => 3 :: map Zb (hash_bytes h)
  | _ => []
  end.
Lemma finite_exp n m e : finite (Finite n m e) -> -1074 <= e.
Proof. intros [[_ ->]|(_ & _ & ? & _)]; lia. Qed.
Lemma scale_ltb (x y : Z) a b d : 0 <= d -> (x * 2 ^ a <? y * 2 ^ b) = (x * 2 ^ (a + d) <? y * 2 ^ (b + d)) \/ a < 0 \/ b < 0.
Proof.
  intros Hd. destruct (Z.lt_ge_cases a 0) as [?|Ha]; [auto|]. destruct (Z.lt_ge_cases b 0) as [?|Hb]; [auto|]. left. rewrite !Z.pow_add_r by lia. pose proof (Z.pow_pos_nonneg 2 d ltac:(lia) Hd).
  apply eq_true_iff_eq. rewrite !Z.ltb_lt. nia.
Qed.
Lemma float_Less_rank f g : finite f -> finite g -> float_Less f g = (number_rank f <? number_rank g).
Proof.
  destruct f as [n m e| |], g as [n' m' e'| |]; try done. intros Hf%finite_exp Hg%finite_exp. cbn [float_Less number_rank]. set (d := Z.min e e').
  destruct (scale_ltb (if n then - m else m) (if n' then - m' else m') (e - d) (e' - d) (d + 1074)) as [He|Hd]; [lia| |lia].
  replace (e - d + (d + 1074)) with (e + 1074) in He by lia. replace (e' - d + (d + 1074)) with (e' + 1074) in He by lia. rewrite <- He. destruct n, n'; f_equal; ring.
Qed.
Lemma odd_scale m m' a b : Z.Odd m -> Z.Odd m' -> 0 <= a -> 0 <= b -> m * 2 ^ a = m' * 2 ^ b -> a <= b.
Proof.
  intros [k ->] [k' ->] Ha Hb Heq. destruct (Z.le_gt_cases a b) as [|Hgt]; [done|]. exfalso. replace a with (b + (a - b)) in Heq by lia. rewrite Z.pow_add_r in Heq by lia.
  assert ((2 * k + 1) * 2 ^ (a - b) = 2 * k' + 1) as He by (apply (Z.mul_reg_r _ _ (2 ^ b)); [lia|]; rewrite <- Heq; ring). replace (a - b) with (1 + (a - b - 1)) in He by lia. rewrite Z.pow_add_r in He by lia. lia.
Qed.
Lemma eqb_rank f g : finite f -> finite g -> eqb f g = (number_rank f =? number_rank g).
Proof.
  destruct f as [n m e| |], g as [n' m' e'| |]; try done. intros Hf Hg. cbn [eqb number_rank]. pose proof (finite_exp _ _ _ Hf). pose proof (finite_exp _ _ _ Hg).
  pose proof (Z.pow_pos_nonneg 2 (e + 1074) ltac:(lia) ltac:(lia)). pose proof (Z.pow_pos_nonneg 2 (e' + 1074) ltac:(lia) ltac:(lia)).
  apply eq_true_iff_eq. rewrite orb_true_iff, !andb_true_iff, eqb_true_iff, !Z.eqb_eq. destruct Hf as [[-> ->]|(Ho & Hm & _)], Hg as [[-> ->]|(Ho' & Hm' & _)].
  - split; [destruct n, n'; lia|]. by left.
  - split; [intros [?|?]; lia|]. intros Heq. exfalso. destruct n, n'; nia.
  - split; [intros [?|?]; lia|]. intros Heq. exfalso. destruct n, n'; nia.
  - split; [intros [?|[[-> ->] ->]]; [lia|done]|]. intros Heq. right.
    assert (n = n' /\ m * 2 ^ (e + 1074) = m' * 2 ^ (e' + 1074)) as [-> Hv] by (destruct n, n'; split; first [done|nia]).
    pose proof (odd_scale m m' (e + 1074) (e' + 1074) Ho Ho' ltac:(lia) ltac:(lia) Hv). pose proof (odd_scale m' m (e' + 1074) (e + 1074) Ho' Ho ltac:(lia) ltac:(lia) (eq_sym Hv)).
    assert (e = e') as -> by lia. split_and!; [done| |done]. nia.
Qed.

(** ** Keys *)

Definition value_good (v : Value) : Prop := match v with Bool _ | String _ => True | Number f => finite f | _ => False end.
Definition key_good (k : orderedKey) : Prop :=
  match k with MkKey true (Some v) _ => value_good v | MkKey true None _ => False | MkKey false _ h => IsEmpty h = false end.
Definition by_value (v : Value) : bool := match v with Bool _ | Number _ | String _ => true | _ => false end.
(** [v] has the key [k], and the types it needs are there. *)
Definition keyed (w : world) (v : Value) (k : orderedKey) : Prop :=
  newOrderedKey v w = Ok (k, w) /\ key_good k /\ match k with MkKey b u _ => b = by_value v /\ u = Some v end.
Lemma keyed_later w w' v k : later w w' -> keyed w v k -> keyed w' v k.
Proof. intros Hl (Hk & Hr). split; [|done]. destruct (newOrderedKey_replays v _ _ _ Hk) as [_ Hre]. by apply Hre. Qed.
Lemma keyed_fun w v k k' : keyed w v k -> keyed w v k' -> k = k'.
Proof. intros [Hk _] [Hk' _]. congruence. Qed.

Lemma lt_cons x a b : lt (x :: a) (x :: b) = lt a b.
Proof. unfold lt. cbn. by rewrite Z.compare_refl. Qed.
Lemma lt_one x y : lt [x] [y] = (x <? y).
Proof. unfold lt. cbn. destruct (Z.compare_spec x y); bool_lia. Qed.
Lemma ordered_kind w v : typed w -> value_good v -> exists k, Kind w (Type_of v) = Ok k /\ kind_code k <= 2 /\ match v with Bool _ => k = BoolKind | Number _ => k = NumberKind | String _ => k = StringKind | _ => True end.
Proof.
  intros Hw Hv. destruct v; try done; cbn [Type_of]; [exists BoolKind|exists NumberKind|exists StringKind]; (split; [by apply (ty_prims w Hw)|done]).
Qed.
Lemma hashed_kind w v k h : keyed w v (MkKey false (Some v) h) -> Kind w (Type_of v) = Ok k -> 2 < kind_code k.
Proof.
  intros (Hn & _) Hk. unfold newOrderedKey in Hn. rewrite Hk in Hn. cbn [obind] in Hn. unfold isKindOrderedByValue in Hn. destruct (kind_code k <=? kind_code StringKind) eqn:Hc; [done|]. apply Z.leb_gt in Hc. exact Hc.
Qed.
Lemma hashed_hash w v u h : keyed w v (MkKey false u h) -> getHash v w = Ok (h, w) /\ exists k, Kind w (Type_of v) = Ok k /\ 2 < kind_code k.
Proof.
  intros Hkd. pose proof Hkd as (Hn & _ & _ & ->). unfold newOrderedKey in Hn. destruct (Kind w (Type_of v)) as [k|] eqn:Hk; [|done]. cbn [obind] in Hn. pose proof (hashed_kind w v k h Hkd Hk) as Hlt.
  unfold isKindOrderedByValue in Hn. rewrite (proj2 (Z.leb_gt _ _)) in Hn by exact Hlt. destruct (getHash v w) as [[h' w']|]; [|done]. cbn [obind] in Hn. injection Hn as -> ->. split; [done|]. by exists k.
Qed.
Lemma prim_Less w v u : typed w -> value_good v -> value_good u -> value_Less v u w = Ok (lt (rank (MkKey true (Some v) emptyHash)) (rank (MkKey true (Some u) emptyHash)), w).
Proof.
  intros Hw Hv Hu. destruct (ordered_kind w u Hw Hu) as (k & Hk & _ & Hku). destruct v, u; try done; cbn [value_Less rank Type_of] in *; rewrite ?lt_cons, ?lt_one.
  - by destruct b, b0.
  - by rewrite Hk, Hku.
  - by rewrite float_Less_rank.
  - by rewrite Hk, Hku.
  - by rewrite Hk, Hku.
  - by rewrite Hk, Hku.
Qed.
Lemma Less_rank h h' : Less h h' = lt (map Zb (hash_bytes h)) (map Zb (hash_bytes h')).
Proof. done. Qed.
(** [Less] of values is the order of the ranks. *)
Lemma value_Less_rank w v u k k' : typed w -> keyed w v k -> keyed w u k' -> value_Less v u w = Ok (lt (rank k) (rank k'), w).
Proof.
  intros Hw Hv Hu. destruct k as [b o h], k' as [b' o' h']. pose proof Hv as (_ & Hg & Hb & ->). pose proof Hu as (_ & Hg' & Hb' & ->). destruct b, b'.
  - rewrite (prim_Less w v u Hw Hg Hg'). done.
  - destruct (hashed_hash w u _ _ Hu) as (_ & ku & Hku & Hlt). destruct v; try done; cbn [value_Less]; destruct u; try done; rewrite ?Hku; cbn [obind]; try done; f_equal; f_equal; change (kind_code NumberKind) with 1; change (kind_code StringKind) with 2; by rewrite (proj2 (Z.ltb_lt _ _)) by lia.
  - destruct (ordered_kind w u Hw Hg') as (ku & Hku & Hle & _). assert (value_Less v u w = valueLess v u w) as -> by (by destruct v). unfold valueLess. rewrite Hku. cbn [obind]. assert (lt (rank (MkKey false (Some v) h)) (rank (MkKey true (Some u) h')) = false) as -> by (by destruct u). by destruct ku; cbn in Hle; try lia.
  - destruct (hashed_hash w v _ _ Hv) as (Hh & _), (hashed_hash w u _ _ Hu) as (Hh' & ku & Hku & Hlt). assert (value_Less v u w = valueLess v u w) as -> by (by destruct v). unfold valueLess. rewrite Hku, Hh. cbn [obind]. rewrite Hh'. cbn [obind rank].
    rewrite lt_cons, <- Less_rank. by destruct ku; cbn in Hlt; try lia.
Qed.
Lemma key_Less_rank w k k' : typed w -> key_good k -> key_good k' -> orderedKey_Less k k' w = Ok (lt (rank k) (rank k'), w).
Proof.
  intros Hw Hk Hk'. destruct k as [[] [v|] h], k' as [[] [u|] h']; try done; cbn [orderedKey_Less key_good] in *; rewrite ?Hk, ?Hk'; cbn [orb negb check obind rank]; rewrite ?lt_cons; try done.
  - rewrite (prim_Less w v u Hw Hk Hk'). done.
  - by destruct v.
  - by destruct v.
  - by destruct u.
  - by destruct u.
Qed.

Lemma bytes_inj (a b : list byte) : map Zb a = map Zb b -> a = b.
Proof. intros He. by apply (inj (fmap Zb)). Qed.
(** [Equals] compares ranks, unless a value that is ordered by hash is compared
    with the hash of one that is not. *)
Lemma Equals_rank w v u k k' : typed w -> keyed w v k -> keyed w u k' -> (by_value v = false -> by_value u = true -> Equals v u w = Ok (false, w)) ->
  Equals v u w = Ok (bool_decide (rank k = rank k'), w).
Proof.
  intros Hw Hv Hu Hmix. destruct k as [b o h], k' as [b' o' h']. pose proof Hv as (_ & Hg & Hb & ->). pose proof Hu as (_ & Hg' & Hb' & ->). destruct b, b'.
  - destruct v, u; try done; cbn [Equals rank]; f_equal; f_equal.
    + by destruct b, b0.
    + rewrite eqb_rank by done. apply eq_true_iff_eq. rewrite Z.eqb_eq, bool_decide_eq_true. split; [by intros ->|by intros [=]].
    + apply bool_decide_ext. split; [by intros ->|]. intros [= He]. by apply bytes_inj.
  - destruct v; try done; by destruct u.
  - rewrite Hmix by done. f_equal. f_equal. symmetry. apply bool_decide_eq_false. by destruct u.
  - destruct (hashed_hash w v _ _ Hv) as (Hh & _), (hashed_hash w u _ _ Hu) as (Hh' & _). assert (same_hash v u w = Ok (bool_decide (rank (MkKey false (Some v) h) = rank (MkKey false (Some u) h')), w)) as Hs.
    { unfold same_hash. rewrite Hh. cbn [obind]. rewrite Hh'. cbn [obind rank]. f_equal. f_equal. apply bool_decide_ext. split; [by intros ->|]. intros [= He%bytes_inj]. by apply Hash_eq. }
    destruct v; try done. destruct u; try done. cbn [Equals]. destruct (Nat.eqb_spec t t0) as [<-|]; [|done]. f_equal. f_equal. symmetry. apply bool_decide_eq_true. congruence.
Qed.
Lemma Equals_replays v u : replays (Equals v u).
Proof.
  assert (replays (same_hash v u)) as Hs by (apply replays_bind; [apply getHash_replays|]; intros h; apply replays_bind; [apply getHash_replays|]; intros h'; apply replays_ret).
  destruct v, u; try exact Hs; try exact (replays_ret _).
  change (replays (fun w => if Nat.eqb t t0 then Ok (true, w) else same_hash (TypeValue t) (TypeValue t0) w)). destruct (Nat.eqb t t0); [exact (replays_ret true)|exact Hs].
Qed.

(** ** Searching *)

Section search.
Context (f : Z -> world -> outcome (bool * world)) (p : Z -> bool) (w : world).
Lemma Search_loop_ok fuel : forall i j n, (forall h, 0 <= h < n -> f h w = Ok (p h, w)) -> (forall h h', 0 <= h <= h' -> h' < n -> p h = true -> p h' = true) -> 0 <= i <= j -> j <= n -> j - i < Z.of_nat fuel ->
  (forall h, 0 <= h < i -> p h = false) -> (forall h, j <= h < n -> p h = true) ->
  exists m, Search_loop fuel f i j w = Ok (m, w) /\ 0 <= m <= n /\ (forall h, 0 <= h < m -> p h = false) /\ (forall h, m <= h < n -> p h = true).
Proof.
  induction fuel as [|fuel IH]; intros i j n Hf Hmono Hij Hjn Hfuel Hlo Hhi; [lia|]. cbn [Search_loop]. destruct (Z.ltb_spec i j) as [Hlt|Hge].
  - set (h := (i + j) / 2). assert (i <= h < j) as Hh by (unfold h; split; [apply Z.div_le_lower_bound; lia|apply Z.div_lt_upper_bound; lia]). rewrite Hf by lia. cbn [obind]. destruct (p h) eqn:Hp.
    + apply (IH i h n); try done; try lia. intros h' Hh'. apply (Hmono h); [lia|lia|done].
    + apply (IH (h + 1) j n); try done; try lia. intros h' Hh'. destruct (p h') eqn:Hp'; [|done]. rewrite (Hmono h' h) in Hp; [done|lia|lia|done].
  - exists i. split; [done|]. split; [lia|]. split; [done|]. intros h' Hh'. apply Hhi. lia.
Qed.
Lemma Search_ok n : 0 <= n -> (forall h, 0 <= h < n -> f h w = Ok (p h, w)) -> (forall h h', 0 <= h <= h' -> h' < n -> p h = true -> p h' = true) ->
  exists m, Search n f w = Ok (m, w) /\ 0 <= m <= n /\ (forall h, 0 <= h < m -> p h = false) /\ (forall h, m <= h < n -> p h = true).
Proof. intros Hn Hf Hmono. apply Search_loop_ok; try done; lia. Qed.
End search.

(** ** Sorted lists and what they hold *)

Section lists.
Context {A : Type} (R : A -> rank_t).

Definition before (x y : A) : Prop := lt (R x) (R y) = true.
Definition not_after (x y : A) : Prop := lt (R y) (R x) = false.
Abbreviation ascending := (StronglySorted before).
(** The element of each rank; the last one of equal rank counts. *)
Definition contents (l : list A) : gmap rank_t A := foldl (fun m x => <[R x := x]> m) ∅ l.
Lemma contents_snoc l x : contents (l ++ [x]) = <[R x := x]> (contents l).
Proof. unfold contents. by rewrite foldl_app. Qed.
Lemma contents_app l k : contents (l ++ k) = contents k ∪ contents l.
Proof.
  induction k as [|x k IH] using rev_ind; [rewrite app_nil_r; symmetry; apply (left_id_L ∅ (∪))|]. by rewrite app_assoc, !contents_snoc, IH, insert_union_l.
Qed.
Lemma contents_none l r : Forall (fun x => R x <> r) l -> contents l !! r = None.
Proof.
  induction l as [|x l IH] using rev_ind; [intros _; apply lookup_empty|]. intros [Hl Hx%Forall_inv]%Forall_app. rewrite contents_snoc, lookup_insert_ne by done. by apply IH.
Qed.
(** An element may move over elements of other ranks. *)
Lemma contents_move l k x : Forall (fun y => R y <> R x) k -> contents (l ++ x :: k) = contents (l ++ k ++ [x]).
Proof.
  intros Hk. rewrite app_assoc, contents_snoc, !contents_app. change (x :: k) with ([x] ++ k). rewrite contents_app, <- (assoc_L (∪)). change (contents [x]) with (<[R x := x]> (∅ : gmap rank_t A)).
  rewrite insert_empty. rewrite <- insert_union_singleton_l. rewrite insert_union_r by (by apply contents_none). done.
Qed.
Lemma before_ne x y : before x y -> R y <> R x.
Proof. unfold before. intros Hb He. by rewrite He, lt_irrefl in Hb. Qed.
Lemma ascending_lookup l x : ascending l -> x ∈ l -> contents l !! R x = Some x.
Proof.
  induction 1 as [|y l Hs IH Hy]; [by intros ?%elem_of_nil|]. intros [->|Hx]%elem_of_cons; change (y :: l) with ([y] ++ l); rewrite contents_app.
  - rewrite lookup_union_r by (apply contents_none; eapply Forall_impl; [exact Hy|]; by apply before_ne). apply lookup_insert_eq.
  - by apply lookup_union_Some_l, IH.
Qed.
Lemma contents_elem l r x : contents l !! r = Some x -> x ∈ l /\ R x = r.
Proof.
  induction l as [|y l IH] using rev_ind; [done|]. rewrite contents_snoc. intros [[<- <-]|[Hne Hl]]%lookup_insert_Some; [split; [apply elem_of_app; right; by left|done]|].
  destruct (IH Hl) as [Hx Hr]. split; [apply elem_of_app; by left|done].
Qed.
Lemma ascending_NoDup l : ascending l -> NoDup l.
Proof. induction 1 as [|x l _ IH Hx]; constructor; [|done]. intros Hin. rewrite Forall_forall in Hx. specialize (Hx x Hin). unfold before in Hx. by rewrite lt_irrefl in Hx. Qed.
(** A sorted list is determined by what it holds. *)
Lemma ascending_unique l k : ascending l -> ascending k -> contents l = contents k -> l = k.
Proof.
  intros Hl Hk He. apply (StronglySorted_unique_strong before); [|done|done|].
  - intros x y _ _ Hxy Hyx. apply lt_not in Hxy. unfold before in Hyx. congruence.
  - apply NoDup_Permutation; [by apply ascending_NoDup|by apply ascending_NoDup|]. intros x. split; intros Hx; apply ascending_lookup in Hx; [rewrite He in Hx|done|rewrite <- He in Hx|done]; by apply contents_elem in Hx as [? _].
Qed.

(** The position of a rank in a sorted list. *)
Definition seeks (r : rank_t) (l : list A) (q : nat) : Prop :=
  (q <= length l)%nat /\ Forall (fun x => lt (R x) r = true) (take q l) /\ Forall (fun x => lt (R x) r = false) (drop q l).
Lemma seeks_fun r l q q' : seeks r l q -> seeks r l q' -> q = q'.
Proof.
  assert (forall q q', seeks r l q -> seeks r l q' -> ~ (q < q')%nat) as Hw; [|intros Hq Hq'; pose proof (Hw _ _ Hq Hq'); pose proof (Hw _ _ Hq' Hq); lia].
  clear q q'. intros q q' (_ & _ & Hd) (Hl & Ht & _) Hlt. destruct (lookup_lt_is_Some_2 l q ltac:(lia)) as [x Hx].
  rewrite Forall_lookup in Ht, Hd. specialize (Ht q x). rewrite lookup_take_lt in Ht by done. specialize (Hd 0%nat x). rewrite lookup_drop, Nat.add_0_r in Hd. specialize (Hd Hx). specialize (Ht Hx). by rewrite Ht in Hd.
Qed.
Lemma seeks_app r l k q : Forall (fun x => lt (R x) r = true) l -> seeks r k q -> seeks r (l ++ k) (length l + q).
Proof. intros Hl (Hq & Ht & Hd). split_and!; [rewrite length_app; lia|rewrite take_app_add; by apply Forall_app|by rewrite drop_app_add]. Qed.
Lemma seeks_over r l k q : seeks r l q -> Forall (fun x => lt (R x) r = false) k -> seeks r (l ++ k) q.
Proof. intros (Hq & Ht & Hd) Hk. split_and!; [rewrite length_app; lia|by rewrite take_app_le|rewrite drop_app_le by done; by apply Forall_app]. Qed.
Lemma seeks_all r l : Forall (fun x => lt (R x) r = true) l -> seeks r l (length l).
Proof. intros Hl. split_and!; [done|by rewrite firstn_all|by rewrite skipn_all]. Qed.
Lemma ascending_lt l i j x y : ascending l -> l !! i = Some x -> l !! j = Some y -> (i < j)%nat -> before x y.
Proof.
  intros Hs. revert i j. induction Hs as [|z l _ IH Hz]; intros [|i] [|j] Hx Hy Hij; try lia; try done; cbn in *; [injection Hx as ->; rewrite Forall_forall in Hz; apply Hz; by eapply list_elem_of_lookup_2|apply (IH i j); [done|done|lia]].
Qed.

(** The element of a rank, and how many there are. *)
Definition hit (r : rank_t) (l : list A) (q : nat) : option A := match l !! q with Some y => if bool_decide (R y = r) then Some y else None | None => None end.
Lemma seeks_split r l q : seeks r l q -> exists l1 l2, l = l1 ++ l2 /\ q = length l1 /\ Forall (fun x => lt (R x) r = true) l1 /\ Forall (fun x => lt (R x) r = false) l2.
Proof. intros (Hq & Ht & Hd). exists (take q l), (drop q l). split_and!; [by rewrite take_drop|rewrite length_take; lia|done|done]. Qed.
Lemma seeks_others r l1 l2 : ascending (l1 ++ l2) -> Forall (fun x => lt (R x) r = true) l1 -> Forall (fun x => lt (R x) r = false) l2 ->
  let d := match hit r (l1 ++ l2) (length l1) with Some _ => 1%nat | None => 0%nat end in Forall (fun x => lt (R x) r = true) l1 /\ Forall (fun x => lt r (R x) = true) (drop d l2).
Proof.
  intros (_ & _ & H2)%StronglySorted_app Hl Hr. unfold hit. rewrite lookup_app_r, Nat.sub_diag by lia. split; [done|]. destruct l2 as [|y l2]; [done|]. cbn. apply Forall_cons in Hr as [Hy Hr]. apply StronglySorted_inv in H2 as [_ Hb].
  assert (lt r (R y) = true -> Forall (fun x => lt r (R x) = true) l2) as Hgt by (intros Hlt; eapply Forall_impl; [exact Hb|]; intros x Hx; by apply (lt_trans _ (R y))). case_bool_decide as He; cbn.
  - rewrite drop_0, <- He. done.
  - assert (lt r (R y) = true) as Hlt by (destruct (lt r (R y)) eqn:Hlt; [done|]; by rewrite (lt_total _ _ Hy Hlt) in He). constructor; [done|by apply Hgt].
Qed.
Lemma ranks_ne (P : rank_t -> Prop) (l : list A) r : Forall (fun x => P (R x)) l -> (P r -> False) -> Forall (fun x => R x <> r) l.
Proof. intros Hl Hr. eapply Forall_impl; [exact Hl|]. cbn. intros x Hx Heq. apply Hr. by rewrite <- Heq. Qed.
Lemma hit_lookup r l q : ascending l -> seeks r l q -> contents l !! r = hit r l q.
Proof.
  intros Hs Hq. unfold hit. destruct (contents l !! r) as [x|] eqn:Hx.
  - apply contents_elem in Hx as [Hin Hr]. destruct (seeks_split _ _ _ Hq) as (l1 & l2 & -> & -> & H1 & H2). rewrite lookup_app_r, Nat.sub_diag by lia.
    apply elem_of_app in Hin as [Hin|Hin]; [rewrite Forall_forall in H1; specialize (H1 x Hin); by rewrite Hr, lt_irrefl in H1|]. apply StronglySorted_app in Hs as (_ & _ & Hs). destruct l2 as [|y l2]; [by apply elem_of_nil in Hin|]. cbn.
    apply elem_of_cons in Hin as [->|Hin]; [by rewrite bool_decide_eq_true_2|]. exfalso. apply StronglySorted_inv in Hs as [_ Hb]. rewrite Forall_forall in Hb. specialize (Hb x Hin). apply Forall_cons in H2 as [Hy _]. unfold before in Hb. by rewrite Hr, Hy in Hb.
  - destruct (l !! q) as [y|] eqn:Hy; [|done]. case_bool_decide as He; [|done]. apply list_elem_of_lookup_2 in Hy. by rewrite <- He, (ascending_lookup l y Hs Hy) in Hx.
Qed.
(** Putting and removing at the position of a rank. *)
Lemma put_ok r l q x : ascending l -> seeks r l q -> R x = r ->
  let l' := take q l ++ x :: drop (q + match hit r l q with Some _ => 1 | None => 0 end) l in ascending l' /\ contents l' = <[r := x]> (contents l).
Proof.
  intros Hs Hq Hr. destruct (seeks_split _ _ _ Hq) as (l1 & l2 & -> & -> & H1 & H2). destruct (seeks_others r l1 l2 Hs H1 H2) as [_ Hgt]. set (d := match hit r _ _ with Some _ => _ | None => _ end) in *. cbn zeta. rewrite take_app_length, drop_app_add.
  assert (ascending (l1 ++ x :: drop d l2)) as Hasc.
  { apply StronglySorted_app in Hs as (Hb & Hs1 & Hs2). apply StronglySorted_app. split_and!; [|done|constructor].
    - intros y z Hy Hz. rewrite Forall_forall in H1, Hgt. unfold before. apply elem_of_cons in Hz as [->|Hz]; [rewrite Hr; by apply H1|]. by apply (lt_trans _ r); [apply H1|apply Hgt].
    - rewrite <- (take_drop d l2) in Hs2. by apply StronglySorted_app in Hs2 as (_ & _ & ?).
    - eapply Forall_impl; [exact Hgt|]. intros y. unfold before. by rewrite Hr. }
  split; [done|]. rewrite (contents_move l1 (drop d l2) x) by (rewrite Hr; apply (ranks_ne (fun s => lt r s = true)); [done|by rewrite lt_irrefl]). rewrite app_assoc, contents_snoc, Hr.
  clear Hgt Hasc. subst d. destruct (hit r (l1 ++ l2) (length l1)) as [y|] eqn:Hh; [|by rewrite drop_0]. unfold hit in Hh. rewrite lookup_app_r, Nat.sub_diag in Hh by lia. destruct l2 as [|z l2]; [done|]. cbn in Hh. cbn [drop].
  case_bool_decide as He; [|done]. rewrite drop_0, !contents_app. change (z :: l2) with ([z] ++ l2). rewrite (contents_app [z] l2). change (contents [z]) with (<[R z := z]> (∅ : gmap rank_t A)). rewrite He, insert_empty.
  apply map_eq. intros k. destruct (decide (k = r)) as [->|Hne]; [by rewrite !lookup_insert_eq|]. rewrite !lookup_insert_ne by done. rewrite !lookup_union. by rewrite lookup_singleton_ne, (right_id_L None _) by done.
Qed.
Lemma remove_ok r l q y : ascending l -> seeks r l q -> hit r l q = Some y -> let l' := take q l ++ drop (q + 1) l in ascending l' /\ contents l' = delete r (contents l).
Proof.
  intros Hs Hq Hh. destruct (seeks_split _ _ _ Hq) as (l1 & l2 & -> & -> & H1 & H2). destruct (seeks_others r l1 l2 Hs H1 H2) as [_ Hgt]. rewrite Hh in Hgt. cbn zeta. rewrite take_app_length, drop_app_add.
  unfold hit in Hh. rewrite lookup_app_r, Nat.sub_diag in Hh by lia. destruct l2 as [|z l2]; [done|]. cbn in Hh, Hgt |- *. rewrite drop_0 in *. case_bool_decide as He; [|done]. apply StronglySorted_app in Hs as (Hb & Hs1 & [Hs2 _]%StronglySorted_inv). split.
  - apply StronglySorted_app. split_and!; [|done|done]. intros x x' Hx Hx'. apply Hb; [done|by right].
  - assert (contents (l1 ++ l2) !! r = None) as Hn. { apply contents_none. apply Forall_app. split; [apply (ranks_ne (fun s => lt s r = true)); [done|by rewrite lt_irrefl]|apply (ranks_ne (fun s => lt r s = true)); [done|by rewrite lt_irrefl]]. }
    rewrite contents_move by (rewrite He; apply (ranks_ne (fun s => lt r s = true)); [done|by rewrite lt_irrefl]). by rewrite app_assoc, contents_snoc, He, delete_insert_id.
Qed.

(** ** Sorting *)

Section sort.
Context (P : A -> Prop) (less equals : A -> A -> world -> outcome (bool * world)) (w : world).
Context (Hless : forall x y, P x -> P y -> less x y w = Ok (lt (R x) (R y), w)) (Hequals : forall x y, P x -> P y -> equals x y w = Ok (bool_decide (R x = R y), w)).

Lemma insert_last_ok x l : P x -> Forall P l -> exists l1 l2, l = l1 ++ l2 /\ insert_last less x l w = Ok (l1 ++ x :: l2, w) /\ Forall (before x) l1 /\ match l2 with y :: _ => not_after y x | [] => True end.
Proof.
  intros Hx. induction 1 as [|y l Hy _ IH]; cbn [insert_last]; [by exists [], []|]. rewrite Hless by done. cbn [obind]. destruct (lt (R x) (R y)) eqn:Hlt.
  - destruct IH as (l1 & l2 & -> & -> & H1 & H2). exists (y :: l1), l2. cbn [obind]. split_and!; [done|done|by constructor|done].
  - exists [], (y :: l). by split_and!.
Qed.
Lemma sorted_rev_insert l1 l2 x : StronglySorted not_after (rev (l1 ++ l2)) -> Forall (before x) l1 -> match l2 with y :: _ => not_after y x | [] => True end -> StronglySorted not_after (rev (l1 ++ x :: l2)).
Proof.
  rewrite !rev_app_distr. cbn [rev]. rewrite <- app_assoc. intros Hs H1 H2. apply StronglySorted_app in Hs as (Hs21 & Hs2 & Hs1). apply StronglySorted_app.
  assert (forall y, y ∈ rev l2 -> not_after y x) as Hle.
  { intros y Hy. destruct l2 as [|z l2]; [by apply elem_of_nil in Hy|]. cbn [rev] in Hy, Hs2. apply elem_of_app in Hy as [Hy| ->%list_elem_of_singleton]; [|done]. apply StronglySorted_app in Hs2 as (Hz & _).
    specialize (Hz y z Hy ltac:(by left)). unfold not_after in *. destruct (lt (R x) (R y)) eqn:Hxy; [|done]. rewrite (lt_le_trans (R x) (R y) (R z)) in H2; [done|done|done]. }
  split; [intros y z Hy [->|Hz]%elem_of_cons; [by apply Hle|by apply Hs21]|]. split; [done|].
  cbn [app]. constructor; [done|]. apply Forall_rev. eapply Forall_impl; [exact H1|]. intros y. apply lt_not.
Qed.
Lemma Stable_ok l : Forall P l -> exists l', Stable less l w = Ok (l', w) /\ StronglySorted not_after l' /\ contents l' = contents l /\ l' ≡ₚ l.
Proof.
  intros HP. unfold Stable. assert (exists r, fold_w (fun x s => insert_last less x s.1 s.2) l ([], w) = Ok (r, w) /\ StronglySorted not_after (rev r) /\ contents (rev r) = contents l /\ rev r ≡ₚ l) as (r & -> & Hs & Hc & Hp); [|by exists (rev r)].
  assert (forall k r, Forall P r -> StronglySorted not_after (rev r) -> contents (rev r) = contents k -> rev r ≡ₚ k ->
    exists r', fold_w (fun x s => insert_last less x s.1 s.2) l (r, w) = Ok (r', w) /\ StronglySorted not_after (rev r') /\ contents (rev r') = contents (k ++ l) /\ rev r' ≡ₚ k ++ l) as Hind; [|by apply (Hind [] []); [done|constructor| |]].
  induction HP as [|x l Hx HP IH]; intros k r Hr Hs Hc Hp; cbn [fold_w]; [exists r; by rewrite app_nil_r|]. cbn [fst snd].
  destruct (insert_last_ok x r Hx Hr) as (l1 & l2 & -> & -> & H1 & H2). cbn [obind]. replace (k ++ x :: l) with ((k ++ [x]) ++ l) by (by rewrite <- app_assoc). apply IH.
  - apply Forall_app in Hr as [Hr1 Hr2]. apply Forall_app. split; [done|by constructor].
  - by apply sorted_rev_insert.
  - rewrite contents_snoc, <- Hc, <- contents_snoc, !rev_app_distr. cbn [rev]. rewrite <- !app_assoc. apply contents_move. apply Forall_rev. eapply Forall_impl; [exact H1|]. by apply before_ne.
  - rewrite rev_app_distr in *. cbn [rev]. rewrite <- app_assoc. cbn [app]. rewrite <- Permutation_middle, Hp. apply Permutation_cons_append.
Qed.
Lemma unique_ok l : forall last, P last -> Forall P l -> StronglySorted not_after (last :: l) -> exists l', uniqueSorted equals last l w = Ok (l', w) /\ ascending l' /\ contents l' = contents (last :: l) /\
  (exists x, head l' = Some x /\ R x = R last) /\ (forall x, x ∈ l' -> x ∈ last :: l).
Proof.
  induction l as [|v l IH]; intros last Hl HP Hs; cbn [uniqueSorted].
  - exists [last]. split_and!; [done|repeat constructor|done|by exists last|done].
  - apply Forall_cons in HP as [Hv HP]. apply StronglySorted_inv in Hs as [Hs Hall]. destruct (IH v Hv HP Hs) as (r & Hr & Hasc & Hc & (x & Hh & Hx) & Hin). rewrite Hequals by done. cbn [obind]. rewrite Hr. cbn [obind].
    change (last :: v :: l) with ([last] ++ v :: l). rewrite contents_app, <- Hc. case_bool_decide as Heq.
    + exists r. split_and!; [done|done| |exists x; by rewrite Hx, Heq|intros y Hy; right; by apply Hin]. change (contents [last]) with (<[R last := last]> (∅ : gmap rank_t A)). rewrite insert_empty. symmetry.
      apply map_eq. intros k. destruct (decide (k = R last)) as [->|Hne].
      * assert (is_Some (contents r !! R last)) as [y Hy]; [|by rewrite (lookup_union_Some_l _ _ _ _ Hy)]. exists x. rewrite <- Heq, <- Hx. apply ascending_lookup; [done|]. destruct r; [done|]. injection Hh as ->. left.
      * rewrite lookup_union_l; [done|]. by rewrite lookup_singleton_ne.
    + exists (last :: r). split_and!; [done| |by change (last :: r) with ([last] ++ r); rewrite contents_app|by exists last|intros y [->|Hy]%elem_of_cons; [by left|right; by apply Hin]].
      constructor; [done|]. apply Forall_cons in Hall as [Hlv _]. assert (before last v) as Hb. { unfold before, not_after in *. destruct (lt (R last) (R v)) eqn:Hlt; [done|]. by rewrite (lt_total _ _ Hlv Hlt) in Heq. }
      destruct r as [|z r]; [done|]. injection Hh as ->. apply StronglySorted_inv in Hasc as [_ Hx']. unfold before in *. rewrite <- Hx in Hb. constructor; [done|]. eapply Forall_impl; [exact Hx'|]. intros y Hy. by eapply lt_trans.
Qed.
End sort.

End lists.
Abbreviation ascending R := (StronglySorted (before R)).

(** The same ranks elsewhere. *)
Section map.
Context {A B : Type} (R : A -> rank_t) (R' : B -> rank_t) (f : A -> B) (l : list A) (Hf : Forall (fun x => R' (f x) = R x) l).
Lemma ascending_map : ascending R l -> ascending R' (map f l).
Proof.
  intros Hs. induction Hs as [|x l Hs IH Hx]; [constructor|]. apply Forall_cons in Hf as [Hfx Hf']. constructor; [by apply IH|]. apply Forall_map. rewrite Forall_forall in *. intros y Hy. unfold before in *. rewrite Hfx, (Hf' y Hy). by apply Hx.
Qed.
Lemma seeks_map r q : seeks R' r (map f l) q -> seeks R r l q.
Proof.
  intros (Hq & Ht & Hd). rewrite length_map in Hq. rewrite <- (take_drop q l) in Hf. apply Forall_app in Hf as [Hft Hfd]. rewrite firstn_map in Ht. rewrite skipn_map in Hd. rewrite Forall_map in Ht, Hd.
  split_and!; [done| |]; rewrite Forall_forall in *; intros x Hx; [rewrite <- (Hft x Hx); by apply Ht|rewrite <- (Hfd x Hx); by apply Hd].
Qed.
End map.
Lemma size_contents {A} (R : A -> rank_t) l : ascending R l -> base.size (contents R l) = length l.
Proof.
  induction l as [|x l IH] using rev_ind; intros Hs; [done|]. apply StronglySorted_app in Hs as (Hb & Hs & _). rewrite contents_snoc, map_size_insert_None, IH, length_app by first [done|apply contents_none; apply Forall_forall; intros y Hy He; specialize (Hb y x Hy ltac:(by left)); unfold before in Hb; by rewrite He, lt_irrefl in Hb]. cbn. lia.
Qed.
Lemma contents_ext {A} (R R' : A -> rank_t) l : Forall (fun x => R x = R' x) l -> contents R l = contents R' l.
Proof. induction l as [|x l IH] using rev_ind; intros Hl; [done|]. apply Forall_app in Hl as [Hl Hx%Forall_inv]. by rewrite !contents_snoc, Hx, IH. Qed.

End OrderFacts.
