(* ===== verification/IndexedFacts.v ===== *)
(** * Package [types]: the chunk functions of lists and blobs

    Lists and blobs differ in their leaves only.  With leaves whose chunks are
    created again as they were, their chunk functions obey the laws of the
    chunker. *)

From S2P Require Import Prelude GoLib HashPkg TypesCodec TypesType TypesValue TypesIntern RollingHash Sequences Chunker Lists ChunkerFacts CursorFacts AppendFacts BuildFacts ResumeFacts AlignFacts SkipFacts FinalizeFacts DoneFacts TreeFacts ConcatFacts EditFacts CacheFacts RecordFacts CollectionFacts.
Import Hash Float64 NumberUtil Codec NomsKinds TypeCache Values Rolling Sequences Chunker Lists.
Import BuzFacts RollingFacts ChunkerFacts CursorFacts AppendFacts BuildFacts ResumeFacts AlignFacts SkipFacts FinalizeFacts DoneFacts TreeFacts ConcatFacts EditFacts CacheFacts RecordFacts CollectionFacts.
Import FloatFacts CodecFacts.

Module IndexedFacts.

(** The leaves of a kind of collection: how they are chunked and hashed, the items
    that they can have and the bytes of an item. *)
Class indexed := MkIndexed {
  ix_kind : NomsKind; ix_leaf : makeChunkFn; ix_hash : hashValueBytesFn; ix_ok : world -> sequenceItem -> Prop; ix_bytes : world -> sequenceItem -> list byte
}.
(** The key of a tuple is the number of its leaves. *)
Definition count_key (key : orderedKey) : Prop := exists m, key = MkKey true (Some (Number (of_int m))) emptyHash /\ 0 <= m < 2 ^ 64.
Class indexed_laws `{chunkingConfig, indexed} : Prop := {
  il_kind : ix_kind = ListKind \/ ix_kind = BlobKind;
  il_replays items : replays (ix_leaf items);
  il_chunk items w col key n w' : typed w -> small true items -> ix_leaf items w = Ok (col, key, n, w') -> chunk_ok true items col n /\ count_key key;
  il_later w w' x : later w w' -> ix_ok w x -> ix_ok w' x /\ ix_bytes w' x = ix_bytes w x;
  il_small w x : ix_ok w x -> Zlength (ix_bytes w x) < 2 ^ 32;
  il_hash w x rv : ix_ok w x -> ix_hash x (rv, w) = let! rv := rv_writeBytes rv (ix_bytes w x) in Ok (rv, w)
}.
#[export] Instance indexed_collection `{GoSort} `{chunkingConfig} `{indexed} : collection := {|
  cn_leaf := ix_leaf; cn_parent := newIndexedMetaSequenceChunkFn ix_kind; cn_hash := ix_hash; cn_good := typed; cn_ok := ix_ok; cn_bytes := ix_bytes
|}.

Section laws.
Context `{GoSort} `{chunkingConfig} `{indexed} `{!indexed_laws}.

(** ** Creating a chunk *)

Lemma elem_rereads t : rereads (fun w => elem_type w t).
Proof.
  intros w e w2. unfold elem_type. destruct (get_type w t) as [T|] eqn:HT; [|done]. cbn [obind]. intros He [Hk _]. destruct (get_keeps _ _ _ _ Hk HT) as (T' & -> & HD & _). cbn [obind]. by rewrite HD.
Qed.
Lemma elems_rereads tuples : rereads (fun w => all_ok (fun mt => let! t := elem_type w (ref_t (mt_ref mt)) in elem_type w t) tuples).
Proof.
  intros w ts w2 Hts Hl. revert ts Hts. induction tuples as [|mt tuples IH]; intros ts; cbn [all_ok]; [done|]. destruct (elem_type w (ref_t (mt_ref mt))) as [t|] eqn:Ht; [|done]. cbn [obind].
  rewrite (elem_rereads _ w t w2 Ht Hl). cbn [obind]. destruct (elem_type w t) as [e|] eqn:He; [|done]. rewrite (elem_rereads _ w e w2 He Hl). cbn [obind].
  destruct (all_ok _ tuples) as [es|]; [|done]. by rewrite (IH _ eq_refl).
Qed.
(** A meta sequence of a kind. *)
Definition meta_col (tuples : list metaTuple) (w : world) : outcome (Value * world) :=
  match ix_kind with
  | ListKind => let! (seq, w) := newListMetaSequence tuples w in Ok (List seq, w)
  | BlobKind => let! (seq, w) := newBlobMetaSequence tuples w in Ok (Blob seq, w)
  | _ => Panic AssertFailed
  end.
Lemma meta_col_replays tuples : replays (meta_col tuples).
Proof.
  unfold meta_col. destruct il_kind as [-> | ->]; [|apply replays_bind; [apply replays_ret|intros seq; apply replays_ret]]. apply replays_bind; [|intros seq; apply replays_ret].
  apply (replays_read _ (fun ts w => let! (u, w) := MakeUnionType ts w in let! (t, w) := MakeListType u w in Ok (metaSequence t tuples, w)) (elems_rereads tuples)).
  intros ts. apply replays_bind; [apply makeUnionType_replays|]. intros u. apply replays_bind; [apply getCompoundType_replays|]. intros t. apply replays_ret.
Qed.
Lemma meta_col_ok tuples w col w' : meta_col tuples w = Ok (col, w') -> exists t, sequence_of col = Ok (metaSequence t tuples).
Proof.
  unfold meta_col, newListMetaSequence, newBlobMetaSequence. destruct il_kind as [-> | ->]; [|by intros [= <- _]; eexists]. destruct (all_ok _ tuples) as [ts|]; [|done]. cbn [obind].
  destruct (MakeUnionType ts w) as [[u w1]|]; [|done]. cbn [obind]. destruct (MakeListType u w1) as [[t w2]|]; [|done]. cbn [obind]. intros [= <- _]. by exists t.
Qed.
Lemma meta_chunk_replays items : replays (newIndexedMetaSequenceChunkFn ix_kind items).
Proof.
  apply (replays_pure (all_ok as_tuple items) (fun tuples w => let! (col, w) := meta_col tuples w in let! (key, w) := orderedKeyFromSum tuples w in Ok (col, key, cumulativeNumberOfLeaves tuples, w))).
  intros tuples _. apply replays_bind; [apply meta_col_replays|]. intros col. apply replays_bind; [apply newOrderedKey_replays|]. intros key. apply replays_ret.
Qed.
Lemma all_ok_inv {A B} (f : A -> outcome B) (g : B -> A) l : (forall a b, f a = Ok b -> g b = a) -> forall r, all_ok f l = Ok r -> map g r = l.
Proof.
  intros Hfg. induction l as [|a l IH]; intros r; cbn [all_ok]; [by intros [= <-]|]. destruct (f a) as [b|] eqn:Hf; [|done]. cbn [obind]. destruct (all_ok f l) as [bs|]; [|done]. cbn [obind].
  intros [= <-]. cbn [map]. by rewrite (Hfg _ _ Hf), IH.
Qed.
(** The key of a tuple is a number. *)
Lemma number_key w n key w' : typed w -> newOrderedKey (Number n) w = Ok (key, w') -> key = MkKey true (Some (Number n)) emptyHash /\ w' = w.
Proof. intros Hw. unfold newOrderedKey. cbn [Type_of]. rewrite (ty_prims w Hw NumberKind) by done. cbn. by intros [= <- <-]. Qed.
Lemma cumulative_range tuples : 0 <= cumulativeNumberOfLeaves tuples < 2 ^ 64.
Proof.
  unfold cumulativeNumberOfLeaves. destruct tuples as [|mt tuples _] using rev_ind; [done|]. rewrite foldl_app. cbn [foldl]. by apply Z.mod_pos_bound.
Qed.
Lemma meta_chunk_ok items w col key n w' : typed w -> newIndexedMetaSequenceChunkFn ix_kind items w = Ok (col, key, n, w') -> chunk_ok false items col n /\ count_key key.
Proof.
  intros Hw Hc. unfold newIndexedMetaSequenceChunkFn in Hc. destruct (all_ok as_tuple items) as [tuples|] eqn:Hv; [|done]. apply (all_ok_inv _ MItem) in Hv; [|by intros [] ? [= ->]]. cbn [obind] in Hc.
  fold (meta_col tuples w) in Hc. destruct (meta_col tuples w) as [[col' w1]|] eqn:Hm; [|done]. cbn [obind] in Hc. destruct (meta_col_ok _ _ _ _ Hm) as [t Hs].
  assert (typed w1) as Hw1 by (apply meta_col_replays in Hm as [Hl _]; by apply (typed_later w)).
  destruct (orderedKeyFromSum _ w1) as [[key' w2]|] eqn:Hk; [|done]. cbn [obind] in Hc. apply number_key in Hk as [-> ->]; [|done]. injection Hc as <- <- <- _. pose proof (cumulative_range tuples) as Hr. split; [split|by exists (cumulativeNumberOfLeaves tuples)].
  - by exists (metaSequence t tuples).
  - done.
  - subst items. apply cumulative_weigh.
Qed.

Lemma number_recorded f : finite f -> exists bs, number_record f = Ok bs /\ Zlength bs <= 20.
Proof.
  intros Hf. destruct (number_codec f Hf) as (i & exp & He & Hi & Hexp & _). unfold number_record. rewrite He. cbn [obind]. eexists. split; [done|].
  assert (- 2 ^ 63 <= exp < 2 ^ 63) as Hexp' by (change (2 ^ 63) with 9223372036854775808; lia). rewrite s64_small by done. rewrite Zlength_app.
  pose proof (PutVarint_length i Hi). pose proof (PutVarint_length exp Hexp'). lia.
Qed.
Lemma finite_number f : finite f -> IsNaN f || IsInf f = false.
Proof. by destruct f. Qed.
Lemma number_value_recorded w f : typed w -> finite f -> exists bs, record [Number f] w = Ok (bs, w) /\ Zlength bs <= 20.
Proof.
  intros Hw Hf. destruct (number_recorded _ Hf) as (nb & Hn & Hlen). exists nb. split; [|done]. unfold record. cbn [fold_w]. unfold record_value. rewrite writeValue_eq.
  cbn [Type_of enc_appendType nw_appendType record_typeWriter obind enc_w enc_tc enc_log]. rewrite (ty_prims w Hw NumberKind) by done. cbn [obind write_rest].
  rewrite (finite_number _ Hf). unfold on_writer. cbn [enc_w enc_tc enc_log nw_writeNumber record_nomsWriter]. rewrite Hn. done.
Qed.
Lemma count_key_ok w key : typed w -> count_key key -> key_ok w key.
Proof.
  intros Hw (m & -> & Hm). split; [done|]. destruct (number_value_recorded w _ Hw (of_int_finite m Hm)) as (bs & Hr & Hb). exists (Number (of_int m)), bs. split_and!; [done|done|]. change (2 ^ 31) with 2147483648. lia.
Qed.
#[export] Instance indexed_collection_laws : collection_laws.
Proof.
  split; cbn [cn_good cn_ok cn_bytes cn_hash indexed_collection].
  - done.
  - apply typed_later.
  - intros [] items; [apply il_replays|apply meta_chunk_replays].
  - intros l items w col key n w' Hw _ Hsm Hc. assert (chunk_ok l items col n /\ count_key key) as [Hck Hkey] by (destruct l; [by eapply il_chunk|by eapply meta_chunk_ok]). split; [done|]. intros _.
    apply count_key_ok; [|done]. assert (replays (chunk_fn l items)) as Hr by (destruct l; [apply il_replays|apply meta_chunk_replays]). apply Hr in Hc as [Hl _]. by eapply typed_later.
  - apply il_later.
  - apply il_small.
  - intros w x rv _. apply il_hash.
Qed.

End laws.

End IndexedFacts.
