(* ===== verification/ListFacts.v ===== *)
(** * Package [types]: lists have one tree

    The chunk functions of lists obey the laws of the chunker, so the tree of a
    list is determined by its values: a list that was edited, or put together
    from two, is the list built from its values. *)

From S2P Require Import Prelude GoLib HashPkg TypesCodec TypesType TypesValue TypesIntern RollingHash Sequences Chunker Lists ChunkerFacts CursorFacts TreeFacts EditFacts CacheFacts RecordFacts CollectionFacts IndexedFacts.
Import Hash Float64 NumberUtil Codec NomsKinds TypeCache Values Rolling Sequences Chunker Lists.
Import ChunkerFacts CursorFacts TreeFacts EditFacts CacheFacts RecordFacts CollectionFacts IndexedFacts.

(** ** Values that can be in a list

    The hash of the value reads [bs], and the types it needs are there. *)
Definition hashable (w : world) (v : Value) : Prop := exists bs, record [v] w = Ok (bs, w) /\ Zlength bs < 2 ^ 32.

Module ListFacts.

Section laws.
Context `{GoSort} `{chunkingConfig} (vr : option (Hash -> option Value)).

#[export] Instance list_indexed : indexed := {|
  ix_kind := ListKind; ix_leaf := makeListLeafChunkFn; ix_hash := hashValueBytes;
  ix_ok w x := match x with VItem v => hashable w v | _ => False end;
  ix_bytes w x := match x with VItem v => match record [v] w with Ok (bs, _) => bs | Panic _ => [] end | _ => [] end
|}.
Lemma leaf_chunk_replays items : replays (makeListLeafChunkFn items).
Proof.
  apply (replays_pure (all_ok as_value items) (fun values w => let! (seq, w) := newListLeafSequence values w in let! (key, w) := orderedKeyFromInt (Zlength values) w in Ok (List seq, key, u64 (Zlength values), w))).
  intros values _. apply replays_bind.
  - apply replays_bind; [apply makeUnionType_replays|]. intros u. apply replays_bind; [apply getCompoundType_replays|]. intros t. apply replays_ret.
  - intros seq. apply replays_bind; [apply newOrderedKey_replays|]. intros key. apply replays_ret.
Qed.
Lemma leaf_chunk_ok items w col key n w' : typed w -> small true items -> makeListLeafChunkFn items w = Ok (col, key, n, w') -> chunk_ok true items col n /\ count_key key.
Proof.
  intros Hw Hsm Hc. unfold makeListLeafChunkFn, newListLeafSequence in Hc. destruct (all_ok as_value items) as [values|] eqn:Hv; [|done]. apply (all_ok_inv _ VItem) in Hv; [|by intros [] ? [= ->]]. cbn [obind] in Hc.
  destruct (MakeUnionType _ w) as [[u w1]|] eqn:Hu; [|done]. cbn [obind] in Hc. destruct (MakeListType u w1) as [[t w2]|] eqn:Ht; [|done]. cbn [obind] in Hc.
  assert (typed w2) as Hw2.
  { apply makeUnionType_replays in Hu as [Hl1 _]. apply getCompoundType_replays in Ht as [Hl2 _]. apply (typed_later w); [by eapply later_trans|done]. }
  destruct (orderedKeyFromInt _ w2) as [[key' w3]|] eqn:Hk; [|done]. cbn [obind] in Hc. apply number_key in Hk as [-> ->]; [|done]. injection Hc as <- <- <- _.
  assert (Zlength items = Zlength values) as Hlen by (subst items; unfold Zlength; by rewrite length_map). pose proof (Zlength_nonneg values) as Hn. specialize (Hsm eq_refl).
  assert (2 ^ 63 < 2 ^ 64) as Hpow by done. split; [split|].
  - by exists (listLeafSequence t values).
  - by apply Z.mod_pos_bound.
  - intros _ _. rewrite weigh_leaf, Hlen. apply Z.mod_small. lia.
  - exists (Zlength values). split; [done|lia].
Qed.
#[export] Instance list_indexed_laws : indexed_laws.
Proof.
  split; cbn [ix_kind ix_leaf ix_hash ix_ok ix_bytes list_indexed].
  - by left.
  - apply leaf_chunk_replays.
  - intros items w col key n w'. apply leaf_chunk_ok.
  - intros w w' [v| | |] Hl; try done. intros (bs & Hr & Hb). pose proof (record_later _ _ _ _ w' Hr Hl) as Hr'. rewrite Hr, Hr'. split; [by exists bs|done].
  - intros w [v| | |]; try done. intros (bs & Hr & Hb). by rewrite Hr.
  - intros w [v| | |] rv; try done. intros (bs & Hr & _). rewrite Hr. rewrite <- (hash_recorded [v] w bs w rv Hr). cbn [fold_w hashValueBytes]. by destruct (HashValue v (rv, w)).
Qed.

#[export] Instance list_chunking : chunking := collection_chunking vr.
#[export] Instance list_laws : chunk_laws := collection_chunk_laws vr.

(** ** Lists *)

Section lists.
Context (Hwin : 0 < chunkWindow < 2 ^ 32).

Lemma items_ok w values lg : Forall (hashable w) values -> Forall (ok true (MkState w lg)) (map VItem values).
Proof.
  intros Hv. apply Forall_map. eapply Forall_impl; [exact Hv|]. intros v (bs & Hr & Hb). by exists bs.
Qed.
Lemma hashable_later w w' values : later w w' -> Forall (hashable w) values -> Forall (hashable w') values.
Proof. intros Hl Hv. eapply Forall_impl; [exact Hv|]. intros v (bs & Hr & Hb). exists bs. split; [by eapply record_later|done]. Qed.
Lemma Zlength_items values : Zlength (map VItem values) = Zlength values.
Proof. unfold Zlength. by rewrite length_map. Qed.
Lemma NewList_tree fuel values w l w' : typed w -> Forall (hashable w) values -> Zlength values < 2 ^ 63 -> NewList vr fuel values w = Ok (l, w') ->
  exists r, l = List r /\ typed w' /\ later w w' /\ has_tree fuel (MkState w' []) (map VItem values) r.
Proof.
  intros Hw Hv Hlt. unfold NewList, build_list, list_append_all, list_Done. intros He.
  assert (exists r st', build fuel (map VItem values) (MkState w []) = Ok (r, st') /\ l = List r /\ st_tc st' = w') as (r & st' & Hb & -> & <-).
  { unfold build. cbn [c_vr c_makeChunk c_parentMakeChunk c_leafHash list_chunking collection_chunking indexed_collection cn_leaf cn_parent cn_hash ix_leaf ix_kind ix_hash list_indexed]. destruct (append_all _ _ _ _ _ _ _ _ _) as [[ch st1]|]; [|done]. cbn [obind] in *.
    destruct (Done _ _ _ _ _ _ _ _ _) as [[r st2]|]; [|done]. cbn [obind] in He. injection He as <- <-. by exists r, st2. }
  destruct (build_run Hwin fuel (map VItem values) (MkState w []) r st') as (Hinv & Hle & Ht); [done|by apply items_ok|intros _; by rewrite Zlength_items|done|].
  exists r. split; [done|]. split; [exact Hinv|]. split; [exact Hle|]. apply (has_tree_le fuel st'); [apply later_refl|done].
Qed.
Lemma Splice_tree fuel n n' w values vs i d l r : typed w -> has_tree n (MkState w []) (map VItem values) l -> has_tree n' (MkState w []) (map VItem (take i values ++ vs ++ drop (i + d) values)) r ->
  (i + d <= length values)%nat -> Zlength values < 2 ^ 63 -> (4 * n + 4 * n' + length values + 3 <= fuel)%nat ->
  exists w', Splice vr fuel (List l) (Z.of_nat i) (Z.of_nat d) vs w = Ok (List r, w').
Proof.
  intros Hw Hl Hr Hid Hlt Hf. assert (inv (MkState w [])) as Hinv by exact Hw. unfold Splice. destruct ((Z.of_nat d =? 0) && Nat.eqb (length vs) 0) eqn:Hnone.
  - apply andb_true_iff in Hnone as [Hd Hvs]. apply Z.eqb_eq in Hd. apply Nat.eqb_eq in Hvs. assert (d = 0)%nat as -> by lia. destruct vs; [|done]. exists w.
    rewrite Nat.add_0_r in Hr. cbn [app] in Hr. rewrite take_drop in Hr. by rewrite (has_tree_fun n n' (MkState w []) (map VItem values) l r Hinv Hl Hr).
  - clear Hnone. cbn [Len list_seq obind]. rewrite (has_tree_length n _ _ l Hl) by (by rewrite Zlength_items). rewrite Zlength_items. assert (2 ^ 63 < 2 ^ 64) as Hpow by done.
    rewrite !map_app, <- firstn_map, <- skipn_map in Hr. destruct (edit_tree Hwin fuel n n' (MkState w []) (map VItem values) l i d (map VItem vs) r Hinv Hl Hr) as (cur & st' & Hc & He);
      [by rewrite length_map|by rewrite Zlength_items|by rewrite length_map|]. unfold Zlength in *.
    rewrite (proj2 (Z.leb_le (Z.of_nat i) _)) by lia. rewrite u64_small by lia. rewrite (proj2 (Z.leb_le (Z.of_nat i + Z.of_nat d) _)) by lia. cbn [check obind]. cbn [c_vr list_chunking collection_chunking] in Hc. rewrite Hc. cbn [obind]. rewrite Nat2Z.id.
    unfold edit in He. cbn [c_vr c_makeChunk c_parentMakeChunk c_leafHash list_chunking collection_chunking indexed_collection cn_leaf cn_parent cn_hash ix_leaf ix_kind ix_hash list_indexed] in He. unfold newChunker, list_append_all, list_Done. destruct (newSequenceChunker _ _ _ _ _ _ _ _) as [[ch st1]|]; [|done]. cbn [obind] in *.
    destruct (skip_n vr d ch) as [ch1|]; [|done]. cbn [obind] in *. destruct (append_all _ _ _ _ _ _ _ _ _) as [[ch2 st2]|]; [|done]. cbn [obind] in *. rewrite He. by exists (st_tc st').
Qed.

End lists.

End laws.

End ListFacts.
Import ListFacts.

Section theorems.
Context `{GoSort} `{chunkingConfig} (Hwin : 0 < chunkWindow < 2 ^ 32) (vr : option (Hash -> option Value)).

Lemma all_values values : all_ok as_value (map VItem values) = Ok values.
Proof. induction values as [|v values IH]; cbn [map all_ok as_value obind]; [done|]. by rewrite IH. Qed.

(** C2: [Splice] gives the list of the edited values: in every state of the cache
    in which that list has been built from scratch, deleting [d] values at [i] and
    inserting [ins] there gives that very list, with the same chunks at every
    level, so the same hash.  The chunker resumes in the middle of the old tree,
    rehashes only as far as the edit reaches, and takes over the old chunks behind
    it; none of this shows in the result. *)
Theorem splice_canonical fuel n n' old ins i d w l w1 r w2 : world_ok w -> Forall (hashable w) old -> Forall (hashable w) ins -> (i + d <= length old)%nat ->
  Zlength old < 2 ^ 63 -> Zlength (take i old ++ ins ++ drop (i + d) old) < 2 ^ 63 -> NewList vr n old w = Ok (l, w1) -> NewList vr n' (take i old ++ ins ++ drop (i + d) old) w1 = Ok (r, w2) ->
  (4 * n + 4 * n' + length old + 3 <= fuel)%nat -> exists w3, Splice vr fuel l (Z.of_nat i) (Z.of_nat d) ins w2 = Ok (r, w3).
Proof.
  intros Hw Hold Hins Hid Hlt Hlt' Hl Hr Hf. destruct (NewList_tree vr Hwin n old w l w1 (world_typed w Hw) Hold Hlt Hl) as (ls & -> & Hw1 & Hl1 & Ht1).
  destruct (NewList_tree vr Hwin n' (take i old ++ ins ++ drop (i + d) old) w1 r w2 Hw1) as (rs & -> & Hw2 & Hl2 & Ht2); [|done|done|].
  { apply (hashable_later w); [done|]. rewrite !Forall_app. split_and!; [by apply Forall_take|done|by apply Forall_drop]. }
  apply (Splice_tree vr Hwin fuel n n' w2 old ins i d ls rs Hw2); [|done|done|done|done]. by apply (has_tree_le n (MkState w1 [])).
Qed.

(** C7: [Concat] gives the list of both lists' values: where the list of all the
    values has been built from scratch, concatenating the list of the first ones
    and the list of the others gives that very list, whichever of the two trees is
    higher. *)
Theorem concat_canonical fuel n1 n2 n vs1 vs2 w l1 w1 l2 w2 r w3 : world_ok w -> Forall (hashable w) vs1 -> Forall (hashable w) vs2 -> Zlength (vs1 ++ vs2) < 2 ^ 63 ->
  NewList vr n1 vs1 w = Ok (l1, w1) -> NewList vr n2 vs2 w1 = Ok (l2, w2) -> NewList vr n (vs1 ++ vs2) w2 = Ok (r, w3) ->
  (4 * n1 + n2 + 4 * n + length vs1 + length vs2 + 3 <= fuel)%nat -> exists w4, Concat vr fuel l1 l2 w3 = Ok (r, w4).
Proof.
  intros Hw Hv1 Hv2 Hlt Hl1 Hl2 Hr Hf. assert (Zlength vs1 < 2 ^ 63 /\ Zlength vs2 < 2 ^ 63) as [Hlt1 Hlt2] by (rewrite Zlength_app in Hlt; pose proof (Zlength_nonneg vs1); pose proof (Zlength_nonneg vs2); lia).
  destruct (NewList_tree vr Hwin n1 vs1 w l1 w1 (world_typed w Hw) Hv1 Hlt1 Hl1) as (s1 & -> & Hw1 & Hle1 & Ht1).
  destruct (NewList_tree vr Hwin n2 vs2 w1 l2 w2 Hw1) as (s2 & -> & Hw2 & Hle2 & Ht2); [by apply (hashable_later w)|done|done|].
  destruct (NewList_tree vr Hwin n (vs1 ++ vs2) w2 r w3 Hw2) as (s & -> & Hw3 & Hle3 & Ht3); [|done|done|].
  { apply (hashable_later w); [by apply (later_trans _ w1)|]. by apply Forall_app. }
  rewrite map_app in Ht3. assert (inv (chunking := list_chunking vr) (MkState w3 [])) as Hinv by exact Hw3.
  destruct (concat_tree Hwin fuel n1 n2 n (MkState w3 []) (map VItem vs1) (map VItem vs2) s1 s2 s Hinv) as [st' He]; [| |exact Ht3|..].
  - apply (has_tree_le n1 (MkState w1 [])); [by apply (later_trans _ w2)|done].
  - by apply (has_tree_le n2 (MkState w2 [])).
  - by rewrite Zlength_items.
  - by rewrite Zlength_items.
  - by rewrite !length_map.
  - unfold Concat. cbn [list_seq obind]. cbn [c_vr c_makeChunk c_parentMakeChunk c_leafHash list_chunking collection_chunking indexed_collection cn_leaf cn_parent cn_hash ix_leaf ix_kind ix_hash list_indexed] in He. rewrite He. by exists (st_tc st').
Qed.

(** C12: A list holds the values it was built from, in order: its length is their
    number, [Get] gives the value at each index and panics from the length on, and
    iterating gives all of them, whatever the rolling hash made of them. *)
Theorem list_contents fuel n values w l w' : world_ok w -> Forall (hashable w) values -> Zlength values < 2 ^ 63 -> NewList vr n values w = Ok (l, w') ->
  (n <= fuel)%nat -> (length values < fuel)%nat ->
  Len l = Ok (Zlength values) /\ IterAll vr fuel l = Ok values /\
  (forall i v, values !! i = Some v -> Get vr fuel l (Z.of_nat i) = Ok v) /\ (forall i, Zlength values <= i -> Get vr fuel l i = Panic AssertFailed).
Proof.
  intros Hw Hv Hlt He Hn Hf. destruct (NewList_tree vr Hwin n values w l w' (world_typed w Hw) Hv Hlt He) as (r & -> & Hw' & _ & Ht).
  assert (Zlength (map VItem values) < 2 ^ 63) as Hlt' by by rewrite Zlength_items. assert (length (map VItem values) < fuel)%nat as Hf' by by rewrite length_map.
  unfold IterAll, Get. cbn [Len list_seq obind]. rewrite (has_tree_length n _ _ r Ht Hlt'), Zlength_items. split_and!; [done| | |].
  - destruct (has_tree_iter n _ _ r 0 fuel Ht Hlt') as (cur & Hc & Hi); [lia|done|done|]. change (Z.of_nat 0) with 0 in Hc. cbn [c_vr list_chunking collection_chunking] in Hc, Hi. rewrite Hc. cbn [obind]. rewrite Hi. apply all_values.
  - intros i v Hi. pose proof (lookup_lt_Some _ _ _ Hi) as Hil. cbn [obind]. rewrite (proj2 (Z.ltb_lt _ _)) by (unfold Zlength; lia). cbn [check obind].
    destruct (has_tree_cursor n _ _ r i fuel Ht Hlt') as (olds & cur & Htw & _ & Hc & Hat); [rewrite length_map; lia|done|]. cbn [c_vr list_chunking collection_chunking] in Hc. rewrite Hc. cbn [obind].
    destruct (at_current _ _ _ _ _ _ (VItem v) Hat) as [-> _]; [by rewrite list_lookup_fmap, Hi|]. done.
  - intros i Hi. cbn [obind]. by rewrite (proj2 (Z.ltb_ge _ _)) by lia.
Qed.

End theorems.

(** A list of one number, and the list with another number behind it. *)
#[local] Existing Instance go_insertion_sort.
#[local] Existing Instance normalProductionChunks.
Definition number (n : Z) : Value := Number (of_int n).
Lemma small_numbers : Forall (hashable NewTypeCache) [number 1; number 2].
Proof. repeat constructor; (eexists; split; [cbv; reflexivity|reflexivity]). Qed.
Lemma small_lists : is_ok (let! (_, w1) := NewList None 8 [number 1] NewTypeCache in NewList None 8 [number 1; number 2] w1) = true.
Proof. vm_compute. reflexivity. Qed.

Lemma list_contents_witness : exists l w, NewList None 8 [number 1] NewTypeCache = Ok (l, w) /\ IterAll None 8 l = Ok [number 1] /\ Get None 8 l 0 = Ok (number 1).
Proof.
  pose proof small_lists as Hok. destruct (NewList None 8 [number 1] NewTypeCache) as [[l w]|] eqn:He; [|discriminate Hok]. exists l, w. split; [reflexivity|].
  destruct (list_contents ltac:(split; reflexivity) None 8 8 [number 1] NewTypeCache l w) as (_ & Hi & Hg & _);
    [exact new_world_ok|exact (proj1 (proj1 (Forall_app _ [number 1] [number 2]) small_numbers))|reflexivity|exact He|lia|cbn; lia|]. split; [exact Hi|exact (Hg 0%nat (number 1) eq_refl)].
Defined.
Lemma splice_canonical_witness : exists l w1 r w2 w3, NewList None 8 [number 1] NewTypeCache = Ok (l, w1) /\ NewList None 8 [number 1; number 2] w1 = Ok (r, w2) /\
  Splice None 80 l 1 0 [number 2] w2 = Ok (r, w3).
Proof.
  pose proof small_lists as Hok. destruct (NewList None 8 [number 1] NewTypeCache) as [[l w1]|] eqn:Hl; [|discriminate Hok]. cbn [obind] in Hok.
  destruct (NewList None 8 [number 1; number 2] w1) as [[r w2]|] eqn:Hr; [|discriminate Hok].
  destruct (splice_canonical ltac:(split; reflexivity) None 80 8 8 [number 1] [number 2] 1 0 NewTypeCache l w1 r w2) as [w3 Hs];
    [exact new_world_ok|exact (proj1 (proj1 (Forall_app _ [number 1] [number 2]) small_numbers))|exact (proj2 (proj1 (Forall_app _ [number 1] [number 2]) small_numbers))
    |cbn; lia|reflexivity|reflexivity|exact Hl|exact Hr|cbn; lia|]. exists l, w1, r, w2, w3. split; [reflexivity|]. split; [exact Hr|exact Hs].
Defined.
Lemma small_parts : is_ok (let! (_, w1) := NewList None 8 [number 1] NewTypeCache in let! (_, w2) := NewList None 8 [number 2] w1 in NewList None 8 [number 1; number 2] w2) = true.
Proof. vm_compute. reflexivity. Qed.
Lemma concat_canonical_witness : exists l1 w1 l2 w2 r w3 w4, NewList None 8 [number 1] NewTypeCache = Ok (l1, w1) /\ NewList None 8 [number 2] w1 = Ok (l2, w2) /\
  NewList None 8 [number 1; number 2] w2 = Ok (r, w3) /\ Concat None 80 l1 l2 w3 = Ok (r, w4).
Proof.
  pose proof small_parts as Hok. destruct (NewList None 8 [number 1] NewTypeCache) as [[l1 w1]|] eqn:Hl1; [|discriminate Hok]. cbn [obind] in Hok.
  destruct (NewList None 8 [number 2] w1) as [[l2 w2]|] eqn:Hl2; [|discriminate Hok]. cbn [obind] in Hok. destruct (NewList None 8 [number 1; number 2] w2) as [[r w3]|] eqn:Hr; [|discriminate Hok].
  destruct (concat_canonical ltac:(split; reflexivity) None 80 8 8 8 [number 1] [number 2] NewTypeCache l1 w1 l2 w2 r w3) as [w4 Hc];
    [exact new_world_ok|exact (proj1 (proj1 (Forall_app _ [number 1] [number 2]) small_numbers))|exact (proj2 (proj1 (Forall_app _ [number 1] [number 2]) small_numbers))
    |reflexivity|exact Hl1|exact Hl2|exact Hr|cbn; lia|]. exists l1, w1, l2, w2, r, w3, w4. split; [reflexivity|]. split; [exact Hl2|]. split; [exact Hr|exact Hc].
Defined.
