(* ===== verification/BlobFacts.v ===== *)
(** * Package [types]: blobs have one tree

    The chunker of [readBlob] cuts the bytes where the generic chunker does, so
    the tree of a blob is determined by its bytes, and a [BlobReader] reads them
    back. *)

From S2P Require Import Prelude GoLib HashPkg TypesCodec TypesType TypesValue TypesIntern RollingHash Sequences Chunker Lists Blobs ChunkerFacts CursorFacts AppendFacts BuildFacts ResumeFacts AlignFacts DoneFacts TreeFacts EditFacts CacheFacts RecordFacts CollectionFacts IndexedFacts.
Import Hash Float64 NumberUtil Codec NomsKinds TypeCache Values Rolling Sequences Chunker Lists Blobs.
Import BuzFacts RollingFacts ChunkerFacts CursorFacts AppendFacts BuildFacts ResumeFacts AlignFacts DoneFacts TreeFacts EditFacts CacheFacts RecordFacts CollectionFacts IndexedFacts.

Module BlobFacts.

Section laws.
Context `{GoSort} `{chunkingConfig} (vr : option (Hash -> option Value)).

Definition byte_of (x : sequenceItem) : list byte := match x with BItem b => [b] | _ => [] end.
#[export] Instance blob_indexed : indexed := {|
  ix_kind := BlobKind; ix_leaf := makeBlobLeafChunkFn; ix_hash := hashValueByte; ix_ok w x := match x with BItem _ => True | _ => False end; ix_bytes w x := byte_of x
|}.
Lemma blob_leaf_replays items : replays (makeBlobLeafChunkFn items).
Proof.
  apply (replays_pure (all_ok as_byte items) (fun buff w => chunkBlobLeaf buff w)). intros buff _. apply replays_bind; [apply newOrderedKey_replays|]. intros key. apply replays_ret.
Qed.
Lemma blob_leaf_ok items w col key n w' : typed w -> small true items -> makeBlobLeafChunkFn items w = Ok (col, key, n, w') -> chunk_ok true items col n /\ count_key key.
Proof.
  intros Hw Hsm Hc. unfold makeBlobLeafChunkFn, chunkBlobLeaf in Hc. destruct (all_ok as_byte items) as [buff|] eqn:Hv; [|done]. apply (all_ok_inv _ BItem) in Hv; [|by intros [] ? [= ->]]. cbn [obind] in Hc.
  destruct (orderedKeyFromInt _ w) as [[key' w1]|] eqn:Hk; [|done]. cbn [obind] in Hc. apply number_key in Hk as [-> ->]; [|done]. injection Hc as <- <- <- _.
  assert (Zlength items = Zlength buff) as Hlen by (subst items; unfold Zlength; by rewrite length_map). pose proof (Zlength_nonneg buff) as Hn. specialize (Hsm eq_refl).
  assert (2 ^ 63 < 2 ^ 64) as Hpow by done. split; [split|].
  - by exists (blobLeafSequence buff).
  - by apply Z.mod_pos_bound.
  - intros _ _. rewrite weigh_leaf, Hlen. apply Z.mod_small. lia.
  - exists (Zlength buff). split; [done|lia].
Qed.
#[export] Instance blob_indexed_laws : indexed_laws.
Proof.
  split; cbn [ix_kind ix_leaf ix_hash ix_ok ix_bytes blob_indexed].
  - by right.
  - apply blob_leaf_replays.
  - intros items w col key n w'. apply blob_leaf_ok.
  - done.
  - by intros w [| | |].
  - intros w [|b| |] rv; try done. intros _. cbn [hashValueByte byte_of fst snd]. by rewrite rv_one.
Qed.
#[export] Instance blob_chunking : chunking := collection_chunking vr.
#[export] Instance blob_laws : chunk_laws := collection_chunk_laws vr.

#[local] Instance BItem_inj : Inj eq eq BItem.
Proof. by intros b b' [= ->]. Qed.
Lemma bytes_ok st data : Forall (ok true st) (map BItem data).
Proof. apply Forall_map, Forall_true. done. Qed.
Lemma Zlength_bytes data : Zlength (map BItem data) = Zlength data.
Proof. unfold Zlength. by rewrite length_map. Qed.

(** ** Cutting the bytes *)

Section runs.
Context (Hwin : 0 < chunkWindow < 2 ^ 32).
#[local] Abbreviation wn := (Z.to_nat chunkWindow).

Lemma hist_bytes data : hist byte_of (map BItem data) = data.
Proof. induction data as [|b data IH]; [done|]. cbn. f_equal. exact IH. Qed.
(** The builder has read [data]: its chunks, what is in the buffer, and the hasher. *)
Record builds (s : blobBuilder) (data : list byte) : Prop := MkBuilds {
  bu_room : 0 <= bb_offset s <= Zlength (chunkBytes s) /\ 0 < Zlength (chunkBytes s);
  bu_cut : cut byte_of [] (map BItem data) (map (map BItem) (bb_input s)) (map BItem (take (Z.to_nat (bb_offset s)) (chunkBytes s)));
  bu_rv : rv_read (bb_rv s) data;
  bu_clear : crossedBoundary (bb_rv s) = false
}.
Lemma new_builds : builds new_builder [].
Proof.
  split; [|apply cut_nil|by apply new_rv_read|done]. cbn [new_builder bb_offset chunkBytes]. unfold make_bytes, Zlength. rewrite length_replicate. lia.
Qed.
(** One byte is in the buffer, before it is known whether it ends a chunk. *)
Lemma addByte_ok s data b : builds s data -> exists s', addByte b s = Ok (crosses data [b], s') /\ bb_input s' = bb_input s /\ bb_offset s' = bb_offset s + 1 /\
  bb_offset s' <= Zlength (chunkBytes s') /\ take (Z.to_nat (bb_offset s')) (chunkBytes s') = take (Z.to_nat (bb_offset s)) (chunkBytes s) ++ [b] /\
  rv_read (bb_rv s') (data ++ [b]) /\ crossedBoundary (bb_rv s') = crosses data [b].
Proof.
  intros [[Hroom Hpos] _ Hrv Hcl]. unfold addByte. set (buf := if _ <=? _ then _ else _).
  assert (bb_offset s < Zlength buf /\ take (Z.to_nat (bb_offset s)) buf = take (Z.to_nat (bb_offset s)) (chunkBytes s)) as [Hlt Htake].
  { unfold buf. destruct (Z.leb_spec (Zlength (chunkBytes s)) (bb_offset s)) as [Hle|Hgt]; [|done]. rewrite Zlength_app. unfold make_bytes. unfold Zlength at 2. rewrite length_replicate. fold (Zlength (chunkBytes s)).
    split; [lia|]. rewrite take_app_le by (unfold Zlength in *; lia). done. }
  unfold set_index. rewrite (proj2 (Z.leb_le 0 _)), (proj2 (Z.ltb_lt _ _)) by lia. cbn [andb obind].
  destruct (rv_read_bytes Hwin [b] (bb_rv s) data Hrv) as (rv' & He & Hr & Hc & _). rewrite <- rv_one in He. rewrite He. cbn [obind]. rewrite Hcl in Hc. cbn [orb] in Hc.
  eexists. rewrite Hc. split; [done|]. cbn [bb_input bb_offset chunkBytes bb_rv]. unfold Zlength in *. split_and!; try done; [rewrite length_insert; lia|].
  replace (Z.to_nat (bb_offset s + 1)) with (S (Z.to_nat (bb_offset s))) by lia. rewrite (take_S_r _ _ b) by (apply list_lookup_insert_eq; lia). by rewrite take_insert_ge, Htake by lia.
Qed.
Lemma add_one s data b : builds s data -> exists s', (let! (crossed, s) := addByte b s in if crossed : bool then makeChunk (clear_boundary s) else Ok s) = Ok s' /\ builds s' (data ++ [b]).
Proof.
  intros Hs. destruct (addByte_ok s data b Hs) as (s1 & -> & Hin & Hoff & Hroom & Htake & Hrv & Hcr). cbn [obind]. destruct Hs as [[Hr0 Hpos] Hcut _ _].
  pose proof (cut_snoc _ _ _ _ _ (BItem b) Hcut) as Hs. cbn [app] in Hs. rewrite hist_bytes in Hs. change (byte_of (BItem b)) with [b] in Hs.
  change [BItem b] with (map BItem [b]) in Hs. rewrite <- !map_app, <- Htake in Hs. destruct (crosses data [b]).
  - unfold makeChunk, clear_boundary. cbn [chunkBytes bb_offset bb_input bb_rv]. unfold slice. rewrite (proj2 (Z.leb_le 0 0)), (proj2 (Z.leb_le 0 _)), (proj2 (Z.leb_le _ (Zlength _))) by lia. cbn [andb obind].
    eexists. split; [done|]. split; cbn [chunkBytes bb_offset bb_input bb_rv]; [lia| |by apply clear_rv_read|done]. rewrite take_0, Z.sub_0_r, drop_0, Hin, (map_app (map BItem)). exact Hs.
  - exists s1. split; [done|]. split; [lia|by rewrite Hin|done|done].
Qed.
Lemma add_bytes_ok more : forall s data, builds s data -> exists s', add_bytes more s = Ok s' /\ builds s' (data ++ more).
Proof.
  unfold add_bytes. induction more as [|b more IH]; intros s data Hs; cbn [fold_w]; [exists s; by rewrite app_nil_r|].
  destruct (add_one s data b Hs) as (s1 & -> & Hs1). cbn [obind]. destruct (IH s1 (data ++ [b]) Hs1) as (s2 & He & Hs2). exists s2. by rewrite <- app_assoc in Hs2.
Qed.
Lemma add_reads_ok rs : forall s data, builds s data -> exists s', fold_w add_bytes rs s = Ok s' /\ builds s' (data ++ concat rs).
Proof.
  induction rs as [|bs rs IH]; intros s data Hs; cbn [fold_w concat]; [exists s; by rewrite app_nil_r|].
  destruct (add_bytes_ok bs s data Hs) as (s1 & -> & Hs1). cbn [obind]. destruct (IH s1 (data ++ bs) Hs1) as (s2 & He & Hs2). exists s2. by rewrite <- app_assoc in Hs2.
Qed.
(** The chunks are those of the generic chunker. *)
Lemma chunk_bytes_ok r : ends_eof r = true -> exists cps cs rr, chunk_bytes r = Ok cps /\ cut byte_of [] (map BItem (concat (reads r))) cs rr /\ map (map BItem) cps = full cs rr.
Proof.
  intros He. unfold chunk_bytes. destruct (add_reads_ok (reads r) new_builder [] new_builds) as (s & -> & [[Hroom _] Hcut _ _]). rewrite He. cbn [obind check app] in *.
  destruct (Z.ltb_spec 0 (bb_offset s)) as [Hlt|Hge].
  - unfold makeChunk, slice. rewrite (proj2 (Z.leb_le 0 0)), (proj2 (Z.leb_le 0 _)), (proj2 (Z.leb_le _ (Zlength _))) by lia. cbn [andb obind bb_input]. rewrite Z.sub_0_r, drop_0.
    eexists _, _, _. split; [done|]. split; [exact Hcut|]. rewrite map_app. unfold full. f_equal. cbn [map]. destruct (map BItem (take _ _)) eqn:Hnil; [|done]. exfalso.
    apply (f_equal length) in Hnil. rewrite length_map, length_take in Hnil. unfold Zlength in Hroom. cbn in Hnil. lia.
  - eexists _, _, _. split; [done|]. split; [exact Hcut|]. assert (bb_offset s = 0) as -> by lia. unfold full. cbn. by rewrite app_nil_r.
Qed.

(** ** The tree of the tuples *)

Lemma all_bytes cp : all_ok as_byte (map BItem cp) = Ok cp.
Proof. induction cp as [|b cp IH]; cbn [map all_ok as_byte obind]; [done|]. by rewrite IH. Qed.
Lemma leaf_tuple_create cp st mt st' : leaf_tuple false cp st = Ok (mt, st') -> exists seq, create true (map BItem cp) st = Ok (seq, mt, st').
Proof.
  unfold leaf_tuple, create, createSequence, level_makeChunk. cbn [current c_makeChunk blob_chunking collection_chunking indexed_collection cn_leaf ix_leaf blob_indexed]. unfold makeBlobLeafChunkFn. rewrite all_bytes. cbn [obind].
  unfold chunkBlobLeaf. destruct (orderedKeyFromInt _ _) as [[key w]|]; [|done]. cbn [obind sequence_of]. destruct (NewRef _ w) as [[ref w1]|]; [|done]. cbn [obind]. intros [= <- <-]. by eexists.
Qed.
#[local] Abbreviation leaf_chunks cps := (map (map BItem) cps).
Lemma append_tuples_run fuel cps : forall pre ts parents st sc st', inv st -> Forall2 (tuple_of true st) (leaf_chunks pre) ts -> psim st ts (new_chunker None) parents -> uncursored parents ->
  Forall (fun cp => cp <> [] /\ Zlength cp < 2 ^ 63) cps -> append_tuples vr fuel false cps (new_chunker None) parents st = Ok (sc, st') ->
  inv st' /\ le st st' /\ exists ts' parents', sc = new_chunker None :: parents' /\ Forall2 (tuple_of true st') (leaf_chunks (pre ++ cps)) ts' /\ psim st' ts' (new_chunker None) parents' /\ uncursored parents'.
Proof.
  induction cps as [|cp cps IH]; intros pre ts parents st sc st' Hinv Hts Hp Hu Hsm; cbn [append_tuples].
  - intros [= <- <-]. split; [done|]. split; [apply cl_refl|]. exists ts, parents. by rewrite app_nil_r.
  - destruct (leaf_tuple false cp st) as [[mt st1]|] eqn:Hlt; [|done]. cbn [obind]. apply Forall_cons in Hsm as [[Hne Hcp] Hsm]. destruct (leaf_tuple_create _ _ _ _ Hlt) as [seq Hcr].
    destruct (cl_create true st (map BItem cp) seq mt st1) as (Hinv1 & Hle1 & Hm); [done|apply bytes_ok|by right|intros _; by rewrite Zlength_bytes|done|].
    destruct (match parents with [] => _ | _ :: _ => _ end) as [[parents1 st1']|] eqn:Hpar; [|done]. cbn [obind].
    assert (st1' = st1 /\ sim st1 false ts parents1 /\ uncursored parents1) as (-> & Hs1 & Hu1).
    { pose proof (tuples_ok _ _ _ _ Hts) as Hok. destruct parents as [|p ps]; [|injection Hpar as <- <-; split_and!; [done|by apply (sim_le st)|done]]. destruct Hp as [-> _]. destruct fuel as [|fuel]; [done|].
      rewrite createParent_S in Hpar. injection Hpar as <- <-. split_and!; [done|by apply new_sim|by constructor]. }
    destruct (Append _ _ _ _ _ fuel false parents1 (MItem mt) st1) as [[parents2 st2]|] eqn:Ha; [|done]. cbn [obind]. intros Hr.
    destruct (Append_run Hwin fuel false ts (MItem mt) parents1 st1 parents2 st2) as (Hinv2 & Hle2 & Hs2 & Hc2); [done|done| |apply Hm; by destruct cp|done|exact Ha|].
    { eapply oks_le; [exact Hle1|]. by eapply tuples_ok. }
    assert (Forall2 (tuple_of true st2) (leaf_chunks (pre ++ [cp])) (ts ++ [MItem mt])) as Hts2.
    { rewrite map_app. apply Forall2_app; [apply (tuples_le true st); [by eapply cl_trans|done]|]. constructor; [|done]. exists seq, mt. split; [done|]. split; [by eapply made_le|by destruct cp]. }
    destruct (IH (pre ++ [cp]) (ts ++ [MItem mt]) parents2 st2 sc st') as (Hinv3 & Hle3 & ts' & parents' & -> & Hts3 & Hp3 & Hu3); [done|done|by destruct parents2; [inversion Hs2|]|by apply (same_uncursored parents1)|done|exact Hr|].
    split; [done|]. split; [eapply cl_trans; [|exact Hle3]; by eapply cl_trans|]. exists ts', parents'. rewrite <- app_assoc in Hts3. done.
Qed.
(** The tree over the tuples of the leaves. *)
Lemma tuples_tree n st items cs rr ts rest r : Forall (ok true st) items -> cut (bytes true st) [] items cs rr -> Forall2 (tuple_of true st) (full cs rr) ts -> ts <> [] ->
  built st false (ts :: rest) -> rooted n st false (ts :: rest) r -> (length (ts :: rest) < n)%nat -> has_tree n st items r.
Proof.
  intros Hok Hc Hts Hne Hb Hr Hl. destruct cs as [|ck cs].
  - assert (rr = items) as -> by (by destruct Hc as [-> _]). destruct items as [|x items]; [by inversion Hts|]. cbn [full app] in Hts. apply Forall2_cons_inv_l in Hts as (t & ts0 & (seq & mt & -> & Hm & _) & Hnil & ->).
    apply Forall2_nil_inv_l in Hnil as ->. destruct (cut_exists (bytes false st) [MItem mt] []) as (cs' & r' & Hc').
    pose proof (single_root n st false _ r Hb Hr [MItem mt] rest cs' r' eq_refl Hc') as Hroot. unfold root_over in Hroot. cbn [orb length Nat.ltb Nat.leb] in Hroot.
    destruct Hroot as (mt' & Heq & Hd); [exact (chunks_fewer _ _ _ _ _ Hc')|by right|].
    injection Heq as <-. assert (r = seq) as ->.
    { inversion Hd as [? ? ? Hch _|? ? t mt2 ? Hch _]; subst; rewrite (md_child _ _ _ _ _ Hm) in Hch; [by injection Hch|]. injection Hch as ->. by pose proof (md_meta _ _ _ _ _ Hm). }
    exists []. split_and!; [by constructor| |cbn [length] in *; lia]. left. split; [by left|]. by exists mt.
  - exists (ts :: rest). split_and!; [by apply (built_up st true items (ck :: cs) rr ts rest)|done|cbn [length] in *; lia].
Qed.
(** The tuples that [readBlob] makes of the leaves, and the levels over them. *)
Definition leaf_tree (n : nat) (st : cstate) (items : list sequenceItem) (r : sequence) : Prop := exists cs rr ts,
  cut (bytes true st) [] items cs rr /\ Forall2 (tuple_of true st) (full cs rr) ts /\
  match ts with [] => exists mt, made true st [] r mt | _ => exists rest, built st false (ts :: rest) /\ rooted n st false (ts :: rest) r /\ (length (ts :: rest) < n)%nat end.
Lemma leaf_tree_le n st st' items r : le st st' -> Forall (ok true st) items -> leaf_tree n st items r -> leaf_tree n st' items r.
Proof.
  intros Hle Hok (cs & rr & ts & Hc & Hts & Hr). exists cs, rr, ts. split; [by apply (cut_le true st)|]. split; [by apply (tuples_le true st)|].
  destruct ts as [|t ts]; [destruct Hr as (mt & Hm); exists mt; by eapply made_le|]. destruct Hr as (rest & Hb & Hro & Hl). exists rest. split_and!; [by apply (built_le st)|by apply (rooted_le n st)|done].
Qed.
(** It is the tree that the generic chunker gives. *)
Lemma leaf_tree_tree n st items r : (0 < n)%nat -> Forall (ok true st) items -> leaf_tree n st items r -> has_tree n st items r.
Proof.
  intros Hn Hok (cs & rr & ts & Hc & Hts & Hr). destruct ts as [|t ts].
  - destruct Hr as (mt & Hm). apply Forall2_nil_inv_r in Hts. apply full_nil in Hts as [-> ->]. assert (items = []) as -> by (by destruct Hc). exists []. split_and!; [by constructor| |cbn; lia].
    left. split; [by left|]. by exists mt.
  - destruct Hr as (rest & Hb & Hro & Hl). by apply (tuples_tree n st items cs rr (t :: ts) rest r).
Qed.
Lemma tuples_Done fuel st items cs rr ts parents r st' : inv st -> Forall (ok true st) items -> cut (bytes true st) [] items cs rr -> Forall2 (tuple_of true st) (full cs rr) ts ->
  psim st ts (new_chunker None) parents -> uncursored parents -> blob_Done vr fuel false (new_chunker None :: parents) st = Ok (r, st') -> inv st' /\ le st st' /\ leaf_tree fuel st' items r.
Proof.
  intros Hinv Hok Hc Hts Hp Hu Hd. destruct fuel as [|fuel]; [done|]. unfold blob_Done in Hd. change (Done vr false makeBlobLeafChunkFn (newIndexedMetaSequenceChunkFn BlobKind) hashValueByte (S fuel) true (new_chunker None :: parents) st) with
    (Done c_vr false c_makeChunk c_parentMakeChunk c_leafHash (S fuel) true (new_chunker None :: parents) st) in Hd. rewrite Done_S in Hd. cbn [new_chunker sc_done sc_cur current negb check obind] in Hd.
  rewrite (psim_pending _ _ _ _ Hp) in Hd. destruct ts as [|t ts].
  - cbn [orb] in Hd. rewrite createSequence_create in Hd. cbn [current] in Hd. destruct (create true [] st) as [[[seq mt] st1]|] eqn:Hcr; [|done]. injection Hd as <- <-.
    destruct (cl_create true st [] seq mt st1) as (Hinv1 & Hle1 & Hm); [done|done|by right|done|done|]. split; [done|]. split; [done|]. exists cs, rr, []. split; [by apply (cut_le true st)|]. split; [by apply (tuples_le true st)|]. by exists mt.
  - cbn [length Nat.eqb negb obind tail] in Hd. assert (sim st false (t :: ts) parents) as Hs by (by destruct parents; [destruct Hp|]).
    destruct (Done_run Hwin fuel false (t :: ts) parents st r st') as (Hinv2 & Hle2 & rest & Hb & Hr & Hl); [done|done|done|by eapply tuples_ok|by left|done|exact Hd|].
    split; [done|]. split; [done|]. exists cs, rr, (t :: ts). split; [by apply (cut_le true st)|]. split; [by apply (tuples_le true st)|]. exists rest. split_and!; [done|apply (rooted_mono fuel); [lia|done]|lia].
Qed.
Lemma chunk_small items cs rr cps : Zlength items < 2 ^ 63 -> cut byte_of [] items cs rr -> leaf_chunks cps = full cs rr -> Forall (fun cp => cp <> [] /\ Zlength cp < 2 ^ 63) cps.
Proof.
  intros Hlt Hc Hfull. assert (forall ck, ck ∈ leaf_chunks cps -> ck <> []) as Hne by (rewrite Hfull; intros ck; by apply (full_nonempty _ _ _ _ _ _ Hc)). destruct Hc as [Hx _]. rewrite <- concat_full, <- Hfull in Hx. clear Hfull. subst items.
  induction cps as [|cp cps IH]; [done|]. cbn [map concat] in Hlt. rewrite Zlength_app, Zlength_bytes in Hlt. pose proof (Zlength_nonneg cp). pose proof (Zlength_nonneg (concat (leaf_chunks cps))).
  constructor; [split; [intros ->; by apply (Hne []); [left|]|lia]|]. apply IH; [lia|]. intros ck Hck. apply Hne. by right.
Qed.
Lemma readBlob_tree fuel r st b st' : inv st -> Zlength (concat (reads r)) < 2 ^ 63 -> readBlob vr fuel false r st = Ok (b, st') ->
  ends_eof r = true /\ (0 < fuel)%nat /\ exists seq, b = Blob seq /\ inv st' /\ le st st' /\ leaf_tree fuel st' (map BItem (concat (reads r))) seq.
Proof.
  intros Hinv Hlt He. unfold readBlob in He. assert (ends_eof r = true) as Heof.
  { destruct (chunk_bytes r) eqn:Hc; [|done]. unfold chunk_bytes in Hc. destruct (fold_w _ _ _); [|done]. cbn [obind] in Hc. by destruct (ends_eof r). }
  split; [done|]. destruct (chunk_bytes_ok r Heof) as (cps & cs & rr & Hcps & Hcut & Hfull). rewrite Hcps in He. cbn [obind] in He.
  destruct (append_tuples vr fuel false cps (new_chunker None) [] st) as [[sc st1]|] eqn:Ha; [|done]. cbn [obind] in He. destruct (blob_Done vr fuel false sc st1) as [[seq st2]|] eqn:Hd; [|done]. injection He as <- <-.
  destruct (append_tuples_run fuel cps [] [] [] st sc st1) as (Hinv1 & Hle1 & ts & parents & -> & Hts & Hp & Hu); [done|constructor|done|constructor| |exact Ha|].
  { apply (chunk_small (map BItem (concat (reads r))) cs rr); [by rewrite Zlength_bytes|done|done]. }
  cbn [app] in Hts. rewrite Hfull in Hts. split; [destruct fuel; [done|lia]|].
  destruct (tuples_Done fuel st1 (map BItem (concat (reads r))) cs rr ts parents seq st2) as (Hinv2 & Hle2 & Ht); [done|apply bytes_ok|done|done|done|done|done|].
  exists seq. split; [done|]. split; [done|]. split; [by eapply cl_trans|done].
Qed.

(** ** Reading the same bytes again *)

Lemma create_leaf_tuple cp st seq mt st' : create true (map BItem cp) st = Ok (seq, mt, st') -> leaf_tuple false cp st = Ok (mt, st').
Proof.
  unfold leaf_tuple, create, createSequence, level_makeChunk. cbn [current c_makeChunk blob_chunking collection_chunking indexed_collection cn_leaf ix_leaf blob_indexed]. unfold makeBlobLeafChunkFn. rewrite all_bytes. cbn [obind].
  unfold chunkBlobLeaf. destruct (orderedKeyFromInt _ _) as [[key w]|]; [|done]. cbn [obind sequence_of]. destruct (NewRef _ w) as [[ref w1]|]; [|done]. cbn [obind]. by intros [= _ <- <-].
Qed.
Lemma append_tuples_ok fuel cps : forall ts more parents st N rest, N = ts ++ more -> built st false (N :: rest) -> inv st -> Forall2 (tuple_of true st) (leaf_chunks cps) more ->
  psim st ts (new_chunker None) parents -> uncursored parents -> (2 * length (N :: rest) <= fuel)%nat ->
  exists parents' st', append_tuples vr fuel false cps (new_chunker None) parents st = Ok (new_chunker None :: parents', st') /\ inv st' /\ le st st' /\ psim st' N (new_chunker None) parents' /\ uncursored parents'.
Proof.
  induction cps as [|cp cps IH]; intros ts more parents st N rest -> Hb Hinv Hmore Hp Hu Hf; cbn [append_tuples map] in *.
  - apply Forall2_nil_inv_l in Hmore as ->. rewrite app_nil_r in *. exists parents, st. split_and!; try done. apply cl_refl.
  - apply Forall2_cons_inv_l in Hmore as (t & more' & (seq & mt & -> & Hm & _) & Hmore & ->). destruct (md_again _ _ _ _ _ Hm st Hinv (cl_refl st)) as (st1 & Hcr & Hinv1 & Hle1). rewrite (create_leaf_tuple _ _ _ _ _ Hcr). cbn [obind].
    assert (Forall (ok false st) (ts ++ MItem mt :: more')) as HokN by (by inversion Hb). apply Forall_app in HokN as [Hok _].
    destruct (match parents with [] => _ | _ :: _ => _ end) as [[parents1 st1']|] eqn:Hpar; [|destruct parents; [|done]; destruct fuel; [cbn in Hf; lia|]; by rewrite createParent_S in Hpar]. cbn [obind].
    assert (st1' = st1 /\ sim st1 false ts parents1 /\ uncursored parents1) as (-> & Hs1 & Hu1).
    { destruct parents as [|p ps]; [|injection Hpar as <- <-; split_and!; [done|by apply (sim_le st)|done]]. destruct Hp as [-> _]. destruct fuel as [|fuel]; [done|].
      rewrite createParent_S in Hpar. injection Hpar as <- <-. split_and!; [done|by apply new_sim|by constructor]. }
    destruct (Append_ok Hwin ((ts ++ MItem mt :: more') :: rest) fuel false _ rest ts (MItem mt) parents1 st1 eq_refl) as (parents2 & st2 & Ha & Hinv2 & Hle2 & Hs2 & Hc2);
      [by apply (built_le st)|done|done|exists more'; by rewrite <- app_assoc|done|].
    cbn [c_vr c_makeChunk c_parentMakeChunk c_leafHash blob_chunking collection_chunking indexed_collection cn_leaf cn_parent cn_hash ix_leaf ix_kind ix_hash blob_indexed] in Ha. rewrite Ha. cbn [obind].
    assert (le st st2) as Hle12 by by eapply cl_trans.
    destruct (IH (ts ++ [MItem mt]) more' parents2 st2 (ts ++ MItem mt :: more') rest) as (parents3 & st3 & Ha3 & Hinv3 & Hle3 & Hp3 & Hu3);
      [by rewrite <- app_assoc|by apply (built_le st)|done|by apply (tuples_le true st)|by destruct parents2; [inversion Hs2|]|by apply (same_uncursored parents1)|done|].
    exists parents3, st3. split_and!; try done. by eapply cl_trans.
Qed.
Lemma readBlob_again fuel n r st seq : inv st -> ends_eof r = true -> leaf_tree n st (map BItem (concat (reads r))) seq -> (4 * n + 6 <= fuel)%nat ->
  exists st', readBlob vr fuel false r st = Ok (Blob seq, st') /\ inv st' /\ le st st'.
Proof.
  intros Hinv Heof (cs & rr & ts & Hc & Hts & Hr) Hf. destruct (chunk_bytes_ok r Heof) as (cps & cs' & rr' & Hcps & Hcut & Hfull). change byte_of with (bytes true st) in Hcut. destruct (cut_fun _ _ _ _ _ _ _ Hcut Hc) as [-> ->].
  unfold readBlob, blob_Done. rewrite Hcps. cbn [obind]. rewrite <- Hfull in Hts. destruct ts as [|t ts].
  - apply Forall2_nil_inv_r in Hts as Hn. destruct cps; [|done]. cbn [append_tuples obind]. destruct Hr as (mt & Hm).
    destruct (Done_ok Hwin [[]] fuel true [] [] [] [new_chunker None] st [] 1%nat seq n eq_refl) as (st' & Hd & Hinv' & Hle'); try done; [apply built_top; [done|apply cut_nil]|left; split; [by left|by exists mt]|by apply new_sim|apply aligned_uncursored; by constructor|lia|by left|cbn [hd length]; lia|].
    cbn [c_vr c_makeChunk c_parentMakeChunk c_leafHash blob_chunking collection_chunking indexed_collection cn_leaf cn_parent cn_hash ix_leaf ix_kind ix_hash blob_indexed] in Hd. rewrite Hd. by exists st'.
  - destruct Hr as (rest & Hb & Hro & Hl). destruct (append_tuples_ok fuel cps [] (t :: ts) [] st (t :: ts) rest) as (parents & st1 & -> & Hinv1 & Hle1 & Hp & Hu); [done|done|done|done|done|constructor|lia|]. cbn [obind].
    destruct fuel as [|fuel]; [lia|]. change (Done vr false makeBlobLeafChunkFn (newIndexedMetaSequenceChunkFn BlobKind) hashValueByte (S fuel) true (new_chunker None :: parents) st1) with
      (Done c_vr false c_makeChunk c_parentMakeChunk c_leafHash (S fuel) true (new_chunker None :: parents) st1). rewrite Done_S. cbn [new_chunker sc_done sc_cur current negb check obind].
    rewrite (psim_pending _ _ _ _ Hp). cbn [length Nat.eqb negb obind tail]. assert (sim st1 false (t :: ts) parents) as Hs by (by destruct parents; [destruct Hp|]).
    destruct (Done_ok Hwin ((t :: ts) :: rest) fuel false (t :: ts) rest (t :: ts) parents st1 [] 1%nat seq n eq_refl) as (st' & -> & Hinv' & Hle'); try done;
      [by apply (built_le st)|by apply (rooted_le n st)|by apply aligned_uncursored|lia|cbn [hd drop]; by rewrite app_nil_r|by right|cbn [hd length] in *; lia|].
    cbn [obind]. exists st'. split_and!; try done. by eapply cl_trans.
Qed.

End runs.

(** ** Reading a blob *)

Section reading.
Context (st : cstate) (data : list byte) (rest : list (list sequenceItem)) (Ht : tower st true (map BItem data :: rest)) (Hlt : Zlength data < 2 ^ 63).

Lemma si_advance_at k : forall q cur, at_ st true (map BItem data :: rest) q cur -> (q + k <= length data)%nat ->
  exists cur', si_advance vr k cur = Ok (Nat.ltb (q + k) (length data), cur') /\ at_ st true (map BItem data :: rest) (q + k) cur'.
Proof.
  induction k as [|k IH]; intros q cur Hat Hk; cbn [si_advance].
  - exists cur. rewrite Nat.add_0_r in *. split; [|done]. f_equal. f_equal. destruct (Nat.ltb_spec q (length data)) as [Hq|Hq].
    + destruct (lookup_lt_is_Some_2 (map BItem data) q) as [x Hx]; [by rewrite length_map|]. by destruct (at_current _ _ _ _ _ _ _ Hat Hx).
    + apply (at_invalid _ _ _ _ _ _ Hat). rewrite length_map. lia.
  - destruct (lookup_lt_is_Some_2 (map BItem data) q) as [x Hx]; [rewrite length_map; lia|]. destruct (advance_one _ _ _ _ _ _ _ Ht Hat Hx) as (_ & cur' & Ha & Hat').
    cbn [c_vr blob_chunking collection_chunking] in Ha. rewrite Ha. cbn [obind]. rewrite length_map. replace (q + S k)%nat with (S q + k)%nat by lia. destruct (Nat.ltb_spec (S q) (length data)) as [Hlt'|Hge]; [by apply IH; [|lia]|].
    assert (k = 0)%nat as -> by lia. rewrite Nat.add_0_r. exists cur'. split; [|done]. f_equal. f_equal. rewrite (at_invalid _ _ _ _ _ _ Hat') by (rewrite length_map; lia). symmetry. by apply Nat.ltb_ge.
Qed.
(** The leaf of a cursor. *)
Definition on_leaf (cur : sequenceCursor) : Prop := exists bs i tl, cur = MkLevel (blobLeafSequence bs) i :: tl.
Lemma bytes_leaf seq ck : seq_items seq = ck -> Forall (ok true st) ck -> ck <> [] -> exists bs, seq = blobLeafSequence bs.
Proof.
  intros Hi Hok Hne. destruct seq as [bs|t [|x xs]|t [|x xs]|t [|x xs]|t [|x xs]]; cbn in Hi; subst ck; try done; [by exists bs|..]; by apply Forall_inv in Hok.
Qed.
Lemma at_leaf q cur : data <> [] -> at_ st true (map BItem data :: rest) q cur -> on_leaf cur.
Proof.
  intros Hne Hat. inversion Hat as [? ? ? seq Hs Hq|? ? cs r ? ? cs1 ck cs2 i seq mt cur' Hc Hf _ Hmd Hi]; subst.
  - destruct (bytes_leaf seq (map BItem data) Hs (bytes_ok st data)) as [bs ->]; [by destruct data|]. by eexists _, _, _.
  - destruct (bytes_leaf seq ck) as [bs ->]; [apply Hmd| | |by eexists _, _, _].
    + pose proof (bytes_ok st data) as Hok. destruct Hc as [Hx _]. rewrite <- concat_full, Hf, concat_app in Hx. rewrite Hx in Hok. cbn [concat] in Hok. rewrite !Forall_app in Hok. tauto.
    + apply (full_nonempty _ _ _ _ _ ck Hc). rewrite Hf. apply elem_of_app. right. constructor.
Qed.
Lemma leaf_rest q bs i tl : at_ st true (map BItem data :: rest) q (MkLevel (blobLeafSequence bs) i :: tl) -> 0 <= i /\ drop (Z.to_nat i) bs `prefix_of` drop q data /\ ((q < length data)%nat -> i < Zlength bs).
Proof.
  intros Hat. inversion Hat as [? ? ? seq Hs Hq|? ? cs r ? ? cs1 ck cs2 j seq mt cur' Hc Hf _ Hmd Hi]; subst; (split; [lia|]); rewrite Nat2Z.id; unfold Zlength.
  - cbn in Hs. apply (inj (fmap BItem)) in Hs as ->. split; [done|lia].
  - pose proof (md_items _ _ _ _ _ Hmd) as Hck. cbn in Hck. subst ck. rewrite length_map in Hi. split.
    + destruct Hc as [Hx _]. rewrite <- concat_full, Hf, concat_app in Hx. cbn [concat] in Hx. apply (f_equal (drop (length (concat cs1) + j))) in Hx.
      rewrite drop_app_add, drop_app_le, !skipn_map in Hx by (rewrite length_map; lia).
      apply map_eq_app in Hx as (l1 & l2 & -> & Heq & _). apply (inj (fmap BItem)) in Heq as ->. by eexists.
    + intros Hq. destruct Hi as [Hi|[-> ->]]; [lia|]. pose proof (cut_length _ _ _ _ _ _ _ _ Hc Hf) as Hl. cbn in Hl. rewrite !length_map in Hl. lia.
Qed.

(** A reader that has read the first [q] bytes. *)
Record reads_at (q : nat) (cbr : BlobReader) : Prop := MkReadsAt {
  ra_at : at_ st true (map BItem data :: rest) q (cbr_iter cbr);
  ra_leaf : on_leaf (cbr_iter cbr);
  ra_pos : cbr_pos cbr = Z.of_nat q;
  ra_current : match currentReader cbr with None => True | Some r => 0 <= br_i r /\ drop (Z.to_nat (br_i r)) (br_s r) `prefix_of` drop q data end
}.
Lemma at_on_leaf q q' cur cur' : on_leaf cur -> at_ st true (map BItem data :: rest) q' cur' -> (q = q' /\ cur = cur') \/ (q < q')%nat -> on_leaf cur'.
Proof.
  intros Hl Hat [[_ ->]|Hq]; [done|]. pose proof (at_bound _ _ _ _ _ _ Hat) as Hb. rewrite length_map in Hb. apply (at_leaf q'); [by destruct data; cbn in Hb; [lia|]|done].
Qed.
(** The [bytes.Reader] that [Read] reads from. *)
Lemma reader_at q cbr : reads_at q cbr -> exists r, match currentReader cbr with Some r => Ok r | None => updateReader cbr end = Ok r /\ 0 <= br_i r /\
  drop (Z.to_nat (br_i r)) (br_s r) `prefix_of` drop q data /\ (currentReader cbr = None -> (q < length data)%nat -> br_i r < Zlength (br_s r)).
Proof.
  intros [Hat (bs & i & tl & Hc) _ Hr]. destruct (currentReader cbr) as [r|]; [exists r; by destruct Hr|]. unfold updateReader. rewrite Hc in *. exists (MkBytesReader bs i). split; [done|]. cbn [br_i br_s].
  destruct (leaf_rest q bs i tl Hat) as (Hi & Hp & Hlt'). done.
Qed.
Lemma Read_at q cbr k : reads_at q cbr -> 0 < k -> exists p cbr', cbr_seq cbr' = cbr_seq cbr /\
  ((p <> [] /\ p `prefix_of` drop q data /\ reads_at (q + length p) cbr' /\ Read vr cbr k = Ok (p, false, cbr')) \/
   ((q < length data)%nat /\ currentReader cbr <> None /\ currentReader cbr' = None /\ reads_at q cbr' /\ Read vr cbr k = Ok ([], false, cbr')) \/
   (q = length data /\ reads_at q cbr' /\ Read vr cbr k = Ok ([], true, cbr'))).
Proof.
  intros Hra Hk. destruct (reader_at q cbr Hra) as (r & Hr & Hi & Hp & Hnone). unfold Read. rewrite Hr. cbn [obind]. unfold bytesReader_Read. pose proof (at_bound _ _ _ _ _ _ (ra_at _ _ Hra)) as Hb. rewrite length_map in Hb.
  destruct (Z.leb_spec (Zlength (br_s r)) (br_i r)) as [Hdone|Hmore].
  - destruct (si_advance_at 0 q (cbr_iter cbr) (ra_at _ _ Hra)) as (cur' & Ha & Hat); [lia|]. cbn [length]. rewrite Ha. cbn [si_advance] in Ha. injection Ha as Hv <-. rewrite Nat.add_0_r in *. cbn [obind andb].
    assert (forall cr, match cr with None => True | Some r => 0 <= br_i r /\ drop (Z.to_nat (br_i r)) (br_s r) `prefix_of` drop q data end -> reads_at q (MkBlobReader (cbr_seq cbr) (cbr_iter cbr) cr (u64 (cbr_pos cbr + Zlength (@nil byte))))) as Hnew.
    { intros cr Hcr. split; [done|apply Hra| |exact Hcr]. cbn [cbr_pos]. rewrite (ra_pos _ _ Hra). unfold Zlength in *. cbn [length]. rewrite u64_small; lia. }
    destruct (Nat.ltb_spec q (length data)) as [Hq|Hq].
    + exists [], (MkBlobReader (cbr_seq cbr) (cbr_iter cbr) None (u64 (cbr_pos cbr + Zlength (@nil byte)))). split; [done|]. right; left. split_and!; try done; [intros Hn; specialize (Hnone Hn Hq); lia|by apply Hnew].
    + exists [], (MkBlobReader (cbr_seq cbr) (cbr_iter cbr) (Some r) (u64 (cbr_pos cbr + Zlength (@nil byte)))). split; [done|]. right; right. split_and!; try done; [lia|by apply Hnew].
  - set (p := take (Z.to_nat k) (drop (Z.to_nat (br_i r)) (br_s r))). assert (p `prefix_of` drop q data) as Hpp by (etransitivity; [apply prefix_take|done]).
    assert (p <> []) as Hne. { intros Hn. apply (f_equal length) in Hn. unfold p in Hn. rewrite length_take, length_drop in Hn. unfold Zlength in Hmore. cbn in Hn. lia. }
    pose proof (prefix_length _ _ Hpp) as Hpl. rewrite length_drop in Hpl. assert (0 < length p)%nat as Hp0 by (destruct p; [done|cbn; lia]).
    destruct (si_advance_at (length p) q (cbr_iter cbr) (ra_at _ _ Hra)) as (cur' & -> & Hat); [lia|]. cbn [obind andb].
    exists p, (MkBlobReader (cbr_seq cbr) cur' (Some (MkBytesReader (br_s r) (br_i r + Zlength p))) (u64 (cbr_pos cbr + Zlength p))). split; [done|]. left. split; [done|]. split; [done|]. split; [|done].
    split; cbn [cbr_iter cbr_pos currentReader br_i br_s]; [done|apply (at_on_leaf q (q + length p) (cbr_iter cbr)); [apply Hra|done|right; lia]| |].
    + rewrite (ra_pos _ _ Hra). unfold Zlength in *. rewrite u64_small; lia.
    + split; [pose proof (Zlength_nonneg p); lia|]. destruct Hp as [k' Hp]. exists k'. rewrite <- drop_drop, Hp. unfold Zlength. rewrite Z2Nat.inj_add, Nat2Z.id, <- drop_drop by lia.
      assert (length p <= length (drop (Z.to_nat (br_i r)) (br_s r)))%nat by (unfold p; rewrite length_take; lia). by rewrite drop_app_le.
Qed.
(** Reading on gives the remaining bytes: each [Read] gives some, or turns to the
    next leaf. *)
Lemma read_all_at k : 0 < k -> forall steps q cbr, reads_at q cbr -> (2 * (length data - q) + (match currentReader cbr with None => 0 | Some _ => 1 end) < steps)%nat -> read_all vr steps cbr k = Ok (drop q data).
Proof.
  intros Hk. induction steps as [|steps IH]; intros q cbr Hra Hs; [lia|]. cbn [read_all].
  destruct (Read_at q cbr k Hra Hk) as (p & cbr' & _ & [(Hne & Hp & Hra' & ->)|[(Hq & Hsome & Hnone & Hra' & ->)|(-> & Hra' & ->)]]); cbn [obind].
  - pose proof (prefix_length _ _ Hp) as Hpl. rewrite length_drop in Hpl. assert (0 < length p)%nat as Hp0 by (destruct p; [done|cbn; lia]). rewrite (IH _ _ Hra') by (destruct (currentReader cbr'); lia). cbn [obind].
    destruct Hp as [k' Hp]. rewrite <- drop_drop, Hp. by rewrite drop_app_length.
  - rewrite (IH _ _ Hra') by (rewrite Hnone; destruct (currentReader cbr); [lia|done]). done.
  - by rewrite drop_all.
Qed.

End reading.

Lemma empty_root n st r : inv st -> has_tree n st [] r -> r = blobLeafSequence [].
Proof.
  intros Hinv (rest & Hb & Hr & _). inversion Hb as [|? ? cs rr N1 rest0 _ Hc Hne _ _]; subst; [|by destruct (cut_empty _ _ _ _ _ Hc eq_refl)].
  destruct Hr as [[_ (mt & Hm)]|(? & _)]; [|done]. destruct (md_again _ _ _ _ _ Hm st Hinv (cl_refl st)) as (st3 & Hcr & _). unfold create, createSequence, level_makeChunk in Hcr. cbn [current c_makeChunk blob_chunking collection_chunking indexed_collection cn_leaf ix_leaf blob_indexed] in Hcr.
  unfold makeBlobLeafChunkFn in Hcr. cbn [all_ok obind] in Hcr. unfold chunkBlobLeaf in Hcr. destruct (orderedKeyFromInt _ _) as [[key w]|]; [|done]. cbn [obind sequence_of] in Hcr. destruct (NewRef _ w) as [[ref w1]|]; [|done]. by injection Hcr.
Qed.
(** A reader at a position. *)
Lemma open_at n st data r q fuel seq pos : inv st -> has_tree n st (map BItem data) r -> Zlength data < 2 ^ 63 -> (q <= length data)%nat -> (n <= fuel)%nat -> pos = Z.of_nat q ->
  exists rest cur, tower st true (map BItem data :: rest) /\ newCursorAtIndex vr fuel r pos = Ok cur /\ reads_at st data rest q (MkBlobReader seq cur None pos).
Proof.
  intros Hinv Hr Hlt Hq Hn ->. destruct (has_tree_cursor n st _ r q fuel Hr) as (olds & cur & Ht & Hl & Hc & Hat); [by rewrite Zlength_bytes|by rewrite length_map|done|]. exists olds, cur. split_and!; [done|exact Hc|].
  split; try done. cbn [cbr_iter]. destruct data as [|b data]; [|by eapply at_leaf]. assert (q = 0)%nat as -> by (cbn in Hq; lia). apply (empty_root n st r Hinv) in Hr as ->.
  destruct fuel as [|fuel]; [cbn in Hl; lia|]. injection Hc as <-. by eexists _, _, _.
Qed.
Lemma Seek_at n st data r q fuel cbr offset whence : inv st -> has_tree n st (map BItem data) r -> Zlength data < 2 ^ 63 -> (q <= length data)%nat -> (n <= fuel)%nat -> cbr_seq cbr = r -> 0 <= cbr_pos cbr < 2 ^ 63 ->
  (whence = 0 /\ offset = Z.of_nat q) \/ (whence = 1 /\ cbr_pos cbr + offset = Z.of_nat q) \/ (whence = 2 /\ Zlength data + offset = Z.of_nat q) ->
  exists rest cbr', tower st true (map BItem data :: rest) /\ Seek vr fuel cbr offset whence = Ok (inl (Z.of_nat q), cbr') /\ reads_at st data rest q cbr' /\ currentReader cbr' = None /\ cbr_seq cbr' = r.
Proof.
  intros Hinv Hr Hlt Hq Hn Hseq Hpos Hw. destruct (open_at n st data r q fuel r (u64 (Z.of_nat q)) Hinv Hr Hlt Hq Hn) as (rest & cur & Ht & Hc & Hra); [apply u64_small; unfold Zlength in *; lia|].
  exists rest, (MkBlobReader r cur None (u64 (Z.of_nat q))). split; [done|]. split; [|done]. unfold Seek. rewrite Hseq, (has_tree_length n st _ r Hr), Zlength_bytes by (by rewrite Zlength_bytes). unfold Zlength in *.
  assert (forall z, 0 <= z < 2 ^ 63 -> s64 z = z) as Hs by (intros; apply CodecFacts.s64_small; lia).
  destruct Hw as [[-> ->]|[[-> Ho]|[-> Ho]]]; cbn [Z.eqb Pos.eqb]; rewrite ?(Hs (cbr_pos cbr)), ?(Hs (Z.of_nat (length data))), ?Ho, ?(Hs (Z.of_nat q)) by lia; rewrite (proj2 (Z.ltb_ge _ _)) by lia; by rewrite Hc.
Qed.

Lemma NewBlob_tree n r w b w' : 0 < chunkWindow < 2 ^ 32 -> typed w -> Zlength (concat (reads r)) < 2 ^ 63 -> NewBlob vr n [r] w = Ok (b, w') ->
  ends_eof r = true /\ (0 < n)%nat /\ exists seq, b = Blob seq /\ typed w' /\ later w w' /\ leaf_tree n (MkState w' []) (map BItem (concat (reads r))) seq.
Proof.
  intros Hwin Hw Hlt. unfold NewBlob, readBlobsP. destruct (readBlob vr n false r (MkState w [])) as [[b1 st1]|] eqn:He; [|done]. cbn [obind]. intros [= <- <-].
  destruct (readBlob_tree Hwin n r (MkState w []) b1 st1) as (Heof & Hn & seq & -> & Hinv & Hle & Ht); [exact Hw|done|done|]. split; [done|]. split; [done|]. exists seq. split; [done|]. split; [exact Hinv|]. split; [exact Hle|].
  apply (leaf_tree_le n st1); [apply later_refl|apply bytes_ok|done].
Qed.
Lemma Blob_Splice_tree fuel n n' w data ins i d b r : 0 < chunkWindow < 2 ^ 32 -> typed w -> has_tree n (MkState w []) (map BItem data) b -> has_tree n' (MkState w []) (map BItem (take i data ++ ins ++ drop (i + d) data)) r ->
  (i + d <= length data)%nat -> Zlength data < 2 ^ 63 -> (4 * n + 4 * n' + length data + 3 <= fuel)%nat -> exists w', Blob_Splice vr fuel (Blob b) (Z.of_nat i) (Z.of_nat d) ins w = Ok (Blob r, w').
Proof.
  intros Hwin Hw Hl Hr Hid Hlt Hf. assert (inv (MkState w [])) as Hinv by exact Hw. unfold Blob_Splice. destruct ((Z.of_nat d =? 0) && Nat.eqb (length ins) 0) eqn:Hnone.
  - apply andb_true_iff in Hnone as [Hd Hvs]. apply Z.eqb_eq in Hd. apply Nat.eqb_eq in Hvs. assert (d = 0)%nat as -> by lia. destruct ins; [|done]. exists w.
    rewrite Nat.add_0_r in Hr. cbn [app] in Hr. rewrite take_drop in Hr. by rewrite (has_tree_fun n n' (MkState w []) (map BItem data) b r Hinv Hl Hr).
  - clear Hnone. cbn [Blob_Len blob_seq obind]. rewrite (has_tree_length n _ _ b Hl) by (by rewrite Zlength_bytes). rewrite Zlength_bytes. assert (2 ^ 63 < 2 ^ 64) as Hpow by done.
    rewrite !map_app, <- firstn_map, <- skipn_map in Hr. destruct (edit_tree Hwin fuel n n' (MkState w []) (map BItem data) b i d (map BItem ins) r Hinv Hl Hr) as (cur & st' & Hc & He);
      [by rewrite length_map|by rewrite Zlength_bytes|by rewrite length_map|]. unfold Zlength in *.
    rewrite (proj2 (Z.leb_le (Z.of_nat i) _)) by lia. rewrite u64_small by lia. rewrite (proj2 (Z.leb_le (Z.of_nat i + Z.of_nat d) _)) by lia. cbn [check obind]. cbn [c_vr blob_chunking collection_chunking] in Hc. rewrite Hc. cbn [obind]. rewrite Nat2Z.id.
    unfold edit in He. cbn [c_vr c_makeChunk c_parentMakeChunk c_leafHash blob_chunking collection_chunking indexed_collection cn_leaf cn_parent cn_hash ix_leaf ix_kind ix_hash blob_indexed] in He. unfold blob_newChunker, blob_Done. destruct (newSequenceChunker _ _ _ _ _ _ _ _) as [[ch st1]|]; [|done]. cbn [obind] in *.
    destruct (skip_n vr d ch) as [ch1|]; [|done]. cbn [obind] in *. destruct (append_all _ _ _ _ _ _ _ _ _) as [[ch2 st2]|]; [|done]. cbn [obind] in *. rewrite He. by exists (st_tc st').
Qed.

End laws.

End BlobFacts.
Import BlobFacts.

Section theorems.
Context `{GoSort} `{chunkingConfig} (Hwin : 0 < chunkWindow < 2 ^ 32) (vr : option (Hash -> option Value)).

(** C6: [NewBlob] chunks the leaves itself, with a buffer of its own and without the
    generic chunker, and [Splice] uses the generic one; both give the same blob.
    Where the blob of the edited bytes has been read, however its reader splits
    them into reads, deleting [d] bytes at [i] and inserting [ins] there gives that
    very blob, with the same chunks at every level. *)
Theorem blob_splice_canonical fuel n n' old new ins i d w b w1 r w2 : let data := concat (reads old) in world_ok w -> Zlength data < 2 ^ 63 ->
  concat (reads new) = take i data ++ ins ++ drop (i + d) data -> Zlength (concat (reads new)) < 2 ^ 63 -> (i + d <= length data)%nat ->
  NewBlob vr n [old] w = Ok (b, w1) -> NewBlob vr n' [new] w1 = Ok (r, w2) -> (4 * n + 4 * n' + length data + 3 <= fuel)%nat ->
  exists w3, Blob_Splice vr fuel b (Z.of_nat i) (Z.of_nat d) ins w2 = Ok (r, w3).
Proof.
  cbn zeta. intros Hw Hlt Hnew Hlt' Hid Hb Hr Hf. destruct (NewBlob_tree vr n old w b w1 Hwin (world_typed w Hw) Hlt Hb) as (_ & Hn & bs & -> & Hw1 & _ & Ht1).
  destruct (NewBlob_tree vr n' new w1 r w2 Hwin Hw1 Hlt' Hr) as (_ & Hn' & rs & -> & Hw2 & Hl2 & Ht2). rewrite Hnew in Ht2.
  apply (Blob_Splice_tree vr fuel n n' w2 (concat (reads old)) ins i d bs rs Hwin Hw2); try done.
  - apply leaf_tree_tree; [done|apply bytes_ok|]. apply (leaf_tree_le vr n (MkState w1 [])); [done|apply bytes_ok|done].
  - apply leaf_tree_tree; [done|apply bytes_ok|done].
Qed.

(** C17: Reading two readers in parallel and concatenating their blobs gives the blob
    of one reader with the bytes of both: the result of [NewBlob] depends on the
    bytes only, not on how they are spread over readers. *)
Theorem blob_readers_concat fuel n1 n2 n r1 r2 r w b1 w1 b2 w2 b w3 : world_ok w -> concat (reads r) = concat (reads r1) ++ concat (reads r2) -> Zlength (concat (reads r)) < 2 ^ 63 ->
  NewBlob vr n1 [r1] w = Ok (b1, w1) -> NewBlob vr n2 [r2] w1 = Ok (b2, w2) -> NewBlob vr n [r] w2 = Ok (b, w3) ->
  (4 * n1 + 4 * n2 + 4 * n + length (concat (reads r)) + 6 <= fuel)%nat -> exists w4, NewBlob vr fuel [r1; r2] w3 = Ok (b, w4).
Proof.
  intros Hw Hr Hlt Hb1 Hb2 Hb Hf. assert (Zlength (concat (reads r1)) < 2 ^ 63 /\ Zlength (concat (reads r2)) < 2 ^ 63) as [Hlt1 Hlt2].
  { rewrite Hr, Zlength_app in Hlt. pose proof (Zlength_nonneg (concat (reads r1))). pose proof (Zlength_nonneg (concat (reads r2))). lia. }
  destruct (NewBlob_tree vr n1 r1 w b1 w1 Hwin (world_typed w Hw) Hlt1 Hb1) as (He1 & Hn1 & s1 & -> & Hw1 & Hl1 & Ht1).
  destruct (NewBlob_tree vr n2 r2 w1 b2 w2 Hwin Hw1 Hlt2 Hb2) as (He2 & Hn2 & s2 & -> & Hw2 & Hl2 & Ht2).
  destruct (NewBlob_tree vr n r w2 b w3 Hwin Hw2 Hlt Hb) as (_ & Hn & s & -> & Hw3 & Hl3 & Ht3).
  assert (inv (chunking := blob_chunking vr) (MkState w3 [])) as Hinv by exact Hw3. apply (leaf_tree_le vr n1 _ (MkState w3 [])) in Ht1; [|by apply (later_trans _ w2)|apply bytes_ok]. apply (leaf_tree_le vr n2 _ (MkState w3 [])) in Ht2; [|done|apply bytes_ok].
  unfold NewBlob, readBlobsP. destruct (readBlob_again vr Hwin fuel n1 r1 (MkState w3 []) s1 Hinv He1 Ht1) as (st4 & -> & Hinv4 & Hle4); [lia|]. cbn [obind map_w].
  apply (leaf_tree_le vr n2 _ st4) in Ht2 as Ht24; [|done|apply bytes_ok]. destruct (readBlob_again vr Hwin fuel n2 r2 st4 s2 Hinv4 He2 Ht24) as (st5 & -> & Hinv5 & Hle5); [lia|]. cbn [obind map_w fold_w fst snd].
  assert (le (chunking := blob_chunking vr) (MkState w3 []) st5) as Hle by (by apply (later_trans _ (st_tc st4))).
  destruct (concat_tree Hwin fuel n1 n2 n st5 (map BItem (concat (reads r1))) (map BItem (concat (reads r2))) s1 s2 s Hinv5) as [st6 He]; try (by rewrite Zlength_bytes).
  - apply leaf_tree_tree; [done|apply bytes_ok|]. apply (leaf_tree_le vr n1 (MkState w3 [])); [done|apply bytes_ok|done].
  - apply leaf_tree_tree; [done|apply bytes_ok|]. apply (leaf_tree_le vr n2 (MkState w3 [])); [done|apply bytes_ok|done].
  - rewrite <- map_app, <- Hr. apply leaf_tree_tree; [done|apply bytes_ok|]. apply (leaf_tree_le vr n (MkState w3 [])); [done|apply bytes_ok|done].
  - rewrite Hr, length_app in Hf. rewrite !length_map. lia.
  - unfold Blob_Concat. cbn [blob_seq obind]. cbn [c_vr c_makeChunk c_parentMakeChunk c_leafHash blob_chunking collection_chunking indexed_collection cn_leaf cn_parent cn_hash ix_leaf ix_kind ix_hash blob_indexed] in He. rewrite He. by exists (st_tc st6).
Qed.

(** C16: A blob gives its bytes back: its length is their number, and a reader of it
    yields them all, with reads of any size.  [Seek] puts the reader at the position
    it returns, counted from the start, from the current position or from the end,
    and reading on from there yields the bytes behind it; a negative position is an
    error and leaves the reader as it is. *)
Theorem blob_reader fuel n r w b w' k steps : let data := concat (reads r) in world_ok w -> Zlength data < 2 ^ 63 -> NewBlob vr n [r] w = Ok (b, w') ->
  (n <= fuel)%nat -> 0 < k -> (2 * length data < steps)%nat ->
  Blob_Len b = Ok (Zlength data) /\ exists rd, Reader vr fuel b = Ok rd /\ read_all vr steps rd k = Ok data /\
  forall p, (p <= length data)%nat -> exists rd', Seek vr fuel rd (Z.of_nat p) 0 = Ok (inl (Z.of_nat p), rd') /\ read_all vr steps rd' k = Ok (drop p data) /\
    Seek vr fuel rd' (- Z.of_nat p - 1) 1 = Ok (inr NegativePosition, rd') /\
    forall offset whence q, (q <= length data)%nat -> (whence = 1 /\ Z.of_nat p + offset = Z.of_nat q) \/ (whence = 2 /\ Zlength data + offset = Z.of_nat q) ->
    exists rd2, Seek vr fuel rd' offset whence = Ok (inl (Z.of_nat q), rd2) /\ read_all vr steps rd2 k = Ok (drop q data).
Proof.
  cbn zeta. set (data := concat (reads r)). intros Hw Hlt Hb Hf Hk Hs. destruct (NewBlob_tree vr n r w b w' Hwin (world_typed w Hw) Hlt Hb) as (_ & Hn & seq & -> & Hw' & _ & Ht). fold data in Ht.
  apply leaf_tree_tree in Ht; [|done|apply bytes_ok]. assert (inv (chunking := blob_chunking vr) (MkState w' [])) as Hinv by exact Hw'. cbn [Blob_Len blob_seq obind].
  rewrite (has_tree_length n _ _ seq Ht), Zlength_bytes by (by rewrite Zlength_bytes). split; [done|].
  destruct (open_at vr n (MkState w' []) data seq 0 fuel seq 0 Hinv Ht Hlt) as (rest & cur & Htw & Hc & Hra); [lia|done|done|]. exists (MkBlobReader seq cur None 0). unfold Reader. cbn [blob_seq obind]. rewrite Hc. split; [done|].
  split; [apply (read_all_at vr _ _ _ Htw Hlt k Hk steps 0 _ Hra); cbn [currentReader]; lia|]. intros p Hp.
  destruct (Seek_at vr n (MkState w' []) data seq p fuel (MkBlobReader seq cur None 0) (Z.of_nat p) 0 Hinv Ht Hlt Hp Hf) as (rest' & rd' & Htw' & -> & Hra' & Hnone & Hseq); [done|done|by left|]. exists rd'. split; [done|].
  split; [apply (read_all_at vr _ _ _ Htw' Hlt k Hk steps p _ Hra'); rewrite Hnone; lia|]. pose proof (ra_pos _ _ _ _ _ _ Hra') as Hpos. assert (0 <= Z.of_nat p < 2 ^ 63) as Hpz by (unfold Zlength in Hlt; lia). split.
  - unfold Seek. rewrite Hpos. cbn [Z.eqb Pos.eqb]. rewrite (CodecFacts.s64_small (Z.of_nat p)) by lia. by replace (Z.of_nat p + (- Z.of_nat p - 1)) with (-1) by lia.
  - intros offset whence q Hq Hwh. destruct (Seek_at vr n (MkState w' []) data seq q fuel rd' offset whence Hinv Ht Hlt Hq Hf Hseq) as (rest2 & rd2 & Htw2 & -> & Hra2 & Hnone2 & _); [by rewrite Hpos|rewrite Hpos; by right|].
    exists rd2. split; [done|]. apply (read_all_at vr _ _ _ Htw2 Hlt k Hk steps q _ Hra2). rewrite Hnone2. lia.
Qed.

End theorems.

(** A blob of two bytes, and its bytes read by two readers. *)
#[local] Existing Instance go_insertion_sort.
#[local] Existing Instance normalProductionChunks.
Definition reader_of (bs : list byte) : ioReader := MkIoReader [bs] true.
Definition one_byte : list byte := [Byte.x61].
Definition two_bytes : list byte := [Byte.x61; Byte.x62].
Lemma small_blobs : is_ok (let! (_, w1) := NewBlob None 8 [reader_of one_byte] NewTypeCache in NewBlob None 8 [reader_of two_bytes] w1) = true.
Proof. vm_compute. reflexivity. Qed.
Lemma small_readers : is_ok (let! (_, w1) := NewBlob None 8 [reader_of one_byte] NewTypeCache in let! (_, w2) := NewBlob None 8 [reader_of one_byte] w1 in NewBlob None 8 [reader_of (one_byte ++ one_byte)] w2) = true.
Proof. vm_compute. reflexivity. Qed.

Lemma blob_splice_canonical_witness : exists b w1 r w2 w3, NewBlob None 8 [reader_of one_byte] NewTypeCache = Ok (b, w1) /\ NewBlob None 8 [reader_of two_bytes] w1 = Ok (r, w2) /\
  Blob_Splice None 80 b 1 0 [Byte.x62] w2 = Ok (r, w3).
Proof.
  pose proof small_blobs as Hok. destruct (NewBlob None 8 [reader_of one_byte] NewTypeCache) as [[b w1]|] eqn:Hb; [|discriminate Hok]. cbn [obind] in Hok.
  destruct (NewBlob None 8 [reader_of two_bytes] w1) as [[r w2]|] eqn:Hr; [|discriminate Hok].
  destruct (blob_splice_canonical ltac:(split; reflexivity) None 80 8 8 (reader_of one_byte) (reader_of two_bytes) [Byte.x62] 1 0 NewTypeCache b w1 r w2) as [w3 Hs];
    [exact new_world_ok|reflexivity|reflexivity|reflexivity|cbn; lia|exact Hb|exact Hr|cbn; lia|]. exists b, w1, r, w2, w3. split; [reflexivity|]. split; [exact Hr|exact Hs].
Defined.
Lemma blob_readers_concat_witness : exists b1 w1 b2 w2 b w3 w4, NewBlob None 8 [reader_of one_byte] NewTypeCache = Ok (b1, w1) /\ NewBlob None 8 [reader_of one_byte] w1 = Ok (b2, w2) /\
  NewBlob None 8 [reader_of (one_byte ++ one_byte)] w2 = Ok (b, w3) /\ NewBlob None 110 [reader_of one_byte; reader_of one_byte] w3 = Ok (b, w4).
Proof.
  pose proof small_readers as Hok. destruct (NewBlob None 8 [reader_of one_byte] NewTypeCache) as [[b1 w1]|] eqn:Hb1; [|discriminate Hok]. cbn [obind] in Hok.
  destruct (NewBlob None 8 [reader_of one_byte] w1) as [[b2 w2]|] eqn:Hb2; [|discriminate Hok]. cbn [obind] in Hok. destruct (NewBlob None 8 [reader_of (one_byte ++ one_byte)] w2) as [[b w3]|] eqn:Hb; [|discriminate Hok].
  destruct (blob_readers_concat ltac:(split; reflexivity) None 110 8 8 8 (reader_of one_byte) (reader_of one_byte) (reader_of (one_byte ++ one_byte)) NewTypeCache b1 w1 b2 w2 b w3) as [w4 Hc];
    [exact new_world_ok|reflexivity|reflexivity|exact Hb1|exact Hb2|exact Hb|cbn; lia|]. exists b1, w1, b2, w2, b, w3, w4. split; [reflexivity|]. split; [exact Hb2|]. split; [exact Hb|exact Hc].
Defined.
Lemma blob_reader_witness : exists b w rd, NewBlob None 8 [reader_of one_byte] NewTypeCache = Ok (b, w) /\ Reader None 8 b = Ok rd /\ read_all None 4 rd 1 = Ok one_byte.
Proof.
  pose proof small_blobs as Hok. destruct (NewBlob None 8 [reader_of one_byte] NewTypeCache) as [[b w]|] eqn:Hb; [|discriminate Hok].
  destruct (blob_reader ltac:(split; reflexivity) None 8 8 (reader_of one_byte) NewTypeCache b w 1 4) as (_ & rd & Hrd & Hall & _);
    [exact new_world_ok|reflexivity|exact Hb|lia|lia|cbn; lia|]. exists b, w, rd. split; [reflexivity|]. split; [exact Hrd|exact Hall].
Defined.
