(* ===== verification/OrderedFacts.v ===== *)
(** * Package [types]: the chunk functions of maps and sets

    Maps and sets differ in their leaves only.  Their chunk functions obey the laws
    of the chunker, the key of a tuple is the key of the last leaf below it, and a
    search by key finds the leaf that a search of the sorted items finds. *)

From S2P Require Import Prelude GoLib HashPkg TypesCodec TypesType TypesValue TypesIntern RollingHash Sequences Chunker Lists Ordered ChunkerFacts CursorFacts AppendFacts BuildFacts ResumeFacts AlignFacts SkipFacts FinalizeFacts DoneFacts TreeFacts ConcatFacts EditFacts CacheFacts RecordFacts CollectionFacts IndexedFacts OrderFacts.
Import Hash Float64 NumberUtil Codec NomsKinds TypeCache Values Rolling Sequences Chunker Lists Ordered.
Import ChunkerFacts CursorFacts TreeFacts EditFacts CacheFacts RecordFacts CollectionFacts IndexedFacts OrderFacts.

Module OrderedFacts.

(** The leaves of a kind of collection: how they are chunked and hashed, the key of
    an item and the values that are hashed for it. *)
Class ordered := MkOrdered {
  or_kind : NomsKind; or_leaf : makeChunkFn; or_hash : hashValueBytesFn; or_key : sequenceItem -> option Value; or_values : sequenceItem -> list Value
}.
(** [getKey] in a leaf. *)
Definition key_at `{ordered} (items : list sequenceItem) (idx : Z) (w : world) : outcome (orderedKey * world) :=
  let! x := index items idx in match or_key x with Some v => newOrderedKey v w | None => Panic AssertFailed end.
Definition final_key `{ordered} (items : list sequenceItem) (w : world) : outcome (orderedKey * world) :=
  match last items with Some x => match or_key x with Some v => newOrderedKey v w | None => Panic AssertFailed end | None => Ok (emptyKey, w) end.
Class ordered_laws `{chunkingConfig, ordered} : Prop := {
  ol_kind : or_kind = SetKind \/ or_kind = MapKind;
  ol_replays items : replays (or_leaf items);
  ol_chunk items w col key n w' : small true items -> or_leaf items w = Ok (col, key, n, w') ->
    chunk_ok true items col n /\ (exists w1, later w w1 /\ final_key items w1 = Ok (key, w')) /\ exists seq, sequence_of col = Ok seq /\ forall i w, getKey seq i w = key_at items i w;
  ol_hash x v s : or_key x = Some v -> or_hash x s = fold_w HashValue (or_values x) s
}.
(** A value with a key that can be ordered and hashed. *)
Definition sortable (w : world) (v : Value) : Prop := exists key, keyed w v key /\ key_ok w key.
Definition leaf_ok `{ordered} (w : world) (x : sequenceItem) : Prop :=
  (exists v, or_key x = Some v /\ sortable w v) /\ exists bs, record (or_values x) w = Ok (bs, w) /\ Zlength bs < 2 ^ 32.
#[export] Instance ordered_collection `{GoSort} `{chunkingConfig} `{ordered} : collection := {|
  cn_leaf := or_leaf; cn_parent := newOrderedMetaSequenceChunkFn or_kind; cn_hash := or_hash; cn_good := typed;
  cn_ok := leaf_ok; cn_bytes w x := match record (or_values x) w with Ok (bs, _) => bs | Panic _ => [] end
|}.

Section laws.
Context `{GoSort} `{chunkingConfig} `{ordered} `{!ordered_laws}.

Lemma sortable_later w w' v : later w w' -> sortable w v -> sortable w' v.
Proof. intros Hl (key & Hk & Ho). exists key. split; [by eapply keyed_later|by eapply key_ok_later]. Qed.
Lemma leaf_ok_later w w' x : later w w' -> leaf_ok w x -> leaf_ok w' x.
Proof.
  intros Hl [(v & Hv & Hs) (bs & Hr & Hb)]. split; [exists v; split; [done|by eapply sortable_later]|]. exists bs. split; [by eapply record_later|done].
Qed.

(** ** Creating a chunk *)

Lemma target_rereads tuples i : rereads (fun w => all_ok (fun mt => let! es := target_elems w mt in index es i) tuples).
Proof.
  intros w ts w2 Hts Hl. revert ts Hts. induction tuples as [|mt tuples IH]; intros ts; cbn [all_ok]; [done|]. unfold target_elems. destruct (elem_type w (ref_t (mt_ref mt))) as [t|] eqn:Ht; [|done]. cbn [obind].
  rewrite (elem_rereads _ w t w2 Ht Hl). cbn [obind]. destruct (get_type w t) as [T|] eqn:HT; [|done]. cbn [obind]. destruct (get_keeps _ _ _ _ (la_keeps _ _ Hl) HT) as (T' & -> & HD & _). cbn [obind]. rewrite HD.
  destruct (match Desc T with CompoundDesc _ es => Ok es | _ => Panic AssertFailed end) as [es|]; [|done]. cbn [obind]. destruct (index es i) as [e|]; [|done]. cbn [obind].
  unfold target_elems in IH. destruct (all_ok _ tuples) as [es'|]; [|done]. by rewrite (IH _ eq_refl).
Qed.
(** A meta sequence of a kind. *)
Definition ordered_col (tuples : list metaTuple) (w : world) : outcome (Value * world) :=
  match or_kind with
  | SetKind => let! (seq, w) := newSetMetaSequence tuples w in Ok (Set_ seq, w)
  | MapKind => let! (seq, w) := newMapMetaSequence tuples w in Ok (Map seq, w)
  | _ => Panic AssertFailed
  end.
Lemma set_meta_replays tuples : replays (newSetMetaSequence tuples).
Proof.
  apply (replays_read _ (fun ts w => let! (u, w) := MakeUnionType ts w in let! (t, w) := MakeSetType u w in Ok (metaSequence t tuples, w)) (target_rereads tuples 0)).
  intros ts. apply replays_bind; [apply makeUnionType_replays|]. intros u. apply replays_bind; [apply getCompoundType_replays|]. intros t. apply replays_ret.
Qed.
Lemma map_meta_replays tuples : replays (newMapMetaSequence tuples).
Proof.
  apply (replays_read _ (fun kts w => let! vts := all_ok (fun mt => let! es := target_elems w mt in index es 1) tuples in
    let! (uk, w) := MakeUnionType kts w in let! (uv, w) := MakeUnionType vts w in let! (t, w) := MakeMapType uk uv w in Ok (metaSequence t tuples, w)) (target_rereads tuples 0)).
  intros kts. apply (replays_read _ (fun vts w => let! (uk, w) := MakeUnionType kts w in let! (uv, w) := MakeUnionType vts w in let! (t, w) := MakeMapType uk uv w in Ok (metaSequence t tuples, w)) (target_rereads tuples 1)).
  intros vts. apply replays_bind; [apply makeUnionType_replays|]. intros uk. apply replays_bind; [apply makeUnionType_replays|]. intros uv. apply replays_bind; [apply getCompoundType_replays|]. intros t. apply replays_ret.
Qed.
Lemma ordered_col_replays tuples : replays (ordered_col tuples).
Proof.
  unfold ordered_col. destruct ol_kind as [-> | ->]; (apply replays_bind; [first [apply set_meta_replays|apply map_meta_replays]|intros seq; apply replays_ret]).
Qed.
Lemma ordered_col_ok tuples w col w' : ordered_col tuples w = Ok (col, w') -> exists t, sequence_of col = Ok (metaSequence t tuples).
Proof.
  unfold ordered_col, newSetMetaSequence, newMapMetaSequence. destruct ol_kind as [-> | ->]; destruct (all_ok _ tuples) as [ts|]; try done; cbn [obind].
  - destruct (MakeUnionType ts w) as [[u w1]|]; [|done]. cbn [obind]. destruct (MakeSetType u w1) as [[t w2]|]; [|done]. cbn [obind]. intros [= <- _]. by exists t.
  - destruct (all_ok _ tuples) as [vs|]; try done; cbn [obind]. destruct (MakeUnionType ts w) as [[u w1]|]; [|done]. cbn [obind]. destruct (MakeUnionType vs w1) as [[u' w2]|]; [|done]. cbn [obind].
    destruct (MakeMapType u u' w2) as [[t w3]|]; [|done]. cbn [obind]. intros [= <- _]. by exists t.
Qed.
Lemma ordered_meta_replays items : replays (newOrderedMetaSequenceChunkFn or_kind items).
Proof.
  apply (replays_pure (all_ok as_tuple items) (fun tuples w => let! (col, w) := ordered_col tuples w in let! mt := match last tuples with Some mt => Ok mt | None => Panic IndexOutOfRange end in
    Ok (col, mt_key mt, cumulativeNumberOfLeaves tuples, w))).
  intros tuples _. apply replays_bind; [apply ordered_col_replays|]. intros col.
  apply (replays_pure (match last tuples with Some mt => Ok mt | None => Panic IndexOutOfRange end) (fun mt w => Ok (col, mt_key mt, cumulativeNumberOfLeaves tuples, w))). intros mt _. apply replays_ret.
Qed.
Lemma ordered_meta_ok items w col key n w' : newOrderedMetaSequenceChunkFn or_kind items w = Ok (col, key, n, w') ->
  chunk_ok false items col n /\ exists mt t tuples, last items = Some (MItem mt) /\ key = mt_key mt /\ sequence_of col = Ok (metaSequence t tuples) /\ items = map MItem tuples.
Proof.
  intros Hc. unfold newOrderedMetaSequenceChunkFn in Hc. destruct (all_ok as_tuple items) as [tuples|] eqn:Hv; [|done]. apply (all_ok_inv _ MItem) in Hv; [|by intros [] ? [= ->]]. cbn [obind] in Hc.
  fold (ordered_col tuples w) in Hc. destruct (ordered_col tuples w) as [[col' w1]|] eqn:Hm; [|done]. cbn [obind] in Hc. destruct (ordered_col_ok _ _ _ _ Hm) as [t Hs].
  destruct (last tuples) as [mt|] eqn:Hl; [|done]. cbn [obind] in Hc. injection Hc as <- <- <- _. subst items. split; [split|].
  - by exists (metaSequence t tuples).
  - apply cumulative_range.
  - apply cumulative_weigh.
  - exists mt, t, tuples. split_and!; [|done|done|done]. change (map MItem tuples) with (MItem <$> tuples). by rewrite fmap_last, Hl.
Qed.
Lemma final_key_ok items w w1 w' x v key k : last items = Some x -> or_key x = Some v -> keyed w v k -> later w w1 -> final_key items w1 = Ok (key, w') -> key = k.
Proof.
  intros Hx Hv Hk Hl. unfold final_key. rewrite Hx, Hv. destruct (keyed_later _ _ _ _ Hl Hk) as [-> _]. by intros [= <- _].
Qed.
#[export] Instance ordered_collection_laws : collection_laws.
Proof.
  split; cbn [cn_good cn_ok cn_bytes cn_hash ordered_collection].
  - done.
  - apply typed_later.
  - intros [] items; [apply ol_replays|apply ordered_meta_replays].
  - intros [] items w col key n w' Hw Hok Hsm Hc.
    + destruct (ol_chunk _ _ _ _ _ _ Hsm Hc) as (Hck & (w1 & Hl & Hkey) & _). split; [done|]. intros Hne. destruct (last items) as [x|] eqn:Hx; [|by apply last_None in Hx].
      destruct (proj1 (Forall_forall _ _) Hok x (last_Some_elem_of _ _ Hx)) as [(v & Hv & k & Hk & Hko) _]. rewrite (final_key_ok items w w1 w' x v key k) by done. apply ol_replays in Hc as [Hl' _]. by eapply key_ok_later.
    + destruct (ordered_meta_ok _ _ _ _ _ _ Hc) as (Hck & mt & _ & _ & Hmt & -> & _). split; [done|]. intros _. pose proof (proj1 (Forall_forall _ _) Hok _ (last_Some_elem_of _ _ Hmt)) as Ht.
      destruct mt as [ref key m child]. destruct Ht as (_ & Hko & _). apply ordered_meta_replays in Hc as [Hl' _]. by eapply key_ok_later.
  - intros w w' x Hl Hx. split; [by eapply leaf_ok_later|]. destruct Hx as [_ (bs & Hr & _)]. by rewrite Hr, (record_later _ _ _ _ _ Hr Hl).
  - intros w x [_ (bs & Hr & Hb)]. by rewrite Hr.
  - intros w x rv _ [(v & Hv & _) (bs & Hr & _)]. by rewrite (ol_hash x v) by done; rewrite Hr; apply hash_recorded.
Qed.

(** ** The key of an item *)

Definition item_key (w : world) (l : bool) (x : sequenceItem) (k : orderedKey) : Prop :=
  if l then exists v, or_key x = Some v /\ keyed w v k else exists mt, x = MItem mt /\ mt_key mt = k /\ key_good k.
Definition value_rank (w : world) (v : Value) : rank_t := match newOrderedKey v w with Ok (k, _) => rank k | Panic _ => [] end.
Definition item_rank (w : world) (l : bool) (x : sequenceItem) : rank_t :=
  if l then match or_key x with Some v => value_rank w v | None => [] end else match x with MItem mt => rank (mt_key mt) | _ => [] end.
Lemma value_rank_keyed w v k : keyed w v k -> value_rank w v = rank k.
Proof. intros [Hk _]. unfold value_rank. by rewrite Hk. Qed.
Lemma value_rank_later w w' v : later w w' -> sortable w v -> value_rank w' v = value_rank w v.
Proof. intros Hl (k & Hk & _). by rewrite (value_rank_keyed w v k), (value_rank_keyed w' v k) by first [done|by eapply keyed_later]. Qed.
Lemma item_rank_key w l x k : item_key w l x k -> item_rank w l x = rank k /\ key_good k.
Proof.
  destruct l; cbn [item_key item_rank]; [intros (v & -> & Hk); split; [by apply value_rank_keyed|by destruct Hk as (_ & ? & _)]|by intros (mt & -> & <- & ?)].
Qed.
Lemma item_key_fun w l x k k' : item_key w l x k -> item_key w l x k' -> k = k'.
Proof. destruct l; [intros (v & Hv & Hk) (v' & Hv' & Hk'); rewrite Hv in Hv'; injection Hv' as <-; by eapply keyed_fun|by intros (mt & -> & <- & _) (mt' & [= <-] & <- & _)]. Qed.

Context (vr : option (Hash -> option Value)).
#[local] Existing Instance collection_chunking.
#[local] Abbreviation chunking_ := (collection_chunking vr).

(** How a chunk was made. *)
Lemma made_chunk l st ck seq mt : inv (chunking := chunking_) st -> made (H0 := chunking_) l st ck seq mt ->
  exists col n w', chunk_fn l ck (st_tc st) = Ok (col, mt_key mt, n, w') /\ sequence_of col = Ok seq.
Proof.
  intros Hinv Hm. destruct (md_again _ _ _ _ _ Hm st Hinv (later_refl _)) as (st3 & Hc & _). rewrite create_creates in Hc. unfold creates in Hc.
  destruct (chunk_fn l ck (st_tc st)) as [[[[col key] n] w1]|] eqn:Hf; [|done]. cbn [obind] in Hc. destruct (sequence_of col) as [s|] eqn:Hs; [|done]. cbn [obind] in Hc. destruct (NewRef col w1) as [[ref w2]|]; [|done]. cbn [obind] in Hc.
  injection Hc as -> <- _. by exists col, n, w1.
Qed.
(** The key of a tuple is that of the last item below it. *)
Lemma made_key l st ck seq mt x k : inv (chunking := chunking_) st -> made (H0 := chunking_) l st ck seq mt -> small l ck -> last ck = Some x -> item_key (st_tc st) l x k -> mt_key mt = k.
Proof.
  intros Hinv Hm Hsm Hx Hk. destruct (made_chunk _ _ _ _ _ Hinv Hm) as (col & n & w' & Hf & Hs). destruct l.
  - destruct (ol_chunk _ _ _ _ _ _ Hsm Hf) as (_ & (w0 & Hl & Hkey) & _). destruct Hk as (v & Hv & Hk). by apply (final_key_ok ck (st_tc st) w0 w' x v _ k).
  - destruct (ordered_meta_ok _ _ _ _ _ _ Hf) as (_ & mt' & _ & _ & Hmt & -> & _). rewrite Hx in Hmt. injection Hmt as ->. by destruct Hk as (mt1 & [= <-] & <- & _).
Qed.
(** [getKey] in a chunk. *)
Lemma made_getKey l st ck seq mt i x k : inv (chunking := chunking_) st -> made (H0 := chunking_) l st ck seq mt -> small l ck -> ck !! i = Some x -> item_key (st_tc st) l x k ->
  getKey seq (Z.of_nat i) (st_tc st) = Ok (k, st_tc st).
Proof.
  intros Hinv Hm Hsm Hx Hk. destruct (made_chunk _ _ _ _ _ Hinv Hm) as (col & n & w' & Hf & Hs). destruct l.
  - destruct (ol_chunk _ _ _ _ _ _ Hsm Hf) as (_ & _ & s' & Hs' & Hg). rewrite Hs in Hs'. injection Hs' as <-. rewrite Hg. unfold key_at. rewrite (index_nat ck i x Hx). cbn [obind]. destruct Hk as (v & -> & Hk & _). done.
  - destruct (ordered_meta_ok _ _ _ _ _ _ Hf) as (_ & _ & t & tuples & _ & _ & Hs' & ->). rewrite Hs in Hs'. injection Hs' as ->. cbn [getKey]. destruct Hk as (mt' & -> & <- & _).
    rewrite list_lookup_fmap in Hx. apply fmap_Some in Hx as (mt1 & Hx & [= <-]). by rewrite (index_nat tuples i mt' Hx).
Qed.

(** ** Sorted levels *)

Definition sorted_level (w : world) (l : bool) (L : list sequenceItem) : Prop := Forall (fun x => exists k, item_key w l x k) L /\ ascending (item_rank w l) L.
Lemma sorted_level_app w l L K : sorted_level w l (L ++ K) -> sorted_level w l L /\ sorted_level w l K /\ forall x y, x ∈ L -> y ∈ K -> before (item_rank w l) x y.
Proof. intros [[Hl Hk]%Forall_app (Hlk & Hsl & Hsk)%StronglySorted_app]. done. Qed.
Lemma tuple_rank l st ck t : inv (chunking := chunking_) st -> tuple_of (H0 := chunking_) l st ck t -> small l ck -> sorted_level (st_tc st) l ck ->
  (exists k, item_key (st_tc st) false t k) /\ exists x, last ck = Some x /\ item_rank (st_tc st) false t = item_rank (st_tc st) l x.
Proof.
  intros Hinv (seq & mt & -> & Hm & Hne) Hsm [Hk _]. destruct (last ck) as [x|] eqn:Hx; [|by apply last_None in Hx]. destruct (proj1 (Forall_forall _ _) Hk x (last_Some_elem_of _ _ Hx)) as [k Hkx].
  pose proof (made_key _ _ _ _ _ _ _ Hinv Hm Hsm Hx Hkx) as Hmk. destruct (item_rank_key _ _ _ _ Hkx) as [Hr Hg]. split; [by exists k, mt|]. exists x. split; [done|]. rewrite Hr. cbn [item_rank]. by rewrite Hmk.
Qed.
(** The items of a chunk are not behind its last one. *)
Lemma last_rank w l ck x y : sorted_level w l ck -> last ck = Some x -> y ∈ ck -> lt (item_rank w l x) (item_rank w l y) = false.
Proof.
  intros Hs (ck' & ->)%last_Some Hy. apply sorted_level_app in Hs as (_ & _ & Hb). apply elem_of_app in Hy as [Hy| ->%list_elem_of_singleton]; [|apply lt_irrefl]. apply lt_not. apply (Hb y x Hy). by left.
Qed.
Lemma tuples_sorted l st cs ts : inv (chunking := chunking_) st -> Forall2 (tuple_of (H0 := chunking_) l st) cs ts -> small l (concat cs) -> sorted_level (st_tc st) l (concat cs) -> sorted_level (st_tc st) false ts.
Proof.
  intros Hinv. induction 1 as [|ck t cs ts Ht Hts IH]; intros Hsm Hs; [split; constructor|]. cbn [concat] in Hsm, Hs. apply small_app in Hsm as [Hsm1 Hsm2]. apply sorted_level_app in Hs as (Hs1 & Hs2 & Hb).
  destruct (IH Hsm2 Hs2) as [Hk Hasc]. destruct (tuple_rank _ _ _ _ Hinv Ht Hsm1 Hs1) as (Hkt & x & Hx & Hr). split; [by constructor|]. constructor; [done|]. apply Forall_forall. intros t' (i & Hi)%list_elem_of_lookup.
  destruct (Forall2_lookup_r _ _ _ _ _ Hts Hi) as (ck' & Hck' & Ht'). assert (exists cs1 cs2, cs = cs1 ++ ck' :: cs2) as (cs1 & cs2 & ->) by (destruct (list_elem_of_split_length _ _ _ Hck') as (? & ? & ? & _); eauto).
  rewrite concat_app in Hs2, Hsm2, Hb. cbn [concat] in Hs2, Hsm2, Hb. apply small_app in Hsm2 as [_ [Hsm3 _]%small_app]. apply sorted_level_app in Hs2 as (_ & (Hs3 & _)%sorted_level_app & _).
  destruct (tuple_rank _ _ _ _ Hinv Ht' Hsm3 Hs3) as (_ & x' & Hx' & Hr'). unfold before. rewrite Hr, Hr'. apply (Hb x x'); [by apply last_Some_elem_of|]. apply elem_of_app. right. apply elem_of_app. left. by apply last_Some_elem_of.
Qed.
Lemma level_sorted st l L L1 rest : inv (chunking := chunking_) st -> tower (H0 := chunking_) st l (L :: L1 :: rest) -> small l L -> sorted_level (st_tc st) l L -> sorted_level (st_tc st) false L1.
Proof.
  intros Hinv Ht Hsm Hs. inversion Ht as [|? ? cs r ? ? Hok [HL _] Hts Hne Ht1]; subst. rewrite <- concat_full in *. by apply (tuples_sorted l st (full cs r)).
Qed.

(** ** One step of the search *)

Lemma seekTo_ok l st ck seq mt key b : inv (chunking := chunking_) st -> made (H0 := chunking_) l st ck seq mt -> small l ck -> sorted_level (st_tc st) l ck -> key_good key -> ck <> [] \/ b = false ->
  exists i, seeks (item_rank (st_tc st) l) (rank key) ck i /\
    seekTo seq key b (st_tc st) = Ok (if b && Nat.eqb i (length ck) then Z.of_nat (length ck - 1) else Z.of_nat i, b || Nat.ltb i (length ck), st_tc st).
Proof.
  intros Hinv Hm Hsm [Hk Hasc] Hg Hb. set (R := item_rank (st_tc st) l). set (p := fun h => match ck !! Z.to_nat h with Some x => negb (lt (R x) (rank key)) | None => true end).
  assert (seqLen seq = Z.of_nat (length ck)) as Hlen by (unfold seqLen, Zlength; by rewrite (md_items _ _ _ _ _ Hm)).
  destruct (Search_ok (fun i w => let! (k, w) := getKey seq i w in let! (b, w) := orderedKey_Less k key w in Ok (negb b, w)) p (st_tc st) (seqLen seq)) as (m & Hse & Hmb & Hlo & Hhi).
  - lia.
  - intros h Hh. destruct (lookup_lt_is_Some_2 ck (Z.to_nat h) ltac:(lia)) as [x Hx]. destruct (proj1 (Forall_lookup _ _) Hk _ _ Hx) as [k Hkx]. unfold p. rewrite Hx.
    replace h with (Z.of_nat (Z.to_nat h)) at 1 by lia. rewrite (made_getKey _ _ _ _ _ _ _ _ Hinv Hm Hsm Hx Hkx). cbn [obind]. destruct (item_rank_key _ _ _ _ Hkx) as [Hr Hkg]. unfold R. rewrite Hr.
    rewrite (key_Less_rank _ k key) by done. done.
  - intros h h' Hh Hh' Hp. destruct (lookup_lt_is_Some_2 ck (Z.to_nat h) ltac:(lia)) as [x Hx]. destruct (lookup_lt_is_Some_2 ck (Z.to_nat h') ltac:(lia)) as [y Hy]. unfold p in *. rewrite Hx in Hp. rewrite Hy.
    apply negb_true_iff in Hp. apply negb_true_iff. destruct (decide (h = h')) as [<-|Hne]; [congruence|]. pose proof (ascending_lt R ck _ _ x y Hasc Hx Hy ltac:(lia)) as Hbf.
    destruct (lt (R y) (rank key)) eqn:Hy'; [|done]. by rewrite (lt_trans _ _ _ Hbf Hy') in Hp.
  - exists (Z.to_nat m). split.
    + split_and!; [lia| |]; apply Forall_lookup; intros i x Hx.
      * apply lookup_take_Some in Hx as [Hx Hi]. specialize (Hlo (Z.of_nat i) ltac:(lia)). unfold p in Hlo. rewrite Nat2Z.id, Hx in Hlo. by apply negb_false_iff.
      * rewrite lookup_drop in Hx. pose proof (lookup_lt_Some _ _ _ Hx). specialize (Hhi (Z.of_nat (Z.to_nat m + i)) ltac:(lia)). unfold p in Hhi. rewrite Nat2Z.id, Hx in Hhi. by apply negb_true_iff.
    + unfold seekTo. rewrite Hse. cbn [obind]. rewrite Hlen. destruct b; [destruct Hb as [Hb|]; [|done]|]; cbn [andb orb].
      * assert (0 < length ck)%nat as Hpos by (destruct ck; [done|cbn; lia]). rewrite andb_true_r. destruct (Nat.eqb_spec (Z.to_nat m) (length ck)) as [He|He].
        -- rewrite (proj2 (Z.eqb_eq _ _)) by lia. rewrite (proj2 (Z.ltb_lt 0 m)) by lia. cbn [check obind]. repeat f_equal; [lia|]. apply Z.ltb_lt. lia.
        -- rewrite (proj2 (Z.eqb_neq _ _)) by lia. cbn [obind]. repeat f_equal; [lia|]. apply Z.ltb_lt. lia.
      * rewrite andb_false_r. cbn [obind]. repeat f_equal; [lia|]. destruct (Nat.ltb_spec (Z.to_nat m) (length ck)); [apply Z.ltb_lt|apply Z.ltb_ge]; lia.
Qed.
Lemma good_nonempty key : key_good key -> is_emptyKey key = false.
Proof. by destruct key as [[] [] h]. Qed.

(** ** The search *)

Definition descend (fuel : nat) (cur : sequenceCursor) (key : orderedKey) (fi last : bool) (w : world) : outcome (sequenceCursor * world) :=
  let! cs := cur_getChildSequence vr cur in match cs with None => Ok (cur, w) | Some seq => newCursorAt_loop vr fuel cur seq key fi last w end.
Lemma seek_step l st ck seq mt key fi : inv (chunking := chunking_) st -> made (H0 := chunking_) l st ck seq mt -> small l ck -> sorted_level (st_tc st) l ck -> key_good key -> ck <> [] \/ l = true ->
  exists i, seeks (item_rank (st_tc st) l) (rank key) ck i /\ forall fuel tl, newCursorAt_loop vr (S fuel) tl seq key fi false (st_tc st) =
    if negb l && Nat.eqb i (length ck) then if fi then descend fuel (MkLevel seq (Z.of_nat (length ck - 1)) :: tl) key fi false (st_tc st) else Ok (MkLevel seq (Z.of_nat i) :: tl, st_tc st)
    else descend fuel (MkLevel seq (Z.of_nat i) :: tl) key fi false (st_tc st).
Proof.
  intros Hinv Hm Hsm Hs Hg Hne. destruct (seekTo_ok l st ck seq mt key (fi && isMetaSequence seq) Hinv Hm Hsm Hs Hg) as (i & Hi & He); [destruct Hne as [?| ->]; [by left|right; rewrite (md_meta _ _ _ _ _ Hm); apply andb_false_r]|].
  exists i. split; [done|]. intros fuel tl. cbn [newCursorAt_loop]. cbn [newSequenceCursor Z.ltb Z.compare obind]. rewrite (good_nonempty _ Hg), He. cbn [obind]. pose proof (md_meta _ _ _ _ _ Hm) as Hme. rewrite Hme. destruct Hi as [Hle _].
  destruct l; cbn [negb andb]; [rewrite andb_false_r; cbn [andb orb]; destruct (Nat.ltb i (length ck)); [done|]; unfold descend; cbn [cur_getChildSequence getChildSequence]; by destruct seq|].
  rewrite andb_true_r. destruct (Nat.eqb_spec i (length ck)) as [Heq|Hneq], fi; cbn [andb orb]; [done|by rewrite (proj2 (Nat.ltb_ge _ _)) by lia|done|by rewrite (proj2 (Nat.ltb_lt _ _)) by lia].
Qed.
(** The position that the search finds: on levels above the leaves the last item
    stands for all keys behind it. *)
Definition hits (w : world) (l : bool) (L : list sequenceItem) (r : rank_t) (q : nat) : Prop :=
  (seeks (item_rank w l) r L q /\ (l = true \/ (q < length L)%nat)) \/ (l = false /\ S q = length L /\ seeks (item_rank w l) r L (length L)).
Lemma seeks_pos {A} (R : A -> rank_t) r L q x : seeks R r L q -> L !! q = Some x -> lt (R x) r = false.
Proof. intros (_ & _ & Hd) Hx. rewrite Forall_lookup in Hd. apply (Hd 0%nat). by rewrite lookup_drop, Nat.add_0_r. Qed.
(** Items below tuples that come before come before. *)
Lemma items_before l st cs ts r : inv (chunking := chunking_) st -> Forall2 (tuple_of (H0 := chunking_) l st) cs ts -> small l (concat cs) -> sorted_level (st_tc st) l (concat cs) ->
  Forall (fun t => lt (item_rank (st_tc st) false t) r = true) ts -> Forall (fun x => lt (item_rank (st_tc st) l x) r = true) (concat cs).
Proof.
  intros Hinv. induction 1 as [|c t cs ts Ht _ IH]; intros Hsm Hs Hlts; [constructor|]. apply Forall_cons in Hlts as [Hlt Hlts]. cbn [concat] in *. apply small_app in Hsm as [Hsm1 Hsm2]. apply sorted_level_app in Hs as (Hs1 & Hs2 & _).
  apply Forall_app. split; [|by apply IH]. apply Forall_forall. intros y Hy. destruct (tuple_rank _ _ _ _ Hinv Ht Hsm1 Hs1) as (_ & x & Hx & Hr). rewrite Hr in Hlt. by apply (le_lt_trans _ (item_rank (st_tc st) l x)); [apply (last_rank _ l c)|].
Qed.
(** The items before and behind the chunk that is searched. *)
Lemma seek_up l st L cs1 ck cs2 ts r : inv (chunking := chunking_) st -> Forall2 (tuple_of (H0 := chunking_) l st) (cs1 ++ ck :: cs2) ts -> L = concat cs1 ++ ck ++ concat cs2 -> small l L -> sorted_level (st_tc st) l L ->
  hits (st_tc st) false ts r (length cs1) -> Forall (fun x => lt (item_rank (st_tc st) l x) r = true) (concat cs1) /\
  ((exists x, last ck = Some x /\ lt (item_rank (st_tc st) l x) r = false) /\ Forall (fun x => lt (item_rank (st_tc st) l x) r = false) (concat cs2) \/ cs2 = [] /\ Forall (fun x => lt (item_rank (st_tc st) l x) r = true) ck).
Proof.
  set (w := st_tc st). intros Hinv Hts -> Hsm Hs Hh. apply Forall2_app_inv_l in Hts as (ts1 & ts2' & Hts1 & Hts2 & ->). inversion Hts2 as [|? t ? ts2 Ht Hts2']; subst.
  apply small_app in Hsm as [Hsm1 [Hsm2 Hsm3]%small_app]. apply sorted_level_app in Hs as (Hs1 & (Hs2 & Hs3 & Hb23)%sorted_level_app & Hb1). pose proof (Forall2_length _ _ _ Hts1) as Hl1.
  assert (Forall (fun t => lt (item_rank w false t) r = true) ts1) as Hts1lt.
  { destruct Hh as [[(_ & Hh & _) _]|(_ & Hq & _ & Hh & _)]; [by rewrite Hl1, take_app_length in Hh|]. rewrite firstn_all in Hh. by apply Forall_app in Hh as [Hh _]. }
  split.
  - by apply (items_before l st cs1 ts1).
  - destruct (tuple_rank _ _ _ _ Hinv Ht Hsm2 Hs2) as (_ & x & Hx & Hr). fold w in Hr. destruct Hh as [[Hse _]|(_ & Hq & _ & Hh & _)].
    + left. assert (lt (item_rank w l x) r = false) as Hxr by (rewrite <- Hr; apply (seeks_pos _ _ _ _ _ Hse); by rewrite lookup_app_r, Hl1, Nat.sub_diag by lia). split; [by exists x|].
      apply Forall_forall. intros y Hy. pose proof (Hb23 x y (last_Some_elem_of _ _ Hx) Hy) as Hxy. destruct (lt (item_rank w l y) r) eqn:Hyr; [|done]. by rewrite (lt_trans _ _ _ Hxy Hyr) in Hxr.
    + right. rewrite length_app in Hq. cbn [length] in Hq. destruct ts2; [|cbn in Hq; lia]. inversion Hts2'; subst. split; [done|]. rewrite firstn_all in Hh. apply Forall_app in Hh as [_ Hh%Forall_inv].
      pose proof (items_before l st [ck] [t] r Hinv) as Hck. cbn [concat] in Hck. rewrite app_nil_r in Hck. apply Hck; [by repeat constructor|done|done|by constructor].
Qed.

Definition found (fuel : nat) (st : cstate) (l : bool) (olds : list (list sequenceItem)) (r : sequence) (key : orderedKey) (fi : bool) : Prop :=
  let w := st_tc st in let L := hd [] olds in
  (exists q cur, at_ (H0 := chunking_) st l olds q cur /\ hits w l L (rank key) q /\ (exists seq i tl, cur = MkLevel seq i :: tl /\ isMetaSequence seq = negb l) /\
    newCursorAt_loop vr (length olds + fuel) [] r key fi false w = descend fuel cur key fi false w) \/
  (fi = false /\ seeks (item_rank w l) (rank key) L (length L) /\ exists cur, valid cur = false /\ newCursorAt_loop vr (length olds + fuel) [] r key fi false w = Ok (cur, w)).
Lemma cursor_past_end seq ck i tl : seq_items seq = ck -> i = length ck -> valid (MkLevel seq (Z.of_nat i) :: tl) = false.
Proof. intros Hi ->. cbn. unfold seqLen, Zlength. rewrite Hi. bool_lia. Qed.
Lemma found_root fuel st l L r mt key fi : inv (chunking := chunking_) st -> made (H0 := chunking_) l st L r mt -> small l L -> sorted_level (st_tc st) l L -> key_good key -> L <> [] \/ l = true -> found fuel st l [L] r key fi.
Proof.
  intros Hinv Hm Hsm Hs Hg HL. destruct (seek_step l st L r mt key fi Hinv Hm Hsm Hs Hg HL) as (i & Hi & Hloop). specialize (Hloop fuel []). pose proof (md_items _ _ _ _ _ Hm) as Hit. pose proof (md_meta _ _ _ _ _ Hm) as Hme.
  pose proof Hi as [Hle _]. unfold found. cbn [hd length Nat.add]. rewrite Hloop. destruct l; cbn [negb andb] in *.
  - left. exists i, [MkLevel r (Z.of_nat i)]. split_and!; [by constructor|left; split; [done|by left]|by eexists _, _, _|done].
  - destruct HL as [HL|]; [|done]. assert (0 < length L)%nat by (destruct L; [done|cbn; lia]). destruct (Nat.eqb_spec i (length L)) as [-> |Hne]; [|left; exists i, [MkLevel r (Z.of_nat i)]; split_and!; [by constructor|left; split; [done|right; lia]|by eexists _, _, _|done]].
    destruct fi; [left|right].
    + exists (length L - 1)%nat, [MkLevel r (Z.of_nat (length L - 1))]. split_and!; [constructor; [done|lia]|right; split_and!; [done|lia|done]|by eexists _, _, _|done].
    + split_and!; [done|done|]. eexists. split; [|done]. by apply (cursor_past_end r L).
Qed.
Lemma found_up fuel st l L L1 rest r key fi : inv (chunking := chunking_) st -> tower (H0 := chunking_) st l (L :: L1 :: rest) -> small l L -> sorted_level (st_tc st) l L -> key_good key ->
  found (S fuel) st false (L1 :: rest) r key fi -> found fuel st l (L :: L1 :: rest) r key fi.
Proof.
  intros Hinv Ht Hsm Hs Hg. unfold found. cbn [hd]. replace (length (L :: L1 :: rest) + fuel)%nat with (length (L1 :: rest) + S fuel)%nat by (cbn [length]; lia). intros [(p & cur & Hat & Hh & _ & Hloop)|(-> & Hse & cur & Hv & Hloop)].
  - assert (p < length L1)%nat as Hp by (destruct Hh as [[_ [?|?]]|(_ & ? & _)]; [done|done|lia]). destruct (child_of st l L L1 rest p cur Ht Hat Hp) as (cs1 & ck & cs2 & seq & mt & Hts & -> & HL & Hm & Hne & Hch & Hup).
    destruct (seek_up l st L cs1 ck cs2 L1 (rank key) Hinv Hts HL Hsm Hs Hh) as [Hlt1 Hrest]. rewrite Hloop. unfold descend at 1 3. cbn [c_vr collection_chunking] in Hch. rewrite Hch. cbn [obind]. pose proof Hsm as Hsm'. pose proof Hs as Hs'.
    rewrite HL in Hsm', Hs'. apply small_app in Hsm' as [_ [Hsmk _]%small_app]. apply sorted_level_app in Hs' as (_ & (Hsk & _ & _)%sorted_level_app & _).
    destruct (seek_step l st ck seq mt key fi Hinv Hm Hsmk Hsk Hg (or_introl Hne)) as (i & Hi & Hstep). rewrite Hstep. pose proof (md_meta _ _ _ _ _ Hm) as Hme. pose proof (md_items _ _ _ _ _ Hm) as Hit.
    assert (0 < length ck)%nat by (destruct ck; [done|cbn; lia]). destruct Hrest as [[(x & Hx & Hxr) Hgt]|[-> Hck]].
    + assert (i < length ck)%nat as Hik. { pose proof Hi as (Hle & Htk & _). destruct (decide (i = length ck)) as [-> |]; [|lia]. rewrite firstn_all, Forall_forall in Htk. by rewrite (Htk x (last_Some_elem_of _ _ Hx)) in Hxr. }
      left. rewrite (proj2 (Nat.eqb_neq i _)), andb_false_r by lia. eexists _, _. split_and!; [apply Hup; by left| |by eexists _, _, _|done]. left. rewrite HL at 1. split; [apply seeks_app; [done|by apply seeks_over]|right; rewrite HL, !length_app; lia].
    + pose proof (seeks_fun _ _ _ _ _ Hi (seeks_all _ _ _ Hck)) as ->. assert (seeks (item_rank (st_tc st) l) (rank key) L (length (concat cs1) + length ck)) as HsL by (rewrite HL; apply seeks_app; [done|]; cbn [concat]; by rewrite app_nil_r).
      assert (length L = length (concat cs1) + length ck)%nat as HlL by (rewrite HL, !length_app; cbn; lia). rewrite Nat.eqb_refl, andb_true_r. destruct l; cbn [negb] in *; [|destruct fi].
      * left. eexists _, _. split_and!; [apply Hup; by right|left; split; [done|by left]|by eexists _, _, _|done].
      * left. eexists _, _. split_and!; [apply Hup; left; instantiate (1 := (length ck - 1)%nat); lia|right; split_and!; [done|lia|by rewrite HlL]|by eexists _, _, _|done].
      * right. split_and!; [done|by rewrite HlL|]. eexists. split; [|done]. by apply (cursor_past_end seq ck).
  - right. split_and!; [done| |by exists cur]. inversion Ht as [|? ? cs r0 ? ? Hok [HL _] Hts Hne Ht1]; subst. rewrite <- concat_full in *. apply seeks_all. apply (items_before l st (full cs r0) L1); try done. destruct Hse as (_ & Hse & _). by rewrite firstn_all in Hse.
Qed.

Lemma found_at olds : forall fuel st l L rest r key fi, olds = L :: rest -> inv (chunking := chunking_) st -> tower (H0 := chunking_) st l olds -> root_of (H0 := chunking_) st l olds r -> small l L -> sorted_level (st_tc st) l L -> key_good key ->
  L <> [] \/ l = true -> found fuel st l olds r key fi.
Proof.
  induction olds as [|L0 rest0 IH]; intros fuel st l L rest r key fi Heq Hinv Ht Hr Hsm Hs Hg HL; [done|]. injection Heq as -> ->. destruct rest as [|L1 rest].
  - destruct Hr as (mt & Hm). by apply (found_root fuel st l L r mt).
  - apply found_up; try done. inversion Ht as [|? ? cs r0 ? ? Hok Hc Hts Hne Ht1]; subst. apply (IH _ _ _ L1 rest); try done; [by eapply level_sorted|by left].
Qed.
Lemma descend_leaf fuel seq i tl key fi last w : isMetaSequence seq = false -> descend fuel (MkLevel seq i :: tl) key fi last w = Ok (MkLevel seq i :: tl, w).
Proof. unfold descend. by destruct seq. Qed.
(** The cursor to insert at. *)
Lemma insert_cursor fuel n st items r key : inv (chunking := chunking_) st -> has_tree (H0 := chunking_) n st items r -> Zlength items < 2 ^ 63 -> sorted_level (st_tc st) true items -> key_good key -> (n <= fuel)%nat ->
  exists olds q cur, tower (H0 := chunking_) st true (items :: olds) /\ (length (items :: olds) <= n)%nat /\ at_ (H0 := chunking_) st true (items :: olds) q cur /\ seeks (item_rank (st_tc st) true) (rank key) items q /\
    newCursorAt vr fuel r key true false (st_tc st) = Ok (cur, st_tc st).
Proof.
  intros Hinv Ht Hlt Hs Hg Hn. destruct (has_tree_tower _ _ _ _ Ht) as (olds & Htw & Hro & Hlen).
  destruct (found_at (items :: olds) (fuel - length (items :: olds)) st true items olds r key true eq_refl Hinv Htw Hro) as [(q & cur & Hat & Hh & (seq & i & tl & -> & Hme) & Hloop)|(? & _)]; [by intros _|done|done|by right| |done].
  exists olds, q, (MkLevel seq i :: tl). cbn [hd] in Hh. destruct Hh as [[Hse _]|(? & _)]; [|done]. split_and!; [done|done|done|done|]. unfold newCursorAt. replace fuel with (length (items :: olds) + (fuel - length (items :: olds)))%nat by lia.
  rewrite Hloop. by apply descend_leaf.
Qed.
(** The cursor to read at. *)
Lemma read_cursor fuel n st items r key : inv (chunking := chunking_) st -> has_tree (H0 := chunking_) n st items r -> Zlength items < 2 ^ 63 -> sorted_level (st_tc st) true items -> key_good key -> (n <= fuel)%nat ->
  exists q cur, seeks (item_rank (st_tc st) true) (rank key) items q /\ newCursorAt vr fuel r key false false (st_tc st) = Ok (cur, st_tc st) /\
    (forall x, items !! q = Some x -> cur_current cur = Ok x /\ valid cur = true) /\ (items !! q = None -> valid cur = false) /\
    ((length items < fuel)%nat -> iterSequence vr fuel cur = Ok (drop q items)).
Proof.
  intros Hinv Ht Hlt Hs Hg Hn. destruct (has_tree_tower _ _ _ _ Ht) as (olds & Htw & Hro & Hlen). unfold newCursorAt.
  destruct (found_at (items :: olds) (fuel - length (items :: olds)) st true items olds r key false eq_refl Hinv Htw Hro) as [(q & cur & Hat & Hh & (seq & i & tl & -> & Hme) & Hloop)|(_ & Hse & cur & Hv & Hloop)]; [by intros _|done|done|by right| |].
  - replace (length (items :: olds) + (fuel - length (items :: olds)))%nat with fuel in Hloop by lia. cbn [hd] in Hh. destruct Hh as [[Hse _]|(? & _)]; [|done]. exists q, (MkLevel seq i :: tl). split; [done|]. rewrite Hloop. split; [by apply descend_leaf|]. split; [intros x Hx; by apply (at_current _ _ _ _ _ _ _ Hat Hx)|]. split.
    + intros Hx%lookup_ge_None. apply (at_invalid _ _ _ _ _ _ Hat). destruct Hse as [? _]. lia.
    + intros Hf. by apply (iter_at st items olds (length items) Htw fuel q); [done|lia|done].
  - replace (length (items :: olds) + (fuel - length (items :: olds)))%nat with fuel in Hloop by lia. cbn [hd] in Hse. exists (length items), cur. split_and!; [done|by rewrite Hloop|intros x Hx; apply lookup_lt_Some in Hx; lia|done|]. intros Hf. destruct fuel as [|fuel]; [lia|]. cbn [iterSequence]. by rewrite Hv, drop_all.
Qed.
(** The chunker from the cursor to insert at. *)
Lemma insert_edit fuel n n' st items r key q d ins r' : 0 < chunkWindow < 2 ^ 32 -> inv (chunking := chunking_) st -> has_tree (H0 := chunking_) n st items r -> Zlength items < 2 ^ 63 -> sorted_level (st_tc st) true items -> key_good key ->
  seeks (item_rank (st_tc st) true) (rank key) items q -> (q + d <= length items)%nat -> has_tree (H0 := chunking_) n' st (take q items ++ ins ++ drop (q + d) items) r' -> (4 * n + 4 * n' + length items + 3 <= fuel)%nat ->
  exists cur st', newCursorAt vr fuel r key true false (st_tc st) = Ok (cur, st_tc st) /\ edit (H0 := chunking_) fuel cur d ins st = Ok (r', st').
Proof.
  intros Hwin Hinv Ht Hlt Hs Hg Hse Hqd Hr' Hf. destruct (insert_cursor fuel n st items r key Hinv Ht Hlt Hs Hg) as (olds & q' & cur & Htw & Hlen & Hat & Hse' & Hc); [lia|]. rewrite <- (seeks_fun _ _ _ _ _ Hse Hse') in Hat.
  destruct Hr' as (news & Hb & Hro & Hln). destruct (edit_ok Hwin fuel st items olds q cur d ins n n' r' news Htw Hat Hinv) as (st' & He & _); [by eapply has_tree_supports|done|done|done|cbn [length] in *; lia|]. by exists cur, st'.
Qed.
(** What is under the cursor to insert at. *)
Lemma insert_current fuel n st items r key q cur : inv (chunking := chunking_) st -> has_tree (H0 := chunking_) n st items r -> Zlength items < 2 ^ 63 -> sorted_level (st_tc st) true items -> key_good key -> (n <= fuel)%nat ->
  seeks (item_rank (st_tc st) true) (rank key) items q -> newCursorAt vr fuel r key true false (st_tc st) = Ok (cur, st_tc st) ->
  exists seq i tl, cur = MkLevel seq i :: tl /\ match items !! q with Some x => (i <? seqLen seq) = true /\ cur_current cur = Ok x | None => (i <? seqLen seq) = false end.
Proof.
  intros Hinv Ht Hlt Hs Hg Hf Hse Hc. destruct (insert_cursor fuel n st items r key Hinv Ht Hlt Hs Hg Hf) as (olds & q' & cur' & Htw & Hlen & Hat & Hse' & Hc'). rewrite Hc in Hc'. injection Hc' as <-. rewrite <- (seeks_fun _ _ _ _ _ Hse Hse') in Hat.
  assert (exists seq (i : nat) tl, cur = MkLevel seq (Z.of_nat i) :: tl) as (seq & i & tl & ->) by (inversion Hat; eauto). exists seq, (Z.of_nat i), tl. split; [done|]. destruct (items !! q) as [x|] eqn:Hx.
  - destruct (at_current _ _ _ _ _ _ _ Hat Hx) as [Hcur Hv]. split; [|done]. cbn in Hv. by apply andb_true_iff in Hv as [_ ?].
  - apply lookup_ge_None in Hx. destruct Hse as [? _]. pose proof (at_invalid _ _ _ _ _ _ Hat ltac:(lia)) as Hv. cbn in Hv. by rewrite (proj2 (Z.leb_le 0 _)) in Hv by lia.
Qed.

(** ** The ends *)

Definition end_of (last : bool) (n : nat) : nat := if last then (n - 1)%nat else 0%nat.
Lemma end_step fuel tl seq ck fi (last : bool) w : seq_items seq = ck -> ck <> [] \/ last = false -> newCursorAt_loop vr (S fuel) tl seq emptyKey fi last w = descend fuel (MkLevel seq (Z.of_nat (end_of last (length ck))) :: tl) emptyKey fi last w.
Proof.
  intros Hi Hne. cbn [newCursorAt_loop]. destruct last; cbn [end_of]; [|done]. destruct Hne as [Hne|]; [|done]. unfold newSequenceCursor. cbn [Z.ltb Z.compare]. unfold seqLen, Zlength. rewrite Hi. assert (0 < length ck)%nat by (destruct ck; [done|cbn; lia]).
  rewrite (proj2 (Z.leb_le 0 _)) by lia. cbn [check obind is_emptyKey emptyKey]. replace (-1 + Z.of_nat (length ck)) with (Z.of_nat (length ck - 1)) by lia. done.
Qed.
Lemma end_at olds : forall st l L rest r fi (last : bool), olds = L :: rest -> tower (H0 := chunking_) st l olds -> root_of (H0 := chunking_) st l olds r -> L <> [] \/ (l = true /\ last = false) ->
  exists cur, at_ (H0 := chunking_) st l olds (end_of last (length L)) cur /\ (exists seq i tl, cur = MkLevel seq i :: tl /\ isMetaSequence seq = negb l) /\
    forall fuel w, newCursorAt_loop vr (length olds + fuel) [] r emptyKey fi last w = descend fuel cur emptyKey fi last w.
Proof.
  induction olds as [|L0 rest0 IH]; intros st l L rest r fi last Heq Ht Hr HL; [done|]. injection Heq as -> ->. destruct rest as [|L1 rest].
  - destruct Hr as (mt & Hm). pose proof (md_items _ _ _ _ _ Hm) as Hi. exists [MkLevel r (Z.of_nat (end_of last (length L)))]. split; [constructor; [done|destruct last; cbn; lia]|]. split; [eexists _, _, _; split; [done|apply Hm]|].
    intros fuel w. cbn [length Nat.add]. apply end_step; [done|]. destruct HL as [?|[_ ?]]; [by left|by right].
  - inversion Ht as [|? ? cs r0 ? ? Hok Hc Hts Hne Ht1]; subst. destruct (IH st false L1 rest r fi last eq_refl Ht1 Hr (or_introl Hne)) as (cur & Hat & _ & Hloop). assert (0 < length L1)%nat by (destruct L1; [done|cbn; lia]).
    destruct (child_of st l L L1 rest _ cur Ht Hat) as (cs1 & ck & cs2 & seq & mt & Hts' & Hp & HLe & Hm & Hckne & Hch & Hup); [destruct last; cbn; lia|]. assert (0 < length ck)%nat by (destruct ck; [done|cbn; lia]).
    exists (MkLevel seq (Z.of_nat (end_of last (length ck))) :: cur). split; [|split; [eexists _, _, _; split; [done|apply Hm]|]].
    + replace (end_of last (length L)) with (length (concat cs1) + end_of last (length ck))%nat; [apply Hup; left; destruct last; cbn; lia|]. pose proof (Forall2_length _ _ _ Hts') as Hlen. rewrite length_app in Hlen. cbn [length] in Hlen.
      destruct last; cbn [end_of] in *; [|by destruct cs1]. assert (cs2 = []) as -> by (destruct cs2; [done|cbn in Hlen; lia]). rewrite HLe, !length_app. cbn. lia.
    + intros fuel w. replace (length (L :: L1 :: rest) + fuel)%nat with (length (L1 :: rest) + S fuel)%nat by (cbn [length]; lia). rewrite Hloop. unfold descend at 1. cbn [c_vr collection_chunking] in Hch. rewrite Hch. cbn [obind].
      apply end_step; [apply Hm|by left].
Qed.
Lemma end_cursor fuel n st items r fi (last : bool) w : has_tree (H0 := chunking_) n st items r -> (n <= fuel)%nat -> items <> [] \/ last = false ->
  exists olds cur, tower (H0 := chunking_) st true (items :: olds) /\ at_ (H0 := chunking_) st true (items :: olds) (end_of last (length items)) cur /\ newCursorAt vr fuel r emptyKey fi last w = Ok (cur, w).
Proof.
  intros Ht Hn Hne. destruct (has_tree_tower _ _ _ _ Ht) as (olds & Htw & Hro & Hlen). destruct (end_at (items :: olds) st true items olds r fi last eq_refl Htw Hro) as (cur & Hat & (seq & i & tl & -> & Hme) & Hloop); [destruct Hne; [by left|by right]|].
  exists olds, (MkLevel seq i :: tl). split_and!; [done|done|]. unfold newCursorAt. replace fuel with (length (items :: olds) + (fuel - length (items :: olds)))%nat by lia. rewrite Hloop. by apply descend_leaf.
Qed.

(** ** Splicing *)

Lemma splice_build fuel items w : splice vr fuel or_leaf or_kind or_hash None 0 items w = let! (seq, st) := build (H0 := chunking_) fuel items (MkState w []) in Ok (seq, st_tc st).
Proof.
  unfold splice, build, newSequenceChunker. cbn [obind skip_n c_vr c_makeChunk c_parentMakeChunk c_leafHash collection_chunking ordered_collection cn_leaf cn_parent cn_hash]. by destruct (append_all _ _ _ _ _ _ _ _ _) as [[ch st1]|].
Qed.
Lemma splice_edit fuel cur d items w : splice vr fuel or_leaf or_kind or_hash (Some cur) d items w = let! (seq, st) := edit (H0 := chunking_) fuel cur d items (MkState w []) in Ok (seq, st_tc st).
Proof.
  unfold splice, edit. cbn [c_vr c_makeChunk c_parentMakeChunk c_leafHash collection_chunking ordered_collection cn_leaf cn_parent cn_hash]. destruct (newSequenceChunker _ _ _ _ _ _ _ _) as [[ch st1]|]; [|done]. cbn [obind].
  destruct (skip_n vr d ch) as [ch1|]; [|done]. cbn [obind]. by destruct (append_all _ _ _ _ _ _ _ _ _) as [[ch2 st2]|].
Qed.

End laws.

(** ** Sorting by key *)

(** No hash of a value that is ordered by hash is that of one that is not. *)
Definition apart (w : world) (us vs : list Value) : Prop := forall u v, u ∈ us -> v ∈ vs -> by_value u = false -> by_value v = true -> Equals u v w = Ok (false, w).
Lemma apart_later w w' us vs : later w w' -> apart w us vs -> apart w' us vs.
Proof. intros Hl Ha u v Hu Hv Hbu Hbv. by apply (Equals_replays u v _ _ _ (Ha u v Hu Hv Hbu Hbv)). Qed.
Lemma Equals_values w us vs u v : typed w -> apart w us vs -> u ∈ us -> v ∈ vs -> sortable w u -> sortable w v -> Equals u v w = Ok (bool_decide (value_rank w u = value_rank w v), w).
Proof.
  intros Hw Ha Hu Hv (k & Hk & _) (k' & Hk' & _). rewrite (value_rank_keyed _ _ _ Hk), (value_rank_keyed _ _ _ Hk'). apply Equals_rank; try done. by apply (Ha u v).
Qed.
Section data.
Context {A : Type} (key : A -> Value).
Definition key_rank (w : world) (x : A) : rank_t := value_rank w (key x).
Lemma sorted_data w xs : typed w -> Forall (fun x => sortable w (key x)) xs -> apart w (map key xs) (map key xs) ->
  exists ys, (let! (xs, w) := Stable (fun a b => value_Less (key a) (key b)) xs w in match xs with [] => Ok ([], w) | last :: l => uniqueSorted (fun a b => Equals (key a) (key b)) last l w end) = Ok (ys, w) /\
    ascending (key_rank w) ys /\ contents (key_rank w) ys = contents (key_rank w) xs /\ (forall x, x ∈ ys -> x ∈ xs).
Proof.
  intros Hw Hs Ha. set (P := fun x => x ∈ xs). assert (forall x, P x -> sortable w (key x)) as HP by (by apply Forall_forall).
  assert (forall x y, P x -> P y -> value_Less (key x) (key y) w = Ok (lt (key_rank w x) (key_rank w y), w)) as Hless.
  { intros x y (k & Hk & _)%HP (k' & Hk' & _)%HP. unfold key_rank. rewrite (value_rank_keyed _ _ _ Hk), (value_rank_keyed _ _ _ Hk'). by apply value_Less_rank. }
  assert (forall x y, P x -> P y -> Equals (key x) (key y) w = Ok (bool_decide (key_rank w x = key_rank w y), w)) as Heq.
  { intros x y Hx Hy. apply (Equals_values w _ _ _ _ Hw Ha); [by apply (list_elem_of_fmap_2 key)|by apply (list_elem_of_fmap_2 key)|by apply HP|by apply HP]. }
  destruct (Stable_ok (key_rank w) P (fun a b => value_Less (key a) (key b)) w Hless xs) as (ys & -> & Hsy & Hcy & Hpy); [by apply Forall_forall|]. cbn [obind]. destruct ys as [|last l]; [exists []; split_and!; [done|constructor|done|by intros ? ?%elem_of_nil]|].
  assert (forall x, x ∈ last :: l -> P x) as Hin by (intros x Hx; unfold P; by rewrite <- Hpy). destruct (unique_ok (key_rank w) P (fun a b => Equals (key a) (key b)) w Heq l last) as (ys & -> & Hay & Hcy' & _ & Hiny); [apply Hin; by left|apply Forall_forall; intros x Hx; apply Hin; by right|done|].
  exists ys. split_and!; [done|done|congruence|]. intros x Hx. by apply Hin, Hiny.
Qed.
End data.

(** ** The elements of a collection *)

Section elements.
Context `{GoSort} `{chunkingConfig} `{ordered} `{!ordered_laws} (vr : option (Hash -> option Value)).
Context {A : Type} (item : A -> sequenceItem) (key : A -> Value) (Hkey : forall x, or_key (item x) = Some (key x)).
#[local] Abbreviation chunking_ := (collection_chunking vr).
#[local] Abbreviation elem_ok w x := (leaf_ok w (item x)).

Lemma elem_sortable w x : elem_ok w x -> sortable w (key x).
Proof. intros [(v & Hv & Hs) _]. rewrite Hkey in Hv. by injection Hv as <-. Qed.
(** [r] is the tree of the elements [es], sorted by their keys as of [w]. *)
Record tree_at (n : nat) (w w' : world) (es : list A) (r : sequence) : Prop := MkTreeAt {
  ta_later : later w w'; ta_typed : typed w'; ta_ok : Forall (fun x => elem_ok w x) es; ta_sorted : ascending (key_rank key w) es; ta_small : Zlength es < 2 ^ 63;
  ta_tree : has_tree (H0 := chunking_) n (MkState w' []) (map item es) r
}.
Lemma tree_at_later n w w' w2 es r : later w' w2 -> tree_at n w w' es r -> tree_at n w w2 es r.
Proof. intros Hl [Hl' Ht Ho Hs Hsm Htr]. split; try done; [by eapply later_trans|by eapply typed_later|by apply (has_tree_le n (MkState w' []))]. Qed.
Lemma tree_at_fun n n' w w' es es' r r' : tree_at n w w' es r -> tree_at n' w w' es' r' -> contents (key_rank key w) es = contents (key_rank key w) es' -> r = r'.
Proof.
  intros Ht Ht' Hc. rewrite (ascending_unique (key_rank key w) es es' (ta_sorted _ _ _ _ _ Ht) (ta_sorted _ _ _ _ _ Ht') Hc) in Ht. apply (has_tree_fun (H0 := chunking_) n n' (MkState w' []) (map item es')); [exact (ta_typed _ _ _ _ _ Ht)|apply Ht|apply Ht'].
Qed.
Lemma Zlength_map {B C} (f : B -> C) l : Zlength (map f l) = Zlength l.
Proof. unfold Zlength. by rewrite length_map. Qed.
Lemma elem_ranks n w w' es r : tree_at n w w' es r -> Forall (fun x => item_rank w' true (item x) = key_rank key w x) es.
Proof. intros Ht. eapply Forall_impl; [exact (ta_ok _ _ _ _ _ Ht)|]. cbn. intros x Hx%elem_sortable. rewrite Hkey. apply value_rank_later; [apply Ht|done]. Qed.
Lemma elems_sorted n w w' es r : tree_at n w w' es r -> sorted_level w' true (map item es).
Proof.
  intros Ht. split; [|apply (ascending_map (key_rank key w)); [by eapply elem_ranks|apply Ht]]. apply Forall_map. eapply Forall_impl; [exact (ta_ok _ _ _ _ _ Ht)|].
  cbn. intros x (k & Hk & _)%elem_sortable. exists k, (key x). split; [apply Hkey|]. eapply keyed_later; [apply Ht|done].
Qed.
Lemma tree_seeks n w w' es r k kk q : tree_at n w w' es r -> keyed w k kk -> seeks (item_rank w' true) (rank kk) (map item es) q -> seeks (key_rank key w) (value_rank w k) es q.
Proof. intros Ht Hk. rewrite (value_rank_keyed _ _ _ Hk). apply seeks_map. by eapply elem_ranks. Qed.
Lemma cursor_key n w w' es r k kk fuel fi : tree_at n w w' es r -> keyed w k kk -> newCursorAtValue vr fuel r k fi false w' = newCursorAt vr fuel r kk fi false w'.
Proof. intros Ht Hk. apply (keyed_later _ w') in Hk as [Hk _]; [|apply Ht]. unfold newCursorAtValue. by rewrite Hk. Qed.

Lemma read_key fuel n w w' es r k : tree_at n w w' es r -> sortable w k -> (n <= fuel)%nat ->
  exists q cur, seeks (key_rank key w) (value_rank w k) es q /\ newCursorAtValue vr fuel r k false false w' = Ok (cur, w') /\
    match es !! q with Some x => cur_current cur = Ok (item x) /\ valid cur = true | None => valid cur = false end /\ ((length es < fuel)%nat -> iterSequence vr fuel cur = Ok (map item (drop q es))).
Proof.
  intros Ht (kk & Hk & _) Hn. rewrite (cursor_key _ _ _ _ _ _ _ _ _ Ht Hk). pose proof Ht as [_ Hty _ _ Hsm Htr].
  destruct (read_cursor vr fuel n (MkState w' []) (map item es) r kk Hty Htr) as (q & cur & Hse & Hc & Hsome & Hnone & Hit); [by rewrite Zlength_map|by eapply elems_sorted|by destruct Hk as (_ & ? & _)|done|].
  exists q, cur. split; [by eapply tree_seeks|]. split; [exact Hc|]. change (map item es) with (item <$> es) in Hsome, Hnone. rewrite list_lookup_fmap in Hsome, Hnone. split; [|rewrite length_map, skipn_map in Hit; exact Hit].
  destruct (es !! q) as [x|]; [by apply Hsome|by apply Hnone].
Qed.
Lemma insert_key fuel n w w' es r k : tree_at n w w' es r -> sortable w k -> (n <= fuel)%nat ->
  exists q seq i tl, seeks (key_rank key w) (value_rank w k) es q /\ newCursorAtValue vr fuel r k true false w' = Ok (MkLevel seq i :: tl, w') /\
    match es !! q with Some x => (i <? seqLen seq) = true /\ cur_current (MkLevel seq i :: tl) = Ok (item x) | None => (i <? seqLen seq) = false end.
Proof.
  intros Ht (kk & Hk & _) Hn. rewrite (cursor_key _ _ _ _ _ _ _ _ _ Ht Hk). pose proof Ht as [_ Hty _ _ Hsm Htr]. assert (Zlength (map item es) < 2 ^ 63) as Hsm' by by rewrite Zlength_map. pose proof (elems_sorted _ _ _ _ _ Ht) as Hso. pose proof Hk as (_ & Hg & _).
  destruct (insert_cursor vr fuel n (MkState w' []) (map item es) r kk Hty Htr Hsm' Hso Hg Hn) as (olds & q & cur & _ & _ & _ & Hse & Hc).
  destruct (insert_current vr fuel n (MkState w' []) (map item es) r kk q cur Hty Htr Hsm' Hso Hg Hn Hse Hc) as (seq & i & tl & -> & Hx). exists q, seq, i, tl. split; [by eapply tree_seeks|]. split; [exact Hc|].
  change (map item es) with (item <$> es) in Hx. rewrite list_lookup_fmap in Hx. by destruct (es !! q).
Qed.
Lemma splice_key fuel n n' w w' es r q d ins r' k cur : 0 < chunkWindow < 2 ^ 32 -> tree_at n w w' es r -> tree_at n' w w' (take q es ++ ins ++ drop (q + d) es) r' -> sortable w k -> seeks (key_rank key w) (value_rank w k) es q ->
  (q + d <= length es)%nat -> newCursorAtValue vr fuel r k true false w' = Ok (cur, w') -> (4 * n + 4 * n' + length es + 3 <= fuel)%nat -> exists w3, splice vr fuel or_leaf or_kind or_hash (Some cur) d (map item ins) w' = Ok (r', w3).
Proof.
  intros Hwin Ht Ht' (kk & Hk & _) Hse Hqd. rewrite (cursor_key _ _ _ _ _ _ _ _ _ Ht Hk). intros Hc Hf. pose proof Ht as [_ Hty _ _ Hsm Htr]. pose proof Ht' as [_ _ _ _ _ Htr']. assert (Zlength (map item es) < 2 ^ 63) as Hsm' by by rewrite Zlength_map.
  pose proof (elems_sorted _ _ _ _ _ Ht) as Hso. pose proof Hk as (_ & Hg & _). rewrite !map_app, <- firstn_map, <- skipn_map in Htr'.
  destruct (insert_cursor vr fuel n (MkState w' []) (map item es) r kk Hty Htr Hsm' Hso Hg ltac:(lia)) as (olds & q' & cur' & _ & _ & _ & Hse' & Hc'). cbn [st_tc] in Hc'. rewrite Hc in Hc'. injection Hc' as <-.
  rewrite <- (seeks_fun _ _ _ _ _ Hse (tree_seeks _ _ _ _ _ _ _ _ Ht Hk Hse')) in Hse'.
  destruct (insert_edit vr fuel n n' (MkState w' []) (map item es) r kk q d (map item ins) r' Hwin Hty Htr Hsm' Hso Hg Hse') as (cur' & st' & Hc' & He); [by rewrite length_map|exact Htr'|by rewrite length_map|].
  cbn [st_tc] in Hc'. rewrite Hc in Hc'. injection Hc' as <-. rewrite splice_edit, He. by exists (st_tc st').
Qed.
Lemma equals_key n w w' es r k x : tree_at n w w' es r -> sortable w k -> apart w (map key es) [k] -> x ∈ es -> Equals (key x) k w' = Ok (bool_decide (key_rank key w x = value_rank w k), w').
Proof.
  intros Ht Hk Ha Hx. pose proof Ht as [Hl Hty Ho _ _ _]. rewrite Forall_forall in Ho. pose proof (elem_sortable _ _ (Ho x Hx)) as Hs. unfold key_rank. rewrite <- (value_rank_later w w' k Hl Hk), <- (value_rank_later w w' (key x) Hl Hs).
  apply (Equals_values w' (map key es) [k]); [done|by eapply apart_later|by apply (list_elem_of_fmap_2 key)|by left|by eapply sortable_later|by eapply sortable_later].
Qed.
(** What building from [xs] gives. *)
Lemma build_tree_at n w xs ys r st' : 0 < chunkWindow < 2 ^ 32 -> typed w -> Forall (fun x => elem_ok w x) xs -> Zlength xs < 2 ^ 63 -> ascending (key_rank key w) ys -> (forall x, x ∈ ys -> x ∈ xs) ->
  build (H0 := chunking_) n (map item ys) (MkState w []) = Ok (r, st') -> tree_at n w (st_tc st') ys r /\ (length ys <= length xs)%nat.
Proof.
  intros Hwin Hw Hxs Hlt Hs Hin Hb. assert (length ys <= length xs)%nat as Hlen by (apply submseteq_length, NoDup_submseteq; [by eapply ascending_NoDup|done]). assert (Forall (fun x => elem_ok w x) ys) as Hys by (rewrite Forall_forall in *; auto).
  assert (Zlength ys < 2 ^ 63) as Hlt' by (unfold Zlength in *; lia).
  destruct (build_run (H0 := chunking_) Hwin n (map item ys) (MkState w []) r st') as (Hinv & Hle & Ht); [exact Hw|by apply Forall_map|intros _; by rewrite Zlength_map|exact Hb|]. split; [|done].
  split; try done. apply (has_tree_le n st'); [apply later_refl|done].
Qed.

End elements.

End OrderedFacts.
