(* ===== verification/MapFacts.v ===== *)
(** * Package [types]: maps have one tree

    The tree of a map is determined by the entries it holds: a map that was edited
    is the map built from the edited entries, and looking up a key gives the last
    value that was set for it. *)

From S2P Require Import Prelude GoLib HashPkg TypesCodec TypesType TypesValue TypesIntern RollingHash Sequences Chunker Lists Ordered ChunkerFacts CursorFacts TreeFacts EditFacts CacheFacts RecordFacts CollectionFacts IndexedFacts ListFacts OrderFacts OrderedFacts.
Import Hash Float64 NumberUtil Codec NomsKinds TypeCache Values Rolling Sequences Chunker Lists Ordered.
Import ChunkerFacts CursorFacts TreeFacts EditFacts CacheFacts RecordFacts CollectionFacts IndexedFacts OrderFacts OrderedFacts.

(** An entry whose key can be ordered, and that can be hashed. *)
Definition entry_ok (w : world) (e : Value * Value) : Prop := sortable w e.1 /\ exists bs, record [e.1; e.2] w = Ok (bs, w) /\ Zlength bs < 2 ^ 32.
(** The arguments of [NewMap]. *)
Definition flatten (kvs : list (Value * Value)) : list Value := flat_map (fun e => [e.1; e.2]) kvs.
(** The entries by the rank of their key; the last one of a key counts. *)
Definition held (w : world) (kvs : list (Value * Value)) : gmap rank_t (Value * Value) := contents (key_rank fst w) kvs.

Module MapFacts.

Lemma index_map {A B} (f : A -> B) l i : index (map f l) i = let! a := index l i in Ok (f a).
Proof. unfold index. destruct (0 <=? i); [|done]. change (map f l) with (f <$> l). rewrite list_lookup_fmap. by destruct (l !! Z.to_nat i). Qed.

Section laws.
Context `{GoSort} `{chunkingConfig} (vr : option (Hash -> option Value)).

#[export] Instance map_ordered : ordered := {|
  or_kind := MapKind; or_leaf := makeMapLeafChunkFn; or_hash := mapHashValueBytes;
  or_key x := match x with EItem k _ => Some k | _ => None end; or_values x := match x with EItem k v => [k; v] | _ => [] end
|}.
Lemma newMapLeaf_replays data : replays (newMapLeafSequence data).
Proof.
  apply replays_bind; [apply makeUnionType_replays|]. intros uk. apply replays_bind; [apply makeUnionType_replays|]. intros uv. apply replays_bind; [apply getCompoundType_replays|]. intros t. apply replays_ret.
Qed.
Lemma last_key_replays keys : replays (last_key keys).
Proof. unfold last_key. destruct (last keys); [apply newOrderedKey_replays|apply replays_ret]. Qed.
Lemma map_leaf_replays items : replays (makeMapLeafChunkFn items).
Proof.
  apply (replays_pure (all_ok as_entry items) (fun data w => let! (seq, w) := newMapLeafSequence data w in let! (key, w) := last_key (map fst data) w in Ok (Map seq, key, u64 (Zlength items), w))).
  intros data _. apply replays_bind; [apply newMapLeaf_replays|]. intros seq. apply replays_bind; [apply last_key_replays|]. intros key. apply replays_ret.
Qed.
Lemma newMapLeaf_ok data w seq w' : newMapLeafSequence data w = Ok (seq, w') -> exists t, seq = mapLeafSequence t data.
Proof.
  unfold newMapLeafSequence. destruct (MakeUnionType _ w) as [[u w1]|]; [|done]. cbn [obind]. destruct (MakeUnionType _ w1) as [[u' w2]|]; [|done]. cbn [obind]. destruct (MakeMapType _ _ w2) as [[t w3]|]; [|done]. cbn [obind]. intros [= <- _]. by exists t.
Qed.
Lemma map_leaf_ok items w col key n w' : small true items -> makeMapLeafChunkFn items w = Ok (col, key, n, w') ->
  chunk_ok true items col n /\ (exists w1, later w w1 /\ final_key items w1 = Ok (key, w')) /\ exists seq, sequence_of col = Ok seq /\ forall i w, getKey seq i w = key_at items i w.
Proof.
  intros Hsm Hc. unfold makeMapLeafChunkFn in Hc. destruct (all_ok as_entry items) as [data|] eqn:Hv; [|done]. apply (all_ok_inv _ entry_item) in Hv; [|by intros [] ? [= <-]]. cbn [obind] in Hc.
  destruct (newMapLeafSequence data w) as [[seq w1]|] eqn:Hs; [|done]. cbn [obind] in Hc. destruct (last_key _ w1) as [[key' w2]|] eqn:Hk; [|done]. cbn [obind] in Hc. injection Hc as <- <- <- <-. destruct (newMapLeaf_ok _ _ _ _ Hs) as [t ->].
  apply newMapLeaf_replays in Hs as [Hl _]. pose proof (Zlength_nonneg items) as Hn. specialize (Hsm eq_refl). assert (2 ^ 63 < 2 ^ 64) as Hpow by done. split; [split|split].
  - by exists (mapLeafSequence t data).
  - by apply Z.mod_pos_bound.
  - intros _ _. rewrite weigh_leaf. apply Z.mod_small. lia.
  - exists w1. split; [done|]. rewrite <- Hk. unfold final_key, last_key. rewrite <- Hv. change (map entry_item data) with (entry_item <$> data). change (map fst data) with (fst <$> data). rewrite !fmap_last. by destruct (last data).
  - exists (mapLeafSequence t data). split; [done|]. intros i w0. cbn [getKey]. unfold key_at. rewrite <- Hv, index_map. by destruct (index data i).
Qed.
#[export] Instance map_ordered_laws : ordered_laws.
Proof.
  split; cbn [or_kind or_leaf or_hash or_key or_values map_ordered].
  - by right.
  - apply map_leaf_replays.
  - intros items w col key n w'. apply map_leaf_ok.
  - intros [| |k v|] u s; try done. intros _. cbn [mapHashValueBytes fold_w]. destruct (HashValue k s) as [s1|]; [|done]. cbn [obind]. by destruct (HashValue v s1).
Qed.
#[export] Instance map_chunking : chunking := collection_chunking vr.
#[export] Instance map_laws : chunk_laws := collection_chunk_laws vr.

(** ** Maps *)

#[local] Abbreviation map_tree := (tree_at vr entry_item fst).
Lemma entry_key e : or_key (entry_item e) = Some e.1.
Proof. done. Qed.
Lemma entries_ok w es : Forall (entry_ok w) es -> Forall (fun e => leaf_ok w (entry_item e)) es.
Proof. intros He. eapply Forall_impl; [exact He|]. intros [k v] [Hs Hr]. split; [by exists k|done]. Qed.
Lemma pairs_flatten kvs : pairs (flatten kvs) = Ok kvs.
Proof. induction kvs as [|[k v] kvs IH]; [done|]. cbn [flatten flat_map app fst snd pairs]. fold (flatten kvs). by rewrite IH. Qed.
Lemma Map_splice_eq fuel cur d es w : Map_splice vr fuel cur d es w = let! (seq, w) := splice vr fuel or_leaf or_kind or_hash cur d (map entry_item es) w in Ok (Map seq, w).
Proof. done. Qed.

Section maps.
Context (Hwin : 0 < chunkWindow < 2 ^ 32).

(** What [NewMap] builds. *)
Lemma NewMap_tree n kvs w m w' : typed w -> Forall (entry_ok w) kvs -> apart w (map fst kvs) (map fst kvs) -> Zlength kvs < 2 ^ 63 -> NewMap vr n (flatten kvs) w = Ok (m, w') ->
  exists es r, m = Map r /\ map_tree n w w' es r /\ held w es = held w kvs /\ (forall e, e ∈ es -> e ∈ kvs) /\ (length es <= length kvs)%nat.
Proof.
  intros Hw Hkv Ha Hlt. unfold NewMap, buildMapData. rewrite pairs_flatten. cbn [obind]. destruct (sorted_data fst w kvs) as (es & -> & Hs & Hc & Hin); [done|by eapply Forall_impl; [exact Hkv|]; intros e [? _]|done|]. cbn [obind].
  rewrite Map_splice_eq, splice_build. destruct (build _ _ _) as [[r st']|] eqn:Hb; [|done]. cbn [obind]. intros [= <- <-].
  destruct (build_tree_at vr entry_item fst n w kvs es r st') as [Ht Hlen]; try done; [by apply entries_ok|]. by exists es, r.
Qed.
(** The map of other entries that has been built later. *)
Lemma NewMap_later n kvs w w1 m w2 : typed w1 -> later w w1 -> Forall (entry_ok w) kvs -> apart w (map fst kvs) (map fst kvs) -> Zlength kvs < 2 ^ 63 -> NewMap vr n (flatten kvs) w1 = Ok (m, w2) ->
  later w1 w2 /\ exists es r, m = Map r /\ map_tree n w w2 es r /\ held w es = held w kvs /\ (forall e, e ∈ es -> e ∈ kvs) /\ (length es <= length kvs)%nat.
Proof.
  intros Hw Hl Hkv Ha Hlt Hm. assert (Forall (entry_ok w1) kvs) as Hkv1.
  { eapply Forall_impl; [exact Hkv|]. intros e [Hs (bs & Hr & Hb)]. split; [by eapply sortable_later|]. exists bs. split; [by eapply record_later|done]. }
  destruct (NewMap_tree n kvs w1 m w2 Hw Hkv1 (apart_later _ _ _ _ Hl Ha) Hlt Hm) as (es & r & -> & Ht & Hc & Hin & Hlen). split; [apply Ht|].
  assert (forall l, (forall e, e ∈ l -> e ∈ kvs) -> Forall (fun e => key_rank fst w1 e = key_rank fst w e) l) as Hr.
  { intros l Hl'. apply Forall_forall. intros e He. rewrite Forall_forall in Hkv. apply value_rank_later; [done|]. by apply Hkv, Hl'. }
  exists es, r. split_and!; [done| |unfold held in *; by rewrite <- (contents_ext _ _ _ (Hr es Hin)), <- (contents_ext _ _ _ (Hr kvs ltac:(done)))|done|done].
  destruct Ht as [Hl2 Hty _ Hs Hsm Htr]. split; try done; [by eapply later_trans|apply entries_ok; rewrite Forall_forall in *; auto|]. rewrite <- (map_id es). apply (ascending_map (key_rank fst w1)); [|done].
  eapply Forall_impl; [exact (Hr es Hin)|]. cbn. congruence.
Qed.
Lemma apart_sub w us vs us' : (forall u, u ∈ us' -> u ∈ us) -> apart w us vs -> apart w us' vs.
Proof. intros Hin Ha u v Hu Hv. by apply Ha; [apply Hin|]. Qed.
Lemma keys_sub (es kvs : list (Value * Value)) : (forall e, e ∈ es -> e ∈ kvs) -> forall u, u ∈ map fst es -> u ∈ map fst kvs.
Proof. intros Hin u (e & -> & He)%list_elem_of_fmap. by apply (list_elem_of_fmap_2 fst), Hin. Qed.
(** The cursor at a key, and whether the key is there. *)
Lemma map_cursor fuel n w w' es r k : map_tree n w w' es r -> sortable w k -> apart w (map fst es) [k] -> (n <= fuel)%nat ->
  exists q cur, seeks (key_rank fst w) (value_rank w k) es q /\ newCursorAtValue vr fuel r k true false w' = Ok (cur, w') /\
    Map_getCursorAtValue vr fuel (Map r) k w' = Ok (cur, match hit (key_rank fst w) (value_rank w k) es q with Some _ => true | None => false end, w').
Proof.
  intros Ht Hk Ha Hn. destruct (insert_key vr entry_item fst entry_key fuel n w w' es r k Ht Hk Hn) as (q & seq & i & tl & Hse & Hc & Hx). exists q, (MkLevel seq i :: tl). split; [done|]. split; [done|].
  unfold Map_getCursorAtValue. cbn [map_seq obind]. rewrite Hc. cbn [obind]. unfold hit. destruct (es !! q) as [e|] eqn:He; [|by rewrite Hx]. destruct Hx as [-> Hcur]. rewrite Hcur. cbn [obind as_entry entry_item]. rewrite <- surjective_pairing.
  rewrite (equals_key vr entry_item fst entry_key n w w' es r k e Ht Hk Ha) by (by eapply list_elem_of_lookup_2). cbn [obind]. by case_bool_decide.
Qed.

End maps.

End laws.

End MapFacts.
Import MapFacts.

Section theorems.
Context `{GoSort} `{chunkingConfig} (Hwin : 0 < chunkWindow < 2 ^ 32) (vr : option (Hash -> option Value)).
#[local] Abbreviation map_tree := (tree_at vr entry_item fst).

Lemma all_entries es : all_ok as_entry (map entry_item es) = Ok es.
Proof. induction es as [|[k v] es IH]; cbn [map all_ok as_entry entry_item obind fst snd]; [done|]. by rewrite IH. Qed.
Lemma put_tree fuel n n' w w' es r es' r' k v : map_tree n w w' es r -> map_tree n' w w' es' r' -> sortable w k -> apart w (map fst es) [k] -> held w es' = <[value_rank w k := (k, v)]> (held w es) ->
  (4 * n + 4 * n' + length es + 3 <= fuel)%nat -> exists w3, Map_Set vr fuel (Map r) k v w' = Ok (Map r', w3).
Proof.
  intros Ht Ht' Hk Ha Hh Hf. destruct (map_cursor vr fuel n w w' es r k Ht Hk Ha ltac:(lia)) as (q & cur & Hse & Hc & Hg). unfold Map_Set. cbn [SetM length Nat.even check obind]. rewrite Hg. cbn [obind].
  destruct (put_ok (key_rank fst w) (value_rank w k) es q (k, v) (ta_sorted _ _ _ _ _ _ _ _ Ht) Hse eq_refl) as [Hs Hcs]. unfold held in Hh. rewrite <- Hcs in Hh. apply ascending_unique in Hh; [|apply Ht'|done]. rewrite Hh in Ht'. change (?a :: ?l) with ([a] ++ l) in Ht'.
  replace (match hit _ _ es q with Some _ => 1%nat | None => 0%nat end) with (if match hit (key_rank fst w) (value_rank w k) es q with Some _ => true | None => false end then 1 else 0)%nat in Ht' by (by destruct (hit _ _ es q)).
  destruct (splice_key vr entry_item fst entry_key fuel n n' w w' es r q _ [(k, v)] r' k cur Hwin Ht Ht' Hk Hse) as [w3 Hw3]; [|done|lia|].
  - destruct Hse as [Hq _]. unfold hit. destruct (es !! q) as [x|] eqn:Hx; [apply lookup_lt_Some in Hx; case_bool_decide; lia|lia].
  - rewrite Map_splice_eq, Hw3. by exists w3.
Qed.
Lemma remove_tree fuel n n' w w' es r es' r' k : map_tree n w w' es r -> map_tree n' w w' es' r' -> sortable w k -> apart w (map fst es) [k] -> held w es' = delete (value_rank w k) (held w es) ->
  (4 * n + 4 * n' + length es + 3 <= fuel)%nat -> exists w3, Map_Remove vr fuel (Map r) k w' = Ok (Map r', w3).
Proof.
  intros Ht Ht' Hk Ha Hh Hf. destruct (map_cursor vr fuel n w w' es r k Ht Hk Ha ltac:(lia)) as (q & cur & Hse & Hc & Hg). unfold Map_Remove. rewrite Hg. cbn [obind]. pose proof (hit_lookup _ _ _ _ (ta_sorted _ _ _ _ _ _ _ _ Ht) Hse) as Hlk.
  destruct (hit (key_rank fst w) (value_rank w k) es q) as [x|] eqn:Hx.
  - destruct (remove_ok _ _ _ _ _ (ta_sorted _ _ _ _ _ _ _ _ Ht) Hse Hx) as [Hs Hcs]. unfold held in Hh. rewrite <- Hcs in Hh. apply ascending_unique in Hh; [|apply Ht'|done]. rewrite Hh in Ht'.
    destruct (splice_key vr entry_item fst entry_key fuel n n' w w' es r q 1 [] r' k cur Hwin Ht Ht' Hk Hse) as [w3 Hw3]; [|done|lia|].
    + unfold hit in Hx. destruct (es !! q) as [y|] eqn:Hy; [apply lookup_lt_Some in Hy; lia|done].
    + rewrite Map_splice_eq, Hw3. by exists w3.
  - exists w'. rewrite delete_id in Hh by exact Hlk. by rewrite (tree_at_fun vr entry_item fst n n' w w' es es' r r' Ht Ht' (eq_sym Hh)).
Qed.

(** C3: [Set] gives the map of the entries with the new one: in every state of the
    cache in which a map of those entries has been built from scratch, in whatever
    order they were given, setting the key gives that very map, with the same
    chunks at every level, so the same hash.  The key is found by searching the
    keys of the tuples, and the chunker resumes there. *)
Theorem map_set_canonical fuel n n' kvs kvs' k v w m w1 r w2 : world_ok w -> Forall (entry_ok w) kvs -> Forall (entry_ok w) kvs' -> apart w (map fst kvs) (map fst kvs) -> apart w (map fst kvs') (map fst kvs') -> apart w (map fst kvs) [k] ->
  Zlength kvs < 2 ^ 63 -> Zlength kvs' < 2 ^ 63 -> held w kvs' = <[value_rank w k := (k, v)]> (held w kvs) -> NewMap vr n (flatten kvs) w = Ok (m, w1) -> NewMap vr n' (flatten kvs') w1 = Ok (r, w2) ->
  (4 * n + 4 * n' + length kvs + 3 <= fuel)%nat -> exists w3, Map_Set vr fuel m k v w2 = Ok (r, w3).
Proof.
  intros Hw Hkv Hkv' Ha Ha' Hak Hlt Hlt' Hh Hm Hr Hf. destruct (NewMap_tree vr Hwin n kvs w m w1 (world_typed w Hw) Hkv Ha Hlt Hm) as (es & ms & -> & Ht & Hc & Hin & Hlen).
  destruct (NewMap_later vr Hwin n' kvs' w w1 r w2 (ta_typed _ _ _ _ _ _ _ _ Ht) (ta_later _ _ _ _ _ _ _ _ Ht) Hkv' Ha' Hlt' Hr) as (Hl & es' & rs & -> & Ht' & Hc' & Hin' & _).
  assert (sortable w k) as Hk. { assert (held w kvs' !! value_rank w k = Some (k, v)) as Hx by (rewrite Hh; apply lookup_insert_eq). apply contents_elem in Hx as [Hx _]. rewrite Forall_forall in Hkv'. by destruct (Hkv' _ Hx). }
  apply (put_tree fuel n n' w w2 es ms es' rs); try done; [by eapply tree_at_later|by eapply apart_sub; [apply (keys_sub es kvs)|]|congruence|lia].
Qed.
(** C8: [Remove] gives the map of the entries without the key: where a map of those
    entries has been built from scratch, removing the key gives that very map, and
    a map without the key is not changed. *)
Theorem map_remove_canonical fuel n n' kvs kvs' k w m w1 r w2 : world_ok w -> Forall (entry_ok w) kvs -> Forall (entry_ok w) kvs' -> apart w (map fst kvs) (map fst kvs) -> apart w (map fst kvs') (map fst kvs') -> sortable w k -> apart w (map fst kvs) [k] ->
  Zlength kvs < 2 ^ 63 -> Zlength kvs' < 2 ^ 63 -> held w kvs' = delete (value_rank w k) (held w kvs) -> NewMap vr n (flatten kvs) w = Ok (m, w1) -> NewMap vr n' (flatten kvs') w1 = Ok (r, w2) ->
  (4 * n + 4 * n' + length kvs + 3 <= fuel)%nat -> exists w3, Map_Remove vr fuel m k w2 = Ok (r, w3).
Proof.
  intros Hw Hkv Hkv' Ha Ha' Hk Hak Hlt Hlt' Hh Hm Hr Hf. destruct (NewMap_tree vr Hwin n kvs w m w1 (world_typed w Hw) Hkv Ha Hlt Hm) as (es & ms & -> & Ht & Hc & Hin & Hlen).
  destruct (NewMap_later vr Hwin n' kvs' w w1 r w2 (ta_typed _ _ _ _ _ _ _ _ Ht) (ta_later _ _ _ _ _ _ _ _ Ht) Hkv' Ha' Hlt' Hr) as (Hl & es' & rs & -> & Ht' & Hc' & Hin' & _).
  apply (remove_tree fuel n n' w w2 es ms es' rs); try done; [by eapply tree_at_later|by eapply apart_sub; [apply (keys_sub es kvs)|]|congruence|lia].
Qed.
(** C4: A map holds the last value of every key it was built from: its length is
    the number of the different keys, iterating gives the entries in the order of
    their keys, from a key on with [IterFrom], [MaybeGet] gives the last value of
    a key and nothing for other keys, and [Has] says whether there is one. *)
Theorem map_contents fuel n kvs w m w' : world_ok w -> Forall (entry_ok w) kvs -> apart w (map fst kvs) (map fst kvs) -> Zlength kvs < 2 ^ 63 -> NewMap vr n (flatten kvs) w = Ok (m, w') -> (n <= fuel)%nat -> (length kvs < fuel)%nat ->
  Map_Len m = Ok (Z.of_nat (base.size (held w kvs))) /\ exists es, ascending (key_rank fst w) es /\ held w es = held w kvs /\ Map_IterAll vr fuel m w' = Ok (es, w') /\ First vr fuel m w' = Ok (head es, w') /\
  forall k, sortable w k -> apart w (map fst kvs) [k] -> MaybeGet vr fuel m k w' = Ok (snd <$> held w kvs !! value_rank w k, w') /\ Map_Has vr fuel m k w' = Ok (bool_decide (is_Some (held w kvs !! value_rank w k)), w') /\
    exists q, seeks (key_rank fst w) (value_rank w k) es q /\ IterFrom vr fuel m k w' = Ok (drop q es, w').
Proof.
  intros Hw Hkv Ha Hlt Hm Hn Hf. destruct (NewMap_tree vr Hwin n kvs w m w' (world_typed w Hw) Hkv Ha Hlt Hm) as (es & r & -> & Ht & Hc & Hin & Hlen). pose proof Ht as [_ Hty _ Hs Hsm Htr]. split; [|exists es; split_and!; [done|done| | |]].
  - cbn [Map_Len map_seq obind]. rewrite (has_tree_length (H0 := map_chunking vr) n _ _ r Htr) by (by rewrite Zlength_map). rewrite Zlength_map, <- Hc. unfold held. by rewrite size_contents.
  - unfold Map_IterAll. cbn [map_seq obind]. destruct (end_cursor vr fuel n _ _ r false false w' Htr Hn (or_intror eq_refl)) as (olds & cur & Htw & Hat & ->). cbn [obind end_of] in *.
    pose proof (iter_at _ _ _ (length es) Htw fuel _ _ Hat) as Hi. rewrite length_map in Hi. cbn [c_vr collection_chunking] in Hi. rewrite Hi by lia. cbn [obind]. by rewrite drop_0, all_entries.
  - unfold First, firstOrLast. cbn [map_seq obind]. destruct (end_cursor vr fuel n _ _ r false false w' Htr Hn (or_intror eq_refl)) as (olds & cur & Htw & Hat & ->). cbn [obind end_of] in *. destruct es as [|[k v] es].
    + by rewrite (at_invalid _ _ _ _ _ _ Hat eq_refl).
    + destruct (at_current _ _ _ _ _ _ (entry_item (k, v)) Hat eq_refl) as [-> ->]. done.
  - intros k Hk Hak. assert (apart w (map fst es) [k]) as Hak' by (by eapply apart_sub; [apply (keys_sub es kvs)|]). destruct (read_key vr entry_item fst entry_key fuel n w w' es r k Ht Hk Hn) as (q & cur & Hse & Hcu & Hx & Hi).
    rewrite <- Hc. unfold held. rewrite (hit_lookup _ _ _ _ Hs Hse). unfold hit, MaybeGet, Map_Has, IterFrom. cbn [map_seq obind]. rewrite Hcu. cbn [obind]. split_and!; [| |exists q; split; [done|]; rewrite Hi by lia; cbn [obind]; by rewrite all_entries].
    + destruct (es !! q) as [e|] eqn:He; [|by rewrite Hx]. destruct Hx as [-> ->]. cbn [obind as_entry entry_item fst snd]. rewrite (equals_key vr entry_item fst entry_key n w w' es r k e Ht Hk Hak') by (by eapply list_elem_of_lookup_2). cbn [obind]. by case_bool_decide.
    + destruct (es !! q) as [e|] eqn:He; [|by rewrite Hx]. destruct Hx as [-> ->]. cbn [obind as_entry entry_item fst snd]. rewrite (equals_key vr entry_item fst entry_key n w w' es r k e Ht Hk Hak') by (by eapply list_elem_of_lookup_2). by case_bool_decide.
Qed.
(** C19: A map does not depend on how its entries were given: two lists of pairs
    that hold the same last value for every key build the very same map. *)
Theorem map_history_independent n n' kvs kvs' w m w1 m' w2 : world_ok w -> Forall (entry_ok w) kvs -> Forall (entry_ok w) kvs' -> apart w (map fst kvs) (map fst kvs) -> apart w (map fst kvs') (map fst kvs') ->
  Zlength kvs < 2 ^ 63 -> Zlength kvs' < 2 ^ 63 -> held w kvs' = held w kvs -> NewMap vr n (flatten kvs) w = Ok (m, w1) -> NewMap vr n' (flatten kvs') w1 = Ok (m', w2) -> m' = m.
Proof.
  intros Hw Hkv Hkv' Ha Ha' Hlt Hlt' Hh Hm Hr. destruct (NewMap_tree vr Hwin n kvs w m w1 (world_typed w Hw) Hkv Ha Hlt Hm) as (es & ms & -> & Ht & Hc & Hin & Hlen).
  destruct (NewMap_later vr Hwin n' kvs' w w1 m' w2 (ta_typed _ _ _ _ _ _ _ _ Ht) (ta_later _ _ _ _ _ _ _ _ Ht) Hkv' Ha' Hlt' Hr) as (Hl & es' & rs & -> & Ht' & Hc' & Hin' & _).
  apply (tree_at_later _ _ _ _ _ _ w2) in Ht; [|done]. f_equal. eapply (tree_at_fun vr entry_item fst n' n w w2 es' es); [done|done|]. unfold held in *. congruence.
Qed.
(** [Last] gives the entry with the greatest key, but panics on an empty map,
    where [First] gives nothing: the cursor that counts back from the end is checked
    before its validity is. *)
Theorem map_last fuel n kvs w m w' : world_ok w -> Forall (entry_ok w) kvs -> apart w (map fst kvs) (map fst kvs) -> Zlength kvs < 2 ^ 63 -> NewMap vr n (flatten kvs) w = Ok (m, w') -> (n <= fuel)%nat ->
  exists es, ascending (key_rank fst w) es /\ held w es = held w kvs /\ Last vr fuel m w' = match last es with Some e => Ok (Some e, w') | None => Panic AssertFailed end.
Proof.
  intros Hw Hkv Ha Hlt Hm Hn. destruct (NewMap_tree vr Hwin n kvs w m w' (world_typed w Hw) Hkv Ha Hlt Hm) as (es & r & -> & Ht & Hc & _ & _). pose proof Ht as [_ _ _ Hs _ Htr]. exists es. split_and!; [done|done|].
  unfold Last, firstOrLast. cbn [map_seq obind]. destruct es as [|e es _] using rev_ind.
  - pose proof (has_tree_empty _ _ _ Htr) as Hi. destruct n as [|n]; [by destruct Htr as (rest & _ & _ & Hl); cbn in Hl; lia|]. destruct fuel as [|fuel]; [lia|]. unfold newCursorAt. cbn [newCursorAt_loop newSequenceCursor Z.ltb Z.compare]. unfold newSequenceCursor. cbn [Z.ltb Z.compare]. unfold seqLen. rewrite Hi. done.
  - destruct (end_cursor vr fuel n _ _ r false true w' Htr Hn) as (olds & cur & Htw & Hat & ->); [left; rewrite map_app; cbn; by destruct (map entry_item es)|]. cbn [obind end_of] in *. rewrite last_snoc.
    destruct (at_current _ _ _ _ _ _ (entry_item e) Hat) as [-> ->]; [|by destruct e]. rewrite map_app, length_app. cbn [map length]. rewrite lookup_app_r by lia. by replace (length (map entry_item es) + 1 - 1 - length (map entry_item es))%nat with 0%nat by lia.
Qed.

End theorems.

(** Small maps of numbers. *)
#[local] Existing Instance go_insertion_sort.
#[local] Existing Instance normalProductionChunks.
Lemma number_sortable w n : typed w -> 0 <= n < 2 ^ 64 -> sortable w (number n).
Proof.
  intros Hw Hn. exists (MkKey true (Some (number n)) emptyHash). split; [|apply count_key_ok; [done|by exists n]]. split; [unfold newOrderedKey; cbn [Type_of number]; by rewrite (ty_prims w Hw NumberKind)|]. split; [by apply of_int_finite|done].
Qed.
Lemma values_apart w us vs : Forall (fun u => by_value u = true) us -> apart w us vs.
Proof. intros Hus u v Hu _ Hb. rewrite Forall_forall in Hus. by rewrite (Hus u Hu) in Hb. Qed.
Definition entry (k v : Z) : Value * Value := (number k, number v).
Lemma small_entries : Forall (entry_ok NewTypeCache) [entry 2 7; entry 1 8; entry 2 9].
Proof. repeat constructor; first [apply number_sortable; [apply world_typed, new_world_ok|lia]|eexists; split; [cbv; reflexivity|reflexivity]]. Qed.
Lemma numbers_differ : value_rank NewTypeCache (number 2) <> value_rank NewTypeCache (number 1).
Proof. intros Heq. vm_compute in Heq. discriminate Heq. Qed.
Lemma small_maps : is_ok (let! (_, w1) := NewMap None 8 (flatten [entry 2 7; entry 1 8]) NewTypeCache in let! _ := NewMap None 8 (flatten [entry 2 7; entry 1 8; entry 2 9]) w1 in
  let! _ := NewMap None 8 (flatten [entry 2 7]) w1 in NewMap None 8 (flatten [entry 1 8; entry 2 7]) w1) = true.
Proof. vm_compute. reflexivity. Qed.

Lemma map_contents_witness : exists m w, NewMap None 8 (flatten [entry 2 7; entry 1 8; entry 2 9]) NewTypeCache = Ok (m, w) /\ MaybeGet None 8 m (number 2) w = Ok (Some (number 9), w).
Proof.
  assert (is_ok (NewMap None 8 (flatten [entry 2 7; entry 1 8; entry 2 9]) NewTypeCache) = true) as Hok by (vm_compute; reflexivity). destruct (NewMap None 8 _ NewTypeCache) as [[m w]|] eqn:Hm; [|discriminate Hok]. exists m, w. split; [reflexivity|].
  destruct (map_contents ltac:(split; reflexivity) None 8 8 [entry 2 7; entry 1 8; entry 2 9] NewTypeCache m w) as (_ & es & _ & _ & _ & _ & Hk);
    [exact new_world_ok|exact small_entries|apply values_apart; repeat constructor|reflexivity|exact Hm|lia|cbn; lia|].
  destruct (Hk (number 2)) as (Hg & _); [apply number_sortable; [apply world_typed, new_world_ok|lia]|apply values_apart; repeat constructor|]. rewrite Hg. unfold held. change [entry 2 7; entry 1 8; entry 2 9] with ([entry 2 7; entry 1 8] ++ [entry 2 9]).
  rewrite contents_snoc. unfold key_rank at 1. cbn [entry fst]. rewrite lookup_insert_eq. reflexivity.
Defined.
Lemma map_set_canonical_witness : exists m w1 r w2 w3, NewMap None 8 (flatten [entry 2 7; entry 1 8]) NewTypeCache = Ok (m, w1) /\ NewMap None 8 (flatten [entry 2 7; entry 1 8; entry 2 9]) w1 = Ok (r, w2) /\
  Map_Set None 80 m (number 2) (number 9) w2 = Ok (r, w3).
Proof.
  pose proof small_maps as Hok. destruct (NewMap None 8 _ NewTypeCache) as [[m w1]|] eqn:Hm; [|discriminate Hok]. cbn [obind] in Hok. destruct (NewMap None 8 (flatten [entry 2 7; entry 1 8; entry 2 9]) w1) as [[r w2]|] eqn:Hr; [|discriminate Hok].
  destruct (map_set_canonical ltac:(split; reflexivity) None 80 8 8 [entry 2 7; entry 1 8] [entry 2 7; entry 1 8; entry 2 9] (number 2) (number 9) NewTypeCache m w1 r w2) as [w3 Hs];
    [exact new_world_ok|exact (proj1 (proj1 (Forall_app _ [entry 2 7; entry 1 8] [entry 2 9]) small_entries))|exact small_entries|apply values_apart; repeat constructor|apply values_apart; repeat constructor|apply values_apart; repeat constructor
    |reflexivity|reflexivity|exact (contents_snoc _ [entry 2 7; entry 1 8] (entry 2 9))|exact Hm|exact Hr|cbn; lia|]. exists m, w1, r, w2, w3. split; [reflexivity|]. split; [exact Hr|exact Hs].
Defined.
Lemma held_none : held NewTypeCache [entry 2 7] !! value_rank NewTypeCache (number 1) = None.
Proof. apply contents_none. constructor; [exact numbers_differ|constructor]. Qed.
Lemma map_remove_canonical_witness : exists m w1 r w2 w3, NewMap None 8 (flatten [entry 2 7; entry 1 8]) NewTypeCache = Ok (m, w1) /\ NewMap None 8 (flatten [entry 2 7]) w1 = Ok (r, w2) /\
  Map_Remove None 80 m (number 1) w2 = Ok (r, w3).
Proof.
  pose proof small_maps as Hok. destruct (NewMap None 8 _ NewTypeCache) as [[m w1]|] eqn:Hm; [|discriminate Hok]. cbn [obind] in Hok. destruct (NewMap None 8 (flatten [entry 2 7; entry 1 8; entry 2 9]) w1) as [?|]; [|discriminate Hok]. cbn [obind] in Hok.
  destruct (NewMap None 8 (flatten [entry 2 7]) w1) as [[r w2]|] eqn:Hr; [|discriminate Hok]. pose proof (proj1 (proj1 (Forall_app _ [entry 2 7; entry 1 8] [entry 2 9]) small_entries)) as He.
  destruct (map_remove_canonical ltac:(split; reflexivity) None 80 8 8 [entry 2 7; entry 1 8] [entry 2 7] (number 1) NewTypeCache m w1 r w2) as [w3 Hs];
    [exact new_world_ok|exact He|exact (proj1 (proj1 (Forall_app _ [entry 2 7] [entry 1 8]) He))|apply values_apart; repeat constructor|apply values_apart; repeat constructor|apply number_sortable; [apply world_typed, new_world_ok|lia]|apply values_apart; repeat constructor
    |reflexivity|reflexivity|symmetry; exact (delete_insert_id _ _ _ held_none)|exact Hm|exact Hr|cbn; lia|]. exists m, w1, r, w2, w3. split; [reflexivity|]. split; [exact Hr|exact Hs].
Defined.
Lemma map_history_independent_witness : exists m w1 w2, NewMap None 8 (flatten [entry 2 7; entry 1 8]) NewTypeCache = Ok (m, w1) /\ NewMap None 8 (flatten [entry 1 8; entry 2 7]) w1 = Ok (m, w2).
Proof.
  pose proof small_maps as Hok. destruct (NewMap None 8 _ NewTypeCache) as [[m w1]|] eqn:Hm; [|discriminate Hok]. cbn [obind] in Hok. destruct (NewMap None 8 (flatten [entry 2 7; entry 1 8; entry 2 9]) w1) as [?|]; [|discriminate Hok]. cbn [obind] in Hok.
  destruct (NewMap None 8 (flatten [entry 2 7]) w1) as [?|]; [|discriminate Hok]. cbn [obind] in Hok. destruct (NewMap None 8 (flatten [entry 1 8; entry 2 7]) w1) as [[m' w2]|] eqn:Hr; [|discriminate Hok].
  pose proof (proj1 (proj1 (Forall_app _ [entry 2 7; entry 1 8] [entry 2 9]) small_entries)) as He. assert (Forall (entry_ok NewTypeCache) [entry 1 8; entry 2 7]) as He' by (constructor; [exact (Forall_inv (Forall_inv_tail He))|constructor; [exact (Forall_inv He)|constructor]]).
  assert (m' = m) as ->; [|exists m, w1, w2; split; [reflexivity|exact Hr]].
  apply (map_history_independent ltac:(split; reflexivity) None 8 8 [entry 2 7; entry 1 8] [entry 1 8; entry 2 7] NewTypeCache m w1 m' w2);
    [exact new_world_ok|exact He|exact He'|apply values_apart; repeat constructor|apply values_apart; repeat constructor|reflexivity|reflexivity|exact (insert_insert_ne _ _ _ _ _ numbers_differ)|exact Hm|exact Hr].
Defined.
Lemma map_last_witness : exists m w, NewMap None 8 (flatten []) NewTypeCache = Ok (m, w) /\ Last None 8 m w = Panic AssertFailed.
Proof.
  assert (is_ok (NewMap None 8 (flatten []) NewTypeCache) = true) as Hok by (vm_compute; reflexivity). destruct (NewMap None 8 (flatten []) NewTypeCache) as [[m w]|] eqn:Hm; [|discriminate Hok]. exists m, w. split; [reflexivity|].
  destruct (map_last ltac:(split; reflexivity) None 8 8 [] NewTypeCache m w) as (es & _ & Hh & Hl); [exact new_world_ok|constructor|intros u v []%elem_of_nil|reflexivity|exact Hm|lia|]. rewrite Hl.
  destruct (last es) as [e|] eqn:He; [|reflexivity]. apply last_Some in He as [es' ->]. unfold held in Hh. rewrite contents_snoc in Hh. destruct (insert_non_empty _ _ _ Hh).
Defined.
