(* ===== verification/SetFacts.v ===== *)
(** * Package [types]: sets have one tree

    The tree of a set is determined by the values it holds: a set that was edited is
    the set built from the edited values, and a value is found if and only if it was
    put in. *)

From S2P Require Import Prelude GoLib HashPkg TypesCodec TypesType TypesValue TypesIntern RollingHash Sequences Chunker Lists Ordered ChunkerFacts CursorFacts TreeFacts EditFacts CacheFacts RecordFacts CollectionFacts IndexedFacts ListFacts OrderFacts OrderedFacts MapFacts.
Import Hash Float64 NumberUtil Codec NomsKinds TypeCache Values Rolling Sequences Chunker Lists Ordered.
Import ChunkerFacts CursorFacts TreeFacts EditFacts CacheFacts RecordFacts CollectionFacts IndexedFacts OrderFacts OrderedFacts.

(** A value that can be ordered and hashed. *)
Definition member_ok (w : world) (v : Value) : Prop := sortable w v /\ hashable w v.
(** The values by their rank. *)
Definition members (w : world) (vs : list Value) : gmap rank_t Value := contents (value_rank w) vs.

(** The key of a value. *)
Definition self (v : Value) : Value := v.

Module SetFacts.

Section laws.
Context `{GoSort} `{chunkingConfig} (vr : option (Hash -> option Value)).

#[export] Instance set_ordered : ordered := {|
  or_kind := SetKind; or_leaf := makeSetLeafChunkFn; or_hash := hashValueBytes;
  or_key x := match x with VItem v => Some v | _ => None end; or_values x := match x with VItem v => [v] | _ => [] end
|}.
Lemma newSetLeaf_replays data : replays (newSetLeafSequence data).
Proof. apply replays_bind; [apply makeUnionType_replays|]. intros u. apply replays_bind; [apply getCompoundType_replays|]. intros t. apply replays_ret. Qed.
Lemma set_leaf_replays items : replays (makeSetLeafChunkFn items).
Proof.
  apply (replays_pure (all_ok as_value items) (fun data w => let! (seq, w) := newSetLeafSequence data w in let! (key, w) := last_key data w in Ok (Set_ seq, key, u64 (Zlength items), w))).
  intros data _. apply replays_bind; [apply newSetLeaf_replays|]. intros seq. apply replays_bind; [apply MapFacts.last_key_replays|]. intros key. apply replays_ret.
Qed.
Lemma newSetLeaf_ok data w seq w' : newSetLeafSequence data w = Ok (seq, w') -> exists t, seq = setLeafSequence t data.
Proof.
  unfold newSetLeafSequence. destruct (MakeUnionType _ w) as [[u w1]|]; [|done]. cbn [obind]. destruct (MakeSetType _ w1) as [[t w2]|]; [|done]. cbn [obind]. intros [= <- _]. by exists t.
Qed.
Lemma set_leaf_ok items w col key n w' : small true items -> makeSetLeafChunkFn items w = Ok (col, key, n, w') ->
  chunk_ok true items col n /\ (exists w1, later w w1 /\ final_key items w1 = Ok (key, w')) /\ exists seq, sequence_of col = Ok seq /\ forall i w, getKey seq i w = key_at items i w.
Proof.
  intros Hsm Hc. unfold makeSetLeafChunkFn in Hc. destruct (all_ok as_value items) as [data|] eqn:Hv; [|done]. apply (all_ok_inv _ VItem) in Hv; [|by intros [] ? [= <-]]. cbn [obind] in Hc.
  destruct (newSetLeafSequence data w) as [[seq w1]|] eqn:Hs; [|done]. cbn [obind] in Hc. destruct (last_key _ w1) as [[key' w2]|] eqn:Hk; [|done]. cbn [obind] in Hc. injection Hc as <- <- <- <-. destruct (newSetLeaf_ok _ _ _ _ Hs) as [t ->].
  apply newSetLeaf_replays in Hs as [Hl _]. pose proof (Zlength_nonneg items) as Hn. specialize (Hsm eq_refl). assert (2 ^ 63 < 2 ^ 64) as Hpow by done. split; [split|split].
  - by exists (setLeafSequence t data).
  - by apply Z.mod_pos_bound.
  - intros _ _. rewrite weigh_leaf. apply Z.mod_small. lia.
  - exists w1. split; [done|]. rewrite <- Hk. unfold final_key, last_key. rewrite <- Hv. change (map VItem data) with (VItem <$> data). rewrite fmap_last. by destruct (last data).
  - exists (setLeafSequence t data). split; [done|]. intros i w0. cbn [getKey]. unfold key_at. rewrite <- Hv, MapFacts.index_map. by destruct (index data i).
Qed.
#[export] Instance set_ordered_laws : ordered_laws.
Proof.
  split; cbn [or_kind or_leaf or_hash or_key or_values set_ordered].
  - by left.
  - apply set_leaf_replays.
  - intros items w col key n w'. apply set_leaf_ok.
  - intros [v| | |] u s; try done. intros _. cbn [hashValueBytes fold_w]. by destruct (HashValue v s).
Qed.
#[export] Instance set_chunking : chunking := collection_chunking vr.
#[export] Instance set_laws : chunk_laws := collection_chunk_laws vr.

(** ** Sets *)

#[local] Abbreviation set_tree := (tree_at vr VItem self).
Lemma map_self (vs : list Value) : map self vs = vs.
Proof. apply map_id. Qed.
Lemma value_key v : or_key (VItem v) = Some (self v).
Proof. done. Qed.
Lemma members_ok w vs : Forall (member_ok w) vs -> Forall (fun v => leaf_ok w (VItem v)) vs.
Proof. intros Hv. eapply Forall_impl; [exact Hv|]. intros v [Hs Hr]. split; [by exists v|done]. Qed.
Lemma Set_splice_eq fuel cur d vs w : Set_splice vr fuel cur d vs w = let! (seq, w) := splice vr fuel or_leaf or_kind or_hash cur d (map VItem vs) w in Ok (Set_ seq, w).
Proof. done. Qed.

Section sets.
Context (Hwin : 0 < chunkWindow < 2 ^ 32).

(** What [NewSet] builds. *)
Lemma NewSet_tree n vs w s w' : typed w -> Forall (member_ok w) vs -> apart w vs vs -> Zlength vs < 2 ^ 63 -> NewSet vr n vs w = Ok (s, w') ->
  exists es r, s = Set_ r /\ set_tree n w w' es r /\ members w es = members w vs /\ (forall v, v ∈ es -> v ∈ vs) /\ (length es <= length vs)%nat.
Proof.
  intros Hw Hv Ha Hlt. unfold NewSet. destruct (sorted_data self w vs) as (es & Hb & Hs & Hc & Hin); [done|by eapply Forall_impl; [exact Hv|]; intros v [? _]|by rewrite map_self|]. change (buildSetData vs w = Ok (es, w)) in Hb. rewrite Hb. cbn [obind].
  rewrite Set_splice_eq, splice_build. destruct (build _ _ _) as [[r st']|] eqn:Hbu; [|done]. cbn [obind]. intros [= <- <-].
  destruct (build_tree_at vr VItem self n w vs es r st') as [Ht Hlen]; try done; [by apply members_ok|]. by exists es, r.
Qed.
Lemma NewSet_later n vs w w1 s w2 : typed w1 -> later w w1 -> Forall (member_ok w) vs -> apart w vs vs -> Zlength vs < 2 ^ 63 -> NewSet vr n vs w1 = Ok (s, w2) ->
  later w1 w2 /\ exists es r, s = Set_ r /\ set_tree n w w2 es r /\ members w es = members w vs /\ (forall v, v ∈ es -> v ∈ vs) /\ (length es <= length vs)%nat.
Proof.
  intros Hw Hl Hv Ha Hlt Hm. assert (Forall (member_ok w1) vs) as Hv1.
  { eapply Forall_impl; [exact Hv|]. intros v [Hs (bs & Hr & Hb)]. split; [by eapply sortable_later|]. exists bs. split; [by eapply record_later|done]. }
  destruct (NewSet_tree n vs w1 s w2 Hw Hv1 (apart_later _ _ _ _ Hl Ha) Hlt Hm) as (es & r & -> & Ht & Hc & Hin & Hlen). split; [apply Ht|].
  assert (forall l, (forall v, v ∈ l -> v ∈ vs) -> Forall (fun v => value_rank w1 v = value_rank w v) l) as Hr.
  { intros l Hl'. apply Forall_forall. intros v Hvl. rewrite Forall_forall in Hv. apply value_rank_later; [done|]. by apply Hv, Hl'. }
  exists es, r. split_and!; [done| |unfold members in *; by rewrite <- (contents_ext _ _ _ (Hr es Hin)), <- (contents_ext _ _ _ (Hr vs ltac:(done)))|done|done].
  destruct Ht as [Hl2 Hty _ Hs Hsm Htr]. split; try done; [by eapply later_trans|apply members_ok; rewrite Forall_forall in *; auto|]. rewrite <- (map_id es). apply (ascending_map (key_rank self w1)); [|done].
  eapply Forall_impl; [exact (Hr es Hin)|]. cbn. intros x Hx. symmetry. exact Hx.
Qed.
(** The cursor at a value, and whether it is there. *)
Lemma set_cursor fuel n w w' es r v : set_tree n w w' es r -> sortable w v -> apart w es [v] -> (n <= fuel)%nat ->
  exists q cur, seeks (value_rank w) (value_rank w v) es q /\ newCursorAtValue vr fuel r v true false w' = Ok (cur, w') /\
    Set_getCursorAtValue vr fuel (Set_ r) v w' = Ok (cur, match hit (value_rank w) (value_rank w v) es q with Some _ => true | None => false end, w').
Proof.
  intros Ht Hk Ha Hn. destruct (insert_key vr VItem self value_key fuel n w w' es r v Ht Hk Hn) as (q & seq & i & tl & Hse & Hc & Hx). exists q, (MkLevel seq i :: tl). split; [done|]. split; [done|].
  unfold Set_getCursorAtValue. cbn [set_seq obind]. rewrite Hc. cbn [obind]. unfold hit. destruct (es !! q) as [e|] eqn:He; [|by rewrite Hx]. destruct Hx as [-> Hcur]. rewrite Hcur. cbn [obind as_value].
  pose proof (equals_key vr VItem self value_key n w w' es r v e Ht Hk ltac:(by rewrite map_self) ltac:(by eapply list_elem_of_lookup_2)) as Heq. unfold key_rank, self in Heq. rewrite Heq. cbn [obind]. by case_bool_decide.
Qed.

End sets.

End laws.

End SetFacts.
Import SetFacts.

Section theorems.
Context `{GoSort} `{chunkingConfig} (Hwin : 0 < chunkWindow < 2 ^ 32) (vr : option (Hash -> option Value)).
#[local] Abbreviation set_tree := (tree_at vr VItem self).

Lemma insert_set_tree fuel n n' w w' es r es' r' v : set_tree n w w' es r -> set_tree n' w w' es' r' -> sortable w v -> apart w es [v] -> (forall u, u ∈ es -> value_rank w u = value_rank w v -> u = v) -> members w es' = <[value_rank w v := v]> (members w es) ->
  (4 * n + 4 * n' + length es + 3 <= fuel)%nat -> exists w3, Set_Insert vr fuel (Set_ r) [v] w' = Ok (Set_ r', w3).
Proof.
  intros Ht Ht' Hk Ha Hsame Hh Hf. destruct (set_cursor vr fuel n w w' es r v Ht Hk Ha ltac:(lia)) as (q & cur & Hse & Hc & Hg). cbn [Set_Insert]. rewrite Hg. cbn [obind]. pose proof (hit_lookup _ _ _ _ (ta_sorted _ _ _ _ _ _ _ _ Ht : ascending (value_rank w) es) Hse) as Hlk.
  destruct (put_ok (value_rank w) (value_rank w v) es q v (ta_sorted _ _ _ _ _ _ _ _ Ht) Hse eq_refl) as [Hs Hcs]. destruct (hit (value_rank w) (value_rank w v) es q) as [x|] eqn:Hx; cbn [obind].
  - pose proof Hlk as [Hxin Hxr]%contents_elem. rewrite (Hsame x Hxin Hxr) in Hlk. unfold members in Hh. rewrite insert_id in Hh by done. exists w'. by rewrite (tree_at_fun vr VItem self n n' w w' es es' r r' Ht Ht' (eq_sym Hh)).
  - unfold members in Hh. rewrite <- Hcs in Hh. apply ascending_unique in Hh; [|apply Ht'|done]. rewrite Hh in Ht'. change (?a :: ?l) with ([a] ++ l) in Ht'.
    destruct (splice_key vr VItem self value_key fuel n n' w w' es r q 0 [v] r' v cur Hwin Ht Ht' Hk Hse) as [w3 Hw3]; [destruct Hse; lia|done|lia|]. rewrite Set_splice_eq. cbn [map] in *. rewrite Hw3. by exists w3.
Qed.
Lemma remove_set_tree fuel n n' w w' es r es' r' v : set_tree n w w' es r -> set_tree n' w w' es' r' -> sortable w v -> apart w es [v] -> members w es' = delete (value_rank w v) (members w es) ->
  (4 * n + 4 * n' + length es + 3 <= fuel)%nat -> exists w3, Set_Remove vr fuel (Set_ r) [v] w' = Ok (Set_ r', w3).
Proof.
  intros Ht Ht' Hk Ha Hh Hf. destruct (set_cursor vr fuel n w w' es r v Ht Hk Ha ltac:(lia)) as (q & cur & Hse & Hc & Hg). cbn [Set_Remove]. rewrite Hg. cbn [obind]. pose proof (hit_lookup _ _ _ _ (ta_sorted _ _ _ _ _ _ _ _ Ht : ascending (value_rank w) es) Hse) as Hlk.
  destruct (hit (value_rank w) (value_rank w v) es q) as [x|] eqn:Hx; cbn [obind].
  - destruct (remove_ok (value_rank w) _ _ _ _ (ta_sorted _ _ _ _ _ _ _ _ Ht) Hse Hx) as [Hs Hcs]. unfold members in Hh. rewrite <- Hcs in Hh. apply ascending_unique in Hh; [|apply Ht'|done]. rewrite Hh in Ht'.
    destruct (splice_key vr VItem self value_key fuel n n' w w' es r q 1 [] r' v cur Hwin Ht Ht' Hk Hse) as [w3 Hw3]; [|done|lia|].
    + unfold hit in Hx. destruct (es !! q) as [y|] eqn:Hy; [apply lookup_lt_Some in Hy; lia|done].
    + rewrite Set_splice_eq, Hw3. by exists w3.
  - exists w'. unfold members in Hh. rewrite delete_id in Hh by exact Hlk. by rewrite (tree_at_fun vr VItem self n n' w w' es es' r r' Ht Ht' (eq_sym Hh)).
Qed.

(** C9: [Insert] gives the set of the values with the new one: where a set of those
    values has been built from scratch, inserting the value gives that very set; a
    value that is there already changes nothing. *)
Theorem set_insert_canonical fuel n n' vs vs' v w s w1 r w2 : world_ok w -> Forall (member_ok w) vs -> Forall (member_ok w) vs' -> apart w vs vs -> apart w vs' vs' -> apart w vs [v] -> (forall u, u ∈ vs -> value_rank w u = value_rank w v -> u = v) ->
  Zlength vs < 2 ^ 63 -> Zlength vs' < 2 ^ 63 -> members w vs' = <[value_rank w v := v]> (members w vs) -> NewSet vr n vs w = Ok (s, w1) -> NewSet vr n' vs' w1 = Ok (r, w2) ->
  (4 * n + 4 * n' + length vs + 3 <= fuel)%nat -> exists w3, Set_Insert vr fuel s [v] w2 = Ok (r, w3).
Proof.
  intros Hw Hv Hv' Ha Ha' Hav Hsame Hlt Hlt' Hh Hm Hr Hf. destruct (NewSet_tree vr Hwin n vs w s w1 (world_typed w Hw) Hv Ha Hlt Hm) as (es & ss & -> & Ht & Hc & Hin & Hlen).
  destruct (NewSet_later vr Hwin n' vs' w w1 r w2 (ta_typed _ _ _ _ _ _ _ _ Ht) (ta_later _ _ _ _ _ _ _ _ Ht) Hv' Ha' Hlt' Hr) as (Hl & es' & rs & -> & Ht' & Hc' & Hin' & _).
  assert (sortable w v) as Hk. { assert (members w vs' !! value_rank w v = Some v) as Hx by (rewrite Hh; apply lookup_insert_eq). apply contents_elem in Hx as [Hx _]. rewrite Forall_forall in Hv'. by destruct (Hv' _ Hx). }
  apply (insert_set_tree fuel n n' w w2 es ss es' rs); try done; [by eapply tree_at_later|by eapply MapFacts.apart_sub|intros u Hu; by apply Hsame, Hin|congruence|lia].
Qed.
(** C15: [Remove] gives the set of the values without the removed one, and a set
    that does not have the value is not changed. *)
Theorem set_remove_canonical fuel n n' vs vs' v w s w1 r w2 : world_ok w -> Forall (member_ok w) vs -> Forall (member_ok w) vs' -> apart w vs vs -> apart w vs' vs' -> sortable w v -> apart w vs [v] ->
  Zlength vs < 2 ^ 63 -> Zlength vs' < 2 ^ 63 -> members w vs' = delete (value_rank w v) (members w vs) -> NewSet vr n vs w = Ok (s, w1) -> NewSet vr n' vs' w1 = Ok (r, w2) ->
  (4 * n + 4 * n' + length vs + 3 <= fuel)%nat -> exists w3, Set_Remove vr fuel s [v] w2 = Ok (r, w3).
Proof.
  intros Hw Hv Hv' Ha Ha' Hk Hav Hlt Hlt' Hh Hm Hr Hf. destruct (NewSet_tree vr Hwin n vs w s w1 (world_typed w Hw) Hv Ha Hlt Hm) as (es & ss & -> & Ht & Hc & Hin & Hlen).
  destruct (NewSet_later vr Hwin n' vs' w w1 r w2 (ta_typed _ _ _ _ _ _ _ _ Ht) (ta_later _ _ _ _ _ _ _ _ Ht) Hv' Ha' Hlt' Hr) as (Hl & es' & rs & -> & Ht' & Hc' & Hin' & _).
  apply (remove_set_tree fuel n n' w w2 es ss es' rs); try done; [by eapply tree_at_later|by eapply MapFacts.apart_sub|congruence|lia].
Qed.
(** C13: A set holds the values it was built from: its length is the number of
    different values, iterating gives them in order without repetition, starting
    with [First], and [Has] says whether a value is one of them. *)
Theorem set_contents fuel n vs w s w' : world_ok w -> Forall (member_ok w) vs -> apart w vs vs -> Zlength vs < 2 ^ 63 -> NewSet vr n vs w = Ok (s, w') -> (n <= fuel)%nat -> (length vs < fuel)%nat ->
  Set_Len s = Ok (Z.of_nat (base.size (members w vs))) /\ exists es, ascending (value_rank w) es /\ members w es = members w vs /\ Set_IterAll vr fuel s w' = Ok (es, w') /\ Set_First vr fuel s w' = Ok (head es, w') /\
  forall v, sortable w v -> apart w vs [v] -> Set_Has vr fuel s v w' = Ok (bool_decide (is_Some (members w vs !! value_rank w v)), w').
Proof.
  intros Hw Hv Ha Hlt Hm Hn Hf. destruct (NewSet_tree vr Hwin n vs w s w' (world_typed w Hw) Hv Ha Hlt Hm) as (es & r & -> & Ht & Hc & Hin & Hlen). pose proof Ht as [_ Hty _ Hs Hsm Htr]. split; [|exists es; split_and!; [done|done| | |]].
  - cbn [Set_Len set_seq obind]. rewrite (has_tree_length (H0 := set_chunking vr) n _ _ r Htr) by (by rewrite Zlength_map). rewrite Zlength_map, <- Hc. unfold members. by rewrite size_contents.
  - unfold Set_IterAll. cbn [set_seq obind]. destruct (end_cursor vr fuel n _ _ r false false w' Htr Hn (or_intror eq_refl)) as (olds & cur & Htw & Hat & ->). cbn [obind end_of] in *.
    pose proof (iter_at _ _ _ (length es) Htw fuel _ _ Hat) as Hi. rewrite length_map in Hi. cbn [c_vr collection_chunking] in Hi. rewrite Hi by lia. cbn [obind]. by rewrite drop_0, all_values.
  - unfold Set_First. cbn [set_seq obind]. destruct (end_cursor vr fuel n _ _ r false false w' Htr Hn (or_intror eq_refl)) as (olds & cur & Htw & Hat & ->). cbn [obind end_of] in *. destruct es as [|v es].
    + by rewrite (at_invalid _ _ _ _ _ _ Hat eq_refl).
    + by destruct (at_current _ _ _ _ _ _ (VItem v) Hat eq_refl) as [-> ->].
  - intros v Hk Hav. destruct (read_key vr VItem self value_key fuel n w w' es r v Ht Hk Hn) as (q & cur & Hse & Hcu & Hx & _).
    rewrite <- Hc. unfold members. rewrite (hit_lookup (value_rank w) _ _ _ Hs Hse). unfold hit, Set_Has. cbn [set_seq obind]. rewrite Hcu. cbn [obind]. destruct (es !! q) as [e|] eqn:He; [|by rewrite Hx]. destruct Hx as [-> ->]. cbn [obind as_value].
    pose proof (equals_key vr VItem self value_key n w w' es r v e Ht Hk ltac:(rewrite map_self; by eapply MapFacts.apart_sub) ltac:(by eapply list_elem_of_lookup_2)) as Heq. unfold key_rank, self in Heq. rewrite Heq. by case_bool_decide.
Qed.

End theorems.

(** Small sets of numbers. *)
#[local] Existing Instance go_insertion_sort.
#[local] Existing Instance normalProductionChunks.
Lemma small_members : Forall (member_ok NewTypeCache) [number 2; number 1; number 3].
Proof. repeat constructor; first [apply number_sortable; [apply world_typed, new_world_ok|lia]|eexists; split; [cbv; reflexivity|reflexivity]]. Qed.
Lemma small_sets : is_ok (let! (_, w1) := NewSet None 8 [number 2; number 1] NewTypeCache in let! _ := NewSet None 8 [number 2; number 1; number 3] w1 in NewSet None 8 [number 2] w1) = true.
Proof. vm_compute. reflexivity. Qed.
Lemma set_contents_witness : exists s w, NewSet None 8 [number 2; number 1] NewTypeCache = Ok (s, w) /\ Set_Has None 8 s (number 1) w = Ok (true, w).
Proof.
  pose proof small_sets as Hok. destruct (NewSet None 8 _ NewTypeCache) as [[s w]|] eqn:Hm; [|discriminate Hok]. exists s, w. split; [reflexivity|].
  destruct (set_contents ltac:(split; reflexivity) None 8 8 [number 2; number 1] NewTypeCache s w) as (_ & es & _ & _ & _ & _ & Hk);
    [exact new_world_ok|exact (proj1 (proj1 (Forall_app _ [number 2; number 1] [number 3]) small_members))|apply values_apart; repeat constructor|reflexivity|exact Hm|lia|cbn; lia|].
  rewrite (Hk (number 1)); [|apply number_sortable; [apply world_typed, new_world_ok|lia]|apply values_apart; repeat constructor]. unfold members. change [number 2; number 1] with ([number 2] ++ [number 1]).
  rewrite contents_snoc, lookup_insert_eq. reflexivity.
Defined.
Lemma set_insert_canonical_witness : exists s w1 r w2 w3, NewSet None 8 [number 2; number 1] NewTypeCache = Ok (s, w1) /\ NewSet None 8 [number 2; number 1; number 3] w1 = Ok (r, w2) /\ Set_Insert None 80 s [number 3] w2 = Ok (r, w3).
Proof.
  pose proof small_sets as Hok. destruct (NewSet None 8 _ NewTypeCache) as [[s w1]|] eqn:Hm; [|discriminate Hok]. cbn [obind] in Hok. destruct (NewSet None 8 [number 2; number 1; number 3] w1) as [[r w2]|] eqn:Hr; [|discriminate Hok].
  destruct (set_insert_canonical ltac:(split; reflexivity) None 80 8 8 [number 2; number 1] [number 2; number 1; number 3] (number 3) NewTypeCache s w1 r w2) as [w3 Hs];
    [exact new_world_ok|exact (proj1 (proj1 (Forall_app _ [number 2; number 1] [number 3]) small_members))|exact small_members|apply values_apart; repeat constructor|apply values_apart; repeat constructor|apply values_apart; repeat constructor
    |intros u [->|[->|[]%elem_of_nil]%elem_of_cons]%elem_of_cons Hu; vm_compute in Hu; discriminate Hu|reflexivity|reflexivity|exact (contents_snoc _ [number 2; number 1] (number 3))|exact Hm|exact Hr|cbn; lia|].
  exists s, w1, r, w2, w3. split; [reflexivity|]. split; [exact Hr|exact Hs].
Defined.
Lemma set_remove_canonical_witness : exists s w1 r w2 w3, NewSet None 8 [number 2; number 1] NewTypeCache = Ok (s, w1) /\ NewSet None 8 [number 2] w1 = Ok (r, w2) /\ Set_Remove None 80 s [number 1] w2 = Ok (r, w3).
Proof.
  pose proof small_sets as Hok. destruct (NewSet None 8 _ NewTypeCache) as [[s w1]|] eqn:Hm; [|discriminate Hok]. cbn [obind] in Hok. destruct (NewSet None 8 [number 2; number 1; number 3] w1) as [?|]; [|discriminate Hok]. cbn [obind] in Hok.
  destruct (NewSet None 8 [number 2] w1) as [[r w2]|] eqn:Hr; [|discriminate Hok]. pose proof (proj1 (proj1 (Forall_app _ [number 2; number 1] [number 3]) small_members)) as He.
  assert (members NewTypeCache [number 2] !! value_rank NewTypeCache (number 1) = None) as Hnone by (apply contents_none; constructor; [exact numbers_differ|constructor]).
  destruct (set_remove_canonical ltac:(split; reflexivity) None 80 8 8 [number 2; number 1] [number 2] (number 1) NewTypeCache s w1 r w2) as [w3 Hs];
    [exact new_world_ok|exact He|exact (proj1 (proj1 (Forall_app _ [number 2] [number 1]) He))|apply values_apart; repeat constructor|apply values_apart; repeat constructor|apply number_sortable; [apply world_typed, new_world_ok|lia]|apply values_apart; repeat constructor
    |reflexivity|reflexivity|symmetry; exact (delete_insert_id _ _ _ Hnone)|exact Hm|exact Hr|cbn; lia|]. exists s, w1, r, w2, w3. split; [reflexivity|]. split; [exact Hr|exact Hs].
Defined.
