(* ===== verification/DiffFacts.v ===== *)
(** * Package [types]: the left-right diff of maps and sets

    Two cursors run over the leaves of two trees.  Where both have the same tuple
    they have the same items below it, so that skipping them skips no change. *)

From S2P Require Import Prelude GoLib HashPkg TypesCodec TypesType TypesValue TypesIntern RollingHash Sequences Chunker Lists Ordered OrderedDiff ChunkerFacts CursorFacts AppendFacts BuildFacts ResumeFacts AlignFacts SkipFacts FinalizeFacts DoneFacts TreeFacts ConcatFacts EditFacts CacheFacts RecordFacts CollectionFacts IndexedFacts OrderFacts OrderedFacts.
Import Hash Float64 NumberUtil Codec NomsKinds TypeCache Values Rolling Sequences Chunker Lists Ordered OrderedDiff.
Import ChunkerFacts CursorFacts TreeFacts EditFacts CacheFacts RecordFacts CollectionFacts IndexedFacts OrderFacts OrderedFacts.

Module DiffFacts.

(** ** Cursors in a tree with a known root *)

Definition rooted_at (r : sequence) (cur : sequenceCursor) : Prop := exists i, last cur = Some (MkLevel r i).
Lemma rooted_cons r lv cur : cur <> [] -> rooted_at r (lv :: cur) <-> rooted_at r cur.
Proof. intros Hne. unfold rooted_at. by destruct cur. Qed.
Lemma advance_root vr r cur : forall b m cur', rooted_at r cur -> advanceMaybeAllowPastEnd vr cur b = Ok (m, cur') -> rooted_at r cur'.
Proof.
  induction cur as [|[seq idx] parent IH]; intros b m cur' Hr; cbn [advanceMaybeAllowPastEnd]; [done|].
  destruct (idx <? seqLen seq - 1); [intros [= <- <-]; destruct parent; [destruct Hr as [i [= <- <-]]; by eexists|by apply rooted_cons in Hr; [apply rooted_cons|]]|].
  destruct (idx =? seqLen seq); [by intros [= <- <-]|]. destruct parent as [|lv parent].
  - cbn [obind]. intros [= <- <-]. destruct Hr as [i [= <- _]]. by eexists.
  - apply rooted_cons in Hr; [|done]. destruct (advanceMaybeAllowPastEnd vr (lv :: parent) false) as [[moved p']|] eqn:Ha; [|done]. cbn [obind]. specialize (IH _ _ _ Hr Ha). assert (p' <> []) as Hne by (destruct IH as [i Hi]; by destruct p').
    destruct moved; [destruct (sync vr p') as [s|]; [|done]; cbn [obind]|]; intros [= <- <-]; by apply rooted_cons.
Qed.

(** ** The changes between two sorted lists *)

Section edits.
Context {A : Type} (R : A -> rank_t) (eqv : A -> A -> bool) (key : A -> option Value).
(** Merging the lists, from [xs] to [ys]. *)
Inductive edits : list A -> list A -> list ValueChanged -> Prop :=
| ed_done : edits [] [] []
| ed_keep x y xs ys cs : eqv x y = true -> edits xs ys cs -> edits (x :: xs) (y :: ys) cs
| ed_removed x xs ys cs : match ys with y :: _ => lt (R x) (R y) = true | [] => True end -> edits xs ys cs -> edits (x :: xs) ys (MkChange DiffChangeRemoved (key x) :: cs)
| ed_added y xs ys cs : match xs with x :: _ => lt (R y) (R x) = true | [] => True end -> edits xs ys cs -> edits xs (y :: ys) (MkChange DiffChangeAdded (key y) :: cs)
| ed_modified x y xs ys cs : eqv x y = false -> R x = R y -> edits xs ys cs -> edits (x :: xs) (y :: ys) (MkChange DiffChangeModified (key x) :: cs).
Lemma edits_kept xs ys xs' ys' cs : Forall2 (fun x y => eqv x y = true) xs ys -> edits xs' ys' cs -> edits (xs ++ xs') (ys ++ ys') cs.
Proof. intros Hf He. induction Hf; [done|]. by constructor. Qed.

(** The change at a rank. *)
Definition change_at (a b : option A) : option ValueChanged :=
  match a, b with
  | Some x, Some y => if eqv x y then None else Some (MkChange DiffChangeModified (key x))
  | Some x, None => Some (MkChange DiffChangeRemoved (key x))
  | None, Some y => Some (MkChange DiffChangeAdded (key y))
  | None, None => None
  end.
Context (CR : ValueChanged -> rank_t) (HCR : forall t x, CR (MkChange t (key x)) = R x).
Lemma edits_ranks xs ys cs c : edits xs ys cs -> c ∈ cs -> exists z, (z ∈ xs \/ z ∈ ys) /\ CR c = R z.
Proof.
  intros He. induction He as [|x y xs ys cs _ _ IH|x xs ys cs _ _ IH|y xs ys cs _ _ IH|x y xs ys cs _ _ _ IH]; rewrite ?elem_of_nil, ?elem_of_cons; [done|..].
  1: intros Hc; destruct (IH Hc) as (z & ? & Hz); exists z; split; [rewrite ?elem_of_cons; tauto|done].
  all: intros [->|Hc]; [rewrite HCR|destruct (IH Hc) as (z & ? & Hz); exists z; split; [rewrite ?elem_of_cons; tauto|done]].
  - exists x. split; [left; by left|done].
  - exists y. split; [right; by left|done].
  - exists x. split; [left; by left|done].
Qed.
Lemma contents_cons {B} (Q : B -> rank_t) x l r : ascending Q (x :: l) -> contents Q (x :: l) !! r = if bool_decide (r = Q x) then Some x else contents Q l !! r.
Proof.
  intros Hs. inversion Hs as [|? ? Hs' Hall]; subst. change (x :: l) with ([] ++ x :: l). rewrite contents_move by (eapply Forall_impl; [exact Hall|]; intros y; apply before_ne). cbn [app]. rewrite contents_snoc. case_bool_decide as Hr; [subst; by rewrite lookup_insert_eq|by rewrite lookup_insert_ne].
Qed.
Lemma contents_less {B} (Q : B -> rank_t) l r : Forall (fun y => lt r (Q y) = true) l -> contents Q l !! r = None.
Proof. intros Hall. apply contents_none. eapply Forall_impl; [exact Hall|]. cbn. intros y Hy Heq. by rewrite Heq, lt_irrefl in Hy. Qed.
Lemma ascending_less {B} (Q : B -> rank_t) l r : ascending Q l -> match l with y :: _ => lt r (Q y) = true | [] => True end -> Forall (fun y => lt r (Q y) = true) l.
Proof. intros Hs Hr. inversion Hs as [|y l' _ Hall]; subst; constructor; [done|]. eapply Forall_impl; [exact Hall|]. cbn. intros z Hz. by eapply lt_trans. Qed.
(** A step that settles a rank below the others. *)
Lemma edits_head c xs ys cs r : Forall (fun z => lt r (R z) = true) xs -> Forall (fun z => lt r (R z) = true) ys -> CR c = r -> edits xs ys cs -> ascending CR cs -> ascending CR (c :: cs).
Proof.
  intros Hx Hy Hc He Hs. constructor; [done|]. apply Forall_forall. intros d Hd. destruct (edits_ranks _ _ _ _ He Hd) as (z & Hz & Hr). unfold before. rewrite Hc, Hr. rewrite Forall_forall in Hx, Hy. destruct Hz; auto.
Qed.
Lemma edits_exact xs ys cs : (forall x y, eqv x y = true -> x ∈ xs -> y ∈ ys -> R x = R y) -> ascending R xs -> ascending R ys -> edits xs ys cs -> ascending CR cs /\ forall r, contents CR cs !! r = change_at (contents R xs !! r) (contents R ys !! r).
Proof.
  intros Heqv Hxs Hys He. induction He as [|x y xs ys cs Hxy He IH|x xs ys cs Hlt He IH|y xs ys cs Hlt He IH|x y xs ys cs Hxy Hr He IH]; [split; [constructor|]; intros r; unfold contents; cbn [foldl]; by rewrite !lookup_empty|..].
  - pose proof Hxs as Hxs0. pose proof Hys as Hys0. inversion Hxs as [|? ? Hxs' Hx]; inversion Hys as [|? ? Hys' Hy]; subst. assert (R x = R y) as Hr by (apply Heqv; [done|by left|by left]). destruct IH as [Hs Hc]; [intros; apply Heqv; by try right|done|done|]. split; [done|].
    intros r. rewrite Hc, !contents_cons by done. rewrite <- Hr. case_bool_decide as Hrr; [subst|done]. rewrite contents_less by done. rewrite Hr, contents_less by done. cbn. by rewrite Hxy.
  - pose proof Hxs as Hxs0. inversion Hxs as [|? ? Hxs' Hx]; subst. destruct IH as [Hs Hc]; [intros; apply Heqv; [done|by right|done]|done|done|]. pose proof (ascending_less R ys (R x) Hys Hlt) as Hy. pose proof (edits_head (MkChange DiffChangeRemoved (key x)) _ _ _ (R x) Hx Hy ltac:(done) He Hs) as Hs'. split; [done|].
    intros r. rewrite !contents_cons, HCR by done. case_bool_decide; [subst; by rewrite (contents_less R ys)|by rewrite Hc].
  - pose proof Hys as Hys0. inversion Hys as [|? ? Hys' Hy]; subst. destruct IH as [Hs Hc]; [intros; apply Heqv; [done|done|by right]|done|done|]. pose proof (ascending_less R xs (R y) Hxs Hlt) as Hx. pose proof (edits_head (MkChange DiffChangeAdded (key y)) _ _ _ (R y) Hx Hy ltac:(done) He Hs) as Hs'. split; [done|].
    intros r. rewrite !contents_cons, HCR by done. case_bool_decide; [subst; by rewrite (contents_less R xs)|by rewrite Hc].
  - pose proof Hxs as Hxs0. pose proof Hys as Hys0. inversion Hxs as [|? ? Hxs' Hx]; inversion Hys as [|? ? Hys' Hy]; subst. destruct IH as [Hs Hc]; [intros; apply Heqv; by try right|done|done|]. unfold before in Hy. rewrite <- Hr in Hy.
    pose proof (edits_head (MkChange DiffChangeModified (key x)) _ _ _ (R x) Hx Hy ltac:(done) He Hs) as Hs'. split; [done|]. intros r. rewrite !contents_cons, HCR by done. rewrite <- Hr. case_bool_decide; [|by rewrite Hc]. cbn. by rewrite Hxy.
Qed.
End edits.
Lemma edits_map {A B} (f : A -> B) R R' eqv key xs0 ys0 cs : edits R' eqv key xs0 ys0 cs -> forall xs ys, xs0 = map f xs -> ys0 = map f ys -> Forall (fun x => R' (f x) = R x) xs -> Forall (fun x => R' (f x) = R x) ys -> edits R (fun x y => eqv (f x) (f y)) (fun x => key (f x)) xs ys cs.
Proof.
  induction 1 as [|x y xs0 ys0 cs Hxy _ IH|x xs0 ys0 cs Hlt _ IH|y xs0 ys0 cs Hlt _ IH|x y xs0 ys0 cs Hxy Hr _ IH]; intros xs ys Hxs Hys Hfx Hfy.
  - destruct xs, ys; try done. constructor.
  - destruct xs as [|x' xs], ys as [|y' ys]; try done. injection Hxs as -> ->. injection Hys as -> ->. inversion Hfx; inversion Hfy; subst. apply ed_keep; auto.
  - destruct xs as [|x' xs]; [done|]. injection Hxs as -> ->. inversion Hfx as [|? ? Hx' Hfx']; subst. apply (ed_removed R (fun x y => eqv (f x) (f y)) (fun x => key (f x)) x'); [|by auto]. destruct ys as [|y ys]; [done|]. inversion Hfy as [|? ? Hy']; subst. cbn in Hlt. by rewrite <- Hx', <- Hy'.
  - destruct ys as [|y' ys]; [done|]. injection Hys as -> ->. inversion Hfy as [|? ? Hy' Hfy']; subst. apply (ed_added R (fun x y => eqv (f x) (f y)) (fun x => key (f x)) y'); [|by auto]. destruct xs as [|x xs]; [done|]. inversion Hfx as [|? ? Hx']; subst. cbn in Hlt. by rewrite <- Hx', <- Hy'.
  - destruct xs as [|x' xs], ys as [|y' ys]; try done. injection Hxs as -> ->. injection Hys as -> ->. inversion Hfx as [|? ? Hx']; inversion Hfy as [|? ? Hy']; subst. apply (ed_modified R (fun x y => eqv (f x) (f y)) (fun x => key (f x)) x'); [done|congruence|auto].
Qed.

Lemma loop_root vr r fuel : forall tl seq key fi last w cur w', (tl = [] -> seq = r) -> (tl <> [] -> rooted_at r tl) -> newCursorAt_loop vr fuel tl seq key fi last w = Ok (cur, w') -> rooted_at r cur.
Proof.
  induction fuel as [|fuel IH]; intros tl seq key fi last w cur w' Hseq Htl; [done|]. cbn [newCursorAt_loop]. unfold newSequenceCursor at 1. assert (forall i, rooted_at r (MkLevel seq i :: tl)) as Hr by (intros i; destruct tl; [exists i; cbn; by rewrite Hseq|by apply rooted_cons; [|apply Htl]]).
  set (k := fun c : sequenceCursor => _). assert (forall i, k (MkLevel seq i :: tl) = Ok (cur, w') -> rooted_at r cur) as Hk.
  { intros i. unfold k. destruct (is_emptyKey key).
    - cbn [obind]. destruct (cur_getChildSequence vr _) as [[s|]|]; [|by intros [= <- _]|done]. cbn [obind]. by apply IH.
    - destruct (seekTo _ _ _ _) as [[[idx found] w1]|]; [|done]. cbn [obind]. destruct found; [|by intros [= <- _]]. destruct (cur_getChildSequence vr _) as [[s|]|]; [|by intros [= <- _]|done]. cbn [obind]. by apply IH. }
  destruct (_ <? 0); [|apply Hk]. destruct (check _); [|done]. cbn [obind]. apply Hk.
Qed.

Section sides.
Context `{GoSort} `{chunkingConfig} `{ordered} `{!ordered_laws} (vr : option (Hash -> option Value)).
#[local] Abbreviation chunking_ := (collection_chunking vr).
Context (st : cstate) (Hinv : inv (chunking := chunking_) st).
#[local] Abbreviation w := (st_tc st).

(** A tree with sorted levels. *)
Record side (l : bool) (olds : list (list sequenceItem)) (r : sequence) : Prop := MkSide {
  sd_tower : tower (H0 := chunking_) st l olds; sd_root : root_of (H0 := chunking_) st l olds r; sd_small : small l (hd [] olds); sd_sorted : sorted_level w l (hd [] olds)
}.
Lemma side_up l L L1 rest r : side l (L :: L1 :: rest) r -> side false (L1 :: rest) r.
Proof. intros [Ht Hr Hsm Hs]. split; [by inversion Ht|done|done|by eapply level_sorted]. Qed.
(** A cursor at item [q]. *)
Record pos (l : bool) (olds : list (list sequenceItem)) (r : sequence) (q : nat) (cur : sequenceCursor) : Prop := MkPos {
  po_at : at_ (H0 := chunking_) st l olds q cur; po_root : rooted_at r cur
}.
(** The chunk of a cursor and its place. *)
Lemma pos_view l L rest r q cur : side l (L :: rest) r -> pos l (L :: rest) r q cur -> exists pre ck post seq mt i tl, cur = MkLevel seq (Z.of_nat i) :: tl /\ L = pre ++ ck ++ post /\ q = (length pre + i)%nat /\ made (H0 := chunking_) l st ck seq mt /\
  match rest with
  | [] => pre = [] /\ post = [] /\ tl = []
  | L1 :: _ => exists cs1 cs2, pre = concat cs1 /\ post = concat cs2 /\ Forall2 (tuple_of (H0 := chunking_) l st) (cs1 ++ ck :: cs2) L1 /\ L1 !! length cs1 = Some (MItem mt) /\ pos false rest r (length cs1) tl /\ ((i < length ck)%nat \/ i = length ck /\ cs2 = [])
  end.
Proof.
  intros [Ht Hr Hsm Hs] [Hat Hro]. inversion Hat as [? ? ? seq Hseq Hq|? ? cs r0 L1 rest1 cs1 ck cs2 i seq mt cur' Hc Hf Hm Hmd Hi Hat']; subst.
  - destruct Hr as (mt & Hm). destruct Hro as [j [= -> _]]. exists [], (seq_items r), [], r, mt, q, []. rewrite app_nil_r. pose proof (md_items _ _ _ _ _ Hm) as Hit. by split_and!.
  - inversion Ht as [|? ? cs' r' ? ? Hok Hc' Hts Hne Ht']; subst. destruct (cut_fun _ _ _ _ _ _ _ Hc Hc') as [<- <-]. rewrite Hf in Hts. exists (concat cs1), ck, (concat cs2), seq, mt, i, cur'. split; [done|]. split; [destruct Hc as [-> _]; by rewrite <- concat_full, Hf, concat_app|].
    split; [done|]. split; [done|]. exists cs1, cs2. split_and!; try done. split; [done|]. destruct (at_nonempty _ _ _ _ _ Hat') as (lv & crest & ->). by apply rooted_cons in Hro.
Qed.
Lemma pos_current l L rest r q cur x : pos l (L :: rest) r q cur -> L !! q = Some x -> cur_current cur = Ok x /\ valid cur = true.
Proof. intros [Hat _] Hx. by apply (at_current _ _ _ _ _ _ _ Hat Hx). Qed.
Lemma pos_end l L rest r cur : pos l (L :: rest) r (length L) cur -> valid cur = false.
Proof. intros [Hat _]. by apply (at_invalid _ _ _ _ _ _ Hat). Qed.
Lemma pos_bound l L rest r q cur : pos l (L :: rest) r q cur -> (q <= length L)%nat.
Proof. intros [Hat _]. by eapply at_bound. Qed.
Lemma pos_advance l L rest r q cur b : side l (L :: rest) r -> pos l (L :: rest) r q cur -> (q < length L)%nat ->
  exists cur', advanceMaybeAllowPastEnd vr cur b = Ok (Nat.ltb (S q) (length L), cur') /\ pos l (L :: rest) r (if Nat.ltb (S q) (length L) || b then S q else q) cur'.
Proof.
  intros [Ht _ _ _] [Hat Hro] Hq. destruct (advance_at _ _ _ _ _ Ht Hat) as (Hmid & Hend & _). cbn [hd] in Hmid, Hend. destruct (Nat.ltb_spec (S q) (length L)) as [Hlt|Hge]; cbn [orb].
  - destruct (Hmid Hlt b) as (cur' & Ha & Hat'). exists cur'. split; [done|]. split; [done|by eapply advance_root].
  - destruct (Hend ltac:(lia)) as (Hf & cur' & Ha & Hat'). destruct b; [exists cur'|exists cur]; (split; [done|]); split; try done. by eapply advance_root.
Qed.

(** ** Comparing *)

Context (leaf_same : sequenceItem -> sequenceItem -> bool).
Definition same (l : bool) (x y : sequenceItem) : bool :=
  if l then leaf_same x y else match x, y with MItem mt, MItem mt' => bool_decide (target (mt_ref mt) = target (mt_ref mt')) | _, _ => false end.
(** Leaves are compared, and tuples with the same hash are the same. *)
Record leaves_compared (La Lb : list sequenceItem) : Prop := MkCompared {
  lc_compare : forall ck seq mt ck' seq' mt' i j x y, made (H0 := chunking_) true st ck seq mt -> made (H0 := chunking_) true st ck' seq' mt' -> ck !! i = Some x -> ck' !! j = Some y -> x ∈ La -> y ∈ Lb ->
    compareFn seq seq' (Z.of_nat i) (Z.of_nat j) w = Ok (leaf_same x y, w);
  lc_rank : forall x y, x ∈ La -> y ∈ Lb -> leaf_same x y = true -> item_rank w true x = item_rank w true y;
  lc_refl : forall x, x ∈ La -> x ∈ Lb -> leaf_same x x = true
}.
Definition tuples_compared (As Bs : list (list sequenceItem)) : Prop := forall La Lb mt mt', La ∈ As -> Lb ∈ Bs -> MItem mt ∈ La -> MItem mt' ∈ Lb -> target (mt_ref mt) = target (mt_ref mt') -> mt = mt'.
Definition compared (l : bool) (As Bs : list (list sequenceItem)) : Prop := if l then leaves_compared (hd [] As) (hd [] Bs) /\ tuples_compared (tail As) (tail Bs) else tuples_compared As Bs.
Lemma compared_up l L L1 rest L' L1' rest' : compared l (L :: L1 :: rest) (L' :: L1' :: rest') -> compared false (L1 :: rest) (L1' :: rest').
Proof. destruct l; cbn; [by intros [_ ?]|]. intros Hc La Lb mt mt' Ha Hb. apply Hc; by right. Qed.
Lemma meta_items l ck seq mt x i : made (H0 := chunking_) l st ck seq mt -> l = false -> ck !! i = Some x -> exists t tuples mt1, seq = metaSequence t tuples /\ x = MItem mt1 /\ tuples !! i = Some mt1.
Proof.
  intros Hm -> Hx. pose proof (md_items _ _ _ _ _ Hm) as Hi. pose proof (md_meta _ _ _ _ _ Hm) as Hme. destruct seq as [| | | |t tuples]; try done. cbn [seq_items] in Hi. rewrite <- Hi in Hx. change (map MItem tuples) with (MItem <$> tuples) in Hx.
  rewrite list_lookup_fmap in Hx. apply fmap_Some in Hx as (mt1 & Hmt & ->). by exists t, tuples, mt1.
Qed.
Lemma view_lookup (L pre ck post : list sequenceItem) q i x : L = pre ++ ck ++ post -> q = (length pre + i)%nat -> (i < length ck)%nat \/ post = [] -> L !! q = Some x -> ck !! i = Some x.
Proof.
  intros -> -> Hi. rewrite lookup_app_r by lia. replace (length pre + i - length pre)%nat with i by lia. destruct Hi as [Hi| ->]; [by rewrite lookup_app_l|by rewrite app_nil_r].
Qed.
Lemma current_chunk l L rest r q cur x : side l (L :: rest) r -> pos l (L :: rest) r q cur -> L !! q = Some x -> exists ck seq mt i tl, cur = MkLevel seq (Z.of_nat i) :: tl /\ made (H0 := chunking_) l st ck seq mt /\ ck !! i = Some x /\ small l ck.
Proof.
  intros Hs Hp Hx. destruct (pos_view _ _ _ _ _ _ Hs Hp) as (pre & ck & post & seq & mt & i & tl & -> & HL & Hq & Hm & Hrest). exists ck, seq, mt, i, tl. split_and!; try done.
  - apply (view_lookup L pre ck post q i x HL Hq); [|done]. destruct rest as [|L1 rest]; [right; by destruct Hrest as (_ & ? & _)|]. destruct Hrest as (cs1 & cs2 & _ & -> & _ & _ & _ & [?|[_ ->]]); [by left|by right].
  - pose proof (sd_small _ _ _ Hs) as Hsm. cbn [hd] in Hsm. rewrite HL in Hsm. by apply small_app in Hsm as [_ [? _]%small_app].
Qed.
Lemma compare_ok l La resta ra qa ca Lb restb rb qb cb x y : side l (La :: resta) ra -> side l (Lb :: restb) rb -> compared l (La :: resta) (Lb :: restb) -> pos l (La :: resta) ra qa ca -> pos l (Lb :: restb) rb qb cb -> La !! qa = Some x -> Lb !! qb = Some y ->
  isCurrentEqual ca cb w = Ok (same l x y, w).
Proof.
  intros Hsa Hsb Hc Ha Hb Hx Hy. destruct (current_chunk _ _ _ _ _ _ _ Hsa Ha Hx) as (ck & seq & mt & i & tl & -> & Hm & Hi & _), (current_chunk _ _ _ _ _ _ _ Hsb Hb Hy) as (ck' & seq' & mt' & i' & tl' & -> & Hm' & Hi' & _). cbn [isCurrentEqual]. destruct l.
  - destruct Hc as [Hc _]. by apply (lc_compare _ _ Hc ck seq mt ck' seq' mt'); try done; [eapply list_elem_of_lookup_2|eapply list_elem_of_lookup_2].
  - destruct (meta_items _ _ _ _ _ _ Hm eq_refl Hi) as (t & tuples & mt1 & -> & -> & Ht), (meta_items _ _ _ _ _ _ Hm' eq_refl Hi') as (t' & tuples' & mt2 & -> & -> & Ht'). cbn [compareFn]. by rewrite (index_nat _ _ _ Ht), (index_nat _ _ _ Ht').
Qed.
Lemma same_tuple As Bs La Lb x y : tuples_compared As Bs -> La ∈ As -> Lb ∈ Bs -> x ∈ La -> y ∈ Lb -> same false x y = true -> x = y.
Proof. intros Hc Ha Hb Hx Hy. destruct x as [| | |mt], y as [| | |mt']; try done. cbn. intros Heq%bool_decide_eq_true. f_equal. by apply (Hc La Lb). Qed.
Lemma same_rank l La resta Lb restb x y : compared l (La :: resta) (Lb :: restb) -> x ∈ La -> y ∈ Lb -> same l x y = true -> item_rank w l x = item_rank w l y.
Proof. destruct l; [intros [Hc _]; by apply (lc_rank _ _ Hc)|]. intros Hc Hx Hy Hs. assert (x = y) as -> by (by apply (same_tuple (La :: resta) (Lb :: restb) La Lb); [|left|left|..]). done. Qed.
Lemma same_refl l La resta Lb restb x : compared l (La :: resta) (Lb :: restb) -> sorted_level w l La -> x ∈ La -> x ∈ Lb -> same l x x = true.
Proof.
  destruct l; [intros [Hc _] _; by apply (lc_refl _ _ Hc)|]. intros _ [Hk _] Hx _. rewrite Forall_forall in Hk. destruct (Hk x Hx) as (k & mt & -> & _). by apply bool_decide_eq_true.
Qed.
(** The same tuples have the same chunks. *)
Lemma tuples_inj l cs cs' ts : Forall2 (tuple_of (H0 := chunking_) l st) cs ts -> Forall2 (tuple_of (H0 := chunking_) l st) cs' ts -> cs = cs'.
Proof.
  intros Hcs. revert cs'. induction Hcs as [|ck t cs ts (seq & mt & -> & Hm & _) _ IH]; intros cs' Hcs'; inversion Hcs' as [|ck' ? cs1 ? (seq' & mt' & Heq & Hm' & _) Hcs1]; subst; [done|]. injection Heq as <-. f_equal; [|by apply IH].
  pose proof (md_child _ _ _ _ _ Hm) as Hc. rewrite (md_child _ _ _ _ _ Hm') in Hc. injection Hc as <-. by rewrite <- (md_items _ _ _ _ _ Hm), <- (md_items _ _ _ _ _ Hm').
Qed.
Lemma Forall2_eq {A} (P : A -> A -> Prop) xs ys : Forall2 P xs ys -> (forall x y, x ∈ xs -> y ∈ ys -> P x y -> x = y) -> xs = ys.
Proof. induction 1 as [|x y xs ys Hxy _ IH]; intros Heq; [done|]. f_equal; [apply Heq; [by left|by left|done]|]. apply IH. intros x' y' Hx Hy. apply Heq; by right. Qed.
Lemma seg_elem {A} k q (L : list A) x : x ∈ take k (drop q L) -> x ∈ L.
Proof. intros (i & Hi)%list_elem_of_lookup. apply lookup_take_Some in Hi as [Hi _]. rewrite lookup_drop in Hi. by eapply list_elem_of_lookup_2. Qed.
Lemma same_chunks l csa La1 csb Lb1 As Bs pa pb k : Forall2 (tuple_of (H0 := chunking_) l st) csa La1 -> Forall2 (tuple_of (H0 := chunking_) l st) csb Lb1 -> tuples_compared As Bs -> La1 ∈ As -> Lb1 ∈ Bs ->
  Forall2 (fun x y => same false x y = true) (take k (drop pa La1)) (take k (drop pb Lb1)) -> take k (drop pa csa) = take k (drop pb csb).
Proof.
  intros Ha Hb Hc HA HB Hseg. apply Forall2_eq in Hseg; [|intros x y Hx Hy; apply (same_tuple As Bs La1 Lb1); try done; by eapply seg_elem].
  apply (tuples_inj l _ _ (take k (drop pa La1))); [by apply Forall2_take, Forall2_drop|]. rewrite Hseg. by apply Forall2_take, Forall2_drop.
Qed.

(** ** Skipping *)

(** The cursor after [k] items from [q] on, and whether there are more. *)
Definition moved (l : bool) (olds : list (list sequenceItem)) (r : sequence) (q k : nat) (past m : bool) (cur : sequenceCursor) : Prop :=
  let n := length (hd [] olds) in (q + k <= n)%nat /\ m = Nat.ltb (q + k) n /\ pos l olds r (if m then q + k else if past then n else n - 1)%nat cur.
Lemma sync_ok l L L1 rest r cs p k b m pcur : side l (L :: L1 :: rest) r -> Forall2 (tuple_of (H0 := chunking_) l st) cs L1 -> (0 < p + k)%nat -> moved false (L1 :: rest) r p k false m pcur ->
  exists cur, syncWithIdx vr pcur m b = Ok cur /\ L = concat cs /\ m = Nat.ltb (length (concat (take (p + k) cs))) (length L) /\ pos l (L :: L1 :: rest) r (if m then length (concat (take (p + k) cs)) else if b then length L else length L - 1)%nat cur.
Proof.
  intros Hs Hcs Hpk (Hle & Hm & Hp). cbn [hd] in *. pose proof Hs as [Ht _ _ _]. pose proof (Forall2_length _ _ _ Hcs) as Hlen. pose proof Hp as [Hat Hro].
  assert (L1 <> []) as Hne by (intros ->; cbn in Hle; lia). assert (0 < length L1)%nat by (destruct L1; [done|cbn; lia]).
  destruct (child_of st l L L1 rest _ pcur Ht Hat) as (cs1 & ck & cs2 & seq & mt & Hts & Hq & HL & Hmd & Hck & Hch & Hup); [rewrite Hm; destruct (Nat.ltb_spec (p + k) (length L1)); lia|].
  pose proof (tuples_inj l _ _ _ Hcs Hts) as ->. rewrite length_app in Hlen. cbn [length] in Hlen. assert (0 < length ck)%nat by (destruct ck; [done|cbn; lia]).
  assert (length L = length (concat cs1) + length ck + length (concat cs2))%nat as HlL by (rewrite HL, !length_app; lia).
  unfold syncWithIdx, sync. cbn [c_vr collection_chunking] in Hch. rewrite Hch. cbn [obind]. assert (seqLen seq = Z.of_nat (length ck)) as Hsl by (unfold seqLen, Zlength; by rewrite (md_items _ _ _ _ _ Hmd)). rewrite Hsl.
  assert (pcur <> []) as Hpne by (destruct (at_nonempty _ _ _ _ _ Hat) as (lv & ? & ->); done). assert (L = concat (cs1 ++ ck :: cs2)) as HL' by (by rewrite concat_app).
  destruct (Nat.ltb_spec (p + k) (length L1)) as [Hlt|Hge]; subst m.
  - eexists. split; [done|]. rewrite Hq, take_app_length. split; [done|]. split; [symmetry; apply Nat.ltb_lt; lia|]. split; [|by apply rooted_cons]. rewrite <- (Nat.add_0_r (length (concat cs1))). apply (Hup 0%nat). by left.
  - assert (p + k = length L1)%nat as Hpk' by lia. assert (cs2 = []) as -> by (destruct cs2; [done|cbn in Hlen; lia]). cbn [concat length] in *.
    rewrite take_ge by (rewrite length_app; cbn; lia). eexists. split; [done|]. split; [done|]. split; [symmetry; apply Nat.ltb_ge; by rewrite <- HL'|]. split; [|by apply rooted_cons]. destruct b.
    + replace (length L) with (length (concat cs1) + length ck)%nat by lia. apply Hup. by right.
    + replace (length L - 1)%nat with (length (concat cs1) + (length ck - 1))%nat by lia. replace (Z.of_nat (length ck) - 1) with (Z.of_nat (length ck - 1)) by lia. apply Hup. left. lia.
Qed.
Definition levels_size (olds : list (list sequenceItem)) : nat := foldr (fun L n => S (length L) + n)%nat 0%nat olds.
(** The cursors run over [k] items that both have, to the end or to a difference. *)
Definition forwarded (l : bool) (As : list (list sequenceItem)) (ra : sequence) (Bs : list (list sequenceItem)) (rb : sequence) (past : bool) (qa qb : nat) (res : outcome (bool * bool * sequenceCursor * sequenceCursor * world)) : Prop :=
  exists k ma mb ca cb, res = Ok (ma, mb, ca, cb, w) /\ moved l As ra qa k past ma ca /\ moved l Bs rb qb k past mb cb /\
    Forall2 (fun x y => same l x y = true) (take k (drop qa (hd [] As))) (take k (drop qb (hd [] Bs))) /\
    (ma = true -> mb = true -> forall x y, hd [] As !! (qa + k)%nat = Some x -> hd [] Bs !! (qb + k)%nat = Some y -> same l x y = false).
Lemma forwarded_more l As ra Bs rb past qa qb j fuel ma mb ca cb : moved l As ra qa j past ma ca -> moved l Bs rb qb j past mb cb -> Forall2 (fun x y => same l x y = true) (take j (drop qa (hd [] As))) (take j (drop qb (hd [] Bs))) -> (0 < fuel)%nat ->
  (ma = true -> mb = true -> forwarded l As ra Bs rb past (qa + j) (qb + j) (doFastForward_loop vr fuel past true true ca cb w)) -> forwarded l As ra Bs rb past qa qb (doFastForward_loop vr fuel past ma mb ca cb w).
Proof.
  intros Ha Hb Hj Hf Hmore. destruct (ma && mb) eqn:Hm.
  - apply andb_true_iff in Hm as [-> ->]. destruct (Hmore eq_refl eq_refl) as (k & ma & mb & ca' & cb' & He & (Hka & Hma & Hpa) & (Hkb & Hmb & Hpb) & Hk & Hstop). exists (j + k)%nat, ma, mb, ca', cb'. unfold moved. rewrite !Nat.add_assoc. split_and!; try done.
    rewrite <- !drop_drop in Hk. rewrite <- (take_drop j (take (j + k) (drop qa _))), <- (take_drop j (take (j + k) (drop qb _))). rewrite !take_take, !Nat.min_l, !skipn_firstn_comm by lia. replace (j + k - j)%nat with k by lia. by apply Forall2_app.
  - destruct fuel as [|fuel]; [lia|]. exists j, ma, mb, ca, cb. split; [cbn [doFastForward_loop]; by rewrite Hm|]. split_and!; try done. intros -> ->. done.
Qed.
Lemma block_take {A} (cs : list (list A)) p k i : (i <= length (concat (take k (drop p cs))))%nat -> let seg := concat (take k (drop p cs)) in let q := (length (concat (take p cs)) + i)%nat in let m := (length seg - i)%nat in
  take m (drop q (concat cs)) = drop i seg /\ (q + m = length (concat (take (p + k) cs)))%nat.
Proof.
  intros Hi seg q m. fold seg in Hi. assert (concat cs = concat (take p cs) ++ seg ++ concat (drop k (drop p cs))) as Hc by (unfold seg; by rewrite <- !concat_app, !take_drop).
  assert (concat (take (p + k) cs) = concat (take p cs) ++ seg) as Ht by (unfold seg; rewrite <- concat_app; f_equal; rewrite <- (take_drop p (take (p + k) cs)), take_take, Nat.min_l, skipn_firstn_comm by lia; by replace (p + k - p)%nat with k by lia).
  split; [|rewrite Ht, length_app; unfold q, m; lia]. rewrite Hc. unfold q. rewrite drop_app_add, drop_app_le by done. unfold m. rewrite take_app_le by (rewrite length_drop; lia). apply take_ge. rewrite length_drop. lia.
Qed.
Lemma elem_of_concat {A} (cs : list (list A)) x : x ∈ concat cs <-> exists z, z ∈ cs /\ x ∈ z.
Proof. rewrite list_elem_of_In, in_concat. by setoid_rewrite list_elem_of_In. Qed.
Lemma concat_take_le {A} (cs : list (list A)) p : (length (concat (take p cs)) <= length (concat cs))%nat.
Proof. rewrite <- (take_drop p cs) at 2. rewrite concat_app, length_app. lia. Qed.
(** Chunks that both have are skipped as a whole. *)
Lemma skip_blocks l La L1a resta ra qa Lb L1b restb rb qb x y csa csb pa pb ia ib ck ck' k past ma mb pca pcb : side l (La :: L1a :: resta) ra -> side l (Lb :: L1b :: restb) rb -> compared l (La :: L1a :: resta) (Lb :: L1b :: restb) ->
  Forall2 (tuple_of (H0 := chunking_) l st) csa L1a -> Forall2 (tuple_of (H0 := chunking_) l st) csb L1b -> csa !! pa = Some ck -> csb !! pb = Some ck' -> ck !! ia = Some x -> ck' !! ib = Some y -> qa = (length (concat (take pa csa)) + ia)%nat -> qb = (length (concat (take pb csb)) + ib)%nat ->
  same l x y = true -> (0 < k)%nat -> Forall2 (fun x y => same false x y = true) (take k (drop pa L1a)) (take k (drop pb L1b)) -> moved false (L1a :: resta) ra pa k false ma pca -> moved false (L1b :: restb) rb pb k false mb pcb ->
  exists m ca cb, (0 < m)%nat /\ syncWithIdx vr pca ma past = Ok ca /\ syncWithIdx vr pcb mb past = Ok cb /\ moved l (La :: L1a :: resta) ra qa m past ma ca /\ moved l (Lb :: L1b :: restb) rb qb m past mb cb /\
    Forall2 (fun x y => same l x y = true) (take m (drop qa La)) (take m (drop qb Lb)).
Proof.
  intros Hsa Hsb Hc Hta Htb Hcka Hckb Hx Hy Hqa Hqb Hxy Hk Hseg Hma Hmb.
  destruct (sync_ok l La L1a resta ra csa pa k past ma pca Hsa Hta ltac:(lia) Hma) as (ca & Hsca & HLa & Hma' & Hpa), (sync_ok l Lb L1b restb rb csb pb k past mb pcb Hsb Htb ltac:(lia) Hmb) as (cb & Hscb & HLb & Hmb' & Hpb).
  pose proof (same_chunks l csa L1a csb L1b (L1a :: resta) (L1b :: restb) pa pb k Hta Htb (compared_up _ _ _ _ _ _ _ Hc) ltac:(by left) ltac:(by left) Hseg) as Heq.
  assert (ck = ck') as <-. { assert (take k (drop pa csa) !! 0%nat = Some ck) as Ha by (by rewrite lookup_take_lt, lookup_drop, Nat.add_0_r by lia). rewrite Heq, lookup_take_lt, lookup_drop, Nat.add_0_r in Ha by lia. congruence. }
  assert (forall z, z ∈ take k (drop pa csa) -> forall u, u ∈ z -> u ∈ La) as HinA by (intros z Hz u Hu; rewrite HLa; apply elem_of_concat; exists z; split; [by eapply seg_elem|done]).
  assert (forall z, z ∈ take k (drop pb csb) -> forall u, u ∈ z -> u ∈ Lb) as HinB by (intros z Hz u Hu; rewrite HLb; apply elem_of_concat; exists z; split; [by eapply seg_elem|done]).
  assert (ck ∈ take k (drop pa csa)) as Hck by (apply (list_elem_of_lookup_2 _ 0); by rewrite lookup_take_lt, lookup_drop, Nat.add_0_r by lia). assert (sorted_level w l ck) as Hsck.
  { destruct (list_elem_of_split_length _ _ _ Hcka) as (c1 & c2 & -> & _). pose proof (sd_sorted _ _ _ Hsa) as Hs. cbn [hd] in Hs. rewrite HLa, concat_app in Hs. cbn [concat] in Hs. by apply sorted_level_app in Hs as (_ & (? & _)%sorted_level_app & _). }
  assert (ia = ib) as ->.
  { pose proof (same_rank l La _ Lb _ x y Hc (HinA ck Hck x ltac:(by eapply list_elem_of_lookup_2)) (HinB ck ltac:(by rewrite <- Heq) y ltac:(by eapply list_elem_of_lookup_2)) Hxy) as Hr. destruct Hsck as [_ Hasc].
    destruct (Nat.lt_trichotomy ia ib) as [Hl|[->|Hl]]; [|done|]; [pose proof (ascending_lt _ ck _ _ _ _ Hasc Hx Hy Hl) as Hb|pose proof (ascending_lt _ ck _ _ _ _ Hasc Hy Hx Hl) as Hb]; unfold before in Hb; by rewrite Hr, lt_irrefl in Hb. }
  set (seg := concat (take k (drop pa csa))) in *. assert (ib < length seg)%nat as Hib. { unfold seg. rewrite (drop_S _ _ _ Hcka). destruct k; [lia|]. cbn. rewrite length_app. apply lookup_lt_Some in Hy. lia. }
  destruct (block_take csa pa k ib) as [Htka Hqka]; [fold seg; lia|]. destruct (block_take csb pb k ib) as [Htkb Hqkb]; [rewrite <- Heq; fold seg; lia|]. fold seg in Htka, Hqka. rewrite <- Heq in Htkb, Hqkb. fold seg in Htkb, Hqkb. rewrite <- Hqa, <- HLa in *. rewrite <- Hqb, <- HLb in *.
  exists (length seg - ib)%nat, ca, cb. split; [lia|]. split; [done|]. split; [done|]. unfold moved. cbn [hd]. rewrite Hqka, Hqkb. split_and!; try done.
  - rewrite HLa. apply concat_take_le.
  - rewrite HLb. apply concat_take_le.
  - rewrite Htka, Htkb. apply Forall2_same_length_lookup_2; [done|]. intros i u v Hu Hv. rewrite Hu in Hv. injection Hv as <-. rewrite lookup_drop in Hu. apply list_elem_of_lookup_2 in Hu. unfold seg in Hu. apply elem_of_concat in Hu as (z & Hz & Hu).
    apply (same_refl l La (L1a :: resta) Lb (L1b :: restb)); [done|apply Hsa|by eapply HinA|]. eapply HinB; [by rewrite <- Heq|done].
Qed.
(** Reading the cursor's chunk among the chunks of its level. *)
Lemma pos_chunk l L L1 rest r q cur x : side l (L :: L1 :: rest) r -> pos l (L :: L1 :: rest) r q cur -> L !! q = Some x -> exists cs p ck i lv tl t, cur = lv :: tl /\ Forall2 (tuple_of (H0 := chunking_) l st) cs L1 /\ cs !! p = Some ck /\ ck !! i = Some x /\ q = (length (concat (take p cs)) + i)%nat /\
  pos false (L1 :: rest) r p tl /\ L1 !! p = Some t.
Proof.
  intros Hs Hp Hx. destruct (pos_view _ _ _ _ _ _ Hs Hp) as (pre & ck & post & seq & mt & i & tl & -> & HL & Hq & Hm & cs1 & cs2 & -> & -> & Hts & Ht & Hp1 & Hi). exists (cs1 ++ ck :: cs2), (length cs1), ck, i, (MkLevel seq (Z.of_nat i)), tl, (MItem mt).
  split; [done|]. split; [done|]. split; [by rewrite lookup_app_r, Nat.sub_diag|]. split; [|by rewrite take_app_length]. apply (view_lookup L _ ck _ q i x HL Hq); [|done]. destruct Hi as [?|[_ ->]]; [by left|by right].
Qed.
Lemma advance_moved l L rest r q cur b : side l (L :: rest) r -> pos l (L :: rest) r q cur -> (q < length L)%nat -> exists m cur', advanceMaybeAllowPastEnd vr cur b = Ok (m, cur') /\ moved l (L :: rest) r q 1 b m cur'.
Proof.
  intros Hs Hp Hq. destruct (pos_advance _ _ _ _ _ _ b Hs Hp Hq) as (cur' & Ha & Hp'). eexists _, cur'. split; [done|]. unfold moved. cbn [hd]. rewrite Nat.add_1_r. split; [lia|]. split; [done|].
  destruct (Nat.ltb_spec (S q) (length L)); [done|]. cbn [orb] in Hp'. destruct b; [by replace (length L) with (S q) by lia|by replace (length L - 1)%nat with q by lia].
Qed.
Lemma take_1 {A} (L : list A) q x : L !! q = Some x -> take 1 (drop q L) = [x].
Proof. intros Hx. by rewrite (drop_S _ _ _ Hx). Qed.
Lemma ff_step l La resta ra qa ca Lb restb rb qb cb x y past fuel : side l (La :: resta) ra -> side l (Lb :: restb) rb -> pos l (La :: resta) ra qa ca -> pos l (Lb :: restb) rb qb cb -> La !! qa = Some x -> Lb !! qb = Some y -> same l x y = true -> (0 < fuel)%nat ->
  (forall ca cb, pos l (La :: resta) ra (qa + 1) ca -> pos l (Lb :: restb) rb (qb + 1) cb -> (qa + 1 < length La)%nat -> (qb + 1 < length Lb)%nat -> forwarded l (La :: resta) ra (Lb :: restb) rb past (qa + 1) (qb + 1) (doFastForward_loop vr fuel past true true ca cb w)) ->
  forwarded l (La :: resta) ra (Lb :: restb) rb past qa qb (let! (ma, ca) := advanceMaybeAllowPastEnd vr ca past in let! (mb, cb) := advanceMaybeAllowPastEnd vr cb past in doFastForward_loop vr fuel past ma mb ca cb w).
Proof.
  intros Hsa Hsb Ha Hb Hx Hy Hxy Hf Hnext. destruct (advance_moved _ _ _ _ _ _ past Hsa Ha) as (ma & ca' & Hca & Hma); [by eapply lookup_lt_Some|]. destruct (advance_moved _ _ _ _ _ _ past Hsb Hb) as (mb & cb' & Hcb & Hmb); [by eapply lookup_lt_Some|].
  rewrite Hca. cbn [obind]. rewrite Hcb. cbn [obind]. apply (forwarded_more _ _ _ _ _ _ _ _ 1); try done; [cbn [hd]; rewrite (take_1 _ _ _ Hx), (take_1 _ _ _ Hy); by constructor|].
  destruct Hma as (_ & Hma & Hpa), Hmb as (_ & Hmb & Hpb). cbn [hd] in *. intros -> ->. apply Hnext; try done; by apply Nat.ltb_lt.
Qed.
Lemma pos_single l L r q cur : side l [L] r -> pos l [L] r q cur -> tail cur = [].
Proof. intros Hs Hp. by destruct (pos_view _ _ _ _ _ _ Hs Hp) as (? & ? & ? & ? & ? & ? & ? & -> & _ & _ & _ & _ & _ & ->). Qed.
Lemma pos_cons l L rest r q cur : pos l (L :: rest) r q cur -> exists lv tl, cur = lv :: tl.
Proof. intros [Hat _]. by destruct (at_nonempty _ _ _ _ _ Hat) as (lv & ? & ->); eexists _, _. Qed.
Lemma forwarded_progress l As ra Bs rb past qa qb res x y : forwarded l As ra Bs rb past qa qb res -> hd [] As !! qa = Some x -> hd [] Bs !! qb = Some y -> same l x y = true -> exists k ma mb ca cb, (0 < k)%nat /\ res = Ok (ma, mb, ca, cb, w) /\ moved l As ra qa k past ma ca /\ moved l Bs rb qb k past mb cb /\
  Forall2 (fun x y => same l x y = true) (take k (drop qa (hd [] As))) (take k (drop qb (hd [] Bs))).
Proof.
  intros (k & ma & mb & ca & cb & He & Hma & Hmb & Hseg & Hstop) Hx Hy Hxy. exists k, ma, mb, ca, cb. split_and!; try done. destruct k as [|k]; [|lia]. pose proof (lookup_lt_Some _ _ _ Hx). pose proof (lookup_lt_Some _ _ _ Hy).
  destruct Hma as (_ & Hma & _), Hmb as (_ & Hmb & _). rewrite Nat.add_0_r in Hma, Hmb. rewrite !Nat.add_0_r in Hstop. rewrite (Hstop ltac:(rewrite Hma; by apply Nat.ltb_lt) ltac:(rewrite Hmb; by apply Nat.ltb_lt) x y) in Hxy; done.
Qed.
Lemma ff_ok As : forall Bs l La resta Lb restb ra rb, As = La :: resta -> Bs = Lb :: restb -> side l As ra -> side l Bs rb -> compared l As Bs ->
  forall fuel past qa qb ca cb, pos l As ra qa ca -> pos l Bs rb qb cb -> (qa < length La)%nat -> (qb < length Lb)%nat -> (S (length La - qa) + levels_size resta <= fuel)%nat -> forwarded l As ra Bs rb past qa qb (doFastForward_loop vr fuel past true true ca cb w).
Proof.
  induction As as [|La' As IHA]; intros Bs l La resta Lb restb ra rb [= -> ->] -> Hsa Hsb Hc; induction fuel as [|fuel IHf]; intros past qa qb ca cb Ha Hb Hqa Hqb Hfuel; [lia|].
  destruct (lookup_lt_is_Some_2 La qa Hqa) as [x Hx], (lookup_lt_is_Some_2 Lb qb Hqb) as [y Hy]. cbn [doFastForward_loop andb]. rewrite (compare_ok _ _ _ _ _ _ _ _ _ _ _ _ _ Hsa Hsb Hc Ha Hb Hx Hy). cbn [obind].
  destruct (same l x y) eqn:Hxy; [|exists 0%nat, true, true, ca, cb; unfold moved; cbn [hd]; rewrite !Nat.add_0_r; split_and!; try done; try lia; [symmetry; by apply Nat.ltb_lt|symmetry; by apply Nat.ltb_lt|congruence]].
  assert (forwarded l (La :: resta) ra (Lb :: restb) rb past qa qb (let! (ma, ca) := advanceMaybeAllowPastEnd vr ca past in let! (mb, cb) := advanceMaybeAllowPastEnd vr cb past in doFastForward_loop vr fuel past ma mb ca cb w)) as Hstep.
  { apply (ff_step _ _ _ _ _ _ _ _ _ _ _ x y); try done; [lia|]. intros ca' cb' Ha' Hb' Hla Hlb. apply IHf; try done. lia. }
  destruct resta as [|L1a resta]; [by rewrite (pos_single _ _ _ _ _ Hsa Ha)|]. destruct restb as [|L1b restb]; [rewrite (pos_single _ _ _ _ _ Hsb Hb); by destruct (tail ca)|].
  destruct (pos_chunk _ _ _ _ _ _ _ _ Hsa Ha Hx) as (csa & pa & cka & ia & lva & tla & ta & -> & Htsa & Hcka & Hia & Hqpa & Hpa & Hta), (pos_chunk _ _ _ _ _ _ _ _ Hsb Hb Hy) as (csb & pb & ckb & ib & lvb & tlb & tb & -> & Htsb & Hckb & Hib & Hqpb & Hpb & Htb). cbn [tail].
  pose proof (side_up _ _ _ _ _ Hsa) as Hsa1. pose proof (side_up _ _ _ _ _ Hsb) as Hsb1. pose proof (compared_up _ _ _ _ _ _ _ Hc) as Hc1. pose proof (compare_ok _ _ _ _ _ _ _ _ _ _ _ _ _ Hsa1 Hsb1 Hc1 Hpa Hpb Hta Htb) as Hpe.
  destruct (pos_current _ _ _ _ _ _ _ Hpa Hta) as [_ Hva], (pos_current _ _ _ _ _ _ _ Hpb Htb) as [_ Hvb]. destruct (pos_cons _ _ _ _ _ _ Hpa) as (lva1 & tla1 & ->), (pos_cons _ _ _ _ _ _ Hpb) as (lvb1 & tlb1 & ->). rewrite Hpe. cbn [obind].
  destruct (same false ta tb) eqn:Hpab; [|done]. rewrite Hva, Hvb. cbn [check obind]. pose proof (lookup_lt_Some _ _ _ Hta). pose proof (lookup_lt_Some _ _ _ Htb). cbn [levels_size foldr] in Hfuel. fold (levels_size resta) in Hfuel.
  destruct (forwarded_progress _ _ _ _ _ _ _ _ _ _ _ (IHA _ false L1a resta L1b restb ra rb eq_refl eq_refl Hsa1 Hsb1 Hc1 fuel false pa pb _ _ Hpa Hpb ltac:(done) ltac:(done) ltac:(lia)) Hta Htb Hpab) as (k & ma & mb & pca & pcb & Hk & -> & Hma & Hmb & Hseg). cbn [obind].
  destruct (skip_blocks l La L1a resta ra qa Lb L1b restb rb qb x y csa csb pa pb ia ib cka ckb k past ma mb pca pcb) as (m & ca' & cb' & Hm & -> & Hscb & Hma' & Hmb' & Hseg'); try done. cbn [obind]. rewrite Hscb. cbn [obind].
  apply (forwarded_more _ _ _ _ _ _ _ _ m); try done; [lia|]. destruct Hma' as (_ & Hma' & Hpa'), Hmb' as (_ & Hmb' & Hpb'). cbn [hd] in *. intros -> ->. symmetry in Hma', Hmb'. apply Nat.ltb_lt in Hma', Hmb'. apply IHf; try done. cbn [levels_size foldr]. fold (levels_size resta). lia.
Qed.

(** ** The loops *)

Section leaves.
Context (La : list sequenceItem) (resta : list (list sequenceItem)) (ra : sequence) (Lb : list sequenceItem) (restb : list (list sequenceItem)) (rb : sequence).
Context (Hsa : side true (La :: resta) ra) (Hsb : side true (Lb :: restb) rb) (Hc : compared true (La :: resta) (Lb :: restb)).
#[local] Abbreviation R := (item_rank w true).
#[local] Abbreviation diff := (edits R leaf_same or_key).

Lemma current_key L rest r q cur x : side true (L :: rest) r -> pos true (L :: rest) r q cur -> L !! q = Some x -> exists k, getCurrentKey cur w = Ok (k, w) /\ key_good k /\ rank k = R x /\ key_v k = or_key x.
Proof.
  intros Hs Hp Hx. pose proof (sd_sorted _ _ _ Hs) as [Hk _]. cbn [hd] in Hk. rewrite Forall_forall in Hk. destruct (Hk x) as [k Hkx]; [by eapply list_elem_of_lookup_2|]. destruct (item_rank_key _ _ _ _ Hkx) as [Hr Hg].
  destruct (current_chunk _ _ _ _ _ _ _ Hs Hp Hx) as (ck & seq & mt & i & tl & -> & Hm & Hi & Hsm). exists k. split_and!; try done; [cbn [getCurrentKey]; by apply (made_getKey vr true st ck seq mt i x k)|]. destruct Hkx as (v & -> & _ & _ & Hv). by destruct k, Hv as [_ ->].
Qed.
Lemma step L rest r q cur : side true (L :: rest) r -> pos true (L :: rest) r q cur -> (q < length L)%nat -> exists m cur', advance vr cur = Ok (m, cur') /\ pos true (L :: rest) r (S q) cur'.
Proof. intros Hs Hp Hq. destruct (pos_advance _ _ _ _ _ _ true Hs Hp Hq) as (cur' & Ha & Hp'). rewrite orb_true_r in Hp'. eexists _, cur'. done. Qed.
(** Where both cursors are, and what remains. *)
Definition progress (qa qb : nat) (cs : list ValueChanged) (qa' qb' : nat) (ca cb : sequenceCursor) : Prop :=
  pos true (La :: resta) ra qa' ca /\ pos true (Lb :: restb) rb qb' cb /\ (qa <= qa')%nat /\ (qb <= qb')%nat /\ forall cs', diff (drop qa' La) (drop qb' Lb) cs' -> diff (drop qa La) (drop qb Lb) (cs ++ cs').
Lemma progress_refl qa qb ca cb : pos true (La :: resta) ra qa ca -> pos true (Lb :: restb) rb qb cb -> progress qa qb [] qa qb ca cb.
Proof. intros Ha Hb. unfold progress. by split_and!. Qed.
Lemma progress_trans qa qb cs qa' qb' ca cb cs' qa2 qb2 ca2 cb2 : progress qa qb cs qa' qb' ca cb -> progress qa' qb' cs' qa2 qb2 ca2 cb2 -> progress qa qb (cs ++ cs') qa2 qb2 ca2 cb2.
Proof. intros (_ & _ & Hla & Hlb & Hd) (Hpa & Hpb & Hla' & Hlb' & Hd'). split_and!; try done; [lia|lia|]. intros cs2 H2'. rewrite <- app_assoc. auto. Qed.
Lemma cursor_valid L rest r q cur : pos true (L :: rest) r q cur -> valid cur = bool_decide (q < length L)%nat.
Proof.
  intros Hp. case_bool_decide as Hq; [destruct (lookup_lt_is_Some_2 _ _ Hq) as [x Hx]; by destruct (pos_current _ _ _ _ _ _ _ Hp Hx)|]. pose proof (pos_bound _ _ _ _ _ _ Hp). replace q with (length L) in Hp by lia. by apply pos_end in Hp.
Qed.
Lemma changes_ok fuel : forall qa qb ca cb, pos true (La :: resta) ra qa ca -> pos true (Lb :: restb) rb qb cb -> (length La - qa + (length Lb - qb) < fuel)%nat -> exists cs qa' qb' ca' cb', changes_loop vr fuel ca cb w = Ok (cs, ca', cb', w) /\ progress qa qb cs qa' qb' ca' cb' /\
  (forall x y, La !! qa = Some x -> Lb !! qb = Some y -> leaf_same x y = false -> (qa + qb < qa' + qb')%nat).
Proof.
  induction fuel as [|fuel IH]; intros qa qb ca cb Ha Hb Hf; [lia|]. cbn [changes_loop]. rewrite (cursor_valid _ _ _ _ _ Ha), (cursor_valid _ _ _ _ _ Hb).
  case_bool_decide as Hqa; cbn [andb]; [|exists [], qa, qb, ca, cb; split; [done|]; split; [by apply progress_refl|]; intros x y Hx%lookup_lt_Some; lia]. case_bool_decide as Hqb; [|exists [], qa, qb, ca, cb; split; [done|]; split; [by apply progress_refl|]; intros x y _ Hy%lookup_lt_Some; lia].
  destruct (lookup_lt_is_Some_2 La qa Hqa) as [x Hx], (lookup_lt_is_Some_2 Lb qb Hqb) as [y Hy]. rewrite (compare_ok _ _ _ _ _ _ _ _ _ _ _ _ _ Hsa Hsb Hc Ha Hb Hx Hy). cbn [obind same]. destruct (leaf_same x y) eqn:Hxy; [exists [], qa, qb, ca, cb; split; [done|]; split; [by apply progress_refl|]; congruence|].
  destruct (current_key _ _ _ _ _ _ Hsa Ha Hx) as (ka & -> & Hga & Hra & Hva), (current_key _ _ _ _ _ _ Hsb Hb Hy) as (kb & Hkb & Hgb & Hrb & Hvb). cbn [obind]. rewrite Hkb. cbn [obind]. rewrite (key_Less_rank w kb ka), Hra, Hrb by done. cbn [obind].
  destruct (step _ _ _ _ _ Hsa Ha Hqa) as (ma & ca1 & Hca & Ha1), (step _ _ _ _ _ Hsb Hb Hqb) as (mb & cb1 & Hcb & Hb1). pose proof (drop_S _ _ _ Hx) as Hda. pose proof (drop_S _ _ _ Hy) as Hdb. destruct (lt (R y) (R x)) eqn:Hlt.
  - rewrite Hcb. cbn [obind]. destruct (IH qa (S qb) ca cb1 Ha Hb1) as (cs & qa' & qb' & ca' & cb' & -> & Hp & _); [lia|]. cbn [obind]. eexists _, qa', qb', ca', cb'. split; [done|]. split; [|destruct Hp as (_ & _ & ? & ? & _); lia].
    apply (progress_trans qa qb [_] qa (S qb) ca cb1); [|done]. split_and!; try done; [lia|]. intros cs' Hd. rewrite Hvb, Hdb. apply ed_added; [by rewrite Hda|done].
  - rewrite (key_Less_rank w ka kb), Hra, Hrb by done. cbn [obind]. destruct (lt (R x) (R y)) eqn:Hlt'; rewrite Hca; cbn [obind].
    + destruct (IH (S qa) qb ca1 cb Ha1 Hb) as (cs & qa' & qb' & ca' & cb' & -> & Hp & _); [lia|]. cbn [obind]. eexists _, qa', qb', ca', cb'. split; [done|]. split; [|destruct Hp as (_ & _ & ? & ? & _); lia].
      apply (progress_trans qa qb [_] (S qa) qb ca1 cb); [|done]. split_and!; try done; [lia|]. intros cs' Hd. rewrite Hva, Hda. apply ed_removed; [by rewrite Hdb|done].
    + rewrite Hcb. cbn [obind]. destruct (IH (S qa) (S qb) ca1 cb1 Ha1 Hb1) as (cs & qa' & qb' & ca' & cb' & -> & Hp & _); [lia|]. cbn [obind]. eexists _, qa', qb', ca', cb'. split; [done|]. split; [|destruct Hp as (_ & _ & ? & ? & _); lia].
      apply (progress_trans qa qb [_] (S qa) (S qb) ca1 cb1); [|done]. split_and!; try done; [lia|lia|]. intros cs' Hd. rewrite Hva, Hda, Hdb. apply ed_modified; [done|by apply lt_total|done].
Qed.
Lemma forward_ok fuel qa qb ca cb : pos true (La :: resta) ra qa ca -> pos true (Lb :: restb) rb qb cb -> (qa < length La)%nat -> (qb < length Lb)%nat -> (S (levels_size (La :: resta)) <= fuel)%nat -> exists k ca' cb', fastForward vr fuel ca cb w = Ok (ca', cb', w) /\ progress qa qb [] (qa + k) (qb + k) ca' cb' /\
  (forall x y, La !! (qa + k)%nat = Some x -> Lb !! (qb + k)%nat = Some y -> leaf_same x y = false).
Proof.
  intros Ha Hb Hqa Hqb Hf. unfold fastForward, doFastForward. rewrite (cursor_valid _ _ _ _ _ Ha), (cursor_valid _ _ _ _ _ Hb), !bool_decide_true by done. cbn [andb check obind]. cbn [levels_size foldr] in Hf. fold (levels_size resta) in Hf.
  destruct (ff_ok _ _ true La resta Lb restb ra rb eq_refl eq_refl Hsa Hsb Hc fuel true qa qb ca cb Ha Hb Hqa Hqb ltac:(lia)) as (k & ma & mb & ca' & cb' & -> & (Hla & Hma & Hpa) & (Hlb & Hmb & Hpb) & Hseg & Hstop). cbn [obind hd] in *.
  assert ((if ma then qa + k else length La)%nat = (qa + k)%nat) as Hea by (rewrite Hma; destruct (Nat.ltb_spec (qa + k) (length La)); lia). assert ((if mb then qb + k else length Lb)%nat = (qb + k)%nat) as Heb by (rewrite Hmb; destruct (Nat.ltb_spec (qb + k) (length Lb)); lia). rewrite Hea in Hpa. rewrite Heb in Hpb.
  exists k, ca', cb'. split; [done|]. split.
  - split_and!; try done; [lia|lia|]. intros cs' Hd. cbn [app]. rewrite <- (take_drop k (drop qa La)), <- (take_drop k (drop qb Lb)), !drop_drop. by apply edits_kept.
  - intros x y Hx Hy. apply Hstop; [rewrite Hma; apply Nat.ltb_lt; by eapply lookup_lt_Some|rewrite Hmb; apply Nat.ltb_lt; by eapply lookup_lt_Some|done|done].
Qed.
Lemma common_ok fuel : forall qa qb ca cb, pos true (La :: resta) ra qa ca -> pos true (Lb :: restb) rb qb cb -> (levels_size (La :: resta) + length La + length Lb + 2 + (length La - qa + (length Lb - qb)) < fuel)%nat -> exists cs qa' qb' ca' cb', common_loop vr fuel ca cb w = Ok (cs, ca', cb', w) /\
  progress qa qb cs qa' qb' ca' cb' /\ ((length La <= qa')%nat \/ (length Lb <= qb')%nat).
Proof.
  induction fuel as [|fuel IH]; intros qa qb ca cb Ha Hb Hf; [lia|]. cbn [common_loop]. rewrite (cursor_valid _ _ _ _ _ Ha), (cursor_valid _ _ _ _ _ Hb).
  case_bool_decide as Hqa; cbn [andb]; [|exists [], qa, qb, ca, cb; split; [done|]; split; [by apply progress_refl|]; lia]. case_bool_decide as Hqb; [|exists [], qa, qb, ca, cb; split; [done|]; split; [by apply progress_refl|]; lia].
  destruct (forward_ok fuel qa qb ca cb Ha Hb Hqa Hqb ltac:(lia)) as (k & ca1 & cb1 & -> & Hp1 & Hstop). cbn [obind]. pose proof Hp1 as (Ha1 & Hb1 & _). pose proof (pos_bound _ _ _ _ _ _ Ha1). pose proof (pos_bound _ _ _ _ _ _ Hb1).
  destruct (changes_ok fuel _ _ _ _ Ha1 Hb1 ltac:(lia)) as (cs & qa2 & qb2 & ca2 & cb2 & -> & Hp2 & Hmove). cbn [obind]. pose proof Hp2 as (Ha2 & Hb2 & Hla & Hlb & _). pose proof (pos_bound _ _ _ _ _ _ Ha2). pose proof (pos_bound _ _ _ _ _ _ Hb2).
  assert (qa + qb < qa2 + qb2)%nat as Hless. { destruct k as [|k]; [|lia]. rewrite !Nat.add_0_r in *. destruct (lookup_lt_is_Some_2 La qa Hqa) as [x Hx], (lookup_lt_is_Some_2 Lb qb Hqb) as [y Hy]. by apply (Hmove x y), Hstop. }
  destruct (IH qa2 qb2 ca2 cb2 Ha2 Hb2 ltac:(lia)) as (cs' & qa3 & qb3 & ca3 & cb3 & -> & Hp3 & Hend). cbn [obind]. exists (cs ++ cs'), qa3, qb3, ca3, cb3. split; [done|]. split; [|done]. apply (progress_trans qa qb [] _ _ _ _ _ _ _ _ _ Hp1). by eapply progress_trans.
Qed.
Lemma rest_ok t L rest r fuel : side true (L :: rest) r -> forall q cur, pos true (L :: rest) r q cur -> (length L - q < fuel)%nat -> rest_loop vr fuel t cur w = Ok (map (fun x => MkChange t (or_key x)) (drop q L), w).
Proof.
  intros Hs. induction fuel as [|fuel IH]; intros q cur Hp Hf; [lia|]. cbn [rest_loop]. rewrite (cursor_valid _ _ _ _ _ Hp). case_bool_decide as Hq; [|by rewrite drop_ge by lia]. destruct (lookup_lt_is_Some_2 _ _ Hq) as [x Hx].
  destruct (current_key _ _ _ _ _ _ Hs Hp Hx) as (k & -> & _ & _ & Hv), (step _ _ _ _ _ Hs Hp Hq) as (m & cur' & Ha & Hp'). cbn [obind]. rewrite Ha. cbn [obind]. rewrite (IH _ _ Hp') by lia. cbn [obind]. by rewrite (drop_S _ _ _ Hx), Hv.
Qed.
Lemma start_ok L rest r fuel : side true (L :: rest) r -> (length (L :: rest) <= fuel)%nat -> exists cur, start_cursor vr fuel (Some r) w = Ok (cur, w) /\ pos true (L :: rest) r 0 cur.
Proof.
  intros [Ht Hr _ _] Hf. destruct (end_at vr (L :: rest) st true L rest r false false eq_refl Ht Hr) as (cur & Hat & (seq & i & tl & -> & Hme) & Hloop); [by right|]. exists (MkLevel seq i :: tl). cbn [start_cursor]. unfold newCursorAt.
  assert (newCursorAt_loop vr fuel [] r emptyKey false false w = Ok (MkLevel seq i :: tl, w)) as He by (replace fuel with (length (L :: rest) + (fuel - length (L :: rest)))%nat by lia; rewrite Hloop; by apply descend_leaf). split; [done|]. split; [done|]. by eapply loop_root; [| |exact He].
Qed.
Lemma levels_length olds : (length olds <= levels_size olds)%nat.
Proof. induction olds as [|L olds IH]; cbn [length levels_size foldr] in *; [lia|]. fold (levels_size olds). lia. Qed.
Lemma rest_removed xs : diff xs [] (map (fun x => MkChange DiffChangeRemoved (or_key x)) xs).
Proof. induction xs; by constructor. Qed.
Lemma rest_added ys : diff [] ys (map (fun y => MkChange DiffChangeAdded (or_key y)) ys).
Proof. induction ys; by constructor. Qed.
(** The left-right diff is the merge of the leaves. *)
Lemma left_right_ok fuel : (levels_size (La :: resta) + levels_size (Lb :: restb) + 2 * length La + 2 * length Lb + 2 < fuel)%nat -> exists cs, orderedSequenceDiffLeftRight vr fuel (Some ra) (Some rb) w = Ok (cs, w) /\ diff La Lb cs.
Proof.
  intros Hf. pose proof (levels_length (La :: resta)). pose proof (levels_length (Lb :: restb)). destruct (start_ok _ _ _ fuel Hsa ltac:(lia)) as (ca & Hca & Ha), (start_ok _ _ _ fuel Hsb ltac:(lia)) as (cb & Hcb & Hb). unfold orderedSequenceDiffLeftRight. rewrite Hca. cbn [obind]. rewrite Hcb. cbn [obind].
  destruct (common_ok fuel 0 0 ca cb Ha Hb ltac:(lia)) as (cs & qa & qb & ca' & cb' & -> & (Ha' & Hb' & _ & _ & Hd) & Hend). cbn [obind]. rewrite (rest_ok _ _ _ _ fuel Hsa _ _ Ha') by lia. cbn [obind]. rewrite (rest_ok _ _ _ _ fuel Hsb _ _ Hb') by lia. cbn [obind].
  eexists. split; [done|]. rewrite !drop_0 in Hd. apply Hd. destruct Hend as [Hend|Hend]; rewrite (drop_ge _ _ Hend); cbn [map app]; [apply rest_added|rewrite app_nil_r; apply rest_removed].
Qed.
End leaves.
End sides.

(** ** Trees of elements *)

(** The tuples of a tree. *)
Inductive below (vr : option (Hash -> option Value)) : sequence -> metaTuple -> Prop :=
| below_here t tuples mt : mt ∈ tuples -> below vr (metaSequence t tuples) mt
| below_child t tuples mt seq mt' : mt ∈ tuples -> mt_getChildSequence vr mt = Ok seq -> below vr seq mt' -> below vr (metaSequence t tuples) mt'.
(** Chunks of the trees that have the same hash are the same. *)
Definition no_collision (vr : option (Hash -> option Value)) (r r' : sequence) : Prop :=
  forall mt mt', below vr r mt -> below vr r' mt' -> target (mt_ref mt) = target (mt_ref mt') -> mt_getChildSequence vr mt = mt_getChildSequence vr mt'.

Section trees.
Context `{GoSort} `{chunkingConfig} `{ordered} `{!ordered_laws} (vr : option (Hash -> option Value)).
#[local] Abbreviation chunking_ := (collection_chunking vr).

Lemma below_step r mt t tuples mt' : below vr r mt -> mt_getChildSequence vr mt = Ok (metaSequence t tuples) -> mt' ∈ tuples -> below vr r mt'.
Proof. induction 1 as [t0 tuples0 mt Hmt|t0 tuples0 mt seq mt1 Hmt Hch _ IH]; intros Hm Hin; [eapply below_child; [exact Hmt|exact Hm|by constructor]|eapply below_child; [exact Hmt|exact Hch|by apply IH]]. Qed.
Lemma meta_elem st ck seq mt mt' : made (H0 := chunking_) false st ck seq mt -> MItem mt' ∈ ck -> exists t tuples, seq = metaSequence t tuples /\ mt' ∈ tuples.
Proof. intros Hm (i & Hi)%list_elem_of_lookup. destruct (meta_items vr st false ck seq mt (MItem mt') i Hm eq_refl Hi) as (t & tuples & mt1 & -> & [= <-] & Ht). exists t, tuples. split; [done|by eapply list_elem_of_lookup_2]. Qed.
(** The tuples in the levels of a tree. *)
Lemma levels_below st olds : forall L rest r, olds = L :: rest -> tower (H0 := chunking_) st false olds -> root_of (H0 := chunking_) st false olds r -> forall L' mt, L' ∈ olds -> MItem mt ∈ L' -> below vr r mt.
Proof.
  induction olds as [|L0 olds IH]; intros L rest r [= -> ->] Ht Hr L' mt HL Hmt. destruct rest as [|L1 rest].
  - apply list_elem_of_singleton in HL as ->. destruct Hr as (mt0 & Hm). destruct (meta_elem st L r mt0 mt Hm Hmt) as (t & tuples & -> & Hin). by constructor.
  - inversion Ht as [|? ? cs r0 ? ? _ Hc Hts Hne Ht1]; subst. apply elem_of_cons in HL as [->|HL]; [|by apply (IH L1 rest r eq_refl Ht1 Hr L' mt)]. destruct Hc as [-> _]. rewrite <- concat_full in Hmt. apply elem_of_concat in Hmt as (ck & Hck & Hmt).
    apply list_elem_of_lookup in Hck as (i & Hi). destruct (Forall2_lookup_l _ _ _ _ _ Hts Hi) as (t & Hti & seq & mt0 & -> & Hm & _). destruct (meta_elem st ck seq mt0 mt Hm Hmt) as (t & tuples & -> & Hin).
    apply (below_step r mt0 t tuples); [|exact (md_child _ _ _ _ _ Hm)|done]. apply (IH L1 rest r eq_refl Ht1 Hr L1); [by left|by eapply list_elem_of_lookup_2].
Qed.
Lemma levels_made st olds : forall l L rest, olds = L :: rest -> tower (H0 := chunking_) st l olds -> forall L' mt, L' ∈ rest -> MItem mt ∈ L' -> exists l' ck seq, made (H0 := chunking_) l' st ck seq mt.
Proof.
  induction olds as [|L0 olds IH]; intros l L rest [= -> ->] Ht L' mt HL Hmt. destruct rest as [|L1 rest]; [by apply elem_of_nil in HL|]. inversion Ht as [|? ? cs r0 ? ? _ _ Hts _ Ht1]; subst. apply elem_of_cons in HL as [->|HL]; [|by apply (IH false L1 rest eq_refl Ht1 L')].
  apply list_elem_of_lookup in Hmt as (i & Hi). destruct (Forall2_lookup_r _ _ _ _ _ Hts Hi) as (ck & _ & seq & mt0 & [= <-] & Hm & _). by exists l, ck, seq.
Qed.
Lemma levels_compared st l La resta ra Lb restb rb : inv (chunking := chunking_) st -> tower (H0 := chunking_) st l (La :: resta) -> root_of (H0 := chunking_) st l (La :: resta) ra -> tower (H0 := chunking_) st l (Lb :: restb) -> root_of (H0 := chunking_) st l (Lb :: restb) rb ->
  no_collision vr ra rb -> tuples_compared resta restb.
Proof.
  intros Hinv Hta Hra Htb Hrb Hnc L L' mt mt' HL HL' Hmt Hmt' Heq. destruct (levels_made st _ l La resta eq_refl Hta L mt HL Hmt) as (la & cka & sa & Hma), (levels_made st _ l Lb restb eq_refl Htb L' mt' HL' Hmt') as (lb & ckb & sb & Hmb).
  destruct resta as [|L1 resta]; [by apply elem_of_nil in HL|]. destruct restb as [|L1' restb]; [by apply elem_of_nil in HL'|]. inversion Hta as [|? ? ? ? ? ? _ _ _ _ Hta1]; inversion Htb as [|? ? ? ? ? ? _ _ _ _ Htb1]; subst.
  pose proof (Hnc mt mt' (levels_below st _ L1 resta ra eq_refl Hta1 Hra L mt HL Hmt) (levels_below st _ L1' restb rb eq_refl Htb1 Hrb L' mt' HL' Hmt') Heq) as Hch.
  pose proof (md_child _ _ _ _ _ Hma) as Hca. pose proof (md_child _ _ _ _ _ Hmb) as Hcb. cbn [c_vr collection_chunking] in Hca, Hcb. rewrite Hca, Hcb in Hch. injection Hch as <-. pose proof (md_meta _ _ _ _ _ Hma) as Hea. rewrite (md_meta _ _ _ _ _ Hmb) in Hea. assert (la = lb) as <- by (by destruct la, lb).
  pose proof (md_items _ _ _ _ _ Hma) as Hia. rewrite (md_items _ _ _ _ _ Hmb) in Hia. subst cka. by destruct (made_fun _ _ _ _ _ _ _ Hinv Hma Hmb).
Qed.
Lemma tuples_fewer l st cs ts : Forall2 (tuple_of (H0 := chunking_) l st) cs ts -> (length ts <= length (concat cs))%nat.
Proof. induction 1 as [|ck t cs ts (seq & mt & _ & _ & Hne) _ IH]; cbn [concat length]; [lia|]. rewrite length_app. destruct ck; [done|]. cbn [length]. lia. Qed.
Lemma levels_bound st olds : forall l L rest, olds = L :: rest -> tower (H0 := chunking_) st l olds -> (levels_size olds <= length olds * S (length L))%nat.
Proof.
  induction olds as [|L0 olds IH]; intros l L rest [= -> ->] Ht. destruct rest as [|L1 rest]; [cbn [levels_size foldr length]; lia|]. inversion Ht as [|? ? cs r0 ? ? _ Hc Hts _ Ht1]; subst. specialize (IH false L1 rest eq_refl Ht1). pose proof (tuples_fewer _ _ _ _ Hts) as Hle. destruct Hc as [HL _]. rewrite concat_full, <- HL in Hle.
  cbn [levels_size foldr length] in *. fold (levels_size rest) in *. nia.
Qed.
(** A tree has one list of items. *)
Lemma has_tree_items n n' st items items' r : has_tree (H0 := chunking_) n st items r -> has_tree (H0 := chunking_) n' st items' r -> items = items'.
Proof.
  intros Ht Ht'. set (fuel := (n + n' + length items + length items' + 1)%nat). destruct (end_cursor vr fuel n st items r false false (st_tc st) Ht) as (olds & cur & Htw & Hat & Hc); [lia|by right|].
  destruct (end_cursor vr fuel n' st items' r false false (st_tc st) Ht') as (olds' & cur' & Htw' & Hat' & Hc'); [lia|by right|]. rewrite Hc in Hc'. injection Hc' as <-. cbn [end_of] in *.
  pose proof (iter_at _ _ _ (length items) Htw fuel _ _ Hat ltac:(lia) ltac:(lia)) as Hi. rewrite (iter_at _ _ _ (length items') Htw' fuel _ _ Hat' ltac:(lia) ltac:(lia)), !drop_0 in Hi. by injection Hi.
Qed.

Context {A : Type} (item : A -> sequenceItem) (key : A -> Value) (Hkey : forall x, or_key (item x) = Some (key x)).
Lemma tree_side n w w' es r : tree_at vr item key n w w' es r -> exists rest, side vr (MkState w' []) true (map item es :: rest) r /\ (levels_size (map item es :: rest) <= n * S (length es))%nat.
Proof.
  intros Ht. destruct (has_tree_tower _ _ _ _ (ta_tree _ _ _ _ _ _ _ _ Ht)) as (rest & Htw & Hro & Hlen). exists rest. split.
  - split; [done|done| |by eapply elems_sorted]. intros _. cbn [hd]. rewrite Zlength_map. apply Ht.
  - pose proof (levels_bound _ _ true _ rest eq_refl Htw) as Hb. rewrite length_map in Hb. nia.
Qed.
Lemma left_right_tree fuel n n' w w' es ra es' rb leaf_same : tree_at vr item key n w w' es ra -> tree_at vr item key n' w w' es' rb -> no_collision vr ra rb -> leaves_compared vr (MkState w' []) leaf_same (map item es) (map item es') -> ((n + n' + 4) * (length es + length es' + 2) <= fuel)%nat ->
  exists cs, orderedSequenceDiffLeftRight vr fuel (Some ra) (Some rb) w' = Ok (cs, w') /\ edits (key_rank key w) (fun x y => leaf_same (item x) (item y)) (fun x => Some (key x)) es es' cs.
Proof.
  intros Hta Htb Hnc Hlc Hf. destruct (tree_side _ _ _ _ _ Hta) as (resta & Hsa & Hla), (tree_side _ _ _ _ _ Htb) as (restb & Hsb & Hlb). assert (inv (chunking := chunking_) (MkState w' [])) as Hinv by exact (ta_typed _ _ _ _ _ _ _ _ Hta).
  assert (tuples_compared resta restb) as Htc by (eapply (levels_compared (MkState w' []) true); [exact Hinv|apply Hsa|apply Hsa|apply Hsb|apply Hsb|done]).
  destruct (left_right_ok vr (MkState w' []) Hinv leaf_same (map item es) resta ra (map item es') restb rb Hsa Hsb (conj Hlc Htc) fuel) as (cs & Hcs & Hd); [rewrite !length_map; nia|]. exists cs. split; [done|].
  eapply (edits_map item (key_rank key w)) in Hd; [|reflexivity|reflexivity|by eapply elem_ranks|by eapply elem_ranks]. clear -Hd Hkey. induction Hd as [|x y xs ys cs Hxy _ IH|x xs ys cs Hlt _ IH|y xs ys cs Hlt _ IH|x y xs ys cs Hxy Hr _ IH]; rewrite ?Hkey; by constructor.
Qed.
End trees.

End DiffFacts.
