(* ===== verification/MapDiffFacts.v ===== *)
(** * Package [types]: what the diffs of maps and sets report

    The left-right diff of two maps or sets reports every key at which they differ,
    once, in the order of the keys; and what [Diff] sends on does not depend on how
    the goroutines are scheduled. *)

From S2P Require Import Prelude GoLib HashPkg EditDistance TypesCodec TypesType TypesValue TypesIntern RollingHash Sequences Chunker Lists Ordered OrderedDiff ChunkerFacts CursorFacts TreeFacts EditFacts CacheFacts RecordFacts CollectionFacts IndexedFacts ListFacts OrderFacts OrderedFacts MapFacts SetFacts DiffFacts.
Import Hash Float64 NumberUtil Codec NomsKinds TypeCache Values Rolling Sequences Chunker Lists Ordered OrderedDiff.
Import ChunkerFacts CursorFacts TreeFacts EditFacts CacheFacts RecordFacts CollectionFacts IndexedFacts OrderFacts OrderedFacts DiffFacts.

(** Values that [Equals] compares without changing the cache. *)
Definition comparable (w : world) (us vs : list Value) : Prop := forall u v, u ∈ us -> v ∈ vs -> exists b, Equals u v w = Ok (b, w).
Definition same_value (w : world) (u v : Value) : bool := match Equals u v w with Ok (b, _) => b | Panic _ => false end.
(** The rank of the key that changed. *)
Definition change_rank (w : world) (c : ValueChanged) : rank_t := match change_V c with Some v => value_rank w v | None => [] end.

Module MapDiffFacts.

Lemma Equals_self v w b : Equals v v w = Ok (b, w) -> match v with Number f => IsNaN f = false | _ => True end -> b = true.
Proof.
  assert (same_hash v v w = Ok (b, w) -> b = true) as Hs.
  { unfold same_hash. destruct (getHash v w) as [[h1 w1]|] eqn:Hh; [|done]. cbn [obind]. apply getHash_replays in Hh as [_ Hr]. rewrite (Hr w1 (later_refl w1)). cbn [obind]. intros [= <- _]. by apply bool_decide_true. }
  destruct v; cbn [Equals]; try (intros He _; by apply Hs).
  - intros [= <-] _. apply eqb_reflx.
  - intros [= <-] Hn. destruct f as [n m e|n|]; cbn; [rewrite eqb_reflx, !Z.eqb_refl; apply orb_true_r|apply eqb_reflx|done].
  - intros [= <-] _. by apply bool_decide_true.
  - rewrite Nat.eqb_refl. by intros [= <-].
Qed.
Lemma record_not_NaN l v w r : record_value v (l, w) = Ok r -> match v with Number f => IsNaN f = false | _ => True end.
Proof.
  destruct v as [|f| | | | | | | |]; try done. unfold record_value. cbn [writeValue]. destruct (enc_appendType _ _) as [e|]; [|done]. cbn [obind]. destruct (Kind _ _) as [k|]; [|done]. cbn [obind]. destruct k; try done. by destruct (IsNaN f).
Qed.
(** A change at every rank at which the elements differ, in order. *)
Definition exact {A} (eqv : A -> A -> bool) (key : A -> Value) (w : world) (m m' : gmap rank_t A) (cs : list ValueChanged) : Prop :=
  ascending (change_rank w) cs /\ forall r, contents (change_rank w) cs !! r = change_at eqv (fun x => Some (key x)) (m !! r) (m' !! r).
Lemma change_at_ext {A} (R : A -> rank_t) (eqv eqv' : A -> A -> bool) key l l' r : (forall x y, R x = R y -> eqv x y = eqv' x y) -> change_at eqv key (contents R l !! r) (contents R l' !! r) = change_at eqv' key (contents R l !! r) (contents R l' !! r).
Proof. intros He. destruct (contents R l !! r) as [x|] eqn:Hx; [|done]. destruct (contents R l' !! r) as [y|] eqn:Hy; [|done]. apply contents_elem in Hx as [_ Hx], Hy as [_ Hy]. cbn. by rewrite He by congruence. Qed.
End MapDiffFacts.
Import MapDiffFacts.

(** ** Maps *)

Module MapDiff.
Import MapFacts.

Definition same_entry (w : world) (e e' : Value * Value) : bool := bool_decide (value_rank w e.1 = value_rank w e'.1) && same_value w e.2 e'.2.
Definition same_item (w : world) (x y : sequenceItem) : bool := match x, y with EItem k v, EItem k' v' => same_entry w (k, v) (k', v') | _, _ => false end.

Section maps.
Context `{GoSort} `{chunkingConfig} (vr : option (Hash -> option Value)).
#[local] Abbreviation map_tree := (tree_at vr entry_item fst).

Lemma leaf_made st ck seq mt : inv (chunking := collection_chunking vr) st -> made (H0 := collection_chunking vr) true st ck seq mt -> exists t data, seq = mapLeafSequence t data /\ ck = map entry_item data.
Proof.
  intros Hinv Hm. destruct (made_chunk vr true st ck seq mt Hinv Hm) as (col & n & w' & Hf & Hs). change (makeMapLeafChunkFn ck (st_tc st) = Ok (col, mt_key mt, n, w')) in Hf. unfold makeMapLeafChunkFn in Hf.
  destruct (all_ok as_entry ck) as [data|] eqn:Hv; [|done]. cbn [obind] in Hf. destruct (newMapLeafSequence data (st_tc st)) as [[s w1]|] eqn:Hl; [|done]. cbn [obind] in Hf. destruct (last_key _ w1) as [[key w2]|]; [|done]. cbn [obind] in Hf. injection Hf as <- _ _ _.
  injection Hs as <-. destruct (newMapLeaf_ok _ _ _ _ Hl) as [t ->]. exists t, data. split; [done|]. symmetry. apply (all_ok_inv _ entry_item) in Hv; [done|]. by intros [] ? [= <-].
Qed.
Lemma same_self w e : entry_ok w e -> (exists b, Equals e.2 e.2 w = Ok (b, w)) -> same_value w e.2 e.2 = true.
Proof.
  intros [_ (bs & Hr & _)] [b Hb]. unfold same_value. rewrite Hb. apply (Equals_self e.2 w); [done|]. unfold record in Hr. cbn [fold_w] in Hr. destruct (record_value e.1 ([], w)) as [[l1 w1]|]; [|done]. cbn [obind] in Hr.
  destruct (record_value e.2 (l1, w1)) as [r|] eqn:Hr'; [|done]. by eapply record_not_NaN.
Qed.
Lemma same_item_ok w w' n n' es ra es' rb : map_tree n w w' es ra -> map_tree n' w w' es' rb -> Forall (entry_ok w) es -> apart w (map fst es) (map fst es') -> comparable w (map snd es) (map snd es') ->
  leaves_compared vr (MkState w' []) (same_item w) (map entry_item es) (map entry_item es').
Proof.
  intros Hta Htb Hok Ha Hcp. pose proof (ta_later _ _ _ _ _ _ _ _ Hta) as Hl. pose proof (ta_typed _ _ _ _ _ _ _ _ Hta) as Hty. pose proof (ta_ok _ _ _ _ _ _ _ _ Hta) as Hoa. pose proof (ta_ok _ _ _ _ _ _ _ _ Htb) as Hob. rewrite Forall_forall in Hoa, Hob, Hok. split.
  - intros ck seq mt ck' seq' mt' i j x y Hm Hm' Hx Hy Hxa Hyb. destruct (leaf_made (MkState w' []) _ _ _ Hty Hm) as (t & data & -> & ->), (leaf_made (MkState w' []) _ _ _ Hty Hm') as (t' & data' & -> & ->). change (map entry_item ?l) with (entry_item <$> l) in *.
    rewrite list_lookup_fmap in Hx, Hy. apply fmap_Some in Hx as (e & Hx & ->), Hy as (e' & Hy & ->). apply list_elem_of_fmap in Hxa as (e0 & He & Hea), Hyb as (e0' & He' & Heb). assert (e0 = e) as -> by (by destruct e, e0; injection He as -> ->). assert (e0' = e') as -> by (by destruct e', e0'; injection He' as -> ->).
    cbn [compareFn st_tc]. rewrite (index_nat _ _ _ Hx), (index_nat _ _ _ Hy). cbn [obind]. pose proof (elem_sortable entry_item fst entry_key _ _ (Hoa e Hea)) as Hs. pose proof (elem_sortable entry_item fst entry_key _ _ (Hob e' Heb)) as Hs'.
    rewrite (Equals_values w' (map fst es) (map fst es')); [|done|by eapply apart_later|by apply (list_elem_of_fmap_2 fst)|by apply (list_elem_of_fmap_2 fst)|by eapply sortable_later|by eapply sortable_later]. cbn [obind]. rewrite !(value_rank_later w w') by done.
    unfold same_item, same_entry. cbn [entry_item fst snd]. destruct (Hcp e.2 e'.2) as [b Hb]; [by apply (list_elem_of_fmap_2 snd)|by apply (list_elem_of_fmap_2 snd)|]. unfold same_value. rewrite Hb. case_bool_decide; [|done]. cbn [andb]. by apply (Equals_replays _ _ _ _ _ Hb).
  - intros x y (e & -> & He)%list_elem_of_fmap (e' & -> & He')%list_elem_of_fmap. cbn. intros [Hr _]%andb_true_iff. apply bool_decide_eq_true in Hr. rewrite !(value_rank_later w w'); [done|done|by apply (elem_sortable entry_item fst entry_key), Hob|done|by apply (elem_sortable entry_item fst entry_key), Hoa].
  - intros x (e & -> & He)%list_elem_of_fmap (e' & Heq & He')%list_elem_of_fmap. assert (e' = e) as -> by (by destruct e, e'; injection Heq as -> ->). unfold same_item, same_entry. cbn [entry_item fst snd]. apply andb_true_iff. split; [by apply bool_decide_true|].
    apply same_self; [by apply Hok|]. apply Hcp; by apply (list_elem_of_fmap_2 snd).
Qed.
(** The left-right diff of the trees of two maps. *)
Lemma trees_diff fuel n n' w w' es ra es' rb : map_tree n w w' es ra -> map_tree n' w w' es' rb -> Forall (entry_ok w) es -> apart w (map fst es) (map fst es') -> comparable w (map snd es) (map snd es') -> no_collision vr ra rb -> ((n + n' + 4) * (length es + length es' + 2) <= fuel)%nat ->
  exists cs, orderedSequenceDiffLeftRight vr fuel (Some ra) (Some rb) w' = Ok (cs, w') /\ exact (fun e e' => same_value w e.2 e'.2) fst w (held w es) (held w es') cs.
Proof.
  intros Hta Htb Hok Ha Hcp Hnc Hf. destruct (left_right_tree vr entry_item fst entry_key fuel n n' w w' es ra es' rb (same_item w) Hta Htb Hnc (same_item_ok _ _ _ _ _ _ _ _ Hta Htb Hok Ha Hcp) Hf) as (cs & Hcs & Hd). exists cs. split; [done|].
  apply (edits_exact _ _ _ (change_rank w)) in Hd as [Hs Hc]; [|done|intros [k v] [k' v']; cbn; by intros [Hr%bool_decide_eq_true _]%andb_true_iff|apply Hta|apply Htb]. split; [done|]. intros r. rewrite Hc. apply change_at_ext. intros [k v] [k' v']. cbn. unfold key_rank, same_entry. cbn. intros ->. by rewrite bool_decide_true.
Qed.
Lemma trees_same n n' w w' es es' r : map_tree n w w' es r -> map_tree n' w w' es' r -> Forall (entry_ok w) es -> comparable w (map snd es) (map snd es') -> exact (fun e e' => same_value w e.2 e'.2) fst w (held w es) (held w es') [].
Proof.
  intros Ht Ht' Hok Hcp. assert (es' = es) as ->.
  { pose proof (has_tree_items vr _ _ _ _ _ _ (ta_tree _ _ _ _ _ _ _ _ Ht') (ta_tree _ _ _ _ _ _ _ _ Ht)) as Hm. apply (f_equal (all_ok as_entry)) in Hm. rewrite !all_entries in Hm. by injection Hm. }
  split; [constructor|]. intros r'. unfold contents at 1. cbn [foldl]. rewrite lookup_empty. destruct (held w es !! r') as [e|] eqn:He; [|done]. apply contents_elem in He as [He _]. cbn. rewrite Forall_forall in Hok. by rewrite same_self by first [by apply Hok|apply Hcp; by apply (list_elem_of_fmap_2 snd)].
Qed.
End maps.
(** The trees of the maps have no chunks that collide. *)
Definition maps_apart (vr : option (Hash -> option Value)) (m m' : Value) : Prop := match m, m' with Map r, Map r' => no_collision vr r r' | _, _ => True end.

Section theorems.
Context `{GoSort} `{chunkingConfig} (Hwin : 0 < chunkWindow < 2 ^ 32) (vr : option (Hash -> option Value)).

(** C5: The left-right diff of two maps reports exactly the keys at which they
    differ, once each and in the order of the keys: as added or removed where only
    one map has the key, as modified where the values differ.  The diff returns,
    although it skips every chunk that both trees have at any level; that is where
    chunks that differ must have different hashes. *)
Theorem map_diff_exact fuel n n' kvs kvs' w last w1 m w2 b w3 : world_ok w -> Forall (entry_ok w) kvs -> Forall (entry_ok w) kvs' -> apart w (map fst kvs) (map fst kvs) -> apart w (map fst kvs') (map fst kvs') -> apart w (map fst kvs) (map fst kvs') -> comparable w (map snd kvs) (map snd kvs') ->
  Zlength kvs < 2 ^ 63 -> Zlength kvs' < 2 ^ 63 -> NewMap vr n (flatten kvs) w = Ok (last, w1) -> NewMap vr n' (flatten kvs') w1 = Ok (m, w2) -> Equals m last w2 = Ok (b, w3) -> (b = true -> m = last) -> maps_apart vr last m -> ((n + n' + 4) * (length kvs + length kvs' + 2) <= fuel)%nat ->
  exists cs, Map_DiffLeftRight vr fuel m last w2 = Ok (cs, w3) /\ exact (fun e e' => same_value w e.2 e'.2) fst w (held w kvs) (held w kvs') cs.
Proof.
  intros Hw Hkv Hkv' Ha Ha' Haa Hcp Hlt Hlt' Hm Hr Heq Hb Hnc Hf. destruct (NewMap_tree vr Hwin n kvs w last w1 (world_typed w Hw) Hkv Ha Hlt Hm) as (es & ra & -> & Ht & Hc & Hin & Hlen).
  destruct (NewMap_later vr Hwin n' kvs' w w1 m w2 (ta_typed _ _ _ _ _ _ _ _ Ht) (ta_later _ _ _ _ _ _ _ _ Ht) Hkv' Ha' Hlt' Hr) as (Hl & es' & rb & -> & Ht' & Hc' & Hin' & Hlen'). rewrite <- Hc, <- Hc'. pose proof (Equals_replays _ _ _ _ _ Heq) as [Hl3 _].
  apply (tree_at_later _ _ _ _ _ _ w3) in Ht; [|by eapply later_trans]. apply (tree_at_later _ _ _ _ _ _ w3) in Ht'; [|done]. assert (Forall (entry_ok w) es) as Hok by (rewrite Forall_forall in *; auto).
  assert (apart w (map fst es) (map fst es')) as Haa' by (intros u v Hu Hv; apply Haa; by eapply keys_sub). assert (comparable w (map snd es) (map snd es')) as Hcp' by (intros u v (e & -> & He)%list_elem_of_fmap (e' & -> & He')%list_elem_of_fmap; apply Hcp; apply (list_elem_of_fmap_2 snd); auto).
  unfold Map_DiffLeftRight. rewrite Heq. cbn [obind map_seq]. destruct b; [exists []; split; [done|]; injection (Hb eq_refl) as ->; by eapply trees_same|]. apply (trees_diff vr fuel n n'); try done. nia.
Qed.

End theorems.

#[local] Existing Instance go_insertion_sort.
#[local] Existing Instance normalProductionChunks.
Definition is_leaf_map (m : Value) : bool := match m with Map (mapLeafSequence _ _) => true | _ => false end.
Lemma leaf_maps_apart vr m m' : is_leaf_map m = true -> maps_apart vr m m'.
Proof. destruct m as [| | | | |[]| | | |]; try done. intros _. destruct m'; try done. intros mt mt' Hmt. inversion Hmt. Qed.
Lemma numbers_comparable w ns ms : comparable w (map number ns) (map number ms).
Proof. intros u v (n & -> & _)%list_elem_of_fmap (m & -> & _)%list_elem_of_fmap. exists (eqb (of_int n) (of_int m)). unfold number. cbn [Equals]. reflexivity. Qed.
Lemma two_maps : match (let! (last, w1) := NewMap None 8 (flatten [entry 2 7; entry 1 8]) NewTypeCache in let! (m, w2) := NewMap None 8 (flatten [entry 2 9]) w1 in let! (b, _) := Equals m last w2 in Ok (negb b && is_leaf_map last)) with Ok b => b | Panic _ => false end = true.
Proof. vm_compute. reflexivity. Qed.
Lemma map_diff_exact_witness : exists last w1 m w2 w3 cs, NewMap None 8 (flatten [entry 2 7; entry 1 8]) NewTypeCache = Ok (last, w1) /\ NewMap None 8 (flatten [entry 2 9]) w1 = Ok (m, w2) /\ Map_DiffLeftRight None 200 m last w2 = Ok (cs, w3) /\
  contents (change_rank NewTypeCache) cs !! value_rank NewTypeCache (number 1) = Some (MkChange DiffChangeRemoved (Some (number 1))).
Proof.
  pose proof two_maps as Hok. destruct (NewMap None 8 _ NewTypeCache) as [[last w1]|] eqn:Hl; [|discriminate Hok]. cbn [obind] in Hok. destruct (NewMap None 8 (flatten [entry 2 9]) w1) as [[m w2]|] eqn:Hm; [|discriminate Hok]. cbn [obind] in Hok.
  destruct (Equals m last w2) as [[b w3]|] eqn:He; [|discriminate Hok]. cbn [obind] in Hok. destruct b; [discriminate Hok|].
  destruct (map_diff_exact ltac:(split; reflexivity) None 200 8 8 [entry 2 7; entry 1 8] [entry 2 9] NewTypeCache last w1 m w2 false w3) as (cs & Hcs & Hs & Hc);
    [exact new_world_ok|exact (proj1 (proj1 (Forall_app _ [entry 2 7; entry 1 8] [entry 2 9]) small_entries))|exact (proj2 (proj1 (Forall_app _ [entry 2 7; entry 1 8] [entry 2 9]) small_entries))|apply values_apart; repeat constructor|apply values_apart; repeat constructor|apply values_apart; repeat constructor| |reflexivity|reflexivity|exact Hl|exact Hm|exact He|discriminate|apply leaf_maps_apart; exact Hok|apply (proj1 (Nat.leb_le _ _)); reflexivity|].
  - exact (numbers_comparable _ [7; 8] [9]).
  - exists last, w1, m, w2, w3, cs. split; [reflexivity|]. split; [exact Hm|]. split; [exact Hcs|]. rewrite Hc. unfold held at 2. rewrite contents_none by (constructor; [exact numbers_differ|constructor]).
    change [entry 2 7; entry 1 8] with ([entry 2 7] ++ [entry 1 8]). unfold held. rewrite contents_snoc. change (key_rank fst NewTypeCache (entry 1 8)) with (value_rank NewTypeCache (number 1)). rewrite lookup_insert_eq. reflexivity.
Defined.
End MapDiff.
Import MapDiff.

(** ** Sets *)

Module SetDiff.
Import SetFacts.

Definition same_member (w : world) (x y : sequenceItem) : bool := match x, y with VItem v, VItem v' => bool_decide (value_rank w v = value_rank w v') | _, _ => false end.

Section sets.
Context `{GoSort} `{chunkingConfig} (vr : option (Hash -> option Value)).
#[local] Abbreviation set_tree := (tree_at vr VItem self).

Lemma set_leaf_made st ck seq mt : inv (chunking := collection_chunking vr) st -> made (H0 := collection_chunking vr) true st ck seq mt -> exists t data, seq = setLeafSequence t data /\ ck = map VItem data.
Proof.
  intros Hinv Hm. destruct (made_chunk vr true st ck seq mt Hinv Hm) as (col & n & w' & Hf & Hs). change (makeSetLeafChunkFn ck (st_tc st) = Ok (col, mt_key mt, n, w')) in Hf. unfold makeSetLeafChunkFn in Hf.
  destruct (all_ok as_value ck) as [data|] eqn:Hv; [|done]. cbn [obind] in Hf. destruct (newSetLeafSequence data (st_tc st)) as [[s w1]|] eqn:Hl; [|done]. cbn [obind] in Hf. destruct (last_key _ w1) as [[key w2]|]; [|done]. cbn [obind] in Hf. injection Hf as <- _ _ _.
  injection Hs as <-. destruct (newSetLeaf_ok _ _ _ _ Hl) as [t ->]. exists t, data. split; [done|]. symmetry. apply (all_ok_inv _ VItem) in Hv; [done|]. by intros [] ? [= <-].
Qed.
Lemma set_item_ok w w' n n' es ra es' rb : set_tree n w w' es ra -> set_tree n' w w' es' rb -> apart w es es' -> leaves_compared vr (MkState w' []) (same_member w) (map VItem es) (map VItem es').
Proof.
  intros Hta Htb Ha. pose proof (ta_later _ _ _ _ _ _ _ _ Hta) as Hl. pose proof (ta_typed _ _ _ _ _ _ _ _ Hta) as Hty. pose proof (ta_ok _ _ _ _ _ _ _ _ Hta) as Hoa. pose proof (ta_ok _ _ _ _ _ _ _ _ Htb) as Hob. rewrite Forall_forall in Hoa, Hob.
  assert (forall v, v ∈ es -> sortable w v) as Hsa by (intros v Hv; exact (elem_sortable VItem self value_key _ _ (Hoa v Hv))). assert (forall v, v ∈ es' -> sortable w v) as Hsb by (intros v Hv; exact (elem_sortable VItem self value_key _ _ (Hob v Hv))). split.
  - intros ck seq mt ck' seq' mt' i j x y Hm Hm' Hx Hy Hxa Hyb. destruct (set_leaf_made (MkState w' []) _ _ _ Hty Hm) as (t & data & -> & ->), (set_leaf_made (MkState w' []) _ _ _ Hty Hm') as (t' & data' & -> & ->). change (map VItem ?l) with (VItem <$> l) in *.
    rewrite list_lookup_fmap in Hx, Hy. apply fmap_Some in Hx as (v & Hx & ->), Hy as (v' & Hy & ->). apply list_elem_of_fmap in Hxa as (? & [= <-] & Hva), Hyb as (? & [= <-] & Hvb). cbn [compareFn st_tc]. rewrite (index_nat _ _ _ Hx), (index_nat _ _ _ Hy). cbn [obind].
    rewrite (Equals_values w' es es'); [|done|by eapply apart_later|done|done|by eapply sortable_later; [|apply Hsa]|by eapply sortable_later; [|apply Hsb]]. by rewrite !(value_rank_later w w') by auto.
  - intros x y (v & -> & Hv)%list_elem_of_fmap (v' & -> & Hv')%list_elem_of_fmap. cbn. intros Hr%bool_decide_eq_true. by rewrite !(value_rank_later w w') by auto.
  - intros x (v & -> & Hv)%list_elem_of_fmap _. by apply bool_decide_true.
Qed.
Lemma set_trees_diff fuel n n' w w' es ra es' rb : set_tree n w w' es ra -> set_tree n' w w' es' rb -> apart w es es' -> no_collision vr ra rb -> ((n + n' + 4) * (length es + length es' + 2) <= fuel)%nat ->
  exists cs, orderedSequenceDiffLeftRight vr fuel (Some ra) (Some rb) w' = Ok (cs, w') /\ exact (fun _ _ => true) self w (members w es) (members w es') cs.
Proof.
  intros Hta Htb Ha Hnc Hf. destruct (left_right_tree vr VItem self value_key fuel n n' w w' es ra es' rb (same_member w) Hta Htb Hnc (set_item_ok _ _ _ _ _ _ _ _ Hta Htb Ha) Hf) as (cs & Hcs & Hd). exists cs. split; [done|].
  apply (edits_exact _ _ _ (change_rank w)) in Hd as [Hs Hc]; [|done|intros v v'; cbn; by intros Hr%bool_decide_eq_true|apply Hta|apply Htb]. split; [done|]. intros r. rewrite Hc. apply change_at_ext. intros v v' Hr. cbn. by apply bool_decide_true.
Qed.
Lemma set_trees_same n n' w w' es es' r : set_tree n w w' es r -> set_tree n' w w' es' r -> exact (fun _ _ => true) self w (members w es) (members w es') [].
Proof.
  intros Ht Ht'. assert (es' = es) as ->.
  { pose proof (has_tree_items vr _ _ _ _ _ _ (ta_tree _ _ _ _ _ _ _ _ Ht') (ta_tree _ _ _ _ _ _ _ _ Ht)) as Hm. apply (f_equal (all_ok as_value)) in Hm. rewrite !all_values in Hm. by injection Hm. }
  split; [constructor|]. intros r'. unfold contents at 1. cbn [foldl]. rewrite lookup_empty. by destruct (members w es !! r').
Qed.
End sets.
Definition sets_apart (vr : option (Hash -> option Value)) (s s' : Value) : Prop := match s, s' with Set_ r, Set_ r' => no_collision vr r r' | _, _ => True end.

Section theorems.
Context `{GoSort} `{chunkingConfig} (Hwin : 0 < chunkWindow < 2 ^ 32) (vr : option (Hash -> option Value)).

(** C14: The left-right diff of two sets reports exactly the values that only one of
    them has, once each and in order, and nothing as modified. *)
Theorem set_diff_exact fuel n n' vs vs' w last w1 s w2 b w3 : world_ok w -> Forall (member_ok w) vs -> Forall (member_ok w) vs' -> apart w vs vs -> apart w vs' vs' -> apart w vs vs' ->
  Zlength vs < 2 ^ 63 -> Zlength vs' < 2 ^ 63 -> NewSet vr n vs w = Ok (last, w1) -> NewSet vr n' vs' w1 = Ok (s, w2) -> Equals s last w2 = Ok (b, w3) -> (b = true -> s = last) -> sets_apart vr last s -> ((n + n' + 4) * (length vs + length vs' + 2) <= fuel)%nat ->
  exists cs, Set_DiffLeftRight vr fuel s last w2 = Ok (cs, w3) /\ exact (fun _ _ => true) self w (members w vs) (members w vs') cs.
Proof.
  intros Hw Hv Hv' Ha Ha' Haa Hlt Hlt' Hm Hr Heq Hb Hnc Hf. destruct (NewSet_tree vr Hwin n vs w last w1 (world_typed w Hw) Hv Ha Hlt Hm) as (es & ra & -> & Ht & Hc & Hin & Hlen).
  destruct (NewSet_later vr Hwin n' vs' w w1 s w2 (ta_typed _ _ _ _ _ _ _ _ Ht) (ta_later _ _ _ _ _ _ _ _ Ht) Hv' Ha' Hlt' Hr) as (Hl & es' & rb & -> & Ht' & Hc' & Hin' & Hlen'). rewrite <- Hc, <- Hc'. pose proof (Equals_replays _ _ _ _ _ Heq) as [Hl3 _].
  apply (tree_at_later _ _ _ _ _ _ w3) in Ht; [|by eapply later_trans]. apply (tree_at_later _ _ _ _ _ _ w3) in Ht'; [|done]. assert (apart w es es') as Haa' by (intros u v Hu Hv2; apply Haa; auto).
  unfold Set_DiffLeftRight. rewrite Heq. cbn [obind set_seq]. destruct b; [exists []; split; [done|]; injection (Hb eq_refl) as ->; by eapply set_trees_same|]. apply (set_trees_diff vr fuel n n'); try done. nia.
Qed.
End theorems.

#[local] Existing Instance go_insertion_sort.
#[local] Existing Instance normalProductionChunks.
Definition is_leaf_set (s : Value) : bool := match s with Set_ (setLeafSequence _ _) => true | _ => false end.
Lemma leaf_sets_apart vr s s' : is_leaf_set s = true -> sets_apart vr s s'.
Proof. destruct s as [| | | | | |[]| | |]; try done. intros _. destruct s'; try done. intros mt mt' Hmt. inversion Hmt. Qed.
Lemma two_sets : match (let! (last, w1) := NewSet None 8 [number 2; number 1] NewTypeCache in let! (s, w2) := NewSet None 8 [number 2] w1 in let! (b, _) := Equals s last w2 in Ok (negb b && is_leaf_set last)) with Ok b => b | Panic _ => false end = true.
Proof. vm_compute. reflexivity. Qed.
Lemma set_diff_exact_witness : exists last w1 s w2 w3 cs, NewSet None 8 [number 2; number 1] NewTypeCache = Ok (last, w1) /\ NewSet None 8 [number 2] w1 = Ok (s, w2) /\ Set_DiffLeftRight None 200 s last w2 = Ok (cs, w3) /\
  contents (change_rank NewTypeCache) cs !! value_rank NewTypeCache (number 1) = Some (MkChange DiffChangeRemoved (Some (number 1))).
Proof.
  pose proof two_sets as Hok. destruct (NewSet None 8 _ NewTypeCache) as [[last w1]|] eqn:Hl; [|discriminate Hok]. cbn [obind] in Hok. destruct (NewSet None 8 [number 2] w1) as [[s w2]|] eqn:Hm; [|discriminate Hok]. cbn [obind] in Hok.
  destruct (Equals s last w2) as [[b w3]|] eqn:He; [|discriminate Hok]. cbn [obind] in Hok. destruct b; [discriminate Hok|]. pose proof (proj1 (proj1 (Forall_app _ [number 2; number 1] [number 3]) small_members)) as Hv.
  destruct (set_diff_exact ltac:(split; reflexivity) None 200 8 8 [number 2; number 1] [number 2] NewTypeCache last w1 s w2 false w3) as (cs & Hcs & Hs & Hc);
    [exact new_world_ok|exact Hv|exact (proj1 (proj1 (Forall_app _ [number 2] [number 1]) Hv))|apply values_apart; repeat constructor|apply values_apart; repeat constructor|apply values_apart; repeat constructor|reflexivity|reflexivity|exact Hl|exact Hm|exact He|discriminate|apply leaf_sets_apart; exact Hok|apply (proj1 (Nat.leb_le _ _)); reflexivity|].
  exists last, w1, s, w2, w3, cs. split; [reflexivity|]. split; [exact Hm|]. split; [exact Hcs|]. rewrite Hc. unfold members at 2. rewrite contents_none by (constructor; [exact numbers_differ|constructor]).
  change [number 2; number 1] with ([number 2] ++ [number 1]). unfold members. rewrite contents_snoc, lookup_insert_eq. reflexivity.
Defined.
End SetDiff.
Import SetDiff.

(** ** Both at once *)

Module BestDiff.
Lemma panic_stays {A} (f : A -> world -> stream) l cs p : foldl (fun s a => then_ s (f a)) (cs, Panic p) l = (cs, Panic p).
Proof. induction l as [|a l IH]; [done|exact IH]. Qed.
Lemma splices_from_nothing n : 0 < n -> EditDistance.calcSplices (fun _ _ => false) 0 n EditDistance.DEFAULT_MAX_SPLICE_MATRIX_SIZE = Ok [EditDistance.MkSplice 0 0 n 0].
Proof.
  intros Hn. unfold EditDistance.calcSplices, EditDistance.uint64Min. rewrite (proj2 (Z.ltb_lt _ _) Hn). cbn [EditDistance.sharedPrefix EditDistance.sharedPrefix_loop EditDistance.sharedSuffix EditDistance.sharedSuffix_loop Z.to_nat Z.sub Z.add Z.opp].
  unfold EditDistance.sharedPrefix, EditDistance.sharedSuffix. cbn. rewrite !Z.sub_0_r. destruct (Z.eqb_spec n 0); [lia|]. destruct n; try lia. done.
Qed.
Lemma nothing_to_tuples `{GoSort} vr fuel t tuples h w : tuples <> [] -> orderedSequenceDiffInternalNodes vr (S fuel) None (Some (metaSequence t tuples)) h h w = ([], Panic AssertFailed).
Proof.
  intros Hne. cbn [orderedSequenceDiffInternalNodes]. rewrite Z.ltb_irrefl. cbn [is_meta isMetaSequence negb andb meta_compareFn bind_ opt_seqLen]. rewrite splices_from_nothing; [done|]. unfold seqLen, Zlength. cbn [seq_items]. rewrite length_map. destruct tuples; [done|cbn; lia].
Qed.

(** The receives so far fit the changes [cs]. *)
Definition fits (cs : list ValueChanged) (s : best) : Prop :=
  if multiplexing s then exists l t, (t <= l <= length cs)%nat /\ b_lr s = drop l cs /\ b_td s = drop t cs /\ lrChangeCount s = Z.of_nat l /\ tdChangeCount s = Z.of_nat t /\ b_out s = take l cs
  else b_out s ++ b_td s = cs.
Definition weight (s : best) : nat := length (b_lr s) + length (b_td s).
Lemma best_progress cs e s : fits cs s -> best_step (Ok tt) e s = Finished cs \/ exists s', best_step (Ok tt) e s = Running s' /\ fits cs s' /\ (weight s' < weight s)%nat.
Proof.
  destruct s as [lr td lc tc m out]. unfold fits, weight, best_step. cbn [multiplexing b_lr b_td lrChangeCount tdChangeCount b_out]. destruct m; rewrite ?andb_true_r, ?andb_false_r; cbn [andb].
  - intros (l & t & Hlt & -> & -> & -> & -> & ->). destruct e.
    + destruct (drop l cs) as [|c lr] eqn:Hd; [left; rewrite take_ge by (apply (f_equal length) in Hd; rewrite length_drop in Hd; cbn in Hd; lia); by destruct (drop t cs)|]. right. eexists. split; [done|]. cbn [multiplexing b_lr b_td lrChangeCount tdChangeCount b_out length]. split; [|lia].
      pose proof (lookup_drop cs l 0) as Hl. rewrite Hd, Nat.add_0_r in Hl. symmetry in Hl. cbn in Hl. exists (S l), t. split; [apply lookup_lt_Some in Hl; lia|]. rewrite (drop_S _ _ _ Hl) in Hd. injection Hd as ->. rewrite (take_S_r _ _ _ Hl). split_and!; try done; lia.
    + destruct (drop t cs) as [|c td] eqn:Hd; [left; rewrite take_ge by (apply (f_equal length) in Hd; rewrite length_drop in Hd; cbn in Hd; lia); done|]. right. pose proof (lookup_drop cs t 0) as Hl. rewrite Hd, Nat.add_0_r in Hl. symmetry in Hl. cbn in Hl. rewrite (drop_S _ _ _ Hl) in Hd. injection Hd as <-.
      pose proof (lookup_lt_Some _ _ _ Hl). destruct (Z.ltb_spec (Z.of_nat l) (Z.of_nat t + 1)) as [Hov|Hov]; cbn [negb]; eexists; (split; [done|]); cbn [multiplexing b_lr b_td lrChangeCount tdChangeCount b_out length]; (split; [|lia]).
      * replace l with t by lia. rewrite <- (take_S_r _ _ _ Hl). apply take_drop.
      * exists l, (S t). split_and!; try done; lia.
  - intros <-. destruct td as [|c td]; [left; by rewrite app_nil_r|]. right. eexists. split; [done|]. cbn [multiplexing b_lr b_td lrChangeCount tdChangeCount b_out length]. split; [by rewrite <- app_assoc|lia].
Qed.
Lemma best_finishes cs schedule : forall s, fits cs s -> (weight s < length schedule)%nat -> best_run (Ok tt) schedule s = Finished cs.
Proof.
  induction schedule as [|e schedule IH]; intros s Hs Hw; cbn [length] in Hw; [lia|]. cbn [best_run]. destruct (best_progress cs e s Hs) as [->|(s' & -> & Hs' & Hlt)]; [done|]. apply IH; [done|lia].
Qed.
End BestDiff.
Import BestDiff.

(** C20: What [Diff] sends on does not depend on how the goroutines are scheduled:
    where the left-right diff and the top-down diff find the same changes, every
    order of receives ends, after at most one receive more than there are changes
    to receive, and has sent on exactly these changes in their order, none twice
    and none left out where the top-down diff overtakes. *)
Theorem diff_schedules `{GoSort} vr fuel schedule last current w cs w1 w2 : orderedSequenceDiffLeftRight vr fuel (Some last) (Some current) w = Ok (cs, w1) -> orderedSequenceDiffTopDown vr fuel last current w1 = (cs, Ok w2) -> (2 * length cs < length schedule)%nat ->
  orderedSequenceDiffBest vr fuel schedule last current w = Ok (Finished cs, w2).
Proof.
  intros Hlr Htd Hs. unfold orderedSequenceDiffBest. rewrite Hlr. cbn [obind]. rewrite Htd. rewrite (best_finishes cs); [done| |unfold weight; cbn; lia]. exists 0%nat, 0%nat. rewrite !drop_0. split; [lia|]. done.
Qed.
(** C37: The top-down diff panics on trees of three or more levels where a run of
    tuples was only added: the removed side of the splice is then an
    [emptySequence], which one level down is taken for a [metaSequence]. *)
Theorem diff_top_down_panics `{GoSort} vr fuel t tuples t' tuples' h w eqFn sp splices t2 tuples2 w' : meta_compareFn (Some (metaSequence t tuples)) (Some (metaSequence t' tuples')) = Ok eqFn ->
  EditDistance.calcSplices eqFn (Zlength tuples) (Zlength tuples') EditDistance.DEFAULT_MAX_SPLICE_MATRIX_SIZE = Ok (sp :: splices) -> EditDistance.SpRemoved sp = 0 -> getCompositeChildSequence vr t' tuples' (EditDistance.SpFrom sp) (EditDistance.SpAdded sp) w = Ok (Some (metaSequence t2 tuples2), w') -> tuples2 <> [] ->
  orderedSequenceDiffInternalNodes vr (S (S fuel)) (Some (metaSequence t tuples)) (Some (metaSequence t' tuples')) h h w = ([], Panic AssertFailed).
Proof.
  intros Hc Hsp Hr Hch Hne. remember (S fuel) as fuel' eqn:Hf. cbn [orderedSequenceDiffInternalNodes]. rewrite Z.ltb_irrefl. cbn [is_meta isMetaSequence negb andb]. rewrite Hc. cbn [bind_ opt_seqLen]. assert (forall u us, seqLen (metaSequence u us) = Zlength us) as Hl by (intros; unfold seqLen, Zlength; cbn; by rewrite length_map).
  rewrite !Hl, Hsp. cbn [bind_ foldl then_ as_meta obind]. rewrite Hr. assert (getCompositeChildSequence vr t tuples (EditDistance.SpAt sp) 0 w = Ok (None, w)) as -> by done. cbn [bind_]. rewrite Hch. cbn [bind_]. rewrite Hf, nothing_to_tuples by done. cbn [app]. apply panic_stays.
Qed.

#[local] Existing Instance go_insertion_sort.
#[local] Existing Instance normalProductionChunks.
Lemma diff_schedules_witness : orderedSequenceDiffBest None 20 [true; false; true] (mapLeafSequence BoolType [MapFacts.entry 1 8]) (mapLeafSequence BoolType []) NewTypeCache = Ok (Finished [MkChange DiffChangeRemoved (Some (number 1))], NewTypeCache).
Proof. apply (diff_schedules None 20 [true; false; true] _ _ NewTypeCache [MkChange DiffChangeRemoved (Some (number 1))] NewTypeCache NewTypeCache); [vm_compute; reflexivity|vm_compute; reflexivity|cbn; lia]. Defined.
(** A root with one tuple, and one with another after it, over leaves of one entry. *)
Definition tuple_for (seq : sequence) (key : Value) (w : world) : outcome (metaTuple * world) :=
  let! (ref, w) := NewRef (Map seq) w in let! (k, w) := newOrderedKey key w in Ok (MkMetaTuple ref k 1 (Some (Map seq)), w).
Definition branch (k : Z) (w : world) : outcome (metaTuple * world) :=
  let! (leaf, w) := newMapLeafSequence [MapFacts.entry k k] w in
  let! (mt, w) := tuple_for leaf (number k) w in
  let! (seq, w) := newMapMetaSequence [mt] w in
  tuple_for seq (number k) w.
Definition two_roots : outcome (ptr * list metaTuple * world) :=
  let! (a, w) := branch 1 NewTypeCache in
  let! (b, w) := branch 2 w in
  let! (seq, w) := newMapMetaSequence [a; b] w in
  Ok (seq_Type seq, [a; b], w).
Definition ok_or {A} (d : A) (o : outcome A) : A := match o with Ok a => a | Panic _ => d end.
Definition roots : ptr * list metaTuple * world := ok_or (BoolType, [], NewTypeCache) two_roots.
Definition roots_t : ptr := roots.1.1.
Definition roots_tuples : list metaTuple := roots.1.2.
Definition roots_world : world := roots.2.
Definition tuples_of (seq : option sequence) : list metaTuple := match seq with Some (metaSequence _ tuples) => tuples | _ => [] end.
Definition added_tuples : list metaTuple := tuples_of (ok_or (None, NewTypeCache) (getCompositeChildSequence None roots_t roots_tuples 1 1 roots_world)).1.
Lemma diff_top_down_panics_witness : length roots_tuples = 2%nat /\
  orderedSequenceDiffInternalNodes None 10 (Some (metaSequence roots_t (take 1 roots_tuples))) (Some (metaSequence roots_t roots_tuples)) 3 3 roots_world = ([], Panic AssertFailed).
Proof.
  split; [vm_compute; reflexivity|]. eapply (diff_top_down_panics None 8 roots_t (take 1 roots_tuples) roots_t roots_tuples 3 roots_world _ (EditDistance.MkSplice 1 0 1 1) [] roots_t added_tuples roots_world); [reflexivity|vm_compute; reflexivity|reflexivity|vm_compute; reflexivity|vm_compute; discriminate].
Defined.
